(* ===== verification/_CoqProject ===== *)
-Q . S2P
Prelude.v
Ordered.v
Packages.v
Resolver.v
ResolverCycle.v
ResolverSpec.v
ResolverSound.v
ResolverComplete.v
ResolverOrder.v
ResolverProps.v
Types.v
Ir.v
Niche.v
Scc.v
SccSound.v
SccProps.v
Wire.v
WireProps.v
Verify.v
Frame.v
Rc.v
ReuseCandidates.v
ReuseSizes.v
Reuse.v
RcFv.v
RcState.v
ReuseSound.v
RcFlat.v
WireRc.v
RcSound.v
RcOwned.v
Sem.v
Anf.v
RcSem.v
Insert.v
Purity.v
Trmc.v
TrmcSem.v
TrmcLaws.v
PuritySound.v
TrmcChain.v
TrmcTail.v
TrmcLoop.v
TrmcProps.v
Borrow.v
BorrowTail.v
Reassoc.v
Bounds.v
BoundsGraph.v
BoundsSem.v
BoundsFlow.v
BoundsScope.v
BoundsWalk.v
BoundsWalkSound.v
BoundsSig.v
BoundsSigSound.v
BoundsProps.v
Infer.v
InferOps.v
InferSem.v
InferStep.v
InferSpec.v
InferUnify.v
InferProps.v
Text.v
Literals.v
Lines.v
Tokens.v
Lexer.v
LexerSpec.v
LexerSound.v
LexerNumber.v
LexerProps.v
Layout.v
LayoutSpec.v
LayoutSound.v
LayoutProps.v
Exhaustive.v
ExhaustiveSem.v
ExhaustiveProps.v
