(* ===== verification/Prelude.v ===== *)
(** * Verification of the Fai compiler core

    Fai is a functional language with a native compiler in Rust (src/crates).  A package's
    dependencies are resolved (fai-package); a file is lexed and parsed (fai-syntax), its names
    resolved (fai-resolve), its types inferred and its matches checked (fai-types); typed
    functions are lowered to Core and simplified (fai-core); reference counts are inserted,
    dead cells recycled, tail calls made loops, bounds checks dropped and the counts verified
    (fai-rc); the result is emitted as native code (fai-codegen), in the same process or, over
    a wire form, in a worker.  This library models the algorithmic core of those stages and
    proves it correct.

    ** Conventions

    A Rust enum is an inductive with its constructors' names, behind a prefix where two enums
    would clash; a struct is a record; a map or set is a [gmap] or [gset], read in key order
    ([Ordered]) where the code iterates a [BTreeMap].  A method on [&mut self] passes the state;
    [option] carries a panic ([None]) where it is the only failure, [result] the code's own
    errors, and [run] adds exhaustion of fuel.  Machine integers are natural numbers or [Z] with
    their bound or wrap-around written at each operation that can meet it.

    ** Dependency resolution

    [Packages] has the metadata of identity.rs, version.rs and platform.rs, [Resolver] all of
    resolver.rs: selectors, the candidate cache, the backtracking [search], pins and targeted
    updates, cycle detection, the graph.  The semver crate is the class [Semver]; the provider
    of candidates is a parameter.  [ResolverSpec] states what a solution is and a logic for the
    resolver's methods.  A returned graph is a solution ([ResolverSound]).  A provider answers
    from one snapshot when there is a pool of candidates, of which it gives some, and all that
    match a selector asked for, with the branches asked for, for the pins and refreshes of the
    request; then a conservative resolution or an update of everything finds a solution
    whenever there is one ([ResolverComplete]).  A provider that reads the releases of a
    package only for some selectors is not of that kind, and [commit_is_no_release] shows a
    solution missed.  The order of a provider's answers is irrelevant ([ResolverOrder]); [has_cycle] decides cycles ([ResolverCycle]); and
    the resolver always returns.  The search recurses once for each selected package and the
    code stops it at depth 256, so 257 levels are the fuel; [has_cycle] takes as many rounds as
    there are packages, plus one.

    ** Text, literals, lines

    [Text]: characters, UTF-8 lengths, byte-offset slices.  [Literals]: literal.rs; an integer
    lexeme decodes to its two's-complement value exactly when its magnitude fits in 64 bits.
    The f64 parser is a parameter.  Escapes are decoded with the number of characters left as
    fuel, which is enough as every step consumes one.  [Lines]: line.rs; offsets on character
    boundaries and line-column positions are in bijection, and [offset] answers, with an offset
    or with none, for every position.

    ** Lexing and layout

    [Tokens]: token.rs and the ranges of span.rs; a diagnostic keeps its code and range.
    [Lexer] is lexer.rs, method by method.  [LexerSpec] is the lexical grammar, in relations
    with classes and tables of their own: a text is a sequence of blanks, lexemes, comments and
    rejected parts, each of its kind's shape up to where it ends - words and operators the
    longest, numbers with their digits, fraction, exponent and suffix, strings and characters
    with their escapes, comments with their nesting - and sound or not.  [LexerSound],
    [LexerNumber] and [LexerProps] prove that every text shorter than 4 GiB is read that way
    without a panic, that a piece has diagnostics exactly when it is not sound, and that a
    sound literal has a value.  Each turn of a loop consumes a character, so fuel above
    the text's length is enough for all of them.  [Layout] is layout.rs; [LayoutSpec] states
    the offside rule as a relation on tokens with lines and columns, [LayoutSound] proves the
    pass computes it with the positions of line.rs, and [LayoutProps] that the rule has one
    result, that blocks nest by their columns, and that any text is lexed and laid out.

    ** Components of dependent definitions

    [Scc] is scc.rs: the dependency graphs of a file, Tarjan's algorithm, the components that
    inference works on and the definitions that count as recursive.  [SccSound] proves the
    algorithm, with the active calls as ghost state: as many levels of recursion as the graph
    has nodes are enough, and the components closed are the classes of mutual reachability.
    [SccProps] draws the consequences for a file, with no dependence on the order of a hash map.

    ** Exhaustiveness of matches

    [Exhaustive] has the usefulness recursion of exhaustive.rs and the verdict of check_match.
    [ExhaustiveSem] gives patterns their meaning on values; [ExhaustiveProps] proves that on
    typed arms the check terminates (a weight of the matrix decreases) and reports exactly the
    missing values and the useless arms, and that a tuple pattern of another arity than the
    scrutinee makes it panic.  Field types of an applied union are a parameter ([adt_fields]).

    ** The inference solver

    [Infer] and [InferOps] have all of infer/ctx.rs.  [InferSem] reads a context as equations
    over types without variables; [InferStep] lists the kinds of change unification makes, with
    what each keeps; [InferSpec] is a logic of total correctness in which a method, given fuel
    enough, returns; [InferUnify] proves unification in it and [InferProps] states the theorems.
    They are about contexts whose records are closed with distinct labels and types without the
    error type: on these, unification terminates without a panic, equates the types, is most
    general (effects ignored), and keeps the levels generalization reads.  On open rows the
    same is false, and three examples show how: a binding can be overwritten
    ([row_binding_overwritten]), a row can come to hold itself ([row_holds_itself]), and binding
    a tail lowers no level ([row_keeps_level]).  The operations of [InferOps] are modelled and have no theorems yet.

    ** Core

    [Types]: ty.rs, ids.rs and evidence.rs.  [Ir]: the data of ir.rs, its primitive tables and
    its calling conventions.  [Niche]: niche.rs, and words at run time: under a niche [None] is
    the word of no payload.  [Sem] is an evaluator of Core, parametric in values, effects and
    the meaning of operations; the passes below are proved to preserve what it computes.
    [Reassoc]: reassoc.rs; concatenations are rebuilt leaning left, with operands and effects
    in order.  [Wire] is wire.rs and [WireProps] its round trip; [WireRc] shows that the
    worker's program gets the verdict of the original from the verifier.

    ** Bounds

    [Bounds] is bounds.rs: a graph of differences between integers and array lengths, its
    shortest paths and intervals, and the transfer of each Core form.  [BoundsGraph]: what the
    edges entail, and that as many rounds as terms decide it.  [BoundsSem] and [BoundsFlow]:
    the environments a graph describes, kept by every transfer.  [BoundsWalk] is the walk of
    bounds_sig.rs over a body, beside a relation [runs] of the ways a body can run, its loops
    included; [BoundsScope] has the binding discipline under which the walk cannot panic, and
    [BoundsWalkSound] proves that every call and result a run reaches is reported with a graph
    of its environment.  [BoundsSig] is the rest of bounds_sig.rs: facts on parameters and on
    results, the definitions eligible for them, the two loops of the entry fixpoint and the
    loop that couples it with the results; 64 rounds are the code's own bound.
    [BoundsSigSound] and [BoundsProps]: stable entry facts hold of every activation of an
    eligible definition, when the facts on results that are passed in do, calls are exact and
    loops carry neither an accumulator nor a hole.  Three modules show where the fixpoint's
    facts are not so: the turns of a loop with an accumulator are skipped
    ([accumulator_loop_skipped]), a call has more arguments than parameters
    ([over_application_skipped]), a chain of calls outlasts the rounds
    ([round_limit_unstable]).  The
    queries that supply bodies and the facts of other files are arguments; the facts on
    results are modelled, and have no theorem yet.

    ** Reference counting

    [Verify] is verify.rs, the specification the rest is proved against; [Frame] is its frame
    rule.  [Rc] has the insertion pass of fai-rc's lib.rs: fresh slots, A-normal form, free
    owned slots, precise counts.  [Anf] and [RcSem] prove the two passes well formed and
    meaning-preserving; [RcFv], [RcState], [RcSound] and [RcOwned] prove that every tree
    without an alias conflict is counted as the verifier demands.  [ReuseCandidates],
    [ReuseSizes] and [Reuse] are the reuse pass, with the scan budget the code has;
    [ReuseSound], [RcFlat] and [RcSem] prove that it keeps verdict and meaning.  [Insert]
    composes the passes as rc_lowered does: the pipeline is total, and the counted definition is
    accepted by [check_rc] when no operation lends and consumes one owned local
    ([fns_conflict_free]); a call that lends a dead local after it consumes it, which the
    insertion misses, is rejected.

    ** Tail calls

    [Purity] is purity.rs; its queries are a recursion by rounds over a table of definitions.
    [Trmc] is trmc.rs with int_add.rs: the fusion of self-calls through evidence, and the
    rewrite of a self-recursive body into a loop, plain, around a hole that the next turn
    fills, or with a sum.  [TrmcSem] runs programs: calls of their own definitions, loops,
    cells with a hole; literals, primitives, closures, data and other definitions are the
    class [Machine], whose laws are [MachineLaws], [PrimLaws] and [AddLaws].  [PrimLaws] says of
    the runtime, primitive by primitive and without reference to purity.rs, which primitives
    always return, that a division by another number than zero does, that values without
    functions can be compared and hashed, and that an empty array can be made.  A unit of fuel
    is one more nested call or turn of a loop, so that a call at the tail and a turn cost the
    same, and the two programs are equal at every fuel, also where they abort or run out.
    [TrmcLaws]: scoping, what a run keeps, and replacement of a definition by one that acts
    alike.  [PuritySound]: what is accepted as pure gives a value in every world.
    [TrmcChain]: paths to holes; [TrmcTail]: the chain of cells a turn links, and the
    simulation of a tail position; [TrmcLoop]: of the loops, plain and with a sum, and of
    fused calls.
    [TrmcProps] states the theorems, with a machine and programs they apply to.
    What the purity query answers is a parameter, with what it promises ([pure_ok]); the
    results of a sum are integers; the cells around a hole are neither niches nor hold the
    recursion as a raw number.  The code does not check the niche, and the example
    [niche_chain_breaks] shows what it makes of one.  Nor does it look at the reference counts it moves:
    the examples [lent_argument_released] and [pending_cell_released] are counted bodies
    [check_rc] accepts before they are flattened and not after.

    ** Borrow inference

    [Borrow] is borrow.rs, with the plan of borrow_scan.rs: the analysis of a body under a
    signature, the loop that takes loans back until the body demotes no parameter that is lent
    (one turn more than there are parameters), and what becomes of the signature then; a
    definition that takes evidence lends nothing.  A larger signature of a definition called makes more loans, so that definitions that call
    each other, with fewer than 100 parameters in all ([BORROW_FIXPOINT_BOUND]), have one
    greatest family of signatures, which iteration from the top reaches in any order.  The engine of queries is modelled as far as its documentation says how it
    iterates.  [BorrowTail] takes a signature through the insertion of [Insert]: arguments
    lent at the tail are the parameters themselves, so that nothing is released after a call
    that is to become a turn of a loop.

    ** Shared

    [Prelude]: results, panicking state, fuel, and generic list lemmas.  [Ordered]: ordered
    containers and stable sorting.

    ** Not modelled

    The parser of fai-syntax and the formatter: recursive descent over a third-party tree
    builder.  Name resolution, and the walk over the syntax tree that drives inference, kinds
    and interfaces: they read most of their input from queries.  Lowering and the simplifier;
    of fai-rc, escape analysis, forwarding and scalar replacement: the largest parts left,
    for which [Sem], [TrmcSem] and [Verify] are the semantics and the contract.  Code
    generation calls an external builder at every step; the runtime manages raw memory; the
    query database, package store, toolchain, driver, command line, language server and
    installer are glue over third-party crates and I/O. *)

From Stdlib Require Import ZArith Lia.
From stdpp Require Import base gmap sets list sorting strings numbers option.


#[export] Set Default Goal Selector "!".

(** ** Results: Rust's [Result<A, E>] *)

Inductive result (E A : Type) : Type :=
| Ok (a : A)
| Err (e : E).
Arguments Ok {E A} a.
Arguments Err {E A} e.

#[export] Instance result_ret {E} : MRet (result E) := fun _ a => Ok a.
#[export] Instance result_bind {E} : MBind (result E) := fun _ _ k m =>
  match m with Ok a => k a | Err e => Err e end.

Definition is_ok {E A} (r : result E A) : bool :=
  match r with Ok _ => true | Err _ => false end.

(** ** State passing with panics

    A Rust function that takes [&mut s] and may hit [unreachable!] or [expect]
    is a function of the state that returns [None] when the code panics. *)

Definition SM (S A : Type) : Type := S -> option (A * S).

#[export] Instance sm_ret {S} : MRet (SM S) := fun _ a s => Some (a, s).
#[export] Instance sm_bind {S} : MBind (SM S) := fun _ _ k m s =>
  match m s with Some (a, s') => k a s' | None => None end.

Definition panic {S A} : SM S A := fun _ => None.

Section SMap.
Context {S A B : Type} (f : A -> SM S B).

(** [xs.into_iter().map(|x| f(x, s)).collect()]: left to right. *)
Fixpoint smap (xs : list A) : SM S (list B) :=
  match xs with
  | [] => mret []
  | x :: xs => y ← f x; ys ← smap xs; mret (y :: ys)
  end.
End SMap.

(** ** Runs

    A recursion that is not structural takes fuel; an index out of range or a failed [expect]
    panics. *)

Inductive run (A : Type) : Type :=
| Done (a : A)
| Panicked
| Exhausted.
Arguments Done {A} a.
Arguments Panicked {A}.
Arguments Exhausted {A}.

#[export] Instance run_ret : MRet run := fun _ a => Done a.
#[export] Instance run_bind : MBind run := fun _ _ k m =>
  match m with Done a => k a | Panicked => Panicked | Exhausted => Exhausted end.

(** A method on a state, over runs. *)
Definition SR (S A : Type) : Type := S -> run (A * S).

#[export] Instance sr_ret {S} : MRet (SR S) := fun _ a s => Done (a, s).
#[export] Instance sr_bind {S} : MBind (SR S) := fun _ _ k m s =>
  match m s with Done (a, s') => k a s' | Panicked => Panicked | Exhausted => Exhausted end.

(** A part that reads the state, a write, an [expect]. *)
Definition asks {S A} (f : S -> run A) : SR S A := fun s =>
  match f s with Done a => Done (a, s) | Panicked => Panicked | Exhausted => Exhausted end.
Definition modify {S} (f : S -> S) : SR S () := fun s => Done ((), f s).
Definition unwrap {A} (o : option A) : run A :=
  match o with Some a => Done a | None => Panicked end.

(** Total correctness: the method returns, and what it returns satisfies [Q]. *)
Definition ends {S A} (m : SR S A) (s : S) (Q : A -> S -> Prop) : Prop :=
  exists a s', m s = Done (a, s') /\ Q a s'.

Section Ends.
Context {S A B : Type}.

Lemma ends_ret (a : A) (s : S) Q : Q a s -> ends (mret a) s Q.
Proof. intros HQ. by exists a, s. Qed.

Lemma ends_bind (m : SR S A) (k : A -> SR S B) s Q :
  ends m s (fun a s' => ends (k a) s' Q) -> ends (m ≫= k) s Q.
Proof.
  intros (a & s1 & Hm & b & s2 & Hk & HQ). exists b, s2. unfold mbind, sr_bind. by rewrite Hm.
Qed.

Lemma ends_mono (m : SR S A) s (P Q : A -> S -> Prop) :
  ends m s P -> (forall a s', P a s' -> Q a s') -> ends m s Q.
Proof. intros (a & s' & Hm & HP) HPQ. exists a, s'. auto. Qed.

Lemma ends_asks (f : S -> run A) s a Q : f s = Done a -> Q a s -> ends (asks f) s Q.
Proof. intros Hf HQ. exists a, s. unfold asks. by rewrite Hf. Qed.

Lemma ends_modify (f : S -> S) s (Q : unit -> S -> Prop) : Q () (f s) -> ends (modify f) s Q.
Proof. intros HQ. by exists (), (f s). Qed.
End Ends.

Lemma sr_step {S A B} (m : SR S A) (k : A -> SR S B) s a s' : m s = Done (a, s') -> (m ≫= k) s = k a s'.
Proof. intros Hm. unfold mbind, sr_bind. by rewrite Hm. Qed.

Section ForEach.
Context {S A : Type} (f : A -> SR S ()).

(** [for x in xs { f(x) }] *)
Fixpoint for_each (xs : list A) : SR S () :=
  match xs with
  | [] => mret ()
  | x :: xs => _ ← f x; for_each xs
  end.
End ForEach.

(** ** Lists *)

(** Rust's [slice.get(i).copied().unwrap_or(false)]. *)
Definition nth_flag (bs : list bool) (i : nat) : bool :=
  match bs !! i with Some b => b | None => false end.

(** Rust's [Vec::dedup]: consecutive repetitions collapse. *)
Fixpoint dedup (xs : list nat) : list nat :=
  match xs with
  | [] => []
  | x :: xs' =>
      match xs' with
      | [] => [x]
      | y :: _ => if Nat.eqb x y then dedup xs' else x :: dedup xs'
      end
  end.

(** [sort_by_key(|l| l.index())] followed by [dedup]. *)
Definition sort_dedup (xs : list nat) : list nat := dedup (merge_sort le xs).

Lemma elem_of_dedup x xs : x ∈ dedup xs ↔ x ∈ xs.
Proof.
  induction xs as [|a xs IH]; [done|].
  simpl. destruct xs as [|b xs]; [done|].
  destruct (Nat.eqb_spec a b) as [->|_].
  - rewrite IH, !elem_of_cons. tauto.
  - rewrite elem_of_cons, IH, !elem_of_cons. tauto.
Qed.

Lemma StronglySorted_dedup xs : StronglySorted le xs -> StronglySorted lt (dedup xs).
Proof.
  induction 1 as [|a xs Hs IH Ha]; [constructor|].
  simpl. destruct xs as [|b xs]; [repeat constructor|].
  destruct (Nat.eqb_spec a b) as [->|Hne]; [done|].
  constructor; [done|].
  apply list.Forall_forall. intros x Hx. apply (proj1 (elem_of_dedup _ _)) in Hx.
  assert (a ≤ b) by (by inversion Ha).
  apply StronglySorted_inv in Hs as [_ Hb].
  apply elem_of_cons in Hx as [->|Hx]; [lia|].
  rewrite list.Forall_forall in Hb. specialize (Hb x Hx). lia.
Qed.

Lemma NoDup_strictly_sorted xs : StronglySorted lt xs -> NoDup xs.
Proof.
  induction 1 as [|a xs Hs IH Ha]; constructor; [|done].
  intros Hin. rewrite list.Forall_forall in Ha. specialize (Ha a Hin). lia.
Qed.

Lemma elem_of_sort_dedup x xs : x ∈ sort_dedup xs ↔ x ∈ xs.
Proof. unfold sort_dedup. rewrite elem_of_dedup. by rewrite merge_sort_Permutation. Qed.

Lemma NoDup_sort_dedup xs : NoDup (sort_dedup xs).
Proof.
  apply NoDup_strictly_sorted, StronglySorted_dedup, StronglySorted_merge_sort; [|apply _].
  intros a b c. lia.
Qed.

Lemma sort_dedup_ext xs ys : (forall x, x ∈ xs ↔ x ∈ ys) -> sort_dedup xs ≡ₚ sort_dedup ys.
Proof.
  intros H. apply NoDup_Permutation; [apply NoDup_sort_dedup..|].
  intros x. by rewrite !elem_of_sort_dedup.
Qed.

(** Injectivity of a table on an enumeration without repeated images. *)
Lemma table_injective {A B} (f : A -> B) (xs : list A) (x y : A) :
  NoDup (f <$> xs) -> x ∈ xs -> y ∈ xs -> f x = f y -> x = y.
Proof.
  intros Hnd Hx Hy Hf.
  apply list_elem_of_lookup in Hx as [i Hi].
  apply list_elem_of_lookup in Hy as [j Hj].
  assert (i = j) as ->; [|congruence].
  apply (NoDup_lookup (f <$> xs) i j (f x)); [done| |];
    rewrite list_lookup_fmap; rewrite ?Hi, ?Hj; simpl; congruence.
Qed.

(** A bound on the elements of a concrete list, checked by evaluation. *)
Lemma below_list (l : list nat) (n : nat) :
  forallb (fun x => x <? n) l = true -> forall x, x ∈ l -> x < n.
Proof.
  rewrite forallb_forall. intros H x Hx%list_elem_of_In. by apply Nat.ltb_lt, H.
Qed.

Lemma elem_of_concat {A} (x : A) xss : x ∈ concat xss ↔ exists xs, x ∈ xs /\ xs ∈ xss.
Proof.
  induction xss as [|ys xss IH]; simpl; [set_solver|]. rewrite elem_of_app, IH. set_solver.
Qed.

Lemma size_list_to_set_le `{Countable K} (xs : list K) : size (list_to_set xs : gset K) <= length xs.
Proof.
  induction xs as [|x xs IH]; [done|]. cbn [list_to_set length].
  change (list_to_set (x :: xs) : gset K) with ({[x]} ∪ list_to_set xs : gset K).
  destruct (decide (x ∈ (list_to_set xs : gset K))) as [Hx|Hx].
  - rewrite subseteq_union_1_L by set_solver. lia.
  - rewrite size_union by set_solver. rewrite size_singleton. lia.
Qed.
