(* ===== verification/Ordered.v ===== *)
(** * Ordered containers

    Rust's [BTreeMap] and [BTreeSet] are finite maps and sets read in key order, [sort_by] is
    a stable sort and [Vec::dedup] drops consecutive repetitions.  The order of a key is the
    class [Ordered]; its laws are stdpp's [PartialOrder] and [Total]. *)

From S2P Require Import Prelude.
From stdpp Require Import gmap list sorting strings.

(** ** Orders *)

Class Ordered (K : Type) := {
  ord_le : relation K;
  ord_le_dec :: RelDecision ord_le }.

(** [Ord] of [str]: the bytes, lexicographically. *)
#[export] Instance string_ordered : Ordered string := {| ord_le := String.le |}.

(** The lexicographic order derived on a struct of strings. *)
Fixpoint fields_le (xs ys : list string) : bool :=
  match xs, ys with
  | [], _ => true
  | _ :: _, [] => false
  | x :: xs, y :: ys => if decide (x = y) then fields_le xs ys else bool_decide (String.le x y)
  end.

(** The order derived on an enum: the variant first, then its fields. *)
Definition variant_le (x y : nat * list string) : bool :=
  (x.1 <? y.1) || ((x.1 =? y.1) && fields_le x.2 y.2).

Lemma fields_le_refl xs : fields_le xs xs = true.
Proof. induction xs; [done|]. simpl. by rewrite decide_True. Qed.

Lemma fields_le_total xs ys : fields_le xs ys = true \/ fields_le ys xs = true.
Proof.
  revert ys; induction xs as [|x xs IH]; intros [|y ys]; simpl; auto.
  destruct (decide (x = y)) as [->|Hne].
  - rewrite decide_True by done. apply IH.
  - rewrite decide_False by done. rewrite !bool_decide_eq_true. apply (total String.le).
Qed.

Lemma fields_le_antisym xs ys : fields_le xs ys = true -> fields_le ys xs = true -> xs = ys.
Proof.
  revert ys; induction xs as [|x xs IH]; intros [|y ys]; simpl; try done.
  destruct (decide (x = y)) as [->|Hne].
  - rewrite decide_True by done. intros. f_equal; auto.
  - rewrite decide_False by done. rewrite !bool_decide_eq_true. intros.
    destruct Hne. by apply (anti_symm String.le).
Qed.

Lemma fields_le_trans xs ys zs :
  fields_le xs ys = true -> fields_le ys zs = true -> fields_le xs zs = true.
Proof.
  revert ys zs; induction xs as [|x xs IH]; intros [|y ys] [|z zs]; simpl; try done.
  destruct (decide (x = y)) as [->|Hxy], (decide (y = z)) as [->|Hyz].
  - apply IH.
  - done.
  - by rewrite decide_False by done.
  - rewrite !bool_decide_eq_true. intros H1 H2. destruct (decide (x = z)) as [->|Hxz].
    + destruct Hxy. by apply (anti_symm String.le).
    + apply bool_decide_eq_true. by etrans.
Qed.

Lemma variant_le_refl x : variant_le x x = true.
Proof. unfold variant_le. rewrite Nat.eqb_refl, fields_le_refl. apply orb_true_r. Qed.

Lemma variant_le_total x y : variant_le x y = true \/ variant_le y x = true.
Proof.
  unfold variant_le. rewrite !orb_true_iff, !andb_true_iff, !Nat.ltb_lt, !Nat.eqb_eq.
  destruct (lt_eq_lt_dec x.1 y.1) as [[?|?]|?]; [tauto| |tauto].
  destruct (fields_le_total x.2 y.2); [left|right]; right; auto.
Qed.

Lemma variant_le_antisym x y : variant_le x y = true -> variant_le y x = true -> x = y.
Proof.
  unfold variant_le. rewrite !orb_true_iff, !andb_true_iff, !Nat.ltb_lt, !Nat.eqb_eq.
  destruct x as [i xs], y as [j ys]; simpl.
  intros [?|[-> ?]] [?|[? ?]]; try lia. f_equal. by apply fields_le_antisym.
Qed.

Lemma variant_le_trans x y z :
  variant_le x y = true -> variant_le y z = true -> variant_le x z = true.
Proof.
  unfold variant_le. rewrite !orb_true_iff, !andb_true_iff, !Nat.ltb_lt, !Nat.eqb_eq.
  intros [?|[? ?]] [?|[? ?]]; [left; lia..|]. right. split; [lia|]. by eapply fields_le_trans.
Qed.

(** A key ordered by its variant and fields. *)
Section ByVariant.
Context {K : Type} (words : K -> nat * list string).

Definition by_variant : relation K := fun x y => variant_le (words x) (words y) = true.

#[export] Instance by_variant_dec : RelDecision by_variant.
Proof. intros x y. unfold by_variant. apply _. Defined.

#[export] Instance by_variant_po `{!Inj (=) (=) words} : PartialOrder by_variant.
Proof.
  unfold by_variant. split; [split|].
  - intros x. apply variant_le_refl.
  - intros x y z. apply variant_le_trans.
  - intros x y H1 H2. apply (inj words). by apply variant_le_antisym.
Qed.

#[export] Instance by_variant_total : Total by_variant.
Proof. intros x y. apply variant_le_total. Qed.
End ByVariant.

(** ** Stable sorting *)

Section Sort.
Context {A : Type} (le : relation A) `{!RelDecision le}.

Fixpoint insert_by (x : A) (ys : list A) : list A :=
  match ys with
  | [] => [x]
  | y :: ys' => if decide (le x y) then x :: ys else y :: insert_by x ys'
  end.

(** [sort_by]: elements that compare equal keep their order. *)
Definition sort_by (xs : list A) : list A := foldr insert_by [] xs.

Lemma insert_by_perm x ys : insert_by x ys ≡ₚ x :: ys.
Proof.
  induction ys as [|y ys IH]; simpl; [done|].
  case_decide; [done|]. rewrite IH. apply Permutation_swap.
Qed.

Lemma sort_by_perm xs : sort_by xs ≡ₚ xs.
Proof. induction xs as [|x xs IH]; simpl; [done|]. by rewrite insert_by_perm, IH. Qed.

Lemma insert_by_sorted `{!Total le, !Transitive le} x ys :
  StronglySorted le ys -> StronglySorted le (insert_by x ys).
Proof.
  induction 1 as [|y ys Hs IH Hy]; simpl; [repeat constructor|].
  case_decide as Hxy.
  - constructor; [by constructor|]. constructor; [done|].
    eapply Forall_impl; [exact Hy|]. intros z ?. by etrans.
  - constructor; [done|]. rewrite insert_by_perm. constructor; [|done].
    by destruct (total le x y).
Qed.

Lemma sort_by_sorted `{!Total le, !Transitive le} xs : StronglySorted le (sort_by xs).
Proof. induction xs; simpl; [constructor|]. by apply insert_by_sorted. Qed.

(** Sorting forgets the order of its input when the order is antisymmetric on it. *)
Lemma sorted_unique xs ys :
  (forall x y, x ∈ xs -> y ∈ xs -> le x y -> le y x -> x = y) ->
  StronglySorted le xs -> StronglySorted le ys -> xs ≡ₚ ys -> xs = ys.
Proof.
  intros Hanti Hxs. revert ys Hanti.
  induction Hxs as [|x xs Hs IH Hx]; intros ys Hanti Hys Hp; [by apply Permutation_nil in Hp|].
  destruct Hys as [|y ys Hs' Hy]; [by apply symmetry, Permutation_nil in Hp|].
  rewrite list.Forall_forall in Hx, Hy.
  assert (x = y) as ->.
  { assert (x ∈ y :: ys) as [->|Hin]%elem_of_cons by (rewrite <- Hp; left); [done|].
    assert (y ∈ x :: xs) as [->|Hin']%elem_of_cons by (rewrite Hp; left); [done|].
    apply Hanti; [left|by right| |]; auto. }
  f_equal. apply IH; [|done|by apply Permutation_cons_inv in Hp].
  intros a b Ha Hb. apply Hanti; by right.
Qed.

Lemma sort_by_permutation `{!Total le, !Transitive le} xs ys :
  (forall x y, x ∈ xs -> y ∈ xs -> le x y -> le y x -> x = y) ->
  xs ≡ₚ ys -> sort_by xs = sort_by ys.
Proof.
  intros Hanti Hp. apply sorted_unique; [|apply sort_by_sorted..|].
  - intros x y. rewrite !sort_by_perm. apply Hanti.
  - by rewrite !sort_by_perm.
Qed.
End Sort.

(** [Vec::dedup] *)
Fixpoint dedup_by `{EqDecision A} (xs : list A) : list A :=
  match xs with
  | [] => []
  | x :: xs' =>
      match xs' with
      | [] => [x]
      | y :: _ => if decide (x = y) then dedup_by xs' else x :: dedup_by xs'
      end
  end.

Lemma elem_of_dedup_by `{EqDecision A} (x : A) xs : x ∈ dedup_by xs ↔ x ∈ xs.
Proof.
  induction xs as [|a xs IH]; [done|].
  simpl. destruct xs as [|b xs]; [done|].
  case_decide as Hd.
  - subst. rewrite IH, !elem_of_cons. tauto.
  - rewrite elem_of_cons, IH, !elem_of_cons. tauto.
Qed.

(** ** Maps in key order *)

Section Items.
Context {K : Type} `{Countable K, !Ordered K} {V : Type}.

Definition item_le : relation (K * V) := fun p q => ord_le p.1 q.1.

#[export] Instance item_le_dec : RelDecision item_le.
Proof. intros p q. unfold item_le. apply ord_le_dec. Defined.

(** [BTreeMap::iter] *)
Definition items (m : gmap K V) : list (K * V) := sort_by item_le (map_to_list m).
(** [BTreeMap::keys], [BTreeMap::values] *)
Definition keys (m : gmap K V) : list K := (items m).*1.
Definition values (m : gmap K V) : list V := (items m).*2.

Lemma items_perm m : items m ≡ₚ map_to_list m.
Proof. apply sort_by_perm. Qed.

Lemma elem_of_items m k v : (k, v) ∈ items m ↔ m !! k = Some v.
Proof. by rewrite items_perm, elem_of_map_to_list. Qed.

Lemma elem_of_keys m k : k ∈ keys m ↔ is_Some (m !! k).
Proof.
  unfold keys, is_Some. rewrite list_elem_of_fmap. split.
  - intros [[k' v] [-> Hin]]. exists v. by apply elem_of_items.
  - intros [v Hv]. exists (k, v). split; [done|]. by apply elem_of_items.
Qed.

Lemma elem_of_values m v : v ∈ values m ↔ exists k, m !! k = Some v.
Proof.
  unfold values. rewrite list_elem_of_fmap. split.
  - intros [[k v'] [-> Hin]]. exists k. by apply elem_of_items.
  - intros [k Hk]. exists (k, v). split; [done|]. by apply elem_of_items.
Qed.

Lemma NoDup_keys m : NoDup (keys m).
Proof. unfold keys. rewrite items_perm. apply NoDup_fst_map_to_list. Qed.

Lemma NoDup_items m : NoDup (items m).
Proof. rewrite items_perm. apply NoDup_map_to_list. Qed.

Lemma length_items m : length (items m) = size m.
Proof. rewrite items_perm. apply length_map_to_list. Qed.
End Items.

(** [BTreeSet::iter] *)
Definition set_items `{Countable K, !Ordered K} (s : gset K) : list K :=
  sort_by ord_le (elements s).

Lemma elem_of_set_items `{Countable K, !Ordered K} (s : gset K) k : k ∈ set_items s ↔ k ∈ s.
Proof. unfold set_items. by rewrite sort_by_perm, elem_of_elements. Qed.
