(* ===== verification/Packages.v ===== *)
(** * Package metadata

    fai-package's [identity.rs], [version.rs], [platform.rs] and the data of [resolver.rs].
    The [semver] crate is the class [Semver]: a version, a comparator set, the order on
    versions and the test of a comparator set. *)

From S2P Require Import Prelude Ordered.
From stdpp Require Import gmap list strings.

(** The parts of the [semver] crate the package manager uses. *)
Class Semver := {
  Version : Type;
  VersionReq : Type;
  version_eq_dec :: EqDecision Version;
  version_req_eq_dec :: EqDecision VersionReq;
  version_le : relation Version;
  version_le_dec :: RelDecision version_le;
  req_matches : VersionReq -> Version -> bool }.

(** [Version]'s documented [Ord]: a total order. *)
Class SemverLaws `{Semver} := {
  version_po :: PartialOrder version_le;
  version_total :: Total version_le }.

(** ** Identities *)

Definition DependencyAlias := string.
Definition GitBranch := string.
Definition GitRevision := string.

Record GitPackage := MkGitPackage { repository : string; subdir : string }.
#[export] Instance GitPackage_eq_dec : EqDecision GitPackage.
Proof. solve_decision. Defined.

(** [PackageKey] *)
Inductive PackageKey :=
| PK_Git (package : GitPackage)
| PK_Path (path : string).
#[export] Instance PackageKey_eq_dec : EqDecision PackageKey.
Proof. solve_decision. Defined.

Definition key_words (key : PackageKey) : nat * list string :=
  match key with
  | PK_Git package => (0, [repository package; subdir package])
  | PK_Path path => (1, [path])
  end.
Definition key_of_words (w : nat * list string) : option PackageKey :=
  match w with
  | (0, [r; d]) => Some (PK_Git (MkGitPackage r d))
  | (1, [p]) => Some (PK_Path p)
  | _ => None
  end.
Lemma key_of_words_words key : key_of_words (key_words key) = Some key.
Proof. by destruct key as [[]|]. Qed.
#[export] Instance key_words_inj : Inj (=) (=) key_words.
Proof.
  intros x y Heq. apply (inj Some). by rewrite <- !key_of_words_words, Heq.
Qed.
#[export] Instance PackageKey_countable : Countable PackageKey :=
  inj_countable key_words key_of_words key_of_words_words.
#[export] Instance PackageKey_ordered : Ordered PackageKey := {| ord_le := by_variant key_words |}.

(** [PackageSource] *)
Inductive PackageSource :=
| PS_Git (package : GitPackage) (revision : GitRevision)
| PS_Path (path : string).
#[export] Instance PackageSource_eq_dec : EqDecision PackageSource.
Proof. solve_decision. Defined.

Definition source_words (source : PackageSource) : nat * list string :=
  match source with
  | PS_Git package revision => (0, [repository package; subdir package; revision])
  | PS_Path path => (1, [path])
  end.
Definition source_of_words (w : nat * list string) : option PackageSource :=
  match w with
  | (0, [r; d; v]) => Some (PS_Git (MkGitPackage r d) v)
  | (1, [p]) => Some (PS_Path p)
  | _ => None
  end.
Lemma source_of_words_words source : source_of_words (source_words source) = Some source.
Proof. by destruct source as [[]|]. Qed.
#[export] Instance source_words_inj : Inj (=) (=) source_words.
Proof.
  intros x y Heq. apply (inj Some). by rewrite <- !source_of_words_words, Heq.
Qed.
#[export] Instance PackageSource_countable : Countable PackageSource :=
  inj_countable source_words source_of_words source_of_words_words.
Definition source_le : relation PackageSource := by_variant source_words.

(** ** Platforms *)

(** [TargetPlatform]: the selector values the predicates read. *)
Record TargetPlatform := MkTargetPlatform {
  tp_os : string; tp_arch : string; tp_environment : string }.

(** [PlatformPredicate] *)
Record PlatformPredicate := MkPlatformPredicate {
  pp_os : option string; pp_arch : option string; pp_environment : option string }.
#[export] Instance PlatformPredicate_eq_dec : EqDecision PlatformPredicate.
Proof. solve_decision. Defined.

(** [Option::is_none_or] *)
Definition is_none_or {A} (f : A -> bool) (o : option A) : bool :=
  match o with Some a => f a | None => true end.

(** [PlatformPredicate::matches] *)
Definition platform_matches (p : PlatformPredicate) (target : TargetPlatform) : bool :=
  is_none_or (fun os => bool_decide (os = tp_os target)) (pp_os p)
  && is_none_or (fun arch => bool_decide (arch = tp_arch target)) (pp_arch p)
  && is_none_or (fun env => bool_decide (env = tp_environment target)) (pp_environment p).

(** [PlatformPredicate::overlaps] *)
Definition compatible (a b : option string) : bool :=
  bool_decide (a = None) || bool_decide (b = None) || bool_decide (a = b).
Definition platform_overlaps (p q : PlatformPredicate) : bool :=
  compatible (pp_os p) (pp_os q) && compatible (pp_arch p) (pp_arch q)
  && compatible (pp_environment p) (pp_environment q).

(** ** Versions *)

Section Model.
Context `{Semver}.

(** [VersionRequirement] *)
Record VersionRequirement := MkVersionRequirement { alternatives : list VersionReq }.
#[export] Instance VersionRequirement_eq_dec : EqDecision VersionRequirement.
Proof. solve_decision. Defined.

(** [VersionRequirement::matches] *)
Definition version_matches (r : VersionRequirement) (v : Version) : bool :=
  existsb (fun arm => req_matches arm v) (alternatives r).

(** ** Requirements and candidates *)

(** [PackageSelector] *)
Inductive PackageSelector :=
| Sel_Version (requirement : VersionRequirement)
| Sel_Revision (revision : GitRevision)
| Sel_Branch (branch : GitBranch)
| Sel_Path (requirement : option VersionRequirement).
#[export] Instance PackageSelector_eq_dec : EqDecision PackageSelector.
Proof. solve_decision. Defined.

(** [RequirementOrigin] *)
Record RequirementOrigin := MkRequirementOrigin { manifest : string; field : string }.
#[export] Instance RequirementOrigin_eq_dec : EqDecision RequirementOrigin.
Proof. solve_decision. Defined.

(** [PackageRequirement] *)
Record PackageRequirement := MkPackageRequirement {
  pr_package : PackageKey; pr_selector : PackageSelector; pr_origin : RequirementOrigin }.
#[export] Instance PackageRequirement_eq_dec : EqDecision PackageRequirement.
Proof. solve_decision. Defined.

(** [PackageCandidate] *)
Record PackageCandidate := MkPackageCandidate {
  pc_source : PackageSource;
  pc_version : Version;
  pc_released : bool;
  pc_compiler : VersionRequirement;
  pc_platforms : list PlatformPredicate;
  pc_dependencies : gmap DependencyAlias PackageRequirement;
  pc_development : gmap DependencyAlias PackageRequirement;
  pc_manifest_fingerprint : string;
  pc_checksum : option string }.
#[export] Instance PackageCandidate_eq_dec : EqDecision PackageCandidate.
Proof. solve_decision. Defined.

(** [PackagePin] *)
Record PackagePin := MkPackagePin {
  pin_source : PackageSource;
  pin_version : Version;
  pin_released : bool;
  pin_branches : gmap GitBranch GitRevision }.

(** [PackagePin::candidate] *)
Definition pin_candidate (c : PackageCandidate) : PackagePin :=
  MkPackagePin (pc_source c) (pc_version c) (pc_released c) ∅.

(** [PackagePin::matches] *)
Definition pin_matches (pin : PackagePin) (c : PackageCandidate) : bool :=
  bool_decide (pin_source pin = pc_source c) && bool_decide (pin_version pin = pc_version c).

(** [matches_selector] *)
Definition matches_selector (c : PackageCandidate) (selector : PackageSelector)
    (branches : gmap GitBranch GitRevision) : bool :=
  match selector with
  | Sel_Version version => pc_released c && version_matches version (pc_version c)
  | Sel_Path version =>
      match pc_source c with
      | PS_Path _ => is_none_or (fun version => version_matches version (pc_version c)) version
      | _ => false
      end
  | Sel_Revision revision =>
      match pc_source c with
      | PS_Git _ selected => bool_decide (revision = selected)
      | _ => false
      end
  | Sel_Branch branch =>
      match pc_source c with
      | PS_Git _ revision => bool_decide (branches !! branch = Some revision)
      | _ => false
      end
  end.

(** Whether a source supplies the package of a key: the match of [candidate_set]. *)
Definition same_source (actual : PackageKey) (source : PackageSource) : bool :=
  match actual, source with
  | PK_Git expected, PS_Git package _ => bool_decide (expected = package)
  | PK_Path expected, PS_Path path => bool_decide (expected = path)
  | _, _ => false
  end.
End Model.
