(* ===== verification/Resolver.v ===== *)
(** * Dependency resolution

    fai-package's [resolver.rs]: the backtracking search for one selection per package that
    satisfies every requirement, under a provider of candidates. *)

From S2P Require Import Prelude Ordered Packages.
From stdpp Require Import gmap list strings.

(** ** Cycles ([has_cycle]) *)

Section Cycle.
Context `{Semver} (packages : gmap PackageKey PackageCandidate) (key : PackageKey -> PackageKey).

(** The packages of a candidate's normal requirements, in alias order. *)
Definition dependency_keys (c : PackageCandidate) : list PackageKey :=
  (fun r => key (pr_package r)) <$> values (pc_dependencies c).

(** [if let Some(count) = incoming.get_mut(&next) { *count += 1 }] *)
Definition count_edge (incoming : gmap PackageKey nat) (next : PackageKey) : gmap PackageKey nat :=
  match incoming !! next with
  | Some count => <[next := S count]> incoming
  | None => incoming
  end.

Definition incoming_counts : gmap PackageKey nat :=
  foldl count_edge ((fun _ => 0) <$> packages)
    (values packages ≫= dependency_keys).

(** One edge of the loop: [*count -= 1] panics below zero. *)
Definition release_edge (st : gmap PackageKey nat * list PackageKey) (next : PackageKey)
    : option (gmap PackageKey nat * list PackageKey) :=
  let '(incoming, ready) := st in
  match incoming !! next with
  | None => Some st
  | Some 0 => None
  | Some (S count) =>
      Some (<[next := count]> incoming, if count =? 0 then ready ++ [next] else ready)
  end.

Fixpoint release_edges (st : gmap PackageKey nat * list PackageKey) (nexts : list PackageKey)
    : option (gmap PackageKey nat * list PackageKey) :=
  match nexts with
  | [] => Some st
  | next :: nexts => st ← release_edge st next; release_edges st nexts
  end.

(** [while let Some(current) = ready.pop()]; [packages[&current]] panics on a missing key. *)
Fixpoint drain (fuel : nat) (incoming : gmap PackageKey nat) (ready : list PackageKey) (count : nat)
    : option nat :=
  match fuel with
  | 0 => None
  | S fuel =>
      match last ready with
      | None => Some count
      | Some current =>
          c ← packages !! current;
          st ← release_edges (incoming, removelast ready) (dependency_keys c);
          drain fuel st.1 st.2 (S count)
      end
  end.

Definition has_cycle : option bool :=
  let ready := (filter (fun p => p.2 = 0) (items incoming_counts)).*1 in
  count ← drain (S (size packages)) incoming_counts ready 0;
  Some (negb (count =? size packages)).
End Cycle.

(** ** The provider *)

(** [ProviderFailure] *)
Record ProviderFailure := MkProviderFailure { pf_code : string; pf_message : string }.
Definition SOURCE_UNAVAILABLE : string := "FAI0811".

Section Data.
Context `{Semver}.

(** [CandidateSet] *)
Record CandidateSet := MkCandidateSet {
  cs_candidates : list PackageCandidate;
  cs_branches : gmap GitBranch GitRevision }.

(** [ResolverProvider]: [candidates] may change the provider's own state. *)
Class ResolverProvider (P : Type) :=
  candidates : P -> PackageKey -> list PackageSelector -> option PackagePin -> bool ->
    result ProviderFailure CandidateSet * P.

(** [ResolutionPolicy] *)
Inductive ResolutionPolicy :=
| Policy_Conservative
| Policy_UpdateAll
| Policy_Update (keys : gset PackageKey).

(** [ResolutionRequest] *)
Record ResolutionRequest := MkResolutionRequest {
  rq_root : PackageKey;
  rq_candidate : PackageCandidate;
  rq_compiler : Version;
  rq_target : TargetPlatform;
  rq_pins : gmap PackageKey PackagePin;
  rq_overrides : gmap PackageKey PackageRequirement;
  rq_policy : ResolutionPolicy }.

(** [ResolvedEdge] *)
Record ResolvedEdge := MkResolvedEdge {
  re_from : option PackageKey; re_alias : DependencyAlias; re_to : PackageKey }.

(** [ResolvedGraph] *)
Record ResolvedGraph := MkResolvedGraph {
  rg_root : PackageKey;
  rg_packages : gmap PackageKey PackageCandidate;
  rg_edges : list ResolvedEdge;
  rg_branches : gmap PackageKey (gmap GitBranch GitRevision) }.

(** The messages of the conflicts, with what each is formatted from. *)
Inductive ConflictMessage :=
| Msg_DuplicateAlias (alias : DependencyAlias)
| Msg_ManyRoots
| Msg_NoGraph
| Msg_RootUnsupported
| Msg_NotInGraph (key : PackageKey)
| Msg_TooDeep
| Msg_CannotUse (key : PackageKey) (version : Version) (source : PackageSource)
| Msg_Cycle
| Msg_NoSource (key : PackageKey) (target : TargetPlatform) (compiler : Version).

(** [ResolutionConflict] *)
Record ResolutionConflict := MkResolutionConflict {
  rc_requirements : list PackageRequirement; rc_message : ConflictMessage }.

(** [ResolutionError] *)
Inductive ResolutionError :=
| RE_Conflict (conflict : ResolutionConflict)
| RE_Provider (failure : ProviderFailure).

(** [Resolver]: the fields that change. *)
Record ResolverState (P : Type) := MkResolverState {
  rs_provider : P;
  rs_cache : gmap PackageKey (list PackageSelector * CandidateSet);
  rs_conflict : ResolutionConflict }.
End Data.
Arguments MkResolverState {_ _} _ _ _.
Arguments rs_provider {_ _} _.
Arguments rs_cache {_ _} _.
Arguments rs_conflict {_ _} _.

(** ** The resolver *)

(** A method of [&mut Resolver] that returns a [Result]; [None] is a panic. *)
Definition RM `{Semver} (P A : Type) : Type :=
  ResolverState P -> option (result ResolutionError A * ResolverState P).

#[export] Instance rm_ret `{Semver} {P} : MRet (RM P) := fun _ a s => Some (Ok a, s).
#[export] Instance rm_bind `{Semver} {P} : MBind (RM P) := fun _ _ k m s =>
  match m s with
  | Some (Ok a, s') => k a s'
  | Some (Err e, s') => Some (Err e, s')
  | None => None
  end.

Definition throw `{Semver} {P A} (e : ResolutionError) : RM P A := fun s => Some (Err e, s).
Definition get `{Semver} {P} : RM P (ResolverState P) := fun s => Some (Ok s, s).
(** A computation that may panic. *)
Definition expect `{Semver} {P A} (o : option A) : RM P A :=
  fun s => match o with Some a => Some (Ok a, s) | None => None end.
Definition set_conflict `{Semver} {P} (c : ResolutionConflict) : RM P () := fun s =>
  Some (Ok tt, MkResolverState (rs_provider s) (rs_cache s) c).
Definition set_cache `{Semver} {P} (key : PackageKey) (entry : list PackageSelector * CandidateSet)
    : RM P () := fun s =>
  Some (Ok tt, MkResolverState (rs_provider s) (<[key := entry]> (rs_cache s)) (rs_conflict s)).

Section Resolver.
Context `{Semver} {P : Type} `{!ResolverProvider P}.
(** The text of a selector's derived [Debug]. *)
Context (debug : PackageSelector -> string).
Context (request : ResolutionRequest) (root_alias : option PackageKey)
  (required_targets : gset PackageKey).

(** [key] *)
Definition canonical (key : PackageKey) : PackageKey :=
  if bool_decide (root_alias = Some key) then rq_root request else key.

(** [eligible] *)
Definition eligible (c : PackageCandidate) : bool :=
  version_matches (pc_compiler c) (rq_compiler request)
  && (bool_decide (pc_platforms c = [])
      || existsb (fun p => platform_matches p (rq_target request)) (pc_platforms c)).

(** [requirements]: the requirements the selection makes, by the package they are on. *)
Definition all_requirements (selected : gmap PackageKey PackageCandidate) : list PackageRequirement :=
  (values selected ≫= fun c => values (pc_dependencies c))
  ++ values (pc_development (rq_candidate request)).

Definition push_requirement (required : gmap PackageKey (list PackageRequirement))
    (r : PackageRequirement) : gmap PackageKey (list PackageRequirement) :=
  let key := canonical (pr_package r) in
  <[key := default [] (required !! key) ++ [r]]> required.

Definition requirements (selected : gmap PackageKey PackageCandidate)
    : gmap PackageKey (list PackageRequirement) :=
  foldl push_requirement ∅ (all_requirements selected).

Definition debug_le : relation PackageSelector := fun a b => String.le (debug a) (debug b).

#[export] Instance debug_le_dec : RelDecision debug_le.
Proof. intros x y. unfold debug_le. apply _. Defined.

(** The selectors a provider is asked for. *)
Definition selectors_of (key : PackageKey) (rs : list PackageRequirement) : list PackageSelector :=
  let selectors :=
    match rq_overrides request !! key with
    | Some replacement => [pr_selector replacement]
    | None => pr_selector <$> rs
    end in
  dedup_by (sort_by debug_le selectors).

(** The package that supplies a key: itself or its override's. *)
Definition actual_of (key : PackageKey) : PackageKey :=
  match rq_overrides request !! key with
  | Some replacement => pr_package replacement
  | None => key
  end.

(** The provider's answer is rejected when a candidate has another package's source, or when
    two candidates of one source differ. *)
Fixpoint consistent (actual : PackageKey) (sources : gmap PackageSource PackageCandidate)
    (cs : list PackageCandidate) : bool :=
  match cs with
  | [] => true
  | c :: cs =>
      same_source actual (pc_source c)
      && is_none_or (fun previous => bool_decide (previous = c)) (sources !! pc_source c)
      && consistent actual (<[pc_source c := c]> sources) cs
  end.

(** Newest version first, then by source. *)
Definition candidate_le : relation PackageCandidate := fun left right =>
  if decide (pc_version right = pc_version left) then source_le (pc_source left) (pc_source right)
  else version_le (pc_version right) (pc_version left).

#[export] Instance candidate_le_dec : RelDecision candidate_le.
Proof. intros x y. unfold candidate_le. case_decide; apply _. Defined.

Definition arrange (cs : list PackageCandidate) : list PackageCandidate :=
  dedup_by (sort_by candidate_le (filter (fun c => eligible c = true) cs)).

Definition refresh_of (key : PackageKey) : bool :=
  match rq_policy request with
  | Policy_Conservative => false
  | Policy_UpdateAll => true
  | Policy_Update targets => bool_decide (key ∈ targets)
  end.

(** The pin a provider is shown, when it is of the package that supplies the key. *)
Definition pin_of (key : PackageKey) : option PackagePin :=
  pin ← rq_pins request !! key;
  if same_source (actual_of key) (pin_source pin) then Some pin else None.

(** The part of [candidate_set] that asks the provider: its answer is checked, filtered,
    sorted, and cached. *)
Definition ask_provider (key : PackageKey) (selectors : list PackageSelector) : RM P CandidateSet := fun s =>
  let actual := actual_of key in
  match candidates (rs_provider s) actual selectors (pin_of key) (refresh_of key) with
  | (Err failure, p) => Some (Err (RE_Provider failure), MkResolverState p (rs_cache s) (rs_conflict s))
  | (Ok set, p) =>
      let s := MkResolverState p (rs_cache s) (rs_conflict s) in
      if consistent actual ∅ (cs_candidates set) then
        let set := MkCandidateSet (arrange (cs_candidates set)) (cs_branches set) in
        (_ ← set_cache key (selectors, set); mret set) s
      else
        throw (RE_Provider (MkProviderFailure SOURCE_UNAVAILABLE
          "source provider returned inconsistent package identity or metadata")) s
  end.

(** [candidate_set] *)
Definition candidate_set (key : PackageKey) (rs : list PackageRequirement) : RM P CandidateSet := fun s =>
  let selectors := selectors_of key rs in
  match rs_cache s !! key with
  | Some (previous, set) =>
      if bool_decide (previous = selectors) then Some (Ok set, s) else ask_provider key selectors s
  | None => ask_provider key selectors s
  end.

(** [satisfies] *)
Definition satisfies (c : PackageCandidate) (r : PackageRequirement)
    (branches : gmap GitBranch GitRevision) : bool :=
  if bool_decide (is_Some (rq_overrides request !! pr_package r)) then
    match pr_selector r with
    | Sel_Version version => version_matches version (pc_version c)
    | Sel_Path (Some version) => version_matches version (pc_version c)
    | _ => true
    end
  else matches_selector c (pr_selector r) branches.

(** The root also stands for the package it replaces. *)
Definition root_replaced_badly (key : PackageKey) (c : PackageCandidate)
    (branches : gmap GitBranch GitRevision) : bool :=
  bool_decide (key = rq_root request)
  && match root_alias ≫= fun key => rq_overrides request !! key with
     | Some replacement => negb (matches_selector c (pr_selector replacement) branches)
     | None => false
     end.

Definition pinned_elsewhere (fixed : gmap PackageKey PackagePin) (key : PackageKey)
    (c : PackageCandidate) : bool :=
  match fixed !! key with Some pin => negb (pin_matches pin c) | None => false end.

(** The loop over the selection at the head of [search]: [false] is the early [Ok(None)]. *)
Fixpoint check_selected (fixed : gmap PackageKey PackagePin)
    (required : gmap PackageKey (list PackageRequirement))
    (selected : list (PackageKey * PackageCandidate)) : RM P bool :=
  match selected with
  | [] => mret true
  | (key, c) :: selected =>
      let rs := default [] (required !! key) in
      branches ←
        (if bool_decide (key = rq_root request) then mret ∅
         else set ← candidate_set key rs; mret (cs_branches set));
      if pinned_elsewhere fixed key c
         || existsb (fun r => negb (satisfies c r branches)) rs
         || root_replaced_badly key c branches
      then
        _ ← set_conflict (MkResolutionConflict rs (Msg_CannotUse key (pc_version c) (pc_source c)));
        mret false
      else check_selected fixed required selected
  end.

(** [rank] *)
Definition requires (deps : gmap DependencyAlias PackageRequirement) (key : PackageKey) : bool :=
  existsb (fun r => bool_decide (canonical (pr_package r) = key)) (values deps).
Definition rank (key : PackageKey) : nat :=
  if requires (pc_dependencies (rq_candidate request)) key then 0
  else if requires (pc_development (rq_candidate request)) key then 1
  else 2.

(** [min_by_key(|key| (rank(key), *key))]: the first of the least. *)
Definition key_less (a b : PackageKey) : bool :=
  (rank a <? rank b)
  || ((rank a =? rank b) && bool_decide (ord_le a b) && negb (bool_decide (a = b))).
Definition min_key (keys : list PackageKey) : option PackageKey :=
  foldl (fun best key =>
    match best with
    | None => Some key
    | Some b => if key_less key b then Some key else best
    end) None keys.

Definition next_key (selected : gmap PackageKey PackageCandidate)
    (required : gmap PackageKey (list PackageRequirement)) : option PackageKey :=
  min_key (filter (fun key => selected !! key = None) (keys required)).

(** ** The graph of a selection ([graph]) *)

Definition graph_edges (packages : gmap PackageKey PackageCandidate) : list ResolvedEdge :=
  (items packages ≫= fun p =>
     (fun d => MkResolvedEdge (Some p.1) d.1 (canonical (pr_package d.2))) <$> items (pc_dependencies p.2))
  ++ ((fun d => MkResolvedEdge None d.1 (canonical (pr_package d.2)))
        <$> items (pc_development (rq_candidate request))).

Definition used_branches (set : CandidateSet) (requested : list PackageSelector)
    : gmap GitBranch GitRevision :=
  foldl (fun used selector =>
    match selector with
    | Sel_Branch branch =>
        match cs_branches set !! branch with
        | Some revision => <[branch := revision]> used
        | None => used
        end
    | _ => used
    end) ∅ requested.

Definition requested_selectors (key : PackageKey) (rs : list PackageRequirement) : list PackageSelector :=
  match rq_overrides request !! key with
  | Some replacement => [pr_selector replacement]
  | None => pr_selector <$> rs
  end.

Definition add_branches (cache : gmap PackageKey (list PackageSelector * CandidateSet))
    (branches : gmap PackageKey (gmap GitBranch GitRevision))
    (p : PackageKey * list PackageRequirement) : gmap PackageKey (gmap GitBranch GitRevision) :=
  match cache !! p.1 with
  | None => branches
  | Some (_, set) =>
      let used := used_branches set (requested_selectors p.1 p.2) in
      if bool_decide (used = ∅) then branches else <[p.1 := used]> branches
  end.

Definition graph (packages : gmap PackageKey PackageCandidate)
    (cache : gmap PackageKey (list PackageSelector * CandidateSet)) : ResolvedGraph :=
  MkResolvedGraph (rq_root request) packages (graph_edges packages)
    (foldl (add_branches cache) ∅ (items (requirements packages))).

(** ** Search *)

(** Whether the loop over the candidates skips one. *)
Definition rejects (fixed : gmap PackageKey PackagePin) (key : PackageKey)
    (rs : list PackageRequirement) (branches : gmap GitBranch GitRevision) (c : PackageCandidate) : bool :=
  pinned_elsewhere fixed key c
  || existsb (fun r => negb (satisfies c r branches)) rs
  || match rq_overrides request !! key with
     | Some replacement => negb (matches_selector c (pr_selector replacement) branches)
     | None => false
     end.

Section Try.
Context (fixed : gmap PackageKey PackagePin) (key : PackageKey) (rs : list PackageRequirement)
  (branches : gmap GitBranch GitRevision) (descend : PackageCandidate -> RM P (option ResolvedGraph)).

(** The loop over the candidates of the next package, with [attempted]. *)
Fixpoint try_candidates (cs : list PackageCandidate) (attempted : bool)
    : RM P (option ResolvedGraph * bool) :=
  match cs with
  | [] => mret (None, attempted)
  | c :: cs =>
      if rejects fixed key rs branches c then try_candidates cs attempted
      else
        found ← descend c;
        match found with
        | Some g => mret (Some g, true)
        | None => try_candidates cs true
        end
  end.
End Try.

(** [depth > 256] fails: 257 levels from depth 0. *)
Definition SEARCH_LEVELS : nat := 257.

(** [search], with the levels left instead of the depth. *)
Fixpoint search (fixed : gmap PackageKey PackagePin) (levels : nat)
    (selected : gmap PackageKey PackageCandidate) : RM P (option ResolvedGraph) :=
  match levels with
  | 0 => throw (RE_Conflict (MkResolutionConflict [] Msg_TooDeep))
  | S levels =>
      let required := requirements selected in
      let everything := concat (values required) in
      fine ← check_selected fixed required (items selected);
      if negb fine then mret None
      else
        cyclic ← expect (has_cycle selected canonical);
        if cyclic : bool then
          _ ← set_conflict (MkResolutionConflict everything Msg_Cycle); mret None
        else
          match next_key selected required with
          | None =>
              if existsb (fun key => bool_decide (selected !! key = None)) (set_items required_targets)
              then mret None
              else s ← get; mret (Some (graph selected (rs_cache s)))
          | Some key =>
              let rs := default [] (required !! key) in
              set ← candidate_set key rs;
              out ← try_candidates fixed key rs (cs_branches set)
                (fun c => search fixed levels (<[key := c]> selected)) (cs_candidates set) false;
              match out with
              | (Some g, _) => mret (Some g)
              | (None, attempted) =>
                  if attempted : bool then mret None
                  else
                    _ ← set_conflict (MkResolutionConflict everything
                      (Msg_NoSource key (rq_target request) (rq_compiler request)));
                    mret None
              end
          end
  end.

Definition root_selection : gmap PackageKey PackageCandidate :=
  {[ rq_root request := rq_candidate request ]}.
Definition search_root (fixed : gmap PackageKey PackagePin) : RM P (option ResolvedGraph) :=
  search fixed SEARCH_LEVELS root_selection.

(** The loop of [prefer_pins]: each pin is kept when the search still succeeds. *)
Fixpoint retain_pins (fixed : gmap PackageKey PackagePin) (pins : list (PackageKey * PackagePin))
    (retained : gmap PackageKey PackagePin) (best : ResolvedGraph) : RM P ResolvedGraph :=
  match pins with
  | [] => mret best
  | (key, pin) :: pins =>
      if bool_decide (key = rq_root request) || bool_decide (is_Some (fixed !! key))
      then retain_pins fixed pins retained best
      else
        let trial := <[key := pin]> retained in
        found ← search_root trial;
        match found with
        | Some g => retain_pins fixed pins trial g
        | None => retain_pins fixed pins retained best
        end
  end.

(** [prefer_pins] *)
Definition prefer_pins (fixed : gmap PackageKey PackagePin) : RM P (option ResolvedGraph) :=
  match rq_policy request with
  | Policy_UpdateAll => search_root fixed
  | _ =>
      let all := fixed ∪ delete (rq_root request) (rq_pins request) in
      found ← search_root all;
      match found with
      | Some g => mret (Some g)
      | None =>
          found ← search_root fixed;
          match found with
          | None => mret None
          | Some best =>
              best ← retain_pins fixed (items (rq_pins request)) fixed best;
              mret (Some best)
          end
      end
  end.

(** [.ok_or_else(|| self.conflict.clone())?] *)
Definition or_conflict (found : option ResolvedGraph) : RM P ResolvedGraph :=
  match found with
  | Some g => mret g
  | None => s ← get; throw (RE_Conflict (rs_conflict s))
  end.

Section Update.
Context (fixed : gmap PackageKey PackagePin) (key : PackageKey).

(** The candidates of one update target, best first: the first whose graph has the target. *)
Fixpoint accept_target (cs : list PackageCandidate) : RM P (option (gmap PackageKey PackagePin)) :=
  match cs with
  | [] => mret None
  | c :: cs =>
      let trial := <[key := pin_candidate c]> fixed in
      found ← prefer_pins trial;
      match found with
      | Some g =>
          if bool_decide (is_Some (rg_packages g !! key)) then mret (Some trial) else accept_target cs
      | None => accept_target cs
      end
  end.
End Update.

(** The loop over the targets of a targeted update. *)
Fixpoint fix_targets (initial : ResolvedGraph) (targets : list PackageKey)
    (fixed : gmap PackageKey PackagePin) : RM P (gmap PackageKey PackagePin) :=
  match targets with
  | [] => mret fixed
  | key :: targets =>
      if bool_decide (rg_packages initial !! key = None) then
        throw (RE_Conflict (MkResolutionConflict [] (Msg_NotInGraph key)))
      else if bool_decide (key = rq_root request) then fix_targets initial targets fixed
      else
        s ← get;
        let cs := match rs_cache s !! key with Some (_, set) => cs_candidates set | None => [] end in
        accepted ← accept_target fixed key cs;
        match accepted with
        | Some fixed => fix_targets initial targets fixed
        | None => s ← get; throw (RE_Conflict (rs_conflict s))
        end
  end.

(** The body of [resolve_graph] once the resolver is built. *)
Definition resolve_with : RM P ResolvedGraph :=
  if negb (eligible (rq_candidate request)) then
    throw (RE_Conflict (MkResolutionConflict [] Msg_RootUnsupported))
  else
    fixed ←
      match rq_policy request with
      | Policy_Update targets =>
          found ← search_root ∅;
          initial ← or_conflict found;
          fix_targets initial (set_items targets) ∅
      | _ => mret ∅
      end;
    found ← prefer_pins fixed;
    or_conflict found.
End Resolver.

(** ** [resolve_graph] *)

Section Resolve.
Context `{Semver} {P : Type} `{!ResolverProvider P} (debug : PackageSelector -> string).

(** The first normal alias that is also a development alias. *)
Definition duplicate_alias (c : PackageCandidate) : option DependencyAlias :=
  head (filter (fun alias => is_Some (pc_development c !! alias)) (keys (pc_dependencies c))).

(** The identities whose override is the root's own directory. *)
Definition root_aliases (request : ResolutionRequest) : list PackageKey :=
  (filter (fun p =>
     match pr_package p.2, pc_source (rq_candidate request) with
     | PK_Path path, PS_Path root => bool_decide (path = root)
     | _, _ => false
     end = true) (items (rq_overrides request))).*1.

Definition update_targets (policy : ResolutionPolicy) : gset PackageKey :=
  match policy with Policy_Update keys => keys | _ => ∅ end.

Definition resolve_graph (provider : P) (request : ResolutionRequest)
    : option (result ResolutionError ResolvedGraph * P) :=
  let c := rq_candidate request in
  match duplicate_alias c with
  | Some alias =>
      normal ← pc_dependencies c !! alias;
      development ← pc_development c !! alias;
      Some (Err (RE_Conflict (MkResolutionConflict [normal; development] (Msg_DuplicateAlias alias))), provider)
  | None =>
      let aliases := root_aliases request in
      if 1 <? length aliases then
        Some (Err (RE_Conflict (MkResolutionConflict [] Msg_ManyRoots)), provider)
      else
        let s := MkResolverState provider ∅ (MkResolutionConflict [] Msg_NoGraph) in
        '(r, s) ← resolve_with debug request (head aliases) (update_targets (rq_policy request)) s;
        Some (r, rs_provider s)
  end.
End Resolve.
