(* ===== verification/ResolverCycle.v ===== *)
(** * Cycle detection

    [has_cycle] of fai-package's [resolver.rs] returns, without a panic, whether the dependency
    graph of a selection has a cycle. *)

From S2P Require Import Prelude Ordered Packages Resolver.
From stdpp Require Import gmap list sorting strings relations.
From Stdlib Require Import Lia.

(** ** Chains in finite sets *)

Section Chains.
Context {A : Type} `{Countable A} (R : relation A).

Lemma sorted_repeats (l : list A) :
  StronglySorted (fun a b => tc R b a) l -> NoDup l \/ exists x, tc R x x.
Proof.
  induction 1 as [|x l Hs IH Hx]; [left; constructor|].
  destruct IH as [IH|IH]; [|by right].
  destruct (decide (x ∈ l)) as [Hin|Hin]; [|left; by constructor].
  right. exists x. rewrite list.Forall_forall in Hx. by apply Hx.
Qed.

Context (S : gset A) (Hpred : forall b, b ∈ S -> exists a, a ∈ S /\ R a b).

Lemma chain_of_length n b :
  b ∈ S -> exists l, length l = n /\ (forall a, a ∈ l -> a ∈ S)
    /\ StronglySorted (fun a b => tc R b a) (b :: l).
Proof.
  revert b; induction n as [|n IH]; intros b Hb.
  - exists []. split; [done|]. split; [by intros a ?%elem_of_nil|]. repeat constructor.
  - destruct (Hpred b Hb) as (a & Ha & Hab).
    destruct (IH a Ha) as (l & Hlen & Hl & Hs).
    exists (a :: l). split; [simpl; lia|]. split.
    + intros x [->|Hx]%elem_of_cons; auto.
    + constructor; [done|]. constructor; [by apply tc_once|].
      apply StronglySorted_inv in Hs as [_ Hs].
      eapply Forall_impl; [exact Hs|]. simpl. intros x Hx. by eapply tc_r.
Qed.

(** A finite set in which every element has a predecessor holds a cycle. *)
Lemma cycle_of_predecessors b : b ∈ S -> exists x, tc R x x.
Proof.
  intros Hb. destruct (chain_of_length (size S) b Hb) as (l & Hlen & Hl & Hs).
  destruct (sorted_repeats _ Hs) as [Hnd|?]; [|done]. exfalso.
  assert (size (list_to_set (b :: l) : gset A) <= size S) as Hsz.
  { apply subseteq_size. intros x. rewrite elem_of_list_to_set.
    intros [->|?]%elem_of_cons; auto. }
  rewrite size_list_to_set in Hsz by done. simpl in Hsz. lia.
Qed.
End Chains.

Lemma tc_last {A} (R : relation A) x z : tc R x z -> exists y, rtc R x y /\ R y z.
Proof.
  induction 1 as [x z Hxz|x y z Hxy _ (w & Hyw & Hwz)]; [by exists x|].
  exists w. split; [|done]. by eapply rtc_l.
Qed.

Lemma acc_no_cycle {A} (R : relation A) x : Acc R x -> ~ tc R x x.
Proof.
  induction 1 as [x _ IH]. intros (y & Hxy & Hyx)%tc_last.
  apply (IH y Hyx). eapply tc_rtc_r; [by apply tc_once|done].
Qed.

(** ** Occurrences *)

Definition occ `{EqDecision A} (x : A) (l : list A) : nat := length (filter (fun y => y = x) l).

Lemma pairs_cons `{EqDecision A} (x y : A) l :
  occ x (y :: l) = (if decide (y = x) then 1 else 0) + occ x l.
Proof. unfold occ. rewrite filter_cons. by case_decide. Qed.

Lemma occ_app `{EqDecision A} (x : A) l l' : occ x (l ++ l') = occ x l + occ x l'.
Proof. unfold occ. by rewrite filter_app, length_app. Qed.

Lemma occ_perm `{EqDecision A} (x : A) l l' : l ≡ₚ l' -> occ x l = occ x l'.
Proof. unfold occ. by intros ->. Qed.

Lemma occ_zero `{EqDecision A} (x : A) l : occ x l = 0 ↔ x ∉ l.
Proof.
  induction l as [|y l IH]; [split; [by intros _ ?%elem_of_nil|done]|].
  rewrite pairs_cons, not_elem_of_cons. case_decide; split; intros; naive_solver lia.
Qed.

(** ** The algorithm *)

Section Cycle.
Context `{Semver} (packages : gmap PackageKey PackageCandidate) (key : PackageKey -> PackageKey).

(** A package of the selection requires another. *)
Definition edge (a b : PackageKey) : Prop :=
  exists c, packages !! a = Some c /\ b ∈ dependency_keys key c /\ is_Some (packages !! b).

(** The targets of the packages that are left. *)
Definition pending (rest : gmap PackageKey PackageCandidate) : list PackageKey :=
  map_to_list rest ≫= fun p => dependency_keys key p.2.

Lemma pending_delete rest k c :
  rest !! k = Some c -> pending rest ≡ₚ dependency_keys key c ++ pending (delete k rest).
Proof.
  intros Hk. unfold pending. rewrite <- (map_to_list_delete rest k c Hk). done.
Qed.

Lemma elem_of_pending rest b :
  b ∈ pending rest ↔ exists a c, rest !! a = Some c /\ b ∈ dependency_keys key c.
Proof.
  unfold pending. rewrite list_elem_of_bind. split.
  - intros ([a c] & Hb & Hin). exists a, c. split; [by apply elem_of_map_to_list|done].
  - intros (a & c & Hin & Hb). exists (a, c). split; [done|by apply elem_of_map_to_list].
Qed.

Lemma count_edges_lookup l inc k :
  foldl count_edge inc l !! k = (fun n => n + occ k l) <$> inc !! k.
Proof.
  revert inc; induction l as [|x l IH]; intros inc; simpl.
  - destruct (inc !! k); simpl; [|done]. f_equal. unfold occ; simpl. lia.
  - rewrite IH, pairs_cons. unfold count_edge.
    destruct (inc !! x) as [n|] eqn:Hx; case_decide as Hd; subst; simplify_map_eq; try done.
    f_equal. lia.
Qed.

Lemma incoming_counts_lookup k :
  incoming_counts packages key !! k = (fun _ => occ k (pending packages)) <$> packages !! k.
Proof.
  unfold incoming_counts. rewrite count_edges_lookup, lookup_fmap.
  destruct (packages !! k); simpl; [|done]. f_equal.
  apply occ_perm. unfold pending, values.
  rewrite <- (items_perm packages), list_fmap_bind. done.
Qed.

(** Releasing the edges [l] of counts that include them. *)
Lemma release_edges_spec (m : PackageKey -> nat) l inc ready :
  (forall k n, inc !! k = Some n -> n = occ k l + m k) ->
  NoDup ready -> (forall k, k ∈ ready -> inc !! k = Some 0) ->
  exists inc' ready', release_edges (inc, ready) l = Some (inc', ready')
    /\ (forall k, inc' !! k = (fun _ => m k) <$> inc !! k)
    /\ NoDup ready'
    /\ (forall k, k ∈ ready' ↔ k ∈ ready \/ (m k = 0 /\ exists n, inc !! k = Some (S n))).
Proof.
  revert inc ready; induction l as [|x l IH]; intros inc ready Hinc Hnd Hready.
  - exists inc, ready. split; [done|]. split; [|split; [done|]].
    + intros k. destruct (inc !! k) as [n|] eqn:Hk; [|done]. simpl. f_equal.
      by rewrite (Hinc k n Hk).
    + intros k. split; [by left|]. intros [?|[Hm [n Hn]]]; [done|].
      apply Hinc in Hn. unfold occ in Hn. simpl in Hn. lia.
  - simpl. destruct (inc !! x) as [n|] eqn:Hx; cycle 1.
    { simpl. apply IH; [|done..]. intros k n Hk. rewrite (Hinc k n Hk), pairs_cons.
      rewrite decide_False; [lia|]. by intros ->; simplify_eq. }
    pose proof (Hinc x n Hx) as Hn. rewrite pairs_cons, decide_True in Hn by done.
    destruct n as [|n]; [lia|]. simpl.
    destruct (IH (<[x:=n]> inc) (if n =? 0 then ready ++ [x] else ready))
      as (inc' & ready' & Heq & Hinc' & Hnd' & Hready').
    + intros k j Hk. destruct (decide (x = k)) as [->|Hne].
      * rewrite lookup_insert_eq in Hk. simplify_eq. lia.
      * rewrite lookup_insert_ne in Hk by done. rewrite (Hinc k j Hk), pairs_cons.
        rewrite decide_False by done. lia.
    + case_match; [|done]. apply NoDup_app. split; [done|]. split; [|apply NoDup_singleton].
      intros k Hk Hk'%list_elem_of_singleton. subst. apply Hready in Hk. congruence.
    + intros k Hk. destruct (decide (x = k)) as [->|Hne].
      * rewrite lookup_insert_eq. case_match eqn:Hz.
        -- apply Nat.eqb_eq in Hz. by subst.
        -- apply Hready in Hk. congruence.
      * rewrite lookup_insert_ne by done. apply Hready.
        case_match; [|done]. apply elem_of_app in Hk as [?|Hk%list_elem_of_singleton]; congruence.
    + exists inc', ready'. split; [done|]. split; [|split; [done|]].
      * intros k. rewrite Hinc'. destruct (decide (x = k)) as [->|Hne].
        -- by rewrite lookup_insert_eq, Hx.
        -- by rewrite lookup_insert_ne.
      * intros k. rewrite Hready'. destruct (decide (x = k)) as [->|Hne].
        -- rewrite lookup_insert_eq. case_match eqn:Hz.
           ++ apply Nat.eqb_eq in Hz. subst. rewrite elem_of_app, list_elem_of_singleton.
              split; [|naive_solver]. intros _. right. split; [lia|eauto].
           ++ apply Nat.eqb_neq in Hz. split; [|].
              ** intros [?|[? _]]; [by left|]. right. eauto.
              ** intros [?|[? _]]; [by left|]. right. split; [done|].
                 destruct n; [done|eauto].
        -- rewrite lookup_insert_ne by done.
           case_match; rewrite ?elem_of_app, ?list_elem_of_singleton; naive_solver.
Qed.

(** What the loop maintains: [rest] are the packages not yet taken. *)
Record drains (rest : gmap PackageKey PackageCandidate) (incoming : gmap PackageKey nat)
    (ready : list PackageKey) (count : nat) : Prop := {
  dr_rest : rest ⊆ packages;
  dr_count : count + size rest = size packages;
  dr_incoming : forall k, incoming !! k = (fun _ => occ k (pending rest)) <$> packages !! k;
  dr_nodup : NoDup ready;
  dr_ready : forall k, k ∈ ready ↔ is_Some (rest !! k) /\ incoming !! k = Some 0;
  dr_taken : forall k, is_Some (packages !! k) -> rest !! k = None ->
    incoming !! k = Some 0 /\ Acc edge k }.

Lemma drains_initial :
  drains packages (incoming_counts packages key)
    (filter (fun p => p.2 = 0) (items (incoming_counts packages key))).*1 0.
Proof.
  split; [done|done|apply incoming_counts_lookup| | |].
  - eapply sublist_NoDup; [apply (NoDup_keys (incoming_counts packages key))|].
    unfold keys. apply fmap_sublist, sublist_filter.
  - intros k. rewrite list_elem_of_fmap. split.
    + intros ([k' n] & -> & [Hn Hin]%list_elem_of_filter). simpl in *. subst.
      apply elem_of_items in Hin. split; [|done].
      rewrite incoming_counts_lookup in Hin. by destruct (packages !! k').
    + intros [_ Hk]. exists (k, 0). split; [done|].
      apply list_elem_of_filter. split; [done|]. by apply elem_of_items.
  - intros k [c Hk] Hn. congruence.
Qed.

Lemma last_app_inv {A} (l : list A) x : last l = Some x -> l = removelast l ++ [x].
Proof.
  intros Hl. apply last_Some in Hl as [l' ->]. by rewrite removelast_last.
Qed.

(** Taking a package with no pending edge into it. *)
Lemma drains_step rest incoming ready count current :
  drains rest incoming ready count -> last ready = Some current ->
  exists c st, packages !! current = Some c
    /\ release_edges (incoming, removelast ready) (dependency_keys key c) = Some st
    /\ drains (delete current rest) st.1 st.2 (S count) /\ size (delete current rest) < size rest.
Proof.
  intros [Hrest Hcount Hinc Hnd Hready Htaken] Hlast.
  apply last_app_inv in Hlast. remember (removelast ready) as ready0 eqn:Hr. clear Hr. subst ready.
  apply NoDup_app in Hnd as (Hnd & Hdis & _).
  assert (current ∉ ready0) as Hfresh by (intros Hin; apply (Hdis _ Hin); left).
  destruct (proj1 (Hready current)) as [[c Hc] Hzero]; [apply elem_of_app; right; left|].
  pose proof (lookup_weaken _ _ _ _ Hc Hrest) as Hcp.
  pose proof Hinc as Hinc0. specialize (Hinc0 current). rewrite Hcp, Hzero in Hinc0. simpl in Hinc0.
  injection Hinc0 as Hnone. symmetry in Hnone. rewrite occ_zero in Hnone.
  assert (forall a, edge a current -> rest !! a = None) as Hpreds.
  { intros a (ca & Ha & Hin & _). destruct (rest !! a) as [ca'|] eqn:Har; [|done].
    destruct Hnone. apply elem_of_pending. exists a, ca'. split; [done|].
    pose proof (lookup_weaken _ _ _ _ Har Hrest). congruence. }
  destruct (release_edges_spec (fun k => occ k (pending (delete current rest)))
    (dependency_keys key c) incoming ready0) as (inc' & ready' & Heq & Hinc' & Hnd' & Hready').
  - intros k n Hk. rewrite Hinc in Hk. destruct (packages !! k); [|done].
    simpl in Hk. injection Hk as <-. by rewrite (occ_perm k _ _ (pending_delete _ _ _ Hc)), occ_app.
  - done.
  - intros k Hk. apply Hready, elem_of_app. by left.
  - exists c, (inc', ready'). split; [done|]. split; [done|].
    assert (is_Some (rest !! current)) as Hsome by eauto.
    pose proof (map_size_delete_Some current rest Hsome) as Hsz.
    assert (0 < size rest) by (destruct (size rest) eqn:?; [|lia];
      apply map_size_empty_inv in Heqn; subst; by destruct Hsome).
    split; [|lia]. split; simpl; [| | |done| |].
    + etrans; [apply delete_subseteq|done].
    + lia.
    + intros k. rewrite Hinc', Hinc. by destruct (packages !! k).
    + intros k. rewrite Hready', Hinc'. split.
      * intros [Hk|[Hm [n Hn]]].
        -- assert (k ≠ current) by congruence.
           destruct (proj1 (Hready k)) as [Hs Hz]; [apply elem_of_app; by left|].
           rewrite lookup_delete_ne by done. split; [done|]. rewrite Hz. simpl. f_equal.
           rewrite Hinc in Hz. destruct (packages !! k); [|done]. simpl in Hz. injection Hz as Hz.
           rewrite (occ_perm k _ _ (pending_delete _ _ _ Hc)), occ_app in Hz. lia.
        -- assert (k ≠ current) by congruence. rewrite lookup_delete_ne by done.
           rewrite Hn. simpl. rewrite Hm. split; [|done].
           rewrite Hinc in Hn. destruct (packages !! k) as [ck|] eqn:Hk; [|done].
           destruct (rest !! k) eqn:Hrk; [done|].
           destruct (Htaken k) as [Hz _]; [eauto|done|]. rewrite Hinc, Hk in Hz. simpl in *. congruence.
      * intros [Hs Hz]. destruct (decide (k = current)) as [->|Hne].
        { rewrite lookup_delete_eq in Hs. by destruct Hs. }
        rewrite lookup_delete_ne in Hs by done.
        destruct (incoming !! k) as [n|] eqn:Hk; [|done]. simpl in Hz. injection Hz as Hz.
        destruct n as [|n]; [|right; eauto]. left.
        assert (k ∈ ready0 ++ [current]) as [?|?%list_elem_of_singleton]%elem_of_app
          by (by apply Hready); congruence.
    + intros k Hk Hn. rewrite Hinc'. destruct (decide (k = current)) as [->|Hne].
      * rewrite Hzero. simpl. split.
        -- f_equal. apply occ_zero. intros Hin. apply Hnone.
           rewrite (pending_delete _ _ _ Hc). apply elem_of_app. by right.
        -- constructor. intros a Ha. apply (Htaken a); [|by apply Hpreds].
           destruct Ha as (ca & Ha & _). eauto.
      * rewrite lookup_delete_ne in Hn by done. destruct (Htaken k Hk Hn) as [Hz Ha].
        split; [|done]. rewrite Hz. simpl. f_equal. rewrite Hinc in Hz.
        destruct (packages !! k); [|done]. simpl in Hz. injection Hz as Hz.
        rewrite (occ_perm k _ _ (pending_delete _ _ _ Hc)), occ_app in Hz. lia.
Qed.

Lemma edge_source a b : tc edge a b -> is_Some (packages !! a).
Proof. by intros Ht; inversion Ht as [? ? (c & Hc & _)|? ? ? (c & Hc & _)]; subst; eauto. Qed.

(** When the stack is empty, either every package was taken or a cycle is left. *)
Definition verdict (count : nat) : Prop :=
  (count = size packages /\ forall k, ~ tc edge k k)
  \/ (count ≠ size packages /\ exists k, tc edge k k).

Lemma drains_end rest incoming count : drains rest incoming [] count -> verdict count.
Proof.
  intros [Hrest Hcount Hinc _ Hready Htaken].
  destruct (decide (rest = ∅)) as [->|Hne].
  - left. rewrite map_size_empty in Hcount. split; [lia|].
    intros k Hk. refine (acc_no_cycle _ _ _ Hk). apply Htaken; [|done]. by eapply edge_source.
  - right. split; [intros ->; apply Hne, map_size_empty_inv; lia|].
    apply map_choose in Hne as (k & c & Hk).
    apply (cycle_of_predecessors edge (dom rest)) with k; [|by eapply elem_of_dom_2].
    intros b [cb Hb]%elem_of_dom.
    pose proof (lookup_weaken _ _ _ _ Hb Hrest) as Hbp.
    destruct (decide (b ∈ pending rest)) as [Hin|Hz%occ_zero].
    + apply elem_of_pending in Hin as (a & ca & Ha & Hin). exists a.
      split; [by eapply elem_of_dom_2|]. exists ca. split; [|eauto]. by eapply lookup_weaken.
    + assert (b ∈ []) as ?%elem_of_nil; [|done]. apply Hready. split; [eauto|].
      by rewrite Hinc, Hbp; simpl; rewrite Hz.
Qed.

(** Each iteration takes one package, so [size rest] iterations empty the stack. *)
Lemma drain_spec fuel rest incoming ready count :
  drains rest incoming ready count -> size rest < fuel ->
  exists n, drain packages key fuel incoming ready count = Some n /\ verdict n.
Proof.
  revert rest incoming ready count; induction fuel as [|fuel IH]; intros rest incoming ready count Hd Hf; [lia|].
  simpl. destruct (last ready) as [current|] eqn:Hlast.
  - destruct (drains_step _ _ _ _ _ Hd Hlast) as (c & [inc' ready'] & Hc & Heq & Hd' & Hsz).
    rewrite Hc. simpl. rewrite Heq. simpl. apply (IH _ _ _ _ Hd'). lia.
  - apply last_None in Hlast as ->. exists count. split; [done|]. by eapply drains_end.
Qed.

Lemma has_cycle_correct :
  exists b, has_cycle packages key = Some b /\ (b = true ↔ exists k, tc edge k k).
Proof.
  destruct (drain_spec (S (size packages)) _ _ _ _ drains_initial) as (n & Heq & Hn); [lia|].
  unfold has_cycle. rewrite Heq. simpl. eexists. split; [done|].
  rewrite negb_true_iff, Nat.eqb_neq. destruct Hn; naive_solver.
Qed.
End Cycle.
