(* ===== verification/ResolverSpec.v ===== *)
(** * What a resolution promises

    The abstract specification of a selection of packages, and the program logic of the
    resolver's methods: a method neither panics nor fails outside the given postconditions. *)

From S2P Require Import Prelude Ordered Packages Resolver ResolverCycle.
From stdpp Require Import gmap list strings relations.
From Stdlib Require Import Lia.

(** ** Weakest preconditions *)

Definition wp `{Semver} {P A} (m : RM P A) (s : ResolverState P)
    (Q : A -> ResolverState P -> Prop) (E : ResolutionError -> Prop) : Prop :=
  match m s with
  | Some (Ok a, s') => Q a s'
  | Some (Err e, s') => E e
  | None => False
  end.

Section WP.
Context `{Semver} {P : Type}.

Lemma wp_ret {A} (a : A) s Q E : Q a s -> wp (P := P) (mret a) s Q E.
Proof. done. Qed.

Lemma wp_bind {A B} (m : RM P A) (k : A -> RM P B) s Q E :
  wp m s (fun a s' => wp (k a) s' Q E) E -> wp (m ≫= k) s Q E.
Proof. unfold wp. simpl. unfold mbind, rm_bind. by destruct (m s) as [[[a|e] s']|]. Qed.

Lemma wp_mono {A} (m : RM P A) s (Q Q' : A -> ResolverState P -> Prop) (E E' : ResolutionError -> Prop) :
  wp m s Q E -> (forall a s', Q a s' -> Q' a s') -> (forall e, E e -> E' e) -> wp m s Q' E'.
Proof. unfold wp. destruct (m s) as [[[a|e] s']|]; eauto. Qed.

Lemma wp_expect {A} (o : option A) (a : A) s Q E : o = Some a -> Q a s -> wp (P := P) (expect o) s Q E.
Proof. by intros ->. Qed.

Lemma wp_throw {A} e s (Q : A -> ResolverState P -> Prop) (E : ResolutionError -> Prop) :
  E e -> wp (throw e) s Q E.
Proof. done. Qed.
End WP.

(** ** Selections *)

Section Spec.
Context `{Semver} (request : ResolutionRequest) (root_alias : option PackageKey).

Abbreviation selection := (gmap PackageKey PackageCandidate).
Abbreviation key_of := (canonical request root_alias).
Abbreviation root := (rq_root request).
Abbreviation reqs := (all_requirements request).

(** The requirement on [k] made by the selection [V]. *)
Definition demands (V : selection) (k : PackageKey) (r : PackageRequirement) : Prop :=
  r ∈ reqs V /\ key_of (pr_package r) = k.

(** A selection that satisfies every requirement, with the branches known of each package. *)
Record solution (branches : PackageKey -> gmap GitBranch GitRevision) (V : selection) : Prop := {
  sol_root : V !! root = Some (rq_candidate request);
  sol_closed : forall k r, demands V k r -> is_Some (V !! k);
  sol_satisfied : forall k r c, demands V k r -> V !! k = Some c ->
    satisfies request c r (branches k) = true;
  sol_eligible : forall k c, V !! k = Some c -> k ≠ root -> eligible request c = true;
  sol_override : forall k c replacement, V !! k = Some c -> k ≠ root ->
    rq_overrides request !! k = Some replacement ->
    matches_selector c (pr_selector replacement) (branches k) = true;
  sol_root_override : forall alias replacement, root_alias = Some alias ->
    rq_overrides request !! alias = Some replacement ->
    matches_selector (rq_candidate request) (pr_selector replacement) (branches root) = true;
  sol_acyclic : forall k, ~ tc (edge V key_of) k k }.

(** ** Requirements *)

Lemma elem_of_reqs V r :
  r ∈ reqs V ↔ (exists k c alias, V !! k = Some c /\ pc_dependencies c !! alias = Some r)
    \/ exists alias, pc_development (rq_candidate request) !! alias = Some r.
Proof.
  unfold all_requirements. rewrite elem_of_app, list_elem_of_bind, elem_of_values.
  split; (intros [Hl|?]; [left|by right]).
  - destruct Hl as (c & [alias Hr]%elem_of_values & [k Hk]%elem_of_values). eauto.
  - destruct Hl as (k & c & alias & Hk & Hr). exists c. rewrite !elem_of_values. eauto.
Qed.

Lemma reqs_mono V W r : V ⊆ W -> r ∈ reqs V -> r ∈ reqs W.
Proof.
  rewrite !elem_of_reqs. intros Hsub [(k & c & alias & Hk & Hr)|?]; [left|by right].
  exists k, c, alias. split; [by eapply lookup_weaken|done].
Qed.

Lemma demands_mono V W k r : V ⊆ W -> demands V k r -> demands W k r.
Proof. intros ? [? ?]. split; [by eapply reqs_mono|done]. Qed.

Lemma pushes_lookup l m k :
  foldl (push_requirement request root_alias) m l !! k =
    match filter (fun r => key_of (pr_package r) = k) l with
    | [] => m !! k
    | rs => Some (default [] (m !! k) ++ rs)
    end.
Proof.
  revert m; induction l as [|r l IH]; intros m; [done|].
  rewrite filter_cons. simpl. rewrite IH. unfold push_requirement.
  case_decide as Hk; [|by rewrite !lookup_insert_ne].
  subst. rewrite lookup_insert_eq. simpl.
  case_match; simpl; [done|]. by rewrite <- app_assoc.
Qed.

(** The entry of a package: the requirements on it, when there is one. *)
Lemma requirements_lookup V k :
  requirements request root_alias V !! k =
    match filter (fun r => key_of (pr_package r) = k) (reqs V) with
    | [] => None
    | rs => Some rs
    end.
Proof. unfold requirements. rewrite pushes_lookup, lookup_empty. by case_match. Qed.

Lemma elem_of_requirements V k r :
  r ∈ default [] (requirements request root_alias V !! k) ↔ demands V k r.
Proof.
  rewrite requirements_lookup.
  assert (r ∈ filter (fun r => key_of (pr_package r) = k) (reqs V) ↔ demands V k r) as Hf.
  { rewrite list_elem_of_filter. unfold demands. tauto. }
  rewrite <- Hf. by case_match.
Qed.

Lemma is_Some_requirements V k :
  is_Some (requirements request root_alias V !! k) ↔ exists r, demands V k r.
Proof.
  setoid_rewrite <- elem_of_requirements.
  rewrite requirements_lookup. case_match eqn:Hf; simpl.
  - split; [by intros [? ?]|]. by intros [r ?%elem_of_nil].
  - split; [|eauto]. intros _. eexists. left.
Qed.

(** ** The next package *)

Lemma min_key_in keys k : min_key request root_alias keys = Some k -> k ∈ keys.
Proof.
  unfold min_key. assert (forall best,
    foldl (fun best key => match best with
      | None => Some key
      | Some b => if key_less request root_alias key b then Some key else best end) best keys = Some k ->
    best = Some k \/ k ∈ keys) as Hg.
  { induction keys as [|x keys IH]; intros best; simpl; [by left|].
    intros [Hb|Hin]%IH; [|right; by right].
    destruct best as [b|]; [|simplify_eq; right; left].
    case_match; simplify_eq; [right; left|by left]. }
  intros [?|?]%Hg; done.
Qed.

Lemma min_key_none keys : min_key request root_alias keys = None -> keys = [].
Proof.
  unfold min_key. destruct keys as [|x keys]; [done|]. simpl. assert (forall b,
    foldl (fun best key => match best with
      | None => Some key
      | Some b => if key_less request root_alias key b then Some key else best end) (Some b) keys ≠ None) as Hg.
  { induction keys as [|y keys IH]; intros b; simpl; [done|]. case_match; apply IH. }
  by intros ?%Hg.
Qed.

Lemma next_key_some V k :
  next_key request root_alias V (requirements request root_alias V) = Some k ->
  V !! k = None /\ exists r, demands V k r.
Proof.
  intros [Hk Hin]%min_key_in%list_elem_of_filter. split; [done|].
  by apply is_Some_requirements, elem_of_keys.
Qed.

Lemma next_key_none V :
  next_key request root_alias V (requirements request root_alias V) = None ->
  forall k r, demands V k r -> is_Some (V !! k).
Proof.
  intros Hn%min_key_none k r Hd.
  destruct (V !! k) as [c|] eqn:Hk; [eauto|]. exfalso.
  assert (k ∈ []) as ?%elem_of_nil; [|done]. rewrite <- Hn. apply list_elem_of_filter.
  split; [done|]. apply elem_of_keys, is_Some_requirements. eauto.
Qed.
End Spec.

Lemma existsb_false {A} (f : A -> bool) l : existsb f l = false ↔ forall x, x ∈ l -> f x = false.
Proof.
  rewrite <- not_true_iff_false, existsb_exists. split.
  - intros Hn x Hx. apply not_true_iff_false. intros Hf. apply Hn.
    exists x. split; [by apply list_elem_of_In|done].
  - intros Hf (x & Hx & Ht). rewrite (Hf x) in Ht; [done|by apply list_elem_of_In].
Qed.

(** No test of a disjunction [existsb (negb ∘ f)] succeeds: every [f] does. *)
Lemma existsb_negb_false {A} (f : A -> bool) l :
  existsb (fun x => negb (f x)) l = false ↔ forall x, x ∈ l -> f x = true.
Proof. rewrite existsb_false. by setoid_rewrite negb_false_iff. Qed.
