(* ===== verification/ResolverSound.v ===== *)
(** * Resolutions are solutions

    A graph that [search] of fai-package's [resolver.rs] returns satisfies every requirement
    made by its packages and the root's development dependencies, with the branch bindings it
    records; the only failures are the provider's and the limit on the depth. *)

From S2P Require Import Prelude Ordered Packages Resolver ResolverCycle ResolverSpec.
From stdpp Require Import gmap list strings relations.
From Stdlib Require Import Lia.

Section Sound.
Context `{Semver} {P : Type} `{!ResolverProvider P}.
Context (debug : PackageSelector -> string).
Context (request : ResolutionRequest) (root_alias : option PackageKey)
  (required_targets : gset PackageKey).

Abbreviation selection := (gmap PackageKey PackageCandidate).
Abbreviation key_of := (canonical request root_alias).
Abbreviation root := (rq_root request).
Abbreviation reqs := (all_requirements request).
Abbreviation required := (requirements request root_alias).
Abbreviation overrides := (rq_overrides request).
Abbreviation state := (ResolverState P).

(** The failures of the search: the provider's, and a search too deep. *)
Definition search_error (e : ResolutionError) : Prop :=
  match e with
  | RE_Provider _ => True
  | RE_Conflict c => rc_message c = Msg_TooDeep
  end.

(** A candidate that may supply a package. *)
Definition supplies (k : PackageKey) (c : PackageCandidate) : Prop :=
  eligible request c = true /\ same_source (actual_of request k) (pc_source c) = true.

(** ** The cache *)

(** The cache holds arranged answers, and never one for the root. *)
Record cache_ok (s : state) : Prop := {
  co_root : rs_cache s !! root = None;
  co_overridden : forall k replacement sels set, overrides !! k = Some replacement ->
    rs_cache s !! k = Some (sels, set) -> sels = [pr_selector replacement];
  co_supplies : forall k sels set c, rs_cache s !! k = Some (sels, set) ->
    c ∈ cs_candidates set -> supplies k c }.

(** Answers for replaced packages are asked for once. *)
Definition keeps (s s' : state) : Prop :=
  forall k, is_Some (overrides !! k) -> is_Some (rs_cache s !! k) -> rs_cache s' !! k = rs_cache s !! k.

#[local] Instance keeps_preorder : PreOrder keeps.
Proof.
  split; [by intros s k|]. intros s1 s2 s3 H12 H23 k Ho Hs.
  rewrite H23; [by apply H12|done|]. by rewrite H12.
Qed.

Lemma selectors_overridden k rs replacement :
  overrides !! k = Some replacement -> selectors_of debug request k rs = [pr_selector replacement].
Proof. unfold selectors_of. by intros ->. Qed.

Lemma consistent_same actual sources cs c :
  consistent actual sources cs = true -> c ∈ cs -> same_source actual (pc_source c) = true.
Proof.
  revert sources; induction cs as [|x cs IH]; intros sources; [by intros _ ?%elem_of_nil|].
  simpl. rewrite !andb_true_iff. intros [[Hs _] Hc] [->|Hin]%elem_of_cons; [done|]. by eapply IH.
Qed.

Lemma elem_of_arrange cs c : c ∈ arrange request cs ↔ eligible request c = true /\ c ∈ cs.
Proof. unfold arrange. by rewrite elem_of_dedup_by, sort_by_perm, list_elem_of_filter. Qed.

(** What [candidate_set] leaves: its answer cached, the other entries untouched. *)
Definition answered (k : PackageKey) (sels : list PackageSelector) (s : state)
    (set : CandidateSet) (s' : state) : Prop :=
  rs_cache s' !! k = Some (sels, set)
  /\ (forall k', k' ≠ k -> rs_cache s' !! k' = rs_cache s !! k')
  /\ cache_ok s' /\ keeps s s'.

Lemma ask_provider_wp k rs s :
  let sels := selectors_of debug request k rs in
  cache_ok s -> k ≠ root ->
  (forall previous set, rs_cache s !! k = Some (previous, set) -> previous ≠ sels) ->
  wp (ask_provider request k sels) s (answered k sels s) search_error.
Proof.
  intros sels [H1 H2 H3] Hk Hnew. unfold wp, ask_provider.
  destruct (candidates _ _ _ _ _) as [[set|failure] p]; simpl; [|done].
  destruct (consistent _ _ _) eqn:Hcons; [simpl|done].
  unfold answered. simpl. split; [by rewrite lookup_insert_eq|]. split; [intros ? ?; by rewrite lookup_insert_ne|].
  split; [split; simpl|].
  - by rewrite lookup_insert_ne.
  - intros k' replacement sels' set' Ho. rewrite lookup_insert_Some.
    intros [[<- [= <- <-]]|[? ?]]; [by apply selectors_overridden|eauto].
  - intros k' sels' set' c. rewrite lookup_insert_Some. intros [[<- [= <- <-]]|[? ?]]; simpl; [|eauto].
    intros [He Hin]%elem_of_arrange. split; [done|by eapply consistent_same].
  - intros k' [replacement Ho] [[previous set'] He]. simpl. rewrite lookup_insert_ne; [done|]. intros <-.
    destruct (Hnew _ _ He). unfold sels. rewrite (selectors_overridden _ _ _ Ho). by eapply H2.
Qed.

Lemma candidate_set_wp k rs s :
  let sels := selectors_of debug request k rs in
  cache_ok s -> k ≠ root ->
  wp (candidate_set debug request k rs) s (answered k sels s) search_error.
Proof.
  intros sels Hok Hk. pose proof (ask_provider_wp k rs s Hok Hk) as Hask. simpl in Hask.
  unfold wp, candidate_set in *. fold sels in Hask |- *.
  destruct (rs_cache s !! k) as [[previous set]|] eqn:Hc; [|apply Hask; naive_solver].
  case_bool_decide as Heq; [|apply Hask; intros ? ? [= <- <-]; done].
  subst. split; [done|]. split; [done|]. split; [done|reflexivity].
Qed.

(** ** The branches of a graph *)

(** The branches the head of [search] checks a package against. *)
Definition branches_at (s : state) (k : PackageKey) : gmap GitBranch GitRevision :=
  if decide (k = root) then ∅
  else match rs_cache s !! k with Some (_, set) => cs_branches set | None => ∅ end.

Definition graph_branches (g : ResolvedGraph) (k : PackageKey) : gmap GitBranch GitRevision :=
  default ∅ (rg_branches g !! k).

Lemma branches_at_cache s s' k : rs_cache s' !! k = rs_cache s !! k -> branches_at s' k = branches_at s k.
Proof. unfold branches_at. by intros ->. Qed.

Lemma used_branches_lookup set selectors b :
  Sel_Branch b ∈ selectors -> used_branches set selectors !! b = cs_branches set !! b.
Proof.
  unfold used_branches.
  assert (forall used : gmap GitBranch GitRevision, (used !! b = None \/ used !! b = cs_branches set !! b) ->
    (used !! b = cs_branches set !! b \/ Sel_Branch b ∈ selectors) ->
    foldl (fun used selector => match selector with
      | Sel_Branch branch => match cs_branches set !! branch with
          | Some revision => <[branch:=revision]> used | None => used end
      | _ => used end) used selectors !! b = cs_branches set !! b) as Hg; [|intros; apply Hg; auto].
  induction selectors as [|x selectors IH]; intros used Hu Hin; simpl.
  { destruct Hin as [?|?%elem_of_nil]; done. }
  apply IH; destruct x as [|rev|b'|]; try done; try (destruct Hin as [?|[?|?]%elem_of_cons]; by auto).
  - destruct (decide (b' = b)) as [->|Hne].
    + destruct (cs_branches set !! b) eqn:Hb; [|done]. rewrite lookup_insert_eq. by right.
    + case_match; [by rewrite lookup_insert_ne|done].
  - destruct (decide (b' = b)) as [->|Hne].
    + left. destruct (cs_branches set !! b) eqn:Hb; [by rewrite lookup_insert_eq|].
      destruct Hu; congruence.
    + destruct Hin as [Hu'|[?|?]%elem_of_cons]; [left|congruence|by right].
      case_match; [by rewrite lookup_insert_ne|done].
Qed.

(** The recorded branches decide a requested selector as the provider's do. *)
Lemma matches_used set selectors c selector :
  selector ∈ selectors ->
  matches_selector c selector (used_branches set selectors) = matches_selector c selector (cs_branches set).
Proof.
  intros Hin. destruct selector; try done. simpl. by rewrite used_branches_lookup.
Qed.

Lemma add_branches_lookup cache l branches k :
  NoDup l.*1 ->
  default ∅ (foldl (add_branches request cache) branches l !! k) =
    match list_find (fun p => p.1 = k) l with
    | None => default ∅ (branches !! k)
    | Some (_, p) =>
        match cache !! k with
        | None => default ∅ (branches !! k)
        | Some (_, set) =>
            let used := used_branches set (requested_selectors request k p.2) in
            if bool_decide (used = ∅) then default ∅ (branches !! k) else used
        end
    end.
Proof.
  revert branches; induction l as [|[k' rs] l IH]; intros branches Hnd; [done|].
  apply NoDup_cons in Hnd as [Hfresh Hnd]. simpl. rewrite IH by done.
  case_decide as Hk; simpl in *; subst.
  - assert (list_find (fun p => p.1 = k) l = None) as ->.
    { apply list_find_None, list.Forall_forall. intros [k' rs'] Hin Heq. simpl in *. subst.
      apply Hfresh. apply list_elem_of_fmap. by exists (k, rs'). }
    unfold add_branches. simpl. destruct (cache !! k) as [[sels set]|]; [|done].
    simpl. case_bool_decide; [done|]. by rewrite lookup_insert_eq.
  - assert (add_branches request cache branches (k', rs) !! k = branches !! k) as ->.
    { unfold add_branches. simpl. destruct (cache !! k') as [[? ?]|]; [|done].
      simpl. case_bool_decide; [done|]. by rewrite lookup_insert_ne. }
    by destruct (list_find _ l) as [[? ?]|].
Qed.

Lemma find_item (m : gmap PackageKey (list PackageRequirement)) k :
  list_find (fun p => p.1 = k) (items m) = None /\ m !! k = None
  \/ exists i rs, list_find (fun p => p.1 = k) (items m) = Some (i, (k, rs)) /\ m !! k = Some rs.
Proof.
  destruct (list_find _ _) as [[i [k' rs]]|] eqn:Hf.
  - right. apply list_find_Some in Hf as (Hi & Hk & _). simpl in Hk. subst.
    apply list_elem_of_lookup_2 in Hi. apply elem_of_items in Hi. eauto.
  - left. split; [done|]. apply list_find_None in Hf. rewrite list.Forall_forall in Hf.
    destruct (m !! k) as [rs|] eqn:Hk; [|done]. apply elem_of_items in Hk. by destruct (Hf _ Hk).
Qed.

Lemma graph_branches_graph V (s : state) k :
  graph_branches (graph request root_alias V (rs_cache s)) k =
    match required V !! k, rs_cache s !! k with
    | Some rs, Some (_, set) => used_branches set (requested_selectors request k rs)
    | _, _ => ∅
    end.
Proof.
  unfold graph_branches, graph. simpl. rewrite add_branches_lookup by apply NoDup_keys.
  destruct (find_item (required V) k) as [[-> ->]|(i & rs & -> & ->)]; simpl; [done|].
  destruct (rs_cache s !! k) as [[sels set]|]; [|done].
  case_bool_decide as He; by rewrite ?He.
Qed.

(** ** The checks of a selection *)

Section Fixed.
Context (fixed : gmap PackageKey PackagePin).

(** A selected package passed the loop at the head of [search]. *)
Record passes (s : state) (V : selection) (k : PackageKey) (c : PackageCandidate) : Prop := {
  ps_pin : pinned_elsewhere fixed k c = false;
  ps_satisfies : forall r, demands request root_alias V k r -> satisfies request c r (branches_at s k) = true;
  ps_root : root_replaced_badly request root_alias k c (branches_at s k) = false;
  ps_cached : k ≠ root -> is_Some (rs_cache s !! k) }.

Lemma passes_cache s s' V k c : rs_cache s' !! k = rs_cache s !! k -> passes s V k c -> passes s' V k c.
Proof.
  intros Heq [H1 H2 H3 H4]. split; [done| | |by rewrite Heq];
    by rewrite (branches_at_cache _ _ _ Heq).
Qed.

Lemma passes_intro V k c s branches :
  branches_at s k = branches -> (k ≠ root -> is_Some (rs_cache s !! k)) ->
  pinned_elsewhere fixed k c
    || existsb (fun r => negb (satisfies request c r branches)) (default [] (required V !! k))
    || root_replaced_badly request root_alias k c branches = false ->
  passes s V k c.
Proof.
  intros <- Hc. rewrite !orb_false_iff, existsb_negb_false. intros [[Hp Hs] Hr].
  split; [done| |done|done]. intros r Hd. by apply Hs, elem_of_requirements.
Qed.

Definition checked (V : selection) (l : list (PackageKey * PackageCandidate)) (s : state)
    (b : bool) (s' : state) : Prop :=
  cache_ok s' /\ keeps s s' /\ (forall k, k ∉ l.*1 -> rs_cache s' !! k = rs_cache s !! k)
  /\ (b = true -> forall k c, (k, c) ∈ l -> passes s' V k c).

Lemma check_selected_wp V l s :
  NoDup l.*1 -> cache_ok s ->
  wp (check_selected debug request root_alias fixed (required V) l) s (checked V l s) search_error.
Proof.
  revert s; induction l as [|[k c] l IH]; intros s Hnd Hok; simpl.
  { apply wp_ret. split; [done|]. split; [reflexivity|]. split; [done|]. by intros _ ? ? ?%elem_of_nil. }
  apply NoDup_cons in Hnd as [Hfresh Hnd].
  apply wp_bind.
  apply wp_mono with (Q := fun branches s' => branches_at s' k = branches
    /\ (k ≠ root -> is_Some (rs_cache s' !! k))
    /\ (forall k', k' ≠ k -> rs_cache s' !! k' = rs_cache s !! k') /\ cache_ok s' /\ keeps s s')
    (E := search_error); [| |done].
  { case_bool_decide as Hk.
    - apply wp_ret. subst. unfold branches_at. by rewrite decide_True.
    - apply wp_bind. eapply wp_mono; [by apply candidate_set_wp| |done].
      intros set s' (Hc & Hother & Hok' & Hkeep). apply wp_ret.
      unfold branches_at. rewrite decide_False, Hc by done. split; [done|]. split; [eauto|]. done. }
  intros branches s1 (Hbr & Hc & Hother & Hok1 & Hkeep1).
  destruct (_ || _ || _) eqn:Htest.
  - unfold wp. simpl. split; [by destruct Hok1|]. split; [exact Hkeep1|]. split; [|done].
    intros k' [Hne _]%not_elem_of_cons. by apply Hother.
  - eapply wp_mono; [by apply IH| |done].
    intros b s2 (Hok2 & Hkeep2 & Hother2 & Hpass). split; [done|]. split; [by etrans|]. split.
    + intros k' [Hne Hn]%not_elem_of_cons. rewrite Hother2 by done. by apply Hother.
    + intros Hb k' c' [[= -> ->]|Hin]%elem_of_cons; [|by apply Hpass].
      eapply passes_cache; [by apply Hother2|]. by eapply passes_intro.
Qed.

(** ** Search *)

(** A selection under construction. *)
Record selects (s : state) (V : selection) : Prop := {
  so_root : V !! root = Some (rq_candidate request);
  so_supplies : forall k c, V !! k = Some c -> k ≠ root -> supplies k c;
  so_needed : forall k c, V !! k = Some c -> k ≠ root -> exists r, demands request root_alias V k r;
  so_override : forall k c replacement, V !! k = Some c -> k ≠ root ->
    overrides !! k = Some replacement ->
    is_Some (rs_cache s !! k) /\ matches_selector c (pr_selector replacement) (branches_at s k) = true }.

Lemma selects_keeps s s' V : keeps s s' -> selects s V -> selects s' V.
Proof.
  intros Hkeep [H1 H2 H3 H4]. split; [done..|]. intros k c replacement Hk Hne Ho.
  destruct (H4 k c replacement Hk Hne Ho) as [Hs Hm].
  assert (rs_cache s' !! k = rs_cache s !! k) as Heq by (by apply Hkeep; eauto).
  by rewrite Heq, (branches_at_cache _ _ _ Heq).
Qed.

(** What [search] returns. *)
Record resolved (g : ResolvedGraph) : Prop := {
  rs_root : rg_root g = root;
  rs_solution : solution request root_alias (graph_branches g) (rg_packages g);
  rs_supplied : forall k c, rg_packages g !! k = Some c -> k ≠ root ->
    same_source (actual_of request k) (pc_source c) = true;
  rs_needed : forall k c, rg_packages g !! k = Some c -> k ≠ root ->
    exists r, demands request root_alias (rg_packages g) k r;
  rs_targets : forall k, k ∈ required_targets -> is_Some (rg_packages g !! k);
  rs_pinned : forall k pin c, fixed !! k = Some pin -> rg_packages g !! k = Some c ->
    pin_matches pin c = true;
  rs_edges : rg_edges g = graph_edges request root_alias (rg_packages g) }.

Lemma satisfies_used V k r c set :
  k ≠ root -> demands request root_alias V k r ->
  satisfies request c r (cs_branches set) = true ->
  satisfies request c r
    (used_branches set (requested_selectors request k (default [] (required V !! k)))) = true.
Proof.
  intros Hne Hd. unfold satisfies. case_bool_decide as Ho; [done|].
  rewrite matches_used; [done|].
  assert (pr_package r = k) as Hk.
  { destruct Hd as [_ Hk]. unfold canonical in Hk. by case_bool_decide. }
  unfold requested_selectors. rewrite Hk in Ho. apply eq_None_not_Some in Ho. rewrite Ho.
  apply list_elem_of_fmap_2, elem_of_requirements, Hd.
Qed.

Lemma graph_resolved s V :
  cache_ok s -> selects s V ->
  (forall k c, V !! k = Some c -> passes s V k c) ->
  (forall k r, demands request root_alias V k r -> is_Some (V !! k)) ->
  (forall k, ~ tc (edge V key_of) k k) ->
  (forall k, k ∈ required_targets -> is_Some (V !! k)) ->
  resolved (graph request root_alias V (rs_cache s)).
Proof.
  intros Hok Hsel Hpass Hclosed Hacyclic Htargets.
  assert (graph_branches (graph request root_alias V (rs_cache s)) root = ∅) as Hroot.
  { rewrite graph_branches_graph, (co_root _ Hok). by case_match. }
  assert (forall k c, V !! k = Some c -> k ≠ root -> exists set,
    branches_at s k = cs_branches set
    /\ graph_branches (graph request root_alias V (rs_cache s)) k
       = used_branches set (requested_selectors request k (default [] (required V !! k)))) as Hset.
  { intros k c Hk Hne. destruct (ps_cached _ _ _ _ (Hpass k c Hk) Hne) as [[sels set] Hc].
    exists set. unfold branches_at. rewrite decide_False, Hc by done. split; [done|].
    rewrite graph_branches_graph, Hc.
    destruct (so_needed _ _ Hsel k c Hk Hne) as [r Hd].
    destruct (proj2 (is_Some_requirements request root_alias V k)) as [rs Hrs]; [eauto|]. by rewrite Hrs. }
  split; [done| | | |done| |done]; simpl.
  - split; [by eapply so_root|done| | | | |done].
    + intros k r c Hd Hk. pose proof (ps_satisfies _ _ _ _ (Hpass k c Hk) r Hd) as Hs.
      destruct (decide (k = root)) as [->|Hne].
      * rewrite Hroot. unfold branches_at in Hs. by rewrite decide_True in Hs.
      * destruct (Hset k c Hk Hne) as (set & Hb & ->). rewrite Hb in Hs. by apply satisfies_used.
    + intros k c Hk Hne. by apply (so_supplies _ _ Hsel k c).
    + intros k c replacement Hk Hne Ho.
      destruct (so_override _ _ Hsel k c replacement Hk Hne Ho) as [_ Hm].
      destruct (Hset k c Hk Hne) as (set & Hb & ->). rewrite Hb in Hm.
      rewrite matches_used; [done|]. unfold requested_selectors. rewrite Ho. left.
    + intros alias replacement Ha Ho. rewrite Hroot.
      pose proof (ps_root _ _ _ _ (Hpass root _ (so_root _ _ Hsel))) as Hr.
      unfold root_replaced_badly, branches_at in Hr.
      rewrite bool_decide_eq_true_2, decide_True, Ha in Hr by done. simpl in Hr. rewrite Ho in Hr.
      by apply negb_false_iff in Hr.
  - intros k c Hk Hne. by apply (so_supplies _ _ Hsel k c).
  - intros k c Hk Hne. by eapply so_needed.
  - intros k pin c Hf Hk. pose proof (ps_pin _ _ _ _ (Hpass k c Hk)) as Hp.
    unfold pinned_elsewhere in Hp. rewrite Hf in Hp. by apply negb_false_iff in Hp.
Qed.

Definition found (s : state) (a : option ResolvedGraph) (s' : state) : Prop :=
  cache_ok s' /\ keeps s s' /\ forall g, a = Some g -> resolved g.

Lemma try_candidates_wp k rs branches descend s cs attempted :
  cache_ok s ->
  (forall c s', c ∈ cs -> rejects request fixed k rs branches c = false ->
    cache_ok s' -> keeps s s' -> wp (descend c) s' (found s') search_error) ->
  wp (try_candidates request fixed k rs branches descend cs attempted) s
    (fun a => found s a.1) search_error.
Proof.
  intros Hok Hdesc.
  assert (forall attempted s', cache_ok s' -> keeps s s' ->
    wp (try_candidates request fixed k rs branches descend cs attempted) s' (fun a => found s a.1)
      search_error) as Hg; [|by apply Hg].
  clear Hok attempted. induction cs as [|c cs IH]; intros attempted s' Hok Hkeep; simpl.
  { apply wp_ret. by split. }
  assert (forall attempted s', cache_ok s' -> keeps s s' ->
    wp (try_candidates request fixed k rs branches descend cs attempted) s' (fun a => found s a.1)
      search_error) as IH' by (apply IH; intros; apply Hdesc; [by right|done..]).
  destruct (rejects _ _ _ _ _ _) eqn:Hrej; [by apply IH'|].
  apply wp_bind. eapply wp_mono; [apply Hdesc; [left|done..]| |done].
  intros [g|] s'' (Hok' & Hkeep' & Hres).
  - apply wp_ret. split; [done|]. split; [by etrans|done].
  - apply IH'; [done|by etrans].
Qed.

Lemma selects_insert V k c rs s s' set :
  selects s V -> V !! k = None -> (exists r, demands request root_alias V k r) ->
  answered k (selectors_of debug request k rs) s set s' ->
  c ∈ cs_candidates set -> rejects request fixed k rs (cs_branches set) c = false ->
  selects s' (<[k := c]> V).
Proof.
  intros Hsel Hk Hneed (Hc & Hother & Hok & Hkeep) Hin Hrej.
  apply (selects_keeps s s') in Hsel as [H1 H2 H3 H4]; [|done].
  assert (V ⊆ <[k := c]> V) as Hsub by (by apply insert_subseteq).
  assert (k ≠ root) as Hkr by congruence.
  split.
  - by rewrite lookup_insert_ne.
  - intros k' c'. rewrite lookup_insert_Some. intros [[<- <-]|[? ?]] ?; [|eauto].
    by eapply co_supplies.
  - intros k' c'. rewrite lookup_insert_Some. intros [[<- <-]|[? Hk']] ?.
    + destruct Hneed as [r Hd]. exists r. by eapply demands_mono.
    + destruct (H3 _ _ Hk') as [r Hd]; [done|]. exists r. by eapply demands_mono.
  - intros k' c' replacement. rewrite lookup_insert_Some. intros [[<- <-]|[? ?]] ? Ho; [|eauto].
    split; [eauto|]. unfold branches_at. rewrite decide_False, Hc by done.
    unfold rejects in Hrej. rewrite Ho, !orb_false_iff in Hrej.
    destruct Hrej as [_ Hrej]. by apply negb_false_iff.
Qed.

Lemma search_wp levels V s :
  cache_ok s -> selects s V ->
  wp (search debug request root_alias required_targets fixed levels V) s (found s) search_error.
Proof.
  revert V s; induction levels as [|levels IH]; intros V s Hok Hsel; [done|].
  cbn [search]. apply wp_bind.
  eapply wp_mono; [apply check_selected_wp; [apply NoDup_keys|done]| |done].
  intros b s1 (Hok1 & Hkeep1 & _ & Hpass).
  destruct b; simpl negb; [|by apply wp_ret; split].
  assert (forall k c, V !! k = Some c -> passes s1 V k c) as Hpasses.
  { intros k c Hk. by apply Hpass, elem_of_items. }
  clear Hpass. apply (selects_keeps _ _ _ Hkeep1) in Hsel.
  apply wp_bind. destruct (has_cycle_correct V key_of) as (cyclic & Hcyc & Hiff).
  eapply wp_expect; [done|].
  destruct cyclic; [unfold wp, found; simpl; split; [by destruct Hok1|by split]|].
  destruct (next_key _ _ _ _) as [k|] eqn:Hnext.
  - apply next_key_some in Hnext as [Hk Hneed].
    assert (k ≠ root) by (intros ->; rewrite (so_root _ _ Hsel) in Hk; done).
    apply wp_bind. eapply wp_mono; [by apply candidate_set_wp| |done].
    intros set s2 Hans. pose proof Hans as (Hc & Hother & Hok2 & Hkeep2).
    apply wp_bind. eapply wp_mono.
    + eapply (try_candidates_wp k (default [] (required V !! k))); [done|].
      intros c s3 Hin Hrej Hok3 Hkeep3. apply IH; [done|].
      eapply selects_keeps; [done|]. by eapply selects_insert.
    + intros [[g|] attempted] s3 (Hok3 & Hkeep3 & Hres); simpl in *.
      * apply wp_ret. split; [done|]. split; [|done]. etrans; [done|by etrans].
      * assert (keeps s s3) by (etrans; [done|by etrans]).
        destruct attempted; [by apply wp_ret; split|].
        unfold wp; simpl. split; [by destruct Hok3|]. by split.
    + done.
  - destruct (existsb _ _) eqn:Htargets; [by apply wp_ret; split|].
    unfold wp; simpl. split; [done|]. split; [done|]. intros g [= <-].
    apply graph_resolved; [done|done|done|by apply next_key_none| |].
    + intros k Hk. destruct Hiff as [_ Hiff]. discriminate Hiff; eauto.
    + rewrite existsb_false in Htargets. intros k Hk%elem_of_set_items.
      specialize (Htargets k Hk). rewrite bool_decide_eq_false in Htargets.
      destruct (V !! k); [eauto|done].
Qed.
End Fixed.
Lemma resolved_weaken fixed fixed' g : fixed' ⊆ fixed -> resolved fixed g -> resolved fixed' g.
Proof.
  intros Hsub [H1 H2 H3 H4 H5 H6 H7]. split; [done..| |done].
  intros k pin c Hk. eapply H6. by eapply lookup_weaken.
Qed.

(** ** The methods above [search] *)

(** A method that keeps the cache and whose result, if any, has a property. *)
Definition returns {A} (R : A -> Prop) (s : state) (a : A) (s' : state) : Prop :=
  cache_ok s' /\ R a.

Definition resolves (fixed : gmap PackageKey PackagePin) (a : option ResolvedGraph) : Prop :=
  forall g, a = Some g -> resolved fixed g.

Definition any_error (e : ResolutionError) : Prop := True.

Lemma selects_root s : selects s (root_selection request).
Proof.
  unfold root_selection. split; [by rewrite lookup_singleton_eq|..];
    intros k c; intros; simplify_map_eq; by rewrite lookup_singleton_Some in *; naive_solver.
Qed.

Lemma search_root_wp fixed s :
  cache_ok s ->
  wp (search_root debug request root_alias required_targets fixed) s (returns (resolves fixed) s) any_error.
Proof.
  intros Hok. eapply wp_mono; [apply search_wp; [done|apply selects_root]| |done].
  intros a s' (Hok' & _ & Hres). by split.
Qed.

Lemma retain_pins_wp fixed pins retained best s :
  cache_ok s -> fixed ⊆ retained -> resolved fixed best ->
  wp (retain_pins debug request root_alias required_targets fixed pins retained best) s
    (returns (resolved fixed) s) any_error.
Proof.
  intros Hok Hsub Hbest.
  assert (forall s', cache_ok s' ->
    wp (retain_pins debug request root_alias required_targets fixed pins retained best) s'
      (returns (resolved fixed) s) any_error) as Hg; [|by apply Hg].
  clear Hok. revert retained best Hsub Hbest.
  induction pins as [|[k pin] pins IH]; intros retained best Hsub Hbest s' Hok; simpl; [by apply wp_ret|].
  destruct (_ || _) eqn:Hskip; [by apply IH|].
  apply orb_false_iff in Hskip as [_ Hk%bool_decide_eq_false]. apply eq_None_not_Some in Hk.
  apply wp_bind. eapply wp_mono; [by apply search_root_wp| |done].
  intros [g|] s'' [Hok' Hres]; [|by apply IH].
  assert (fixed ⊆ <[k := pin]> retained).
  { apply map_subseteq_spec. intros k' pin' Hk'. rewrite lookup_insert_ne by congruence.
    by eapply lookup_weaken. }
  apply IH; [done| |done]. eapply resolved_weaken; [done|]. by apply Hres.
Qed.

Lemma prefer_pins_wp fixed s :
  cache_ok s ->
  wp (prefer_pins debug request root_alias required_targets fixed) s (returns (resolves fixed) s) any_error.
Proof.
  intros Hok.
  assert (wp (found ← search_root debug request root_alias required_targets
      (fixed ∪ delete root (rq_pins request));
    match found with
    | Some g => mret (Some g)
    | None =>
        found ← search_root debug request root_alias required_targets fixed;
        match found with
        | None => mret None
        | Some best =>
            best ← retain_pins debug request root_alias required_targets fixed
              (items (rq_pins request)) fixed best;
            mret (Some best)
        end
    end) s (returns (resolves fixed) s) any_error) as Hpins.
  { apply wp_bind. eapply wp_mono; [by apply search_root_wp| |done].
    intros [g|] s1 [Hok1 Hres].
    - apply wp_ret. split; [done|]. intros g' [= <-].
      eapply resolved_weaken; [apply map_union_subseteq_l|]. by apply Hres.
    - apply wp_bind. eapply wp_mono; [by apply search_root_wp| |done].
      intros [best|] s2 [Hok2 Hres2]; [|by apply wp_ret].
      apply wp_bind. eapply wp_mono; [apply retain_pins_wp; [done|done|by apply Hres2]| |done].
      intros g s3 [Hok3 Hg]. apply wp_ret. split; [done|]. by intros ? [= <-]. }
  unfold prefer_pins. destruct (rq_policy request); [done|by apply search_root_wp|done].
Qed.

Lemma accept_target_wp fixed k cs s :
  cache_ok s ->
  wp (accept_target debug request root_alias required_targets fixed k cs) s
    (returns (fun _ => True) s) any_error.
Proof.
  intros Hok. assert (forall s', cache_ok s' ->
    wp (accept_target debug request root_alias required_targets fixed k cs) s'
      (returns (fun _ => True) s) any_error) as Hg; [|by apply Hg].
  clear Hok. induction cs as [|c cs IH]; intros s' Hok; simpl; [by apply wp_ret|].
  apply wp_bind. eapply wp_mono; [by apply prefer_pins_wp| |done].
  intros [g|] s'' [Hok' _]; [|by apply IH]. case_bool_decide; [by apply wp_ret|by apply IH].
Qed.

Lemma fix_targets_wp initial targets fixed s :
  cache_ok s ->
  wp (fix_targets debug request root_alias required_targets initial targets fixed) s
    (returns (fun _ => True) s) any_error.
Proof.
  intros Hok. assert (forall fixed s', cache_ok s' ->
    wp (fix_targets debug request root_alias required_targets initial targets fixed) s'
      (returns (fun _ => True) s) any_error) as Hg; [|by apply Hg].
  clear Hok fixed. induction targets as [|k targets IH]; intros fixed s' Hok; simpl; [by apply wp_ret|].
  case_bool_decide; [done|]. case_bool_decide; [by apply IH|].
  apply wp_bind. unfold wp at 1; simpl.
  apply wp_bind. eapply wp_mono; [by apply accept_target_wp| |done].
  intros [fixed'|] s'' [Hok' _]; [by apply IH|done].
Qed.

Lemma or_conflict_wp R a (s s' : state) :
  cache_ok s' -> (forall g, a = Some g -> R g) -> wp (or_conflict a) s' (returns R s) any_error.
Proof. intros Hok HR. destruct a as [g|]; [apply wp_ret; split; auto|done]. Qed.

Lemma resolve_with_wp s :
  cache_ok s ->
  wp (resolve_with debug request root_alias required_targets) s (returns (resolved ∅) s) any_error.
Proof.
  intros Hok. unfold resolve_with. destruct (negb _); [done|].
  apply wp_bind. eapply wp_mono with (Q := returns (fun _ => True) s) (E := any_error); [| |done].
  - destruct (rq_policy request); [by apply wp_ret..|].
    apply wp_bind. eapply wp_mono; [by apply search_root_wp| |done].
    intros a s1 [Hok1 Hres]. apply wp_bind.
    eapply wp_mono; [apply (or_conflict_wp (fun _ => True) _ s); [exact Hok1|done]| |done].
    intros g s2 [Hok2 _]. eapply wp_mono; [by apply fix_targets_wp| |done]. by intros ? ? [? _].
  - intros fixed s1 [Hok1 _]. apply wp_bind. eapply wp_mono; [by apply prefer_pins_wp| |done].
    intros a s2 [Hok2 Hres]. apply or_conflict_wp; [done|].
    intros g Hg. eapply resolved_weaken; [apply map_empty_subseteq|]. by apply Hres.
Qed.
End Sound.

(** ** [resolve_graph] *)

Section Graph.
Context `{Semver} {P : Type} `{!ResolverProvider P} (debug : PackageSelector -> string).

Lemma duplicate_alias_some c alias :
  duplicate_alias c = Some alias ->
  is_Some (pc_dependencies c !! alias) /\ is_Some (pc_development c !! alias).
Proof.
  unfold duplicate_alias. intros Hh%head_Some_elem_of.
  apply list_elem_of_filter in Hh as [? ?%elem_of_keys]. done.
Qed.

Lemma cache_ok_initial request (provider : P) conflict :
  cache_ok request (MkResolverState provider ∅ conflict).
Proof. split; simpl; intros; by simplify_map_eq. Qed.

Lemma resolve_graph_returns (provider : P) request :
  exists r p', resolve_graph debug provider request = Some (r, p')
    /\ forall g, r = Ok g ->
      resolved request (head (root_aliases request)) (update_targets (rq_policy request)) ∅ g
      /\ duplicate_alias (rq_candidate request) = None /\ length (root_aliases request) <= 1.
Proof.
  unfold resolve_graph. destruct (duplicate_alias _) as [alias|] eqn:Hdup.
  { apply duplicate_alias_some in Hdup as [[r1 ->] [r2 ->]]. simpl. by do 2 eexists. }
  destruct (1 <? length (root_aliases request)) eqn:Hmany; [by do 2 eexists|].
  apply Nat.ltb_ge in Hmany.
  pose proof (resolve_with_wp debug request (head (root_aliases request))
    (update_targets (rq_policy request))
    (MkResolverState provider ∅ (MkResolutionConflict [] Msg_NoGraph)) (cache_ok_initial _ _ _)) as Hwp.
  unfold wp in Hwp. destruct (resolve_with _ _ _ _ _) as [[[g|e] s']|]; [| |done]; simpl.
  - do 2 eexists. split; [done|]. intros ? [= <-]. by destruct Hwp.
  - by do 2 eexists.
Qed.
End Graph.
