(* ===== verification/ResolverComplete.v ===== *)
(** * Resolution finds a solution when there is one

    Against a provider that answers from one snapshot, over at most 257 packages, the search of
    fai-package's [resolver.rs] neither fails nor gives up while a solution exists.  What is
    asked of the provider is relative to the selectors and branches it is asked for, and to
    the pins and refreshes of the request. *)

From S2P Require Import Prelude Ordered Packages Resolver ResolverCycle ResolverSpec ResolverSound.
From stdpp Require Import gmap list strings relations.
From Stdlib Require Import Lia.

(** Fewer candidates are as consistent. *)
Lemma consistent_filter `{Semver} (P : PackageCandidate -> Prop) `{!forall c, Decision (P c)} actual cs : forall sources sources',
  sources' ⊆ sources -> consistent actual sources cs = true -> consistent actual sources' (filter P cs) = true.
Proof.
  induction cs as [|c cs IH]; intros sources sources' Hsub; [done|]. cbn [consistent].
  rewrite !andb_true_iff. intros [[Hs Hp] Hc]. rewrite filter_cons. case_decide; [|eapply IH; [|exact Hc]].
  - cbn [consistent]. rewrite Hs. simpl. rewrite (IH _ _ (insert_mono _ _ _ _ Hsub) Hc), andb_true_r.
    destruct (sources' !! pc_source c) as [previous|] eqn:E; [|done].
    by rewrite (lookup_weaken _ _ _ _ E Hsub) in Hp.
  - apply map_subseteq_spec. intros src previous Hsrc. destruct (decide (src = pc_source c)) as [->|Hne].
    + rewrite lookup_insert_eq. pose proof (lookup_weaken _ _ _ _ Hsrc Hsub) as E. rewrite E in Hp.
      simpl in Hp. by apply bool_decide_eq_true in Hp as ->.
    + rewrite lookup_insert_ne by done. by eapply lookup_weaken.
Qed.

(** A provider that answers from one snapshot, for the keys of a request: [pool] holds the
    candidates there are of a key, [bindings] the commits of its branches, and [answerable]
    says for which selectors its sources can be read.  An answer depends on the selectors:
    it holds candidates of the pool, with every one that a selector matches, and binds the
    branches the selectors name; its candidates have the key's source, and one source
    supplies one of them. *)
Section Answers.
Context `{Semver} (request : ResolutionRequest) (pool : PackageKey -> list PackageCandidate)
  (bindings : PackageKey -> gmap GitBranch GitRevision).

Record answers (k : PackageKey) (sels : list PackageSelector) (cs : list PackageCandidate)
    (bs : gmap GitBranch GitRevision) : Prop := {
  an_pool : forall c, c ∈ cs -> c ∈ pool k;
  an_matching : forall c sel, sel ∈ sels -> c ∈ pool k -> matches_selector c sel (bindings k) = true -> c ∈ cs;
  an_bindings : forall b, Sel_Branch b ∈ sels -> bs !! b = bindings k !! b }.

Lemma answers_matches k sels cs bs c sel :
  answers k sels cs bs -> sel ∈ sels -> matches_selector c sel bs = matches_selector c sel (bindings k).
Proof. intros Ha Hs. destruct sel; try done. simpl. by rewrite (an_bindings _ _ _ _ Ha). Qed.
End Answers.

Class Snapshot `{Semver} {P : Type} `{!ResolverProvider P} (request : ResolutionRequest)
    (pool : PackageKey -> list PackageCandidate) (bindings : PackageKey -> gmap GitBranch GitRevision)
    (answerable : PackageKey -> PackageSelector -> Prop) : Prop :=
  snapshot_answers : forall (p : P) k sels, k ≠ rq_root request -> Forall (answerable k) sels -> exists cs bs p',
    candidates p (actual_of request k) sels (pin_of request k) (refresh_of request k) = (Ok (MkCandidateSet cs bs), p')
    /\ consistent (actual_of request k) ∅ cs = true /\ answers pool bindings k sels cs bs.

Section Complete.
Context `{Semver} {P : Type} `{!ResolverProvider P}.
Context (debug : PackageSelector -> string).
Context (request : ResolutionRequest) (root_alias : option PackageKey)
  (required_targets : gset PackageKey).
Context (pool : PackageKey -> list PackageCandidate) (bindings : PackageKey -> gmap GitBranch GitRevision)
  (answerable : PackageKey -> PackageSelector -> Prop) `{!Snapshot request pool bindings answerable}.

Abbreviation selection := (gmap PackageKey PackageCandidate).
Abbreviation key_of := (canonical request root_alias).
Abbreviation root := (rq_root request).
Abbreviation required := (requirements request root_alias).
Abbreviation state := (ResolverState P).

Definition known (k : PackageKey) : gmap GitBranch GitRevision :=
  if decide (k = root) then ∅ else bindings k.

(** A set as the resolver keeps it: an answer's eligible candidates. *)
Definition kept (k : PackageKey) (sels : list PackageSelector) (set : CandidateSet) : Prop :=
  exists cs, cs_candidates set = arrange request cs /\ answers pool bindings k sels cs (cs_branches set).

(** Every cached answer is the snapshot's. *)
Definition cached (s : state) : Prop :=
  forall k sels set, k ≠ root -> rs_cache s !! k = Some (sels, set) -> kept k sels set.

Definition no_error (e : ResolutionError) : Prop := False.

Abbreviation asked k rs := (selectors_of debug request k rs).

Lemma candidate_set_snapshot k rs s :
  cached s -> k ≠ root -> Forall (answerable k) (asked k rs) ->
  wp (candidate_set debug request k rs) s (fun set s' => kept k (asked k rs) set /\ cached s') no_error.
Proof.
  intros Hc Hk Hans. unfold wp, candidate_set.
  assert (wp (ask_provider request k (asked k rs)) s
    (fun set s' => kept k (asked k rs) set /\ cached s') no_error) as Hask.
  { unfold wp, ask_provider.
    destruct (snapshot_answers (rs_provider s) k (asked k rs) Hk Hans) as (cs & bs & p' & -> & Hcons & Ha).
    simpl. rewrite Hcons. simpl. split; [by exists cs|].
    intros k' sels set Hk'. simpl. rewrite lookup_insert_Some. intros [[<- [= <- <-]]|[? ?]]; [by exists cs|by eapply Hc]. }
  destruct (rs_cache s !! k) as [[previous set]|] eqn:Hl; [|done].
  case_bool_decide as He; [|done]. split; [|done]. rewrite <- He. by eapply Hc.
Qed.

(** ** The packages within reach *)

(** A requirement leads to a package within reach, whose sources can be read. *)
Definition reaches (U : gset PackageKey) (r : PackageRequirement) : Prop :=
  key_of (pr_package r) ∈ U /\
  (key_of (pr_package r) ≠ root -> Forall (answerable (key_of (pr_package r)))
    (match rq_overrides request !! pr_package r with Some replacement => [pr_selector replacement] | None => [pr_selector r] end)).

Context (U : gset PackageKey).

Record universe : Prop := {
  un_root : root ∈ U;
  un_normal : forall alias r, pc_dependencies (rq_candidate request) !! alias = Some r -> reaches U r;
  un_development : forall alias r, pc_development (rq_candidate request) !! alias = Some r -> reaches U r;
  un_pool : forall k c alias r, k ∈ U -> k ≠ root -> c ∈ pool k ->
    pc_dependencies c !! alias = Some r -> reaches U r }.

Context (HU : universe).

(** A selection drawn from the snapshot, within reach. *)
Record drawn (V : selection) : Prop := {
  dw_root : V !! root = Some (rq_candidate request);
  dw_reach : forall k, is_Some (V !! k) -> k ∈ U;
  dw_demanded : forall k, is_Some (V !! k) -> k ≠ root -> exists r, demands request root_alias V k r;
  dw_pool : forall k c, V !! k = Some c -> k ≠ root -> c ∈ pool k }.

Lemma drawn_root : drawn (root_selection request).
Proof.
  unfold root_selection. split.
  - by rewrite lookup_singleton_eq.
  - intros k [c [<- _]%lookup_singleton_Some]. apply HU.
  - intros k [c [<- _]%lookup_singleton_Some]. done.
  - intros k c [<- _]%lookup_singleton_Some. done.
Qed.

Lemma drawn_demands V k r : drawn V -> demands request root_alias V k r -> reaches U r.
Proof.
  intros [Hroot Hreach _ Hpool] [Hr <-]. apply elem_of_reqs in Hr as [(k & c & alias & Hk & Hr)|[alias Hr]].
  - destruct (decide (k = root)) as [->|Hne].
    + rewrite Hroot in Hk. injection Hk as <-. by eapply un_normal.
    + eapply un_pool; eauto.
  - by eapply un_development.
Qed.

Lemma drawn_insert V k c r :
  drawn V -> V !! k = None -> demands request root_alias V k r -> c ∈ pool k -> drawn (<[k := c]> V).
Proof.
  intros HV Hk Hd Hin. pose proof HV as [Hroot Hreach Hdem Hpool].
  assert (k ≠ root) by congruence. assert (V ⊆ <[k := c]> V) as Hsub by by apply insert_subseteq.
  split.
  - by rewrite lookup_insert_ne.
  - intros k' [c' Hc']. apply lookup_insert_Some in Hc' as [[<- _]|[_ ?]]; [|eauto].
    destruct (drawn_demands _ _ _ HV Hd) as [Hk' _]. by destruct Hd as [_ <-].
  - intros k' [c' Hc'] Hne. apply lookup_insert_Some in Hc' as [[<- _]|[_ Hc']].
    + exists r. by eapply demands_mono.
    + destruct (Hdem k') as [r' Hr']; [by eexists|done|]. exists r'. by eapply demands_mono.
  - intros k' c'. rewrite lookup_insert_Some. intros [[<- <-]|[_ ?]] ?; eauto.
Qed.

Lemma drawn_size V : drawn V -> size V <= size U.
Proof.
  intros HV. rewrite <- (size_dom V). apply subseteq_size. intros k Hk%elem_of_dom. by apply HV.
Qed.

Lemma key_not_root key : key_of key ≠ root -> key_of key = key.
Proof. unfold canonical. by case_bool_decide. Qed.

Lemma elem_of_selectors k rs sel :
  sel ∈ asked k rs ↔
  match rq_overrides request !! k with Some replacement => sel = pr_selector replacement | None => sel ∈ pr_selector <$> rs end.
Proof.
  unfold selectors_of. rewrite elem_of_dedup_by, sort_by_perm. destruct (_ !! k); [|done]. by rewrite list_elem_of_singleton.
Qed.

(** What the resolver asks of a drawn selection's packages can be answered. *)
Lemma drawn_answerable V k r :
  drawn V -> demands request root_alias V k r -> k ≠ root -> Forall (answerable k) (asked k (default [] (required V !! k))).
Proof.
  intros HV Hd Hk. apply list.Forall_forall. intros sel Hsel%elem_of_selectors.
  assert (forall r', demands request root_alias V k r' -> Forall (answerable k)
    (match rq_overrides request !! k with Some replacement => [pr_selector replacement] | None => [pr_selector r'] end)) as Hall.
  { intros r' Hr'. pose proof (drawn_demands _ _ _ HV Hr') as [_ Ha]. destruct Hr' as [_ He].
    assert (pr_package r' = k) as Hp by (rewrite <- He; symmetry; apply key_not_root; by rewrite He).
    rewrite He, Hp in Ha. by apply Ha. }
  destruct (rq_overrides request !! k) as [replacement|].
  - subst sel. specialize (Hall r Hd). by rewrite list.Forall_singleton in Hall.
  - apply list_elem_of_fmap in Hsel as (r' & -> & Hr'%elem_of_requirements).
    specialize (Hall r' Hr'). by rewrite list.Forall_singleton in Hall.
Qed.

(** The branches of an answer decide what the snapshot's do. *)
Lemma kept_satisfies k rs set c :
  k ≠ root -> kept k (asked k rs) set -> (forall r, r ∈ rs -> key_of (pr_package r) = k) ->
  existsb (fun r => negb (satisfies request c r (cs_branches set))) rs = existsb (fun r => negb (satisfies request c r (known k))) rs.
Proof.
  intros Hk (cs & _ & Ha) Hrs. assert (known k = bindings k) as -> by (unfold known; by rewrite decide_False).
  assert (forall r, r ∈ rs -> satisfies request c r (cs_branches set) = satisfies request c r (bindings k)) as He.
  { intros r Hr. unfold satisfies. case_bool_decide as Ho; [done|]. eapply answers_matches; [done|].
    apply elem_of_selectors. specialize (Hrs r Hr). rewrite <- Hrs in Hk. apply key_not_root in Hk.
    rewrite <- Hrs, Hk. apply eq_None_not_Some in Ho. rewrite Ho. by apply list_elem_of_fmap_2. }
  clear Ha Hrs. induction rs as [|r rs IH]; [done|]. simpl. rewrite (He r) by by left. f_equal. apply IH.
  intros r' Hr'. apply He. by right.
Qed.

Section Fixed.
Context (fixed : gmap PackageKey PackagePin).

(** The test of one selected package, against the snapshot's branches. *)
Definition misfit (V : selection) (k : PackageKey) (c : PackageCandidate) : bool :=
  pinned_elsewhere fixed k c
  || existsb (fun r => negb (satisfies request c r (known k))) (default [] (required V !! k))
  || root_replaced_badly request root_alias k c (known k).

Lemma check_selected_snapshot V l s :
  drawn V -> cached s -> (forall k c, (k, c) ∈ l -> V !! k = Some c) ->
  wp (check_selected debug request root_alias fixed (required V) l) s (fun b s' => cached s'
    /\ ((forall k c, (k, c) ∈ l -> misfit V k c = false) -> b = true)) no_error.
Proof.
  intros HV. revert s; induction l as [|[k c] l IH]; intros s Hc Hl; simpl; [by apply wp_ret|].
  apply wp_bind.
  apply wp_mono with (Q := fun branches s' => cached s' /\
    existsb (fun r => negb (satisfies request c r branches)) (default [] (required V !! k))
    = existsb (fun r => negb (satisfies request c r (known k))) (default [] (required V !! k)) /\
    root_replaced_badly request root_alias k c branches = root_replaced_badly request root_alias k c (known k)) (E := no_error); [| |done].
  { case_bool_decide as Hk.
    - apply wp_ret. unfold known. by rewrite decide_True.
    - apply wp_bind. destruct (dw_demanded _ HV k) as [r Hr]; [exists c; apply Hl; left|done|].
      eapply wp_mono; [apply candidate_set_snapshot; [done..|by eapply drawn_answerable]| |done].
      intros set s' [Hset Hc']. apply wp_ret. split; [done|]. split.
      + apply kept_satisfies; [done..|]. by intros r' [_ Hr']%elem_of_requirements.
      + unfold root_replaced_badly. by rewrite bool_decide_eq_false_2. }
  intros branches s1 (Hc1 & Hs & Hr). rewrite Hs, Hr. fold (misfit V k c). destruct (misfit V k c) eqn:Hm.
  - unfold wp; simpl. split; [exact Hc1|]. intros Hall. rewrite <- Hm. symmetry. apply Hall. left.
  - eapply wp_mono; [apply IH; [done|]| |done]; [intros; apply Hl; by right|].
    intros b s2 [Hc2 Hb]. split; [done|]. intros Hall. apply Hb. intros k' c' ?. apply Hall. by right.
Qed.

(** ** No failure *)

Lemma try_candidates_snapshot k rs branches descend cs attempted s :
  cached s ->
  (forall c s', c ∈ cs -> cached s' -> wp (descend c) s' (fun _ => cached) no_error) ->
  wp (try_candidates request fixed k rs branches descend cs attempted) s (fun _ => cached) no_error.
Proof.
  intros Hc Hdesc. revert attempted s Hc. induction cs as [|c cs IH]; intros attempted s Hc; simpl; [by apply wp_ret|].
  assert (forall attempted s, cached s ->
    wp (try_candidates request fixed k rs branches descend cs attempted) s (fun _ => cached) no_error) as IH'
    by (apply IH; intros; apply Hdesc; [by right|done]).
  destruct (rejects _ _ _ _ _ _); [by apply IH'|].
  apply wp_bind. eapply wp_mono; [by apply Hdesc; [left|]| |done].
  intros [g|] s' Hc'; [by apply wp_ret|by apply IH'].
Qed.

Lemma search_snapshot levels V s :
  cached s -> drawn V -> size U < levels + size V ->
  wp (search debug request root_alias required_targets fixed levels V) s (fun _ => cached) no_error.
Proof.
  revert V s; induction levels as [|levels IH]; intros V s Hc HV Hsz.
  { apply drawn_size in HV. lia. }
  cbn [search]. apply wp_bind.
  eapply wp_mono; [apply check_selected_snapshot; [done..|by intros k c ?%elem_of_items]| |done].
  intros b s1 [Hc1 _]. destruct b; simpl negb; [|by apply wp_ret].
  apply wp_bind. destruct (has_cycle_correct V key_of) as (cyclic & Hcyc & _).
  eapply wp_expect; [done|]. destruct cyclic; [done|].
  destruct (next_key _ _ _ _) as [k|] eqn:Hnext; [|by destruct (existsb _ _)].
  apply next_key_some in Hnext as [Hk [r Hd]].
  assert (k ≠ root) as Hne by (intros ->; rewrite (dw_root _ HV) in Hk; done).
  apply wp_bind. eapply wp_mono; [apply candidate_set_snapshot; [done..|by eapply drawn_answerable]| |done].
  intros set s2 [(cs & Hcs & Ha) Hc2]. apply wp_bind. apply wp_mono with (Q := fun _ => cached) (E := no_error);
    [|intros [[g|] attempted] s3 Hc3|done].
  - apply try_candidates_snapshot; [done|]. intros c s3 Hin Hc3.
    rewrite Hcs in Hin. apply elem_of_arrange in Hin as [_ Hin].
    apply IH; [done|eapply drawn_insert; [done..|by eapply an_pool]|]. rewrite map_size_insert_None by done. lia.
  - by apply wp_ret.
  - by destruct attempted.
Qed.

(** ** No solution is missed *)

Context (W : selection) (HW : solution request root_alias known W)
  (Hdrawn : forall k c, W !! k = Some c -> k ≠ root -> c ∈ pool k)
  (Hpins : forall k pin c, fixed !! k = Some pin -> W !! k = Some c -> pin_matches pin c = true)
  (Htargets : required_targets = ∅).

Lemma fits_pin k c : W !! k = Some c -> pinned_elsewhere fixed k c = false.
Proof.
  intros Hk. unfold pinned_elsewhere. destruct (fixed !! k) as [pin|] eqn:Hf; [|done].
  by rewrite (Hpins k pin c).
Qed.

Lemma fits_satisfies V k c :
  V ⊆ W -> W !! k = Some c ->
  existsb (fun r => negb (satisfies request c r (known k))) (default [] (required V !! k)) = false.
Proof.
  intros Hsub Hk. apply existsb_negb_false. intros r Hr%elem_of_requirements.
  eapply sol_satisfied; [done|by eapply demands_mono|done].
Qed.

Lemma fits_selected V k c : V ⊆ W -> W !! k = Some c -> misfit V k c = false.
Proof.
  intros Hsub Hk. unfold misfit. rewrite fits_pin, fits_satisfies by done. simpl.
  unfold root_replaced_badly. case_bool_decide as Hr; [simpl|done]. subst.
  rewrite (sol_root _ _ _ _ HW) in Hk. injection Hk as <-.
  destruct root_alias as [alias|] eqn:Ha; [simpl|done].
  destruct (rq_overrides request !! alias) as [replacement|] eqn:Ho; [|done].
  by rewrite (sol_root_override _ _ _ _ HW alias replacement).
Qed.

Lemma edge_mono V k k' : V ⊆ W -> edge V key_of k k' -> edge W key_of k k'.
Proof.
  intros Hsub (c & Hk & Hin & [c' Hk']). exists c.
  split; [by eapply lookup_weaken|]. split; [done|]. exists c'. by eapply lookup_weaken.
Qed.

Lemma fits_candidate V k c r set :
  V ⊆ W -> demands request root_alias V k r -> W !! k = Some c -> k ≠ root ->
  kept k (asked k (default [] (required V !! k))) set ->
  c ∈ cs_candidates set /\ rejects request fixed k (default [] (required V !! k)) (cs_branches set) c = false.
Proof.
  intros Hsub Hd Hk Hne Hkept. pose proof Hkept as (cs & -> & Ha).
  assert (known k = bindings k) as Hknown by (unfold known; by rewrite decide_False).
  assert (forall replacement, rq_overrides request !! k = Some replacement ->
    matches_selector c (pr_selector replacement) (bindings k) = true) as Hover.
  { intros replacement Ho. rewrite <- Hknown. by eapply sol_override. }
  split.
  - apply elem_of_arrange. split; [by eapply sol_eligible|].
    destruct (rq_overrides request !! k) as [replacement|] eqn:Ho.
    + apply (an_matching _ _ _ _ _ _ Ha c (pr_selector replacement)); [|by apply Hdrawn|by apply Hover].
      apply elem_of_selectors. by rewrite Ho.
    + apply (an_matching _ _ _ _ _ _ Ha c (pr_selector r)); [|by apply Hdrawn|].
      * apply elem_of_selectors. rewrite Ho. by apply list_elem_of_fmap_2, elem_of_requirements.
      * pose proof (sol_satisfied _ _ _ _ HW k r c) as Hs. rewrite Hknown in Hs.
        unfold satisfies in Hs. rewrite bool_decide_eq_false_2 in Hs; [apply Hs; [by eapply demands_mono|done]|].
        destruct Hd as [_ He]. rewrite <- He in Hne, Ho. apply key_not_root in Hne. rewrite Hne in Ho.
        rewrite Ho. by intros [? ?].
  - unfold rejects. rewrite (kept_satisfies k) by (done || by intros r' [_ Hr']%elem_of_requirements).
    rewrite fits_pin, fits_satisfies by done. simpl.
    destruct (rq_overrides request !! k) as [replacement|] eqn:Ho; [|done].
    rewrite (answers_matches _ _ _ _ _ _ _ _ Ha), Hover by (done || (apply elem_of_selectors; by rewrite Ho)). done.
Qed.

Definition succeeds (a : option ResolvedGraph) (s : state) : Prop := is_Some a /\ cached s.

Lemma try_candidates_complete k rs branches descend cs c0 attempted s :
  cached s -> c0 ∈ cs -> rejects request fixed k rs branches c0 = false ->
  (forall c s', c ∈ cs -> cached s' -> wp (descend c) s' (fun _ => cached) no_error) ->
  (forall s', cached s' -> wp (descend c0) s' succeeds no_error) ->
  wp (try_candidates request fixed k rs branches descend cs attempted) s
    (fun a => succeeds a.1) no_error.
Proof.
  intros Hc Hin Hrej Hdesc Hgood. revert attempted s Hc.
  induction cs as [|c cs IH]; intros attempted s Hc; simpl; [by apply elem_of_nil in Hin|].
  destruct (decide (c0 = c)) as [->|Hne].
  - rewrite Hrej. apply wp_bind. eapply wp_mono; [by apply Hgood| |done].
    intros a s' [[g ->] Hc']. apply wp_ret. split; [eauto|done].
  - apply elem_of_cons in Hin as [?|Hin]; [done|].
    assert (forall attempted s, cached s ->
      wp (try_candidates request fixed k rs branches descend cs attempted) s
        (fun a => succeeds a.1) no_error) as IH'
      by (apply IH; [done|intros; apply Hdesc; [by right|done]]).
    destruct (rejects _ _ _ _ _ c); [by apply IH'|].
    apply wp_bind. eapply wp_mono; [by apply Hdesc; [left|]| |done].
    intros [g|] s' Hc'; [apply wp_ret; split; [eauto|done]|by apply IH'].
Qed.

Lemma search_complete levels V s :
  cached s -> drawn V -> V ⊆ W -> size U < levels + size V ->
  wp (search debug request root_alias required_targets fixed levels V) s succeeds no_error.
Proof.
  revert V s; induction levels as [|levels IH]; intros V s Hc HV Hsub Hsz.
  { apply drawn_size in HV. lia. }
  cbn [search]. apply wp_bind.
  eapply wp_mono; [apply check_selected_snapshot; [done..|by intros k c ?%elem_of_items]| |done].
  intros b s1 [Hc1 Hb]. rewrite Hb; cycle 1.
  { intros k c Hk%elem_of_items. apply fits_selected; [done|by eapply lookup_weaken]. }
  simpl negb. cbv iota.
  apply wp_bind. destruct (has_cycle_correct V key_of) as (cyclic & Hcyc & Hiff).
  eapply wp_expect; [done|]. destruct cyclic.
  { destruct (proj1 Hiff eq_refl) as [k Hk]. destruct (sol_acyclic _ _ _ _ HW k).
    refine (tc_congruence id _ _ _ _ Hk). intros ? ?. by apply edge_mono. }
  destruct (next_key _ _ _ _) as [k|] eqn:Hnext.
  - apply next_key_some in Hnext as [Hk [r Hd]].
    assert (k ≠ root) as Hne by (intros ->; rewrite (dw_root _ HV) in Hk; done).
    destruct (sol_closed _ _ _ _ HW k r) as [c0 Hc0]; [by eapply demands_mono|].
    assert (size U < levels + S (size V)) as Hsz' by lia.
    apply wp_bind. eapply wp_mono; [apply candidate_set_snapshot; [done..|by eapply drawn_answerable]| |done].
    intros set s2 [Hset Hc2]. destruct (fits_candidate V k c0 r set Hsub Hd Hc0 Hne Hset) as [Hin Hrej].
    assert (forall c, c ∈ cs_candidates set -> drawn (<[k := c]> V)) as Hdraw.
    { destruct Hset as (cs & -> & Ha). intros c [_ Hc']%elem_of_arrange.
      eapply drawn_insert; [done..|by eapply an_pool]. }
    apply wp_bind. apply wp_mono with (Q := fun a => succeeds a.1) (E := no_error);
      [|intros [a attempted] s3 [[g Hg] Hc3]|done].
    + apply try_candidates_complete with (c0 := c0); [done|done|done| |].
      * intros c s3 Hin' Hc3. apply search_snapshot; [done|by apply Hdraw|].
        by rewrite map_size_insert_None.
      * intros s3 Hc3. apply IH; [done|by apply Hdraw| |by rewrite map_size_insert_None].
        by apply insert_subseteq_l.
    + simpl in Hg. subst. apply wp_ret. split; [eauto|done].
  - rewrite Htargets. unfold wp; simpl. split; [eauto|done].
Qed.
End Fixed.

(** ** [resolve_graph] *)

Context (Hlevels : size U <= 257).

Lemma search_root_snapshot fixed s :
  cached s ->
  wp (search_root debug request root_alias required_targets fixed) s (fun _ => cached) no_error.
Proof.
  intros Hc. apply search_snapshot; [done|by apply drawn_root|].
  unfold root_selection. rewrite map_size_singleton. unfold SEARCH_LEVELS. lia.
Qed.

Lemma retain_pins_snapshot fixed pins retained best s :
  cached s ->
  wp (retain_pins debug request root_alias required_targets fixed pins retained best) s
    (fun _ => cached) no_error.
Proof.
  revert retained best s; induction pins as [|[k pin] pins IH]; intros retained best s Hc; simpl; [done|].
  destruct (_ || _); [by apply IH|].
  apply wp_bind. eapply wp_mono; [by apply search_root_snapshot| |done].
  intros [g|] s' Hc'; by apply IH.
Qed.

Context (W : selection) (HW : solution request root_alias known W)
  (Hdrawn : forall k c, W !! k = Some c -> k ≠ root -> c ∈ pool k).

Lemma search_root_complete s :
  required_targets = ∅ -> cached s ->
  wp (search_root debug request root_alias required_targets ∅) s succeeds no_error.
Proof.
  intros Ht Hc. apply search_complete with (W := W); try done.
  - by apply drawn_root.
  - unfold root_selection. apply map_singleton_subseteq_l. by eapply sol_root.
  - unfold root_selection. rewrite map_size_singleton. unfold SEARCH_LEVELS. lia.
Qed.

Lemma prefer_pins_complete s :
  required_targets = ∅ -> cached s ->
  wp (prefer_pins debug request root_alias required_targets ∅) s succeeds no_error.
Proof.
  intros Ht Hc. unfold prefer_pins.
  assert (forall s pins, cached s ->
    wp (found ← search_root debug request root_alias required_targets pins;
      match found with
      | Some g => mret (Some g)
      | None =>
          found ← search_root debug request root_alias required_targets ∅;
          match found with
          | None => mret None
          | Some best =>
              best ← retain_pins debug request root_alias required_targets ∅
                (items (rq_pins request)) ∅ best;
              mret (Some best)
          end
      end) s succeeds no_error) as Hpins.
  { clear s Hc. intros s pins Hc. apply wp_bind. eapply wp_mono; [by apply search_root_snapshot| |done].
    intros [g|] s1 Hc1; [apply wp_ret; split; [eauto|done]|].
    apply wp_bind. eapply wp_mono; [by apply search_root_complete| |done].
    intros a s2 [[best ->] Hc2]. apply wp_bind. eapply wp_mono; [by apply retain_pins_snapshot| |done].
    intros g s3 Hc3. apply wp_ret. split; [eauto|done]. }
  destruct (rq_policy request); [by apply Hpins|by apply search_root_complete|by apply Hpins].
Qed.
(** When some solution agrees with every pin, the pins decide the resolution. *)
Lemma prefer_pins_keeps s :
  rq_policy request = Policy_Conservative -> required_targets = ∅ ->
  cached s -> cache_ok request s ->
  (forall k pin c, k ≠ root -> rq_pins request !! k = Some pin -> W !! k = Some c -> pin_matches pin c = true) ->
  wp (prefer_pins debug request root_alias required_targets ∅) s (fun a _ =>
    exists g, a = Some g /\ resolved request root_alias required_targets (delete root (rq_pins request)) g)
    no_error.
Proof.
  intros Hpol Ht Hc Hok Hpins. unfold prefer_pins. rewrite Hpol, (left_id_L ∅ _). apply wp_bind.
  assert (wp (search_root debug request root_alias required_targets (delete root (rq_pins request))) s
    succeeds no_error) as Hfound.
  { apply search_complete with (W := W); try done.
    - intros k pin c [Hne Hk]%lookup_delete_Some Hw. by eapply Hpins.
    - by apply drawn_root.
    - unfold root_selection. apply map_singleton_subseteq_l. by eapply sol_root.
    - unfold root_selection. rewrite map_size_singleton. unfold SEARCH_LEVELS. lia. }
  assert (wp (search_root debug request root_alias required_targets (delete root (rq_pins request))) s
    (found request root_alias required_targets (delete root (rq_pins request)) s) search_error) as Hres
    by (apply search_wp; [done|apply selects_root]).
  unfold wp in Hfound, Hres |- *. destruct (search_root _ _ _ _ _ _) as [[[a|e] s']|]; [|done..].
  destruct Hfound as [[g ->] _], Hres as (_ & _ & Hres). exists g. split; [done|by apply Hres].
Qed.
End Complete.

Section Graph.
Context `{Semver} {P : Type} `{!ResolverProvider P}.
Context (debug : PackageSelector -> string) (request : ResolutionRequest).
Context (pool : PackageKey -> list PackageCandidate) (bindings : PackageKey -> gmap GitBranch GitRevision)
  (answerable : PackageKey -> PackageSelector -> Prop) `{!Snapshot request pool bindings answerable}.
Abbreviation root_alias := (head (root_aliases request)).

(** What the theorems on success ask of the request. *)
Record well_posed (U : gset PackageKey) (W : gmap PackageKey PackageCandidate) : Prop := {
  wp_alias : duplicate_alias (rq_candidate request) = None;
  wp_roots : length (root_aliases request) <= 1;
  wp_eligible : eligible request (rq_candidate request) = true;
  wp_universe : universe request root_alias pool answerable U;
  wp_levels : size U <= 257;
  wp_solution : solution request root_alias (known request bindings) W;
  wp_drawn : forall k c, W !! k = Some c -> k ≠ rq_root request -> c ∈ pool k }.

(** Without update targets the resolver's body is [prefer_pins] from a fresh cache. *)
Lemma resolve_graph_prefers (provider : P) U W Q :
  (rq_policy request = Policy_Conservative \/ rq_policy request = Policy_UpdateAll) ->
  well_posed U W ->
  (forall s, cached request pool bindings s -> cache_ok request s ->
    wp (prefer_pins debug request root_alias ∅ ∅) s (fun a _ => exists g, a = Some g /\ Q g) no_error) ->
  exists g p', resolve_graph debug provider request = Some (Ok g, p') /\ Q g.
Proof.
  intros Hpol [Hdup Hmany%Nat.ltb_ge Helig _ _ _ _] Hprefer.
  unfold resolve_graph. rewrite Hdup, Hmany.
  set (s := MkResolverState provider ∅ _).
  assert (update_targets (rq_policy request) = ∅) as -> by (by destruct Hpol as [-> | ->]).
  assert (cached request pool bindings s) as Hc.
  { intros k sels set _. simpl. by rewrite lookup_empty. }
  assert (cache_ok request s) as Hok by apply cache_ok_initial.
  assert (wp (resolve_with debug request root_alias ∅) s (fun g _ => Q g) no_error) as Hwp.
  { unfold resolve_with. rewrite Helig. apply wp_bind.
    apply wp_mono with (Q := fun fixed s' => fixed = ∅ /\ s' = s) (E := no_error); [| |done].
    { destruct Hpol as [-> | ->]; by apply wp_ret. }
    intros fixed s' [-> ->]. apply wp_bind.
    eapply wp_mono; [by apply Hprefer| |done]. by intros a s'' (g & -> & HQ). }
  unfold wp in Hwp. destruct (resolve_with _ _ _ _ _) as [[[g|e] s']|]; [|done..].
  simpl. eauto.
Qed.

Lemma resolve_graph_succeeds (provider : P) U W :
  (rq_policy request = Policy_Conservative \/ rq_policy request = Policy_UpdateAll) ->
  well_posed U W -> exists g p', resolve_graph debug provider request = Some (Ok g, p').
Proof.
  intros Hpol Hpose. pose proof Hpose as [_ _ _ HU Hsz HW Hdrawn].
  destruct (resolve_graph_prefers provider U W (fun _ => True) Hpol Hpose) as (g & p' & Hr & _).
  - intros s Hc _.
    eapply wp_mono; [by apply (prefer_pins_complete debug request root_alias ∅ pool bindings answerable) with (U := U) (W := W)| |done].
    intros a s' [[g ->] _]. eauto.
  - eauto.
Qed.

Lemma resolve_graph_pins (provider : P) U W :
  rq_policy request = Policy_Conservative -> well_posed U W ->
  (forall k pin c, k ≠ rq_root request -> rq_pins request !! k = Some pin -> W !! k = Some c ->
    pin_matches pin c = true) ->
  exists g p', resolve_graph debug provider request = Some (Ok g, p')
    /\ forall k pin c, k ≠ rq_root request -> rq_pins request !! k = Some pin ->
       rg_packages g !! k = Some c -> pin_matches pin c = true.
Proof.
  intros Hpol Hpose Hpins. pose proof Hpose as [_ _ _ HU Hsz HW Hdrawn].
  destruct (resolve_graph_prefers provider U W
    (resolved request root_alias ∅ (delete (rq_root request) (rq_pins request)))) as (g & p' & Hr & Hg);
    [by left|done| |].
  - intros s Hc Hok. by apply (prefer_pins_keeps debug request root_alias ∅ pool bindings answerable) with (U := U) (W := W).
  - exists g, p'. split; [done|]. intros k pin c Hne Hk. eapply rs_pinned; [done|].
    by rewrite lookup_delete_ne.
Qed.
End Graph.

(** ** Deciding the hypotheses *)

Section Decide.
Context `{Semver} (request : ResolutionRequest) (root_alias : option PackageKey).
Abbreviation key_of := (canonical request root_alias).
Abbreviation root := (rq_root request).

Definition selectedb (branches : PackageKey -> gmap GitBranch GitRevision) (p : PackageKey * PackageCandidate) : bool :=
  bool_decide (p.1 = root)
  || (eligible request p.2
      && match rq_overrides request !! p.1 with
         | Some replacement => matches_selector p.2 (pr_selector replacement) (branches p.1)
         | None => true
         end).

Definition solutionb (branches : PackageKey -> gmap GitBranch GitRevision)
    (V : gmap PackageKey PackageCandidate) : bool :=
  bool_decide (V !! root = Some (rq_candidate request))
  && forallb (fun r => match V !! key_of (pr_package r) with
       | Some c => satisfies request c r (branches (key_of (pr_package r)))
       | None => false
       end) (all_requirements request V)
  && forallb (selectedb branches) (items V)
  && match root_alias ≫= fun alias => rq_overrides request !! alias with
     | Some replacement => matches_selector (rq_candidate request) (pr_selector replacement) (branches root)
     | None => true
     end
  && bool_decide (has_cycle V key_of = Some false).

Lemma forallb_elem {A} (f : A -> bool) l : forallb f l = true ↔ forall x, x ∈ l -> f x = true.
Proof. rewrite forallb_forall. by setoid_rewrite list_elem_of_In. Qed.

Lemma solutionb_correct branches V : solutionb branches V = true -> solution request root_alias branches V.
Proof.
  unfold solutionb. rewrite !andb_true_iff, !bool_decide_eq_true, !forallb_elem.
  intros [[[[Hroot Hreqs] Hsel] Halias] Hcyc]. split; [done| | | | | |].
  - intros k r [Hr <-]. specialize (Hreqs r Hr). simpl in Hreqs.
    destruct (V !! key_of (pr_package r)); [by eexists|done].
  - intros k r c [Hr <-] Hk. specialize (Hreqs r Hr). by rewrite Hk in Hreqs.
  - intros k c Hk Hne. specialize (Hsel (k, c) (proj2 (elem_of_items V k c) Hk)).
    unfold selectedb in Hsel. rewrite bool_decide_eq_false_2, orb_false_l, andb_true_iff in Hsel by done.
    by destruct Hsel.
  - intros k c replacement Hk Hne Ho. specialize (Hsel (k, c) (proj2 (elem_of_items V k c) Hk)).
    unfold selectedb in Hsel. rewrite bool_decide_eq_false_2, orb_false_l, andb_true_iff in Hsel by done.
    destruct Hsel as [_ Hsel]. simpl in Hsel. by rewrite Ho in Hsel.
  - intros alias replacement Ha Ho. rewrite Ha in Halias. simpl in Halias. by rewrite Ho in Halias.
  - intros k Hk. destruct (has_cycle_correct V key_of) as (b & Hb & Hiff).
    rewrite Hcyc in Hb. injection Hb as <-. destruct Hiff as [_ Hiff]. discriminate Hiff. eauto.
Qed.

Context (pool : PackageKey -> list PackageCandidate) (answerable : PackageKey -> PackageSelector -> bool).

Definition reachesb (U : gset PackageKey) (r : PackageRequirement) : bool :=
  bool_decide (key_of (pr_package r) ∈ U) &&
  (bool_decide (key_of (pr_package r) = root) || forallb (answerable (key_of (pr_package r)))
    (match rq_overrides request !! pr_package r with Some replacement => [pr_selector replacement] | None => [pr_selector r] end)).
Definition dependencies_in (U : gset PackageKey) (deps : gmap DependencyAlias PackageRequirement) : bool :=
  forallb (reachesb U) (values deps).

Abbreviation can := (fun k sel => answerable k sel = true).

Lemma dependencies_in_correct U deps alias r :
  dependencies_in U deps = true -> deps !! alias = Some r -> reaches request root_alias can U r.
Proof.
  unfold dependencies_in. rewrite forallb_elem. intros Hall Hr.
  assert (r ∈ values deps) as Hin by (apply elem_of_values; eauto).
  specialize (Hall r Hin). unfold reachesb in Hall. rewrite andb_true_iff, orb_true_iff, !bool_decide_eq_true in Hall.
  destruct Hall as [Hk Ha]. split; [done|]. intros Hne. destruct Ha as [?|Ha]; [done|].
  apply list.Forall_forall. by apply forallb_elem.
Qed.

Definition universeb (U : gset PackageKey) : bool :=
  bool_decide (root ∈ U)
  && dependencies_in U (pc_dependencies (rq_candidate request))
  && dependencies_in U (pc_development (rq_candidate request))
  && forallb (fun k => forallb (fun c => dependencies_in U (pc_dependencies c)) (pool k)) (elements U).

Lemma universeb_correct U : universeb U = true -> universe request root_alias pool can U.
Proof.
  unfold universeb. rewrite !andb_true_iff, bool_decide_eq_true, forallb_elem.
  intros [[[Hroot Hn] Hd] Hpool]. split; [done|intros ? ?; by apply dependencies_in_correct|intros ? ?; by apply dependencies_in_correct|].
  intros k c alias r Hk _ Hc Hr. assert (k ∈ elements U) as Hin by (by apply elem_of_elements).
  specialize (Hpool k Hin). rewrite forallb_elem in Hpool.
  eapply dependencies_in_correct; [by apply (Hpool c)|done].
Qed.
End Decide.
