(* ===== verification/ResolverOrder.v ===== *)
(** * The order of a provider's answers

    Two providers whose answers differ only in the order of the candidates lead the resolver of
    fai-package's [resolver.rs] to the same result: the answers are checked, sorted by version
    and source, and deduplicated before they are used. *)

From S2P Require Import Prelude Ordered Packages Resolver.
From stdpp Require Import gmap list sorting strings.

(** ** Checked answers *)

Section Arrange.
Context `{SemverLaws} (request : ResolutionRequest).

Lemma consistent_iff actual sources cs :
  consistent actual sources cs = true ↔
    (forall c, c ∈ cs -> same_source actual (pc_source c) = true
       /\ forall p, sources !! pc_source c = Some p -> p = c)
    /\ (forall c c', c ∈ cs -> c' ∈ cs -> pc_source c = pc_source c' -> c = c').
Proof.
  revert sources; induction cs as [|x cs IH]; intros sources; simpl.
  { split; [|done]. intros _. split; intros ? *; by rewrite ?elem_of_nil. }
  rewrite !andb_true_iff, IH. split.
  - intros [[Hx Hp] [Hcs Hinj]]. unfold is_none_or in Hp.
    assert (forall c, c ∈ cs -> pc_source c = pc_source x -> c = x) as Hlater.
    { intros c Hc Heq. destruct (Hcs c Hc) as [_ Hs]. symmetry. apply Hs.
      by rewrite Heq, lookup_insert_eq. }
    split.
    + intros c [->|Hc]%elem_of_cons.
      * split; [done|]. intros p Hs. rewrite Hs in Hp. by apply bool_decide_eq_true in Hp.
      * destruct (Hcs c Hc) as [Hc1 Hc2]. split; [done|]. intros p Hs.
        destruct (decide (pc_source c = pc_source x)) as [Heq|Hne].
        -- rewrite (Hlater c Hc Heq) in Hs |- *. rewrite Hs in Hp. by apply bool_decide_eq_true in Hp.
        -- apply Hc2. by rewrite lookup_insert_ne.
    + intros c c' [->|Hc]%elem_of_cons [->|Hc']%elem_of_cons Heq; [done| | |by apply Hinj].
      * symmetry. by apply Hlater.
      * by apply Hlater.
  - intros [Hcs Hinj]. split; [split|split].
    + apply Hcs. left.
    + unfold is_none_or. destruct (sources !! pc_source x) as [p|] eqn:Hs; [|done].
      apply bool_decide_eq_true. apply (Hcs x); [left|done].
    + intros c Hc. split; [apply Hcs; by right|]. intros p. rewrite lookup_insert_Some.
      intros [[Heq <-]|[Hne Hs]]; [apply Hinj; [left|by right|done]|].
      apply (Hcs c); [by right|done].
    + intros c c' Hc Hc'. apply Hinj; by right.
Qed.

Lemma consistent_permutation actual cs cs' :
  cs ≡ₚ cs' -> consistent actual ∅ cs = consistent actual ∅ cs'.
Proof.
  intros Hp. apply eq_true_iff_eq. rewrite !consistent_iff. by setoid_rewrite Hp.
Qed.

#[local] Instance candidate_le_total : Total candidate_le.
Proof.
  intros x y. unfold candidate_le. destruct (decide (pc_version y = pc_version x)) as [Heq|Hne].
  - rewrite decide_True by done. apply (total (by_variant source_words)).
  - rewrite decide_False by done. apply (total version_le).
Qed.

#[local] Instance candidate_le_trans : Transitive candidate_le.
Proof.
  intros x y z. unfold candidate_le.
  destruct (decide (pc_version y = pc_version x)) as [Hxy|Hxy],
    (decide (pc_version z = pc_version y)) as [Hyz|Hyz]; intros H1 H2.
  - rewrite decide_True by congruence. unfold source_le in *. by etrans.
  - rewrite decide_False by congruence. by rewrite Hxy in H2.
  - rewrite decide_False by congruence. by rewrite Hyz.
  - destruct (decide (pc_version z = pc_version x)) as [Hzx|Hzx].
    + destruct Hxy. rewrite Hzx in H2. by apply (anti_symm version_le).
    + by etrans.
Qed.

Lemma arrange_permutation actual cs cs' :
  consistent actual ∅ cs = true -> cs ≡ₚ cs' -> arrange request cs = arrange request cs'.
Proof.
  intros [_ Hinj]%consistent_iff Hp. unfold arrange. f_equal.
  apply sort_by_permutation; [apply _|apply _| |by rewrite Hp].
  intros x y [_ Hx]%list_elem_of_filter [_ Hy]%list_elem_of_filter H1 H2.
  unfold candidate_le in H1, H2. apply Hinj; [done..|].
  destruct (decide (pc_version y = pc_version x)) as [Heq|Hne].
  - rewrite decide_True in H2 by done. unfold source_le in *. by apply (anti_symm (by_variant source_words)).
  - rewrite decide_False in H2 by congruence. destruct Hne. by apply (anti_symm version_le).
Qed.
End Arrange.

(** ** Agreement of two resolvers *)

Section Agree.
Context `{SemverLaws} {P1 P2 : Type} `{!ResolverProvider P1} `{!ResolverProvider P2}.

(** The answers of two providers, up to order. *)
Definition same_answer (a1 a2 : result ProviderFailure CandidateSet) : Prop :=
  match a1, a2 with
  | Ok s1, Ok s2 => cs_candidates s1 ≡ₚ cs_candidates s2 /\ cs_branches s1 = cs_branches s2
  | Err f1, Err f2 => f1 = f2
  | _, _ => False
  end.

(** A relation of provider states kept by every question. *)
Context (R : P1 -> P2 -> Prop).
Definition reordered : Prop := forall p1 p2 actual sels pin refresh, R p1 p2 ->
  same_answer (candidates p1 actual sels pin refresh).1 (candidates p2 actual sels pin refresh).1
  /\ R (candidates p1 actual sels pin refresh).2 (candidates p2 actual sels pin refresh).2.
Context (HR : reordered).

Definition alike (s1 : ResolverState P1) (s2 : ResolverState P2) : Prop :=
  R (rs_provider s1) (rs_provider s2) /\ rs_cache s1 = rs_cache s2 /\ rs_conflict s1 = rs_conflict s2.

(** Two methods agree: from alike states they return the same and leave alike states. *)
Definition agree {A} (m1 : RM P1 A) (m2 : RM P2 A) : Prop := forall s1 s2, alike s1 s2 ->
  match m1 s1, m2 s2 with
  | Some (r1, s1'), Some (r2, s2') => r1 = r2 /\ alike s1' s2'
  | None, None => True
  | _, _ => False
  end.

Lemma agree_ret {A} (a : A) : agree (mret a) (mret a).
Proof. done. Qed.

Lemma agree_bind {A B} (m1 : RM P1 A) (m2 : RM P2 A) (k1 : A -> RM P1 B) (k2 : A -> RM P2 B) :
  agree m1 m2 -> (forall a, agree (k1 a) (k2 a)) -> agree (m1 ≫= k1) (m2 ≫= k2).
Proof.
  intros Hm Hk s1 s2 Hs. specialize (Hm s1 s2 Hs). unfold mbind, rm_bind.
  destruct (m1 s1) as [[[a|e] s1']|], (m2 s2) as [[[a'|e'] s2']|]; try done;
    destruct Hm as [Hr Hs']; simplify_eq; [|done].
  by apply Hk.
Qed.

Lemma agree_get {A} (k1 : ResolverState P1 -> RM P1 A) (k2 : ResolverState P2 -> RM P2 A) :
  (forall s1 s2, alike s1 s2 -> agree (k1 s1) (k2 s2)) -> agree (get ≫= k1) (get ≫= k2).
Proof. intros Hk s1 s2 Hs. by apply (Hk s1 s2 Hs). Qed.

Lemma agree_expect {A} (o : option A) : agree (expect o) (expect o).
Proof. intros s1 s2 Hs. unfold expect. by destruct o. Qed.

Lemma agree_throw {A} e : agree (A := A) (throw e) (throw e).
Proof. done. Qed.

Lemma agree_set_conflict c : agree (set_conflict c) (set_conflict c).
Proof. intros s1 s2 (HR' & Hc & _). done. Qed.

Create HintDb agree.
#[local] Hint Resolve agree_ret agree_bind agree_expect agree_throw agree_set_conflict : agree.

Context (debug : PackageSelector -> string).
Context (request : ResolutionRequest) (root_alias : option PackageKey)
  (required_targets : gset PackageKey).

Lemma agree_ask_provider k sels :
  agree (ask_provider request k sels) (ask_provider request k sels).
Proof.
  intros s1 s2 (HRs & Hc & Hconf). unfold ask_provider.
  destruct (HR _ _ (actual_of request k) sels (pin_of request k) (refresh_of request k) HRs) as [Ha HR'].
  destruct (candidates (rs_provider s1) _ _ _ _) as [[set1|f1] p1],
    (candidates (rs_provider s2) _ _ _ _) as [[set2|f2] p2]; simpl in *; [|done|done|by subst].
  destruct Ha as [Hp Hb]. rewrite <- (consistent_permutation _ _ _ Hp).
  destruct (consistent _ _ _) eqn:Hcons; simpl; [|done].
  rewrite Hb, (arrange_permutation request _ _ _ Hcons Hp), Hc. done.
Qed.

Lemma agree_candidate_set k rs :
  agree (candidate_set debug request k rs) (candidate_set debug request k rs).
Proof.
  intros s1 s2 Hs. pose proof (agree_ask_provider k (selectors_of debug request k rs) s1 s2 Hs) as Hask.
  unfold candidate_set. destruct Hs as (HRs & Hc & Hconf). rewrite <- Hc.
  destruct (rs_cache s1 !! k) as [[previous set]|]; [|done]. by case_bool_decide.
Qed.
#[local] Hint Resolve agree_candidate_set : agree.

Lemma agree_check_selected fixed required l :
  agree (check_selected debug request root_alias fixed required l)
    (check_selected debug request root_alias fixed required l).
Proof.
  induction l as [|[k c] l IH]; simpl; [done|]. apply agree_bind.
  - case_bool_decide; auto with agree.
  - intros branches. case_match; auto with agree.
Qed.
#[local] Hint Resolve agree_check_selected : agree.

Lemma agree_try_candidates fixed k rs branches d1 d2 cs attempted :
  (forall c, agree (d1 c) (d2 c)) ->
  agree (try_candidates request fixed k rs branches d1 cs attempted)
    (try_candidates request fixed k rs branches d2 cs attempted).
Proof.
  intros Hd. revert attempted; induction cs as [|c cs IH]; intros attempted; simpl; [done|].
  case_match; [done|]. apply agree_bind; [done|]. intros [g|]; auto with agree.
Qed.

Lemma agree_search fixed levels V :
  agree (search debug request root_alias required_targets fixed levels V)
    (search debug request root_alias required_targets fixed levels V).
Proof.
  revert V; induction levels as [|levels IH]; intros V; [done|]. cbn [search].
  apply agree_bind; [auto with agree|]. intros [|]; simpl; [|done].
  apply agree_bind; [auto with agree|]. intros [|]; [auto with agree|].
  case_match.
  - apply agree_bind; [auto with agree|]. intros set. apply agree_bind.
    + by apply agree_try_candidates.
    + intros [[g|] [|]]; auto with agree.
  - case_match; [done|]. apply agree_get. intros s1 s2 (_ & -> & _). done.
Qed.
#[local] Hint Resolve agree_search : agree.

Lemma agree_retain_pins fixed pins retained best :
  agree (retain_pins debug request root_alias required_targets fixed pins retained best)
    (retain_pins debug request root_alias required_targets fixed pins retained best).
Proof.
  revert retained best; induction pins as [|[k pin] pins IH]; intros retained best; simpl; [done|].
  case_match; [done|]. apply agree_bind; [apply agree_search|]. intros [g|]; done.
Qed.

Lemma agree_prefer_pins fixed :
  agree (prefer_pins debug request root_alias required_targets fixed)
    (prefer_pins debug request root_alias required_targets fixed).
Proof.
  unfold prefer_pins, search_root.
  destruct (rq_policy request); [|apply agree_search|];
    (apply agree_bind; [apply agree_search|]; intros [g|]; [done|];
     apply agree_bind; [apply agree_search|]; intros [g|]; [|done];
     apply agree_bind; [apply agree_retain_pins|done]).
Qed.
#[local] Hint Resolve agree_prefer_pins : agree.

Lemma agree_accept_target fixed k cs :
  agree (accept_target debug request root_alias required_targets fixed k cs)
    (accept_target debug request root_alias required_targets fixed k cs).
Proof.
  induction cs as [|c cs IH]; simpl; [done|]. apply agree_bind; [auto with agree|].
  intros [g|]; [|done]. by case_match.
Qed.

Lemma agree_or_conflict a : agree (or_conflict a) (or_conflict a).
Proof.
  destruct a; simpl; [done|]. apply agree_get. intros s1 s2 (_ & _ & ->). done.
Qed.

Lemma agree_fix_targets initial targets fixed :
  agree (fix_targets debug request root_alias required_targets initial targets fixed)
    (fix_targets debug request root_alias required_targets initial targets fixed).
Proof.
  revert fixed; induction targets as [|k targets IH]; intros fixed; simpl; [done|].
  case_match; [done|]. case_match; [done|].
  apply agree_get. intros s1 s2 (_ & -> & _). apply agree_bind; [apply agree_accept_target|].
  intros [fixed'|]; [done|]. apply agree_get. intros ? ? (_ & _ & ->). done.
Qed.

Lemma agree_resolve_with :
  agree (resolve_with debug request root_alias required_targets)
    (resolve_with debug request root_alias required_targets).
Proof.
  unfold resolve_with. case_match; [done|]. apply agree_bind.
  - destruct (rq_policy request); [done..|]. apply agree_bind; [apply agree_search|].
    intros a. apply agree_bind; [apply agree_or_conflict|]. intros g. apply agree_fix_targets.
  - intros fixed. apply agree_bind; [auto with agree|]. intros a. apply agree_or_conflict.
Qed.
End Agree.

Lemma resolve_graph_agree `{SemverLaws} {P1 P2} `{!ResolverProvider P1} `{!ResolverProvider P2}
    (R : P1 -> P2 -> Prop) (debug : PackageSelector -> string) (request : ResolutionRequest) p1 p2 :
  reordered R -> R p1 p2 ->
  fst <$> resolve_graph debug p1 request = fst <$> resolve_graph debug p2 request.
Proof.
  intros HR Hp. unfold resolve_graph. destruct (duplicate_alias _) as [alias|].
  { simpl. destruct (pc_dependencies _ !! alias); [|done]. simpl.
    by destruct (pc_development _ !! alias). }
  case_match; [done|].
  set (conflict := MkResolutionConflict [] Msg_NoGraph).
  pose proof (agree_resolve_with R HR debug request (head (root_aliases request))
    (update_targets (rq_policy request)) (MkResolverState p1 ∅ conflict) (MkResolverState p2 ∅ conflict)) as Ha.
  destruct (resolve_with _ _ _ _ _) as [[r1 s1]|], (resolve_with _ _ _ _ _) as [[r2 s2]|]; simpl;
    specialize (Ha ltac:(done)); try done. destruct Ha as [-> _]. done.
Qed.
