(* ===== verification/ResolverProps.v ===== *)
(** * Properties of dependency resolution

    The theorems on fai-package's [resolver.rs], and a registry that exercises them. *)

From S2P Require Import Prelude Ordered Packages Resolver ResolverCycle ResolverSpec ResolverSound ResolverComplete ResolverOrder.
From stdpp Require Import gmap list strings relations.
From Stdlib Require Import Lia.

(** ** A registry

    Versions are numbers and requirements intervals.  The newest [a] conflicts with [b]'s
    requirement on [c], so the resolver has to give up [a] 2 for [a] 1. *)

Module Registry.

#[export] Instance semver : Semver := {|
  Version := nat; VersionReq := nat * nat; version_le := le;
  req_matches r v := (r.1 <=? v) && (v <=? r.2) |}.

#[export] Instance semver_laws : SemverLaws.
Proof. split; apply _. Qed.

Definition pkg (name : string) : GitPackage := MkGitPackage name ".".
Definition any : VersionRequirement := MkVersionRequirement [(0, 100)].
Definition need (name : string) (low high : nat) : PackageRequirement :=
  MkPackageRequirement (PK_Git (pkg name)) (Sel_Version (MkVersionRequirement [(low, high)]))
    (MkRequirementOrigin "" "").
Definition commit (version : nat) : string :=
  String.concat "" (repeat "0" version).
Definition release (name : string) (version : nat) (deps : list (string * PackageRequirement)) : PackageCandidate :=
  MkPackageCandidate (PS_Git (pkg name) (commit version)) version true any [] (list_to_map deps) ∅ "" None.

Definition pool (actual : PackageKey) : list PackageCandidate :=
  match actual with
  | PK_Git (MkGitPackage "a" ".") => [release "a" 1 [("c", need "c" 1 2)]; release "a" 2 [("c", need "c" 2 2)]]
  | PK_Git (MkGitPackage "b" ".") => [release "b" 5 [("c", need "c" 1 1)]]
  | PK_Git (MkGitPackage "c" ".") => [release "c" 2 []; release "c" 1 []]
  | _ => []
  end.

(** The provider counts the questions it is asked, and answers with what the selectors match. *)
Definition offered (actual : PackageKey) (selectors : list PackageSelector) : list PackageCandidate :=
  filter (fun c => existsb (fun s => matches_selector c s ∅) selectors = true) (pool actual).
#[export] Instance provider : ResolverProvider nat :=
  fun asked actual selectors _ _ => (Ok (MkCandidateSet (offered actual selectors) ∅), S asked).
(** Of a package only versions are asked for. *)
Definition answerable (key : PackageKey) (selector : PackageSelector) : bool :=
  match selector with Sel_Version _ => true | _ => false end.

Definition debug (s : PackageSelector) : string := "".

Definition root : PackageCandidate :=
  MkPackageCandidate (PS_Path "/app") 0 false any []
    (list_to_map [("a", need "a" 0 9); ("b", need "b" 0 9)]) ∅ "" None.
Definition request (pins : gmap PackageKey PackagePin) : ResolutionRequest :=
  MkResolutionRequest (PK_Path "/app") root 1 (MkTargetPlatform "linux" "x86_64" "gnu") pins ∅ Policy_Conservative.

Definition keys : gset PackageKey :=
  list_to_set [PK_Path "/app"; PK_Git (pkg "a"); PK_Git (pkg "b"); PK_Git (pkg "c")].
Definition chosen : gmap PackageKey PackageCandidate :=
  list_to_map [(PK_Path "/app", root);
    (PK_Git (pkg "a"), release "a" 1 [("c", need "c" 1 2)]);
    (PK_Git (pkg "b"), release "b" 5 [("c", need "c" 1 1)]);
    (PK_Git (pkg "c"), release "c" 1 [])].
End Registry.

(** ** Theorems *)

Section Theorems.
Context `{Semver} {P : Type} `{!ResolverProvider P} (debug : PackageSelector -> string).

(** C24: A graph that [resolve_graph] returns holds the root, is closed under the requirements
    of its packages and the root's development dependencies, satisfies each of them (with the
    branch bindings the graph records), takes every package from its own or its override's
    source, from eligible candidates only, holds no package that nothing requires, contains
    the update targets, and has no dependency cycle. *)
Theorem resolve_graph_sound (provider p' : P) (request : ResolutionRequest) (g : ResolvedGraph) :
  resolve_graph debug provider request = Some (Ok g, p') ->
  resolved request (head (root_aliases request)) (update_targets (rq_policy request)) ∅ g.
Proof.
  intros Hr. destruct (resolve_graph_returns debug provider request) as (r & q & Hr' & Hok).
  rewrite Hr in Hr'. injection Hr' as <- <-. by apply Hok.
Qed.

(** C27: Resolution always returns a graph or an error, whatever the provider answers: no
    recursion runs out, no count of the cycle check drops below zero, no lookup of a selected
    package or of a duplicated alias fails. *)
Theorem resolve_graph_terminates (provider : P) (request : ResolutionRequest) :
  exists r p', resolve_graph debug provider request = Some (r, p').
Proof. destruct (resolve_graph_returns debug provider request) as (r & p' & Hr & _). eauto. Qed.

(** C26: [has_cycle] returns, and says whether some package of the selection reaches itself
    through the normal dependencies between selected packages. *)
Theorem has_cycle_iff (packages : gmap PackageKey PackageCandidate) (key : PackageKey -> PackageKey) :
  exists b, has_cycle packages key = Some b /\ (b = true ↔ exists k, tc (edge packages key) k k).
Proof. apply has_cycle_correct. Qed.

Section Snapshot.
Context (request : ResolutionRequest).
Context (pool : PackageKey -> list PackageCandidate) (bindings : PackageKey -> gmap GitBranch GitRevision)
  (answerable : PackageKey -> PackageSelector -> Prop) `{!Snapshot request pool bindings answerable}.

(** C25: Let a provider answer from one snapshot: for the selectors of a package it holds every
    candidate that one of them matches, and binds the branches they name, for the pin and the
    refresh the request shows.  When a solution exists among at most 257 packages within reach,
    whose sources can all be read, a resolution under the conservative policy or that of
    updating all returns a graph: backtracking misses no solution, whatever else the answers
    hold, and never hits the depth limit. *)
Theorem resolve_graph_finds (provider : P) (U : gset PackageKey) (W : gmap PackageKey PackageCandidate) :
  (rq_policy request = Policy_Conservative \/ rq_policy request = Policy_UpdateAll) ->
  well_posed request pool bindings answerable U W ->
  exists g p', resolve_graph debug provider request = Some (Ok g, p').
Proof. intros. by eapply (resolve_graph_succeeds debug request pool bindings answerable). Qed.

(** A conservative resolution keeps every pin of a package it selects when one solution
    agrees with all the pins. *)
Theorem resolve_graph_keeps_pins (provider : P) (U : gset PackageKey) (W : gmap PackageKey PackageCandidate) :
  rq_policy request = Policy_Conservative -> well_posed request pool bindings answerable U W ->
  (forall k pin c, k ≠ rq_root request -> rq_pins request !! k = Some pin -> W !! k = Some c ->
    pin_matches pin c = true) ->
  exists g p', resolve_graph debug provider request = Some (Ok g, p')
    /\ forall k pin c, k ≠ rq_root request -> rq_pins request !! k = Some pin ->
       rg_packages g !! k = Some c -> pin_matches pin c = true.
Proof. intros. by eapply (resolve_graph_pins debug request pool bindings answerable). Qed.
End Snapshot.
End Theorems.

(** C38: Two providers that keep answering with the same candidates in another order, the same
    branches and the same failures lead to the same graph or error. *)
Theorem resolve_graph_order `{SemverLaws} {P1 P2} `{!ResolverProvider P1} `{!ResolverProvider P2}
    (R : P1 -> P2 -> Prop) (debug : PackageSelector -> string) (request : ResolutionRequest) p1 p2 :
  reordered R -> R p1 p2 ->
  fst <$> resolve_graph debug p1 request = fst <$> resolve_graph debug p2 request.
Proof. apply resolve_graph_agree. Qed.

(** ** Witnesses *)

#[local] Existing Instances Registry.semver Registry.semver_laws Registry.provider.

Definition registry_graph (pins : gmap PackageKey PackagePin) : option (ResolvedGraph * nat) :=
  match resolve_graph Registry.debug 0 (Registry.request pins) with
  | Some (Ok g, p) => Some (g, p)
  | _ => None
  end.

Example registry_backtracks :
  (fun r => rg_packages r.1) <$> registry_graph ∅ = Some Registry.chosen.
Proof. apply (bool_decide_unpack _). by vm_compute. Qed.

Abbreviation can := (fun k sel => Registry.answerable k sel = true).

#[export] Instance registry_snapshot pins : Snapshot (P := nat) (Registry.request pins) Registry.pool (fun _ => ∅) can.
Proof.
  intros p k sels Hk Hsels. do 3 eexists. split; [reflexivity|]. split.
  - unfold actual_of. simpl. rewrite lookup_empty. apply (consistent_filter _ _ _ ∅ ∅); [done|]. unfold Registry.pool. by repeat case_match.
  - unfold actual_of. simpl. rewrite lookup_empty. split.
    + by intros c [_ Hc]%list_elem_of_filter.
    + intros c sel Hsel Hc Hm. apply list_elem_of_filter. split; [|done].
      apply existsb_exists. exists sel. split; [by apply list_elem_of_In|done].
    + done.
Qed.

Definition registry_pins : gmap PackageKey PackagePin :=
  list_to_map [(PK_Git (Registry.pkg "c"), pin_candidate (Registry.release "c" 1 []))].

Lemma registry_posed pins :
  well_posed (Registry.request pins) Registry.pool (fun _ => ∅) can Registry.keys Registry.chosen.
Proof.
  split; [by vm_compute|vm_compute; lia|by vm_compute|..].
  - apply universeb_correct. by vm_compute.
  - apply Nat.leb_le. by vm_compute.
  - apply solutionb_correct. by vm_compute.
  - intros k c Hk%elem_of_list_to_map_2 Hne. simpl in Hk.
    rewrite !elem_of_cons in Hk. destruct Hk as [Hk|[Hk|[Hk|[Hk|Hk%elem_of_nil]]]]; [..|done];
      injection Hk as -> ->; [done|..]; vm_compute; repeat (left || right).
Qed.

Lemma resolve_graph_sound_witness : exists g,
  resolved (Registry.request ∅) None ∅ ∅ g /\ rg_packages g = Registry.chosen.
Proof.
  destruct (resolve_graph Registry.debug 0 (Registry.request ∅)) as [[[g|e] p]|] eqn:Hr;
    [|by vm_compute in Hr..].
  exists g. split; [exact (resolve_graph_sound Registry.debug 0 p (Registry.request ∅) g Hr)|].
  pose proof registry_backtracks as Hb. unfold registry_graph in Hb. rewrite Hr in Hb.
  simpl in Hb. by injection Hb.
Defined.

Lemma resolve_graph_finds_witness : exists g p',
  resolve_graph Registry.debug 7 (Registry.request ∅) = Some (Ok g, p').
Proof.
  exact (resolve_graph_finds Registry.debug (Registry.request ∅) Registry.pool (fun _ => ∅) can 7
    Registry.keys Registry.chosen (or_introl eq_refl) (registry_posed ∅)).
Defined.

Lemma resolve_graph_keeps_pins_witness : exists g p',
  resolve_graph Registry.debug 7 (Registry.request registry_pins) = Some (Ok g, p')
  /\ forall k pin c, k ≠ PK_Path "/app" -> registry_pins !! k = Some pin ->
     rg_packages g !! k = Some c -> pin_matches pin c = true.
Proof.
  refine (resolve_graph_keeps_pins Registry.debug (Registry.request registry_pins) Registry.pool (fun _ => ∅) can 7
    Registry.keys Registry.chosen eq_refl (registry_posed _) _).
  intros k pin c Hne Hk Hc. simpl in Hk.
  unfold registry_pins in Hk. apply elem_of_list_to_map_2 in Hk.
  apply list_elem_of_singleton in Hk. injection Hk as -> ->.
  vm_compute in Hc. injection Hc as <-. by vm_compute.
Defined.

(** The registry that answers in the opposite order. *)
Definition reverse_provider : ResolverProvider nat :=
  fun asked actual selectors _ _ => (Ok (MkCandidateSet (reverse (Registry.offered actual selectors)) ∅), S asked).

Lemma resolve_graph_order_witness :
  fst <$> resolve_graph Registry.debug 0 (Registry.request ∅)
  = fst <$> resolve_graph (ResolverProvider0 := reverse_provider) Registry.debug 0 (Registry.request ∅).
Proof.
  apply (resolve_graph_order (ResolverProvider1 := reverse_provider) eq); [|reflexivity].
  intros p1 p2 actual sels pin refresh ->. simpl. split; [|done]. split; [|done].
  by rewrite reverse_Permutation.
Defined.

(** ** A commit that is also a release

    The driver's provider reads the releases of a package only when a selector needs them.  A
    commit asked for alone is then no release, and when a package selected later requires a
    version of it the selection is given up, though the commit is that version's release. *)
Module Mixed.
Definition commit_of (name rev : string) : PackageRequirement :=
  MkPackageRequirement (PK_Git (Registry.pkg name)) (Sel_Revision rev) (MkRequirementOrigin "" "").
Definition unreleased (c : PackageCandidate) : PackageCandidate :=
  MkPackageCandidate (pc_source c) (pc_version c) false (pc_compiler c) (pc_platforms c) (pc_dependencies c)
    (pc_development c) (pc_manifest_fingerprint c) (pc_checksum c).
Definition pool (actual : PackageKey) : list PackageCandidate :=
  match actual with
  | PK_Git (MkGitPackage "p" ".") => [Registry.release "p" 1 []]
  | PK_Git (MkGitPackage "q" ".") => [Registry.release "q" 1 [("p", Registry.need "p" 1 1)]]
  | _ => []
  end.
Definition asks_version (s : PackageSelector) : bool := match s with Sel_Version _ => true | _ => false end.
(** The driver's provider, and one that always reads the releases. *)
Definition lazy_ : ResolverProvider () := fun u actual selectors _ _ =>
  (Ok (MkCandidateSet (if existsb asks_version selectors then pool actual else unreleased <$> pool actual) ∅), u).
Definition eager : ResolverProvider () := fun u actual _ _ _ => (Ok (MkCandidateSet (pool actual) ∅), u).
Definition root : PackageCandidate :=
  MkPackageCandidate (PS_Path "/app") 0 false Registry.any []
    (list_to_map [("p", commit_of "p" (Registry.commit 1)); ("q", Registry.need "q" 1 1)]) ∅ "" None.
Definition request : ResolutionRequest :=
  MkResolutionRequest (PK_Path "/app") root 1 (MkTargetPlatform "linux" "x86_64" "gnu") ∅ ∅ Policy_Conservative.
Definition found (provider : ResolverProvider ()) : bool :=
  match resolve_graph (ResolverProvider0 := provider) Registry.debug () request with Some (Ok _, _) => true | _ => false end.
End Mixed.

Lemma commit_is_no_release : Mixed.found Mixed.lazy_ = false /\ Mixed.found Mixed.eager = true.
Proof. split; by vm_compute. Qed.
