(* ===== verification/Types.v ===== *)
(** * Identities and types

    The data of fai-resolve's [ids.rs] and fai-types' [ty.rs], and the offset
    evidence of [evidence.rs].  An interned [Symbol] is its text; a [SourceId],
    a [LocalId] and the variable ids are their indices. *)

From S2P Require Import Prelude.
From stdpp Require Import gmap list strings sorting.

(** A frame slot ([ids.rs], [LocalId]): its index. *)
Abbreviation LocalId := nat (only parsing).
(** A source file ([span.rs], [SourceId]): its index. *)
Abbreviation SourceId := nat (only parsing).

(** A top-level definition: its file and name. *)
Record DefId := MkDefId { def_file : SourceId; def_name : string }.
Record AdtRef := MkAdtRef { adt_file : SourceId; adt_name : string }.
Record InterfaceRef := MkInterfaceRef { if_file : SourceId; if_name : string }.

#[export] Instance DefId_eq_dec : EqDecision DefId.
Proof. solve_decision. Defined.
#[export] Instance DefId_countable : Countable DefId.
Proof.
  refine (inj_countable' (fun d => (def_file d, def_name d)) (fun p => MkDefId p.1 p.2) _).
  by intros [].
Defined.
#[export] Instance AdtRef_eq_dec : EqDecision AdtRef.
Proof. solve_decision. Defined.
#[export] Instance InterfaceRef_eq_dec : EqDecision InterfaceRef.
Proof. solve_decision. Defined.
#[export] Instance InterfaceRef_countable : Countable InterfaceRef.
Proof.
  refine (inj_countable' (fun i => (if_file i, if_name i)) (fun p => MkInterfaceRef p.1 p.2) _).
  by intros [].
Defined.

(** ** Types *)

Inductive Con :=
| Con_Int | Con_Float | Con_Bool | Con_String | Con_Bytes | Con_Char | Con_List | Con_Array.

#[export] Instance Con_eq_dec : EqDecision Con.
Proof. solve_decision. Defined.

Inductive RowEnd := Row_Closed | Row_Open (v : nat).
Inductive EffEnd := Eff_Closed | Eff_Open (v : nat).
Record EffectRow := MkEffectRow { eff_labels : list InterfaceRef; eff_tail : EffEnd }.

#[export] Instance RowEnd_eq_dec : EqDecision RowEnd.
Proof. solve_decision. Defined.
#[export] Instance EffEnd_eq_dec : EqDecision EffEnd.
Proof. solve_decision. Defined.
#[export] Instance EffectRow_eq_dec : EqDecision EffectRow.
Proof. solve_decision. Defined.

(** [EffectRow::pure]. *)
Definition pure_row : EffectRow := MkEffectRow [] Eff_Closed.

(** [EffectRow::is_pure]. *)
Definition is_pure (e : EffectRow) : bool :=
  match eff_labels e, eff_tail e with [], Eff_Closed => true | _, _ => false end.

(** A type; the two fields of a [RecordRow] are arguments of [Ty_Record]. *)
Inductive Ty :=
| Ty_Var (v : nat)
| Ty_Con (c : Con)
| Ty_Adt (a : AdtRef)
| Ty_Interface (i : InterfaceRef)
| Ty_EffectArg (e : EffectRow)
| Ty_App (head arg : Ty)
| Ty_Arrow (from to : Ty) (eff : EffectRow)
| Ty_Tuple (elems : list Ty)
| Ty_Record (fields : list (string * Ty)) (tail : RowEnd)
| Ty_Unit
| Ty_Error.

Section TyInd.
Context (P : Ty -> Prop)
  (Hvar : forall v, P (Ty_Var v)) (Hcon : forall c, P (Ty_Con c))
  (Hadt : forall a, P (Ty_Adt a)) (Hif : forall i, P (Ty_Interface i))
  (Heff : forall e, P (Ty_EffectArg e))
  (Happ : forall h a, P h -> P a -> P (Ty_App h a))
  (Harr : forall f t e, P f -> P t -> P (Ty_Arrow f t e))
  (Htup : forall l, Forall P l -> P (Ty_Tuple l))
  (Hrec : forall fs tl, Forall (fun p => P p.2) fs -> P (Ty_Record fs tl))
  (Hunit : P Ty_Unit) (Herr : P Ty_Error).

(** Induction through the element and field lists. *)
Fixpoint Ty_nested_ind (t : Ty) : P t :=
  match t with
  | Ty_Var v => Hvar v
  | Ty_Con c => Hcon c
  | Ty_Adt a => Hadt a
  | Ty_Interface i => Hif i
  | Ty_EffectArg e => Heff e
  | Ty_App h a => Happ h a (Ty_nested_ind h) (Ty_nested_ind a)
  | Ty_Arrow f t e => Harr f t e (Ty_nested_ind f) (Ty_nested_ind t)
  | Ty_Tuple l =>
      Htup l ((fix go l : Forall P l :=
                 match l with
                 | [] => List.Forall_nil _
                 | t :: l => List.Forall_cons _ t l (Ty_nested_ind t) (go l)
                 end) l)
  | Ty_Record fs tl =>
      Hrec fs tl ((fix go fs : Forall (fun p => P p.2) fs :=
                     match fs with
                     | [] => List.Forall_nil _
                     | p :: fs => List.Forall_cons _ p fs (Ty_nested_ind p.2) (go fs)
                     end) fs)
  | Ty_Unit => Hunit
  | Ty_Error => Herr
  end.
End TyInd.

(** [Ty::bool], [Ty::int], [Ty::list], [Ty::array], [Ty::arrow]. *)
Definition ty_bool : Ty := Ty_Con Con_Bool.
Definition ty_int : Ty := Ty_Con Con_Int.
Definition ty_list (elem : Ty) : Ty := Ty_App (Ty_Con Con_List) elem.
Definition ty_array (elem : Ty) : Ty := Ty_App (Ty_Con Con_Array) elem.
Definition ty_arrow (from to : Ty) : Ty := Ty_Arrow from to pure_row.

(** [Ty::arrows]. *)
Definition ty_arrows (params : list Ty) (res : Ty) : Ty := foldr ty_arrow res params.

(** [Con::name] and [Con::from_name]. *)
Definition con_name (c : Con) : string :=
  match c with
  | Con_Int => "Int"
  | Con_Float => "Float"
  | Con_Bool => "Bool"
  | Con_String => "String"
  | Con_Bytes => "Bytes"
  | Con_Char => "Char"
  | Con_List => "List"
  | Con_Array => "Array"
  end.

Definition con_from_name (name : string) : option Con :=
  match name with
  | "Int" => Some Con_Int
  | "Float" => Some Con_Float
  | "Bool" => Some Con_Bool
  | "String" => Some Con_String
  | "Bytes" => Some Con_Bytes
  | "Char" => Some Con_Char
  | "List" => Some Con_List
  | "Array" => Some Con_Array
  | _ => None
  end%string.

(** [con_or_unit]. *)
Definition con_or_unit (name : string) : option Ty :=
  if String.eqb name "Unit" then Some Ty_Unit else Ty_Con <$> con_from_name name.

(** A type scheme. *)
Record Scheme := MkScheme {
  sch_vars : list nat;
  sch_ty : Ty;
  sch_names : list string;
  sch_row_vars : list nat;
  sch_row_names : list string;
  sch_effect_vars : list nat;
  sch_effect_names : list string
}.

(** [Scheme::mono]. *)
Definition scheme_mono (ty : Ty) : Scheme := MkScheme [] ty [] [] [] [] [].

(** ** Offset evidence ([evidence.rs]) *)

(** One requirement: the position of a label within a row variable's fields. *)
Record EvidenceReq := MkEvidenceReq { req_row_var : nat; req_label : string }.

(** [collect]: the open records' tail variables, in first-appearance order, and
    the labels each must lack. *)
Fixpoint collect (ty : Ty) (st : list nat * gmap nat (list string))
    : list nat * gmap nat (list string) :=
  match ty with
  | Ty_Record fields tail =>
      let st :=
        match tail with
        | Row_Open r =>
            let '(order, lacks) := st in
            let order := if decide (r ∈ order) then order else order ++ [r] in
            (order, <[r := default [] (lacks !! r) ++ fields.*1]> lacks)
        | Row_Closed => st
        end in
      foldl (fun st p => collect p.2 st) st fields
  | Ty_App f a => collect a (collect f st)
  | Ty_Arrow f a _ => collect a (collect f st)
  | Ty_Tuple elems => foldl (fun st e => collect e st) st elems
  | Ty_Var _ | Ty_Con _ | Ty_Adt _ | Ty_Interface _ | Ty_EffectArg _ | Ty_Unit | Ty_Error => st
  end.

(** Byte-wise order of label texts. *)
Definition label_le (a b : string) : Prop := String.leb a b = true.
#[export] Instance label_le_dec a b : Decision (label_le a b).
Proof. unfold label_le. apply _. Defined.

Fixpoint dedup_labels (xs : list string) : list string :=
  match xs with
  | [] => []
  | x :: xs' =>
      match xs' with
      | [] => [x]
      | y :: _ => if String.eqb x y then dedup_labels xs' else x :: dedup_labels xs'
      end
  end.

(** [evidence_requirements]. *)
Definition evidence_requirements (scheme : Scheme) : list EvidenceReq :=
  let '(order, lacks) := collect (sch_ty scheme) ([], ∅) in
  flat_map (fun row_var =>
    MkEvidenceReq row_var <$> dedup_labels (merge_sort label_le (default [] (lacks !! row_var))))
    order.

(** [evidence_count]. *)
Definition evidence_count (scheme : Scheme) : nat := length (evidence_requirements scheme).
