(* ===== verification/Ir.v ===== *)
(** * The Core intermediate representation

    fai-core's [ir.rs] (the tree, its primitives, the calling conventions), the
    data of [niche.rs] and the bound signatures of [bounds.rs] a definition
    carries.  A tree node is [CE kind ty]; every Rust [Box] is the value itself.
    Each enum's constructors keep their names behind a prefix: [K_] for
    [ExprKind], [P_] for [Prim], [Repr_], [Lit_], [FI_] for [FieldIndex] and
    [Alloc_] for [ClosureAlloc]. *)

From S2P Require Import Prelude Types.
From stdpp Require Import gmap list strings.
From Stdlib Require Import ZArith Lia.

(** [NicheKind] ([niche.rs]). *)
Inductive NicheKind := Niche_A | Niche_B.

(** ** Type-directed representation *)

(** [matches!(t, Ty::Con(Con::Float))] *)
Definition is_float (t : Ty) : bool :=
  match t with Ty_Con Con_Float => true | _ => false end.

(** [scalar_field_mask]: bit [i] set when field [i] is a [Float], 64 fields at most. *)
Fixpoint scalar_field_mask_from (i : nat) (field_types : list Ty) (mask : Z) : Z :=
  match field_types with
  | [] => mask
  | t :: ts =>
      scalar_field_mask_from (S i) ts
        (if (i <? 64) && is_float t then Z.lor mask (Z.shiftl 1 (Z.of_nat i)) else mask)
  end.
Definition scalar_field_mask (field_types : list Ty) : Z := scalar_field_mask_from 0 field_types 0.

(** [reference_free_array] *)
Definition reference_free_array (ty : Ty) : bool :=
  match ty with
  | Ty_App (Ty_Con Con_Array) element =>
      match element with
      | Ty_Unit | Ty_Con Con_Bool | Ty_Con Con_Char | Ty_Con Con_Float => true
      | _ => false
      end
  | _ => false
  end.

(** [FFA_MAX_FIELDS] *)
Definition FFA_MAX_FIELDS : nat := 8.

(** The [cfg!] facts the code consults. *)
Inductive Arch := Aarch64 | X86_64 | OtherArch.
Record Target := MkTarget { target_arch : Arch; target_windows : bool }.

(** [max_spread_return] *)
Definition max_spread_return (target : Target) : nat :=
  match target_arch target with
  | Aarch64 => FFA_MAX_FIELDS
  | X86_64 => if target_windows target then 1 else 2
  | OtherArch => 1
  end.

(** [ffa_arity] *)
Definition ffa_arity (ty : Ty) : option nat :=
  let check (count : nat) :=
    if (1 <=? count) && (count <=? FFA_MAX_FIELDS) then Some count else None in
  match ty with
  | Ty_Tuple elems => if forallb is_float elems then check (length elems) else None
  | Ty_Record fields Row_Closed =>
      if forallb (fun p => is_float p.2) fields then check (length fields) else None
  | _ => None
  end.

(** [integer_state_pair] and its inner [uniform]. *)
Fixpoint uniform (ty : Ty) : bool :=
  match ty with
  | Ty_Con Con_String | Ty_Con Con_Bytes | Ty_Con Con_Array | Ty_Con Con_List
  | Ty_Adt _ | Ty_Interface _ | Ty_Tuple _ | Ty_Record _ _ | Ty_Arrow _ _ _ => true
  | Ty_App head _ => uniform head
  | _ => false
  end.
Definition integer_state_pair (ty : Ty) : bool :=
  match ty with
  | Ty_Tuple [Ty_Con Con_Int; second] => uniform second
  | _ => false
  end.

(** [aggregate_field_types] *)
Definition aggregate_field_types (ty : Ty) : option (list Ty) :=
  match ty with
  | Ty_Tuple fields => Some fields
  | Ty_Record fields Row_Closed => Some (fields.*2)
  | _ => None
  end.

(** ** Calling conventions *)

(** [Repr] *)
Inductive Repr :=
| Repr_Uniform
| Repr_ScalarFloat
| Repr_ScalarInt
| Repr_Niche (k : NicheKind)
| Repr_Spread (components : list Repr)
| Repr_TaggedResult (width0 width1 : nat).

(** [FnAbi] *)
Record FnAbi := MkFnAbi { abi_params : list Repr; abi_ret : Repr; register_abi : bool }.

(** [#[derive(Default)]] of [FnAbi] *)
Definition FnAbi_default : FnAbi := MkFnAbi [] Repr_Uniform false.

(** [scalar_repr] *)
Definition scalar_repr (ty : Ty) (niche : Ty -> option NicheKind) : Repr :=
  match ty with
  | Ty_Con Con_Float => Repr_ScalarFloat
  | Ty_Con Con_Int => Repr_ScalarInt
  | _ =>
      match ffa_arity ty with
      | Some n => Repr_Spread (replicate n Repr_ScalarFloat)
      | None => match niche ty with Some k => Repr_Niche k | None => Repr_Uniform end
      end
  end.

(** The source-parameter loop of [from_scheme]: one representation per arrow. *)
Fixpoint param_reprs (niche : Ty -> option NicheKind) (source_params : nat) (ty : Ty)
    : list Repr * Ty :=
  match source_params with
  | 0 => ([], ty)
  | S n =>
      match ty with
      | Ty_Arrow from to _ =>
          let '(rs, ret) := param_reprs niche n to in (scalar_repr from niche :: rs, ret)
      | _ => ([], ty)
      end
  end.

Definition is_spread (r : Repr) : bool := match r with Repr_Spread _ => true | _ => false end.

(** The representations a uniform entry gives up. *)
Definition register_only (r : Repr) : bool :=
  match r with Repr_ScalarInt | Repr_Niche _ | Repr_Spread _ => true | _ => false end.
Definition demote (r : Repr) : Repr := if register_only r then Repr_Uniform else r.

(** [FnAbi::from_scheme] *)
Definition from_scheme (target : Target) (scheme : Scheme) (source_params : nat)
    (niche : Ty -> option NicheKind) : FnAbi :=
  let evidence := evidence_count scheme in
  let '(source, ty) := param_reprs niche source_params (sch_ty scheme) in
  let params := replicate evidence Repr_Uniform ++ source in
  let register_abi := (evidence =? 0) && (0 <? source_params) in
  let ret := scalar_repr ty niche in
  let ret :=
    if register_abi && integer_state_pair ty &&
       match target_arch target with
       | Aarch64 => true
       | X86_64 => negb (target_windows target)
       | OtherArch => false
       end
    then Repr_Spread [Repr_ScalarInt; Repr_Uniform] else ret in
  let return_budget :=
    if register_abi && match target_arch target with X86_64 => true | _ => false end
       && existsb is_spread params
    then FFA_MAX_FIELDS else max_spread_return target in
  let ret :=
    match ret with
    | Repr_Spread c => if return_budget <? length c then Repr_Uniform else ret
    | _ => ret
    end in
  if register_abi then MkFnAbi params ret register_abi
  else MkFnAbi (demote <$> params) (demote ret) register_abi.

(** [FnAbi::register_uniform] *)
Definition register_uniform (arity : nat) : FnAbi :=
  MkFnAbi (replicate arity Repr_Uniform) Repr_Uniform (0 <? arity).

(** The accessors of [FnAbi]. *)
Definition float_param (abi : FnAbi) (i : nat) : bool :=
  match abi_params abi !! i with Some Repr_ScalarFloat => true | _ => false end.
Definition int_param (abi : FnAbi) (i : nat) : bool :=
  match abi_params abi !! i with Some Repr_ScalarInt => true | _ => false end.
Definition float_return (abi : FnAbi) : bool :=
  match abi_ret abi with Repr_ScalarFloat => true | _ => false end.
Definition int_return (abi : FnAbi) : bool :=
  match abi_ret abi with Repr_ScalarInt => true | _ => false end.
Definition niche_param (abi : FnAbi) (i : nat) : option NicheKind :=
  match abi_params abi !! i with Some (Repr_Niche k) => Some k | _ => None end.
Definition niche_return (abi : FnAbi) : option NicheKind :=
  match abi_ret abi with Repr_Niche k => Some k | _ => None end.
Definition spread_param (abi : FnAbi) (i : nat) : option (list Repr) :=
  match abi_params abi !! i with Some (Repr_Spread c) => Some c | _ => None end.

(** [spread_return]; the slice [&COMPONENTS[..n]] panics beyond eight components. *)
Definition spread_return (abi : FnAbi) : SM unit (option (list Repr)) :=
  match abi_ret abi with
  | Repr_Spread c => mret (Some c)
  | Repr_TaggedResult w0 w1 =>
      let components := Repr_ScalarInt :: replicate 7 Repr_Uniform in
      let n := 1 + (w0 `max` w1) `max` 1 in
      if n <=? length components then mret (Some (take n components)) else panic
  | _ => mret None
  end.
Definition tagged_result (abi : FnAbi) : option (nat * nat) :=
  match abi_ret abi with Repr_TaggedResult w0 w1 => Some (w0, w1) | _ => None end.
Definition any_float_param (abi : FnAbi) : bool :=
  existsb (fun r => match r with Repr_ScalarFloat => true | _ => false end) (abi_params abi).
Definition repr_uniform (r : Repr) : bool := match r with Repr_Uniform => true | _ => false end.
Definition is_uniform (abi : FnAbi) : bool :=
  repr_uniform (abi_ret abi) && forallb repr_uniform (abi_params abi).

(** ** Literals and primitives *)

(** [Lit] *)
Inductive Lit :=
| Lit_Int (n : Z)
| Lit_Float (bits : Z)
| Lit_Char (c : Z)
| Lit_Bool (b : bool)
| Lit_Str (bytes : list Z)
| Lit_Unit.

(** [Prim] *)
Inductive Prim :=
| P_IntAdd | P_IntBox | P_IntSub | P_IntMul | P_IntDiv | P_IntRem | P_IntAnd | P_IntOr
| P_IntXor | P_IntShl | P_IntShr | P_IntShrLogical | P_IntComplement | P_IntLt | P_IntLe
| P_IntGt | P_IntGe | P_FloatAdd | P_FloatSub | P_FloatNeg | P_FloatMul | P_FloatDiv
| P_FloatLt | P_FloatLe | P_FloatGt | P_FloatGe | P_Compare | P_Hash | P_Eq | P_StrConcat
| P_IntToString | P_FloatToString | P_IntToFloat | P_FloatToInt | P_Sqrt | P_FloatFromBits
| P_FloatToBits | P_CharToString | P_CharToCode | P_CharFromCode | P_IsValidCharCode
| P_StringLength | P_ToUpper | P_ToLower | P_Trim | P_StringContains | P_StringFind
| P_StringSplit | P_StringJoin | P_StringSubstring | P_StringTake | P_StringDrop | P_Not
| P_RecordUpdate | P_ArrayWithCapacity | P_ArrayRepeat | P_ArrayLength | P_ArrayGet
| P_ArrayPeek | P_DataPeek | P_ListReversePrefix | P_ArraySet | P_ArrayUnique | P_ArrayTake
| P_ArrayPut | P_ArrayPush | P_ArrayPushReserved | P_ArraySplit | P_ArrayJoin | P_BytesLength
| P_BytesGet | P_BytesFind | P_BytesFindUtf8 | P_BytesConcat | P_BytesConcatMany | P_BytesSlice
| P_BytesFromList | P_BytesToList | P_BytesFromString | P_BytesToString | P_BytesIsUtf8
| P_CryptoSha256 | P_CryptoHmacSha256 | P_CryptoPbkdf2Sha256 | P_CryptoEqual
| P_CryptoScramPassword | P_TextGraphemes | P_TextWidth | P_PathOperation | P_PathComponents
| P_RegexCompile | P_RegexFindText | P_RegexFindBytes | P_RegexTestText | P_RegexTestBytes
| P_RegexNames | P_RegexByteIndex | P_RegexSlice | P_RegexEscape | P_CompressionCreate
| P_CompressionStep | P_TextPairsFromList | P_TextPairsFromRanges | P_TextPairsToList
| P_TextPairsGet | P_TextPairsGetAll | P_TextPairsIsEmpty | P_BytesSpan | P_TextPairsRenderList
| P_TextPairsRenderRows.

Definition all_prims : list Prim :=
  [P_IntAdd; P_IntBox; P_IntSub; P_IntMul; P_IntDiv; P_IntRem; P_IntAnd; P_IntOr; P_IntXor;
   P_IntShl; P_IntShr; P_IntShrLogical; P_IntComplement; P_IntLt; P_IntLe; P_IntGt; P_IntGe;
   P_FloatAdd; P_FloatSub; P_FloatNeg; P_FloatMul; P_FloatDiv; P_FloatLt; P_FloatLe; P_FloatGt;
   P_FloatGe; P_Compare; P_Hash; P_Eq; P_StrConcat; P_IntToString; P_FloatToString;
   P_IntToFloat; P_FloatToInt; P_Sqrt; P_FloatFromBits; P_FloatToBits; P_CharToString;
   P_CharToCode; P_CharFromCode; P_IsValidCharCode; P_StringLength; P_ToUpper; P_ToLower;
   P_Trim; P_StringContains; P_StringFind; P_StringSplit; P_StringJoin; P_StringSubstring;
   P_StringTake; P_StringDrop; P_Not; P_RecordUpdate; P_ArrayWithCapacity; P_ArrayRepeat;
   P_ArrayLength; P_ArrayGet; P_ArrayPeek; P_DataPeek; P_ListReversePrefix; P_ArraySet;
   P_ArrayUnique; P_ArrayTake; P_ArrayPut; P_ArrayPush; P_ArrayPushReserved; P_ArraySplit;
   P_ArrayJoin; P_BytesLength; P_BytesGet; P_BytesFind; P_BytesFindUtf8; P_BytesConcat;
   P_BytesConcatMany; P_BytesSlice; P_BytesFromList; P_BytesToList; P_BytesFromString;
   P_BytesToString; P_BytesIsUtf8; P_CryptoSha256; P_CryptoHmacSha256; P_CryptoPbkdf2Sha256;
   P_CryptoEqual; P_CryptoScramPassword; P_TextGraphemes; P_TextWidth; P_PathOperation;
   P_PathComponents; P_RegexCompile; P_RegexFindText; P_RegexFindBytes; P_RegexTestText;
   P_RegexTestBytes; P_RegexNames; P_RegexByteIndex; P_RegexSlice; P_RegexEscape;
   P_CompressionCreate; P_CompressionStep; P_TextPairsFromList; P_TextPairsFromRanges;
   P_TextPairsToList; P_TextPairsGet; P_TextPairsGetAll; P_TextPairsIsEmpty; P_BytesSpan;
   P_TextPairsRenderList; P_TextPairsRenderRows].

(** [Prim::runtime_symbol]: the runtime function implementing a primitive. *)
Definition runtime_symbol (p : Prim) : string :=
  match p with
  | P_IntAdd => "fai_int_add"
  | P_IntBox => "fai_box_int"
  | P_IntSub => "fai_int_sub"
  | P_IntMul => "fai_int_mul"
  | P_IntDiv => "fai_int_div"
  | P_IntRem => "fai_int_rem"
  | P_IntAnd => "fai_int_and"
  | P_IntOr => "fai_int_or"
  | P_IntXor => "fai_int_xor"
  | P_IntShl => "fai_int_shl"
  | P_IntShr => "fai_int_shr"
  | P_IntShrLogical => "fai_int_shr_logical"
  | P_IntComplement => "fai_int_complement"
  | P_IntLt => "fai_int_lt"
  | P_IntLe => "fai_int_le"
  | P_IntGt => "fai_int_gt"
  | P_IntGe => "fai_int_ge"
  | P_FloatAdd => "fai_float_add"
  | P_FloatSub => "fai_float_sub"
  | P_FloatNeg => "fai_float_neg"
  | P_FloatMul => "fai_float_mul"
  | P_FloatDiv => "fai_float_div"
  | P_FloatLt => "fai_float_lt"
  | P_FloatLe => "fai_float_le"
  | P_FloatGt => "fai_float_gt"
  | P_FloatGe => "fai_float_ge"
  | P_Compare => "fai_compare"
  | P_Hash => "fai_hash"
  | P_Eq => "fai_equal"
  | P_StrConcat => "fai_string_concat"
  | P_IntToString => "fai_int_to_string"
  | P_FloatToString => "fai_float_to_string"
  | P_IntToFloat => "fai_int_to_float"
  | P_FloatToInt => "fai_float_to_int"
  | P_Sqrt => "fai_sqrt"
  | P_FloatFromBits => "fai_float_from_bits"
  | P_FloatToBits => "fai_float_to_bits"
  | P_CharToString => "fai_char_to_string"
  | P_CharToCode => "fai_char_to_code"
  | P_CharFromCode => "fai_char_from_code"
  | P_IsValidCharCode => "fai_is_valid_char_code"
  | P_StringLength => "fai_string_length"
  | P_ToUpper => "fai_to_upper"
  | P_ToLower => "fai_to_lower"
  | P_Trim => "fai_trim"
  | P_StringContains => "fai_string_contains"
  | P_StringFind => "fai_string_find"
  | P_StringSplit => "fai_string_split"
  | P_StringJoin => "fai_string_join"
  | P_StringSubstring => "fai_string_substring"
  | P_StringTake => "fai_string_take"
  | P_StringDrop => "fai_string_drop"
  | P_Not => "fai_not"
  | P_RecordUpdate => "fai_record_update"
  | P_ArrayWithCapacity => "fai_array_with_capacity"
  | P_ArrayRepeat => "fai_array_repeat"
  | P_ArrayLength => "fai_array_length"
  | P_ArrayGet => "fai_array_get"
  | P_ArrayPeek => "fai_array_peek"
  | P_DataPeek => "fai_data_peek"
  | P_ListReversePrefix => "fai_list_reverse_prefix"
  | P_ArraySet => "fai_array_set"
  | P_ArrayUnique => "fai_array_unique"
  | P_ArrayTake => "fai_array_take"
  | P_ArrayPut => "fai_array_put"
  | P_ArrayPush | P_ArrayPushReserved => "fai_array_push"
  | P_ArraySplit => "fai_array_split"
  | P_ArrayJoin => "fai_array_join"
  | P_BytesLength => "fai_bytes_length"
  | P_BytesGet => "fai_bytes_get"
  | P_BytesFind => "fai_bytes_find"
  | P_BytesFindUtf8 => "fai_bytes_find_utf8"
  | P_BytesSpan => "fai_bytes_span"
  | P_BytesConcat => "fai_bytes_concat"
  | P_BytesConcatMany => "fai_bytes_concat_many"
  | P_CryptoSha256 => "fai_crypto_sha256"
  | P_CryptoHmacSha256 => "fai_crypto_hmac_sha256"
  | P_CryptoPbkdf2Sha256 => "fai_crypto_pbkdf2_sha256"
  | P_CryptoEqual => "fai_crypto_equal"
  | P_CryptoScramPassword => "fai_crypto_scram_password"
  | P_TextGraphemes => "fai_text_graphemes"
  | P_TextWidth => "fai_text_width"
  | P_PathOperation => "fai_path_operation"
  | P_PathComponents => "fai_path_components"
  | P_RegexCompile => "fai_regex_compile"
  | P_RegexFindText => "fai_regex_find_text"
  | P_RegexFindBytes => "fai_regex_find_bytes"
  | P_RegexTestText => "fai_regex_test_text"
  | P_RegexTestBytes => "fai_regex_test_bytes"
  | P_RegexNames => "fai_regex_names"
  | P_RegexByteIndex => "fai_regex_byte_index"
  | P_RegexSlice => "fai_regex_slice"
  | P_RegexEscape => "fai_regex_escape"
  | P_CompressionCreate => "fai_compression_create"
  | P_CompressionStep => "fai_compression_step"
  | P_TextPairsFromList => "fai_text_pairs_from_list"
  | P_TextPairsFromRanges => "fai_text_pairs_from_ranges"
  | P_TextPairsToList => "fai_text_pairs_to_list"
  | P_TextPairsGet => "fai_text_pairs_get"
  | P_TextPairsGetAll => "fai_text_pairs_get_all"
  | P_TextPairsIsEmpty => "fai_text_pairs_is_empty"
  | P_TextPairsRenderList => "fai_text_pairs_render_list"
  | P_TextPairsRenderRows => "fai_text_pairs_render_rows"
  | P_BytesSlice => "fai_bytes_slice"
  | P_BytesFromList => "fai_bytes_from_list"
  | P_BytesToList => "fai_bytes_to_list"
  | P_BytesFromString => "fai_bytes_from_string"
  | P_BytesToString => "fai_bytes_to_string"
  | P_BytesIsUtf8 => "fai_bytes_is_utf8"
  end%string.

(** [Prim::borrowed_runtime_symbol]: the non-consuming variant, when there is one. *)
Definition borrowed_runtime_symbol (p : Prim) : option string :=
  match p with
  | P_Eq => Some "fai_equal_borrowed"
  | P_Compare => Some "fai_compare_borrowed"
  | P_Hash => Some "fai_hash_borrowed"
  | P_StringLength => Some "fai_string_length_borrowed"
  | P_StringContains => Some "fai_string_contains_borrowed"
  | P_StringFind => Some "fai_string_find_borrowed"
  | P_ToUpper => Some "fai_to_upper_borrowed"
  | P_ToLower => Some "fai_to_lower_borrowed"
  | P_Trim => Some "fai_trim_borrowed"
  | P_StringSplit => Some "fai_string_split_borrowed"
  | P_BytesLength => Some "fai_bytes_length_borrowed"
  | P_BytesGet => Some "fai_bytes_get_borrowed"
  | P_BytesFind => Some "fai_bytes_find_borrowed"
  | P_BytesFindUtf8 => Some "fai_bytes_find_utf8_borrowed"
  | P_BytesSpan => Some "fai_bytes_span_borrowed"
  | P_BytesIsUtf8 => Some "fai_bytes_is_utf8_borrowed"
  | P_ArrayLength => Some "fai_array_length_borrowed"
  | P_ArrayGet => Some "fai_array_get_borrowed"
  | P_ArrayPeek => Some "fai_array_peek"
  | P_DataPeek => Some "fai_data_peek"
  | P_ArrayTake => Some "fai_array_take"
  | P_StringJoin => Some "fai_string_join_borrowed"
  | P_RegexSlice => Some "fai_regex_slice_borrowed"
  | P_TextPairsGet => Some "fai_text_pairs_get_borrowed"
  | P_TextPairsGetAll => Some "fai_text_pairs_get_all_borrowed"
  | P_TextPairsIsEmpty => Some "fai_text_pairs_is_empty_borrowed"
  | P_TextPairsRenderList => Some "fai_text_pairs_render_list_borrowed"
  | P_TextPairsRenderRows => Some "fai_text_pairs_render_rows_borrowed"
  | P_ArraySplit => Some "fai_array_split_borrowed"
  | P_ArrayJoin => Some "fai_array_join_borrowed"
  | _ => None
  end%string.

(** [Prim::arity]. *)
Definition prim_arity (p : Prim) : nat :=
  match p with
  | P_BytesFind | P_BytesFindUtf8 | P_BytesSpan => 4
  | P_TextPairsRenderList => 5
  | P_TextPairsRenderRows => 7
  | P_IntToString | P_IntBox | P_FloatNeg | P_FloatToString | P_IntToFloat | P_FloatToInt
  | P_Sqrt | P_FloatFromBits | P_FloatToBits | P_CharToString | P_CharToCode | P_CharFromCode
  | P_IsValidCharCode | P_StringLength | P_ToUpper | P_ToLower | P_Trim | P_Not
  | P_IntComplement | P_Hash | P_ArrayWithCapacity | P_ArrayLength | P_ArrayUnique
  | P_BytesLength | P_BytesConcatMany | P_BytesFromList | P_BytesToList | P_BytesFromString
  | P_BytesToString | P_BytesIsUtf8 | P_CryptoSha256 | P_TextGraphemes | P_PathComponents
  | P_RegexNames | P_RegexEscape | P_CompressionCreate | P_TextPairsFromList
  | P_TextPairsToList | P_TextPairsIsEmpty | P_CryptoScramPassword => 1
  | P_RecordUpdate | P_ArraySet | P_ArrayPut | P_StringSubstring | P_BytesSlice
  | P_PathOperation | P_RegexFindText | P_RegexFindBytes | P_RegexTestText | P_RegexTestBytes
  | P_RegexSlice | P_CompressionStep | P_CryptoPbkdf2Sha256 => 3
  | _ => 2
  end.

(** The rows of [Prim::from_builtin]'s match, in order. *)
Definition builtin_table : list (string * Prim) :=
  [ ("intAnd", P_IntAnd) ;
    ("intOr", P_IntOr) ;
    ("intXor", P_IntXor) ;
    ("intShiftLeft", P_IntShl) ;
    ("intShiftRight", P_IntShr) ;
    ("intShiftRightLogical", P_IntShrLogical) ;
    ("intComplement", P_IntComplement) ;
    ("intToString", P_IntToString) ;
    ("floatToString", P_FloatToString) ;
    ("intToFloat", P_IntToFloat) ;
    ("floatToInt", P_FloatToInt) ;
    ("sqrt", P_Sqrt) ;
    ("floatFromBits", P_FloatFromBits) ;
    ("floatToBits", P_FloatToBits) ;
    ("charToString", P_CharToString) ;
    ("charToCode", P_CharToCode) ;
    ("charFromCode", P_CharFromCode) ;
    ("isValidCharCode", P_IsValidCharCode) ;
    ("stringLength", P_StringLength) ;
    ("toUpper", P_ToUpper) ;
    ("toLower", P_ToLower) ;
    ("trim", P_Trim) ;
    ("stringContains", P_StringContains) ;
    ("stringFind", P_StringFind) ;
    ("stringConcat", P_StrConcat) ;
    ("split", P_StringSplit) ;
    ("join", P_StringJoin) ;
    ("substring", P_StringSubstring) ;
    ("take", P_StringTake) ;
    ("drop", P_StringDrop) ;
    ("not", P_Not) ;
    ("compare", P_Compare) ;
    ("hash", P_Hash) ;
    ("arrayWithCapacity", P_ArrayWithCapacity) ;
    ("arrayRepeat", P_ArrayRepeat) ;
    ("arrayUnique", P_ArrayUnique) ;
    ("arrayLength", P_ArrayLength) ;
    ("arrayGet", P_ArrayGet) ;
    ("arraySet", P_ArraySet) ;
    ("arrayPush", P_ArrayPush) ;
    ("arraySplit", P_ArraySplit) ;
    ("arrayJoin", P_ArrayJoin) ;
    ("bytesLength", P_BytesLength) ;
    ("bytesGet", P_BytesGet) ;
    ("bytesFind", P_BytesFind) ;
    ("bytesFindUtf8", P_BytesFindUtf8) ;
    ("bytesSpan", P_BytesSpan) ;
    ("bytesConcat", P_BytesConcat) ;
    ("bytesConcatMany", P_BytesConcatMany) ;
    ("cryptoSha256", P_CryptoSha256) ;
    ("cryptoHmacSha256", P_CryptoHmacSha256) ;
    ("cryptoPbkdf2Sha256", P_CryptoPbkdf2Sha256) ;
    ("cryptoEqual", P_CryptoEqual) ;
    ("cryptoScramPassword", P_CryptoScramPassword) ;
    ("textGraphemes", P_TextGraphemes) ;
    ("textWidth", P_TextWidth) ;
    ("pathOperation", P_PathOperation) ;
    ("pathComponents", P_PathComponents) ;
    ("regexCompile", P_RegexCompile) ;
    ("regexFindText", P_RegexFindText) ;
    ("regexFindBytes", P_RegexFindBytes) ;
    ("regexTestText", P_RegexTestText) ;
    ("regexTestBytes", P_RegexTestBytes) ;
    ("regexNames", P_RegexNames) ;
    ("regexByteIndex", P_RegexByteIndex) ;
    ("regexSlice", P_RegexSlice) ;
    ("regexEscape", P_RegexEscape) ;
    ("compressionCreate", P_CompressionCreate) ;
    ("compressionStep", P_CompressionStep) ;
    ("textPairsFromList", P_TextPairsFromList) ;
    ("textPairsFromRanges", P_TextPairsFromRanges) ;
    ("textPairsToList", P_TextPairsToList) ;
    ("textPairsGet", P_TextPairsGet) ;
    ("textPairsGetAll", P_TextPairsGetAll) ;
    ("textPairsIsEmpty", P_TextPairsIsEmpty) ;
    ("textPairsRenderList", P_TextPairsRenderList) ;
    ("textPairsRenderRows", P_TextPairsRenderRows) ;
    ("bytesSlice", P_BytesSlice) ;
    ("bytesFromList", P_BytesFromList) ;
    ("bytesToList", P_BytesToList) ;
    ("bytesFromString", P_BytesFromString) ;
    ("bytesToString", P_BytesToString) ;
    ("bytesIsUtf8", P_BytesIsUtf8) ]%string.

(** The primitives [borrows_operand] lists. *)
Definition inspects_operand (p : Prim) : bool :=
  match p with
  | P_Eq | P_Compare | P_Hash | P_StringLength | P_StringContains | P_StringFind | P_ToUpper
  | P_ToLower | P_Trim | P_StringSplit | P_StringJoin | P_RegexSlice | P_TextPairsGet
  | P_TextPairsGetAll | P_TextPairsIsEmpty | P_TextPairsRenderList | P_TextPairsRenderRows
  | P_BytesLength | P_BytesGet | P_BytesFind | P_BytesFindUtf8 | P_BytesSpan | P_BytesIsUtf8
  | P_ArrayLength | P_ArrayGet | P_ArrayPeek | P_ArrayTake | P_ArraySplit | P_ArrayJoin => true
  | _ => false
  end.

(** [Prim::from_builtin]: the primitive a named builtin maps to. *)
Fixpoint lookup_builtin (name : string) (rows : list (string * Prim)) : option Prim :=
  match rows with
  | [] => None
  | (n, p) :: rows => if String.eqb name n then Some p else lookup_builtin name rows
  end.
Definition from_builtin (name : string) : option Prim := lookup_builtin name builtin_table.

(** [is_boxed_rc] and its inner [boxed_head]. *)
Fixpoint boxed_head (ty : Ty) : bool :=
  match ty with
  | Ty_Adt _ | Ty_Interface _ | Ty_Con Con_List | Ty_Con Con_Array => true
  | Ty_App head _ => boxed_head head
  | _ => false
  end.
Definition is_boxed_rc (ty : Ty) : bool :=
  match ty with
  | Ty_Record _ _ | Ty_Tuple _ | Ty_Con Con_String | Ty_Con Con_Bytes | Ty_Con Con_Float => true
  | _ => boxed_head ty
  end.

Definition is_ty_var (ty : Ty) : bool := match ty with Ty_Var _ => true | _ => false end.
Definition structural (p : Prim) : bool :=
  match p with P_Eq | P_Compare | P_Hash => true | _ => false end.
Definition is_data_peek (p : Prim) : bool := match p with P_DataPeek => true | _ => false end.

(** [Prim::borrows_operand] *)
Definition borrows_operand (p : Prim) (operand_ty : Ty) : bool :=
  if is_data_peek p then true
  else inspects_operand p && (is_boxed_rc operand_ty || (structural p && is_ty_var operand_ty)).

(** [Prim::borrows_argument] *)
Definition borrows_argument (p : Prim) (index : nat) (first_operand_ty : Ty) : bool :=
  borrows_operand p first_operand_ty &&
  match p with
  | P_BytesGet | P_RegexSlice => index =? 0
  | P_BytesFind | P_BytesFindUtf8 => index <? 2
  | P_BytesSpan => (index =? 0) || (index =? 3)
  | P_TextPairsRenderRows => (index <? 4) || (index =? 6)
  | _ => true
  end.

(** [Prim::native_result_symbol] *)
Definition native_result_symbol (p : Prim) (borrowed : bool) : option string :=
  match p with
  | P_RegexSlice =>
      Some (if borrowed then "fai_regex_slice_parts_borrowed" else "fai_regex_slice_parts")%string
  | _ => None
  end.

(** ** Expressions *)

(** [FnId], an index. *)
Abbreviation FnId := nat (only parsing).

(** [FieldIndex] *)
Inductive FieldIndex :=
| FI_Const (n : Z)
| FI_Dyn (base : Z) (evidence : LocalId).

(** [ClosureAlloc] *)
Inductive ClosureAlloc := Alloc_Static | Alloc_Stack | Alloc_Heap.

(** [CExpr] and [ExprKind] *)
Inductive CExpr :=
| CE (kind : ExprKind) (ty : Ty)
with ExprKind :=
| K_Lit (l : Lit)
| K_Local (x : LocalId)
| K_Global (def : DefId)
| K_Prim (op : Prim) (args : list CExpr)
| K_Foreign (symbol : string) (args : list CExpr) (marshalled : bool)
| K_App (func : CExpr) (args : list CExpr) (reuse : list (option LocalId)) (alloc : ClosureAlloc)
| K_If (cond thn els : CExpr)
| K_Let (local : LocalId) (value body : CExpr)
| K_Spread (components : list CExpr)
| K_LetMany (locals : list LocalId) (value body : CExpr)
| K_MakeClosure (func : FnId) (captures : list LocalId) (alloc : ClosureAlloc)
| K_MakeData (tag : Z) (args : list CExpr) (reuse : option LocalId) (scalars : Z)
    (niche : option NicheKind)
| K_DataTag (base : CExpr) (niche : option NicheKind)
| K_DataField (base : CExpr) (index : FieldIndex) (scalar : bool) (niche : option NicheKind)
| K_Reset (value : CExpr) (token : LocalId) (body : CExpr)
| K_FreeReuse (token : LocalId) (body : CExpr)
| K_Dup (local : LocalId) (body : CExpr)
| K_Drop (local : LocalId) (body : CExpr)
| K_Join (params : list LocalId) (body : CExpr)
| K_Recur (args : list CExpr)
| K_HoleStart (hole : LocalId) (body : CExpr)
| K_HoleFill (hole : LocalId) (cell : CExpr) (field : Z)
| K_HoleClose (hole : LocalId) (base : CExpr)
| K_Error.

Definition ce_kind (e : CExpr) : ExprKind := match e with CE k _ => k end.
Definition ce_ty (e : CExpr) : Ty := match e with CE _ t => t end.

(** [e_children] (fai-rc's [reuse_sig.rs]): the sub-expressions, in visiting order. *)
Definition e_children (e : CExpr) : list CExpr :=
  match ce_kind e with
  | K_Prim _ args | K_Foreign _ args _ | K_MakeData _ args _ _ _ | K_Recur args => args
  | K_App func args _ _ => func :: args
  | K_If cond thn els => [cond; thn; els]
  | K_Let _ value body | K_Reset value _ body | K_LetMany _ value body => [value; body]
  | K_Spread components => components
  | K_FreeReuse _ body | K_Dup _ body | K_Drop _ body | K_Join _ body | K_HoleStart _ body => [body]
  | K_DataTag base _ | K_HoleClose _ base => [base]
  | K_DataField base _ _ _ => [base]
  | K_HoleFill _ cell _ => [cell]
  | K_Local _ | K_Lit _ | K_Global _ | K_MakeClosure _ _ _ | K_Error => []
  end.

Section ExprInd.
Context (P : CExpr -> Prop).
Context (H : forall e, Forall P (e_children e) -> P e).

(** Induction on a Core tree: the hypothesis holds of every child. *)
Fixpoint CExpr_children_ind (e : CExpr) : P e :=
  let go := fix go (l : list CExpr) : Forall P l :=
    match l with
    | [] => List.Forall_nil _
    | a :: l => List.Forall_cons _ a l (CExpr_children_ind a) (go l)
    end in
  match e with
  | CE k t =>
      H (CE k t)
        match k as k return Forall P (e_children (CE k t)) with
        | K_Prim _ args | K_Foreign _ args _ | K_MakeData _ args _ _ _ | K_Recur args => go args
        | K_App func args _ _ =>
            List.Forall_cons _ func args (CExpr_children_ind func) (go args)
        | K_If c t e =>
            List.Forall_cons _ c _ (CExpr_children_ind c)
              (List.Forall_cons _ t _ (CExpr_children_ind t)
                (List.Forall_cons _ e _ (CExpr_children_ind e) (List.Forall_nil _)))
        | K_Let _ v b | K_Reset v _ b | K_LetMany _ v b =>
            List.Forall_cons _ v _ (CExpr_children_ind v)
              (List.Forall_cons _ b _ (CExpr_children_ind b) (List.Forall_nil _))
        | K_Spread components => go components
        | K_FreeReuse _ b | K_Dup _ b | K_Drop _ b | K_Join _ b | K_HoleStart _ b
        | K_DataTag b _ | K_HoleClose _ b | K_DataField b _ _ _ | K_HoleFill _ b _ =>
            List.Forall_cons _ b _ (CExpr_children_ind b) (List.Forall_nil _)
        | K_Local _ | K_Lit _ | K_Global _ | K_MakeClosure _ _ _ | K_Error => List.Forall_nil _
        end
  end.
End ExprInd.

(** ** Definitions *)

(** [CoreFn] *)
Record CoreFn := MkCoreFn { fn_params : list LocalId; fn_captures : list LocalId; fn_body : CExpr }.

(** [DataShape] *)
Record DataShape := MkDataShape {
  max_tag : Z;
  max_fields : Z;
  shape_scalars : Z;
  resource_free : bool;
  boxed_tag : option Z;
  immediate_tag : option Z;
  always_boxed : bool
}.

(** [LoweredDef]; [fns[0]] is the definition's entry. *)
Record LoweredDef := MkLoweredDef {
  ld_def : DefId;
  ld_fns : list CoreFn;
  entry_borrowed : list bool;
  reuse_entry : option CoreFn;
  entry_spread_params : list (option (list LocalId));
  data_shapes : list (list (LocalId * DataShape))
}.

(** [LoweredDef::entry], which indexes [fns[0]] and panics on an empty list. *)
Definition ld_entry (d : LoweredDef) : option CoreFn := head (ld_fns d).

(** [entry_param_borrowed], [borrows_any] *)
Definition entry_param_borrowed (d : LoweredDef) (i : nat) : bool := nth_flag (entry_borrowed d) i.
Definition borrows_any (d : LoweredDef) : bool := existsb id (entry_borrowed d).

(** [collect_globals] and [referenced_globals] *)
Fixpoint collect_globals (expr : CExpr) (out : list DefId) : list DefId :=
  match expr with
  | CE kind _ =>
      match kind with
      | K_Global def => out ++ [def]
      | K_Lit _ | K_Local _ | K_MakeClosure _ _ _ | K_Error => out
      | K_Prim _ args | K_Foreign _ args _ =>
          foldl (fun out a => collect_globals a out) out args
      | K_MakeData _ args _ _ _ => foldl (fun out a => collect_globals a out) out args
      | K_DataTag base _ => collect_globals base out
      | K_DataField base _ _ _ => collect_globals base out
      | K_App func args _ _ =>
          foldl (fun out a => collect_globals a out) (collect_globals func out) args
      | K_If cond thn els => collect_globals els (collect_globals thn (collect_globals cond out))
      | K_Let _ value body => collect_globals body (collect_globals value out)
      | K_Spread components => foldl (fun out c => collect_globals c out) out components
      | K_LetMany _ value body => collect_globals body (collect_globals value out)
      | K_Reset value _ body => collect_globals body (collect_globals value out)
      | K_FreeReuse _ body => collect_globals body out
      | K_Dup _ body | K_Drop _ body => collect_globals body out
      | K_Join _ body => collect_globals body out
      | K_Recur args => foldl (fun out a => collect_globals a out) out args
      | K_HoleStart _ body => collect_globals body out
      | K_HoleFill _ cell _ => collect_globals cell out
      | K_HoleClose _ base => collect_globals base out
      end
  end.
Definition referenced_globals (d : LoweredDef) : list DefId :=
  foldl (fun out f => collect_globals (fn_body f) out) [] (ld_fns d).

(** ** Bound signatures ([bounds.rs]) *)

Inductive PTerm := PT_Zero | PT_Param (i : Z) | PT_LenParam (i : Z).
Record BoundSig := MkBoundSig { bound_edges : list (PTerm * PTerm * Z) }.

Inductive RTerm := RT_Zero | RT_Param (i : Z) | RT_LenParam (i : Z) | RT_ResultVal (f : Z) | RT_ResultLen (f : Z).
Record ResultSig := MkResultSig { result_edges : list (RTerm * RTerm * Z) }.

(** * Properties *)

(** ** The primitive tables *)

Lemma all_prims_complete p : p ∈ all_prims.
Proof. apply list_elem_of_In. destruct p; vm_compute; tauto. Qed.

(** The compiler-internal primitives: no source name may reach them. *)
Definition internal_prim (p : Prim) : bool :=
  match p with
  | P_IntBox | P_RecordUpdate | P_ArrayPeek | P_DataPeek | P_ListReversePrefix | P_ArrayTake
  | P_ArrayPut | P_ArrayPushReserved => true
  | _ => false
  end.

Lemma lookup_builtin_Forall (Q : Prim -> Prop) rows name p :
  Forall (fun row => Q row.2) rows -> lookup_builtin name rows = Some p -> Q p.
Proof.
  induction 1 as [|[n q] rows Hq _ IH]; simpl; [done|].
  destruct (String.eqb name n); [intros [= <-]; exact Hq|exact IH].
Qed.

Definition is_push_reserved (p : Prim) : bool :=
  match p with P_ArrayPushReserved => true | _ => false end.

(** The runtime symbols, leaving out the one primitive that shares its symbol. *)
Lemma runtime_symbols_NoDup :
  NoDup (runtime_symbol <$> List.filter (fun p => negb (is_push_reserved p)) all_prims).
Proof. apply (bool_decide_unpack _). vm_compute. exact I. Qed.

(** Two primitives implemented by the same runtime function are the same primitive, the
    checked and the reserved array push apart. *)
Theorem runtime_symbol_injective p q :
  runtime_symbol p = runtime_symbol q ->
  p = q \/ (p = P_ArrayPush /\ q = P_ArrayPushReserved) \/ (p = P_ArrayPushReserved /\ q = P_ArrayPush).
Proof.
  intros H.
  assert (Hin : forall r, is_push_reserved r = false ->
    r ∈ List.filter (fun p => negb (is_push_reserved p)) all_prims).
  { intros r Hr. apply list_elem_of_In, filter_In. rewrite Hr.
    by split; [apply list_elem_of_In, all_prims_complete|]. }
  pose (canon r := if is_push_reserved r then P_ArrayPush else r).
  assert (Hc : canon p = canon q).
  { apply (table_injective runtime_symbol _ _ _ runtime_symbols_NoDup).
    - apply Hin. by destruct p.
    - apply Hin. by destruct q.
    - by transitivity (runtime_symbol p); [destruct p|rewrite H; destruct q]. }
  unfold canon in Hc.
  destruct (is_push_reserved p) eqn:Hp, (is_push_reserved q) eqn:Hq.
  - left. by destruct p, q.
  - right; right. by destruct p.
  - right; left. by destruct q.
  - by left.
Qed.

Lemma runtime_symbol_injective_witness :
  P_ArrayPush = P_ArrayPushReserved \/
  (P_ArrayPush = P_ArrayPush /\ P_ArrayPushReserved = P_ArrayPushReserved) \/
  (P_ArrayPush = P_ArrayPushReserved /\ P_ArrayPushReserved = P_ArrayPush).
Proof. apply (runtime_symbol_injective P_ArrayPush P_ArrayPushReserved). reflexivity. Defined.

(** Whenever the borrow classification lends a primitive's operand, code generation has
    a non-consuming runtime variant to call: exactly the listed inspectors and [DataPeek]
    have one. *)
Theorem borrowed_symbol_agrees p ty :
  (borrows_operand p ty = true -> is_Some (borrowed_runtime_symbol p)) /\
  (is_Some (borrowed_runtime_symbol p) <-> exists ty', borrows_operand p ty' = true).
Proof.
  assert (Hall : forall t, borrows_operand p t = true -> is_Some (borrowed_runtime_symbol p)).
  { intros t. destruct p; simpl; intros Ht; try done; eauto. }
  split; [apply Hall|]. split; [|intros [t Ht]; eauto].
  intros [s Hs]. exists (Ty_Con Con_String). by destruct p.
Qed.

(** No builtin name reaches a compiler-internal primitive, and a primitive that needs a
    proof of its own (a taken slot, reserved capacity, a borrowed slot) is never named by
    source text. *)
Theorem from_builtin_not_internal name p :
  from_builtin name = Some p -> internal_prim p = false.
Proof.
  apply (lookup_builtin_Forall (fun p => internal_prim p = false)).
  repeat constructor.
Qed.

Lemma from_builtin_not_internal_witness :
  from_builtin "arrayPush" = Some P_ArrayPush /\ internal_prim P_ArrayPush = false.
Proof.
  split; [reflexivity|]. apply (from_builtin_not_internal "arrayPush"). reflexivity.
Defined.

(** ** Field masks and aggregates *)

Lemma scalar_field_mask_from_spec i ts mask k :
  (0 <= k)%Z ->
  Z.testbit (scalar_field_mask_from i ts mask) k =
  Z.testbit mask k ||
  ((Z.of_nat i <=? k)%Z && (k <? 64)%Z &&
   match ts !! (Z.to_nat k - i) with Some t => is_float t | None => false end).
Proof.
  intros Hk. revert i mask.
  induction ts as [|t ts IH]; intros i mask; simpl; [by rewrite andb_false_r, orb_false_r|].
  rewrite IH. clear IH.
  destruct (Z.eq_dec k (Z.of_nat i)) as [->|Hne].
  - rewrite Nat2Z.id, Nat.sub_diag. simpl.
    replace (Z.of_nat (S i) <=? Z.of_nat i)%Z with false by (symmetry; apply Z.leb_gt; lia).
    rewrite Z.leb_refl. simpl. rewrite orb_false_r.
    destruct (Nat.ltb_spec i 64), (Z.ltb_spec (Z.of_nat i) 64); try lia; simpl; [|by rewrite orb_false_r].
    destruct (is_float t); [|by rewrite orb_false_r].
    by rewrite Z.lor_spec, Z.shiftl_spec, Z.sub_diag by lia.
  - assert (Hmask : Z.testbit
      (if (i <? 64) && is_float t then Z.lor mask (Z.shiftl 1 (Z.of_nat i)) else mask) k =
      Z.testbit mask k).
    { destruct ((i <? 64) && is_float t); [|done].
      rewrite Z.lor_spec, Z.shiftl_spec by lia.
      destruct (Z.lt_ge_cases k (Z.of_nat i)).
      - by rewrite (Z.testbit_neg_r 1) by lia; rewrite orb_false_r.
      - rewrite (Z.bits_above_log2 1) by (change (Z.log2 1) with 0%Z; lia). by rewrite orb_false_r. }
    rewrite Hmask.
    destruct (Z.leb_spec (Z.of_nat (S i)) k), (Z.leb_spec (Z.of_nat i) k); try lia; simpl; [|done].
    by replace (Z.to_nat k - i) with (S (Z.to_nat k - S i)) by lia.
Qed.

(** Bit [k] of a constructor's scalar mask is set exactly when [k < 64] and field [k] is
    declared [Float]; the mask fits 64 bits, so a 65th field never scalarizes. *)
Theorem scalar_field_mask_spec ts :
  (forall k : nat, Z.testbit (scalar_field_mask ts) (Z.of_nat k) =
     (k <? 64) && match ts !! k with Some t => is_float t | None => false end) /\
  (0 <= scalar_field_mask ts < 2 ^ 64)%Z.
Proof.
  unfold scalar_field_mask. split.
  - intros k. rewrite scalar_field_mask_from_spec, Z.bits_0, Nat2Z.id, Nat.sub_0_r by lia.
    replace (Z.of_nat 0 <=? Z.of_nat k)%Z with true by (symmetry; apply Z.leb_le; lia).
    replace (Z.of_nat k <? 64)%Z with (k <? 64); [done|].
    by destruct (Nat.ltb_spec k 64), (Z.ltb_spec (Z.of_nat k) 64); try lia.
  - assert (Hpos : forall i m, (0 <= m)%Z -> (0 <= scalar_field_mask_from i ts m)%Z).
    { induction ts as [|t ts' IH]; intros i m Hm; simpl; [done|]. apply IH.
      destruct (_ && _); [|done]. apply Z.lor_nonneg. split; [done|]. apply Z.shiftl_nonneg. lia. }
    split; [by apply Hpos|].
    assert (Hz : Z.shiftr (scalar_field_mask_from 0 ts 0) 64 = 0%Z).
    { apply Z.bits_inj'. intros n Hn.
      rewrite Z.shiftr_spec, scalar_field_mask_from_spec, !Z.bits_0 by lia.
      destruct (Z.ltb_spec (n + 64) 64); [lia|]. by rewrite andb_false_r; simpl; rewrite ?andb_false_l. }
    rewrite Z.shiftr_div_pow2 in Hz by lia.
    apply Z.div_small_iff in Hz; [|done].
    destruct Hz as [Hz|Hz]; [lia|]. specialize (Hpos 0 0%Z). lia.
Qed.

Lemma ffa_arity_bounds ty n : ffa_arity ty = Some n -> 1 <= n <= FFA_MAX_FIELDS.
Proof.
  destruct ty as [| | | | | | |elems|fields [|v]| |]; simpl; try done;
    destruct (forallb _ _); try done;
    destruct (length _) as [|m]; simpl; try done;
    destruct (m <=? 7) eqn:E; try done; intros [= <-];
    apply Nat.leb_le in E; unfold FFA_MAX_FIELDS; lia.
Qed.

(** ** Calling conventions *)

Lemma param_reprs_length niche n ty : length (param_reprs niche n ty).1 <= n.
Proof.
  revert ty. induction n as [|n IH]; intros ty; simpl; [done|].
  destruct ty; simpl; try lia.
  destruct (param_reprs niche n ty2) as [rs t] eqn:E. specialize (IH ty2).
  rewrite E in IH. simpl in *. lia.
Qed.

Lemma demote_uniform r : demote r = Repr_Uniform \/ demote r = r /\ register_only r = false.
Proof. unfold demote. destruct (register_only r) eqn:E; auto. Qed.

Lemma max_spread_return_le target : max_spread_return target <= FFA_MAX_FIELDS.
Proof. unfold max_spread_return, FFA_MAX_FIELDS. destruct (target_arch target), (target_windows target); lia. Qed.

(** The convention derived from a signature is well formed.  The register entry is taken
    exactly by a definition with a source parameter and no offset evidence; a uniform entry
    (reached through [apply_n]) keeps only uniform words and raw floats; there are at most
    evidence plus source parameters; and a spread result never exceeds the eight-component
    budget, nor the target's return registers unless a parameter already spreads on x86-64. *)
Theorem from_scheme_wf target scheme n niche :
  let abi := from_scheme target scheme n niche in
  register_abi abi = (evidence_count scheme =? 0) && (0 <? n) /\
  (register_abi abi = false ->
    Forall (fun r => register_only r = false) (abi_ret abi :: abi_params abi)) /\
  length (abi_params abi) <= evidence_count scheme + n /\
  (forall c, abi_ret abi = Repr_Spread c ->
    length c <= FFA_MAX_FIELDS /\
    (length c <= max_spread_return target \/
     target_arch target = X86_64 /\ existsb is_spread (abi_params abi) = true)).
Proof.
  unfold from_scheme.
  pose proof (param_reprs_length niche n (sch_ty scheme)) as Hlen.
  destruct (param_reprs niche n (sch_ty scheme)) as [source ty]. simpl in Hlen.
  set (params := replicate _ _ ++ source).
  assert (Hparams : length params <= evidence_count scheme + n).
  { unfold params. rewrite length_app, length_replicate. lia. }
  set (reg := (evidence_count scheme =? 0) && (0 <? n)).
  match goal with |- context [match ?r with Repr_Spread c => if ?b <? _ then _ else _ | _ => _ end] =>
    set (ret0 := r); set (budget := b) end.
  set (ret := match ret0 with Repr_Spread c => _ | _ => _ end).
  assert (Hret : forall c, ret = Repr_Spread c -> length c <= budget).
  { unfold ret. intros c. destruct ret0; try done.
    destruct (Nat.ltb_spec budget (length components)); [done|]. by intros [= ->]. }
  assert (Hdem : forall r, register_only (demote r) = false).
  { intros r. destruct (demote_uniform r) as [-> | [-> H]]; done. }
  destruct reg eqn:Hreg; simpl; (split_and!; [done| | |]); try done.
  - intros c Hc. apply Hret in Hc. unfold budget in Hc.
    destruct (target_arch target); simpl in *;
      pose proof (max_spread_return_le target); try (split; [lia|left; lia]).
    destruct (existsb is_spread params); split; auto; lia.
  - intros _. constructor; [apply Hdem|]. apply Forall_fmap, Forall_true. intros r. apply Hdem.
  - by rewrite length_fmap.
  - intros c Hc. destruct (demote_uniform ret) as [H|[H1 H2]]; [congruence|].
    rewrite Hc in H1. rewrite <- H1 in H2. done.
Qed.
