(* ===== verification/Niche.v ===== *)
(** * Type declarations and the niche representation of [Option]

    The summaries of fai-resolve's [decls.rs] and the classification of fai-core's
    [niche.rs].  A file's declarations are looked up by its source id; the lookups are the
    two queries the classification asks of the database.  A model of run-time words states
    what the classification is for: [None] is never the word of a payload. *)

From S2P Require Import Prelude Types Ir.
From stdpp Require Import gmap list strings.
From Stdlib Require Import ZArith Lia.

(** [Visibility] *)
Inductive Visibility := V_Public | V_Internal | V_Private.

(** [TypeDeclInfo] *)
Record TypeDeclInfo := MkTypeDecl {
  td_name : string; td_visibility : Visibility; td_opaque : bool; td_params : list string;
  td_item : nat; td_is_alias : bool; td_ctors : list string
}.

(** [CtorInfo] *)
Record CtorInfo := MkCtorInfo {
  ci_name : string; ci_adt : string; ci_tag : Z; ci_arity : nat; ci_variant_index : nat;
  ci_visibility : Visibility
}.

(** [TypeDecls], with [TypeDecls::type_named] and [TypeDecls::ctor]. *)
Record TypeDecls := MkTypeDecls {
  td_types : gmap string TypeDeclInfo; td_all_ctors : gmap string CtorInfo
}.
Definition type_named (d : TypeDecls) (name : string) : option TypeDeclInfo := td_types d !! name.
Definition ctor (d : TypeDecls) (name : string) : option CtorInfo := td_all_ctors d !! name.

(** What the classification asks the database: a file's declarations ([source_file], then
    [type_decls]) and the prelude's source. *)
Record Db := MkDb { db_decls : SourceId -> option TypeDecls; prelude_source : option SourceId }.

Section Niche.
Context (db : Db).

(** [option_application] *)
Definition option_application (ty : Ty) : option (AdtRef * Ty) :=
  match ty with
  | Ty_App (Ty_Adt adt) arg => Some (adt, arg)
  | _ => None
  end.

(** [adt_all_non_nullary] *)
Definition adt_all_non_nullary (adt : AdtRef) : bool :=
  match db_decls db (adt_file adt) with
  | None => false
  | Some decls =>
      match type_named decls (adt_name adt) with
      | None => false
      | Some info =>
          if td_is_alias info || bool_decide (td_ctors info = []) then false
          else forallb (fun c => match ctor decls c with Some ci => 1 <=? ci_arity ci | None => false end)
                 (td_ctors info)
      end
  end.

(** [boxed_head] *)
Fixpoint boxed_head (head : Ty) : bool :=
  match head with
  | Ty_Con Con_Array => true
  | Ty_Con Con_List => false
  | Ty_Adt adt => adt_all_non_nullary adt
  | Ty_App inner _ => boxed_head inner
  | _ => false
  end.

(** [always_boxed] *)
Definition always_boxed (payload : Ty) : bool :=
  match payload with
  | Ty_Con Con_String | Ty_Con Con_Bytes | Ty_Con Con_Array
  | Ty_Tuple _ | Ty_Interface _ | Ty_Arrow _ _ _ => true
  | Ty_Record fields _ => negb (bool_decide (fields = []))
  | Ty_Adt adt => adt_all_non_nullary adt
  | Ty_App head _ => boxed_head head
  | _ => false
  end.

(** [scheme_for] and [payload_scheme], which call each other on the payload. *)
Fixpoint scheme_for (ty : Ty) : option NicheKind :=
  match ty with
  | Ty_App (Ty_Adt adt) payload =>
      if negb (bool_decide (adt_name adt = "Option"%string))
         || negb (bool_decide (Some (adt_file adt) = prelude_source db))
      then None
      else
        match payload with
        | Ty_Var _ => Some Niche_B
        | Ty_Con Con_Float | Ty_Error | Ty_EffectArg _ => None
        | _ =>
            match scheme_for payload with
            | Some _ => None
            | None => if always_boxed payload then Some Niche_A else Some Niche_B
            end
        end
  | _ => None
  end.

(** [payload_scheme] *)
Definition payload_scheme (payload : Ty) : option NicheKind :=
  match payload with
  | Ty_Var _ => Some Niche_B
  | Ty_Con Con_Float | Ty_Error | Ty_EffectArg _ => None
  | _ =>
      match scheme_for payload with
      | Some _ => None
      | None => if always_boxed payload then Some Niche_A else Some Niche_B
      end
  end.

(** [niche_scheme] *)
Definition niche_scheme (ty : Ty) : option NicheKind := scheme_for ty.

(** The recursion in the shape of the source. *)
Lemma scheme_for_eq ty :
  scheme_for ty =
  match option_application ty with
  | Some (adt, payload) =>
      if negb (bool_decide (adt_name adt = "Option"%string))
         || negb (bool_decide (Some (adt_file adt) = prelude_source db))
      then None else payload_scheme payload
  | None => None
  end.
Proof. destruct ty as [| | | | |[] payload| | | | |]; done. Qed.

(** ** Run-time words *)

(** A value is one word: an immediate [2n+1], the address of a cell, or the global sentinel. *)
Inductive Word := Imm (n : Z) | Cell (address : Z) | Sentinel.

Definition is_cell (w : Word) : bool := match w with Cell _ => true | _ => false end.

(** The word of [None] under each scheme: the immediate that encodes zero, or the sentinel. *)
Definition none_word (k : NicheKind) : Word :=
  match k with Niche_A => Imm 0 | Niche_B => Sentinel end.

(** The head of an application spine. *)
Fixpoint ty_head (ty : Ty) : Ty := match ty with Ty_App h _ => ty_head h | _ => ty end.

(** The words a value of a type can be.  A union's value is an immediate for a nullary
    constructor and a cell for any other; a niche [Option] is its payload's word or its
    [None]; a value at a type variable is in the standard representation. *)
Inductive word_of : Ty -> Word -> Prop :=
| Word_immediate ty n : ty ∈ [Ty_Con Con_Int; Ty_Con Con_Bool; Ty_Con Con_Char; Ty_Unit] -> word_of ty (Imm n)
| Word_string a : word_of (Ty_Con Con_String) (Cell a)
| Word_bytes a : word_of (Ty_Con Con_Bytes) (Cell a)
| Word_float a : word_of (Ty_Con Con_Float) (Cell a)
| Word_tuple ts a : word_of (Ty_Tuple ts) (Cell a)
| Word_interface i a : word_of (Ty_Interface i) (Cell a)
| Word_applied_interface h arg i a : ty_head h = Ty_Interface i -> word_of (Ty_App h arg) (Cell a)
| Word_arrow f t e a : word_of (Ty_Arrow f t e) (Cell a)
| Word_record fs tl a : fs ≠ [] -> word_of (Ty_Record fs tl) (Cell a)
| Word_empty_record tl n : word_of (Ty_Record [] tl) (Imm n)
| Word_array ty a : ty_head ty = Ty_Con Con_Array -> word_of ty (Cell a)
| Word_nil ty n : ty_head ty = Ty_Con Con_List -> word_of ty (Imm n)
| Word_cons ty a : ty_head ty = Ty_Con Con_List -> word_of ty (Cell a)
| Word_var_imm v n : word_of (Ty_Var v) (Imm n)
| Word_var_cell v a : word_of (Ty_Var v) (Cell a)
| Word_union ty adt decls info c ci w :
    ty_head ty = Ty_Adt adt -> niche_scheme ty = None ->
    db_decls db (adt_file adt) = Some decls -> type_named decls (adt_name adt) = Some info ->
    td_is_alias info = false -> c ∈ td_ctors info -> ctor decls c = Some ci ->
    (if ci_arity ci =? 0 then w = Imm (ci_tag ci) else exists a, w = Cell a) ->
    word_of ty w
| Word_niche_none ty k : niche_scheme ty = Some k -> word_of ty (none_word k)
| Word_niche_some ty k adt payload w :
    niche_scheme ty = Some k -> option_application ty = Some (adt, payload) ->
    word_of payload w -> word_of ty w.

(** ** Facts *)

(** Outside a niche [Option], no value is the sentinel. *)
Lemma word_not_sentinel ty w : word_of ty w -> niche_scheme ty = None -> w ≠ Sentinel.
Proof.
  destruct 1; try done; intros Hn.
  - case_match; [by subst|naive_solver].
  - congruence.
  - congruence.
Qed.

Lemma non_nullary_cell adt decls info c ci :
  adt_all_non_nullary adt = true ->
  db_decls db (adt_file adt) = Some decls -> type_named decls (adt_name adt) = Some info ->
  c ∈ td_ctors info -> ctor decls c = Some ci -> (ci_arity ci =? 0) = false.
Proof.
  unfold adt_all_non_nullary. intros H Hd Ht Hc Hi. rewrite Hd, Ht in H.
  destruct (_ || _); [done|]. rewrite forallb_forall in H. apply list_elem_of_In, H in Hc.
  rewrite Hi in Hc. apply Nat.leb_le in Hc. apply Nat.eqb_neq. lia.
Qed.

Lemma boxed_head_cases h :
  boxed_head h = true ->
  (ty_head h = Ty_Con Con_Array) ∨ (exists adt, ty_head h = Ty_Adt adt ∧ adt_all_non_nullary adt = true).
Proof.
  induction h as [|c|adt| | |h a IH _| | | | |] using Ty_nested_ind; try done; simpl.
  - destruct c; try done. by left.
  - intros H. right. by exists adt.
Qed.

(** An always-boxed type's values are cells. *)
Lemma always_boxed_cell ty w :
  always_boxed ty = true -> niche_scheme ty = None -> word_of ty w -> is_cell w = true.
Proof.
  intros Hb Hn Hw. revert Hb Hn.
  cut ((forall h a, ty = Ty_App h a -> always_boxed ty = true -> ty_head ty = Ty_Con Con_Array ∨
    exists adt, ty_head ty = Ty_Adt adt ∧ adt_all_non_nullary adt = true) ->
    always_boxed ty = true -> niche_scheme ty = None -> is_cell w = true).
  { intros H Hb. apply H; [|done]. intros h a -> Hb'. by apply boxed_head_cases in Hb'. }
  destruct Hw as [ty n Hi| | | | | | | | | |ty a Ha|ty n Hl|ty a Hl| | |ty adt decls info c ci w Ht _ Hd Hi Hal Hc Hc' Hw
    |ty k Hk|ty k adt p w Hk]; try done; intros Hh Hb Hn; try congruence.
  - rewrite !elem_of_cons in Hi. by destruct Hi as [->|[->|[->|[->|Hi%elem_of_nil]]]].
  - destruct ty as [| | | | |h a| | | | |]; try done; simpl in Hl; [by injection Hl as ->|].
    destruct (Hh h a eq_refl Hb) as [H|(adt & H & _)]; simpl in H; congruence.
  - assert (Hz : (ci_arity ci =? 0) = false).
    { assert (adt_all_non_nullary adt = true) as Hall.
      { destruct ty as [| | | | |h a| | | | |]; try done; simpl in Ht; [by simplify_eq|].
        destruct (Hh h a eq_refl Hb) as [H|(adt' & H & Hall)]; simpl in H; simplify_eq; congruence. }
      by eapply non_nullary_cell. }
    rewrite Hz in Hw. by destruct Hw as [a ->].
Qed.
End Niche.

(** C33: [None] is never mistaken for a payload.  When [niche_scheme] gives an [Option] the
    wrapper-free representation, the word that stands for [None] under the scheme is the word
    of no value of the payload type, so testing for it decides which of the two a word is. *)
Theorem niche_sound db ty k adt payload w :
  niche_scheme db ty = Some k -> option_application ty = Some (adt, payload) ->
  word_of db payload w -> w ≠ none_word k.
Proof.
  unfold niche_scheme. intros Hk Ho Hw. rewrite scheme_for_eq, Ho in Hk.
  destruct (_ || _); [done|]. unfold payload_scheme in Hk.
  assert (Hs : forall k, (match scheme_for db payload with Some _ => None
      | None => if always_boxed db payload then Some Niche_A else Some Niche_B end = Some k) ->
    w ≠ none_word k).
  { intros k' Hs. destruct (scheme_for db payload) eqn:E; [done|].
    destruct (always_boxed db payload) eqn:Hb; injection Hs as <-.
    - pose proof (always_boxed_cell db payload w Hb E Hw). by destruct w.
    - by apply (word_not_sentinel db payload). }
  destruct payload as [|[]| | | | | | | | |]; try (by apply Hs); try done; injection Hk as <-;
    inversion Hw; subst; done.
Qed.

Lemma niche_sound_witness :
  let db := MkDb (fun _ => None) (Some 0) in
  niche_scheme db (Ty_App (Ty_Adt (MkAdtRef 0 "Option")) (Ty_Con Con_String)) = Some Niche_A ∧
  Cell 8 ≠ none_word Niche_A.
Proof.
  split; [reflexivity|].
  apply (niche_sound (MkDb (fun _ => None) (Some 0))
    (Ty_App (Ty_Adt (MkAdtRef 0 "Option")) (Ty_Con Con_String)) Niche_A (MkAdtRef 0 "Option") (Ty_Con Con_String));
    [reflexivity|reflexivity|apply Word_string].
Defined.
