(* ===== verification/Scc.v ===== *)
(** * Components of mutually dependent definitions

    fai-resolve's [scc.rs]: Tarjan's algorithm, the components inference works on, and the
    recursive definitions of a file.  [deps_of] is what the resolution of the file's bodies
    says a definition refers to; a hash map yields its keys in an order [ks] it is given. *)

From S2P Require Import Prelude Ordered Types Niche.
From stdpp Require Import gmap list strings sorting.

(** [DefInfo] of [module.rs]; an [ItemId] is its index. *)
Record DefInfo := MkDefInfo {
  di_name : string; di_visibility : Visibility; di_signature : option nat; di_binding : nat }.

Record Scc := MkScc { members : list DefId }.
Record ModuleSccs := MkModuleSccs { sccs : list Scc; index_of : gmap DefId nat }.

#[export] Instance Scc_eq_dec : EqDecision Scc.
Proof. solve_decision. Defined.

(** [a.name.as_str().cmp(b.name.as_str())] *)
Definition name_le : relation DefId := fun a b => String.le (def_name a) (def_name b).
#[export] Instance name_le_dec : RelDecision name_le.
Proof. intros a b. unfold name_le. apply _. Defined.

(** ** Tarjan's algorithm *)

(** The top of [stack] is its head. *)
Record Tarjan := MkTarjan {
  next_index : nat; indices : gmap DefId nat; lowlink : gmap DefId nat;
  on_stack : gset DefId; stack : list DefId; components : list (list DefId) }.

(** [Tarjan::new] *)
Definition new_tarjan : Tarjan := MkTarjan 0 ∅ ∅ ∅ [] [].

(** The loop that pops the stack down to [v]: what it popped, and the rest. *)
Fixpoint pop_to (v : DefId) (st : list DefId) : option (list DefId * list DefId) :=
  match st with
  | [] => None
  | w :: st => if decide (w = v) then Some ([w], st) else r ← pop_to v st; Some (w :: r.1, r.2)
  end.

Section Connect.
Context (graph : gmap DefId (list DefId)).

Definition enter (v : DefId) : SR Tarjan () := modify (fun s =>
  MkTarjan (S (next_index s)) (<[v := next_index s]> (indices s)) (<[v := next_index s]> (lowlink s))
    ({[v]} ∪ on_stack s) (v :: stack s) (components s)).

Definition low_of (v : DefId) : SR Tarjan nat := asks (fun s => unwrap (lowlink s !! v)).
Definition index_at (v : DefId) : SR Tarjan nat := asks (fun s => unwrap (indices s !! v)).

Definition lower (v : DefId) (low : nat) : SR Tarjan () :=
  low_v ← low_of v;
  modify (fun s => MkTarjan (next_index s) (indices s) (<[v := low_v `min` low]> (lowlink s))
    (on_stack s) (stack s) (components s)).

Definition close (v : DefId) : SR Tarjan () := fun s =>
  match pop_to v (stack s) with
  | Some (component, rest) =>
      Done ((), MkTarjan (next_index s) (indices s) (lowlink s)
        (on_stack s ∖ list_to_set component) rest (components s ++ [component]))
  | None => Panicked
  end.

(** One edge from [v], over the recursive call. *)
Definition follow_edge (connect : DefId -> SR Tarjan ()) (v w : DefId) : SR Tarjan () :=
  seen ← asks (fun s => Done (indices s !! w));
  match seen with
  | None => _ ← connect w; low_w ← low_of w; lower v low_w
  | Some idx_w =>
      active ← asks (fun s => Done (bool_decide (w ∈ on_stack s)));
      if active : bool then lower v idx_w else mret ()
  end.

(** [connect] *)
Fixpoint connect (fuel : nat) (v : DefId) : SR Tarjan () :=
  match fuel with
  | 0 => fun _ => Exhausted
  | S fuel =>
      _ ← enter v;
      _ ← match graph !! v with
          | Some edges => for_each (follow_edge (connect fuel) v) edges
          | None => mret ()
          end;
      low_v ← low_of v;
      idx_v ← index_at v;
      if decide (low_v = idx_v) then close v else mret ()
  end.

(** The loop over the nodes of the graph. *)
Definition connect_new (fuel : nat) (node : DefId) : SR Tarjan () :=
  seen ← asks (fun s => Done (indices s !! node));
  match seen with None => connect fuel node | Some _ => mret () end.
Definition connect_all (fuel : nat) (ks : list DefId) : SR Tarjan () := for_each (connect_new fuel) ks.

(** [tarjan.components] after it. *)
Definition tarjan_components (fuel : nat) (ks : list DefId) : run (list (list DefId)) :=
  out ← connect_all fuel ks new_tarjan;
  Done (components out.2).
End Connect.

(** ** The graphs *)

Section Module.
Context (file : SourceId) (defs : list DefInfo) (deps_of : DefId -> list DefId).

Definition def_id (d : DefInfo) : DefId := MkDefId file (di_name d).

(** [sigless] *)
Definition sigless : gset DefId :=
  list_to_set (def_id <$> filter (fun d => di_signature d = None) defs).

Definition edges_to (keep : DefId -> bool) (node : DefId) : list DefId :=
  dedup_by (sort_by name_le (filter keep (deps_of node))).

(** [def_deps] *)
Definition def_deps : gmap DefId (list DefId) :=
  set_to_map (fun node =>
    (node, edges_to (fun target => bool_decide (target ≠ node) && bool_decide (target ∈ sigless)) node)) sigless.

(** The first member's name, or the empty text. *)
Definition first_name (s : Scc) : string :=
  match members s with d :: _ => def_name d | [] => "" end.
Definition first_le : relation Scc := fun a b => String.le (first_name a) (first_name b).
#[export] Instance first_le_dec : RelDecision first_le.
Proof. intros a b. unfold first_le. apply _. Defined.

(** [index_of] *)
Definition index_members (i : nat) (ms : list DefId) (m : gmap DefId nat) : gmap DefId nat :=
  foldl (fun m member => <[member := i]> m) m ms.
Fixpoint index_from (i : nat) (ss : list Scc) (m : gmap DefId nat) : gmap DefId nat :=
  match ss with
  | [] => m
  | s :: ss => index_from (S i) ss (index_members i (members s) m)
  end.

(** The components of signatured bindings. *)
Definition signatured : list Scc :=
  (fun d => MkScc [def_id d]) <$> filter (fun d => di_signature d ≠ None) defs.

(** [module_sccs] *)
Definition module_sccs (fuel : nat) (ks : list DefId) : run ModuleSccs :=
  cs ← tarjan_components def_deps fuel ks;
  let ss := sort_by first_le ((MkScc ∘ sort_by name_le <$> cs) ++ signatured) in
  Done (MkModuleSccs ss (index_from 0 ss ∅)).

(** [ModuleSccs::scc_of] *)
Definition scc_of (r : ModuleSccs) (def : DefId) : run (option Scc) :=
  match index_of r !! def with
  | Some i => s ← unwrap (sccs r !! i); Done (Some s)
  | None => Done None
  end.

(** ** Recursion *)

Definition nodes : gset DefId := list_to_set (def_id <$> defs).

(** The graph of [recursive_defs], self-edges kept. *)
Definition reference_graph : gmap DefId (list DefId) :=
  set_to_map (fun node => (node, edges_to (fun target => bool_decide (target ∈ nodes)) node)) nodes.

Definition self_loops : gset DefId :=
  filter (fun node => node ∈ deps_of node) nodes.

(** [recursive_defs] *)
Definition recursive_defs (fuel : nat) (ks : list DefId) : run (gset DefId) :=
  cs ← tarjan_components reference_graph fuel (sort_by name_le ks);
  Done (foldl (fun acc c => if 1 <? length c then acc ∪ list_to_set c else acc) self_loops cs).
End Module.

(** [a] and [b] call each other, [c] calls [a] and itself, [d] has a signature. *)
Module Example_file.
Definition def (n : string) (signature : option nat) : DefInfo := MkDefInfo n V_Private signature 0.
Definition defs := [def "d" (Some 0); def "c" None; def "b" None; def "a" None].
Definition id (n : string) : DefId := MkDefId 0 n.
Definition deps_of (d : DefId) : list DefId :=
  if decide (d = id "a") then [id "b"]
  else if decide (d = id "b") then [id "d"; id "a"; id "a"]
  else if decide (d = id "c") then [id "c"; id "a"] else [id "c"].
Definition ks := [id "c"; id "a"; id "b"].
End Example_file.
