(* ===== verification/SccSound.v ===== *)
(** * Tarjan's algorithm finds the strongly connected components

    [connect] of fai-resolve's [scc.rs], with fuel for every node not seen yet, returns without
    a panic; the components it closes are the classes of mutual reachability.  The proof keeps
    the nodes whose calls are active, the gray ones, as ghost state. *)

From S2P Require Import Prelude Ordered Types Niche Scc.
From stdpp Require Import gmap list strings sorting relations.
From Stdlib Require Import Lia.

Section Tarjan.
Context (graph : gmap DefId (list DefId)).

Definition edge (v w : DefId) : Prop := exists es, graph !! v = Some es /\ w ∈ es.
Definition mutual (v w : DefId) : Prop := rtc edge v w /\ rtc edge w v.
Context (closed : forall v w, edge v w -> is_Some (graph !! w)).

Definition seen (s : Tarjan) (x : DefId) : Prop := is_Some (indices s !! x).
Definition idx (s : Tarjan) (x : DefId) : nat := default 0 (indices s !! x).
Definition popped (s : Tarjan) : list DefId := concat (components s).

(** Between two edges, with the calls of [gray] active. *)
Record inv (gray : gset DefId) (s : Tarjan) : Prop := {
  inv_on : forall x, x ∈ on_stack s ↔ x ∈ stack s;
  inv_seen : forall x, seen s x ↔ x ∈ stack s \/ x ∈ popped s;
  inv_once : NoDup (stack s ++ popped s);
  inv_sorted : StronglySorted (fun x y => idx s y < idx s x) (stack s);
  inv_next : forall x, seen s x -> idx s x < next_index s;
  inv_nodes : forall x, seen s x -> is_Some (graph !! x);
  inv_gray : forall g, g ∈ gray -> g ∈ stack s;
  inv_black : forall x y, seen s x -> x ∉ gray -> edge x y -> seen s y;
  inv_popped : forall x y, x ∈ popped s -> edge x y -> y ∈ popped s;
  inv_from : forall g x, g ∈ gray -> x ∈ stack s -> idx s g <= idx s x -> rtc edge g x;
  inv_to : forall x, x ∈ stack s -> exists g, g ∈ gray /\ idx s g <= idx s x /\ rtc edge x g;
  inv_classes : forall c, c ∈ components s ->
    c ≠ [] /\ forall x, x ∈ c -> forall y, y ∈ c ↔ mutual x y }.

(** A later state: [fresh] is what it has on top of the stack, and the nodes seen before keep
    their numbers. *)
Record ext (fresh : list DefId) (s s' : Tarjan) : Prop := {
  ext_stack : stack s' = fresh ++ stack s;
  ext_old : forall x, seen s x -> indices s' !! x = indices s !! x /\ lowlink s' !! x = lowlink s !! x;
  ext_next : next_index s <= next_index s';
  ext_popped : forall x, x ∈ popped s -> x ∈ popped s' }.

(** What is left to see. *)
Definition unseen (s : Tarjan) : nat := size (dom graph ∖ dom (indices s)).

Lemma seen_dom s x : seen s x ↔ x ∈ dom (indices s).
Proof. unfold seen. by rewrite elem_of_dom. Qed.

Lemma ext_seen fresh s s' x : ext fresh s s' -> seen s x -> seen s' x.
Proof. intros E Hx. unfold seen. by rewrite (proj1 (ext_old _ _ _ E x Hx)). Qed.

Lemma ext_idx fresh s s' x : ext fresh s s' -> seen s x -> idx s' x = idx s x.
Proof. intros E Hx. unfold idx. by rewrite (proj1 (ext_old _ _ _ E x Hx)). Qed.

Lemma ext_unseen fresh s s' : ext fresh s s' -> unseen s' <= unseen s.
Proof.
  intros E. unfold unseen. apply subseteq_size. intros x. rewrite !elem_of_difference, <- !seen_dom.
  intros [??]. split; [done|]. intros Hx. by apply (ext_seen _ _ _ _ E) in Hx.
Qed.

Lemma ext_trans f1 f2 s1 s2 s3 : ext f1 s1 s2 -> ext f2 s2 s3 -> ext (f2 ++ f1) s1 s3.
Proof.
  intros E1 E2. split.
  - rewrite (ext_stack _ _ _ E2), (ext_stack _ _ _ E1). apply app_assoc.
  - intros x Hx. destruct (ext_old _ _ _ E1 x Hx) as [H1 H2].
    destruct (ext_old _ _ _ E2 x) as [H3 H4]; [by eapply ext_seen|]. by rewrite H3, H4.
  - pose proof (ext_next _ _ _ E1). pose proof (ext_next _ _ _ E2). lia.
  - intros x Hx. by apply (ext_popped _ _ _ E2), (ext_popped _ _ _ E1).
Qed.

(** The state after [enter]. *)
Definition entered (v : DefId) (s : Tarjan) : Tarjan :=
  MkTarjan (S (next_index s)) (<[v := next_index s]> (indices s)) (<[v := next_index s]> (lowlink s))
    ({[v]} ∪ on_stack s) (v :: stack s) (components s).

Definition low (s : Tarjan) (v : DefId) (l : nat) : Tarjan :=
  MkTarjan (next_index s) (indices s) (<[v := l]> (lowlink s)) (on_stack s) (stack s) (components s).

Lemma seen_entered v s x : seen (entered v s) x ↔ x = v \/ seen s x.
Proof.
  unfold seen, entered; simpl. destruct (decide (x = v)) as [->|Hne].
  - rewrite lookup_insert_eq. split; [tauto|done].
  - rewrite lookup_insert_ne by done. naive_solver.
Qed.

Lemma idx_entered_ne v s x : x ≠ v -> idx (entered v s) x = idx s x.
Proof. intros. unfold idx, entered; simpl. by rewrite lookup_insert_ne. Qed.
Lemma idx_entered v s : idx (entered v s) v = next_index s.
Proof. unfold idx, entered; simpl. by rewrite lookup_insert_eq. Qed.

Lemma inv_low gray s v l : inv gray s -> inv gray (low s v l).
Proof. by intros []. Qed.

Lemma sorted_weaken (R R' : relation DefId) xs :
  (forall x y, x ∈ xs -> y ∈ xs -> R x y -> R' x y) -> StronglySorted R xs -> StronglySorted R' xs.
Proof.
  intros HR Hs. induction Hs as [|x xs Hs IH Hx]; [constructor|]. constructor.
  - apply IH. intros a b Ha Hb. by apply HR; right.
  - rewrite list.Forall_forall in Hx |- *. intros y Hy. apply HR; [left|by right|by apply Hx].
Qed.

Lemma inv_stack_seen gray s x : inv gray s -> x ∈ stack s -> seen s x.
Proof. intros I Hx. apply (inv_seen _ _ I). by left. Qed.

Lemma inv_entered gray s v :
  inv gray s -> ~ seen s v -> is_Some (graph !! v) -> (forall g, g ∈ gray -> rtc edge g v) ->
  inv ({[v]} ∪ gray) (entered v s).
Proof.
  intros I Hv Hn Hg.
  assert (v ∉ stack s) as Hst by (intros H; by apply Hv, (inv_seen _ _ I); left).
  assert (v ∉ popped s) as Hpo by (intros H; by apply Hv, (inv_seen _ _ I); right).
  assert (forall x, x ∈ stack s -> idx (entered v s) x = idx s x) as Hidx
    by (intros x Hx; apply idx_entered_ne; by intros ->).
  assert (forall x, x ∈ stack s -> idx s x < next_index s) as Hlt
    by (intros x Hx; by apply (inv_next _ _ I), (inv_stack_seen _ _ _ I)).
  split.
  - intros x. simpl. rewrite elem_of_union, elem_of_singleton, elem_of_cons. by rewrite (inv_on _ _ I).
  - intros x. rewrite seen_entered, (inv_seen _ _ I x). simpl. rewrite elem_of_cons.
    change (popped (entered v s)) with (popped s). tauto.
  - simpl. constructor; [|apply (inv_once _ _ I)]. by intros [?|?]%elem_of_app.
  - simpl. constructor.
    + eapply sorted_weaken, (inv_sorted _ _ I). intros x y Hx Hy. simpl. by rewrite !Hidx.
    + rewrite list.Forall_forall. intros x Hx. rewrite idx_entered, Hidx by done. by apply Hlt.
  - intros x [->|Hx]%seen_entered; simpl; [rewrite idx_entered; lia|].
    rewrite idx_entered_ne by (by intros ->). apply (inv_next _ _ I) in Hx. lia.
  - intros x [->|Hx]%seen_entered; [done|by apply (inv_nodes _ _ I)].
  - simpl. intros g [ ->%elem_of_singleton|Hgr]%elem_of_union; [left|]. right. by apply (inv_gray _ _ I).
  - intros x y Hx Hxg He. apply seen_entered. right. apply seen_entered in Hx as [->|Hx]; [set_solver|].
    apply (inv_black _ _ I x); [done|set_solver|done].
  - apply (inv_popped _ _ I).
  - simpl. intros g x Hgr Hx Hle. apply elem_of_cons in Hx as [->|Hx].
    + apply elem_of_union in Hgr as [ ->%elem_of_singleton|Hgr]; [apply rtc_refl|by apply Hg].
    + rewrite (Hidx x Hx) in Hle. apply Hlt in Hx as Hxl.
      apply elem_of_union in Hgr as [ ->%elem_of_singleton|Hgr]; [rewrite idx_entered in Hle; lia|].
      rewrite Hidx in Hle by (by apply (inv_gray _ _ I)). by apply (inv_from _ _ I).
  - simpl. intros x [->|Hx]%elem_of_cons.
    + exists v. split; [set_solver|]. split; [done|apply rtc_refl].
    + destruct (inv_to _ _ I x Hx) as (g & Hgr & Hle & Hr). exists g. split; [set_solver|].
      rewrite !Hidx by (done || by apply (inv_gray _ _ I)). done.
  - apply (inv_classes _ _ I).
Qed.

(** ** The edges of a node *)

(** After the edges [es] of [v], entered from [s0]: [fresh] is on top of [v], and [l] is its
    low link so far. *)
Record walking (gray : gset DefId) (s0 : Tarjan) (v : DefId) (es : list DefId) (s : Tarjan) : Prop := {
  wk_inv : inv ({[v]} ∪ gray) s;
  wk_ext : exists fresh, ext (fresh ++ [v]) s0 s /\
    exists l, lowlink s !! v = Some l /\ l <= next_index s0 /\
      (exists y, y ∈ stack s /\ idx s y = l /\ rtc edge v y) /\
      (forall x y, x ∈ fresh -> edge x y -> y ∈ stack s0 -> l <= idx s y) /\
      (forall y, y ∈ es -> y ∈ stack s0 -> l <= idx s y);
  wk_index : indices s !! v = Some (next_index s0);
  wk_seen : forall y, y ∈ es -> seen s y }.

(** What a call of [connect] on [v] does. *)
Record connected (gray : gset DefId) (s0 : Tarjan) (v : DefId) (s : Tarjan) : Prop := {
  cn_inv : inv gray s;
  cn_seen : seen s v;
  cn_ext : exists fresh, ext fresh s0 s /\
    exists l, lowlink s !! v = Some l /\
      (forall x y, x ∈ fresh -> edge x y -> y ∈ stack s0 -> l <= idx s y) /\
      ((fresh = [] /\ l = next_index s0) \/
       (l < next_index s0 /\ exists y, y ∈ stack s0 /\ idx s y = l /\ rtc edge v y)) }.

Lemma walking_start gray s v :
  inv gray s -> ~ seen s v -> is_Some (graph !! v) -> (forall g, g ∈ gray -> rtc edge g v) ->
  walking gray s v [] (entered v s).
Proof.
  intros I Hv Hn Hg. split.
  - by apply inv_entered.
  - exists []. split.
    { split; simpl; [done| |lia|done]. intros x Hx. assert (v ≠ x) by (by intros ->).
      by rewrite !lookup_insert_ne. }
    exists (next_index s). simpl. rewrite lookup_insert_eq. repeat split; [lia| |set_solver..].
    exists v. rewrite idx_entered. repeat split; [left|apply rtc_refl].
  - simpl. apply lookup_insert_eq.
  - set_solver.
Qed.

(** Lowering the link of [v] to the number of a node on the stack it reaches by the edge [w]. *)
Lemma walking_lower gray s0 v es w s fresh l m :
  inv ({[v]} ∪ gray) s -> inv gray s0 -> ext (fresh ++ [v]) s0 s ->
  lowlink s !! v = Some l -> l <= next_index s0 -> indices s !! v = Some (next_index s0) ->
  ~ seen s0 v -> seen s w ->
  (exists y, y ∈ stack s /\ idx s y = l `min` m /\ rtc edge v y) ->
  (forall x y, x ∈ fresh -> edge x y -> y ∈ stack s0 -> l `min` m <= idx s y) ->
  (forall y, y ∈ es ++ [w] -> y ∈ stack s0 -> l `min` m <= idx s y) ->
  (forall y, y ∈ es -> seen s y) ->
  walking gray s0 v (es ++ [w]) (low s v (l `min` m)).
Proof.
  intros I I0 E Hl Hle Hidx Hv Hw Hy Hfresh Hes Hseen. split.
  - by apply inv_low.
  - exists fresh. split.
    + split; simpl; [apply (ext_stack _ _ _ E)| |apply (ext_next _ _ _ E)|apply (ext_popped _ _ _ E)].
      intros x Hx. assert (v ≠ x) by (by intros ->). rewrite lookup_insert_ne by done.
      by apply (ext_old _ _ _ E).
    + exists (l `min` m). simpl. rewrite lookup_insert_eq. repeat split; try done. lia.
  - done.
  - intros y [Hin| ->%list_elem_of_singleton]%elem_of_app; [by apply Hseen|done].
Qed.

Lemma idx_lt_next gray s x : inv gray s -> x ∈ stack s -> idx s x < next_index s.
Proof. intros I Hx. by apply (inv_next _ _ I), (inv_stack_seen _ _ _ I). Qed.

(** One edge, to a node seen before. *)
Lemma follow_seen gray s0 v es w s connect :
  inv gray s0 -> ~ seen s0 v -> walking gray s0 v es s -> edge v w -> seen s w ->
  exists s', follow_edge connect v w s = Done ((), s') /\ walking gray s0 v (es ++ [w]) s'.
Proof.
  intros I0 Hv [I (fresh & E & l & Hl & Hle & (y & Hy & Hyl & Hr) & Hf & Hes) Hidx Hseen] He Hw.
  unfold follow_edge, lower, low_of, asks, modify, mbind, sr_bind, mret, sr_ret.
  destruct Hw as [i Hi]. rewrite Hi. case_bool_decide as Hon.
  - rewrite Hl. simpl.
    eexists. split; [reflexivity|]. fold (low s v (l `min` i)).
    apply (inv_on _ _ I) in Hon. assert (idx s w = i) as Hwi by (unfold idx; by rewrite Hi).
    eapply walking_lower; try done.
    + by exists i.
    + destruct (Nat.min_spec l i) as [[_ ->]|[_ ->]]; [by exists y|].
      exists w. repeat split; [done..|by apply rtc_once].
    + intros x z Hx Hxz Hz. specialize (Hf x z Hx Hxz Hz). lia.
    + intros z [Hz| ->%list_elem_of_singleton]%elem_of_app Hst; [|lia].
      specialize (Hes z Hz Hst). lia.
  - eexists. split; [reflexivity|]. split; [done| |done|].
    + exists fresh. split; [done|]. exists l. repeat split; try done; [by exists y|].
      intros z [Hz| ->%list_elem_of_singleton]%elem_of_app Hst; [by apply Hes|].
      destruct Hon. apply (inv_on _ _ I). rewrite (ext_stack _ _ _ E). by apply elem_of_app; right.
    + intros z [Hz| ->%list_elem_of_singleton]%elem_of_app; [by apply Hseen|by exists i].
Qed.

(** One edge, to a new node, given what the call on it does. *)
Lemma follow_new gray s0 v es w s s1 connect :
  inv gray s0 -> ~ seen s0 v -> walking gray s0 v es s -> edge v w -> ~ seen s w ->
  connect w s = Done ((), s1) -> connected ({[v]} ∪ gray) s w s1 ->
  exists s', follow_edge connect v w s = Done ((), s') /\ walking gray s0 v (es ++ [w]) s'.
Proof.
  intros I0 Hv [I (fresh & E & l & Hl & Hle & (y & Hy & Hyl & Hr) & Hf & Hes) Hidx Hseen] He Hw Hc
    [I1 Hw1 (fresh1 & E1 & m & Hm & Hf1 & Hcase)].
  assert (seen s v) as Hsv by (by exists (next_index s0)).
  assert (lowlink s1 !! v = Some l) as Hl1 by (by rewrite (proj2 (ext_old _ _ _ E1 v Hsv))).
  assert (forall x, x ∈ stack s -> idx s1 x = idx s x) as Hkeep
    by (intros x Hx; by eapply ext_idx, inv_stack_seen).
  assert (forall x, x ∈ stack s0 -> x ∈ stack s) as Hsub
    by (intros x Hx; rewrite (ext_stack _ _ _ E); by apply elem_of_app; right).
  assert (forall x, x ∈ stack s -> x ∈ stack s1) as Hsub1
    by (intros x Hx; rewrite (ext_stack _ _ _ E1); by apply elem_of_app; right).
  assert (l < next_index s) as Hls.
  { apply (inv_next _ _ I) in Hsv. unfold idx in Hsv. rewrite Hidx in Hsv. simpl in Hsv. lia. }
  unfold follow_edge, lower, low_of, asks, modify, mbind, sr_bind, mret, sr_ret.
  destruct (indices s !! w) as [i|] eqn:Hiw; [by destruct Hw; exists i|].
  rewrite Hc, Hm. simpl. rewrite Hl1. simpl.
  eexists. split; [reflexivity|]. fold (low s1 v (l `min` m)).
  eapply (walking_lower _ _ _ _ _ _ (fresh1 ++ fresh)); try done.
  - rewrite <- app_assoc. by eapply ext_trans.
  - rewrite (proj1 (ext_old _ _ _ E1 v Hsv)). done.
  - destruct Hcase as [[_ ->]|(Hlt & z & Hz & Hzl & Hrz)].
    + rewrite Nat.min_l by lia. exists y. rewrite Hkeep by done. auto.
    + destruct (Nat.min_spec l m) as [[_ ->]|[_ ->]]; [exists y; rewrite Hkeep by done; auto|].
      exists z. repeat split; [by apply Hsub1|done|]. by eapply rtc_l.
  - intros x z Hx Hxz Hz. apply elem_of_app in Hx as [Hx|Hx].
    + specialize (Hf1 x z Hx Hxz (Hsub z Hz)). lia.
    + specialize (Hf x z Hx Hxz Hz). rewrite Hkeep by auto. lia.
  - intros z Hz Hst. apply elem_of_app in Hz as [Hz| ->%list_elem_of_singleton].
    + specialize (Hes z Hz Hst). rewrite Hkeep by auto. lia.
    + destruct Hw. by eapply inv_stack_seen, Hsub.
  - intros z Hz. by eapply ext_seen, Hseen.
Qed.
(** ** Closing a component *)

Lemma pop_to_spec v fresh st : v ∉ fresh -> pop_to v (fresh ++ v :: st) = Some (fresh ++ [v], st).
Proof.
  induction fresh as [|x fresh IH]; intros Hv; simpl.
  - by rewrite decide_True.
  - apply not_elem_of_cons in Hv as [Hne Hv]. rewrite decide_False by done. by rewrite IH.
Qed.

Lemma sorted_split (s : Tarjan) fresh v st :
  StronglySorted (fun x y => idx s y < idx s x) (fresh ++ v :: st) ->
  (forall x, x ∈ fresh -> idx s v < idx s x) /\ (forall y, y ∈ st -> idx s y < idx s v).
Proof.
  intros Hs. induction fresh as [|x fresh IH]; simpl in Hs.
  - apply StronglySorted_inv in Hs as [_ Hs]. rewrite list.Forall_forall in Hs.
    split; [set_solver|done].
  - apply StronglySorted_inv in Hs as [Hs Hx]. rewrite list.Forall_forall in Hx.
    destruct (IH Hs) as [H1 H2]. split; [|done]. intros y [->|Hy]%elem_of_cons; [|by apply H1].
    apply Hx, elem_of_app. right. left.
Qed.

Lemma sorted_tail (R : relation DefId) xs ys : StronglySorted R (xs ++ ys) -> StronglySorted R ys.
Proof. induction xs; simpl; [done|]. intros [Hs _]%StronglySorted_inv. auto. Qed.

Lemma popped_snoc s c :
  concat (components s ++ [c]) = popped s ++ c.
Proof. unfold popped. by rewrite concat_app; simpl; rewrite app_nil_r. Qed.

Section Finish.
Context (gray : gset DefId) (s0 s : Tarjan) (v : DefId) (fresh : list DefId) (l : nat).
Context (I0 : inv gray s0) (Hv : ~ seen s0 v) (I : inv ({[v]} ∪ gray) s).
Context (E : ext (fresh ++ [v]) s0 s) (Hidx : indices s !! v = Some (next_index s0)).
Context (Hlow : lowlink s !! v = Some l).
Context (Hf : forall x y, x ∈ fresh -> edge x y -> y ∈ stack s0 -> l <= idx s y).
Context (Hv_low : forall y, edge v y -> y ∈ stack s0 -> l <= idx s y).
Context (Hv_seen : forall y, edge v y -> seen s y).

Lemma stack_now : stack s = fresh ++ v :: stack s0.
Proof. rewrite (ext_stack _ _ _ E). by rewrite <- app_assoc. Qed.

Lemma idx_v : idx s v = next_index s0.
Proof. unfold idx. by rewrite Hidx. Qed.

Lemma above x : x ∈ fresh -> idx s v < idx s x.
Proof. pose proof (inv_sorted _ _ I) as Hs. rewrite stack_now in Hs. by apply sorted_split in Hs as [H _]; apply H. Qed.

Lemma under y : y ∈ stack s0 -> idx s y < idx s v.
Proof. pose proof (inv_sorted _ _ I) as Hs. rewrite stack_now in Hs. by apply sorted_split in Hs as [_ H]; apply H. Qed.

Lemma gray_under g : g ∈ gray -> g ∈ stack s0.
Proof. apply (inv_gray _ _ I0). Qed.

Lemma elem_stack x : x ∈ stack s ↔ x ∈ fresh ++ [v] \/ x ∈ stack s0.
Proof. rewrite stack_now, !elem_of_app, elem_of_cons, list_elem_of_singleton. tauto. Qed.

(** Every edge from [v] and what is on top of it goes to a node seen. *)
Lemma top_seen x y : x ∈ fresh ++ [v] -> edge x y -> y ∈ stack s \/ y ∈ popped s.
Proof.
  intros Hx He. apply (inv_seen _ _ I).
  apply elem_of_app in Hx as [Hx| ->%list_elem_of_singleton]; [|by apply Hv_seen].
  apply (inv_black _ _ I x); [| |done].
  - apply (inv_seen _ _ I). left. apply elem_stack. left. by apply elem_of_app; left.
  - intros [->%elem_of_singleton|Hg]%elem_of_union; [by apply above in Hx; lia|].
    apply gray_under, under in Hg. apply above in Hx. lia.
Qed.

Section Root.
Context (Hroot : l = next_index s0).

(** Nothing on top of a root, nor the root, leads below it. *)
Lemma top_edge x y : x ∈ fresh ++ [v] -> edge x y -> y ∈ fresh ++ [v] \/ y ∈ popped s.
Proof.
  intros Hx He. destruct (top_seen x y Hx He) as [Hy|Hy]; [|by right].
  apply elem_stack in Hy as [Hy|Hy]; [by left|exfalso].
  pose proof (under y Hy) as Hlt. rewrite idx_v in Hlt.
  apply elem_of_app in Hx as [Hx| ->%list_elem_of_singleton].
  - specialize (Hf x y Hx He Hy). lia.
  - specialize (Hv_low y He Hy). lia.
Qed.

Lemma top_reaches x y : rtc edge x y -> x ∈ fresh ++ [v] \/ x ∈ popped s -> y ∈ fresh ++ [v] \/ y ∈ popped s.
Proof.
  induction 1 as [|x z y He Hr IH]; [done|]. intros Hx. apply IH.
  destruct Hx as [Hx|Hx]; [by eapply top_edge|]. right. by eapply (inv_popped _ _ I).
Qed.

Lemma popped_reaches x y : rtc edge x y -> x ∈ popped s -> y ∈ popped s.
Proof. induction 1; [done|]. intros. by eauto using inv_popped. Qed.

Lemma not_popped x : x ∈ stack s -> x ∉ popped s.
Proof. pose proof (inv_once _ _ I) as Hnd. apply NoDup_app in Hnd as (_ & Hnd & _). apply Hnd. Qed.

Lemma root_reaches x : x ∈ fresh ++ [v] -> mutual v x.
Proof.
  intros Hx. assert (x ∈ stack s) as Hxs by (apply elem_stack; by left).
  assert (idx s v <= idx s x) as Hle.
  { apply elem_of_app in Hx as [Hx| ->%list_elem_of_singleton]; [|done]. apply above in Hx. lia. }
  split; [by apply (inv_from _ _ I); [set_solver|done..]|].
  destruct (inv_to _ _ I x Hxs) as (g & Hg & Hgx & Hr).
  apply elem_of_union in Hg as [->%elem_of_singleton|Hg]; [done|exfalso].
  apply gray_under in Hg as Hgs. apply under in Hgs as Hlt.
  destruct (top_reaches x g Hr) as [Hin|Hin]; [by left| |].
  - apply elem_of_app in Hin as [Hin| ->%list_elem_of_singleton]; [apply above in Hin|]; lia.
  - apply (not_popped g); [|done]. apply elem_stack. by right.
Qed.

Lemma root_class x : x ∈ fresh ++ [v] -> forall y, y ∈ fresh ++ [v] ↔ mutual x y.
Proof.
  intros Hx y. destruct (root_reaches x Hx) as [H1 H2]. split.
  - intros Hy. destruct (root_reaches y Hy). split; by etrans.
  - intros [Hxy Hyx]. destruct (top_reaches x y Hxy) as [?|Hp]; [by left|done|].
    destruct (not_popped x); [apply elem_stack; by left|]. by eapply popped_reaches.
Qed.

Definition closed_state : Tarjan :=
  MkTarjan (next_index s) (indices s) (lowlink s) (on_stack s ∖ list_to_set (fresh ++ [v]))
    (stack s0) (components s ++ [fresh ++ [v]]).

Lemma popped_closed x : x ∈ popped closed_state ↔ x ∈ popped s \/ x ∈ fresh ++ [v].
Proof. unfold popped at 1. simpl. rewrite popped_snoc. apply elem_of_app. Qed.

Lemma old_apart x : x ∈ stack s0 -> x ∉ fresh ++ [v].
Proof.
  intros Hx Hin. apply under in Hx.
  apply elem_of_app in Hin as [Hin| ->%list_elem_of_singleton]; [apply above in Hin|]; lia.
Qed.

Lemma inv_closed : inv gray closed_state.
Proof.
  split.
  - intros x. simpl. rewrite elem_of_difference, elem_of_list_to_set, (inv_on _ _ I), elem_stack.
    split; [tauto|]. intros Hx. split; [tauto|by apply old_apart].
  - intros x. change (seen closed_state x) with (seen s x). rewrite popped_closed, (inv_seen _ _ I), elem_stack.
    simpl. tauto.
  - unfold popped. simpl. rewrite popped_snoc. pose proof (inv_once _ _ I) as Hnd. rewrite stack_now in Hnd.
    replace (fresh ++ v :: stack s0) with ((fresh ++ [v]) ++ stack s0) in Hnd by by rewrite <- app_assoc.
    rewrite (Permutation_app_comm (popped s)), app_assoc. by rewrite (Permutation_app_comm (stack s0)).
  - pose proof (inv_sorted _ _ I) as Hs. rewrite stack_now in Hs.
    by apply sorted_tail, StronglySorted_inv in Hs as [Hs _].
  - apply (inv_next _ _ I).
  - apply (inv_nodes _ _ I).
  - apply (inv_gray _ _ I0).
  - intros x y Hx Hg He. destruct (decide (x = v)) as [->|Hne]; [by apply Hv_seen|].
    apply (inv_black _ _ I x); [done|set_solver|done].
  - intros x y. rewrite !popped_closed. intros [Hx|Hx] He; [left; by eapply (inv_popped _ _ I)|].
    destruct (top_edge x y Hx He); tauto.
  - intros g x Hg Hx Hle. apply (inv_from _ _ I); [set_solver| |done]. apply elem_stack. by right.
  - intros x Hx. destruct (inv_to _ _ I x) as (g & Hg & Hle & Hr); [apply elem_stack; by right|].
    exists g. repeat split; [|done..]. apply under in Hx. simpl in Hx.
    apply elem_of_union in Hg as [->%elem_of_singleton|Hg]; [lia|done].
  - intros c Hc. simpl in Hc. apply elem_of_app in Hc as [Hc| ->%list_elem_of_singleton].
    + by apply (inv_classes _ _ I).
    + split; [by destruct fresh|]. apply root_class.
Qed.

Lemma connected_closed : close v s = Done ((), closed_state) /\ connected gray s0 v closed_state.
Proof.
  split.
  - unfold close. rewrite stack_now, pop_to_spec; [done|]. intros Hin. apply above in Hin. lia.
  - split; [apply inv_closed|by exists (next_index s0)|].
    exists []. split.
    + split; simpl; [done| |apply (ext_next _ _ _ E)|].
      * intros x Hx. by apply (ext_old _ _ _ E).
      * intros x Hx. apply popped_closed. left. by apply (ext_popped _ _ _ E).
    + exists l. repeat split; [done|set_solver|]. by left.
Qed.
End Root.

(** A node that is not a root stays on the stack, no longer active. *)
Lemma connected_kept :
  l <= next_index s0 -> l ≠ next_index s0 ->
  (exists y, y ∈ stack s /\ idx s y = l /\ rtc edge v y) -> connected gray s0 v s.
Proof.
  intros Hle Hne (y & Hy & Hyl & Hr).
  assert (y ∈ stack s0) as Hy0.
  { apply elem_stack in Hy as [Hy|Hy]; [exfalso|done]. pose proof idx_v.
    apply elem_of_app in Hy as [Hy| ->%list_elem_of_singleton]; [apply above in Hy|]; lia. }
  split.
  - split; try apply I.
    + apply (fun g H => proj2 (elem_stack g) (or_intror (gray_under g H))).
    + intros x z Hx Hg He. destruct (decide (x = v)) as [->|Hnv]; [by apply Hv_seen|].
      apply (inv_black _ _ I x); [done|set_solver|done].
    + intros g x Hg. apply (inv_from _ _ I). set_solver.
    + intros x Hx. destruct (inv_to _ _ I x Hx) as (g & Hg & Hgx & Hxg).
      apply elem_of_union in Hg as [->%elem_of_singleton|Hg]; [|by exists g].
      destruct (inv_to _ _ I y Hy) as (g & Hg & Hgy & Hyg). exists g.
      pose proof idx_v. apply elem_of_union in Hg as [->%elem_of_singleton|Hg]; [lia|].
      repeat split; [done|lia|]. etrans; [done|]. by etrans.
  - by exists (next_index s0).
  - exists (fresh ++ [v]). split; [done|]. exists l. repeat split; [done| |].
    + intros x z [Hx| ->%list_elem_of_singleton]%elem_of_app; [by apply Hf|by apply Hv_low].
    + right. split; [lia|by exists y].
Qed.
End Finish.
(** ** The search *)

Lemma unseen_less s0 s v :
  (forall x, seen s0 x -> seen s x) -> is_Some (graph !! v) -> ~ seen s0 v -> seen s v ->
  unseen s < unseen s0.
Proof.
  intros Hsub Hn Hv0 Hv. unfold unseen. apply subset_size. split.
  - intros x. rewrite !elem_of_difference, <- !seen_dom. intros [??]. split; [done|]. auto.
  - intros Hc. specialize (Hc v). rewrite !elem_of_difference, <- !seen_dom, elem_of_dom in Hc. tauto.
Qed.

Lemma walking_unseen gray s0 v es s :
  is_Some (graph !! v) -> ~ seen s0 v -> walking gray s0 v es s -> unseen s < unseen s0.
Proof.
  intros Hn Hv [_ (fresh & E & _) Hidx _]. apply (unseen_less _ _ v); [|done..|by exists (next_index s0)].
  intros x. by apply (ext_seen _ _ _ _ E).
Qed.

(** All edges of a node, given what the calls on new nodes do. *)
Lemma walk_edges gray s0 v n call :
  inv gray s0 -> ~ seen s0 v -> is_Some (graph !! v) -> unseen s0 <= S n ->
  (forall g, g ∈ gray -> rtc edge g v) ->
  (forall s w, inv ({[v]} ∪ gray) s -> ~ seen s w -> is_Some (graph !! w) ->
    (forall g, g ∈ {[v]} ∪ gray -> rtc edge g w) -> unseen s <= n ->
    exists s1, call w s = Done ((), s1) /\ connected ({[v]} ∪ gray) s w s1) ->
  forall rest es s, (forall w, w ∈ rest -> edge v w) -> walking gray s0 v es s ->
  exists s', for_each (follow_edge call v) rest s = Done ((), s') /\ walking gray s0 v (es ++ rest) s'.
Proof.
  intros I0 Hv Hn Hfuel Hg Hcall. induction rest as [|w rest IH]; intros es s Hrest Hw.
  { exists s. rewrite app_nil_r. done. }
  assert (edge v w) as He by (apply Hrest; left).
  assert (exists s1, follow_edge call v w s = Done ((), s1) /\ walking gray s0 v (es ++ [w]) s1) as (s1 & H1 & Hw1).
  { destruct (indices s !! w) as [i|] eqn:Hi.
    - eapply follow_seen; try done. by exists i.
    - assert (~ seen s w) as Hns by (intros [j Hj]; congruence).
      destruct (Hcall s w) as (s1 & H1 & Hc); [apply Hw|done|by eapply closed| | |].
      + intros g [->%elem_of_singleton|Hgr]%elem_of_union; [by apply rtc_once|].
        eapply rtc_r; [by apply Hg|done].
      + pose proof (walking_unseen _ _ _ _ _ Hn Hv Hw). lia.
      + by eapply follow_new. }
  destruct (IH (es ++ [w]) s1) as (s2 & H2 & Hw2); [intros; apply Hrest; by right|done|].
  exists s2. cbn [for_each]. unfold mbind, sr_bind. rewrite H1, H2. by rewrite <- app_assoc in Hw2.
Qed.

Lemma connect_spec fuel : forall gray s v,
  inv gray s -> ~ seen s v -> is_Some (graph !! v) -> (forall g, g ∈ gray -> rtc edge g v) ->
  unseen s <= fuel ->
  exists s', connect graph fuel v s = Done ((), s') /\ connected gray s v s'.
Proof.
  induction fuel as [|n IH]; intros gray s v I Hv Hn Hg Hfuel.
  { exfalso. assert (0 < unseen s); [|lia]. unfold unseen.
    assert (v ∈ dom graph ∖ dom (indices s)) as Hin
      by (rewrite elem_of_difference, <- seen_dom, elem_of_dom; by split).
    destruct (size (dom graph ∖ dom (indices s))) eqn:Hs; [|lia].
    apply size_empty_inv in Hs. set_solver. }
  destruct Hn as [es Hes].
  destruct (walk_edges gray s v n (connect graph n) I Hv (ex_intro _ es Hes) Hfuel Hg
    (fun s1 w I1 Hw Hnw Hgw Hu => IH _ s1 w I1 Hw Hnw Hgw Hu) es [] (entered v s))
    as (s1 & H1 & [I1 (fresh & E & l & Hl & Hle & Hy & Hf & Hlow) Hidx Hseen]).
  { intros w Hw. by exists es. }
  { apply walking_start; [done..|by exists es|done]. }
  cbn [connect]. unfold enter, index_at, low_of, asks, modify, mbind, sr_bind, mret, sr_ret. cbn.
  rewrite Hes. change (MkTarjan _ _ _ _ _ _) with (entered v s). rewrite H1, Hl. simpl. rewrite Hidx. simpl.
  assert (forall y, edge v y -> y ∈ es) as Hed by (intros y (es' & Hes' & Hin); congruence).
  case_decide as Hroot.
  - eexists. by eapply (connected_closed gray s s1 v fresh l); eauto.
  - eexists. split; [done|]. by eapply (connected_kept gray s s1 v fresh l); eauto.
Qed.

Lemma inv_new : inv ∅ new_tarjan.
Proof.
  assert (forall x, ~ seen new_tarjan x) as Hns by (intros x [i Hi]; simpl in Hi; by rewrite lookup_empty in Hi).
  assert (forall x, x ∉ popped new_tarjan) as Hp by (intros x Hx; by apply elem_of_nil in Hx).
  split; try (by intros x ?%Hns); try (by intros x y ?%Hns); try (by intros x y ?%Hp); try (by constructor).
  - intros x. simpl. set_solver.
  - intros x. split; [by intros ?%Hns|]. intros [H|H]; by apply elem_of_nil in H.
  - set_solver.
  - intros g x Hg. set_solver.
  - intros x Hx. by apply elem_of_nil in Hx.
  - intros c Hc. by apply elem_of_nil in Hc.
Qed.

Lemma inv_idle s : inv ∅ s -> stack s = [].
Proof.
  intros I. destruct (stack s) as [|x st] eqn:Hs; [done|].
  destruct (inv_to _ _ I x) as (g & Hg & _); [rewrite Hs; left|]. set_solver.
Qed.

Lemma connect_new_spec fuel s k :
  inv ∅ s -> is_Some (graph !! k) -> unseen s <= fuel ->
  exists s', connect_new graph fuel k s = Done ((), s') /\ inv ∅ s' /\ seen s' k /\
    (forall x, seen s x -> seen s' x) /\ unseen s' <= unseen s.
Proof.
  intros I Hk Hfuel. unfold connect_new, asks, mbind, sr_bind, mret, sr_ret.
  destruct (indices s !! k) as [i|] eqn:Hi.
  - exists s. split; [done|]. split; [done|]. split; [by exists i|done].
  - destruct (connect_spec fuel ∅ s k) as (s1 & H1 & [I1 Hk1 (fresh & E & _)]); try done.
    + intros [j Hj]. congruence.
    + exists s1. split_and!; [done..| |by apply (ext_unseen _ _ _ E)].
      intros x. by apply (ext_seen _ _ _ _ E).
Qed.

Lemma connect_all_spec fuel ks : forall s,
  inv ∅ s -> (forall x, x ∈ ks -> is_Some (graph !! x)) -> unseen s <= fuel ->
  exists s', connect_all graph fuel ks s = Done ((), s') /\ inv ∅ s' /\
    forall x, seen s x \/ x ∈ ks -> seen s' x.
Proof.
  unfold connect_all. induction ks as [|k ks IH]; intros s I Hks Hfuel.
  { exists s. split; [done|]. split; [done|]. set_solver. }
  destruct (connect_new_spec fuel s k) as (s1 & H1 & I1 & Hk & Hsub & Hu); [done|apply Hks; left|done|].
  cbn [for_each]. unfold mbind, sr_bind. rewrite H1.
  destruct (IH s1) as (s2 & H2 & I2 & Hall); [done|intros; apply Hks; by right|lia|].
  exists s2. split; [exact H2|]. split; [done|]. intros x [Hx|[->|Hx]%elem_of_cons]; apply Hall; auto.
Qed.

(** Tarjan's algorithm, from nodes that are all of the graph's, lists the classes of mutual
    reachability, each once. *)
Lemma tarjan_components_spec fuel ks :
  (forall x, x ∈ ks ↔ is_Some (graph !! x)) -> size graph <= fuel ->
  exists cs, tarjan_components graph fuel ks = Done cs /\
    NoDup (concat cs) /\ (forall x, x ∈ concat cs ↔ is_Some (graph !! x)) /\
    (forall c, c ∈ cs -> c ≠ [] /\ forall x, x ∈ c -> forall y, y ∈ c ↔ mutual x y).
Proof.
  intros Hks Hfuel. destruct (connect_all_spec fuel ks new_tarjan) as (s & Hs & I & Hall).
  - apply inv_new.
  - intros x. apply Hks.
  - unfold unseen. simpl. rewrite dom_empty_L, difference_empty_L, size_dom. done.
  - exists (components s). unfold tarjan_components. rewrite Hs. simpl. split; [done|].
    pose proof (inv_once _ _ I) as Hnd. rewrite (inv_idle s I) in Hnd. split; [done|]. split.
    + intros x. change (concat (components s)) with (popped s). split.
      * intros Hx. apply (inv_nodes _ _ I), (inv_seen _ _ I). by right.
      * intros Hx. assert (seen s x) as Hsx by (apply Hall; right; by apply Hks).
        apply (inv_seen _ _ I) in Hsx as [Hst|Hp]; [|done]. rewrite (inv_idle s I) in Hst. set_solver.
    + apply (inv_classes _ _ I).
Qed.
End Tarjan.
