(* ===== verification/SccProps.v ===== *)
(** * Properties of the components of a file

    The theorems on fai-resolve's [scc.rs]: inference's components are the classes of mutual
    dependency, the recursive definitions those that reach themselves, and neither depends on
    the order of a hash map's keys. *)

From S2P Require Import Prelude Ordered Types Niche Scc SccSound.
From stdpp Require Import gmap list strings sorting relations.
From Stdlib Require Import Lia.

#[export] Instance name_le_trans : Transitive name_le.
Proof. intros a b c. unfold name_le. apply (transitivity (R := String.le)). Qed.
#[export] Instance name_le_total : Total name_le.
Proof. intros a b. unfold name_le. apply (total String.le). Qed.
#[export] Instance first_le_trans : Transitive first_le.
Proof. intros a b c. unfold first_le. apply (transitivity (R := String.le)). Qed.
#[export] Instance first_le_total : Total first_le.
Proof. intros a b. unfold first_le. apply (total String.le). Qed.

Lemma rtc_mono {A} (R R' : relation A) x y : (forall a b, R a b -> rtc R' a b) -> rtc R x y -> rtc R' x y.
Proof. intros HR. induction 1 as [|a b c Hab _ IH]; [done|]. etrans; [by apply HR|done]. Qed.

Lemma NoDup_concat_in {A} (xss : list (list A)) xs : NoDup (concat xss) -> xs ∈ xss -> NoDup xs.
Proof.
  induction xss as [|ys xss IH]; [set_solver|]. simpl. intros (Hy & _ & Hr)%NoDup_app [->|Hin]%elem_of_cons; [done|].
  by apply IH.
Qed.

Lemma NoDup_concat_share {A} (xss : list (list A)) xs ys x :
  NoDup (concat xss) -> xs ∈ xss -> ys ∈ xss -> x ∈ xs -> x ∈ ys -> xs = ys.
Proof.
  induction xss as [|zs xss IH]; [set_solver|]. simpl. intros (Hz & Hap & Hr)%NoDup_app Hxs Hys Hx Hy.
  assert (forall ws, ws ∈ xss -> x ∈ ws -> x ∈ concat xss) as Hc
    by (intros ws Hin Hw; apply elem_of_concat; by exists ws).
  apply elem_of_cons in Hxs as [->|Hxs]; apply elem_of_cons in Hys as [->|Hys]; [done| | |by apply IH].
  - destruct (Hap x Hx). by eapply Hc.
  - destruct (Hap x Hy). by eapply Hc.
Qed.

Lemma NoDup_concat {A} (xss : list (list A)) : NoDup (concat xss) -> Forall (.≠ []) xss -> NoDup xss.
Proof.
  induction xss as [|xs xss IH]; simpl; [constructor|]. intros (_ & Hap & Hr)%NoDup_app [Hne Hall]%Forall_cons.
  constructor; [|by apply IH]. intros Hin. destruct xs as [|x xs]; [done|].
  apply (Hap x); [left|]. apply elem_of_concat. exists (x :: xs). split; [left|done].
Qed.

(** ** The graphs of a file *)

Section Module.
Context (file : SourceId) (defs : list DefInfo) (deps_of : DefId -> list DefId).
Abbreviation sigless := (sigless file defs).
Abbreviation nodes := (nodes file defs).
Abbreviation def_deps := (def_deps file defs deps_of).
Abbreviation reference_graph := (reference_graph file defs deps_of).

(** One signature-less definition of the file refers to another. *)
Definition depends (d d' : DefId) : Prop := d ∈ sigless /\ d' ∈ sigless /\ d' ∈ deps_of d.
(** One definition of the file refers to another. *)
Definition refers (d d' : DefId) : Prop := d ∈ nodes /\ d' ∈ nodes /\ d' ∈ deps_of d.
(** The definitions inference must take together with [d]. *)
Definition together (d d' : DefId) : Prop := rtc depends d d' /\ rtc depends d' d.

Lemma elem_of_edges_to keep d d' : d' ∈ edges_to deps_of keep d ↔ keep d' = true /\ d' ∈ deps_of d.
Proof.
  unfold edges_to. rewrite elem_of_dedup_by, sort_by_perm, list_elem_of_filter. by rewrite Is_true_true.
Qed.

Lemma lookup_node_map (X : gset DefId) (f : DefId -> list DefId) d :
  (set_to_map (fun node => (node, f node)) X : gmap DefId (list DefId)) !! d = if decide (d ∈ X) then Some (f d) else None.
Proof.
  case_decide as Hd.
  - apply lookup_set_to_map; [by intros ???? [= ->]|]. by exists d.
  - apply eq_None_not_Some. intros [es (d' & Hd' & [= -> _])%lookup_set_to_map]; [done|].
    by intros ???? [= ->].
Qed.

Lemma edge_def_deps d d' : edge def_deps d d' ↔ depends d d' /\ d' ≠ d.
Proof.
  unfold edge, Scc.def_deps, depends. rewrite lookup_node_map. case_decide as Hd.
  - split.
    + intros (es & [= <-] & Hin). apply elem_of_edges_to in Hin as [Hk Hin].
      apply andb_true_iff in Hk as [?%bool_decide_eq_true ?%bool_decide_eq_true]. tauto.
    + intros [(_ & Hs & Hin) Hne]. eexists. split; [done|]. apply elem_of_edges_to.
      by rewrite !bool_decide_eq_true_2.
  - split; [by intros (es & ? & _)|tauto].
Qed.

Lemma edge_reference d d' : edge reference_graph d d' ↔ refers d d'.
Proof.
  unfold edge, Scc.reference_graph, refers. rewrite lookup_node_map. case_decide as Hd.
  - split.
    + intros (es & [= <-] & Hin). apply elem_of_edges_to in Hin as [?%bool_decide_eq_true Hin]. tauto.
    + intros (_ & Hs & Hin). eexists. split; [done|]. apply elem_of_edges_to.
      by rewrite !bool_decide_eq_true_2.
  - split; [by intros (es & ? & _)|tauto].
Qed.

Lemma is_Some_def_deps d : is_Some (def_deps !! d) ↔ d ∈ sigless.
Proof. unfold Scc.def_deps. rewrite lookup_node_map. case_decide; split; try done; by intros []. Qed.
Lemma is_Some_reference d : is_Some (reference_graph !! d) ↔ d ∈ nodes.
Proof. unfold Scc.reference_graph. rewrite lookup_node_map. case_decide; split; try done; by intros []. Qed.

Lemma mutual_together d d' : mutual def_deps d d' ↔ together d d'.
Proof.
  assert (forall a b, rtc (edge def_deps) a b ↔ rtc depends a b) as Hr.
  { intros a b. split; apply rtc_mono; clear.
    - intros a b [H _]%edge_def_deps. by apply rtc_once.
    - intros a b H. destruct (decide (b = a)) as [->|Hne]; [done|]. apply rtc_once. by apply edge_def_deps. }
  unfold mutual, together. by rewrite !Hr.
Qed.

Lemma length_dom (X : gset DefId) (g : gmap DefId (list DefId)) n :
  (forall d, is_Some (g !! d) ↔ d ∈ X) -> size X <= n -> size g <= n.
Proof.
  intros Hg Hn. rewrite <- size_dom. etrans; [|exact Hn]. apply subseteq_size.
  intros d. rewrite elem_of_dom. apply Hg.
Qed.

Lemma sigless_size : size sigless <= length defs.
Proof.
  unfold Scc.sigless. etrans; [apply size_list_to_set_le|]. rewrite length_fmap. apply length_filter.
Qed.
Lemma nodes_size : size nodes <= length defs.
Proof. unfold Scc.nodes. etrans; [apply size_list_to_set_le|]. by rewrite length_fmap. Qed.

Lemma elem_of_sigless d : d ∈ sigless ↔ exists i, i ∈ defs /\ di_signature i = None /\ d = def_id file i.
Proof.
  unfold Scc.sigless. rewrite elem_of_list_to_set, list_elem_of_fmap. split.
  - intros (i & -> & [? ?]%list_elem_of_filter). by exists i.
  - intros (i & ? & ? & ->). exists i. split; [done|]. by apply list_elem_of_filter.
Qed.

Lemma elem_of_nodes d : d ∈ nodes ↔ exists i, i ∈ defs /\ d = def_id file i.
Proof.
  unfold Scc.nodes. rewrite elem_of_list_to_set, list_elem_of_fmap. naive_solver.
Qed.

Lemma name_le_antisym x y : x ∈ nodes -> y ∈ nodes -> name_le x y -> name_le y x -> x = y.
Proof.
  intros (i & _ & ->)%elem_of_nodes (j & _ & ->)%elem_of_nodes. unfold name_le, def_id; simpl. intros.
  f_equal. by apply (anti_symm String.le).
Qed.

(** ** The components *)

Lemma together_refl d : together d d.
Proof. by split. Qed.

(** The classes of [together], each listed once, in the order of its names. *)
Record partition (cs : list Scc) : Prop := {
  pt_once : NoDup (concat (members <$> cs));
  pt_all : forall d, d ∈ concat (members <$> cs) ↔ d ∈ nodes;
  pt_nonempty : Forall (.≠ []) (members <$> cs);
  pt_sorted : forall c, c ∈ cs -> StronglySorted name_le (members c);
  pt_class : forall c, c ∈ cs -> forall d, d ∈ members c -> forall d', d' ∈ members c ↔ together d d' }.

Lemma partition_perm cs cs' : cs ≡ₚ cs' -> partition cs -> partition cs'.
Proof.
  intros Hp [H1 H2 H3 H4 H5]. split.
  - by rewrite <- Hp.
  - intros d. by rewrite <- Hp.
  - by rewrite <- Hp.
  - intros c. rewrite <- Hp. apply H4.
  - intros c. rewrite <- Hp. apply H5.
Qed.

Lemma partition_nodes cs c d : partition cs -> c ∈ cs -> d ∈ members c -> d ∈ nodes.
Proof.
  intros P Hc Hd. apply (pt_all _ P), elem_of_concat. exists (members c). split; [done|].
  by apply list_elem_of_fmap_2.
Qed.

Lemma partition_share cs c c' d :
  partition cs -> c ∈ cs -> c' ∈ cs -> d ∈ members c -> d ∈ members c' -> c = c'.
Proof.
  intros P Hc Hc' Hd Hd'. assert (members c = members c') as He.
  { eapply (NoDup_concat_share _ _ _ d); [apply P|by apply list_elem_of_fmap_2..|done|done]. }
  destruct c, c'. simpl in He. by subst.
Qed.

Lemma partition_some cs c : partition cs -> c ∈ cs -> exists d ds, members c = d :: ds.
Proof.
  intros P Hc. pose proof (pt_nonempty _ P) as Hn. rewrite list.Forall_forall in Hn.
  specialize (Hn (members c) (list_elem_of_fmap_2 _ _ _ Hc)). destruct (members c) as [|d ds]; [done|]. by exists d, ds.
Qed.

Lemma partition_sub cs cs' c : partition cs -> partition cs' -> c ∈ cs -> c ∈ cs'.
Proof.
  intros P P' Hc. destruct (partition_some _ _ P Hc) as (d & ds & Hm).
  assert (d ∈ members c) as Hd by (rewrite Hm; left).
  assert (d ∈ concat (members <$> cs')) as Hd' by (apply (pt_all _ P'); exact (partition_nodes _ _ _ P Hc Hd)).
  apply elem_of_concat in Hd' as (ms & Hdm & (c' & -> & Hc')%list_elem_of_fmap).
  assert (members c = members c') as He; [|destruct c, c'; simpl in He; by subst].
  apply (sorted_unique name_le).
  - intros x y Hx Hy. apply name_le_antisym; by apply (partition_nodes cs c).
  - by apply (pt_sorted _ P).
  - by apply (pt_sorted _ P').
  - apply NoDup_Permutation.
    + apply (NoDup_concat_in (members <$> cs)); [apply P|by apply list_elem_of_fmap_2].
    + apply (NoDup_concat_in (members <$> cs')); [apply P'|by apply list_elem_of_fmap_2].
    + intros x. rewrite (pt_class _ P c Hc d Hd). by rewrite (pt_class _ P' c' Hc' d Hdm).
Qed.

Lemma partition_once cs : partition cs -> NoDup cs.
Proof. intros P. apply (NoDup_fmap_1 members), NoDup_concat; apply P. Qed.

Lemma partition_unique cs cs' : partition cs -> partition cs' -> sort_by first_le cs = sort_by first_le cs'.
Proof.
  intros P P'. apply (sort_by_permutation first_le); [apply _..| |].
  - intros c c' Hc Hc' H1 H2.
    destruct (partition_some _ _ P Hc) as (d & ds & Hm), (partition_some _ _ P Hc') as (d' & ds' & Hm').
    assert (d = d') as <-.
    { apply name_le_antisym.
      - apply (partition_nodes _ c _ P Hc). rewrite Hm. left.
      - apply (partition_nodes _ c' _ P Hc'). rewrite Hm'. left.
      - unfold first_le, first_name in H1. by rewrite Hm, Hm' in H1.
      - unfold first_le, first_name in H2. by rewrite Hm, Hm' in H2. }
    apply (partition_share _ _ _ d P Hc Hc'); [rewrite Hm|rewrite Hm']; left.
  - apply NoDup_Permutation; [by apply partition_once..|].
    intros c. split; by eapply partition_sub.
Qed.

Lemma signatured_alone d d' : d ∈ nodes -> d ∉ sigless -> (together d d' ↔ d' = d).
Proof.
  intros Hd Hs. split; [|by intros ->]. intros [H1 _]. by inversion H1 as [|? y ? [Hs' _]].
Qed.

Context (distinct : NoDup (di_name <$> defs)).

Lemma same_info i j : i ∈ defs -> j ∈ defs -> di_name i = di_name j -> i = j.
Proof. intros Hi Hj He. by apply (table_injective di_name defs). Qed.

Lemma sigless_together d d' : d ∈ sigless -> together d d' -> d' ∈ sigless.
Proof. intros Hd [_ H]. by inversion H as [|? y ? [Hs' _]]; subst. Qed.

(** Tarjan's components with the signatured bindings partition the file. *)
Lemma components_partition cs :
  NoDup (concat cs) -> (forall x, x ∈ concat cs ↔ x ∈ sigless) ->
  (forall c, c ∈ cs -> c ≠ [] /\ forall x, x ∈ c -> forall y, y ∈ c ↔ together x y) ->
  partition ((MkScc ∘ sort_by name_le <$> cs) ++ signatured file defs).
Proof.
  intros Hnd Hall Hcs.
  assert (members <$> (MkScc ∘ sort_by name_le <$> cs) ++ signatured file defs
    = (sort_by name_le <$> cs) ++ ((fun d => [d]) <$> (def_id file <$> filter (fun d => di_signature d ≠ None) defs))) as Hm.
  { unfold signatured. by rewrite fmap_app, <- !list_fmap_compose. }
  assert (concat (sort_by name_le <$> cs) ≡ₚ concat cs) as Hcc.
  { clear. induction cs as [|c cs IH]; simpl; [done|]. by rewrite IH, sort_by_perm. }
  assert (forall xs : list DefId, concat ((fun d => [d]) <$> xs) = xs) as Hone
    by (induction xs as [|x xs IH]; [done|exact (f_equal (cons x) IH)]).
  assert (forall d, d ∈ def_id file <$> filter (fun d => di_signature d ≠ None) defs ↔ d ∈ nodes /\ d ∉ sigless) as Hsig.
  { intros d. rewrite list_elem_of_fmap. split.
    - intros (i & -> & [Hi Hin]%list_elem_of_filter). split; [apply elem_of_nodes; by exists i|].
      intros (j & Hj & Hnone & Hid)%elem_of_sigless. unfold def_id in Hid. injection Hid as Hid.
      by apply Hi; rewrite (same_info i j).
    - intros [(i & Hin & ->)%elem_of_nodes Hn]. exists i. split; [done|]. apply list_elem_of_filter.
      split; [|done]. intros Hnone. apply Hn, elem_of_sigless. by exists i. }
  split.
  - rewrite Hm, concat_app, Hone, Hcc. apply NoDup_app. split; [done|]. split.
    + intros x Hx%Hall Hin%Hsig. tauto.
    + clear -distinct. assert (NoDup (def_id file <$> defs)) as Hd.
      { apply (NoDup_fmap_1 def_name). rewrite <- list_fmap_compose. done. }
      eapply sublist_NoDup; [exact Hd|]. apply fmap_sublist, sublist_filter.
  - intros d. rewrite Hm, concat_app, Hone, elem_of_app, Hcc, Hall, Hsig. split.
    + intros [(i & ? & _ & ->)%elem_of_sigless|[? _]]; [|done]. apply elem_of_nodes. by exists i.
    + intros Hd. destruct (decide (d ∈ sigless)); tauto.
  - rewrite Hm. apply Forall_app. split; apply Forall_fmap, list.Forall_forall; [|done].
    intros c Hc Hn. destruct (Hcs c Hc) as [Hne _]. destruct Hne. simpl in Hn.
    pose proof (sort_by_perm name_le c) as Hp. rewrite Hn in Hp. by apply Permutation_nil in Hp.
  - intros c [(c' & -> & _)%list_elem_of_fmap|(i & -> & _)%list_elem_of_fmap]%elem_of_app; simpl;
      [apply sort_by_sorted; apply _|repeat constructor].
  - intros c [(c' & -> & Hc')%list_elem_of_fmap|(i & -> & Hi)%list_elem_of_fmap]%elem_of_app d Hd d'; simpl in *.
    + rewrite sort_by_perm in Hd |- *. by apply (Hcs c').
    + apply list_elem_of_singleton in Hd as ->. rewrite list_elem_of_singleton.
      assert (def_id file i ∈ nodes /\ def_id file i ∉ sigless) as [Hn Hns] by (by apply Hsig, list_elem_of_fmap_2).
      by rewrite signatured_alone.
Qed.
End Module.

(** ** The index of a definition's component *)

Lemma index_members_spec i ms m d :
  index_members i ms m !! d = if decide (d ∈ ms) then Some i else m !! d.
Proof.
  revert m; induction ms as [|x ms IH]; intros m; [done|].
  unfold index_members in *. simpl. rewrite IH. destruct (decide (d = x)) as [->|Hne].
  - rewrite (decide_True (P := x ∈ x :: ms)) by left. rewrite lookup_insert_eq. by case_decide.
  - rewrite lookup_insert_ne by done. do 2 case_decide; set_solver.
Qed.

Lemma index_from_spec cs : forall k m d,
  NoDup (concat (members <$> cs)) ->
  (d ∉ concat (members <$> cs) -> index_from k cs m !! d = m !! d) /\
  (forall j c, cs !! j = Some c -> d ∈ members c -> index_from k cs m !! d = Some (k + j)).
Proof.
  induction cs as [|c cs IH]; intros k m d Hnd; [done|].
  simpl in Hnd. apply NoDup_app in Hnd as (_ & Hap & Hnd).
  destruct (IH (S k) (index_members k (members c) m) d Hnd) as [Hout Hin]. simpl. split.
  - intros [Hc Hcs]%not_elem_of_app. rewrite (Hout Hcs), index_members_spec. by rewrite decide_False.
  - intros [|j] c' Hj Hd; simpl in Hj.
    + injection Hj as ->. rewrite (Hout (Hap d Hd)), index_members_spec. rewrite decide_True by done.
      by rewrite Nat.add_0_r.
    + rewrite (Hin j c' Hj Hd). f_equal. lia.
Qed.

Lemma scc_of_partition file defs deps_of cs cs' d :
  partition file defs deps_of cs' -> cs ≡ₚ cs' ->
  let r := MkModuleSccs cs (index_from 0 cs ∅) in
  (d ∈ nodes file defs ->
   exists c, scc_of r d = Done (Some c) /\ forall d', d' ∈ members c ↔ together file defs deps_of d d') /\
  (d ∉ nodes file defs -> scc_of r d = Done None).
Proof.
  intros P Hp. apply (partition_perm _ _ _ cs' cs) in P; [|done]. simpl.
  destruct (index_from_spec cs 0 ∅ d (pt_once _ _ _ _ P)) as [Hout Hin].
  unfold scc_of. simpl. rewrite <- (pt_all _ _ _ _ P). split.
  - intros (ms & Hd & (c & -> & Hc)%list_elem_of_fmap)%elem_of_concat.
    apply list_elem_of_lookup in Hc as [j Hj]. rewrite (Hin j c Hj Hd). simpl. rewrite Hj. exists c.
    split; [done|]. apply (pt_class _ _ _ _ P); [by eapply list_elem_of_lookup_2|done].
  - intros Hd. by rewrite (Hout Hd), lookup_empty.
Qed.

Lemma module_components file defs deps_of ks fuel :
  NoDup (di_name <$> defs) -> (forall d, d ∈ ks ↔ d ∈ sigless file defs) -> length defs <= fuel ->
  exists cs, tarjan_components (def_deps file defs deps_of) fuel ks = Done cs /\
    partition file defs deps_of ((MkScc ∘ sort_by name_le <$> cs) ++ signatured file defs).
Proof.
  intros Hd Hks Hfuel. pose proof (sigless_size file defs) as Hsz.
  destruct (tarjan_components_spec (def_deps file defs deps_of)) with (ks := ks) (fuel := fuel)
    as (cs & Hcs & Hnd & Hall & Hcl).
  - intros v w [(_ & Hw & _) _]%edge_def_deps. by apply is_Some_def_deps.
  - intros x. by rewrite Hks, is_Some_def_deps.
  - eapply length_dom; [apply is_Some_def_deps|lia].
  - exists cs. split; [done|]. apply components_partition; [done..| |].
    + intros x. by rewrite Hall, is_Some_def_deps.
    + intros c Hc. destruct (Hcl c Hc) as [Hne Hm]. split; [done|]. intros x Hx y.
      by rewrite (Hm x Hx), mutual_together.
Qed.

(** C16: the components inference works on are the classes of mutual dependency.  When a file's
    definitions have distinct names, [module_sccs] returns a result, without a panic, that does
    not depend on the order in which the hash map of dependencies yields its keys; every
    definition of the file has a component there, whose members are exactly the definitions
    that it reaches through references between signature-less definitions and that reach it
    so (a definition with a signature is alone), any other has none, and the members of each
    component are in the order of their names. *)
Theorem module_sccs_classes file defs deps_of :
  NoDup (di_name <$> defs) ->
  exists r, (forall ks fuel, (forall d, d ∈ ks ↔ d ∈ sigless file defs) -> length defs <= fuel ->
      module_sccs file defs deps_of fuel ks = Done r) /\
    (forall d, d ∈ nodes file defs -> exists c, scc_of r d = Done (Some c) /\
      forall d', d' ∈ members c ↔ together file defs deps_of d d') /\
    (forall d, d ∉ nodes file defs -> scc_of r d = Done None) /\
    (forall c, c ∈ sccs r -> StronglySorted name_le (members c)).
Proof.
  intros Hd. pose proof (fun ks fuel => module_components file defs deps_of ks fuel Hd) as Hrun.
  destruct (Hrun (elements (sigless file defs)) (length defs)) as (cs & Hcs & P);
    [set_solver|done|].
  eexists. split; [|split; [|split]].
  - intros ks fuel Hks Hfuel. destruct (Hrun ks fuel Hks Hfuel) as (cs' & Hcs' & P').
    unfold module_sccs. rewrite Hcs'. simpl.
    rewrite (partition_unique _ _ _ _ _ P' P). reflexivity.
  - intros d. by apply (scc_of_partition _ _ _ _ _ _ P), sort_by_perm.
  - intros d. by apply (scc_of_partition _ _ _ _ _ _ P), sort_by_perm.
  - simpl. intros c Hc. rewrite sort_by_perm in Hc. by apply (pt_sorted _ _ _ _ P).
Qed.

(** ** Recursion *)

Lemma elem_of_extended (cs : list (list DefId)) : forall acc d,
  d ∈ foldl (fun (acc : gset DefId) c => if 1 <? length c then acc ∪ list_to_set c else acc) acc cs
  ↔ d ∈ acc \/ exists c, c ∈ cs /\ 1 < length c /\ d ∈ c.
Proof.
  induction cs as [|c cs IH]; intros acc d; simpl; [set_solver|].
  rewrite IH. destruct (Nat.ltb_spec 1 (length c)).
  - rewrite elem_of_union, elem_of_list_to_set. set_solver.
  - split; [set_solver|]. intros [?|(c' & [->|?]%elem_of_cons & ? & ?)]; [by left|lia|set_solver].
Qed.

Lemma tc_refers_loop file defs deps_of d :
  tc (refers file defs deps_of) d d ↔
  refers file defs deps_of d d \/ exists d', d' ≠ d /\ mutual (reference_graph file defs deps_of) d d'.
Proof.
  assert (forall a b, rtc (edge (reference_graph file defs deps_of)) a b ↔ rtc (refers file defs deps_of) a b) as Hr.
  { intros a b. split; apply rtc_mono; intros x y H; apply rtc_once; by apply edge_reference. }
  unfold mutual. setoid_rewrite Hr. split.
  - intros H. inversion H as [|? e ? He Htc]; subst; [by left|].
    destruct (decide (e = d)) as [->|Hne]; [by left|]. right. exists e.
    split; [done|]. split; [by apply rtc_once|by apply tc_rtc].
  - intros [H|(e & Hne & H1 & H2)]; [by apply tc_once|].
    eapply tc_rtc_r; [|exact H2]. apply rtc_inv in H1 as [->|(x & Hx & H1)]; [done|].
    eapply tc_rtc_r; [by apply tc_once|done].
Qed.

Lemma recursive_components file defs deps_of ks fuel :
  (forall d, d ∈ ks ↔ d ∈ nodes file defs) -> length defs <= fuel ->
  exists s, recursive_defs file defs deps_of fuel ks = Done s /\
    forall d, d ∈ s ↔ tc (refers file defs deps_of) d d.
Proof.
  intros Hks Hfuel. pose proof (nodes_size file defs) as Hsz.
  destruct (tarjan_components_spec (reference_graph file defs deps_of)) with
    (ks := sort_by name_le ks) (fuel := fuel) as (cs & Hcs & Hnd & Hall & Hcl).
  - intros v w (_ & Hw & _)%edge_reference. by apply is_Some_reference.
  - intros x. by rewrite sort_by_perm, Hks, is_Some_reference.
  - eapply length_dom; [apply is_Some_reference|lia].
  - unfold recursive_defs. rewrite Hcs. simpl. eexists. split; [done|]. intros d.
    rewrite elem_of_extended, tc_refers_loop.
    assert (d ∈ self_loops file defs deps_of ↔ refers file defs deps_of d d) as Hself
      by (unfold self_loops, refers; rewrite elem_of_filter; tauto).
    rewrite Hself. apply or_iff_compat_l. split.
    + intros (c & Hc & Hlen & Hd). destruct (Hcl c Hc) as [_ Hm].
      assert (NoDup c) as Hndc by (by eapply NoDup_concat_in).
      assert (exists d', d' ∈ c /\ d' ≠ d) as (d' & Hd' & Hne).
      { destruct c as [|x [|y c]]; simpl in Hlen; [lia..|]. apply NoDup_cons in Hndc as [Hx _].
        destruct (decide (x = d)) as [->|Hxd]; [|exists x; split; [left|done]].
        exists y. split; [right; left|]. intros ->. apply Hx. left. }
      exists d'. split; [done|]. by apply (Hm d Hd).
    + intros (d' & Hne & Hmut).
      assert (d ∈ concat cs) as (c & Hdc & Hc)%elem_of_concat.
      { apply Hall, is_Some_reference. destruct Hmut as [H _].
        apply rtc_inv in H as [->|(x & (? & _)%edge_reference & _)]; done. }
      destruct (Hcl c Hc) as [_ Hm]. exists c. split; [done|]. split; [|done].
      assert (d' ∈ c) as Hd' by (by apply (Hm d Hdc)).
      destruct c as [|x [|y c]]; [set_solver|set_solver|simpl; lia].
Qed.

(** C37: A definition counts as recursive exactly when it reaches itself.  [recursive_defs]
    returns, without a panic and whatever the order of the hash map's keys, the definitions of
    the file from which references between definitions of the file lead back in one step or
    more, directly or through others. *)
Theorem recursive_defs_spec file defs deps_of :
  exists s, (forall ks fuel, (forall d, d ∈ ks ↔ d ∈ nodes file defs) -> length defs <= fuel ->
      recursive_defs file defs deps_of fuel ks = Done s) /\
    forall d, d ∈ s ↔ tc (refers file defs deps_of) d d.
Proof.
  pose proof (fun ks fuel => recursive_components file defs deps_of ks fuel) as Hrun.
  destruct (Hrun (elements (nodes file defs)) (length defs)) as (s & Hs & Hspec); [set_solver|done|].
  exists s. split; [|done]. intros ks fuel Hks Hfuel.
  destruct (Hrun ks fuel Hks Hfuel) as (s' & Hs' & Hspec'). rewrite Hs'. f_equal.
  apply leibniz_equiv. intros d. by rewrite Hspec, Hspec'.
Qed.

Lemma module_sccs_classes_witness :
  exists r, module_sccs 0 Example_file.defs Example_file.deps_of 4 Example_file.ks = Done r /\
    exists c, scc_of r (Example_file.id "b") = Done (Some c) /\
      forall d', d' ∈ members c ↔ together 0 Example_file.defs Example_file.deps_of (Example_file.id "b") d'.
Proof.
  destruct (module_sccs_classes 0 Example_file.defs Example_file.deps_of) as (r & Hrun & Hscc & _).
  - vm_compute. repeat constructor; set_solver.
  - exists r. split; [apply Hrun; [|by vm_compute]|apply Hscc].
    + intros d. change (d ∈ Example_file.ks ↔ d ∈ (list_to_set [Example_file.id "c"; Example_file.id "b"; Example_file.id "a"] : gset DefId)).
      unfold Example_file.ks. set_solver.
    + by vm_compute.
Defined.

Example sccs_of_file :
  module_sccs 0 Example_file.defs Example_file.deps_of 4 Example_file.ks
  ≫= (fun r => Done (sccs r))
  = Done (MkScc <$> [[Example_file.id "a"; Example_file.id "b"]; [Example_file.id "c"]; [Example_file.id "d"]]).
Proof. vm_compute. reflexivity. Qed.
