(* ===== verification/Wire.v ===== *)
(** * The wire form of lowered definitions

    fai-core's [wire.rs]: a program shipped to a worker that has no database.
    Global names become module-qualified names, types are projected to the shape
    code generation distinguishes, and the worker assigns a synthetic source id
    to each module label as it meets it.  A [LocalId] is a [u32], so [slot] never
    fails and slots keep their index. *)

From S2P Require Import Prelude Types Ir.
From stdpp Require Import gmap list strings pretty.
From Stdlib Require Import ZArith Lia.

(** ** Wire data *)

(** [WireDefId] *)
Record WireDefId := MkWireDefId { wid_module : string; wid_name : string }.

#[export] Instance WireDefId_eq_dec : EqDecision WireDefId.
Proof. solve_decision. Defined.

(** [WireFieldIndex] *)
Inductive WireFieldIndex := WFI_Const (n : Z) | WFI_Dyn (base : Z) (evidence : nat).

(** [WireClosureAlloc] *)
Inductive WireClosureAlloc := WAlloc_Static | WAlloc_Stack | WAlloc_Heap.

(** [alloc_to_wire] and [alloc_from_wire] *)
Definition alloc_to_wire (a : ClosureAlloc) : WireClosureAlloc :=
  match a with
  | Alloc_Static => WAlloc_Static
  | Alloc_Stack => WAlloc_Stack
  | Alloc_Heap => WAlloc_Heap
  end.
Definition alloc_from_wire (a : WireClosureAlloc) : ClosureAlloc :=
  match a with
  | WAlloc_Static => Alloc_Static
  | WAlloc_Stack => Alloc_Stack
  | WAlloc_Heap => Alloc_Heap
  end.

(** [WireTy] *)
Inductive WireTy :=
| WT_Var | WT_Error | WT_Unit | WT_Int | WT_Float | WT_Bool | WT_Str | WT_Bytes | WT_Char
| WT_Tuple (elems : list WireTy)
| WT_Record (fields : list WireTy) (closed : bool)
| WT_List
| WT_ScalarList (element : WireTy)
| WT_Array
| WT_Adt
| WT_Interface
| WT_Arrow
| WT_LeafArray (element : WireTy).

(** [WireExpr] and [WireExprKind] *)
Inductive WireExpr :=
| WE (kind : WireExprKind) (ty : WireTy)
with WireExprKind :=
| W_Lit (l : Lit)
| W_Local (x : nat)
| W_Global (def : WireDefId)
| W_Prim (op : Prim) (args : list WireExpr)
| W_Foreign (symbol : string) (args : list WireExpr) (marshalled : bool)
| W_App (func : WireExpr) (args : list WireExpr) (reuse : list (option nat))
    (alloc : WireClosureAlloc)
| W_If (cond thn els : WireExpr)
| W_Let (local : nat) (value body : WireExpr)
| W_MakeClosure (func : nat) (captures : list nat) (alloc : WireClosureAlloc)
| W_Spread (components : list WireExpr)
| W_LetMany (locals : list nat) (value body : WireExpr)
| W_MakeData (tag : Z) (args : list WireExpr) (reuse : option nat) (scalars : Z)
    (niche : option NicheKind)
| W_DataTag (base : WireExpr) (niche : option NicheKind)
| W_DataField (base : WireExpr) (index : WireFieldIndex) (scalar : bool) (niche : option NicheKind)
| W_Reset (value : WireExpr) (token : nat) (body : WireExpr)
| W_FreeReuse (token : nat) (body : WireExpr)
| W_Dup (local : nat) (body : WireExpr)
| W_Drop (local : nat) (body : WireExpr)
| W_Join (params : list nat) (body : WireExpr)
| W_Recur (args : list WireExpr)
| W_HoleStart (hole : nat) (body : WireExpr)
| W_HoleFill (hole : nat) (cell : WireExpr) (field : Z)
| W_HoleClose (hole : nat) (base : WireExpr)
| W_Error.

(** [WireFn] *)
Record WireFn := MkWireFn { wf_params : list nat; wf_captures : list nat; wf_body : WireExpr }.

(** [WireDef] *)
Record WireDef := MkWireDef {
  wd_id : WireDefId;
  wd_arity : nat;
  wd_abi : FnAbi;
  wd_fns : list WireFn;
  wd_entry_borrowed : list bool;
  wd_reuse_entry : option WireFn;
  wd_reuse_sig : list Z;
  wd_entry_spread_params : list (option (list nat));
  wd_data_shapes : list (list (nat * DataShape));
  wd_bounds_entry : BoundSig;
  wd_bounds_result : ResultSig
}.

(** [WireBundle] *)
Record WireBundle := MkWireBundle {
  wb_entry : WireDefId;
  wb_runtime : WireDefId;
  wb_defs : list WireDef;
  wb_libraries : list string;
  wb_concurrent : bool
}.

(** [WireContract] and [TestWireBundle] *)
Record WireContract := MkWireContract {
  wc_id : WireDefId; wc_ordinal : nat; wc_seed : Z; wc_trials : Z; wc_max_size : Z
}.
Record TestWireBundle := MkTestWireBundle { tb_defs : list WireDef; tb_contracts : list WireContract }.

(** ** Types *)

(** [project_app_head] *)
Fixpoint project_app_head (head : Ty) : WireTy :=
  match head with
  | Ty_Con Con_List => WT_List
  | Ty_Con Con_Array => WT_Array
  | Ty_Adt _ => WT_Adt
  | Ty_Interface _ => WT_Interface
  | Ty_App inner _ => project_app_head inner
  | _ => WT_Var
  end.

(** The elements [ScalarList] keeps. *)
Definition scalar_element (t : Ty) : bool :=
  match t with
  | Ty_Unit | Ty_Con Con_Int | Ty_Con Con_Float | Ty_Con Con_Bool | Ty_Con Con_Char => true
  | _ => false
  end.
Definition is_list_con (t : Ty) : bool := match t with Ty_Con Con_List => true | _ => false end.

(** [project_ty] *)
Fixpoint project_ty (ty : Ty) : WireTy :=
  match ty with
  | Ty_Var _ => WT_Var
  | Ty_Error => WT_Error
  | Ty_Unit => WT_Unit
  | Ty_Con Con_Int => WT_Int
  | Ty_Con Con_Float => WT_Float
  | Ty_Con Con_Bool => WT_Bool
  | Ty_Con Con_String => WT_Str
  | Ty_Con Con_Bytes => WT_Bytes
  | Ty_Con Con_Char => WT_Char
  | Ty_Con Con_List => WT_List
  | Ty_Con Con_Array => WT_Array
  | Ty_Adt _ => WT_Adt
  | Ty_Interface _ => WT_Interface
  | Ty_EffectArg _ => WT_Var
  | Ty_Arrow _ _ _ => WT_Arrow
  | Ty_Tuple elems => WT_Tuple (project_ty <$> elems)
  | Ty_Record fields tail =>
      WT_Record ((fun p => project_ty p.2) <$> fields)
        (match tail with Row_Closed => true | Row_Open _ => false end)
  | Ty_App head element =>
      if is_list_con head && scalar_element element then WT_ScalarList (project_ty element)
      else if reference_free_array ty then WT_LeafArray (project_ty element)
      else project_app_head head
  end.

(** The label [format!("_{i}")] of field [i]. *)
Definition field_label (i : nat) : string := "_" +:+ pretty i.

(** [reconstruct_ty] *)
Fixpoint reconstruct_ty (w : WireTy) : Ty :=
  match w with
  | WT_Var => Ty_Var 0
  | WT_Error => Ty_Error
  | WT_Unit => Ty_Unit
  | WT_Int => Ty_Con Con_Int
  | WT_Float => Ty_Con Con_Float
  | WT_Bool => Ty_Con Con_Bool
  | WT_Str => Ty_Con Con_String
  | WT_Bytes => Ty_Con Con_Bytes
  | WT_Char => Ty_Con Con_Char
  | WT_Tuple elems => Ty_Tuple (reconstruct_ty <$> elems)
  | WT_Record fields closed =>
      Ty_Record (imap (fun i t => (field_label i, t)) (reconstruct_ty <$> fields))
        (if closed then Row_Closed else Row_Open 0)
  | WT_List => ty_list Ty_Error
  | WT_ScalarList element => ty_list (reconstruct_ty element)
  | WT_Array => ty_array Ty_Error
  | WT_LeafArray element => ty_array (reconstruct_ty element)
  | WT_Adt => Ty_Adt (MkAdtRef 0 "_Adt")
  | WT_Interface => Ty_Interface (MkInterfaceRef 0 "_Interface")
  | WT_Arrow => ty_arrow Ty_Error Ty_Error
  end.

(** ** Expressions, to wire *)

(** [slot] *)
Definition slot (local : LocalId) : nat := local.

(** [field_index_to_wire] and [field_index_from_wire] *)
Definition field_index_to_wire (index : FieldIndex) : WireFieldIndex :=
  match index with
  | FI_Const n => WFI_Const n
  | FI_Dyn base evidence => WFI_Dyn base (slot evidence)
  end.
Definition field_index_from_wire (index : WireFieldIndex) : FieldIndex :=
  match index with
  | WFI_Const n => FI_Const n
  | WFI_Dyn base evidence => FI_Dyn base evidence
  end.

Section ToWire.
(** The caller's map from a definition to its module label. *)
Context (module_of : DefId -> string).

(** [wire_id] *)
Definition wire_id (def : DefId) : WireDefId := MkWireDefId (module_of def) (def_name def).

(** [expr_to_wire] *)
Fixpoint expr_to_wire (e : CExpr) : WireExpr :=
  match e with
  | CE kind ty =>
      let kind :=
        match kind with
        | K_Lit lit => W_Lit lit
        | K_Local local => W_Local (slot local)
        | K_Global def => W_Global (wire_id def)
        | K_Prim op args => W_Prim op (expr_to_wire <$> args)
        | K_Foreign symbol args marshalled =>
            W_Foreign symbol (expr_to_wire <$> args) marshalled
        | K_App func args reuse alloc =>
            W_App (expr_to_wire func) (expr_to_wire <$> args) ((fun t : option LocalId => slot <$> t) <$> reuse)
              (alloc_to_wire alloc)
        | K_If cond thn els => W_If (expr_to_wire cond) (expr_to_wire thn) (expr_to_wire els)
        | K_Let local value body => W_Let (slot local) (expr_to_wire value) (expr_to_wire body)
        | K_MakeClosure func captures alloc =>
            W_MakeClosure func (slot <$> captures) (alloc_to_wire alloc)
        | K_Spread components => W_Spread (expr_to_wire <$> components)
        | K_LetMany locals value body =>
            W_LetMany (slot <$> locals) (expr_to_wire value) (expr_to_wire body)
        | K_MakeData tag args reuse scalars niche =>
            W_MakeData tag (expr_to_wire <$> args) (slot <$> reuse) scalars niche
        | K_DataTag base niche => W_DataTag (expr_to_wire base) niche
        | K_DataField base index scalar niche =>
            W_DataField (expr_to_wire base) (field_index_to_wire index) scalar niche
        | K_Reset value token body => W_Reset (expr_to_wire value) (slot token) (expr_to_wire body)
        | K_FreeReuse token body => W_FreeReuse (slot token) (expr_to_wire body)
        | K_Dup local body => W_Dup (slot local) (expr_to_wire body)
        | K_Drop local body => W_Drop (slot local) (expr_to_wire body)
        | K_Join params body => W_Join (slot <$> params) (expr_to_wire body)
        | K_Recur args => W_Recur (expr_to_wire <$> args)
        | K_HoleStart hole body => W_HoleStart (slot hole) (expr_to_wire body)
        | K_HoleFill hole cell field => W_HoleFill (slot hole) (expr_to_wire cell) field
        | K_HoleClose hole base => W_HoleClose (slot hole) (expr_to_wire base)
        | K_Error => W_Error
        end in
      WE kind (project_ty ty)
  end.

(** [fn_to_wire] *)
Definition fn_to_wire (f : CoreFn) : WireFn :=
  MkWireFn (slot <$> fn_params f) (slot <$> fn_captures f) (expr_to_wire (fn_body f)).

(** [def_to_wire] *)
Definition def_to_wire (lowered : LoweredDef) (arity : nat) (abi : FnAbi) (reuse_sig : list Z)
    (bounds_entry : BoundSig) (bounds_result : ResultSig) : WireDef :=
  MkWireDef (wire_id (ld_def lowered)) arity abi (fn_to_wire <$> ld_fns lowered)
    (entry_borrowed lowered) (fn_to_wire <$> reuse_entry lowered) reuse_sig
    ((fun o : option (list LocalId) => (fun v : list LocalId => slot <$> v) <$> o) <$>
      entry_spread_params lowered)
    ((fun shapes : list (LocalId * DataShape) => (fun p => (slot p.1, p.2)) <$> shapes) <$>
      data_shapes lowered) bounds_entry bounds_result.
End ToWire.

(** ** From wire *)

(** [SourceAssigner] *)
Record SourceAssigner := MkSources {
  by_label : gmap string SourceId;
  labels : gmap SourceId string
}.
Definition no_sources : SourceAssigner := MkSources ∅ ∅.

(** [SourceAssigner::source]; a module count past [u32] panics. *)
Definition source (module : string) : SM SourceAssigner SourceId :=
  fun st =>
    match by_label st !! module with
    | Some id => Some (id, st)
    | None =>
        let id := size (by_label st) in
        if (Z.of_nat id <? 2 ^ 32)%Z
        then Some (id, MkSources (<[module := id]> (by_label st)) (<[id := module]> (labels st)))
        else None
    end.

(** [SourceAssigner::def_id] *)
Definition def_id (id : WireDefId) : SM SourceAssigner DefId :=
  file ← source (wid_module id); mret (MkDefId file (wid_name id)).

(** [expr_from_wire] *)
Fixpoint expr_from_wire (e : WireExpr) : SM SourceAssigner CExpr :=
  match e with
  | WE kind ty =>
      kind ←
        match kind with
        | W_Lit lit => mret (K_Lit lit)
        | W_Local x => mret (K_Local x)
        | W_Global id => def ← def_id id; mret (K_Global def)
        | W_Prim op args => args ← smap expr_from_wire args; mret (K_Prim op args)
        | W_Foreign symbol args marshalled =>
            args ← smap expr_from_wire args; mret (K_Foreign symbol args marshalled)
        | W_App func args reuse alloc =>
            func ← expr_from_wire func;
            args ← smap expr_from_wire args;
            mret (K_App func args reuse (alloc_from_wire alloc))
        | W_If cond thn els =>
            cond ← expr_from_wire cond;
            thn ← expr_from_wire thn;
            els ← expr_from_wire els;
            mret (K_If cond thn els)
        | W_Let local value body =>
            value ← expr_from_wire value;
            body ← expr_from_wire body;
            mret (K_Let local value body)
        | W_MakeClosure func captures alloc =>
            mret (K_MakeClosure func captures (alloc_from_wire alloc))
        | W_Spread components =>
            components ← smap expr_from_wire components; mret (K_Spread components)
        | W_LetMany locals value body =>
            value ← expr_from_wire value;
            body ← expr_from_wire body;
            mret (K_LetMany locals value body)
        | W_MakeData tag args reuse scalars niche =>
            args ← smap expr_from_wire args; mret (K_MakeData tag args reuse scalars niche)
        | W_DataTag base niche => base ← expr_from_wire base; mret (K_DataTag base niche)
        | W_DataField base index scalar niche =>
            base ← expr_from_wire base;
            mret (K_DataField base (field_index_from_wire index) scalar niche)
        | W_Reset value token body =>
            value ← expr_from_wire value;
            body ← expr_from_wire body;
            mret (K_Reset value token body)
        | W_FreeReuse token body => body ← expr_from_wire body; mret (K_FreeReuse token body)
        | W_Dup local body => body ← expr_from_wire body; mret (K_Dup local body)
        | W_Drop local body => body ← expr_from_wire body; mret (K_Drop local body)
        | W_Join params body => body ← expr_from_wire body; mret (K_Join params body)
        | W_Recur args => args ← smap expr_from_wire args; mret (K_Recur args)
        | W_HoleStart hole body => body ← expr_from_wire body; mret (K_HoleStart hole body)
        | W_HoleFill hole cell field => cell ← expr_from_wire cell; mret (K_HoleFill hole cell field)
        | W_HoleClose hole base => base ← expr_from_wire base; mret (K_HoleClose hole base)
        | W_Error => mret K_Error
        end;
      mret (CE kind (reconstruct_ty ty))
  end.

(** [fn_from_wire] *)
Definition fn_from_wire (f : WireFn) : SM SourceAssigner CoreFn :=
  body ← expr_from_wire (wf_body f); mret (MkCoreFn (wf_params f) (wf_captures f) body).

(** [DefsFromWire] *)
Record DefsFromWire := MkDefsFromWire {
  dw_defs : list LoweredDef;
  dw_arities : gmap DefId nat;
  dw_abis : gmap DefId FnAbi;
  dw_bounds_entry : gmap DefId BoundSig;
  dw_bounds_result : gmap DefId ResultSig
}.

(** One turn of the loop of [defs_from_wire]. *)
Definition def_from_wire (wire : WireDef) (d : DefsFromWire) : SM SourceAssigner DefsFromWire :=
  id ← def_id (wd_id wire);
  fns ← smap fn_from_wire (wd_fns wire);
  reuse ← match wd_reuse_entry wire with
          | Some f => f ← fn_from_wire f; mret (Some f)
          | None => mret None
          end;
  mret (MkDefsFromWire
    (dw_defs d ++ [MkLoweredDef id fns (wd_entry_borrowed wire) reuse
       (wd_entry_spread_params wire) (wd_data_shapes wire)])
    (<[id := wd_arity wire]> (dw_arities d)) (<[id := wd_abi wire]> (dw_abis d))
    (<[id := wd_bounds_entry wire]> (dw_bounds_entry d))
    (<[id := wd_bounds_result wire]> (dw_bounds_result d))).

(** [defs_from_wire] *)
Fixpoint defs_from (wires : list WireDef) (d : DefsFromWire) : SM SourceAssigner DefsFromWire :=
  match wires with
  | [] => mret d
  | w :: wires => d ← def_from_wire w d; defs_from wires d
  end.
Definition defs_from_wire (wires : list WireDef) : SM SourceAssigner DefsFromWire :=
  defs_from wires (MkDefsFromWire [] ∅ ∅ ∅ ∅).

(** [Rebuilt]: the definitions and side tables, the entry and runtime, and the labels. *)
Record Rebuilt := MkRebuilt {
  rb_defs : DefsFromWire; rb_entry : DefId; rb_runtime : DefId; rb_labels : gmap SourceId string
}.

(** [from_wire] *)
Definition from_wire (bundle : WireBundle) : option Rebuilt :=
  match (entry ← def_id (wb_entry bundle);
         runtime ← def_id (wb_runtime bundle);
         d ← defs_from_wire (wb_defs bundle);
         mret (entry, runtime, d)) no_sources with
  | Some (entry, runtime, d, st) => Some (MkRebuilt d entry runtime (labels st))
  | None => None
  end.

(** [TestContract] and [RebuiltTest] *)
Record TestContract := MkTestContract {
  tc_def : DefId; tc_ordinal : nat; tc_seed : Z; tc_trials : Z; tc_max_size : Z
}.
Record RebuiltTest := MkRebuiltTest {
  rt_defs : DefsFromWire; rt_contracts : list TestContract; rt_labels : gmap SourceId string
}.

(** [from_wire_test] *)
Definition from_wire_test (bundle : TestWireBundle) : option RebuiltTest :=
  match (d ← defs_from_wire (tb_defs bundle);
         contracts ← smap (fun c =>
           def ← def_id (wc_id c);
           mret (MkTestContract def (wc_ordinal c) (wc_seed c) (wc_trials c) (wc_max_size c)))
           (tb_contracts bundle);
         mret (d, contracts)) no_sources with
  | Some (d, contracts, st) => Some (MkRebuiltTest d contracts (labels st))
  | None => None
  end.
