(* ===== verification/WireProps.v ===== *)
(** * What survives the wire

    Types keep their code-generation class, modules get distinct stable ids, and
    bundles round-trip up to that renaming. *)

From S2P Require Import Prelude Types Ir Wire.
From stdpp Require Import gmap list strings pretty.
From Stdlib Require Import ZArith Lia.

(** The type the worker sees. *)
Definition retype (ty : Ty) : Ty := reconstruct_ty (project_ty ty).

(** The heads a type constructor application can have. *)
Fixpoint head_ok (head : Ty) : bool :=
  match head with
  | Ty_Adt _ | Ty_Interface _ | Ty_Con Con_List | Ty_Con Con_Array => true
  | Ty_App h _ => head_ok h
  | _ => false
  end.

(** A type a value can have: applications are headed by a type constructor, and an effect
    argument is not a value's type. *)
Definition value_ty (ty : Ty) : bool :=
  match ty with
  | Ty_App h _ => head_ok h
  | Ty_EffectArg _ => false
  | _ => true
  end.

(** ** Types *)

Lemma retype_app h a :
  retype (Ty_App h a) =
  if is_list_con h && scalar_element a then ty_list a
  else if reference_free_array (Ty_App h a) then ty_array a
  else reconstruct_ty (project_app_head h).
Proof.
  unfold retype. cbn [project_ty].
  destruct (is_list_con h && scalar_element a) eqn:E.
  - apply andb_true_iff in E as [_ E]. simpl. f_equal. by destruct a as [|[]| | | | | | | | |].
  - destruct (reference_free_array _) eqn:R; [|done].
    simpl. f_equal. destruct h as [|[]| | | | | | | | |]; try done.
    by destruct a as [|[]| | | | | | | | |].
Qed.

Lemma head_ok_class h :
  head_ok h = true ->
  boxed_head h = true ∧ uniform h = true ∧
  (exists t, reconstruct_ty (project_app_head h) = t ∧ boxed_head t = true ∧ uniform t = true ∧
     is_ty_var t = false ∧ is_float t = false).
Proof.
  induction h as [|c| | | |h a IH _| | | | |] using Ty_nested_ind; try done; simpl.
  - destruct c; try done; intros _; split_and!; try done; eexists; by split_and!.
  - intros _; split_and!; try done; eexists; by split_and!.
  - intros _; split_and!; try done; eexists; by split_and!.
Qed.

Lemma retype_value ty :
  value_ty ty = true ->
  is_boxed_rc (retype ty) = is_boxed_rc ty ∧ is_ty_var (retype ty) = is_ty_var ty ∧
  uniform (retype ty) = uniform ty.
Proof.
  destruct ty as [v|c|a|i|e|h a|f t e|l|fs tl| |]; try done; simpl.
  - by destruct c.
  - intros Hh. rewrite retype_app.
    destruct (head_ok_class h Hh) as (H1 & H2 & t & -> & H3 & H4 & H5 & H6).
    destruct (is_list_con h && scalar_element a) eqn:E.
    { apply andb_true_iff in E as [E _]. by destruct h as [|[]| | | | | | | | |]. }
    destruct (reference_free_array _) eqn:R.
    { by destruct h as [|[]| | | | | | | | |]. }
    rewrite H1, H2, H4, H5. split_and!; try done. by destruct t as [|[]| | | | | | | | |].
Qed.

Lemma is_float_retype ty : is_float (retype ty) = is_float ty.
Proof.
  destruct ty as [v|c|a|i|e|h a|f t e|l|fs tl| |]; try done; [by destruct c|].
  rewrite retype_app. destruct (_ && _); [done|]. destruct (reference_free_array _); [done|].
  simpl. clear. induction h as [|c| | | |h a IH _| | | | |] using Ty_nested_ind; try done. by destruct c.
Qed.

Lemma retype_tuple l : retype (Ty_Tuple l) = Ty_Tuple (retype <$> l).
Proof. unfold retype. simpl. by rewrite <- list_fmap_compose. Qed.

Lemma retype_record fs tl :
  retype (Ty_Record fs tl) =
  Ty_Record (imap (fun i t => (field_label i, t)) (retype <$> fs.*2))
    (match tl with Row_Closed => Row_Closed | Row_Open _ => Row_Open 0 end).
Proof.
  unfold retype. simpl. f_equal; [|by destruct tl]. f_equal. rewrite <- !list_fmap_compose. done.
Qed.

Lemma forallb_fmap {A B} (f : A -> B) (p : B -> bool) l : forallb p (f <$> l) = forallb (p ∘ f) l.
Proof. induction l as [|x l IH]; [done|]. simpl. by rewrite <- IH. Qed.

Lemma forallb_ext_eq {A} (p q : A -> bool) l : (forall x, p x = q x) -> forallb p l = forallb q l.
Proof. intros H. induction l as [|x l IH]; [done|]. simpl. by rewrite H, IH. Qed.

Lemma imap_snd {A B} (f : nat -> A -> B) (l : list A) : (imap (fun i t => (f i t, t)) l).*2 = l.
Proof. revert f. induction l as [|x l IH]; intros f; [done|]. simpl. f_equal.
  apply (IH (fun i => f (S i))). Qed.

Lemma forallb_snd {A B} (p : B -> bool) (l : list (A * B)) :
  forallb (fun x => p x.2) l = forallb p l.*2.
Proof. by rewrite forallb_fmap. Qed.

Lemma retype_not_aggregate h a :
  (forall l, retype (Ty_App h a) <> Ty_Tuple l) ∧
  (forall fs tl, retype (Ty_App h a) <> Ty_Record fs tl).
Proof.
  rewrite retype_app. destruct (_ && _); [done|]. destruct (reference_free_array _); [done|].
  induction h as [|c| | | |h b IH _| | | | |] using Ty_nested_ind; try done. by destruct c.
Qed.

Lemma aggregate_retype ty :
  aggregate_field_types (retype ty) = (fun ts : list Ty => retype <$> ts) <$> aggregate_field_types ty.
Proof.
  destruct ty as [v|c|a|i|e|h a|f t e|l|fs tl| |]; try done.
  - by destruct c.
  - destruct (retype_not_aggregate h a) as [H1 H2]. destruct (retype (Ty_App h a)); try done.
    + by destruct (H1 elems). + by destruct (H2 fields tail).
  - by rewrite retype_tuple.
  - rewrite retype_record. destruct tl; [|done]. simpl. f_equal.
    by rewrite (imap_snd (fun i _ => field_label i)).
Qed.

Lemma ffa_retype ty : ffa_arity (retype ty) = ffa_arity ty.
Proof.
  destruct ty as [v|c|a|i|e|h a|f t e|l|fs tl| |]; try done.
  - by destruct c.
  - destruct (retype_not_aggregate h a) as [H1 H2]. destruct (retype (Ty_App h a)); try done.
    + by destruct (H1 elems). + by destruct (H2 fields tail).
  - rewrite retype_tuple. simpl. rewrite forallb_fmap, length_fmap.
    by rewrite (forallb_ext_eq _ is_float) by apply is_float_retype.
  - rewrite retype_record. destruct tl; [|done]. cbn [ffa_arity]. rewrite !forallb_snd, (imap_snd (fun i _ => field_label i)).
    rewrite length_imap, !length_fmap, forallb_fmap.
    by rewrite (forallb_ext_eq _ is_float) by apply is_float_retype.
Qed.

Lemma rfa_retype ty : reference_free_array (retype ty) = reference_free_array ty.
Proof.
  destruct ty as [v|c|a|i|e|h a|f t e|l|fs tl| |]; try done.
  - by destruct c.
  - rewrite retype_app. destruct (is_list_con h && scalar_element a) eqn:E.
    { apply andb_true_iff in E as [E _]. by destruct h as [|[]| | | | | | | | |]. }
    destruct (reference_free_array (Ty_App h a)) eqn:R.
    { by destruct h as [|[]| | | | | | | | |]. }
    clear. induction h as [|c| | | |h b IH _| | | | |] using Ty_nested_ind; try done. by destruct c.
Qed.

Lemma mask_retype ts : scalar_field_mask (retype <$> ts) = scalar_field_mask ts.
Proof.
  unfold scalar_field_mask. generalize 0%Z, 0. induction ts as [|t ts IH]; intros m i; [done|].
  simpl. rewrite is_float_retype. apply IH.
Qed.

(** The worker classifies every value's type as the warm path does.  For a type a value can
    have, reconstruction after projection keeps whether it is a boxed cell, a type variable or
    uniform, hence every primitive's borrow decision at every position; and for any type it
    keeps fixed-shape float aggregates, reference-free arrays, float fields and the arity of
    aggregates. *)
Theorem retype_class ty :
  value_ty ty = true ->
  is_boxed_rc (retype ty) = is_boxed_rc ty ∧
  (forall p i, borrows_argument p i (retype ty) = borrows_argument p i ty) ∧
  ffa_arity (retype ty) = ffa_arity ty ∧ reference_free_array (retype ty) = reference_free_array ty ∧
  is_float (retype ty) = is_float ty ∧
  aggregate_field_types (retype ty) =
    (fun ts : list Ty => retype <$> ts) <$> aggregate_field_types ty.
Proof.
  intros Hv. destruct (retype_value ty Hv) as (H1 & H2 & H3).
  split_and!; [done| |apply ffa_retype|apply rfa_retype|apply is_float_retype|apply aggregate_retype].
  intros p i. unfold borrows_argument, borrows_operand. by rewrite H1, H2.
Qed.

Lemma retype_class_witness :
  is_boxed_rc (retype (ty_list (Ty_Var 3))) = is_boxed_rc (ty_list (Ty_Var 3)).
Proof. apply (retype_class (ty_list (Ty_Var 3))). reflexivity. Defined.

Lemma project_app_head_stable h : project_ty (reconstruct_ty (project_app_head h)) = project_app_head h.
Proof. induction h as [|c| | | |h b IH _| | | | |] using Ty_nested_ind; try done. by destruct c. Qed.

Lemma fmap_snd {A B D} (f : B -> D) (l : list (A * B)) : (fun p => f p.2) <$> l = f <$> l.*2.
Proof. by rewrite <- list_fmap_compose. Qed.

(** Projecting a reconstructed type gives the projection back, for every type: a program
    rebuilt by a worker and shipped again is the same program on the wire. *)
Theorem project_stable ty : project_ty (retype ty) = project_ty ty.
Proof.
  induction ty as [v|c|a|i|e|h a IHh IHa|f t e|l IH|fs tl IH| |] using Ty_nested_ind; try done.
  - by destruct c.
  - rewrite retype_app. cbn [project_ty]. destruct (is_list_con h && scalar_element a) eqn:E.
    { apply andb_true_iff in E as [_ E]. simpl. by rewrite E. }
    destruct (reference_free_array (Ty_App h a)) eqn:R; [|apply project_app_head_stable].
    cbn [project_ty ty_array]. simpl (is_list_con _ && _). cbv iota.
    destruct h as [|[]| | | | | | | | |]; try done. simpl in R |- *. by rewrite R.
  - rewrite retype_tuple. simpl. f_equal. rewrite <- list_fmap_compose.
    apply list_fmap_ext. intros i x Hx. rewrite Forall_forall in IH.
    apply (IH x). by eapply list_elem_of_lookup_2.
  - rewrite retype_record. simpl. f_equal; [|by destruct tl].
    rewrite !fmap_snd, (imap_snd (fun i _ => field_label i)).
    rewrite <- !list_fmap_compose. apply list_fmap_ext. intros i x Hx. rewrite Forall_forall in IH.
    apply (IH x). by eapply list_elem_of_lookup_2.
Qed.

(** ** Source ids *)

(** The two tables are inverse, and ids are allocated densely. *)
Record sources_wf (st : SourceAssigner) : Prop := {
  wf_inverse : forall m i, by_label st !! m = Some i ↔ labels st !! i = Some m;
  wf_dense : forall i, is_Some (labels st !! i) ↔ i < size (by_label st);
}.

Definition extends (st st' : SourceAssigner) : Prop :=
  by_label st ⊆ by_label st' ∧ labels st ⊆ labels st'.

#[export] Instance extends_preorder : PreOrder extends.
Proof.
  split; [by intros st; split|]. intros a b c [H1 H2] [H3 H4].
  split; by etransitivity.
Qed.

Lemma no_sources_wf : sources_wf no_sources.
Proof.
  split; unfold no_sources; simpl; intros.
  - by rewrite !lookup_empty.
  - rewrite lookup_empty, map_size_empty. split; [by intros []|lia].
Qed.

Lemma source_step m st id st' :
  sources_wf st -> source m st = Some (id, st') ->
  sources_wf st' ∧ extends st st' ∧ by_label st' !! m = Some id.
Proof.
  intros [Hinv Hden] Hs. unfold source in Hs.
  destruct (by_label st !! m) as [i|] eqn:E; [by simplify_eq|].
  case_match; [|done]. injection Hs as <- <-. set (n := size (by_label st)) in *.
  assert (Hn : labels st !! n = None).
  { apply eq_None_not_Some. rewrite Hden. unfold n. lia. }
  split_and!; simpl.
  - split; simpl.
    + intros m' i. destruct (decide (m = m')) as [<-|Hm], (decide (n = i)) as [<-|Hi];
        rewrite ?lookup_insert_eq, ?lookup_insert_ne by done; try naive_solver.
    + intros i. rewrite map_size_insert_None by done. fold n.
      destruct (decide (n = i)) as [<-|Hi].
      * rewrite lookup_insert_eq. split; [lia|eauto].
      * rewrite lookup_insert_ne, Hden by done. fold n. lia.
  - split; simpl; by apply insert_subseteq.
  - by rewrite lookup_insert_eq.
Qed.

(** A request adds one id at most, and fails only at [u32]'s end. *)
Lemma source_size m st :
  match source m st with
  | Some (_, st') => size (by_label st') <= size (by_label st) + 1
  | None => (2 ^ 32 <= Z.of_nat (size (by_label st)))%Z
  end.
Proof.
  unfold source. destruct (by_label st !! m) eqn:E; [lia|].
  destruct (Z.ltb_spec (Z.of_nat (size (by_label st))) (2 ^ 32)) as [Ht|Ht]; [|exact Ht].
  simpl. rewrite map_size_insert_None by done. lia.
Qed.

(** Source ids are stable and distinct.  Starting from well-formed tables, asking for a
    module's id leaves every id already given out in place, records the module's label under
    its id, gives the same id again for the same module and different ids to different ones. *)
Theorem source_assigns m1 m2 st id1 st1 id2 st2 :
  sources_wf st -> source m1 st = Some (id1, st1) -> source m2 st1 = Some (id2, st2) ->
  sources_wf st2 ∧ extends st st2 ∧ labels st2 !! id1 = Some m1 ∧ labels st2 !! id2 = Some m2 ∧
  (id1 = id2 ↔ m1 = m2).
Proof.
  intros Hwf H1 H2. destruct (source_step _ _ _ _ Hwf H1) as (W1 & X1 & B1).
  destruct (source_step _ _ _ _ W1 H2) as (W2 & X2 & B2).
  assert (B1' : by_label st2 !! m1 = Some id1) by (eapply lookup_weaken; [exact B1|apply X2]).
  pose proof (wf_inverse _ W2) as Hi. split_and!; [done|by etransitivity|by apply Hi|by apply Hi|].
  split; [intros <-|intros <-; congruence].
  apply Hi in B1', B2. congruence.
Qed.

Lemma source_assigns_witness :
  exists st1 st2, source "A" no_sources = Some (0, st1) ∧ source "B" st1 = Some (1, st2) ∧
    labels st2 !! 1 = Some "B"%string.
Proof.
  eexists _, _. split; [vm_compute; reflexivity|]. split; [vm_compute; reflexivity|].
  eapply (source_assigns "A" "B" no_sources); [apply no_sources_wf|vm_compute; reflexivity..].
Defined.

(** ** Renaming a program *)

Section MapExpr.
Context (fd : DefId -> DefId) (ft : Ty -> Ty).

Fixpoint map_expr (e : CExpr) : CExpr :=
  match e with
  | CE kind ty =>
      CE (match kind with
          | K_Global d => K_Global (fd d)
          | K_Lit _ | K_Local _ | K_MakeClosure _ _ _ | K_Error => kind
          | K_Prim op args => K_Prim op (map_expr <$> args)
          | K_Foreign s args m => K_Foreign s (map_expr <$> args) m
          | K_App f args reuse alloc => K_App (map_expr f) (map_expr <$> args) reuse alloc
          | K_If c t e => K_If (map_expr c) (map_expr t) (map_expr e)
          | K_Let l v b => K_Let l (map_expr v) (map_expr b)
          | K_Spread cs => K_Spread (map_expr <$> cs)
          | K_LetMany ls v b => K_LetMany ls (map_expr v) (map_expr b)
          | K_MakeData tag args reuse sc n => K_MakeData tag (map_expr <$> args) reuse sc n
          | K_DataTag b n => K_DataTag (map_expr b) n
          | K_DataField b i s n => K_DataField (map_expr b) i s n
          | K_Reset v t b => K_Reset (map_expr v) t (map_expr b)
          | K_FreeReuse t b => K_FreeReuse t (map_expr b)
          | K_Dup l b => K_Dup l (map_expr b)
          | K_Drop l b => K_Drop l (map_expr b)
          | K_Join ps b => K_Join ps (map_expr b)
          | K_Recur args => K_Recur (map_expr <$> args)
          | K_HoleStart h b => K_HoleStart h (map_expr b)
          | K_HoleFill h c f => K_HoleFill h (map_expr c) f
          | K_HoleClose h b => K_HoleClose h (map_expr b)
          end) (ft ty)
  end.

Definition map_fn (f : CoreFn) : CoreFn :=
  MkCoreFn (fn_params f) (fn_captures f) (map_expr (fn_body f)).
Definition map_def (d : LoweredDef) : LoweredDef :=
  MkLoweredDef (fd (ld_def d)) (map_fn <$> ld_fns d) (entry_borrowed d) (map_fn <$> reuse_entry d)
    (entry_spread_params d) (data_shapes d).
End MapExpr.

(** ** The globals of a tree *)

Fixpoint globals (e : CExpr) : list DefId :=
  match e with
  | CE kind _ =>
      match kind with
      | K_Global d => [d]
      | K_Lit _ | K_Local _ | K_MakeClosure _ _ _ | K_Error => []
      | K_Prim _ args | K_Foreign _ args _ | K_MakeData _ args _ _ _ | K_Spread args
      | K_Recur args => mjoin (globals <$> args)
      | K_App f args _ _ => globals f ++ mjoin (globals <$> args)
      | K_If c t e => globals c ++ globals t ++ globals e
      | K_Let _ v b | K_LetMany _ v b | K_Reset v _ b => globals v ++ globals b
      | K_DataTag b _ | K_DataField b _ _ _ | K_FreeReuse _ b | K_Dup _ b | K_Drop _ b
      | K_Join _ b | K_HoleStart _ b | K_HoleFill _ b _ | K_HoleClose _ b => globals b
      end
  end.

Lemma collect_globals_app e : forall out, collect_globals e out = out ++ globals e.
Proof.
  induction e as [[k t] IH] using CExpr_children_ind. intros out.
  assert (Hargs : forall args out, Forall (fun e => forall out, collect_globals e out = out ++ globals e) args ->
    foldl (fun out a => collect_globals a out) out args = out ++ mjoin (globals <$> args)).
  { intros args out' Ha. revert out'. induction Ha as [|a args Ha _ IHa]; intros out'.
    - simpl. by rewrite app_nil_r.
    - simpl. rewrite IHa, Ha. by rewrite <- app_assoc. }
  destruct k; simpl in IH; try (apply Forall_cons in IH as [IH1 IH]);
    try (apply Forall_cons in IH as [IH2 IH]); try (apply Forall_cons in IH as [IH3 _]); simpl;
    rewrite ?Hargs, ?IH3, ?IH2, ?IH1, ?app_nil_r, <- ?app_assoc by done; done.
Qed.

(** The globals [referenced_globals] returns are exactly those of the bodies, each
    occurrence once, in the order of the functions and of evaluation. *)
Theorem referenced_globals_spec d :
  referenced_globals d = mjoin ((fun f => globals (fn_body f)) <$> ld_fns d).
Proof.
  unfold referenced_globals. cut (forall out,
    foldl (fun out f => collect_globals (fn_body f) out) out (ld_fns d) =
    out ++ mjoin ((fun f => globals (fn_body f)) <$> ld_fns d)); [intros H; apply H|].
  induction (ld_fns d) as [|f fs IH]; intros out; simpl; [by rewrite app_nil_r|].
  rewrite IH, collect_globals_app. by rewrite <- app_assoc.
Qed.

(** ** Round trip *)

Section RoundTrip.
Context (module_of : DefId -> string).

(** The identity the worker gives a definition, once it has met its module. *)
Definition relocate (st : SourceAssigner) (d : DefId) : DefId :=
  MkDefId (default 0 (by_label st !! module_of d)) (def_name d).

Definition assigned (st : SourceAssigner) (d : DefId) : Prop := is_Some (by_label st !! module_of d).

(** A reconstruction that keeps the tables well-formed, only extends them, gives the modules
    of [ds] their ids, and returns [f] of any later state of the tables; it fails only when
    these modules would run past [u32]. *)
Definition gives {A} (m : SM SourceAssigner A) (f : SourceAssigner -> A) (ds : list DefId) : Prop :=
  forall st, sources_wf st ->
    match m st with
    | Some (a, st') =>
        (sources_wf st' ∧ extends st st' ∧ Forall (assigned st') ds ∧
         forall sf, extends st' sf -> a = f sf) ∧
        size (by_label st') <= size (by_label st) + length ds
    | None => (2 ^ 32 < Z.of_nat (size (by_label st) + length ds))%Z
    end.

Lemma assigned_extends st st' ds : extends st st' -> Forall (assigned st) ds -> Forall (assigned st') ds.
Proof.
  intros [H _] Hd. eapply Forall_impl; [exact Hd|]. intros d [i Hi]. exists i. by eapply lookup_weaken.
Qed.

Lemma gives_ret {A} (a : A) : gives (mret a) (fun _ => a) [].
Proof. intros st Hwf. simpl. split_and!; try done. lia. Qed.

Lemma gives_ext {A} (m : SM SourceAssigner A) f g ds :
  gives m f ds -> (forall sf, f sf = g sf) -> gives m g ds.
Proof.
  intros H E st Hwf. specialize (H st Hwf). destruct (m st) as [[a st']|]; [|done].
  destruct H as [(H1 & H2 & H3 & H4) H5]. split_and!; try done.
  intros sf Hsf. rewrite <- E. by apply H4.
Qed.

Lemma gives_bind {A B} (m : SM SourceAssigner A) (k : A -> SM SourceAssigner B) f g ds1 ds2 :
  gives m f ds1 -> (forall a, gives (k a) (g a) ds2) ->
  gives (m ≫= k) (fun sf => g (f sf) sf) (ds1 ++ ds2).
Proof.
  intros Hm Hk st Hwf. unfold mbind, sm_bind. specialize (Hm st Hwf). rewrite length_app.
  destruct (m st) as [[a st1]|]; [|lia].
  destruct Hm as [(W1 & X1 & D1 & F1) S1]. specialize (Hk a st1 W1).
  destruct (k a st1) as [[b st2]|]; [|lia]. destruct Hk as [(W2 & X2 & D2 & F2) S2].
  split_and!; [done|apply (transitivity X1 X2)..| | |lia].
  - apply Forall_app. split; [by eapply assigned_extends|done].
  - intros sf Hsf. rewrite <- (F1 sf) by (by etransitivity). by apply F2.
Qed.

Lemma gives_map {A B} (m : SM SourceAssigner A) (h : A -> B) f ds :
  gives m f ds -> gives (a ← m; mret (h a)) (fun sf => h (f sf)) ds.
Proof.
  intros Hm. rewrite <- (app_nil_r ds).
  apply (gives_bind m (fun a => mret (h a)) f (fun a _ => h a)); [done|].
  intros a. apply gives_ret.
Qed.

Lemma gives_smap {A B D} (op : B -> SM SourceAssigner D) (h : A -> B) (F : A -> SourceAssigner -> D)
    (G : A -> list DefId) xs :
  Forall (fun x => gives (op (h x)) (F x) (G x)) xs ->
  gives (smap op (h <$> xs)) (fun sf => (fun x => F x sf) <$> xs) (mjoin (G <$> xs)).
Proof.
  induction 1 as [|x xs Hx _ IH]; [apply gives_ret|].
  change (gives (y ← op (h x); ys ← smap op (h <$> xs); mret (y :: ys))
    (fun sf => F x sf :: ((fun x => F x sf) <$> xs)) (G x ++ mjoin (G <$> xs))).
  apply (gives_bind (op (h x)) _ (F x) (fun a sf => a :: ((fun x => F x sf) <$> xs)) _ _ Hx).
  intros a. by apply (gives_map _ (cons a)).
Qed.

Lemma gives_def_id d : gives (def_id (wire_id module_of d)) (fun sf => relocate sf d) [d].
Proof.
  intros st Hwf. unfold def_id, mbind, sm_bind. pose proof (source_size (module_of d) st) as Hs.
  simpl. destruct (source _ st) as [[i st1]|] eqn:Es; [|simpl; lia].
  destruct (source_step _ _ _ _ Hwf Es) as (W & X & B). simpl in B.
  split_and!; [done|apply X..| | |simpl; lia].
  - constructor; [by exists i|constructor].
  - intros sf [Hsf _]. unfold relocate. by rewrite (lookup_weaken _ _ _ _ B Hsf).
Qed.

Lemma slots_id (ls : list LocalId) : slot <$> ls = ls.
Proof. apply list_fmap_id. Qed.
Lemma tokens_id (ts : list (option LocalId)) : (fun t : option LocalId => slot <$> t) <$> ts = ts.
Proof. rewrite <- (list_fmap_id ts) at 2. apply list_fmap_ext. by intros i [|] _. Qed.
Lemma alloc_round a : alloc_from_wire (alloc_to_wire a) = a.
Proof. by destruct a. Qed.
Lemma index_round i : field_index_from_wire (field_index_to_wire i) = i.
Proof. by destruct i. Qed.

Lemma expr_gives e :
  gives (expr_from_wire (expr_to_wire module_of e)) (fun sf => map_expr (relocate sf) retype e) (globals e).
Proof.
  induction e as [[k t] IH] using CExpr_children_ind.
  cbn [expr_to_wire expr_from_wire map_expr].
  apply (gives_map _ (fun kind => CE kind (reconstruct_ty (project_ty t)))).
  destruct k; simpl in IH; try (apply Forall_cons in IH as [IH1 IH]);
    try (apply Forall_cons in IH as [IH2 IH]); try (apply Forall_cons in IH as [IH3 _]);
    rewrite ?slots_id, ?tokens_id, ?alloc_round, ?index_round; cbn [globals]; try apply gives_ret.
  - by apply (gives_map _ K_Global), gives_def_id.
  - by apply (gives_map _ (K_Prim op)), gives_smap.
  - by apply (gives_map _ (fun args => K_Foreign symbol args marshalled)), gives_smap.
  - eapply (gives_bind _ _ _ (fun f sf => K_App f (map_expr (relocate sf) retype <$> args) reuse alloc) _ _ IH1).
    intros f. by apply (gives_map _ (fun args => K_App f args reuse alloc)), gives_smap.
  - eapply (gives_bind _ _ _ (fun c sf => K_If c _ _) _ _ IH1). intros c.
    eapply (gives_bind _ _ _ (fun a sf => K_If c a _) _ _ IH2). intros a. apply (gives_map _ (K_If c a) _ _ IH3).
  - eapply (gives_bind _ _ _ (fun v sf => K_Let local v _) _ _ IH1). intros v.
    apply (gives_map _ (K_Let local v) _ _ IH2).
  - by apply (gives_map _ K_Spread), gives_smap.
  - eapply (gives_bind _ _ _ (fun v sf => K_LetMany locals v _) _ _ IH1). intros v.
    apply (gives_map _ (K_LetMany locals v) _ _ IH2).
  - apply (gives_ext _ (fun sf => K_MakeData tag (map_expr (relocate sf) retype <$> args) (slot <$> reuse) scalars niche)).
    + by apply (gives_map _ (fun args => K_MakeData tag args (slot <$> reuse) scalars niche)), gives_smap.
    + intros sf. by destruct reuse.
  - apply (gives_map _ (fun b => K_DataTag b niche) _ _ IH1).
  - apply (gives_map _ (fun b => K_DataField b index scalar niche) _ _ IH1).
  - eapply (gives_bind _ _ _ (fun v sf => K_Reset v token _) _ _ IH1). intros v.
    apply (gives_map _ (K_Reset v token) _ _ IH2).
  - apply (gives_map _ (K_FreeReuse token) _ _ IH1).
  - apply (gives_map _ (K_Dup local) _ _ IH1).
  - apply (gives_map _ (K_Drop local) _ _ IH1).
  - apply (gives_map _ (K_Join params) _ _ IH1).
  - by apply (gives_map _ K_Recur), gives_smap.
  - apply (gives_map _ (K_HoleStart hole) _ _ IH1).
  - apply (gives_map _ (fun c => K_HoleFill hole c field) _ _ IH1).
  - apply (gives_map _ (K_HoleClose hole) _ _ IH1).
Qed.

Lemma fn_gives f :
  gives (fn_from_wire (fn_to_wire module_of f)) (fun sf => map_fn (relocate sf) retype f)
    (globals (fn_body f)).
Proof.
  unfold fn_from_wire, fn_to_wire. simpl. rewrite !slots_id.
  apply (gives_map _ (MkCoreFn (fn_params f) (fn_captures f))), expr_gives.
Qed.

(** A definition as it is shipped, with the tables computed for it. *)
Record Shipped := MkShipped {
  sh_def : LoweredDef; sh_arity : nat; sh_abi : FnAbi; sh_sig : list Z;
  sh_entry : BoundSig; sh_result : ResultSig
}.
Definition ship (x : Shipped) : WireDef :=
  def_to_wire module_of (sh_def x) (sh_arity x) (sh_abi x) (sh_sig x) (sh_entry x) (sh_result x).

(** One definition added to the rebuilt program. *)
Definition add_rebuilt (x : Shipped) (d : DefsFromWire) (sf : SourceAssigner) : DefsFromWire :=
  let id := relocate sf (ld_def (sh_def x)) in
  MkDefsFromWire (dw_defs d ++ [map_def (relocate sf) retype (sh_def x)])
    (<[id := sh_arity x]> (dw_arities d)) (<[id := sh_abi x]> (dw_abis d))
    (<[id := sh_entry x]> (dw_bounds_entry d)) (<[id := sh_result x]> (dw_bounds_result d)).

(** Every definition a shipped one names: itself, and its bodies' globals. *)
Definition named (x : Shipped) : list DefId :=
  ld_def (sh_def x) :: referenced_globals (sh_def x) ++
  match reuse_entry (sh_def x) with Some f => globals (fn_body f) | None => [] end.

Lemma spread_id (os : list (option (list LocalId))) :
  (fun o : option (list LocalId) => (fun v : list LocalId => slot <$> v) <$> o) <$> os = os.
Proof.
  rewrite <- (list_fmap_id os) at 2. apply list_fmap_ext. intros i [v|] _; [|done].
  simpl. f_equal. apply list_fmap_id.
Qed.
Lemma shapes_id (ss : list (list (LocalId * DataShape))) :
  (fun shapes : list (LocalId * DataShape) => (fun p => (slot p.1, p.2)) <$> shapes) <$> ss = ss.
Proof.
  rewrite <- (list_fmap_id ss) at 2. apply list_fmap_ext. intros i s _. simpl.
  rewrite <- (list_fmap_id s) at 2. apply list_fmap_ext. by intros j [l sh] _.
Qed.

Lemma def_gives x d : gives (def_from_wire (ship x) d) (add_rebuilt x d) (named x).
Proof.
  unfold def_from_wire, ship, def_to_wire. simpl. rewrite spread_id, shapes_id.
  set (l := sh_def x).
  pose (mk id fns reuse := MkDefsFromWire
    (dw_defs d ++ [MkLoweredDef id fns (entry_borrowed l) reuse (entry_spread_params l) (data_shapes l)])
    (<[id := sh_arity x]> (dw_arities d)) (<[id := sh_abi x]> (dw_abis d))
    (<[id := sh_entry x]> (dw_bounds_entry d)) (<[id := sh_result x]> (dw_bounds_result d))).
  pose (fns sf := map_fn (relocate sf) retype <$> ld_fns l).
  pose (reuse sf := map_fn (relocate sf) retype <$> reuse_entry l).
  apply (gives_ext _ (fun sf => mk (relocate sf (ld_def l)) (fns sf) (reuse sf))); [|done].
  unfold named. rewrite referenced_globals_spec. fold l.
  apply (gives_bind _ _ _ (fun id sf => mk id (fns sf) (reuse sf)) [ld_def l] _ (gives_def_id (ld_def l))).
  intros id. apply (gives_bind _ _ fns (fun fns sf => mk id fns (reuse sf))).
  - apply (gives_smap fn_from_wire (fn_to_wire module_of) _ (fun f => globals (fn_body f))).
    apply Forall_true, fn_gives.
  - intros fs. apply (gives_map _ (mk id fs) reuse). unfold reuse.
    destruct (reuse_entry l) as [f|]; [|apply gives_ret]. apply (gives_map _ Some), fn_gives.
Qed.

Definition rebuild (sf : SourceAssigner) (xs : list Shipped) (d : DefsFromWire) : DefsFromWire :=
  foldl (fun d x => add_rebuilt x d sf) d xs.

Lemma defs_gives xs : forall d,
  gives (defs_from (ship <$> xs) d) (fun sf => rebuild sf xs d) (mjoin (named <$> xs)).
Proof.
  induction xs as [|x xs IH]; intros d; [apply gives_ret|].
  apply (gives_bind _ _ (add_rebuilt x d) (fun d sf => rebuild sf xs d)); [apply def_gives|].
  intros d'. apply IH.
Qed.

Lemma rebuild_defs sf xs : forall d,
  dw_defs (rebuild sf xs d) = dw_defs d ++ ((fun x => map_def (relocate sf) retype (sh_def x)) <$> xs).
Proof.
  induction xs as [|x xs IH]; intros d; [symmetry; apply app_nil_r|].
  change (rebuild sf (x :: xs) d) with (rebuild sf xs (add_rebuilt x d sf)).
  rewrite IH. simpl. by rewrite <- app_assoc.
Qed.

(** No later definition of the bundle has the identity of an earlier one. *)
Lemma rebuild_tables sf xs : forall d,
  NoDup ((fun x => relocate sf (ld_def (sh_def x))) <$> xs) ->
  (forall x, x ∈ xs -> dw_arities (rebuild sf xs d) !! relocate sf (ld_def (sh_def x)) = Some (sh_arity x) ∧
    dw_abis (rebuild sf xs d) !! relocate sf (ld_def (sh_def x)) = Some (sh_abi x)) ∧
  (forall id, id ∉ ((fun x => relocate sf (ld_def (sh_def x))) <$> xs) ->
    dw_arities (rebuild sf xs d) !! id = dw_arities d !! id ∧
    dw_abis (rebuild sf xs d) !! id = dw_abis d !! id).
Proof.
  induction xs as [|x xs IH]; intros d Hnd; [by split; [intros x Hx%elem_of_nil|]|].
  rewrite fmap_cons in Hnd. apply NoDup_cons in Hnd as [Hx Hnd].
  destruct (IH (add_rebuilt x d sf) Hnd) as [H1 H2].
  change (rebuild sf (x :: xs) d) with (rebuild sf xs (add_rebuilt x d sf)). split.
  - intros y [->|Hy]%elem_of_cons; [|by apply H1].
    destruct (H2 _ Hx) as [-> ->]. simpl. by rewrite !lookup_insert_eq.
  - intros id Hid. rewrite fmap_cons in Hid. apply not_elem_of_cons in Hid as [Hne Hid].
    destruct (H2 _ Hid) as [-> ->]. simpl. by rewrite !lookup_insert_ne by congruence.
Qed.

(** Identities stay apart: the caller's labels and names tell definitions apart. *)
Lemma relocate_inj sf d1 d2 :
  sources_wf sf -> assigned sf d1 -> assigned sf d2 ->
  relocate sf d1 = relocate sf d2 -> module_of d1 = module_of d2 ∧ def_name d1 = def_name d2.
Proof.
  intros [Hinv _] [i1 H1] [i2 H2] [= He Hn]. rewrite H1, H2 in He. simpl in He. subst i2.
  split; [|done]. apply Hinv in H1, H2. congruence.
Qed.

(** The bundle of a program. *)
Definition bundle (entry runtime : DefId) (xs : list Shipped) (libs : list string) (conc : bool)
    : WireBundle :=
  MkWireBundle (wire_id module_of entry) (wire_id module_of runtime) (ship <$> xs) libs conc.

Lemma from_wire_gives entry runtime xs libs conc :
  let ds := entry :: runtime :: mjoin (named <$> xs) in
  match from_wire (bundle entry runtime xs libs conc) with
  | Some r =>
      exists sf, sources_wf sf ∧ rb_labels r = labels sf ∧ rb_entry r = relocate sf entry ∧
        rb_runtime r = relocate sf runtime ∧
        rb_defs r = rebuild sf xs (MkDefsFromWire [] ∅ ∅ ∅ ∅) ∧ Forall (assigned sf) ds
  | None => (2 ^ 32 < Z.of_nat (length ds))%Z
  end.
Proof.
  intros ds. set (start := MkDefsFromWire [] ∅ ∅ ∅ ∅).
  pose (tail e := (u ← def_id (wire_id module_of runtime);
    d ← defs_from_wire (ship <$> xs); mret (e, u, d)) : SM SourceAssigner (DefId * DefId * DefsFromWire)).
  assert (Hg : forall e, gives (tail e)
    (fun sf => (e, relocate sf runtime, rebuild sf xs start)) ([runtime] ++ mjoin (named <$> xs) ++ [])).
  { intros e. apply (gives_bind _ _ (fun sf => relocate sf runtime)
      (fun u sf => (e, u, rebuild sf xs start))); [apply gives_def_id|].
    intros u. apply (gives_bind _ _ (fun sf => rebuild sf xs start) (fun d sf => (e, u, d)));
      [apply defs_gives|]. intros d. apply gives_ret. }
  pose proof (gives_bind (def_id (wire_id module_of entry)) tail (fun sf => relocate sf entry)
    (fun e sf => (e, relocate sf runtime, rebuild sf xs start)) _ _ (gives_def_id entry) Hg
    no_sources no_sources_wf) as G.
  rewrite app_nil_r in G. unfold from_wire. change (wb_entry _) with (wire_id module_of entry).
  change (match match (e ← def_id (wire_id module_of entry); tail e) no_sources with
    | Some (e, u, d, st) => Some (MkRebuilt d e u (labels st)) | None => None end with
    | Some r => exists sf, sources_wf sf ∧ rb_labels r = labels sf ∧ rb_entry r = relocate sf entry ∧
        rb_runtime r = relocate sf runtime ∧ rb_defs r = rebuild sf xs start ∧ Forall (assigned sf) ds
    | None => (2 ^ 32 < Z.of_nat (length ds))%Z end).
  destruct ((e ← def_id (wire_id module_of entry); tail e) no_sources) as [[[[e u] d] st]|]; [|exact G].
  destruct G as [(W & _ & A & F) _]. specialize (F st (reflexivity st)).
  injection F as -> -> ->. by exists st.
Qed.
End RoundTrip.

(** C28: a program survives the wire.  Whatever a bundle built from lowered definitions gives back
    is the same program up to one renaming of definitions - module label and name kept, the label
    of every definition, callee, entry and runtime recorded under its source id - and the types
    the projection keeps: every slot, tag, token, literal, operation and borrow flag is unchanged. *)
Theorem from_wire_round_trip module_of entry runtime xs libs conc r :
  from_wire (bundle module_of entry runtime xs libs conc) = Some r ->
  exists rename : DefId -> DefId,
    dw_defs (rb_defs r) = (fun x => map_def rename retype (sh_def x)) <$> xs ∧
    rb_entry r = rename entry ∧ rb_runtime r = rename runtime ∧
    (forall d, d ∈ entry :: runtime :: mjoin (named <$> xs) ->
       rb_labels r !! def_file (rename d) = Some (module_of d) ∧ def_name (rename d) = def_name d).
Proof.
  intros Hr. pose proof (from_wire_gives module_of entry runtime xs libs conc) as G. rewrite Hr in G.
  destruct G as (sf & W & -> & -> & -> & -> & A).
  exists (relocate module_of sf). split_and!; [by rewrite rebuild_defs|done|done|].
  intros d Hd. rewrite Forall_forall in A. destruct (A d Hd) as [i Hi].
  split; [|done]. unfold relocate. rewrite Hi. simpl. by apply (wf_inverse _ W).
Qed.

(** The worker's side tables are keyed correctly: when the labels and names of the shipped
    definitions tell them apart, each definition's arity and calling convention are found under
    its new identity, and two definitions never share one. *)
Theorem from_wire_tables module_of entry runtime xs libs conc r x :
  from_wire (bundle module_of entry runtime xs libs conc) = Some r ->
  NoDup ((fun x => (module_of (ld_def (sh_def x)), def_name (ld_def (sh_def x)))) <$> xs) ->
  x ∈ xs ->
  exists id, def_name id = def_name (ld_def (sh_def x)) ∧
    rb_labels r !! def_file id = Some (module_of (ld_def (sh_def x))) ∧
    dw_arities (rb_defs r) !! id = Some (sh_arity x) ∧ dw_abis (rb_defs r) !! id = Some (sh_abi x).
Proof.
  intros Hr Hnd Hx. pose proof (from_wire_gives module_of entry runtime xs libs conc) as G.
  rewrite Hr in G. destruct G as (sf & W & -> & _ & _ & -> & A).
  rewrite Forall_forall in A.
  assert (Ha : forall y, y ∈ xs -> assigned module_of sf (ld_def (sh_def y))).
  { intros y Hy. apply A. do 2 right. apply list_elem_of_join. exists (named y).
    split; [left|]. apply list_elem_of_fmap. eauto. }
  assert (Hnd' : NoDup ((fun x => relocate module_of sf (ld_def (sh_def x))) <$> xs)).
  { clear Hx A Hr. induction xs as [|y ys IH]; [constructor|].
    apply NoDup_cons in Hnd as [Hy Hnd]. constructor.
    - intros (z & Hz & Hin)%list_elem_of_fmap. apply Hy. apply list_elem_of_fmap. exists z.
      split; [|done]. destruct (relocate_inj module_of sf (ld_def (sh_def y)) (ld_def (sh_def z)) W) as [-> ->]; try done.
      + apply Ha. by left. + apply Ha. by right.
    - apply IH; [done|]. intros z Hz. apply Ha. by right. }
  destruct (rebuild_tables module_of sf xs (MkDefsFromWire [] ∅ ∅ ∅ ∅) Hnd') as [Ht _].
  exists (relocate module_of sf (ld_def (sh_def x))). split; [done|].
  split; [|by apply Ht]. destruct (Ha x Hx) as [i Hi]. unfold relocate. rewrite Hi. simpl.
  by apply (wf_inverse _ W).
Qed.

(** Reconstruction is total within the width of a source id: a bundle that names at most
    2^32 definitions - entry, runtime, shipped definitions and callees together - is rebuilt. *)
Theorem from_wire_total module_of entry runtime xs libs conc :
  (Z.of_nat (2 + length (mjoin (named <$> xs))) <= 2 ^ 32)%Z ->
  is_Some (from_wire (bundle module_of entry runtime xs libs conc)).
Proof.
  intros H. pose proof (from_wire_gives module_of entry runtime xs libs conc) as G.
  destruct (from_wire _); [eauto|]. simpl in G. lia.
Qed.

(** ** A sample bundle *)

Module Shipment.
(** [main xs = other (data-peek xs)], and [other], whose body names its own module's [len]. *)
Definition main_id : DefId := MkDefId 7 "main".
Definition other_id : DefId := MkDefId 9 "other".
Definition runtime_id : DefId := MkDefId 3 "start".
Definition module_of (d : DefId) : string :=
  if decide (def_file d = 7) then "App" else if decide (def_file d = 9) then "Lib" else "Std".
Definition xs_ty : Ty := ty_list (Ty_Con Con_String).
Definition local (x : LocalId) : CExpr := CE (K_Local x) xs_ty.
Definition apply_to (d : DefId) (args : list CExpr) : CExpr :=
  CE (K_App (CE (K_Global d) ty_int) args [] Alloc_Heap) xs_ty.
Definition main_def : LoweredDef :=
  MkLoweredDef main_id
    [MkCoreFn [0] [] (CE (K_Let 1 (CE (K_Prim P_DataPeek [local 0; CE (K_Lit (Lit_Int 0)) ty_int]) xs_ty)
       (CE (K_Drop 0 (apply_to other_id [CE (K_Lit (Lit_Int 1)) ty_int])) xs_ty)) xs_ty)]
    [false] None [] [].
Definition other_def : LoweredDef :=
  MkLoweredDef other_id [MkCoreFn [0] [] (local 0)] [false]
    (Some (MkCoreFn [4; 0] [] (apply_to (MkDefId 9 "len") [local 0]))) [] [].
Definition shipped (l : LoweredDef) (arity : nat) : Shipped :=
  MkShipped l arity FnAbi_default [] (MkBoundSig []) (MkResultSig []).
Definition defs : list Shipped := [shipped main_def 1; shipped other_def 2].
Definition sent : WireBundle := bundle module_of main_id runtime_id defs [] false.
Definition received : Rebuilt :=
  Eval vm_compute in
    match from_wire sent with
    | Some r => r
    | None => MkRebuilt (MkDefsFromWire [] ∅ ∅ ∅ ∅) main_id runtime_id ∅
    end.
Lemma arrives : from_wire sent = Some received.
Proof. vm_compute. reflexivity. Qed.
End Shipment.

Lemma from_wire_round_trip_witness :
  exists rename : DefId -> DefId,
    dw_defs (rb_defs Shipment.received) = (fun x => map_def rename retype (sh_def x)) <$> Shipment.defs.
Proof.
  destruct (from_wire_round_trip Shipment.module_of Shipment.main_id Shipment.runtime_id
    Shipment.defs [] false _ Shipment.arrives) as (f & Hf & _). exists f. exact Hf.
Defined.

Lemma from_wire_tables_witness :
  exists id, dw_arities (rb_defs Shipment.received) !! id = Some 2.
Proof.
  destruct (from_wire_tables Shipment.module_of Shipment.main_id Shipment.runtime_id
    Shipment.defs [] false _ (Shipment.shipped Shipment.other_def 2) Shipment.arrives)
    as (id & _ & _ & H & _).
  - apply (bool_decide_unpack _). vm_compute. exact I.
  - right. left.
  - exists id. exact H.
Defined.

Lemma from_wire_total_witness : is_Some (from_wire Shipment.sent).
Proof. apply from_wire_total. vm_compute. discriminate. Defined.
