(* ===== verification/Verify.v ===== *)
(** * The reference-count verifier

    fai-rc's [verify.rs]: an abstract interpreter that walks a function and
    checks that every owned binding is consumed or dropped exactly once on every
    path.  [refs] is the owned-reference count of each slot in scope,
    [projections] maps a borrowed slot to the slot it was read from, and
    [loop_borrowed] the borrowing modes of the innermost loop's parameters.
    Each message of the Rust code is a constructor of [RcError]; two more stand
    for the runs that never return a message: [Err_Panic] for an [expect] that
    fails and [Err_Diverges] for a cyclic chain of borrowed slots. *)

From S2P Require Import Prelude Types Ir.
From stdpp Require Import gmap list strings.
From Stdlib Require Import ZArith Lia.

Inductive RcError :=
| Err_LeftAtExit (fn_index : option nat) (x : LocalId) (n : Z)
| Err_ConsumeBorrowed (x : LocalId)
| Err_ConsumeUnbound (x : LocalId)
| Err_UseReleased (x : LocalId)
| Err_BorrowReleased (x : LocalId)
| Err_Branches
| Err_ReboundBorrowed (x : LocalId)
| Err_BorrowedLeft (x : LocalId) (n : Z)
| Err_Rebound (x : LocalId)
| Err_LetLeft (x : LocalId) (n : Z)
| Err_DupUnbound (x : LocalId)
| Err_DupReleased (x : LocalId)
| Err_DropCaptured (x : LocalId)
| Err_ReboundToken (x : LocalId)
| Err_TokenLeft (x : LocalId) (n : Z)
| Err_LetManyLeft (x : LocalId) (n : Z)
| Err_ReboundHole (x : LocalId)
| Err_HoleLeft (x : LocalId) (n : Z)
| Err_BaseNotAtom
| Err_Panic
| Err_Diverges.

(** What the walk mutates: the caller's [refs] and two fields of [Checker]. *)
Record CkState := MkCk {
  refs : gmap LocalId Z;
  projections : gmap LocalId LocalId;
  loop_borrowed : option (list bool)
}.

Definition with_refs (r : gmap LocalId Z) (s : CkState) : CkState :=
  MkCk r (projections s) (loop_borrowed s).
Definition with_projections (p : gmap LocalId LocalId) (s : CkState) : CkState :=
  MkCk (refs s) p (loop_borrowed s).
Definition with_loop (b : option (list bool)) (s : CkState) : CkState :=
  MkCk (refs s) (projections s) b.

(** [prim_borrows] ([lib.rs]): per-argument ownership of a primitive. *)
Definition prim_borrows (op : Prim) (args : list CExpr) : list bool :=
  match args with
  | [] => []
  | a :: _ => (fun i => borrows_argument op i (ce_ty a)) <$> seq 0 (length args)
  end.

Section Checker.
(** The borrowed slots (captures and borrowed parameters) and the callee signatures. *)
Context (captures : gset LocalId) (arg_borrows : DefId -> nat -> list bool).

Definition owned_slot (x : LocalId) : bool := negb (bool_decide (x ∈ captures)).

(** [Checker::consume] *)
Definition consume (x : LocalId) (s : CkState) : result RcError CkState :=
  match projections s !! x with
  | Some _ =>
      match refs s !! x with
      | None => Err Err_Panic
      | Some count =>
          if (count =? 0)%Z then Err (Err_ConsumeBorrowed x)
          else Ok (with_refs (<[x := (count - 1)%Z]> (refs s)) s)
      end
  | None =>
      if negb (owned_slot x) then Ok s
      else
        match refs s !! x with
        | None => Err (Err_ConsumeUnbound x)
        | Some n =>
            if (n <? 1)%Z then Err (Err_UseReleased x)
            else Ok (with_refs (<[x := (n - 1)%Z]> (refs s)) s)
        end
  end.

(** [Checker::borrow]: follows the chain of borrowed slots to a live owner. *)
Fixpoint borrow_chain (fuel : nat) (x : LocalId) (s : CkState) : result RcError unit :=
  match fuel with
  | 0 => Err Err_Diverges
  | S fuel =>
      match projections s !! x with
      | Some parent =>
          if match refs s !! x with Some count => (0 <? count)%Z | None => false end
          then Ok tt
          else borrow_chain fuel parent s
      | None =>
          if negb (owned_slot x) then Ok tt
          else if (default 0%Z (refs s !! x) <? 1)%Z then Err (Err_BorrowReleased x) else Ok tt
      end
  end.

(** A chain without repetition visits each borrowed slot once. *)
Definition borrow (x : LocalId) (s : CkState) : result RcError CkState :=
  _ ← borrow_chain (S (size (projections s))) x s; mret s.

(** [Checker::borrow_atom] *)
Definition borrow_atom (base : CExpr) (s : CkState) : result RcError CkState :=
  match ce_kind base with K_Local x => borrow x s | _ => Err Err_BaseNotAtom end.

(** Binds a fresh slot with one reference: [refs.insert(x, 1).is_some()] is an error. *)
Definition bind_slot (err : RcError) (x : LocalId) (s : CkState) : result RcError CkState :=
  match refs s !! x with
  | Some _ => Err err
  | None => Ok (with_refs (<[x := 1%Z]> (refs s)) s)
  end.

(** Ends a slot's scope: [refs.remove(x).unwrap_or(0)] must be zero. *)
Definition unbind_slot (err : Z -> RcError) (x : LocalId) (s : CkState)
    : result RcError CkState :=
  let n := default 0%Z (refs s !! x) in
  if (n =? 0)%Z then Ok (with_refs (delete x (refs s)) s) else Err (err n).

(** Runs a check on each element in turn, with its position. *)
Fixpoint each {A} (f : nat -> A -> CkState -> result RcError CkState) (i : nat) (xs : list A)
    (s : CkState) : result RcError CkState :=
  match xs with
  | [] => Ok s
  | x :: xs => s ← f i x s; each f (S i) xs s
  end.

(** [Checker::operand]: a borrowed local is read, anything else evaluated. *)
Definition operand (eval : CExpr -> CkState -> result RcError CkState) (a : CExpr)
    (is_borrow : bool) (s : CkState) : result RcError CkState :=
  match is_borrow, ce_kind a with
  | true, K_Local x => borrow x s
  | _, _ => eval a s
  end.

(** A [let]-bound array or data peek reads its first argument's slot. *)
Definition peek_parent (value : CExpr) : option LocalId :=
  match ce_kind value with
  | K_Prim P_ArrayPeek (a :: _) | K_Prim P_DataPeek (a :: _) =>
      match ce_kind a with K_Local parent => Some parent | _ => None end
  | _ => None
  end.

(** [Checker::eval] *)
Fixpoint eval (e : CExpr) (s : CkState) {struct e} : result RcError CkState :=
  match e with
  | CE kind _ =>
      match kind with
      | K_Lit _ | K_Global _ | K_Error => Ok s
      | K_Local x => consume x s
      | K_Prim op args =>
          let borrows := prim_borrows op args in
          each (fun i a s => operand eval a (nth_flag borrows i) s) 0 args s
      | K_Foreign _ args _ => each (fun _ a s => operand eval a false s) 0 args s
      | K_MakeData _ args reuse _ _ =>
          s ← each (fun _ a s => eval a s) 0 args s;
          match reuse with Some t => consume t s | None => Ok s end
      | K_App func args reuse _ =>
          s ← eval func s;
          let borrows :=
            match ce_kind func with
            | K_Global def => arg_borrows def (length args)
            | _ => []
            end in
          s ← each (fun i a s => operand eval a (nth_flag borrows i) s) 0 args s;
          each (fun _ t s => match t with Some t => consume t s | None => Ok s end) 0 reuse s
      | K_MakeClosure _ caps _ => each (fun _ c s => consume c s) 0 caps s
      | K_DataTag base _ => borrow_atom base s
      | K_DataField base index _ _ =>
          s ← borrow_atom base s;
          match index with FI_Dyn _ evidence => borrow evidence s | FI_Const _ => Ok s end
      | K_If cond thn els =>
          s0 ← eval cond s;
          s1 ← eval thn s0;
          s2 ← eval els (with_refs (refs s0) s1);
          if decide (refs s1 = refs s2) then Ok (with_refs (refs s1) s2) else Err Err_Branches
      | K_Let local value body =>
          s ← eval value s;
          match peek_parent value with
          | Some parent =>
              match projections s !! local, refs s !! local with
              | None, None =>
                  s ← eval body
                        (with_refs (<[local := 0%Z]> (refs s))
                          (with_projections (<[local := parent]> (projections s)) s));
                  unbind_slot (Err_BorrowedLeft local) local
                    (with_projections (delete local (projections s)) s)
              | _, _ => Err (Err_ReboundBorrowed local)
              end
          | None =>
              s ← bind_slot (Err_Rebound local) local s;
              s ← eval body s;
              unbind_slot (Err_LetLeft local) local s
          end
      | K_Dup local body =>
          s ← match projections s !! local with
              | Some _ =>
                  s ← borrow local s;
                  match refs s !! local with
                  | Some n => Ok (with_refs (<[local := (n + 1)%Z]> (refs s)) s)
                  | None => Err Err_Panic
                  end
              | None =>
                  if owned_slot local then
                    match refs s !! local with
                    | None => Err (Err_DupUnbound local)
                    | Some n =>
                        if (n <? 1)%Z then Err (Err_DupReleased local)
                        else Ok (with_refs (<[local := (n + 1)%Z]> (refs s)) s)
                    end
                  else Ok s
              end;
          eval body s
      | K_Drop local body =>
          if negb (owned_slot local) then Err (Err_DropCaptured local)
          else s ← consume local s; eval body s
      | K_Reset value token body =>
          s ← eval value s;
          s ← bind_slot (Err_ReboundToken token) token s;
          s ← eval body s;
          unbind_slot (Err_TokenLeft token) token s
      | K_Spread components => each (fun _ a s => eval a s) 0 components s
      | K_LetMany locals value body =>
          s ← eval value s;
          s ← each (fun _ l s => bind_slot (Err_Rebound l) l s) 0 locals s;
          s ← eval body s;
          each (fun _ l s => unbind_slot (Err_LetManyLeft l) l s) 0 locals s
      | K_FreeReuse token body => s ← consume token s; eval body s
      | K_Join params body =>
          let saved := loop_borrowed s in
          s ← eval body
                (with_loop (Some ((fun p => bool_decide (p ∈ captures)) <$> params)) s);
          Ok (with_loop saved s)
      | K_Recur args =>
          each (fun i a s =>
            match loop_borrowed s with
            | Some borrowed => if nth_flag borrowed i then borrow_atom a s else eval a s
            | None => eval a s
            end) 0 args s
      | K_HoleStart hole body =>
          s ← bind_slot (Err_ReboundHole hole) hole s;
          s ← eval body s;
          unbind_slot (Err_HoleLeft hole) hole s
      | K_HoleFill hole cell _ => s ← eval cell s; consume hole s
      | K_HoleClose hole base => s ← eval base s; consume hole s
      end
  end.
End Checker.

(** The slots a function's parameters start with: borrowed ones join the captures,
    owned ones hold one reference. *)
Fixpoint init_params (borrowed : nat -> bool) (pos : nat) (params : list LocalId)
    (st : gset LocalId * gmap LocalId Z) : gset LocalId * gmap LocalId Z :=
  match params with
  | [] => st
  | p :: params =>
      let '(captures, rs) := st in
      init_params borrowed (S pos) params
        (if borrowed pos then ({[p]} ∪ captures, rs) else (captures, <[p := 1%Z]> rs))
  end.

(** One function of [check_rc]: walk the body, then every count must be zero. *)
Definition check_fn (arg_borrows : DefId -> nat -> list bool) (fn_index : option nat)
    (borrowed : nat -> bool) (f : CoreFn) : result RcError unit :=
  let '(captures, rs) := init_params borrowed 0 (fn_params f) (list_to_set (fn_captures f), ∅) in
  s ← eval captures arg_borrows (fn_body f) (MkCk rs ∅ None);
  match List.filter (fun p => negb (p.2 =? 0)%Z) (map_to_list (refs s)) with
  | [] => Ok tt
  | (l, n) :: _ => Err (Err_LeftAtExit fn_index l n)
  end.

Fixpoint check_fns (arg_borrows : DefId -> nat -> list bool) (def : LoweredDef) (i : nat)
    (fns : list CoreFn) : result RcError unit :=
  match fns with
  | [] => Ok tt
  | f :: fns =>
      _ ← check_fn arg_borrows (Some i)
            (fun pos => (i =? 0) && entry_param_borrowed def pos) f;
      check_fns arg_borrows def (S i) fns
  end.

(** [check_rc] *)
Definition check_rc (def : LoweredDef) (arg_borrows : DefId -> nat -> list bool)
    : result RcError unit :=
  _ ← check_fns arg_borrows def 0 (ld_fns def);
  match reuse_entry def with
  | None => Ok tt
  | Some re =>
      match ld_entry def with
      | None => Err Err_Panic
      | Some entry =>
          let tokens := length (fn_params re) - length (fn_params entry) in
          check_fn arg_borrows None
            (fun pos => (tokens <=? pos) && entry_param_borrowed def (pos - tokens)) re
      end
  end.
