(* ===== verification/Frame.v ===== *)
(** * The verifier's frame rule

    What [check_rc]'s walk may be given beyond what it needs: extra references to slots the
    walk does not bind are carried through unused.  Around it, the scoping discipline of the
    walk: it leaves the same slots bound, restores its borrows, never goes below zero and
    never rebinds a bound slot.  Later passes insert tokens and move releases by these rules. *)

From S2P Require Import Prelude Types Ir Verify.
From stdpp Require Import gmap list strings.
From Stdlib Require Import ZArith Lia.

(** The slots the walk binds. *)
Fixpoint bound_slots (e : CExpr) : list LocalId :=
  match e with
  | CE kind _ =>
      match kind with
      | K_Lit _ | K_Local _ | K_Global _ | K_Error | K_MakeClosure _ _ _ => []
      | K_Prim _ args | K_Foreign _ args _ | K_Spread args | K_MakeData _ args _ _ _ | K_Recur args =>
          mjoin (bound_slots <$> args)
      | K_App func args _ _ => bound_slots func ++ mjoin (bound_slots <$> args)
      | K_If c t e => bound_slots c ++ bound_slots t ++ bound_slots e
      | K_Let l v b => bound_slots v ++ l :: bound_slots b
      | K_LetMany ls v b => bound_slots v ++ ls ++ bound_slots b
      | K_DataTag b _ | K_DataField b _ _ _ | K_HoleClose _ b | K_HoleFill _ b _
      | K_FreeReuse _ b | K_Dup _ b | K_Drop _ b | K_Join _ b => bound_slots b
      | K_Reset v t b => bound_slots v ++ t :: bound_slots b
      | K_HoleStart h b => h :: bound_slots b
      end
  end.

(** ** States with more references *)

Definition plus (r X : gmap LocalId Z) : gmap LocalId Z :=
  union_with (fun a b => Some (a + b)%Z) r X.
Definition add (X : gmap LocalId Z) (s : CkState) : CkState := with_refs (plus (refs s) X) s.

Definition nonneg (r : gmap LocalId Z) : Prop := forall x n, r !! x = Some n -> (0 <= n)%Z.

Lemma lookup_plus r X x :
  plus r X !! x =
  match r !! x, X !! x with Some a, Some b => Some (a + b)%Z | Some a, None => Some a | None, o => o end.
Proof. unfold plus. rewrite lookup_union_with. by destruct (r !! x), (X !! x). Qed.

Lemma plus_insert r X x v : <[x := (v + default 0 (X !! x))%Z]> (plus r X) = plus (<[x := v]> r) X.
Proof.
  apply map_eq. intros y. rewrite lookup_plus. destruct (decide (x = y)) as [<-|Hn].
  - rewrite !lookup_insert_eq. destruct (X !! x); [done|]. simpl. by rewrite Z.add_0_r.
  - rewrite !lookup_insert_ne, lookup_plus by done. done.
Qed.

Lemma plus_insert_none r X x v : X !! x = None -> <[x := v]> (plus r X) = plus (<[x := v]> r) X.
Proof. intros H. rewrite <- plus_insert, H. simpl. by rewrite Z.add_0_r. Qed.

Lemma plus_delete r X x : X !! x = None -> delete x (plus r X) = plus (delete x r) X.
Proof.
  intros H. apply map_eq. intros y. rewrite lookup_plus. destruct (decide (x = y)) as [<-|Hn].
  - by rewrite !lookup_delete_eq, H.
  - by rewrite !lookup_delete_ne, lookup_plus by done.
Qed.

Lemma nonneg_insert r x n : nonneg r -> (0 <= n)%Z -> nonneg (<[x := n]> r).
Proof. intros H Hn y m [[_ <-]|[_ Hy]]%lookup_insert_Some; [done|by apply (H y)]. Qed.
Lemma nonneg_delete r x : nonneg r -> nonneg (delete x r).
Proof. intros H y m [_ Hy]%lookup_delete_Some. by apply (H y). Qed.

Lemma bind_ok {E A B} (m : result E A) (k : A -> result E B) b :
  m ≫= k = Ok b -> exists a, m = Ok a ∧ k a = Ok b.
Proof. destruct m as [a|]; [|done]. by exists a. Qed.

Lemma mjoin_singletons (ls : list LocalId) : mjoin ((fun l : LocalId => [l]) <$> ls) = ls.
Proof.
  induction ls as [|l ls IH]; [done|].
  change (l :: mjoin ((fun l : LocalId => [l]) <$> ls) = l :: ls). by rewrite IH.
Qed.

Section Frame.
Context (C : gset LocalId) (cb : DefId -> nat -> list bool).

(** ** Scoping *)

(** A step of the walk that leaves the bound slots, the borrows and the loop as they were. *)
Definition stays (s s' : CkState) : Prop :=
  dom (refs s') = dom (refs s) ∧ projections s' = projections s ∧ loop_borrowed s' = loop_borrowed s.

#[local] Instance stays_preorder : PreOrder stays.
Proof.
  split; [by intros s|]. intros a b c (H1 & H2 & H3) (H4 & H5 & H6). split_and!; congruence.
Qed.

Lemma consume_stays x s s' : consume C x s = Ok s' -> stays s s'.
Proof.
  unfold consume. intros H. destruct (projections s !! x); [|destruct (owned_slot C x); [|by injection H as <-]];
    simpl in H; (destruct (refs s !! x) eqn:E; [|done]); case_match; try done;
    injection H as <-; split_and!; try done; simpl; apply dom_insert_lookup_L; eauto.
Qed.

Lemma borrow_same x s s' : borrow C x s = Ok s' -> s' = s.
Proof. unfold borrow. intros H. destruct (borrow_chain _ _ _ _); [by injection H as <-|done]. Qed.

Lemma borrow_atom_same a s s' : borrow_atom C a s = Ok s' -> s' = s.
Proof. destruct a as [[] t]; try done. apply borrow_same. Qed.

(** A step that stays, and binds the slots [bs] on the way: none was bound before. *)
Definition tidy (bs : list LocalId) (m : CkState -> result RcError CkState) : Prop :=
  forall s s', m s = Ok s' -> stays s s' ∧ forall x, x ∈ bs -> x ∉ dom (refs s).

Lemma tidy_id : tidy [] Ok.
Proof. intros s s' [= <-]. split; [done|]. by intros x Hx%elem_of_nil. Qed.

Lemma tidy_consume x : tidy [] (consume C x).
Proof. intros s s' H. split; [by eapply consume_stays|]. by intros y Hy%elem_of_nil. Qed.

Lemma tidy_borrow x : tidy [] (borrow C x).
Proof. intros s s' ->%borrow_same. split; [done|]. by intros y Hy%elem_of_nil. Qed.

Lemma tidy_borrow_atom a : tidy [] (borrow_atom C a).
Proof. intros s s' ->%borrow_atom_same. split; [done|]. by intros y Hy%elem_of_nil. Qed.

Lemma tidy_bind bs1 bs2 m k :
  tidy bs1 m -> tidy bs2 k -> tidy (bs1 ++ bs2) (fun s => m s ≫= k).
Proof.
  intros Hm Hk s s' (s1 & E1 & E2)%bind_ok.
  destruct (Hm _ _ E1) as [S1 N1], (Hk _ _ E2) as [S2 N2]. split; [by transitivity s1|].
  destruct S1 as (D & _). rewrite D in N2. intros x [?|?]%elem_of_app; auto.
Qed.

Lemma tidy_then m k bs : tidy bs m -> tidy [] k -> tidy bs (fun s => m s ≫= k).
Proof. intros Hm Hk. rewrite <- (app_nil_r bs). by apply tidy_bind. Qed.

Lemma tidy_each {A} (f : nat -> A -> CkState -> result RcError CkState) (g : A -> list LocalId) xs :
  Forall (fun x => forall i, tidy (g x) (f i x)) xs ->
  forall i, tidy (mjoin (g <$> xs)) (each f i xs).
Proof.
  induction 1 as [|x xs Hx _ IH]; intros i; [apply tidy_id|].
  apply (tidy_bind (g x) _ (f i x) (each f (S i) xs)); [apply Hx|apply IH].
Qed.

Lemma tidy_each_nil {A} (f : nat -> A -> CkState -> result RcError CkState) xs i :
  (forall i x, tidy [] (f i x)) -> tidy [] (each f i xs).
Proof.
  intros H. replace (@nil LocalId) with (mjoin ((fun _ : A => @nil LocalId) <$> xs)).
  - apply tidy_each. by apply Forall_true.
  - by induction xs.
Qed.

(** Binding, a body, and the end of the scope. *)
Lemma tidy_scope x err err' bs m :
  tidy bs m -> tidy (x :: bs) (fun s => bind_slot err x s ≫= fun s => m s ≫= unbind_slot err' x).
Proof.
  intros Hm s s' (s1 & E1 & (s2 & E2 & E3)%bind_ok)%bind_ok.
  destruct (Hm _ _ E2) as [(D & P & L) N]. unfold bind_slot in E1. unfold unbind_slot in E3.
  destruct (refs s !! x) eqn:E; [done|]. injection E1 as <-. case_match; [|done].
  injection E3 as <-. simpl in *. apply not_elem_of_dom in E. rewrite dom_insert_L in D, N.
  split; [split_and!; try done; simpl; rewrite dom_delete_L, D; set_solver|].
  intros y [->|Hy]%elem_of_cons; [done|]. specialize (N y Hy). set_solver.
Qed.

Lemma binds_dom err ls : forall i s s',
  each (fun _ l s => bind_slot (err l) l s) i ls s = Ok s' ->
  dom (refs s') = list_to_set ls ∪ dom (refs s) ∧ (forall l, l ∈ ls -> l ∉ dom (refs s)) ∧
  projections s' = projections s ∧ loop_borrowed s' = loop_borrowed s.
Proof.
  induction ls as [|l ls IH]; intros i s s' H; simpl in H.
  - injection H as <-. split_and!; try done; [set_solver|]. by intros l ?%elem_of_nil.
  - apply bind_ok in H as (s1 & Hb & H). unfold bind_slot in Hb.
    destruct (refs s !! l) eqn:E; [done|]. injection Hb as <-.
    apply IH in H as (D & N & P & L). simpl in D, N. apply not_elem_of_dom in E.
    rewrite dom_insert_L in D, N. split_and!; try done; [set_solver|].
    intros y [->|Hy]%elem_of_cons; [done|]. specialize (N y Hy). set_solver.
Qed.

Lemma unbinds_dom err ls : forall i s s',
  each (fun _ l s => unbind_slot (err l) l s) i ls s = Ok s' ->
  dom (refs s') = dom (refs s) ∖ list_to_set ls ∧
  projections s' = projections s ∧ loop_borrowed s' = loop_borrowed s.
Proof.
  induction ls as [|l ls IH]; intros i s s' H; simpl in H.
  - injection H as <-. split_and!; try done. set_solver.
  - apply bind_ok in H as (s1 & Hb & H). unfold unbind_slot in Hb. case_match; [|done].
    injection Hb as <-.
    apply IH in H as (D & P & L). simpl in D. rewrite dom_delete_L in D. split_and!; try done. set_solver.
Qed.

Lemma tidy_many ls err err' bs m :
  tidy bs m -> tidy (ls ++ bs) (fun s =>
    each (fun _ l s => bind_slot (err l) l s) 0 ls s ≫= fun s =>
    m s ≫= each (fun _ l s => unbind_slot (err' l) l s) 0 ls).
Proof.
  intros Hm s s' (s1 & E1 & (s2 & E2 & E3)%bind_ok)%bind_ok.
  destruct (Hm _ _ E2) as [(D & P & L) N].
  apply binds_dom in E1 as (D1 & N1 & P1 & L1). apply unbinds_dom in E3 as (D3 & P3 & L3).
  split; [split_and!; [|congruence..]|].
  - rewrite D3, D, D1. apply set_eq. intros y. rewrite elem_of_difference, elem_of_union, elem_of_list_to_set.
    specialize (N1 y). tauto.
  - rewrite D1 in N. intros y [Hy|Hy]%elem_of_app; [by apply N1|]. specialize (N y Hy). set_solver.
Qed.

(** A borrowed slot: bound at zero, with its parent. *)
Lemma tidy_borrowed x parent err err' bs m :
  tidy bs m -> tidy (x :: bs) (fun s =>
    match projections s !! x, refs s !! x with
    | None, None =>
        m (with_refs (<[x := 0%Z]> (refs s)) (with_projections (<[x := parent]> (projections s)) s)) ≫=
        fun s => unbind_slot err' x (with_projections (delete x (projections s)) s)
    | _, _ => Err err
    end).
Proof.
  intros Hm s s' H. destruct (projections s !! x) eqn:Ep; [done|]. destruct (refs s !! x) eqn:E; [done|].
  apply bind_ok in H as (s2 & E2 & E3). destruct (Hm _ _ E2) as [(D & P & L) N].
  unfold unbind_slot in E3. case_match; [|done]. injection E3 as <-. simpl in *.
  apply not_elem_of_dom in E. rewrite dom_insert_L in D, N. split; [split_and!|].
  - simpl. rewrite dom_delete_L, D. set_solver.
  - simpl. rewrite P. by rewrite delete_insert_id.
  - done.
  - intros y [->|Hy]%elem_of_cons; [done|]. specialize (N y Hy). set_solver.
Qed.

Lemma tidy_weaken bs bs' m : tidy bs m -> bs' ⊆ bs -> tidy bs' m.
Proof. intros Hm Hb s s' H. destruct (Hm _ _ H) as [S N]. split; [done|]. intros x Hx. by apply N, Hb. Qed.

Lemma tidy_ext bs m m' : tidy bs m -> (forall s, m s = m' s) -> tidy bs m'.
Proof. intros Hm E s s' H. rewrite <- E in H. by apply Hm. Qed.

Lemma tidy_operand bs (b : bool) a : tidy bs (eval C cb a) -> (forall x, ce_kind a = K_Local x -> bs = []) ->
  tidy bs (operand C (eval C cb) a b).
Proof.
  intros Ha Hb. destruct b; [|done]. unfold operand. destruct a as [[] u]; try apply Ha.
  rewrite (Hb x eq_refl). apply tidy_borrow.
Qed.

Lemma tidy_atom a : tidy (bound_slots a) (borrow_atom C a).
Proof. destruct a as [[] u]; try done. apply tidy_borrow. Qed.

(** The duplicate [K_Dup] counts before its body. *)
Definition dup_step (x : LocalId) (s : CkState) : result RcError CkState :=
  match projections s !! x with
  | Some _ =>
      s ← borrow C x s;
      match refs s !! x with
      | Some n => Ok (with_refs (<[x := (n + 1)%Z]> (refs s)) s)
      | None => Err Err_Panic
      end
  | None =>
      if owned_slot C x then
        match refs s !! x with
        | None => Err (Err_DupUnbound x)
        | Some n =>
            if (n <? 1)%Z then Err (Err_DupReleased x)
            else Ok (with_refs (<[x := (n + 1)%Z]> (refs s)) s)
        end
      else Ok s
  end.

Lemma tidy_dup x : tidy [] (dup_step x).
Proof.
  intros s s' H. split; [|by intros y Hy%elem_of_nil]. unfold dup_step in H.
  destruct (projections s !! x).
  - apply bind_ok in H as (s1 & ->%borrow_same & H). destruct (refs s !! x) eqn:E; [|done].
    injection H as <-. split_and!; try done. simpl. apply dom_insert_lookup_L. eauto.
  - destruct (owned_slot C x); [|by injection H as <-]. destruct (refs s !! x) eqn:E; [|done].
    case_match; [done|]. injection H as <-. split_and!; try done. simpl. apply dom_insert_lookup_L. eauto.
Qed.

Lemma eval_tidy e : tidy (bound_slots e) (eval C cb e).
Proof.
  induction e as [[k t] IH] using CExpr_children_ind.
  assert (Hop : forall (b : nat -> bool) args i,
    Forall (fun e => tidy (bound_slots e) (eval C cb e)) args ->
    tidy (mjoin (bound_slots <$> args)) (each (fun i a s => operand C (eval C cb) a (b i) s) i args)).
  { intros b args i Hf. apply (tidy_each (fun i a => operand C (eval C cb) a (b i)) bound_slots).
    eapply Forall_impl; [exact Hf|]. intros a Ha j. apply tidy_operand; [done|]. by destruct a as [[] u]. }
  assert (Hev : forall args i, Forall (fun e => tidy (bound_slots e) (eval C cb e)) args ->
    tidy (mjoin (bound_slots <$> args)) (each (fun _ a s => eval C cb a s) i args)).
  { intros args i Hf. apply (tidy_each (fun _ a => eval C cb a) bound_slots).
    eapply Forall_impl; [exact Hf|]. by intros. }
  destruct k; simpl in IH; try (apply Forall_cons in IH as [IH1 IH]);
    try (apply Forall_cons in IH as [IH2 IH]); try (apply Forall_cons in IH as [IH3 _]);
    cbn [bound_slots eval]; try apply tidy_id.
  - apply tidy_consume.
  - by apply (Hop (nth_flag _)).
  - by apply (Hop (fun _ => false)).
  - apply (tidy_bind _ _ (eval C cb func)); [done|]. apply tidy_then; [by apply (Hop (nth_flag _))|].
    apply tidy_each_nil. intros i [u|]; [apply tidy_consume|apply tidy_id].
  - apply (tidy_bind _ _ (eval C cb cond)); [done|].
    intros s s' (s1 & E1 & (s2 & E2 & E3)%bind_ok)%bind_ok. case_match; [|done]. injection E3 as <-.
    destruct (IH2 _ _ E1) as [(D1 & P1 & L1) N1], (IH3 _ _ E2) as [(D2 & P2 & L2) N2].
    simpl in *. split; [split_and!; simpl; congruence|]. intros x [?|?]%elem_of_app; auto.
  - apply (tidy_bind _ _ (eval C cb value)); [done|]. destruct (peek_parent value) as [parent|].
    + apply (tidy_borrowed local parent (Err_ReboundBorrowed local)), IH2.
    + apply (tidy_scope local (Err_Rebound local)), IH2.
  - by apply Hev.
  - apply (tidy_bind _ _ (eval C cb value)); [done|]. by apply (tidy_many locals Err_Rebound).
  - apply tidy_each_nil. intros i x. apply tidy_consume.
  - apply tidy_then; [by apply Hev|]. destruct reuse; [apply tidy_consume|apply tidy_id].
  - apply tidy_atom.
  - apply (tidy_then (borrow_atom C base)); [apply tidy_atom|]. destruct index; [apply tidy_id|apply tidy_borrow].
  - apply (tidy_bind _ _ (eval C cb value)); [done|]. by apply (tidy_scope token (Err_ReboundToken token)).
  - by apply (tidy_bind [] _ (consume C token)); [apply tidy_consume|].
  - by apply (tidy_bind [] _ (dup_step local)); [apply tidy_dup|].
  - destruct (owned_slot C local); [|done]. by apply (tidy_bind [] _ (consume C local)); [apply tidy_consume|].
  - intros s s' (s1 & E1 & [= <-])%bind_ok. destruct (IH1 _ _ E1) as [(D & P & L) N]. by split.
  - apply (tidy_each (fun i a s => match loop_borrowed s with
      | Some borrowed => if nth_flag borrowed i then borrow_atom C a s else eval C cb a s
      | None => eval C cb a s end) bound_slots).
    eapply Forall_impl; [exact IH|]. intros a Ha i s s'.
    destruct (loop_borrowed s); [destruct (nth_flag _ i)|]; [apply tidy_atom|apply Ha..].
  - by apply (tidy_scope hole (Err_ReboundHole hole)).
  - apply (tidy_then (eval C cb cell)); [done|]. apply tidy_consume.
  - apply (tidy_then (eval C cb base)); [done|]. apply tidy_consume.
Qed.
(** ** Carrying extra references *)

(** A step that binds the slots [bs] on the way keeps counts at zero or above, and does the
    same with more references to other slots. *)
Definition carries (bs : list LocalId) (m : CkState -> result RcError CkState) : Prop :=
  forall s s', m s = Ok s' -> nonneg (refs s) ->
    nonneg (refs s') ∧
    forall X, nonneg X -> (forall x, x ∈ bs -> X !! x = None) -> m (add X s) = Ok (add X s').

Lemma carries_id : carries [] Ok.
Proof. intros s s' [= <-] Hs. done. Qed.

Lemma carries_bind bs1 bs2 m k :
  carries bs1 m -> carries bs2 k -> carries (bs1 ++ bs2) (fun s => m s ≫= k).
Proof.
  intros Hm Hk s s' (s1 & E1 & E2)%bind_ok Hs.
  destruct (Hm _ _ E1 Hs) as [N1 F1]. destruct (Hk _ _ E2 N1) as [N2 F2]. split; [done|].
  intros X HX Hb. rewrite F1; [|done|]; [|intros x Hx; apply Hb, elem_of_app; by left].
  simpl. apply F2; [done|]. intros x Hx. apply Hb, elem_of_app. by right.
Qed.

Lemma carries_then m k bs : carries bs m -> carries [] k -> carries bs (fun s => m s ≫= k).
Proof. intros Hm Hk. rewrite <- (app_nil_r bs). by apply carries_bind. Qed.

Lemma carries_each {A} (f : nat -> A -> CkState -> result RcError CkState) (g : A -> list LocalId) xs :
  Forall (fun x => forall i, carries (g x) (f i x)) xs ->
  forall i, carries (mjoin (g <$> xs)) (each f i xs).
Proof.
  induction 1 as [|x xs Hx _ IH]; intros i; [apply carries_id|].
  apply (carries_bind (g x) _ (f i x) (each f (S i) xs)); [apply Hx|apply IH].
Qed.

Lemma carries_each_nil {A} (f : nat -> A -> CkState -> result RcError CkState) xs i :
  (forall i x, carries [] (f i x)) -> carries [] (each f i xs).
Proof.
  intros H. replace (@nil LocalId) with (mjoin ((fun _ : A => @nil LocalId) <$> xs)).
  - apply carries_each. by apply Forall_true.
  - by induction xs.
Qed.

(** A count that moves by [d] from [n], which the extra references shift. *)
Lemma carry_count x n d s X :
  refs s !! x = Some n ->
  refs (add X s) !! x = Some (n + default 0 (X !! x))%Z ∧
  with_refs (<[x := (n + default 0 (X !! x) + d)%Z]> (refs (add X s))) (add X s) =
  add X (with_refs (<[x := (n + d)%Z]> (refs s)) s).
Proof.
  intros E. split.
  - simpl. rewrite lookup_plus, E. destruct (X !! x); [done|]. simpl. by rewrite Z.add_0_r.
  - unfold add at 3. simpl. rewrite <- plus_insert.
    by replace (n + d + default 0 (X !! x))%Z with (n + default 0 (X !! x) + d)%Z by lia.
Qed.

Lemma default_nonneg X x : nonneg X -> (0 <= default 0 (X !! x))%Z.
Proof. intros H. destruct (X !! x) eqn:E; [by apply (H x)|done]. Qed.

Lemma carries_consume x : carries [] (consume C x).
Proof.
  intros s s' H Hs. unfold consume in *.
  assert (Hstep : forall n, refs s !! x = Some n -> (1 <= n)%Z ->
    s' = with_refs (<[x := (n - 1)%Z]> (refs s)) s ->
    nonneg (refs s') ∧ forall X, nonneg X -> (1 <= n + default 0 (X !! x))%Z ∧
      refs (add X s) !! x = Some (n + default 0 (X !! x))%Z ∧
      with_refs (<[x := (n + default 0 (X !! x) - 1)%Z]> (refs (add X s))) (add X s) = add X s').
  { intros n E Hn ->. split; [simpl; apply nonneg_insert; [done|lia]|]. intros X HX.
    destruct (carry_count x n (-1) s X E) as [L W]. split_and!; [|done|exact W].
    pose proof (default_nonneg X x HX). lia. }
  change (projections (add _ s)) with (projections s).
  destruct (projections s !! x) as [p|]; [|destruct (owned_slot C x) eqn:Eo; simpl in H];
    [destruct (refs s !! x) as [n|] eqn:E; [|done]..|by injection H as <-].
  - pose proof (Hs x n E). destruct (Z.eqb_spec n 0); [done|].
    destruct (Hstep n eq_refl) as [N F]; [lia|by injection H|]. split; [done|].
    intros X HX _. destruct (F X HX) as (F1 & F2 & F3).
    rewrite F2. destruct (Z.eqb_spec (n + default 0%Z (X !! x))%Z 0); [lia|]. by rewrite F3.
  - destruct (Z.ltb_spec n 1); [done|].
    destruct (Hstep n eq_refl) as [N F]; [lia|by injection H|]. split; [done|].
    intros X HX _. destruct (F X HX) as (F1 & F2 & F3).
    rewrite F2. destruct (Z.ltb_spec (n + default 0%Z (X !! x))%Z 1); [lia|]. by rewrite F3.
Qed.

Lemma chain_carried fuel : forall x s X,
  nonneg X -> borrow_chain C fuel x s = Ok tt -> borrow_chain C fuel x (add X s) = Ok tt.
Proof.
  induction fuel as [|fuel IH]; intros x s X HX H; [done|]. simpl in H |- *.
  pose proof (default_nonneg X x HX) as Hd. rewrite lookup_plus.
  destruct (projections s !! x) as [q|].
  - destruct (refs s !! x) as [n|], (X !! x) as [m|]; simpl in Hd |- *; try by apply IH.
    + destruct (Z.ltb_spec 0 n); [by destruct (Z.ltb_spec 0 (n + m)); [|lia]|].
      destruct (0 <? n + m)%Z; [done|by apply IH].
    + destruct (0 <? n)%Z; [done|by apply IH].
    + destruct (0 <? m)%Z; [done|by apply IH].
  - destruct (owned_slot C x); [|done]. simpl in *.
    destruct (refs s !! x) as [n|]; simpl in H; [|done].
    destruct (Z.ltb_spec n 1); [done|]. destruct (X !! x); simpl in Hd |- *;
      (case_match eqn:Ht; [|done]); apply Z.ltb_lt in Ht; lia.
Qed.

Lemma carries_borrow x : carries [] (borrow C x).
Proof.
  intros s s' H Hs. pose proof (borrow_same _ _ _ H) as ->. split; [done|]. intros X HX _.
  unfold borrow in *. change (projections (add X s)) with (projections s).
  destruct (borrow_chain C _ x s) as [[]|] eqn:E; [|done]. by rewrite chain_carried.
Qed.

Lemma carries_atom a : carries (bound_slots a) (borrow_atom C a).
Proof. destruct a as [[] u]; try done. apply carries_borrow. Qed.

Lemma carries_bind_slot err x : carries [x] (bind_slot err x).
Proof.
  intros s s' H Hs. unfold bind_slot in *. destruct (refs s !! x) eqn:E; [done|]. injection H as <-.
  split; [by apply nonneg_insert|]. intros X HX Hx. assert (Hn : X !! x = None) by (apply Hx; by left).
  simpl. rewrite lookup_plus, E, Hn. f_equal. unfold add. simpl. by rewrite plus_insert_none.
Qed.

Lemma carries_unbind_slot err x : carries [x] (unbind_slot err x).
Proof.
  intros s s' H Hs. unfold unbind_slot in *. case_match eqn:Hz; [|done]. injection H as <-.
  split; [by apply nonneg_delete|]. intros X HX Hx. assert (Hn : X !! x = None) by (apply Hx; by left).
  simpl. rewrite lookup_plus, Hn.
  replace (match refs s !! x with Some a => Some a | None => None end) with (refs s !! x) by by destruct (refs s !! x).
  rewrite Hz. f_equal. unfold add. simpl. by rewrite plus_delete.
Qed.
Lemma carries_scope x err err' bs m :
  carries bs m -> carries (x :: bs) (fun s => bind_slot err x s ≫= fun s => m s ≫= unbind_slot err' x).
Proof.
  intros Hm. assert (Hb := carries_bind [x] (bs ++ [x]) _ _ (carries_bind_slot err x)
    (carries_bind bs [x] _ _ Hm (carries_unbind_slot err' x))).
  intros s s' H Hs. destruct (Hb s s' H Hs) as [N F]. split; [done|]. intros X HX Hx. apply F; [done|].
  intros y [Hy|[Hy|Hy]%elem_of_app]%elem_of_app; apply Hx; [|by right|]; apply list_elem_of_singleton in Hy; subst; by left.
Qed.

Lemma carries_binds err ls : carries ls (each (fun _ l s => bind_slot (err l) l s) 0 ls).
Proof.
  rewrite <- (mjoin_singletons ls) at 1. apply (carries_each (fun _ l => bind_slot (err l) l)).
  apply Forall_true. intros l _. apply carries_bind_slot.
Qed.

Lemma carries_unbinds err ls : carries ls (each (fun _ l s => unbind_slot (err l) l s) 0 ls).
Proof.
  rewrite <- (mjoin_singletons ls) at 1. apply (carries_each (fun _ l => unbind_slot (err l) l)).
  apply Forall_true. intros l _. apply carries_unbind_slot.
Qed.

Lemma carries_many ls err err' bs m :
  carries bs m -> carries (ls ++ bs) (fun s =>
    each (fun _ l s => bind_slot (err l) l s) 0 ls s ≫= fun s =>
    m s ≫= each (fun _ l s => unbind_slot (err' l) l s) 0 ls).
Proof.
  intros Hm.
  assert (Hb := carries_bind ls (bs ++ ls) _ _ (carries_binds err ls) (carries_bind bs ls _ _ Hm (carries_unbinds err' ls))).
  intros s s' H Hs. destruct (Hb s s' H Hs) as [N F]. split; [done|]. intros X HX Hx. apply F; [done|].
  intros y. rewrite !elem_of_app. intros Hy. apply Hx, elem_of_app. tauto.
Qed.

Lemma carries_borrowed x parent err err' bs m :
  carries bs m -> carries (x :: bs) (fun s =>
    match projections s !! x, refs s !! x with
    | None, None =>
        m (with_refs (<[x := 0%Z]> (refs s)) (with_projections (<[x := parent]> (projections s)) s)) ≫=
        fun s => unbind_slot err' x (with_projections (delete x (projections s)) s)
    | _, _ => Err err
    end).
Proof.
  intros Hm s s' H Hs. destruct (projections s !! x) as [p|] eqn:Ep; [done|].
  destruct (refs s !! x) as [n|] eqn:E; [done|]. apply bind_ok in H as (s2 & E2 & E3).
  destruct (Hm _ _ E2) as [N2 F2]; [by apply nonneg_insert|].
  destruct (carries_unbind_slot err' x _ _ E3 N2) as [N3 F3]. split; [done|].
  intros X HX Hx. assert (Hn : X !! x = None) by (apply Hx; by left).
  change (projections (add X s)) with (projections s). rewrite Ep. simpl. rewrite lookup_plus, E, Hn.
  rewrite plus_insert_none by done.
  specialize (F2 X HX (fun y Hy => Hx y (list_elem_of_further _ _ _ Hy))). unfold add in F2 at 1. simpl in F2.
  unfold with_projections, with_refs in *. simpl in *. rewrite F2. simpl. apply F3; [done|].
  by intros y ->%list_elem_of_singleton.
Qed.

Lemma carries_operand bs (b : bool) a : carries bs (eval C cb a) ->
  (forall x, ce_kind a = K_Local x -> bs = []) -> carries bs (operand C (eval C cb) a b).
Proof.
  intros Ha Hb. destruct b; [|done]. unfold operand. destruct a as [[] u]; try apply Ha.
  rewrite (Hb x eq_refl). apply carries_borrow.
Qed.

Lemma carries_raise x n s :
  refs s !! x = Some n -> (0 <= n)%Z -> nonneg (refs s) ->
  nonneg (<[x := (n + 1)%Z]> (refs s)) ∧ forall X, nonneg X ->
    refs (add X s) !! x = Some (n + default 0 (X !! x))%Z ∧ (n <= n + default 0 (X !! x))%Z ∧
    with_refs (<[x := (n + default 0 (X !! x) + 1)%Z]> (refs (add X s))) (add X s) =
    add X (with_refs (<[x := (n + 1)%Z]> (refs s)) s).
Proof.
  intros E Hn Hs. split; [apply nonneg_insert; [done|lia]|]. intros X HX.
  destruct (carry_count x n 1 s X E) as [L W]. split_and!; [done| |done].
  pose proof (default_nonneg X x HX). lia.
Qed.

Lemma carries_dup x : carries [] (dup_step x).
Proof.
  intros s s' H Hs. unfold dup_step in *.
  change (projections (add _ s)) with (projections s). destruct (projections s !! x) as [p|].
  - apply bind_ok in H as (s1 & Hb & H). pose proof (borrow_same _ _ _ Hb) as ->.
    destruct (refs s !! x) as [n|] eqn:E; [|done]. injection H as <-.
    destruct (carries_raise x n s E (Hs x n E) Hs) as [N F]. split; [done|]. intros X HX Hx.
    destruct (carries_borrow x s s Hb Hs) as [_ B]. rewrite (B X HX Hx). unfold mbind, result_bind.
    destruct (F X HX) as (F1 & _ & F3). rewrite F1. by rewrite F3.
  - destruct (owned_slot C x); [|by injection H as <-].
    destruct (refs s !! x) as [n|] eqn:E; [|done]. destruct (Z.ltb_spec n 1); [done|]. injection H as <-.
    destruct (carries_raise x n s E (Hs x n E) Hs) as [N F]. split; [done|]. intros X HX _.
    destruct (F X HX) as (F1 & F2 & F3). rewrite F1.
    destruct (Z.ltb_spec (n + default 0%Z (X !! x))%Z 1); [lia|]. by rewrite F3.
Qed.

Lemma eval_carries e : carries (bound_slots e) (eval C cb e).
Proof.
  induction e as [[k t] IH] using CExpr_children_ind.
  assert (Hop : forall (b : nat -> bool) args i,
    Forall (fun e => carries (bound_slots e) (eval C cb e)) args ->
    carries (mjoin (bound_slots <$> args)) (each (fun i a s => operand C (eval C cb) a (b i) s) i args)).
  { intros b args i Hf. apply (carries_each (fun i a => operand C (eval C cb) a (b i)) bound_slots).
    eapply Forall_impl; [exact Hf|]. intros a Ha j. apply carries_operand; [done|]. by destruct a as [[] u]. }
  assert (Hev : forall args i, Forall (fun e => carries (bound_slots e) (eval C cb e)) args ->
    carries (mjoin (bound_slots <$> args)) (each (fun _ a s => eval C cb a s) i args)).
  { intros args i Hf. apply (carries_each (fun _ a => eval C cb a) bound_slots).
    eapply Forall_impl; [exact Hf|]. by intros. }
  destruct k; simpl in IH; try (apply Forall_cons in IH as [IH1 IH]);
    try (apply Forall_cons in IH as [IH2 IH]); try (apply Forall_cons in IH as [IH3 _]);
    cbn [bound_slots eval]; try apply carries_id.
  - apply carries_consume.
  - by apply (Hop (nth_flag _)).
  - by apply (Hop (fun _ => false)).
  - apply (carries_bind _ _ (eval C cb func)); [done|]. apply carries_then; [by apply (Hop (nth_flag _))|].
    apply carries_each_nil. intros i [u|]; [apply carries_consume|apply carries_id].
  - apply (carries_bind _ _ (eval C cb cond)); [done|].
    intros s s' (s1 & E1 & (s2 & E2 & E3)%bind_ok)%bind_ok Hs. case_match; [|done]. injection E3 as <-.
    destruct (IH2 _ _ E1 Hs) as [N1 F1], (IH3 _ _ E2 Hs) as [N2 F2]. split; [done|].
    intros X HX Hx. rewrite F1; [|done|intros x Hin; apply Hx, elem_of_app; by left]. simpl.
    specialize (F2 X HX (fun x Hin => Hx x (proj2 (elem_of_app _ _ _) (or_intror Hin)))).
    unfold add, with_refs in F2 |- *. simpl in *. rewrite F2. simpl. rewrite decide_True by congruence.
    done.
  - apply (carries_bind _ _ (eval C cb value)); [done|]. destruct (peek_parent value) as [parent|].
    + apply (carries_borrowed local parent (Err_ReboundBorrowed local)), IH2.
    + apply (carries_scope local (Err_Rebound local)), IH2.
  - by apply Hev.
  - apply (carries_bind _ _ (eval C cb value)); [done|]. by apply (carries_many locals Err_Rebound).
  - apply carries_each_nil. intros i x. apply carries_consume.
  - apply carries_then; [by apply Hev|]. destruct reuse; [apply carries_consume|apply carries_id].
  - apply carries_atom.
  - apply (carries_then (borrow_atom C base)); [apply carries_atom|].
    destruct index; [apply carries_id|apply carries_borrow].
  - apply (carries_bind _ _ (eval C cb value)); [done|]. by apply (carries_scope token (Err_ReboundToken token)).
  - by apply (carries_bind [] _ (consume C token)); [apply carries_consume|].
  - by apply (carries_bind [] _ (dup_step local)); [apply carries_dup|].
  - destruct (owned_slot C local); [|by intros s s' H].
    by apply (carries_bind [] _ (consume C local)); [apply carries_consume|].
  - intros s s' (s1 & E1 & [= <-])%bind_ok Hs. destruct (IH1 _ _ E1 Hs) as [N F]. split; [done|].
    intros X HX Hx. specialize (F X HX Hx). unfold add, with_refs, with_loop in *. simpl in *. by rewrite F.
  - apply (carries_each (fun i a s => match loop_borrowed s with
      | Some borrowed => if nth_flag borrowed i then borrow_atom C a s else eval C cb a s
      | None => eval C cb a s end) bound_slots).
    eapply Forall_impl; [exact IH|]. intros a Ha i s s'. change (loop_borrowed (add _ s)) with (loop_borrowed s).
    destruct (loop_borrowed s); [destruct (nth_flag _ i)|]; [apply carries_atom|apply Ha..].
  - by apply (carries_scope hole (Err_ReboundHole hole)).
  - apply (carries_then (eval C cb cell)); [done|]. apply carries_consume.
  - apply (carries_then (eval C cb base)); [done|]. apply carries_consume.
Qed.
End Frame.

(** Extra references are framed.  If the verifier walks a tree from one state to another,
    then with more references to slots the tree does not bind it still does, from the larger
    state to the other one enlarged alike; and no count ever goes below zero on the way. *)
Theorem eval_frame C cb e s s' X :
  eval C cb e s = Ok s' -> nonneg (refs s) -> nonneg X ->
  (forall x, x ∈ bound_slots e -> X !! x = None) ->
  eval C cb e (add X s) = Ok (add X s') ∧ nonneg (refs s').
Proof.
  intros H Hs HX Hx. destruct (eval_carries C cb e s s' H Hs) as [N F]. split; [by apply F|done].
Qed.

(** The walk is properly scoped.  Walking a tree leaves exactly the slots bound that were
    bound before, the borrowed slots and the enclosing loop as they were; and every slot the
    tree binds - in any branch - was unbound when the walk started. *)
Theorem eval_scoping C cb e s s' :
  eval C cb e s = Ok s' ->
  dom (refs s') = dom (refs s) ∧ projections s' = projections s ∧ loop_borrowed s' = loop_borrowed s ∧
  forall x, x ∈ bound_slots e -> x ∉ dom (refs s).
Proof. intros H. destruct (eval_tidy C cb e s s' H) as [(D & P & L) N]. done. Qed.

(** [let y = x in y] *)
Definition copy : CExpr :=
  CE (K_Let 1 (CE (K_Local 0) ty_int) (CE (K_Local 1) ty_int)) ty_int.

Lemma eval_frame_witness :
  eval ∅ (fun _ _ => []) copy (add {[ 0 := 4%Z ]} (MkCk {[ 0 := 1%Z ]} ∅ None)) =
  Ok (add {[ 0 := 4%Z ]} (MkCk {[ 0 := 0%Z ]} ∅ None)).
Proof.
  apply (eval_frame ∅ (fun _ _ => []) copy (MkCk {[ 0 := 1%Z ]} ∅ None) (MkCk {[ 0 := 0%Z ]} ∅ None)).
  - vm_compute. reflexivity.
  - intros x n Hx. simpl in Hx. apply lookup_singleton_Some in Hx as [_ <-]. lia.
  - intros x n Hx. apply lookup_singleton_Some in Hx as [_ <-]. lia.
  - intros x Hx. apply list_elem_of_singleton in Hx as ->. reflexivity.
Defined.

Lemma eval_scoping_witness : dom ({[ 0 := 0%Z ]} : gmap LocalId Z) = dom ({[ 0 := 1%Z ]} : gmap LocalId Z).
Proof.
  refine (proj1 (eval_scoping ∅ (fun _ _ => []) copy (MkCk {[ 0 := 1%Z ]} ∅ None)
    (MkCk {[ 0 := 0%Z ]} ∅ None) _)).
  vm_compute. reflexivity.
Defined.
