(* ===== verification/Rc.v ===== *)
(** * Reference-count insertion

    The reference-counting core of fai-rc's [lib.rs]: fresh slots, A-normal form,
    free owned variables and the precise insertion pass, in the order of the
    source.  The counter [next] that the Rust code passes as [&mut usize] is the
    state of [SM nat]; [unreachable!] on a tail-call node is a panic. *)

From S2P Require Import Prelude Types Ir Verify.
From stdpp Require Import gmap list strings sorting.
From Stdlib Require Import ZArith Lia.

(** ** Fresh locals *)

(** [max_local] *)
Fixpoint max_local (e : CExpr) (max : nat) : nat :=
  let bump := fun (l : LocalId) (m : nat) => m `max` S l in
  match e with
  | CE kind _ =>
      match kind with
      | K_Local x => bump x max
      | K_Lit _ | K_Global _ | K_Error => max
      | K_Prim _ args | K_Foreign _ args _ | K_MakeData _ args _ _ _ =>
          foldl (fun m a => max_local a m) max args
      | K_App func args reuse _ =>
          let m := foldl (fun m a => max_local a m) (max_local func max) args in
          foldl (fun m t => match t with Some t => bump t m | None => m end) m reuse
      | K_If cond thn els => max_local els (max_local thn (max_local cond max))
      | K_Let local value body => max_local body (max_local value (bump local max))
      | K_MakeClosure _ captures _ => foldl (fun m c => bump c m) max captures
      | K_Spread components => foldl (fun m a => max_local a m) max components
      | K_LetMany locals value body =>
          max_local body (max_local value (foldl (fun m l => bump l m) max locals))
      | K_DataTag base _ => max_local base max
      | K_DataField base index _ _ =>
          let m := max_local base max in
          match index with FI_Dyn _ evidence => bump evidence m | FI_Const _ => m end
      | K_Reset value token body => max_local body (max_local value (bump token max))
      | K_FreeReuse token body => max_local body (bump token max)
      | K_Dup local body | K_Drop local body => max_local body (bump local max)
      | K_Join params body => max_local body (foldl (fun m p => bump p m) max params)
      | K_Recur args => foldl (fun m a => max_local a m) max args
      | K_HoleStart hole body => max_local body (bump hole max)
      | K_HoleFill hole cell _ => max_local cell (bump hole max)
      | K_HoleClose hole base => max_local base (bump hole max)
      end
  end.

(** [next_free_local] *)
Definition next_free_local (lowered : LoweredDef) : nat :=
  foldl (fun max f =>
    let max := foldl (fun m p => m `max` S p) max (fn_params f) in
    let max := foldl (fun m c => m `max` S c) max (fn_captures f) in
    max_local (fn_body f) max) 0 (ld_fns lowered).

(** [fresh] *)
Definition fresh : SM nat LocalId := fun next => Some (next, S next).

(** ** A-normal form *)

(** [is_atom] *)
Definition is_atom (e : CExpr) : bool :=
  match ce_kind e with K_Lit _ | K_Local _ | K_Global _ | K_Error => true | _ => false end.

(** The bindings collected so far, and the next free slot. *)
Definition Binds : Type := list (LocalId * CExpr).
Definition ANF (A : Type) : Type := SM (Binds * nat) A.

Definition push (local : LocalId) (value : CExpr) : ANF unit :=
  fun '(binds, next) => Some (tt, (binds ++ [(local, value)], next)).

(** [bind] *)
Definition bind (r : CExpr) : ANF CExpr :=
  fun '(binds, next) =>
    Some (CE (K_Local next) (ce_ty r), (binds ++ [(next, r)], S next)).

(** [wrap_binds] *)
Definition wrap_binds (binds : Binds) (inner : CExpr) : CExpr :=
  foldr (fun b e => CE (K_Let b.1 b.2 e) (ce_ty e)) inner binds.

(** Runs a normalization with a binding list of its own, and wraps its result. *)
Definition anf_with (op : CExpr -> ANF CExpr) (e : CExpr) : ANF CExpr :=
  fun '(binds, next) =>
    match op e ([], next) with
    | Some (r, (inner, next)) => Some (wrap_binds inner r, (binds, next))
    | None => None
    end.

(** [atomize] *)
Definition atomize (op : CExpr -> ANF CExpr) (e : CExpr) : ANF CExpr :=
  r ← op e; if is_atom r then mret r else bind r.

(** [to_local] *)
Definition to_local (op : CExpr -> ANF CExpr) (e : CExpr) : ANF CExpr :=
  r ← op e; match ce_kind r with K_Local _ => mret r | _ => bind r end.

(** [anf_op] *)
Fixpoint anf_op (e : CExpr) : ANF CExpr :=
  match e with
  | CE kind ty =>
      match kind with
      | K_Lit _ | K_Local _ | K_Global _ | K_Error => mret (CE kind ty)
      | K_Prim op args =>
          args ← smap (atomize anf_op) args; mret (CE (K_Prim op args) ty)
      | K_Foreign symbol args marshalled =>
          args ← smap (atomize anf_op) args; mret (CE (K_Foreign symbol args marshalled) ty)
      | K_MakeData tag args reuse scalars niche =>
          args ← smap (atomize anf_op) args;
          mret (CE (K_MakeData tag args reuse scalars niche) ty)
      | K_App func args reuse alloc =>
          func ← atomize anf_op func;
          args ← smap (atomize anf_op) args;
          mret (CE (K_App func args reuse alloc) ty)
      | K_Spread components =>
          components ← smap (atomize anf_op) components;
          mret (CE (K_Spread components) ty)
      | K_LetMany locals value body =>
          value ← anf_with anf_op value;
          body ← anf_with anf_op body;
          mret (CE (K_LetMany locals value body) ty)
      | K_DataTag base niche =>
          base ← to_local anf_op base; mret (CE (K_DataTag base niche) ty)
      | K_DataField base index scalar niche =>
          base ← to_local anf_op base; mret (CE (K_DataField base index scalar niche) ty)
      | K_If cond thn els =>
          cond ← atomize anf_op cond;
          thn ← anf_with anf_op thn;
          els ← anf_with anf_op els;
          mret (CE (K_If cond thn els) ty)
      | K_Let local value body =>
          value ← anf_op value;
          _ ← push local value;
          anf_op body
      | K_MakeClosure _ _ _ => mret (CE kind ty)
      | K_Reset value token body =>
          value ← anf_with anf_op value;
          body ← anf_with anf_op body;
          mret (CE (K_Reset value token body) ty)
      | K_FreeReuse token body =>
          body ← anf_with anf_op body; mret (CE (K_FreeReuse token body) ty)
      | K_Dup local body => body ← anf_with anf_op body; mret (CE (K_Dup local body) ty)
      | K_Drop local body => body ← anf_with anf_op body; mret (CE (K_Drop local body) ty)
      | K_Join _ _ | K_Recur _ | K_HoleStart _ _ | K_HoleFill _ _ _ | K_HoleClose _ _ => panic
      end
  end.

(** [anf] *)
Definition anf (e : CExpr) : SM nat CExpr :=
  fun next =>
    match anf_op e ([], next) with
    | Some (op, (binds, next)) => Some (wrap_binds binds op, next)
    | None => None
    end.

(** ** Free owned variables *)

(** [collect_fv]: [bound] and [out] are the two sets the code mutates. *)
Section FreeVars.
Context (captures : gset LocalId).

Definition FvState : Type := gset LocalId * gset LocalId.

Definition note (x : LocalId) (st : FvState) : FvState :=
  let '(bound, out) := st in
  if bool_decide (x ∈ captures) || bool_decide (x ∈ bound) then (bound, out)
  else (bound, {[x]} ∪ out).

(** [bound.insert(l)] over a list, keeping the slots that were newly inserted. *)
Fixpoint insert_bound (ls : list LocalId) (bound : gset LocalId)
    : list LocalId * gset LocalId :=
  match ls with
  | [] => ([], bound)
  | l :: ls =>
      let '(added, bound') := insert_bound ls ({[l]} ∪ bound) in
      (if bool_decide (l ∈ bound) then added else l :: added, bound')
  end.

Definition remove_bound (added : list LocalId) (bound : gset LocalId) : gset LocalId :=
  foldl (fun b l => b ∖ {[l]}) bound added.

(** Visits [body] with [ls] bound, and unbinds the newly bound ones afterwards. *)
Definition under_binders (visit : FvState -> FvState) (ls : list LocalId) (st : FvState)
    : FvState :=
  let '(bound, out) := st in
  let '(added, bound) := insert_bound ls bound in
  let '(bound, out) := visit (bound, out) in
  (remove_bound added bound, out).

Fixpoint collect_fv (e : CExpr) (st : FvState) : FvState :=
  match e with
  | CE kind _ =>
      match kind with
      | K_Local x => note x st
      | K_Lit _ | K_Global _ | K_Error => st
      | K_Prim _ args | K_Foreign _ args _ | K_MakeData _ args _ _ _ | K_Spread args =>
          foldl (fun st a => collect_fv a st) st args
      | K_App func args _ _ => foldl (fun st a => collect_fv a st) (collect_fv func st) args
      | K_If cond thn els => collect_fv els (collect_fv thn (collect_fv cond st))
      | K_Let local value body =>
          under_binders (collect_fv body) [local] (collect_fv value st)
      | K_LetMany locals value body =>
          under_binders (collect_fv body) locals (collect_fv value st)
      | K_MakeClosure _ caps _ => foldl (fun st c => note c st) st caps
      | K_DataTag base _ => collect_fv base st
      | K_DataField base index _ _ =>
          let st := collect_fv base st in
          match index with FI_Dyn _ evidence => note evidence st | FI_Const _ => st end
      | K_Reset value token body =>
          under_binders (collect_fv body) [token] (collect_fv value st)
      | K_FreeReuse token body => collect_fv body (note token st)
      | K_Dup local body | K_Drop local body => collect_fv body (note local st)
      | K_Join params body => under_binders (collect_fv body) params st
      | K_Recur args => foldl (fun st a => collect_fv a st) st args
      | K_HoleStart hole body => under_binders (collect_fv body) [hole] st
      | K_HoleFill hole cell _ => collect_fv cell (note hole st)
      | K_HoleClose hole base => collect_fv base (note hole st)
      end
  end.

(** [fv_owned] *)
Definition fv_owned (e : CExpr) : gset LocalId := (collect_fv e (∅, ∅)).2.
End FreeVars.

(** ** Precise reference counting *)

(** [dup_], [drop_], [dropify] *)
Definition dup_ (local : LocalId) (body : CExpr) : CExpr := CE (K_Dup local body) (ce_ty body).
Definition drop_ (local : LocalId) (body : CExpr) : CExpr := CE (K_Drop local body) (ce_ty body).
Definition dropify (drops : list LocalId) (e : CExpr) : CExpr := foldr drop_ e (sort_dedup drops).

(** [is_projection] *)
Definition is_projection (e : CExpr) : bool :=
  match ce_kind e with
  | K_DataField _ _ _ _ | K_DataTag _ _ | K_Prim P_DataPeek _ | K_Prim P_ArrayPeek _ => true
  | _ => false
  end.

Definition local_of (e : CExpr) : option LocalId :=
  match ce_kind e with K_Local x => Some x | _ => None end.

(** [projection_borrows] *)
Definition projection_borrows (e : CExpr) : list LocalId :=
  match ce_kind e with
  | K_Prim P_DataPeek args | K_Prim P_ArrayPeek args => omap local_of args
  | K_DataTag base _ => option_list (local_of base)
  | K_DataField base index _ _ =>
      option_list (local_of base) ++
      match index with FI_Dyn _ evidence => [evidence] | FI_Const _ => [] end
  | _ => []
  end.

(** The local an operand consumes: a local at a position that is not borrowed. *)
Definition consumes (borrows : list bool) (i : nat) (a : CExpr) : option LocalId :=
  if nth_flag borrows i then None else local_of a.

(** [consumed] collected over the operands, positions from [i]. *)
Fixpoint consumed_from (borrows : list bool) (i : nat) (ops : list CExpr) : list LocalId :=
  match ops with
  | [] => []
  | a :: ops => option_list (consumes borrows i a) ++ consumed_from borrows (S i) ops
  end.

Section Rc.
Context (captures : gset LocalId) (call_borrows : DefId -> nat -> list bool).

Definition is_capture (x : LocalId) : bool := bool_decide (x ∈ captures).

(** Operands consumed but still needed: one entry per duplicate, in operand order. *)
Fixpoint dups_from (borrows : list bool) (live : gset LocalId) (i : nat) (ops : list CExpr)
    : list LocalId :=
  match ops with
  | [] => []
  | a :: ops =>
      let rest := dups_from borrows live (S i) ops in
      match consumes borrows i a with
      | Some x =>
          let later := bool_decide (x ∈ consumed_from borrows (S i) ops) in
          if is_capture x || bool_decide (x ∈ live) || later then x :: rest else rest
      | None => rest
      end
  end.

(** Borrowed operands whose last use is this operation, each once. *)
Fixpoint dead_from (borrows : list bool) (live : gset LocalId) (consumed : list LocalId)
    (i : nat) (ops : list CExpr) (dead : list LocalId) : list LocalId :=
  match ops with
  | [] => dead
  | a :: ops =>
      dead_from borrows live consumed (S i) ops
        (if nth_flag borrows i then
           match local_of a with
           | Some x =>
               if is_capture x || bool_decide (x ∈ live) || bool_decide (x ∈ consumed)
                  || bool_decide (x ∈ dead)
               then dead else dead ++ [x]
           | None => dead
           end
         else dead)
  end.

(** Binds each borrowed operand that is not a local to a fresh one. *)
Fixpoint pre_bind (borrows : list bool) (i : nat) (ops : list CExpr)
    : SM nat (list CExpr * Binds) :=
  match ops with
  | [] => mret ([], [])
  | a :: ops =>
      match nth_flag borrows i, local_of a with
      | true, None =>
          t ← fresh;
          '(ops, binds) ← pre_bind borrows (S i) ops;
          mret (CE (K_Local t) (ce_ty a) :: ops, (t, a) :: binds)
      | _, _ =>
          '(ops, binds) ← pre_bind borrows (S i) ops;
          mret (a :: ops, binds)
      end
  end.

(** [operands_rc] *)
Definition operands_rc (operands : list CExpr) (borrows : list bool) (live : gset LocalId)
    (rebuild : list CExpr -> CExpr) : SM nat CExpr :=
  '(operands, pre_binds) ← pre_bind borrows 0 operands;
  let consumed := consumed_from borrows 0 operands in
  let dups := dups_from borrows live 0 operands in
  let dead := dead_from borrows live consumed 0 operands [] in
  let e := rebuild operands in
  e ← match dead with
      | [] => mret e
      | _ =>
          tmp ← fresh;
          let ty := ce_ty e in
          mret (CE (K_Let tmp e (dropify dead (CE (K_Local tmp) ty))) ty)
      end;
  mret (wrap_binds pre_binds (foldr dup_ e dups)).

(** [dead_borrows] *)
Definition dead_borrows (borrows : list LocalId) (live : gset LocalId) : list LocalId :=
  List.filter (fun b => negb (is_capture b) && negb (bool_decide (b ∈ live))) borrows.

(** [borrow_tail] *)
Definition borrow_tail (proj : CExpr) (borrows : list LocalId) (live : gset LocalId)
    : SM nat CExpr :=
  let dead := dead_borrows borrows live in
  match dead with
  | [] => mret proj
  | _ =>
      tmp ← fresh;
      let ty := ce_ty proj in
      mret (CE (K_Let tmp proj (dropify dead (CE (K_Local tmp) ty))) ty)
  end.

(** The loop over a closure's captures, last first. *)
Fixpoint closure_dups (live : gset LocalId) (caps : list LocalId) : list LocalId :=
  match caps with
  | [] => []
  | c :: caps =>
      let rest := closure_dups live caps in
      let later := bool_decide (c ∈ caps) in
      if is_capture c || bool_decide (c ∈ live) || later then c :: rest else rest
  end.

(** [conditional] *)
Definition conditional (owned : CExpr -> gset LocalId -> SM nat CExpr)
    (cond thn els : CExpr) (ty : Ty) (live : gset LocalId) : SM nat CExpr :=
  let fvt := fv_owned captures thn in
  let fve := fv_owned captures els in
  let branch_in := live ∪ fvt ∪ fve in
  thn2 ← owned thn live;
  els2 ← owned els live;
  let d_then := elements (branch_in ∖ fvt ∖ live) in
  let d_els := elements (branch_in ∖ fve ∖ live) in
  let thn2 := dropify d_then thn2 in
  let els2 := dropify d_els els2 in
  let cond_dup :=
    match ce_kind cond with
    | K_Local c => if is_capture c || bool_decide (c ∈ branch_in) then Some c else None
    | _ => None
    end in
  let if_expr := CE (K_If cond thn2 els2) ty in
  mret (match cond_dup with Some c => dup_ c if_expr | None => if_expr end).

(** [binding] *)
Definition binding (owned : CExpr -> gset LocalId -> SM nat CExpr)
    (local : LocalId) (value body : CExpr) (ty : Ty) (live : gset LocalId) : SM nat CExpr :=
  let fvb := fv_owned captures body in
  let live_value := fvb ∖ {[local]} ∪ live in
  body2 ← owned body live;
  let body2 :=
    if negb (bool_decide (local ∈ fvb)) && negb (is_capture local)
    then drop_ local body2 else body2 in
  if is_projection value then
    let dead := dead_borrows (projection_borrows value) live_value in
    mret (CE (K_Let local value (dropify dead body2)) ty)
  else
    value2 ← owned value live_value;
    mret (CE (K_Let local value2 body2) ty).

(** The multi-result calls [owned] leaves in place: their operands and ownership. *)
Definition multi_operands (value : CExpr) : option (list CExpr * list bool) :=
  match ce_kind value with
  | K_App func args _ _ =>
      Some (args, match ce_kind func with
                  | K_Global def => call_borrows def (length args)
                  | _ => replicate (length args) false
                  end)
  | K_Prim op args =>
      match native_result_symbol op false with
      | Some _ => Some (args, prim_borrows op args)
      | None => None
      end
  | _ => None
  end.

(** The [LetMany] arm of [owned]. *)
Definition letmany (owned : CExpr -> gset LocalId -> SM nat CExpr)
    (locals : list LocalId) (value body : CExpr) (ty : Ty) (live : gset LocalId)
    : SM nat CExpr :=
  let fvb := fv_owned captures body in
  let live_after := fvb ∖ list_to_set locals ∪ live in
  body2 ← owned body live;
  let unused := List.filter (fun l => negb (bool_decide (l ∈ fvb))) locals in
  let body2 := dropify unused body2 in
  match multi_operands value with
  | None =>
      value2 ← owned value live_after;
      mret (CE (K_LetMany locals value2 body2) ty)
  | Some (args, borrows) =>
      let consumed := consumed_from borrows 0 args in
      let dups := dups_from borrows live_after 0 args in
      let dead := dead_from borrows live_after consumed 0 args [] in
      mret (foldr dup_ (CE (K_LetMany locals value (dropify dead body2)) ty) dups)
  end.

(** [Rc::owned] *)
Fixpoint owned (e : CExpr) (live : gset LocalId) {struct e} : SM nat CExpr :=
  match e with
  | CE kind ty =>
      match kind with
      | K_Lit _ | K_Global _ | K_Error => mret (CE kind ty)
      | K_Local x =>
          let used := CE (K_Local x) ty in
          mret (if is_capture x || bool_decide (x ∈ live) then dup_ x used else used)
      | K_Prim op args =>
          operands_rc args (prim_borrows op args) live (fun args => CE (K_Prim op args) ty)
      | K_Foreign symbol args marshalled =>
          operands_rc args (replicate (length args) false) live
            (fun args => CE (K_Foreign symbol args marshalled) ty)
      | K_MakeData tag args reuse scalars niche =>
          operands_rc args (replicate (length args) false) live
            (fun args => CE (K_MakeData tag args reuse scalars niche) ty)
      | K_Spread components =>
          operands_rc components (replicate (length components) false) live
            (fun components => CE (K_Spread components) ty)
      | K_LetMany locals value body => letmany owned locals value body ty live
      | K_App func args reuse alloc =>
          let nargs := length args in
          let arg_borrows :=
            match ce_kind func with
            | K_Global def => call_borrows def nargs
            | _ => replicate nargs false
            end in
          operands_rc (func :: args) (false :: arg_borrows) live
            (fun ops => match ops with
                        | func :: args => CE (K_App func args reuse alloc) ty
                        | [] => CE kind ty
                        end)
      | K_MakeClosure func caps alloc =>
          mret (foldr dup_ (CE (K_MakeClosure func caps alloc) ty) (closure_dups live caps))
      | K_DataField _ _ _ _ | K_DataTag _ _ =>
          let proj := CE kind ty in borrow_tail proj (projection_borrows proj) live
      | K_If cond thn els => conditional owned cond thn els ty live
      | K_Let local value body => binding owned local value body ty live
      | K_Reset value token body =>
          body ← owned body live; mret (CE (K_Reset value token body) ty)
      | K_FreeReuse token body => body ← owned body live; mret (CE (K_FreeReuse token body) ty)
      | K_Dup local body => body ← owned body live; mret (dup_ local body)
      | K_Drop local body => body ← owned body live; mret (drop_ local body)
      | K_Join _ _ | K_Recur _ | K_HoleStart _ _ | K_HoleFill _ _ _ | K_HoleClose _ _ => panic
      end
  end.
End Rc.

(** The last step of [rc_lowered] for a function: a parameter the body never mentions is
    dropped at entry, unless it is borrowed. *)
Definition drop_unused_params (used borrowed : gset LocalId) (params : list LocalId)
    (body : CExpr) : CExpr :=
  foldr (fun p body =>
    if negb (bool_decide (p ∈ used)) && negb (bool_decide (p ∈ borrowed))
    then drop_ p body else body) body params.
