(* ===== verification/ReuseCandidates.v ===== *)
(** * Candidates for cell reuse

    fai-rc's [reuse_candidates.rs], and [data_typed_locals] of [lib.rs]: which locals name
    data cells, which of them are aliases, and whether a live alias or projection parent
    keeps a cell shared.  The scans are bounded: their budget is an explicit counter. *)

From S2P Require Import Prelude Types Ir Rc.
From stdpp Require Import gmap list strings.

(** [e_children] with its callback: the state of [f] goes through the children in order. *)
Definition visit {S} (f : CExpr -> S -> S) (kind : ExprKind) (s : S) : S :=
  match kind with
  | K_Prim _ args | K_Foreign _ args _ | K_MakeData _ args _ _ _ | K_Recur args | K_Spread args =>
      foldl (fun s a => f a s) s args
  | K_App func args _ _ => foldl (fun s a => f a s) (f func s) args
  | K_If cond thn els => f els (f thn (f cond s))
  | K_Let _ value body | K_Reset value _ body | K_LetMany _ value body => f body (f value s)
  | K_FreeReuse _ body | K_Dup _ body | K_Drop _ body | K_Join _ body | K_HoleStart _ body => f body s
  | K_DataTag base _ | K_HoleClose _ base | K_DataField base _ _ _ => f base s
  | K_HoleFill _ cell _ => f cell s
  | K_Local _ | K_Lit _ | K_Global _ | K_MakeClosure _ _ _ | K_Error => s
  end.

(** [is_data_head] and [is_boxed_data_ty] *)
Fixpoint is_data_head (ty : Ty) : bool :=
  match ty with
  | Ty_Adt _ | Ty_Interface _ | Ty_Con Con_List => true
  | Ty_App head _ => is_data_head head
  | _ => false
  end.
Definition is_boxed_data_ty (ty : Ty) : bool :=
  match ty with
  | Ty_Record _ _ | Ty_Tuple _ => true
  | _ => is_data_head ty
  end.

(** [note_base] *)
Definition note_base (base : CExpr) (out : gset LocalId) : gset LocalId :=
  match local_of base with Some l => {[l]} ∪ out | None => out end.

(** [collect_data_locals] *)
Fixpoint collect_data_locals (e : CExpr) (out : gset LocalId) : gset LocalId :=
  match e with
  | CE kind ty =>
      match kind with
      | K_Let local value body =>
          let out := if is_boxed_data_ty (ce_ty value) then {[local]} ∪ out else out in
          collect_data_locals body (collect_data_locals value out)
      | K_DataTag base _ | K_DataField base _ _ _ => collect_data_locals base (note_base base out)
      | K_Reset value _ body => collect_data_locals body (collect_data_locals value out)
      | K_Local local => if is_boxed_data_ty ty then {[local]} ∪ out else out
      | _ => visit collect_data_locals kind out
      end
  end.

(** [data_typed_locals] *)
Definition data_typed_locals (e : CExpr) : gset LocalId := collect_data_locals e ∅.

(** [ReuseCandidates] *)
Record ReuseCandidates := MkCandidates {
  rc_data : gset LocalId;
  roots : gmap LocalId LocalId;
  aliased : gset LocalId;
  owners : gmap LocalId LocalId;
  sizes : gmap LocalId (option nat)
}.

(** [ReuseCandidates::fields] *)
Definition fields (c : ReuseCandidates) (local : LocalId) : option nat := mjoin (sizes c !! local).

(** [ReuseCandidates::root] *)
Definition root (c : ReuseCandidates) (local : LocalId) : LocalId := default local (roots c !! local).

Definition add_alias (local : LocalId) (other : LocalId) (c : ReuseCandidates) : ReuseCandidates :=
  let r := root c other in
  MkCandidates (rc_data c) (<[local := r]> (roots c)) ({[r]} ∪ aliased c) (owners c) (sizes c).
Definition add_owner (local : LocalId) (parent : LocalId) (c : ReuseCandidates) : ReuseCandidates :=
  MkCandidates (rc_data c) (roots c) (aliased c) (<[local := root c parent]> (owners c)) (sizes c).

(** The [while] loop of [collect]: a value under its counts. *)
Fixpoint peel_counts (value : CExpr) : CExpr :=
  match value with
  | CE (K_Dup _ body) _ | CE (K_Drop _ body) _ => peel_counts body
  | _ => value
  end.

(** What a binding of [local] to a value says of it. *)
Definition observe (local : LocalId) (value : CExpr) (c : ReuseCandidates) : ReuseCandidates :=
  match ce_kind (peel_counts value) with
  | K_Local other => add_alias local other c
  | K_DataField base _ _ _ =>
      match local_of base with Some parent => add_owner local parent c | None => c end
  | K_Prim P_ArrayGet args =>
      match args with
      | a :: _ => match local_of a with Some parent => add_owner local parent c | None => c end
      | [] => c
      end
  | _ => c
  end.

(** [ReuseCandidates::collect] *)
Fixpoint collect (e : CExpr) (c : ReuseCandidates) : ReuseCandidates :=
  match e with
  | CE kind _ =>
      match kind with
      | K_Let local value body => collect body (observe local value (collect value c))
      | _ => visit collect kind c
      end
  end.

(** [ReuseCandidates::new] and [with_sizes] *)
Definition new_candidates (body : CExpr) (data : gset LocalId) : ReuseCandidates :=
  collect body (MkCandidates data ∅ ∅ ∅ ∅).
Definition with_sizes (c : ReuseCandidates) (s : gmap LocalId (option nat)) : ReuseCandidates :=
  MkCandidates (rc_data c) (roots c) (aliased c) (owners c) s.

Section CanReuse.
Context (c : ReuseCandidates).

(** One more child of the traversal: skipped once the target is found or the budget spent. *)
Definition stop (f : nat -> bool * nat) (r : bool * nat) : bool * nat :=
  let '(found, budget) := r in if found || (budget =? 0) then (found, budget) else f budget.

Definition names (target : LocalId) (kind : ExprKind) : bool :=
  match kind with
  | K_Local local | K_Drop local _ | K_Dup local _ => root c local =? target
  | K_MakeClosure _ captures _ => existsb (fun l => root c l =? target) captures
  | _ => false
  end.

(** [ReuseCandidates::mentions] *)
Fixpoint mentions (e : CExpr) (target : LocalId) (budget : nat) {struct e} : bool * nat :=
  match budget with
  | 0 => (false, 0)
  | S budget =>
      match e with
      | CE kind _ =>
          if names target kind then (true, budget)
          else visit (fun child => stop (mentions child target)) kind (false, budget)
      end
  end.

(** The loop of [can_reuse] up the projection parents, at most [turns] of them. *)
Fixpoint parents_dead (continuation : CExpr) (turns : nat) (r : LocalId) (budget : nat) : bool :=
  match turns with
  | 0 => true
  | S turns =>
      match owners c !! r with
      | None => true
      | Some parent =>
          let '(found, budget) := mentions continuation parent budget in
          if found then false else parents_dead continuation turns parent budget
      end
  end.

(** [ReuseCandidates::can_reuse] *)
Definition can_reuse (local : LocalId) (continuation : CExpr) : bool :=
  if bool_decide (local ∈ rc_data c) then
    let r := root c local in
    let '(found, budget) :=
      if bool_decide (r ∈ aliased c) then mentions continuation r 512 else (false, 512) in
    if found then false else parents_dead continuation 32 r budget
  else false.
End CanReuse.
