(* ===== verification/ReuseSizes.v ===== *)
(** * Size classes of reuse

    fai-rc's [reuse_sizes.rs] with the token helpers of [lib.rs] it shares with the reuse
    pass: the field count of each local's type, and the release of a dead cell into a
    construction of the same count.  [unreachable!] is a panic. *)

From S2P Require Import Prelude Types Ir Rc Niche ReuseCandidates.
From stdpp Require Import gmap list strings.

(** ** Tokens ([lib.rs]) *)

(** [niche_wrapper_free] *)
Definition niche_wrapper_free (niche : option NicheKind) : bool :=
  match niche with Some _ => true | None => false end.

(** [is_reuse_target] *)
Definition is_reuse_target (e : CExpr) : bool :=
  match ce_kind e with
  | K_MakeData _ args None _ niche => negb (bool_decide (args = [])) && negb (niche_wrapper_free niche)
  | _ => false
  end.

(** [attach_reuse] *)
Definition attach_reuse (e : CExpr) (token : LocalId) : option CExpr :=
  match e with
  | CE (K_MakeData tag args None scalars niche) ty =>
      Some (CE (K_MakeData tag args (Some token) scalars niche) ty)
  | _ => None
  end.

(** [reset_] *)
Definition reset_ (s token : LocalId) (body : CExpr) : CExpr :=
  CE (K_Reset (CE (K_Local s) Ty_Error) token body) (ce_ty body).

(** [free_reuse_] *)
Definition free_reuse_ (token : LocalId) (body : CExpr) : CExpr :=
  CE (K_FreeReuse token body) (ce_ty body).

(** ** Classes *)

(** [SEARCH_BUDGET] *)
Definition SEARCH_BUDGET : nat := 256.

(** The loop of [class] over a union's constructors. *)
Fixpoint ctor_fields (decls : TypeDecls) (names : list string) (fields : option nat) : option nat :=
  match names with
  | [] => Some (default 0 fields)
  | name :: names =>
      match ctor decls name with
      | None => None
      | Some info =>
          if 0 <? ci_arity info then
            match fields with
            | Some old => if old =? ci_arity info then ctor_fields decls names fields else None
            | None => ctor_fields decls names (Some (ci_arity info))
            end
          else ctor_fields decls names fields
      end
  end.

(** [class] *)
Fixpoint class (db : Db) (ty : Ty) : option nat :=
  match niche_scheme db ty with
  | Some _ => Some 0
  | None =>
      match ty with
      | Ty_Tuple fields => Some (length fields)
      | Ty_Record fields Row_Closed => Some (length fields)
      | Ty_Con Con_List => Some 2
      | Ty_App head _ => class db head
      | Ty_Adt adt =>
          match db_decls db (adt_file adt) with
          | None => None
          | Some decls =>
              match type_named decls (adt_name adt) with
              | None => None
              | Some info =>
                  if td_is_alias info || td_opaque info then None
                  else ctor_fields decls (td_ctors info) None
              end
          end
      | _ => None
      end
  end.

(** One observation of a local's type: a second, different class leaves none. *)
Definition observe_class (db : Db) (local : LocalId) (ty : Ty)
    (locals : gmap LocalId (option nat)) : gmap LocalId (option nat) :=
  match ty with
  | Ty_Error => locals
  | _ =>
      let k := class db ty in
      match locals !! local with
      | Some old => if bool_decide (old = k) then locals else <[local := None]> locals
      | None => <[local := k]> locals
      end
  end.

(** [collect]: the walk in pre-order; the cache of classes by type is not state of the result. *)
Fixpoint walk (db : Db) (e : CExpr) (locals : gmap LocalId (option nat))
    : gmap LocalId (option nat) :=
  match e with
  | CE kind ty =>
      let locals :=
        match kind with
        | K_Local local => observe_class db local ty locals
        | K_Let local value _ => observe_class db local (ce_ty value) locals
        | _ => locals
        end in
      visit (walk db) kind locals
  end.
Definition collect (db : Db) (body : CExpr) : gmap LocalId (option nat) := walk db body ∅.

(** ** Release *)

(** [target] *)
Definition target (e : CExpr) (fields : nat) : bool :=
  is_reuse_target e && match ce_kind e with K_MakeData _ args _ _ _ => length args =? fields | _ => false end.

(** The next child of [simple], while the result holds. *)
Definition still (f : nat -> bool * nat) (r : bool * nat) : bool * nat :=
  let '(ok, budget) := r in if ok then f budget else (ok, budget).

(** [simple] *)
Fixpoint simple (e : CExpr) (budget : nat) {struct e} : bool * nat :=
  match budget with
  | 0 => (false, 0)
  | S budget =>
      match e with
      | CE kind _ =>
          match kind with
          | K_App _ _ _ _ | K_Foreign _ _ _ | K_Prim _ _ => (false, budget)
          | _ => visit (fun child => still (simple child)) kind (true, budget)
          end
      end
  end.

(** [reaches] *)
Fixpoint reaches (e : CExpr) (fields : nat) (skipped : bool) (budget : nat) {struct e} : bool * nat :=
  match budget with
  | 0 => (false, 0)
  | S budget =>
      match e with
      | CE kind _ =>
          match kind with
          | K_MakeData _ _ _ _ _ => (target e fields, budget)
          | K_Let _ value body =>
              let '(ok, budget) := if skipped then simple value budget else (true, budget) in
              if ok then
                if target value fields then (true, budget)
                else reaches body fields (skipped || is_reuse_target value) budget
              else (false, budget)
          | K_If cond thn els =>
              let '(ok, budget) := if skipped then simple cond budget else (true, budget) in
              if ok then
                let '(found, budget) := reaches thn fields skipped budget in
                if found then (true, budget) else reaches els fields skipped budget
              else (false, budget)
          | K_Dup _ body | K_Drop _ body | K_Reset _ _ body => reaches body fields skipped budget
          | _ => (false, budget)
          end
      end
  end.

(** [thread]: each node is searched anew. *)
Fixpoint thread (e : CExpr) (token : LocalId) (fields : nat) (skipped : bool) {struct e}
    : option CExpr :=
  if negb (reaches e fields skipped SEARCH_BUDGET).1 then Some (free_reuse_ token e)
  else
    match e with
    | CE kind ty =>
        match kind with
        | K_MakeData _ _ _ _ _ => attach_reuse e token
        | K_Let local value body =>
            if target value fields then
              value ← attach_reuse value token; Some (CE (K_Let local value body) ty)
            else
              body ← thread body token fields (skipped || is_reuse_target value);
              Some (CE (K_Let local value body) ty)
        | K_If cond thn els =>
            thn ← thread thn token fields skipped;
            els ← thread els token fields skipped;
            Some (CE (K_If cond thn els) ty)
        | K_Dup local body => body ← thread body token fields skipped; Some (CE (K_Dup local body) ty)
        | K_Drop local body => body ← thread body token fields skipped; Some (CE (K_Drop local body) ty)
        | K_Reset value other body =>
            body ← thread body token fields skipped; Some (CE (K_Reset value other body) ty)
        | _ => None
        end
    end.

(** [release] *)
Definition release (local : LocalId) (body : CExpr) (fields : nat) : SM nat CExpr :=
  if (fields =? 0) || negb (reaches body fields false SEARCH_BUDGET).1
  then mret (drop_ local body)
  else
    token ← Rc.fresh;
    match thread body token fields false with
    | Some body => mret (reset_ local token body)
    | None => panic
    end.
