(* ===== verification/Reuse.v ===== *)
(** * The reuse pass

    [reuse_pass] of fai-rc's [lib.rs]: the drop of a dead data cell becomes a reset whose
    token a later construction takes, or a free on paths that build nothing. *)

From S2P Require Import Prelude Types Ir Rc ReuseCandidates ReuseSizes.
From stdpp Require Import gmap list strings.

(** [has_construction] *)
Fixpoint has_construction (e : CExpr) : bool :=
  match e with
  | CE kind _ =>
      match kind with
      | K_MakeData _ args reuse _ niche =>
          (bool_decide (reuse = None) && negb (bool_decide (args = [])) && negb (niche_wrapper_free niche))
          || existsb has_construction args
      | _ => visit (fun child found => found || has_construction child) kind false
      end
  end.

(** [reaches_construction] *)
Fixpoint reaches_construction (e : CExpr) : bool :=
  match e with
  | CE kind _ =>
      match kind with
      | K_MakeData _ args reuse _ niche =>
          bool_decide (reuse = None) && negb (bool_decide (args = [])) && negb (niche_wrapper_free niche)
      | K_Let _ value body => is_reuse_target value || reaches_construction body
      | K_If _ thn els => reaches_construction thn || reaches_construction els
      | K_Dup _ body | K_Drop _ body | K_Reset _ _ body => reaches_construction body
      | _ => false
      end
  end.

(** [thread_or_free] *)
Fixpoint thread_or_free (e : CExpr) (token : LocalId) : option CExpr :=
  match e with
  | CE kind ty =>
      match kind with
      | K_MakeData tag args None scalars niche =>
          if negb (bool_decide (args = [])) && negb (niche_wrapper_free niche)
          then Some (CE (K_MakeData tag args (Some token) scalars niche) ty)
          else Some (free_reuse_ token e)
      | K_Let local value body =>
          if is_reuse_target value then
            value ← attach_reuse value token; Some (CE (K_Let local value body) ty)
          else body ← thread_or_free body token; Some (CE (K_Let local value body) ty)
      | K_If cond thn els =>
          thn ← thread_or_free thn token;
          els ← thread_or_free els token;
          Some (CE (K_If cond thn els) ty)
      | K_Dup local body => body ← thread_or_free body token; Some (CE (K_Dup local body) ty)
      | K_Drop local body => body ← thread_or_free body token; Some (CE (K_Drop local body) ty)
      | K_Reset value tok body =>
          body ← thread_or_free body token; Some (CE (K_Reset value tok body) ty)
      | _ => Some (free_reuse_ token e)
      end
  end.

(** [release] *)
Fixpoint release (s : LocalId) (e : CExpr) : SM nat CExpr :=
  if negb (has_construction e) then mret (drop_ s e)
  else if reaches_construction e then
    token ← Rc.fresh;
    match thread_or_free e token with
    | Some body => mret (reset_ s token body)
    | None => panic
    end
  else
    match e with
    | CE kind ty =>
        match kind with
        | K_If cond thn els =>
            thn ← release s thn; els ← release s els; mret (CE (K_If cond thn els) ty)
        | K_Let local value body => body ← release s body; mret (CE (K_Let local value body) ty)
        | K_Dup local body => body ← release s body; mret (CE (K_Dup local body) ty)
        | K_Drop local body => body ← release s body; mret (CE (K_Drop local body) ty)
        | K_Reset value token body => body ← release s body; mret (CE (K_Reset value token body) ty)
        | _ => mret (drop_ s e)
        end
    end.

(** [reuse_pass] *)
Fixpoint reuse_pass (data : ReuseCandidates) (e : CExpr) : SM nat CExpr :=
  match e with
  | CE kind ty =>
      match kind with
      | K_Drop local body =>
          if can_reuse data local body then
            body ← reuse_pass data body;
            match fields data local with
            | Some n => ReuseSizes.release local body n
            | None => release local body
            end
          else body ← reuse_pass data body; mret (drop_ local body)
      | K_Dup local body => body ← reuse_pass data body; mret (dup_ local body)
      | K_Let local value body =>
          value ← reuse_pass data value;
          body ← reuse_pass data body;
          mret (CE (K_Let local value body) ty)
      | K_If cond thn els =>
          cond ← reuse_pass data cond;
          thn ← reuse_pass data thn;
          els ← reuse_pass data els;
          mret (CE (K_If cond thn els) ty)
      | K_Reset value token body =>
          body ← reuse_pass data body; mret (CE (K_Reset value token body) ty)
      | K_FreeReuse token body =>
          body ← reuse_pass data body; mret (CE (K_FreeReuse token body) ty)
      | K_Prim op args =>
          args ← smap (reuse_pass data) args; mret (CE (K_Prim op args) ty)
      | K_Foreign symbol args marshalled =>
          args ← smap (reuse_pass data) args; mret (CE (K_Foreign symbol args marshalled) ty)
      | K_MakeData tag args reuse scalars niche =>
          args ← smap (reuse_pass data) args; mret (CE (K_MakeData tag args reuse scalars niche) ty)
      | K_Spread components =>
          components ← smap (reuse_pass data) components; mret (CE (K_Spread components) ty)
      | K_LetMany locals value body =>
          value ← reuse_pass data value;
          body ← reuse_pass data body;
          mret (CE (K_LetMany locals value body) ty)
      | K_App func args reuse alloc =>
          func ← reuse_pass data func;
          args ← smap (reuse_pass data) args;
          mret (CE (K_App func args reuse alloc) ty)
      | K_DataTag base niche =>
          base ← reuse_pass data base; mret (CE (K_DataTag base niche) ty)
      | K_DataField base index scalar niche =>
          base ← reuse_pass data base; mret (CE (K_DataField base index scalar niche) ty)
      | K_Join _ _ | K_Recur _ | K_HoleStart _ _ | K_HoleFill _ _ _ | K_HoleClose _ _ => panic
      | K_Local _ | K_Lit _ | K_Global _ | K_MakeClosure _ _ _ | K_Error => mret (CE kind ty)
      end
  end.

(** The reuse step of [rc_lowered]: cells of [field_owners] keep their memory, and nothing is
    reused when allocation control turns reuse off. *)
Definition reuse_step (db : Niche.Db) (no_reuse : bool) (field_owners : gset LocalId) (body : CExpr)
    : SM nat CExpr :=
  let data := data_typed_locals body ∖ field_owners in
  let data := with_sizes (new_candidates body data) (ReuseSizes.collect db body) in
  if no_reuse then mret body else reuse_pass data body.
