(* ===== verification/RcFv.v ===== *)
(** * Free owned variables: the set the traversal computes

    [collect_fv] mutates two sets; here it is shown to return the compositional
    free-variable set, and each node's equation is stated once for the proofs
    about reference counting. *)

From S2P Require Import Prelude Types Ir Verify Rc.
From stdpp Require Import gmap list strings.
From Stdlib Require Import ZArith Lia.

Section Fv.
Context (C : gset LocalId).

Abbreviation fv := (fv_owned C).

(** A visit that only adds the free slots [F] of what it visits, none of them captured. *)
Definition visits (visit : FvState -> FvState) (F : gset LocalId) : Prop :=
  F ## C ∧ forall B O, visit (B, O) = (B, O ∪ F ∖ B).

Lemma note_visits x : visits (note C x) ({[x]} ∖ C).
Proof.
  split; [set_solver|]. intros B O. unfold note.
  repeat case_bool_decide; simpl; f_equal; set_solver.
Qed.

Lemma visits_unique visit F G : visits visit F -> visits visit G -> F = G.
Proof.
  intros [_ HF] [_ HG]. specialize (HF ∅ ∅). rewrite HG in HF. injection HF. set_solver.
Qed.

Lemma visits_fold {A} (f : A -> FvState -> FvState) (g : A -> gset LocalId) xs :
  Forall (fun x => visits (f x) (g x)) xs ->
  visits (fun st => foldl (fun st x => f x st) st xs) (⋃ (g <$> xs)).
Proof.
  induction 1 as [|x xs [HC Hx] _ [HC' IH]]; (split; [set_solver|]); intros B O; simpl.
  - f_equal. set_solver.
  - rewrite Hx, IH. f_equal. set_solver.
Qed.

Lemma visits_comp v1 v2 F1 F2 : visits v1 F1 -> visits v2 F2 -> visits (v2 ∘ v1) (F1 ∪ F2).
Proof.
  intros [HC1 H1] [HC2 H2]. split; [set_solver|]. intros B O. simpl. rewrite H1, H2.
  f_equal. set_solver.
Qed.

Lemma insert_bound_spec ls B :
  insert_bound ls B = ((insert_bound ls B).1, B ∪ list_to_set ls) /\
  list_to_set (insert_bound ls B).1 = list_to_set ls ∖ B.
Proof.
  revert B. induction ls as [|l ls IH]; intros B; simpl; [split; [f_equal|]; set_solver|].
  destruct (IH ({[l]} ∪ B)) as [H1 H2]. rewrite H1. simpl.
  split; [f_equal; set_solver|].
  case_bool_decide; simpl; rewrite H2;
    apply set_eq; intros x; destruct (decide (x = l)) as [->|]; set_solver.
Qed.

Lemma remove_bound_spec added B : remove_bound added B = B ∖ list_to_set added.
Proof.
  revert B. unfold remove_bound.
  induction added as [|l ls IH]; intros B; simpl; [set_solver|]. rewrite IH. set_solver.
Qed.

Lemma under_binders_visits visit F ls :
  visits visit F -> visits (under_binders visit ls) (F ∖ list_to_set ls).
Proof.
  intros [HC H]. split; [set_solver|]. intros B O. unfold under_binders.
  destruct (insert_bound_spec ls B) as [H1 H2].
  destruct (insert_bound ls B) as [added B']. simpl in *. injection H1 as ->.
  rewrite H, remove_bound_spec, H2. f_equal.
  - apply set_eq. intros x. destruct (decide (x ∈ B)); set_solver.
  - set_solver.
Qed.

Lemma fv_owned_visits e F : visits (collect_fv C e) F -> fv e = F.
Proof. intros [_ HF]. unfold fv_owned. rewrite (HF ∅ ∅). simpl. set_solver. Qed.

Lemma collect_fv_visits e : visits (collect_fv C e) (fv e).
Proof.
  (* It is enough that the visit adds some set: at the empty state that set is [fv e]. *)
  cut (exists F, visits (collect_fv C e) F).
  { intros [F HF]. by rewrite (fv_owned_visits e F). }
  induction e as [[k t] IH] using CExpr_children_ind.
  assert (Hargs : forall args, Forall (fun a => exists F, visits (collect_fv C a) F) args ->
    exists F, visits (fun st => foldl (fun st a => collect_fv C a st) st args) F).
  { intros args Hargs.
    eexists. apply (visits_fold (collect_fv C) fv).
    eapply Forall_impl; [exact Hargs|]. intros a [F HF]. by rewrite (fv_owned_visits a F). }
  assert (Hnil : visits (fun st => st) ∅) by (split; [set_solver|]; intros B O; f_equal; set_solver).
  destruct k; simpl in IH;
    try (apply Forall_cons in IH as [[F1 H1] IH]);
    try (apply Forall_cons in IH as [[F2 H2] IH]);
    try (apply Forall_cons in IH as [[F3 H3] _]);
    try match goal with |- context [K_DataField _ ?i _ _] => destruct i as [|? ev] end; simpl;
    eauto using note_visits;
    try (destruct (Hargs _ IH) as [F HF]; exists (F1 ∪ F); exact (visits_comp _ _ _ _ H1 HF));
    eexists;
    first
      [ exact (visits_comp _ _ _ _ (visits_comp _ _ _ _ H1 H2) H3)
      | exact (visits_comp _ _ _ _ H1 (under_binders_visits _ _ _ H2))
      | exact (under_binders_visits _ _ _ H1)
      | exact (visits_comp _ _ _ _ H1 (note_visits _))
      | exact (visits_comp _ _ _ _ (note_visits _) H1)
      | apply (visits_fold (note C) (fun c => {[c]} ∖ C)), Forall_true, note_visits ].
Qed.

Lemma fv_captures e : fv e ## C.
Proof. apply collect_fv_visits. Qed.

(** The mutable traversal returns the free owned slots added to [out] and leaves
    [bound] as it found it, whatever the two sets were: scopes are undone exactly, even for
    a binder that shadows an enclosing one. *)
Theorem collect_fv_spec e bound out :
  collect_fv C e (bound, out) = (bound, out ∪ fv e ∖ bound).
Proof. apply collect_fv_visits. Qed.

(** The free slots of a list of operands. *)
Definition fvs (es : list CExpr) : gset LocalId := ⋃ (fv <$> es).

Lemma fvs_visits es : visits (fun st => foldl (fun st a => collect_fv C a st) st es) (fvs es).
Proof. apply visits_fold, Forall_true. apply collect_fv_visits. Qed.

(** One equation per node that reference counting meets. *)
Ltac fv_eq := eapply visits_unique; [apply collect_fv_visits|]; simpl.

Lemma fv_local x t : fv (CE (K_Local x) t) = {[x]} ∖ C.
Proof. fv_eq. apply note_visits. Qed.
Lemma fv_prim op args t : fv (CE (K_Prim op args) t) = fvs args.
Proof. fv_eq. apply fvs_visits. Qed.
Lemma fv_foreign s args m t : fv (CE (K_Foreign s args m) t) = fvs args.
Proof. fv_eq. apply fvs_visits. Qed.
Lemma fv_makedata tag args r sc n t : fv (CE (K_MakeData tag args r sc n) t) = fvs args.
Proof. fv_eq. apply fvs_visits. Qed.
Lemma fv_spread cs t : fv (CE (K_Spread cs) t) = fvs cs.
Proof. fv_eq. apply fvs_visits. Qed.
Lemma fv_app f args r al t : fv (CE (K_App f args r al) t) = fvs (f :: args).
Proof.
  fv_eq. apply (visits_comp (collect_fv C f) (fun st => foldl (fun st a => collect_fv C a st) st args)).
  - apply collect_fv_visits.
  - apply fvs_visits.
Qed.
Lemma fv_if c a b t : fv (CE (K_If c a b) t) = fv c ∪ fv a ∪ fv b.
Proof.
  fv_eq. apply (visits_comp (collect_fv C a ∘ collect_fv C c) (collect_fv C b));
    [apply visits_comp|]; apply collect_fv_visits.
Qed.
Lemma fv_let l v b t : fv (CE (K_Let l v b) t) = fv v ∪ fv b ∖ {[l]}.
Proof.
  fv_eq. replace ({[l]} : gset nat) with (list_to_set [l] : gset nat) by set_solver.
  apply (visits_comp (collect_fv C v) (under_binders (collect_fv C b) [l]));
    [|apply under_binders_visits]; apply collect_fv_visits.
Qed.
Lemma fv_letmany ls v b t : fv (CE (K_LetMany ls v b) t) = fv v ∪ fv b ∖ list_to_set ls.
Proof.
  fv_eq. apply (visits_comp (collect_fv C v) (under_binders (collect_fv C b) ls));
    [|apply under_binders_visits]; apply collect_fv_visits.
Qed.
Lemma fv_closure f caps al t : fv (CE (K_MakeClosure f caps al) t) = list_to_set caps ∖ C.
Proof.
  fv_eq.
  assert (H : visits (fun st => foldl (fun st c => note C c st) st caps)
    (⋃ ((fun c => {[c]} ∖ C) <$> caps))).
  { apply visits_fold, Forall_true. apply note_visits. }
  replace (list_to_set caps ∖ C) with (⋃ ((fun c => {[c]} ∖ C) <$> caps) : gset nat); [exact H|].
  clear H. induction caps as [|c caps IH]; [set_solver|]. rewrite fmap_cons, union_list_cons, IH. set_solver.
Qed.
Lemma fv_datatag b n t : fv (CE (K_DataTag b n) t) = fv b.
Proof. fv_eq. apply collect_fv_visits. Qed.
Lemma fv_datafield b i s n t :
  fv (CE (K_DataField b i s n) t) =
  fv b ∪ match i with FI_Dyn _ ev => {[ev]} ∖ C | FI_Const _ => ∅ end.
Proof.
  fv_eq. destruct i as [k|k ev].
  - rewrite union_empty_r_L. apply collect_fv_visits.
  - apply (visits_comp (collect_fv C b) (note C ev)); [apply collect_fv_visits|apply note_visits].
Qed.

End Fv.

Create Rewrite HintDb fv.
#[export] Hint Rewrite fv_local fv_prim fv_foreign fv_makedata fv_spread fv_app fv_if fv_let
  fv_letmany fv_closure fv_datatag fv_datafield : fv.
