(* ===== verification/RcState.v ===== *)
(** * Input forms of reference counting and states of the verifier

    The forms the insertion pass accepts ([anf_form], [conflict_free],
    [scoped]), the algebra of reference states ([zero] releases slots, [bump]
    adds references), and single steps of [Verify.eval] on them. *)

From S2P Require Import Prelude Types Ir Verify Rc RcFv.
From stdpp Require Import gmap list strings.
From Stdlib Require Import ZArith Lia.

(** ** The input forms *)

Definition is_local (e : CExpr) : bool := match ce_kind e with K_Local _ => true | _ => false end.
Definition is_peek (op : Prim) : bool := match op with P_ArrayPeek | P_DataPeek => true | _ => false end.
Definition func_global (value : CExpr) : bool :=
  match ce_kind value with
  | K_App func _ _ _ => match ce_kind func with K_Global _ => true | _ => false end
  | _ => true
  end.

(** A-normal form: operands are atoms, projections read locals, and no reference-counting,
    reuse or tail-call node has been inserted yet. *)
Fixpoint anf_form (e : CExpr) : bool :=
  match e with
  | CE kind _ =>
      match kind with
      | K_Lit _ | K_Local _ | K_Global _ | K_Error | K_MakeClosure _ _ _ => true
      | K_Prim op args => negb (is_peek op) && forallb is_atom args
      | K_Foreign _ args _ | K_Spread args | K_MakeData _ args None _ _ => forallb is_atom args
      | K_App func args [] _ => is_atom func && forallb is_atom args
      | K_DataTag base _ | K_DataField base _ _ _ => is_local base
      | K_If cond thn els => is_atom cond && anf_form thn && anf_form els
      | K_Let _ value body => anf_form value && anf_form body
      | K_LetMany locals value body =>
          bool_decide (NoDup locals) && func_global value && anf_form value && anf_form body
      | _ => false
      end
  end.

(** Concrete trees for the examples. *)
Module Sample.
Definition callee : DefId := MkDefId 1 "callee".
(** [callee] borrows its second parameter. *)
Definition borrows (d : DefId) (n : nat) : list bool :=
  if decide (d = callee) then [false; true] else replicate n false.
Definition local (x : nat) : CExpr := CE (K_Local x) (ty_list ty_int).
Definition call (args : list CExpr) : CExpr :=
  CE (K_App (CE (K_Global callee) ty_int) args [] Alloc_Heap) (ty_list ty_int).
(** [if c then callee (let z = callee xs ys in z) ys else xs] *)
Definition nested : CExpr :=
  CE (K_If (local 0)
       (call [CE (K_Let 3 (call [local 1; local 2]) (local 3)) (ty_list ty_int); local 2])
       (local 1)) (ty_list ty_int).
(** The same with its operands named. *)
Definition flat : CExpr :=
  CE (K_If (local 0)
       (CE (K_Let 3 (call [local 1; local 2]) (call [local 3; local 2])) (ty_list ty_int))
       (local 1)) (ty_list ty_int).
End Sample.

Section Forms.
Context (C : gset LocalId) (cb : DefId -> nat -> list bool).

(** The locals at borrowed positions. *)
Fixpoint borrowed_from (borrows : list bool) (i : nat) (ops : list CExpr) : list LocalId :=
  match ops with
  | [] => []
  | a :: ops =>
      (if nth_flag borrows i then option_list (local_of a) else []) ++
      borrowed_from borrows (S i) ops
  end.

(** No owned local is both lent and consumed by one operation. *)
Definition no_conflict (borrows : list bool) (ops : list CExpr) : bool :=
  forallb (fun x => bool_decide (x ∈ C) || negb (bool_decide (x ∈ consumed_from borrows 0 ops)))
    (borrowed_from borrows 0 ops).

Definition app_borrows (func : CExpr) (args : list CExpr) : list bool :=
  match ce_kind func with
  | K_Global def => cb def (length args)
  | _ => replicate (length args) false
  end.

Fixpoint conflict_free (e : CExpr) : bool :=
  match e with
  | CE kind _ =>
      match kind with
      | K_Prim op args => no_conflict (prim_borrows op args) args
      | K_App func args _ _ => no_conflict (false :: app_borrows func args) (func :: args)
      | K_If _ thn els => conflict_free thn && conflict_free els
      | K_Let _ value body | K_LetMany _ value body => conflict_free value && conflict_free body
      | _ => true
      end
  end.
End Forms.

(** Every use is in scope and no binder shadows a slot in scope. *)
Fixpoint scoped (S : gset LocalId) (e : CExpr) : bool :=
  match e with
  | CE kind _ =>
      match kind with
      | K_Lit _ | K_Global _ | K_Error => true
      | K_Local x => bool_decide (x ∈ S)
      | K_Prim _ args | K_Foreign _ args _ | K_Spread args | K_MakeData _ args None _ _ =>
          forallb (scoped S) args
      | K_App func args [] _ => scoped S func && forallb (scoped S) args
      | K_MakeClosure _ caps _ => forallb (fun c => bool_decide (c ∈ S)) caps
      | K_DataTag base _ => scoped S base
      | K_DataField base index _ _ =>
          scoped S base && match index with FI_Dyn _ ev => bool_decide (ev ∈ S) | _ => true end
      | K_If cond thn els => scoped S cond && scoped S thn && scoped S els
      | K_Let l value body =>
          scoped S value && bool_decide (l ∉ S) && scoped ({[l]} ∪ S) body
      | K_LetMany ls value body =>
          scoped S value && bool_decide (list_to_set ls ## S) && scoped (list_to_set ls ∪ S) body
      | _ => false
      end
  end.

(** The slots a tree binds. *)
Fixpoint binders (e : CExpr) : list LocalId :=
  match e with
  | CE kind _ =>
      match kind with
      | K_Lit _ | K_Local _ | K_Global _ | K_Error | K_MakeClosure _ _ _ => []
      | K_Prim _ args | K_Foreign _ args _ | K_Spread args | K_MakeData _ args _ _ _ | K_Recur args =>
          mjoin (binders <$> args)
      | K_App func args _ _ => binders func ++ mjoin (binders <$> args)
      | K_If c t e => binders c ++ binders t ++ binders e
      | K_Let l v b => binders v ++ l :: binders b
      | K_LetMany ls v b => binders v ++ ls ++ binders b
      | K_DataTag b _ | K_DataField b _ _ _ | K_HoleClose _ b | K_HoleFill _ b _ => binders b
      | K_Reset v t b => binders v ++ t :: binders b
      | K_FreeReuse _ b | K_Dup _ b | K_Drop _ b => binders b
      | K_Join ps b => ps ++ binders b
      | K_HoleStart h b => h :: binders b
      end
  end.

(** ** Reference states *)

Abbreviation St R lb := (MkCk R ∅ lb).

(** The slots of [X] are released. *)
Definition zero (X : gset LocalId) (R : gmap LocalId Z) : gmap LocalId Z :=
  map_imap (fun x n => Some (if decide (x ∈ X) then 0%Z else n)) R.
(** Each slot gains [f x] references. *)
Definition bump (f : LocalId -> Z) (R : gmap LocalId Z) : gmap LocalId Z :=
  map_imap (fun x n => Some (n + f x)%Z) R.

Lemma lookup_zero X R x :
  zero X R !! x = if decide (x ∈ X) then (fun _ => 0%Z) <$> R !! x else R !! x.
Proof. unfold zero. rewrite map_lookup_imap. destruct (R !! x); simpl; by case_decide. Qed.
Lemma lookup_bump f R x : bump f R !! x = (fun n => (n + f x)%Z) <$> R !! x.
Proof. unfold bump. rewrite map_lookup_imap. by destruct (R !! x). Qed.

Lemma dom_zero X R : dom (zero X R) = dom R.
Proof.
  apply set_eq. intros x. rewrite !elem_of_dom, lookup_zero.
  case_decide; [|done]. by rewrite fmap_is_Some.
Qed.

(** Extensional equality of reference states, by cases on the slot. *)
Ltac refs_ext :=
  apply map_eq; let y := fresh "y" in intros y;
  repeat first
    [ rewrite lookup_zero | rewrite lookup_bump | rewrite lookup_insert | rewrite lookup_delete ];
  repeat case_decide; subst; try done; try set_solver.

Lemma zero_zero X Y R : zero X (zero Y R) = zero (X ∪ Y) R.
Proof.
  refs_ext. by destruct (R !! y).
Qed.
Lemma zero_none X R : (forall x, x ∈ X -> R !! x = None) -> zero X R = R.
Proof. intros H. refs_ext. by rewrite H. Qed.
Lemma zero_ext X Y R : (forall x, is_Some (R !! x) -> x ∈ X ↔ x ∈ Y) -> zero X R = zero Y R.
Proof.
  intros H. apply map_eq. intros x. rewrite !lookup_zero.
  destruct (R !! x) as [n|] eqn:E; simpl.
  - assert (x ∈ X ↔ x ∈ Y) by eauto. repeat case_decide; tauto.
  - by repeat case_decide.
Qed.
Lemma zero_delete X R x n : R !! x = None -> delete x (zero X (<[x:=n]> R)) = zero X R.
Proof. intros H. refs_ext; by rewrite H. Qed.

Section Sound.
Context (C : gset LocalId) (cb : DefId -> nat -> list bool).
Abbreviation ev := (eval C cb).
Abbreviation fv := (fv_owned C).

(** ** Single steps of the verifier *)

Lemma owned_slot_true x : x ∉ C -> owned_slot C x = true.
Proof. intros. unfold owned_slot. by rewrite bool_decide_eq_false_2. Qed.
Lemma owned_slot_false x : x ∈ C -> owned_slot C x = false.
Proof. intros. unfold owned_slot. by rewrite bool_decide_eq_true_2. Qed.

Lemma consume_owned x R lb n :
  x ∉ C -> R !! x = Some n -> (1 <= n)%Z ->
  consume C x (St R lb) = Ok (St (<[x:=(n - 1)%Z]> R) lb).
Proof.
  intros Hx HR Hn. unfold consume. simpl. rewrite lookup_empty, owned_slot_true, HR by done. simpl.
  destruct (Z.ltb_spec n 1); [lia|done].
Qed.
Lemma consume_captured x R lb : x ∈ C -> consume C x (St R lb) = Ok (St R lb).
Proof. intros Hx. unfold consume. simpl. by rewrite lookup_empty, owned_slot_false. Qed.

Lemma borrow_live x R lb :
  (x ∉ C -> exists n, R !! x = Some n /\ (1 <= n)%Z) ->
  borrow C x (St R lb) = Ok (St R lb).
Proof.
  intros H. unfold borrow. simpl. rewrite lookup_empty.
  destruct (decide (x ∈ C)) as [Hx|Hx].
  - by rewrite owned_slot_false.
  - rewrite owned_slot_true by done. destruct (H Hx) as (n & -> & Hn). simpl.
    destruct (Z.ltb_spec n 1); [lia|done].
Qed.

Lemma eval_dup_owned x e R lb n :
  x ∉ C -> R !! x = Some n -> (1 <= n)%Z ->
  ev (dup_ x e) (St R lb) = ev e (St (<[x:=(n + 1)%Z]> R) lb).
Proof.
  intros Hx HR Hn. simpl. rewrite lookup_empty, owned_slot_true, HR by done.
  destruct (Z.ltb_spec n 1); [lia|done].
Qed.
Lemma eval_dup_captured x e R lb :
  x ∈ C -> ev (dup_ x e) (St R lb) = ev e (St R lb).
Proof. intros Hx. simpl. by rewrite lookup_empty, owned_slot_false. Qed.

Lemma eval_drop x e R lb n :
  x ∉ C -> R !! x = Some n -> (1 <= n)%Z ->
  ev (drop_ x e) (St R lb) = ev e (St (<[x:=(n - 1)%Z]> R) lb).
Proof.
  intros Hx HR Hn. simpl. rewrite owned_slot_true by done. simpl.
  by rewrite (consume_owned x R lb n).
Qed.

Lemma eval_drops ds e R lb :
  NoDup ds -> (forall x, x ∈ ds -> x ∉ C ∧ R !! x = Some 1%Z) ->
  ev (foldr drop_ e ds) (St R lb) = ev e (St (zero (list_to_set ds) R) lb).
Proof.
  intros Hnd. revert R. induction Hnd as [|x ds Hx Hnd IH]; intros R H; simpl foldr.
  - f_equal. f_equal. symmetry. apply zero_none. set_solver.
  - destruct (H x) as [HC HR]; [set_solver|].
    rewrite (eval_drop x _ R lb 1) by done. rewrite IH.
    + f_equal. f_equal. refs_ext. by rewrite HR.
    + intros y Hy. destruct (H y) as [Hy1 Hy2]; [set_solver|].
      split; [done|]. rewrite lookup_insert_ne; [done|]. intros ->. done.
Qed.

Lemma eval_dropify ds e R lb :
  (forall x, x ∈ ds -> x ∉ C ∧ R !! x = Some 1%Z) ->
  ev (dropify ds e) (St R lb) = ev e (St (zero (list_to_set ds) R) lb).
Proof.
  intros H. unfold dropify. rewrite eval_drops.
  - f_equal. f_equal. apply zero_ext. intros x _. by rewrite !elem_of_list_to_set, elem_of_sort_dedup.
  - apply NoDup_sort_dedup.
  - intros x Hx. apply H. by apply elem_of_sort_dedup.
Qed.

(** References counted with multiplicity; captured slots do not count. *)
Definition occ (xs : list LocalId) (x : LocalId) : Z :=
  if decide (x ∈ C) then 0%Z else Z.of_nat (count_occ Nat.eq_dec xs x).

Lemma occ_cons x xs y :
  occ (x :: xs) y = ((if decide (x = y /\ y ∉ C) then 1 else 0) + occ xs y)%Z.
Proof.
  unfold occ. simpl. destruct (Nat.eq_dec x y) as [->|Hne]; repeat case_decide; try tauto; lia.
Qed.
Lemma occ_nonneg xs x : (0 <= occ xs x)%Z.
Proof. unfold occ. case_decide; lia. Qed.
Lemma occ_notin xs x : x ∉ xs -> occ xs x = 0%Z.
Proof.
  intros H. unfold occ. case_decide; [done|].
  rewrite (proj1 (count_occ_not_In Nat.eq_dec xs x)); [done|]. by rewrite <- list_elem_of_In.
Qed.
Lemma occ_in xs x : x ∈ xs -> x ∉ C -> (1 <= occ xs x)%Z.
Proof.
  intros H HC. unfold occ. rewrite decide_False by done.
  apply list_elem_of_In, (count_occ_In Nat.eq_dec) in H. lia.
Qed.

Lemma eval_dups ds e R lb :
  (forall x, x ∈ ds -> x ∉ C -> exists n, R !! x = Some n /\ (1 <= n)%Z) ->
  ev (foldr dup_ e ds) (St R lb) = ev e (St (bump (occ ds) R) lb).
Proof.
  revert R. induction ds as [|x ds IH]; intros R H; simpl foldr.
  - f_equal. f_equal. apply map_eq. intros y. rewrite lookup_bump.
    destruct (R !! y); simpl; [|done]. rewrite occ_notin by set_solver. f_equal. lia.
  - destruct (decide (x ∈ C)) as [HC|HC].
    + rewrite eval_dup_captured by done. rewrite IH by (intros; apply H; [set_solver|done]).
      f_equal. f_equal. apply map_eq. intros y. rewrite !lookup_bump.
      destruct (R !! y); simpl; [|done]. rewrite occ_cons. rewrite decide_False by naive_solver. done.
    + destruct (H x) as (n & HR & Hn); [set_solver|done|].
      rewrite (eval_dup_owned x _ R lb n) by done. rewrite IH.
      * f_equal. f_equal. apply map_eq. intros y. rewrite !lookup_bump, occ_cons.
        destruct (decide (x = y)) as [->|Hne].
        -- rewrite lookup_insert_eq, HR. simpl. rewrite decide_True by done. f_equal. lia.
        -- rewrite lookup_insert_ne by done. rewrite decide_False by tauto. done.
      * intros y Hy HyC. destruct (decide (x = y)) as [->|Hne].
        -- rewrite lookup_insert_eq. eexists. split; [done|lia].
        -- rewrite lookup_insert_ne by done. apply H; [set_solver|done].
Qed.
End Sound.
