(* ===== verification/ReuseSound.v ===== *)
(** * Reuse keeps the verifier's verdict

    The releases of both passes are instances of one relation, [releases], whose token
    threading is [threads]: the functions refine it, and the relation is proved once against
    the verifier.  A token enters as an extra reference and a release moves one away, so every
    step is a move between frames. *)

From S2P Require Import Prelude Types Ir Verify Frame Rc ReuseCandidates ReuseSizes Reuse.
From stdpp Require Import gmap list strings.
From Stdlib Require Import ZArith Lia.

(** ** The abstract release *)

(** [threads t e e']: every path of [e'] takes the token [t] once, in a construction or a free. *)
Inductive threads (t : LocalId) : CExpr -> CExpr -> Prop :=
| Thread_take tag args scalars niche ty :
    threads t (CE (K_MakeData tag args None scalars niche) ty)
      (CE (K_MakeData tag args (Some t) scalars niche) ty)
| Thread_free e : threads t e (free_reuse_ t e)
| Thread_value local value value' body ty :
    is_reuse_target value = true -> attach_reuse value t = Some value' ->
    threads t (CE (K_Let local value body) ty) (CE (K_Let local value' body) ty)
| Thread_body local value body body' ty :
    threads t body body' -> threads t (CE (K_Let local value body) ty) (CE (K_Let local value body') ty)
| Thread_if cond thn thn' els els' ty :
    threads t thn thn' -> threads t els els' ->
    threads t (CE (K_If cond thn els) ty) (CE (K_If cond thn' els') ty)
| Thread_dup local body body' ty :
    threads t body body' -> threads t (CE (K_Dup local body) ty) (CE (K_Dup local body') ty)
| Thread_drop local body body' ty :
    threads t body body' -> threads t (CE (K_Drop local body) ty) (CE (K_Drop local body') ty)
| Thread_reset value token body body' ty :
    threads t body body' ->
    threads t (CE (K_Reset value token body) ty) (CE (K_Reset value token body') ty).

(** [releases s n e n' e']: [e'] is [e] with the cell [s] released once on every path, with
    tokens taken from [n] up to [n']. *)
Inductive releases (s : LocalId) : nat -> CExpr -> nat -> CExpr -> Prop :=
| Release_drop n e : releases s n e n (drop_ s e)
| Release_reset n e e' : threads n e e' -> releases s n e (S n) (reset_ s n e')
| Release_if n n1 n2 cond thn thn' els els' ty :
    releases s n thn n1 thn' -> releases s n1 els n2 els' ->
    releases s n (CE (K_If cond thn els) ty) n2 (CE (K_If cond thn' els') ty)
| Release_let n n' local value body body' ty :
    releases s n body n' body' ->
    releases s n (CE (K_Let local value body) ty) n' (CE (K_Let local value body') ty)
| Release_dup n n' local body body' ty :
    releases s n body n' body' ->
    releases s n (CE (K_Dup local body) ty) n' (CE (K_Dup local body') ty)
| Release_inner n n' local body body' ty :
    releases s n body n' body' ->
    releases s n (CE (K_Drop local body) ty) n' (CE (K_Drop local body') ty)
| Release_token n n' value token body body' ty :
    releases s n body n' body' ->
    releases s n (CE (K_Reset value token body) ty) n' (CE (K_Reset value token body') ty).

(** ** The functions refine it *)

Lemma attach_target v t : is_reuse_target v = true -> is_Some (attach_reuse v t).
Proof. destruct v as [[] ty]; try done. destruct reuse; [done|]. eauto. Qed.

Lemma thread_or_free_refines e t : exists e', thread_or_free e t = Some e' ∧ threads t e e'.
Proof.
  induction e as [[k ty] IH] using CExpr_children_ind.
  destruct k; try (eexists; split; [reflexivity|apply Thread_free]); simpl in IH |- *;
    try (apply Forall_cons in IH as [IH1 IH]); try (apply Forall_cons in IH as [IH2 IH]);
    try (apply Forall_cons in IH as [IH3 _]).
  - destruct IH2 as (a & -> & ?), IH3 as (b & -> & ?). eexists. split; [done|]. by constructor.
  - destruct (is_reuse_target value) eqn:E.
    + destruct (attach_target value t E) as [v' Ev]. rewrite Ev. eexists. split; [done|]. by apply Thread_value.
    + destruct IH2 as (a & -> & ?). eexists. split; [done|]. by apply Thread_body.
  - destruct reuse as [r|]; [eexists; split; [reflexivity|apply Thread_free]|].
    destruct (_ && _); eexists; (split; [reflexivity|constructor]).
  - destruct IH2 as (a & -> & ?). eexists. split; [done|]. by constructor.
  - destruct IH1 as (a & -> & ?). eexists. split; [done|]. by constructor.
  - destruct IH1 as (a & -> & ?). eexists. split; [done|]. by constructor.
Qed.

Lemma thread_refines fields t e : forall skipped, exists e', thread e t fields skipped = Some e' ∧ threads t e e'.
Proof.
  induction e as [[k ty] IH] using CExpr_children_ind. intros skipped.
  assert (Hsize : forall b, (reaches (CE k ty) fields skipped b).1 = true -> exists n, b = S n).
  { intros [|n]; [by destruct k|eauto]. }
  destruct (reaches (CE k ty) fields skipped SEARCH_BUDGET).1 eqn:Hr.
  2: { destruct k; eexists; (split; [cbn [thread]; rewrite Hr; reflexivity|apply Thread_free]). }
  destruct k; try done; cbn [thread]; rewrite Hr; simpl in IH |- *;
    try (apply Forall_cons in IH as [IH1 IH]); try (apply Forall_cons in IH as [IH2 IH]);
    try (apply Forall_cons in IH as [IH3 _]).
  - destruct (IH2 skipped) as (a & -> & ?), (IH3 skipped) as (b & -> & ?).
    eexists. split; [done|]. by constructor.
  - destruct (target value fields) eqn:E.
    + apply andb_true_iff in E as [E _]. destruct (attach_target value t E) as [v' Ev].
      rewrite Ev. eexists. split; [done|]. by apply Thread_value.
    + destruct (IH2 (skipped || is_reuse_target value)) as (a & -> & ?).
      eexists. split; [done|]. by apply Thread_body.
  - destruct reuse as [r|]; [done|]. eexists. split; [done|constructor].
  - destruct (IH2 skipped) as (a & -> & ?). eexists. split; [done|]. by constructor.
  - destruct (IH1 skipped) as (a & -> & ?). eexists. split; [done|]. by constructor.
  - destruct (IH1 skipped) as (a & -> & ?). eexists. split; [done|]. by constructor.
Qed.

Lemma sizes_release_refines s e fields n :
  exists e' n', ReuseSizes.release s e fields n = Some (e', n') ∧ releases s n e n' e'.
Proof.
  unfold ReuseSizes.release. destruct (_ || _); [eexists _, _; split; [done|constructor]|].
  unfold mbind, sm_bind. simpl. destruct (thread_refines fields n e false) as (a & -> & ?).
  eexists _, _. split; [done|]. by constructor.
Qed.

Lemma release_refines s e : forall n, exists e' n', Reuse.release s e n = Some (e', n') ∧ releases s n e n' e'.
Proof.
  assert (Hreset : forall e n, exists e' n',
    (token ← Rc.fresh; match thread_or_free e token with
       Some body => mret (reset_ s token body) | None => panic end) n = Some (e', n') ∧ releases s n e n' e').
  { intros e' n. unfold mbind, sm_bind. simpl. destruct (thread_or_free_refines e' n) as (a & -> & ?).
    eexists _, _. split; [done|]. by constructor. }
  induction e as [[k ty] IH] using CExpr_children_ind. intros n.
  destruct (has_construction (CE k ty)) eqn:Hh.
  2: { destruct k; eexists _, _; (split; [cbn [Reuse.release]; rewrite Hh; reflexivity|constructor]). }
  destruct (reaches_construction (CE k ty)) eqn:Hr.
  { destruct (Hreset (CE k ty) n) as (e' & n' & E & R). exists e', n'. split; [|done].
    destruct k; cbn [Reuse.release]; rewrite Hh, Hr; exact E. }
  destruct k; cbn [Reuse.release]; rewrite Hh, Hr; simpl in IH |- *;
    try (apply Forall_cons in IH as [IH1 IH]); try (apply Forall_cons in IH as [IH2 IH]);
    try (apply Forall_cons in IH as [IH3 _]);
    try (eexists _, _; split; [reflexivity|apply Release_drop]); unfold mbind, sm_bind.
  - destruct (IH2 n) as (a & n1 & -> & ?), (IH3 n1) as (b & n2 & -> & ?).
    eexists _, _. split; [done|]. by econstructor.
  - destruct (IH2 n) as (a & n1 & -> & ?). eexists _, _. split; [done|]. by constructor.
  - destruct (IH2 n) as (a & n1 & -> & ?). eexists _, _. split; [done|]. by constructor.
  - destruct (IH1 n) as (a & n1 & -> & ?). eexists _, _. split; [done|]. by constructor.
  - destruct (IH1 n) as (a & n1 & -> & ?). eexists _, _. split; [done|]. by constructor.
Qed.

(** Both releases implement the abstract one.  The size-directed release and the general
    one never panic, for any tree and budget, and what each returns releases the cell once on
    every path, with its tokens fresh from the counter. *)
Theorem release_implements s e fields n :
  (exists e' n', ReuseSizes.release s e fields n = Some (e', n') ∧ releases s n e n' e') ∧
  (exists e' n', Reuse.release s e n = Some (e', n') ∧ releases s n e n' e').
Proof. split; [apply sizes_release_refines|apply release_refines]. Qed.

(** ** Moving between frames *)

Section Steps.
Context (C : gset LocalId) (cb : DefId -> nat -> list bool).
#[local] Abbreviation ev := (eval C cb).

Definition steady (m : CkState -> result RcError CkState) : Prop :=
  forall s s', m s = Ok s' -> stays s s' ∧ (nonneg (refs s) -> nonneg (refs s')).

Lemma eval_steady e : steady (ev e).
Proof.
  intros s s' H. split; [by destruct (eval_tidy C cb e s s' H)|]. intros Hs.
  by destruct (eval_carries C cb e s s' H Hs).
Qed.

Lemma carried_steady m : tidy [] m -> carries [] m -> steady m.
Proof.
  intros Ht Hc s s' H. split; [by destruct (Ht s s' H)|]. intros Hs. by destruct (Hc s s' H Hs).
Qed.

(** On states with [P], [m'] started with the extra references [X] does what [m] does and ends
    with [Y]. *)
Definition steps (P : CkState -> Prop) (X Y : gmap LocalId Z) (m m' : CkState -> result RcError CkState) : Prop :=
  forall s s', m s = Ok s' -> nonneg (refs s) -> P s -> m' (add X s) = Ok (add Y s').

(** What a step that stays does not change. *)
Definition lasting (P : CkState -> Prop) : Prop := forall s s', stays s s' -> P s -> P s'.

Lemma steps_bind P X Y Z m m' k k' :
  lasting P -> steady m -> steps P X Y m m' -> steps P Y Z k k' -> steps P X Z (fun s => m s ≫= k) (fun s => m' s ≫= k').
Proof.
  intros HP Hst Hm Hk s s' (s1 & E1 & E2)%bind_ok Hs Hb. rewrite (Hm _ _ E1 Hs Hb). simpl.
  destruct (Hst _ _ E1) as [St N]. apply Hk; [done|by apply N|]. by apply (HP s).
Qed.

Lemma steps_carried P X bs m : carries bs m -> nonneg X -> (forall x, x ∈ bs -> X !! x = None) -> steps P X X m m.
Proof. intros Hc HX Hx s s' H Hs _. by apply (Hc s s' H Hs). Qed.

Lemma steps_frame P X e : nonneg X -> (forall x, x ∈ bound_slots e -> X !! x = None) -> steps P X X (ev e) (ev e).
Proof. apply steps_carried, eval_carries. Qed.

(** Entering and leaving scopes. *)
Lemma steps_many P P' X Y err err' ls m m' :
  nonneg X -> nonneg Y -> (forall l, l ∈ ls -> X !! l = None ∧ Y !! l = None) ->
  (forall s s', each (fun _ l s => bind_slot (err l) l s) 0 ls s = Ok s' -> P s -> P' s') ->
  steady m -> steps P' X Y m m' ->
  let scope m := fun s => each (fun _ l s => bind_slot (err l) l s) 0 ls s ≫= fun s =>
    m s ≫= each (fun _ l s => unbind_slot (err' l) l s) 0 ls in
  steps P X Y (scope m) (scope m').
Proof.
  intros HX HY Hls HP Hst Hm scope s s' H Hs Hb. apply bind_ok in H as (s1 & E1 & (s2 & E2 & E3)%bind_ok).
  destruct (carries_binds err ls s s1 E1 Hs) as [N1 F1]. unfold scope.
  rewrite F1; [|done|by intros l Hl; apply Hls]. simpl. destruct (Hst _ _ E2) as [_ N2].
  rewrite (Hm s1 s2 E2 N1) by (by eapply HP).
  destruct (carries_unbinds err' ls s2 s' E3 (N2 N1)) as [_ F3]. apply F3; [done|]. intros l Hl. by apply Hls.
Qed.

Lemma steps_scope P P' X Y err err' l m m' :
  nonneg X -> nonneg Y -> X !! l = None -> Y !! l = None ->
  (forall s, P s -> refs s !! l = None -> P' (with_refs (<[l := 1%Z]> (refs s)) s)) -> steady m -> steps P' X Y m m' ->
  let scope m := fun s => bind_slot err l s ≫= fun s => m s ≫= unbind_slot err' l in
  steps P X Y (scope m) (scope m').
Proof.
  intros HX HY HXl HYl HP Hst Hm scope s s' H Hs Hb.
  apply bind_ok in H as (s1 & E1 & (s2 & E2 & E3)%bind_ok).
  destruct (carries_bind_slot err l s s1 E1 Hs) as [N1 F1]. unfold scope.
  rewrite F1; [|done|by intros x ->%list_elem_of_singleton]. simpl. destruct (Hst _ _ E2) as [_ N2].
  assert (Hb1 : P' s1).
  { unfold bind_slot in E1. case_match; [done|]. injection E1 as <-. by apply HP. }
  rewrite (Hm s1 s2 E2 N1 Hb1). simpl. destruct (carries_unbind_slot err' l s2 s' E3 (N2 N1)) as [_ F3].
  apply F3; [done|]. by intros x ->%list_elem_of_singleton.
Qed.

Lemma steps_borrowed P P' X Y err err' l parent m m' :
  nonneg X -> nonneg Y -> X !! l = None -> Y !! l = None ->
  (forall s, P s -> refs s !! l = None -> projections s !! l = None ->
    P' (with_refs (<[l := 0%Z]> (refs s)) (with_projections (<[l := parent]> (projections s)) s))) ->
  steady m -> steps P' X Y m m' ->
  let scope m := fun s : CkState =>
    match projections s !! l, refs s !! l with
    | None, None =>
        m (with_refs (<[l := 0%Z]> (refs s)) (with_projections (<[l := parent]> (projections s)) s)) ≫=
        fun s => unbind_slot err' l (with_projections (delete l (projections s)) s)
    | _, _ => Err err
    end in
  steps P X Y (scope m) (scope m').
Proof.
  intros HX HY HXl HYl HP Hst Hm scope s s' H Hs Hb. unfold scope in *.
  change (projections (add X s)) with (projections s).
  destruct (projections s !! l) as [p|] eqn:Ep; [done|]. destruct (refs s !! l) as [n|] eqn:E; [done|].
  simpl. rewrite lookup_plus, E, HXl, plus_insert_none by done. apply bind_ok in H as (s2 & E2 & E3).
  assert (N1 : nonneg (<[l := 0%Z]> (refs s))) by by apply nonneg_insert.
  destruct (Hst _ _ E2) as [_ N2]. specialize (Hm _ _ E2 N1 (HP s Hb E Ep)).
  unfold add in Hm at 1. simpl in Hm. unfold with_refs, with_projections in *. simpl in *. rewrite Hm.
  destruct (carries_unbind_slot err' l _ s' E3 (N2 N1)) as [_ F3]. apply F3; [done|].
  by intros x ->%list_elem_of_singleton.
Qed.

(** ** Steps through the binding forms *)

Section Forms.
Context (P P' : CkState -> Prop) (X Y : gmap LocalId Z).
Context (HP : lasting P) (HX : nonneg X) (HY : nonneg Y).

Lemma steps_let l v v' b b' ty :
  steps P X X (ev v) (ev v') -> peek_parent v' = peek_parent v -> X !! l = None -> Y !! l = None ->
  (peek_parent v = None -> forall s, P s -> refs s !! l = None -> P' (with_refs (<[l := 1%Z]> (refs s)) s)) ->
  (forall parent, peek_parent v = Some parent -> forall s, P s -> refs s !! l = None -> projections s !! l = None ->
    P' (with_refs (<[l := 0%Z]> (refs s)) (with_projections (<[l := parent]> (projections s)) s))) ->
  steps P' X Y (ev b) (ev b') -> steps P X Y (ev (CE (K_Let l v b) ty)) (ev (CE (K_Let l v' b') ty)).
Proof.
  intros Hv Hp HXl HYl H1 H2 Hb. cbn [eval]. rewrite Hp.
  apply (steps_bind P X X Y (ev v) (ev v')); [done|apply eval_steady|done|].
  destruct (peek_parent v) as [parent|].
  - apply (steps_borrowed P P' X Y (Err_ReboundBorrowed l) (Err_BorrowedLeft l) l parent); auto using eval_steady.
  - apply (steps_scope P P' X Y (Err_Rebound l) (Err_LetLeft l)); auto using eval_steady.
Qed.

Lemma steps_letmany ls v v' b b' ty :
  steps P X X (ev v) (ev v') -> (forall l, l ∈ ls -> X !! l = None ∧ Y !! l = None) ->
  (forall s s', each (fun _ l s => bind_slot (Err_Rebound l) l s) 0 ls s = Ok s' -> P s -> P' s') ->
  steps P' X Y (ev b) (ev b') -> steps P X Y (ev (CE (K_LetMany ls v b) ty)) (ev (CE (K_LetMany ls v' b') ty)).
Proof.
  intros Hv Hls H1 Hb. cbn [eval]. apply (steps_bind P X X Y (ev v) (ev v')); [done|apply eval_steady|done|].
  apply (steps_many P P' X Y Err_Rebound Err_LetManyLeft); auto using eval_steady.
Qed.

Lemma steps_reset v t b b' ty :
  (forall x, x ∈ bound_slots v -> X !! x = None) -> X !! t = None -> Y !! t = None ->
  (forall s, P s -> refs s !! t = None -> P' (with_refs (<[t := 1%Z]> (refs s)) s)) ->
  steps P' X Y (ev b) (ev b') -> steps P X Y (ev (CE (K_Reset v t b) ty)) (ev (CE (K_Reset v t b') ty)).
Proof.
  intros Hv HXl HYl H1 Hb. cbn [eval].
  apply (steps_bind P X X Y (ev v) (ev v)); [done|apply eval_steady|by apply steps_frame|].
  apply (steps_scope P P' X Y (Err_ReboundToken t) (Err_TokenLeft t)); auto using eval_steady.
Qed.

Lemma steps_free u b b' ty :
  steps P X Y (ev b) (ev b') -> steps P X Y (ev (CE (K_FreeReuse u b) ty)) (ev (CE (K_FreeReuse u b') ty)).
Proof.
  intros Hb. apply (steps_bind P X X Y (consume C u) (consume C u)); [done| | |done].
  - apply carried_steady; [apply tidy_consume|apply carries_consume].
  - apply (steps_carried P X []); [apply carries_consume|done|]. by intros x Hx%elem_of_nil.
Qed.

Lemma steps_dup l b b' ty :
  steps P X Y (ev b) (ev b') -> steps P X Y (ev (CE (K_Dup l b) ty)) (ev (CE (K_Dup l b') ty)).
Proof.
  intros Hb. apply (steps_bind P X X Y (dup_step C l) (dup_step C l)); [done| | |done].
  - apply carried_steady; [apply tidy_dup|apply carries_dup].
  - apply (steps_carried P X []); [apply carries_dup|done|]. by intros x Hx%elem_of_nil.
Qed.

Lemma steps_drop l b b' ty :
  steps P X Y (ev b) (ev b') -> steps P X Y (ev (CE (K_Drop l b) ty)) (ev (CE (K_Drop l b') ty)).
Proof.
  intros Hb. cbn [eval]. destruct (owned_slot C l); [|by intros s s' H].
  apply (steps_bind P X X Y (consume C l) (consume C l)); [done| | |done].
  - apply carried_steady; [apply tidy_consume|apply carries_consume].
  - apply (steps_carried P X []); [apply carries_consume|done|]. by intros x Hx%elem_of_nil.
Qed.

Lemma steps_if c t t' e e' ty :
  (forall x, x ∈ bound_slots c -> X !! x = None) ->
  steps P X Y (ev t) (ev t') -> steps P X Y (ev e) (ev e') ->
  steps P X Y (ev (CE (K_If c t e) ty)) (ev (CE (K_If c t' e') ty)).
Proof.
  intros Hc Ht He. cbn [eval]. apply (steps_bind P X X Y (ev c) (ev c)); [done|apply eval_steady|by apply steps_frame|].
  intros s s' (s1 & E1 & (s2 & E2 & E3)%bind_ok)%bind_ok Hs Hb.
  cbv beta. rewrite (Ht _ _ E1 Hs Hb). simpl. destruct (eval_steady t _ _ E1) as [St _].
  case_match; [|done]. injection E3 as <-.
  assert (Hb' : P (with_refs (refs s) s1)).
  { apply (HP s); [|done]. destruct St as (_ & Hp & Hl). by split_and!. }
  specialize (He _ _ E2 Hs Hb'). unfold add, with_refs in *. simpl in *. rewrite He. simpl.
  rewrite decide_True by congruence. done.
Qed.
End Forms.
End Steps.

(** The names in play: [B] is bound, and every bound or borrowed slot is in [K]. *)
Definition between (B K : gset LocalId) (s : CkState) : Prop :=
  B ⊆ dom (refs s) ∧ dom (refs s) ⊆ K ∧ dom (projections s) ⊆ K.

Section Moves.
Context (C : gset LocalId) (cb : DefId -> nat -> list bool).
Context (B K : gset LocalId).
#[local] Abbreviation ev := (eval C cb).
#[local] Abbreviation moves := (steps (between B K)).

Lemma between_stays : lasting (between B K).
Proof. intros s s' (D & P & _) (H1 & H2 & H3). unfold between. by rewrite D, P. Qed.

Lemma between_insert s l v : l ∈ K -> between B K s -> between B K (with_refs (<[l := v]> (refs s)) s).
Proof. intros Hl (H1 & H2 & H3). split_and!; simpl; rewrite ?dom_insert_L; set_solver. Qed.

Lemma between_borrow s l q : l ∈ K -> between B K s ->
  between B K (with_refs (<[l := 0%Z]> (refs s)) (with_projections (<[l := q]> (projections s)) s)).
Proof. intros Hl (H1 & H2 & H3). split_and!; simpl; rewrite ?dom_insert_L; set_solver. Qed.

Lemma between_binds err ls s s' : (forall l, l ∈ ls -> l ∈ K) ->
  each (fun _ l s => bind_slot (err l) l s) 0 ls s = Ok s' -> between B K s -> between B K s'.
Proof.
  intros Hls E (H1 & H2 & H3). destruct (binds_dom _ _ _ _ _ E) as (D & _ & P & _). split_and!; rewrite ?D, ?P; set_solver.
Qed.

Context (X Y : gmap LocalId Z) (HX : nonneg X) (HY : nonneg Y).

Lemma moves_let l v v' b b' ty :
  moves X X (ev v) (ev v') -> peek_parent v' = peek_parent v -> l ∈ K -> X !! l = None -> Y !! l = None ->
  moves X Y (ev b) (ev b') -> moves X Y (ev (CE (K_Let l v b) ty)) (ev (CE (K_Let l v' b') ty)).
Proof.
  intros Hv Hp Hl HXl HYl Hb. apply (steps_let C cb _ (between B K)); auto using between_stays, between_insert, between_borrow.
Qed.

Lemma moves_letmany ls v v' b b' ty :
  moves X X (ev v) (ev v') -> (forall l, l ∈ ls -> l ∈ K ∧ X !! l = None ∧ Y !! l = None) ->
  moves X Y (ev b) (ev b') -> moves X Y (ev (CE (K_LetMany ls v b) ty)) (ev (CE (K_LetMany ls v' b') ty)).
Proof.
  intros Hv Hls Hb. apply (steps_letmany C cb _ (between B K)); auto using between_stays.
  - intros l Hl. by apply Hls.
  - intros s s' E. apply (between_binds Err_Rebound ls); [|done]. intros l Hl. by apply Hls.
Qed.

Lemma moves_reset v t b b' ty :
  (forall x, x ∈ bound_slots v -> X !! x = None) -> t ∈ K -> X !! t = None -> Y !! t = None ->
  moves X Y (ev b) (ev b') -> moves X Y (ev (CE (K_Reset v t b) ty)) (ev (CE (K_Reset v t b') ty)).
Proof.
  intros Hv Hl HXl HYl Hb. apply (steps_reset C cb _ (between B K)); auto using between_stays, between_insert.
Qed.
End Moves.

(** ** Tokens and releases against the verifier *)

Definition one (x : LocalId) (n : Z) : gmap LocalId Z := {[ x := n ]}.

Lemma one_ne x n y : y ≠ x -> one x n !! y = None.
Proof. intros H. unfold one. by rewrite lookup_singleton_ne. Qed.
Lemma one_nonneg x n : (0 <= n)%Z -> nonneg (one x n).
Proof. intros Hn y m H. unfold one in H. apply lookup_singleton_Some in H as [_ <-]. done. Qed.

Lemma add_empty s : add ∅ s = s.
Proof.
  destruct s. unfold add, with_refs. simpl. f_equal. apply map_eq. intros x.
  rewrite lookup_plus, lookup_empty. by destruct (_ !! _).
Qed.

Section Against.
Context (C : gset LocalId) (cb : DefId -> nat -> list bool).
#[local] Abbreviation ev := (eval C cb).

(** A token is consumed from one to zero. *)
Lemma take_token B K t : t ∉ K -> t ∉ C -> steps (between B K) (one t 1) (one t 0) Ok (consume C t).
Proof.
  intros HK HC s s' [= <-] _ (_ & Hd & Hp). unfold consume.
  assert (Ht : refs s !! t = None) by (apply not_elem_of_dom; set_solver).
  assert (Hq : projections s !! t = None) by (apply not_elem_of_dom; set_solver).
  change (projections (add _ s)) with (projections s). rewrite Hq.
  unfold owned_slot. rewrite bool_decide_eq_false_2 by done. simpl.
  assert (E : refs (add (one t 1) s) !! t = Some 1%Z).
  { simpl. rewrite lookup_plus, Ht. unfold one. by rewrite lookup_singleton_eq. }
  simpl in E. rewrite E. simpl. f_equal. unfold add, with_refs. simpl. f_equal.
  apply map_eq. intros y. destruct (decide (t = y)) as [<-|Hy].
  - rewrite lookup_insert_eq, lookup_plus, Ht. unfold one. by rewrite lookup_singleton_eq.
  - rewrite lookup_insert_ne, !lookup_plus by done. by rewrite !one_ne by done.
Qed.

(** An owned slot's extra reference is consumed. *)
Lemma give_back B K x : x ∈ B -> x ∉ C -> steps (between B K) (one x 1) ∅ Ok (consume C x).
Proof.
  intros HB HC s s' [= <-] Hs (Hd & _). rewrite add_empty. unfold consume.
  destruct (refs s !! x) as [n|] eqn:E; [|apply not_elem_of_dom in E; set_solver].
  pose proof (Hs x n E).
  assert (E' : refs (add (one x 1) s) !! x = Some (n + 1)%Z).
  { simpl. rewrite lookup_plus, E. unfold one. by rewrite lookup_singleton_eq. }
  assert (Er : with_refs (<[x := (n + 1 - 1)%Z]> (refs (add (one x 1) s))) (add (one x 1) s) = s).
  { destruct s as [r pr lb]. unfold add, with_refs in *. simpl in *. f_equal. apply map_eq. intros y.
    destruct (decide (x = y)) as [<-|Hy].
    - rewrite lookup_insert_eq, E. f_equal. lia.
    - rewrite lookup_insert_ne, lookup_plus, one_ne by done. by destruct (r !! y). }
  rewrite E'. unfold owned_slot. rewrite bool_decide_eq_false_2 by done. simpl negb. cbv iota.
  destruct (projections (add _ s) !! x).
  - destruct (Z.eqb_spec (n + 1) 0); [lia|]. by rewrite Er.
  - destruct (Z.ltb_spec (n + 1) 1); [lia|]. by rewrite Er.
Qed.

Lemma bind_id (m : CkState -> result RcError CkState) s : (m s ≫= Ok) = m s.
Proof. by destruct (m s). Qed.

Lemma threads_sound B K t e e' :
  threads t e e' -> t ∉ K -> t ∉ C -> (forall x, x ∈ bound_slots e -> x ∈ K) ->
  steps (between B K) (one t 1) (one t 0) (ev e) (ev e').
Proof.
  intros Hth HK HC.
  assert (Hframe : forall n e, (0 <= n)%Z -> (forall x, x ∈ bound_slots e -> x ∈ K) ->
    steps (between B K) (one t n) (one t n) (ev e) (ev e)).
  { intros n e0 Hn H. apply steps_frame; [by apply one_nonneg|]. intros x Hx%H. apply one_ne. congruence. }
  assert (Hone : forall x n, x ∈ K -> one t n !! x = None) by (intros; apply one_ne; congruence).
  assert (Htake : forall args tag scalars niche ty, (forall x, x ∈ mjoin (bound_slots <$> args) -> x ∈ K) ->
    steps (between B K) (one t 1) (one t 0) (ev (CE (K_MakeData tag args None scalars niche) ty))
      (ev (CE (K_MakeData tag args (Some t) scalars niche) ty))).
  { intros args tag scalars niche ty H.
    apply (steps_bind _ (one t 1) (one t 1) (one t 0) (ev (CE (K_Spread args) Ty_Error)) (ev (CE (K_Spread args) Ty_Error)));
      [apply between_stays|apply eval_steady|by apply Hframe|by apply take_token]. }
  induction Hth as [|e|l v v' b ty Hv Ha|l v b b' ty _ IH|c t1 t1' e1 e1' ty _ IH1 _ IH2|l b b' ty _ IH|l b b' ty _ IH|v u b b' ty _ IH];
    intros Hin; cbn [bound_slots] in Hin.
  - by apply Htake.
  - intros s s' H Hs Hb. unfold free_reuse_. cbn [eval].
    rewrite (take_token B K t HK HC s s eq_refl Hs Hb). simpl. by apply (Hframe 0%Z e).
  - destruct v as [[] tv]; try done. simpl in Ha. destruct reuse; [done|]. injection Ha as <-.
    cbn [eval]. apply (steps_bind _ (one t 1) (one t 0) (one t 0)
      (ev (CE (K_MakeData tag args None scalars niche) tv)) (ev (CE (K_MakeData tag args (Some t) scalars niche) tv)));
      [apply between_stays|apply eval_steady|apply Htake; set_solver|].
    cbn [peek_parent ce_kind].
    apply (steps_scope _ (between B K) _ _ (Err_Rebound l) (Err_LetLeft l)); auto using one_nonneg, eval_steady;
      [by apply one_nonneg|by apply one_nonneg|apply Hone; set_solver|apply Hone; set_solver| |].
    + intros s Hs _. apply between_insert; [set_solver|done].
    + apply Hframe; [done|]. set_solver.
  - apply moves_let; [by apply one_nonneg|by apply one_nonneg|apply Hframe; [done|set_solver]|done|set_solver
      |apply Hone; set_solver|apply Hone; set_solver|apply IH; set_solver].
  - apply steps_if; [apply between_stays|by apply one_nonneg| |apply IH1; set_solver|apply IH2; set_solver].
    intros x Hx. apply Hone. set_solver.
  - apply steps_dup; [apply between_stays|by apply one_nonneg|by apply IH].
  - apply steps_drop; [apply between_stays|by apply one_nonneg|by apply IH].
  - apply moves_reset; [by apply one_nonneg|by apply one_nonneg| |set_solver
      |apply Hone; set_solver|apply Hone; set_solver|apply IH; set_solver].
    intros x Hx. apply Hone. set_solver.
Qed.
Lemma releases_mono x n e n' e' : releases x n e n' e' -> n <= n'.
Proof. induction 1; lia. Qed.

Lemma releases_sound B K x n e n' e' :
  releases x n e n' e' -> (forall y, y ∈ K -> y < n) -> (forall y, y ∈ C -> y < n) ->
  x ∈ B -> x ∉ C -> (forall y, y ∈ bound_slots e -> y ∈ K ∧ y ≠ x) ->
  steps (between B K) (one x 1) ∅ (ev e) (ev e').
Proof.
  intros Hr. pose proof (one_nonneg x 1 ltac:(lia)) as H1.
  assert (H0 : nonneg ∅) by (intros y m Hy; by rewrite lookup_empty in Hy).
  induction Hr as [n e|n e e' Ht|n n1 n2 c t1 t1' e1 e1' ty R1 IH1 R2 IH2|n n' l v b b' ty _ IH|n n' l b b' ty _ IH
    |n n' l b b' ty _ IH|n n' v u b b' ty _ IH]; intros HK HC HB HxC Hin; cbn [bound_slots] in Hin.
  - intros s s' H Hs Hb. unfold drop_. cbn [eval]. unfold owned_slot at 1.
    rewrite bool_decide_eq_false_2 by done. simpl.
    rewrite (give_back B K x HB HxC s s eq_refl Hs Hb). simpl. by rewrite !add_empty.
  - intros s s' H Hs Hb. unfold reset_. cbn [eval].
    rewrite (give_back B K x HB HxC s s eq_refl Hs Hb). simpl. rewrite !add_empty.
    assert (Hn : n ∉ K) by (intros Hn; apply HK in Hn; lia).
    assert (HnC : n ∉ C) by (intros Hn'; apply HC in Hn'; lia).
    pose proof (threads_sound B K n e e' Ht Hn HnC (fun y Hy => proj1 (Hin y Hy)) s s' H Hs Hb) as Hth.
    destruct Hb as (_ & Hd & _). assert (Hf : refs s !! n = None) by (apply not_elem_of_dom; set_solver).
    unfold bind_slot. rewrite Hf. simpl.
    replace (with_refs (<[n := 1%Z]> (refs s)) s) with (add (one n 1) s).
    2: { unfold add, with_refs. f_equal. apply map_eq. intros y. rewrite lookup_plus.
         destruct (decide (n = y)) as [<-|Hy].
         - rewrite Hf, lookup_insert_eq. unfold one. by rewrite lookup_singleton_eq.
         - rewrite lookup_insert_ne, one_ne by done. by destruct (refs s !! y). }
    rewrite Hth. simpl. destruct (eval_tidy C cb e s s' H) as [(D & _) _].
    assert (Hf' : refs s' !! n = None) by (apply not_elem_of_dom; rewrite D; by apply not_elem_of_dom).
    unfold unbind_slot. simpl. rewrite lookup_plus, Hf'. unfold one at 1. rewrite lookup_singleton_eq. simpl.
    f_equal. destruct s' as [r pr lb]. unfold add, with_refs. simpl in *. f_equal. apply map_eq. intros y.
    destruct (decide (n = y)) as [<-|Hy].
    + by rewrite lookup_delete_eq.
    + rewrite lookup_delete_ne, lookup_plus, one_ne by done. by destruct (r !! y).
  - pose proof (releases_mono _ _ _ _ _ R1). apply steps_if; [apply between_stays|done| |apply IH1|apply IH2]; try done.
    + intros y Hy. apply one_ne, Hin. set_solver.
    + intros y Hy. apply Hin. set_solver.
    + intros y Hy%HK. lia.
    + intros y Hy%HC. lia.
    + intros y Hy. apply Hin. set_solver.
  - destruct (Hin l) as [Hl Hne]; [set_solver|].
    apply moves_let; [done|done| |done|done|by apply one_ne|apply lookup_empty|].
    + apply steps_frame; [done|]. intros y Hy. apply one_ne, Hin. set_solver.
    + apply IH; try done. intros y Hy. apply Hin. set_solver.
  - apply steps_dup; [apply between_stays|done|]. by apply IH.
  - apply steps_drop; [apply between_stays|done|]. by apply IH.
  - destruct (Hin u) as [Hl Hne]; [set_solver|].
    apply moves_reset; [done|done| |done|by apply one_ne|apply lookup_empty|].
    + intros y Hy. apply one_ne, Hin. set_solver.
    + apply IH; try done. intros y Hy. apply Hin. set_solver.
Qed.
End Against.

(** ** The slots of a release *)

Lemma threads_slots t e e' : threads t e e' -> bound_slots e' = bound_slots e.
Proof.
  induction 1; simpl; try congruence.
  match goal with H : attach_reuse ?v _ = Some _ |- _ => destruct v as [[] tv]; try done end.
  match goal with H : attach_reuse (CE (K_MakeData _ _ ?r _ _) _) _ = Some _ |- _ => destruct r; [done|] end.
  by simplify_eq/=.
Qed.

Lemma releases_slots x n e n' e' :
  releases x n e n' e' -> forall y, y ∈ bound_slots e' -> y ∈ bound_slots e ∨ n <= y < n'.
Proof.
  induction 1 as [n e|n e e' Ht|n n1 n2 c t1 t1' e1 e1' ty R1 IH1 R2 IH2| | | | ]; intros y Hy; simpl in Hy |- *.
  - by left.
  - rewrite (threads_slots _ _ _ Ht) in Hy. apply elem_of_cons in Hy as [->|Hy]; [right; lia|by left].
  - pose proof (releases_mono _ _ _ _ _ R1). pose proof (releases_mono _ _ _ _ _ R2).
    rewrite !elem_of_app in Hy |- *. specialize (IH1 y). specialize (IH2 y).
    destruct Hy as [?|[Hy|Hy]]; [tauto|destruct (IH1 Hy)|destruct (IH2 Hy)]; try tauto; right; lia.
  - set_solver.
  - set_solver.
  - set_solver.
  - set_solver.
Qed.

(** ** The pass *)

(** Operands are atoms: what normalization gives and reference counting keeps. *)
Fixpoint flat (e : CExpr) : bool :=
  match e with
  | CE kind _ =>
      match kind with
      | K_Lit _ | K_Local _ | K_Global _ | K_Error | K_MakeClosure _ _ _ => true
      | K_Prim _ args | K_Foreign _ args _ | K_MakeData _ args _ _ _ | K_Spread args => forallb is_atom args
      | K_App func args _ _ => is_atom func && forallb is_atom args
      | K_DataTag base _ | K_DataField base _ _ _ => is_atom base
      | K_If cond thn els => is_atom cond && flat thn && flat els
      | K_Let _ value body | K_LetMany _ value body => flat value && flat body
      | K_Reset _ _ body | K_FreeReuse _ body | K_Dup _ body | K_Drop _ body => flat body
      | K_Join _ _ | K_Recur _ | K_HoleStart _ _ | K_HoleFill _ _ _ | K_HoleClose _ _ => false
      end
  end.

Definition below (n : nat) : gset LocalId := set_seq 0 n.
Lemma elem_of_below x n : x ∈ below n ↔ x < n.
Proof. unfold below. rewrite elem_of_set_seq. lia. Qed.

Section Pass.
Context (data : ReuseCandidates).

Lemma pass_atom a n : is_atom a = true -> reuse_pass data a n = Some (a, n).
Proof. by destruct a as [[] t]. Qed.

Lemma pass_atoms args n : forallb is_atom args = true -> smap (reuse_pass data) args n = Some (args, n).
Proof.
  induction args as [|a args IH]; [done|]. simpl. intros [Ha Hargs]%andb_true_iff.
  unfold mbind, sm_bind. by rewrite pass_atom, IH.
Qed.

(** The release [reuse_pass] picks for a dropped cell. *)
Definition pass_release (local : LocalId) (body : CExpr) : SM nat CExpr :=
  match fields data local with
  | Some n => ReuseSizes.release local body n
  | None => Reuse.release local body
  end.

Lemma pass_release_refines x e n : exists e' n', pass_release x e n = Some (e', n') ∧ releases x n e n' e'.
Proof. unfold pass_release. destruct (fields data x); [apply sizes_release_refines|apply release_refines]. Qed.

(** What the pass does to a tree: nothing to operations, one release per reused drop. *)
Inductive passes : nat -> CExpr -> nat -> CExpr -> Prop :=
| Pass_same n e : passes n e n e
| Pass_release n n1 n2 local body body' e' ty :
    passes n body n1 body' -> releases local n1 body' n2 e' ->
    passes n (CE (K_Drop local body) ty) n2 e'
| Pass_drop n n' local body body' ty :
    passes n body n' body' -> passes n (CE (K_Drop local body) ty) n' (drop_ local body')
| Pass_dup n n' local body body' ty :
    passes n body n' body' -> passes n (CE (K_Dup local body) ty) n' (dup_ local body')
| Pass_let n n1 n2 local value value' body body' ty :
    passes n value n1 value' -> passes n1 body n2 body' ->
    passes n (CE (K_Let local value body) ty) n2 (CE (K_Let local value' body') ty)
| Pass_letmany n n1 n2 locals value value' body body' ty :
    passes n value n1 value' -> passes n1 body n2 body' ->
    passes n (CE (K_LetMany locals value body) ty) n2 (CE (K_LetMany locals value' body') ty)
| Pass_if n n1 n2 cond thn thn' els els' ty :
    passes n thn n1 thn' -> passes n1 els n2 els' ->
    passes n (CE (K_If cond thn els) ty) n2 (CE (K_If cond thn' els') ty)
| Pass_reset n n' value token body body' ty :
    passes n body n' body' ->
    passes n (CE (K_Reset value token body) ty) n' (CE (K_Reset value token body') ty)
| Pass_free n n' token body body' ty :
    passes n body n' body' ->
    passes n (CE (K_FreeReuse token body) ty) n' (CE (K_FreeReuse token body') ty).

Lemma pass_refines e : flat e = true -> forall n, exists e' n', reuse_pass data e n = Some (e', n') ∧ passes n e n' e'.
Proof.
  induction e as [[k t] IH] using CExpr_children_ind. intros Hf n.
  destruct k; simpl in IH, Hf; try done; cbn [reuse_pass]; unfold mbind, sm_bind;
    try (apply Forall_cons in IH as [IH1 IH]); try (apply Forall_cons in IH as [IH2 IH]);
    try (apply Forall_cons in IH as [IH3 _]);
    repeat match type of Hf with _ && _ = true => apply andb_true_iff in Hf as [Hf ?] end;
    rewrite ?pass_atom by done; rewrite ?pass_atoms by done;
    try (eexists _, _; split; [reflexivity|apply Pass_same]).
  - destruct (IH2 ltac:(done) n) as (a & n1 & -> & ?), (IH3 ltac:(done) n1) as (b & n2 & -> & ?).
    eexists _, _. split; [done|]. by econstructor.
  - destruct (IH1 ltac:(done) n) as (a & n1 & -> & ?), (IH2 ltac:(done) n1) as (b & n2 & -> & ?).
    eexists _, _. split; [done|]. by econstructor.
  - destruct (IH1 ltac:(done) n) as (a & n1 & -> & ?), (IH2 ltac:(done) n1) as (b & n2 & -> & ?).
    eexists _, _. split; [done|]. by econstructor.
  - destruct (IH2 ltac:(done) n) as (b & n2 & -> & ?). eexists _, _. split; [done|]. by econstructor.
  - destruct (IH1 ltac:(done) n) as (b & n2 & -> & ?). eexists _, _. split; [done|]. by econstructor.
  - destruct (IH1 ltac:(done) n) as (b & n2 & -> & ?). eexists _, _. split; [done|]. by econstructor.
  - destruct (IH1 ltac:(done) n) as (b & n1 & E & P). destruct (can_reuse data local body); rewrite E.
    + destruct (pass_release_refines local b n1) as (e' & n2 & E' & R). exists e', n2.
      split; [exact E'|]. by eapply Pass_release.
    + eexists _, _. split; [done|]. by constructor.
Qed.
End Pass.

Lemma passes_mono n e n' e' : passes n e n' e' -> n <= n'.
Proof. induction 1; try lia. pose proof (releases_mono _ _ _ _ _ H0). lia. Qed.

Lemma passes_slots n e n' e' :
  passes n e n' e' -> forall y, y ∈ bound_slots e' -> y ∈ bound_slots e ∨ n <= y < n'.
Proof.
  induction 1 as [|n n1 n2 l b b' e' ty Hp IH Hr| | |n n1 n2 l v v' b b' ty P1 IH1 P2 IH2|n n1 n2 l v v' b b' ty P1 IH1 P2 IH2
    |n n1 n2 c t1 t1' e1 e1' ty P1 IH1 P2 IH2| | ]; intros y Hy; simpl in Hy |- *; try (by left); try (by apply IHpasses).
  - pose proof (passes_mono _ _ _ _ Hp). pose proof (releases_mono _ _ _ _ _ Hr).
    destruct (releases_slots _ _ _ _ _ Hr y Hy) as [Hy'|Hy']; [|right; lia].
    destruct (IH y Hy') as [?|?]; [by left|right; lia].
  - pose proof (passes_mono _ _ _ _ P1). pose proof (passes_mono _ _ _ _ P2). specialize (IH1 y). specialize (IH2 y).
    rewrite elem_of_app, elem_of_cons in Hy |- *.
    destruct Hy as [Hy|[?|Hy]]; [destruct (IH1 Hy)|tauto|destruct (IH2 Hy)]; try tauto; right; lia.
  - pose proof (passes_mono _ _ _ _ P1). pose proof (passes_mono _ _ _ _ P2). specialize (IH1 y). specialize (IH2 y).
    rewrite !elem_of_app in Hy |- *.
    destruct Hy as [Hy|[?|Hy]]; [destruct (IH1 Hy)|tauto|destruct (IH2 Hy)]; try tauto; right; lia.
  - pose proof (passes_mono _ _ _ _ P1). pose proof (passes_mono _ _ _ _ P2). specialize (IH1 y). specialize (IH2 y).
    rewrite !elem_of_app in Hy |- *.
    destruct Hy as [?|[Hy|Hy]]; [tauto|destruct (IH1 Hy)|destruct (IH2 Hy)]; try tauto; right; lia.
  - rewrite elem_of_app, elem_of_cons in Hy |- *. destruct Hy as [?|[?|Hy]]; [tauto..|]. destruct (IHpasses y Hy); tauto.
Qed.

Lemma releases_peek x n e n' e' : releases x n e n' e' -> peek_parent e' = None.
Proof. by destruct 1. Qed.

Lemma passes_peek n e n' e' : passes n e n' e' -> peek_parent e' = peek_parent e.
Proof. destruct 1; try done. by apply (releases_peek _ _ _ _ _ H0). Qed.

Section PassSound.
Context (C : gset LocalId) (cb : DefId -> nat -> list bool).
#[local] Abbreviation ev := (eval C cb).

Lemma moves_weaken B K K' X Y m m' : K ⊆ K' -> steps (between B K') X Y m m' -> steps (between B K) X Y m m'.
Proof. intros HK Hm s s' H Hs (H1 & H2 & H3). apply Hm; [done|done|]. split_and!; set_solver. Qed.

Lemma moves_same B K m : steps (between B K) ∅ ∅ m m.
Proof. intros s s' H _ _. by rewrite !add_empty. Qed.

(** What an owned slot gives up in [consume] is one extra reference. *)
Lemma consume_inverse x s s1 :
  x ∉ C -> consume C x s = Ok s1 -> s = add (one x 1) s1 ∧ x ∈ dom (refs s1).
Proof.
  intros Hx H. assert (Hn : exists n, refs s !! x = Some n ∧ s1 = with_refs (<[x := (n - 1)%Z]> (refs s)) s).
  { unfold consume, owned_slot in H. rewrite bool_decide_eq_false_2 in H by done. simpl in H.
    destruct (refs s !! x) as [n|]; [|by destruct (projections s !! x)]. exists n. split; [done|].
    destruct (projections s !! x); case_match; try done; by injection H. }
  destruct Hn as (n & E & ->). split.
  - destruct s as [r p lb]. unfold add, with_refs. simpl in *. f_equal. apply map_eq. intros y.
    rewrite lookup_plus. destruct (decide (x = y)) as [<-|Hy].
    + rewrite E, lookup_insert_eq. unfold one. rewrite lookup_singleton_eq. f_equal. lia.
    + rewrite lookup_insert_ne, one_ne by done. by destruct (r !! y).
  - simpl. rewrite dom_insert_L. set_solver.
Qed.

Lemma passes_sound n e n' e' :
  passes n e n' e' -> (forall y, y ∈ C -> y < n) -> (forall y, y ∈ bound_slots e -> y < n) ->
  steps (between ∅ (below n)) ∅ ∅ (ev e) (ev e').
Proof.
  assert (H0 : nonneg ∅) by (intros y m Hy; by rewrite lookup_empty in Hy).
  assert (Hlater : forall n n', n <= n' -> below n ⊆ below n').
  { intros a b Hab x. rewrite !elem_of_below. lia. }
  induction 1 as [|n n1 n2 l b b' e' ty Hp IH Hr|n n' l b b' ty _ IH|n n' l b b' ty _ IH
    |n n1 n2 l v v' b b' ty P1 IH1 P2 IH2|n n1 n2 ls v v' b b' ty P1 IH1 P2 IH2
    |n n1 n2 c t1 t1' e1 e1' ty P1 IH1 P2 IH2|n n' v u b b' ty _ IH|n n' u b b' ty _ IH];
    intros HC Hin; cbn [bound_slots] in Hin.
  - apply moves_same.
  - pose proof (passes_mono _ _ _ _ Hp) as Hle. intros s s' H Hs Hb. rewrite !add_empty. cbn [eval] in H.
    unfold owned_slot in H at 1. destruct (decide (l ∈ C)) as [Hl|Hl].
    { by rewrite bool_decide_eq_true_2 in H. }
    rewrite bool_decide_eq_false_2 in H by done. simpl in H. apply bind_ok in H as (s1 & E1 & E2).
    destruct (consume_inverse l s s1 Hl E1) as [Es Hd].
    destruct (carried_steady _ (tidy_consume C l) (carries_consume C l) s s1 E1) as [St Hn1].
    specialize (Hn1 Hs). pose proof (between_stays _ _ _ _ St Hb) as Hb1.
    pose proof (IH HC Hin s1 s' E2 Hn1 Hb1) as Hb'. rewrite !add_empty in Hb'.
    rewrite Es. rewrite <- (add_empty s').
    apply (releases_sound C cb {[l]} (below n1) l n1 b' n2 e' Hr); [|intros y Hy%HC; lia|set_solver|done| |done|done|].
    + intros y. by rewrite elem_of_below.
    + intros y Hy. split; [|intros ->].
      * rewrite elem_of_below. destruct (passes_slots _ _ _ _ Hp y Hy) as [Hy'%Hin|]; lia.
      * destruct (eval_tidy C cb b' s1 s' Hb') as [_ N]. by apply (N l).
    + destruct Hb1 as (_ & H2 & H3). specialize (Hlater n n1 Hle). split_and!; set_solver.
  - by apply (steps_drop C cb (between ∅ (below n)) ∅ ∅ (between_stays _ _) H0 l b b' ty), IH.
  - by apply (steps_dup C cb (between ∅ (below n)) ∅ ∅ (between_stays _ _) H0 l b b' ty), IH.
  - pose proof (passes_mono _ _ _ _ P1) as Hle. assert (Hlt : forall y, y ∈ C -> y < n1) by (intros y Hy%HC; lia).
    apply moves_let; [done|done|apply IH1; [done|]|by apply (passes_peek n v n1)| |apply lookup_empty|apply lookup_empty|].
    + intros y Hy. apply Hin. set_solver.
    + rewrite elem_of_below. apply Hin. set_solver.
    + apply (moves_weaken _ _ _ _ _ _ _ (Hlater n n1 Hle)), IH2; [done|]. intros y Hy.
      assert (y < n) by (apply Hin; set_solver). lia.
  - pose proof (passes_mono _ _ _ _ P1) as Hle. assert (Hlt : forall y, y ∈ C -> y < n1) by (intros y Hy%HC; lia).
    apply moves_letmany; [done|done|apply IH1; [done|]| |].
    + intros y Hy. apply Hin. set_solver.
    + intros y Hy. rewrite elem_of_below. split_and!; [apply Hin; set_solver|apply lookup_empty..].
    + apply (moves_weaken _ _ _ _ _ _ _ (Hlater n n1 Hle)), IH2; [done|]. intros y Hy.
      assert (y < n) by (apply Hin; set_solver). lia.
  - pose proof (passes_mono _ _ _ _ P1) as Hle. assert (Hlt : forall y, y ∈ C -> y < n1) by (intros y Hy%HC; lia).
    apply steps_if; [apply between_stays|done| |apply IH1; [done|]|].
    + intros y _. apply lookup_empty.
    + intros y Hy. apply Hin. set_solver.
    + apply (moves_weaken _ _ _ _ _ _ _ (Hlater n n1 Hle)), IH2; [done|]. intros y Hy.
      assert (y < n) by (apply Hin; set_solver). lia.
  - apply moves_reset; [done|done| |rewrite elem_of_below; apply Hin; set_solver|apply lookup_empty|apply lookup_empty|].
    + intros y _. apply lookup_empty.
    + apply IH; [done|]. intros y Hy. apply Hin. set_solver.
  - apply (steps_bind _ ∅ ∅ ∅ (consume C u) (consume C u)); [apply between_stays| |apply moves_same|by apply IH].
    apply carried_steady; [apply tidy_consume|apply carries_consume].
Qed.
End PassSound.

(** Every name a walk of the tree can meet is below the counter. *)
Record fresh_above (C : gset LocalId) (n : nat) (e : CExpr) (s : CkState) : Prop := {
  above_captures : forall y, y ∈ C -> y < n;
  above_slots : forall y, y ∈ bound_slots e -> y < n;
  above_refs : dom (refs s) ⊆ below n;
  above_projections : dom (projections s) ⊆ below n;
}.

Lemma pass_accept C cb data e n s s' :
  flat e = true -> fresh_above C n e s -> nonneg (refs s) -> eval C cb e s = Ok s' ->
  exists e' n', reuse_pass data e n = Some (e', n') ∧ passes n e n' e' ∧ eval C cb e' s = Ok s'.
Proof.
  intros Hf [H1 H2 H3 H4] Hs H. destruct (pass_refines data e Hf n) as (e' & n' & E & P).
  exists e', n'. split_and!; [done|done|].
  pose proof (passes_sound C cb n e n' e' P H1 H2 s s' H Hs) as Hm. rewrite !add_empty in Hm.
  apply Hm. split_and!; [set_solver|done|done].
Qed.

(** The whole step, reuse off included. *)
Lemma reuse_step_accept C cb db off owners e n s s' :
  flat e = true -> fresh_above C n e s -> nonneg (refs s) -> eval C cb e s = Ok s' ->
  exists e' n', reuse_step db off owners e n = Some (e', n') ∧ passes n e n' e' ∧ eval C cb e' s = Ok s'.
Proof.
  intros Hf Ha Hs H. unfold reuse_step. destruct off; [|by apply pass_accept].
  exists e, n. split_and!; [done|constructor|done].
Qed.

(** C32: recycling cells is sound for the verifier, whichever cells are chosen.  On a tree with
    atomic operands whose slots lie below the counter, the pass never panics; and if the
    verifier walks the tree from a state, it walks the pass's output from the same state to
    the same state: each reset cell's token is taken by one construction or freed on every
    path, and no reference is released earlier or later than the tree's own drops allow. *)
Theorem reuse_pass_accepted C cb data e n s s' :
  flat e = true -> fresh_above C n e s -> nonneg (refs s) -> eval C cb e s = Ok s' ->
  exists e' n', reuse_pass data e n = Some (e', n') ∧ n <= n' ∧ eval C cb e' s = Ok s'.
Proof.
  intros Hf Ha Hs H. destruct (pass_accept C cb data e n s s' Hf Ha Hs H) as (e' & n' & E & P & H').
  exists e', n'. split_and!; [done|by apply (passes_mono n e n' e')|done].
Qed.

(** [drop p; if c then (1, 2) else let q = r in q] with [r] released on the first path: the
    cell of [p] is recycled there, and its token freed on the other. *)
Module Recycle.
Definition pair_ty : Ty := Ty_Tuple [ty_int; ty_int].
Definition local (x : LocalId) : CExpr := CE (K_Local x) pair_ty.
Definition lit (n : Z) : CExpr := CE (K_Lit (Lit_Int n)) ty_int.
Definition pair : CExpr := CE (K_MakeData 0 [lit 1; lit 2] None 0 None) pair_ty.
Definition tree : CExpr :=
  drop_ 0 (CE (K_If (lit 0) (drop_ 1 pair) (CE (K_Let 2 (local 1) (local 2)) pair_ty)) pair_ty).
Definition data : ReuseCandidates :=
  with_sizes (new_candidates tree {[0]}) {[ 0 := Some 2 ]}.
Definition start : CkState := MkCk {[ 0 := 1%Z; 1 := 1%Z ]} ∅ None.
Definition recycled : CExpr :=
  reset_ 0 3 (CE (K_If (lit 0) (drop_ 1 (CE (K_MakeData 0 [lit 1; lit 2] (Some 3) 0 None) pair_ty))
    (free_reuse_ 3 (CE (K_Let 2 (local 1) (local 2)) pair_ty))) pair_ty).
End Recycle.

Lemma reuse_pass_accepted_witness :
  reuse_pass Recycle.data Recycle.tree 3 = Some (Recycle.recycled, 4) ∧
  exists e' n', reuse_pass Recycle.data Recycle.tree 3 = Some (e', n') ∧ 3 <= n' ∧
    eval ∅ (fun _ _ => []) e' Recycle.start = Ok (MkCk {[ 0 := 0%Z; 1 := 0%Z ]} ∅ None).
Proof.
  split; [vm_compute; reflexivity|].
  apply (reuse_pass_accepted ∅ (fun _ _ => []) Recycle.data Recycle.tree 3 Recycle.start);
    [reflexivity| | |vm_compute; reflexivity].
  - split.
    + intros y Hy. by apply not_elem_of_empty in Hy.
    + intros y Hy. repeat (apply elem_of_cons in Hy as [->|Hy]; [lia|]). by apply elem_of_nil in Hy.
    + intros y [m Hm]%elem_of_dom. apply elem_of_below. change (refs Recycle.start) with ({[ 0 := 1%Z; 1 := 1%Z ]} : gmap LocalId Z) in Hm.
      apply lookup_insert_Some in Hm as [[<- _]|[_ [<- _]%lookup_singleton_Some]]; lia.
    + intros y Hy. simpl in Hy. by rewrite dom_empty_L in Hy.
  - intros x n Hx. change (refs Recycle.start) with ({[ 0 := 1%Z; 1 := 1%Z ]} : gmap LocalId Z) in Hx.
    apply lookup_insert_Some in Hx as [[_ <-]|[_ [_ <-]%lookup_singleton_Some]]; lia.
Defined.
