(* ===== verification/RcFlat.v ===== *)
(** * The shape of counted trees

    What [owned] returns is again flat - operands are atoms - and binds only the slots of its
    input and fresh ones; the reuse pass may follow it. *)

From S2P Require Import Prelude Types Ir Verify Frame Rc ReuseSound RcState.
From stdpp Require Import gmap list strings.
From Stdlib Require Import Lia.

Lemma atom_slots a : is_atom a = true -> bound_slots a = [].
Proof. by destruct a as [[] t]. Qed.
Lemma atom_flat a : is_atom a = true -> flat a = true.
Proof. by destruct a as [[] t]. Qed.
Lemma atoms_slots args : forallb is_atom args = true -> mjoin (bound_slots <$> args) = [].
Proof.
  induction args as [|a args IH]; [done|]. simpl. intros [Ha Hs]%andb_true_iff.
  rewrite atom_slots by done. by apply IH.
Qed.

Lemma flat_dups ds e : flat (foldr dup_ e ds) = flat e.
Proof. by induction ds. Qed.
Lemma slots_dups ds e : bound_slots (foldr dup_ e ds) = bound_slots e.
Proof. by induction ds. Qed.
Lemma flat_dropify ds e : flat (dropify ds e) = flat e.
Proof. unfold dropify. by induction (sort_dedup ds). Qed.
Lemma slots_dropify ds e : bound_slots (dropify ds e) = bound_slots e.
Proof. unfold dropify. by induction (sort_dedup ds). Qed.
Create Rewrite HintDb shape.
#[export] Hint Rewrite flat_dups slots_dups flat_dropify slots_dropify : shape.

(** [shaped n e n' e']: [e'] is flat, and binds slots of [e] and of [n] up to [n']. *)
Definition shaped (bs : list LocalId) (n : nat) (n' : nat) (e' : CExpr) : Prop :=
  flat e' = true ∧ n <= n' ∧ forall x, x ∈ bound_slots e' -> x ∈ bs ∨ n <= x < n'.

Section Shape.
Context (C : gset LocalId) (cb : DefId -> nat -> list bool).

Lemma pre_bind_shape bs ops : forall i n ops' binds n',
  forallb is_atom ops = true -> pre_bind bs i ops n = Some ((ops', binds), n') ->
  forallb is_atom ops' = true ∧ length ops' = length ops ∧ n <= n' ∧
  Forall (fun b => is_atom b.2 = true ∧ n <= b.1 < n') binds.
Proof.
  induction ops as [|a ops IH]; intros i n ops' binds n' Ha H; simpl in Ha, H.
  { by injection H as <- <- <-. }
  apply andb_true_iff in Ha as [Ha Hops]. unfold mbind, sm_bind in H.
  destruct (nth_flag bs i); [destruct (local_of a)|].
  1, 3: destruct (pre_bind bs (S i) ops n) as [[[o b] k]|] eqn:E; [|done]; injection H as <- <- <-;
    destruct (IH _ _ _ _ _ Hops E) as (A1 & A2 & A3 & A4); (split_and!; [by apply andb_true_iff|simpl; by rewrite A2|exact A3|exact A4]).
  unfold Rc.fresh in H. destruct (pre_bind bs (S i) ops (S n)) as [[[o b] k]|] eqn:E; [|done].
  injection H as <- <- <-. destruct (IH _ _ _ _ _ Hops E) as (A1 & A2 & A3 & A4).
  split_and!; [done|simpl; lia|lia|]. constructor; [simpl; split; [done|lia]|].
  eapply Forall_impl; [exact A4|]. simpl. intros p [? ?]. split; [done|lia].
Qed.

Lemma wrap_shape binds e n n' :
  Forall (fun b => is_atom b.2 = true ∧ n <= b.1 < n') binds -> shaped [] n n' e ->
  shaped [] n n' (wrap_binds binds e).
Proof.
  intros Hb (F & L & B). split; [|split; [done|]].
  - induction Hb as [|[l a] binds [Ha _] _ IH]; [done|]. simpl. rewrite (atom_flat a Ha). apply IH.
  - induction Hb as [|[l a] binds [Ha Hl] _ IH]; [done|]. simpl in *. rewrite (atom_slots a Ha). simpl.
    intros x [->|Hx]%elem_of_cons; [by right|by apply IH].
Qed.

Lemma operands_shape ops bs live rebuild n e' n' :
  forallb is_atom ops = true ->
  (forall ops', forallb is_atom ops' = true -> length ops' = length ops ->
     flat (rebuild ops') = true ∧ bound_slots (rebuild ops') = []) ->
  operands_rc C ops bs live rebuild n = Some (e', n') -> shaped [] n n' e'.
Proof.
  intros Ha Hr H. unfold operands_rc, mbind, sm_bind in H.
  destruct (pre_bind bs 0 ops n) as [[[o b] k]|] eqn:E; [|done].
  destruct (pre_bind_shape _ _ _ _ _ _ _ Ha E) as (A1 & A2 & A3 & A4). destruct (Hr o A1 A2) as [R1 R2].
  destruct (dead_from _ _ _ _ _ _ _); simpl in H; injection H as <- <-.
  - apply wrap_shape; [done|]. split; [by autorewrite with shape|]. split; [done|].
    autorewrite with shape. rewrite R2. by intros x Hx%elem_of_nil.
  - apply wrap_shape.
    + eapply Forall_impl; [exact A4|]. simpl. intros p [? ?]. split; [done|lia].
    + split; [|split; [lia|]]; autorewrite with shape; simpl; autorewrite with shape; [by rewrite R1|].
      rewrite R2. simpl. intros x [->|Hx]%elem_of_cons; [right; lia|by apply elem_of_nil in Hx].
Qed.

Lemma projection_shape e borrows live n e' n' :
  flat e = true -> bound_slots e = [] -> borrow_tail C e borrows live n = Some (e', n') -> shaped [] n n' e'.
Proof.
  intros F B H. unfold borrow_tail, mbind, sm_bind in H. destruct (dead_borrows _ _ _); simpl in H; injection H as <- <-.
  - split; [done|]. split; [done|]. rewrite B. by intros x Hx%elem_of_nil.
  - split; [|split; [lia|]]; simpl; autorewrite with shape; [by rewrite F|]. rewrite B.
    simpl. intros x [->|Hx]%elem_of_cons; [right; lia|by apply elem_of_nil in Hx].
Qed.

Lemma shaped_nil bs n n' e' : shaped [] n n' e' -> shaped bs n n' e'.
Proof. intros (F & L & B). split; [done|]. split; [done|]. intros x [Hx%elem_of_nil|]%B; tauto. Qed.

Lemma local_atom e : is_local e = true -> is_atom e = true.
Proof. by destruct e as [[] t]. Qed.

Lemma owned_shape e : forall live n e' n',
  anf_form e = true -> owned C cb e live n = Some (e', n') -> shaped (binders e) n n' e'.
Proof.
  induction e as [[k t] IH] using CExpr_children_ind. intros live n e' n' Ha H.
  assert (Hconst : forall x : CExpr, flat x = true -> bound_slots x = [] -> Some (x, n) = Some (e', n') ->
    shaped (binders (CE k t)) n n' e').
  { intros x F B [= <- <-]. split; [done|]. split; [done|]. rewrite B. by intros y Hy%elem_of_nil. }
  destruct k; simpl in IH; try done; try (apply Forall_cons in IH as [IH1 IH]);
    try (apply Forall_cons in IH as [IH2 IH]); try (apply Forall_cons in IH as [IH3 _]); cbn [owned] in H;
    try (by eapply Hconst; [| |exact H]); simpl in Ha.
  - eapply Hconst; [| |exact H]; by destruct (_ || _).
  - apply andb_true_iff in Ha as [_ Ha]. apply shaped_nil.
    eapply operands_shape; [exact Ha| |exact H]. intros o Ho _. split; [exact Ho|by apply atoms_slots].
  - apply shaped_nil. eapply operands_shape; [exact Ha| |exact H]. intros o Ho _. split; [exact Ho|by apply atoms_slots].
  - destruct reuse; [|done]. apply shaped_nil. eapply (operands_shape (func :: args)); [exact Ha| |exact H].
    intros [|g o] Ho Hl; [done|]. split; [exact Ho|]. simpl in Ho. apply andb_true_iff in Ho as [Hg Ho]. simpl.
    by rewrite atom_slots, atoms_slots.
  - apply andb_true_iff in Ha as [[Hc Ht]%andb_true_iff He]. unfold conditional, mbind, sm_bind in H.
    destruct (owned C cb thn live n) as [[t1 n1]|] eqn:E1; [|done].
    destruct (owned C cb els live n1) as [[t2 n2]|] eqn:E2; [|done]. injection H as <- <-.
    destruct (IH2 _ _ _ _ Ht E1) as (F1 & L1 & B1), (IH3 _ _ _ _ He E2) as (F2 & L2 & B2).
    assert (Hs : shaped (binders thn ++ binders els) n n2
      (CE (K_If cond (dropify (elements ((live ∪ fv_owned C thn ∪ fv_owned C els) ∖ fv_owned C thn ∖ live)) t1)
        (dropify (elements ((live ∪ fv_owned C thn ∪ fv_owned C els) ∖ fv_owned C els ∖ live)) t2)) t)).
    { split; [|split; [lia|]]; simpl; autorewrite with shape; [by rewrite Hc, F1, F2|].
      rewrite (atom_slots cond Hc). simpl. intros x. rewrite !elem_of_app.
      intros [Hx%B1|Hx%B2]; destruct Hx as [?|?]; [tauto|right; lia|tauto|right; lia]. }
    destruct Hs as (F & L & B). simpl. split; [by case_match|]. split; [done|].
    intros x Hx. rewrite !elem_of_app. specialize (B x). rewrite elem_of_app in B.
    destruct B as [?|?]; [by case_match|tauto..].
  - apply andb_true_iff in Ha as [Hv Hb]. unfold binding, mbind, sm_bind in H.
    destruct (owned C cb body live n) as [[b n1]|] eqn:E1; [|done].
    destruct (IH2 _ _ _ _ Hb E1) as (F1 & L1 & B1).
    set (b2 := if negb (bool_decide (local ∈ fv_owned C body)) && negb (is_capture C local) then drop_ local b else b) in H.
    assert (Hb2 : flat b2 = flat b ∧ bound_slots b2 = bound_slots b) by (unfold b2; by destruct (_ && _)).
    destruct Hb2 as [F2 S2]. destruct (is_projection value) eqn:Hp.
    + injection H as <- <-.
      assert (Hval : flat value = true ∧ bound_slots value = []).
      { destruct value as [[] vt]; try done; simpl in Hv |- *.
        - by destruct op.
        - split; [by apply local_atom|]. by apply atom_slots, local_atom.
        - split; [by apply local_atom|]. by apply atom_slots, local_atom. }
      destruct Hval as [Fv Sv]. split; [|split; [done|]]; simpl; autorewrite with shape; [by rewrite Fv, F2|].
      rewrite Sv, S2. simpl. intros x. rewrite !elem_of_app, !elem_of_cons.
      intros [->|Hx%B1]; [tauto|]. tauto.
    + destruct (owned C cb value _ n1) as [[v n2]|] eqn:E2; [|done]. injection H as <- <-.
      destruct (IH1 _ _ _ _ Hv E2) as (F3 & L3 & B3).
      split; [|split; [lia|]]; simpl; [by rewrite F3, F2|]. rewrite S2. intros x.
      rewrite !elem_of_app, !elem_of_cons.
      intros [Hx%B3|[->|Hx%B1]]; [destruct Hx; [tauto|right; lia]|tauto|destruct Hx; [tauto|right; lia]].
  - apply shaped_nil. eapply operands_shape; [exact Ha| |exact H]. intros o Ho _. split; [exact Ho|by apply atoms_slots].
  - apply andb_true_iff in Ha as [[[Hnd Hg]%andb_true_iff Hv]%andb_true_iff Hb]. unfold letmany, mbind, sm_bind in H.
    destruct (owned C cb body live n) as [[b n1]|] eqn:E1; [|done].
    destruct (IH2 _ _ _ _ Hb E1) as (F1 & L1 & B1).
    destruct (multi_operands cb value) as [[args bs]|] eqn:Hm.
    + injection H as <- <-.
      assert (Hval : flat value = true ∧ bound_slots value = []).
      { destruct value as [[] vt]; try done; simpl in Hv |- *.
        - apply andb_true_iff in Hv as [_ Hv]. split; [done|by apply atoms_slots].
        - destruct reuse; [|done]. split; [done|]. apply andb_true_iff in Hv as [Hf Hv].
          by rewrite atom_slots, atoms_slots. }
      destruct Hval as [Fv Sv]. split; [|split; [done|]]; autorewrite with shape; simpl; autorewrite with shape;
        [by rewrite Fv, F1|]. rewrite Sv. simpl. intros x. rewrite !elem_of_app.
      intros [Hx|Hx%B1]; tauto.
    + destruct (owned C cb value _ n1) as [[v n2]|] eqn:E2; [|done]. injection H as <- <-.
      destruct (IH1 _ _ _ _ Hv E2) as (F3 & L3 & B3).
      split; [|split; [lia|]]; simpl; autorewrite with shape; [by rewrite F3, F1|]. intros x. rewrite !elem_of_app.
      intros [Hx%B3|[Hx|Hx%B1]]; [destruct Hx; [tauto|right; lia]|tauto|destruct Hx; [tauto|right; lia]].
  - eapply Hconst; [| |exact H]; autorewrite with shape; done.
  - destruct reuse; [done|]. apply shaped_nil. eapply operands_shape; [exact Ha| |exact H].
    intros o Ho _. split; [exact Ho|by apply atoms_slots].
  - apply shaped_nil. eapply projection_shape; [| |exact H]; simpl; [by apply local_atom|by apply atom_slots, local_atom].
  - apply shaped_nil. eapply projection_shape; [| |exact H]; simpl; [by apply local_atom|by apply atom_slots, local_atom].
Qed.
End Shape.
