(* ===== verification/WireRc.v ===== *)
(** * The verifier's verdict across the wire

    Reference counts are checked on the warm side, before a definition is shipped; the worker
    runs what it rebuilds.  The checker of [Verify] gives the rebuilt definition the very
    result it gives the original one, error included. *)

From S2P Require Import Prelude Types Ir Wire WireProps Verify RcState.
From stdpp Require Import gmap list strings.
From Stdlib Require Import Lia.

(** Every primitive's first operand has a type values have. *)
Fixpoint prims_on_values (e : CExpr) : bool :=
  match e with
  | CE kind _ =>
      match kind with
      | K_Lit _ | K_Local _ | K_Global _ | K_MakeClosure _ _ _ | K_Error => true
      | K_Prim _ args =>
          match args with a :: _ => value_ty (ce_ty a) | [] => true end && forallb prims_on_values args
      | K_Foreign _ args _ | K_MakeData _ args _ _ _ | K_Spread args | K_Recur args =>
          forallb prims_on_values args
      | K_App f args _ _ => prims_on_values f && forallb prims_on_values args
      | K_If c t e => prims_on_values c && prims_on_values t && prims_on_values e
      | K_Let _ v b | K_LetMany _ v b | K_Reset v _ b => prims_on_values v && prims_on_values b
      | K_DataTag b _ | K_DataField b _ _ _ | K_FreeReuse _ b | K_Dup _ b | K_Drop _ b
      | K_Join _ b | K_HoleStart _ b | K_HoleFill _ b _ | K_HoleClose _ b => prims_on_values b
      end
  end.
Definition def_prims_on_values (d : LoweredDef) : bool :=
  forallb (fun f => prims_on_values (fn_body f)) (ld_fns d) &&
  match reuse_entry d with Some f => prims_on_values (fn_body f) | None => true end.

Section Across.
Context (fd : DefId -> DefId) (warm cold : DefId -> nat -> list bool).
(** The worker's signatures are the warm path's, under the new identities. *)
Hypothesis same_signatures : forall d n, cold (fd d) n = warm d n.

#[local] Notation "e ^r" := (map_expr fd retype e) (at level 1, format "e ^r").

Lemma kind_of_local e : ce_kind e^r = match ce_kind e with K_Local x => K_Local x | _ => ce_kind e^r end.
Proof. destruct e as [[] t]; done. Qed.

Lemma borrow_atom_map captures e s : borrow_atom captures e^r s = borrow_atom captures e s.
Proof. by destruct e as [[] t]. Qed.

Lemma peek_parent_map e : peek_parent e^r = peek_parent e.
Proof.
  destruct e as [[] t]; try done. unfold peek_parent. simpl.
  destruct args as [|[[] u] args]; by destruct op.
Qed.

Lemma ty_map e : ce_ty e^r = retype (ce_ty e).
Proof. by destruct e. Qed.

Lemma borrows_retype p i ty :
  value_ty ty = true -> borrows_argument p i (retype ty) = borrows_argument p i ty.
Proof.
  intros (H1 & H2 & _)%retype_value. unfold borrows_argument, borrows_operand. by rewrite H1, H2.
Qed.

Lemma prim_borrows_map op args :
  match args with a :: _ => value_ty (ce_ty a) | [] => true end = true ->
  prim_borrows op (map_expr fd retype <$> args) = prim_borrows op args.
Proof.
  destruct args as [|a args]; [done|]. intros Hv. simpl. rewrite ty_map, length_fmap.
  f_equal; [by apply borrows_retype|]. apply list_fmap_ext. intros i x _. by apply borrows_retype.
Qed.

Lemma callee_borrows_map f n :
  match ce_kind f^r with K_Global d => cold d n | _ => [] end =
  match ce_kind f with K_Global d => warm d n | _ => [] end.
Proof. destruct f as [[] t]; try done. apply same_signatures. Qed.

Section Fn.
Context (captures : gset LocalId).
Let keeps (e : CExpr) : Prop := forall s, eval captures cold e^r s = eval captures warm e s.

Lemma each_map (f g : nat -> CExpr -> CkState -> result RcError CkState) args :
  Forall (fun a => forall i s, f i a^r s = g i a s) args ->
  forall i s, each f i (map_expr fd retype <$> args) s = each g i args s.
Proof.
  induction 1 as [|a args Ha _ IH]; intros i s; [done|]. simpl. rewrite Ha.
  destruct (g i a s); [|done]. apply IH.
Qed.

Lemma operand_map a b s :
  keeps a -> operand captures (eval captures cold) a^r b s = operand captures (eval captures warm) a b s.
Proof. intros Ha. destruct b; [|by apply Ha]. unfold operand. destruct a as [[] t]; try apply Ha; done. Qed.

Lemma all_keep args :
  Forall (fun e => prims_on_values e = true -> keeps e) args ->
  forallb prims_on_values args = true -> Forall keeps args.
Proof.
  induction 1 as [|a args Ha _ IH]; [constructor|]. simpl. intros [H1 H2]%andb_true_iff.
  constructor; [by apply Ha|by apply IH].
Qed.

Lemma each_operands (bs : nat -> bool) args i s :
  Forall keeps args ->
  each (fun i a s => operand captures (eval captures cold) a (bs i) s) i (map_expr fd retype <$> args) s =
  each (fun i a s => operand captures (eval captures warm) a (bs i) s) i args s.
Proof.
  intros H. apply each_map. eapply Forall_impl; [exact H|]. intros a Ha j t. by apply operand_map.
Qed.

Lemma each_evals args i s :
  Forall keeps args ->
  each (fun _ a s => eval captures cold a s) i (map_expr fd retype <$> args) s =
  each (fun _ a s => eval captures warm a s) i args s.
Proof. intros H. apply each_map. eapply Forall_impl; [exact H|]. intros a Ha j t. by apply Ha. Qed.

Lemma bind_same {A B} (m m' : result RcError A) (k k' : A -> result RcError B) :
  m = m' -> (forall a, k a = k' a) -> m ≫= k = m' ≫= k'.
Proof. intros -> H. destruct m'; [apply H|done]. Qed.

Lemma eval_map e : prims_on_values e = true -> keeps e.
Proof.
  induction e as [[k t] IH] using CExpr_children_ind. intros Hv s.
  destruct k; simpl in IH, Hv |- *; try done;
    repeat (apply andb_true_iff in Hv as [Hv ?]);
    try (apply Forall_cons in IH as [IH1 IH]; specialize (IH1 ltac:(assumption)));
    try (apply Forall_cons in IH as [IH2 IH]; specialize (IH2 ltac:(assumption)));
    try (apply Forall_cons in IH as [IH3 _]; specialize (IH3 ltac:(assumption)));
    try (apply bind_same; [by apply IH1|intros s1]); try by apply IH1.
  - rewrite prim_borrows_map by done. by apply (each_operands (nth_flag _)), all_keep.
  - by apply (each_operands (fun _ => false)), all_keep.
  - rewrite length_fmap, callee_borrows_map. apply bind_same; [|done].
    by apply (each_operands (nth_flag _)), all_keep.
  - apply bind_same; [by apply IH2|intros s2]. by apply bind_same; [apply IH3|].
  - rewrite peek_parent_map. case_match.
    + case_match; [done|]. case_match; [done|]. apply bind_same; [by apply IH2|done].
    + apply bind_same; [done|]. intros s2. apply bind_same; [by apply IH2|done].
  - by apply each_evals, all_keep.
  - apply bind_same; [done|]. intros s2. apply bind_same; [by apply IH2|done].
  - apply bind_same; [|done]. by apply each_evals, all_keep.
  - apply borrow_atom_map.
  - apply bind_same; [apply borrow_atom_map|done].
  - apply bind_same; [done|]. intros s2. apply bind_same; [by apply IH2|done].
  - apply bind_same; [done|]. intros s2. by apply IH1.
  - apply bind_same; [done|]. intros s2. by apply IH1.
  - case_match; [done|]. apply bind_same; [done|]. intros s2. by apply IH1.
  - done.
  - apply each_map. eapply Forall_impl; [by apply all_keep|]. intros a Ha i s'.
    case_match; [|apply Ha]. case_match; [apply borrow_atom_map|apply Ha].
  - apply bind_same; [done|]. intros s2. apply bind_same; [by apply IH1|done].
  - done.
  - done.
Qed.
End Fn.

Lemma check_fn_map i b f :
  prims_on_values (fn_body f) = true ->
  check_fn cold i b (map_fn fd retype f) = check_fn warm i b f.
Proof.
  intros H. unfold check_fn. simpl. destruct (init_params _ _ _ _) as [captures rs].
  apply bind_same; [by apply eval_map|done].
Qed.

Lemma check_fns_map d fns : forall i,
  forallb (fun f => prims_on_values (fn_body f)) fns = true ->
  check_fns cold (map_def fd retype d) i (map_fn fd retype <$> fns) = check_fns warm d i fns.
Proof.
  induction fns as [|f fns IH]; intros i; [done|]. simpl. intros [H1 H2]%andb_true_iff.
  apply bind_same; [by apply check_fn_map|]. intros _. by apply IH.
Qed.
End Across.

(** C30: shipping a definition never changes the verifier's verdict.  When every primitive's
    first operand has a type values have and the worker's callee signatures are the warm
    path's under the new identities, checking the rebuilt definition returns exactly what
    checking the original returns - acceptance, or the same error. *)
Theorem check_rc_across fd warm cold d :
  (forall c n, cold (fd c) n = warm c n) ->
  def_prims_on_values d = true ->
  check_rc (map_def fd retype d) cold = check_rc d warm.
Proof.
  intros Hs [H1 H2]%andb_true_iff. unfold check_rc. apply bind_same; [by apply check_fns_map|].
  intros _. simpl. destruct (reuse_entry d) as [re|]; [|done]. simpl.
  unfold ld_entry. simpl. destruct (ld_fns d) as [|f fns]; [done|]. simpl.
  by apply check_fn_map.
Qed.

Lemma check_rc_across_witness :
  check_rc (map_def (fun c => MkDefId (S (def_file c)) (def_name c)) retype Shipment.main_def)
    (fun _ n => replicate n false) = check_rc Shipment.main_def (fun _ n => replicate n false).
Proof.
  apply (check_rc_across _ (fun _ n => replicate n false)); [reflexivity|vm_compute; reflexivity].
Defined.
