(* ===== verification/RcSound.v ===== *)
(** * Reference-count insertion is accepted by the verifier

    The output of [Rc.owned] walks through [Verify.eval] without an error,
    leaving exactly the live slots owned; with A-normal form and the dropping of
    unused parameters, [check_rc] accepts the whole function. *)

From S2P Require Import Prelude Types Ir Verify Rc RcFv RcState.
From stdpp Require Import gmap list strings.
From Stdlib Require Import ZArith Lia.

Section Operands.
Context (C : gset LocalId) (cb : DefId -> nat -> list bool).
Abbreviation ev := (eval C cb).
Abbreviation fv := (fv_owned C).

Lemma nth_flag_replicate n i : nth_flag (replicate n false) i = false.
Proof.
  unfold nth_flag. destruct (replicate n false !! i) eqn:E; [|done].
  by apply lookup_replicate in E as [-> _].
Qed.

Lemma is_atom_cases a :
  is_atom a = true ->
  (exists x t, a = CE (K_Local x) t) ∨ (local_of a = None ∧ forall s, ev a s = Ok s) .
Proof.
  destruct a as [k t]. destruct k; try discriminate; intros _; [right|left|right|right]; eauto.
Qed.

(** The references an operand list needs: its consuming positions, counted. *)
Definition enough (xs : list LocalId) (R : gmap LocalId Z) : Prop :=
  forall x, x ∈ xs -> x ∉ C -> exists n, R !! x = Some n ∧ (occ C xs x <= n)%Z.

Lemma enough_step x xs R n :
  enough (x :: xs) R -> x ∉ C -> R !! x = Some n ->
  (1 <= n)%Z ∧ enough xs (<[x:=(n - 1)%Z]> R).
Proof.
  intros H HC HR. split.
  - destruct (H x) as (m & Hm & Hle); [set_solver|done|].
    pose proof (occ_in C (x :: xs) x ltac:(set_solver) HC). rewrite HR in Hm.
    injection Hm as <-. lia.
  - intros y Hy HyC. destruct (H y) as (m & Hm & Hle); [set_solver|done|].
    rewrite occ_cons in Hle.
    destruct (decide (x = y)) as [->|Hne].
    + rewrite lookup_insert_eq. rewrite HR in Hm. injection Hm as <-.
      rewrite decide_True in Hle by done. eexists. split; [done|lia].
    + rewrite lookup_insert_ne by done. rewrite decide_False in Hle by tauto. eauto.
Qed.

Lemma bump_occ_step x xs R n :
  x ∉ C -> R !! x = Some n ->
  bump (fun y => - occ C xs y)%Z (<[x:=(n - 1)%Z]> R) =
  bump (fun y => - occ C (x :: xs) y)%Z R.
Proof.
  intros HC HR. apply map_eq. intros y. rewrite !lookup_bump, occ_cons.
  destruct (decide (x = y)) as [->|Hne].
  - rewrite lookup_insert_eq, HR. simpl. rewrite decide_True by done. f_equal. lia.
  - rewrite lookup_insert_ne by done. rewrite decide_False by tauto.
    destruct (R !! y); simpl; [|done]. f_equal.
Qed.

Lemma bump_id f R : (forall x, is_Some (R !! x) -> f x = 0%Z) -> bump f R = R.
Proof.
  intros H. apply map_eq. intros x. rewrite lookup_bump.
  destruct (R !! x) eqn:E; simpl; [|done]. rewrite H by eauto. f_equal. lia.
Qed.

Lemma bump_ext f g R : (forall x, is_Some (R !! x) -> f x = g x) -> bump f R = bump g R.
Proof.
  intros H. apply map_eq. intros x. rewrite !lookup_bump.
  destruct (R !! x) eqn:E; simpl; [|done]. by rewrite H by eauto.
Qed.

(** Reading and consuming a list of atoms takes one reference per consuming position. *)
Lemma eval_operands bs ops : forall i R lb,
  forallb is_atom ops = true ->
  enough (consumed_from bs i ops) R ->
  (forall x, x ∈ borrowed_from bs i ops -> x ∉ C ->
     x ∉ consumed_from bs i ops ∧ exists n, R !! x = Some n ∧ (1 <= n)%Z) ->
  each (fun i a s => operand C ev a (nth_flag bs i) s) i ops (St R lb) =
  Ok (St (bump (fun x => - occ C (consumed_from bs i ops) x)%Z R) lb).
Proof.
  induction ops as [|a ops IH]; intros i R lb Hat Hen Hbor; simpl.
  - by rewrite bump_id by (intros; rewrite occ_notin; [done|set_solver]).
  - simpl in Hat. apply andb_true_iff in Hat as [Ha Hat].
    simpl in Hen, Hbor. unfold consumes in *. unfold operand at 2.
    destruct (is_atom_cases a Ha) as [(x & t & ->)|[Hnone Hev]].
    + unfold local_of in *. simpl in *.
      destruct (nth_flag bs i) eqn:Hf; simpl in *.
      * rewrite borrow_live by (intros HC; apply Hbor; [set_solver|done]).
        simpl. apply IH; [done..|]. intros y Hy. apply Hbor. set_solver.
      * destruct (decide (x ∈ C)) as [HC|HC].
        -- rewrite consume_captured by done. simpl.
           rewrite IH; [..|intros y Hy HyC; destruct (Hbor y) as [H1 H2]; set_solver]; [|done|].
           ++ f_equal. f_equal. apply bump_ext. intros y _. rewrite occ_cons.
              by rewrite decide_False by naive_solver.
           ++ intros y Hy HyC. destruct (Hen y) as (n & Hn & Hle); [set_solver|done|].
              exists n. split; [done|]. rewrite occ_cons in Hle.
              rewrite decide_False in Hle by naive_solver. done.
        -- destruct (Hen x) as (n & HR & _); [set_solver|done|].
           destruct (enough_step _ _ _ _ Hen HC HR) as [Hn Hen'].
           rewrite (consume_owned C x R lb n) by done. simpl.
           rewrite IH; [|done|done|].
           ++ by rewrite bump_occ_step.
           ++ intros y Hy HyC. destruct (Hbor y) as [Hy1 Hy2]; [done..|].
              split; [set_solver|]. rewrite lookup_insert_ne by (intros ->; set_solver). done.
    + rewrite Hnone in *.
      assert (Hcons : (if nth_flag bs i then None else None : option LocalId) = None)
        by (by destruct (nth_flag bs i)).
      replace (option_list _) with (@nil LocalId) in Hen, Hbor |- * by (by destruct (nth_flag bs i)).
      assert (Hop : operand C ev a (nth_flag bs i) (St R lb) = Ok (St R lb)).
      { unfold operand. unfold local_of in Hnone.
        destruct (nth_flag bs i), (ce_kind a); try done; apply Hev. }
      unfold operand in Hop. rewrite Hop. simpl. apply IH; [done|done|].
      intros y Hy. apply Hbor. by destruct (nth_flag bs i).
Qed.

(** ** The three lists the insertion pass computes *)

Lemma occ_dups bs live ops : forall i x,
  x ∉ C ->
  occ C (dups_from C bs live i ops) x =
  (if decide (x ∈ live) then occ C (consumed_from bs i ops) x
   else Z.max 0 (occ C (consumed_from bs i ops) x - 1))%Z.
Proof.
  induction ops as [|a ops IH]; intros i x Hx; simpl.
  { rewrite occ_notin by set_solver. case_decide; lia. }
  destruct (consumes bs i a) as [y|]; simpl; [|by apply IH].
  pose proof (occ_nonneg C (consumed_from bs (S i) ops) x) as Hnn.
  rewrite occ_cons.
  destruct (decide (y = x)) as [->|Hne].
  - rewrite (decide_True (P := x = x ∧ x ∉ C)) by done.
    unfold is_capture. rewrite (bool_decide_eq_false_2 (x ∈ C)) by done. simpl.
    destruct (decide (x ∈ live)) as [Hl|Hl].
    + rewrite (bool_decide_eq_true_2 (x ∈ live)) by done. simpl.
      rewrite occ_cons, IH, !decide_True by done. lia.
    + rewrite (bool_decide_eq_false_2 (x ∈ live)) by done. simpl.
      case_bool_decide as Hlater.
      * rewrite occ_cons, IH, decide_True, decide_False by done.
        pose proof (occ_in C _ x Hlater Hx). lia.
      * rewrite IH, decide_False by done. rewrite occ_notin by done. lia.
  - rewrite (decide_False (P := y = x ∧ x ∉ C)) by tauto.
    destruct (_ || _); rewrite ?occ_cons, IH by done; [|by case_decide].
    rewrite (decide_False (P := y = x ∧ x ∉ C)) by tauto. by case_decide.
Qed.

Lemma dups_consumed bs live ops : forall i x,
  x ∈ dups_from C bs live i ops -> x ∈ consumed_from bs i ops.
Proof.
  induction ops as [|a ops IH]; intros i x; simpl; [done|].
  destruct (consumes bs i a) as [y|]; simpl; [|by apply IH].
  destruct (_ || _); rewrite ?elem_of_cons; [intros [->|H]|intros H]; eauto.
Qed.

Lemma elem_of_dead bs live consumed ops : forall i dead x,
  x ∈ dead_from C bs live consumed i ops dead ↔
  x ∈ dead ∨ (x ∈ borrowed_from bs i ops ∧ x ∉ C ∧ x ∉ live ∧ x ∉ consumed).
Proof.
  induction ops as [|a ops IH]; intros i dead x; simpl; [set_solver|].
  rewrite IH. destruct (nth_flag bs i); [|set_solver].
  destruct (local_of a) as [y|]; simpl; [|set_solver].
  unfold is_capture. repeat case_bool_decide; simpl; set_solver.
Qed.

Lemma eval_let l v b t R R1 R2 lb :
  peek_parent v = None -> ev v (St R lb) = Ok (St R1 lb) -> R1 !! l = None ->
  ev b (St (<[l:=1%Z]> R1) lb) = Ok (St R2 lb) -> R2 !! l = Some 0%Z ->
  ev (CE (K_Let l v b) t) (St R lb) = Ok (St (delete l R2) lb).
Proof.
  intros Hp Hv Hl Hb Hz. simpl. rewrite Hv. simpl. rewrite Hp. unfold bind_slot. simpl.
  rewrite Hl. simpl. unfold with_refs. simpl. rewrite Hb. simpl. unfold unbind_slot. simpl.
  by rewrite Hz.
Qed.

(** ** Operations on atoms *)

(** The slots an operand list mentions, consumed or lent. *)
Definition mentioned (bs : list bool) (ops : list CExpr) : gset LocalId :=
  list_to_set (consumed_from bs 0 ops) ∪ list_to_set (borrowed_from bs 0 ops).

(** Duplicates before an operation that consumes [consumed_from] leave the live slots
    owned and release the others. *)
Lemma bump_dups bs live ops R :
  (forall x, x ∈ consumed_from bs 0 ops -> x ∉ C -> R !! x = Some 1%Z) ->
  bump (fun x => - occ C (consumed_from bs 0 ops) x)%Z
    (bump (occ C (dups_from C bs live 0 ops)) R) =
  zero (list_to_set (consumed_from bs 0 ops) ∖ C ∖ live) R.
Proof.
  intros H. apply map_eq. intros x. rewrite !lookup_bump, lookup_zero.
  destruct (R !! x) as [n|] eqn:HR; simpl; [|by case_decide].
  destruct (decide (x ∈ C)) as [HC|HC].
  { rewrite decide_False by set_solver. unfold occ. rewrite !decide_True by done. f_equal. lia. }
  rewrite occ_dups by done.
  destruct (decide (x ∈ consumed_from bs 0 ops)) as [Hin|Hin].
  - rewrite H in HR by done. injection HR as <-. pose proof (occ_in C _ x Hin HC).
    destruct (decide (x ∈ live)).
    + rewrite decide_False by set_solver. f_equal. lia.
    + rewrite decide_True by set_solver. f_equal. lia.
  - rewrite (occ_notin C (consumed_from bs 0 ops) x) by done.
    rewrite (decide_False (P := x ∈ list_to_set (consumed_from bs 0 ops) ∖ C ∖ live)) by set_solver.
    f_equal. case_decide; lia.
Qed.

Lemma enough_dups bs live ops R :
  (forall x, x ∈ consumed_from bs 0 ops -> x ∉ C -> R !! x = Some 1%Z) ->
  enough (consumed_from bs 0 ops) (bump (occ C (dups_from C bs live 0 ops)) R).
Proof.
  intros H x Hx HC. rewrite lookup_bump, H by done. simpl. eexists. split; [done|].
  rewrite occ_dups by done. pose proof (occ_in C _ x Hx HC). case_decide; lia.
Qed.

Lemma no_conflict_spec bs ops x :
  no_conflict C bs ops = true -> x ∈ borrowed_from bs 0 ops -> x ∉ C ->
  x ∉ consumed_from bs 0 ops.
Proof.
  intros H Hx HC. unfold no_conflict in H. rewrite forallb_forall in H.
  specialize (H x (proj1 (list_elem_of_In _ _) Hx)).
  apply orb_true_iff in H as [H|H]; [by apply bool_decide_eq_true in H|].
  apply negb_true_iff, bool_decide_eq_false in H. done.
Qed.

Section Operation.
Context (bs : list bool) (ops : list CExpr) (live : gset LocalId) (R : gmap LocalId Z)
  (lb : option (list bool)).
Hypothesis Hat : forallb is_atom ops = true.
Hypothesis Hnc : no_conflict C bs ops = true.
Hypothesis HR : forall x, x ∈ mentioned bs ops -> x ∉ C -> R !! x = Some 1%Z.

(** The operands of one operation, after its duplicates. *)
Lemma eval_operation :
  each (fun i a s => operand C ev a (nth_flag bs i) s) 0 ops
    (St (bump (occ C (dups_from C bs live 0 ops)) R) lb) =
  Ok (St (zero (list_to_set (consumed_from bs 0 ops) ∖ C ∖ live) R) lb).
Proof.
  assert (Hc : forall x, x ∈ consumed_from bs 0 ops -> x ∉ C -> R !! x = Some 1%Z).
  { intros x Hx. apply HR. unfold mentioned. set_solver. }
  rewrite eval_operands; [|done|by apply enough_dups|].
  - by rewrite bump_dups.
  - intros x Hx HC. assert (x ∉ consumed_from bs 0 ops) by eauto using no_conflict_spec.
    split; [done|]. rewrite lookup_bump, HR by (unfold mentioned; set_solver). simpl.
    eexists. split; [done|]. pose proof (occ_nonneg C (dups_from C bs live 0 ops) x). lia.
Qed.

Lemma dups_present x :
  x ∈ dups_from C bs live 0 ops -> x ∉ C -> exists n, R !! x = Some n ∧ (1 <= n)%Z.
Proof.
  intros Hx HC. exists 1%Z. split; [|done]. apply HR; [|done].
  apply dups_consumed in Hx. unfold mentioned. set_solver.
Qed.

(** A whole operation: duplicates, the operation, then the dead borrowed operands. *)
Lemma eval_operation_dead e tmp ty :
  (forall R', ev e (St R' lb) =
    each (fun i a s => operand C ev a (nth_flag bs i) s) 0 ops (St R' lb)) ->
  peek_parent e = None -> tmp ∉ C -> R !! tmp = None ->
  ev (foldr dup_
        (match dead_from C bs live (consumed_from bs 0 ops) 0 ops [] with
         | [] => e
         | dead => CE (K_Let tmp e (dropify dead (CE (K_Local tmp) ty))) ty
         end) (dups_from C bs live 0 ops)) (St R lb) =
  Ok (St (zero (mentioned bs ops ∖ C ∖ live) R) lb).
Proof.
  intros He Hpk HtC Ht. rewrite eval_dups by apply dups_present.
  pose proof eval_operation as Hop. rewrite <- He in Hop.
  set (R0 := bump _ R) in *.
  set (dead := dead_from C bs live _ 0 ops []).
  assert (Hdead : forall x, x ∈ dead ↔ x ∈ borrowed_from bs 0 ops ∧ x ∉ C ∧ x ∉ live ∧
    x ∉ consumed_from bs 0 ops) by (intros x; unfold dead; rewrite elem_of_dead; set_solver).
  assert (Hset : list_to_set dead ∪ list_to_set (consumed_from bs 0 ops) ∖ C ∖ live =
    mentioned bs ops ∖ C ∖ live).
  { unfold mentioned. apply set_eq. intros x. set_unfold. rewrite Hdead.
    destruct (decide (x ∈ consumed_from bs 0 ops)); tauto. }
  assert (Hd1 : forall x, x ∈ dead ->
    x ∉ C ∧ zero (list_to_set (consumed_from bs 0 ops) ∖ C ∖ live) R !! x = Some 1%Z).
  { intros x Hx. apply Hdead in Hx as (Hx & HC & Hl & Hcons). split; [done|].
    rewrite lookup_zero, decide_False by set_solver. apply HR; [|done]. unfold mentioned. set_solver. }
  clearbody dead. destruct dead as [|d dead].
  { rewrite Hop, <- Hset. do 3 f_equal. set_solver. }
  set (ds := d :: dead) in *.
  assert (Htz : zero (list_to_set (consumed_from bs 0 ops) ∖ C ∖ live) R !! tmp = None).
  { rewrite lookup_zero, Ht. by case_decide. }
  assert (Htd : tmp ∉ ds) by (intros Hin; destruct (Hd1 tmp Hin); congruence).
  rewrite (eval_let tmp e _ ty R0 (zero (list_to_set (consumed_from bs 0 ops) ∖ C ∖ live) R)
    (<[tmp:=0%Z]> (zero (list_to_set ds)
      (<[tmp:=1%Z]> (zero (list_to_set (consumed_from bs 0 ops) ∖ C ∖ live) R))))); try done.
  - by rewrite delete_insert_eq, zero_delete, zero_zero, Hset.
  - rewrite eval_dropify.
    + simpl ev. rewrite (consume_owned C tmp _ lb 1); [done|done| |done].
      by rewrite lookup_zero, decide_False, lookup_insert_eq by set_solver.
    + intros x Hx. destruct (Hd1 x Hx). split; [done|].
      rewrite lookup_insert_ne; [done|congruence].
  - by rewrite lookup_insert_eq.
Qed.
End Operation.

(** ** Binding borrowed operands that are not locals *)

Definition plain_bind (b : LocalId * CExpr) : Prop :=
  is_atom b.2 = true ∧ local_of b.2 = None.

Lemma pre_bind_spec bs ops : forall i next,
  forallb is_atom ops = true ->
  exists ops' binds,
    pre_bind bs i ops next = Some ((ops', binds), next + length binds) ∧
    forallb is_atom ops' = true ∧ Forall plain_bind binds ∧
    binds.*1 = seq next (length binds) ∧
    consumed_from bs i ops' = consumed_from bs i ops ∧
    (forall x, x ∈ borrowed_from bs i ops' ↔ x ∈ borrowed_from bs i ops ∨ x ∈ binds.*1) ∧
    ce_ty <$> ops' = ce_ty <$> ops ∧
    (nth_flag bs i = false -> head ops' = head ops).
Proof.
  induction ops as [|a ops IH]; intros i next Hat; simpl.
  { exists [], []. simpl. rewrite Nat.add_0_r. split_and!; try done. set_solver. }
  simpl in Hat. apply andb_true_iff in Hat as [Ha Hat].
  assert (Hkeep : exists ops' binds,
    (('(ops, binds) ← pre_bind bs (S i) ops; mret (a :: ops, binds)) : SM nat _) next =
      Some ((ops', binds), next + length binds) ∧
    (nth_flag bs i = true -> local_of a <> None) ∨ (nth_flag bs i = true ∧ local_of a = None));
    [|clear Hkeep].
  { destruct (IH (S i) next Hat) as (o & b & He & _).
    destruct (nth_flag bs i) eqn:E1, (local_of a) eqn:E2;
      try (exists [], []; right; by split);
      exists (a :: o), b; left; simpl; unfold mbind, sm_bind; rewrite He; done. }
  destruct (nth_flag bs i) eqn:Hf; [destruct (local_of a) as [x|] eqn:Hl|].
  - destruct (IH (S i) next Hat) as (o & b & He & H1 & H2 & H3 & H4 & H5 & H6 & _).
    exists (a :: o), b. unfold mbind, sm_bind. rewrite He. simpl.
    unfold consumes. rewrite Hf, Hl, Ha, H1, H4. simpl.
    split_and!; try done; try (by f_equal); set_solver.
  - destruct (IH (S i) (S next) Hat) as (o & b & He & H1 & H2 & H3 & H4 & H5 & H6 & _).
    exists (CE (K_Local next) (ce_ty a) :: o), ((next, a) :: b).
    unfold mbind, sm_bind. simpl. rewrite He. simpl.
    unfold consumes. rewrite Hf, H1, H4. simpl.
    split_and!; try done; [by rewrite Nat.add_succ_r|by constructor|by f_equal|set_solver|by f_equal].
  - destruct (IH (S i) next Hat) as (o & b & He & H1 & H2 & H3 & H4 & H5 & H6 & _).
    exists (a :: o), b. unfold mbind, sm_bind. rewrite He. simpl.
    unfold consumes. rewrite Hf, Ha, H1, H4. simpl.
    split_and!; try done; try (by f_equal); set_solver.
Qed.

Definition ones (ts : list LocalId) (R : gmap LocalId Z) : gmap LocalId Z :=
  foldl (fun R t => <[t:=1%Z]> R) R ts.

Lemma lookup_ones ts R x :
  ones ts R !! x = if decide (x ∈ ts) then Some 1%Z else R !! x.
Proof.
  unfold ones. revert R. induction ts as [|t ts IH]; intros R; simpl; [done|].
  rewrite IH. destruct (decide (x ∈ ts)); [by rewrite decide_True by set_solver|].
  destruct (decide (x = t)) as [->|].
  - by rewrite lookup_insert_eq, decide_True by set_solver.
  - by rewrite lookup_insert_ne, decide_False by set_solver.
Qed.

Lemma delete_ones ts X R :
  (forall t, t ∈ ts -> R !! t = None) -> foldr delete (zero X (ones ts R)) ts = zero X R.
Proof.
  intros H. apply map_eq. intros x.
  destruct (decide (x ∈ ts)) as [Hx|Hx].
  - rewrite lookup_foldr_delete by done. rewrite lookup_zero, H by done. by case_decide.
  - rewrite lookup_foldr_delete_not_elem_of by done.
    rewrite !lookup_zero, lookup_ones, (decide_False (P := x ∈ ts)) by done. done.
Qed.

Lemma eval_wrap_binds binds : forall e R R2 lb,
  Forall plain_bind binds -> NoDup (binds.*1) ->
  (forall t, t ∈ binds.*1 -> R !! t = None) ->
  ev e (St (ones (binds.*1) R) lb) = Ok (St R2 lb) ->
  (forall t, t ∈ binds.*1 -> R2 !! t = Some 0%Z) ->
  ev (wrap_binds binds e) (St R lb) = Ok (St (foldr delete R2 (binds.*1)) lb).
Proof.
  induction binds as [|[t a] binds IH]; intros e R R2 lb Hp Hnd Hfr He Hz; simpl wrap_binds; [done|].
  apply Forall_cons in Hp as [[Ha Hl] Hp]. apply NoDup_cons in Hnd as [Hnt Hnd].
  simpl in Ha, Hl, Hfr, He, Hz, Hnt |- *.
  destruct (is_atom_cases a Ha) as [(x & ty & ->)|[_ Hev]]; [done|].
  fold ev. change (ev (CE (K_Let t a (wrap_binds binds e)) (ce_ty (wrap_binds binds e))) (St R lb) =
    Ok (St (delete t (foldr delete R2 (binds.*1))) lb)).
  apply (eval_let _ _ _ _ _ R).
  - unfold peek_parent. destruct a as [k ?]. by destruct k.
  - apply Hev.
  - apply Hfr. set_solver.
  - apply IH; [done|done| |exact He|].
    + intros u Hu. rewrite lookup_insert_ne; [|intros ->; done]. apply Hfr. set_solver.
    + intros u Hu. apply Hz. set_solver.
  - rewrite lookup_foldr_delete_not_elem_of by done. apply Hz. set_solver.
Qed.

(** ** The whole operation *)

Lemma mentioned_fvs bs ops : forall i,
  forallb is_atom ops = true ->
  fvs C ops = (list_to_set (consumed_from bs i ops) ∪ list_to_set (borrowed_from bs i ops)) ∖ C.
Proof.
  induction ops as [|a ops IH]; intros i Hat.
  { unfold fvs. simpl. set_solver. }
  simpl in Hat. apply andb_true_iff in Hat as [Ha Hat].
  unfold fvs in *. rewrite fmap_cons, union_list_cons, (IH (S i) Hat).
  simpl. unfold consumes.
  assert (Hfv : fv a = list_to_set (option_list (local_of a)) ∖ C).
  { destruct a as [k t]. destruct k; try done; rewrite ?fv_local; simpl;
    first [set_solver | change (fv _) with (∅ : gset nat); set_solver]. }
  rewrite Hfv. destruct (nth_flag bs i); simpl; set_solver.
Qed.

Lemma operands_rc_sound ops bs live rebuild next e' next' R lb :
  forallb is_atom ops = true -> no_conflict C bs ops = true ->
  (forall x, x ∈ fvs C ops -> R !! x = Some 1%Z) ->
  (forall x, x ∈ C ∪ live ∪ dom R -> x < next) ->
  (forall ops' R', ce_ty <$> ops' = ce_ty <$> ops ->
     (nth_flag bs 0 = false -> head ops' = head ops) ->
     ev (rebuild ops') (St R' lb) =
       each (fun i a s => operand C ev a (nth_flag bs i) s) 0 ops' (St R' lb) ∧
     peek_parent (rebuild ops') = None) ->
  operands_rc C ops bs live rebuild next = Some (e', next') ->
  next <= next' ∧ ev e' (St R lb) = Ok (St (zero (fvs C ops ∖ live) R) lb).
Proof.
  intros Hat Hnc HR Hlt Hre Hrun.
  destruct (pre_bind_spec bs ops 0 next Hat)
    as (ops' & binds & Hpre & Hat' & Hplain & Hts & Hcons & Hbor & Hty & Hhd).
  unfold operands_rc in Hrun. unfold mbind, sm_bind in Hrun. rewrite Hpre in Hrun.
  assert (Hge : forall t, t ∈ binds.*1 -> next <= t < next + length binds).
  { intros t. rewrite Hts, elem_of_seq. lia. }
  assert (Hfresh : forall t, t ∈ binds.*1 -> t ∉ C ∪ live ∪ dom R).
  { intros t Ht Hin. specialize (Hge t Ht). specialize (Hlt t Hin). lia. }
  pose (R1 := ones (binds.*1) R).
  assert (HR1 : forall x, x ∈ mentioned bs ops' -> x ∉ C -> R1 !! x = Some 1%Z).
  { intros x Hx HC. unfold R1. rewrite lookup_ones. case_decide as Hin; [done|].
    apply HR. rewrite (mentioned_fvs bs ops 0) by done. unfold mentioned in Hx.
    rewrite Hcons in Hx. set_unfold in Hx. rewrite Hbor in Hx. set_solver. }
  assert (Hnc' : no_conflict C bs ops' = true).
  { unfold no_conflict. apply forallb_forall. intros x Hx%list_elem_of_In.
    rewrite Hcons. apply orb_true_iff.
    destruct (decide (x ∈ C)) as [HC|HC]; [left; by apply bool_decide_eq_true|right].
    apply negb_true_iff, bool_decide_eq_false. apply Hbor in Hx as [Hx|Hx].
    - by apply (no_conflict_spec bs ops).
    - intros Hin. apply (Hfresh x Hx).
      assert (x ∈ fvs C ops) by (rewrite (mentioned_fvs bs ops 0) by done; set_solver).
      assert (x ∈ dom R) by (apply elem_of_dom; rewrite HR by done; eauto). set_solver. }
  destruct (Hre ops' R1 Hty Hhd) as [_ Hpk].
  assert (Hop : forall tmp ty, next + length binds <= tmp ->
    ev (foldr dup_ (match dead_from C bs live (consumed_from bs 0 ops') 0 ops' [] with
           | [] => rebuild ops'
           | dead => CE (K_Let tmp (rebuild ops') (dropify dead (CE (K_Local tmp) ty))) ty
           end) (dups_from C bs live 0 ops')) (St R1 lb) =
    Ok (St (zero (mentioned bs ops' ∖ C ∖ live) R1) lb)).
  { intros tmp ty Htmp. apply eval_operation_dead; try done.
    - intros R'. apply (Hre ops' R' Hty Hhd).
    - intros HC. specialize (Hlt tmp). set_solver by lia.
    - unfold R1. rewrite lookup_ones. rewrite decide_False.
      + apply not_elem_of_dom. intros Hd. specialize (Hlt tmp). set_solver by lia.
      + intros Ht. specialize (Hge tmp Ht). lia. }
  assert (Hset : zero (mentioned bs ops' ∖ C ∖ live) R = zero (fvs C ops ∖ live) R).
  { apply zero_ext. intros x Hx. rewrite (mentioned_fvs bs ops 0) by done.
    unfold mentioned. rewrite Hcons.
    assert (x ∉ binds.*1).
    { intros Hin. apply (Hfresh x Hin). apply elem_of_union. right. by apply elem_of_dom. }
    rewrite !elem_of_difference, !elem_of_union, !elem_of_list_to_set, Hbor. tauto. }
  assert (Hfin : forall e, ev e (St R1 lb) = Ok (St (zero (mentioned bs ops' ∖ C ∖ live) R1) lb) ->
    ev (wrap_binds binds e) (St R lb) = Ok (St (zero (fvs C ops ∖ live) R) lb)).
  { intros e He. rewrite <- Hset.
    rewrite <- (delete_ones (binds.*1)).
    2:{ intros t Ht. apply not_elem_of_dom. specialize (Hfresh t Ht). set_solver. }
    apply eval_wrap_binds; try done.
    - rewrite Hts. apply NoDup_seq.
    - intros t Ht. apply not_elem_of_dom. specialize (Hfresh t Ht). set_solver.
    - intros t Ht. rewrite lookup_zero, decide_True.
      + by rewrite lookup_ones, decide_True.
      + specialize (Hfresh t Ht). unfold mentioned. set_unfold. rewrite Hbor. tauto. }
  specialize (Hop (next + length binds) (ce_ty (rebuild ops')) (le_n _)).
  destruct (dead_from _ _ _ _ _ _ _) as [|d dead]; simpl in Hrun; injection Hrun as <- <-;
    (split; [lia|by apply Hfin]).
Qed.
Lemma operands_rc_total ops bs live rebuild next :
  forallb is_atom ops = true -> is_Some (operands_rc C ops bs live rebuild next).
Proof.
  intros Hat. destruct (pre_bind_spec bs ops 0 next Hat) as (o & b & He & _).
  unfold operands_rc, mbind, sm_bind. rewrite He.
  destruct (dead_from _ _ _ _ _ _ _); simpl; eauto.
Qed.
End Operands.
