(* ===== verification/RcOwned.v ===== *)
(** * The precise insertion pass is accepted by the verifier

    [Rc.owned] by induction on the tree: on every scoped tree in A-normal form
    it returns a tree that [Verify.eval] walks without an error, consuming
    exactly the free slots that are not live afterwards. *)

From S2P Require Import Prelude Types Ir Verify Rc RcFv RcState RcSound.
From stdpp Require Import gmap list strings.
From Stdlib Require Import ZArith Lia.

Section Owned.
Context (C : gset LocalId) (cb : DefId -> nat -> list bool).
Abbreviation ev := (eval C cb).
Abbreviation fv := (fv_owned C).

(** The slots in scope, and the fresh ones above them. *)
Record in_scope (S live : gset LocalId) (R : gmap LocalId Z) (next : nat) : Prop := {
  scope_captures : C ⊆ S;
  scope_live : live ⊆ S;
  scope_refs : dom R ⊆ S;
  scope_next : forall x, x ∈ S -> x < next;
}.

(** Exactly one reference for each slot the tree may still use. *)
Definition holds (X : gset LocalId) (R : gmap LocalId Z) : Prop :=
  forall x, x ∈ X -> R !! x = Some 1%Z.

Definition accepted (e : CExpr) : Prop := forall S live next R lb,
  anf_form e = true -> conflict_free C cb e = true -> scoped S e = true ->
  Forall (fun x => x < next) (binders e) -> in_scope S live R next -> holds (fv e) R ->
  exists e' next', owned C cb e live next = Some (e', next') ∧ next <= next' ∧
    ev e' (St R lb) = Ok (St (zero (fv e ∖ live) R) lb).

Lemma in_scope_next S live R n n' : in_scope S live R n -> n <= n' -> in_scope S live R n'.
Proof. intros [] Hle. split; try done. intros x Hx. specialize (scope_next0 x Hx). lia. Qed.
Lemma in_scope_live S live live' R n :
  in_scope S live R n -> live' ⊆ S -> in_scope S live' R n.
Proof. by intros [] Hle. Qed.
Lemma in_scope_zero S live X R n : in_scope S live R n -> in_scope S live (zero X R) n.
Proof. intros []. split; try done. by rewrite dom_zero. Qed.
Lemma in_scope_none S live R n x : in_scope S live R n -> x ∉ S -> R !! x = None.
Proof. intros [] Hx. apply not_elem_of_dom. set_solver. Qed.
Lemma holds_sub X Y R : holds X R -> Y ⊆ X -> holds Y R.
Proof. intros H Hs x Hx. apply H, Hs, Hx. Qed.
Lemma holds_zero X Y R : holds X R -> X ## Y -> holds X (zero Y R).
Proof. intros H Hs x Hx. rewrite lookup_zero, decide_False by set_solver. by apply H. Qed.
Lemma holds_scope X S live R n : holds X R -> in_scope S live R n -> X ⊆ S.
Proof.
  intros H [] x Hx. apply scope_refs0, elem_of_dom. rewrite H by done. eauto.
Qed.

(** ** Operations *)

Lemma owned_operands e ops bs rebuild S live next R lb :
  forallb is_atom ops = true -> no_conflict C bs ops = true ->
  fv e = fvs C ops -> in_scope S live R next -> holds (fv e) R ->
  (forall ops' R', ce_ty <$> ops' = ce_ty <$> ops ->
     (nth_flag bs 0 = false -> head ops' = head ops) ->
     ev (rebuild ops') (St R' lb) =
       each (fun i a s => operand C ev a (nth_flag bs i) s) 0 ops' (St R' lb) ∧
     peek_parent (rebuild ops') = None) ->
  exists e' next', operands_rc C ops bs live rebuild next = Some (e', next') ∧ next <= next' ∧
    ev e' (St R lb) = Ok (St (zero (fv e ∖ live) R) lb).
Proof.
  intros Hat Hnc Hfv Hs Hh Hre.
  destruct (operands_rc_total C ops bs live rebuild next Hat) as [[e' next'] Hrun].
  exists e', next'. split; [done|]. rewrite Hfv. rewrite Hfv in Hh.
  eapply (operands_rc_sound C cb ops bs live rebuild next); try done.
  destruct Hs. intros x Hx. apply scope_next0. set_solver.
Qed.

(** The borrows of a projection are its free slots and captures. *)
Lemma projection_fv v :
  anf_form v = true -> is_projection v = true ->
  fv v = list_to_set (projection_borrows v) ∖ C.
Proof.
  destruct v as [k t]. destruct k; try discriminate; simpl.
  - destruct op; discriminate.
  - destruct base as [[] ?]; try discriminate. intros _ _.
    rewrite fv_datatag, fv_local. simpl. set_solver.
  - destruct base as [[] ?]; try discriminate. intros _ _.
    rewrite fv_datafield, fv_local. destruct index; simpl; set_solver.
Qed.

Lemma elem_of_dead_borrows bs live x :
  x ∈ dead_borrows C bs live ↔ x ∈ bs ∧ x ∉ C ∧ x ∉ live.
Proof.
  unfold dead_borrows. rewrite list_elem_of_In, filter_In, <- list_elem_of_In.
  unfold is_capture. repeat case_bool_decide; simpl; naive_solver.
Qed.

(** A projection only reads. *)
Lemma eval_projection v R lb :
  anf_form v = true -> is_projection v = true -> holds (fv v) R ->
  ev v (St R lb) = Ok (St R lb) ∧ peek_parent v = None.
Proof.
  intros Hv Hp Hh. rewrite projection_fv in Hh by done.
  assert (Hb : forall x, x ∈ projection_borrows v -> borrow C x (St R lb) = Ok (St R lb)).
  { intros x Hx. apply borrow_live. intros HC. exists 1%Z. split; [|done]. apply Hh. set_solver. }
  destruct v as [k t]. destruct k; try discriminate; simpl in Hv, Hp.
  - destruct op; discriminate.
  - destruct base as [[] ?]; try discriminate. simpl. unfold borrow_atom. simpl.
    split; [|done]. apply Hb. simpl. set_solver.
  - destruct base as [[] ?]; try discriminate. simpl. unfold borrow_atom. simpl.
    split; [|done]. rewrite Hb by (simpl; set_solver). simpl.
    destruct index; [done|]. apply Hb. simpl. set_solver.
Qed.

Lemma zero_dead_borrows v live R :
  anf_form v = true -> is_projection v = true ->
  zero (list_to_set (dead_borrows C (projection_borrows v) live)) R = zero (fv v ∖ live) R.
Proof.
  intros Hv Hp. apply zero_ext. intros x _. rewrite projection_fv by done.
  rewrite elem_of_list_to_set, elem_of_dead_borrows. set_solver.
Qed.

Lemma dead_borrows_holds v live R x :
  anf_form v = true -> is_projection v = true -> holds (fv v) R ->
  x ∈ dead_borrows C (projection_borrows v) live -> x ∉ C ∧ R !! x = Some 1%Z.
Proof.
  intros Hv Hp Hh Hx%elem_of_dead_borrows. split; [tauto|]. apply Hh.
  rewrite projection_fv by done. set_solver.
Qed.

Lemma accepted_projection v S live next R lb :
  anf_form v = true -> is_projection v = true -> in_scope S live R next -> holds (fv v) R ->
  exists e' next', borrow_tail C v (projection_borrows v) live next = Some (e', next') ∧
    next <= next' ∧ ev e' (St R lb) = Ok (St (zero (fv v ∖ live) R) lb).
Proof.
  intros Hv Hp Hs Hh. destruct (eval_projection v R lb Hv Hp Hh) as [Hev Hpk].
  unfold borrow_tail. rewrite <- zero_dead_borrows by done.
  pose proof (fun x => dead_borrows_holds v live R x Hv Hp Hh) as Hd.
  destruct (dead_borrows _ _ _) as [|d ds] eqn:E.
  { eexists _, _. split_and!; [done|done|]. rewrite Hev. f_equal. f_equal. symmetry.
    apply zero_none. set_solver. }
  rewrite <- E in *. clear E. eexists _, _. split_and!; [done|lia|].
  assert (HtS : next ∉ S) by (intros Hin; apply (scope_next _ _ _ _ Hs) in Hin; lia).
  assert (HtC : next ∉ C) by (pose proof (scope_captures _ _ _ _ Hs); set_solver).
  pose proof (in_scope_none _ _ _ _ _ Hs HtS) as Ht.
  rewrite (eval_let C cb next v _ _ R R (<[next:=0%Z]> (zero
    (list_to_set (dead_borrows C (projection_borrows v) live)) (<[next:=1%Z]> R)))); try done.
  - by rewrite delete_insert_eq, zero_delete.
  - rewrite eval_dropify.
    + simpl ev. rewrite (consume_owned C next _ lb 1); [done|done| |done].
      rewrite lookup_zero, decide_False, lookup_insert_eq; [done|].
      rewrite elem_of_list_to_set. intros Hin. destruct (Hd _ Hin); congruence.
    + intros x Hx. destruct (Hd _ Hx). split; [done|]. rewrite lookup_insert_ne; congruence.
  - by rewrite lookup_insert_eq.
Qed.

(** ** Control flow *)

Lemma eval_conditional c thn els t R R0 R1 lb :
  ev c (St R lb) = Ok (St R0 lb) -> ev thn (St R0 lb) = Ok (St R1 lb) ->
  ev els (St R0 lb) = Ok (St R1 lb) ->
  ev (CE (K_If c thn els) t) (St R lb) = Ok (St R1 lb).
Proof.
  intros H0 H1 H2. simpl. rewrite H0. simpl. rewrite H1. simpl. unfold with_refs. simpl.
  rewrite H2. simpl. by rewrite decide_True.
Qed.

(** One arm: the slots only the other arm uses are dropped first. *)
Lemma eval_arm arm' fva others live R lb :
  holds (fva ∪ others) R -> others ## C ->
  ev arm' (St (zero (others ∖ fva ∖ live) R) lb) =
    Ok (St (zero (fva ∖ live) (zero (others ∖ fva ∖ live) R)) lb) ->
  ev (dropify (elements ((live ∪ fva ∪ others) ∖ fva ∖ live)) arm') (St R lb) =
    Ok (St (zero ((fva ∪ others) ∖ live) R) lb).
Proof.
  intros Hh HC Harm. rewrite eval_dropify.
  - rewrite list_to_set_elements_L.
    replace ((live ∪ fva ∪ others) ∖ fva ∖ live) with (others ∖ fva ∖ live) by set_solver.
    rewrite Harm, zero_zero. do 3 f_equal. apply set_eq. intros x.
    destruct (decide (x ∈ fva)), (decide (x ∈ live)); set_solver.
  - intros x Hx%elem_of_elements. split; [set_solver|]. apply Hh. set_solver.
Qed.

Lemma fv_atom c : is_atom c = true -> fv c = list_to_set (option_list (local_of c)) ∖ C.
Proof.
  destruct c as [k t]. destruct k; try discriminate; intros _; rewrite ?fv_local; simpl;
    first [set_solver | change (fv _) with (∅ : gset nat); set_solver].
Qed.

(** The scrutinee, duplicated first when an arm still needs it. *)
Lemma eval_scrutinee c t thn els X S live next R R1 lb :
  is_atom c = true -> in_scope S live R next -> holds (fv c) R ->
  (ev thn (St (zero (fv c ∖ X) R) lb) = Ok (St R1 lb)) ->
  (ev els (St (zero (fv c ∖ X) R) lb) = Ok (St R1 lb)) ->
  ev (match (match ce_kind c with
             | K_Local x => if is_capture C x || bool_decide (x ∈ X) then Some x else None
             | _ => None
             end) with
      | Some x => dup_ x (CE (K_If c thn els) t)
      | None => CE (K_If c thn els) t
      end) (St R lb) = Ok (St R1 lb).
Proof.
  intros Hc Hs Hh H1 H2. rewrite fv_atom in Hh, H1, H2 by done.
  destruct (is_atom_cases C cb c Hc) as [(x & ty & ->)|[Hl Hev]]; simpl in Hh, H1, H2; cbn [ce_kind].
  - unfold is_capture. destruct (decide (x ∈ C)) as [HC|HC].
    + rewrite bool_decide_eq_true_2 by done. cbn [orb]. rewrite zero_none in H1, H2 by set_solver.
      rewrite eval_dup_captured by done. eapply eval_conditional; [|done..].
      by apply consume_captured.
    + rewrite (bool_decide_eq_false_2 (x ∈ C)) by done. cbn [orb].
      assert (HR : R !! x = Some 1%Z) by (apply Hh; set_solver).
      case_bool_decide as HX.
      * rewrite zero_none in H1, H2 by set_solver. rewrite (eval_dup_owned C cb x _ R lb 1) by done.
        eapply eval_conditional; [|done..]. simpl. erewrite consume_owned; [|done| |]; cycle 1.
        { by rewrite lookup_insert_eq. } { lia. }
        rewrite insert_insert_eq. by rewrite insert_id.
      * eapply eval_conditional; [|done..]. simpl. erewrite consume_owned by done.
        do 2 f_equal. refs_ext. by rewrite HR.
  - rewrite Hl in H1, H2. simpl in H1, H2. rewrite zero_none in H1, H2 by set_solver.
    replace (match ce_kind c with K_Local _ => _ | _ => None end) with (@None LocalId).
    + eapply eval_conditional; [apply Hev|done..].
    + unfold local_of in Hl. by destruct (ce_kind c).
Qed.

Lemma accepted_if c thn els t :
  accepted thn -> accepted els -> accepted (CE (K_If c thn els) t).
Proof.
  intros IHt IHe S live next R lb Ha Hcf Hsc Hb Hs Hh. simpl in Ha, Hcf, Hsc, Hb |- *.
  apply Forall_app in Hb as [_ [Hbt Hbe]%Forall_app].
  rewrite fv_if in Hh |- *.
  apply andb_true_iff in Ha as [[Hc Hat]%andb_true_iff Hae].
  apply andb_true_iff in Hcf as [Hct Hce].
  apply andb_true_iff in Hsc as [[_ Hst]%andb_true_iff Hse].
  set (R0 := zero (fv c ∖ (live ∪ fv thn ∪ fv els)) R).
  assert (Hh0 : holds (fv thn ∪ fv els) R0).
  { apply holds_zero; [|set_solver]. eapply holds_sub; [done|set_solver]. }
  assert (Hs0 : in_scope S live R0 next) by by apply in_scope_zero.
  pose proof (fv_captures C thn) as HCt. pose proof (fv_captures C els) as HCe.
  destruct (IHt S live next (zero (fv els ∖ fv thn ∖ live) R0) lb)
    as (thn' & n1 & Et & Hn1 & Hevt); try done.
  { by apply in_scope_zero. } { apply holds_zero; [|set_solver]. eapply holds_sub; [done|set_solver]. }
  destruct (IHe S live n1 (zero (fv thn ∖ fv els ∖ live) R0) lb)
    as (els' & n2 & Ee & Hn2 & Heve); try done.
  { eapply Forall_impl; [exact Hbe|]. simpl. lia. }
  { by eapply in_scope_next, Hn1; apply in_scope_zero. }
  { apply holds_zero; [|set_solver]. eapply holds_sub; [done|set_solver]. }
  unfold conditional, mbind, sm_bind. rewrite Et, Ee. eexists _, _. split_and!; [done|lia|].
  replace (zero ((fv c ∪ fv thn ∪ fv els) ∖ live) R) with
    (zero ((fv thn ∪ fv els) ∖ live) R0).
  2:{ unfold R0. rewrite zero_zero. f_equal. apply set_eq. intros x.
      destruct (decide (x ∈ fv thn)), (decide (x ∈ fv els)); set_solver. }
  eapply eval_scrutinee; try done.
  - eapply holds_sub; [done|set_solver].
  - by apply eval_arm.
  - replace (live ∪ fv thn ∪ fv els) with (live ∪ fv els ∪ fv thn) by set_solver.
    replace (zero (fv c ∖ _) R) with R0 by (unfold R0; f_equal; set_solver).
    replace (fv thn ∪ fv els) with (fv els ∪ fv thn) in * by set_solver.
    by apply eval_arm.
Qed.

(** ** Bindings *)

(** A bound slot the body does not use is dropped at once. *)
Lemma eval_bound_body l b b' S live R1 lb :
  l ∉ S -> C ⊆ S -> live ⊆ S -> R1 !! l = None -> holds (fv b ∖ {[l]}) R1 ->
  (forall R', R' = <[l := if decide (l ∈ fv b) then 1%Z else 0%Z]> R1 ->
     ev b' (St R' lb) = Ok (St (zero (fv b ∖ live) R') lb)) ->
  exists R2,
    ev (if negb (bool_decide (l ∈ fv b)) && negb (is_capture C l) then drop_ l b' else b')
      (St (<[l:=1%Z]> R1) lb) = Ok (St R2 lb) ∧
    R2 !! l = Some 0%Z ∧ delete l R2 = zero (fv b ∖ live) R1.
Proof.
  intros HlS HCS HlvS Hl Hh Hb. specialize (Hb _ eq_refl).
  unfold is_capture. rewrite (bool_decide_eq_false_2 (l ∈ C)) by set_solver.
  eexists (zero (fv b ∖ live) (<[l := if decide (l ∈ fv b) then 1%Z else 0%Z]> R1)).
  split_and!.
  - rewrite <- Hb. case_bool_decide as Hin; cbn [negb andb].
    + by rewrite decide_True.
    + rewrite decide_False by done.
      rewrite (eval_drop C cb l _ _ lb 1); [|set_solver|by rewrite lookup_insert_eq|lia].
      by rewrite insert_insert_eq.
  - rewrite lookup_zero. destruct (decide (l ∈ fv b)) as [Hin|Hin].
    + rewrite decide_True by set_solver. by rewrite lookup_insert_eq.
    + rewrite decide_False by set_solver. by rewrite lookup_insert_eq.
  - by apply zero_delete.
Qed.

Lemma zero_seq fvv fvb live l (R : gmap LocalId Z) :
  R !! l = None ->
  zero (fvb ∖ live) (zero (fvv ∖ (fvb ∖ {[l]} ∪ live)) R) =
  zero ((fvv ∪ fvb ∖ {[l]}) ∖ live) R.
Proof.
  intros Hl. rewrite zero_zero. apply zero_ext. intros x [n Hx].
  assert (x <> l) by congruence. destruct (decide (x ∈ fvb)); set_solver.
Qed.

Lemma holds_bound b l S live R next :
  in_scope S live R next -> l ∉ S -> holds (fv b ∖ {[l]}) R ->
  holds (fv b) (<[l := if decide (l ∈ fv b) then 1%Z else 0%Z]> R).
Proof.
  intros Hs Hl Hh x Hx. destruct (decide (l = x)) as [->|Hne].
  - by rewrite lookup_insert_eq, decide_True.
  - rewrite lookup_insert_ne by done. apply Hh. set_solver.
Qed.

Lemma in_scope_bound l n S live R next :
  in_scope S live R next -> l < next -> in_scope ({[l]} ∪ S) live (<[l := n]> R) next.
Proof. intros [] Hl. split; [set_solver..|]. intros x [->%elem_of_singleton|]%elem_of_union; auto. Qed.

Lemma zero_lookup_none X R l : R !! l = None -> zero X R !! l = None.
Proof. intros H. rewrite lookup_zero, H. by case_decide. Qed.

Lemma zero_insert X R l n : l ∉ X -> zero X (<[l:=n]> R) = <[l:=n]> (zero X R).
Proof.
  intros Hl. apply map_eq. intros x. rewrite lookup_zero. destruct (decide (l = x)) as [->|].
  - by rewrite decide_False, !lookup_insert_eq.
  - by rewrite !lookup_insert_ne, lookup_zero.
Qed.

Ltac holds_tac := match goal with H : holds (_ ∪ _) _ |- _ => eapply holds_sub; [exact H|set_solver +] end.

(** The body of a binding, from any reference state that still owns what it uses. *)
Definition body_runs (l : LocalId) (b b' : CExpr) (S live : gset LocalId)
    (lb : option (list bool)) : Prop :=
  forall R1, dom R1 ⊆ S -> R1 !! l = None -> holds (fv b ∖ {[l]}) R1 -> exists R2,
    ev (if negb (bool_decide (l ∈ fv b)) && negb (is_capture C l) then drop_ l b' else b')
      (St (<[l:=1%Z]> R1) lb) = Ok (St R2 lb) ∧
    R2 !! l = Some 0%Z ∧ delete l R2 = zero (fv b ∖ live) R1.

Lemma accepted_body l b S live R next lb :
  accepted b -> anf_form b = true -> conflict_free C cb b = true ->
  scoped ({[l]} ∪ S) b = true -> Forall (fun x => x < next) (binders b) ->
  l ∉ S -> l < next -> in_scope S live R next -> holds (fv b ∖ {[l]}) R ->
  exists b' n1, owned C cb b live next = Some (b', n1) ∧ next <= n1 ∧ body_runs l b b' S live lb.
Proof.
  intros IHb Hab Hcb Hsb Hbb HlS Hbl Hs Hh.
  assert (Hgo : forall R1, dom R1 ⊆ S -> R1 !! l = None -> holds (fv b ∖ {[l]}) R1 ->
    exists b' n1, owned C cb b live next = Some (b', n1) ∧ next <= n1 ∧
      ev b' (St (<[l := if decide (l ∈ fv b) then 1%Z else 0%Z]> R1) lb) =
      Ok (St (zero (fv b ∖ live) (<[l := if decide (l ∈ fv b) then 1%Z else 0%Z]> R1)) lb)).
  { intros R1 Hd1 Hl1 Hh1.
    assert (Hs1 : in_scope S live R1 next) by (by destruct Hs).
    apply (IHb ({[l]} ∪ S)); try done; [by apply in_scope_bound|by eapply holds_bound]. }
  pose proof (in_scope_none _ _ _ _ _ Hs HlS) as HRl. destruct Hs as [HC Hlv HdR Hlt].
  destruct (Hgo R HdR HRl Hh) as (b' & n1 & Eb & Hn1 & _).
  exists b', n1. split_and!; [done..|]. intros R1 Hd1 Hl1 Hh1.
  apply (eval_bound_body l b b' S); try done. intros R' ->.
  destruct (Hgo R1 Hd1 Hl1 Hh1) as (b2 & n2 & Eb2 & _ & Hev). by simplify_eq.
Qed.

(** The value's references released, the body runs on what is left. *)
Lemma eval_binding l v v' b b' t S live R next lb :
  let lv := fv b ∖ {[l]} ∪ live in
  in_scope S live R next -> l ∉ S -> holds (fv v ∪ fv b ∖ {[l]}) R ->
  body_runs l b b' S live lb -> peek_parent v' = None ->
  ev v' (St R lb) = Ok (St (zero (fv v ∖ lv) R) lb) ->
  ev (CE (K_Let l v' (if negb (bool_decide (l ∈ fv b)) && negb (is_capture C l)
                      then drop_ l b' else b')) t) (St R lb) =
    Ok (St (zero ((fv v ∪ fv b ∖ {[l]}) ∖ live) R) lb).
Proof.
  intros lv Hs HlS Hh Hb Hpk Hv. pose proof (in_scope_none _ _ _ _ _ Hs HlS) as HRl.
  destruct (Hb (zero (fv v ∖ lv) R)) as (R2 & Hb2 & Hz2 & Hdel).
  { rewrite dom_zero. apply Hs. } { by apply zero_lookup_none. }
  { apply holds_zero; [holds_tac|unfold lv; set_solver +]. }
  replace (zero ((fv v ∪ fv b ∖ {[l]}) ∖ live) R) with (delete l R2).
  - apply (eval_let C cb _ _ _ _ _ (zero (fv v ∖ lv) R)); try done. by apply zero_lookup_none.
  - rewrite Hdel. by apply zero_seq.
Qed.

(** A projection is bound first; the slots it reads last are dropped after it. *)
Lemma eval_binding_projection l v b b' t S live R next lb :
  let lv := fv b ∖ {[l]} ∪ live in
  anf_form v = true -> is_projection v = true ->
  in_scope S live R next -> l ∉ S -> holds (fv v ∪ fv b ∖ {[l]}) R ->
  body_runs l b b' S live lb ->
  ev (CE (K_Let l v (dropify (dead_borrows C (projection_borrows v) lv)
       (if negb (bool_decide (l ∈ fv b)) && negb (is_capture C l)
        then drop_ l b' else b'))) t) (St R lb) =
    Ok (St (zero ((fv v ∪ fv b ∖ {[l]}) ∖ live) R) lb).
Proof.
  intros lv Hav Hp Hs HlS Hh Hb. pose proof (in_scope_none _ _ _ _ _ Hs HlS) as HRl.
  assert (Hhv : holds (fv v) R) by holds_tac.
  destruct (eval_projection v R lb Hav Hp Hhv) as [Hev Hpk].
  pose proof (fun x => dead_borrows_holds v lv R x Hav Hp Hhv) as Hd.
  destruct (Hb (zero (fv v ∖ lv) R)) as (R2 & Hb2 & Hz2 & Hdel).
  { rewrite dom_zero. apply Hs. } { by apply zero_lookup_none. }
  { apply holds_zero; [holds_tac|unfold lv; set_solver +]. }
  replace (zero ((fv v ∪ fv b ∖ {[l]}) ∖ live) R) with (delete l R2).
  - apply (eval_let C cb _ _ _ _ _ R); try done. rewrite eval_dropify.
    + rewrite <- Hb2. f_equal. f_equal. rewrite <- zero_dead_borrows by done.
      apply zero_insert. rewrite elem_of_list_to_set. intros Hin. destruct (Hd l Hin). congruence.
    + intros x Hx. destruct (Hd x Hx). split; [done|]. rewrite lookup_insert_ne; congruence.
  - rewrite Hdel. by apply zero_seq.
Qed.

Lemma accepted_let l v b t :
  (forall live next v' next', anf_form v = true ->
     owned C cb v live next = Some (v', next') -> peek_parent v' = None) ->
  accepted v -> accepted b -> accepted (CE (K_Let l v b) t).
Proof.
  intros Hpk IHv IHb S live next R lb Ha Hcf Hsc Hbd Hs Hh. simpl in Ha, Hcf, Hsc, Hbd.
  cbn [owned]. rewrite fv_let in Hh |- *.
  apply andb_true_iff in Ha as [Hav Hab]. apply andb_true_iff in Hcf as [Hcv Hcb].
  apply andb_true_iff in Hsc as [[Hsv HlS]%andb_true_iff Hsb].
  apply bool_decide_eq_true in HlS.
  apply Forall_app in Hbd as [Hbv [Hbl Hbb]%Forall_cons].
  destruct (accepted_body l b S live R next lb) as (b' & n1 & Eb & Hn1 & Hb); try done; [holds_tac|].
  unfold binding, mbind, sm_bind. rewrite Eb. destruct (is_projection v) eqn:Hp.
  { eexists _, _. split_and!; [done|done|]. by eapply eval_binding_projection. }
  pose proof (holds_scope _ _ _ _ _ Hh Hs).
  destruct (IHv S (fv b ∖ {[l]} ∪ live) n1 R lb) as (v' & n2 & Ev & Hn2 & Hevv); try done.
  { eapply Forall_impl; [exact Hbv|]. simpl. lia. }
  { eapply in_scope_live; [by eapply in_scope_next|].
    pose proof (scope_live _ _ _ _ Hs). set_solver. }
  { holds_tac. }
  rewrite Ev. eexists _, _. split_and!; [done|lia|]. eapply eval_binding; eauto.
Qed.

(** ** Multi-result bindings *)

Lemma each_bind err ls : forall i R lb,
  NoDup ls -> (forall l, l ∈ ls -> R !! l = None) ->
  each (fun _ l s => bind_slot (err l) l s) i ls (St R lb) = Ok (St (ones ls R) lb).
Proof.
  induction ls as [|l ls IH]; intros i R lb Hnd Hfr; [done|].
  apply NoDup_cons in Hnd as [Hl Hnd]. simpl.
  assert (Hb : bind_slot (err l) l (St R lb) = Ok (St (<[l:=1%Z]> R) lb)).
  { unfold bind_slot. simpl. by rewrite Hfr by set_solver +. }
  rewrite Hb. simpl. apply IH; [done|].
  intros y Hy. rewrite lookup_insert_ne by (intros ->; done). apply Hfr. by right.
Qed.

Lemma each_unbind err ls : forall i R lb,
  NoDup ls -> (forall l, l ∈ ls -> R !! l = Some 0%Z) ->
  each (fun _ l s => unbind_slot (err l) l s) i ls (St R lb) = Ok (St (foldr delete R ls) lb).
Proof.
  induction ls as [|l ls IH]; intros i R lb Hnd Hz; [done|].
  apply NoDup_cons in Hnd as [Hl Hnd]. simpl.
  assert (Hu : unbind_slot (err l) l (St R lb) = Ok (St (delete l R) lb)).
  { unfold unbind_slot. simpl. by rewrite Hz by set_solver +. }
  rewrite Hu. simpl. rewrite IH; [|done|].
  - f_equal. f_equal. clear -Hl. induction ls as [|k ls IH]; [done|]. simpl.
    rewrite IH by set_solver. apply delete_delete.
  - intros y Hy. rewrite lookup_delete_ne by (intros ->; done). apply Hz. by right.
Qed.

Lemma eval_letmany ls v b t R R1 R2 lb :
  NoDup ls -> ev v (St R lb) = Ok (St R1 lb) -> (forall l, l ∈ ls -> R1 !! l = None) ->
  ev b (St (ones ls R1) lb) = Ok (St R2 lb) -> (forall l, l ∈ ls -> R2 !! l = Some 0%Z) ->
  ev (CE (K_LetMany ls v b) t) (St R lb) = Ok (St (foldr delete R2 ls) lb).
Proof.
  intros Hnd Hv Hfr Hb Hz. cbn [eval]. rewrite Hv. cbn [mbind result_bind].
  rewrite each_bind by done. cbn [mbind result_bind]. rewrite Hb. cbn [mbind result_bind].
  by rewrite each_unbind.
Qed.

Definition unused_of (b : CExpr) (ls : list LocalId) : list LocalId :=
  List.filter (fun l => negb (bool_decide (l ∈ fv b))) ls.

Lemma elem_of_unused b ls x : x ∈ unused_of b ls ↔ x ∈ ls ∧ x ∉ fv b.
Proof.
  unfold unused_of. rewrite list_elem_of_In, filter_In, <- list_elem_of_In.
  case_bool_decide; simpl; naive_solver.
Qed.

Definition many_runs (ls : list LocalId) (b b' : CExpr) (S live : gset LocalId)
    (lb : option (list bool)) : Prop :=
  forall R1, dom R1 ⊆ S -> holds (fv b ∖ list_to_set ls) R1 -> exists R2,
    ev (dropify (unused_of b ls) b') (St (ones ls R1) lb) = Ok (St R2 lb) ∧
    (forall l, l ∈ ls -> R2 !! l = Some 0%Z) ∧ foldr delete R2 ls = zero (fv b ∖ live) R1.

Lemma in_scope_ones ls S live R next :
  in_scope S live R next -> Forall (fun l => l < next) ls ->
  in_scope (list_to_set ls ∪ S) live (ones ls R) next.
Proof.
  intros [HC Hl HdR Hlt] Hls. rewrite Forall_forall in Hls. split; [set_solver..| |].
  - intros x [n Hx]%elem_of_dom. rewrite lookup_ones in Hx.
    case_decide; [set_solver|]. apply elem_of_union. right. apply HdR, elem_of_dom. eauto.
  - intros x [Hx%elem_of_list_to_set|]%elem_of_union; auto.
Qed.

Lemma accepted_many ls b S live R next lb :
  accepted b -> anf_form b = true -> conflict_free C cb b = true ->
  scoped (list_to_set ls ∪ S) b = true -> Forall (fun x => x < next) (binders b) ->
  list_to_set ls ## S -> Forall (fun l => l < next) ls -> in_scope S live R next ->
  holds (fv b ∖ list_to_set ls) R ->
  exists b' n1, owned C cb b live next = Some (b', n1) ∧ next <= n1 ∧ many_runs ls b b' S live lb.
Proof.
  intros IHb Hab Hcb Hsb Hbb HlS Hbl Hs Hh.
  assert (Hgo : forall R1, dom R1 ⊆ S -> holds (fv b ∖ list_to_set ls) R1 ->
    let R' := zero (list_to_set (unused_of b ls)) (ones ls R1) in
    exists b' n1, owned C cb b live next = Some (b', n1) ∧ next <= n1 ∧
      ev b' (St R' lb) = Ok (St (zero (fv b ∖ live) R') lb)).
  { intros R1 Hd1 Hh1 R'. assert (Hs1 : in_scope S live R1 next) by (by destruct Hs).
    apply (IHb (list_to_set ls ∪ S)); try done.
    - by apply in_scope_zero, in_scope_ones.
    - intros x Hx. unfold R'. rewrite lookup_zero, lookup_ones, decide_False.
      + case_decide; [done|]. apply Hh1. set_solver.
      + rewrite elem_of_list_to_set, elem_of_unused. tauto. }
  pose proof Hs as [HC Hlv HdR Hlt].
  destruct (Hgo R HdR Hh) as (b' & n1 & Eb & Hn1 & _).
  exists b', n1. split_and!; [done..|]. intros R1 Hd1 Hh1.
  destruct (Hgo R1 Hd1 Hh1) as (b2 & n2 & Eb2 & _ & Hev). simplify_eq.
  eexists. split_and!.
  - rewrite eval_dropify; [exact Hev|]. intros x Hx%elem_of_unused.
    split; [|by rewrite lookup_ones, decide_True by tauto].
    clear -Hx HC HlS. set_solver.
  - intros l Hl. rewrite zero_zero, lookup_zero, lookup_ones, (decide_True (P := l ∈ ls)) by done.
    rewrite decide_True; [done|]. clear -Hl HlS Hlv.
    destruct (decide (l ∈ fv b)); rewrite elem_of_union, elem_of_list_to_set, elem_of_unused; set_solver.
  - assert (Hn : forall t, t ∈ ls -> R1 !! t = None).
    { intros t Ht. apply not_elem_of_dom. clear -Ht HlS Hd1. set_solver. }
    rewrite zero_zero, delete_ones by done. apply zero_ext. intros x [n Hx].
    rewrite elem_of_union, elem_of_list_to_set, elem_of_unused.
    assert (x ∉ ls) by (intros Hin; rewrite Hn in Hx; done). tauto.
Qed.

Lemma shift_positions bs ops : forall i,
  consumed_from (false :: bs) (S i) ops = consumed_from bs i ops ∧
  borrowed_from (false :: bs) (S i) ops = borrowed_from bs i ops.
Proof.
  induction ops as [|a ops IH]; intros i; [done|]. simpl. unfold consumes.
  destruct (IH (S i)) as [-> ->]. done.
Qed.

(** A multi-result call evaluates its operands in place. *)
Lemma multi_operands_spec v args bs :
  anf_form v = true -> func_global v = true -> multi_operands cb v = Some (args, bs) ->
  forallb is_atom args = true ∧ fv v = fvs C args ∧
  (conflict_free C cb v = true -> no_conflict C bs args = true) ∧
  forall s, ev v s = each (fun i a s => operand C ev a (nth_flag bs i) s) 0 args s.
Proof.
  destruct v as [k t]. destruct k; try discriminate; unfold multi_operands; simpl.
  - destruct (native_result_symbol op false); [|discriminate].
    intros [_ Hat]%andb_true_iff _ [= <- <-]. rewrite fv_prim. done.
  - destruct reuse; [|discriminate]. destruct func as [[] ft]; try discriminate.
    intros Hat _ [= -> <-]. simpl in Hat. rewrite fv_app. split_and!; [done| | |].
    + unfold fvs. rewrite fmap_cons, union_list_cons.
      change (fv (CE (K_Global def) ft)) with (∅ : gset nat). apply union_empty_l_L.
    + unfold no_conflict. simpl. unfold app_borrows. simpl. destruct (shift_positions (cb def (length args)) args 0) as [-> ->].
      done.
    + intros s. simpl. unfold mbind, result_bind. by case_match.
Qed.

Lemma eval_multi ls v args bs b' b t S live R next lb :
  let la := fv b ∖ list_to_set ls ∪ live in
  let dead := dead_from C bs la (consumed_from bs 0 args) 0 args [] in
  forallb is_atom args = true -> no_conflict C bs args = true -> fv v = fvs C args ->
  (forall s, ev v s = each (fun i a s => operand C ev a (nth_flag bs i) s) 0 args s) ->
  NoDup ls -> list_to_set ls ## S -> in_scope S live R next ->
  holds (fv v ∪ fv b ∖ list_to_set ls) R -> many_runs ls b b' S live lb ->
  ev (foldr dup_ (CE (K_LetMany ls v (dropify dead (dropify (unused_of b ls) b'))) t)
       (dups_from C bs la 0 args)) (St R lb) =
    Ok (St (zero ((fv v ∪ fv b ∖ list_to_set ls) ∖ live) R) lb).
Proof.
  intros la dead Hat Hnc Hfv Hev Hnd HlS Hs Hh Hb.
  pose proof (mentioned_fvs C bs args 0 Hat) as Hm. rewrite <- Hfv in Hm.
  assert (HR : forall x, x ∈ mentioned bs args -> x ∉ C -> R !! x = Some 1%Z).
  { intros x Hx HC. apply Hh. rewrite Hm. unfold mentioned in Hx. clear -Hx HC. set_solver. }
  assert (Hls : forall X l, l ∈ ls -> zero X R !! l = None).
  { intros X l Hl. apply zero_lookup_none, (in_scope_none _ _ _ _ _ Hs).
    clear -Hl HlS. set_solver. }
  rewrite eval_dups by (by eapply dups_present).
  pose proof (eval_operation C cb bs args la R lb Hat Hnc HR) as Hop. rewrite <- Hev in Hop.
  set (R1 := zero _ R) in Hop.
  assert (Hd : forall x, x ∈ dead -> x ∉ C ∧ R1 !! x = Some 1%Z).
  { intros x [|(Hx & HC & Hl & Hn)]%elem_of_dead; [set_solver|]. split; [done|].
    unfold R1. rewrite lookup_zero, decide_False by (clear -Hn; set_solver).
    apply HR; [|done]. unfold mentioned. clear -Hx. set_solver. }
  destruct (Hb (zero (list_to_set dead) R1)) as (R2 & Hb2 & Hz2 & Hdel).
  { unfold R1. rewrite !dom_zero. apply Hs. }
  { intros x Hx. unfold R1. rewrite !lookup_zero, !decide_False.
    - apply Hh. clear -Hx. set_solver.
    - unfold la. clear -Hx. set_solver.
    - rewrite elem_of_list_to_set. unfold dead. rewrite elem_of_dead. unfold la.
      clear -Hx. set_solver. }
  rewrite (eval_letmany ls v _ t _ R1 R2 lb); try done.
  - rewrite Hdel. unfold R1. rewrite !zero_zero. do 2 f_equal. apply zero_ext. intros x Hx.
    assert (x ∉ ls) by (intros Hin; rewrite <- (zero_none ∅ R) in Hx by set_solver +;
      rewrite Hls in Hx by done; by destruct Hx).
    rewrite Hm. rewrite !elem_of_union, elem_of_list_to_set. unfold dead. rewrite elem_of_dead.
    unfold la. rewrite !elem_of_difference, !elem_of_union, !elem_of_difference, !elem_of_list_to_set.
    destruct (decide (x ∈ fv b)), (decide (x ∈ consumed_from bs 0 args)); set_solver.
  - intros l Hl. by apply Hls.
  - rewrite eval_dropify.
    + rewrite <- Hb2. do 2 f_equal. apply map_eq. intros x. rewrite lookup_zero, !lookup_ones, lookup_zero.
      destruct (decide (x ∈ ls)) as [Hx|]; [|done]. rewrite decide_False; [done|].
      rewrite elem_of_list_to_set. intros Hin. destruct (Hd x Hin) as [_ HR1].
      unfold R1 in HR1. rewrite Hls in HR1; done.
    + intros x Hx. destruct (Hd x Hx) as [? HR1]. split; [done|]. rewrite lookup_ones, decide_False; [done|].
      intros Hin. unfold R1 in HR1. rewrite Hls in HR1; done.
Qed.

Lemma accepted_letmany ls v b t :
  accepted v -> accepted b -> accepted (CE (K_LetMany ls v b) t).
Proof.
  intros IHv IHb S live next R lb Ha Hcf Hsc Hbd Hs Hh. simpl in Ha, Hcf, Hsc, Hbd.
  cbn [owned]. rewrite fv_letmany in Hh |- *.
  apply andb_true_iff in Ha as [[[Hnd Hfg]%andb_true_iff Hav]%andb_true_iff Hab].
  apply bool_decide_eq_true in Hnd. apply andb_true_iff in Hcf as [Hcv Hcb].
  apply andb_true_iff in Hsc as [[Hsv HlS]%andb_true_iff Hsb]. apply bool_decide_eq_true in HlS.
  apply Forall_app in Hbd as [Hbv [Hbl Hbb]%Forall_app].
  destruct (accepted_many ls b S live R next lb) as (b' & n1 & Eb & Hn1 & Hb); try done; [holds_tac|].
  unfold letmany, mbind, sm_bind. rewrite Eb. fold (unused_of b ls).
  destruct (multi_operands cb v) as [[args bs]|] eqn:Hmo.
  { destruct (multi_operands_spec v args bs Hav Hfg Hmo) as (Hat & Hfv & Hnc & Hev).
    eexists _, _. split_and!; [done|done|]. eapply eval_multi; eauto. }
  pose proof (holds_scope _ _ _ _ _ Hh Hs).
  destruct (IHv S (fv b ∖ list_to_set ls ∪ live) n1 R lb) as (v' & n2 & Ev & Hn2 & Hevv); try done.
  { eapply Forall_impl; [exact Hbv|]. simpl. lia. }
  { eapply in_scope_live; [by eapply in_scope_next|].
    pose proof (scope_live _ _ _ _ Hs). set_solver. }
  { holds_tac. }
  rewrite Ev. eexists _, _. split_and!; [done|lia|].
  destruct (Hb (zero (fv v ∖ (fv b ∖ list_to_set ls ∪ live)) R)) as (R2 & Hb2 & Hz2 & Hdel).
  { rewrite dom_zero. apply Hs. }
  { apply holds_zero; [holds_tac|set_solver +]. }
  assert (Hls : forall l, l ∈ ls -> R !! l = None).
  { intros l Hl. apply (in_scope_none _ _ _ _ _ Hs). clear -Hl HlS. set_solver. }
  rewrite (eval_letmany ls v' _ t _ _ R2 lb Hnd Hevv); try done.
  - rewrite Hdel, zero_zero. do 2 f_equal. apply zero_ext. intros x [n Hx].
    assert (x ∉ ls) by (intros Hin; rewrite Hls in Hx; done).
    destruct (decide (x ∈ fv b)); set_solver.
  - intros l Hl. by apply zero_lookup_none, Hls.
Qed.

(** ** Closures, operations and the whole pass *)

(** A closure's captures are consumed like the operands of a construction. *)
Definition capture_ops (caps : list LocalId) : list CExpr :=
  (fun c => CE (K_Local c) ty_int) <$> caps.

Lemma capture_ops_spec caps : forall i,
  consumed_from [] i (capture_ops caps) = caps ∧ borrowed_from [] i (capture_ops caps) = [] ∧
  forallb is_atom (capture_ops caps) = true.
Proof.
  induction caps as [|c caps IH]; intros i; [done|]. simpl.
  destruct (IH (S i)) as (H1 & H2 & H3). unfold capture_ops in *. by rewrite H1, H2, H3.
Qed.

Lemma closure_dups_ops live caps : forall i,
  closure_dups C live caps = dups_from C [] live i (capture_ops caps).
Proof.
  induction caps as [|c caps IH]; intros i; [done|]. simpl.
  destruct (capture_ops_spec caps (S i)) as (-> & _ & _). by rewrite (IH (S i)).
Qed.

Lemma each_captures f (g : nat -> CExpr -> CkState -> result RcError CkState) caps :
  (forall i j c s, f i c s = g j (CE (K_Local c) ty_int) s) -> forall i j s,
  each f i caps s = each g j (capture_ops caps) s.
Proof.
  intros H. induction caps as [|c caps IH]; intros i j s; [done|]. simpl.
  rewrite (H i j c s). destruct (g j _ s); [|done]. apply IH.
Qed.

Lemma accepted_closure f caps al t : accepted (CE (K_MakeClosure f caps al) t).
Proof.
  intros S live next R lb _ _ _ _ Hs Hh. cbn [owned]. rewrite fv_closure in Hh |- *.
  eexists _, _. split_and!; [done|done|].
  destruct (capture_ops_spec caps 0) as (Hc & Hb & Hat).
  rewrite (closure_dups_ops live caps 0).
  assert (HR : forall x, x ∈ mentioned [] (capture_ops caps) -> x ∉ C -> R !! x = Some 1%Z).
  { unfold mentioned. rewrite Hc, Hb. intros x Hx HxC. apply Hh. set_solver. }
  assert (Hnc : no_conflict C [] (capture_ops caps) = true) by (unfold no_conflict; by rewrite Hb).
  rewrite eval_dups by exact (dups_present C [] (capture_ops caps) live R Hat Hnc HR).
  cbn [eval]. rewrite (each_captures _ (fun i a s => operand C ev a (nth_flag [] i) s) _)
    with (j := 0) by done.
  rewrite eval_operation by done. by rewrite Hc.
Qed.

Lemma accepted_local x t : accepted (CE (K_Local x) t).
Proof.
  intros S live next R lb _ _ _ _ Hs Hh. cbn [owned]. rewrite fv_local in Hh |- *.
  eexists _, _. split_and!; [done|done|]. unfold is_capture.
  destruct (decide (x ∈ C)) as [HC|HC].
  { rewrite bool_decide_eq_true_2 by done. cbn [orb]. rewrite eval_dup_captured by done.
    rewrite zero_none by set_solver +HC. by apply consume_captured. }
  rewrite (bool_decide_eq_false_2 (x ∈ C)) by done. cbn [orb].
  assert (HR : R !! x = Some 1%Z) by (apply Hh; set_solver +HC).
  case_bool_decide as Hl.
  - rewrite (eval_dup_owned C cb x _ R lb 1) by done. simpl.
    rewrite (consume_owned C x _ lb 2); [|done|by rewrite lookup_insert_eq|lia].
    rewrite insert_insert_eq, insert_id by done. rewrite zero_none by set_solver +Hl. done.
  - simpl. rewrite (consume_owned C x _ lb 1) by done. do 2 f_equal.
    apply map_eq. intros y. rewrite lookup_zero. destruct (decide (x = y)) as [->|].
    + rewrite lookup_insert_eq, decide_True by set_solver +HC Hl. by rewrite HR.
    + rewrite lookup_insert_ne, decide_False by set_solver. done.
Qed.

Lemma no_conflict_owned n ops : no_conflict C (replicate n false) ops = true.
Proof.
  unfold no_conflict. replace (borrowed_from _ 0 ops) with (@nil LocalId); [done|].
  generalize 0. induction ops as [|a ops IH]; intros i; [done|]. simpl.
  by rewrite nth_flag_replicate, <- IH.
Qed.

Lemma each_ext {A} f g (xs : list A) : (forall i a s, f i a s = g i a s) -> forall i s,
  each f i xs s = each g i xs s.
Proof.
  intros H. induction xs as [|x xs IH]; intros i s; [done|]. simpl. rewrite H.
  by destruct (g i x s); [apply IH|].
Qed.

Lemma peek_dups ds e : peek_parent e = None -> peek_parent (foldr dup_ e ds) = None.
Proof. by destruct ds. Qed.

Lemma peek_wrap binds e : peek_parent e = None -> peek_parent (wrap_binds binds e) = None.
Proof. by destruct binds. Qed.

Lemma operands_rc_peek ops bs live rebuild next e' next' :
  (forall ops', peek_parent (rebuild ops') = None) ->
  operands_rc C ops bs live rebuild next = Some (e', next') -> peek_parent e' = None.
Proof.
  intros Hr H. unfold operands_rc, mbind, sm_bind in H.
  destruct (pre_bind _ _ _ _) as [[[o b] n]|]; [|done].
  destruct (dead_from _ _ _ _ _ _ _); simpl in H; injection H as <- _;
    apply peek_wrap, peek_dups; [apply Hr|done].
Qed.

(** Ownership never turns a value into a peek. *)
Lemma owned_peek v live next v' next' :
  anf_form v = true -> owned C cb v live next = Some (v', next') -> peek_parent v' = None.
Proof.
  destruct v as [k t]. destruct k; try discriminate; cbn [owned]; intros Ha H;
    try (injection H as <- _; reflexivity);
    try (eapply operands_rc_peek; [|exact H]; by intros []).
  - injection H as <- _. by destruct (_ || _).
  - eapply operands_rc_peek; [|exact H]. intros ops.
    simpl in Ha. apply andb_true_iff in Ha as [Hp _]. by destruct op.
  - unfold conditional, mbind, sm_bind, mret, sm_ret in H. simpl in H. repeat case_match; simplify_eq; done.
  - unfold binding, mbind, sm_bind, mret, sm_ret in H. simpl in H. repeat case_match; simplify_eq; done.
  - unfold letmany, mbind, sm_bind, mret, sm_ret in H. simpl in H. repeat case_match; simplify_eq; try done.
    by apply peek_dups.
  - injection H as <- _. by apply peek_dups.
  - unfold borrow_tail, mbind, sm_bind, mret, sm_ret in H. simpl in H. repeat case_match; simplify_eq; done.
  - unfold borrow_tail, mbind, sm_bind, mret, sm_ret in H. simpl in H. repeat case_match; simplify_eq; done.
Qed.

Lemma each_replicate n ops : forall i s,
  each (fun i a s => operand C ev a (nth_flag (replicate n false) i) s) i ops s =
  each (fun _ a s => ev a s) i ops s.
Proof. apply each_ext. intros i a s. by rewrite nth_flag_replicate. Qed.

Lemma each_shift {A} f g (xs : list A) : (forall i a s, f i a s = g (S i) a s) -> forall i s,
  each f i xs s = each g (S i) xs s.
Proof.
  intros H. induction xs as [|x xs IH]; intros i s; [done|]. simpl. rewrite H.
  by destruct (g (S i) x s); [apply IH|].
Qed.

Lemma eval_app func args al t s :
  ev (CE (K_App func args [] al) t) s =
  each (fun i a s => operand C ev a (nth_flag (false :: app_borrows cb func args) i) s) 0
    (func :: args) s.
Proof.
  cbn [eval each]. change (operand C ev func (nth_flag (false :: _) 0) s) with (ev func s).
  destruct (ev func s) as [s1|]; [|done]. cbn [mbind result_bind].
  rewrite <- (each_shift (fun i a s => operand C ev a (nth_flag match ce_kind func with
    | K_Global def => cb def (length args) | _ => [] end i) s)).
  - unfold mbind, result_bind. match goal with |- match ?m with _ => _ end = _ => by destruct m end.
  - intros i a s'. f_equal. unfold app_borrows.
    destruct (ce_kind func); try done; symmetry; apply nth_flag_replicate.
Qed.

Lemma prim_borrows_types op ops ops' :
  ce_ty <$> ops = ce_ty <$> ops' -> prim_borrows op ops = prim_borrows op ops'.
Proof.
  intros H. assert (Hl : length ops = length ops').
  { rewrite <- (length_fmap ce_ty ops), H. apply length_fmap. }
  destruct ops, ops'; try done. simpl in *. injection H as -> _. by injection Hl as ->.
Qed.

Lemma app_borrows_length func ops ops' :
  ce_ty <$> ops = ce_ty <$> ops' -> app_borrows cb func ops = app_borrows cb func ops'.
Proof.
  intros H. assert (Hl : length ops = length ops').
  { rewrite <- (length_fmap ce_ty ops), H. apply length_fmap. }
  unfold app_borrows. by rewrite Hl.
Qed.

Lemma owned_accept e : accepted e.
Proof.
  induction e as [[k t] IH] using CExpr_children_ind.
  destruct k; simpl in IH; try (by intros S live next R lb Ha);
    try (apply Forall_cons in IH as [IH1 IH]);
    try (apply Forall_cons in IH as [IH2 IH]);
    try (apply Forall_cons in IH as [IH3 _]).
  - intros S live next R lb _ _ _ _ Hs Hh. eexists _, _. split_and!; [done|done|].
    simpl. by rewrite zero_none by set_solver +.
  - apply accepted_local.
  - intros S live next R lb _ _ _ _ Hs Hh. eexists _, _. split_and!; [done|done|].
    simpl. by rewrite zero_none by set_solver +.
  - intros S live next R lb Ha Hcf _ _ Hs Hh. simpl in Ha, Hcf.
    apply andb_true_iff in Ha as [Hp Hat].
    eapply owned_operands; try done; [apply fv_prim|].
    intros ops' R' Hty _. split; [|by destruct op].
    cbn [eval]. by rewrite (prim_borrows_types op ops' args).
  - intros S live next R lb Ha Hcf _ _ Hs Hh. simpl in Ha.
    eapply owned_operands; try done; [apply no_conflict_owned|apply fv_foreign|].
    intros ops' R' _ _. split; [|done]. rewrite each_replicate. cbn [eval].
    by apply each_ext.
  - intros S live next R lb Ha Hcf _ _ Hs Hh. simpl in Ha.
    destruct reuse; [|done]. simpl in Ha, Hcf.
    eapply (owned_operands _ (func :: args) (false :: app_borrows cb func args));
      try done; [apply fv_app|].
    intros [|f' ops'] R' Hty Hhd; [done|]. specialize (Hhd eq_refl). injection Hhd as ->.
    split; [|done]. rewrite eval_app.
    by rewrite (app_borrows_length func ops' args) by (by injection Hty).
  - by apply accepted_if.
  - apply accepted_let; [|done..]. intros live next v' next'. apply owned_peek.
  - intros S live next R lb Ha Hcf _ _ Hs Hh. simpl in Ha.
    eapply owned_operands; try done; [apply no_conflict_owned|apply fv_spread|].
    intros ops' R' _ _. split; [|done]. by rewrite each_replicate.
  - by apply accepted_letmany.
  - apply accepted_closure.
  - intros S live next R lb Ha Hcf _ _ Hs Hh. simpl in Ha. destruct reuse; [done|]. simpl in Ha.
    eapply owned_operands; try done; [apply no_conflict_owned|apply fv_makedata|].
    intros ops' R' _ _. split; [|done]. rewrite each_replicate. cbn [eval].
    unfold mbind, result_bind. by case_match.
  - intros S live next R lb Ha _ _ _ Hs Hh. by apply (accepted_projection _ S).
  - intros S live next R lb Ha _ _ _ Hs Hh. by apply (accepted_projection _ S).
  - intros S live next R lb _ _ _ _ Hs Hh. eexists _, _. split_and!; [done|done|].
    simpl. by rewrite zero_none by set_solver +.
Qed.

(** Insertion returns on every tree in A-normal form. *)
Lemma owned_total e : anf_form e = true -> forall live n, is_Some (owned C cb e live n).
Proof.
  induction e as [[k t] IH] using CExpr_children_ind. intros Ha live n.
  destruct k; simpl in IH; try done; try (apply Forall_cons in IH as [IH1 IH]);
    try (apply Forall_cons in IH as [IH2 IH]); try (apply Forall_cons in IH as [IH3 _]); cbn [owned]; simpl in Ha;
    try (by eexists).
  - apply andb_true_iff in Ha as [_ Ha]. by apply operands_rc_total.
  - by apply operands_rc_total.
  - destruct reuse; [|done]. by apply operands_rc_total.
  - apply andb_true_iff in Ha as [[_ Ht]%andb_true_iff He]. unfold conditional, mbind, sm_bind.
    destruct (IH2 Ht live n) as [[t1 n1] ->]. destruct (IH3 He live n1) as [[t2 n2] ->]. by eexists.
  - apply andb_true_iff in Ha as [Hv Hb]. unfold binding, mbind, sm_bind.
    destruct (IH2 Hb live n) as [[b1 n1] ->]. destruct (is_projection value); [by eexists|].
    destruct (IH1 Hv (fv_owned C body ∖ {[local]} ∪ live) n1) as [[v1 n2] ->]. by eexists.
  - by apply operands_rc_total.
  - apply andb_true_iff in Ha as [[_ Hv]%andb_true_iff Hb]. unfold letmany, mbind, sm_bind.
    destruct (IH2 Hb live n) as [[b1 n1] ->]. destruct (multi_operands _ _) as [[args bs]|]; [by eexists|].
    destruct (IH1 Hv (fv_owned C body ∖ list_to_set locals ∪ live) n1) as [[v1 n2] ->]. by eexists.
  - destruct reuse; [done|]. by apply operands_rc_total.
  - unfold borrow_tail. destruct (dead_borrows _ _ _); by eexists.
  - unfold borrow_tail. destruct (dead_borrows _ _ _); by eexists.
Qed.

(** C2: reference-count insertion is total and sound.  On every tree in A-normal form, from any
    set of live slots, [owned] returns.  If besides no operation of the tree lends and consumes
    one owned local, and its binders are fresh, the verifier walks the output without an error
    from any state that holds one reference for each free slot, releasing exactly the free
    slots that are not live afterwards and leaving every other count, and the borrow state, as
    it found them. *)
Theorem owned_sound e S live next R lb :
  anf_form e = true ->
  exists e' next', owned C cb e live next = Some (e', next') ∧
    (conflict_free C cb e = true -> scoped S e = true -> Forall (fun x => x < next) (binders e) ->
     in_scope S live R next -> holds (fv e) R ->
     next <= next' ∧ ev e' (St R lb) = Ok (St (zero (fv e ∖ live) R) lb)).
Proof.
  intros Ha. destruct (owned_total e Ha live next) as [[e' next'] E]. exists e', next'. split; [done|].
  intros Hc Hs Hb Hi Hh. destruct (owned_accept e S live next R lb) as (e2 & n2 & E2 & Hn & Hev); try done.
  rewrite E in E2. by injection E2 as <- <-.
Qed.
End Owned.

Lemma owned_sound_witness :
  exists e' n', owned ∅ Sample.borrows Sample.flat ∅ 4 = Some (e', n') ∧ 4 <= n' ∧
    eval ∅ Sample.borrows e' (St (list_to_map [(0, 1%Z); (1, 1%Z); (2, 1%Z)]) None) =
    Ok (St (zero (fv_owned ∅ Sample.flat ∖ ∅) (list_to_map [(0, 1%Z); (1, 1%Z); (2, 1%Z)])) None).
Proof.
  destruct (owned_sound ∅ Sample.borrows Sample.flat (list_to_set [0; 1; 2]) ∅ 4
    (list_to_map [(0, 1%Z); (1, 1%Z); (2, 1%Z)]) None) as (e' & n' & E & H); [vm_compute; reflexivity|].
  exists e', n'. split; [exact E|]. apply H; try (vm_compute; reflexivity).
  - repeat constructor.
  - split.
    + intros x Hx. by apply not_elem_of_empty in Hx.
    + intros x Hx. by apply not_elem_of_empty in Hx.
    + intros x Hx. rewrite dom_list_to_map in Hx. exact Hx.
    + intros x Hx%elem_of_list_to_set. revert x Hx. apply below_list. reflexivity.
  - intros x Hx. assert (Hs : fv_owned ∅ Sample.flat = list_to_set [0; 1; 2]) by (vm_compute; reflexivity).
    rewrite Hs in Hx. apply elem_of_list_to_set in Hx.
    repeat (apply elem_of_cons in Hx as [->|Hx]; [reflexivity|]). by apply elem_of_nil in Hx.
Defined.
