(* ===== verification/Sem.v ===== *)
(** * What a Core tree computes

    An evaluator of Core, parametric in the values, the world its effects thread
    and the meaning of each operation.  It fixes the order of evaluation, scoping
    and control flow - what normalization and reference counting must preserve -
    and ignores what only manages memory: counts, reset cells and reuse tokens.  The
    tail-call nodes, which a later pass inserts, are undefined. *)

From S2P Require Import Prelude Types Ir Rc RcState.
From stdpp Require Import gmap list strings.
From Stdlib Require Import ZArith Lia.

(** The operation of a node, without its operands. *)
Inductive Op :=
| O_Prim (op : Prim)
| O_Foreign (symbol : string) (marshalled : bool)
| O_App (alloc : ClosureAlloc)
| O_Spread
| O_MakeData (tag scalars : Z) (niche : option NicheKind)
| O_Closure (func : FnId) (alloc : ClosureAlloc)
| O_Tag (niche : option NicheKind)
| O_Field (index : FieldIndex) (scalar : bool) (niche : option NicheKind).

(** The meaning of literals, operations, conditions and multi-result values. *)
Class Interp (V W : Type) := {
  i_lit : Lit -> V;
  i_global : DefId -> V;
  i_error : V;
  i_op : Op -> Ty -> list V -> SM W V;
  i_bool : V -> option bool;
  i_split : nat -> V -> option (list V);
}.

Section Sem.
Context {V W : Type} `{Interp V W}.

Definition Env : Type := LocalId -> V.
Definition upd (rho : Env) (x : LocalId) (v : V) : Env :=
  fun y => if decide (y = x) then v else rho y.

Fixpoint upds (rho : Env) (xs : list LocalId) (vs : list V) : Env :=
  match xs, vs with
  | x :: xs, v :: vs => upds (upd rho x v) xs vs
  | _, _ => rho
  end.

Fixpoint sem (e : CExpr) (rho : Env) : SM W V :=
  match e with
  | CE kind ty =>
      match kind with
      | K_Lit l => mret (i_lit l)
      | K_Local x => mret (rho x)
      | K_Global d => mret (i_global d)
      | K_Error => mret i_error
      | K_Prim op args => vs ← smap (fun a => sem a rho) args; i_op (O_Prim op) ty vs
      | K_Foreign s args m => vs ← smap (fun a => sem a rho) args; i_op (O_Foreign s m) ty vs
      | K_App func args _ alloc =>
          f ← sem func rho;
          vs ← smap (fun a => sem a rho) args;
          i_op (O_App alloc) ty (f :: vs)
      | K_If cond thn els =>
          c ← sem cond rho;
          match i_bool c with
          | Some true => sem thn rho
          | Some false => sem els rho
          | None => panic
          end
      | K_Let l value body => v ← sem value rho; sem body (upd rho l v)
      | K_Spread cs => vs ← smap (fun a => sem a rho) cs; i_op O_Spread ty vs
      | K_LetMany ls value body =>
          v ← sem value rho;
          match i_split (length ls) v with
          | Some vs => if decide (length vs = length ls) then sem body (upds rho ls vs) else panic
          | None => panic
          end
      | K_MakeClosure f caps alloc => i_op (O_Closure f alloc) ty (rho <$> caps)
      | K_MakeData tag args _ scalars niche =>
          vs ← smap (fun a => sem a rho) args; i_op (O_MakeData tag scalars niche) ty vs
      | K_DataTag base niche => v ← sem base rho; i_op (O_Tag niche) ty [v]
      | K_DataField base index scalar niche =>
          v ← sem base rho;
          i_op (O_Field index scalar niche) ty
            (v :: match index with FI_Dyn _ evidence => [rho evidence] | FI_Const _ => [] end)
      | K_Reset value _ body => _ ← sem value rho; sem body rho
      | K_FreeReuse _ body | K_Dup _ body | K_Drop _ body => sem body rho
      | K_Join _ _ | K_Recur _ | K_HoleStart _ _ | K_HoleFill _ _ _ | K_HoleClose _ _ => panic
      end
  end.

(** Bindings run in order, each extending the environment. *)
Fixpoint run_binds (bs : Binds) (rho : Env) : SM W Env :=
  match bs with
  | [] => mret rho
  | (l, v) :: bs => x ← sem v rho; run_binds bs (upd rho l x)
  end.

(** The value of an atom. *)
Definition atom_val (rho : Env) (a : CExpr) : V :=
  match ce_kind a with
  | K_Lit l => i_lit l
  | K_Local x => rho x
  | K_Global d => i_global d
  | _ => i_error
  end.

(** ** Laws *)

Lemma sm_bind_ext {A B} (m m' : SM W A) (k k' : A -> SM W B) w :
  m w = m' w -> (forall a w, k a w = k' a w) -> (m ≫= k) w = (m' ≫= k') w.
Proof. intros Hm Hk. unfold mbind, sm_bind. rewrite Hm. by destruct (m' w) as [[? ?]|]. Qed.

Lemma sm_bind_assoc {A B D} (m : SM W A) (k : A -> SM W B) (h : B -> SM W D) w :
  ((m ≫= k) ≫= h) w = (m ≫= fun a => k a ≫= h) w.
Proof. unfold mbind, sm_bind. by destruct (m w) as [[? ?]|]. Qed.

(** Two runs of one action followed by continuations that agree where it succeeds. *)
Lemma sm_bind_run {A B} (m : SM W A) (k k' : A -> SM W B) w :
  (forall a w', m w = Some (a, w') -> k a w' = k' a w') -> (m ≫= k) w = (m ≫= k') w.
Proof. intros Hk. unfold mbind, sm_bind. destruct (m w) as [[? ?]|]; [by apply Hk|done]. Qed.

Lemma smap_app {A B} (f : A -> SM W B) xs ys w :
  smap f (xs ++ ys) w = (us ← smap f xs; vs ← smap f ys; mret (us ++ vs)) w.
Proof.
  revert w; induction xs as [|x xs IH]; intros w; simpl.
  - unfold mbind, sm_bind, mret, sm_ret. by destruct (smap f ys w) as [[? ?]|].
  - rewrite sm_bind_assoc. apply sm_bind_ext; [done|]. intros a s1.
    rewrite sm_bind_assoc. transitivity (((us ← smap f xs; vs ← smap f ys; mret (us ++ vs)) ≫=
      fun l => mret (a :: l)) s1); [apply sm_bind_ext; [apply IH|done]|].
    rewrite sm_bind_assoc. apply sm_bind_ext; [done|]. intros us s2.
    by rewrite sm_bind_assoc.
Qed.

Lemma smap_ext {A B} (f g : A -> SM W B) xs w :
  Forall (fun x => forall w, f x w = g x w) xs -> smap f xs w = smap g xs w.
Proof.
  intros Hx. revert w. induction Hx as [|x xs Hx _ IH]; intros w; [done|].
  simpl. apply sm_bind_ext; [done|]. intros a w'. by apply sm_bind_ext.
Qed.

Lemma sem_wrap bs r : forall rho w,
  sem (wrap_binds bs r) rho w = (rho' ← run_binds bs rho; sem r rho') w.
Proof.
  induction bs as [|[l v] bs IH]; intros rho w; [done|]. simpl.
  rewrite sm_bind_assoc. apply sm_bind_ext; [done|]. intros x w'. by rewrite IH.
Qed.

Lemma run_binds_app bs1 bs2 : forall rho w,
  run_binds (bs1 ++ bs2) rho w = (rho' ← run_binds bs1 rho; run_binds bs2 rho') w.
Proof.
  induction bs1 as [|[l v] bs1 IH]; intros rho w; [done|]. simpl.
  rewrite sm_bind_assoc. apply sm_bind_ext; [done|]. intros x w'. by rewrite IH.
Qed.

Lemma sem_atom a rho w : is_atom a = true -> sem a rho w = Some (atom_val rho a, w).
Proof. by destruct a as [[] ?]. Qed.

Lemma sem_atoms rs rho w :
  forallb is_atom rs = true -> smap (fun a => sem a rho) rs w = Some (atom_val rho <$> rs, w).
Proof.
  revert w. induction rs as [|a rs IH]; intros w; [done|]. simpl.
  intros [Ha Hrs]%andb_true_iff. unfold mbind, sm_bind. by rewrite sem_atom, IH.
Qed.

(** ** Environments that agree on a scope *)

Definition agree (S : gset LocalId) (r1 r2 : Env) : Prop := forall x, x ∈ S -> r1 x = r2 x.

Lemma agree_upd S r1 r2 l v : agree S r1 r2 -> agree ({[l]} ∪ S) (upd r1 l v) (upd r2 l v).
Proof.
  intros Ha x Hx. unfold upd. case_decide; [done|]. apply Ha. set_solver.
Qed.

Lemma agree_upds ls : forall S r1 r2 vs,
  agree S r1 r2 -> length vs = length ls ->
  agree (list_to_set ls ∪ S) (upds r1 ls vs) (upds r2 ls vs).
Proof.
  induction ls as [|l ls IH]; intros S r1 r2 vs Ha Hl; simpl.
  - intros x Hx. apply Ha. set_solver.
  - destruct vs as [|v vs]; [done|]. simpl in Hl.
    replace ({[l]} ∪ list_to_set ls ∪ S) with (list_to_set ls ∪ ({[l]} ∪ S)) by set_solver +.
    apply IH; [by apply agree_upd|lia].
Qed.

(** A tree only looks at the slots in its scope. *)
Lemma sem_agree e : forall S r1 r2 w,
  scoped S e = true -> agree S r1 r2 -> sem e r1 w = sem e r2 w.
Proof.
  induction e as [[k t] IH] using CExpr_children_ind. intros S r1 r2 w Hs Ha.
  assert (Hargs : forall args w, Forall (fun e => forall S r1 r2 w,
      scoped S e = true -> agree S r1 r2 -> sem e r1 w = sem e r2 w) args ->
    forallb (scoped S) args = true ->
    smap (fun a => sem a r1) args w = smap (fun a => sem a r2) args w).
  { intros args w' Hf Hsc. apply smap_ext. rewrite forallb_forall in Hsc.
    rewrite Forall_forall in Hf |- *. intros a Hin w''.
    apply (Hf a Hin S); [by apply Hsc, list_elem_of_In|done]. }
  destruct k; simpl in IH; try (apply Forall_cons in IH as [IH1 IH]);
    try (apply Forall_cons in IH as [IH2 IH]); try (apply Forall_cons in IH as [IH3 _]);
    simpl in Hs |- *; try done; try (apply sm_bind_ext; [by apply Hargs|done]).
  - apply bool_decide_eq_true in Hs. unfold mret, sm_ret. by rewrite (Ha x Hs).
  - destruct reuse; [|done]. apply andb_true_iff in Hs as [H1 H2].
    apply sm_bind_ext; [by apply (IH1 S)|]. intros f w'. apply sm_bind_ext; [by apply Hargs|done].
  - apply andb_true_iff in Hs as [[H1 H2]%andb_true_iff H3].
    apply sm_bind_ext; [by apply (IH1 S)|]. intros c w'.
    destruct (i_bool c) as [[]|]; [by apply (IH2 S)|by apply (IH3 S)|done].
  - apply andb_true_iff in Hs as [[H1 H2]%andb_true_iff H3].
    apply sm_bind_ext; [by apply (IH1 S)|]. intros v w'. eapply IH2; [exact H3|by apply agree_upd].
  - apply andb_true_iff in Hs as [[H1 H2]%andb_true_iff H3].
    apply sm_bind_ext; [by apply (IH1 S)|]. intros v w'.
    destruct (i_split _ v) as [vs|]; [|done].
    destruct (decide (length vs = length locals)); [|done].
    eapply IH2; [exact H3|by apply agree_upds].
  - replace (r1 <$> captures) with (r2 <$> captures); [done|].
    apply list_fmap_ext. intros i c Hc. symmetry. apply Ha.
    rewrite forallb_forall in Hs. apply list_elem_of_lookup_2, list_elem_of_In, Hs in Hc.
    by apply bool_decide_eq_true in Hc.
  - destruct reuse; [done|]. apply sm_bind_ext; [by apply Hargs|done].
  - apply sm_bind_ext; [by apply (IH1 S)|done].
  - apply andb_true_iff in Hs as [H1 H2]. apply sm_bind_ext; [by apply (IH1 S)|].
    intros v w'. destruct index; [done|]. apply bool_decide_eq_true in H2. by rewrite (Ha evidence H2).
Qed.

(** Running bindings leaves the slots they do not bind alone. *)
Lemma run_binds_frame bs : forall rho w rho' w',
  run_binds bs rho w = Some (rho', w') -> forall x, x ∉ bs.*1 -> rho' x = rho x.
Proof.
  induction bs as [|[l v] bs IH]; intros rho w rho' w' Hr x Hx; simpl in Hr.
  - by injection Hr as <- <-.
  - unfold mbind, sm_bind in Hr. destruct (sem v rho w) as [[y w1]|]; [|done].
    rewrite (IH _ _ _ _ Hr) by set_solver. unfold upd. case_decide; [|done]. set_solver.
Qed.
End Sem.

(** A concrete meaning: numbers as values, a counter of operations as the world. *)
Definition counter : Interp nat nat := {|
  i_lit _ := 0; i_global _ := 7; i_error := 0;
  i_op _ _ vs := fun w => Some (foldr Nat.add w vs, S w);
  i_bool v := Some (0 <? v);
  i_split n v := Some (replicate n v);
|}.
