(* ===== verification/Anf.v ===== *)
(** * A-normal form

    [Rc.anf] and the form of its output: it fails exactly on the tail-call nodes
    a later pass inserts; otherwise every operand of its output is an atom,
    every use stays in scope, and the binders stay distinct. *)

From S2P Require Import Prelude Types Ir Verify Rc RcFv RcState RcOwned Sem.
From stdpp Require Import gmap list strings.
From Stdlib Require Import ZArith Lia.

(** A node that only the later tail-call pass inserts. *)
Fixpoint has_tail_node (e : CExpr) : bool :=
  match e with
  | CE kind _ =>
      match kind with
      | K_Join _ _ | K_Recur _ | K_HoleStart _ _ | K_HoleFill _ _ _ | K_HoleClose _ _ => true
      | K_Lit _ | K_Local _ | K_Global _ | K_Error | K_MakeClosure _ _ _ => false
      | K_Prim _ args | K_Foreign _ args _ | K_Spread args | K_MakeData _ args _ _ _ =>
          existsb has_tail_node args
      | K_App func args _ _ => has_tail_node func || existsb has_tail_node args
      | K_If c t e => has_tail_node c || has_tail_node t || has_tail_node e
      | K_Let _ v b | K_LetMany _ v b | K_Reset v _ b => has_tail_node v || has_tail_node b
      | K_DataTag b _ | K_DataField b _ _ _ | K_FreeReuse _ b | K_Dup _ b | K_Drop _ b =>
          has_tail_node b
      end
  end.

(** What lowering hands to reference counting: any nesting of the source's expressions, with
    no reference-counting, reuse or tail-call node and no slot peek. *)
Fixpoint source_form (e : CExpr) : bool :=
  match e with
  | CE kind _ =>
      match kind with
      | K_Lit _ | K_Local _ | K_Global _ | K_Error | K_MakeClosure _ _ _ => true
      | K_Prim op args => negb (is_peek op) && forallb source_form args
      | K_Foreign _ args _ | K_Spread args | K_MakeData _ args None _ _ => forallb source_form args
      | K_App func args [] _ => source_form func && forallb source_form args
      | K_DataTag base _ | K_DataField base _ _ _ => source_form base
      | K_If cond thn els => source_form cond && source_form thn && source_form els
      | K_Let _ value body => source_form value && source_form body
      | K_LetMany _ value body => func_global value && source_form value && source_form body
      | _ => false
      end
  end.

(** ** Scopes of a binding list *)

Fixpoint scoped_binds (S : gset LocalId) (bs : Binds) : bool :=
  match bs with
  | [] => true
  | (l, v) :: bs => scoped S v && bool_decide (l ∉ S) && scoped_binds ({[l]} ∪ S) bs
  end.

Definition bbinders (bs : Binds) : list LocalId := mjoin ((fun b => binders b.2 ++ [b.1]) <$> bs).
Definition locals_of (bs : Binds) : gset LocalId := list_to_set bs.*1.

Lemma binders_wrap bs r : binders (wrap_binds bs r) = bbinders bs ++ binders r.
Proof.
  unfold bbinders. induction bs as [|[l v] bs IH]; [done|]. simpl. rewrite IH.
  simpl. by rewrite <- !app_assoc.
Qed.

Lemma scoped_wrap bs r : forall S,
  scoped S (wrap_binds bs r) = scoped_binds S bs && scoped (locals_of bs ∪ S) r.
Proof.
  unfold locals_of. induction bs as [|[l v] bs IH]; intros S; simpl.
  - by rewrite union_empty_l_L.
  - rewrite IH. rewrite <- !andb_assoc. do 3 f_equal. f_equal. set_solver.
Qed.

Lemma scoped_binds_app bs1 bs2 : forall S,
  scoped_binds S (bs1 ++ bs2) = scoped_binds S bs1 && scoped_binds (locals_of bs1 ∪ S) bs2.
Proof.
  unfold locals_of. induction bs1 as [|[l v] bs IH]; intros S; simpl.
  - by rewrite union_empty_l_L.
  - rewrite IH. rewrite <- !andb_assoc. do 3 f_equal. f_equal. set_solver.
Qed.

Lemma anf_form_wrap bs r :
  anf_form (wrap_binds bs r) = forallb (fun b => anf_form b.2) bs && anf_form r.
Proof. induction bs as [|b bs IH]; [done|]. simpl. by rewrite IH, andb_assoc. Qed.

Lemma bbinders_app bs1 bs2 : bbinders (bs1 ++ bs2) = bbinders bs1 ++ bbinders bs2.
Proof. unfold bbinders. by rewrite fmap_app, join_app. Qed.

Lemma locals_bbinders bs x : x ∈ locals_of bs -> x ∈ bbinders bs.
Proof.
  unfold locals_of, bbinders. rewrite elem_of_list_to_set.
  induction bs as [|[l v] bs IH]; simpl; [set_solver|]. set_solver.
Qed.

(** A wider scope keeps a tree in scope when no binder of the tree is in it. *)
Lemma scoped_mono e : forall S S',
  scoped S e = true -> S ⊆ S' -> NoDup (binders e) -> (forall x, x ∈ binders e -> x ∉ S') ->
  scoped S' e = true.
Proof.
  induction e as [[k t] IH] using CExpr_children_ind. intros S S' Hs HS Hnd Hd.
  assert (Hargs : forall args, Forall (fun e => forall S S',
      scoped S e = true -> S ⊆ S' -> NoDup (binders e) -> (forall x, x ∈ binders e -> x ∉ S') ->
      scoped S' e = true) args ->
    forallb (scoped S) args = true -> NoDup (mjoin (binders <$> args)) ->
    (forall x, x ∈ mjoin (binders <$> args) -> x ∉ S') -> forallb (scoped S') args = true).
  { induction 1 as [|a args Ha _ IHa]; [done|]. simpl.
    intros [H1 H2]%andb_true_iff [N1 [_ N2]]%NoDup_app D. apply andb_true_iff. split.
    - eapply Ha; try done. intros x Hx. apply D. set_solver.
    - apply IHa; try done. intros x Hx. apply D. set_solver. }
  assert (Hin : forall x, bool_decide (x ∈ S) = true -> bool_decide (x ∈ S') = true).
  { intros x Hx%bool_decide_eq_true. apply bool_decide_eq_true. set_solver. }
  destruct k; simpl in IH, Hs, Hnd, Hd |- *; try done; try by auto.
  - destruct reuse; [|done]. apply Forall_cons in IH as [IH1 IH].
    apply andb_true_iff in Hs as [H1 H2]. apply NoDup_app in Hnd as [N1 [_ N2]].
    apply andb_true_iff. split; [eapply IH1; try done; set_solver|].
    apply Hargs; try done. set_solver.
  - apply Forall_cons in IH as [IH1 [IH2 [IH3 _]%Forall_cons]%Forall_cons].
    apply andb_true_iff in Hs as [[H1 H2]%andb_true_iff H3].
    apply NoDup_app in Hnd as [N1 [_ [N2 [_ N3]]%NoDup_app]].
    rewrite !andb_true_iff. split_and!; [eapply IH1|eapply IH2|eapply IH3]; try done; set_solver.
  - apply Forall_cons in IH as [IH1 [IH2 _]%Forall_cons].
    apply andb_true_iff in Hs as [[H1 H2]%andb_true_iff H3].
    apply NoDup_app in Hnd as [N1 [_ [N2 N3]%NoDup_cons]].
    rewrite !andb_true_iff. split_and!.
    + eapply IH1; try done; set_solver.
    + apply bool_decide_eq_true. set_solver.
    + eapply IH2; try done; set_solver.
  - apply Forall_cons in IH as [IH1 [IH2 _]%Forall_cons].
    apply andb_true_iff in Hs as [[H1 H2]%andb_true_iff H3].
    apply NoDup_app in Hnd as [N1 [_ [N2 [N2' N3]]%NoDup_app]].
    rewrite !andb_true_iff. split_and!.
    + eapply IH1; try done; set_solver.
    + apply bool_decide_eq_true. set_solver.
    + eapply IH2; try done; set_solver.
  - rewrite forallb_forall in Hs |- *. auto.
  - destruct reuse; [done|]. auto.
  - apply Forall_cons in IH as [IH1 _]. eapply IH1; eauto.
  - apply Forall_cons in IH as [IH1 _]. apply andb_true_iff in Hs as [H1 H2].
    apply andb_true_iff. split; [eapply IH1; eauto|]. destruct index; auto.
Qed.

(** ** What one normalization step emits *)

(** The bindings [bs] and the operation [r] emitted for a tree with binders [B] in scope [S]
    with fresh slots [n, n'). *)
Record emits (S : gset LocalId) (B : list LocalId) (n : nat) (bs : Binds) (r : CExpr) (n' : nat)
    : Prop := {
  emits_next : n <= n';
  emits_binds : scoped_binds S bs = true;
  emits_scoped : scoped (locals_of bs ∪ S) r = true;
  emits_bform : forallb (fun b => anf_form b.2) bs = true;
  emits_form : anf_form r = true;
  emits_nodup : NoDup (bbinders bs ++ binders r);
  emits_range : forall x, x ∈ bbinders bs ++ binders r -> x ∈ B ∨ n <= x < n';
}.

(** The operands emitted for a list of trees: atoms, all in scope. *)
Record emits_atoms (S : gset LocalId) (B : list LocalId) (n : nat) (bs : Binds)
    (rs : list CExpr) (n' : nat) : Prop := {
  atoms_next : n <= n';
  atoms_binds : scoped_binds S bs = true;
  atoms_scoped : forallb (scoped (locals_of bs ∪ S)) rs = true;
  atoms_bform : forallb (fun b => anf_form b.2) bs = true;
  atoms_form : forallb is_atom rs = true;
  atoms_nodup : NoDup (bbinders bs);
  atoms_range : forall x, x ∈ bbinders bs -> x ∈ B ∨ n <= x < n';
}.

(** What a tree must satisfy to be normalized in scope [S] with fresh slots from [n]. *)
Record fits (S : gset LocalId) (e : CExpr) (n : nat) : Prop := {
  fits_form : source_form e = true;
  fits_scoped : scoped S e = true;
  fits_nodup : NoDup (binders e);
  fits_fresh : forall x, x ∈ binders e -> x ∉ S;
  fits_below : forall x, x ∈ binders e -> x < n;
  fits_next : forall x, x ∈ S -> x < n;
}.

Definition runs {A} (op : ANF A) (n : nat) (a : A) (bs : Binds) (n' : nat) : Prop :=
  forall b0, op (b0, n) = Some (a, (b0 ++ bs, n')).

(** The emitted bindings and operation compute what the tree does, effects in the same order. *)
Definition means (e : CExpr) (bs : Binds) (r : CExpr) : Prop :=
  forall V W (I : Interp V W) rho w, sem (wrap_binds bs r) rho w = sem e rho w.

Definition means_all (es : list CExpr) (bs : Binds) (rs : list CExpr) : Prop :=
  forall V W (I : Interp V W) rho w,
    smap (fun a => sem a rho) es w = (rho' ← run_binds bs rho; mret (atom_val rho' <$> rs)) w.

Definition normalizes (e : CExpr) : Prop := forall S n, fits S e n ->
  exists bs r n', runs (anf_op e) n r bs n' ∧ emits S (binders e) n bs r n' ∧ means e bs r.

Lemma runs_ret {A} (a : A) n : runs (mret a) n a [] n.
Proof. intros b0. by rewrite app_nil_r. Qed.

Lemma runs_bind {A B} (op : ANF A) (k : A -> ANF B) n a bs1 n1 b bs2 n2 :
  runs op n a bs1 n1 -> runs (k a) n1 b bs2 n2 -> runs (op ≫= k) n b (bs1 ++ bs2) n2.
Proof.
  intros H1 H2 b0. unfold mbind, sm_bind. rewrite H1. simpl. rewrite H2. by rewrite app_assoc.
Qed.

Lemma runs_push l v n : runs (push l v) n tt [(l, v)] n.
Proof. intros b0. done. Qed.

Lemma runs_with op e n r bs n' :
  runs (op e) n r bs n' -> runs (anf_with op e) n (wrap_binds bs r) [] n'.
Proof.
  intros H b0. unfold runs, anf_with, ANF, SM, Binds in *. rewrite (H []). simpl.
  by rewrite app_nil_r.
Qed.

(** Binding the emitted operation to a fresh slot. *)
Lemma emits_fresh S B n bs r n' :
  emits S B n bs r n' -> (forall x, x ∈ B -> x < n) -> (forall x, x ∈ S -> x < n) ->
  emits_atoms S B n (bs ++ [(n', r)]) [CE (K_Local n') (ce_ty r)] (Datatypes.S n').
Proof.
  intros [H1 H2 H3 H4 H5 H6 H7] HB HS.
  assert (Hn : forall x, x ∈ bbinders bs ++ binders r -> x < n').
  { intros x Hx. destruct (H7 x Hx) as [Hb|?]; [specialize (HB x Hb)|]; lia. }
  assert (Hbb : bbinders (bs ++ [(n', r)]) = (bbinders bs ++ binders r) ++ [n']).
  { rewrite bbinders_app. unfold bbinders at 2. simpl. by rewrite app_nil_r, app_assoc. }
  split.
  - lia.
  - rewrite scoped_binds_app, H2. simpl. rewrite H3. simpl. rewrite andb_true_r.
    apply bool_decide_eq_true. intros [Hx%locals_bbinders|Hx]%elem_of_union.
    + specialize (Hn n'). set_solver by lia.
    + specialize (HS n' Hx). lia.
  - simpl. rewrite andb_true_r. apply bool_decide_eq_true.
    unfold locals_of. rewrite fmap_app. simpl. set_solver.
  - rewrite forallb_app, H4. simpl. by rewrite H5.
  - done.
  - rewrite Hbb. apply NoDup_app. split_and!; [done| |apply NoDup_singleton].
    intros x Hx ->%list_elem_of_singleton. specialize (Hn _ Hx). lia.
  - rewrite Hbb. intros x [Hx| ->%list_elem_of_singleton]%elem_of_app; [|right; lia].
    destruct (H7 x Hx); [by left|right; lia].
Qed.

Lemma emits_atom S B n bs r n' :
  emits S B n bs r n' -> is_atom r = true -> emits_atoms S B n bs [r] n'.
Proof.
  intros [H1 H2 H3 H4 H5 H6 H7] Ha.
  assert (Hb : binders r = []) by (by destruct r as [[] ?]).
  rewrite Hb, app_nil_r in H6. rewrite Hb, app_nil_r in H7.
  split; try done. - simpl. by rewrite H3. - simpl. by rewrite Ha.
Qed.

Lemma means_atom e bs r : means e bs r -> is_atom r = true -> means_all [e] bs [r].
Proof.
  intros Hm Ha V W I rho w. simpl. transitivity ((v ← sem (wrap_binds bs r) rho; mret [v]) w).
  { apply sm_bind_ext; [by rewrite Hm|done]. }
  transitivity (((rho' ← run_binds bs rho; sem r rho') ≫= fun v => mret [v]) w).
  { apply sm_bind_ext; [apply sem_wrap|done]. }
  rewrite sm_bind_assoc. apply sm_bind_ext; [done|]. intros rho' w'.
  unfold mbind, sm_bind. by rewrite sem_atom.
Qed.

Lemma means_fresh e bs r n' t :
  means e bs r -> means_all [e] (bs ++ [(n', r)]) [CE (K_Local n') t].
Proof.
  intros Hm V W I rho w. simpl. transitivity ((v ← sem (wrap_binds bs r) rho; mret [v]) w).
  { apply sm_bind_ext; [by rewrite Hm|done]. }
  transitivity (((rho' ← run_binds bs rho; sem r rho') ≫= fun v => mret [v]) w).
  { apply sm_bind_ext; [apply sem_wrap|done]. }
  symmetry. transitivity (((rho' ← run_binds bs rho; run_binds [(n', r)] rho') ≫=
    fun rho' => mret [rho' n']) w).
  { apply sm_bind_ext; [apply run_binds_app|done]. }
  rewrite !sm_bind_assoc. apply sm_bind_ext; [done|]. intros rho' w'. simpl.
  unfold mbind, sm_bind. destruct (sem r rho' w') as [[v w2]|]; [|done].
  unfold mret, sm_ret, upd. by rewrite decide_True.
Qed.

Lemma scoped_binds_fresh bs : forall S, scoped_binds S bs = true -> forall x, x ∈ S -> x ∉ bs.*1.
Proof.
  induction bs as [|[l v] bs IH]; intros S Hs x Hx; simpl in *; [set_solver|].
  apply andb_true_iff in Hs as [[_ Hl%bool_decide_eq_true]%andb_true_iff Hs].
  specialize (IH _ Hs x). set_solver.
Qed.

Lemma run_binds_agree {V W} `{Interp V W} bs S rho w rho' w' :
  scoped_binds S bs = true -> run_binds bs rho w = Some (rho', w') -> agree S rho rho'.
Proof.
  intros Hs Hr x Hx. symmetry. eapply run_binds_frame; [exact Hr|by eapply scoped_binds_fresh].
Qed.

Lemma atom_val_agree {V W} `{Interp V W} S r1 r2 rs :
  forallb (scoped S) rs = true -> agree S r1 r2 -> atom_val r1 <$> rs = atom_val r2 <$> rs.
Proof.
  intros Hs Ha. apply list_fmap_ext. intros i a Hi.
  rewrite forallb_forall in Hs. apply list_elem_of_lookup_2, list_elem_of_In, Hs in Hi.
  destruct a as [[] ?]; try done. simpl in Hi. apply bool_decide_eq_true in Hi. by apply Ha.
Qed.

(** Operands evaluate left to right, whichever are bound first. *)
Lemma means_all_app S es1 bs1 rs1 es2 bs2 rs2 :
  means_all es1 bs1 rs1 -> means_all es2 bs2 rs2 ->
  scoped_binds S bs1 = true -> scoped_binds (locals_of bs1 ∪ S) bs2 = true ->
  forallb (scoped S) es2 = true -> forallb (scoped (locals_of bs1 ∪ S)) rs1 = true ->
  means_all (es1 ++ es2) (bs1 ++ bs2) (rs1 ++ rs2).
Proof.
  intros M1 M2 B1 B2 He Hr V W I rho w. rewrite smap_app.
  transitivity (((rho1 ← run_binds bs1 rho; mret (atom_val rho1 <$> rs1)) ≫=
    fun us => vs ← smap (fun a => sem a rho) es2; mret (us ++ vs)) w).
  { apply sm_bind_ext; [apply M1|done]. }
  symmetry. transitivity (((rho1 ← run_binds bs1 rho; run_binds bs2 rho1) ≫=
    fun rho2 => mret (atom_val rho2 <$> rs1 ++ rs2)) w).
  { apply sm_bind_ext; [apply run_binds_app|done]. }
  rewrite !sm_bind_assoc. apply sm_bind_run. intros rho1 w1 E1.
  assert (Hes : smap (fun a => sem a rho) es2 w1 = smap (fun a => sem a rho1) es2 w1).
  { apply smap_ext. rewrite Forall_forall. intros a Ha w2. rewrite forallb_forall in He.
    eapply sem_agree; [by apply He, list_elem_of_In|by eapply run_binds_agree]. }
  simpl. unfold mbind, sm_bind, mret at 2, sm_ret at 2. rewrite Hes, (M2 V W I rho1 w1).
  unfold mbind, sm_bind.
  destruct (run_binds bs2 rho1 w1) as [[rho2 w2]|] eqn:E2; [|done].
  unfold mret, sm_ret. rewrite fmap_app. do 3 f_equal.
  eapply atom_val_agree; [exact Hr|]. intros x Hx. symmetry.
  by eapply (run_binds_agree bs2 _ rho1).
Qed.

Lemma atomize_runs e S n :
  normalizes e -> fits S e n ->
  exists bs a n', runs (atomize anf_op e) n a bs n' ∧ emits_atoms S (binders e) n bs [a] n' ∧
    means_all [e] bs [a].
Proof.
  intros Hn Hf. destruct (Hn S n Hf) as (bs & r & n' & Hr & He & Hm). unfold atomize.
  destruct (is_atom r) eqn:Ha.
  - exists bs, r, n'. split; [|split; [by apply emits_atom|by apply means_atom]]. rewrite <- (app_nil_r bs).
    eapply runs_bind; [exact Hr|]. rewrite Ha. apply runs_ret.
  - exists (bs ++ [(n', r)]), (CE (K_Local n') (ce_ty r)), (Datatypes.S n'). split_and!.
    + eapply runs_bind; [exact Hr|]. by rewrite Ha.
    + destruct Hf. by apply emits_fresh.
    + by apply means_fresh.
Qed.

Lemma to_local_runs e S n :
  normalizes e -> fits S e n ->
  exists bs x t n', runs (to_local anf_op e) n (CE (K_Local x) t) bs n' ∧
    emits_atoms S (binders e) n bs [CE (K_Local x) t] n' ∧ means_all [e] bs [CE (K_Local x) t].
Proof.
  intros Hn Hf. destruct (Hn S n Hf) as (bs & r & n' & Hr & He & Hm). unfold to_local.
  destruct (is_local r) eqn:Ha.
  - destruct r as [[] t]; try discriminate. exists bs, x, t, n'.
    split; [|split; [by apply emits_atom|by apply means_atom]]. rewrite <- (app_nil_r bs).
    eapply runs_bind; [exact Hr|]. apply runs_ret.
  - exists (bs ++ [(n', r)]), n', (ce_ty r), (Datatypes.S n'). split_and!.
    + eapply runs_bind; [exact Hr|]. by destruct r as [[] t].
    + destruct Hf. by apply emits_fresh.
    + by apply means_fresh.
Qed.

(** ** Sequencing *)

(** The next tree still fits, in the scope the first one's bindings extend. *)
Lemma fits_after S (B : list LocalId) n bs n' e :
  scoped_binds S bs = true -> n <= n' ->
  (forall x, x ∈ bbinders bs -> x ∈ B ∨ n <= x < n') -> (forall x, x ∈ B -> x < n) ->
  (forall x, x ∈ binders e -> x ∉ B) -> fits S e n -> fits (locals_of bs ∪ S) e n'.
Proof.
  intros Hb Hle Hr HB Hd [F1 F2 F3 F4 F5 F6].
  assert (Hfr : forall x, x ∈ binders e -> x ∉ locals_of bs ∪ S).
  { intros x Hx [Hl%locals_bbinders|Hl]%elem_of_union; [|by apply (F4 x)].
    destruct (Hr x Hl) as [Hb'|?]; [by apply (Hd x)|specialize (F5 x Hx); lia]. }
  split; try done.
  - eapply scoped_mono; try done. set_solver +.
  - intros x Hx. specialize (F5 x Hx). lia.
  - intros x [Hl%locals_bbinders|Hl]%elem_of_union; [|specialize (F6 x Hl); lia].
    destruct (Hr x Hl) as [Hb'|?]; [specialize (HB x Hb'); lia|lia].
Qed.

(** Two binding lists, emitted one after the other from disjoint binders. *)
Lemma atoms_app S B1 B2 n bs1 rs1 n1 bs2 rs2 n2 :
  emits_atoms S B1 n bs1 rs1 n1 -> emits_atoms (locals_of bs1 ∪ S) B2 n1 bs2 rs2 n2 ->
  (forall x, x ∈ B1 ++ B2 -> x < n) -> (forall x, x ∈ B1 -> x ∉ B2) ->
  emits_atoms S (B1 ++ B2) n (bs1 ++ bs2) (rs1 ++ rs2) n2.
Proof.
  intros [A1 A2 A3 A4 A5 A6 A7] [C1 C2 C3 C4 C5 C6 C7] HB Hd.
  assert (Hloc : locals_of (bs1 ++ bs2) = locals_of bs2 ∪ locals_of bs1).
  { unfold locals_of. rewrite fmap_app. set_solver +. }
  split.
  - lia.
  - by rewrite scoped_binds_app, A2.
  - rewrite forallb_app, Hloc, <- union_assoc_L, C3, andb_true_r.
    rewrite forallb_forall in A3 |- *. rewrite forallb_forall in A5. intros a Ha.
    assert (Hb : binders a = []) by (specialize (A5 a Ha); by destruct a as [[] ?]).
    eapply scoped_mono; [by apply A3|set_solver +| |]; rewrite Hb; [constructor|set_solver +].
  - by rewrite forallb_app, A4.
  - by rewrite forallb_app, A5.
  - rewrite bbinders_app. apply NoDup_app. split_and!; [done| |done].
    intros x H1 H2. destruct (A7 x H1) as [HB1|Hr1], (C7 x H2) as [HB2|Hr2].
    + by apply (Hd x). + specialize (HB x ltac:(set_solver)). lia.
    + specialize (HB x ltac:(set_solver)). lia. + lia.
  - rewrite bbinders_app. intros x [Hx|Hx]%elem_of_app.
    + destruct (A7 x Hx); [left; set_solver|right; lia].
    + destruct (C7 x Hx); [left; set_solver|right; lia].
Qed.

Lemma atoms_below S B n bs rs n' x :
  emits_atoms S B n bs rs n' -> (forall x, x ∈ B -> x < n) -> x ∈ bbinders bs -> x < n'.
Proof. intros [] HB Hx. destruct (atoms_range0 x Hx) as [Hb|]; [specialize (HB x Hb)|]; lia. Qed.

Definition fits_all (S : gset LocalId) (es : list CExpr) (n : nat) : Prop :=
  Forall (fun e => fits S e n) es ∧ NoDup (mjoin (binders <$> es)).

Lemma elem_of_binders_list es x : x ∈ mjoin (binders <$> es) ↔ exists e, e ∈ es ∧ x ∈ binders e.
Proof.
  rewrite list_elem_of_join. setoid_rewrite list_elem_of_fmap. naive_solver.
Qed.

Lemma smap_runs es : Forall normalizes es -> forall S n,
  Forall (fun e => fits S e n) es -> NoDup (mjoin (binders <$> es)) -> (forall x, x ∈ S -> x < n) ->
  exists bs rs n', runs (smap (atomize anf_op) es) n rs bs n' ∧
    emits_atoms S (mjoin (binders <$> es)) n bs rs n' ∧ means_all es bs rs.
Proof.
  induction 1 as [|e es He _ IH]; intros S n Hf Hnd HS.
  { exists [], [], n. split; [apply runs_ret|]. split; [|done].
    split; try done. intros x Hx. by apply elem_of_nil in Hx. }
  apply Forall_cons in Hf as [Hf Hfs]. simpl in Hnd. apply NoDup_app in Hnd as [N1 [N2 N3]].
  destruct (atomize_runs e S n He Hf) as (bs1 & a & n1 & R1 & E1 & M1).
  assert (Hlow : forall x, x ∈ mjoin (binders <$> es) -> x < n).
  { intros x (e' & He' & Hx)%elem_of_binders_list. rewrite Forall_forall in Hfs.
    by apply (fits_below _ _ _ (Hfs e' He')). }
  destruct (IH (locals_of bs1 ∪ S) n1) as (bs2 & rs & n2 & R2 & E2 & M2); [|done| |].
  { rewrite Forall_forall in Hfs |- *. intros e' He'.
    eapply (fits_after S (binders e) n); try apply E1; [apply Hf| |by apply Hfs].
    intros x Hx1 Hx2. apply (N2 x Hx2). apply elem_of_binders_list. eauto. }
  { intros x [Hx%locals_bbinders|Hx]%elem_of_union.
    - eapply atoms_below; [exact E1|apply Hf|done].
    - specialize (HS x Hx). pose proof (atoms_next _ _ _ _ _ _ E1). lia. }
  exists (bs1 ++ bs2), (a :: rs), n2. split_and!.
  - simpl. eapply runs_bind; [exact R1|]. rewrite <- (app_nil_r bs2).
    eapply runs_bind; [exact R2|apply runs_ret].
  - simpl. apply (atoms_app S (binders e) _ n bs1 [a] n1); try done.
    intros x [Hx|Hx]%elem_of_app; [by apply Hf|by apply Hlow].
  - apply (means_all_app S [e] bs1 [a]); try done; try apply E1; try apply E2.
    rewrite forallb_forall. intros e' He'%list_elem_of_In. rewrite Forall_forall in Hfs.
    apply (fits_scoped _ _ _ (Hfs e' He')).
Qed.

(** ** Normalization of every node *)

Definition ranged (B : list LocalId) (n n' : nat) (l : list LocalId) : Prop :=
  n <= n' ∧ NoDup l ∧ forall x, x ∈ l -> x ∈ B ∨ n <= x < n'.

Lemma ranged_app B1 B2 n n1 n2 l1 l2 :
  ranged B1 n n1 l1 -> ranged B2 n1 n2 l2 -> (forall x, x ∈ B1 ++ B2 -> x < n) ->
  NoDup (B1 ++ B2) -> ranged (B1 ++ B2) n n2 (l1 ++ l2).
Proof.
  intros (H1 & N1 & R1) (H2 & N2 & R2) HB (_ & Hd & _)%NoDup_app. split_and!; [lia| |].
  - apply NoDup_app. split_and!; [done| |done]. intros x X1 X2.
    assert (HB' : x ∈ B1 ∨ x ∈ B2 -> x < n) by (rewrite <- elem_of_app; apply HB).
    destruct (R1 x X1), (R2 x X2); try lia; [by apply (Hd x)|..]; specialize (HB' ltac:(tauto)); lia.
  - intros x [X|X]%elem_of_app; rewrite elem_of_app.
    + destruct (R1 x X); [tauto|right; lia].
    + destruct (R2 x X); [tauto|right; lia].
Qed.

Lemma ranged_self B n : NoDup B -> ranged B n n B.
Proof. intros HB. split_and!; [done|done|]. by left. Qed.

Lemma emits_ranged S B n bs r n' : emits S B n bs r n' -> ranged B n n' (bbinders bs ++ binders r).
Proof. by intros []. Qed.

Lemma atoms_ranged S B n bs rs n' : emits_atoms S B n bs rs n' -> ranged B n n' (bbinders bs).
Proof. by intros []. Qed.

Lemma atoms_no_binders rs : forallb is_atom rs = true -> mjoin (binders <$> rs) = [].
Proof.
  induction rs as [|a rs IH]; [done|]. simpl. intros [Ha Hrs]%andb_true_iff.
  change (binders a ++ mjoin (binders <$> rs) = []).
  rewrite IH by done. by destruct a as [[] ?].
Qed.

(** An operation over atoms emits itself. *)
Lemma emits_op S B n bs rs n' r :
  emits_atoms S B n bs rs n' -> binders r = mjoin (binders <$> rs) ->
  (forallb is_atom rs = true -> anf_form r = true) ->
  (forallb (scoped (locals_of bs ∪ S)) rs = true -> scoped (locals_of bs ∪ S) r = true) ->
  emits S B n bs r n'.
Proof.
  intros [] Hb Hf Hs. rewrite atoms_no_binders in Hb by done.
  split; rewrite ?Hb, ?app_nil_r; auto.
Qed.

Lemma fits_list S es n :
  forallb source_form es = true -> forallb (scoped S) es = true ->
  NoDup (mjoin (binders <$> es)) -> (forall x, x ∈ mjoin (binders <$> es) -> x ∉ S ∧ x < n) ->
  (forall x, x ∈ S -> x < n) -> Forall (fun e => fits S e n) es.
Proof.
  intros Hf Hs Hnd Hb HS. induction es as [|e es IH]; [constructor|].
  simpl in Hf, Hs, Hnd, Hb. apply andb_true_iff in Hf as [Hf1 Hf2], Hs as [Hs1 Hs2].
  apply NoDup_app in Hnd as (N1 & _ & N2).
  constructor; [split; try done; intros x Hx; apply Hb, elem_of_app; by left|].
  apply IH; try done. intros x Hx. apply Hb, elem_of_app. by right.
Qed.

(** The operands of one node. *)
Lemma operands_run S n es B e :
  Forall normalizes es -> fits S e n -> B = mjoin (binders <$> es) -> binders e = B ->
  forallb source_form es = true -> forallb (scoped S) es = true ->
  exists bs rs n', runs (smap (atomize anf_op) es) n rs bs n' ∧ emits_atoms S B n bs rs n' ∧
    means_all es bs rs.
Proof.
  intros Hn [F1 F2 F3 F4 F5 F6] -> Hb Hf Hs. rewrite Hb in *.
  apply smap_runs; try done. apply fits_list; try done. split; [by apply F4|by apply F5].
Qed.

Definition keeps_global (e : CExpr) (bs : Binds) (r : CExpr) : Prop :=
  func_global e = true -> func_global (wrap_binds bs r) = true.

Definition normal (e : CExpr) : Prop := forall S n, fits S e n ->
  exists bs r n', runs (anf_op e) n r bs n' ∧ emits S (binders e) n bs r n' ∧ means e bs r ∧
    keeps_global e bs r.

Lemma normal_normalizes e : normal e -> normalizes e.
Proof. intros H S n Hf. destruct (H S n Hf) as (bs & r & n' & H1 & H2 & H3 & _). eauto 8. Qed.

Lemma keeps_not_app e bs r :
  (forall f args reuse al, ce_kind r <> K_App f args reuse al) -> keeps_global e bs r.
Proof.
  intros Hr _. destruct bs; [|done]. unfold func_global. simpl. destruct r as [[] ?]; try done.
  exfalso. by eapply Hr.
Qed.

Lemma normal_leaf k t :
  (forall s, anf_op (CE k t) s = Some (CE k t, s)) -> binders (CE k t) = [] ->
  anf_form (CE k t) = true -> (forall f args reuse al, k <> K_App f args reuse al) ->
  normal (CE k t).
Proof.
  intros Ha Hb Hf Hk S n [F1 F2 F3 F4 F5 F6]. exists [], (CE k t), n. split_and!.
  - intros b0. rewrite Ha. by rewrite app_nil_r.
  - split; rewrite ?Hb; try done.
    + unfold locals_of. simpl. by rewrite union_empty_l_L.
    + constructor.
    + intros x Hx. by apply elem_of_nil in Hx.
  - done.
  - by apply keeps_not_app.
Qed.

Lemma means_operands es bs rs e r :
  means_all es bs rs -> forallb is_atom rs = true ->
  (forall V W (I : Interp V W), exists h : list V -> SM W V,
     (forall rho w, sem e rho w = (smap (fun a => sem a rho) es ≫= h) w) ∧
     forall rho w, sem r rho w = (smap (fun a => sem a rho) rs ≫= h) w) ->
  means e bs r.
Proof.
  intros Hm Hat Hh V W I rho w. destruct (Hh V W I) as (h & He & Hr).
  rewrite sem_wrap, He. transitivity (((rho' ← run_binds bs rho; mret (atom_val rho' <$> rs)) ≫= h) w).
  - rewrite sm_bind_assoc. apply sm_bind_ext; [done|]. intros rho' w'. rewrite Hr.
    unfold mbind, sm_bind. by rewrite sem_atoms.
  - apply sm_bind_ext; [by rewrite <- Hm|done].
Qed.

(** A node whose operands are normalized in order. *)
Lemma normal_operands k t es (mk : list CExpr -> ExprKind) :
  Forall normal es ->
  (forall s, anf_op (CE k t) s = (rs ← smap (atomize anf_op) es; mret (CE (mk rs) t)) s) ->
  binders (CE k t) = mjoin (binders <$> es) ->
  (forall rs, binders (CE (mk rs) t) = mjoin (binders <$> rs)) ->
  (source_form (CE k t) = true -> forallb source_form es = true ∧
     forall rs, forallb is_atom rs = true -> anf_form (CE (mk rs) t) = true) ->
  (forall S, scoped S (CE k t) = true -> forallb (scoped S) es = true) ->
  (forall S rs, forallb (scoped S) rs = true -> source_form (CE k t) = true ->
     scoped S (CE (mk rs) t) = true) ->
  (forall rs f args reuse al, mk rs <> K_App f args reuse al) ->
  (forall V W (I : Interp V W), exists h : list V -> SM W V,
     (forall rho w, sem (CE k t) rho w = (smap (fun a => sem a rho) es ≫= h) w) ∧
     forall rs rho w, sem (CE (mk rs) t) rho w = (smap (fun a => sem a rho) rs ≫= h) w) ->
  normal (CE k t).
Proof.
  intros Hn Ha Hb Hbm Hf Hs Hsm Hk Hh S n Hfit. pose proof Hfit as [F1 F2 F3 F4 F5 F6].
  destruct (Hf F1) as [Hf1 Hf2].
  destruct (operands_run S n es (mjoin (binders <$> es)) (CE k t)) as (bs & rs & n' & R & E & M); auto.
  { eapply Forall_impl; [exact Hn|]. apply normal_normalizes. }
  exists bs, (CE (mk rs) t), n'. split_and!.
  - intros b0. rewrite Ha. rewrite <- (app_nil_r bs). eapply runs_bind; [exact R|apply runs_ret].
  - rewrite Hb. eapply emits_op; eauto.
  - eapply means_operands; [exact M|apply E|]. intros V W I. destruct (Hh V W I) as (h & H1 & H2). eauto.
  - apply keeps_not_app. apply Hk.
Qed.

Lemma normal_app f args al t :
  normal f -> Forall normal args -> normal (CE (K_App f args [] al) t).
Proof.
  intros Hf Hargs S n Hfit. pose proof Hfit as [F1 F2 F3 F4 F5 F6]. simpl in F1, F2.
  apply andb_true_iff in F1 as [F1 F1'], F2 as [F2 F2'].
  destruct (operands_run S n (f :: args) (mjoin (binders <$> f :: args))
    (CE (K_App f args [] al) t)) as (bs & rs & n' & R & E & M); try done.
  { constructor; [by apply normal_normalizes|]. eapply Forall_impl; [exact Hargs|].
    apply normal_normalizes. }
  { simpl. by rewrite F1. } { simpl. by rewrite F2. }
  destruct rs as [|f' rs].
  { exfalso. specialize (R []). simpl in R. unfold mbind, sm_bind, mret, sm_ret in R.
    repeat case_match; simplify_eq. }
  assert (Hrun : forall b0, anf_op (CE (K_App f args [] al) t) (b0, n) =
    Some (CE (K_App f' rs [] al) t, (b0 ++ bs, n'))).
  { intros b0. specialize (R b0). simpl in R |- *. unfold mbind, sm_bind, mret, sm_ret in *.
    destruct (atomize anf_op f (b0, n)) as [[f1 s1]|]; [|done].
    destruct (smap _ args s1) as [[rs1 s2]|]; [|done]. by simplify_eq. }
  exists bs, (CE (K_App f' rs [] al) t), n'. split_and!; [exact Hrun| | |].
  - eapply emits_op; [exact E|done|done|done].
  - eapply means_operands; [exact M|apply E|]. intros V W I. exists (i_op (O_App al) t).
    split; intros rho w; simpl; rewrite sm_bind_assoc; (apply sm_bind_ext; [done|]);
      intros v w'; by rewrite sm_bind_assoc.
  - intros Hg. destruct bs; [|done]. unfold func_global in Hg |- *. simpl in Hg |- *.
    destruct f as [[] ft]; try done. specialize (Hrun []). simpl in Hrun.
    unfold atomize, mbind, sm_bind, mret, sm_ret in Hrun. simpl in Hrun.
    destruct (smap _ args _) as [[rs1 s2]|]; [|done]. by simplify_eq.
Qed.

(** A later sibling fits in the scope the emitted bindings extend. *)
Lemma fits_next_sibling S B n bs n' e :
  scoped_binds S bs = true -> ranged B n n' (bbinders bs) -> (forall x, x ∈ B -> x < n) ->
  (forall x, x ∈ B -> x ∉ binders e) -> fits S e n -> fits (locals_of bs ∪ S) e n'.
Proof.
  intros Hb (Hle & _ & Hr) HB Hd Hf. eapply fits_after; eauto. intros x H1 H2. by apply (Hd x).
Qed.

Lemma fits_later S e n n' : fits S e n -> n <= n' -> fits S e n'.
Proof.
  intros [F1 F2 F3 F4 F5 F6] Hle. split; try done; intros x Hx;
    [specialize (F5 x Hx)|specialize (F6 x Hx)]; lia.
Qed.

Lemma means_conditional S c c' thn els bs bt rt be re t :
  means_all [c] bs [c'] -> means thn bt rt -> means els be re -> scoped_binds S bs = true ->
  is_atom c' = true -> scoped S thn = true -> scoped S els = true ->
  means (CE (K_If c thn els) t) bs (CE (K_If c' (wrap_binds bt rt) (wrap_binds be re)) t).
Proof.
  intros Mc Mt Me Hb Ha Ht He V W I rho w. rewrite sem_wrap.
  transitivity (((vs ← smap (fun a => sem a rho) [c]; mret (hd i_error vs)) ≫= fun v =>
    match i_bool v with Some true => sem thn rho | Some false => sem els rho | None => panic end) w).
  2:{ simpl. rewrite !sm_bind_assoc. by apply sm_bind_ext. }
  transitivity ((((rho' ← run_binds bs rho; mret (atom_val rho' <$> [c'])) ≫=
    fun vs => mret (hd i_error vs)) ≫= fun v =>
    match i_bool v with Some true => sem thn rho | Some false => sem els rho | None => panic end) w).
  2:{ apply sm_bind_ext; [|done]. apply sm_bind_ext; [by rewrite <- Mc|done]. }
  rewrite !sm_bind_assoc. apply sm_bind_run. intros rho1 w1 E.
  pose proof (run_binds_agree bs S rho w rho1 w1 Hb E) as Hag.
  simpl. unfold mbind, sm_bind. rewrite sem_atom by done. unfold mret, sm_ret. simpl.
  destruct (i_bool _) as [[]|]; [| |done].
  - rewrite Mt. symmetry. by apply (sem_agree thn S).
  - rewrite Me. symmetry. by apply (sem_agree els S).
Qed.

Lemma means_let S l v b t bs r bs2 r2 :
  means v bs r -> means b bs2 r2 -> scoped_binds S bs = true -> scoped ({[l]} ∪ S) b = true ->
  means (CE (K_Let l v b) t) (bs ++ [(l, r)] ++ bs2) r2.
Proof.
  intros Mv Mb Hb Hs V W I rho w. rewrite sem_wrap. simpl.
  transitivity ((x ← sem (wrap_binds bs r) rho; sem b (upd rho l x)) w).
  2:{ apply sm_bind_ext; [by rewrite Mv|done]. }
  transitivity (((rho' ← run_binds bs rho; run_binds ((l, r) :: bs2) rho') ≫= sem r2) w).
  { apply sm_bind_ext; [apply run_binds_app|done]. }
  transitivity (((rho' ← run_binds bs rho; sem r rho') ≫= fun x => sem b (upd rho l x)) w).
  2:{ apply sm_bind_ext; [by rewrite sem_wrap|done]. }
  rewrite !sm_bind_assoc. apply sm_bind_run. intros rho1 w1 E.
  pose proof (run_binds_agree bs S rho w rho1 w1 Hb E) as Hag. simpl. rewrite sm_bind_assoc.
  apply sm_bind_ext; [done|]. intros x w2. rewrite <- sem_wrap, Mb. symmetry.
  eapply sem_agree; [exact Hs|by apply agree_upd].
Qed.

Lemma normal_if c thn els t : normal c -> normal thn -> normal els -> normal (CE (K_If c thn els) t).
Proof.
  intros Hc Ht He S n [F1 F2 F3 F4 F5 F6]. simpl in F1, F2, F3, F4, F5.
  apply andb_true_iff in F1 as [[Fc1 Ft1]%andb_true_iff Fe1].
  apply andb_true_iff in F2 as [[Fc2 Ft2]%andb_true_iff Fe2].
  pose proof F3 as [Nc [Nct [Nt [Nte Ne]]%NoDup_app]]%NoDup_app.
  setoid_rewrite elem_of_app in F4. setoid_rewrite elem_of_app in F5.
  setoid_rewrite elem_of_app in F4. setoid_rewrite elem_of_app in F5.
  assert (Hfc : fits S c n) by (split; auto).
  assert (Hft : fits S thn n) by (split; auto).
  assert (Hfe : fits S els n) by (split; auto).
  destruct (atomize_runs c S n (normal_normalizes _ Hc) Hfc) as (bs & c' & n1 & R1 & E1 & M1).
  pose proof (atoms_ranged _ _ _ _ _ _ E1) as G1. pose proof (atoms_next _ _ _ _ _ _ E1) as L1.
  assert (Hft1 : fits (locals_of bs ∪ S) thn n1).
  { eapply fits_next_sibling; [apply E1|exact G1|apply Hfc| |done].
    intros x Hx Hin. apply (Nct x Hx), elem_of_app. by left. }
  assert (Hfe1 : fits (locals_of bs ∪ S) els n1).
  { eapply fits_next_sibling; [apply E1|exact G1|apply Hfc| |done].
    intros x Hx Hin. apply (Nct x Hx), elem_of_app. by right. }
  destruct (Ht _ _ Hft1) as (bt & rt & n2 & R2 & E2 & M2 & _).
  pose proof (emits_next _ _ _ _ _ _ E2) as L2.
  destruct (He _ _ (fits_later _ _ _ _ Hfe1 L2)) as (be & re & n3 & R3 & E3 & M3 & _).
  exists bs, (CE (K_If c' (wrap_binds bt rt) (wrap_binds be re)) t), n3. split_and!.
  - simpl. rewrite <- (app_nil_r bs). eapply runs_bind; [exact R1|].
    change (@nil (LocalId * CExpr)) with (@nil (LocalId * CExpr) ++ [] ++ []).
    eapply runs_bind; [by apply runs_with|]. eapply runs_bind; [by apply runs_with|apply runs_ret].
  - pose proof E1 as [A1 A2 A3 A4 A5 A6 A7]. pose proof E2 as [T1 T2 T3 T4 T5 T6 T7].
    pose proof E3 as [L3 X2 X3 X4 X5 X6 X7]. simpl in A3, A5. rewrite andb_true_r in A3, A5.
    assert (G : ranged (binders c ++ binders thn ++ binders els) n n3
      (bbinders bs ++ (bbinders bt ++ binders rt) ++ (bbinders be ++ binders re))).
    { apply (ranged_app _ _ n n1); [done| | |done].
      - apply (ranged_app _ _ n1 n2); [by eapply emits_ranged..| |].
        + intros x Hx%elem_of_app. specialize (F5 x ltac:(tauto)). lia.
        + by apply NoDup_app in F3 as (_ & _ & F3).
      - intros x Hx. apply F5. by rewrite !elem_of_app in Hx. }
    assert (Hb : binders (CE (K_If c' (wrap_binds bt rt) (wrap_binds be re)) t) =
      (bbinders bt ++ binders rt) ++ (bbinders be ++ binders re)).
    { simpl. rewrite !binders_wrap. by destruct c' as [[] ?]. }
    destruct G as (G1' & G2 & G3). split; rewrite ?Hb; try done.
    + simpl. rewrite !scoped_wrap, A3, T2, T3, X2, X3. done.
    + simpl. rewrite !anf_form_wrap, A5, T4, T5, X4, X5. done.
  - apply (means_conditional S); try done; [apply E1|].
    pose proof (atoms_form _ _ _ _ _ _ E1) as Ha. simpl in Ha. by rewrite andb_true_r in Ha.
  - by apply keeps_not_app.
Qed.

Lemma normal_let l v b t : normal v -> normal b -> normal (CE (K_Let l v b) t).
Proof.
  intros Hv Hb S n [F1 F2 F3 F4 F5 F6]. simpl in F1, F2, F3, F4, F5.
  apply andb_true_iff in F1 as [Fv1 Fb1].
  apply andb_true_iff in F2 as [[Fv2 Hl]%andb_true_iff Fb2]. apply bool_decide_eq_true in Hl.
  pose proof F3 as [Nv [Nvb [Nl Nb]%NoDup_cons]]%NoDup_app.
  setoid_rewrite elem_of_app in F4. setoid_rewrite elem_of_app in F5.
  setoid_rewrite elem_of_cons in F4. setoid_rewrite elem_of_cons in F5.
  assert (Hfv : fits S v n) by (split; auto).
  destruct (Hv S n Hfv) as (bs & r & n1 & R1 & E1 & M1 & _).
  pose proof E1 as [A1 A2 A3 A4 A5 A6 A7].
  assert (Hln : l < n) by auto.
  assert (Hls : l ∉ locals_of bs ∪ S).
  { intros [Hx%locals_bbinders|]%elem_of_union; [|done].
    destruct (A7 l) as [Hx'|]; [apply elem_of_app; by left| |lia]. apply (Nvb l Hx'), elem_of_cons. by left. }
  assert (Hfb : fits ({[l]} ∪ (locals_of bs ∪ S)) b n1).
  { assert (Hfr : forall x, x ∈ binders b -> x ∉ {[l]} ∪ (locals_of bs ∪ S)).
    { intros x Hx [->%elem_of_singleton|[Hx'%locals_bbinders|Hx']%elem_of_union]%elem_of_union; [done| |].
      - destruct (A7 x) as [Hx2|]; [apply elem_of_app; by left| |specialize (F5 x ltac:(tauto)); lia].
        apply (Nvb x Hx2), elem_of_cons. by right.
      - apply (F4 x); tauto. }
    split; try done.
    - eapply scoped_mono; [done|set_solver +|done|done].
    - intros x Hx. specialize (F5 x ltac:(tauto)). lia.
    - intros x [->%elem_of_singleton|[Hx'%locals_bbinders|Hx']%elem_of_union]%elem_of_union.
      + lia.
      + destruct (A7 x) as [Hx2|]; [apply elem_of_app; by left|specialize (F5 x ltac:(tauto)); lia|lia].
      + specialize (F6 x Hx'). lia. }
  destruct (Hb _ _ Hfb) as (bs2 & r2 & n2 & R2 & E2 & M2 & _).
  pose proof E2 as [T1 T2 T3 T4 T5 T6 T7].
  exists (bs ++ [(l, r)] ++ bs2), r2, n2. split_and!.
  - change (anf_op (CE (K_Let l v b) t)) with
      (value ← anf_op v; _ ← push l value; anf_op b).
    eapply runs_bind; [exact R1|]. eapply runs_bind; [apply runs_push|exact R2].
  - assert (Hbb : bbinders (bs ++ [(l, r)] ++ bs2) ++ binders r2 =
      (bbinders bs ++ binders r) ++ [l] ++ (bbinders bs2 ++ binders r2)).
    { rewrite !bbinders_app. unfold bbinders at 2. simpl. by rewrite <- !app_assoc. }
    assert (G : ranged (binders v ++ [l] ++ binders b) n n2
      ((bbinders bs ++ binders r) ++ [l] ++ (bbinders bs2 ++ binders r2))).
    { apply (ranged_app _ _ n n1); [by eapply emits_ranged| | |done].
      - apply (ranged_app _ _ n1 n1); [apply ranged_self, NoDup_singleton|by eapply emits_ranged| |].
        + intros x Hx. rewrite elem_of_app, list_elem_of_singleton in Hx. specialize (F5 x ltac:(tauto)). lia.
        + by apply NoDup_cons.
      - intros x Hx. apply F5. by rewrite !elem_of_app, list_elem_of_singleton in Hx. }
    assert (Hloc : locals_of (bs ++ [(l, r)] ++ bs2) ∪ S =
      locals_of bs2 ∪ ({[l]} ∪ (locals_of bs ∪ S))).
    { unfold locals_of. rewrite !fmap_app. simpl. set_solver +. }
    destruct G as (G1 & G2 & G3). split; rewrite ?Hbb, ?Hloc; try done.
    + rewrite scoped_binds_app, A2. simpl. rewrite A3, T2, bool_decide_eq_true_2 by done. done.
    + rewrite !forallb_app, A4, T4. simpl. by rewrite A5.
  - by apply (means_let S).
  - intros _. by destruct bs as [|[? ?] ?].
Qed.

Lemma normal_letmany ls v b t : normal v -> normal b -> normal (CE (K_LetMany ls v b) t).
Proof.
  intros Hv Hb S n [F1 F2 F3 F4 F5 F6]. simpl in F1, F2, F3, F4, F5.
  apply andb_true_iff in F1 as [[Fg Fv1]%andb_true_iff Fb1].
  apply andb_true_iff in F2 as [[Fv2 Hl]%andb_true_iff Fb2]. apply bool_decide_eq_true in Hl.
  pose proof F3 as (Nv & Nvb & Nlb)%NoDup_app. pose proof Nlb as (Nl & Nlb' & Nb)%NoDup_app.
  setoid_rewrite elem_of_app in F4. setoid_rewrite elem_of_app in F5.
  setoid_rewrite elem_of_app in F4. setoid_rewrite elem_of_app in F5.
  assert (Hfv : fits S v n) by (split; auto).
  destruct (Hv S n Hfv) as (bs & r & n1 & R1 & E1 & M1 & Hg).
  pose proof (emits_next _ _ _ _ _ _ E1) as L1.
  assert (Hfb : fits (list_to_set ls ∪ S) b n1).
  { split; try done.
    - intros x Hx [Hx'%elem_of_list_to_set|Hx']%elem_of_union; [by apply (Nlb' x)|apply (F4 x); tauto].
    - intros x Hx. specialize (F5 x ltac:(tauto)). lia.
    - intros x [Hx'%elem_of_list_to_set|Hx']%elem_of_union;
        [specialize (F5 x ltac:(tauto))|specialize (F6 x Hx')]; lia. }
  destruct (Hb _ _ Hfb) as (bs2 & r2 & n2 & R2 & E2 & M2 & _).
  exists [], (CE (K_LetMany ls (wrap_binds bs r) (wrap_binds bs2 r2)) t), n2. split_and!.
  - change (anf_op (CE (K_LetMany ls v b) t)) with
      (value ← anf_with anf_op v; body ← anf_with anf_op b; mret (CE (K_LetMany ls value body) t)).
    change (@nil (LocalId * CExpr)) with (@nil (LocalId * CExpr) ++ [] ++ []).
    eapply runs_bind; [by apply runs_with|]. eapply runs_bind; [by apply runs_with|apply runs_ret].
  - pose proof E1 as [A1 A2 A3 A4 A5 A6 A7]. pose proof E2 as [T1 T2 T3 T4 T5 T6 T7].
    assert (G : ranged (binders v ++ ls ++ binders b) n n2
      ((bbinders bs ++ binders r) ++ ls ++ (bbinders bs2 ++ binders r2))).
    { apply (ranged_app _ _ n n1); [by eapply emits_ranged| | |done].
      - apply (ranged_app _ _ n1 n1); [by apply ranged_self|by eapply emits_ranged| |done].
        intros x Hx%elem_of_app. specialize (F5 x ltac:(tauto)). lia.
      - intros x Hx. apply F5. by rewrite !elem_of_app in Hx. }
    assert (Hbb : bbinders [] ++ binders (CE (K_LetMany ls (wrap_binds bs r) (wrap_binds bs2 r2)) t) =
      (bbinders bs ++ binders r) ++ ls ++ (bbinders bs2 ++ binders r2)).
    { simpl. by rewrite !binders_wrap. }
    destruct G as (G1 & G2 & G3). split; rewrite ?Hbb; try done.
    + unfold locals_of at 1. simpl. rewrite union_empty_l_L, !scoped_wrap, A2, A3, T2, T3.
      by rewrite bool_decide_eq_true_2.
    + simpl. rewrite !anf_form_wrap, A4, A5, T4, T5, Hg by done. by rewrite bool_decide_eq_true_2.
  - intros V W I rho w. simpl. apply sm_bind_ext; [apply M1|]. intros x w'.
    destruct (i_split _ x) as [vs|]; [|done]. destruct (decide _); [|done]. apply M2.
  - by apply keeps_not_app.
Qed.

(** A projection of a local. *)
Lemma normal_projection k t base (mk : CExpr -> ExprKind) :
  normal base ->
  (forall s, anf_op (CE k t) s = (b ← to_local anf_op base; mret (CE (mk b) t)) s) ->
  binders (CE k t) = binders base ->
  (forall b, binders (CE (mk b) t) = binders b) ->
  source_form (CE k t) = source_form base ->
  (forall x u, anf_form (CE (mk (CE (K_Local x) u)) t) = true) ->
  (forall S, scoped S (CE k t) = true -> scoped S base = true) ->
  (forall S S' b, scoped S' b = true -> S ⊆ S' -> scoped S (CE k t) = true ->
     scoped S' (CE (mk b) t) = true) ->
  (forall b f args reuse al, mk b <> K_App f args reuse al) ->
  (forall V W (I : Interp V W), exists h : Env -> V -> SM W V,
     (forall rho w, sem (CE k t) rho w = (v ← sem base rho; h rho v) w) ∧
     (forall b rho w, sem (CE (mk b) t) rho w = (v ← sem b rho; h rho v) w) ∧
     forall S rho rho' v w, scoped S (CE k t) = true -> agree S rho rho' -> h rho v w = h rho' v w) ->
  normal (CE k t).
Proof.
  intros Hn Ha Hb Hbm Hf Hfm Hs Hsm Hk Hh S n [F1 F2 F3 F4 F5 F6]. rewrite Hb in *.
  assert (Hfit : fits S base n) by (split; auto; by rewrite <- Hf).
  destruct (to_local_runs base S n (normal_normalizes _ Hn) Hfit) as (bs & x & u & n' & R & E & M).
  exists bs, (CE (mk (CE (K_Local x) u)) t), n'. split_and!.
  - intros b0. rewrite Ha, <- (app_nil_r bs). eapply runs_bind; [exact R|apply runs_ret].
  - eapply emits_op; [exact E|by rewrite Hbm|by intros|].
    cbn [forallb]. rewrite andb_true_r. intros Hx. eapply (Hsm S); [exact Hx|set_solver +|exact F2].
  - intros V W I rho w. destruct (Hh V W I) as (h & He & Hr & Hag). rewrite sem_wrap, He.
    transitivity (((vs ← smap (fun a => sem a rho) [base]; mret (hd i_error vs)) ≫= h rho) w).
    2:{ simpl. rewrite !sm_bind_assoc. by apply sm_bind_ext. }
    transitivity ((((rho' ← run_binds bs rho; mret (atom_val rho' <$> [CE (K_Local x) u])) ≫=
      fun vs => mret (hd i_error vs)) ≫= h rho) w).
    2:{ apply sm_bind_ext; [|done]. apply sm_bind_ext; [by rewrite <- M|done]. }
    rewrite !sm_bind_assoc. apply sm_bind_run. intros rho1 w1 Eb. rewrite Hr. symmetry.
    apply (Hag S); [done|]. eapply run_binds_agree; [apply E|done].
  - apply keeps_not_app. apply Hk.
Qed.

Lemma anf_normal e : normal e.
Proof.
  induction e as [[k t] IH] using CExpr_children_ind.
  destruct k; simpl in IH; try (apply Forall_cons in IH as [IH1 IH]);
    try (apply Forall_cons in IH as [IH2 IH]); try (apply Forall_cons in IH as [IH3 _]);
    try (intros S n [F1 _ _ _ _ _]; discriminate F1); try by apply normal_leaf.
  - apply (normal_operands _ _ args (K_Prim op)); try done; [|by intros; eexists].
    + simpl. intros [-> H]%andb_true_iff. split; [done|]. by intros rs ->.
  - apply (normal_operands _ _ args (fun rs => K_Foreign symbol rs marshalled)); try done;
      first [by split|by intros; eexists].
  - destruct reuse; [by apply normal_app|]. intros S n [F1 _ _ _ _ _]. discriminate F1.
  - by apply normal_if.
  - by apply normal_let.
  - apply (normal_operands _ _ components K_Spread); try done; first [by split|by intros; eexists].
  - by apply normal_letmany.
  - destruct reuse; [intros ? ? [F1 _ _ _ _ _]; discriminate F1|].
    apply (normal_operands _ _ args (fun rs => K_MakeData tag rs None scalars niche)); try done;
      first [by split|by intros; eexists].
  - apply (normal_projection _ _ base (fun b => K_DataTag b niche)); try done.
    intros V W I. by exists (fun _ v => i_op (O_Tag niche) t [v]).
  - apply (normal_projection _ _ base (fun b => K_DataField b index scalar niche)); try done.
    + intros S. simpl. by intros [? _]%andb_true_iff.
    + intros S S' b Hb HS. simpl. rewrite Hb. intros [_ Hi]%andb_true_iff. simpl.
      destruct index; [done|]. apply bool_decide_eq_true in Hi. apply bool_decide_eq_true. set_solver.
    + intros V W I. exists (fun rho v => i_op (O_Field index scalar niche) t
        (v :: match index with FI_Dyn _ evidence => [rho evidence] | FI_Const _ => [] end)).
      split_and!; [done|done|]. intros S rho rho' v w. simpl. intros [_ Hi]%andb_true_iff Ha.
      destruct index; [done|]. apply bool_decide_eq_true in Hi. by rewrite (Ha evidence Hi).
Qed.

Lemma anf_facts S e n :
  fits S e n ->
  exists e' n', anf e n = Some (e', n') ∧ n <= n' ∧ anf_form e' = true ∧ scoped S e' = true ∧
    NoDup (binders e') ∧ (forall x, x ∈ binders e' -> x ∈ binders e ∨ n <= x < n') ∧
    forall V W (I : Interp V W) rho w, sem e' rho w = sem e rho w.
Proof.
  intros Hf. destruct (anf_normal e S n Hf) as (bs & r & n' & R & [] & M & _).
  exists (wrap_binds bs r), n'. specialize (R []). unfold anf. simpl in R.
  rewrite binders_wrap, scoped_wrap, anf_form_wrap, emits_binds0, emits_scoped0, emits_bform0, emits_form0.
  unfold ANF, SM, Binds in *. by rewrite R.
Qed.

(** C34: A-normal form is total and correct in form on what lowering produces: it returns a tree
    whose operands are atoms, whose uses are all in scope and whose binders are distinct, each
    an original binder or a fresh slot of [n, n'). *)
Theorem anf_wf S e n :
  fits S e n ->
  exists e' n', anf e n = Some (e', n') ∧ n <= n' ∧ anf_form e' = true ∧ scoped S e' = true ∧
    NoDup (binders e') ∧ forall x, x ∈ binders e' -> x ∈ binders e ∨ n <= x < n'.
Proof.
  intros Hf. destruct (anf_facts S e n Hf) as (e' & n' & H1 & H2 & H3 & H4 & H5 & H6 & _). eauto 10.
Qed.

(** C36: A-normal form preserves the program: it is reached from every tree in scope, and from any
    environment and world, under any meaning of literals and operations, the normalized tree
    gives the same value and the same effects in the same order, and diverges or fails exactly
    where the tree does. *)
Theorem anf_preserves S e n (Hf : fits S e n) :
  exists e' n', anf e n = Some (e', n') ∧ forall V W (I : Interp V W) rho w, sem e' rho w = sem e rho w.
Proof.
  destruct (anf_facts S e n Hf) as (e' & n' & H1 & _ & _ & _ & _ & _ & M). exists e', n'. split; [done|].
  intros V W I rho w. apply M.
Qed.

(** ** Failure *)

Lemma smap_none {S A B} (f : A -> SM S B) (bad : A -> bool) xs :
  Forall (fun x => forall s, f x s = None <-> bad x = true) xs ->
  forall s, smap f xs s = None <-> existsb bad xs = true.
Proof.
  induction 1 as [|x xs Hx _ IH]; intros s; simpl; [by split|].
  unfold mbind, sm_bind, mret, sm_ret. rewrite orb_true_iff, <- (Hx s).
  destruct (f x s) as [[y s1]|]; [|tauto]. rewrite <- (IH s1).
  destruct (smap f xs s1) as [[ys s2]|]; naive_solver.
Qed.

Lemma atomize_none e s : atomize anf_op e s = None <-> anf_op e s = None.
Proof.
  unfold atomize, mbind, sm_bind. destruct (anf_op e s) as [[r [b n]]|]; [|done].
  by destruct (is_atom r).
Qed.

Lemma to_local_none e s : to_local anf_op e s = None <-> anf_op e s = None.
Proof.
  unfold to_local, mbind, sm_bind. destruct (anf_op e s) as [[r [b n]]|]; [|done].
  by destruct (ce_kind r).
Qed.

Lemma anf_with_none e (P : Prop) s : (forall s, anf_op e s = None <-> P) ->
  anf_with anf_op e s = None <-> P.
Proof.
  intros H. destruct s as [b n]. unfold anf_with. rewrite <- (H ([], n)).
  unfold ANF, SM, Binds in *. by destruct (anf_op e _) as [[? [? ?]]|].
Qed.

Lemma bind_none {S A B} (m : SM S A) (k : A -> SM S B) (P Q : Prop) :
  (forall s, m s = None <-> P) -> (forall a s, k a s = None <-> Q) ->
  forall s, (m ≫= k) s = None <-> P \/ Q.
Proof.
  intros Hm Hk s. unfold mbind, sm_bind. rewrite <- (Hm s).
  destruct (m s) as [[a s']|]; [|tauto]. rewrite <- (Hk a s'). naive_solver.
Qed.

Lemma ret_none {S A} (a : A) (s : S) : (mret a : SM S A) s = None <-> False.
Proof. done. Qed.

Lemma anf_op_none e : forall s, anf_op e s = None <-> has_tail_node e = true.
Proof.
  induction e as [[k t] IH] using CExpr_children_ind.
  assert (Hargs : forall args, Forall (fun e => forall s, anf_op e s = None <-> has_tail_node e = true) args ->
    forall s, smap (atomize anf_op) args s = None <-> existsb has_tail_node args = true).
  { intros args Ha. apply smap_none. eapply Forall_impl; [exact Ha|]. intros a H s.
    by rewrite atomize_none. }
  destruct k; simpl in IH; try (apply Forall_cons in IH as [IH1 IH]);
    try (apply Forall_cons in IH as [IH2 IH]); try (apply Forall_cons in IH as [IH3 _]);
    intros s; simpl anf_op; simpl has_tail_node; rewrite ?orb_true_iff; try done;
    try (rewrite (bind_none _ _ _ False (Hargs _ IH)); [tauto|done]).
  - rewrite (bind_none _ _ (has_tail_node func = true) (existsb has_tail_node args = true)); [done| |].
    + intros s'. by rewrite atomize_none.
    + intros a s'. rewrite (bind_none _ _ _ False (Hargs _ IH)); [tauto|done].
  - rewrite (bind_none _ _ (has_tail_node cond = true)
      (has_tail_node thn = true \/ has_tail_node els = true)); [tauto| |].
    + intros s'. by rewrite atomize_none.
    + intros a s'. apply bind_none; [intros s1; by apply anf_with_none|].
      intros a' s1. rewrite (bind_none _ _ (has_tail_node els = true) False); [tauto| |done].
      intros s2. by apply anf_with_none.
  - rewrite (bind_none _ _ (has_tail_node value = true) (has_tail_node body = true)); [done|done|].
    intros a s'. rewrite (bind_none _ _ False (has_tail_node body = true)); [tauto| |done].
    by intros [? ?].
  - rewrite (bind_none _ _ (has_tail_node value = true) (has_tail_node body = true)); [done| |].
    + intros s'. by apply anf_with_none.
    + intros a s'. rewrite (bind_none _ _ (has_tail_node body = true) False); [tauto| |done].
      intros s2. by apply anf_with_none.
  - rewrite (bind_none _ _ (has_tail_node base = true) False); [tauto| |done].
    intros s'. by rewrite to_local_none.
  - rewrite (bind_none _ _ (has_tail_node base = true) False); [tauto| |done].
    intros s'. by rewrite to_local_none.
  - rewrite (bind_none _ _ (has_tail_node value = true) (has_tail_node body = true)); [done| |].
    + intros s'. by apply anf_with_none.
    + intros a s'. rewrite (bind_none _ _ (has_tail_node body = true) False); [tauto| |done].
      intros s2. by apply anf_with_none.
  - rewrite (bind_none _ _ (has_tail_node body = true) False); [tauto| |done].
    intros s2. by apply anf_with_none.
  - rewrite (bind_none _ _ (has_tail_node body = true) False); [tauto| |done].
    intros s2. by apply anf_with_none.
  - rewrite (bind_none _ _ (has_tail_node body = true) False); [tauto| |done].
    intros s2. by apply anf_with_none.
Qed.

(** The [unreachable!] of [anf] is reached exactly on trees that hold a node the tail-call
    pass inserts, whatever the fresh counter; every other tree is normalized. *)
Theorem anf_panics_iff e next : anf e next = None <-> has_tail_node e = true.
Proof.
  rewrite <- (anf_op_none e ([], next)). unfold anf, ANF, SM, Binds in *.
  by destruct (anf_op e _) as [[? [? ?]]|].
Qed.

(** ** A concrete tree *)

Definition fits_check (S : gset LocalId) (e : CExpr) (n : nat) : bool :=
  source_form e && scoped S e && bool_decide (NoDup (binders e)) &&
  forallb (fun x => negb (bool_decide (x ∈ S))) (binders e) &&
  forallb (fun x => x <? n) (binders e) && forallb (fun x => x <? n) (elements S).

Lemma fits_check_ok S e n : fits_check S e n = true -> fits S e n.
Proof.
  unfold fits_check. rewrite !andb_true_iff, bool_decide_eq_true. intros [[[[[H1 H2] H3] H4] H5] H6].
  split; try done.
  - intros x Hx. rewrite forallb_forall in H4. apply list_elem_of_In, H4 in Hx.
    by apply negb_true_iff, bool_decide_eq_false in Hx.
  - by apply below_list.
  - intros x Hx. apply (below_list _ _ H6), elem_of_elements, Hx.
Qed.

Definition sample_scope : gset LocalId := list_to_set [0; 1; 2].

Lemma anf_wf_witness :
  exists e' n', anf Sample.nested 4 = Some (e', n') ∧ 4 <= n' ∧ anf_form e' = true ∧
    scoped sample_scope e' = true ∧ NoDup (binders e') ∧
    forall x, x ∈ binders e' -> x ∈ binders Sample.nested ∨ 4 <= x < n'.
Proof. apply (anf_wf sample_scope Sample.nested 4). apply fits_check_ok. vm_compute. reflexivity. Defined.

Lemma anf_preserves_witness :
  exists e' n', anf Sample.nested 4 = Some (e', n') ∧
    forall V W (I : Interp V W) rho w, sem e' rho w = sem Sample.nested rho w.
Proof. apply (anf_preserves sample_scope Sample.nested 4). apply fits_check_ok. vm_compute. reflexivity. Defined.
