(* ===== verification/RcSem.v ===== *)
(** * Reference counting preserves the program

    The output of [Rc.owned] computes what its input does: duplicates and drops
    do not change a value, temporaries are fresh, and operations keep their order.  The reuse
    pass only changes where a construction is placed. *)

From S2P Require Import Prelude Types Ir Verify Rc ReuseCandidates ReuseSizes Reuse RcFv RcState ReuseSound RcSound Sem.
From stdpp Require Import gmap list strings.
From Stdlib Require Import ZArith Lia.

Section RcSem.
Context (C : gset LocalId) (cb : DefId -> nat -> list bool).
Context {V W : Type} `{Interp V W}.

Lemma sem_dups ds e rho w : sem (foldr dup_ e ds) rho w = sem e rho w.
Proof. by induction ds. Qed.

Lemma sem_dropify ds e rho w : sem (dropify ds e) rho w = sem e rho w.
Proof. unfold dropify. by induction (sort_dedup ds). Qed.

(** An operation bound to a temporary so that borrowed slots can be dropped after it. *)
Lemma sem_after e tmp ds t t' rho w :
  sem (CE (K_Let tmp e (dropify ds (CE (K_Local tmp) t))) t') rho w = sem e rho w.
Proof.
  cbn [sem]. unfold mbind, sm_bind. destruct (sem e rho w) as [[v w']|]; [|done].
  rewrite sem_dropify. simpl. unfold mret, sm_ret, upd. by rewrite decide_True.
Qed.

(** Borrowed operands that are not locals, bound to fresh slots first. *)
Lemma pre_bind_sem bs S ops : forall i next rho w ops' binds n',
  forallb is_atom ops = true -> (forall x, x ∈ S -> x < next) ->
  forallb (scoped S) ops = true -> pre_bind bs i ops next = Some ((ops', binds), n') ->
  next <= n' ∧ exists rho', run_binds binds rho w = Some (rho', w) ∧
    atom_val rho' <$> ops' = atom_val rho <$> ops ∧ forall x, x < next -> rho' x = rho x.
Proof.
  induction ops as [|a ops IH]; intros i next rho w ops' binds n' Hat HS Hsc Hp; simpl in *.
  { injection Hp as <- <- <-. split; [done|]. by exists rho. }
  apply andb_true_iff in Hat as [Ha Hat], Hsc as [Hsa Hsc].
  assert (Hkeep : forall o b, pre_bind bs (Datatypes.S i) ops next = Some ((o, b), n') ->
    ops' = a :: o -> binds = b ->
    next <= n' ∧ exists rho', run_binds binds rho w = Some (rho', w) ∧
      atom_val rho' <$> ops' = atom_val rho <$> a :: ops ∧ forall x, x < next -> rho' x = rho x).
  { intros o b Hb -> ->. destruct (IH _ _ rho w _ _ _ Hat HS Hsc Hb) as (Hle & rho' & H1 & H2 & H3).
    split; [done|]. exists rho'. split_and!; [done| |done]. rewrite !fmap_cons, H2. f_equal.
    destruct a as [[] ?]; try done. simpl in Hsa. apply bool_decide_eq_true in Hsa.
    apply H3. by apply HS. }
  unfold mbind, sm_bind in Hp.
  destruct (nth_flag bs i), (local_of a); simpl in Hp.
  1,3,4: destruct (pre_bind bs _ ops next) as [[[o b] m]|] eqn:Hb; [|done];
    injection Hp as <- <- <-; by eapply Hkeep.
  destruct (pre_bind bs _ ops (Datatypes.S next)) as [[[o b] m]|] eqn:Hb; [|done].
  injection Hp as <- <- <-.
  assert (HS' : forall x, x ∈ S -> x < Datatypes.S next) by (intros x Hx; specialize (HS x Hx); lia).
  destruct (IH _ _ (upd rho next (atom_val rho a)) w _ _ _ Hat HS' Hsc Hb)
    as (Hle & rho' & H1 & H2 & H3).
  split; [lia|]. exists rho'. split_and!.
  - simpl. unfold mbind, sm_bind. by rewrite sem_atom.
  - rewrite !fmap_cons, H2. f_equal.
    + unfold atom_val at 1. simpl. rewrite H3 by lia. unfold upd. by rewrite decide_True.
    + apply list_fmap_ext. intros j e He. rewrite forallb_forall in Hsc.
      apply list_elem_of_lookup_2, list_elem_of_In, Hsc in He. destruct e as [[] ?]; try done.
      simpl in He |- *. apply bool_decide_eq_true, HS in He. unfold atom_val, upd. simpl. rewrite decide_False by lia. done.
  - intros x Hx. rewrite H3 by lia. unfold upd. by rewrite decide_False by lia.
Qed.

Lemma operands_rc_sem ops bs live rebuild S next e' next' (h : list V -> SM W V) rho w :
  forallb is_atom ops = true -> forallb (scoped S) ops = true -> (forall x, x ∈ S -> x < next) ->
  (forall ops' rho w, forallb is_atom ops' = true -> length ops' = length ops ->
    sem (rebuild ops') rho w = h (atom_val rho <$> ops') w) ->
  operands_rc C ops bs live rebuild next = Some (e', next') ->
  next <= next' ∧ sem e' rho w = h (atom_val rho <$> ops) w.
Proof.
  intros Hat Hsc HS Hh Hr.
  destruct (pre_bind_spec bs ops 0 next Hat) as (ops' & binds & Hp & Hat' & _ & _ & _ & _ & Hty & _).
  destruct (pre_bind_sem bs S ops 0 next rho w _ _ _ Hat HS Hsc Hp) as (Hle & rho' & H1 & H2 & _).
  assert (Hl : length ops' = length ops).
  { rewrite <- (length_fmap ce_ty ops'), Hty. apply length_fmap. }
  assert (Hfin : forall e, (forall rho w, sem e rho w = sem (rebuild ops') rho w) ->
    sem (wrap_binds binds (foldr dup_ e (dups_from C bs live 0 ops'))) rho w =
    h (atom_val rho <$> ops) w).
  { intros e He. rewrite sem_wrap. unfold mbind, sm_bind. rewrite H1, sem_dups, He, Hh by done.
    by rewrite H2. }
  unfold operands_rc, mbind, sm_bind in Hr. rewrite Hp in Hr.
  destruct (dead_from _ _ _ _ _ _ _) as [|d ds]; simpl in Hr; injection Hr as <- <-.
  - split; [lia|]. by apply Hfin.
  - split; [lia|]. apply Hfin. intros. apply sem_after.
Qed.

Definition kept (e : CExpr) : Prop := forall S live next e' next' rho w,
  anf_form e = true -> scoped S e = true -> (forall x, x ∈ S -> x < next) ->
  Forall (fun x => x < next) (binders e) -> owned C cb e live next = Some (e', next') ->
  next <= next' ∧ sem e' rho w = sem e rho w.

Lemma sem_operands es (h : list V -> SM W V) rho w :
  forallb is_atom es = true ->
  (vs ← smap (fun a => sem a rho) es; h vs) w = h (atom_val rho <$> es) w.
Proof. intros Hat. unfold mbind, sm_bind. by rewrite sem_atoms. Qed.

(** The operations: their operands, then [h]. *)
Lemma kept_operands e ops bs rebuild h S live next e' next' rho w :
  forallb is_atom ops = true -> forallb (scoped S) ops = true -> (forall x, x ∈ S -> x < next) ->
  (forall rho w, sem e rho w = (vs ← smap (fun a => sem a rho) ops; h vs) w) ->
  (forall ops' rho w, length ops' = length ops ->
    sem (rebuild ops') rho w = (vs ← smap (fun a => sem a rho) ops'; h vs) w) ->
  operands_rc C ops bs live rebuild next = Some (e', next') ->
  next <= next' ∧ sem e' rho w = sem e rho w.
Proof.
  intros Hat Hsc HS He Hb Hr. rewrite He, sem_operands by done.
  eapply (operands_rc_sem ops bs live rebuild S next e' next' h); try done.
  intros ops' rho' w' Ha Hl. rewrite Hb by done. by apply sem_operands.
Qed.

Lemma borrow_tail_sem v bs live next e' next' rho w :
  borrow_tail C v bs live next = Some (e', next') -> next <= next' ∧ sem e' rho w = sem v rho w.
Proof.
  unfold borrow_tail. destruct (dead_borrows _ _ _); simpl; intros Hr; injection Hr as <- <-;
    (split; [lia|]); [done|apply sem_after].
Qed.

Lemma kept_if c thn els t : kept thn -> kept els -> kept (CE (K_If c thn els) t).
Proof.
  intros IHt IHe S live next e' next' rho w Ha Hs HS Hb Hr. simpl in Ha, Hs, Hb.
  apply andb_true_iff in Ha as [[_ Ha1]%andb_true_iff Ha2].
  apply andb_true_iff in Hs as [[_ Hs1]%andb_true_iff Hs2].
  apply Forall_app in Hb as [_ [Hb1 Hb2]%Forall_app].
  cbn [owned] in Hr. unfold conditional in Hr.
  unfold mbind, sm_bind in Hr. destruct (owned C cb thn live next) as [[thn2 n1]|] eqn:Et; [|done].
  destruct (owned C cb els live n1) as [[els2 n2]|] eqn:Ee; [|done].
  destruct (IHt S live next thn2 n1 rho w) as [L1 _]; try done.
  assert (L2 : n1 <= n2).
  { eapply (IHe S live n1 els2 n2 rho w); try done.
    - intros x Hx. specialize (HS x Hx). lia.
    - eapply Forall_impl; [exact Hb2|]. simpl. lia. }
  injection Hr as <- <-. split; [lia|].
  transitivity (sem (CE (K_If c (dropify (elements ((live ∪ fv_owned C thn ∪ fv_owned C els) ∖ fv_owned C thn ∖ live)) thn2)
     (dropify (elements ((live ∪ fv_owned C thn ∪ fv_owned C els) ∖ fv_owned C els ∖ live)) els2)) t) rho w).
  { by repeat case_match. }
  simpl. apply sm_bind_ext; [done|]. intros v w'. destruct (i_bool v) as [[]|]; [| |done].
  - rewrite sem_dropify. by eapply (IHt S live next thn2 n1).
  - rewrite sem_dropify. eapply (IHe S live n1 els2 n2); try done.
    + intros x Hx. specialize (HS x Hx). lia.
    + eapply Forall_impl; [exact Hb2|]. simpl. lia.
Qed.

Lemma kept_let l v b t : kept v -> kept b -> kept (CE (K_Let l v b) t).
Proof.
  intros IHv IHb S live next e' next' rho w Ha Hs HS Hb Hr. simpl in Ha, Hs, Hb.
  apply andb_true_iff in Ha as [Ha1 Ha2].
  apply andb_true_iff in Hs as [[Hs1 _]%andb_true_iff Hs2].
  apply Forall_app in Hb as [Hb1 [Hl Hb2]%Forall_cons].
  cbn [owned] in Hr. unfold binding, mbind, sm_bind in Hr.
  destruct (owned C cb b live next) as [[b2 n1]|] eqn:Eb; [|done].
  assert (HS' : forall x, x ∈ {[l]} ∪ S -> x < next).
  { intros x [->%elem_of_singleton|Hx]%elem_of_union; auto. }
  pose proof (fun rho w => IHb _ live next b2 n1 rho w Ha2 Hs2 HS' Hb2 Eb) as Hbody.
  destruct (Hbody rho w) as [L1 _].
  assert (Hdrop : forall (c : bool) rho w,
    sem (if c then drop_ l b2 else b2) rho w = sem b rho w).
  { intros c rho' w'. destruct c; apply Hbody. }
  destruct (is_projection v).
  - injection Hr as <- <-. split; [done|]. simpl. apply sm_bind_ext; [done|].
    intros x w'. rewrite sem_dropify. apply Hdrop.
  - destruct (owned C cb v _ n1) as [[v2 n2]|] eqn:Ev; [|done]. injection Hr as <- <-.
    assert (Hval : forall rho w, n1 <= n2 ∧ sem v2 rho w = sem v rho w).
    { intros rho' w'. eapply IHv; try done.
      - intros x Hx. specialize (HS x Hx). lia.
      - eapply Forall_impl; [exact Hb1|]. simpl. lia. }
    destruct (Hval rho w) as [L2 Hv]. split; [lia|]. simpl. apply sm_bind_ext; [done|].
    intros x w'. apply Hdrop.
Qed.

Lemma kept_letmany ls v b t : kept v -> kept b -> kept (CE (K_LetMany ls v b) t).
Proof.
  intros IHv IHb S live next e' next' rho w Ha Hs HS Hb Hr. simpl in Ha, Hs, Hb.
  apply andb_true_iff in Ha as [[_ Ha1]%andb_true_iff Ha2].
  apply andb_true_iff in Hs as [[Hs1 _]%andb_true_iff Hs2].
  apply Forall_app in Hb as [Hb1 [Hl Hb2]%Forall_app].
  cbn [owned] in Hr. unfold letmany, mbind, sm_bind in Hr.
  destruct (owned C cb b live next) as [[b2 n1]|] eqn:Eb; [|done].
  assert (HS' : forall x, x ∈ list_to_set ls ∪ S -> x < next).
  { rewrite Forall_forall in Hl. intros x [Hx%elem_of_list_to_set|Hx]%elem_of_union; auto. }
  pose proof (fun rho w => IHb _ live next b2 n1 rho w Ha2 Hs2 HS' Hb2 Eb) as Hbody.
  destruct (Hbody rho w) as [L1 _].
  destruct (multi_operands cb v) as [[args bs]|].
  - injection Hr as <- <-. split; [done|]. rewrite sem_dups. simpl. apply sm_bind_ext; [done|].
    intros x w'. destruct (i_split _ x) as [vs|]; [|done]. destruct (decide _); [|done].
    rewrite !sem_dropify. apply Hbody.
  - destruct (owned C cb v _ n1) as [[v2 n2]|] eqn:Ev; [|done]. injection Hr as <- <-.
    assert (Hval : forall rho w, n1 <= n2 ∧ sem v2 rho w = sem v rho w).
    { intros rho' w'. eapply IHv; try done.
      - intros x Hx. specialize (HS x Hx). lia.
      - eapply Forall_impl; [exact Hb1|]. simpl. lia. }
    destruct (Hval rho w) as [L2 Hv]. split; [lia|]. simpl. apply sm_bind_ext; [done|].
    intros x w'. destruct (i_split _ x) as [vs|]; [|done]. destruct (decide _); [|done].
    rewrite sem_dropify. apply Hbody.
Qed.

Lemma owned_kept e : kept e.
Proof.
  induction e as [[k t] IH] using CExpr_children_ind.
  destruct k; simpl in IH; try (by intros S live next e' next' rho w Ha);
    try (apply Forall_cons in IH as [IH1 IH]); try (apply Forall_cons in IH as [IH2 IH]);
    try (apply Forall_cons in IH as [IH3 _]);
    try (by apply kept_let); try (by apply kept_letmany); try (by apply kept_if);
    intros S live next e' next' rho w Ha Hs HS Hb Hr; cbn [owned] in Hr;
    try (injection Hr as <- <-; by split); simpl in Ha, Hs.
  - injection Hr as <- <-. split; [done|]. by destruct (_ || _).
  - apply andb_true_iff in Ha as [_ Ha].
    eapply (kept_operands _ args _ _ (i_op (O_Prim op) t) S); try done; done.
  - eapply (kept_operands _ args _ _ (i_op (O_Foreign symbol marshalled) t) S); try done; done.
  - destruct reuse; [|done]. apply andb_true_iff in Hs as [Hs1 Hs2].
    eapply (kept_operands _ (func :: args) _ _ (i_op (O_App alloc) t)); [done| |exact HS| | |exact Hr].
    + simpl. by rewrite Hs1.
    + intros rho' w'. simpl. rewrite sm_bind_assoc. apply sm_bind_ext; [done|].
      intros f w2. by rewrite sm_bind_assoc.
    + intros [|f ops'] rho' w' Hl; [done|]. simpl. rewrite sm_bind_assoc. apply sm_bind_ext; [done|].
      intros f' w2. by rewrite sm_bind_assoc.
  - eapply (kept_operands _ components _ _ (i_op O_Spread t) S); try done; done.
  - injection Hr as <- <-. split; [done|]. apply sem_dups.
  - destruct reuse; [done|].
    eapply (kept_operands _ args _ _ (i_op (O_MakeData tag scalars niche) t) S); try done; done.
  - by eapply borrow_tail_sem.
  - by eapply borrow_tail_sem.
Qed.
End RcSem.

(** Reference counting preserves the program.  Whatever the values, the world and the meaning
    of operations, the counted tree returns the same value and world as its input, for every
    capture set, live set and callee signature: only duplicates, drops and fresh temporaries were
    added, and no operation was moved, lost or repeated. *)
Theorem owned_preserves C cb S e live next e' next' V W (I : Interp V W) rho w :
  anf_form e = true -> scoped S e = true -> (forall x, x ∈ S -> x < next) ->
  Forall (fun x => x < next) (binders e) -> owned C cb e live next = Some (e', next') ->
  sem e' rho w = sem e rho w.
Proof. intros. by eapply owned_kept. Qed.

Lemma owned_preserves_witness :
  exists e' n', owned ∅ Sample.borrows Sample.flat ∅ 4 = Some (e', n') ∧
    sem (H := counter) e' (fun x => x) 0 = sem (H := counter) Sample.flat (fun x => x) 0.
Proof.
  eexists _, _. split; [vm_compute; reflexivity|].
  eapply (owned_preserves ∅ Sample.borrows (list_to_set [0; 1; 2]) Sample.flat ∅ 4);
    [reflexivity|vm_compute; reflexivity| | |vm_compute; reflexivity].
  - intros x Hx%elem_of_list_to_set. revert x Hx. apply below_list. reflexivity.
  - repeat constructor.
Defined.

(** ** The reuse pass *)

Section Meaning.
Context {V W : Type} `{Interp V W}.

Lemma attach_sem v t v' rho w : attach_reuse v t = Some v' -> sem v' rho w = sem v rho w.
Proof. destruct v as [[] ty]; try done. destruct reuse; [done|]. by intros [= <-]. Qed.

Lemma threads_sem t e e' : threads t e e' -> forall rho w, sem e' rho w = sem e rho w.
Proof.
  induction 1; intros rho w; simpl; try done.
  - apply sm_bind_ext; [by eapply attach_sem|done].
  - apply sm_bind_ext; [done|]. intros v w'. apply IHthreads.
  - apply sm_bind_ext; [done|]. intros c w'. by destruct (i_bool c) as [[]|].
  - apply sm_bind_ext; [done|]. intros v w'. apply IHthreads.
Qed.

Lemma releases_sem x n e n' e' : releases x n e n' e' -> forall rho w, sem e' rho w = sem e rho w.
Proof.
  induction 1; intros rho w; simpl; try done.
  - by apply (threads_sem n).
  - apply sm_bind_ext; [done|]. intros c w'. by destruct (i_bool c) as [[]|].
  - apply sm_bind_ext; [done|]. intros v w'. apply IHreleases.
  - apply sm_bind_ext; [done|]. intros v w'. apply IHreleases.
Qed.

Lemma passes_sem n e n' e' : passes n e n' e' -> forall rho w, sem e' rho w = sem e rho w.
Proof.
  induction 1; intros rho w; simpl; try done.
  - rewrite (releases_sem _ _ _ _ _ H1). apply IHpasses.
  - apply sm_bind_ext; [done|]. intros v w'. apply IHpasses2.
  - apply sm_bind_ext; [done|]. intros v w'. destruct (i_split _ v); [|done]. by case_decide.
  - apply sm_bind_ext; [done|]. intros c w'. by destruct (i_bool c) as [[]|].
  - apply sm_bind_ext; [done|]. intros v w'. apply IHpasses.
Qed.

Lemma reuse_step_sem db off owners e n e' n' rho w :
  flat e = true -> reuse_step db off owners e n = Some (e', n') -> sem e' rho w = sem e rho w.
Proof.
  intros Hf. unfold reuse_step. destruct off; [by intros [= <- <-]|].
  set (data := with_sizes _ _). intros E. destruct (pass_refines data e Hf n) as (e2 & n2 & E2 & P). rewrite E2 in E. injection E as <- <-.
  by apply (passes_sem n e n2).
Qed.
End Meaning.

(** C35: The reuse pass preserves the program.  On a tree with atomic operands it returns, whatever
    the candidates, and whatever the values, the world and the meaning of operations, the tree
    with recycled cells returns the value and the world of its input: tokens never move, repeat
    or drop a computation. *)
Theorem reuse_pass_preserves data e n (Hflat : flat e = true) :
  exists e' n', reuse_pass data e n = Some (e', n') ∧
    forall V W (I : Interp V W) rho w, sem e' rho w = sem e rho w.
Proof.
  destruct (pass_refines data e Hflat n) as (e' & n' & E & P). exists e', n'. split; [done|].
  intros V W I rho w. by apply (passes_sem n e n').
Qed.

Lemma reuse_pass_preserves_witness :
  exists e' n', reuse_pass Recycle.data Recycle.tree 3 = Some (e', n') ∧
    forall V W (I : Interp V W) rho w, sem e' rho w = sem Recycle.tree rho w.
Proof. apply (reuse_pass_preserves Recycle.data Recycle.tree 3). reflexivity. Defined.
