(* ===== verification/Insert.v ===== *)
(** * Reference counting a definition

    The steps of [rc_lowered] that insert counts and recycle cells, composed: fresh slots,
    A-normal form, the free owned slots, the precise insertion, the reuse pass, and the drops
    of unused parameters.  The composition is total, preserves what a body computes, and
    [check_rc] accepts its result when no operation lends and consumes one owned local; a call
    that lends a dead local after it consumes it is rejected. *)

From S2P Require Import Prelude Types Ir Niche Verify Frame Rc ReuseCandidates ReuseSizes Reuse RcFv RcState RcSound RcOwned ReuseSound RcFlat Sem Anf RcSem.
From stdpp Require Import gmap list strings.
From Stdlib Require Import ZArith Lia.

(** The parameters whose position is flagged, and the others. *)
Fixpoint split_params (flag : nat -> bool) (pos : nat) (params : list LocalId)
    : list LocalId * list LocalId :=
  match params with
  | [] => ([], [])
  | p :: params =>
      let '(lent, owned) := split_params flag (S pos) params in
      if flag pos then (p :: lent, owned) else (lent, p :: owned)
  end.

(** [borrowed]: the captures, and the parameters the signature lends. *)
Definition borrowed_slots (flag : nat -> bool) (f : CoreFn) : gset LocalId :=
  list_to_set (fn_captures f) ∪ list_to_set (split_params flag 0 (fn_params f)).1.

(** What the reuse step of a definition depends on besides its trees: the declarations, the
    allocation control, and the cells whose fields an earlier pass took over. *)
Record ReuseEnv := MkReuseEnv { re_db : Db; re_off : bool; re_owners : gset LocalId }.

Section Count.
Context (cb : DefId -> nat -> list bool) (env : ReuseEnv).

(** One function of [rc_lowered], the optimisation passes between these steps left out. *)
Definition count_fn (flag : nat -> bool) (f : CoreFn) : SM nat CoreFn :=
  let C := borrowed_slots flag f in
  body ← anf (fn_body f);
  let used := fv_owned C body in
  body ← owned C cb body ∅;
  body ← reuse_step (re_db env) (re_off env) (re_owners env) body;
  mret (MkCoreFn (fn_params f) (fn_captures f) (drop_unused_params used C (fn_params f) body)).

Definition entry_flag (sig : list bool) (i : nat) (pos : nat) : bool := (i =? 0) && nth_flag sig pos.

Fixpoint count_fns (sig : list bool) (i : nat) (fns : list CoreFn) : SM nat (list CoreFn) :=
  match fns with
  | [] => mret []
  | f :: fns =>
      f ← count_fn (entry_flag sig i) f;
      fns ← count_fns sig (S i) fns;
      mret (f :: fns)
  end.

Definition count_def (sig : list bool) (d : LoweredDef) : option LoweredDef :=
  match count_fns sig 0 (ld_fns d) (next_free_local d) with
  | Some (fns, _) => Some (MkLoweredDef (ld_def d) fns sig None [] [])
  | None => None
  end.

(** No call of a normalized body both lends and consumes one local. *)
Fixpoint fns_conflict_free (sig : list bool) (i : nat) (fns : list CoreFn) (next : nat) : bool :=
  match fns with
  | [] => true
  | f :: fns =>
      match anf (fn_body f) next, count_fn (entry_flag sig i) f next with
      | Some (body, _), Some (_, next) =>
          conflict_free (borrowed_slots (entry_flag sig i) f) cb body &&
          fns_conflict_free sig (S i) fns next
      | _, _ => false
      end
  end.
End Count.

(** What lowering guarantees of a function: distinct slots, every use bound. *)
Definition fn_wf (f : CoreFn) : bool :=
  source_form (fn_body f) &&
  scoped (list_to_set (fn_params f ++ fn_captures f)) (fn_body f) &&
  bool_decide (NoDup (fn_params f ++ fn_captures f ++ binders (fn_body f))).

(** ** Fresh slots *)

Lemma foldl_max_ge {A} (f : nat -> A -> nat) xs :
  (forall m x, m <= f m x) -> forall m, m <= foldl f m xs.
Proof.
  intros H. induction xs as [|x xs IH]; intros m; simpl; [lia|].
  specialize (IH (f m x)). specialize (H m x). lia.
Qed.

Lemma foldl_max_in {A} (f : nat -> A -> nat) xs x (y : nat) :
  x ∈ xs -> (forall m x, m <= f m x) -> (forall m, y < f m x) -> forall m, y < foldl f m xs.
Proof.
  intros Hx Hf Hy. induction Hx as [x xs|x z xs Hx IH]; intros m; simpl; [|by apply IH].
  specialize (Hy m). pose proof (foldl_max_ge f xs Hf (f m x)). lia.
Qed.

Lemma foldl_max_ge_forall {A} (f : A -> nat -> nat) xs :
  Forall (fun x => forall m, m <= f x m) xs -> forall m, m <= foldl (fun m x => f x m) m xs.
Proof. induction 1 as [|x xs H _ IH]; intros m; simpl; [lia|]. specialize (IH (f x m)). specialize (H m). lia. Qed.

(** [max_local] only raises its bound, and raises it over every binder. *)
Lemma max_local_ge e : forall m, m <= max_local e m.
Proof.
  induction e as [[k t] IH] using CExpr_children_ind. intros m.
  assert (Hl : forall (ls : list LocalId) m, m <= foldl (fun m l => m `max` S l) m ls)
    by (intros; apply foldl_max_ge; lia).
  assert (Hargs : forall args, Forall (fun e => forall m, m <= max_local e m) args ->
    forall m, m <= foldl (fun m a => max_local a m) m args) by (intros; by apply foldl_max_ge_forall).
  destruct k; simpl in IH; try (apply Forall_cons in IH as [IH1 IH]);
    try (apply Forall_cons in IH as [IH2 IH]); try (apply Forall_cons in IH as [IH3 _]); simpl;
    try lia; try by auto.
  - etransitivity; [|apply foldl_max_ge; intros ? []; lia].
    etransitivity; [apply IH1|by apply Hargs].
  - specialize (IH1 m). specialize (IH2 (max_local cond m)).
    specialize (IH3 (max_local thn (max_local cond m))). lia.
  - specialize (IH1 (m `max` S local)). specialize (IH2 (max_local value (m `max` S local))). lia.
  - specialize (Hl locals m). set (m1 := foldl _ m locals) in *.
    specialize (IH1 m1). specialize (IH2 (max_local value m1)). lia.
  - specialize (IH1 m). destruct index; lia.
  - specialize (IH1 (m `max` S token)). specialize (IH2 (max_local value (m `max` S token))). lia.
  - specialize (IH1 (m `max` S token)). lia.
  - specialize (IH1 (m `max` S local)). lia.
  - specialize (IH1 (m `max` S local)). lia.
  - specialize (Hl params m). set (m1 := foldl _ m params) in *. specialize (IH1 m1). lia.
  - specialize (IH1 (m `max` S hole)). lia.
  - specialize (IH1 (m `max` S hole)). lia.
  - specialize (IH1 (m `max` S hole)). lia.
Qed.

Lemma max_local_binders e x : x ∈ binders e -> forall m, x < max_local e m.
Proof.
  induction e as [[k t] IH] using CExpr_children_ind.
  assert (Hls : forall ls m, x ∈ ls -> x < foldl (fun m l => m `max` S l) m ls).
  { intros ls m Hx. apply (foldl_max_in _ ls x); [done|lia|lia]. }
  assert (Hargs : forall args, Forall (fun e => x ∈ binders e -> forall m, x < max_local e m) args ->
    x ∈ mjoin (binders <$> args) -> forall m, x < foldl (fun m a => max_local a m) m args).
  { intros args Ha (a & Hin & Hx)%elem_of_binders_list m. rewrite Forall_forall in Ha.
    apply (foldl_max_in _ args a); [done|intros; apply max_local_ge|auto]. }
  assert (Hge : forall e m, x < m -> x < max_local e m).
  { intros e m Hx. pose proof (max_local_ge e m). lia. }
  assert (Hfold : forall (r : list (option LocalId)) m, x < m ->
    x < foldl (fun m t => match t with Some t => m `max` S t | None => m end) m r).
  { intros r m Hx. pose proof (foldl_max_ge (fun m (t : option LocalId) =>
      match t with Some t => m `max` S t | None => m end) r ltac:(intros ? []; lia) m). lia. }
  assert (Hfa : forall args m, x < m -> x < foldl (fun m a => max_local a m) m args).
  { intros args m Hx. pose proof (foldl_max_ge (fun m a => max_local a m) args
      ltac:(intros; apply max_local_ge) m). simpl in *. lia. }
  destruct k; simpl in IH; try (apply Forall_cons in IH as [IH1 IH]);
    try (apply Forall_cons in IH as [IH2 IH]); try (apply Forall_cons in IH as [IH3 _]); simpl;
    rewrite ?elem_of_app, ?elem_of_cons, ?elem_of_nil; try tauto; intros Hx m;
    try (by apply Hargs); try (by apply IH1).
  - apply Hfold. destruct Hx as [Hx|Hx]; [by apply Hfa, IH1|by apply Hargs].
  - destruct Hx as [Hx|[Hx|Hx]]; auto.
  - destruct Hx as [Hx|[->|Hx]]; [by apply Hge, IH1| |by apply IH2]. apply Hge, Hge. lia.
  - destruct Hx as [Hx|[Hx|Hx]]; [by apply Hge, IH1| |by apply IH2]. by apply Hge, Hge, Hls.
  - destruct index; [by apply IH1|]. specialize (IH1 Hx m). lia.
  - destruct Hx as [Hx|[->|Hx]]; [by apply Hge, IH1| |by apply IH2]. apply Hge, Hge. lia.
  - destruct Hx as [Hx|Hx]; [by apply Hge, Hls|by apply IH1].
  - destruct Hx as [->|Hx]; [apply Hge; lia|by apply IH1].
Qed.

Lemma next_free_local_bound d f x :
  f ∈ ld_fns d -> x ∈ fn_params f ++ fn_captures f ++ binders (fn_body f) ->
  x < next_free_local d.
Proof.
  intros Hf Hx. unfold next_free_local.
  assert (Hls : forall ls m, x ∈ ls -> x < foldl (fun m l => m `max` S l) m ls).
  { intros ls m Hin. apply (foldl_max_in _ ls x); [done|lia|lia]. }
  assert (Hge : forall ls m, m <= foldl (fun m l => m `max` S l) m ls).
  { intros ls m. apply foldl_max_ge. lia. }
  apply (foldl_max_in _ _ f); [done| |].
  - intros m g. etransitivity; [|apply max_local_ge]. etransitivity; [apply Hge|apply Hge].
  - intros m. rewrite !elem_of_app in Hx. destruct Hx as [Hx|[Hx|Hx]]; [| |by apply max_local_binders].
    + eapply Nat.lt_le_trans; [by apply Hls|]. etransitivity; [apply Hge|apply max_local_ge].
    + eapply Nat.lt_le_trans; [by apply Hls|apply max_local_ge].
Qed.

(** ** The states [check_rc] starts from *)

Lemma init_params_spec flag params : forall pos C R,
  NoDup params ->
  init_params flag pos params (C, R) =
  (list_to_set (split_params flag pos params).1 ∪ C, ones (split_params flag pos params).2 R).
Proof.
  induction params as [|p params IH]; intros pos C R Hnd; simpl.
  - f_equal. set_solver.
  - apply NoDup_cons in Hnd as [_ Hnd]. destruct (flag pos); rewrite IH by done;
      destruct (split_params flag (S pos) params) as [lent own]; simpl; [f_equal; set_solver|done].
Qed.

Lemma elem_of_split flag params x : forall pos,
  x ∈ params <-> x ∈ (split_params flag pos params).1 \/ x ∈ (split_params flag pos params).2.
Proof.
  induction params as [|p params IH]; intros pos; simpl; [set_solver|].
  specialize (IH (S pos)). destruct (split_params flag (S pos) params), (flag pos); simpl in *; set_solver.
Qed.

Lemma split_disjoint flag params x : forall pos, NoDup params ->
  x ∈ (split_params flag pos params).1 -> x ∉ (split_params flag pos params).2.
Proof.
  induction params as [|p params IH]; intros pos Hnd; simpl; [set_solver|].
  apply NoDup_cons in Hnd as [Hp Hnd]. specialize (IH (S pos) Hnd).
  rewrite (elem_of_split flag params _ (S pos)) in Hp.
  destruct (split_params flag (S pos) params), (flag pos); simpl in *; set_solver.
Qed.

(** The drops at entry are those of the unused owned parameters. *)
Lemma drop_unused_filter used C params body :
  drop_unused_params used C params body =
  foldr drop_ body (List.filter (fun p => negb (bool_decide (p ∈ used)) && negb (bool_decide (p ∈ C))) params).
Proof. induction params as [|p params IH]; [done|]. simpl. rewrite IH. by case_match. Qed.

Lemma scoped_fv C e : forall S, scoped S e = true -> fv_owned C e ⊆ S.
Proof.
  induction e as [[k t] IH] using CExpr_children_ind. intros S Hs.
  assert (Hargs : forall args, Forall (fun e => forall S, scoped S e = true -> fv_owned C e ⊆ S) args ->
    forallb (scoped S) args = true -> fvs C args ⊆ S).
  { unfold fvs. induction 1 as [|a args Ha _ IHa]; simpl; [set_solver|].
    intros [H1 H2]%andb_true_iff. specialize (Ha S H1). specialize (IHa H2).
    change (⋃ (fv_owned C a :: (fv_owned C <$> args)) ⊆ S). rewrite union_list_cons. set_solver. }
  destruct k; simpl in IH; try (apply Forall_cons in IH as [IH1 IH]);
    try (apply Forall_cons in IH as [IH2 IH]); try (apply Forall_cons in IH as [IH3 _]);
    simpl in Hs; try done;
    try (change (fv_owned C _) with (∅ : gset nat); set_solver +);
    autorewrite with fv; try by apply Hargs.
  - apply bool_decide_eq_true in Hs. set_solver.
  - destruct reuse; [|done]. apply andb_true_iff in Hs as [H1 H2].
    specialize (IH1 S H1). specialize (Hargs args IH H2). unfold fvs in *.
    rewrite fmap_cons, union_list_cons. set_solver.
  - apply andb_true_iff in Hs as [[H1 H2]%andb_true_iff H3].
    specialize (IH1 S H1). specialize (IH2 S H2). specialize (IH3 S H3). set_solver.
  - apply andb_true_iff in Hs as [[H1 H2]%andb_true_iff H3].
    specialize (IH1 S H1). specialize (IH2 _ H3). set_solver.
  - apply andb_true_iff in Hs as [[H1 H2]%andb_true_iff H3].
    specialize (IH1 S H1). specialize (IH2 _ H3). set_solver.
  - rewrite forallb_forall in Hs. intros x Hx. apply elem_of_difference in Hx as [Hx%elem_of_list_to_set _].
    specialize (Hs x (proj1 (list_elem_of_In _ _) Hx)). by apply bool_decide_eq_true in Hs.
  - destruct reuse; [done|]. by apply Hargs.
  - by apply IH1.
  - apply andb_true_iff in Hs as [H1 H2]. specialize (IH1 S H1).
    destruct index; [set_solver|]. apply bool_decide_eq_true in H2. set_solver.
Qed.

Lemma filter_nil_zero (R : gmap LocalId Z) :
  (forall x n, R !! x = Some n -> n = 0%Z) ->
  List.filter (fun p => negb (p.2 =? 0)%Z) (map_to_list R) = [].
Proof.
  intros H. assert (Hl : forall p, p ∈ map_to_list R -> p.2 = 0%Z).
  { intros [x n] Hp%elem_of_map_to_list. by eapply H. }
  induction (map_to_list R) as [|p l IH]; [done|]. simpl.
  rewrite (Hl p) by set_solver +. simpl. apply IH. intros q Hq. apply Hl. by right.
Qed.

(** ** One function *)

Section Accept.
Context (cb : DefId -> nat -> list bool) (env : ReuseEnv) (flag : nat -> bool) (f : CoreFn) (next : nat).

Let C := borrowed_slots flag f.
Let own := (split_params flag 0 (fn_params f)).2.
Let S : gset LocalId := list_to_set (fn_params f ++ fn_captures f).

Hypothesis Hwf : fn_wf f = true.
Hypothesis Hnext : forall x, x ∈ fn_params f ++ fn_captures f ++ binders (fn_body f) -> x < next.

Lemma wf_parts :
  NoDup (fn_params f) ∧ (forall x, x ∈ fn_params f -> x ∉ fn_captures f) ∧
  fits S (fn_body f) next.
Proof.
  pose proof Hwf as H. unfold fn_wf in H.
  apply andb_true_iff in H as [[H1 H2]%andb_true_iff H3]. apply bool_decide_eq_true in H3.
  apply NoDup_app in H3 as (N1 & N2 & N3). apply NoDup_app in N3 as (N3 & N4 & N5).
  split_and!; [done| |].
  - intros x Hx Hc. apply (N2 x Hx), elem_of_app. by left.
  - split; try done.
    + intros x Hx. unfold S. rewrite elem_of_list_to_set, elem_of_app. intros [Hp|Hp].
      * apply (N2 x Hp), elem_of_app. by right.
      * by apply (N4 x Hp).
    + intros x Hx. apply Hnext. rewrite !elem_of_app. tauto.
    + intros x. unfold S. rewrite elem_of_list_to_set, elem_of_app. intros Hx.
      apply Hnext. rewrite !elem_of_app. tauto.
Qed.

Lemma own_spec x : x ∈ own <-> x ∈ S ∧ x ∉ C.
Proof.
  destruct wf_parts as (Hnd & Hdis & _). unfold own, S, C, borrowed_slots.
  rewrite elem_of_list_to_set, elem_of_app, elem_of_union, !elem_of_list_to_set.
  pose proof (elem_of_split flag (fn_params f) x 0) as Hs.
  pose proof (split_disjoint flag (fn_params f) x 0 Hnd) as Hd.
  pose proof (Hdis x). tauto.
Qed.

Lemma start_refs : init_params flag 0 (fn_params f) (list_to_set (fn_captures f), ∅) = (C, ones own ∅).
Proof.
  destruct wf_parts as (Hnd & _). rewrite init_params_spec by done. f_equal.
  unfold C, borrowed_slots. set_solver +.
Qed.

Lemma dom_own : dom (ones own ∅) ⊆ S.
Proof.
  intros x [n Hx]%elem_of_dom. rewrite lookup_ones in Hx. case_decide as Hin; [|done].
  by apply own_spec in Hin as [? _].
Qed.

Lemma start_scope n : next <= n -> in_scope C S ∅ (ones own ∅) n.
Proof.
  intros Hle. destruct wf_parts as (_ & _ & Hf). split.
  - intros x. unfold C, borrowed_slots, S. rewrite !elem_of_union, !elem_of_list_to_set, elem_of_app.
    rewrite (elem_of_split flag (fn_params f) x 0). tauto.
  - set_solver +.
  - apply dom_own.
  - intros x Hx. pose proof (fits_next _ _ _ Hf x Hx). lia.
Qed.

(** The counted tree's slots lie below the counter, whatever [X] was released at entry. *)
Lemma start_above X n1 n2 body e :
  next <= n1 -> n1 <= n2 -> (forall x, x ∈ binders body -> x ∈ binders (fn_body f) ∨ next <= x < n1) ->
  (forall x, x ∈ bound_slots e -> x ∈ binders body ∨ n1 <= x < n2) ->
  fresh_above C n2 e (St (zero X (ones own ∅)) None).
Proof.
  intros H1 H2 Hb He. destruct wf_parts as (_ & _ & Hf).
  assert (HS : forall x, x ∈ S -> x < n2) by (intros x Hx; pose proof (fits_next _ _ _ Hf x Hx); lia).
  split; simpl.
  - intros x Hx. apply HS. revert Hx. unfold C, borrowed_slots, S.
    rewrite elem_of_union, !elem_of_list_to_set, elem_of_app, (elem_of_split flag (fn_params f) x 0). tauto.
  - intros x [[Hx|Hx]%Hb|Hx]%He; [pose proof (fits_below _ _ _ Hf x Hx)|..]; lia.
  - rewrite dom_zero. intros x Hx%dom_own%HS. by apply elem_of_below.
  - rewrite dom_empty_L. set_solver +.
Qed.

Lemma start_nonneg X : nonneg (zero X (ones own ∅)).
Proof.
  intros x n. rewrite lookup_zero, lookup_ones, lookup_empty.
  repeat case_decide; simpl; intros Hn; simplify_eq; lia.
Qed.

(** Counting a well-formed function never panics. *)
Lemma count_fn_total : exists f' n', count_fn cb env flag f next = Some (f', n') ∧ next <= n'.
Proof.
  destruct wf_parts as (_ & _ & Hfit). destruct (anf_facts S (fn_body f) next Hfit) as (b & n1 & Ea & Hn1 & Hform & _).
  unfold count_fn, mbind, sm_bind. rewrite Ea. destruct (owned_total (borrowed_slots flag f) cb b Hform ∅ n1) as [[e' n2] Eo]. rewrite Eo.
  destruct (owned_shape _ _ _ _ _ _ _ Hform Eo) as (Hflat & Hn2 & _). unfold reuse_step. destruct (re_off env).
  - eexists _, _. split; [done|lia].
  - set (data := with_sizes _ _). destruct (pass_refines data e' Hflat n2) as (e2 & n3 & -> & P).
    pose proof (passes_mono _ _ _ _ P). eexists _, _. split; [done|lia].
Qed.

(** A function whose normalized body never lends and consumes one local in one call is
    counted without a panic, and [check_fn] accepts the result. *)
Lemma count_fn_accept body n1 idx :
  anf (fn_body f) next = Some (body, n1) -> conflict_free C cb body = true ->
  exists f' n', count_fn cb env flag f next = Some (f', n') ∧ next <= n' ∧
    fn_params f' = fn_params f ∧ fn_captures f' = fn_captures f ∧
    check_fn cb idx flag f' = Ok tt.
Proof.
  intros Hanf Hcf. destruct wf_parts as (Hnd & Hdis & Hfit).
  destruct (anf_facts S (fn_body f) next Hfit) as (b & n1' & E & Hn1 & Hform & Hsc & Hndb & Hbnd & _).
  rewrite Hanf in E. injection E as <- <-.
  set (used := fv_owned C body). pose proof (scoped_fv C body S Hsc) as Hused.
  set (unused := List.filter (fun p => negb (bool_decide (p ∈ used)) && negb (bool_decide (p ∈ C))) (fn_params f)).
  assert (Hun : forall x, x ∈ unused ↔ x ∈ own ∧ x ∉ used).
  { intros x. unfold unused. rewrite list_elem_of_In, filter_In, <- list_elem_of_In.
    rewrite own_spec. unfold S. rewrite elem_of_list_to_set, elem_of_app.
    rewrite andb_true_iff, !negb_true_iff, !bool_decide_eq_false.
    assert (x ∈ fn_captures f -> x ∈ C) by (unfold C, borrowed_slots; set_solver +). tauto. }
  set (R0 := zero (list_to_set unused) (ones own ∅)).
  assert (HownC : forall x, x ∈ own -> x ∉ C) by (intros x [_ ?]%own_spec; done).
  destruct (owned_accept C cb body S ∅ n1 R0 None) as (e' & n2 & Eo & Hn2 & Hev); try done.
  { rewrite Forall_forall. intros x [Hx|Hx]%Hbnd; [pose proof (fits_below _ _ _ Hfit x Hx); lia|lia]. }
  { by apply in_scope_zero, start_scope. }
  { intros x Hx. unfold R0. rewrite lookup_zero, lookup_ones.
    assert (x ∈ own) by (apply own_spec; split; [by apply Hused|]; intros HC; by apply (fv_captures C body x)).
    rewrite decide_False, decide_True; [done|done|]. rewrite elem_of_list_to_set, Hun. tauto. }
  destruct (owned_shape C cb body ∅ n1 e' n2 Hform Eo) as (Hflat & _ & Hslots).
  destruct (reuse_step_accept C cb (re_db env) (re_off env) (re_owners env) e' n2 (St R0 None) _ Hflat
    (start_above _ _ _ _ _ Hn1 Hn2 Hbnd Hslots) (start_nonneg _) Hev) as (e2 & n3 & Er & Hp & Hev2).
  eexists _, n3. unfold count_fn, mbind, sm_bind. rewrite Hanf. fold C. rewrite Eo, Er.
  pose proof (passes_mono _ _ _ _ Hp). split_and!; [done|lia|done|done|]. unfold check_fn. simpl fn_params. simpl fn_captures.
  rewrite start_refs. simpl fn_body. rewrite drop_unused_filter. fold used. fold unused.
  rewrite eval_drops.
  - fold R0. rewrite Hev2. unfold mbind, result_bind. simpl refs.
    replace (List.filter _ _) with (@nil (LocalId * Z)); [done|].
    symmetry. apply filter_nil_zero. intros x n Hx.
    unfold R0 in Hx. rewrite zero_zero, lookup_zero, lookup_ones in Hx.
    destruct (decide (x ∈ own)) as [Ho|]; [|by case_decide].
    rewrite decide_True in Hx; [by injection Hx as <-|].
    rewrite elem_of_union, elem_of_difference, elem_of_list_to_set, Hun. fold used.
    destruct (decide (x ∈ used)); set_solver.
  - unfold unused. by apply NoDup_ListNoDup, List.NoDup_filter, NoDup_ListNoDup.
  - intros x Hx. apply Hun in Hx as [Ho _]. split; [by apply HownC|].
    by rewrite lookup_ones, decide_True.
Qed.
End Accept.

Lemma count_fns_accept cb env def fns : forall i next,
  forallb fn_wf fns = true ->
  (forall f x, f ∈ fns -> x ∈ fn_params f ++ fn_captures f ++ binders (fn_body f) -> x < next) ->
  exists fns' next', count_fns cb env (entry_borrowed def) i fns next = Some (fns', next') ∧
    (fns_conflict_free cb env (entry_borrowed def) i fns next = true -> check_fns cb def i fns' = Ok tt).
Proof.
  induction fns as [|f fns IH]; intros i next Hwf Hlt; [by exists [], next|].
  simpl in Hwf. apply andb_true_iff in Hwf as [Hwf Hwfs].
  assert (forall x, x ∈ fn_params f ++ fn_captures f ++ binders (fn_body f) -> x < next) as Hltf
    by (intros x Hx; apply (Hlt f); [set_solver +|done]).
  destruct (count_fn_total cb env (entry_flag (entry_borrowed def) i) f next Hwf Hltf) as (f' & n2 & Ec & Hle).
  destruct (IH (S i) n2) as (fns' & n4 & Ef & Hoks); try done.
  { intros g x Hg Hx. eapply Nat.lt_le_trans; [apply (Hlt g); [by right|done]|done]. }
  exists (f' :: fns'), n4. split.
  - simpl. unfold mbind, sm_bind. by rewrite Ec, Ef.
  - simpl. rewrite Ec. destruct (anf (fn_body f) next) as [[body n1]|] eqn:Ea; [|done]. intros [Hcf Hcfs]%andb_true_iff.
    destruct (count_fn_accept cb env (entry_flag (entry_borrowed def) i) f next Hwf Hltf body n1 (Some i) Ea Hcf)
      as (f2 & n3 & Ec' & _ & _ & _ & Hok). rewrite Ec in Ec'. injection Ec' as <- <-.
    unfold entry_flag in Hok. unfold entry_param_borrowed. rewrite Hok. simpl. by apply Hoks.
Qed.

Lemma check_fns_flags cb d1 d2 fns : forall i,
  entry_borrowed d1 = entry_borrowed d2 -> check_fns cb d1 i fns = check_fns cb d2 i fns.
Proof.
  induction fns as [|f fns IH]; intros i H; [done|]. simpl. unfold entry_param_borrowed.
  by rewrite H, (IH (S i) H).
Qed.

(** C1: end to end, reference counting never panics and is accepted by its verifier.  For every
    definition as lowering produces it (distinct slots, every use bound, no reference-counting
    node yet) the insertion returns a definition; and if no operation of a normalized body
    lends and consumes one owned local, [check_rc] returns [Ok] of it: in every function every
    owned parameter and every binder is released exactly once on every path, no slot is used
    after its release, and no borrowed slot is dropped. *)
Theorem count_def_accepted cb env sig d :
  forallb fn_wf (ld_fns d) = true ->
  exists d', count_def cb env sig d = Some d' ∧
    (fns_conflict_free cb env sig 0 (ld_fns d) (next_free_local d) = true -> check_rc d' cb = Ok tt).
Proof.
  intros Hwf. unfold count_def.
  pose (def := MkLoweredDef (ld_def d) (ld_fns d) sig None [] []).
  destruct (count_fns_accept cb env def (ld_fns d) 0 (next_free_local d)) as (fns & n & E & Hok); try done.
  { intros f x Hf. by apply next_free_local_bound. }
  simpl entry_borrowed in E, Hok. rewrite E. eexists. split; [done|]. intros Hcf.
  unfold check_rc. simpl. by rewrite (check_fns_flags cb _ def), Hok.
Qed.

(** Every slot a definition binds - parameters, captures and binders at any depth - lies
    below [next_free_local], so a synthesized binder never collides with one of them. *)
Theorem next_free_local_fresh d f x :
  f ∈ ld_fns d -> x ∈ fn_params f ++ fn_captures f ++ binders (fn_body f) ->
  x < next_free_local d.
Proof. apply next_free_local_bound. Qed.

(** ** Meaning *)

Lemma sem_drop_unused {V W} `{Interp V W} used C params body rho w :
  sem (drop_unused_params used C params body) rho w = sem body rho w.
Proof. rewrite drop_unused_filter. by induction (List.filter _ _). Qed.

(** C3: counting a whole function preserves it: whatever the values, the world and the meaning of
    operations, the counted body computes what the source body does, from every environment. *)
Theorem count_fn_preserves cb env flag f next f' next' V W (I : Interp V W) rho w :
  fn_wf f = true ->
  (forall x, x ∈ fn_params f ++ fn_captures f ++ binders (fn_body f) -> x < next) ->
  count_fn cb env flag f next = Some (f', next') ->
  sem (fn_body f') rho w = sem (fn_body f) rho w.
Proof.
  intros Hwf Hlt Hc. destruct (wf_parts f next Hwf Hlt) as (_ & _ & Hfit).
  destruct (anf_facts _ _ _ Hfit) as (body & n1 & Ea & Hn1 & Hform & Hsc & _ & Hb & M).
  unfold count_fn, mbind, sm_bind in Hc. rewrite Ea in Hc.
  destruct (owned _ _ body ∅ n1) as [[b2 n2]|] eqn:Eo; [|done].
  destruct (owned_shape _ _ _ _ _ _ _ Hform Eo) as (Hflat & _).
  destruct (reuse_step _ _ _ b2 n2) as [[b3 n3]|] eqn:Er; [|done]. injection Hc as <- <-.
  simpl fn_body. rewrite sem_drop_unused, (reuse_step_sem _ _ _ _ _ _ _ _ _ Hflat Er), <- M.
  eapply (owned_kept _ _ body); try done.
  - intros x Hx. pose proof (fits_next _ _ _ Hfit x Hx). lia.
  - rewrite Forall_forall. intros x [Hx|Hx]%Hb; [pose proof (fits_below _ _ _ Hfit x Hx)|]; lia.
Qed.

(** ** Calls that lend and consume one local *)

Section Rejected.
Context (C : gset LocalId) (cb : DefId -> nat -> list bool) (x : LocalId) (Hx : x ∉ C).

(** [x] is an owned slot that holds [n] references. *)
Definition holds_refs (n : nat) (s : CkState) : Prop := refs s !! x = Some (Z.of_nat n) ∧ projections s !! x = None.
(** The verifier stops, or goes on with [n] references to [x]. *)
Definition to_refs (n : nat) (r : result RcError CkState) : Prop := match r with Ok s => holds_refs n s | Err _ => True end.
Definition walk_rejects (r : result RcError CkState) : Prop := exists err, r = Err err.

Lemma rejects_bind (r : result RcError CkState) k n : to_refs n r -> (forall s, holds_refs n s -> walk_rejects (k s)) -> walk_rejects (r ≫= k).
Proof. destruct r as [s|err]; simpl; [auto|]. intros _ _. by exists err. Qed.
Lemma holds_other y m s n : y <> x -> holds_refs n s -> holds_refs n (with_refs (<[y := m]> (refs s)) s).
Proof. intros Hy [H1 H2]. split; [|done]. simpl. by rewrite lookup_insert_ne. Qed.

Lemma consume_other y s n : y <> x -> holds_refs n s -> to_refs n (consume C y s).
Proof. intros Hy H. unfold consume. repeat case_match; try done; by apply holds_other. Qed.
Lemma consume_self s n : holds_refs (S n) s -> to_refs n (consume C x s).
Proof.
  intros [H1 H2]. unfold consume, owned_slot. rewrite H2, H1, bool_decide_eq_false_2 by done. simpl negb. cbv iota.
  destruct (Z.ltb_spec (Z.of_nat (S n)) 1); [lia|]. split; [|done]. simpl. rewrite lookup_insert_eq. f_equal. lia.
Qed.
Lemma borrow_keeps y s n : holds_refs n s -> to_refs n (borrow C y s).
Proof. intros H. unfold borrow. by destruct (borrow_chain _ _ _ _). Qed.
Lemma borrow_released s : holds_refs 0 s -> walk_rejects (borrow C x s).
Proof.
  intros [H1 H2]. unfold borrow. simpl. rewrite H2, H1. unfold owned_slot. rewrite bool_decide_eq_false_2 by done. by eexists.
Qed.
Lemma atom_step a s n : is_atom a = true -> local_of a <> Some x -> holds_refs n s -> to_refs n (eval C cb a s).
Proof. destruct a as [[] t]; try done. intros _ Hl H. apply consume_other; [|done]. intros ->. by apply Hl. Qed.
Lemma local_eq a : local_of a = Some x -> exists t, a = CE (K_Local x) t.
Proof. destruct a as [[] t]; try done. intros [= ->]. by exists t. Qed.

(** The position [i] lends [x] after the last that consumes it. *)
Definition lent_late (bs : list bool) (args : list CExpr) : Prop := exists i a,
  args !! i = Some a ∧ nth_flag bs i = true ∧ local_of a = Some x ∧
  x ∈ consumed_from bs 0 args ∧ x ∉ consumed_from bs i (drop i args).

Abbreviation uses bs i ops := (length (filter (fun y => y = x) (consumed_from bs i ops))).

Lemma late_rejects bs ops : forall k i s, (exists a, ops !! i = Some a ∧ nth_flag bs (k + i) = true ∧ local_of a = Some x) ->
  x ∉ consumed_from bs (k + i) (drop i ops) -> forallb is_atom ops = true -> holds_refs (uses bs k ops) s ->
  walk_rejects (each (fun i a s => operand C (eval C cb) a (nth_flag bs i) s) k ops s).
Proof.
  induction ops as [|a ops IH]; intros k i s Hi Hlast Hat H; [by destruct Hi as (a & Ha & _)|].
  simpl in Hat. apply andb_true_iff in Hat as [Ha Hat]. cbn [each]. destruct i as [|i].
  - destruct Hi as (a' & [= <-] & Hf & Hl). rewrite Nat.add_0_r in Hf, Hlast. simpl drop in Hlast.
    assert (uses bs k (a :: ops) = 0) as Hz.
    { apply length_zero_iff_nil. destruct (filter _ _) as [|y ys] eqn:E; [done|]. exfalso. apply Hlast.
      assert (y ∈ y :: ys) as Hy by left. rewrite <- E in Hy. by apply list_elem_of_filter in Hy as [-> ?]. }
    rewrite Hz in H. destruct (local_eq a Hl) as [t ->]. rewrite Hf. simpl.
    destruct (borrow_released s H) as [err ->]. by exists err.
  - destruct Hi as (a' & Ha' & Hf & Hl). simpl in Ha', Hlast. replace (k + S i) with (S k + i) in * by lia.
    eapply (rejects_bind _ _ (uses bs (S k) ops)); [|intros s' Hs'; eapply IH; eauto].
    cbn [consumed_from] in H. unfold consumes in H. destruct (nth_flag bs k) eqn:Ek.
    + simpl in H. unfold operand. destruct (ce_kind a) eqn:Ea; try (apply borrow_keeps, H);
        apply atom_step; try done; destruct a as [? ?]; simpl in Ea; by subst.
    + simpl operand. destruct (decide (local_of a = Some x)) as [E|E].
      * destruct (local_eq a E) as [t ->]. simpl in H. rewrite filter_cons_True in H by done. by apply consume_self.
      * apply atom_step; [done|done|]. destruct (local_of a) as [y|]; [|done]. simpl in H.
        rewrite filter_cons_False in H; [done|]. intros ->. by apply E.
Qed.

(** Duplicates make up for all consuming uses but the last. *)
Lemma dups_count bs live ops : x ∉ live -> forall i,
  length (filter (fun y => y = x) (dups_from C bs live i ops)) = pred (uses bs i ops).
Proof.
  intros Hlive. induction ops as [|a ops IH]; intros i; [done|]. cbn [dups_from consumed_from].
  destruct (consumes bs i a) as [y|]; [|apply IH]. simpl. destruct (decide (y = x)) as [->|Hy].
  - unfold is_capture. rewrite (bool_decide_eq_false_2 (x ∈ C)), (bool_decide_eq_false_2 (x ∈ live)) by done. simpl.
    rewrite (filter_cons_True _ x (consumed_from _ _ _)) by done. simpl.
    destruct (decide (x ∈ consumed_from bs (S i) ops)) as [Hin|Hin].
    + rewrite bool_decide_eq_true_2, filter_cons_True by done. simpl. rewrite IH.
      assert (x ∈ filter (fun y => y = x) (consumed_from bs (S i) ops)) as Hf by (by apply list_elem_of_filter).
      destruct (filter _ (consumed_from _ _ _)); [by apply elem_of_nil in Hf|done].
    + rewrite bool_decide_eq_false_2, IH by done. destruct (filter _ (consumed_from _ _ _)) as [|y ys] eqn:E; [done|].
      exfalso. apply Hin. assert (y ∈ y :: ys) as Hf by left. rewrite <- E in Hf. by apply list_elem_of_filter in Hf as [-> ?].
  - rewrite (filter_cons_False _ y (consumed_from _ _ _)) by done.
    destruct (_ || _); [by rewrite filter_cons_False|done].
Qed.

Lemma dups_reject e ds : forall s n, holds_refs (S n) s ->
  (forall s, holds_refs (length (filter (fun y => y = x) ds) + S n) s -> walk_rejects (eval C cb e s)) ->
  walk_rejects (eval C cb (foldr dup_ e ds) s).
Proof.
  induction ds as [|y ds IH]; intros s n H He; [by apply He|]. cbn [foldr]. unfold dup_ at 1. cbn [eval].
  destruct (decide (y = x)) as [->|Hy].
  - destruct H as [H1 H2]. rewrite H2, H1. unfold owned_slot. rewrite bool_decide_eq_false_2 by done. simpl negb. cbv iota.
    destruct (Z.ltb_spec (Z.of_nat (S n)) 1); [lia|]. apply (IH _ (S n)).
    + split; [|done]. simpl. rewrite lookup_insert_eq. f_equal. lia.
    + intros s' Hs'. apply He. rewrite filter_cons_True by done. simpl. by rewrite <- Nat.add_succ_r.
  - rewrite filter_cons_False in He by done. eapply (rejects_bind _ _ (S n)); [|intros s' Hs'; by eapply IH].
    destruct (projections s !! y).
    + unfold borrow. destruct (borrow_chain _ _ _ _); [|done]. simpl. destruct (refs s !! y); [by apply holds_other|done].
    + repeat case_match; try done; by apply holds_other.
Qed.

Lemma binds_reject binds e : forall s n, holds_refs n s -> Forall (fun b => is_atom b.2 = true ∧ local_of b.2 = None ∧ b.1 <> x) binds ->
  (forall s, holds_refs n s -> walk_rejects (eval C cb e s)) -> walk_rejects (eval C cb (wrap_binds binds e) s).
Proof.
  induction binds as [|[t a] binds IH]; intros s n H Hb He; [by apply He|].
  apply Forall_cons in Hb as [(Ha & Hl & Ht) Hb]. cbn [wrap_binds foldr eval fst snd]. simpl in Ha, Hl, Ht.
  eapply (rejects_bind _ _ n); [apply atom_step; [done|by rewrite Hl|done]|]. intros s1 H1.
  destruct (peek_parent a) eqn:Ep; [by destruct a as [[] ?]|].
  eapply (rejects_bind _ _ n); [unfold bind_slot; case_match; [done|by apply holds_other]|]. intros s2 H2.
  destruct (IH s2 n H2 Hb He) as [err Herr]. exists err. unfold wrap_binds in Herr. by rewrite Herr.
Qed.

(** [pre_bind] leaves the positions of locals, and what is consumed from each position on. *)
Lemma pre_bind_positions bs ops : forall i next ops' binds n, pre_bind bs i ops next = Some ((ops', binds), n) ->
  forall j, consumed_from bs (i + j) (drop j ops') = consumed_from bs (i + j) (drop j ops) ∧
    (forall a y, ops !! j = Some a -> local_of a = Some y -> ops' !! j = Some a).
Proof.
  induction ops as [|a ops IH]; intros i next ops' binds n.
  { simpl. intros [= <- <- <-] j. by rewrite drop_nil. }
  assert (forall a' ops1 b, (forall y, local_of a = Some y -> a' = a) -> consumes bs i a' = consumes bs i a ->
    forall n0, pre_bind bs (S i) ops b = Some (ops1, n0) -> ops' = a' :: ops1.1 ->
    forall j, consumed_from bs (i + j) (drop j ops') = consumed_from bs (i + j) (drop j (a :: ops)) ∧
      (forall a0 y, (a :: ops) !! j = Some a0 -> local_of a0 = Some y -> ops' !! j = Some a0)) as Hstep.
  { intros a' [ops1 binds1] b Ha Hc n0 Hp -> [|j]; cbn [fst drop].
    - destruct (IH _ _ _ _ _ Hp 0) as [H0 _]. rewrite !Nat.add_0_r, !drop_0 in *. cbn [consumed_from].
      rewrite Hc, H0. split; [done|]. intros a0 y [= <-] Hl. by rewrite (Ha y).
    - destruct (IH _ _ _ _ _ Hp j) as [H1 H2]. replace (i + S j) with (S i + j) by lia. by split. }
  simpl. unfold mbind, sm_bind, consumes in *. destruct (nth_flag bs i) eqn:Ef, (local_of a) as [y|] eqn:El;
    simpl; match goal with |- context [pre_bind bs (S i) ops ?b] => destruct (pre_bind bs (S i) ops b) as [[[o bb] n1]|] eqn:Hp end;
    try done; intros [= <- <- <-]; (eapply Hstep; [| |exact Hp|reflexivity]; done).
Qed.

Lemma consumed_shift b bs i ops : consumed_from (b :: bs) (S i) ops = consumed_from bs i ops.
Proof. revert i. induction ops as [|a ops IH]; intros i; [done|]. cbn [consumed_from]. by rewrite IH. Qed.

Lemma late_call d tf args reuse alloc t s : forallb is_atom args = true -> lent_late (cb d (length args)) args ->
  holds_refs (uses (cb d (length args)) 0 args) s -> walk_rejects (eval C cb (CE (K_App (CE (K_Global d) tf) args reuse alloc) t) s).
Proof.
  intros Hat (i & a & Hi & Hf & Hl & _ & Hlast) H.
  destruct (late_rejects (cb d (length args)) args 0 i s) as [err He]; [by exists a|done..|].
  exists err. simpl. by rewrite He.
Qed.

Lemma uses_pos bs ops : x ∈ consumed_from bs 0 ops -> exists n, uses bs 0 ops = S n.
Proof.
  intros Hin. destruct (filter (fun y => y = x) (consumed_from bs 0 ops)) as [|y ys] eqn:E; [|by exists (length ys)].
  assert (x ∈ filter (fun y => y = x) (consumed_from bs 0 ops)) as Hf by (by apply list_elem_of_filter).
  rewrite E in Hf. by apply elem_of_nil in Hf.
Qed.

Lemma counted_call_rejects d tf args reuse alloc t live next s :
  x ∉ live -> x < next -> forallb is_atom args = true -> lent_late (cb d (length args)) args -> holds_refs 1 s ->
  exists e' next', owned C cb (CE (K_App (CE (K_Global d) tf) args reuse alloc) t) live next = Some (e', next') ∧
    walk_rejects (eval C cb e' s).
Proof.
  intros Hlive Hnext Hat (i & a & Hi & Hf & Hl & Hin & Hlast) Hs.
  set (bs := cb d (length args)) in *. set (ops := CE (K_Global d) tf :: args).
  destruct (pre_bind_spec (false :: bs) ops 0 next Hat) as (ops' & binds & Hpre & Hat' & Hplain & Hts & Hcons & _ & Hty & Hhd).
  pose proof (pre_bind_positions _ _ _ _ _ _ _ Hpre (S i)) as [Hdrop Hpos].
  destruct ops' as [|f args']; [done|]. specialize (Hhd eq_refl). injection Hhd as ->.
  assert (length args' = length args) as Hlen by (apply (f_equal length) in Hty; rewrite !length_fmap in Hty; by injection Hty).
  simpl in Hdrop, Hpos, Hat'. rewrite !consumed_shift in Hdrop.
  assert (consumed_from bs 0 args' = consumed_from bs 0 args) as Hcons'.
  { cbn [consumed_from] in Hcons. unfold consumes in Hcons. simpl in Hcons. by rewrite !consumed_shift in Hcons. }
  assert (lent_late (cb d (length args')) args') as Hlate.
  { rewrite Hlen. fold bs. exists i, a. split_and!; [by eapply Hpos|done|done|by rewrite Hcons'|by rewrite Hdrop]. }
  pose proof (uses_pos bs args Hin) as [n Hn].
  set (call := CE (K_App (CE (K_Global d) tf) args' reuse alloc) t).
  assert (forall body s, walk_rejects (eval C cb call s) -> walk_rejects (eval C cb (CE (K_Let (next + length binds) call body) (ce_ty call)) s)) as Hlet.
  { intros body s' [err He]. exists err. cbn [eval]. by rewrite He. }
  assert (forall s, holds_refs (uses bs 0 args) s -> walk_rejects (eval C cb call s)) as Hcall.
  { intros s' Hs'. apply late_call; [done|done|]. rewrite Hlen. fold bs. by rewrite Hcons'. }
  assert (forall e s, holds_refs 1 s -> (forall s, holds_refs (uses bs 0 args) s -> walk_rejects (eval C cb e s)) ->
    walk_rejects (eval C cb (wrap_binds binds (foldr dup_ e (dups_from C (false :: bs) live 0 (CE (K_Global d) tf :: args')))) s)) as Hwrap.
  { intros e s' Hs' He. eapply binds_reject; [exact Hs'| |].
    - apply list.Forall_forall. intros [y b] Hb. rewrite list.Forall_forall in Hplain. destruct (Hplain _ Hb). split_and!; [done..|].
      assert (y ∈ binds.*1) as Hy by (by apply list_elem_of_fmap_2 with (f := fst) in Hb). rewrite Hts in Hy. apply elem_of_seq in Hy. simpl. lia.
    - intros s2 Hs2. eapply dups_reject; [exact Hs2|]. intros s3 Hs3. apply He.
      rewrite dups_count in Hs3 by done. cbn [consumed_from] in Hs3. unfold consumes in Hs3. simpl in Hs3.
      rewrite consumed_shift, Hcons' in Hs3. rewrite Hn in Hs3 |- *. by rewrite Nat.add_1_r in Hs3. }
  cbn [owned ce_kind]. unfold operands_rc, mbind, sm_bind. fold bs; fold ops. rewrite Hpre.
  destruct (dead_from _ _ _ _ _ _ _) as [|y ys]; do 2 eexists; (split; [reflexivity|]); apply Hwrap; try done.
  intros s' Hs'. by apply Hlet, Hcall.
Qed.
End Rejected.

(** ** Concrete definitions *)

Module Example.
(** The prelude's [Option], with reuse on. *)
Definition env : ReuseEnv := MkReuseEnv (MkDb (fun _ => None) (Some 0)) false ∅.
Definition entry : CoreFn := MkCoreFn [0; 1; 2] [] Sample.nested.
Definition def : LoweredDef := MkLoweredDef (MkDefId 0 "entry") [entry] [] None [] [].

(** [fun x -> callee x x]: one local consumed by the first parameter and lent to the second. *)
Definition alias : CoreFn := MkCoreFn [0] [] (Sample.call [Sample.local 0; Sample.local 0]).
Definition alias_def : LoweredDef := MkLoweredDef (MkDefId 0 "alias") [alias] [] None [] [].
End Example.

Lemma count_def_accepted_witness :
  exists d', count_def Sample.borrows Example.env [false; false; true] Example.def = Some d' ∧
    check_rc d' Sample.borrows = Ok tt.
Proof.
  destruct (count_def_accepted Sample.borrows Example.env [false; false; true] Example.def) as (d' & E & H); [vm_compute; reflexivity|].
  exists d'. split; [exact E|]. apply H. vm_compute. reflexivity.
Defined.

(** [callee x x], of which the first parameter is consumed and the second lent. *)
Example alias_def_rejected :
  exists d', count_def Sample.borrows Example.env [] Example.alias_def = Some d' ∧
    check_rc d' Sample.borrows = Err (Err_BorrowReleased 0).
Proof. eexists. split; vm_compute; reflexivity. Qed.

(** C40: The insertion pass misses one case, and its verifier catches it.  Let a call of a
    definition lend an owned local that is not live afterwards at a position after the last
    one that consumes it.  The counted call duplicates the local once less than it is consumed
    - the last consuming use takes the reference itself - so wherever the local holds one
    reference the lent position reads a released slot, and the verifier rejects the call. *)
Theorem alias_call_rejected (C : gset LocalId) cb (x : LocalId) d tf args reuse alloc t live next (s : CkState)
    (Hx : x ∉ C) (Hlive : x ∉ live) (Hnext : x < next) (Hat : forallb is_atom args = true)
    (Hlate : lent_late x (cb d (length args)) args) (Hs : holds_refs x 1 s) :
  exists e' next', owned C cb (CE (K_App (CE (K_Global d) tf) args reuse alloc) t) live next = Some (e', next') ∧
    walk_rejects (eval C cb e' s).
Proof. by apply (counted_call_rejects C cb x). Qed.

Lemma alias_call_rejected_witness :
  exists e' next', owned ∅ Sample.borrows (fn_body Example.alias) ∅ 1 = Some (e', next') ∧
    walk_rejects (eval ∅ Sample.borrows e' (MkCk {[0 := 1%Z]} ∅ None)).
Proof.
  apply (alias_call_rejected ∅ Sample.borrows 0); [set_solver|set_solver|lia|reflexivity| |split; reflexivity].
  exists 1, (Sample.local 0). split_and!; try reflexivity; [by left|]. intros H. by apply elem_of_nil in H.
Defined.

Lemma next_free_local_fresh_witness : 3 < next_free_local Example.def.
Proof.
  apply (next_free_local_fresh Example.def Example.entry); [by left|]. vm_compute.
  do 3 right. left.
Defined.

Lemma count_fn_preserves_witness :
  exists f' n', count_fn Sample.borrows Example.env (fun _ => false) Example.entry 9 = Some (f', n') ∧
    sem (H := counter) (fn_body f') (fun x => x) 0 =
    sem (H := counter) (fn_body Example.entry) (fun x => x) 0.
Proof.
  eexists _, _. split; [vm_compute; reflexivity|].
  eapply (count_fn_preserves Sample.borrows Example.env (fun _ => false) Example.entry 9);
    [reflexivity|apply below_list; reflexivity|vm_compute; reflexivity].
Defined.
