(* ===== verification/Purity.v ===== *)
(** * Purity and totality

    fai-core's [purity.rs]: whether evaluating a tree, or applying a definition, can have an
    effect, abort or fail to end.  Passes that move work ask it. *)

From S2P Require Import Prelude Types Ir.
From stdpp Require Import gmap list strings.
From Stdlib Require Import ZArith Lia.

(** [comparison_is_total] *)
Fixpoint comparison_is_total (ty : Ty) : bool :=
  match ty with
  | Ty_Con (Con_Int | Con_Float | Con_Bool | Con_Char | Con_String | Con_Bytes) | Ty_Unit => true
  | Ty_App (Ty_Con (Con_List | Con_Array)) elem => comparison_is_total elem
  | Ty_Tuple fields => forallb comparison_is_total fields
  | Ty_Record fields tail =>
      match tail with Row_Closed => forallb (fun f => comparison_is_total f.2) fields | _ => false end
  | _ => false
  end.

(** [divisor_is_nonzero_literal] *)
Definition divisor_is_nonzero_literal (args : list CExpr) : bool :=
  match ce_kind <$> args !! 1 with Some (K_Lit (Lit_Int n)) => negb (n =? 0)%Z | _ => false end.

(** [op_unsafe_to_reorder] *)
Definition op_unsafe_to_reorder (op : Prim) (args : list CExpr) : bool :=
  match op with
  | P_IntDiv | P_IntRem => negb (divisor_is_nonzero_literal args)
  | P_Eq | P_Compare | P_Hash =>
      match args with [] => true | _ => existsb (fun a => negb (comparison_is_total (ce_ty a))) args end
  | P_ArrayWithCapacity =>
      match ce_kind <$> head args with Some (K_Lit (Lit_Int n)) => negb (n =? 0)%Z | _ => true end
  | P_ArrayGet | P_ArrayPeek | P_DataPeek | P_ArraySet | P_ArrayUnique | P_ArrayRepeat | P_ArrayTake
  | P_ArrayPut | P_ArrayPush | P_ArrayPushReserved | P_BytesGet | P_CharFromCode | P_BytesToString => true
  | _ => false
  end.

Section Purity.
Context (global_application_pure_total : DefId -> nat -> bool).

(** [expr_pure_total] *)
Fixpoint expr_pure_total (e : CExpr) : bool :=
  match e with
  | CE kind _ =>
      match kind with
      | K_Lit _ | K_Local _ => true
      | K_Global def => global_application_pure_total def 0
      | K_MakeClosure _ _ _ => true
      | K_Prim op args => negb (op_unsafe_to_reorder op args) && forallb expr_pure_total args
      | K_Foreign _ _ _ => false
      | K_App func args _ _ =>
          match ce_kind func with
          | K_Global def => global_application_pure_total def (length args)
          | _ => false
          end && forallb expr_pure_total args
      | K_MakeData _ args _ _ _ => forallb expr_pure_total args
      | K_DataTag base _ => expr_pure_total base
      | K_DataField base _ _ _ => expr_pure_total base
      | K_If cond thn els => expr_pure_total cond && expr_pure_total thn && expr_pure_total els
      | K_Let _ value body => expr_pure_total value && expr_pure_total body
      | K_Spread components => forallb expr_pure_total components
      | K_LetMany _ value body => expr_pure_total value && expr_pure_total body
      | K_Error => false
      | K_Reset value _ body => expr_pure_total value && expr_pure_total body
      | K_FreeReuse _ body | K_Dup _ body | K_Drop _ body => expr_pure_total body
      | K_Join _ body | K_HoleStart _ body => expr_pure_total body
      | K_Recur _ => false
      | K_HoleFill _ cell _ => expr_pure_total cell
      | K_HoleClose _ base => expr_pure_total base
      end
  end.
End Purity.

(** A definition's entry, where its source file is known: its parameters and body. *)
Definition Entries : Type := DefId -> option (list LocalId * CExpr).

(** [application_pure_total] through [global_application_pure_total].  A cycle of queries starts
    at [false]; [rounds] is the number of times it is computed anew. *)
Fixpoint application_pure_total (entries : Entries) (rounds : nat) (def : DefId) (arity : nat) : bool :=
  match rounds with
  | 0 => false
  | S rounds =>
      match entries def with
      | None => false
      | Some (params, body) =>
          match Nat.compare arity (length params) with
          | Lt => true
          | Eq => expr_pure_total (application_pure_total entries rounds) body
          | Gt => false
          end
      end
  end.

(** [is_pure_total] *)
Definition is_pure_total (entries : Entries) (rounds : nat) (def : DefId) : bool :=
  match entries def with
  | Some (params, _) => application_pure_total entries rounds def (length params)
  | None => false
  end.
