(* ===== verification/Trmc.v ===== *)
(** * Tail calls into loops

    fai-rc's [trmc.rs] and [trmc/int_add.rs].  A saturated call of a definition to itself in
    tail position becomes the next turn of a loop.  So does one whose result only fills a field
    of a constructor at the tail, with the constructor built first around a hole that the rest
    of the loop fills; and one whose result a sum of integers waits for, with the sum carried
    along.  [None] is a failed [expect] or [unreachable!]. *)

From S2P Require Import Prelude Types Ir Rc Purity.
From stdpp Require Import gmap list strings.
From Stdlib Require Import ZArith Lia.

(** ** Visits *)

(** [walk], looking for a node that satisfies [p]. *)
Section Walk.
Context (p : CExpr -> bool).
Fixpoint any (e : CExpr) : bool :=
  p e ||
  match e with
  | CE kind _ =>
      match kind with
      | K_Lit _ | K_Local _ | K_Global _ | K_MakeClosure _ _ _ | K_Error => false
      | K_Prim _ args | K_Foreign _ args _ | K_MakeData _ args _ _ _ | K_Recur args | K_Spread args =>
          existsb any args
      | K_App func args _ _ => any func || existsb any args
      | K_If cond thn els => any cond || any thn || any els
      | K_Let _ value body | K_Reset value _ body | K_LetMany _ value body => any value || any body
      | K_DataTag base _ | K_DataField base _ _ _ => any base
      | K_Dup _ body | K_Drop _ body | K_FreeReuse _ body | K_Join _ body | K_HoleStart _ body => any body
      | K_HoleFill _ cell _ => any cell
      | K_HoleClose _ base => any base
      end
  end.
End Walk.

(** [is_local] *)
Definition is_local (e : CExpr) (v : LocalId) : bool :=
  match ce_kind e with K_Local x => bool_decide (x = v) | _ => false end.
(** [contains_self], [uses_local] *)
Definition is_global (self_def : DefId) (e : CExpr) : bool :=
  match ce_kind e with K_Global def => bool_decide (def = self_def) | _ => false end.
Definition contains_self (e : CExpr) (self_def : DefId) : bool := any (is_global self_def) e.
Definition uses_local (e : CExpr) (v : LocalId) : bool := any (fun n => is_local n v) e.

(** [is_construction] *)
Fixpoint is_construction (e : CExpr) : bool :=
  match e with
  | CE (K_MakeData _ _ _ _ _) _ => true
  | CE (K_Dup _ body) _ | CE (K_Drop _ body) _ => is_construction body
  | _ => false
  end.

Definition one_if (b : bool) : nat := if b then 1 else 0.

(** [count_uses] and [count_local] *)
Section Count.
Context (x : LocalId).
Fixpoint count_local (e : CExpr) : nat :=
  match e with
  | CE kind _ =>
      match kind with
      | K_Local l => one_if (bool_decide (l = x))
      | K_Lit _ | K_Global _ | K_Error => 0
      | K_Prim _ args | K_Foreign _ args _ | K_MakeData _ args _ _ _ | K_Recur args | K_Spread args =>
          sum_list_with count_local args
      | K_LetMany _ value body => count_local value + count_local body
      | K_App func args reuse _ =>
          count_local func + sum_list_with count_local args +
          length (filter (fun t => t = Some x) reuse)
      | K_If cond thn els => count_local cond + count_local thn + count_local els
      | K_Let _ value body => count_local value + count_local body
      | K_MakeClosure _ captures _ => length (filter (fun c => c = x) captures)
      | K_DataTag base _ => count_local base
      | K_DataField base index _ _ =>
          count_local base +
          match index with FI_Dyn _ evidence => one_if (bool_decide (evidence = x)) | _ => 0 end
      | K_Reset value _ body => count_local value + count_local body
      | K_FreeReuse token body => one_if (bool_decide (token = x)) + count_local body
      | K_Dup local body | K_Drop local body => one_if (bool_decide (local = x)) + count_local body
      | K_Join _ body | K_HoleStart _ body => count_local body
      | K_HoleFill hole cell _ => one_if (bool_decide (hole = x)) + count_local cell
      | K_HoleClose hole base => one_if (bool_decide (hole = x)) + count_local base
      end
  end.
End Count.
Definition count_uses (e : CExpr) (x : LocalId) : nat := count_local x e.

(** [self_call_args] *)
Definition self_call_args (e : CExpr) (self_def : DefId) (arity : nat) : option (list CExpr) :=
  match ce_kind e with
  | K_App func args [] _ =>
      match ce_kind func with
      | K_Global def => if bool_decide (def = self_def) && (length args =? arity) then Some args else None
      | _ => None
      end
  | _ => None
  end.
Definition is_self_call (e : CExpr) (self_def : DefId) (arity : nat) : bool :=
  match self_call_args e self_def arity with Some _ => true | None => false end.

(** ** Self-calls of row-polymorphic functions *)

Section Evidence.
Context (self_def : DefId) (evidence : list LocalId).

(** The pattern [fuse_evidence_self_calls] looks for. *)
Definition evidence_call (func : CExpr) : option (CExpr * list CExpr) :=
  match ce_kind func with
  | K_App inner ev _ _ =>
      if is_global self_def inner && (length ev =? length evidence) &&
         forallb (fun p => is_local p.1 p.2) (zip ev evidence)
      then Some (inner, ev) else None
  | _ => None
  end.

(** [fuse_evidence_self_calls] *)
Fixpoint fuse_evidence_self_calls (e : CExpr) : CExpr :=
  match e with
  | CE kind ty =>
      CE match kind with
         | K_App func args reuse alloc =>
             match evidence_call func with
             | Some (head, ev) => K_App head (ev ++ (fuse_evidence_self_calls <$> args)) reuse alloc
             | None => K_App (fuse_evidence_self_calls func) (fuse_evidence_self_calls <$> args) reuse alloc
             end
         | K_If cond thn els =>
             K_If (fuse_evidence_self_calls cond) (fuse_evidence_self_calls thn) (fuse_evidence_self_calls els)
         | K_Let local value body =>
             K_Let local (fuse_evidence_self_calls value) (fuse_evidence_self_calls body)
         | K_Prim op args => K_Prim op (fuse_evidence_self_calls <$> args)
         | K_Foreign symbol args marshalled => K_Foreign symbol (fuse_evidence_self_calls <$> args) marshalled
         | K_MakeData tag args reuse scalars niche =>
             K_MakeData tag (fuse_evidence_self_calls <$> args) reuse scalars niche
         | K_DataTag base niche => K_DataTag (fuse_evidence_self_calls base) niche
         | K_DataField base index scalar niche => K_DataField (fuse_evidence_self_calls base) index scalar niche
         | K_Spread components => K_Spread (fuse_evidence_self_calls <$> components)
         | K_LetMany locals value body =>
             K_LetMany locals (fuse_evidence_self_calls value) (fuse_evidence_self_calls body)
         | kind => kind
         end ty
  end.
End Evidence.

(** [ChainLink]: a cell with a placeholder, and the field the placeholder is in. *)
Abbreviation ChainLink := (CExpr * nat)%type.

Section Flatten.
Context (self_def : DefId) (arity : nat) (is_pure_total : DefId -> nat -> bool).

(** ** Eligibility *)

(** What [pure_total] refuses in a node. *)
Definition impure_node (e : CExpr) : bool :=
  match ce_kind e with
  | K_App func args _ _ =>
      match ce_kind func with K_Global def => negb (is_pure_total def (length args)) | _ => true end
  | K_Prim op args => op_unsafe_to_reorder op args
  | K_Foreign _ _ _ => true
  | K_Global def => negb (is_pure_total def 0)
  | K_Error | K_Recur _ => true
  | _ => false
  end.
(** [pure_total] *)
Definition pure_total (e : CExpr) : bool := negb (any impure_node e).

(** [has_plain_tail] *)
Fixpoint has_plain_tail (body : CExpr) : bool :=
  match body with
  | CE kind _ =>
      match kind with
      | K_If _ thn els => has_plain_tail thn || has_plain_tail els
      | K_Let _ _ body | K_LetMany _ _ body | K_Reset _ _ body | K_FreeReuse _ body
      | K_Dup _ body | K_Drop _ body => has_plain_tail body
      | _ => is_self_call body self_def arity
      end
  end.

(** The arguments that are the recursion's result. *)
Definition rec_fields (rec : LocalId) (args : list CExpr) : list CExpr :=
  base.filter (fun a => is_local a rec = true) args.

(** [check_cons_wrap]; where it succeeds the two flags are set. *)
Fixpoint check_cons_wrap (rec : LocalId) (e : CExpr) : bool :=
  match e with
  | CE kind _ =>
      match kind with
      | K_Let local value body =>
          if 0 <? count_uses value rec then
            (count_uses value rec =? 1) && is_construction value && pure_total value
            && negb (contains_self value self_def) && (count_uses body local =? 1)
            && check_cons_wrap local body
          else
            pure_total value && negb (contains_self value self_def) && check_cons_wrap rec body
      | K_Reset value _ body =>
          (count_uses value rec =? 0) && negb (contains_self value self_def) && check_cons_wrap rec body
      | K_FreeReuse token body => negb (bool_decide (token = rec)) && check_cons_wrap rec body
      | K_Dup local body | K_Drop local body =>
          negb (bool_decide (local = rec)) && check_cons_wrap rec body
      | K_MakeData _ args _ _ _ =>
          (length (rec_fields rec args) =? 1) && forallb pure_total args && negb (contains_self e self_def)
      | _ => false
      end
  end.

(** [uses_hole] and [found_tail] of [eligible]. *)
Record Flags := MkFlags { uses_hole : bool; found_tail : bool }.

(** [check_tail]; [None] is its [false]. *)
Fixpoint check_tail (e : CExpr) (flags : Flags) : option Flags :=
  match e with
  | CE kind _ =>
      match kind with
      | K_If cond thn els =>
          if contains_self cond self_def then None
          else flags ← check_tail thn flags; check_tail els flags
      | K_Let local value body =>
          if is_self_call value self_def arity then
            if (count_uses body local =? 1) && check_cons_wrap local body
            then Some (MkFlags true true) else None
          else if contains_self value self_def then None
          else check_tail body flags
      | K_Reset value _ body =>
          if contains_self value self_def then None else check_tail body flags
      | K_FreeReuse _ body | K_Dup _ body | K_Drop _ body => check_tail body flags
      | _ =>
          if is_self_call e self_def arity then Some (MkFlags (uses_hole flags) true)
          else if contains_self e self_def then None else Some flags
      end
  end.

(** [eligible] *)
Definition eligible (body : CExpr) : option bool :=
  flags ← check_tail body (MkFlags false false);
  if found_tail flags then Some (uses_hole flags) else None.

(** ** The rewrite *)

Definition recur_to (args : list CExpr) : CExpr := CE (K_Recur args) Ty_Error.
Definition hole_atom (h : LocalId) : CExpr := CE (K_Local h) Ty_Error.

(** [rewrite_final] *)
Definition rewrite_final (e : CExpr) (hole : option LocalId) : CExpr :=
  match self_call_args e self_def arity with
  | Some sargs => recur_to (match hole with Some h => sargs ++ [hole_atom h] | None => sargs end)
  | None => match hole with Some h => CE (K_HoleClose h e) (ce_ty e) | None => e end
  end.

Fixpoint position (rec : LocalId) (args : list CExpr) : option nat :=
  match args with
  | [] => None
  | a :: args => if is_local a rec then Some 0 else S <$> position rec args
  end.

Definition placeholder : CExpr := CE (K_Lit Lit_Unit) Ty_Error.

(** [hole_cell] *)
Fixpoint hole_cell (value : CExpr) (rec : LocalId) : option ChainLink :=
  match value with
  | CE (K_Dup local body) ty => '(body, field) ← hole_cell body rec; Some (CE (K_Dup local body) ty, field)
  | CE (K_Drop local body) ty => '(body, field) ← hole_cell body rec; Some (CE (K_Drop local body) ty, field)
  | CE (K_MakeData tag args reuse scalars niche) ty =>
      field ← position rec args;
      Some (CE (K_MakeData tag (<[field := placeholder]> args) reuse scalars niche) ty, field)
  | _ => None
  end.

(** The closures of [emit_holefill_chain]. *)
Definition recur (cur_hole : LocalId) (sargs : list CExpr) : CExpr := recur_to (sargs ++ [hole_atom cur_hole]).
Definition fill (hole : LocalId) (cell : CExpr) (field : nat) : option CExpr :=
  if (Z.of_nat field <? 2 ^ 32)%Z then Some (CE (K_HoleFill hole cell (Z.of_nat field)) Ty_Error) else None.
Definition let_ (local : LocalId) (value body : CExpr) : CExpr := CE (K_Let local value body) Ty_Error.

Definition in_sm {A} (o : option A) : SM nat A := fun next => a ← o; Some (a, next).

(** A local for each cell. *)
Definition name_cells (chain : list ChainLink) : SM nat (list (LocalId * nat)) :=
  smap (fun link => c ← Rc.fresh; mret (c, link.2)) chain.

(** The cells, outermost first, linked to the hole: the bindings and the hole they end with. *)
Fixpoint link_cells (cur_hole : LocalId) (cells : list (LocalId * nat)) : SM nat (Binds * LocalId) :=
  match cells with
  | [] => mret ([], cur_hole)
  | (c, field) :: cells =>
      h ← Rc.fresh;
      f ← in_sm (fill cur_hole (hole_atom c) field);
      '(binds, last) ← link_cells h cells;
      mret ((h, f) :: binds, last)
  end.

Definition let_all (binds : Binds) (result : CExpr) : CExpr :=
  foldr (fun b result => let_ b.1 b.2 result) result binds.

(** [emit_holefill_chain] *)
Definition emit_holefill_chain (chain : list ChainLink) (hole : LocalId) (sargs : list CExpr) : SM nat CExpr :=
  match chain with
  | [(cell, field)] =>
      h ← Rc.fresh;
      f ← in_sm (fill hole cell field);
      mret (let_ h f (recur h sargs))
  | _ =>
      cells ← name_cells chain;
      '(hole_binds, cur_hole) ← link_cells hole (reverse cells);
      mret (let_all (zip cells.*1 chain.*1) (let_all hole_binds (recur cur_hole sargs)))
  end.

(** [collect_chain] *)
Fixpoint collect_chain (rec : LocalId) (e : CExpr) (hole : LocalId) (sargs : list CExpr)
    (chain : list ChainLink) : SM nat CExpr :=
  match e with
  | CE kind ty =>
      match kind with
      | K_Let local value body =>
          if uses_local value rec then
            link ← in_sm (hole_cell value rec);
            collect_chain local body hole sargs (chain ++ [link])
          else
            body ← collect_chain rec body hole sargs chain;
            mret (CE (K_Let local value body) ty)
      | K_Reset value token body =>
          body ← collect_chain rec body hole sargs chain; mret (CE (K_Reset value token body) ty)
      | K_FreeReuse token body =>
          body ← collect_chain rec body hole sargs chain; mret (CE (K_FreeReuse token body) ty)
      | K_Dup local body => body ← collect_chain rec body hole sargs chain; mret (CE (K_Dup local body) ty)
      | K_Drop local body => body ← collect_chain rec body hole sargs chain; mret (CE (K_Drop local body) ty)
      | K_MakeData _ _ _ _ _ =>
          link ← in_sm (hole_cell e rec);
          emit_holefill_chain (chain ++ [link]) hole sargs
      | _ => panic
      end
  end.

(** [rewrite_cons_wrap] *)
Definition rewrite_cons_wrap (rec : LocalId) (e : CExpr) (hole : LocalId) (sargs : list CExpr) : SM nat CExpr :=
  collect_chain rec e hole sargs [].

(** [rewrite_tail] *)
Fixpoint rewrite_tail (e : CExpr) (hole : option LocalId) : SM nat CExpr :=
  match e with
  | CE kind ty =>
      match kind with
      | K_If cond thn els =>
          thn ← rewrite_tail thn hole; els ← rewrite_tail els hole; mret (CE (K_If cond thn els) ty)
      | K_Let local value body =>
          match hole, self_call_args value self_def arity with
          | Some hole, Some sargs => rewrite_cons_wrap local body hole sargs
          | _, _ => body ← rewrite_tail body hole; mret (CE (K_Let local value body) ty)
          end
      | K_LetMany locals value body =>
          body ← rewrite_tail body hole; mret (CE (K_LetMany locals value body) ty)
      | K_Reset value token body => body ← rewrite_tail body hole; mret (CE (K_Reset value token body) ty)
      | K_FreeReuse token body => body ← rewrite_tail body hole; mret (CE (K_FreeReuse token body) ty)
      | K_Dup local body => body ← rewrite_tail body hole; mret (CE (K_Dup local body) ty)
      | K_Drop local body => body ← rewrite_tail body hole; mret (CE (K_Drop local body) ty)
      | _ => mret (rewrite_final e hole)
      end
  end.

(** [rewrite_into_loop] *)
Definition rewrite_into_loop (body : CExpr) (params : list LocalId) (uses_hole : bool) : SM nat CExpr :=
  if uses_hole then
    hole ← Rc.fresh;
    loop_body ← rewrite_tail body (Some hole);
    mret (CE (K_HoleStart hole (CE (K_Join (params ++ [hole]) loop_body) (ce_ty body))) (ce_ty body))
  else
    loop_body ← rewrite_tail body None;
    mret (CE (K_Join params loop_body) (ce_ty body)).

(** ** Sums of integers: [int_add.rs] *)

Definition int_ty : Ty := Ty_Con Con_Int.
Definition is_int_ty (ty : Ty) : bool := match ty with Ty_Con Con_Int => true | _ => false end.

(** [contribution] *)
Definition contribution (body : CExpr) (result : LocalId) : option CExpr :=
  match ce_kind body with
  | K_Prim P_IntAdd [l; r] =>
      other ← (if is_local l result then Some r
               else if is_local r result then Some l else None);
      if negb (is_int_ty (ce_ty other)) then None
      else match ce_kind other with
           | K_Local local => if bool_decide (local = result) then None else Some other
           | K_Lit (Lit_Int _) => Some other
           | _ => None
           end
  | _ => None
  end.

(** [has_add_tail] *)
Fixpoint has_add_tail (body : CExpr) : bool :=
  match body with
  | CE kind _ =>
      match kind with
      | K_If _ thn els => has_add_tail thn || has_add_tail els
      | K_Let local value body =>
          (is_self_call value self_def arity && bool_decide (is_Some (contribution body local)))
          || has_add_tail body
      | K_Dup _ body | K_Drop _ body | K_Reset _ _ body | K_FreeReuse _ body => has_add_tail body
      | _ => false
      end
  end.

(** [accumulator], [add], [recur] *)
Definition accumulator (local : LocalId) : CExpr := CE (K_Local local) int_ty.
Definition add (l r : CExpr) : CExpr := CE (K_Prim P_IntAdd [l; r]) int_ty.
Definition recur_add (args : list CExpr) (value : CExpr) : CExpr := CE (K_Recur (args ++ [value])) int_ty.

(** [rewrite] *)
Fixpoint rewrite_add (e : CExpr) (acc : LocalId) : CExpr :=
  let final :=
    match self_call_args e self_def arity with
    | Some args => recur_add args (accumulator acc)
    | None => add (accumulator acc) e
    end in
  match e with
  | CE kind _ =>
      match kind with
      | K_If cond thn els => CE (K_If cond (rewrite_add thn acc) (rewrite_add els acc)) int_ty
      | K_Let local value body =>
          match self_call_args value self_def arity, contribution body local with
          | Some args, Some other => recur_add args (add (accumulator acc) other)
          | _, _ => CE (K_Let local value (rewrite_add body acc)) int_ty
          end
      | K_Dup local body => CE (K_Dup local (rewrite_add body acc)) int_ty
      | K_Drop local body => CE (K_Drop local (rewrite_add body acc)) int_ty
      | K_Reset value token body => CE (K_Reset value token (rewrite_add body acc)) int_ty
      | K_FreeReuse token body => CE (K_FreeReuse token (rewrite_add body acc)) int_ty
      | _ => final
      end
  end.

(** [flatten] of int_add.rs *)
Definition flatten_add (body : CExpr) (params : list LocalId) : SM nat (option CExpr) :=
  if negb (is_int_ty (ce_ty body)) || negb (has_add_tail body) then mret None
  else
    acc ← Rc.fresh;
    let loop_body := CE (K_Join (params ++ [acc]) (rewrite_add body acc)) int_ty in
    mret (Some (CE (K_Let acc (CE (K_Lit (Lit_Int 0)) int_ty) loop_body) int_ty)).
End Flatten.

(** [flatten] *)
Definition flatten (body : CExpr) (params : list LocalId) (self_def : DefId)
    (is_pure_total : DefId -> nat -> bool) : SM nat CExpr :=
  let arity := length params in
  sum ← flatten_add self_def arity body params;
  match sum with
  | Some result => mret result
  | None =>
      match eligible self_def arity is_pure_total body with
      | Some uses_hole => rewrite_into_loop self_def arity body params uses_hole
      | None =>
          if has_plain_tail self_def arity body
          then rewrite_into_loop self_def arity body params false
          else mret body
      end
  end.
