(* ===== verification/TrmcSem.v ===== *)
(** * Runs of recursive definitions

    An evaluator of Core with calls of the program's own definitions, loops, and cells built
    around a hole.  A run ends with a value, aborts, goes wrong (which no well-formed tree does)
    or uses up its fuel, the number of calls and turns of loops that may be nested; effects,
    also those before an abort, are kept in the world.  Counts, reset cells and reuse tokens
    are not looked at. *)

From S2P Require Import Prelude Types Ir Rc RcState Sem Purity.
From stdpp Require Import gmap list strings.
From Stdlib Require Import ZArith Lia.

(** ** Outcomes *)

(** What an operation does to the world: it ends, aborts, or does not end. *)
Inductive outcome (W A : Type) :=
| Fin (a : A) (w : W)
| Stop (w : W)
| Loops.
Arguments Fin {W A} a w.
Arguments Stop {W A} w.
Arguments Loops {W A}.

(** The meaning of everything but calls of the program: literals, primitives, other definitions,
    closures, data.  [m_pap] is a definition of the program applied to too few arguments,
    [m_hole] the address of a field, as the path to it in the cell being built. *)
Class Machine (V W : Type) := {
  m_lit : Lit -> V;
  m_truth : V -> bool;
  m_split : nat -> V -> list V;
  m_prim : Prim -> list Ty -> Ty -> list V -> W -> outcome W V;
  m_foreign : string -> bool -> Ty -> list V -> W -> outcome W V;
  m_global : DefId -> W -> outcome W V;
  m_call : DefId -> list V -> W -> outcome W V;
  m_apply : V -> list V -> W -> outcome W V;
  m_closure : FnId -> list V -> V;
  m_spread : list V -> V;
  m_data : Z -> Z -> option NicheKind -> list V -> V;
  m_tag : option NicheKind -> V -> V;
  m_field : FieldIndex -> bool -> option NicheKind -> V -> list V -> V;
  m_pap : DefId -> list V -> V;
  m_held : V -> option (DefId * list V);
  m_hole : list nat -> V;
  m_path : V -> option (list nat);
  m_load : V -> nat -> option V;
  m_store : V -> nat -> V -> option V;
}.

(** A value is split into as many as asked for; what [m_pap] and [m_hole] build is recognized;
    a field of a cell that is neither a niche nor a raw number can be set. *)
Class MachineLaws (V W : Type) `{Machine V W} := {
  split_length n v : length (m_split n v) = n;
  held_pap d vs : m_held (m_pap d vs) = Some (d, vs);
  path_hole p : m_path (m_hole p) = Some p;
  load_data tag scalars vs i : Z.testbit scalars (Z.of_nat i) = false -> m_load (m_data tag scalars None vs) i = vs !! i;
  store_data tag scalars vs i x : i < length vs -> Z.testbit scalars (Z.of_nat i) = false ->
    m_store (m_data tag scalars None vs) i x = Some (m_data tag scalars None (<[i := x]> vs));
}.

Section Machine.
Context {V W : Type} `{Machine V W}.

(** The world, and the cell the function in progress builds around its hole. *)
Definition State : Type := W * option V.

Inductive res (A : Type) :=
| R_Val (a : A) (s : State)
| R_Abort (w : W)
| R_Wrong
| R_More.
#[global] Arguments R_Val {A} a s.
#[global] Arguments R_Abort {A} w.
#[global] Arguments R_Wrong {A}.
#[global] Arguments R_More {A}.

Definition M (A : Type) : Type := State -> res A.
Definition ret {A} (a : A) : M A := fun s => R_Val a s.
Definition bindM {A B} (m : M A) (k : A -> M B) : M B := fun s =>
  match m s with R_Val a s => k a s | R_Abort w => R_Abort w | R_Wrong => R_Wrong | R_More => R_More end.
Definition wrong {A} : M A := fun _ => R_Wrong.
Definition more {A} : M A := fun _ => R_More.
Definition lift (f : W -> outcome W V) : M V := fun s =>
  match f s.1 with Fin v w => R_Val v (w, s.2) | Stop w => R_Abort w | Loops => R_More end.
Definition expect {A} (o : option A) : M A := match o with Some a => ret a | None => wrong end.
End Machine.

Declare Scope run_scope.
Notation "x ⇠ m ; k" := (bindM m (fun x => k)) (at level 20, m at level 100, k at level 200) : run_scope.
Open Scope run_scope.

Section Run.
Context {V W : Type} `{Machine V W}.

(** A tree gives a value or, in a loop, the arguments of the next turn. *)
Inductive flow :=
| F_Val (v : V)
| F_Recur (vs : list V).
Definition value (m : @M V W flow) : @M V W V := r ⇠ m; match r with F_Val v => ret v | F_Recur _ => wrong end.

Section Vals.
Context (f : CExpr -> @M V W flow).
Fixpoint vals (es : list CExpr) : @M V W (list V) :=
  match es with
  | [] => ret []
  | e :: es => v ⇠ value (f e); vs ⇠ vals es; ret (v :: vs)
  end.
End Vals.

(** The cell with the field at the end of a path set. *)
Fixpoint store_at (cell : V) (path : list nat) (x : V) : option V :=
  match path with
  | [] => Some x
  | i :: path => field ← m_load cell i; field ← store_at field path x; m_store cell i field
  end.

Definition no_locals : Env (V:=V) := fun _ => m_lit Lit_Unit.

Section Eval.
(** The program's definitions, and its evaluator with one unit less of fuel, if there is one. *)
Context (prog : Entries) (again : option (CExpr -> Env (V:=V) -> @M V W flow)).

(** A call: the callee has a hole of its own. *)
Definition enter (params : list LocalId) (body : CExpr) (vs : list V) : @M V W V := fun s =>
  match again with
  | None => R_More
  | Some ev =>
      match value (ev body (upds no_locals params vs)) (s.1, None) with
      | R_Val v (w, _) => R_Val v (w, s.2)
      | r => r
      end
  end.

(** A function value applied to arguments, one call at a time. *)
Fixpoint apply_to (steps : nat) (f : V) (vs : list V) : @M V W V :=
  match m_held f with
  | None => lift (m_apply f vs)
  | Some (d, held) =>
      match steps, prog d with
      | S steps, Some (params, body) =>
          let all := held ++ vs in
          if length params <=? length held then wrong
          else if length all <? length params then ret (m_pap d all)
          else r ⇠ enter params body (take (length params) all);
               match drop (length params) all with [] => ret r | rest => apply_to steps r rest end
      | _, _ => wrong
      end
  end.

(** A definition applied to arguments. *)
Definition call (d : DefId) (vs : list V) : @M V W V :=
  match prog d with
  | None => lift (m_call d vs)
  | Some (params, body) =>
      if length vs <? length params then ret (m_pap d vs)
      else r ⇠ enter params body (take (length params) vs);
           match drop (length params) vs with [] => ret r | rest => apply_to (S (length vs)) r rest end
  end.

Definition global (d : DefId) : @M V W V :=
  match prog d with None => lift (m_global d) | Some _ => call d [] end.

Definition set_hole (path : list nat) (x : V) : @M V W V := fun s =>
  match cell ← s.2; store_at cell path x with
  | Some cell => R_Val cell (s.1, Some cell)
  | None => R_Wrong
  end.
Definition start_hole {A} (m : @M V W A) : @M V W A := fun s => m (s.1, Some (m_lit Lit_Unit)).

Fixpoint go (e : CExpr) (rho : Env (V:=V)) : @M V W flow :=
  match e with
  | CE kind ty =>
      match kind with
      | K_Lit l => ret (F_Val (m_lit l))
      | K_Local x => ret (F_Val (rho x))
      | K_Global d => v ⇠ global d; ret (F_Val v)
      | K_Error => wrong
      | K_Prim op args =>
          vs ⇠ vals (fun a => go a rho) args; v ⇠ lift (m_prim op (ce_ty <$> args) ty vs); ret (F_Val v)
      | K_Foreign symbol args marshalled =>
          vs ⇠ vals (fun a => go a rho) args; v ⇠ lift (m_foreign symbol marshalled ty vs); ret (F_Val v)
      | K_App func args _ _ =>
          match ce_kind func with
          | K_Global d => vs ⇠ vals (fun a => go a rho) args; v ⇠ call d vs; ret (F_Val v)
          | _ =>
              f ⇠ value (go func rho);
              vs ⇠ vals (fun a => go a rho) args;
              v ⇠ apply_to (S (length vs)) f vs; ret (F_Val v)
          end
      | K_If cond thn els => c ⇠ value (go cond rho); if m_truth c then go thn rho else go els rho
      | K_Let local val body => v ⇠ value (go val rho); go body (upd rho local v)
      | K_Spread components => vs ⇠ vals (fun a => go a rho) components; ret (F_Val (m_spread vs))
      | K_LetMany locals val body =>
          v ⇠ value (go val rho); go body (upds rho locals (m_split (length locals) v))
      | K_MakeClosure f captures _ => ret (F_Val (m_closure f (rho <$> captures)))
      | K_MakeData tag args _ scalars niche =>
          vs ⇠ vals (fun a => go a rho) args; ret (F_Val (m_data tag scalars niche vs))
      | K_DataTag base niche => v ⇠ value (go base rho); ret (F_Val (m_tag niche v))
      | K_DataField base index scalar niche =>
          v ⇠ value (go base rho);
          ret (F_Val (m_field index scalar niche v
            match index with FI_Dyn _ evidence => [rho evidence] | FI_Const _ => [] end))
      | K_Reset val _ body => _ ⇠ value (go val rho); go body rho
      | K_FreeReuse _ body | K_Dup _ body | K_Drop _ body => go body rho
      | K_Join params body =>
          r ⇠ go body rho;
          match r with
          | F_Val v => ret (F_Val v)
          | F_Recur vs =>
              if length vs =? length params then
                match again with Some ev => ev e (upds rho params vs) | None => more end
              else wrong
          end
      | K_Recur args => vs ⇠ vals (fun a => go a rho) args; ret (F_Recur vs)
      | K_HoleStart hole body => start_hole (v ⇠ value (go body (upd rho hole (m_hole []))); ret (F_Val v))
      | K_HoleFill hole cell field =>
          v ⇠ value (go cell rho);
          path ⇠ expect (m_path (rho hole));
          _ ⇠ set_hole path v;
          _ ⇠ expect (m_load v (Z.to_nat field));
          ret (F_Val (m_hole (path ++ [Z.to_nat field])))
      | K_HoleClose hole base =>
          v ⇠ value (go base rho);
          path ⇠ expect (m_path (rho hole));
          v ⇠ set_hole path v; ret (F_Val v)
      end
  end.
End Eval.

Fixpoint ev (prog : Entries) (fuel : nat) : CExpr -> Env (V:=V) -> @M V W flow :=
  match fuel with
  | 0 => go prog None
  | S fuel => go prog (Some (ev prog fuel))
  end.

(** A definition of the program, called in a world. *)
Definition run_def (prog : Entries) (fuel : nat) (d : DefId) (vs : list V) (w : W) : @res V W V :=
  call prog (Some (ev prog fuel)) d vs (w, None).
End Run.
