(* ===== verification/TrmcLaws.v ===== *)
(** * Laws of runs

    A tree without loops gives a value, leaves the cell being built alone and looks only at the
    slots in its scope; replacing a definition by one that acts alike changes no run; a tree
    that counts as pure and total gives a value without touching the world. *)

From S2P Require Import Prelude Types Ir Rc RcState ReuseSound Sem Purity Trmc TrmcSem.
From stdpp Require Import gmap list strings.
From Stdlib Require Import ZArith Lia.

(** ** Scope *)

(** A counted tree without loops or holes: every slot read is in scope, every binder is new,
    and only the cell of a local is reset. *)
Fixpoint placed (S : gset LocalId) (e : CExpr) : bool :=
  match e with
  | CE kind _ =>
      match kind with
      | K_Lit _ | K_Global _ | K_Error => true
      | K_Local x => bool_decide (x ∈ S)
      | K_Prim _ args | K_Foreign _ args _ | K_Spread args | K_MakeData _ args _ _ _ => forallb (placed S) args
      | K_App func args _ _ => placed S func && forallb (placed S) args
      | K_MakeClosure _ caps _ => forallb (fun c => bool_decide (c ∈ S)) caps
      | K_DataTag base _ => placed S base
      | K_DataField base index _ _ =>
          placed S base && match index with FI_Dyn _ ev => bool_decide (ev ∈ S) | _ => true end
      | K_If cond thn els => placed S cond && placed S thn && placed S els
      | K_Let l value body => placed S value && bool_decide (l ∉ S) && placed ({[l]} ∪ S) body
      | K_LetMany ls value body =>
          placed S value && bool_decide (list_to_set ls ## S) && placed (list_to_set ls ∪ S) body
      | K_Reset value t body =>
          match ce_kind value with K_Local x => bool_decide (x ∈ S) | _ => false end
          && bool_decide (t ∉ S) && placed S body
      | K_FreeReuse _ body | K_Dup _ body | K_Drop _ body => placed S body
      | _ => false
      end
  end.

(** Names the hypotheses of an induction over the children of a node. *)
Ltac child_hyps IH :=
  simpl in IH; try (apply Forall_cons in IH as [?IH IH]);
  try (apply Forall_cons in IH as [?IH IH]); try (apply Forall_cons in IH as [?IH IH]).
Ltac split_placed H :=
  simpl in H; repeat match type of H with _ && _ = true => apply andb_true_iff in H as [H ?] end.

(** ** Laws of the monad *)

Section Laws.
Context {V W : Type} `{MachineLaws V W}.
Implicit Types (s : @State V W).

Lemma bindM_ext {A B} (m m' : @M V W A) (k k' : A -> @M V W B) s :
  m s = m' s -> (forall a s', k a s' = k' a s') -> bindM m k s = bindM m' k' s.
Proof. intros Hm Hk. unfold bindM. rewrite Hm. by destruct (m' s). Qed.

Lemma bindM_run {A B} (m : @M V W A) (k k' : A -> @M V W B) s :
  (forall a s', m s = R_Val a s' -> k a s' = k' a s') -> bindM m k s = bindM m k' s.
Proof. intros Hk. unfold bindM. destruct (m s); auto. Qed.

Lemma bindM_assoc {A B D} (m : @M V W A) (k : A -> @M V W B) (h : B -> @M V W D) s :
  bindM (bindM m k) h s = bindM m (fun a => bindM (k a) h) s.
Proof. unfold bindM. by destruct (m s). Qed.

Lemma bindM_ret {A B} (a : A) (k : A -> @M V W B) s : bindM (ret a) k s = k a s.
Proof. done. Qed.

(** ** The cell being built *)

(** The outcome with another cell being built. *)
Definition with_cell {A} (c : option V) (r : @res V W A) : @res V W A :=
  match r with R_Val a (w, _) => R_Val a (w, c) | r => r end.
(** Neither reads nor changes it. *)
Definition keeps {A} (m : @M V W A) : Prop := forall w c, m (w, c) = with_cell c (m (w, None)).

Lemma keeps_ret {A} (a : A) : keeps (ret a).
Proof. done. Qed.
Lemma keeps_wrong {A} : keeps (wrong (A:=A)).
Proof. done. Qed.
Lemma keeps_lift f : keeps (lift f).
Proof. intros w c. unfold lift. simpl. by destruct (f w). Qed.
Lemma keeps_bind {A B} (m : @M V W A) (k : A -> @M V W B) :
  keeps m -> (forall a, keeps (k a)) -> keeps (bindM m k).
Proof.
  intros Hm Hk w c. unfold bindM. rewrite (Hm w c). destruct (m (w, None)) as [a [w' c']| | |]; try done. simpl.
  rewrite (Hk a w' c), (Hk a w' c'). by destruct (k a (w', None)) as [? [? ?]| | |].
Qed.

Lemma keeps_enter again params body vs : keeps (enter again params body vs).
Proof.
  intros w c. unfold enter. destruct again as [f|]; [|done]. simpl.
  by destruct (value _ (w, None)) as [v [w' ?]| | |].
Qed.
Lemma keeps_apply prog again n : forall f vs, keeps (apply_to prog again n f vs).
Proof.
  induction n as [|n IH]; intros f vs; simpl; destruct (m_held f) as [[d held]|]; try apply keeps_lift; try done.
  destruct (prog d) as [[params body]|]; [|done]. destruct (_ <=? _); [done|]. destruct (_ <? _); [done|].
  apply keeps_bind; [apply keeps_enter|]. intros r. destruct (drop _ _); [done|apply IH].
Qed.
Lemma keeps_call prog again d vs : keeps (call prog again d vs).
Proof.
  unfold call. destruct (prog d) as [[params body]|]; [|apply keeps_lift]. destruct (_ <? _); [done|].
  apply keeps_bind; [apply keeps_enter|]. intros r. destruct (drop _ _); [done|apply keeps_apply].
Qed.
Lemma keeps_global prog again d : keeps (global prog again d).
Proof. unfold global. destruct (prog d); [apply keeps_call|apply keeps_lift]. Qed.

(** ** Trees without loops *)

Section Vals.
Context (f g : CExpr -> @M V W (@flow V)).

Lemma vals_ext es s : Forall (fun e => forall s, f e s = g e s) es -> vals f es s = vals g es s.
Proof.
  intros Hes. revert s. induction Hes as [|e es He _ IH]; intros s; [done|]. simpl.
  apply bindM_ext; [|intros v s'; by apply bindM_ext]. unfold value. by apply bindM_ext.
Qed.
Lemma keeps_vals es : Forall (fun e => keeps (f e)) es -> keeps (vals f es).
Proof.
  induction 1 as [|e es He _ IH]; [done|]. simpl. apply keeps_bind; [|intros v; by apply keeps_bind].
  apply keeps_bind; [done|]. by intros [|].
Qed.
Lemma vals_length es s vs s' : vals f es s = R_Val vs s' -> length vs = length es.
Proof.
  revert s vs s'. induction es as [|e es IH]; intros s vs s'; simpl; [by intros [= <- _]|].
  unfold bindM. destruct (value (f e) s) as [v s1| | |]; try done.
  destruct (vals f es s1) as [us s2| | |] eqn:E; try done. intros [= <- _]. simpl. by erewrite IH.
Qed.
Lemma vals_app es es' s : vals f (es ++ es') s = bindM (vals f es) (fun vs => bindM (vals f es') (fun us => ret (vs ++ us))) s.
Proof.
  revert s. induction es as [|e es IH]; intros s; simpl.
  - unfold bindM, ret. by destruct (vals f es' s).
  - rewrite bindM_assoc. apply bindM_ext; [done|]. intros v s1. rewrite bindM_assoc.
    transitivity (bindM (bindM (vals f es) (fun vs => bindM (vals f es') (fun us => ret (vs ++ us)))) (fun vs => ret (v :: vs)) s1);
      [by apply bindM_ext|].
    rewrite bindM_assoc. apply bindM_ext; [done|]. intros us s2. by rewrite bindM_assoc.
Qed.
End Vals.

(** A turn of a loop never leaves a tree without loops, and no such tree touches the hole. *)
Definition settled (m : @M V W (@flow V)) : Prop :=
  keeps m /\ forall s vs s', m s <> R_Val (F_Recur vs) s'.

Lemma settled_value m : settled m -> forall s, bindM m (fun r => match r with F_Val v => ret (F_Val v) | F_Recur _ => wrong end) s = m s.
Proof. intros [_ Hm] s. unfold bindM. destruct (m s) as [[v|vs] s'| | |] eqn:E; try done. by apply Hm in E. Qed.

Lemma settled_val (m : @M V W V) : keeps m -> settled (v ⇠ m; ret (F_Val v)).
Proof.
  intros Hm. split; [by apply keeps_bind|]. intros s vs s'. unfold bindM. by destruct (m s).
Qed.
Lemma settled_ret (v : V) : settled (ret (F_Val v)).
Proof. by split. Qed.
Lemma settled_bind {A} (m : @M V W A) k : keeps m -> (forall a, settled (k a)) -> settled (bindM m k).
Proof.
  intros Hm Hk. split; [apply keeps_bind; [done|]; intros a; apply Hk|]. intros s vs s'. unfold bindM.
  destruct (m s); try done. apply Hk.
Qed.
Lemma keeps_value m : keeps m -> keeps (value m).
Proof. intros Hm. apply keeps_bind; [done|]. by intros [|]. Qed.

Lemma placed_settled prog again e : forall Sc rho, placed Sc e = true -> settled (go prog again e rho).
Proof.
  induction e as [[k t] IH] using CExpr_children_ind. intros Sc rho Hp.
  assert (Hargs : forall args, Forall (fun e => forall Sc rho, placed Sc e = true -> settled (go prog again e rho)) args ->
    forallb (placed Sc) args = true -> keeps (vals (fun a => go prog again a rho) args)).
  { intros args Hf Ha. apply keeps_vals. rewrite forallb_forall in Ha. rewrite Forall_forall in Hf |- *.
    intros a Hin. apply (Hf a Hin Sc). by apply Ha, list_elem_of_In. }
  destruct k; child_hyps IH; split_placed Hp; cbn [go]; try done;
    try (apply settled_ret);
    try (by apply settled_bind; [by eapply Hargs|]; intros vs; first [apply settled_val, keeps_lift|apply settled_ret]).
  - apply settled_val, keeps_global.
  - assert (settled (f ⇠ value (go prog again func rho);
      vs ⇠ vals (fun a => go prog again a rho) args; v ⇠ apply_to prog again (S (length vs)) f vs; ret (F_Val v))) as Happ.
    { apply settled_bind; [apply keeps_value; by eapply IH0|]. intros f. apply settled_bind; [by eapply Hargs|].
      intros vs. apply settled_val, keeps_apply. }
    destruct (ce_kind func); try apply Happ. apply settled_bind; [by eapply Hargs|]. intros vs. apply settled_val, keeps_call.
  - apply settled_bind; [apply keeps_value; by eapply IH0|]. intros c.
    destruct (m_truth c); [by eapply IH1|by eapply IH2].
  - apply settled_bind; [apply keeps_value; by eapply IH0|]. intros v. by eapply IH1.
  - apply settled_bind; [apply keeps_value; by eapply IH0|]. intros v. by eapply IH1.
  - apply settled_bind; [apply keeps_value; by eapply IH0|]. intros v. apply settled_ret.
  - apply settled_bind; [apply keeps_value; by eapply IH0|]. intros v. apply settled_ret.
  - apply settled_bind; [|intros _; by eapply IH1]. apply keeps_value.
    destruct value as [[] ?]; simpl in Hp; try done.
  - by eapply IH0.
  - by eapply IH0.
  - by eapply IH0.
Qed.

Lemma value_ext (m m' : @M V W (@flow V)) s : m s = m' s -> value m s = value m' s.
Proof. intros Hm. by apply bindM_ext. Qed.

(** A tree only looks at the slots in its scope. *)
Lemma placed_agree prog again e : forall Sc r1 r2 s,
  placed Sc e = true -> agree Sc r1 r2 -> go prog again e r1 s = go prog again e r2 s.
Proof.
  induction e as [[k t] IH] using CExpr_children_ind. intros Sc r1 r2 s Hp Ha.
  assert (Hargs : forall args s, Forall (fun e => forall Sc r1 r2 s, placed Sc e = true -> agree Sc r1 r2 ->
      go prog again e r1 s = go prog again e r2 s) args -> forallb (placed Sc) args = true ->
    vals (fun a => go prog again a r1) args s = vals (fun a => go prog again a r2) args s).
  { intros args s' Hf Hs. apply vals_ext. rewrite forallb_forall in Hs. rewrite Forall_forall in Hf |- *.
    intros a Hin s''. apply (Hf a Hin Sc); [by apply Hs, list_elem_of_In|done]. }
  destruct k; child_hyps IH; split_placed Hp; cbn [go]; try done;
    try (by apply bindM_ext; [by eapply Hargs|]); try (by eapply IH0).
  - apply bool_decide_eq_true in Hp. by rewrite (Ha x Hp).
  - destruct (ce_kind func); try (apply bindM_ext; [by apply value_ext; eapply IH0|]; intros f s1);
      by apply bindM_ext; [by eapply Hargs|].
  - apply bindM_ext; [by apply value_ext; eapply IH0|]. intros c s1. destruct (m_truth c); [by eapply IH1|by eapply IH2].
  - apply bindM_ext; [by apply value_ext; eapply IH0|]. intros v s1. eapply IH1; [done|by apply agree_upd].
  - apply bindM_ext; [by apply value_ext; eapply IH0|]. intros v s1.
    eapply IH1; [done|]. apply agree_upds; [done|apply split_length].
  - do 3 f_equal. apply list_fmap_ext. intros i c Hc. apply Ha.
    rewrite forallb_forall in Hp. apply list_elem_of_lookup_2, list_elem_of_In, Hp in Hc. by apply bool_decide_eq_true in Hc.
  - apply bindM_ext; [by apply value_ext; eapply IH0|done].
  - apply bindM_ext; [by apply value_ext; eapply IH0|]. intros v s1. destruct index; [done|].
    match goal with H' : bool_decide _ = true |- _ => apply bool_decide_eq_true in H'; by rewrite (Ha evidence H') end.
  - destruct value as [[] ?]; simpl in Hp; try done. apply bool_decide_eq_true in Hp. simpl.
    rewrite (Ha x Hp). apply bindM_ext; [done|]. intros _ s1. by eapply IH1.
Qed.

(** ** Another definition that acts alike *)

Definition again_of (prog : Entries) (fuel : nat) : option (CExpr -> Env (V:=V) -> @M V W (@flow V)) :=
  match fuel with 0 => None | S fuel => Some (ev prog fuel) end.
Lemma ev_go prog n : ev prog n = go prog (again_of prog n).
Proof. by destruct n. Qed.

Section Swap.
Context (prog0 prog1 : Entries) (self_def : DefId) (ps : list LocalId) (B0 B1 : CExpr).
Context (Hself0 : prog0 self_def = Some (ps, B0)) (Hself1 : prog1 self_def = Some (ps, B1)).
Context (Hother : forall d, d <> self_def -> prog1 d = prog0 d).

(** Calls with [n] units of fuel act alike. *)
Definition alike (n : nat) : Prop := forall vs s, length vs = length ps ->
  enter (again_of prog1 n) ps B1 vs s = enter (again_of prog0 n) ps B0 vs s.

Section Same.
Context (a0 a1 : option (CExpr -> Env (V:=V) -> @M V W (@flow V))).
Context (Henter : forall vs s, length vs = length ps -> enter a1 ps B1 vs s = enter a0 ps B0 vs s).
Context (Hagain : match a0, a1 with
                  | Some f, Some g => forall e rho s, g e rho s = f e rho s
                  | None, None => True
                  | _, _ => False
                  end).

Lemma same_enter params body vs s : enter a1 params body vs s = enter a0 params body vs s.
Proof.
  unfold enter. destruct a0 as [g0|], a1 as [g1|]; try done.
  by rewrite (value_ext (g1 body (upds no_locals params vs)) (g0 body (upds no_locals params vs)) (s.1, None)).
Qed.

Lemma same_entry d : match prog0 d, prog1 d with
  | Some (params, body), Some (params', body') => params' = params /\
      forall vs s, length vs = length params -> enter a1 params' body' vs s = enter a0 params body vs s
  | None, None => True
  | _, _ => False
  end.
Proof.
  destruct (decide (d = self_def)) as [->|Hd].
  - rewrite Hself0, Hself1. by split; [|apply Henter].
  - rewrite (Hother d Hd). destruct (prog0 d) as [[params body]|]; [|done]. split; [done|]. intros. apply same_enter.
Qed.

Lemma same_apply n : forall f vs s, apply_to prog1 a1 n f vs s = apply_to prog0 a0 n f vs s.
Proof.
  induction n as [|n IH]; intros f vs s; simpl; destruct (m_held f) as [[d held]|]; try done.
  pose proof (same_entry d) as He.
  destruct (prog0 d) as [[params body]|], (prog1 d) as [[params' body']|]; try done. destruct He as [-> He].
  destruct (_ <=? _); [done|]. destruct (_ <? _) eqn:El; [done|]. apply Nat.ltb_ge in El.
  apply bindM_ext; [apply He; rewrite length_take; lia|]. intros r s'. destruct (drop _ _); [done|apply IH].
Qed.
Lemma same_call d vs s : call prog1 a1 d vs s = call prog0 a0 d vs s.
Proof.
  unfold call. pose proof (same_entry d) as He.
  destruct (prog0 d) as [[params body]|], (prog1 d) as [[params' body']|]; try done. destruct He as [-> He].
  destruct (_ <? _) eqn:El; [done|]. apply Nat.ltb_ge in El.
  apply bindM_ext; [apply He; rewrite length_take; lia|]. intros r s'. destruct (drop _ _); [done|apply same_apply].
Qed.
Lemma same_global d s : global prog1 a1 d s = global prog0 a0 d s.
Proof.
  unfold global. pose proof (same_entry d) as He.
  destruct (prog0 d) as [[params body]|], (prog1 d) as [[params' body']|]; try done. apply same_call.
Qed.

Lemma same_go e : forall rho s, go prog1 a1 e rho s = go prog0 a0 e rho s.
Proof.
  induction e as [[k t] IH] using CExpr_children_ind. intros rho s.
  assert (Hargs : forall args s, Forall (fun e => forall rho s, go prog1 a1 e rho s = go prog0 a0 e rho s) args ->
    vals (fun a => go prog1 a1 a rho) args s = vals (fun a => go prog0 a0 a rho) args s).
  { intros args s' Hf. apply vals_ext. eapply Forall_impl; [exact Hf|]. intros a Ha s''. apply Ha. }
  assert (Hval : forall e s, (forall rho s, go prog1 a1 e rho s = go prog0 a0 e rho s) ->
    value (go prog1 a1 e rho) s = value (go prog0 a0 e rho) s) by (intros; by apply value_ext).
  destruct k; child_hyps IH; cbn [go]; try done; try (apply bindM_ext; [by first [apply Hargs|apply Hval]|]; intros ? ?); try done;
    try apply IH0; try apply IH1.
  - apply bindM_ext; [apply same_global|done].
  - destruct (ce_kind func); try (apply bindM_ext; [by apply Hval|]; intros ? ?); (apply bindM_ext; [by apply Hargs|]; intros ? ?);
      (apply bindM_ext; [first [apply same_apply|apply same_call]|done]).
  - destruct (m_truth a); [apply IH1|apply IH2].
  - apply bindM_ext; [apply IH0|]. intros [v|vs] s'; [done|]. destruct (_ =? _); [|done].
    by destruct a0, a1.
  - unfold start_hole. apply bindM_ext; [|done]. by apply value_ext.
Qed.
End Same.

Lemma same_run n : (forall k, k <= n -> alike k) -> forall e rho s, ev prog1 n e rho s = ev prog0 n e rho s.
Proof.
  induction n as [|n IH]; intros Hn e rho s; rewrite !ev_go; apply same_go; [by apply Hn|done|by apply Hn|].
  intros e' rho' s'. apply IH. intros k Hk. apply Hn. lia.
Qed.

Lemma alike_0 : alike 0.
Proof. done. Qed.

(** Definitions that act alike with any fuel cannot be told apart. *)
Lemma alike_run_def n d vs w : (forall k, alike k) -> run_def prog1 n d vs w = run_def prog0 n d vs w.
Proof.
  intros Ha. unfold run_def. apply (same_call (again_of prog0 (S n)) (again_of prog1 (S n))); [apply Ha|].
  simpl. apply same_run. auto.
Qed.
End Swap.
End Laws.
