(* ===== verification/PuritySound.v ===== *)
(** * Purity is sound

    A tree that counts as pure and total gives a value in every world and leaves the world as
    it was, given that the primitives and the applications it rests on do; an application
    found pure by [application_pure_total] ends within as much fuel as it took rounds. *)

From S2P Require Import Prelude Types Ir Rc RcState ReuseSound Sem Purity Trmc TrmcSem TrmcLaws.
From stdpp Require Import gmap list strings.
From Stdlib Require Import ZArith Lia.

(** What a primitive's operands are known to be: the literals among them. *)
Definition literals_match {V W} `{Machine V W} (args : list CExpr) (vs : list V) : Prop :=
  length vs = length args /\
  forall i l, ce_kind <$> args !! i = Some (K_Lit l) -> vs !! i = Some (m_lit l).

(** ** What the primitives promise

    The runtime's primitives, independently of the analysis: which of them always return,
    and what the others need for it. *)

(** The primitives that neither abort nor look at the world, whatever their operands. *)
Definition returning : list Prim :=
  [P_IntAdd; P_IntBox; P_IntSub; P_IntMul; P_IntAnd; P_IntOr; P_IntXor; P_IntShl; P_IntShr;
   P_IntShrLogical; P_IntComplement; P_IntLt; P_IntLe; P_IntGt; P_IntGe; P_FloatAdd;
   P_FloatSub; P_FloatNeg; P_FloatMul; P_FloatDiv; P_FloatLt; P_FloatLe; P_FloatGt;
   P_FloatGe; P_StrConcat; P_IntToString; P_FloatToString; P_IntToFloat; P_FloatToInt;
   P_Sqrt; P_FloatFromBits; P_FloatToBits; P_CharToString; P_CharToCode; P_IsValidCharCode;
   P_StringLength; P_ToUpper; P_ToLower; P_Trim; P_StringContains; P_StringFind;
   P_StringSplit; P_StringJoin; P_StringSubstring; P_StringTake; P_StringDrop; P_Not;
   P_RecordUpdate; P_ArrayLength; P_ListReversePrefix; P_ArraySplit; P_ArrayJoin;
   P_BytesLength; P_BytesFind; P_BytesFindUtf8; P_BytesConcat; P_BytesConcatMany;
   P_BytesSlice; P_BytesFromList; P_BytesToList; P_BytesFromString; P_BytesIsUtf8;
   P_CryptoSha256; P_CryptoHmacSha256; P_CryptoPbkdf2Sha256; P_CryptoEqual;
   P_CryptoScramPassword; P_TextGraphemes; P_TextWidth; P_PathOperation; P_PathComponents;
   P_RegexCompile; P_RegexFindText; P_RegexFindBytes; P_RegexTestText; P_RegexTestBytes;
   P_RegexNames; P_RegexByteIndex; P_RegexSlice; P_RegexEscape; P_CompressionCreate;
   P_CompressionStep; P_TextPairsFromList; P_TextPairsFromRanges; P_TextPairsToList;
   P_TextPairsGet; P_TextPairsGetAll; P_TextPairsIsEmpty; P_BytesSpan;
   P_TextPairsRenderList; P_TextPairsRenderRows].

(** Values of these types can be compared, and hashed: they hold no function. *)
Inductive comparable : Ty -> Prop :=
| comparable_scalar c : c ∈ [Con_Int; Con_Float; Con_Bool; Con_Char; Con_String; Con_Bytes] -> comparable (Ty_Con c)
| comparable_unit : comparable Ty_Unit
| comparable_sequence c elem : c ∈ [Con_List; Con_Array] -> comparable elem -> comparable (Ty_App (Ty_Con c) elem)
| comparable_tuple fields : Forall comparable fields -> comparable (Ty_Tuple fields)
| comparable_record fields : Forall (fun f => comparable f.2) fields -> comparable (Ty_Record fields Row_Closed).

Class PrimLaws (V W : Type) `{Machine V W} := {
  prim_returns op tys ty (vs : list V) : op ∈ returning -> exists v, forall w : W, m_prim op tys ty vs w = Fin v w;
  (** Division is by no zero. *)
  prim_divides op tys ty (vs : list V) n : op ∈ [P_IntDiv; P_IntRem] -> vs !! 1 = Some (m_lit (Lit_Int n)) -> n ≠ 0%Z ->
    exists v, forall w : W, m_prim op tys ty vs w = Fin v w;
  prim_compares op tys ty (vs : list V) : op ∈ [P_Eq; P_Compare; P_Hash] -> tys ≠ [] -> Forall comparable tys ->
    exists v, forall w : W, m_prim op tys ty vs w = Fin v w;
  (** An array without room is made at once. *)
  prim_empty_array tys ty (vs : list V) : head vs = Some (m_lit (Lit_Int 0)) ->
    exists v, forall w : W, m_prim P_ArrayWithCapacity tys ty vs w = Fin v w }.

Lemma forallb_comparable {A} (ty : A -> Ty) xs : Forall (fun x => comparison_is_total (ty x) = true -> comparable (ty x)) xs ->
  forallb (fun x => comparison_is_total (ty x)) xs = true -> Forall (fun x => comparable (ty x)) xs.
Proof. induction 1; simpl; [done|]. intros [? ?]%andb_true_iff. constructor; auto. Qed.

Lemma total_comparable ty : comparison_is_total ty = true -> comparable ty.
Proof.
  induction ty as [|c| | | |h a _ IHa| |fields IH|fields tail IH| |] using Ty_nested_ind; intros Ht; try discriminate Ht.
  - apply comparable_scalar. by destruct c; try discriminate Ht; repeat (left || right).
  - destruct h as [|c| | | | | | | | |]; try discriminate Ht.
    destruct c; try discriminate Ht; (apply comparable_sequence; [repeat (left || right)|by apply IHa]).
  - apply comparable_tuple. by apply (forallb_comparable id).
  - destruct tail; [|discriminate Ht]. apply comparable_record. by apply (forallb_comparable snd).
  - apply comparable_unit.
Qed.

Lemma literal_operand `{Machine V W} args (vs : list V) i l :
  literals_match args vs -> ce_kind <$> args !! i = Some (K_Lit l) -> vs !! i = Some (m_lit l).
Proof. intros [_ Hl]. apply Hl. Qed.

Lemma safe_divisor `{Machine V W} args (vs : list V) : divisor_is_nonzero_literal args = true -> literals_match args vs ->
  exists n, vs !! 1 = Some (m_lit (Lit_Int n)) /\ n ≠ 0%Z.
Proof.
  unfold divisor_is_nonzero_literal. intros Hd Hm. destruct (ce_kind <$> args !! 1) as [[[n| | | | |]| | | | | | | | | | | | | | | | | | | | | | |]|] eqn:E; try done.
  exists n. split; [by eapply literal_operand|]. intros ->. done.
Qed.

Lemma safe_comparison args : match args with [] => true | _ => existsb (fun a => negb (comparison_is_total (ce_ty a))) args end = false ->
  ce_ty <$> args ≠ [] /\ Forall comparable (ce_ty <$> args).
Proof.
  intros Ha. assert (existsb (fun a => negb (comparison_is_total (ce_ty a))) args = false) as He by by destruct args.
  split; [by destruct args|]. clear Ha. induction args as [|a args IH]; [done|]. simpl in He.
  apply orb_false_iff in He as [Hc%negb_false_iff He]. constructor; [by apply total_comparable|by apply IH].
Qed.

(** A primitive that may be moved gives a value and leaves the world alone. *)
Lemma prim_total `{PrimLaws V W} op args ty (vs : list V) :
  op_unsafe_to_reorder op args = false -> literals_match args vs ->
  exists v, forall w : W, m_prim op (ce_ty <$> args) ty vs w = Fin v w.
Proof.
  intros Hop Hm.
  destruct op; try discriminate Hop; try (by apply prim_returns; repeat (left || right)).
  1,2: apply negb_false_iff in Hop; destruct (safe_divisor _ _ Hop Hm) as (n & Hn & Hz);
    eapply prim_divides; [|done..]; repeat (left || right).
  1-3: destruct (safe_comparison args Hop); apply prim_compares; [|done..]; repeat (left || right).
  simpl in Hop. destruct args as [|[[l| | | | | | | | | | | | | | | | | | | | | | |] t] args]; try done.
  destruct l as [n| | | | |]; try done. apply negb_false_iff, Z.eqb_eq in Hop as ->.
  apply prim_empty_array. pose proof (literal_operand _ _ 0 _ Hm eq_refl) as Hv. by destruct vs.
Qed.

Section Sound.
Context {V W : Type} `{MachineLaws V W, !PrimLaws V W, !Inhabited W}.

(** A value whatever the world, which stays as it is. *)
Definition totals {A} (m : @M V W A) : Prop := exists a, forall s, m s = R_Val a s.

Lemma total_ret {A} (a : A) : totals (ret a).
Proof. by exists a. Qed.
Lemma total_bind {A B} (m : @M V W A) (k : A -> @M V W B) :
  totals m -> (forall a, totals (k a)) -> totals (bindM m k).
Proof.
  intros [a Ha] Hk. destruct (Hk a) as [b Hb]. exists b. intros s. unfold bindM. by rewrite Ha, Hb.
Qed.
(** The run of a tree that is total, as a value. *)
Definition gives (m : @M V W (@flow V)) : Prop := exists v, forall s, m s = R_Val (F_Val v) s.
Lemma gives_value m : gives m -> totals (value m).
Proof. intros [v Hv]. exists v. intros s. unfold value, bindM. by rewrite Hv. Qed.
Lemma gives_val (m : @M V W V) : totals m -> gives (v ⇠ m; ret (F_Val v)).
Proof. intros [v Hv]. exists v. intros s. unfold bindM. by rewrite Hv. Qed.
Lemma totals_give {A} (m : @M V W A) k : totals m -> (forall a, gives (k a)) -> gives (bindM m k).
Proof.
  intros [a Ha] Hk. destruct (Hk a) as [v Hv]. exists v. intros s. unfold bindM. by rewrite Ha, Hv.
Qed.

Lemma gives_vals f es : Forall (fun e => gives (f e)) es -> totals (vals f es).
Proof.
  induction 1 as [|e es He _ IH]; [apply total_ret|]. simpl.
  apply total_bind; [by apply gives_value|]. intros v. apply total_bind; [done|]. intros vs. apply total_ret.
Qed.

Lemma enter_gives (f : CExpr -> Env (V:=V) -> @M V W (@flow V)) params body vs :
  gives (f body (upds no_locals params vs)) -> totals (enter (Some f) params body vs).
Proof.
  intros [v Hv]. exists v. intros [w c]. unfold enter, value, bindM. by rewrite Hv.
Qed.

Section Expr.
Context (pure : DefId -> nat -> bool) (prog : Entries).
Context (again : option (CExpr -> Env (V:=V) -> @M V W (@flow V))).
Context (Hcall : forall d vs, pure d (length vs) = true -> totals (call prog again d vs)).
Context (Hglobal : forall d, pure d 0 = true -> totals (global prog again d)).

Lemma vals_literals args rho vs s s' :
  vals (fun a => go prog again a rho) args s = R_Val vs s' -> literals_match args vs.
Proof.
  revert s vs s'. induction args as [|a args IH]; intros s vs s'; simpl; [by intros [= <- _]|].
  unfold bindM. destruct (value (go prog again a rho) s) as [v s1| | |] eqn:Ev; try done.
  destruct (vals _ args s1) as [us s2| | |] eqn:E; try done. intros [= <- _].
  destruct (IH _ _ _ E) as [Hl Hi]. split; [simpl; by rewrite Hl|]. intros [|i] l; simpl; [|apply Hi].
  destruct a as [[] t]; simpl; try done. intros [= ->]. by injection Ev as <- _.
Qed.

(** [expr_pure_total] *)
Lemma expr_pure_gives e : forall Sc rho, placed Sc e = true -> expr_pure_total pure e = true ->
  gives (go prog again e rho).
Proof.
  induction e as [[k t] IH] using CExpr_children_ind. intros Sc rho Hp He.
  assert (Hargs : forall args, Forall (fun e => forall Sc rho, placed Sc e = true -> expr_pure_total pure e = true ->
      gives (go prog again e rho)) args -> forallb (placed Sc) args = true -> forallb (expr_pure_total pure) args = true ->
    totals (vals (fun a => go prog again a rho) args)).
  { intros args Hf Ha Hb. apply gives_vals. rewrite forallb_forall in Ha, Hb. rewrite Forall_forall in Hf |- *.
    intros a Hin. apply (Hf a Hin Sc); [apply Ha|apply Hb]; by apply list_elem_of_In. }
  destruct k; child_hyps IH; split_placed Hp; split_placed He; cbn [go]; try done;
    try (by eexists; intros s; reflexivity); try (by eapply IH0);
    try (by apply totals_give; [first [by eapply Hargs|by apply gives_value; eapply IH0]|]; intros a; eexists; intros s; reflexivity).
  - by apply gives_val, Hglobal.
  - apply negb_true_iff in He. destruct (Hargs args IH Hp) as [vs Hvs]; [done|].
    destruct (prim_total op args t vs He) as [v Hv]; [by eapply vals_literals, (Hvs (inhabitant, None))|].
    exists v. intros [w c]. unfold bindM, lift. rewrite Hvs. simpl. by rewrite Hv.
  - destruct (ce_kind func); try done.
    match goal with H' : forallb (placed _) args = true |- _ => destruct (Hargs args IH H') as [vs Hvs]; [done|] end.
    destruct (Hcall def vs) as [v Hv]; [by rewrite (vals_length _ _ _ _ _ (Hvs (inhabitant, None)))|].
    exists v. intros s. unfold bindM. by rewrite Hvs, Hv.
  - apply totals_give; [by apply gives_value; eapply IH0|]. intros c. destruct (m_truth c); [by eapply IH1|by eapply IH2].
  - apply totals_give; [by apply gives_value; eapply IH0|]. intros c. by eapply IH1.
  - apply totals_give; [by apply gives_value; eapply IH0|]. intros c. by eapply IH1.
  - apply totals_give; [|intros _; by eapply IH1]. destruct value as [[] tv]; simpl in Hp; try done.
    by eexists.
Qed.
End Expr.

(** [pure_total] of trmc.rs is stricter. *)
Lemma pure_total_expr pure e : pure_total pure e = true -> expr_pure_total pure e = true.
Proof.
  induction e as [[k t] IH] using CExpr_children_ind. unfold pure_total. rewrite negb_true_iff.
  assert (Hargs : forall args, Forall (fun e => pure_total pure e = true -> expr_pure_total pure e = true) args ->
    existsb (any (impure_node pure)) args = false -> forallb (expr_pure_total pure) args = true).
  { intros args Hf Ha. rewrite forallb_forall. rewrite Forall_forall in Hf.
    intros a Hin. apply list_elem_of_In in Hin. apply Hf; [done|]. unfold pure_total.
    apply negb_true_iff, not_true_iff_false. intros Hany. apply not_true_iff_false in Ha. apply Ha, existsb_exists.
    exists a. by rewrite <- list_elem_of_In. }
  unfold pure_total in IH.
  destruct k; child_hyps IH; simpl; rewrite ?orb_false_iff; intros Ha; try done; destruct_and?;
    repeat match goal with H' : any _ _ = false |- _ => rewrite ?H' in *; clear H' end; simpl in *;
    rewrite ?andb_true_iff; split_and?; auto; unfold impure_node in *; simpl in *; try done.
  - by apply negb_false_iff.
  - match goal with H' : op_unsafe_to_reorder _ _ = false |- _ => by rewrite H' end.
  - destruct (ce_kind func); try done. by apply negb_false_iff.
Qed.

(** ** Applications of the program's definitions *)

Section Application.
Context (prog : Entries).
Context (Hprog : forall d params body, prog d = Some (params, body) -> placed (list_to_set params) body = true).

Lemma application_gives n : forall d vs m, application_pure_total prog n d (length vs) = true -> n <= m ->
  totals (call prog (again_of prog m) d vs).
Proof.
  induction n as [|n IH]; intros d vs m; simpl; [done|]. intros Ha Hm. unfold call.
  destruct (prog d) as [[params body]|] eqn:Hd; [|done].
  destruct (Nat.compare_spec (length vs) (length params)) as [He|Hl|Hg]; [| |done].
  - rewrite (proj2 (Nat.ltb_ge _ _)) by lia. rewrite He, take_ge, drop_ge by lia.
    apply total_bind; [|intros r; apply total_ret]. destruct m as [|m]; [lia|]. simpl. apply enter_gives.
    rewrite ev_go. apply (expr_pure_gives (application_pure_total prog n)) with (Sc := list_to_set params).
    + intros d' vs' Hp. apply IH; [done|lia].
    + intros d' Hp. unfold global. destruct (prog d') eqn:Hd'; [apply (IH d' [] m Hp); lia|].
      destruct n; simpl in Hp; [done|]. by rewrite Hd' in Hp.
    + by eapply Hprog.
    + done.
  - rewrite (proj2 (Nat.ltb_lt _ _)) by lia. apply total_ret.
Qed.
End Application.
End Sound.
