(* ===== verification/TrmcChain.v ===== *)
(** * Cells built around a hole

    The destination of a loop: setting it through [HoleFill]s, one for each cell of a chain,
    is building the chain around what is set last.  [collect_chain] keeps the pure bindings
    between the cells and leaves the chain at the hole. *)

From S2P Require Import Prelude Types Ir Rc RcState ReuseSound Sem Purity Trmc TrmcSem TrmcLaws PuritySound.
From stdpp Require Import gmap list strings.
From Stdlib Require Import ZArith Lia.

(** ** What a tree that is linear in the recursion's result looks like *)

Section Plain.
Context (self_def : DefId) (arity : nat).

(** A cell that holds [rec] in a field, as a plain word: neither a niche nor a raw number. *)
Fixpoint cell_plain (rec : LocalId) (e : CExpr) : bool :=
  match e with
  | CE (K_MakeData _ args _ scalars None) _ =>
      match position rec args with
      | Some i => negb (Z.testbit scalars (Z.of_nat i)) && (Z.of_nat i <? 2 ^ 32)%Z
      | None => false
      end
  | CE (K_Dup l body) _ | CE (K_Drop l body) _ => negb (bool_decide (l = rec)) && cell_plain rec body
  | _ => false
  end.

Fixpoint wrap_plain (rec : LocalId) (e : CExpr) : bool :=
  match e with
  | CE kind _ =>
      match kind with
      | K_Let local value body =>
          if 0 <? count_uses value rec then cell_plain rec value && wrap_plain local body else wrap_plain rec body
      | K_Reset _ _ body | K_FreeReuse _ body | K_Dup _ body | K_Drop _ body => wrap_plain rec body
      | K_MakeData _ _ _ _ _ => cell_plain rec e
      | _ => true
      end
  end.

(** Every cell on the way from a self-call to the tail is plain. *)
Fixpoint tails_plain (e : CExpr) : bool :=
  match e with
  | CE kind _ =>
      match kind with
      | K_If _ thn els => tails_plain thn && tails_plain els
      | K_Let local value body =>
          if is_self_call value self_def arity then wrap_plain local body else tails_plain body
      | K_LetMany _ _ body | K_Reset _ _ body | K_FreeReuse _ body | K_Dup _ body | K_Drop _ body => tails_plain body
      | _ => true
      end
  end.
End Plain.

(** ** Uses *)

Lemma count_zero_args x (args : list CExpr) : sum_list_with (count_local x) args = 0 -> Forall (fun a => count_local x a = 0) args.
Proof. induction args as [|a args IH]; simpl; [done|]. intros Hs. constructor; [lia|apply IH; lia]. Qed.

(** A slot that is not read may leave the scope. *)
Lemma placed_drop x e : forall Sc, placed ({[x]} ∪ Sc) e = true -> count_local x e = 0 -> placed Sc e = true.
Proof.
  induction e as [[k t] IH] using CExpr_children_ind. intros Sc Hp Hc.
  assert (Hargs : forall args, Forall (fun e => forall Sc, placed ({[x]} ∪ Sc) e = true -> count_local x e = 0 -> placed Sc e = true) args ->
    forallb (placed ({[x]} ∪ Sc)) args = true -> sum_list_with (count_local x) args = 0 -> forallb (placed Sc) args = true).
  { intros args Hf Hs Hz. rewrite forallb_forall in Hs |- *. rewrite Forall_forall in Hf.
    apply count_zero_args in Hz. rewrite Forall_forall in Hz. intros a Hin. pose proof Hin as Hin'.
    apply list_elem_of_In in Hin. by apply Hf; [|apply Hs|apply Hz]. }
  assert (Hin : forall y, bool_decide (y ∈ {[x]} ∪ Sc) = true -> one_if (bool_decide (y = x)) = 0 -> bool_decide (y ∈ Sc) = true).
  { intros y Hy Hne. rewrite bool_decide_eq_true in Hy |- *. destruct (bool_decide (y = x)) eqn:E; [done|].
    apply bool_decide_eq_false in E. set_solver. }
  assert (Hout : forall y, bool_decide (y ∉ {[x]} ∪ Sc) = true -> bool_decide (y ∉ Sc) = true).
  { intros y Hy. rewrite bool_decide_eq_true in Hy |- *. set_solver. }
  destruct k; child_hyps IH; split_placed Hp; simpl in Hc |- *; try done; rewrite ?andb_true_iff; split_and?;
    try (by apply Hargs; [done|done|lia]); try (by apply Hin); try (by apply Hout);
    try (by apply IH0; [done|lia]); try (by apply IH1; [done|lia]); try (by apply IH2; [done|lia]).
  - apply IH1; [|lia]. by replace ({[x]} ∪ ({[local]} ∪ Sc)) with ({[local]} ∪ ({[x]} ∪ Sc)) by set_solver.
  - match goal with H' : bool_decide (_ ## _) = true |- _ => rewrite bool_decide_eq_true in H' |- * end. set_solver.
  - apply IH1; [|lia]. by replace ({[x]} ∪ (list_to_set locals ∪ Sc)) with (list_to_set locals ∪ ({[x]} ∪ Sc)) by set_solver.
  - rewrite forallb_forall in Hp |- *. intros c Hin'. pose proof (Hp c Hin') as Hc'. rewrite bool_decide_eq_true in Hc' |- *.
    apply elem_of_union in Hc' as [Hx%elem_of_singleton|]; [|done]. subst c. exfalso.
    apply length_zero_iff_nil in Hc. apply (filter_nil_not_elem_of (fun c => c = x) captures x); [done|done|].
    by apply list_elem_of_In.
  - destruct index; [done|]. apply Hin; [done|lia].
  - destruct value as [[] tv]; simpl in Hp, Hc |- *; try done. apply Hin; [done|lia].
Qed.

Lemma is_local_inv v a : is_local a v = true -> ce_kind a = K_Local v.
Proof. unfold is_local. destruct (ce_kind a); try done. by intros ->%bool_decide_eq_true. Qed.
Lemma is_local_eq x v t : is_local (CE (K_Local x) t) v = true -> x = v.
Proof. intros Hl%is_local_inv. by injection Hl. Qed.

Lemma uses_count x e : uses_local e x = true -> 0 < count_local x e.
Proof.
  unfold uses_local. induction e as [[k t] IH] using CExpr_children_ind.
  assert (Hargs : forall args, Forall (fun e => any (fun n => is_local n x) e = true -> 0 < count_local x e) args ->
    existsb (any (fun n => is_local n x)) args = true -> 0 < sum_list_with (count_local x) args).
  { intros args Hf. induction Hf as [|a args Ha _ IHf]; simpl; [done|]. rewrite orb_true_iff. intros [H|H].
    - apply Ha in H. lia.
    - apply IHf in H. lia. }
  destruct k; child_hyps IH; simpl; rewrite ?orb_true_iff, ?orb_false_r, ?orb_false_l; try done;
    try (intros Hu; by apply Hargs);
    try (intros Hu; destruct_or?; first [apply IH0 in Hu|apply IH1 in Hu|apply IH2 in Hu|apply Hargs in Hu; [|done]]; lia).
  intros [Hl%is_local_eq|]; [subst|done]. rewrite bool_decide_eq_true_2 by done. simpl. lia.
Qed.

Lemma position_uses rec args i : position rec args = Some i -> exists a, args !! i = Some a /\ is_local a rec = true.
Proof.
  revert i. induction args as [|a args IH]; intros i; simpl; [done|]. destruct (is_local a rec) eqn:E.
  - intros [= <-]. by exists a.
  - destruct (position rec args) as [j|]; [|done]. intros [= <-]. by apply IH.
Qed.
Lemma is_local_any v a : is_local a v = true -> any (fun n => is_local n v) a = true.
Proof. destruct a as [[] t]; simpl; unfold is_local; simpl; try done. by intros ->. Qed.
Lemma cell_uses rec e : cell_plain rec e = true -> uses_local e rec = true.
Proof.
  unfold uses_local. induction e as [[k t] IH] using CExpr_children_ind.
  destruct k; child_hyps IH; simpl; try done.
  - destruct niche; [done|]. destruct (position rec args) as [i|] eqn:Ep; [|done]. intros _.
    destruct (position_uses _ _ _ Ep) as (a & Ha & Hl). apply existsb_exists. exists a.
    split; [apply list_elem_of_In; by eapply list_elem_of_lookup_2|by apply is_local_any].
  - intros [_ Hc]%andb_true_iff. by apply IH0.
  - intros [_ Hc]%andb_true_iff. by apply IH0.
Qed.

(** ** Setting fields *)

Section Cells.
Context {V W : Type} `{MachineLaws V W, !PrimLaws V W, !Inhabited W}.

(** A path to a field through plain cells. *)
Inductive opens : V -> list nat -> Prop :=
| Opens_here cell : opens cell []
| Opens_field tag scalars vs i field path :
    vs !! i = Some field -> Z.testbit scalars (Z.of_nat i) = false -> opens field path ->
    opens (m_data tag scalars None vs) (i :: path).

Lemma opens_store cell path x : opens cell path -> exists cell', store_at cell path x = Some cell'.
Proof.
  induction 1 as [cell|tag scalars vs i field path Hi Hb _ [field' IH]]; [by exists x|].
  exists (m_data tag scalars None (<[i := field']> vs)). simpl. rewrite load_data, Hi by done. simpl. rewrite IH. simpl.
  apply store_data; [by eapply lookup_lt_Some|done].
Qed.

(** Setting a plain cell opens each of its fields. *)
Lemma opens_extend cell path tag scalars vs i :
  opens cell path -> i < length vs -> Z.testbit scalars (Z.of_nat i) = false ->
  exists cell', store_at cell path (m_data tag scalars None vs) = Some cell' /\ opens cell' (path ++ [i]) /\
    forall x, store_at cell' (path ++ [i]) x = store_at cell path (m_data tag scalars None (<[i := x]> vs)).
Proof.
  intros Ho Hi Hb. induction Ho as [cell|tag' scalars' us j field path Hj Hb' _ (field' & IH1 & IH2 & IH3)].
  - exists (m_data tag scalars None vs). split_and!; [done| |].
    + destruct (lookup_lt_is_Some_2 vs i Hi) as [f Hf]. by eapply Opens_field; [| |constructor].
    + intros x. destruct (lookup_lt_is_Some_2 vs i Hi) as [f Hf]. simpl. rewrite load_data, Hf by done. simpl. by apply store_data.
  - pose proof (lookup_lt_Some _ _ _ Hj) as Hlt.
    exists (m_data tag' scalars' None (<[j := field']> us)). split_and!.
    + simpl. rewrite load_data, Hj by done. simpl. rewrite IH1. simpl. by apply store_data.
    + simpl. eapply Opens_field; [by apply list_lookup_insert_eq|done|done].
    + intros x. simpl. rewrite !load_data, list_lookup_insert_eq, Hj by done. simpl. rewrite IH3.
      destruct (store_at field path (m_data tag scalars None (<[i:=x]> vs))) as [f|]; [|done].
      unfold mbind, option_bind. rewrite !store_data by (rewrite ?length_insert; done). by rewrite list_insert_insert_eq.
Qed.

(** ** Links of a chain *)

(** A cell with all fields but one, which is at [cv_field]. *)
Record CellVal := MkCellVal { cv_tag : Z; cv_scalars : Z; cv_args : list V; cv_field : nat }.
Definition build (k : CellVal) (x : V) : V :=
  m_data (cv_tag k) (cv_scalars k) None (<[cv_field k := x]> (cv_args k)).
Definition fillable (k : CellVal) : Prop :=
  cv_field k < length (cv_args k) /\ Z.testbit (cv_scalars k) (Z.of_nat (cv_field k)) = false.
(** What a chain, innermost cell first, builds around a value. *)
Definition chain_val (ks : list CellVal) (x : V) : V := foldl (fun x k => build k x) x ks.

Lemma opens_build cell path k u : opens cell path -> fillable k ->
  exists cell', store_at cell path (build k u) = Some cell' /\ opens cell' (path ++ [cv_field k]) /\
    forall x, store_at cell' (path ++ [cv_field k]) x = store_at cell path (build k x).
Proof.
  intros Ho [Hi Hb].
  destruct (opens_extend cell path (cv_tag k) (cv_scalars k) (<[cv_field k := u]> (cv_args k)) (cv_field k))
    as (c' & A & B & C); [done|by rewrite length_insert|done|].
  exists c'. split_and!; [done|done|]. intros x. by rewrite C, list_insert_insert_eq.
Qed.
Lemma load_build k u : fillable k -> m_load (build k u) (cv_field k) = Some u.
Proof. intros [Hi Hb]. unfold build. by rewrite load_data, list_lookup_insert_eq. Qed.

Section Eval.
Context (prog : Entries) (again : option (CExpr -> Env (V:=V) -> @M V W (@flow V))).
Abbreviation eval := (go prog again).

(** The link's tree builds the cell with a placeholder, in any environment like this one. *)
Definition evaluated (Sc : gset LocalId) (rho : Env) (link : ChainLink) (k : CellVal) : Prop :=
  cv_field k = link.2 /\ fillable k /\
  forall rho' s, agree Sc rho rho' -> eval link.1 rho' s = R_Val (F_Val (build k (m_lit Lit_Unit))) s.

Lemma let_runs l val body ty rho s v s' :
  eval val rho s = R_Val (F_Val v) s' -> eval (CE (K_Let l val body) ty) rho s = eval body (upd rho l v) s'.
Proof. intros Hv. cbn [go]. unfold value, bindM. by rewrite Hv. Qed.

Lemma eval_fill rho hole cell k path c w :
  rho hole = m_hole path -> opens c path -> fillable k ->
  (forall s, eval cell rho s = R_Val (F_Val (build k (m_lit Lit_Unit))) s) ->
  exists c', opens c' (path ++ [cv_field k]) /\
    (forall x, store_at c' (path ++ [cv_field k]) x = store_at c path (build k x)) /\
    eval (CE (K_HoleFill hole cell (Z.of_nat (cv_field k))) Ty_Error) rho (w, Some c) =
      R_Val (F_Val (m_hole (path ++ [cv_field k]))) (w, Some c').
Proof.
  intros Hh Ho Hk Hc. destruct (opens_build c path k (m_lit Lit_Unit) Ho Hk) as (c' & A & B & C).
  exists c'. split_and!; [done|done|]. cbn [go]. unfold value, bindM. rewrite Hc. unfold ret.
  rewrite Hh, path_hole. unfold expect, ret, set_hole. simpl. rewrite A, Nat2Z.id, load_build by done. done.
Qed.

(** A turn to the next iteration, once the hole is [path]. *)
Definition turns (e : CExpr) (sargs : list CExpr) (Sc : gset LocalId) (rho : Env) (C : V -> V)
    (w : W) (c : V) (path : list nat) : Prop :=
  exists rho' c' path', agree Sc rho rho' /\ opens c' path' /\
    (forall x, store_at c' path' x = store_at c path (C x)) /\
    eval e rho (w, Some c) = (vs ⇠ vals (fun a => eval a rho') sargs; ret (F_Recur (vs ++ [m_hole path']))) (w, Some c').

Lemma eval_recur rho h path sargs s : rho h = m_hole path ->
  eval (recur h sargs) rho s = (vs ⇠ vals (fun a => eval a rho) sargs; ret (F_Recur (vs ++ [m_hole path]))) s.
Proof.
  intros Hh. unfold recur, recur_to. cbn [go]. unfold bindM at 1. rewrite vals_app.
  unfold bindM at 1 3. destruct (vals _ sargs s) as [vs s'| | |]; try done. simpl. unfold bindM, ret. simpl. by rewrite Hh.
Qed.

Lemma agree_fresh (Sc : gset LocalId) rho x (v : V) : x ∉ Sc -> agree Sc rho (upd rho x v).
Proof. intros Hx y Hy. unfold upd. case_decide; [by subst|done]. Qed.

(** Linking built cells to a hole, outermost first. *)
Lemma link_cells_spec (ks : list (LocalId * CellVal)) : forall hole nx,
  Forall (fun k => (Z.of_nat (cv_field k.2) < 2 ^ 32)%Z) ks ->
  exists binds lst nx', link_cells hole ((fun k => (k.1, cv_field k.2)) <$> ks) nx = Some ((binds, lst), nx') /\ nx <= nx' /\
    forall rho w c path, rho hole = m_hole path -> opens c path -> hole < nx ->
      Forall (fun k => rho k.1 = build k.2 (m_lit Lit_Unit) /\ fillable k.2 /\ k.1 < nx) ks ->
      exists rho' c' path', (forall x, x < nx -> rho' x = rho x) /\ opens c' path' /\ rho' lst = m_hole path' /\
        (forall x, store_at c' path' x = store_at c path (foldr (fun k x => build k.2 x) x ks)) /\
        forall result, eval (let_all binds result) rho (w, Some c) = eval result rho' (w, Some c').
Proof.
  induction ks as [|[x k] ks IH]; intros hole nx Hf.
  { exists [], hole, nx. split_and!; [done|done|]. intros rho w c path Hh Ho _ _. by exists rho, c, path. }
  apply Forall_cons in Hf as [Hk Hf]. cbn [snd] in Hk. destruct (IH nx (S nx) Hf) as (binds & lst & nx' & E & Hle & Hrun).
  exists ((nx, CE (K_HoleFill hole (hole_atom x) (Z.of_nat (cv_field k))) Ty_Error) :: binds), lst, nx'.
  split_and!; [|lia|].
  { cbn [fmap list_fmap link_cells]. unfold mbind, sm_bind, Rc.fresh, in_sm, fill. cbn [fst snd].
    rewrite (proj2 (Z.ltb_lt _ _) Hk). cbn. by rewrite E. }
  intros rho w c path Hh Ho Hhole Hks. apply Forall_cons in Hks as [(Hx & Hfil & Hlt) Hks]. simpl in *.
  destruct (eval_fill rho hole (hole_atom x) k path c w Hh Ho Hfil) as (c1 & O1 & S1 & R1); [intros s; cbn; by rewrite Hx|].
  destruct (Hrun (upd rho nx (m_hole (path ++ [cv_field k]))) w c1 (path ++ [cv_field k])) as (rho' & c' & p' & A & B & C & D & R).
  - unfold upd. by rewrite decide_True.
  - done.
  - lia.
  - eapply Forall_impl; [exact Hks|]. simpl. intros k' (Hk' & Hf' & Hl'). split_and!; [|done|lia].
    unfold upd. rewrite decide_False; [done|lia].
  - exists rho', c', p'. split_and!; [|done|done| |].
    + intros y Hy. rewrite A by lia. unfold upd. rewrite decide_False; [done|lia].
    + intros y. by rewrite D, S1.
    + intros result. rewrite <- R. exact (let_runs _ _ _ Ty_Error _ _ _ _ R1).
Qed.

(** The cells of a chain, each bound to a local. *)
Lemma name_cells_spec (chain : list ChainLink) : forall nx,
  name_cells chain nx = Some (zip (seq nx (length chain)) chain.*2, nx + length chain).
Proof.
  unfold name_cells. induction chain as [|[cell i] chain IH]; intros nx; simpl; [by rewrite Nat.add_0_r|].
  unfold mbind, sm_bind, Rc.fresh, mret, sm_ret in *. rewrite IH. simpl. do 2 f_equal. lia.
Qed.

Lemma bind_cells_spec (chain : list ChainLink) : forall (ks : list CellVal) Sc nx rho s result,
  (forall x, x ∈ Sc -> x < nx) -> Forall2 (evaluated Sc rho) chain ks ->
  exists rho', (forall x, x < nx -> rho' x = rho x) /\
    (forall j k, ks !! j = Some k -> rho' (nx + j) = build k (m_lit Lit_Unit)) /\
    eval (let_all (zip (seq nx (length chain)) chain.*1) result) rho s = eval result rho' s.
Proof.
  induction chain as [|[cell i] chain IH]; intros ks Sc nx rho s result HS Hks.
  { inversion Hks; subst. exists rho. split_and!; [done|by intros j k|done]. }
  destruct ks as [|k ks]; [by inversion Hks|]. apply Forall2_cons in Hks as [(Hi & Hf & Hev) Hks].
  destruct (IH ks Sc (S nx) (upd rho nx (build k (m_lit Lit_Unit))) s result) as (rho' & A & B & R).
  { intros x Hx%HS. lia. }
  { eapply Forall2_impl; [exact Hks|]. intros l k' (E1 & E2 & E3). split_and!; [done|done|].
    intros rho2 s' Hag. apply E3. intros x Hx. rewrite <- Hag by done. unfold upd. rewrite decide_False; [done|].
    apply HS in Hx. lia. }
  exists rho'. split_and!.
  - intros x Hx. rewrite A by lia. unfold upd. rewrite decide_False; [done|lia].
  - intros [|j] k' Hj; simpl in Hj; [injection Hj as <-|].
    + rewrite Nat.add_0_r, A by lia. unfold upd. by rewrite decide_True.
    + rewrite <- (B j k' Hj). f_equal. lia.
  - rewrite <- R. exact (let_runs _ _ _ Ty_Error _ _ _ _ (Hev rho s (fun x _ => eq_refl))).
Qed.

Lemma chain_val_foldr ks x : chain_val ks x = foldr build x (reverse ks).
Proof.
  unfold chain_val. revert x. induction ks as [|k ks IH]; intros x; [done|]. rewrite reverse_cons, foldr_app. apply IH.
Qed.

(** The names and fields of a chain's cells, whatever the cells are. *)
Definition named (nx : nat) (ks : list CellVal) : list (LocalId * CellVal) := zip (seq nx (length ks)) ks.
Lemma named_fields nx ks fields : cv_field <$> ks = fields ->
  (fun k : LocalId * CellVal => (k.1, cv_field k.2)) <$> reverse (named nx ks) = reverse (zip (seq nx (length fields)) fields).
Proof.
  intros <-. rewrite fmap_reverse. f_equal. unfold named. rewrite length_fmap. generalize (seq nx (length ks)).
  intros l. revert l. induction ks as [|k ks IH]; intros [|x l]; simpl; [done..|]. by rewrite IH.
Qed.
Lemma evaluated_fields Sc rho chain ks : Forall2 (evaluated Sc rho) chain ks -> cv_field <$> ks = chain.*2.
Proof. induction 1 as [|l k chain ks Hk _ IH]; [done|]. destruct Hk as (Hk & _). rewrite !fmap_cons. by rewrite IH, Hk. Qed.
Lemma named_foldr nx ks x : foldr (fun k x => build k.2 x) x (reverse (named nx ks)) = chain_val ks x.
Proof.
  rewrite chain_val_foldr. unfold named. generalize (length_seq (length ks) nx). generalize (seq nx (length ks)).
  revert x. induction ks as [|k ks IH]; intros x [|y l]; simpl; try done. intros [= Hl].
  rewrite !reverse_cons, !foldr_app. simpl. by apply IH.
Qed.

Lemma named_forall nx ks (P : LocalId * CellVal -> Prop) :
  (forall j k, ks !! j = Some k -> P (nx + j, k)) -> Forall P (reverse (named nx ks)).
Proof.
  intros HP. rewrite Forall_reverse, Forall_lookup. intros j [x k]. unfold named.
  rewrite lookup_zip_with_Some. intros (y & k' & [= -> ->] & [-> _]%lookup_seq & Hk). by apply HP.
Qed.

Lemma emit_many (chain : list ChainLink) hole sargs nx : 2 <= length chain ->
  emit_holefill_chain chain hole sargs nx =
    (cells ← name_cells chain; '(hole_binds, cur_hole) ← link_cells hole (reverse cells);
     mret (let_all (zip cells.*1 chain.*1) (let_all hole_binds (recur cur_hole sargs)))) nx.
Proof. destruct chain as [|[cell i] [|link chain]]; simpl; [lia|lia|done]. Qed.

(** [emit_holefill_chain] *)
Lemma emit_spec (chain : list ChainLink) Sc hole sargs nx :
  chain <> [] -> Forall (fun l => (Z.of_nat l.2 < 2 ^ 32)%Z) chain -> (forall x, x ∈ Sc -> x < nx) -> hole < nx ->
  exists e nx', emit_holefill_chain chain hole sargs nx = Some (e, nx') /\ nx <= nx' /\
    forall rho ks w c path, Forall2 (evaluated Sc rho) chain ks -> rho hole = m_hole path -> opens c path ->
      turns e sargs Sc rho (chain_val ks) w c path.
Proof.
  intros Hne Hf HS Hhole. rename chain into ch. destruct (decide (length ch = 1)) as [H1|H1].
  - destruct ch as [|[cell i] [|]]; try done. apply Forall_cons in Hf as [Hi' _]. assert (Z.of_nat i < 2 ^ 32)%Z as Hi by exact Hi'.
    unfold emit_holefill_chain, mbind, sm_bind, Rc.fresh, in_sm, fill.
    rewrite (proj2 (Z.ltb_lt _ _) Hi). eexists _, _. split_and!; [reflexivity|lia|].
    intros rho ks w c path Hks Hh Ho. destruct ks as [|k [|]]; try by inversion Hks as [|???? _ Hr]; inversion Hr.
    apply Forall2_cons in Hks as [(Hki & Hfil & Hev) _]. cbn [fst snd] in *. subst i.
    destruct (eval_fill rho hole cell k path c w Hh Ho Hfil) as (c' & O & St & R); [by intros s; apply Hev|].
    exists (upd rho nx (m_hole (path ++ [cv_field k]))), c', (path ++ [cv_field k]). split_and!.
    + apply agree_fresh. intros Hin%HS. lia.
    + done.
    + done.
    + rewrite <- (eval_recur _ nx) by (unfold upd; by rewrite decide_True). exact (let_runs _ _ _ Ty_Error _ _ _ _ R).
  - rewrite emit_many by (destruct ch as [|? [|]]; simpl in *; try done; lia).
    pose (dummy := (fun l : ChainLink => MkCellVal 0 0 [] l.2) <$> ch).
    destruct (link_cells_spec (reverse (named nx dummy)) hole (nx + length ch)) as (binds & lst & nx' & E & Hle & _).
    { apply named_forall. unfold dummy. intros j k. rewrite list_lookup_fmap. intros (l & Hl & ->)%fmap_Some.
      by apply (Forall_lookup_1 _ _ _ _ Hf Hl). }
    rewrite (named_fields nx dummy ch.*2), length_fmap in E by (unfold dummy; by rewrite <- !list_fmap_compose).
    unfold mbind, sm_bind. rewrite name_cells_spec, E.
    eexists _, nx'. split_and!; [reflexivity|lia|]. intros rho ks w c path Hks Hh Ho.
    pose proof (evaluated_fields _ _ _ _ Hks) as Hfields. pose proof (Forall2_length _ _ _ Hks) as Hlen.
    rewrite fst_zip by (rewrite length_seq, length_fmap; lia).
    match goal with |- turns (let_all _ ?r) _ _ _ _ _ _ _ =>
      destruct (bind_cells_spec ch ks Sc nx rho (w, Some c) r HS Hks) as (rho1 & A & B & R1) end.
    destruct (link_cells_spec (reverse (named nx ks)) hole (nx + length ch)) as (binds' & lst' & nx'' & E' & _ & Hrun).
    { apply named_forall. intros j k Hj. destruct (Forall2_lookup_r _ _ _ _ _ Hks Hj) as (l & Hl & Hk & _).
      cbn [snd]. rewrite Hk. by apply (Forall_lookup_1 _ _ _ _ Hf Hl). }
    rewrite (named_fields nx ks ch.*2 Hfields), length_fmap, E in E'. injection E' as <- <- <-.
    destruct (Hrun rho1 w c path) as (rho2 & c' & p' & A2 & O2 & L2 & S2 & R2).
    { rewrite A by done. done. }
    { done. }
    { lia. }
    { apply named_forall. intros j k Hj. destruct (Forall2_lookup_r _ _ _ _ _ Hks Hj) as (l & Hl & _ & Hk & _).
      split_and!; [by apply B|done|]. apply lookup_lt_Some in Hj. simpl. lia. }
    exists rho2, c', p'. split_and!.
    + intros x Hx. apply HS in Hx. by rewrite A2, A by lia.
    + done.
    + intros x. by rewrite S2, named_foldr.
    + rewrite R1, R2. by apply eval_recur.
Qed.
End Eval.
End Cells.
