(* ===== verification/TrmcTail.v ===== *)
(** * Tails

    What a turn of the loop makes of the tail of a body: the chain of constructors a self-call
    is under, and the tail itself. *)

From S2P Require Import Prelude Types Ir Rc RcState ReuseSound Sem Purity Trmc TrmcSem TrmcLaws PuritySound TrmcChain.
From stdpp Require Import gmap list strings.
From Stdlib Require Import ZArith Lia.

(** ** Recursion under constructors

    What follows a self-call whose result only goes into constructors: evaluated around the
    result, it builds a chain of cells; rewritten by [collect_chain], it leaves that chain
    around a hole and turns to the next iteration.  Nothing in it touches the world. *)

Section Cons.
Context {V W : Type} `{MachineLaws V W, !PrimLaws V W, !Inhabited W}.
Context (self_def : DefId) (pure : DefId -> nat -> bool) (prog : Entries).
Context (again : option (CExpr -> Env (V:=V) -> @M V W (@flow V))).
Context (Hcall : forall d vs, pure d (length vs) = true -> totals (call prog again d vs)).
Context (Hglobal : forall d, pure d 0 = true -> totals (global prog again d)).
Abbreviation eval := (go prog again).

Lemma pure_eval e Sc rho : placed Sc e = true -> expr_pure_total pure e = true ->
  exists v, forall rho' s, agree Sc rho rho' -> eval e rho' s = R_Val (F_Val v) s.
Proof.
  intros Hp He. destruct (expr_pure_gives pure prog again Hcall Hglobal e Sc rho Hp He) as [v Hv].
  exists v. intros rho' s Ha. rewrite <- Hv. symmetry. by eapply placed_agree.
Qed.

Lemma pure_vals args Sc rho : forallb (placed Sc) args = true -> forallb (expr_pure_total pure) args = true ->
  exists vs, length vs = length args /\
    forall rho' s, agree Sc rho rho' -> vals (fun a => eval a rho') args s = R_Val vs s.
Proof.
  induction args as [|a args IH]; simpl; [by exists []|]. intros [Ha Hs]%andb_true_iff [Pa Ps]%andb_true_iff.
  destruct (pure_eval a Sc rho Ha Pa) as [v Hv]. destruct (IH Hs Ps) as (vs & Hl & Hvs).
  exists (v :: vs). split; [simpl; by rewrite Hl|]. intros rho' s Hag.
  unfold value, bindM, ret. by rewrite Hv, Hvs.
Qed.

(** Operands one of which is [rec]. *)
Lemma field_vals rec args : forall i Sc rho,
  position rec args = Some i -> forallb (placed ({[rec]} ∪ Sc)) args = true ->
  sum_list_with (count_local rec) args = 1 -> forallb (expr_pure_total pure) args = true ->
  exists vs, i < length vs /\ forall rho' s, agree Sc rho rho' ->
    vals (fun a => eval a rho') args s = R_Val (<[i := rho' rec]> vs) s /\
    vals (fun a => eval a rho') (<[i := placeholder]> args) s = R_Val (<[i := m_lit Lit_Unit]> vs) s.
Proof.
  induction args as [|a args IH]; intros i Sc rho; simpl; [done|]. destruct (is_local a rec) eqn:El.
  - intros [= <-] [_ Hs]%andb_true_iff Hc [_ Ps]%andb_true_iff. pose proof (is_local_inv _ _ El) as Hk.
    destruct a as [k t]. simpl in Hk. subst k. simpl in Hc. rewrite bool_decide_eq_true_2 in Hc by done. simpl in Hc.
    destruct (pure_vals args Sc rho) as (vs & Hl & Hvs); [|done|].
    { rewrite forallb_forall in Hs |- *. intros b Hb. apply (placed_drop rec); [by apply Hs|].
      assert (sum_list_with (count_local rec) args = 0) as Hz%count_zero_args by lia. rewrite Forall_forall in Hz.
      by apply Hz, list_elem_of_In. }
    exists (m_lit Lit_Unit :: vs). split; [simpl; lia|]. intros rho' s Hag.
    simpl. unfold value, bindM, ret. simpl. by rewrite Hvs.
  - destruct (position rec args) as [j|] eqn:Ep; [|done]. intros [= <-] [Ha Hs]%andb_true_iff Hc [Pa Ps]%andb_true_iff.
    destruct (position_uses _ _ _ Ep) as (b & Hb & Hbl).
    assert (0 < sum_list_with (count_local rec) args) as Hpos.
    { clear -Hb Hbl. revert j Hb. induction args as [|x args IH]; intros [|j] Hb; simpl in *; [done..| |].
      - injection Hb as ->. pose proof (uses_count rec b) as Hu. unfold uses_local in Hu. rewrite is_local_any in Hu by done.
        specialize (Hu eq_refl). lia.
      - apply IH in Hb. lia. }
    destruct (pure_eval a Sc rho) as [v Hv]; [apply (placed_drop rec); [done|lia]|done|].
    destruct (IH j Sc rho) as (vs & Hl & Hvs); [done|done|lia|done|].
    exists (v :: vs). split; [simpl; lia|]. intros rho' s Hag. destruct (Hvs rho' s Hag) as [H1 H2].
    simpl. unfold value, bindM, ret. rewrite Hv by done. by rewrite H1, H2.
Qed.

(** [hole_cell] *)
Lemma hole_cell_spec rec e : forall Sc, cell_plain rec e = true -> placed ({[rec]} ∪ Sc) e = true ->
  count_local rec e = 1 -> expr_pure_total pure e = true ->
  exists link, hole_cell e rec = Some link /\ (Z.of_nat link.2 < 2 ^ 32)%Z /\
    forall rho, exists k, evaluated prog again Sc rho link k /\
      forall rho' s, agree Sc rho rho' -> eval e rho' s = R_Val (F_Val (build k (rho' rec))) s.
Proof.
  induction e as [[k t] IH] using CExpr_children_ind. intros Sc.
  destruct k; child_hyps IH; simpl; try done.
  - destruct niche; [done|]. destruct (position rec args) as [i|] eqn:Ep; [|done]. intros [Hb Hi]%andb_true_iff Hp Hc Hpu.
    apply negb_true_iff in Hb. apply Z.ltb_lt in Hi. eexists. split_and!; [reflexivity|done|]. intros rho.
    destruct (field_vals rec args i Sc rho) as (vs & Hl & Hvs); [done..|].
    exists (MkCellVal tag scalars vs i). split; [split_and!; [done|done|]|].
    + intros rho' s Hag. destruct (Hvs rho' s Hag) as [_ H2]. cbn [go fst]. unfold bindM at 1. by rewrite H2.
    + intros rho' s Hag. destruct (Hvs rho' s Hag) as [H1 _]. cbn [go]. unfold bindM at 1. by rewrite H1.
  - intros [Hl Hc]%andb_true_iff Hp Hn Hpu. apply negb_true_iff in Hl. rewrite Hl in Hn.
    destruct (IH0 Sc Hc Hp Hn Hpu) as ([cell i] & E & Hi & Hk). simpl. rewrite E. simpl. eexists. split_and!; [reflexivity|done|done].
  - intros [Hl Hc]%andb_true_iff Hp Hn Hpu. apply negb_true_iff in Hl. rewrite Hl in Hn.
    destruct (IH0 Sc Hc Hp Hn Hpu) as ([cell i] & E & Hi & Hk). simpl. rewrite E. simpl. eexists. split_and!; [reflexivity|done|done].
Qed.

Lemma evaluated_mono (Sc Sc' : gset LocalId) rho rho' link k : Sc ⊆ Sc' -> agree Sc rho rho' ->
  evaluated prog again Sc rho link k -> evaluated prog again Sc' rho' link k.
Proof.
  intros HS Ha (A & B & C). split_and!; [done|done|]. intros r s Hag. apply C. intros x Hx.
  rewrite Ha by done. apply Hag, HS, Hx.
Qed.

(** [C] is what [e] does to the result of the recursion. *)
Definition wraps (e : CExpr) (Sc : gset LocalId) (rho : Env) (rec : LocalId) (ks : list CellVal) (C : V -> V) : Prop :=
  forall r s rho', agree Sc rho rho' -> rho' rec = chain_val ks r -> eval e rho' s = R_Val (F_Val (C r)) s.

(** [e'] is [e] rewritten: the cells before it and those in it are left around the hole. *)
Definition collects (e e' : CExpr) (sargs : list CExpr) (Sc : gset LocalId) (hole rec : LocalId) (chain : list ChainLink) : Prop :=
  forall rho ks, Forall2 (evaluated prog again Sc rho) chain ks ->
    exists C, wraps e Sc rho rec ks C /\
      forall rho1 w c path, agree Sc rho rho1 -> rho1 hole = m_hole path -> opens c path ->
        turns prog again e' sargs Sc rho1 C w c path.

Definition collected (e : CExpr) (sargs : list CExpr) (Sc : gset LocalId) (hole rec : LocalId) (chain : list ChainLink)
    (next : nat) : Prop :=
  exists e' next', collect_chain rec e hole sargs chain next = Some (e', next') /\ next <= next' /\
    collects e e' sargs Sc hole rec chain.

(** A node that only passes on what its body gives. *)
Lemma collects_step (F : CExpr -> CExpr) body sargs Sc hole rec chain next :
  (forall next, collect_chain rec (F body) hole sargs chain next =
    (body ← collect_chain rec body hole sargs chain; mret (F body)) next) ->
  (forall b rho s, eval (F b) rho s = eval b rho s) ->
  collected body sargs Sc hole rec chain next -> collected (F body) sargs Sc hole rec chain next.
Proof.
  intros HF Hev (e' & nx' & E & Hle & Hc). exists (F e'), nx'. split_and!; [|done|].
  - rewrite HF. unfold mbind, sm_bind. by rewrite E.
  - intros rho ks Hks. destruct (Hc rho ks Hks) as (C & Hw & Ht). exists C. split.
    + intros r s rho' Hag Hr. rewrite Hev. by apply Hw.
    + intros rho1 w c path Hag Hh Ho. destruct (Ht rho1 w c path Hag Hh Ho) as (r & c' & p' & A & B & D & R).
      exists r, c', p'. split_and!; [done..|]. by rewrite Hev.
Qed.

(** A cell that holds the recursion joins the chain. *)
Lemma collects_link local value body t sargs Sc hole rec chain next link :
  local ∉ Sc -> hole_cell value rec = Some link -> uses_local value rec = true ->
  (forall rho, exists k, evaluated prog again Sc rho link k /\
      forall rho' s, agree Sc rho rho' -> eval value rho' s = R_Val (F_Val (build k (rho' rec))) s) ->
  collected body sargs Sc hole local (chain ++ [link]) next ->
  collected (CE (K_Let local value body) t) sargs Sc hole rec chain next.
Proof.
  intros Hl Hlink Hu Hk (e' & nx' & E & Hle & Hc). exists e', nx'. split_and!; [|done|].
  - cbn [collect_chain]. rewrite Hu, Hlink. exact E.
  - intros rho ks Hks. destruct (Hk rho) as (k & Hev & Hval).
    destruct (Hc rho (ks ++ [k])) as (C & Hw & Ht); [by apply Forall2_app; [|constructor]|].
    exists C. split; [|done]. intros r s rho' Hag Hr.
    rewrite (let_runs _ _ _ _ _ _ _ _ _ _ (Hval rho' s Hag)). apply Hw.
    + intros x Hx. rewrite <- (agree_fresh _ rho' _ _ Hl x Hx). by apply Hag.
    + unfold upd. rewrite decide_True by done. unfold chain_val. rewrite foldl_app. simpl. by f_equal.
Qed.

(** A pure binding stays. *)
Lemma collects_keep local value body t sargs Sc hole rec chain next :
  local ∉ Sc -> local <> rec -> local <> hole -> placed Sc value = true -> expr_pure_total pure value = true ->
  uses_local value rec = false ->
  collected body sargs ({[local]} ∪ Sc) hole rec chain next ->
  collected (CE (K_Let local value body) t) sargs Sc hole rec chain next.
Proof.
  intros Hl Hlr Hlh Hpv Hpu Hu (e' & nx' & E & Hle & Hc). exists (CE (K_Let local value e') t), nx'. split_and!; [|done|].
  - cbn [collect_chain]. rewrite Hu. unfold mbind, sm_bind. by rewrite E.
  - intros rho ks Hks. destruct (pure_eval value Sc rho Hpv Hpu) as [v Hv].
    assert (forall rho', agree Sc rho rho' -> agree ({[local]} ∪ Sc) (upd rho local v) (upd rho' local v)) as Hup
      by (intros; by apply agree_upd).
    destruct (Hc (upd rho local v) ks) as (C & Hw & Ht).
    { eapply Forall2_impl; [exact Hks|]. intros l k Hlk. eapply evaluated_mono; [|by apply agree_fresh|exact Hlk]. set_solver. }
    exists C. split.
    + intros r s rho' Hag Hr. rewrite (let_runs _ _ _ _ _ _ _ _ _ _ (Hv rho' s Hag)). apply Hw; [by apply Hup|].
      unfold upd. by rewrite decide_False.
    + intros rho1 w c path Hag Hh Ho. destruct (Ht (upd rho1 local v) w c path) as (r & c' & p' & A & B & D & R);
        [by apply Hup|unfold upd; by rewrite decide_False|done|].
      exists r, c', p'. split_and!; [|done..|by rewrite (let_runs _ _ _ _ _ _ _ _ _ _ (Hv rho1 _ Hag))].
      intros x Hx. rewrite (agree_fresh _ rho1 _ v Hl x Hx). apply A. set_solver.
Qed.

(** The outermost cell completes the chain. *)
Lemma collects_tail tag args reuse scalars niche t sargs (Sc : gset LocalId) hole rec chain next link :
  hole_cell (CE (K_MakeData tag args reuse scalars niche) t) rec = Some link -> (Z.of_nat link.2 < 2 ^ 32)%Z ->
  (forall rho, exists k, evaluated prog again Sc rho link k /\
      forall rho' s, agree Sc rho rho' ->
        eval (CE (K_MakeData tag args reuse scalars niche) t) rho' s = R_Val (F_Val (build k (rho' rec))) s) ->
  (forall x, x ∈ Sc -> x < next) -> hole < next -> Forall (fun l : ChainLink => (Z.of_nat l.2 < 2 ^ 32)%Z) chain ->
  collected (CE (K_MakeData tag args reuse scalars niche) t) sargs Sc hole rec chain next.
Proof.
  intros Hlink Hi Hk HS Hhole Hch.
  destruct (emit_spec prog again (chain ++ [link]) Sc hole sargs next) as (e' & nx' & E & Hle & Ht);
    [by destruct chain|apply Forall_app; split; [done|by constructor]|done|done|].
  exists e', nx'. split_and!; [|done|].
  - cbn [collect_chain]. rewrite Hlink. exact E.
  - intros rho ks Hks. destruct (Hk rho) as (k & Hev & Hval). exists (chain_val (ks ++ [k])). split.
    + intros r s rho' Hag Hr. rewrite (Hval rho' s Hag), Hr. unfold chain_val. by rewrite foldl_app.
    + intros rho1 w c path Hag Hh Ho. apply Ht; [|done|done]. apply Forall2_app; [|constructor; [|done]].
      * eapply Forall2_impl; [exact Hks|]. intros l k' Hlk. by eapply evaluated_mono.
      * by eapply evaluated_mono.
Qed.

Lemma collect_spec e : forall rec Sc hole sargs (chain : list ChainLink) next,
  placed ({[rec]} ∪ Sc) e = true -> rec ∉ Sc -> check_cons_wrap self_def pure rec e = true -> count_uses e rec = 1 ->
  wrap_plain rec e = true -> (forall x, x ∈ Sc -> x < next) -> (forall x, x ∈ binders e -> x < next /\ x <> hole) ->
  hole < next -> Forall (fun l : ChainLink => (Z.of_nat l.2 < 2 ^ 32)%Z) chain ->
  collected e sargs Sc hole rec chain next.
Proof.
  unfold count_uses. induction e as [[k t] IH] using CExpr_children_ind.
  intros rec Sc hole sargs chain next Hp Hrec Hck Hcnt Hpl HS Hbs Hhole Hch.
  destruct k; child_hyps IH; try done.
  - simpl in Hp, Hck, Hcnt, Hpl. assert (local < next /\ local <> hole) as [Hlt Hlh] by (apply Hbs; simpl; set_solver).
    apply andb_true_iff in Hp as [[Hpv Hpl']%andb_true_iff Hpb]. apply bool_decide_eq_true in Hpl'.
    assert (local ∉ Sc /\ local <> rec) as [Hls Hlr] by set_solver.
    assert (forall x, x ∈ binders body -> x < next /\ x <> hole) as Hbb by (intros x Hx; apply Hbs; simpl; set_solver).
    destruct (0 <? count_uses value rec) eqn:Eu; unfold count_uses in Eu, Hck.
    + apply andb_true_iff in Hck as [[[[[H1 H2]%andb_true_iff H3]%andb_true_iff H4]%andb_true_iff H5]%andb_true_iff H6].
      apply andb_true_iff in Hpl as [Hcell Hpl]. apply Nat.eqb_eq in H1, H5.
      destruct (hole_cell_spec rec value Sc Hcell Hpv H1) as (link & Hlink & Hi & Hk); [by apply pure_total_expr|].
      apply collects_link with link; [done|done|by apply cell_uses|done|].
      apply IH1; try done; [|apply Forall_app; split; [done|by constructor]]. apply (placed_drop rec); [|lia].
      by replace ({[rec]} ∪ ({[local]} ∪ Sc)) with ({[local]} ∪ ({[rec]} ∪ Sc)) by set_solver.
    + apply andb_true_iff in Hck as [[H1 H2]%andb_true_iff H3]. apply Nat.ltb_ge in Eu.
      apply collects_keep; [done|done|done| |by apply pure_total_expr| |].
      * apply (placed_drop rec); [done|lia].
      * apply not_true_iff_false. intros Hu%uses_count. lia.
      * apply IH1; try done; [|set_solver|lia|intros x; set_solver].
        by replace ({[rec]} ∪ ({[local]} ∪ Sc)) with ({[local]} ∪ ({[rec]} ∪ Sc)) by set_solver.
  - simpl in Hck, Hpl. apply andb_true_iff in Hck as [[H1 H2]%andb_true_iff H3].
    destruct (hole_cell_spec rec (CE (K_MakeData tag args reuse scalars niche) t) Sc) as (link & Hlink & Hi & Hk); [done..| |].
    { simpl. rewrite forallb_forall in H2 |- *. intros a Ha. by apply pure_total_expr, H2. }
    by eapply collects_tail.
  - simpl in Hp, Hck, Hcnt, Hpl. apply andb_true_iff in Hck as [[H1 H2]%andb_true_iff H3]. apply Nat.eqb_eq in H1.
    unfold count_uses in H1. apply andb_true_iff in Hp as [[Hpv _]%andb_true_iff Hpb].
    apply (collects_step (fun b => CE (K_Reset value token b) t)); [done| |].
    { intros b rho s. destruct value as [[] tv]; simpl in Hpv; done. }
    apply IH1; try done; [lia|]. intros x Hx. apply Hbs. simpl. set_solver.
  - apply (collects_step (fun b => CE (K_FreeReuse token b) t)); [done|done|]. simpl in Hp, Hck, Hcnt, Hpl, Hbs.
    apply andb_true_iff in Hck as [Ht Hck]. apply negb_true_iff in Ht. rewrite Ht in Hcnt. by apply IH0.
  - apply (collects_step (fun b => CE (K_Dup local b) t)); [done|done|]. simpl in Hp, Hck, Hcnt, Hpl, Hbs.
    apply andb_true_iff in Hck as [Ht Hck]. apply negb_true_iff in Ht. rewrite Ht in Hcnt. by apply IH0.
  - apply (collects_step (fun b => CE (K_Drop local b) t)); [done|done|]. simpl in Hp, Hck, Hcnt, Hpl, Hbs.
    apply andb_true_iff in Hck as [Ht Hck]. apply negb_true_iff in Ht. rewrite Ht in Hcnt. by apply IH0.
Qed.
End Cons.

(** ** Rewritten tails

    A rewritten body, run in a turn of the loop: where the body would call itself at its tail
    it goes on to the next turn, and otherwise it sets the hole to what the body gives. *)

Section Tail.
Context {V W : Type} `{MachineLaws V W, !PrimLaws V W, !Inhabited W}.
Implicit Types (rho : Env (V:=V)) (c : option V) (path : option (list nat)).

Lemma upds_other rho ls : forall vs x, x ∉ ls -> upds rho ls vs x = rho x.
Proof.
  revert rho. induction ls as [|l ls IH]; intros rho [|v vs] x Hx; simpl; try done.
  rewrite IH by set_solver. unfold upd. rewrite decide_False; [done|set_solver].
Qed.

(** *** What a loop makes of its body's outcome *)

(** With a hole, the cell with the hole set; without one, the outcome itself. *)
Definition deliver c path (r : @res V W (@flow V)) : @res V W (@flow V) :=
  match path with
  | None => with_cell c r
  | Some p =>
      match r with
      | R_Val (F_Val v) (w, _) =>
          match cell ← c; store_at cell p v with Some cell => R_Val (F_Val cell) (w, Some cell) | None => R_Wrong end
      | R_Val (F_Recur _) _ => R_Wrong
      | r => r
      end
  end.

Lemma keeps_none {A} (m : @M V W A) w a w' c : keeps m -> m (w, None) = R_Val a (w', c) -> c = None.
Proof. intros Hm. rewrite (Hm w None). destruct (m (w, None)) as [b [w1 c1]| | |]; try done. by intros [= _ _ <-]. Qed.

Lemma deliver_step {A} (m1 m0 : @M V W A) k1 k0 w c path :
  m1 (w, c) = with_cell c (m0 (w, None)) -> keeps m0 ->
  (forall a w', m0 (w, None) = R_Val a (w', None) -> k1 a (w', c) = deliver c path (k0 a (w', None))) ->
  bindM m1 k1 (w, c) = deliver c path (bindM m0 k0 (w, None)).
Proof.
  intros Hm Hkeep Hk. unfold bindM. rewrite Hm. destruct (m0 (w, None)) as [a [w' c']| | |] eqn:E; simpl;
    try by destruct path.
  pose proof (keeps_none _ _ _ _ _ Hkeep E) as ->. by apply Hk.
Qed.

(** The destination a turn starts with. *)
Definition dest (hole : option LocalId) rho c path : Prop :=
  match hole, path with
  | None, None => True
  | Some h, Some p => rho h = m_hole p /\ exists cell, c = Some cell /\ opens cell p
  | _, _ => False
  end.
Definition tok path : list V := match path with Some p => [m_hole p] | None => [] end.
Definition dest_ok (hole : option LocalId) c path : Prop :=
  match hole, path with
  | None, None => True
  | Some h, Some p => exists cell, c = Some cell /\ opens cell p
  | _, _ => False
  end.
Lemma dest_dest_ok hole rho c path : dest hole rho c path -> dest_ok hole c path.
Proof. destruct hole, path; simpl; try done. by intros [_ ?]. Qed.
Lemma dest_same hole rho rho' c path :
  dest hole rho c path -> (forall h, hole = Some h -> rho' h = rho h) -> dest hole rho' c path.
Proof. destruct hole as [h|], path; simpl; try done. intros [Hh Hc] Hs. by rewrite (Hs h). Qed.

(** *** Tails *)

Section Body.
Context (self_def : DefId) (ps : list LocalId) (B0 : CExpr) (pure : DefId -> nat -> bool) (prog : Entries).
Context (again : option (CExpr -> Env (V:=V) -> @M V W (@flow V))).
Context (Hcall : forall d vs, pure d (length vs) = true -> totals (call prog again d vs)).
Context (Hglobal : forall d, pure d 0 = true -> totals (global prog again d)).
Context (hole : option LocalId) (finish : @flow V -> @M V W (@flow V)).
Abbreviation arity := (length ps).
Abbreviation eval := (go prog again).

(** What the loop does at the end of a turn. *)
Context (Hval : forall v, finish (F_Val v) = ret (F_Val v)).
Context (Hjump : forall vs w c path, length vs = arity -> dest_ok hole c path ->
  finish (F_Recur (vs ++ tok path)) (w, c) = deliver c path ((v ⇠ call prog again self_def vs; ret (F_Val v)) (w, None))).

Lemma source_eval e Sc rho0 rho1 w c : placed Sc e = true -> agree Sc rho0 rho1 ->
  eval e rho1 (w, c) = with_cell c (eval e rho0 (w, None)).
Proof.
  intros Hp Ha. rewrite <- (placed_agree prog again e Sc rho0 rho1 _ Hp Ha). apply (placed_settled prog again e Sc rho0 Hp).
Qed.
Lemma source_value e Sc rho0 rho1 w c : placed Sc e = true -> agree Sc rho0 rho1 ->
  value (eval e rho1) (w, c) = with_cell c (value (eval e rho0) (w, None)).
Proof.
  intros Hp Ha. rewrite <- (value_ext (eval e rho0)) by (by eapply placed_agree).
  apply keeps_value, (placed_settled prog again e Sc rho0 Hp).
Qed.
Lemma source_vals args Sc rho0 rho1 w c : forallb (placed Sc) args = true -> agree Sc rho0 rho1 ->
  vals (fun a => eval a rho1) args (w, c) = with_cell c (vals (fun a => eval a rho0) args (w, None)) /\
  keeps (vals (fun a => eval a rho0) args).
Proof.
  intros Hp Ha. rewrite forallb_forall in Hp.
  assert (keeps (vals (fun a => eval a rho0) args)) as Hk.
  { apply keeps_vals. rewrite Forall_forall. intros a Hin. apply (placed_settled prog again a Sc), Hp, list_elem_of_In, Hin. }
  split; [|done]. rewrite <- (vals_ext (fun a => eval a rho0)); [apply Hk|]. rewrite Forall_forall. intros a Hin s.
  eapply placed_agree; [apply Hp, list_elem_of_In, Hin|done].
Qed.

Lemma self_call_inv e sargs : self_call_args e self_def arity = Some sargs ->
  exists alloc ty ft, e = CE (K_App (CE (K_Global self_def) ft) sargs [] alloc) ty /\ length sargs = arity.
Proof.
  destruct e as [k t]. unfold self_call_args. simpl. destruct k; try done. destruct reuse; [|done].
  destruct func as [kf ft]. simpl. destruct kf; try done. destruct (bool_decide_reflect (def = self_def)); [|done].
  simpl. destruct (_ =? _) eqn:El; [|done]. apply Nat.eqb_eq in El. intros [= <-]. subst. by eexists _, _, _.
Qed.
Lemma self_call_eval e sargs rho s : self_call_args e self_def arity = Some sargs ->
  eval e rho s = (vs ⇠ vals (fun a => eval a rho) sargs; v ⇠ call prog again self_def vs; ret (F_Val v)) s.
Proof. intros (alloc & ty & ft & -> & _)%self_call_inv. done. Qed.
Lemma self_call_placed e sargs Sc : self_call_args e self_def arity = Some sargs -> placed Sc e = true ->
  forallb (placed Sc) sargs = true.
Proof. by intros (alloc & ty & ft & -> & _)%self_call_inv. Qed.

Lemma eval_tok rho c path sargs s : dest hole rho c path ->
  vals (fun a => eval a rho) (match hole with Some h => sargs ++ [hole_atom h] | None => sargs end) s =
  (vs ⇠ vals (fun a => eval a rho) sargs; ret (vs ++ tok path)) s.
Proof.
  destruct hole as [h|], path as [p|]; simpl; try done.
  - intros [Hh _]. rewrite vals_app. apply bindM_ext; [done|]. intros vs s'. unfold bindM, ret. simpl. by rewrite Hh.
  - intros _. unfold bindM, ret. destruct (vals _ sargs s); try done. by rewrite app_nil_r.
Qed.

Lemma recur_eval rho c path sargs s : dest hole rho c path ->
  bindM (eval (recur_to (match hole with Some h => sargs ++ [hole_atom h] | None => sargs end)) rho) finish s =
  bindM (vals (fun a => eval a rho) sargs) (fun vs => finish (F_Recur (vs ++ tok path))) s.
Proof.
  intros Hd. unfold recur_to. cbn [go]. rewrite bindM_assoc.
  transitivity (bindM (vs ⇠ vals (fun a => eval a rho) sargs; ret (vs ++ tok path)) (fun vs => finish (F_Recur vs)) s).
  - apply bindM_ext; [by eapply eval_tok|done].
  - by rewrite bindM_assoc.
Qed.

(** The end of a turn that goes on with the values of [sargs]. *)
Lemma jump_spec sargs Sc rho0 rho1 w c path : forallb (placed Sc) sargs = true -> agree Sc rho0 rho1 ->
  dest_ok hole c path -> length sargs = arity ->
  bindM (vals (fun a => eval a rho1) sargs) (fun vs => finish (F_Recur (vs ++ tok path))) (w, c) =
  deliver c path ((vs ⇠ vals (fun a => eval a rho0) sargs; v ⇠ call prog again self_def vs; ret (F_Val v)) (w, None)).
Proof.
  intros Hp Ha Hd Hl. destruct (source_vals sargs Sc rho0 rho1 w c Hp Ha) as [Hv Hk].
  apply deliver_step; [done|done|]. intros vs w' Hvs. apply Hjump; [|done]. by rewrite (vals_length _ _ _ _ _ Hvs).
Qed.

(** [rewrite_final] *)
Lemma final_spec e Sc rho0 rho1 w c path : placed Sc e = true -> agree Sc rho0 rho1 -> dest hole rho1 c path ->
  bindM (eval (rewrite_final self_def arity e hole) rho1) finish (w, c) = deliver c path (eval e rho0 (w, None)).
Proof.
  intros Hp Ha Hd. unfold rewrite_final. destruct (self_call_args e self_def arity) as [sargs|] eqn:Es.
  - rewrite recur_eval with (c := c) (path := path) by done. rewrite (self_call_eval e sargs) by done.
    destruct (self_call_inv _ _ Es) as (_ & _ & _ & _ & Hl).
    apply (jump_spec sargs Sc); [by eapply self_call_placed|done|by eapply dest_dest_ok|done].
  - destruct hole as [h|], path as [p|]; simpl in Hd; try done.
    + destruct Hd as [Hh (cell & -> & Ho)]. cbn [go]. rewrite bindM_assoc.
      rewrite <- (settled_value (eval e rho0)) by (by eapply placed_settled).
      transitivity (deliver (Some cell) (Some p) (bindM (value (eval e rho0)) (fun v => ret (F_Val v)) (w, None)));
        [|f_equal; unfold value; rewrite bindM_assoc; apply bindM_ext; [done|]; by intros [] ?].
      apply deliver_step; [by eapply source_value|by eapply keeps_value, placed_settled|].
      intros v w' _. rewrite Hh, path_hole. destruct (opens_store cell p v Ho) as [cell' Hs].
      unfold bindM, expect, ret, set_hole. simpl. rewrite Hs. by rewrite Hval.
    + unfold bindM. rewrite (source_eval _ _ rho0 rho1 w c Hp Ha). simpl.
      destruct (eval e rho0 (w, None)) as [[v|vs] [w' c']| | |] eqn:E; try done; simpl.
      * by rewrite Hval.
      * by apply (placed_settled prog again e Sc rho0 Hp) in E.
Qed.
(** *** [rewrite_tail] *)

Definition checked (e : CExpr) : Prop :=
  match hole with
  | None => True
  | Some _ => (exists f f', check_tail self_def arity pure e f = Some f') /\ tails_plain self_def arity e = true
  end.

Lemma self_call_contains e : is_self_call e self_def arity = true -> contains_self e self_def = true.
Proof.
  unfold is_self_call. destruct (self_call_args e self_def arity) as [sargs|] eqn:Es; [|done]. intros _.
  destruct (self_call_inv _ _ Es) as (alloc & ty & ft & -> & _). unfold contains_self. simpl.
  unfold is_global. simpl. by rewrite bool_decide_eq_true_2.
Qed.

Lemma contains_children e : contains_self e self_def = false -> Forall (fun a => contains_self a self_def = false) (e_children e).
Proof.
  unfold contains_self. destruct e as [k t].
  assert (Hargs : forall args, existsb (any (is_global self_def)) args = false -> Forall (fun a => any (is_global self_def) a = false) args).
  { induction args as [|a args IH]; simpl; [constructor|]. rewrite orb_false_iff. intros [? ?]. constructor; auto. }
  destruct k; simpl; rewrite ?orb_false_iff; intros Hn; destruct_and?; repeat (constructor; try done); by apply Hargs.
Qed.

(** A tree that does not name the definition is one base case. *)
Lemma nonself_check e : forall f, contains_self e self_def = false -> check_tail self_def arity pure e f = Some f.
Proof.
  induction e as [[k t] IH] using CExpr_children_ind. intros f Hn.
  assert (is_self_call (CE k t) self_def arity = false) as Hs.
  { apply not_true_iff_false. intros Hs%self_call_contains. by rewrite Hn in Hs. }
  pose proof (contains_children _ Hn) as Hc.
  destruct k; child_hyps IH; simpl in Hc; repeat (apply Forall_cons in Hc as [?Hc Hc]); cbn [check_tail]; rewrite ?Hs, ?Hn;
    try done; try (by apply IH0).
  - rewrite Hc0, IH1 by done. by apply IH2.
  - rewrite Hc0. destruct (is_self_call value self_def arity) eqn:Ev; [|by apply IH1].
    apply self_call_contains in Ev. by rewrite Hc0 in Ev.
  - rewrite Hc0. by apply IH1.
Qed.
Definition simulates (Sc : gset LocalId) (e e' : CExpr) : Prop := forall rho0 rho1 w c path,
  agree Sc rho0 rho1 -> dest hole rho1 c path ->
  bindM (eval e' rho1) finish (w, c) = deliver c path (eval e rho0 (w, None)).

Definition rewritten (e : CExpr) (Sc : gset LocalId) (next : nat) : Prop :=
  exists e' next', rewrite_tail self_def arity e hole next = Some (e', next') /\ next <= next' /\ simulates Sc e e'.

(** A node that only passes on what its body gives. *)
Lemma rewritten_step (F : CExpr -> CExpr) body Sc next :
  (forall next, rewrite_tail self_def arity (F body) hole next =
    (body ← rewrite_tail self_def arity body hole; mret (F body)) next) ->
  (forall b rho s, eval (F b) rho s = eval b rho s) ->
  rewritten body Sc next -> rewritten (F body) Sc next.
Proof.
  intros HF Hev (e' & nx' & E & Hle & Hs). exists (F e'), nx'. split_and!; [|done|].
  - rewrite HF. unfold mbind, sm_bind. by rewrite E.
  - intros rho0 rho1 w c path Ha Hd. rewrite Hev, <- (Hs rho0 rho1 w c path Ha Hd). apply bindM_ext; [apply Hev|done].
Qed.

(** A node that evaluates a value, then its body with locals bound. *)
Lemma rewritten_bind (F : CExpr -> CExpr) (value : CExpr) (bind : Env -> V -> Env) body Sc Sc' next :
  (forall next, rewrite_tail self_def arity (F body) hole next =
    (body ← rewrite_tail self_def arity body hole; mret (F body)) next) ->
  (forall b rho s, eval (F b) rho s = (v ⇠ TrmcSem.value (eval value rho); eval b (bind rho v)) s) ->
  placed Sc value = true ->
  (forall rho0 rho1 v, agree Sc rho0 rho1 -> agree Sc' (bind rho0 v) (bind rho1 v)) ->
  (forall rho v h, hole = Some h -> bind rho v h = rho h) ->
  rewritten body Sc' next -> rewritten (F body) Sc next.
Proof.
  intros HF Hev Hp Hb Hh (e' & nx' & E & Hle & Hs). exists (F e'), nx'. split_and!; [|done|].
  - rewrite HF. unfold mbind, sm_bind. by rewrite E.
  - intros rho0 rho1 w c path Ha Hd. rewrite Hev.
    transitivity (bindM (TrmcSem.value (eval value rho1)) (fun v => bindM (eval e' (bind rho1 v)) finish) (w, c)).
    { rewrite <- bindM_assoc. apply bindM_ext; [apply Hev|done]. }
    apply deliver_step; [by eapply source_value|by eapply keeps_value, placed_settled|].
    intros v w' _. apply Hs; [by apply Hb|]. apply (dest_same hole rho1); [done|]. intros h Hho. by apply Hh.
Qed.

(** A self-call whose result goes into constructors. *)
Lemma rewritten_cons h local value body t sargs Sc next :
  hole = Some h -> self_call_args value self_def arity = Some sargs ->
  placed Sc (CE (K_Let local value body) t) = true -> count_uses body local = 1 ->
  check_cons_wrap self_def pure local body = true -> wrap_plain local body = true ->
  (forall x, x ∈ Sc -> x < next) -> (forall x, x ∈ binders body -> x < next /\ x <> h) -> h < next ->
  rewritten (CE (K_Let local value body) t) Sc next.
Proof.
  intros Hh Hs Hp Hc Hck Hpl HS Hb Hlt. simpl in Hp. apply andb_true_iff in Hp as [[Hpv Hpl']%andb_true_iff Hpb].
  apply bool_decide_eq_true in Hpl'.
  destruct (collect_spec self_def pure prog again Hcall Hglobal body local Sc h sargs [] next) as (e' & nx' & E & Hle & Hcol);
    try done.
  exists e', nx'. split_and!; [|done|].
  { cbn [rewrite_tail]. by rewrite Hh, Hs. }
  intros rho0 rho1 w c path Ha Hd. rewrite Hh in Hd. destruct path as [p|]; [|done].
  destruct Hd as [Hho (cell & -> & Ho)]. destruct (Hcol rho0 []) as (C & Hw & Ht); [constructor|].
  destruct (Ht rho1 w cell p Ha Hho Ho) as (rho' & c' & p' & Ha' & Ho' & Hst & Hev).
  transitivity (bindM (vals (fun a => eval a rho') sargs) (fun vs => finish (F_Recur (vs ++ tok (Some p')))) (w, Some c')).
  { unfold bindM at 1. rewrite Hev. unfold bindM, ret. by destruct (vals _ sargs (w, Some c')). }
  destruct (self_call_inv _ _ Hs) as (_ & _ & _ & _ & Hl).
  rewrite (jump_spec sargs Sc rho0 rho' w (Some c') (Some p')); [|by eapply self_call_placed| | |done].
  - rewrite <- (self_call_eval value sargs rho0) by done. cbn [go]. unfold TrmcSem.value, bindM.
    destruct (eval value rho0 (w, None)) as [[r|vs] [w' d]| | |]; try done. unfold ret.
    rewrite (Hw r); [simpl; by rewrite Hst| |].
    + by apply agree_fresh; set_solver.
    + unfold upd. by rewrite decide_True.
  - intros x Hx. by rewrite Ha, Ha'.
  - rewrite Hh. by exists c'.
Qed.

Lemma rewritten_let local value body t Sc next :
  (forall next, rewrite_tail self_def arity (CE (K_Let local value body) t) hole next =
    (body ← rewrite_tail self_def arity body hole; mret (CE (K_Let local value body) t)) next) ->
  placed Sc (CE (K_Let local value body) t) = true -> hole <> Some local ->
  rewritten body ({[local]} ∪ Sc) next -> rewritten (CE (K_Let local value body) t) Sc next.
Proof.
  intros HF Hp Hl. simpl in Hp. apply andb_true_iff in Hp as [[Hpv Hpl]%andb_true_iff Hpb].
  apply (rewritten_bind (fun b => CE (K_Let local value b) t) value (fun rho v => upd rho local v)); [|done|done| |].
  - done.
  - intros rho0 rho1 v Ha. by apply agree_upd.
  - intros rho v h Hh. unfold upd. rewrite decide_False; [done|]. intros ->. by rewrite Hh in Hl.
Qed.

Lemma checked_if cond thn els t : checked (CE (K_If cond thn els) t) -> checked thn /\ checked els.
Proof.
  unfold checked. destruct hole; [|done]. intros [(f & f' & Hc) Hp]. cbn [check_tail tails_plain] in Hc, Hp.
  apply andb_true_iff in Hp as [Hp1 Hp2]. destruct (contains_self cond self_def); [done|].
  destruct (check_tail self_def arity pure thn f) as [f1|] eqn:E; [|done]. split; split; try done; eexists _, _; first [exact E|exact Hc].
Qed.
Lemma checked_reset value token body t : checked (CE (K_Reset value token body) t) -> checked body.
Proof.
  unfold checked. destruct hole; [|done]. intros [(f & f' & Hc) Hp]. cbn [check_tail tails_plain] in Hc, Hp.
  destruct (contains_self value self_def); [done|]. split; [by eexists _, _|done].
Qed.
Lemma checked_let local value body t : checked (CE (K_Let local value body) t) ->
  hole = None \/ self_call_args value self_def arity = None -> checked body.
Proof.
  unfold checked. destruct hole; [|done]. intros [(f & f' & Hc) Hp] [|Hn]; [done|]. cbn [check_tail tails_plain] in Hc, Hp.
  unfold is_self_call in Hc, Hp. rewrite Hn in Hc, Hp. destruct (contains_self value self_def); [done|].
  split; [by eexists _, _|done].
Qed.
Lemma checked_many locals value body t : checked (CE (K_LetMany locals value body) t) -> checked body.
Proof.
  unfold checked. destruct hole; [|done]. intros [(f & f' & Hc) Hp]. cbn [check_tail tails_plain] in Hc, Hp.
  destruct (is_self_call (CE (K_LetMany locals value body) t) self_def arity) eqn:Es; [discriminate Es|].
  destruct (contains_self (CE (K_LetMany locals value body) t) self_def) eqn:En; [done|].
  apply contains_children in En. simpl in En. apply Forall_cons in En as [_ En]. apply Forall_cons in En as [En _].
  split; [|done]. exists f, f. by apply nonself_check.
Qed.

Lemma hole_cases : (exists h, hole = Some h) \/ hole = None.
Proof using hole. clear -hole. destruct hole; [left; by eexists|by right]. Qed.

Lemma tail_spec e : forall Sc next, placed Sc e = true -> checked e -> (forall x, x ∈ Sc -> x < next) ->
  (forall x, x ∈ binders e -> x < next /\ hole <> Some x) -> (forall h, hole = Some h -> h < next) ->
  rewritten e Sc next.
Proof.
  induction e as [[k t] IH] using CExpr_children_ind. intros Sc next Hp Hck HS Hb Hh.
  assert (Hfinal : (forall next, rewrite_tail self_def arity (CE k t) hole next = Some (rewrite_final self_def arity (CE k t) hole, next)) ->
    rewritten (CE k t) Sc next).
  { intros Hr. exists (rewrite_final self_def arity (CE k t) hole), next. split_and!; [done|done|].
    intros rho0 rho1 w c path. by apply final_spec. }
  destruct k; child_hyps IH; try (by apply Hfinal); clear Hfinal.
  - simpl in Hp, Hb. apply andb_true_iff in Hp as [[Hpc Hpt]%andb_true_iff Hpe].
    destruct (IH1 Sc next) as (t' & n1 & E1 & L1 & S1); [done|by apply checked_if in Hck as []|done| |done|].
    { intros x Hx. apply Hb. set_solver. }
    destruct (IH2 Sc n1) as (e' & n2 & E2 & L2 & S2); [done|by apply checked_if in Hck as []| | | |].
    { intros x Hx%HS. lia. }
    { intros x Hx. destruct (Hb x); [set_solver|]. split; [lia|done]. }
    { intros h Hho%Hh. lia. }
    exists (CE (K_If cond t' e') t), n2. split_and!; [|lia|].
    { cbn [rewrite_tail]. unfold mbind, sm_bind. by rewrite E1, E2. }
    intros rho0 rho1 w c path Ha Hd. cbn [go]. rewrite bindM_assoc.
    apply deliver_step; [by eapply source_value|by eapply keeps_value, placed_settled|].
    intros v w' _. destruct (m_truth v); [by apply S1|by apply S2].
  - assert (Hbb : forall x, x ∈ binders body -> x < next /\ hole <> Some x) by (intros x Hx; apply Hb; simpl; set_solver).
    destruct (Hb local) as [Hlt Hlh]; [simpl; set_solver|].
    destruct hole_cases as [[h Eh]|Eh]; [destruct (self_call_args value self_def arity) as [sargs|] eqn:Es|].
    + unfold checked in Hck. rewrite Eh in Hck. destruct Hck as [(f & f' & Hck) Hpl]. cbn [check_tail tails_plain] in Hck, Hpl.
      unfold is_self_call in Hck, Hpl. rewrite Es in Hck, Hpl.
      destruct (_ && _) eqn:E; [|done]. apply andb_true_iff in E as [Hc%Nat.eqb_eq Hw].
      eapply rewritten_cons; [done|done|done|done|done|done|done| |by apply Hh].
      intros x Hx. destruct (Hbb x Hx) as [? Hxh]. split; [done|]. congruence.
    + apply rewritten_let; try done; [intros n; cbn [rewrite_tail]; by rewrite Eh, Es|].
      apply IH1; try done; [by simpl in Hp; apply andb_true_iff in Hp as [_ ?]|eapply checked_let; [exact Hck|by right]|set_solver].
    + apply rewritten_let; try done; [intros n; cbn [rewrite_tail]; by rewrite Eh|].
      apply IH1; try done; [by simpl in Hp; apply andb_true_iff in Hp as [_ ?]|eapply checked_let; [exact Hck|by left]|set_solver].
  - simpl in Hp. apply andb_true_iff in Hp as [[Hpv Hpl]%andb_true_iff Hpb]. apply bool_decide_eq_true in Hpl.
    apply (rewritten_bind (fun b => CE (K_LetMany locals value b) t) value
      (fun rho v => upds rho locals (m_split (length locals) v)) body Sc (list_to_set locals ∪ Sc)); [done|done|done| | |].
    + intros rho0 rho1 v Ha. apply agree_upds; [done|apply split_length].
    + intros rho v h Hho. apply upds_other. intros Hin. destruct (Hb h) as [_ Hne]; [simpl; set_solver|congruence].
    + apply IH1; try done; [by eapply checked_many| |intros x Hx; apply Hb; simpl; set_solver].
      intros x [Hx%elem_of_list_to_set|Hx]%elem_of_union; [apply Hb; simpl; set_solver|by apply HS].
  - simpl in Hp. apply andb_true_iff in Hp as [[Hpv _]%andb_true_iff Hpb].
    apply (rewritten_step (fun b => CE (K_Reset value token b) t)); [done| |].
    { intros b rho s. destruct value as [[] tv]; simpl in Hpv; done. }
    apply IH1; try done; [by eapply checked_reset|]. intros x Hx. apply Hb. simpl. set_solver.
  - apply (rewritten_step (fun b => CE (K_FreeReuse token b) t)); [done|done|]. by apply IH0.
  - apply (rewritten_step (fun b => CE (K_Dup local b) t)); [done|done|]. by apply IH0.
  - apply (rewritten_step (fun b => CE (K_Drop local b) t)); [done|done|]. by apply IH0.
Qed.
End Body.
End Tail.
