(* ===== verification/TrmcLoop.v ===== *)
(** * Loops

    A definition whose body is rewritten into a loop acts as the one that calls itself, with
    the same fuel: a call of itself at the tail and the next turn of the loop take one each. *)

From S2P Require Import Prelude Types Ir Rc RcState ReuseSound Sem Purity Trmc TrmcSem TrmcLaws PuritySound TrmcChain TrmcTail.
From stdpp Require Import gmap list strings.
From Stdlib Require Import ZArith Lia.

Section Loop.
Context {V W : Type} `{MachineLaws V W, !PrimLaws V W, !Inhabited W}.

(** What the callback that says which applications are pure and total promises: of a definition
    of the program only that it may have too few arguments. *)
Definition pure_ok (prog : Entries) (pure : DefId -> nat -> bool) : Prop :=
  forall d k, pure d k = true ->
    match prog d with
    | Some (params, _) => k < length params
    | None => (forall vs : list V, length vs = k -> exists v, forall w : W, m_call d vs w = Fin v w) /\
              (k = 0 -> exists v : V, forall w : W, m_global d w = Fin v w)
    end.

Lemma pure_call prog pure again d (vs : list V) : pure_ok prog pure -> pure d (length vs) = true ->
  totals (call prog again d vs).
Proof.
  intros Hok Hp. specialize (Hok _ _ Hp). unfold call. destruct (prog d) as [[params body]|].
  - rewrite (proj2 (Nat.ltb_lt _ _)) by done. apply total_ret.
  - destruct Hok as [Hc _]. destruct (Hc vs eq_refl) as [v Hv]. exists v. intros [w c]. unfold lift. simpl. by rewrite Hv.
Qed.
Lemma pure_global prog pure again d : pure_ok prog pure -> pure d 0 = true -> totals (global prog again d).
Proof.
  intros Hok Hp. pose proof (Hok _ _ Hp) as Hd. unfold global. destruct (prog d) as [[params body]|] eqn:E.
  - by apply (pure_call prog pure again d []).
  - destruct Hd as [_ Hg]. destruct (Hg eq_refl) as [v Hv]. exists v. intros [w c]. unfold lift. simpl. by rewrite Hv.
Qed.

Lemma upds_app (rho : Env (V:=V)) xs ys vs us : length vs = length xs ->
  upds rho (xs ++ ys) (vs ++ us) = upds (upds rho xs vs) ys us.
Proof.
  revert rho vs. induction xs as [|x xs IH]; intros rho [|v vs]; simpl; try done. intros [= Hl]. by apply IH.
Qed.

(** The definition with another body. *)
Definition with_body (prog : Entries) (d : DefId) (params : list LocalId) (body : CExpr) : Entries :=
  fun d' => if decide (d' = d) then Some (params, body) else prog d'.

(** A body that evaluates as the definition's own in its program acts like it. *)
Lemma body_alike (prog : Entries) self_def params body body1 : prog self_def = Some (params, body) ->
  (forall again rho (s : @State V W), go prog again body1 rho s = go prog again body rho s) ->
  forall n, alike prog (with_body prog self_def params body1) params body body1 (V:=V) (W:=W) n.
Proof.
  intros Hself Hgo n. induction n as [n IHn] using lt_wf_ind. intros vs [w c] Hl. destruct n as [|n]; [done|].
  cbn [again_of]. unfold enter. cbn [fst snd].
  rewrite (value_ext _ (ev prog n body (upds no_locals params vs)) (w, None)); [done|].
  rewrite (same_run prog (with_body prog self_def params body1) self_def params body body1).
  - rewrite !ev_go. apply Hgo.
  - done.
  - unfold with_body. by rewrite decide_True.
  - intros d Hd. unfold with_body. by rewrite decide_False.
  - intros k Hk. apply IHn. lia.
Qed.

(** Its runs are the program's. *)
Lemma with_body_run (prog : Entries) self_def params body body1 : prog self_def = Some (params, body) ->
  (forall n, alike prog (with_body prog self_def params body1) params body body1 (V:=V) (W:=W) n) ->
  forall n d (vs : list V) (w : W), run_def (with_body prog self_def params body1) n d vs w = run_def prog n d vs w.
Proof.
  intros Hself Ha n d vs w. apply (alike_run_def prog (with_body prog self_def params body1) self_def params body body1);
    try done; unfold with_body; [by rewrite decide_True|]. intros d' Hd. by rewrite decide_False.
Qed.

(** A turn's parameters, set over whatever the turn before left. *)
Lemma params_env (ps : list LocalId) (rho : Env (V:=V)) vs : length vs = length ps ->
  agree (list_to_set ps) (upds no_locals ps vs) (upds rho ps vs).
Proof.
  intros Hl x Hx. apply (agree_upds ps ∅ no_locals rho vs); [by intros y Hy%elem_of_empty|done|set_solver].
Qed.

Section Def.
Context (prog : Entries) (self_def : DefId) (ps : list LocalId) (B0 : CExpr) (pure : DefId -> nat -> bool) (next : nat).
Context (Hself : prog self_def = Some (ps, B0)) (Hpure : pure_ok prog pure).
Context (Hplaced : placed (list_to_set ps) B0 = true) (Hps : forall x, x ∈ ps -> x < next).
Context (Hbinders : forall x, x ∈ binders B0 -> x < next).

(** A call with as many arguments as parameters. *)
Lemma call_self again (vs : list V) w c : length vs = length ps ->
  call prog again self_def vs (w, c) = enter again ps B0 vs (w, c).
Proof.
  intros Hl. unfold call. rewrite Hself, (proj2 (Nat.ltb_ge _ _)), take_ge, drop_ge by lia.
  unfold bindM, ret. by destruct (enter again ps B0 vs (w, c)).
Qed.

Lemma self_value (f : CExpr -> Env (V:=V) -> @M V W (@flow V)) vs w : length vs = length ps ->
  settled (f B0 (upds no_locals ps vs)) ->
  (v ⇠ call prog (Some f) self_def vs; ret (F_Val v)) (w, None) = f B0 (upds no_locals ps vs) (w, None).
Proof.
  intros Hl Hf. unfold bindM at 1. rewrite call_self by done. unfold enter, value, bindM. cbn [fst snd].
  destruct (f B0 (upds no_locals ps vs) (w, None)) as [[v|us] [w' c']| | |] eqn:E; try done.
  - by rewrite (keeps_none _ _ _ _ _ (proj1 Hf) E).
  - by apply (proj2 Hf) in E.
Qed.

Section Hole.
Context (hole : option LocalId) (LB : CExpr) (next' : nat).
Context (Hhole : forall h, hole = Some h -> h = next).
Context (Hchecked : checked self_def ps pure hole B0).

Definition params_hole : list LocalId := ps ++ option_list hole.
Definition loop : CExpr := CE (K_Join params_hole LB) (ce_ty B0).
Definition looped : CExpr :=
  match hole with Some h => CE (K_HoleStart h loop) (ce_ty B0) | None => loop end.
Definition prog1 : Entries := with_body prog self_def ps looped.

(** The start and the end of a loop that calls the definition instead of turning. *)
Definition calling (again : option (CExpr -> Env (V:=V) -> @M V W (@flow V))) (r : @flow V) : @M V W (@flow V) :=
  match r with
  | F_Val v => ret (F_Val v)
  | F_Recur us => fun s =>
      deliver s.2 (match hole with Some _ => last us ≫= m_path | None => None end)
        ((v ⇠ call prog again self_def (take (length ps) us); ret (F_Val v)) (s.1, None))
  end.
Lemma calling_jump again (vs : list V) w c path : length vs = length ps -> dest_ok hole c path ->
  calling again (F_Recur (vs ++ tok path)) (w, c) = deliver c path ((v ⇠ call prog again self_def vs; ret (F_Val v)) (w, None)).
Proof.
  intros Hl Hd. unfold calling. cbn [fst snd]. rewrite <- Hl, take_app_length. f_equal.
  destruct hole, path; try done. simpl. rewrite last_snoc. simpl. apply path_hole.
Qed.

Lemma start_cond : (forall x, x ∈ (list_to_set ps : gset LocalId) -> x < match hole with Some _ => S next | None => next end).
Proof. intros x Hx%elem_of_list_to_set%Hps. destruct hole; lia. Qed.

Lemma tail_at again finish :
  (forall v, finish (F_Val v) = ret (F_Val v)) ->
  (forall vs w c path, length vs = length ps -> dest_ok hole c path ->
     finish (F_Recur (vs ++ tok path)) (w, c) = deliver c path ((v ⇠ call prog again self_def vs; ret (F_Val v)) (w, None))) ->
  rewritten self_def ps prog again hole finish B0 (list_to_set ps) (match hole with Some _ => S next | None => next end).
Proof.
  intros Hv Hj. apply tail_spec with pure; try done.
  - intros d vs. by apply pure_call.
  - intros d. by apply pure_global.
  - apply start_cond.
  - intros x Hx%Hbinders. split; [destruct hole; lia|]. intros Heq. specialize (Hhole _ Heq). lia.
  - intros h Heq. rewrite Heq. specialize (Hhole _ Heq). lia.
Qed.

(** The rewrite of a checked body never panics. *)
Lemma rewrite_tail_returns : exists e n,
  rewrite_tail self_def (length ps) B0 hole (match hole with Some _ => S next | None => next end) = Some (e, n).
Proof.
  destruct (tail_at None (calling None)) as (e & n & E & _); [done|apply calling_jump|]. by exists e, n.
Qed.
Context (HLB : rewrite_tail self_def (length ps) B0 hole (match hole with Some _ => S next | None => next end) = Some (LB, next')).

Lemma tail_LB again finish :
  (forall v, finish (F_Val v) = ret (F_Val v)) ->
  (forall vs w c path, length vs = length ps -> dest_ok hole c path ->
     finish (F_Recur (vs ++ tok path)) (w, c) = deliver c path ((v ⇠ call prog again self_def vs; ret (F_Val v)) (w, None))) ->
  simulates prog again hole finish (list_to_set ps) B0 LB.
Proof.
  intros Hv Hj. destruct (tail_at again finish Hv Hj) as (e & n & E & _ & Hs). rewrite HLB in E. by injection E as <- <-.
Qed.

Lemma tok_length c path : dest_ok hole c path -> length (tok path) = length (option_list hole).
Proof. destruct hole, path; done. Qed.

Lemma prog1_self : prog1 self_def = Some (ps, looped).
Proof. unfold prog1, with_body. by rewrite decide_True. Qed.
Lemma prog1_other d : d <> self_def -> prog1 d = prog d.
Proof. intros Hd. unfold prog1, with_body. by rewrite decide_False. Qed.

Lemma turn_env (rho : Env (V:=V)) vs path c : length vs = length ps -> dest_ok hole c path ->
  agree (list_to_set ps) (upds no_locals ps vs) (upds rho params_hole (vs ++ tok path)) /\
  dest hole (upds rho params_hole (vs ++ tok path)) c path.
Proof.
  intros Hl Hd. unfold params_hole. rewrite upds_app by done.
  pose proof (params_env ps rho vs Hl) as Ha.
  destruct hole as [h|] eqn:Eh, path as [p|]; simpl in Hd |- *; try done. split.
  - intros x Hx. rewrite Ha by done. unfold upd. rewrite decide_False; [done|].
    apply elem_of_list_to_set, Hps in Hx. specialize (Hhole h eq_refl). lia.
  - split; [|done]. unfold upd. by rewrite decide_True.
Qed.

(** A turn, and all that follow, against a call of the definition. *)
Lemma loop_spec n : (forall k, k <= n -> alike prog prog1 ps B0 looped (V:=V) (W:=W) k) ->
  forall m, m <= n -> forall rho vs w c path, length vs = length ps ->
    agree (list_to_set ps) (upds no_locals ps vs) rho -> dest hole rho c path ->
    ev prog1 m loop rho (w, c) = deliver c path (ev prog m B0 (upds no_locals ps vs) (w, None)).
Proof.
  intros Hal m. induction m as [|m IH]; intros Hm rho vs w c path Hl Ha Hd; rewrite ev_go; unfold loop; cbn [go];
    rewrite (bindM_ext _ (go prog (again_of prog _) LB rho) _ _ _) by
      first [done|rewrite <- !ev_go; eapply same_run; [exact Hself|apply prog1_self|apply prog1_other|intros k Hk; apply Hal; lia]];
    rewrite ev_go; apply tail_LB; try done.
  - intros us w' c' p Hu Hdo. rewrite length_app, (tok_length _ _ Hdo), Hu.
    unfold params_hole. rewrite length_app, Nat.eqb_refl. unfold bindM. rewrite call_self by done. by destruct p.
  - intros us w' c' p Hu Hdo. rewrite length_app, (tok_length _ _ Hdo), Hu.
    unfold params_hole. rewrite length_app, Nat.eqb_refl. cbn [again_of].
    rewrite self_value; [|done|rewrite ev_go; by eapply placed_settled].
    destruct (turn_env rho us p c' Hu Hdo) as [A B]. apply IH; [lia|done|exact A|exact B].
Qed.

Lemma hole_cases' : (exists h, hole = Some h) \/ hole = None.
Proof using hole. clear -hole. destruct hole; [left; by eexists|by right]. Qed.

Lemma loop_alike : forall n, alike prog prog1 ps B0 looped (V:=V) (W:=W) n.
Proof.
  intros n. induction n as [n IHn] using lt_wf_ind. destruct n as [|n]; [done|].
  intros vs [w c] Hl. cbn [again_of]. unfold enter. cbn [fst snd].
  pose proof (loop_spec n (fun k Hk => IHn k ltac:(lia)) n (le_n n)) as Hloop.
  assert (settled (ev prog n B0 (upds no_locals ps vs))) as [Hkeep Hset] by (rewrite ev_go; by eapply placed_settled).
  unfold looped. destruct hole_cases' as [[h Eh]|Eh]; rewrite Eh.
  - rewrite ev_go. cbn [go]. unfold value at 1, start_hole, bindM at 1. cbn [fst].
    unfold value, bindM. rewrite <- ev_go.
    rewrite (Hloop (upd (upds no_locals ps vs) h (m_hole [])) vs w (Some (m_lit Lit_Unit)) (Some [])); [|done| |].
    + simpl. destruct (ev prog n B0 _ (w, None)) as [[v|us] [w' c']| | |] eqn:E; try done.
    + apply agree_fresh. intros Hin%elem_of_list_to_set%Hps. specialize (Hhole h Eh). lia.
    + rewrite Eh. split; [unfold upd; by rewrite decide_True|]. eexists. split; [done|constructor].
  - unfold value, bindM. rewrite (Hloop (upds no_locals ps vs) vs w None None); [|done|done|by rewrite Eh].
    simpl. by rewrite <- (Hkeep w None).
Qed.
End Hole.
End Def.
End Loop.

(** ** Recursion under sums

    The loop of int_add.rs carries the sum of what the calls before it wait to add.  Integer
    addition wraps, so it associates and commutes, and the carried sum can be added first. *)

(** Addition of machine integers: total, associative and commutative. *)
Class AddLaws (V W : Type) `{Machine V W} := {
  m_add : V -> V -> V;
  add_prim tys ty x y (w : W) : m_prim P_IntAdd tys ty [x; y] w = Fin (m_add x y) w;
  add_assoc x y z : m_add x (m_add y z) = m_add (m_add x y) z;
  add_comm x y : m_add x y = m_add y x;
}.

Section Add.
Context {V W : Type} `{MachineLaws V W, !PrimLaws V W, !Inhabited W, !AddLaws V W}.
Implicit Types (rho : Env (V:=V)) (c : option V).

(** The outcome with [x] added to the value. *)
Definition adds (x : V) (r : @res V W (@flow V)) : @res V W (@flow V) :=
  match r with R_Val (F_Val v) s => R_Val (F_Val (m_add x v)) s | r => r end.

Lemma adds_step {A} (m1 m0 : @M V W A) k1 k0 w c x :
  m1 (w, c) = with_cell c (m0 (w, None)) -> keeps m0 ->
  (forall a w', m0 (w, None) = R_Val a (w', None) -> k1 a (w', c) = with_cell c (adds x (k0 a (w', None)))) ->
  bindM m1 k1 (w, c) = with_cell c (adds x (bindM m0 k0 (w, None))).
Proof.
  intros Hm Hkeep Hk. unfold bindM. rewrite Hm. destruct (m0 (w, None)) as [a [w' c']| | |] eqn:E; simpl; try done.
  pose proof (keeps_none _ _ _ _ _ Hkeep E) as ->. by apply Hk.
Qed.

Section Body.
Context (self_def : DefId) (ps : list LocalId) (B0 : CExpr) (prog : Entries).
Context (again : option (CExpr -> Env (V:=V) -> @M V W (@flow V))).
Context (acc : LocalId) (finish : @flow V -> @M V W (@flow V)).
Abbreviation arity := (length ps).
Abbreviation eval := (go prog again).
Context (Hval : forall v, finish (F_Val v) = ret (F_Val v)).
Context (Hjump : forall vs x w c, length vs = arity ->
  finish (F_Recur (vs ++ [x])) (w, c) = with_cell c (adds x ((v ⇠ call prog again self_def vs; ret (F_Val v)) (w, None)))).

Definition carries (Sc : gset LocalId) (e e' : CExpr) : Prop := forall rho0 rho1 w c, agree Sc rho0 rho1 ->
  bindM (eval e' rho1) finish (w, c) = with_cell c (adds (rho1 acc) (eval e rho0 (w, None))).

(** A self-call with one more argument, the sum. *)
Lemma recur_add_eval sargs a rho x s : (forall s, eval a rho s = R_Val (F_Val x) s) ->
  bindM (eval (recur_add sargs a) rho) finish s = bindM (vals (fun a => eval a rho) sargs) (fun vs => finish (F_Recur (vs ++ [x]))) s.
Proof.
  intros Ha. unfold recur_add. cbn [go]. rewrite bindM_assoc.
  transitivity (bindM (vs ⇠ vals (fun a => eval a rho) sargs; ret (vs ++ [x])) (fun vs => finish (F_Recur vs)) s).
  - apply bindM_ext; [|done]. rewrite vals_app. apply bindM_ext; [done|]. intros vs s'. simpl. unfold value, bindM, ret. by rewrite Ha.
  - by rewrite bindM_assoc.
Qed.

Lemma jump_add sargs Sc rho0 rho1 x w c : forallb (placed Sc) sargs = true -> agree Sc rho0 rho1 -> length sargs = arity ->
  bindM (vals (fun a => eval a rho1) sargs) (fun vs => finish (F_Recur (vs ++ [x]))) (w, c) =
  with_cell c (adds x ((vs ⇠ vals (fun a => eval a rho0) sargs; v ⇠ call prog again self_def vs; ret (F_Val v)) (w, None))).
Proof.
  intros Hp Ha Hl. destruct (source_vals prog again sargs Sc rho0 rho1 w c Hp Ha) as [Hv Hk].
  apply adds_step; [done|done|]. intros vs w' E. apply Hjump. by rewrite (vals_length _ _ _ _ _ E).
Qed.

Lemma add_final e Sc : placed Sc e = true ->
  carries Sc e match self_call_args e self_def arity with
               | Some args => recur_add args (accumulator acc)
               | None => add (accumulator acc) e
               end.
Proof.
  intros Hp rho0 rho1 w c Ha. destruct (self_call_args e self_def arity) as [sargs|] eqn:Es.
  - rewrite (recur_add_eval sargs _ rho1 (rho1 acc)) by done. rewrite (self_call_eval self_def ps prog again e sargs) by done.
    destruct (self_call_inv _ _ _ _ Es) as (_ & _ & _ & _ & Hl).
    apply (jump_add sargs Sc); [by eapply self_call_placed|done|done].
  - rewrite <- (settled_value (eval e rho0)) by (by eapply placed_settled).
    transitivity (with_cell c (adds (rho1 acc) (bindM (value (eval e rho0)) (fun v => ret (F_Val v)) (w, None))));
      [|do 2 f_equal; unfold value; rewrite bindM_assoc; apply bindM_ext; [done|]; by intros [] ?].
    transitivity (bindM (value (eval e rho1)) (fun v => ret (F_Val (m_add (rho1 acc) v))) (w, c)).
    { unfold add. cbn [go vals]. unfold value at 1, bindM, accumulator, ret. simpl. unfold bindM.
      destruct (value (eval e rho1) (w, c)) as [v s| | |]; try done. unfold lift. rewrite add_prim. simpl.
      rewrite Hval. by destruct s. }
    apply adds_step; [by eapply source_value|by eapply keeps_value, placed_settled|done].
Qed.

Lemma carries_step (F F' : CExpr -> CExpr) body body' Sc :
  (forall b rho s, eval (F b) rho s = eval b rho s) -> (forall b rho s, eval (F' b) rho s = eval b rho s) ->
  carries Sc body body' -> carries Sc (F body) (F' body').
Proof.
  intros Hev Hev' Hc rho0 rho1 w c Ha. rewrite Hev, <- (Hc rho0 rho1 w c Ha). apply bindM_ext; [apply Hev'|done].
Qed.

Lemma carries_let local value body t Sc body' :
  placed Sc (CE (K_Let local value body) t) = true -> acc <> local ->
  carries ({[local]} ∪ Sc) body body' -> carries Sc (CE (K_Let local value body) t) (CE (K_Let local value body') int_ty).
Proof.
  intros Hp Hl Hc rho0 rho1 w c Ha. simpl in Hp. apply andb_true_iff in Hp as [[Hpv Hpl]%andb_true_iff Hpb].
  cbn [go]. rewrite bindM_assoc. apply adds_step; [by eapply source_value|by eapply keeps_value, placed_settled|].
  intros v w' _. rewrite (Hc (upd rho0 local v) (upd rho1 local v)) by (by apply agree_upd).
  unfold upd at 1. by rewrite decide_False.
Qed.

(** What a sum adds to the call's result: a slot that is not the result, or a literal. *)
Lemma contribution_eval body local other Sc rho0 rho1 r : contribution body local = Some other ->
  placed ({[local]} ∪ Sc) body = true -> agree Sc rho0 rho1 -> exists o,
    (forall s, eval other rho1 s = R_Val (F_Val o) s) /\
    (forall s, eval body (upd rho0 local r) s = R_Val (F_Val (m_add o r)) s).
Proof.
  destruct body as [k t]. unfold contribution. simpl. destruct k; try done. destruct op; try done.
  destruct args as [|l [|r' [|]]]; try done. intros Hc Hp Ha. simpl in Hp. rewrite andb_true_r in Hp.
  apply andb_true_iff in Hp as [Hpl Hpr].
  assert (Hatom : forall e other, (if negb (is_int_ty (ce_ty e)) then None else
      match ce_kind e with
      | K_Lit (Lit_Int _) => Some e
      | K_Local l => if bool_decide (l = local) then None else Some e
      | _ => None
      end) = Some other -> placed ({[local]} ∪ Sc) e = true -> other = e /\ exists o,
        (forall s, eval e rho1 s = R_Val (F_Val o) s) /\ (forall s, eval e (upd rho0 local r) s = R_Val (F_Val o) s)).
  { intros e other' Ho Hpe. destruct (negb _); [done|]. destruct e as [ke te]. simpl in Ho.
    destruct ke; try done; [destruct l0; try done; injection Ho as <-; split; [done|by eexists]|].
    destruct (bool_decide_reflect (x = local)) as [|Hx]; [done|]. injection Ho as <-. split; [done|].
    exists (rho1 x). split; [done|]. intros s. cbn [go]. simpl in Hpe. apply bool_decide_eq_true in Hpe.
    unfold upd. rewrite decide_False by done. rewrite Ha; [done|set_solver]. }
  destruct (is_local l local) eqn:El; [|destruct (is_local r' local) eqn:Er; [|done]]; simpl in Hc.
  - apply is_local_inv in El. destruct l as [kl tl]. simpl in El. subst kl.
    destruct (Hatom _ _ Hc Hpr) as [-> (o & H1 & H2)]. exists o. split; [done|]. intros s.
    cbn [go vals]. unfold value, bindM, ret. simpl. rewrite H2. unfold lift. rewrite add_prim. unfold upd at 1.
    rewrite decide_True, add_comm by done. by destruct s.
  - apply is_local_inv in Er. destruct r' as [kl tl]. simpl in Er. subst kl.
    destruct (Hatom _ _ Hc Hpl) as [-> (o & H1 & H2)]. exists o. split; [done|]. intros s.
    cbn [go vals]. unfold value, bindM, ret. rewrite H2. simpl. unfold lift. rewrite add_prim. unfold upd at 1.
    rewrite decide_True by done. by destruct s.
Qed.

(** A self-call whose result is only added to. *)
Lemma carries_sum local value body t Sc sargs other :
  self_call_args value self_def arity = Some sargs -> contribution body local = Some other ->
  placed Sc (CE (K_Let local value body) t) = true ->
  carries Sc (CE (K_Let local value body) t) (recur_add sargs (add (accumulator acc) other)).
Proof.
  intros Es Ec Hp rho0 rho1 w c Ha. simpl in Hp. apply andb_true_iff in Hp as [[Hpv _]%andb_true_iff Hpb].
  destruct (contribution_eval _ _ _ Sc rho0 rho1 (m_lit Lit_Unit) Ec Hpb Ha) as (o & Ho & _).
  rewrite (recur_add_eval sargs _ rho1 (m_add (rho1 acc) o)).
  2: { intros s. unfold add, accumulator. cbn [go vals]. unfold TrmcSem.value, bindM, ret. simpl. rewrite Ho. unfold lift.
       rewrite add_prim. by destruct s. }
  destruct (self_call_inv _ _ _ _ Es) as (_ & _ & _ & _ & Hl).
  rewrite (jump_add sargs Sc rho0 rho1) by (try done; by eapply self_call_placed).
  f_equal. rewrite <- (self_call_eval self_def ps prog again value sargs rho0) by done. cbn [go]. unfold TrmcSem.value, bindM.
  destruct (eval value rho0 (w, None)) as [[r|vs] [w' d]| | |] eqn:Ev; try done;
    [|by apply (placed_settled prog again value Sc rho0 Hpv) in Ev]. unfold ret.
  destruct (contribution_eval _ _ _ Sc rho0 rho1 r Ec Hpb Ha) as (o' & Ho' & Hr). rewrite Hr. simpl.
  assert (o' = o) as -> by (specialize (Ho (w', d)); rewrite Ho' in Ho; by injection Ho).
  by rewrite add_assoc.
Qed.

(** [rewrite] *)
Lemma add_spec e : forall Sc, placed Sc e = true -> acc ∉ binders e -> carries Sc e (rewrite_add self_def arity e acc).
Proof.
  induction e as [[k t] IH] using CExpr_children_ind. intros Sc Hp Hacc.
  destruct k; child_hyps IH; try (by apply (add_final (CE _ t))).
  - simpl in Hp, Hacc. apply andb_true_iff in Hp as [[Hpc Hpt]%andb_true_iff Hpe].
    intros rho0 rho1 w c Ha. cbn [rewrite_add go]. rewrite bindM_assoc.
    apply adds_step; [by eapply source_value|by eapply keeps_value, placed_settled|].
    intros v w' _. destruct (m_truth v); [eapply IH1|eapply IH2]; try done; set_solver.
  - assert (carries Sc (CE (K_Let local value body) t) (CE (K_Let local value (rewrite_add self_def arity body acc)) int_ty)) as Hlet.
    { simpl in Hacc. apply carries_let; [done|set_solver|]. apply IH1; [|set_solver].
      simpl in Hp. by apply andb_true_iff in Hp as [_ ?]. }
    cbn [rewrite_add]. destruct (self_call_args value self_def arity) as [sargs|] eqn:Es; [|done].
    destruct (contribution body local) as [other|] eqn:Ec; [|done]. clear Hlet IH0 IH1. by eapply carries_sum.
  - simpl in Hp, Hacc. apply andb_true_iff in Hp as [[Hpv _]%andb_true_iff Hpb].
    apply (carries_step (fun b => CE (K_Reset value token b) t) (fun b => CE (K_Reset value token b) int_ty));
      [| |apply IH1; [done|set_solver]]; intros b rho s; destruct value as [[] tv]; simpl in Hpv; done.
  - apply (carries_step (fun b => CE (K_FreeReuse token b) t) (fun b => CE (K_FreeReuse token b) int_ty)); [done|done|]. by apply IH0.
  - apply (carries_step (fun b => CE (K_Dup local b) t) (fun b => CE (K_Dup local b) int_ty)); [done|done|]. by apply IH0.
  - apply (carries_step (fun b => CE (K_Drop local b) t) (fun b => CE (K_Drop local b) int_ty)); [done|done|]. by apply IH0.
Qed.
End Body.

(** *** The loop *)

Section Loop.
Context (prog : Entries) (self_def : DefId) (ps : list LocalId) (B0 : CExpr) (next : nat).
Context (Hself : prog self_def = Some (ps, B0)).
Context (Hplaced : placed (list_to_set ps) B0 = true) (Hps : forall x, x ∈ ps -> x < next).
Context (Hbinders : forall x, x ∈ binders B0 -> x < next).
(** The definition gives integers. *)
Context (Hint : forall n (vs : list V) (w : W) v s, length vs = length ps ->
  ev prog n B0 (upds no_locals ps vs) (w, None) = R_Val (F_Val v) s -> m_add (m_lit (Lit_Int 0)) v = v).

Definition add_loop : CExpr := CE (K_Join (ps ++ [next]) (rewrite_add self_def (length ps) B0 next)) int_ty.
Definition add_looped : CExpr := CE (K_Let next (CE (K_Lit (Lit_Int 0)) int_ty) add_loop) int_ty.
Definition add_prog : Entries := with_body prog self_def ps add_looped.

Lemma add_loop_spec n : (forall k, k <= n -> alike prog add_prog ps B0 add_looped (V:=V) (W:=W) k) ->
  forall m, m <= n -> forall rho vs w c, length vs = length ps ->
    agree (list_to_set ps) (upds no_locals ps vs) rho ->
    ev add_prog m add_loop rho (w, c) = with_cell c (adds (rho next) (ev prog m B0 (upds no_locals ps vs) (w, None))).
Proof.
  intros Hal m.
  assert (Hsame : forall k, k <= n -> forall e rho s, ev add_prog k e rho s = ev prog k e rho s).
  { intros k Hk. eapply same_run; [exact Hself|by unfold add_prog, with_body; rewrite decide_True| |intros j Hj; apply Hal; lia].
    intros d Hd. unfold add_prog, with_body. by rewrite decide_False. }
  induction m as [|m IH]; intros Hm rho vs w c Hl Ha; rewrite ev_go; unfold add_loop; cbn [go];
    rewrite (bindM_ext _ (go prog (again_of prog _) (rewrite_add self_def (length ps) B0 next) rho) _ _ _) by
      first [done|rewrite <- !ev_go; apply Hsame; lia];
    rewrite ev_go; (eapply (add_spec self_def ps); [done| |done|intros Hin%Hbinders; lia|done]);
    intros us x w' c' Hu; rewrite !length_app, Hu, Nat.eqb_refl.
  - unfold bindM. by rewrite (call_self prog self_def ps B0 Hself) by done.
  - cbn [again_of]. rewrite (self_value prog self_def ps B0 Hself); [|done|rewrite ev_go; by eapply placed_settled].
    rewrite IH with (vs := us); [|lia|done|].
    + rewrite upds_app by done. simpl. unfold upd. by rewrite decide_True.
    + rewrite upds_app by done. intros y Hy. rewrite (params_env ps rho us Hu y Hy). simpl. unfold upd.
      rewrite decide_False; [done|]. apply elem_of_list_to_set, Hps in Hy. lia.
Qed.

Lemma add_loop_alike : forall n, alike prog add_prog ps B0 add_looped (V:=V) (W:=W) n.
Proof.
  intros n. induction n as [n IHn] using lt_wf_ind. destruct n as [|n]; [done|].
  intros vs [w c] Hl. cbn [again_of]. unfold enter. cbn [fst snd].
  pose proof (add_loop_spec n (fun k Hk => IHn k ltac:(lia)) n (le_n n)) as Hloop.
  assert (settled (ev prog n B0 (upds no_locals ps vs))) as [Hkeep Hset] by (rewrite ev_go; by eapply placed_settled).
  unfold add_looped. rewrite ev_go. unfold value, bindM.
  rewrite (let_runs _ _ _ _ _ _ _ _ (m_lit (Lit_Int 0)) (w, None)), <- ev_go by done.
  rewrite (Hloop _ vs w None); [|done|].
  - unfold upd at 1. rewrite decide_True by done.
    destruct (ev prog n B0 (upds no_locals ps vs) (w, None)) as [[v|us] [w' c']| | |] eqn:E; try done.
    simpl. by rewrite (Hint _ _ _ _ _ Hl E).
  - apply agree_fresh. intros Hin%elem_of_list_to_set%Hps. lia.
Qed.
End Loop.
End Add.

(** ** Self-calls through evidence

    A row-polymorphic definition calls itself in two steps, first with its evidence and then
    with the rest; [fuse_evidence_self_calls] makes it one.  Both are the same call. *)

Section Fuse.
Context {V W : Type} `{MachineLaws V W}.

(** Steps beyond the number of arguments are never used. *)
Lemma apply_steps prog again n : forall n' f (vs : list V) (s : @State V W), length vs < n -> length vs < n' ->
  apply_to prog again n f vs s = apply_to prog again n' f vs s.
Proof.
  induction n as [|n IH]; intros [|n'] f vs s Hn Hn'; try lia. simpl. destruct (m_held f) as [[d held]|]; [|done].
  destruct (prog d) as [[params body]|]; [|done]. destruct (_ <=? _) eqn:Eh; [done|]. apply Nat.leb_gt in Eh.
  destruct (_ <? _) eqn:El; [done|]. apply Nat.ltb_ge in El. rewrite length_app in El.
  apply bindM_ext; [done|]. intros r s'. destruct (drop _ _) as [|x rest] eqn:Ed; [done|].
  assert (length (x :: rest) = length held + length vs - length params) as Hl by (rewrite <- Ed, length_drop, length_app; done).
  apply IH; simpl in *; lia.
Qed.

(** A partial application applied to the rest is the application to all. *)
Lemma apply_pap prog again d params body (held vs : list V) (s : @State V W) :
  prog d = Some (params, body) -> length held < length params ->
  apply_to prog again (S (length vs)) (m_pap d held) vs s = call prog again d (held ++ vs) s.
Proof.
  intros Hd Hh. simpl. rewrite held_pap, Hd, (proj2 (Nat.leb_gt _ _)) by lia. unfold call. rewrite Hd.
  destruct (_ <? _) eqn:El; [done|]. apply Nat.ltb_ge in El. apply bindM_ext; [done|]. intros r s'.
  rewrite length_app in El. destruct (drop _ _) as [|x rest] eqn:Ed; [done|].
  assert (length (x :: rest) = length held + length vs - length params) as Hl by (rewrite <- Ed, length_drop, length_app; done).
  apply apply_steps; rewrite ?length_app; simpl in *; lia.
Qed.

(** Evidence passed on is a value each. *)
Lemma passed_vals (f : CExpr -> @M V W (@flow V)) (rho : Env (V:=V)) : (forall x t (s : @State V W), f (CE (K_Local x) t) s = R_Val (F_Val (rho x)) s) ->
  forall args ps (s : @State V W), length args = length ps ->
  forallb (fun p => is_local p.1 p.2) (zip args ps) = true -> vals f args s = R_Val (rho <$> ps) s.
Proof.
  intros Hf. induction args as [|[k t] args IH]; intros [|x ps] s Hl Ha; try done. simpl in Ha.
  apply andb_true_iff in Ha as [Hx Ha]. apply is_local_inv in Hx. simpl in Hx. subst k.
  simpl. unfold value, bindM, ret. rewrite Hf. simpl in Hl. by rewrite (IH ps) by (try done; lia).
Qed.

Section Def.
Context (prog : Entries) (self_def : DefId) (params : list LocalId) (body : CExpr) (evidence : list LocalId).
Context (Hself : prog self_def = Some (params, body)) (Hev : length evidence < length params).

Lemma evidence_eval again func head ev rho : evidence_call self_def evidence func = Some (head, ev) ->
  ce_kind head = K_Global self_def /\ (exists inner reuse alloc, ce_kind func = K_App inner ev reuse alloc) /\
  (forall s : @State V W, value (go prog again func rho) s = R_Val (m_pap self_def (rho <$> evidence)) s) /\
  (forall s : @State V W, vals (fun a => go prog again a rho) ev s = R_Val (rho <$> evidence) s).
Proof.
  destruct func as [k t]. unfold evidence_call. cbn [ce_kind]. destruct k; try done.
  destruct (is_global self_def func && _ && _) eqn:E; [|done]. intros [= <- <-].
  apply andb_true_iff in E as [[Hg Hl%Nat.eqb_eq]%andb_true_iff Ha].
  unfold is_global in Hg. destruct (ce_kind func) eqn:Ek; try done. apply bool_decide_eq_true in Hg. subst def.
  assert (forall s : @State V W, vals (fun a => go prog again a rho) args s = R_Val (rho <$> evidence) s) as Hv
    by (intros s; by apply passed_vals).
  split_and!; [done|by eexists _, _, _| |done].
  intros s. cbn [go]. rewrite Ek. unfold value, bindM. rewrite Hv. unfold call. rewrite Hself, length_fmap.
  by rewrite (proj2 (Nat.ltb_lt _ _) Hev).
Qed.

Lemma vals_passed (f : CExpr -> @M V W (@flow V)) ev us args (s : @State V W) :
  (forall s, vals f ev s = R_Val us s) ->
  vals f (ev ++ args) s = bindM (vals f args) (fun vs => ret (us ++ vs)) s.
Proof. intros Hv. rewrite vals_app. unfold bindM at 1. by rewrite Hv. Qed.

(** Fusing leaves what a call's head is, unless it fuses the call itself. *)
Lemma fuse_kind func : match ce_kind func with K_Global d => ce_kind (fuse_evidence_self_calls self_def evidence func) = K_Global d
  | _ => forall d, ce_kind (fuse_evidence_self_calls self_def evidence func) <> K_Global d end.
Proof. destruct func as [k t]. destruct k; simpl; try done. by destruct (evidence_call _ _ _) as [[]|]. Qed.

(** A call whose head is not a global looks at nothing else of it. *)
Lemma app_other again func args reuse alloc ty rho (s : @State V W) : (forall d, ce_kind func <> K_Global d) ->
  go prog again (CE (K_App func args reuse alloc) ty) rho s =
  (f ⇠ value (go prog again func rho); vs ⇠ vals (fun a => go prog again a rho) args;
   v ⇠ apply_to prog again (S (length vs)) f vs; ret (F_Val v)) s.
Proof. intros Hn. cbn [go]. destruct (ce_kind func); try done. by specialize (Hn def). Qed.

(** A call in two steps is the call in one. *)
Lemma app_fused again func head ev args args' reuse alloc ty rho (s : @State V W) :
  evidence_call self_def evidence func = Some (head, ev) ->
  (forall s, vals (fun a => go prog again a rho) args' s = vals (fun a => go prog again a rho) args s) ->
  go prog again (CE (K_App head (ev ++ args') reuse alloc) ty) rho s = go prog again (CE (K_App func args reuse alloc) ty) rho s.
Proof.
  intros E Hargs. destruct (evidence_eval again func head ev rho E) as (Hh & (inner & ru & al & Hf) & Hpap & Hev').
  rewrite (app_other again func) by (intros d; by rewrite Hf). cbn [go]. rewrite Hh.
  assert (forall A (k : V -> @M V W A), bindM (value (go prog again func rho)) k s = k (m_pap self_def (rho <$> evidence)) s) as ->
    by (intros A k; unfold bindM; by rewrite Hpap).
  unfold bindM at 1 3. rewrite (vals_passed _ ev (rho <$> evidence)) by done. unfold bindM at 1. rewrite Hargs.
  destruct (vals _ args s) as [vs s'| | |]; try done. apply bindM_ext; [|done]. symmetry.
  apply (apply_pap prog again self_def params body); [done|by rewrite length_fmap].
Qed.

Lemma app_unfused again func func' args args' reuse alloc ty rho (s : @State V W) :
  match ce_kind func with K_Global d => ce_kind func' = K_Global d | _ => forall d, ce_kind func' <> K_Global d end ->
  (forall s, go prog again func' rho s = go prog again func rho s) ->
  (forall s, vals (fun a => go prog again a rho) args' s = vals (fun a => go prog again a rho) args s) ->
  go prog again (CE (K_App func' args' reuse alloc) ty) rho s = go prog again (CE (K_App func args reuse alloc) ty) rho s.
Proof.
  intros Hk Hf Hargs.
  assert ((exists d, ce_kind func = K_Global d) \/ (forall d, ce_kind func <> K_Global d)) as [[d E]|Hn]
    by (destruct (ce_kind func); (by left; eexists) || (by right)).
  - rewrite E in Hk. cbn [go]. rewrite E, Hk. by apply bindM_ext.
  - assert (forall d, ce_kind func' <> K_Global d) as Hn' by (destruct (ce_kind func); try done; by destruct (Hn def)).
    rewrite !app_other by done. apply bindM_ext; [by apply value_ext|]. intros v s'. by apply bindM_ext.
Qed.

Lemma fuse_go again e : forall rho (s : @State V W),
  go prog again (fuse_evidence_self_calls self_def evidence e) rho s = go prog again e rho s.
Proof.
  induction e as [[k t] IH] using CExpr_children_ind. intros rho s.
  assert (Hargs : forall args s, Forall (fun e => forall rho s, go prog again (fuse_evidence_self_calls self_def evidence e) rho s = go prog again e rho s) args ->
    vals (fun a => go prog again a rho) (fuse_evidence_self_calls self_def evidence <$> args) s = vals (fun a => go prog again a rho) args s).
  { intros args s' Hf. revert s'. induction Hf as [|a args Ha _ IHa]; intros s'; [done|]. simpl.
    apply bindM_ext; [by apply value_ext|]. intros v s1. by apply bindM_ext. }
  assert (Htys : forall args : list CExpr, ce_ty <$> (fuse_evidence_self_calls self_def evidence <$> args) = ce_ty <$> args).
  { intros args. rewrite <- list_fmap_compose. apply list_fmap_ext. intros i [k' t'] _. done. }
  destruct k; child_hyps IH; cbn [fuse_evidence_self_calls]; try done;
    try (cbn [go]; rewrite ?Htys; by apply bindM_ext; [by first [apply Hargs|apply value_ext]|]; intros ? ?).
  - destruct (evidence_call self_def evidence func) as [[head ev]|] eqn:E.
    + apply app_fused; [done|]. intros s'. by apply Hargs.
    + apply app_unfused; [apply fuse_kind|done|]. intros s'. by apply Hargs.
  - cbn [go]. apply bindM_ext; [by apply value_ext|]. intros v s'. by destruct (m_truth v).
Qed.

(** The fused definition acts like the one it was, with any fuel. *)
Lemma fuse_alike (n : nat) :
  let fused := fuse_evidence_self_calls self_def evidence body in
  alike prog (with_body prog self_def params fused) params body fused (V:=V) (W:=W) n.
Proof.
  intros fused. apply body_alike; [done|]. intros. apply fuse_go.
Qed.
End Def.
End Fuse.
