(* ===== verification/TrmcProps.v ===== *)
(** * What flattening promises

    A machine and programs to try it on; the theorems about purity, fused evidence and
    flattened bodies, the cell they do not hold of, and two counted bodies the verifier
    accepts before they are flattened and not after. *)

From S2P Require Import Prelude Types Ir Verify Rc RcState Sem Insert Purity Trmc TrmcSem TrmcLaws PuritySound TrmcChain TrmcTail TrmcLoop.
From stdpp Require Import gmap list strings.
From Stdlib Require Import ZArith Lia.

(** ** A machine for the tail-call theorems

    Integers of 64 bits, cells, partial applications and holes.  The world is the log of the
    foreign calls made, the last first.  A niche [Some] is its payload, as in emit.rs; every
    primitive but those on integers gives a value nothing looks at, or aborts where the
    runtime's may: a zero divisor, a comparison of functions, an index, an invalid code. *)

Module Demo.
Inductive DV :=
| DInt (n : Z)
| DData (tag : Z) (fields : list DV)
| DPap (def : DefId) (held : list DV)
| DHole (path : list nat)
| DOther.

Definition word (n : Z) : Z := ((n + 2 ^ 63) mod 2 ^ 64 - 2 ^ 63)%Z.
Definition of_bool (b : bool) : DV := DInt (if b then 1 else 0)%Z.
Definition plus (x y : DV) : DV := match x, y with DInt a, DInt b => DInt (word (a + b)) | _, _ => DOther end.

(** Values with a function in them cannot be compared. *)
Fixpoint compares (ty : Ty) : bool :=
  match ty with
  | Ty_Con (Con_List | Con_Array) => false
  | Ty_Con _ | Ty_Unit => true
  | Ty_App (Ty_Con (Con_List | Con_Array)) t => compares t
  | Ty_Tuple ts => forallb compares ts
  | Ty_Record fields _ => forallb (fun f => compares f.2) fields
  | _ => false
  end.
Lemma compares_comparable ty : comparable ty -> compares ty = true.
Proof.
  assert (forall A (f : A -> Ty) xs, Forall (fun x => comparable (f x) -> compares (f x) = true) xs ->
    Forall (fun x => comparable (f x)) xs -> forallb (fun x => compares (f x)) xs = true) as Hall.
  { intros A f xs IH. induction IH as [|x xs Hx _ IH]; [done|]. inversion_clear 1. simpl. by rewrite Hx, IH. }
  induction ty as [|c| | | |h a _ IHa| |fields IH|fields tail IH| |] using Ty_nested_ind; inversion 1; subst; simpl; try done.
  - match goal with Hc : c ∈ _ |- _ => rewrite !elem_of_cons, elem_of_nil in Hc; by destruct_or? Hc; subst end.
  - match goal with Hc : _ ∈ _ |- _ => rewrite !elem_of_cons, elem_of_nil in Hc; destruct_or? Hc; subst; try done; by apply IHa end.
  - by apply (Hall _ id).
  - by apply (Hall _ snd).
Qed.
Lemma compares_all tys : Forall comparable tys -> forallb compares tys = true.
Proof. induction 1 as [|t ts Ht _ IH]; [done|]. simpl. by rewrite compares_comparable, IH. Qed.

Definition prim (op : Prim) (tys : list Ty) (vs : list DV) (w : list string) : outcome (list string) DV :=
  match op with
  | P_IntAdd => match vs with [x; y] => Fin (plus x y) w | _ => Fin DOther w end
  | P_IntSub => match vs with [DInt x; DInt y] => Fin (DInt (word (x - y))) w | _ => Fin DOther w end
  | P_IntLe => match vs with [DInt x; DInt y] => Fin (of_bool (x <=? y)%Z) w | _ => Fin DOther w end
  | P_IntDiv | P_IntRem =>
      match vs !! 1 with Some (DInt y) => if (y =? 0)%Z then Stop w else Fin DOther w | _ => Stop w end
  | P_Eq | P_Compare | P_Hash =>
      match tys with [] => Stop w | _ => if forallb compares tys then Fin DOther w else Stop w end
  | P_ArrayWithCapacity => match vs with DInt n :: _ => if (n =? 0)%Z then Fin DOther w else Stop w | _ => Stop w end
  | P_ArrayGet | P_ArrayPeek | P_DataPeek | P_ArraySet | P_ArrayUnique | P_ArrayRepeat | P_ArrayTake
  | P_ArrayPut | P_ArrayPush | P_ArrayPushReserved | P_BytesGet | P_CharFromCode | P_BytesToString => Stop w
  | _ => Fin DOther w
  end.

#[export] Instance machine : Machine DV (list string) := {
  m_lit l := match l with Lit_Int n => DInt n | Lit_Bool b => of_bool b | _ => DOther end;
  m_truth v := match v with DInt n => (n =? 1)%Z | _ => false end;
  m_split n v := replicate n v;
  m_prim op tys _ := prim op tys;
  m_foreign symbol _ _ _ w := Fin DOther (symbol :: w);
  m_global _ w := Fin DOther w;
  m_call _ vs w := Fin (DData 0 vs) w;
  m_apply _ _ w := Stop w;
  m_closure _ _ := DOther;
  m_spread vs := DData 0 vs;
  m_data tag _ niche vs := match niche, vs with Some _, [v] => v | _, _ => DData tag vs end;
  m_tag _ v := match v with DData tag _ => DInt tag | _ => DOther end;
  m_field index _ _ v _ := match index, v with FI_Const i, DData _ vs => default DOther (vs !! Z.to_nat i) | _, _ => DOther end;
  m_pap := DPap;
  m_held v := match v with DPap d held => Some (d, held) | _ => None end;
  m_hole := DHole;
  m_path v := match v with DHole path => Some path | _ => None end;
  m_load v i := match v with DData _ vs => vs !! i | _ => None end;
  m_store v i x :=
    match v with DData tag vs => if (i <? length vs)%nat then Some (DData tag (<[i := x]> vs)) else None | _ => None end;
}.

#[export] Instance machine_laws : MachineLaws DV (list string).
Proof.
  split; try done.
  - intros n v. apply length_replicate.
  - intros tag scalars vs i x Hi _. simpl. by rewrite (proj2 (Nat.ltb_lt _ _)).
Qed.

#[export] Instance prim_laws : PrimLaws DV (list string).
Proof.
  split.
  - intros op tys ty vs. revert op. apply list.Forall_forall. unfold returning.
    repeat apply List.Forall_cons; try apply List.Forall_nil; try by eexists.
    + destruct vs as [|x [|y [|z vs]]]; by eexists.
    + destruct vs as [|[] [|[] [|z vs]]]; by eexists.
    + destruct vs as [|[] [|[] [|z vs]]]; by eexists.
  - intros op tys ty vs n Hop Hv Hn%Z.eqb_neq. exists DOther. intros w. cbn in Hv |- *.
    rewrite !elem_of_cons, elem_of_nil in Hop. destruct Hop as [->|[->|[]]]; simpl; by rewrite Hv, Hn.
  - intros op tys ty vs Hop Hne Hall. exists DOther. intros w. cbn.
    pose proof (compares_all tys Hall) as Hc.
    destruct tys as [|t tys]; [done|]. rewrite !elem_of_cons, elem_of_nil in Hop.
    destruct Hop as [->|[->|[->|[]]]]; simpl in Hc |- *; by rewrite Hc.
  - intros tys ty [|v vs] Hv; [done|]. injection Hv as ->. by exists DOther.
Qed.

Lemma word_word n m : word (word n + m) = word (n + m).
Proof.
  unfold word. f_equal. replace ((n + 2 ^ 63) mod 2 ^ 64 - 2 ^ 63 + m + 2 ^ 63)%Z with ((n + 2 ^ 63) mod 2 ^ 64 + m)%Z by lia.
  rewrite Zplus_mod_idemp_l. f_equal. lia.
Qed.
Lemma word_word_r n m : word (m + word n) = word (m + n).
Proof. rewrite (Z.add_comm m), word_word. f_equal. lia. Qed.

Lemma plus_assoc x y z : plus x (plus y z) = plus (plus x y) z.
Proof. destruct x as [a| | | |], y as [b| | | |], z as [c| | | |]; try done. simpl. rewrite word_word, word_word_r. do 2 f_equal. lia. Qed.
Lemma plus_comm x y : plus x y = plus y x.
Proof. destruct x as [a| | | |], y as [b| | | |]; try done. simpl. do 2 f_equal. lia. Qed.
Lemma plus_zero x y : plus (DInt 0) (plus x y) = plus x y.
Proof. destruct x as [a| | | |], y as [b| | | |]; try done. simpl. by rewrite word_word_r. Qed.

#[export] Instance add_laws : AddLaws DV (list string) :=
  { m_add := plus; add_prim _ _ _ _ _ := eq_refl; add_assoc := plus_assoc; add_comm := plus_comm }.

(** *** Programs *)

Definition int : Ty := Ty_Con Con_Int.
Definition node_ty : Ty := Ty_Unit.
Definition def (name : string) : DefId := MkDefId 0 name.
Definition lit (n : Z) : CExpr := CE (K_Lit (Lit_Int n)) int.
Definition loc (x : LocalId) : CExpr := CE (K_Local x) int.
Definition prim2 (op : Prim) (a b : CExpr) : CExpr := CE (K_Prim op [a; b]) int.
Definition app (d : DefId) (args : list CExpr) : CExpr := CE (K_App (CE (K_Global d) int) args [] Alloc_Heap) int.
Definition let_in (x : LocalId) (value body : CExpr) : CExpr := CE (K_Let x value body) (ce_ty body).
Definition cell (ty : Ty) (tag : Z) (args : list CExpr) (niche : option NicheKind) : CExpr :=
  CE (K_MakeData tag args None 0 niche) ty.
Definition branch (base step : CExpr) : CExpr := CE (K_If (prim2 P_IntLe (loc 0) (lit 0)) base step) (ce_ty base).
Definition only (d : DefId) (params : list LocalId) (body : CExpr) : Entries :=
  fun d' => if decide (d' = d) then Some (params, body) else None.

(** Every definition but the recursive one may be moved. *)
Definition others_pure (self : DefId) (d : DefId) (_ : nat) : bool := negb (bool_decide (d = self)).

(** [build n = if n <= 0 then Nil else Cons (label n) (build (n - 1))] *)
Definition build : DefId := def "build".
Definition build_body : CExpr :=
  branch (cell node_ty 0 [] None)
    (let_in 1 (prim2 P_IntSub (loc 0) (lit 1)) (let_in 2 (app build [loc 1])
      (let_in 3 (app (def "label") [loc 0]) (cell node_ty 1 [loc 3; loc 2] None)))).
(** [sum n = if n <= 0 then 0 else n + sum (n - 1)] *)
Definition sum : DefId := def "sum".
Definition sum_body : CExpr :=
  branch (lit 0)
    (let_in 1 (prim2 P_IntSub (loc 0) (lit 1)) (let_in 2 (app sum [loc 1]) (prim2 P_IntAdd (loc 0) (loc 2)))).
(** [nest n = if n <= 0 then Node 0 None else Node n (Some (nest (n - 1)))] *)
Definition nest : DefId := def "nest".
Definition nest_body : CExpr :=
  branch (cell node_ty 0 [lit 0; cell node_ty 0 [] (Some Niche_A)] None)
    (let_in 1 (prim2 P_IntSub (loc 0) (lit 1)) (let_in 2 (app nest [loc 1])
      (let_in 3 (cell node_ty 1 [loc 2] (Some Niche_A)) (cell node_ty 0 [loc 0; loc 3] None)))).
End Demo.

(** ** Flattened bodies *)

(** Nothing is added by adding zero to what a definition of type [Int] returns. *)
Definition int_results {V W} `{AddLaws V W} (prog : Entries) (ps : list LocalId) (B0 : CExpr) : Prop :=
  ce_ty B0 = int_ty ->
  forall n (vs : list V) (w : W) v s, length vs = length ps ->
    ev prog n B0 (upds no_locals ps vs) (w, None) = R_Val (F_Val v) s -> m_add (m_lit (Lit_Int 0)) v = v.

Section Flatten.
Context {V W : Type} `{MachineLaws V W, !PrimLaws V W, !Inhabited W, !AddLaws V W}.
Context (prog : Entries) (self_def : DefId) (ps : list LocalId) (B0 : CExpr) (pure : DefId -> nat -> bool) (next : nat).
Context (Hself : prog self_def = Some (ps, B0)) (Hpure : pure_ok (V:=V) (W:=W) prog pure).
Context (Hplaced : placed (list_to_set ps) B0 = true).
Context (Hps : forall x, x ∈ ps -> x < next) (Hbinders : forall x, x ∈ binders B0 -> x < next).

Lemma into_loop_alike (uses_hole : bool) :
  checked self_def ps pure (if uses_hole then Some next else None) B0 ->
  exists B1 next', rewrite_into_loop self_def (length ps) B0 ps uses_hole next = Some (B1, next') /\
    forall n, alike prog (with_body prog self_def ps B1) ps B0 B1 (V:=V) (W:=W) n.
Proof.
  set (hole := if uses_hole then Some next else None). intros Hc.
  assert (forall h, hole = Some h -> h = next) as Hh by (subst hole; destruct uses_hole; congruence).
  destruct (rewrite_tail_returns prog self_def ps B0 pure next Hpure Hplaced Hps Hbinders hole Hh Hc) as (LB & next' & Hr).
  exists (looped ps B0 hole LB), next'. split.
  - unfold rewrite_into_loop. subst hole. destruct uses_hole; simpl in Hr.
    + unfold mbind, sm_bind, Rc.fresh. by rewrite Hr.
    + unfold mbind, sm_bind. rewrite Hr. unfold looped, loop, params_hole. simpl. by rewrite app_nil_r.
  - by apply (loop_alike prog self_def ps B0 pure next) with (next' := next').
Qed.

Lemma flatten_alike :
  (eligible self_def (length ps) pure B0 = Some true -> tails_plain self_def (length ps) B0 = true) ->
  int_results (V:=V) (W:=W) prog ps B0 ->
  exists B1 next', flatten B0 ps self_def pure next = Some (B1, next') /\
    forall n, alike prog (with_body prog self_def ps B1) ps B0 B1 (V:=V) (W:=W) n.
Proof.
  intros Hplain Hint.
  destruct (negb (is_int_ty (ce_ty B0)) || negb (has_add_tail self_def (length ps) B0)) eqn:Ea.
  - assert (flatten B0 ps self_def pure next =
      match eligible self_def (length ps) pure B0 with
      | Some uses_hole => rewrite_into_loop self_def (length ps) B0 ps uses_hole
      | None => if has_plain_tail self_def (length ps) B0 then rewrite_into_loop self_def (length ps) B0 ps false else mret B0
      end next) as -> by (unfold flatten, flatten_add; by rewrite Ea).
    destruct (eligible self_def (length ps) pure B0) as [uh|] eqn:Ee.
    + apply into_loop_alike. destruct uh; [|done]. split; [|by apply Hplain].
      unfold eligible in Ee. destruct (check_tail _ _ _ B0 _) as [f|] eqn:Ec; [|done]. by eexists _, _.
    + destruct (has_plain_tail _ _ B0); [by apply into_loop_alike|].
      eexists _, _. split; [done|]. by apply body_alike.
  - eexists _, _. split; [unfold flatten, flatten_add; by rewrite Ea|].
    apply orb_false_iff in Ea as [Ei%negb_false_iff _].
    apply (add_loop_alike prog self_def ps B0 next); try done. apply Hint.
    unfold is_int_ty in Ei. repeat case_match; by subst.
Qed.
End Flatten.

(** C5: A definition whose body [flatten] rewrites, into a plain loop, a loop that builds its
    constructors around a hole, or a loop that carries a sum, cannot be told from the one that
    calls itself: with the same fuel every call of every definition ends with the same value
    and the same effects, aborts after the same effects, goes wrong, or runs out.  [flatten]
    does not fail.  The cells it builds around are to be plain (neither niches nor raw numbers
    in the recursive field), what a definition of type [Int] returns is to be a number, which
    zero may be added to, and the definitions it takes for pure are to be so. *)
Theorem flatten_preserves {V W} `{MachineLaws V W, !PrimLaws V W, !Inhabited W, !AddLaws V W}
    (prog : Entries) (self_def : DefId) (ps : list LocalId) (B0 : CExpr) (pure : DefId -> nat -> bool) (next : nat)
    (Hself : prog self_def = Some (ps, B0)) (Hpure : pure_ok (V:=V) (W:=W) prog pure)
    (Hplaced : placed (list_to_set ps) B0 = true) (Hfresh : Forall (fun x => x < next) (ps ++ binders B0))
    (Hplain : eligible self_def (length ps) pure B0 = Some true -> tails_plain self_def (length ps) B0 = true)
    (Hint : int_results (V:=V) (W:=W) prog ps B0) :
  exists B1 next', flatten B0 ps self_def pure next = Some (B1, next') /\
    forall n d (vs : list V) (w : W), run_def (with_body prog self_def ps B1) n d vs w = run_def prog n d vs w.
Proof.
  apply Forall_app in Hfresh as [Hps Hbinders]. rewrite Forall_forall in Hps, Hbinders.
  destruct (flatten_alike prog self_def ps B0 pure next Hself Hpure Hplaced Hps Hbinders Hplain Hint) as (B1 & next' & Hf & Ha).
  exists B1, next'. split; [done|]. intros n d vs w. by apply (with_body_run prog self_def ps B0).
Qed.

(** C21: The calls [fuse_evidence_self_calls] makes of a call with the evidence and one with the
    rest act alike at every fuel, whatever the rest of the program does. *)
Theorem fuse_evidence_preserves {V W} `{MachineLaws V W} (prog : Entries) (self_def : DefId) (params evidence : list LocalId) (body : CExpr)
    (Hself : prog self_def = Some (params, body)) (Hev : length evidence < length params) n d (vs : list V) (w : W) :
  run_def (with_body prog self_def params (fuse_evidence_self_calls self_def evidence body)) n d vs w = run_def prog n d vs w.
Proof. apply (with_body_run prog self_def params body); [done|]. intros k. by apply fuse_alike. Qed.

(** C20: Let the primitives keep what the runtime promises of them ([PrimLaws], which says of each
    primitive by itself when it returns).  A call of a program's definition, before counting,
    that [application_pure_total] accepts ends in every world, with the same value in each, and
    leaves the world as it is; as many units of fuel as rounds are enough. *)
Theorem application_pure_sound {V W} `{Machine V W, !PrimLaws V W, !Inhabited W} (prog : Entries)
    (Hprog : forall d params body, prog d = Some (params, body) -> placed (list_to_set params) body = true)
    rounds d (vs : list V) fuel (Hpure : application_pure_total prog rounds d (length vs) = true) (Hfuel : rounds <= S fuel) :
  exists v, forall w : W, run_def prog fuel d vs w = R_Val v (w, None).
Proof.
  destruct (application_gives prog Hprog rounds d vs (S fuel) Hpure Hfuel) as [v Hv].
  exists v. intros w. apply (Hv (w, None)).
Qed.

(** ** The theorems at concrete programs *)

Import Demo.

Lemma others_pure_ok self ps body : pure_ok (V:=DV) (W:=list string) (only self ps body) (others_pure self).
Proof.
  intros d k Hd. unfold others_pure in Hd. apply negb_true_iff, bool_decide_eq_false in Hd. unfold only.
  rewrite decide_False by done. split; [intros vs _|intros _]; by eexists.
Qed.

#[local] Arguments prim : simpl never.
Lemma sum_results : int_results (V:=DV) (W:=list string) (only sum [0] sum_body) [0] sum_body.
Proof.
  intros _ n vs w v s _ Hr. assert (exists x y, v = plus x y) as (x & y & ->); [|apply plus_zero].
  revert Hr. rewrite ev_go. generalize (upds no_locals [0] vs). intros rho. simpl. unfold value, bindM, lift. simpl.
  destruct (prim P_IntLe _ _ w) as [c w1|w1|]; simpl; [|done|done].
  destruct (match c with DInt n => _ | _ => _ end); [intros [= <- _]; by exists (DInt 0), (DInt 0)|]. simpl.
  destruct (prim P_IntSub _ _ w1) as [m w2|w2|]; simpl; [|done|done].
  match goal with |- context [call ?p ?a ?f ?us ?s'] => destruct (call p a f us s') as [r [w' cl]| | |] end; try done.
  intros [= <- _]. by eexists _, _.
Qed.

(** The list [[2; 1]] is built, and [2 + 1] added up. *)
Lemma flatten_preserves_witness :
  (exists B1 next', flatten build_body [0] build (others_pure build) 4 = Some (B1, next') /\
    forall n d vs w, run_def (with_body (only build [0] build_body) build [0] B1) n d vs w = run_def (only build [0] build_body) n d vs w) /\
  run_def (only build [0] build_body) 2 build [DInt 2] [] =
    R_Val (DData 1 [DData 0 [DInt 2]; DData 1 [DData 0 [DInt 1]; DData 0 []]]) ([], None) /\
  (exists B1 next', flatten sum_body [0] sum (others_pure sum) 4 = Some (B1, next') /\
    forall n d vs w, run_def (with_body (only sum [0] sum_body) sum [0] B1) n d vs w = run_def (only sum [0] sum_body) n d vs w) /\
  run_def (only sum [0] sum_body) 2 sum [DInt 2] [] = R_Val (DInt 3) ([], None).
Proof.
  split_and!; [| | |].
  - apply (flatten_preserves (only build [0] build_body) build [0] build_body (others_pure build) 4);
      [done|apply others_pure_ok|by vm_compute|by repeat constructor|by vm_compute|done].
  - by vm_compute.
  - apply (flatten_preserves (only sum [0] sum_body) sum [0] sum_body (others_pure sum) 4);
      [done|apply others_pure_ok|by vm_compute|by repeat constructor|by vm_compute|apply sum_results].
  - by vm_compute.
Defined.

(** [descend ev x], which calls [descend ev (x - 1)] in two steps until [x <= 0]. *)
Definition descend : DefId := def "descend".
Definition descend_body : CExpr :=
  CE (K_If (prim2 P_IntLe (loc 1) (lit 0)) (loc 0)
    (let_in 2 (prim2 P_IntSub (loc 1) (lit 1))
      (CE (K_App (CE (K_App (CE (K_Global descend) int) [loc 0] [] Alloc_Heap) int) [loc 2] [] Alloc_Heap) int))) int.
Definition descend_prog : Entries := only descend [0; 1] descend_body.
Lemma fuse_evidence_preserves_witness :
  run_def (with_body descend_prog descend [0; 1] (fuse_evidence_self_calls descend [0] descend_body)) 3 descend [DInt 7; DInt 2] [] =
    R_Val (DInt 7) ([], None) /\ has_plain_tail descend 2 (fuse_evidence_self_calls descend [0] descend_body) = true /\
  has_plain_tail descend 2 descend_body = false.
Proof.
  split_and!; [|by vm_compute|by vm_compute].
  rewrite (fuse_evidence_preserves descend_prog descend [0; 1] [0] descend_body); [by vm_compute|done|simpl; lia].
Defined.

(** [twice x = x + x], through a definition it calls. *)
Definition twice_prog : Entries := fun d =>
  if decide (d = def "twice") then Some ([0], app (def "add") [loc 0; loc 0])
  else if decide (d = def "add") then Some ([0; 1], prim2 P_IntAdd (loc 0) (loc 1)) else None.
Lemma application_pure_sound_witness :
  (exists v, forall w, run_def twice_prog 1 (def "twice") [DInt 4] w = R_Val v (w, None)) /\
  run_def twice_prog 1 (def "twice") [DInt 4] ["log"%string] = R_Val (DInt 8) (["log"%string], None).
Proof.
  split; [|by vm_compute].
  apply (application_pure_sound twice_prog) with (rounds := 2); [|by vm_compute|lia].
  intros d params body. unfold twice_prog. do 2 (case_decide; [intros [= <- <-]; by vm_compute|]). done.
Defined.

(** A [Some] that is a niche is its payload, so it has no field for a hole: [flatten] takes
    [nest] for a loop that builds its constructors around a hole, and what it makes of it goes
    wrong as soon as the loop turns, where [nest] builds a tree. *)
Example niche_chain_breaks :
  eligible nest 1 (others_pure nest) nest_body = Some true /\
  run_def (only nest [0] nest_body) 2 nest [DInt 1] [] =
    R_Val (DData 0 [DInt 1; DData 0 [DInt 0; DData 0 []]]) ([], None) /\
  exists B1 next', flatten nest_body [0] nest (others_pure nest) 4 = Some (B1, next') /\
    forall n, run_def (with_body (only nest [0] nest_body) nest [0] B1) n nest [DInt 1] [] = R_Wrong.
Proof.
  split_and!; [by vm_compute|by vm_compute|]. eexists _, _. split; [by vm_compute|].
  intros [|n]; by vm_compute.
Qed.

(** ** Counts the loop breaks

    Counted bodies over pairs of integers made by [mk], which a [helper] only inspects. *)

Module Released.
Definition pair_ty : Ty := Ty_Tuple [int; int].
Definition pair (x : LocalId) : CExpr := CE (K_Local x) pair_ty.
Definition mk (n : LocalId) : CExpr := CE (K_App (CE (K_Global (def "mk")) int) [loc n] [] Alloc_Heap) pair_ty.
Definition inspect (x : LocalId) : CExpr := app (def "helper") [pair x].
(** What a definition lends: [helper] its parameter, the definition itself what [own] says. *)
Definition lends (self : DefId) (own : list bool) (d : DefId) (n : nat) : list bool :=
  if decide (d = self) then own else if decide (d = def "helper") then [true] else replicate n false.
Definition lent_slots (own : list bool) (i : nat) : bool := default false (own !! i).
Definition counted (d : DefId) (own : list bool) (ps : list LocalId) (body : CExpr) (next : nat) : option (CExpr * nat) :=
  '(f, next) ← count_fn (lends d own) Example.env (lent_slots own) (MkCoreFn ps [] body) next; Some (fn_body f, next).
Definition flattened (d : DefId) (own : list bool) (ps : list LocalId) (body : CExpr) (next : nat) : option (CExpr * nat) :=
  '(body, next) ← counted d own ps body next; flatten body ps d (others_pure d) next.
(** What the verifier says of the body made. *)
Definition verdict (d : DefId) (own : list bool) (ps : list LocalId) (made : option (CExpr * nat)) : option (result RcError unit) :=
  (fun made => check_fn (lends d own) (Some 0) (lent_slots own) (MkCoreFn ps [] made.1)) <$> made.

(** [scan k n = if n <= 0 then Nil else let k' = mk n in let rest = scan k' (n - 1) in
    Cons (helper k') rest], which lends [k]. *)
Definition scan : DefId := def "scan".
Definition scan_lends : list bool := [true; false].
Definition scan_body : CExpr :=
  CE (K_If (prim2 P_IntLe (loc 1) (lit 0)) (cell node_ty 0 [] None)
    (let_in 2 (prim2 P_IntSub (loc 1) (lit 1)) (let_in 3 (mk 1) (let_in 4 (app scan [pair 3; loc 2])
      (let_in 5 (inspect 3) (cell node_ty 1 [loc 5; loc 4] None)))))) node_ty.

(** [twin n = if n <= 0 then Nil else let k = mk n in let rest = twin (n - 1) in
    let tail = Cons k rest in Cons (helper k) tail]. *)
Definition twin : DefId := def "twin".
Definition twin_body : CExpr :=
  branch (cell node_ty 0 [] None)
    (let_in 1 (prim2 P_IntSub (loc 0) (lit 1)) (let_in 2 (mk 0) (let_in 3 (app twin [loc 1])
      (let_in 4 (cell node_ty 1 [pair 2; loc 3] None) (let_in 5 (inspect 2) (cell node_ty 1 [loc 5; loc 4] None)))))).
End Released.
Import Released.

(** A turn lends what its call lent, but takes place after the bindings that stood between the
    call and its constructor.  One of those may be the last use of a lent argument, and is then
    followed by its release: the counted [scan] is accepted by the verifier, and flattening it
    gives a loop whose next turn is lent a pair no longer held. *)
Example lent_argument_released :
  verdict scan scan_lends [0; 1] (counted scan scan_lends [0; 1] scan_body 6) = Some (Ok tt) /\
  verdict scan scan_lends [0; 1] (flattened scan scan_lends [0; 1] scan_body 6) = Some (Err (Err_BorrowReleased 3)).
Proof. split; by vm_compute. Qed.

(** A cell of the chain is built after the bindings that stood between it and the next one, and
    the duplicates its operands need with it.  One of those bindings may be followed by the
    release of such an operand: the counted [twin] is accepted by the verifier, and flattening
    it gives a loop that duplicates a pair already released. *)
Example pending_cell_released :
  verdict twin [false] [0] (counted twin [false] [0] twin_body 6) = Some (Ok tt) /\
  verdict twin [false] [0] (flattened twin [false] [0] twin_body 6) = Some (Err (Err_DupReleased 2)).
Proof. split; by vm_compute. Qed.
