(* ===== verification/Borrow.v ===== *)
(** * Borrow inference

    borrow.rs, and the plan of borrow_scan.rs: which parameters of a definition its callers
    lend.  Then what the inference promises: it returns, with the most generous signature the
    body allows; it is monotone in the signatures of the definitions called, so that those of
    a cluster do not depend on the order they are inferred in; and the calls at a
    definition's tail to itself are still at its tail when its body has been counted. *)

From S2P Require Import Prelude Types Ir Niche Verify Rc ReuseCandidates ReuseSizes Reuse RcState Anf Insert Trmc TrmcLaws.
From stdpp Require Import gmap list strings.
From Stdlib Require Import ZArith Lia.

(** ** Signatures *)

(** [BorrowSig::is_borrowed] is [nth_flag]. *)
(** [BorrowSig::any], [BorrowSig::exploitable_at] *)
Definition sig_any (sig : list bool) : bool := existsb id sig.
Definition exploitable_at (sig : list bool) (nargs : nat) : bool :=
  negb (bool_decide (sig = [])) && (length sig <=? nargs).

(** ** The analysis of a body *)

(** [Analyzer]'s sets and flag. *)
Record Analyzer := MkAnalyzer {
  az_origins : gmap LocalId LocalId;
  az_field : gset LocalId;
  az_owned : gset LocalId;
  az_matched : gset LocalId;
  az_reconstructs : bool;
}.
Definition with_owned (o : gset LocalId) (az : Analyzer) : Analyzer :=
  MkAnalyzer (az_origins az) (az_field az) o (az_matched az) (az_reconstructs az).
Definition with_matched (m : gset LocalId) (az : Analyzer) : Analyzer :=
  MkAnalyzer (az_origins az) (az_field az) (az_owned az) m (az_reconstructs az).
Definition with_reconstructs (az : Analyzer) : Analyzer :=
  MkAnalyzer (az_origins az) (az_field az) (az_owned az) (az_matched az) true.

(** [Facts] *)
Record Facts := MkFacts { escaped : gset LocalId; matched : gset LocalId; reconstructs : bool }.

(** [Analyzer::origin], [Analyzer::is_field] *)
Fixpoint origin (az : Analyzer) (e : CExpr) : option LocalId :=
  match e with
  | CE (K_Local x) _ => az_origins az !! x
  | CE (K_DataField base _ _ _) _ => origin az base
  | _ => None
  end.
Definition is_field (az : Analyzer) (e : CExpr) : bool :=
  match ce_kind e with
  | K_Local x => bool_decide (x ∈ az_field az)
  | K_DataField _ _ _ _ => true
  | _ => false
  end.

(** A change of the analyzer that cannot panic. *)
Definition update (f : Analyzer -> Analyzer) : SM Analyzer unit := fun az => Some (tt, f az).

Definition own (p : option LocalId) (az : Analyzer) : Analyzer :=
  match p with Some p => with_owned ({[p]} ∪ az_owned az) az | None => az end.

(** [Analyzer::consume], [Analyzer::inspect], [Analyzer::consume_local],
    [Analyzer::record_match] *)
Definition consume (e : CExpr) : SM Analyzer unit := update (fun az => own (origin az e) az).
Definition inspect (e : CExpr) : SM Analyzer unit :=
  update (fun az => if negb (is_field az e) then own (origin az e) az else az).
Definition consume_local (l : LocalId) : SM Analyzer unit := update (fun az => own (az_origins az !! l) az).
Definition record_match (base : CExpr) : SM Analyzer unit :=
  update (fun az => match origin az base with Some p => with_matched ({[p]} ∪ az_matched az) az | None => az end).

(** [for (i, a) in args.iter().enumerate()] *)
Section ForArgs.
Context {S A : Type} (f : nat -> A -> SM S unit).
Fixpoint for_args (i : nat) (args : list A) : SM S unit :=
  match args with
  | [] => mret tt
  | a :: args => _ ← f i a; for_args (Datatypes.S i) args
  end.
End ForArgs.

Section Analyze.
Context (self_def : DefId) (self_sig : list bool) (params : list LocalId).
(** The query for another definition's signature, where its file has a source. *)
Context (sig_of : DefId -> option (list bool)).

(** [Analyzer::call_arg_borrows] *)
Definition call_arg_borrows (func : CExpr) (nargs : nat) : list bool :=
  match ce_kind func with
  | K_Global def =>
      if bool_decide (def = self_def) then
        if exploitable_at self_sig nargs then self_sig else replicate nargs false
      else
        match sig_of def with
        | Some sig => if exploitable_at sig nargs then sig else replicate nargs false
        | None => replicate nargs false
        end
  | _ => replicate nargs false
  end.

(** [Analyzer::is_self_call] *)
Definition is_self_call (func : CExpr) (nargs : nat) : bool :=
  match ce_kind func with
  | K_Global def => bool_decide (def = self_def) && (nargs =? length self_sig)
  | _ => false
  end.

(** An argument that is the parameter it is passed for. *)
Definition unchanged (az : Analyzer) (i : nat) (a : CExpr) : bool :=
  match params !! i with
  | Some param => bool_decide (origin az a = Some param) && negb (is_field az a)
  | None => false
  end.

(** One argument of a call, after it has been scanned. *)
Definition call_arg (tail_self_call : bool) (borrows : list bool) (i : nat) (a : CExpr) : SM Analyzer unit :=
  fun az =>
    let changes := tail_self_call && negb (unchanged az i a) in
    (_ ← (if changes then match params !! i with Some p => update (own (Some p)) | None => panic end else mret tt);
     if changes || negb (nth_flag borrows i) then consume a else mret tt) az.

(** The operators that read a cell of an array, and those that build one. *)
Definition matches_array (op : Prim) : bool :=
  match op with P_ArrayGet | P_ArrayPeek | P_ArrayTake => true | _ => false end.
Definition builds_array (op : Prim) : bool :=
  match op with
  | P_ArrayWithCapacity | P_ArrayRepeat | P_ArrayPush | P_ArrayPushReserved | P_ArraySet | P_ArrayPut | P_ArrayUnique => true
  | _ => false
  end.

(** [local] names what [x] names. *)
Definition alias (local x : LocalId) (az : Analyzer) : Analyzer :=
  MkAnalyzer (match az_origins az !! x with Some o => <[local := o]> (az_origins az) | None => az_origins az end)
    (if bool_decide (x ∈ az_field az) then {[local]} ∪ az_field az else az_field az)
    (az_owned az) (az_matched az) (az_reconstructs az).
(** [local] is a field of [base]. *)
Definition project (local : LocalId) (base : CExpr) (az : Analyzer) : Analyzer :=
  MkAnalyzer (match origin az base with Some o => <[local := o]> (az_origins az) | None => az_origins az end)
    ({[local]} ∪ az_field az) (az_owned az) (az_matched az) (az_reconstructs az).

(** [Analyzer::scan_value] *)
Definition scan_value (scan : CExpr -> bool -> SM Analyzer unit) (value : CExpr) (local : LocalId) : SM Analyzer unit :=
  match value with
  | CE (K_Local x) _ => update (alias local x)
  | CE (K_DataField base _ _ _) _ =>
      _ ← update (project local base);
      _ ← record_match base;
      scan base false
  | CE (K_DataTag base _) _ => _ ← record_match base; scan base false
  | _ => scan value false
  end.

(** [Analyzer::scan] *)
Fixpoint scan (e : CExpr) (tail : bool) : SM Analyzer unit :=
  match e with
  | CE kind ty =>
      match kind with
      | K_Local x => if tail then consume (CE kind ty) else mret tt
      | K_Lit _ | K_Global _ | K_Error => mret tt
      | K_Let local value body => _ ← scan_value scan value local; scan body tail
      | K_Spread components => for_args (fun _ a => _ ← scan a false; consume a) 0 components
      | K_LetMany _ value body => _ ← scan value false; scan body tail
      | K_If cond thn els => _ ← scan cond false; _ ← scan thn tail; scan els tail
      | K_Prim op args =>
          _ ← match args with array :: _ => if matches_array op then record_match array else mret tt | [] => mret tt end;
          _ ← (if builds_array op then update with_reconstructs else mret tt);
          let borrows := prim_borrows op args in
          for_args (fun i a => _ ← scan a false; if negb (nth_flag borrows i) then inspect a else mret tt) 0 args
      | K_Foreign _ args _ => for_args (fun _ a => _ ← scan a false; inspect a) 0 args
      | K_MakeData _ args _ _ niche =>
          _ ← (if negb (bool_decide (args = [])) && bool_decide (niche = None) then update with_reconstructs else mret tt);
          for_args (fun _ a => _ ← scan a false; consume a) 0 args
      | K_MakeClosure _ captures _ => for_args (fun _ c => consume_local c) 0 captures
      | K_App func args _ _ =>
          _ ← scan func false;
          _ ← consume func;
          let tail_self_call := tail && is_self_call func (length args) in
          let borrows := call_arg_borrows func (length args) in
          for_args (fun i a => _ ← scan a false; call_arg tail_self_call borrows i a) 0 args
      | K_DataTag base _ | K_DataField base _ _ _ => _ ← record_match base; scan base false
      | _ => mret tt
      end
  end.

(** [analyze] *)
Definition analyze (body : CExpr) : option Facts :=
  let az := MkAnalyzer (list_to_map ((fun p => (p, p)) <$> params)) ∅ ∅ ∅ false in
  match scan body true az with
  | Some (_, az) => Some (MkFacts (az_owned az) (az_matched az) (az_reconstructs az))
  | None => None
  end.
End Analyze.

(** ** Loans through a list traversal *)

(** [scalar] and [numeric] of borrow_scan.rs *)
Definition scalar (ty : Ty) : bool :=
  match ty with Ty_Unit | Ty_Con Con_Int | Ty_Con Con_Float | Ty_Con Con_Bool | Ty_Con Con_Char => true | _ => false end.
Definition numeric (op : Prim) : bool :=
  match op with
  | P_IntAdd | P_IntSub | P_IntMul | P_IntDiv | P_IntRem | P_IntAnd | P_IntOr | P_IntXor | P_IntShl | P_IntShr
  | P_IntShrLogical | P_IntComplement | P_IntLt | P_IntLe | P_IntGt | P_IntGe | P_FloatAdd | P_FloatSub | P_FloatMul
  | P_FloatDiv | P_FloatNeg | P_FloatLt | P_FloatLe | P_FloatGt | P_FloatGe | P_Eq | P_Compare | P_IntToFloat
  | P_FloatToInt | P_Sqrt | P_FloatFromBits | P_FloatToBits | P_CharToCode | P_CharFromCode | P_IsValidCharCode
  | P_Not => true
  | _ => false
  end.

(** [Plan] *)
Record Plan := MkPlan { plan_root : LocalId; plan_cursors : gset LocalId }.

(** [Scan]'s changing part. *)
Record ScanState := MkScan { sc_cursors : gset LocalId; sc_budget : nat; sc_tail : bool }.
Definition with_cursor (x : LocalId) (s : ScanState) : ScanState := MkScan ({[x]} ∪ sc_cursors s) (sc_budget s) (sc_tail s).
Definition with_tail (s : ScanState) : ScanState := MkScan (sc_cursors s) (sc_budget s) true.

(** [walk] gives up for good where the code's method returns false. *)
Definition ensure (b : bool) (s : ScanState) : option ScanState := if b then Some s else None.

Section Plan.
Context (def : DefId) (position arity : nat).

(** [Scan::cursor] *)
Fixpoint cursor (s : ScanState) (e : CExpr) : bool :=
  match e with
  | CE (K_Local x) _ => bool_decide (x ∈ sc_cursors s)
  | CE (K_DataField base (FI_Const 1) false None) _ => cursor s base
  | _ => false
  end.

Section WalkArgs.
Context (f : nat -> CExpr -> ScanState -> option ScanState).
Fixpoint walk_args (i : nat) (args : list CExpr) (s : ScanState) : option ScanState :=
  match args with
  | [] => Some s
  | a :: args => s ← f i a s; walk_args (S i) args s
  end.
End WalkArgs.

(** [Scan::walk] *)
Fixpoint walk (e : CExpr) (tail is_cursor : bool) (s : ScanState) : option ScanState :=
  match sc_budget s with
  | 0 => None
  | S budget =>
      let s := MkScan (sc_cursors s) budget (sc_tail s) in
      match e with
      | CE (K_Local x) _ => ensure (is_cursor || negb (bool_decide (x ∈ sc_cursors s))) s
      | CE (K_Lit (Lit_Str _)) _ => None
      | CE (K_Lit _) _ | CE K_Error _ => Some s
      | CE (K_Let local value body) _ =>
          let derived := cursor s value in
          s ← walk value false derived s;
          walk body tail is_cursor (if derived then with_cursor local s else s)
      | CE (K_If cond thn els) _ =>
          s ← walk cond false false s; s ← walk thn tail is_cursor s; walk els tail is_cursor s
      | CE (K_DataTag base None) _ => ensure (cursor s base) s
      | CE (K_DataField base (FI_Const index) _ None) ty =>
          ensure (cursor s base && (((index =? 0)%Z && scalar ty) || ((index =? 1)%Z && is_cursor))) s
      | CE (K_Prim op args) _ =>
          s ← ensure (numeric op) s; walk_args (fun _ a s => walk a false false s) 0 args s
      | CE (K_App func args reuse _) _ =>
          if tail && (length args =? arity) && bool_decide (reuse = []) && is_global def func then
            walk_args (fun i a s =>
              if i =? position then s ← ensure (cursor s a) s; walk a false true s
              else walk a false false s) 0 args (with_tail s)
          else None
      | _ => None
      end
  end.
End Plan.

(** The loop over the parameters' types: the one list of scalars, and what the function returns. *)
Fixpoint plan_root_of (params : list LocalId) (ty : Ty) (root : option LocalId) : option (option LocalId * Ty) :=
  match params with
  | [] => Some (root, ty)
  | param :: params =>
      match ty with
      | Ty_Arrow input output _ =>
          match input with
          | Ty_App (Ty_Con Con_List) element =>
              if scalar element then match root with Some _ => None | None => plan_root_of params output (Some param) end
              else if scalar input then plan_root_of params output root else None
          | _ => if scalar input then plan_root_of params output root else None
          end
      | _ => None
      end
  end.

(** [plan], of a function with the type scheme of its definition. *)
Definition plan (scheme : option Scheme) (def : DefId) (f : CoreFn) : option Plan :=
  scheme ← scheme;
  '(root, ty) ← plan_root_of (fn_params f) (sch_ty scheme) None;
  if negb (scalar ty) || negb (bool_decide (fn_captures f = [])) then None
  else
    root ← root;
    position ← list_find (fun p => p = root) (fn_params f);
    s ← walk def position.1 (length (fn_params f)) (fn_body f) true false (MkScan {[root]} 256 false);
    if sc_tail s then Some (MkPlan root (sc_cursors s)) else None.

(** ** Inference *)

Section Infer.
Context (db : Niche.Db) (sig_of : DefId -> option (list bool)).

(** Whether a parameter is owned by the facts. *)
Definition demoted (a : Facts) (p : LocalId) : bool :=
  bool_decide (p ∈ escaped a) || (reconstructs a && bool_decide (p ∈ matched a)).
(** One turn of the loop: the signature, and whether it changed. *)
Definition demote (a : Facts) (params : list LocalId) (sig : list bool) : list bool * bool :=
  (zip_with (fun b p => b && negb (demoted a p)) sig params,
   existsb (fun bp => bp.1 && demoted a bp.2) (zip sig params)).

(** The local fixpoint of [borrow_signature], by turns of its loop. *)
Fixpoint infer (fuel : nat) (def : DefId) (params : list LocalId) (body : CExpr) (sig : list bool) : option (list bool) :=
  match fuel with
  | 0 => None
  | S fuel =>
      a ← analyze def sig params sig_of body;
      let '(sig, changed) := demote a params sig in
      if changed then infer fuel def params body sig else Some sig
  end.

(** Niche options and spread aggregates are owned, by the definition's type. *)
Fixpoint own_words (ty : Ty) (sig : list bool) {struct sig} : list bool :=
  match sig with
  | [] => []
  | s :: sig =>
      match ty with
      | Ty_Arrow from to _ =>
          (if bool_decide (niche_scheme db from = None) && bool_decide (ffa_arity from = None) then s else false)
          :: own_words to sig
      | _ => s :: sig
      end
  end.

(** What [borrow_signature] makes of the signature the loop ends with. *)
Definition convert (scheme : option Scheme) (def : DefId) (entry : CoreFn) (sig : list bool) : list bool :=
  let sig := match scheme with Some s => own_words (sch_ty s) sig | None => sig end in
  match plan scheme def entry with
  | Some p =>
      match list_find (fun param => param = plan_root p) (fn_params entry) with
      | Some (position, _) => <[position := true]> sig
      | None => sig
      end
  | None => sig
  end.

(** The evidence that a definition of a scheme takes. *)
Definition evidence_of (scheme : option Scheme) : nat := match scheme with Some s => evidence_count s | None => 0 end.

(** [borrow_signature], of an entry function with the type scheme of its definition. *)
Definition borrow_signature (scheme : option Scheme) (def : DefId) (entry : CoreFn) : option (list bool) :=
  let params := fn_params entry in
  let n := length params in
  if n =? 0 then Some []
  else if 0 <? evidence_of scheme then Some (replicate n false)
  else convert scheme def entry <$> infer (S n) def params (fn_body entry) (replicate n true).
End Infer.

(** [borrow_initial]; [BORROW_FIXPOINT_BOUND] and [borrow_recover] *)
Definition borrow_initial (entry : CoreFn) : list bool := replicate (length (fn_params entry)) true.
Definition BORROW_FIXPOINT_BOUND : nat := 100.
Definition borrow_recover (iteration : nat) (value : list bool) : list bool :=
  if BORROW_FIXPOINT_BOUND <=? iteration then replicate (length value) false else value.

(** What counting reads of the signatures: [arg_borrows] of [rc_lowered]. *)
Definition arg_borrows (sigs : DefId -> option (list bool)) (def : DefId) (nargs : nat) : list bool :=
  match sigs def with
  | Some sig => if exploitable_at sig nargs then sig else replicate nargs false
  | None => replicate nargs false
  end.

(** A definition of a cluster: its scheme, the entry of its core, which [borrow_initial] reads,
    and the entry after inlining, which inference reads.  Inlining keeps the parameters. *)
Record Member := MkMember { m_scheme : option Scheme; m_core : CoreFn; m_entry : CoreFn }.
Definition same_params (members : gmap DefId Member) : Prop := forall d m, members !! d = Some m ->
  length (fn_params (m_core m)) = length (fn_params (m_entry m)).

(** A cluster of definitions that call each other: each starts as [borrow_initial] says, and
    every iteration infers each anew, in some order, from the signatures there are.  Those of
    definitions outside do not change. *)
Section Cluster.
Context (db : Niche.Db) (outside : DefId -> option (list bool)) (members : gmap DefId Member).
Abbreviation Sigs := (gmap DefId (list bool)).

Definition query (sigs : Sigs) (d : DefId) : option (list bool) :=
  match sigs !! d with Some sig => Some sig | None => outside d end.
Definition reinfer (iteration : nat) (sigs : Sigs) (d : DefId) : Sigs :=
  match members !! d with
  | Some (MkMember scheme _ entry) =>
      match borrow_signature db (query sigs) scheme d entry with
      | Some sig => <[d := borrow_recover iteration sig]> sigs
      | None => sigs
      end
  | None => sigs
  end.
(** The iterations from [iteration] on, each with its order. *)
Fixpoint iterate (iteration : nat) (orders : list (list DefId)) (sigs : Sigs) : Sigs :=
  match orders with
  | [] => sigs
  | order :: orders => iterate (S iteration) orders (foldl (reinfer iteration) sigs order)
  end.
Definition cluster_signatures (orders : list (list DefId)) : Sigs :=
  iterate 0 orders ((fun m => borrow_initial (m_core m)) <$> members).
End Cluster.

(** ** The order of signatures *)

(** [sig] lends no more than [sig']. *)
Definition le_sig (sig sig' : list bool) : Prop := Forall2 (fun b b' => b = true -> b' = true) sig sig'.
#[export] Instance le_sig_refl : Reflexive le_sig.
Proof. intros sig. by apply Forall2_same_length_lookup_2; [|congruence]. Qed.
#[export] Instance le_sig_trans : Transitive le_sig.
Proof. intros s1 s2 s3 H. revert s3. induction H; inversion_clear 1; constructor; [auto|]. by apply IHForall2. Qed.
#[export] Instance le_sig_antisymm : AntiSymm (=) le_sig.
Proof.
  intros s1 s2 H. induction H as [|b b' s1 s2 Hb _ IH]; [done|]. inversion_clear 1 as [|? ? ? ? Hb' Hs]. f_equal; [|auto].
  destruct b, b'; naive_solver.
Qed.
Lemma le_sig_length sig sig' : le_sig sig sig' -> length sig = length sig'.
Proof. apply Forall2_length. Qed.
Lemma le_sig_top sig n : length sig = n -> le_sig sig (replicate n true).
Proof. intros <-. induction sig; constructor; auto. Qed.
Lemma le_sig_nth sig sig' i : le_sig sig sig' -> nth_flag sig i = true -> nth_flag sig' i = true.
Proof.
  intros H. unfold nth_flag. destruct (sig !! i) eqn:E; [|done]. destruct (Forall2_lookup_l _ _ _ _ _ H E) as (b' & -> & Hb). auto.
Qed.
Lemma le_sig_exploitable sig sig' n : le_sig sig sig' -> exploitable_at sig n = exploitable_at sig' n.
Proof. intros H. unfold exploitable_at. rewrite (le_sig_length _ _ H). by destruct H. Qed.

Definition le_sigs (sigs sigs' : DefId -> option (list bool)) : Prop := forall d, option_Forall2 le_sig (sigs d) (sigs' d).
#[export] Instance le_sigs_refl : Reflexive le_sigs.
Proof. intros sigs d. reflexivity. Qed.

(** ** The analysis under two signatures *)

(** Where callers lend less, more parameters are owned, and all else is the same. *)
Definition owns_more (az az' : Analyzer) : Prop := exists o, az = with_owned o az' /\ az_owned az' ⊆ o.
#[export] Instance owns_more_refl : Reflexive owns_more.
Proof. intros []. by eexists. Qed.
Definition follows (m m' : SM Analyzer unit) : Prop := forall az az', owns_more az az' ->
  exists az1 az1', m az = Some (tt, az1) /\ m' az' = Some (tt, az1') /\ owns_more az1 az1'.

Lemma follows_ret : follows (mret tt) (mret tt).
Proof. intros az az' H. by exists az, az'. Qed.
Lemma follows_bind m m' (k k' : unit -> SM Analyzer unit) :
  follows m m' -> follows (k tt) (k' tt) -> follows (m ≫= k) (m' ≫= k').
Proof.
  intros Hm Hk az az' H. destruct (Hm _ _ H) as (az1 & az1' & E & E' & H1). unfold mbind, sm_bind. rewrite E, E'. by apply Hk.
Qed.
Lemma follows_args {A} (f f' : nat -> A -> SM Analyzer unit) args i :
  Forall (fun a => forall i, follows (f i a) (f' i a)) args -> follows (for_args f i args) (for_args f' i args).
Proof.
  intros H. revert i. induction H as [|a args Ha _ IH]; intros i; [apply follows_ret|]. by apply follows_bind.
Qed.
Lemma follows_update f f' : (forall az az', owns_more az az' -> owns_more (f az) (f' az')) -> follows (update f) (update f').
Proof. intros H az az' Ha. eexists _, _. split_and!; [done|done|auto]. Qed.

Lemma owns_more_own p az az' : owns_more az az' -> owns_more (own p az) (own p az').
Proof. intros (o & -> & Ho). destruct p as [p|]; [|by exists o]. exists ({[p]} ∪ o). split; [done|]. simpl. set_solver. Qed.
Lemma owns_more_only p az az' : owns_more az az' -> owns_more (own p az) az'.
Proof. intros (o & -> & Ho). destruct p as [p|]; [|by exists o]. exists ({[p]} ∪ o). split; [done|]. set_solver. Qed.
Lemma origin_owned o az e : origin (with_owned o az) e = origin az e.
Proof.
  induction e as [[k t] IH] using CExpr_children_ind. destruct k; try done. child_hyps IH. simpl. auto.
Qed.

Lemma follows_consume e : follows (consume e) (consume e).
Proof.
  apply follows_update. intros az az' (o & -> & Ho). rewrite origin_owned. apply owns_more_own. by exists o.
Qed.
Lemma follows_record e : follows (record_match e) (record_match e).
Proof.
  apply follows_update. intros az az' (o & -> & Ho). rewrite origin_owned. destruct (origin az' e); exists o; split; done.
Qed.
Lemma follows_inspect e : follows (inspect e) (inspect e).
Proof.
  apply follows_update. intros az az' (o & -> & Ho). rewrite origin_owned.
  change (is_field (with_owned o az') e) with (is_field az' e). destruct (is_field az' e); simpl; [by exists o|].
  apply owns_more_own. by exists o.
Qed.
Lemma follows_consume_local l : follows (consume_local l) (consume_local l).
Proof. apply follows_update. intros az az' (o & -> & Ho). simpl. apply owns_more_own. by exists o. Qed.

Section Follows.
Context (self_def : DefId) (params : list LocalId) (sig sig' : list bool) (sigs sigs' : DefId -> option (list bool)).
Context (Hsig : le_sig sig sig') (Hsigs : le_sigs sigs sigs') (Hlen : length sig' = length params).

Lemma call_arg_borrows_mono func n i :
  nth_flag (call_arg_borrows self_def sig sigs func n) i = true -> nth_flag (call_arg_borrows self_def sig' sigs' func n) i = true.
Proof.
  unfold call_arg_borrows. destruct (ce_kind func); try done. case_bool_decide.
  - rewrite (le_sig_exploitable sig sig') by done. destruct (exploitable_at sig' n); [|done]. by apply le_sig_nth.
  - destruct (Hsigs def) as [s s' Hs|]; [|done]. rewrite (le_sig_exploitable s s') by done.
    destruct (exploitable_at s' n); [|done]. by apply le_sig_nth.
Qed.
Lemma is_self_call_mono func n : is_self_call self_def sig func n = is_self_call self_def sig' func n.
Proof. unfold is_self_call. by rewrite (le_sig_length _ _ Hsig). Qed.

(** An argument is there for every parameter of a call to the definition itself. *)
Lemma follows_call_arg t b b' i a : (forall i, nth_flag b i = true -> nth_flag b' i = true) -> (t = true -> i < length params) ->
  follows (call_arg params t b i a) (call_arg params t b' i a).
Proof.
  intros Hb Hi. assert (forall az az', owns_more az az' -> unchanged params az i a = unchanged params az' i a) as Hu.
  { intros az az' (o & -> & _). unfold unchanged. destruct (params !! i); [|done]. by rewrite origin_owned. }
  intros az az' Ha. unfold call_arg. rewrite (Hu _ _ Ha). set (changes := t && _).
  assert (forall m m', follows m m' -> exists az1 az1', m az = Some (tt, az1) /\ m' az' = Some (tt, az1') /\ owns_more az1 az1') as Hgo
    by (intros m m' Hm; by apply Hm).
  apply Hgo. apply follows_bind.
  - destruct changes eqn:Ec; [|apply follows_ret]. subst changes. apply andb_true_iff in Ec as [Ht _].
    destruct (lookup_lt_is_Some_2 params i (Hi Ht)) as [p ->]. apply follows_update. intros ? ?. apply owns_more_own.
  - destruct changes; simpl; [apply follows_consume|]. destruct (nth_flag b i) eqn:E.
    + rewrite (Hb i E). apply follows_ret.
    + destruct (nth_flag b' i); simpl; [|apply follows_consume]. intros x x' Hx.
      eexists _, _. split_and!; [done|done|]. by apply owns_more_only.
Qed.

Lemma follows_call_args f f' t b b' args i : (forall i, nth_flag b i = true -> nth_flag b' i = true) ->
  (t = true -> i + length args <= length params) -> Forall (fun a => follows (f a) (f' a)) args ->
  follows (for_args (fun i a => _ ← f a; call_arg params t b i a) i args)
    (for_args (fun i a => _ ← f' a; call_arg params t b' i a) i args).
Proof.
  intros Hb Hi Hf. revert i Hi. induction Hf as [|a args Ha _ IH]; intros i Hi; [apply follows_ret|]. simpl in *.
  apply follows_bind; [|apply IH; intros Ht; specialize (Hi Ht); lia].
  apply follows_bind; [done|]. apply follows_call_arg; [done|]. intros Ht. specialize (Hi Ht). lia.
Qed.

Lemma follows_scan_value f f' value local : (forall tail, follows (f value tail) (f' value tail)) ->
  (forall base tail, base ∈ e_children value -> follows (f base tail) (f' base tail)) ->
  follows (scan_value f value local) (scan_value f' value local).
Proof.
  intros Hv Hb. destruct value as [k t]. destruct k; try apply Hv.
  - apply follows_update. intros az az' (o & -> & Ho). by exists o.
  - apply follows_bind; [apply follows_record|]. apply Hb. by left.
  - apply follows_bind; [|apply follows_bind; [apply follows_record|apply Hb; by left]].
    apply follows_update. intros az az' (o & -> & Ho). exists o. split; [|done]. unfold project. by rewrite origin_owned.
Qed.

Abbreviation low := (scan self_def sig params sigs).
Abbreviation high := (scan self_def sig' params sigs').
Lemma follows_scan e : (forall tail, follows (low e tail) (high e tail)) /\
  Forall (fun c => forall tail, follows (low c tail) (high c tail)) (e_children e).
Proof.
  induction e as [[k t] IH] using CExpr_children_ind. split; [|by eapply Forall_impl; [exact IH|intros c [Hc _]]]. intros tail.
  assert (Hall : forall es (g : CExpr -> SM Analyzer unit), (forall e, follows (g e) (g e)) ->
    Forall (fun e => (forall tail, follows (low e tail) (high e tail)) /\ Forall (fun c => forall tail, follows (low c tail) (high c tail)) (e_children e)) es ->
    follows (for_args (fun _ a => _ ← low a false; g a) 0 es) (for_args (fun _ a => _ ← high a false; g a) 0 es)).
  { intros es g Hg Hes. apply follows_args. eapply Forall_impl; [exact Hes|]. intros e [He _] i. by apply follows_bind. }
  destruct k; child_hyps IH; cbn [scan]; try apply follows_ret; try (by destruct tail; [apply follows_consume|apply follows_ret]).
  - apply follows_bind; [|apply follows_bind].
    + destruct args; [apply follows_ret|]. destruct (matches_array op); [apply follows_record|apply follows_ret].
    + destruct (builds_array op); [|apply follows_ret]. apply follows_update. intros az az' (o & -> & Ho). by exists o.
    + apply follows_args. eapply Forall_impl; [exact IH|]. intros e [He _] i. apply follows_bind; [done|].
      destruct (negb _); [apply follows_inspect|apply follows_ret].
  - apply Hall; [apply follows_inspect|done].
  - apply follows_bind; [apply IH0|]. apply follows_bind; [apply follows_consume|]. rewrite is_self_call_mono.
    apply follows_call_args.
    + intros i. apply call_arg_borrows_mono.
    + intros [_ H]%andb_true_iff. unfold is_self_call in H. destruct (ce_kind func); try done.
      apply andb_true_iff in H as [_ H%Nat.eqb_eq]. simpl. lia.
    + eapply Forall_impl; [exact IH|]. by intros e [He _].
  - apply follows_bind; [apply IH0|]. apply follows_bind; [apply IH1|apply IH2].
  - apply follows_bind; [|apply IH1]. apply follows_scan_value; [apply IH0|].
    destruct IH0 as [_ IH0]. rewrite Forall_forall in IH0. intros base tl Hb. by apply IH0.
  - apply Hall; [apply follows_consume|done].
  - apply follows_bind; [apply IH0|apply IH1].
  - apply follows_args, Forall_true. intros c i. apply follows_consume_local.
  - apply follows_bind; [|apply Hall; [apply follows_consume|done]].
    destruct (_ && _); [|apply follows_ret]. apply follows_update. intros az az' (o & -> & Ho). by exists o.
  - apply follows_bind; [apply follows_record|apply IH0].
  - apply follows_bind; [apply follows_record|apply IH0].
Qed.

(** The facts under two signatures. *)
Lemma analyze_mono body : exists a a', analyze self_def sig params sigs body = Some a /\
  analyze self_def sig' params sigs' body = Some a' /\ forall p, demoted a' p = true -> demoted a p = true.
Proof.
  unfold analyze. set (az := MkAnalyzer _ _ _ _ _). destruct (proj1 (follows_scan body) true az az) as (az1 & az1' & E & E' & (o & -> & Ho)); [done|].
  rewrite E, E'. eexists _, _. split_and!; [done|done|]. intros p. unfold demoted. simpl.
  rewrite !orb_true_iff, !bool_decide_eq_true. intros [H|H]; [left; by apply Ho|by right].
Qed.
End Follows.

(** ** The loop *)

(** A signature whose body demotes none of the parameters it lends. *)
Definition consistent (sigs : DefId -> option (list bool)) (def : DefId) (params : list LocalId) (body : CExpr) (sig : list bool) : Prop :=
  length sig = length params /\ exists a, analyze def sig params sigs body = Some a /\
    Forall2 (fun b p => b = true -> demoted a p = false) sig params.

Definition lent (sig : list bool) : nat := sum_list_with Nat.b2n sig.

Lemma demote_le a params sig : length sig = length params -> le_sig (demote a params sig).1 sig.
Proof.
  revert params. induction sig as [|b sig IH]; intros [|p params] [=]; [constructor|]. constructor; [|by apply IH].
  by intros [? _]%andb_true_iff.
Qed.
Lemma demote_stable a params sig : length sig = length params -> (demote a params sig).2 = false ->
  (demote a params sig).1 = sig /\ Forall2 (fun b p => b = true -> demoted a p = false) sig params.
Proof.
  revert params. induction sig as [|b sig IH]; intros [|p params] [=]; [by constructor|]. simpl. intros [Hb Hs]%orb_false_iff.
  destruct (IH params) as [E Hf]; [done|done|]. split; [|constructor; [|done]].
  - f_equal; [|done]. destruct b; [|done]. simpl in *. by rewrite Hb.
  - by intros ->.
Qed.
Lemma demote_shrinks a params sig : (demote a params sig).2 = true -> lent (demote a params sig).1 < lent sig.
Proof.
  unfold demote, lent. simpl.
  assert (forall bs ps, sum_list_with Nat.b2n (zip_with (fun b p => b && negb (demoted a p)) bs ps) <= sum_list_with Nat.b2n bs) as Hle.
  { intros bs. induction bs as [|b bs IH]; intros [|p ps]; simpl; try lia. specialize (IH ps). destruct b, (demoted a p); simpl; lia. }
  revert params. induction sig as [|b sig IH]; intros [|p params]; try done. simpl. intros [Hb|Hs]%orb_true_iff.
  - simpl in Hb. apply andb_true_iff in Hb as [-> ->]. specialize (Hle sig params). simpl. lia.
  - specialize (IH params Hs). destruct b, (demoted a p); simpl; lia.
Qed.
Lemma demote_above a params c sig : le_sig c sig -> Forall2 (fun b p => b = true -> demoted a p = false) c params ->
  le_sig c (demote a params sig).1.
Proof.
  intros H. revert params. induction H as [|b b' c sig Hb _ IH]; intros [|p params]; inversion_clear 1 as [|? ? ? ? Hp Hf]; [constructor|].
  constructor; [|by apply IH]. intros Ht. by rewrite (Hb Ht), (Hp Ht).
Qed.

Lemma consistent_mono sigs sigs' def params body sig : le_sigs sigs sigs' ->
  consistent sigs def params body sig -> consistent sigs' def params body sig.
Proof.
  intros Hs (Hl & a & Ha & Hf). split; [done|].
  destruct (analyze_mono def params sig sig sigs sigs' (le_sig_refl sig) Hs Hl body) as (a1 & a' & E & E' & Hd).
  rewrite Ha in E. injection E as <-. exists a'. split; [done|]. eapply Forall2_impl; [exact Hf|]. simpl.
  intros b p Hb Ht. specialize (Hb Ht). destruct (demoted a' p) eqn:E; [|done]. apply Hd in E. congruence.
Qed.

Lemma infer_spec sigs def params body fuel : forall sig, length sig = length params -> lent sig < fuel ->
  exists r, infer sigs fuel def params body sig = Some r /\ consistent sigs def params body r /\
    forall c, consistent sigs def params body c -> le_sig c sig -> le_sig c r.
Proof.
  induction fuel as [|fuel IH]; intros sig Hl Hf; [lia|]. cbn [infer].
  destruct (analyze_mono def params sig sig sigs sigs (le_sig_refl sig) (le_sigs_refl sigs) Hl body) as (a & _ & Ha & _ & _).
  rewrite Ha. cbn [mbind option_bind]. pose proof (demote_le a params sig Hl) as Hle. pose proof (demote_shrinks a params sig) as Hshr.
  pose proof (demote_stable a params sig Hl) as Hst. destruct (demote a params sig) as [sig1 changed] eqn:Ed. cbn [fst snd] in *.
  assert (sig1 = (demote a params sig).1) as E1 by (by rewrite Ed).
  destruct changed.
  - destruct (IH sig1) as (r & Hr & Hc & Hg); [by rewrite (le_sig_length _ _ Hle)|specialize (Hshr eq_refl); lia|].
    exists r. split; [done|split; [done|]]. intros c Hcc Hcs. apply Hg; [done|]. rewrite E1. apply demote_above; [done|].
    destruct Hcc as (Hcl & a' & Ha' & Hf').
    destruct (analyze_mono def params c sig sigs sigs Hcs (le_sigs_refl sigs) Hl body) as (a1 & a2 & F1 & F2 & Hd).
    rewrite Ha' in F1. rewrite Ha in F2. injection F1 as <-. injection F2 as <-. eapply Forall2_impl; [exact Hf'|].
    simpl. intros b p Hb Ht. specialize (Hb Ht). destruct (demoted a p) eqn:E; [|done]. apply Hd in E. congruence.
  - destruct (Hst eq_refl) as [-> Hf']. exists sig. split; [done|split; [|done]]. split; [done|]. by exists a.
Qed.

Lemma lent_top n : lent (replicate n true) = n.
Proof. unfold lent. induction n; simpl; lia. Qed.

(** The loop from the top returns the greatest consistent signature. *)
Lemma infer_greatest sigs def params body : exists r,
  infer sigs (S (length params)) def params body (replicate (length params) true) = Some r /\
  consistent sigs def params body r /\ forall c, consistent sigs def params body c -> le_sig c r.
Proof.
  destruct (infer_spec sigs def params body (S (length params)) (replicate (length params) true)) as (r & Hr & Hc & Hg).
  - by rewrite length_replicate.
  - rewrite lent_top. lia.
  - exists r. split; [done|split; [done|]]. intros c Hcc. apply Hg; [done|]. apply le_sig_top, Hcc.
Qed.

Lemma infer_mono sigs sigs' def params body r r' : le_sigs sigs sigs' ->
  infer sigs (S (length params)) def params body (replicate (length params) true) = Some r ->
  infer sigs' (S (length params)) def params body (replicate (length params) true) = Some r' -> le_sig r r'.
Proof.
  intros Hs Hr Hr'. destruct (infer_greatest sigs def params body) as (x & E & Hc & _).
  destruct (infer_greatest sigs' def params body) as (y & E' & _ & Hg). simplify_eq. apply Hg. by eapply consistent_mono.
Qed.

Section Signature.
Context (db : Niche.Db) (scheme : option Scheme) (def : DefId) (entry : CoreFn).

Lemma own_words_mono ty sig sig' : le_sig sig sig' -> le_sig (own_words db ty sig) (own_words db ty sig').
Proof.
  intros H. revert ty. induction H as [|b b' sig sig' Hb Hs IH]; intros ty; [done|].
  destruct ty; simpl; constructor; try done; [by destruct (_ && _)|apply IH].
Qed.
Lemma le_sig_insert i b sig sig' : le_sig sig sig' -> le_sig (<[i := b]> sig) (<[i := b]> sig').
Proof. intros H. by apply Forall2_insert. Qed.
Lemma convert_mono sig sig' : le_sig sig sig' -> le_sig (convert db scheme def entry sig) (convert db scheme def entry sig').
Proof.
  intros H. unfold convert. assert (le_sig (match scheme with Some s => own_words db (sch_ty s) sig | None => sig end)
    (match scheme with Some s => own_words db (sch_ty s) sig' | None => sig' end)) as Hs by (destruct scheme; [by apply own_words_mono|done]).
  destruct (plan _ _ _); [|done]. destruct (list_find _ _) as [[i x]|]; [|done]. by apply le_sig_insert.
Qed.
Lemma own_words_length ty sig : length (own_words db ty sig) = length sig.
Proof. revert ty. induction sig as [|b sig IH]; intros ty; [done|]. destruct ty; simpl; auto. Qed.
Lemma convert_length sig : length (convert db scheme def entry sig) = length sig.
Proof.
  unfold convert. assert (length (match scheme with Some s => own_words db (sch_ty s) sig | None => sig end) = length sig) as Hs
    by (destruct scheme; [apply own_words_length|done]).
  destruct (plan _ _ _); [|done]. destruct (list_find _ _) as [[i x]|]; [|done]. by rewrite length_insert.
Qed.

Lemma signature_returns sigs : exists sig, borrow_signature db sigs scheme def entry = Some sig /\ length sig = length (fn_params entry).
Proof.
  unfold borrow_signature. destruct (Nat.eqb_spec (length (fn_params entry)) 0) as [E|_]; [by exists []|].
  destruct (0 <? _); [eexists; split; [done|by rewrite length_replicate]|].
  destruct (infer_greatest sigs def (fn_params entry) (fn_body entry)) as (r & -> & [Hl _] & _).
  eexists. split; [done|]. by rewrite convert_length.
Qed.
Lemma signature_mono sigs sigs' : le_sigs sigs sigs' ->
  option_Forall2 le_sig (borrow_signature db sigs scheme def entry) (borrow_signature db sigs' scheme def entry).
Proof.
  intros H. unfold borrow_signature. destruct (_ =? 0); [by repeat constructor|]. destruct (0 <? _); [by constructor|].
  destruct (infer_greatest sigs def (fn_params entry) (fn_body entry)) as (r & Er & _).
  destruct (infer_greatest sigs' def (fn_params entry) (fn_body entry)) as (r' & Er' & _).
  pose proof (infer_mono _ _ _ _ _ _ _ H Er Er'). rewrite Er, Er'. constructor. by apply convert_mono.
Qed.
End Signature.

(** ** Clusters *)

Lemma le_sigs_antisymm (sigs sigs' : gmap DefId (list bool)) :
  le_sigs (sigs !!.) (sigs' !!.) -> le_sigs (sigs' !!.) (sigs !!.) -> sigs = sigs'.
Proof.
  intros H H'. apply map_eq. intros d. specialize (H d). specialize (H' d). simpl in *. destruct H as [s s' Hs|]; [|done].
  inversion_clear H'. f_equal. by apply (anti_symm le_sig).
Qed.

(** How many parameters are lent. *)
Definition all_lent (sigs : gmap DefId (list bool)) : nat := map_fold (fun _ sig n => lent sig + n) 0 sigs.
Lemma all_lent_delete d sig sigs : sigs !! d = Some sig -> all_lent sigs = lent sig + all_lent (delete d sigs).
Proof.
  intros H. unfold all_lent. rewrite (map_fold_delete_L _ 0 d sig sigs); [done| |done]. intros. lia.
Qed.
Lemma lent_le sig sig' : le_sig sig sig' -> lent sig <= lent sig' /\ (lent sig = lent sig' -> sig = sig').
Proof.
  unfold lent. induction 1 as [|b b' sig sig' Hb _ [IH IH']]; [done|]. destruct b, b'; simpl; split; try lia;
    try (intros E; f_equal; apply IH'; lia); by specialize (Hb eq_refl).
Qed.

Section ClusterFacts.
Context (db : Niche.Db) (outside : DefId -> option (list bool)) (members : gmap DefId Member).
Abbreviation Sigs := (gmap DefId (list bool)).
Abbreviation infer_in sigs d m := (borrow_signature db (query outside sigs) (m_scheme m) d (m_entry m)).
Abbreviation below sigs sigs' := (le_sigs ((sigs : Sigs) !!.) ((sigs' : Sigs) !!.)).

(** Every member has a signature, one flag a parameter. *)
Definition covers (sigs : Sigs) : Prop := forall d, option_Forall2 (fun sig m => length sig = length (fn_params (m_entry m))) (sigs !! d) (members !! d).
(** No member's signature changes when it is inferred anew. *)
Definition settled (sigs : Sigs) : Prop := forall d m, members !! d = Some m -> infer_in sigs d m = sigs !! d.
(** Inferring a member anew takes loans back, and makes none. *)
Definition shrinking (sigs : Sigs) : Prop := forall d m, members !! d = Some m -> option_Forall2 le_sig (infer_in sigs d m) (sigs !! d).

Lemma query_mono sigs sigs' : below sigs sigs' -> le_sigs (query outside sigs) (query outside sigs').
Proof. intros H d. unfold query. destruct (H d); [by constructor|reflexivity]. Qed.
Lemma infer_in_mono sigs sigs' d m : below sigs sigs' -> option_Forall2 le_sig (infer_in sigs d m) (infer_in sigs' d m).
Proof. intros H. by apply signature_mono, query_mono. Qed.

Context (iteration : nat) (Hbound : iteration < BORROW_FIXPOINT_BOUND).
Abbreviation again := (reinfer db outside members iteration).

Lemma again_eq sigs d : exists sig, again sigs d = match members !! d with Some _ => <[d := sig]> sigs | None => sigs end /\
  forall m, members !! d = Some m -> infer_in sigs d m = Some sig /\ length sig = length (fn_params (m_entry m)).
Proof.
  unfold reinfer. destruct (members !! d) as [[scheme core_ entry]|] eqn:E; [|by exists []].
  destruct (signature_returns db scheme d entry (query outside sigs)) as (sig & Hs & Hl). exists sig. rewrite Hs. split.
  - unfold borrow_recover. by rewrite (proj2 (Nat.leb_gt _ _)).
  - intros m [= <-]. done.
Qed.
Lemma again_below sigs d : covers sigs -> shrinking sigs -> below (again sigs d) sigs.
Proof.
  intros Hc Hs. destruct (again_eq sigs d) as (sig & -> & Hsig). destruct (members !! d) as [m|] eqn:E; [|reflexivity].
  intros d'. simpl. destruct (decide (d = d')) as [<-|]; [|by rewrite lookup_insert_ne].
  rewrite lookup_insert_eq. destruct (Hsig m eq_refl) as [<- _]. by apply Hs.
Qed.
Lemma again_covers sigs d : covers sigs -> covers (again sigs d).
Proof.
  intros Hc. destruct (again_eq sigs d) as (sig & -> & Hsig). destruct (members !! d) as [m|] eqn:E; [|done].
  intros d'. destruct (decide (d = d')) as [<-|]; [|by rewrite lookup_insert_ne].
  rewrite lookup_insert_eq, E. constructor. by apply Hsig.
Qed.
Lemma again_shrinking sigs d : covers sigs -> shrinking sigs -> shrinking (again sigs d).
Proof.
  intros Hc Hs d' m Hm. pose proof (infer_in_mono _ _ d' m (again_below sigs d Hc Hs)) as Hmono.
  destruct (again_eq sigs d) as (sig & E & Hsig). destruct (decide (d = d')) as [<-|Hd].
  - rewrite E, Hm in *. rewrite lookup_insert_eq. by destruct (Hsig m eq_refl) as [<- _].
  - assert (again sigs d !! d' = sigs !! d') as ->.
    { rewrite E. destruct (members !! d); [by rewrite lookup_insert_ne|done]. }
    specialize (Hs d' m Hm). destruct Hmono as [a b Hab|]; [|done]. inversion Hs as [? c Hbc E1 E2|]; subst.
    constructor. by transitivity b.
Qed.
Lemma again_above sigs t d : covers t -> settled t -> below t sigs -> below t (again sigs d).
Proof.
  intros Hc Ht Hb. destruct (again_eq sigs d) as (sig & -> & Hsig). destruct (members !! d) as [m|] eqn:E; [|done].
  intros d'. simpl. destruct (decide (d = d')) as [<-|]; [|rewrite lookup_insert_ne by done; apply Hb].
  rewrite lookup_insert_eq. destruct (Hsig m eq_refl) as [<- _]. rewrite <- (Ht d m E). by apply infer_in_mono.
Qed.
Lemma again_lent sigs d : covers sigs -> shrinking sigs ->
  again sigs d = sigs \/ all_lent (again sigs d) < all_lent sigs.
Proof.
  intros Hc Hs. pose proof (again_below sigs d Hc Hs d) as Hb. destruct (again_eq sigs d) as (sig & E & Hsig).
  rewrite E in *. destruct (members !! d) as [m|] eqn:Em; [|by left]. simpl in Hb. rewrite lookup_insert_eq in Hb.
  inversion Hb as [? old Hle E1 E2|]; subst. symmetry in E2. destruct (lent_le _ _ Hle) as [Hl Heq].
  destruct (decide (lent sig = lent old)) as [Hn|Hn].
  - left. rewrite (Heq Hn). by apply insert_id.
  - right. rewrite (all_lent_delete d sig (<[d := sig]> sigs)) by apply lookup_insert_eq.
    rewrite (all_lent_delete d old sigs) by done. rewrite delete_insert_eq. lia.
Qed.

Lemma settled_again sigs d : settled sigs -> covers sigs -> again sigs d = sigs.
Proof.
  intros Hs Hc. destruct (again_eq sigs d) as (sig & -> & Hsig). destruct (members !! d) as [m|] eqn:E; [|done].
  destruct (Hsig m eq_refl) as [H _]. apply insert_id. by rewrite <- H, (Hs d m E).
Qed.

(** An iteration changes nothing, and then its members are settled, or takes loans back. *)
Lemma pass_facts order : forall sigs, covers sigs -> shrinking sigs ->
  covers (foldl again sigs order) /\ shrinking (foldl again sigs order) /\
  (forall t, covers t -> settled t -> below t sigs -> below t (foldl again sigs order)) /\
  ((foldl again sigs order = sigs /\ forall d m, d ∈ order -> members !! d = Some m -> infer_in sigs d m = sigs !! d) \/
   all_lent (foldl again sigs order) < all_lent sigs).
Proof.
  induction order as [|d order IH]; intros sigs Hc Hs.
  { split; [done|]. split; [done|]. split; [done|]. left. split; [done|]. intros d m []%elem_of_nil. }
  destruct (IH (again sigs d)) as (H1 & H2 & H3 & H4); [by apply again_covers|by apply again_shrinking|]. cbn [foldl].
  split; [done|]. split; [done|]. split; [intros t Ht1 Ht2 Hb; apply H3; [done|done|by apply again_above]|].
  destruct (again_lent sigs d Hc Hs) as [E|Hl]; [|right; destruct H4 as [[-> _]|]; lia].
  rewrite E in H4 |- *. destruct H4 as [[E' H4]|]; [left|by right]. split; [done|].
  intros d' m [->|Hd]%elem_of_cons Hm; [|by apply H4].
  destruct (again_eq sigs d) as (sig & Ea & Hsig). rewrite Hm in Ea. destruct (Hsig m Hm) as [-> _].
  rewrite <- E, Ea. by rewrite lookup_insert_eq.
Qed.
End ClusterFacts.

Section ClusterSignatures.
Context (db : Niche.Db) (outside : DefId -> option (list bool)) (members : gmap DefId Member).
Abbreviation Sigs := (gmap DefId (list bool)).
Abbreviation below sigs sigs' := (le_sigs ((sigs : Sigs) !!.) ((sigs' : Sigs) !!.)).

Lemma iterate_settled sigs orders : forall iteration, settled db outside members sigs -> covers members sigs ->
  iteration + length orders <= BORROW_FIXPOINT_BOUND -> iterate db outside members iteration orders sigs = sigs.
Proof.
  induction orders as [|order orders IH]; intros i Hs Hc Hi; [done|]. simpl in *.
  assert (foldl (reinfer db outside members i) sigs order = sigs) as ->; [|apply IH; [done|done|lia]].
  induction order as [|d order IHo]; [done|]. simpl. rewrite settled_again; [done|lia|done|done].
Qed.

Lemma iterate_settles orders : forall iteration sigs, covers members sigs -> shrinking db outside members sigs ->
  Forall (fun order => forall d, is_Some (members !! d) -> d ∈ order) orders ->
  all_lent sigs < length orders -> iteration + length orders <= BORROW_FIXPOINT_BOUND ->
  covers members (iterate db outside members iteration orders sigs) /\
  settled db outside members (iterate db outside members iteration orders sigs) /\
  forall t, covers members t -> settled db outside members t -> below t sigs -> below t (iterate db outside members iteration orders sigs).
Proof.
  induction orders as [|order orders IH]; intros i sigs Hc Hs Hall Hl Hi; simpl in *; [lia|].
  apply Forall_cons in Hall as [Ho Hall].
  destruct (pass_facts db outside members i ltac:(lia) order sigs Hc Hs) as (H1 & H2 & H3 & [[E H4]|H4]).
  - rewrite E in *. assert (settled db outside members sigs) as Hset by (intros d m Hm; apply H4; [apply Ho; by eexists|done]).
    rewrite iterate_settled by (done || lia). done.
  - destruct (IH (S i) _ H1 H2 Hall) as (G1 & G2 & G3); [lia|lia|]. split; [done|]. split; [done|].
    intros t Ht1 Ht2 Hb. apply G3; [done|done|by apply H3].
Qed.

Context (Hsame : same_params members).

Lemma initial_covers : covers members ((fun m => borrow_initial (m_core m)) <$> members).
Proof.
  intros d. rewrite lookup_fmap. destruct (members !! d) eqn:E; constructor. rewrite <- (Hsame _ _ E). apply length_replicate.
Qed.
Lemma top_below t : covers members t -> below t ((fun m => borrow_initial (m_core m)) <$> members).
Proof.
  intros Ht d. simpl. rewrite lookup_fmap. specialize (Ht d). destruct (members !! d) eqn:E; inversion Ht; simplify_eq; constructor.
  apply le_sig_top. by rewrite (Hsame _ _ E).
Qed.
Lemma initial_shrinking : shrinking db outside members ((fun m => borrow_initial (m_core m)) <$> members).
Proof.
  intros d m Hm. rewrite lookup_fmap, Hm. simpl.
  destruct (signature_returns db (m_scheme m) d (m_entry m) (query outside ((fun m => borrow_initial (m_core m)) <$> members))) as (sig & -> & Hl).
  constructor. apply le_sig_top. by rewrite (Hsame _ _ Hm).
Qed.
(** The parameters of a cluster. *)
Definition all_params : nat := all_lent ((fun m => borrow_initial (m_core m)) <$> members).
End ClusterSignatures.

(** ** The theorems *)

(** C18: Borrow inference of a definition returns one flag per parameter.  A definition that
    takes evidence lends nothing.  Any other starts from the greatest signature that is
    consistent with the body - no parameter it lends is consumed, changes in a call of the
    definition to itself at its tail, or is taken apart by a body that builds - and then makes
    niche options and spread aggregates owned, and lends the root of a scalar traversal. *)
Theorem borrow_signature_greatest db sigs scheme def entry :
  exists sig, borrow_signature db sigs scheme def entry = Some sig /\ length sig = length (fn_params entry) /\
    (0 < evidence_of scheme -> sig = replicate (length (fn_params entry)) false) /\
    (evidence_of scheme = 0 -> fn_params entry ≠ [] -> exists r,
       sig = convert db scheme def entry r /\ consistent sigs def (fn_params entry) (fn_body entry) r /\
       forall c, consistent sigs def (fn_params entry) (fn_body entry) c -> le_sig c r).
Proof.
  destruct (signature_returns db scheme def entry sigs) as (sig & Hs & Hl). exists sig. split; [done|]. split; [done|].
  revert Hs. unfold borrow_signature.
  destruct (Nat.eqb_spec (length (fn_params entry)) 0) as [E|_].
  { intros [= <-]. split; [by rewrite E|]. intros _ Hne. by apply nil_length_inv in E. }
  destruct (Nat.ltb_spec 0 (evidence_of scheme)); [intros [= <-]; split; [done|lia]|].
  destruct (infer_greatest sigs def (fn_params entry) (fn_body entry)) as (r & -> & Hr). intros [= <-].
  split; [lia|]. by exists r.
Qed.

(** C17: The signatures of a cluster of definitions that call each other do not depend on the
    order in which an iteration infers them: after as many iterations as the cluster has
    parameters, and one, they are the greatest that inference leaves alone.  The cluster has
    fewer than a hundred parameters: then the bound at which [borrow_recover] gives up, and
    makes everything owned, is not reached. *)
Theorem cluster_signatures_unique db outside members (Hsame : same_params members) (Hparams : all_params members < BORROW_FIXPOINT_BOUND) :
  exists sigs, covers members sigs /\ settled db outside members sigs /\
    (forall t, covers members t -> settled db outside members t -> le_sigs (t !!.) (sigs !!.)) /\
    forall orders : list (list DefId), Forall (fun order => forall d, is_Some (members !! d) -> d ∈ order) orders ->
      all_params members < length orders <= BORROW_FIXPOINT_BOUND -> cluster_signatures db outside members orders = sigs.
Proof.
  set (good (orders : list (list DefId)) := Forall (fun order => forall d, is_Some (members !! d) -> d ∈ order) orders /\
    all_params members < length orders <= BORROW_FIXPOINT_BOUND).
  assert (forall orders, good orders -> covers members (cluster_signatures db outside members orders) /\
    settled db outside members (cluster_signatures db outside members orders) /\
    forall t, covers members t -> settled db outside members t -> le_sigs (t !!.) (cluster_signatures db outside members orders !!.)) as H.
  { intros orders [Ho Hn]. destruct (iterate_settles db outside members orders 0 _ (initial_covers members Hsame)
      (initial_shrinking db outside members Hsame) Ho) as (H1 & H2 & H3); [apply Hn|apply Hn|].
    split; [done|]. split; [done|]. intros t Ht1 Ht2. apply H3; [done|done|by apply top_below]. }
  set (orders0 := replicate (S (all_params members)) (elements (dom members))).
  assert (good orders0) as H0.
  { split; [|unfold orders0; rewrite length_replicate; lia]. apply Forall_replicate. intros d Hd. by apply elem_of_elements, elem_of_dom. }
  exists (cluster_signatures db outside members orders0). destruct (H orders0 H0) as (H1 & H2 & H3). split; [done|]. split; [done|].
  split; [done|]. intros orders Ho Hn. destruct (H orders (conj Ho Hn)) as (G1 & G2 & G3). apply le_sigs_antisymm; auto.
Qed.

(** ** A walk that lends *)

Module Walk.
Definition int : Ty := Ty_Con Con_Int.
Definition walk : DefId := MkDefId 0 "walk".
Definition look : DefId := MkDefId 0 "look".
Definition loc (x : LocalId) (ty : Ty) : CExpr := CE (K_Local x) ty.
Definition lit (n : Z) : CExpr := CE (K_Lit (Lit_Int n)) int.
Definition prim (op : Prim) (a b : CExpr) : CExpr := CE (K_Prim op [a; b]) int.
Definition call (d : DefId) (args : list CExpr) : CExpr := CE (K_App (CE (K_Global d) int) args [] Alloc_Heap) int.
(** [walk xs n = if n <= 0 then look xs else walk xs (n - 1)], where [look] is lent [xs]. *)
Definition body : CExpr :=
  CE (K_If (prim P_IntLe (loc 1 int) (lit 0)) (call look [loc 0 (ty_list int)])
    (call walk [loc 0 (ty_list int); prim P_IntSub (loc 1 int) (lit 1)])) int.
Definition entry : CoreFn := MkCoreFn [0; 1] [] body.
Definition sigs (d : DefId) : option (list bool) :=
  if decide (d = walk) then Some [true; false] else if decide (d = look) then Some [true] else None.
Definition db : Niche.Db := MkDb (fun _ => None) (Some 0).
(** Two definitions that pass their first parameter to each other, and change the second. *)
Definition turn (other : DefId) : CoreFn :=
  MkCoreFn [0; 1] [] (CE (K_If (prim P_IntLe (loc 1 int) (lit 0)) (call look [loc 0 (ty_list int)])
    (call other [loc 0 (ty_list int); prim P_IntSub (loc 1 int) (lit 1)])) int).
Definition ping : DefId := MkDefId 0 "ping".
Definition pong : DefId := MkDefId 0 "pong".
Definition members : gmap DefId Member := {[ ping := MkMember None (turn pong) (turn pong); pong := MkMember None (turn ping) (turn ping) ]}.
End Walk.
Import Walk.


Lemma walk_same : same_params members.
Proof.
  intros d m Hm. unfold members in Hm. apply lookup_insert_Some in Hm as [[_ <-]|[_ Hm]]; [done|].
  by apply lookup_singleton_Some in Hm as [_ <-].
Qed.
Lemma all_members (order : list DefId) : ping ∈ order -> pong ∈ order -> forall d, is_Some (members !! d) -> d ∈ order.
Proof.
  intros H1 H2 d [m Hm]. unfold members in Hm. apply lookup_insert_Some in Hm as [[<- _]|[_ Hm]]; [done|].
  by apply lookup_singleton_Some in Hm as [<- _].
Qed.
Lemma cluster_signatures_unique_witness :
  exists s, settled db sigs members s /\ cluster_signatures db sigs members (replicate 5 [ping; pong]) = s /\
    cluster_signatures db sigs members (replicate 5 [pong; ping]) = s /\ s !! ping = Some [true; false].
Proof.
  destruct (cluster_signatures_unique db sigs members walk_same) as (s & _ & Hs & _ & Ho); [by apply Nat.ltb_lt; vm_compute|].
  assert (forall order : list DefId, ping ∈ order -> pong ∈ order -> cluster_signatures db sigs members (replicate 5 order) = s) as H.
  { intros order H1 H2. apply Ho; [|split; [by apply Nat.ltb_lt; vm_compute|by apply Nat.leb_le; vm_compute]].
    apply Forall_replicate. by apply all_members. }
  exists s. split; [done|]. split; [apply H; set_solver|]. split; [apply H; set_solver|].
  rewrite <- (H [ping; pong]) by set_solver. by vm_compute.
Defined.
