(* ===== verification/BorrowTail.v ===== *)
(** * Calls at the tail stay there

    A definition that calls itself at its tail is to become a loop.  A parameter that is lent
    would be in the way if its argument had to be released after the call: the inference of
    borrow.rs owns the parameters whose arguments change there, so that the counted body
    still has the calls at its tail. *)

From S2P Require Import Prelude Types Ir Niche Verify Rc ReuseCandidates ReuseSizes Reuse RcState ReuseSound RcFlat Anf RcOwned Insert Trmc TrmcLaws Borrow.
From stdpp Require Import gmap list strings.
From Stdlib Require Import ZArith Lia.

Lemma any_children p e : any p e = p e || existsb (any p) (e_children e).
Proof. destruct e as [[] t]; simpl; by rewrite ?orb_false_r, ?orb_assoc. Qed.

(** ** Calls at the tail *)

Section TailCalls.
Context (self_def : DefId) (arity : nat).

(** The calls of the definition itself at the tail, with arguments [ok] accepts: what
    [has_plain_tail] looks for. *)
Fixpoint tail_calls (ok : list CExpr -> bool) (e : CExpr) : nat :=
  match e with
  | CE kind _ =>
      match kind with
      | K_If _ thn els => tail_calls ok thn + tail_calls ok els
      | K_Let _ _ body | K_LetMany _ _ body | K_Reset _ _ body | K_FreeReuse _ body
      | K_Dup _ body | K_Drop _ body => tail_calls ok body
      | _ => match self_call_args e self_def arity with Some args => one_if (ok args) | None => 0 end
      end
  end.
Definition any_args (_ : list CExpr) : bool := true.

Lemma has_plain_tail_calls e : has_plain_tail self_def arity e = (0 <? tail_calls any_args e).
Proof.
  induction e as [[k t] IH] using CExpr_children_ind. destruct k; child_hyps IH; cbn [has_plain_tail tail_calls]; try done;
    try (unfold Trmc.is_self_call; by destruct (self_call_args _ _ _)).
  rewrite IH1, IH2. by destruct (tail_calls any_args thn), (tail_calls any_args els).
Qed.
End TailCalls.

(** Where the signature lends, the argument is a slot fit for its position. *)
Section Lends.
Context (fit : nat -> LocalId -> bool) (sig : list bool).
Fixpoint lends_from (i : nat) (args : list CExpr) : bool :=
  match args with
  | [] => true
  | a :: args => (negb (nth_flag sig i) || match local_of a with Some x => fit i x | None => false end) && lends_from (S i) args
  end.
Definition lends (args : list CExpr) : bool := lends_from 0 args.
End Lends.
(** Slots of a set; the parameter of the position. *)
Definition among (C : gset LocalId) (_ : nat) (x : LocalId) : bool := bool_decide (x ∈ C).
Definition the_param (params : list LocalId) (i : nat) (x : LocalId) : bool := bool_decide (params !! i = Some x).

Lemma lends_mono fit fit' sig sig' args :
  (forall i x, nth_flag sig' i = true -> nth_flag sig i = true /\ (fit i x = true -> fit' i x = true)) ->
  lends fit sig args = true -> lends fit' sig' args = true.
Proof.
  intros H. unfold lends. generalize 0. induction args as [|a args IH]; intros i; [done|]. simpl. intros [Ha Hs]%andb_true_iff.
  rewrite IH, andb_true_r by done. destruct (nth_flag sig' i) eqn:E; [simpl|done]. destruct (local_of a) as [x|].
  - destruct (H i x E) as [Hi Hx]. rewrite Hi in Ha. auto.
  - destruct (H i 0 E) as [Hi _]. by rewrite Hi in Ha.
Qed.

(** ** What the analysis leaves lent *)

(** A slot that is another name for one. *)
Definition is_alias (e : CExpr) : bool :=
  match ce_kind e with K_Let _ value _ => match ce_kind value with K_Local _ => true | _ => false end | _ => false end.
Definition alias_free (e : CExpr) : bool := negb (any is_alias e).

(** What stems from a parameter is the parameter or a field. *)
Definition tracked (az : Analyzer) : Prop := forall x p, az_origins az !! x = Some p -> x = p \/ x ∈ az_field az.
Definition tracks (m : SM Analyzer unit) : Prop := forall az az1, m az = Some (tt, az1) -> tracked az ->
  tracked az1 /\ az_owned az ⊆ az_owned az1.

Lemma tracks_ret : tracks (mret tt).
Proof. by intros az az1 [= <-]. Qed.
Lemma tracks_bind m (k : unit -> SM Analyzer unit) : tracks m -> tracks (k tt) -> tracks (m ≫= k).
Proof.
  intros Hm Hk az az1 E Ht. unfold mbind, sm_bind in E. destruct (m az) as [[[] az2]|] eqn:Em; [|done].
  destruct (Hm _ _ Em Ht) as [Ht2 Ho2]. destruct (Hk _ _ E Ht2) as [Ht1 Ho1]. split; [done|]. by etransitivity.
Qed.
Lemma tracks_args {A} (f : nat -> A -> SM Analyzer unit) args i : Forall (fun a => forall i, tracks (f i a)) args ->
  tracks (for_args f i args).
Proof. intros H. revert i. induction H as [|a args Ha _ IH]; intros i; [apply tracks_ret|]. by apply tracks_bind. Qed.
Lemma tracks_own p : tracks (update (fun az => own (p az) az)).
Proof. intros az az1 [= <-] Ht. destruct (p az); split; try done. simpl. set_solver. Qed.
Lemma tracks_inspect e : tracks (inspect e).
Proof. intros az az1 [= <-] Ht. destruct (is_field az e); simpl; [done|]. by eapply (tracks_own (fun az => origin az e)). Qed.
Lemma tracks_record e : tracks (record_match e).
Proof. intros az az1 [= <-] Ht. by destruct (origin az e). Qed.
Lemma tracks_project x base : tracks (update (project x base)).
Proof.
  intros az az1 [= <-] Ht. split; [|done]. intros y p. simpl. destruct (origin az base) as [o|].
  - destruct (decide (x = y)) as [<-|Hy]; [set_solver|]. rewrite lookup_insert_ne by done. intros [->|Hf]%Ht; set_solver.
  - intros [->|Hf]%Ht; set_solver.
Qed.
Lemma tracks_reconstructs : tracks (update with_reconstructs).
Proof. by intros az az1 [= <-]. Qed.

Section Tracks.
Context (self_def : DefId) (sig : list bool) (params : list LocalId) (sigs : DefId -> option (list bool)).
Context (Hlen : length sig = length params).
Abbreviation scan := (scan self_def sig params sigs).

Lemma tracks_call_arg t b i a : tracks (call_arg params t b i a).
Proof.
  intros az az1. unfold call_arg. intros E. revert az az1 E. set (changes := fun az => t && negb (unchanged params az i a)).
  intros az az1 E. fold (changes az) in E. revert E. generalize (changes az). intros c E.
  assert (tracks (_ ← (if c then match params !! i with Some p => update (own (Some p)) | None => panic end else mret tt);
     if c || negb (nth_flag b i) then consume a else mret tt)) as H; [|by apply H].
  apply tracks_bind.
  - destruct c; [|apply tracks_ret]. destruct (params !! i) as [p|]; [apply (tracks_own (fun _ => Some p))|done].
  - destruct (_ || _); [apply (tracks_own (fun az => origin az a))|apply tracks_ret].
Qed.
Lemma tracks_scan_value f value x : (forall tl, tracks (f value tl)) ->
  Forall (fun c => forall tl, tracks (f c tl)) (e_children value) ->
  match ce_kind value with K_Local _ => False | _ => True end -> tracks (scan_value f value x).
Proof.
  intros Hv Hb Ha. rewrite Forall_forall in Hb. destruct value as [k t]. destruct k; try apply Hv; [done| |].
  - apply tracks_bind; [apply tracks_record|]. apply Hb. by left.
  - apply tracks_bind; [apply tracks_project|]. apply tracks_bind; [apply tracks_record|]. apply Hb. by left.
Qed.

Lemma tracks_scan e : any is_alias e = false ->
  (forall tl, tracks (scan e tl)) /\ Forall (fun c => forall tl, tracks (scan c tl)) (e_children e).
Proof.
  induction e as [[k t] IH] using CExpr_children_ind. intros Ha. rewrite any_children in Ha. apply orb_false_iff in Ha as [Hk Ha].
  assert (Forall (fun c => (forall tl, tracks (scan c tl)) /\ Forall (fun c => forall tl, tracks (scan c tl)) (e_children c)) (e_children (CE k t))) as IH'.
  { clear Hk. induction IH as [|c cs Hc _ IHc]; [constructor|]. simpl in Ha. apply orb_false_iff in Ha as [H1 H2]. constructor; auto. }
  clear IH Ha. split; [|by eapply Forall_impl; [exact IH'|intros c [Hc _]]]. intros tl. rename IH' into IH.
  assert (Hall : forall es (g : CExpr -> SM Analyzer unit), (forall e, tracks (g e)) ->
    Forall (fun c => (forall tl, tracks (scan c tl)) /\ Forall (fun c => forall tl, tracks (scan c tl)) (e_children c)) es ->
    tracks (for_args (fun _ a => _ ← scan a false; g a) 0 es)).
  { intros es g Hg Hes. apply tracks_args. eapply Forall_impl; [exact Hes|]. intros c [Hc _] i. by apply tracks_bind. }
  assert (Hconsume : forall e, tracks (consume e)) by (intros e; apply (tracks_own (fun az => origin az e))).
  destruct k; child_hyps IH; cbn [Borrow.scan]; try apply tracks_ret; try (by destruct tl; [apply Hconsume|apply tracks_ret]).
  - apply tracks_bind; [|apply tracks_bind].
    + destruct args; [apply tracks_ret|]. destruct (matches_array op); [apply tracks_record|apply tracks_ret].
    + destruct (builds_array op); [apply tracks_reconstructs|apply tracks_ret].
    + apply tracks_args. eapply Forall_impl; [exact IH|]. intros c [Hc _] i. apply tracks_bind; [done|].
      destruct (negb _); [apply tracks_inspect|apply tracks_ret].
  - apply Hall; [apply tracks_inspect|done].
  - apply tracks_bind; [apply IH0|]. apply tracks_bind; [apply Hconsume|].
    apply tracks_args. eapply Forall_impl; [exact IH|]. intros c [Hc _] i. apply tracks_bind; [done|apply tracks_call_arg].
  - apply tracks_bind; [apply IH0|]. apply tracks_bind; [apply IH1|apply IH2].
  - apply tracks_bind; [|apply IH1]. apply tracks_scan_value; [apply IH0|apply IH0|].
    unfold is_alias in Hk. simpl in Hk. by destruct (ce_kind value).
  - by apply Hall.
  - apply tracks_bind; [apply IH0|apply IH1].
  - apply tracks_args, Forall_true. intros c i. apply (tracks_own (fun az => az_origins az !! c)).
  - apply tracks_bind; [|by apply Hall]. destruct (_ && _); [apply tracks_reconstructs|apply tracks_ret].
  - apply tracks_bind; [apply tracks_record|apply IH0].
  - apply tracks_bind; [apply tracks_record|apply IH0].
Qed.

(** No parameter that is lent has been owned. *)
Definition keeps (az : Analyzer) : Prop := forall i p, params !! i = Some p -> nth_flag sig i = true -> p ∉ az_owned az.

Lemma sm_bind_some {A B} (m : SM Analyzer A) (k : A -> SM Analyzer B) az b az1 : (m ≫= k) az = Some (b, az1) ->
  exists a az2, m az = Some (a, az2) /\ k a az2 = Some (b, az1).
Proof. unfold mbind, sm_bind. destruct (m az) as [[a az2]|]; [|done]. eauto. Qed.

(** An argument of a call at the tail. *)
Lemma tail_arg b i a az az1 : tracked az -> call_arg params true b i a az = Some (tt, az1) -> keeps az1 ->
  negb (nth_flag sig i) || match local_of a with Some x => the_param params i x | None => false end = true.
Proof.
  intros Ht E Hk. destruct (nth_flag sig i) eqn:Hi; [simpl|done].
  assert (i < length params) as Hlt by (rewrite <- Hlen; unfold nth_flag in Hi; destruct (sig !! i) eqn:Ei; [by eapply lookup_lt_Some|done]).
  destruct (lookup_lt_is_Some_2 _ _ Hlt) as [p Hp]. unfold call_arg in E. rewrite Hp in E.
  destruct (unchanged params az i a) eqn:Hu; simpl in E.
  - unfold unchanged in Hu. rewrite Hp in Hu. apply andb_true_iff in Hu as [Ho%bool_decide_eq_true Hf%negb_true_iff].
    destruct a as [k t]. destruct k; try done. simpl in *. apply bool_decide_eq_false in Hf.
    destruct (Ht _ _ Ho) as [->|]; [|done]. by apply bool_decide_eq_true.
  - exfalso. apply (Hk i p Hp Hi). injection E as <-. destruct (origin _ a); simpl; set_solver.
Qed.
Lemma tail_args b args : Forall (fun c => forall tl, tracks (scan c tl)) args -> forall i az az1,
  for_args (fun i a => _ ← scan a false; call_arg params true b i a) i args az = Some (tt, az1) -> tracked az -> keeps az1 ->
  lends_from (the_param params) sig i args = true.
Proof.
  induction 1 as [|a args Ha Hargs IH]; intros i az az1 E Ht Hk; [done|]. cbn [for_args] in E.
  apply sm_bind_some in E as ([] & az2 & E1 & E2). pose proof E1 as E1'. apply sm_bind_some in E1 as ([] & az3 & E3 & E4).
  destruct (Ha false _ _ E3 Ht) as [Ht3 _]. destruct (tracks_call_arg _ _ _ _ _ _ E4 Ht3) as [Ht2 _].
  assert (az_owned az2 ⊆ az_owned az1) as Ho.
  { eapply tracks_args; [|exact E2|exact Ht2]. eapply Forall_impl; [exact Hargs|]. intros c Hc j.
    apply tracks_bind; [apply Hc|apply tracks_call_arg]. }
  simpl. rewrite (tail_arg b i a az3 az2 Ht3 E4) by (intros j p Hp Hj Hin; by eapply Hk, Ho). simpl. by eapply IH.
Qed.

Lemma keeps_before az az1 : az_owned az ⊆ az_owned az1 -> keeps az1 -> keeps az.
Proof. intros Ho Hk i p Hp Hi Hin. by eapply Hk, Ho. Qed.

Lemma scan_tails e : source_form e = true -> any is_alias e = false -> forall az az1, scan e true az = Some (tt, az1) -> tracked az -> keeps az1 ->
  tail_calls self_def (length params) (lends (the_param params) sig) e = tail_calls self_def (length params) any_args e.
Proof.
  induction e as [[k t] IH] using CExpr_children_ind. intros Hs Ha az az1 E Ht Hk. destruct (tracks_scan _ Ha) as [_ Htr].
  rewrite any_children in Ha. apply orb_false_iff in Ha as [Hal Ha].
  destruct k; child_hyps IH; child_hyps Htr; simpl in Ha, Hs; cbn [tail_calls]; try done; cbn [Borrow.scan] in E.
  - unfold self_call_args. simpl. destruct reuse; [|done]. destruct func as [fk ft]. simpl. destruct fk; try done.
    destruct (bool_decide_reflect (def = self_def)) as [->|]; [|done]. destruct (Nat.eqb_spec (length args) (length params)) as [Hn|]; [|done].
    simpl. unfold lends. apply sm_bind_some in E as ([] & az2 & [= <-] & E). apply sm_bind_some in E as ([] & az3 & [= <-] & E).
    unfold Borrow.is_self_call in E. simpl in E. rewrite bool_decide_eq_true_2, Hlen, Hn, Nat.eqb_refl in E by done.
    by rewrite (tail_args _ _ Htr _ _ _ E Ht Hk).
  - apply sm_bind_some in E as ([] & az2 & E1 & E). apply sm_bind_some in E as ([] & az3 & E2 & E3).
    apply orb_false_iff in Ha as [_ [Ha1 [Ha2 _]%orb_false_iff]%orb_false_iff].
    destruct (Htr0 false _ _ E1 Ht) as [Ht2 _]. destruct (Htr1 true _ _ E2 Ht2) as [Ht3 Ho3]. destruct (Htr2 true _ _ E3 Ht3) as [Ht1 Ho1].
    apply andb_true_iff in Hs as [[_ Hs1]%andb_true_iff Hs2].
    rewrite (IH1 Hs1 Ha1 az2 az3), (IH2 Hs2 Ha2 az3 az1); [done|done|done|done|done|done|by eapply keeps_before].
  - apply sm_bind_some in E as ([] & az2 & E1 & E). apply orb_false_iff in Ha as [Hv [Hb _]%orb_false_iff].
    apply andb_true_iff in Hs as [_ Hs]. destruct (tracks_scan value Hv) as [Hv1 Hv2]. apply (IH1 Hs Hb az2 az1); [done| |done].
    eapply (tracks_scan_value _ value local Hv1 Hv2); [|exact E1|done]. unfold is_alias in Hal. simpl in Hal. by destruct (ce_kind value).
  - apply sm_bind_some in E as ([] & az2 & E1 & E). apply orb_false_iff in Ha as [Hv [Hb _]%orb_false_iff].
    apply andb_true_iff in Hs as [_ Hs]. apply (IH1 Hs Hb az2 az1); [done| |done]. by eapply Htr0.
Qed.

(** A consistent signature leaves the calls at the tail with the parameters they are lent. *)
Lemma consistent_tails body : source_form body = true -> any is_alias body = false -> consistent sigs self_def params body sig ->
  tail_calls self_def (length params) (lends (the_param params) sig) body = tail_calls self_def (length params) any_args body.
Proof.
  intros Hs Ha (_ & a & E & Hf). unfold analyze in E. set (az := MkAnalyzer _ _ _ _ _) in E.
  destruct (scan body true az) as [[[] az1]|] eqn:Es; [|done]. injection E as <-.
  apply (scan_tails body Hs Ha az az1 Es).
  - intros x p Hx. left. apply elem_of_list_to_map_2 in Hx. by apply list_elem_of_fmap in Hx as (q & [= <- <-] & _).
  - intros i p Hp Hi Hin. unfold nth_flag in Hi. destruct (sig !! i) as [b|] eqn:Eb; [|done].
    pose proof (Forall2_lookup_lr _ _ _ _ _ _ Hf Eb Hp Hi) as Hd. unfold demoted in Hd. simpl in Hd.
    by rewrite bool_decide_eq_true_2 in Hd.
Qed.
End Tracks.

(** ** What the passes leave at the tail *)

Section Passes.
Context (self_def : DefId) (arity : nat) (C : gset LocalId) (cb : DefId -> nat -> list bool).
Abbreviation lent_calls := (tail_calls self_def arity (lends (among C) (cb self_def arity))).
Abbreviation calls := (tail_calls self_def arity any_args).

Lemma tail_calls_wrap ok bs e : tail_calls self_def arity ok (wrap_binds bs e) = tail_calls self_def arity ok e.
Proof. by induction bs. Qed.
Lemma tail_calls_dups ok xs e : tail_calls self_def arity ok (foldr dup_ e xs) = tail_calls self_def arity ok e.
Proof. by induction xs. Qed.
Lemma tail_calls_dropify ok xs e : tail_calls self_def arity ok (dropify xs e) = tail_calls self_def arity ok e.
Proof. unfold dropify. by induction (sort_dedup xs). Qed.
Lemma tail_calls_drop_unused used ps e ok : tail_calls self_def arity ok (drop_unused_params used C ps e) = tail_calls self_def arity ok e.
Proof. unfold drop_unused_params. induction ps as [|p ps IH]; [done|]. simpl. by destruct (_ && _). Qed.

(** *** Reuse *)

Lemma threads_calls t e e' : threads t e e' -> calls e' = calls e.
Proof. induction 1; simpl; congruence. Qed.
Lemma releases_calls x n e n' e' : releases x n e n' e' -> calls e' = calls e.
Proof. induction 1; simpl; try congruence. by eapply threads_calls. Qed.
Lemma passes_calls n e n' e' : passes n e n' e' -> calls e' = calls e.
Proof. induction 1; simpl; try congruence. by erewrite releases_calls. Qed.
Lemma reuse_step_calls db off owners e n e' n' : flat e = true -> reuse_step db off owners e n = Some (e', n') -> calls e' = calls e.
Proof.
  intros Hf. unfold reuse_step. destruct off; [by intros [= <- <-]|].
  set (data := with_sizes _ _). intros E. destruct (pass_refines data e Hf n) as (e2 & n2 & E2 & P). rewrite E2 in E. injection E as <- <-.
  by eapply passes_calls.
Qed.

(** *** Counts *)

Lemma lent_pre_bind sig ops : forall i n, lends_from (among C) sig i ops = true -> pre_bind sig i ops n = Some ((ops, []), n).
Proof.
  induction ops as [|a ops IH]; intros i n H; [done|]. simpl in *. apply andb_true_iff in H as [Ha H].
  unfold mbind, sm_bind. destruct (nth_flag sig i); simpl in Ha; [destruct (local_of a); [|done]|]; by rewrite (IH (S i)).
Qed.
Lemma lent_dead sig live consumed ops : forall i dead, lends_from (among C) sig i ops = true -> dead_from C sig live consumed i ops dead = dead.
Proof.
  induction ops as [|a ops IH]; intros i dead H; [done|]. simpl in *. apply andb_true_iff in H as [Ha H].
  rewrite IH by done. destruct (nth_flag sig i); [|done]. simpl in Ha. destruct (local_of a) as [x|]; [|done].
  unfold is_capture. unfold among in Ha. by rewrite Ha.
Qed.
Lemma lends_func sig func args : lends (among C) sig args = true -> lends_from (among C) (false :: sig) 0 (func :: args) = true.
Proof.
  assert (forall i, lends_from (among C) sig i args = true -> lends_from (among C) (false :: sig) (S i) args = true) as H; [|apply (H 0)].
  induction args as [|a args IH]; intros i; [done|]. simpl. intros [Ha H]%andb_true_iff.
  rewrite (IH _ H), andb_true_r. exact Ha.
Qed.

Lemma owned_calls e : anf_form e = true -> forall live n e' n', owned C cb e live n = Some (e', n') -> lent_calls e <= calls e'.
Proof.
  induction e as [[k t] IH] using CExpr_children_ind. intros Hf live n e' n' E.
  destruct k; child_hyps IH; cbn [tail_calls]; try (unfold self_call_args; simpl; lia); simpl in Hf; try done; cbn [owned] in E.
  - unfold self_call_args. simpl. destruct reuse; [|lia]. destruct func as [fk ft]. simpl in *. destruct fk; try lia.
    destruct (bool_decide_reflect (def = self_def)) as [->|]; [|simpl; lia].
    destruct (Nat.eqb_spec (length args) arity) as [Hn|]; [|simpl; lia]. simpl.
    destruct (lends (among C) _ args) eqn:Hl; [|simpl; lia]. unfold operands_rc, mbind, sm_bind in E. rewrite Hn in E.
    rewrite (lent_pre_bind _ _ _ _ (lends_func _ _ _ Hl)) in E. cbv beta iota zeta in E.
    rewrite (lent_dead _ _ _ _ _ _ (lends_func _ _ _ Hl)) in E. injection E as <- <-. simpl wrap_binds. rewrite tail_calls_dups.
    cbn [tail_calls]. unfold self_call_args. simpl. by rewrite bool_decide_eq_true_2, Hn, Nat.eqb_refl.
  - apply andb_true_iff in Hf as [[_ H1]%andb_true_iff H2]. unfold conditional in E. unfold mbind, sm_bind in E.
    destruct (owned _ _ thn _ _) as [[thn' n1]|] eqn:E1; [|done]. destruct (owned _ _ els _ _) as [[els' n2]|] eqn:E2; [|done].
    injection E as <- <-. specialize (IH1 H1 _ _ _ _ E1). specialize (IH2 H2 _ _ _ _ E2).
    match goal with |- _ <= calls (match ?o with _ => _ end) => destruct o end; simpl; rewrite !tail_calls_dropify; lia.
  - apply andb_true_iff in Hf as [_ H1]. unfold binding, mbind, sm_bind in E.
    destruct (owned _ _ body _ _) as [[body' n1]|] eqn:E1; [|done]. specialize (IH1 H1 _ _ _ _ E1).
    destruct (is_projection value).
    + injection E as <- <-. simpl. rewrite tail_calls_dropify. by destruct (_ && _).
    + destruct (owned _ _ value _ _) as [[value' n2]|]; [|done]. injection E as <- <-. simpl. by destruct (_ && _).
  - apply andb_true_iff in Hf as [_ H1]. unfold letmany, mbind, sm_bind in E.
    destruct (owned _ _ body _ _) as [[body' n1]|] eqn:E1; [|done]. specialize (IH1 H1 _ _ _ _ E1).
    destruct (multi_operands _ _) as [[args bs]|].
    + injection E as <- <-. rewrite tail_calls_dups. simpl. by rewrite !tail_calls_dropify.
    + destruct (owned _ _ value _ _) as [[value' n2]|]; [|done]. injection E as <- <-. simpl. by rewrite tail_calls_dropify.
Qed.

(** *** A-normal form *)

Lemma atomize_local x t op st a st' : (forall st, op (CE (K_Local x) t) st = Some (CE (K_Local x) t, st)) ->
  atomize op (CE (K_Local x) t) st = Some (a, st') -> a = CE (K_Local x) t.
Proof. intros H. unfold atomize, mbind, sm_bind. rewrite H. by intros [= <- _]. Qed.

Lemma anf_args fit sig args : forall i st args' st', smap (atomize anf_op) args st = Some (args', st') ->
  length args' = length args /\ (lends_from fit sig i args = true -> lends_from fit sig i args' = true).
Proof.
  induction args as [|a args IH]; intros i st args' st' E; [by injection E as <- _|]. simpl in E.
  unfold mbind, sm_bind in E. destruct (atomize anf_op a st) as [[a' st1]|] eqn:Ea; [|done].
  destruct (smap _ args st1) as [[as' st2]|] eqn:Es; [|done]. injection E as <- _.
  destruct (IH (S i) _ _ _ Es) as [Hl H]. split; [simpl; by rewrite Hl|]. simpl. intros [Ha Hs]%andb_true_iff.
  rewrite H, andb_true_r by done. destruct (nth_flag sig i); [simpl in *|done].
  destruct a as [k t]. destruct k; try done. by rewrite (atomize_local _ _ _ _ _ _ (fun _ => eq_refl) Ea).
Qed.

Lemma anf_with_calls ok e st e' st' : anf_with anf_op e st = Some (e', st') ->
  (forall st op st', anf_op e st = Some (op, st') -> tail_calls self_def arity ok e <= tail_calls self_def arity ok op) ->
  tail_calls self_def arity ok e <= tail_calls self_def arity ok e'.
Proof.
  intros E H. destruct st as [binds n]. unfold anf_with in E. destruct (anf_op e ([], n)) as [[r [inner n1]]|] eqn:Ea; [|done].
  injection E as <- _. rewrite tail_calls_wrap. by eapply H.
Qed.

Lemma anf_calls fit sig e : forall st op st', anf_op e st = Some (op, st') ->
  tail_calls self_def arity (lends fit sig) e <= tail_calls self_def arity (lends fit sig) op.
Proof.
  induction e as [[k t] IH] using CExpr_children_ind. intros st op st' E.
  destruct k; child_hyps IH; cbn [tail_calls]; try (unfold self_call_args; simpl; lia); cbn [anf_op] in E;
    unfold mbind, sm_bind in E.
  - unfold self_call_args. simpl. destruct reuse; [|lia]. destruct func as [fk ft]. simpl in *. destruct fk; try lia.
    destruct (bool_decide_reflect (def = self_def)) as [->|]; [|simpl; lia].
    destruct (Nat.eqb_spec (length args) arity) as [Hn|]; [|simpl; lia]. simpl.
    destruct (lends _ sig args) eqn:Hl; [|simpl; lia].
    change (atomize anf_op (CE (K_Global self_def) ft) st) with (Some (CE (K_Global self_def) ft, st)) in E. cbv beta iota in E.
    destruct (smap _ args st) as [[args' st2]|] eqn:Es; [|done]. injection E as <- _.
    destruct (anf_args fit sig args 0 _ _ _ Es) as [Hlen Hl']. cbn [tail_calls]. unfold self_call_args. simpl.
    rewrite bool_decide_eq_true_2, Hlen, Hn, Nat.eqb_refl by done. simpl. unfold lends in *. by rewrite Hl'.
  - destruct (atomize _ cond st) as [[cond' st1]|]; [|done]. destruct (anf_with _ thn _) as [[thn' st2]|] eqn:E1; [|done].
    destruct (anf_with _ els _) as [[els' st3]|] eqn:E2; [|done]. injection E as <- _. simpl.
    pose proof (anf_with_calls _ _ _ _ _ E1 IH1). pose proof (anf_with_calls _ _ _ _ _ E2 IH2). lia.
  - destruct (anf_op value st) as [[value' [bs n1]]|]; [|done]. simpl in E. by eapply IH1.
  - destruct (anf_with _ value st) as [[value' st1]|]; [|done]. destruct (anf_with _ body _) as [[body' st2]|] eqn:E1; [|done].
    injection E as <- _. simpl. by eapply anf_with_calls.
  - destruct (anf_with _ value st) as [[value' st1]|]; [|done]. destruct (anf_with _ body _) as [[body' st2]|] eqn:E1; [|done].
    injection E as <- _. simpl. by eapply anf_with_calls.
  - destruct (anf_with _ body _) as [[body' st2]|] eqn:E1; [|done]. injection E as <- _. simpl. by eapply anf_with_calls.
  - destruct (anf_with _ body _) as [[body' st2]|] eqn:E1; [|done]. injection E as <- _. simpl. by eapply anf_with_calls.
  - destruct (anf_with _ body _) as [[body' st2]|] eqn:E1; [|done]. injection E as <- _. simpl. by eapply anf_with_calls.
Qed.
End Passes.

Lemma tail_calls_mono self_def arity ok ok' e : (forall args, ok args = true -> ok' args = true) ->
  tail_calls self_def arity ok e <= tail_calls self_def arity ok' e.
Proof.
  intros H. assert (forall args, one_if (ok args) <= one_if (ok' args)) as H1.
  { intros args. destruct (ok args) eqn:E; [by rewrite (H _ E)|]. simpl. lia. }
  induction e as [[k t] IH] using CExpr_children_ind. destruct k; child_hyps IH; cbn [tail_calls]; try done;
    try (unfold self_call_args; simpl; lia).
  by destruct (self_call_args _ _ _).
Qed.

Lemma split_params_lent flag params : forall pos i p, params !! i = Some p -> flag (pos + i) = true ->
  p ∈ (split_params flag pos params).1.
Proof.
  induction params as [|q params IH]; intros pos i p Hp Hf; [done|]. simpl. destruct (split_params flag (S pos) params) as [l o] eqn:E.
  destruct i as [|i]; simpl in Hp.
  - injection Hp as ->. rewrite Nat.add_0_r in Hf. rewrite Hf. by left.
  - specialize (IH (S pos) i p Hp). rewrite E in IH. replace (pos + S i) with (S pos + i) in Hf by lia.
    destruct (flag pos); [right|]; by apply IH.
Qed.

(** ** The whole pipeline *)

Section Pipeline.
Context (db : Niche.Db) (sigs : DefId -> option (list bool)) (scheme : option Scheme) (def : DefId) (f : CoreFn) (sig : list bool).
Context (Hsig : borrow_signature db sigs scheme def f = Some sig) (Hplan : plan scheme def f = None).

Lemma own_words_below ty s i : nth_flag (own_words db ty s) i = true -> nth_flag s i = true.
Proof.
  revert ty i. induction s as [|b s IH]; intros ty i; [done|]. destruct ty; simpl; try done.
  destruct i as [|i]; [by unfold nth_flag; simpl; destruct (_ && _)|]. apply (IH ty2 i).
Qed.

(** What is lent at the tail stays with its parameter. *)
Lemma signature_tails : source_form (fn_body f) = true -> any is_alias (fn_body f) = false ->
  tail_calls def (length (fn_params f)) any_args (fn_body f) <=
  tail_calls def (length (fn_params f)) (lends (among (borrowed_slots (nth_flag sig) f)) sig) (fn_body f).
Proof.
  intros Hs Ha. destruct (signature_returns db scheme def f sigs) as (sig' & E & Hl). rewrite Hsig in E. injection E as <-.
  assert (forall i x, nth_flag sig i = true -> the_param (fn_params f) i x = true -> among (borrowed_slots (nth_flag sig) f) i x = true) as Hin.
  { intros i x Hi Hx%bool_decide_eq_true. apply bool_decide_eq_true. unfold borrowed_slots.
    apply elem_of_union_r, elem_of_list_to_set. by eapply (split_params_lent _ _ 0). }
  revert Hsig. unfold borrow_signature.
  assert (forall args, (forall i, nth_flag sig i = false) -> lends (among (borrowed_slots (nth_flag sig) f)) sig args = true) as Hnone.
  { intros args H. unfold lends. generalize 0. induction args as [|a args IH]; intros i; [done|]. simpl. by rewrite H, IH. }
  destruct (Nat.eqb_spec (length (fn_params f)) 0) as [E|_].
  { intros [= <-]. apply tail_calls_mono. intros args _. by apply Hnone. }
  destruct (0 <? _).
  { intros [= <-]. apply tail_calls_mono. intros args _. apply Hnone. intros i. unfold nth_flag.
    destruct (replicate _ _ !! i) eqn:E; [|done]. by apply lookup_replicate in E as [-> _]. }
  destruct (infer_greatest sigs def (fn_params f) (fn_body f)) as (r & -> & Hc & _). intros [= Ec].
  pose proof Hc as [Hlr _]. rewrite <- (consistent_tails def r (fn_params f) sigs Hlr (fn_body f) Hs Ha Hc).
  apply tail_calls_mono. intros args. apply lends_mono. intros i x Hi. split; [|by apply Hin].
  rewrite <- Ec in Hi. unfold convert in Hi. rewrite Hplan in Hi. destruct scheme; [by eapply own_words_below|done].
Qed.
End Pipeline.

(** C4: The calls a definition makes to itself at its tail are there still when its body has been
    brought into A-normal form, counted and its cells recycled, and its unused parameters
    dropped - so [flatten] finds them - when the parameters it lends are those borrow
    inference says.  No scan is planned of the definition, and none of its slots is a second
    name for another. *)
Theorem tail_calls_stay db sigs scheme def f env next sig
    (Hwf : fn_wf f = true) (Hfresh : Forall (fun x => x < next) (fn_params f ++ fn_captures f ++ binders (fn_body f)))
    (Hsig : borrow_signature db sigs scheme def f = Some sig) (Hdef : sigs def = Some sig)
    (Hplan : plan scheme def f = None) (Halias : alias_free (fn_body f) = true) :
  exists g next', count_fn (arg_borrows sigs) env (nth_flag sig) f next = Some (g, next') /\
  tail_calls def (length (fn_params f)) any_args (fn_body f) <= tail_calls def (length (fn_params f)) any_args (fn_body g) /\
  (has_plain_tail def (length (fn_params f)) (fn_body f) = true -> has_plain_tail def (length (fn_params f)) (fn_body g) = true).
Proof.
  destruct (count_fn_total (arg_borrows sigs) env (nth_flag sig) f next Hwf) as (g & next' & Hcount & _); [by rewrite <- Forall_forall|].
  exists g, next'. split; [done|].
  assert (forall n m, n <= m -> n <= m /\ ((0 <? n) = true -> (0 <? m) = true)) as Hle.
  { intros n m H. split; [done|]. intros Hn%Nat.ltb_lt. apply Nat.ltb_lt. lia. }
  rewrite !has_plain_tail_calls. apply Hle. clear Hle. rewrite Forall_forall in Hfresh. apply negb_true_iff in Halias. pose proof Hwf as Hsource.
  apply andb_true_iff in Hsource as [[Hsource _]%andb_true_iff _].
  destruct (signature_returns db scheme def f sigs) as (sig' & E & Hl). rewrite Hsig in E. injection E as <-.
  etransitivity; [by eapply signature_tails|]. destruct (Insert.wf_parts f next Hwf Hfresh) as (_ & _ & Hfit).
  destruct (anf_facts _ _ _ Hfit) as (body & n1 & Ea & _ & Hform & _).
  unfold count_fn, mbind, sm_bind in Hcount. rewrite Ea in Hcount.
  destruct (owned _ _ body ∅ n1) as [[b2 n2]|] eqn:Eo; [|done].
  destruct (owned_shape _ _ _ _ _ _ _ Hform Eo) as (Hflat & _).
  destruct (reuse_step _ _ _ b2 n2) as [[b3 n3]|] eqn:Er; [|done]. injection Hcount as <- _.
  simpl fn_body. rewrite tail_calls_drop_unused, (reuse_step_calls _ _ _ _ _ _ _ _ _ Hflat Er).
  assert (arg_borrows sigs def (length (fn_params f)) = sig) as Hcb.
  { unfold arg_borrows. rewrite Hdef, <- Hl. unfold exploitable_at. rewrite Nat.leb_refl. by destruct sig. }
  etransitivity; [|apply (owned_calls def (length (fn_params f)) _ (arg_borrows sigs) body Hform _ _ _ _ Eo)]. rewrite Hcb.
  unfold anf in Ea. destruct (anf_op _ _) as [[op [binds n1']]|] eqn:Eop; [|done]. injection Ea as <- _.
  rewrite tail_calls_wrap. by eapply anf_calls.
Qed.

Import Borrow.Walk.
Lemma tail_calls_stay_witness : exists g next',
  borrow_signature db sigs None walk entry = Some [true; false] /\
  count_fn (arg_borrows sigs) Example.env (nth_flag [true; false]) entry 2 = Some (g, next') /\
  tail_calls walk 2 any_args body <= tail_calls walk 2 any_args (fn_body g) /\
  (has_plain_tail walk 2 body = true -> has_plain_tail walk 2 (fn_body g) = true).
Proof.
  destruct (tail_calls_stay db sigs None walk entry Example.env 2 [true; false]) as (g & next' & H);
    [by vm_compute|by repeat constructor|by vm_compute..|].
  exists g, next'. split; [by vm_compute|exact H].
Defined.
