(* ===== verification/Reassoc.v ===== *)
(** * Reassociation of string concatenation

    fai-core's [reassoc.rs]: every tree of [++] is flattened to its operands, in order, and
    rebuilt leaning to the left.  [None] is the failed [expect] on a concatenation of nothing. *)

From S2P Require Import Prelude Types Ir Rc RcState Sem.
From stdpp Require Import gmap list strings.
From Stdlib Require Import ZArith Lia.

(** ** The pass *)

Section Children.
Context (f : CExpr -> option CExpr).

Fixpoint map_all (es : list CExpr) : option (list CExpr) :=
  match es with
  | [] => Some []
  | e :: es => e ← f e; es ← map_all es; Some (e :: es)
  end.

(** [map_children] *)
Definition map_children (e : CExpr) : option CExpr :=
  match e with
  | CE kind ty =>
      kind ←
        match kind with
        | K_Lit _ | K_Local _ | K_Global _ | K_MakeClosure _ _ _ | K_Error => Some kind
        | K_Prim op args => args ← map_all args; Some (K_Prim op args)
        | K_Foreign symbol args marshalled =>
            args ← map_all args; Some (K_Foreign symbol args marshalled)
        | K_App func args reuse alloc =>
            func ← f func; args ← map_all args; Some (K_App func args reuse alloc)
        | K_If cond thn els => cond ← f cond; thn ← f thn; els ← f els; Some (K_If cond thn els)
        | K_Let local value body => value ← f value; body ← f body; Some (K_Let local value body)
        | K_Spread components => components ← map_all components; Some (K_Spread components)
        | K_LetMany locals value body =>
            value ← f value; body ← f body; Some (K_LetMany locals value body)
        | K_MakeData tag args reuse scalars niche =>
            args ← map_all args; Some (K_MakeData tag args reuse scalars niche)
        | K_DataTag base niche => base ← f base; Some (K_DataTag base niche)
        | K_DataField base index scalar niche =>
            base ← f base; Some (K_DataField base index scalar niche)
        | K_Reset value token body => value ← f value; body ← f body; Some (K_Reset value token body)
        | K_FreeReuse token body => body ← f body; Some (K_FreeReuse token body)
        | K_Dup local body => body ← f body; Some (K_Dup local body)
        | K_Drop local body => body ← f body; Some (K_Drop local body)
        | K_Join params body => body ← f body; Some (K_Join params body)
        | K_Recur args => args ← map_all args; Some (K_Recur args)
        | K_HoleStart hole body => body ← f body; Some (K_HoleStart hole body)
        | K_HoleFill hole cell field => cell ← f cell; Some (K_HoleFill hole cell field)
        | K_HoleClose hole base => base ← f base; Some (K_HoleClose hole base)
        end;
      Some (CE kind ty)
  end.
End Children.

Section Leaves.
Context (f : CExpr -> option (list CExpr)).

(** The loop of [flatten_concat] over the operands of one node. *)
Fixpoint all_leaves (es : list CExpr) : option (list CExpr) :=
  match es with
  | [] => Some []
  | e :: es => xs ← f e; ys ← all_leaves es; Some (xs ++ ys)
  end.
End Leaves.

(** One rebuilt node, and the leaves folded to the left. *)
Definition concat_node (ty : Ty) (acc leaf : CExpr) : CExpr := CE (K_Prim P_StrConcat [acc; leaf]) ty.
Definition rebuild (ty : Ty) (leaves : list CExpr) : option CExpr :=
  match leaves with
  | [] => None
  | leaf :: leaves => Some (foldl (concat_node ty) leaf leaves)
  end.

(** [reassoc] of a tree from its leaves: a tree that heads no concatenation is its only one. *)
Definition reassoc_with (leaves_of : CExpr -> option (list CExpr)) (e : CExpr) : option CExpr :=
  leaves ← leaves_of e;
  match e with
  | CE (K_Prim P_StrConcat _) ty => rebuild ty leaves
  | _ => head leaves
  end.

(** [flatten_concat], whose leaves are themselves reassociated. *)
Fixpoint flatten_concat (e : CExpr) : option (list CExpr) :=
  match e with
  | CE (K_Prim P_StrConcat args) _ => all_leaves flatten_concat args
  | _ => e ← map_children (reassoc_with flatten_concat) e; Some [e]
  end.

(** [reassoc] *)
Definition reassoc (e : CExpr) : option CExpr := reassoc_with flatten_concat e.

(** [reassociate_concat] *)
Definition reassoc_fn (f : CoreFn) : option CoreFn :=
  body ← reassoc (fn_body f); Some (MkCoreFn (fn_params f) (fn_captures f) body).
Fixpoint reassoc_fns (fns : list CoreFn) : option (list CoreFn) :=
  match fns with
  | [] => Some []
  | f :: fns => f ← reassoc_fn f; fns ← reassoc_fns fns; Some (f :: fns)
  end.
Definition reassociate_concat (d : LoweredDef) : option LoweredDef :=
  fns ← reassoc_fns (ld_fns d);
  Some (MkLoweredDef (ld_def d) fns (entry_borrowed d) (reuse_entry d) (entry_spread_params d) (data_shapes d)).

(** ** Forms *)

Definition heads_concat (e : CExpr) : bool :=
  match ce_kind e with K_Prim P_StrConcat _ => true | _ => false end.

(** Every concatenation has two operands. *)
Inductive concat_binary : CExpr -> Prop :=
| Concat_binary e :
    (heads_concat e = true -> length (e_children e) = 2) -> Forall concat_binary (e_children e) -> concat_binary e.

(** Every concatenation has two operands, the second of which is no concatenation. *)
Inductive left_leaning : CExpr -> Prop :=
| Left_leaning e :
    (heads_concat e = true -> exists a b, e_children e = [a; b] /\ heads_concat b = false) ->
    Forall left_leaning (e_children e) -> left_leaning e.

(** A tree that heads no concatenation is rebuilt from its children. *)
Lemma reassoc_other e : heads_concat e = false -> reassoc e = map_children reassoc e.
Proof.
  intros He. unfold reassoc at 1, reassoc_with.
  assert (flatten_concat e = (e ← map_children reassoc e; Some [e])) as ->
    by (destruct e as [[] ty]; try done; by destruct op).
  assert (forall leaves : list CExpr, match e with CE (K_Prim P_StrConcat _) ty => rebuild ty leaves
    | _ => head leaves end = head leaves) as Hhead by (intros; destruct e as [[] ty]; try done; by destruct op).
  destruct (map_children reassoc e); [|done]. cbv beta iota delta [mbind option_bind]. by rewrite Hhead.
Qed.

Lemma flatten_other e : heads_concat e = false -> flatten_concat e = (e ← reassoc e; Some [e]).
Proof. intros He. rewrite reassoc_other by done. destruct e as [[] ty]; try done; by destruct op. Qed.

(** Two trees with the same shape at the root, whose children are related. *)
Section MapChildren.
Context (R : CExpr -> CExpr -> Prop) (f : CExpr -> option CExpr).

Lemma map_all_spec es :
  Forall (fun e => exists e', f e = Some e' /\ R e e') es -> exists es', map_all f es = Some es' /\ Forall2 R es es'.
Proof.
  induction 1 as [|e es (e' & He & HR) _ (es' & Hes & IH)]; [by exists []|].
  exists (e' :: es'). simpl. rewrite He, Hes. split; [done|by constructor].
Qed.

(** A rebuilt tree has the shape of its source and related children. *)
Lemma map_children_spec e :
  Forall (fun e => exists e', f e = Some e' /\ R e e') (e_children e) ->
  exists e', map_children f e = Some e' /\ heads_concat e' = heads_concat e /\ Forall2 R (e_children e) (e_children e').
Proof.
  intros Hc. destruct e as [kind ty].
  destruct kind; unfold e_children, heads_concat in *; simpl in Hc |- *;
    repeat match goal with
    | H : Forall _ (_ :: _) |- _ =>
        let e' := fresh "e'" in let Hf := fresh "Hf" in let HR := fresh "HR" in
        apply Forall_cons in H as [(e' & Hf & HR) H]; rewrite Hf
    | H : Forall _ [] |- _ => clear H
    | H : Forall _ _ |- _ =>
        let es' := fresh "es'" in let Hf := fresh "Hf" in let HR := fresh "HR" in
        apply map_all_spec in H as (es' & Hf & HR); rewrite Hf
    end;
    (eexists; split; [reflexivity|]; split; [done|]; simpl; repeat (constructor || done)).
Qed.
End MapChildren.

(** ** Meaning *)

Section Meaning.
Context {V W : Type} `{Interp V W} (cat : V -> V -> option V).

(** The run-time's concatenation: effect-free, undefined or associative on three values. *)
Class Concatenates : Prop := {
  concat_op ty a b w :
    i_op (O_Prim P_StrConcat) ty [a; b] w = match cat a b with Some v => Some (v, w) | None => None end;
  concat_assoc a b c : (x ← cat a b; cat x c) = (y ← cat b c; cat a y) }.
Context `{!Concatenates}.

Definition cat_more (acc : option V) (vs : list V) : option V := foldl (fun acc v => a ← acc; cat a v) acc vs.
Definition cat_all (vs : list V) : option V :=
  match vs with [] => None | v :: vs => cat_more (Some v) vs end.

Lemma cat_more_one acc v vs :
  (a ← acc; b ← cat_more (Some v) vs; cat a b) = cat_more acc (v :: vs).
Proof.
  induction vs as [|z vs IH] using rev_ind; [done|].
  unfold cat_more in *. rewrite (app_comm_cons vs), !foldl_snoc, <- IH.
  destruct acc as [a|]; [simpl|done]. destruct (foldl _ (Some v) vs) as [b|]; [simpl|done].
  by rewrite concat_assoc.
Qed.

Lemma cat_all_app xs ys :
  xs ≠ [] -> ys ≠ [] -> (a ← cat_all xs; b ← cat_all ys; cat a b) = cat_all (xs ++ ys).
Proof.
  destruct xs as [|x xs]; [done|]. destruct ys as [|y ys]; [done|]. intros _ _. unfold cat_all at 1 2.
  rewrite cat_more_one. unfold cat_all, cat_more. simpl. by rewrite foldl_app.
Qed.

Definition lift {A} (o : option A) : SM W A := fun w => match o with Some a => Some (a, w) | None => None end.

(** Two trees mean the same everywhere. *)
Definition same (e e' : CExpr) : Prop := forall rho w, sem e' rho w = sem e rho w.

Lemma same_smap es es' rho w :
  Forall2 same es es' -> smap (fun a => sem a rho) es' w = smap (fun a => sem a rho) es w.
Proof.
  intros Hes. revert w; induction Hes as [|e e' es es' He _ IH]; intros w; [done|]. simpl.
  apply sm_bind_ext; [apply He|]. intros a w'. by apply sm_bind_ext.
Qed.

(** The leaves of a tree mean the tree. *)
Definition means (e : CExpr) (leaves : list CExpr) : Prop :=
  forall rho w, sem e rho w = (vs ← smap (fun a => sem a rho) leaves; lift (cat_all vs)) w.

Lemma smap_length es rho w vs w' :
  smap (fun a => sem a rho) es w = Some (vs, w') -> length vs = length es.
Proof.
  revert w vs w'; induction es as [|e es IH]; intros w vs w'; simpl; [by intros [= <- _]|].
  unfold mbind, sm_bind, mret, sm_ret. destruct (sem e rho w) as [[v w1]|]; [|done].
  destruct (smap _ es w1) as [[vs1 w2]|] eqn:Hes; [|done]. intros [= <- _]. simpl. f_equal. by eapply IH.
Qed.

Lemma sem_concat_node ty l r rho w :
  sem (concat_node ty l r) rho w = (a ← sem l rho; b ← sem r rho; lift (cat a b)) w.
Proof.
  unfold concat_node. cbn [sem smap]. unfold mbind, sm_bind, mret, sm_ret.
  destruct (sem l rho w) as [[a w1]|]; [|done]. destruct (sem r rho w1) as [[b w2]|]; [|done].
  apply concat_op.
Qed.

Lemma means_concat ty l r xs ys :
  means l xs -> means r ys -> xs ≠ [] -> ys ≠ [] -> means (concat_node ty l r) (xs ++ ys).
Proof.
  intros Hl Hr Hx Hy rho w. rewrite sem_concat_node. unfold mbind, sm_bind. rewrite Hl, smap_app.
  unfold mbind, sm_bind, mret, sm_ret. destruct (smap _ xs w) as [[vs w1]|] eqn:Hxs; [|done].
  assert (vs ≠ []) as Hvs by (apply smap_length in Hxs; intros ->; by destruct xs).
  assert (forall w' vs' w'', smap (fun a => sem a rho) ys w' = Some (vs', w'') ->
    (a ← cat_all vs; b ← cat_all vs'; cat a b) = cat_all (vs ++ vs')) as Happ.
  { intros w' vs' w'' Hys. apply cat_all_app; [done|]. apply smap_length in Hys. intros ->. by destruct ys. }
  unfold lift at 1. destruct (cat_all vs) as [a|].
  - rewrite Hr. unfold mbind, sm_bind. destruct (smap _ ys w1) as [[vs' w2]|] eqn:Hys; [|done].
    unfold lift. rewrite <- (Happ _ _ _ Hys). simpl. by destruct (cat_all vs').
  - destruct (smap _ ys w1) as [[vs' w2]|] eqn:Hys; [|done]. unfold lift. by rewrite <- (Happ _ _ _ Hys).
Qed.

Lemma means_one e e' : same e e' -> means e [e'].
Proof.
  intros He rho w. cbn [smap]. unfold mbind, sm_bind, mret, sm_ret. rewrite He.
  by destruct (sem e rho w) as [[? ?]|].
Qed.

(** The leaves folded to the left mean the tree they came from. *)
Lemma means_rebuild e ty leaf leaves :
  means e (leaf :: leaves) -> same e (foldl (concat_node ty) leaf leaves).
Proof.
  intros He.
  assert (forall acc xs, means acc xs -> xs ≠ [] -> means (foldl (concat_node ty) acc leaves) (xs ++ leaves)) as Hall.
  { clear He. induction leaves as [|x leaves IH]; intros acc xs Hacc Hxs; simpl; [by rewrite app_nil_r|].
    replace (xs ++ x :: leaves) with ((xs ++ [x]) ++ leaves) by (by rewrite <- app_assoc).
    apply IH; [|by destruct xs].
    apply means_concat; [done|by apply means_one|done|done]. }
  intros rho w. rewrite (Hall leaf [leaf]) by (try apply means_one; done). symmetry. apply He.
Qed.

(** A tree rebuilt from children that mean the same, outside concatenations. *)
Lemma same_map_children f e e' :
  map_children f e = Some e' -> (forall c c', c ∈ e_children e -> f c = Some c' -> same c c') -> same e e'.
Proof.
  intros He Hf rho w.
  assert (forall es es' w, (forall c, c ∈ es -> c ∈ e_children e) -> map_all f es = Some es' ->
    smap (fun a => sem a rho) es' w = smap (fun a => sem a rho) es w) as Hall.
  { intros es es' w' Hin Hes. apply same_smap. revert es' Hes.
    induction es as [|c es IH]; intros es' Hes; simpl in Hes; [by injection Hes as <-|].
    destruct (f c) as [c'|] eqn:Hc; [|done]. destruct (map_all f es) as [es''|]; [|done].
    injection Hes as <-. constructor; [apply Hf; [apply Hin; left|done]|].
    apply IH; [intros x Hx; apply Hin; by right|done]. }
  destruct e as [kind ty]. destruct kind; unfold e_children in *; simpl in He, Hall, Hf;
    repeat match type of He with
    | context [f ?c] =>
        let Hc := fresh "Hc" in destruct (f c) eqn:Hc; [|done];
        apply Hf in Hc; [|rewrite ?elem_of_cons; auto]; simpl in He
    | context [map_all f ?es] => let Hc := fresh "Hc" in destruct (map_all f es) eqn:Hc; [|done]; simpl in He
    end; simplify_eq; simpl; try done;
    repeat first
      [ done
      | match goal with H : same ?c ?c' |- sem ?c' _ _ = sem ?c _ _ => apply H end
      | match goal with H : map_all f ?es = Some ?es' |- smap _ ?es' _ = smap _ ?es _ =>
          apply (Hall es es'); [intros ? ?; rewrite ?elem_of_cons; auto|done] end
      | apply sm_bind_ext; [|intros ? ?]
      | case_match ].
Qed.

(** What the pass makes of a tree. *)
Definition reassociated (e : CExpr) : Prop :=
  exists e', reassoc e = Some e' /\ same e e' /\ left_leaning e'.
Definition flattened (e : CExpr) : Prop :=
  exists leaf leaves, flatten_concat e = Some (leaf :: leaves) /\ means e (leaf :: leaves)
    /\ Forall (fun x => heads_concat x = false /\ left_leaning x) (leaf :: leaves).

Lemma left_leaning_rebuild ty leaf leaves :
  left_leaning leaf -> Forall (fun x => heads_concat x = false /\ left_leaning x) leaves ->
  left_leaning (foldl (concat_node ty) leaf leaves).
Proof.
  intros Hleaf Hleaves. revert leaf Hleaf; induction Hleaves as [|x xs [Hx Hl] _ IH]; intros leaf Hleaf; [done|].
  simpl. apply IH. constructor; [intros _; by exists leaf, x|]. by apply Forall_cons; split; [|apply Forall_cons; split].
Qed.

Lemma heads_concat_inv e :
  heads_concat e = true -> exists args ty, e = CE (K_Prim P_StrConcat args) ty.
Proof. destruct e as [[] ty]; try done. destruct op; try done. intros _. by eexists _, _. Qed.

(** A concatenation of flattened operands. *)
Lemma flattened_concat ty l r :
  flattened l -> flattened r -> flattened (concat_node ty l r) /\ reassociated (concat_node ty l r).
Proof.
  intros (x & xs & Hl & Hml & Hfl) (y & ys & Hr & Hmr & Hfr).
  pose proof (means_concat ty l r _ _ Hml Hmr) as Hm. simpl app in Hm.
  assert (flatten_concat (concat_node ty l r) = Some (x :: xs ++ y :: ys)) as Hflat.
  { simpl. rewrite Hl, Hr. simpl. by rewrite app_nil_r. }
  pose proof (Forall_app_2 _ _ _ Hfl Hfr) as Hf. split; [by exists x, (xs ++ y :: ys); auto|].
  exists (foldl (concat_node ty) x (xs ++ y :: ys)). split; [|split].
  - unfold reassoc, reassoc_with. by rewrite Hflat.
  - by apply means_rebuild, Hm.
  - apply Forall_cons in Hf as [[_ Hx] Hf]. by apply left_leaning_rebuild.
Qed.

(** Every tree of two-operand concatenations is flattened and reassociated. *)
Lemma reassoc_spec e : concat_binary e -> flattened e /\ reassociated e.
Proof.
  induction e as [e IH] using CExpr_children_ind. intros Hb. inversion Hb as [? Hargs Hchildren]; subst.
  destruct (heads_concat e) eqn:He.
  - destruct (heads_concat_inv e He) as (args & ty & ->). specialize (Hargs eq_refl).
    unfold e_children in *. simpl in IH, Hargs, Hchildren. destruct args as [|l [|r []]]; try done.
    apply Forall_cons in IH as [IHl IH]. apply Forall_cons in IH as [IHr _].
    apply Forall_cons in Hchildren as [Hl Hr]. apply Forall_cons in Hr as [Hr _].
    apply flattened_concat; [by apply IHl|by apply IHr].
  - assert (reassociated e) as (e' & Hr & Hsame & Hleft).
    { assert (Forall (fun c => exists c', reassoc c = Some c' /\ left_leaning c') (e_children e)) as Hc.
      { apply list.Forall_forall. intros c Hin. rewrite list.Forall_forall in IH, Hchildren.
        destruct (IH c Hin (Hchildren c Hin)) as [_ (c' & ? & _ & ?)]. eauto. }
      destruct (map_children_spec (fun _ => left_leaning) reassoc e Hc) as (e' & Hm & Hhead & Hc').
      exists e'. rewrite reassoc_other by done. split; [done|]. split.
      - apply (same_map_children _ _ _ Hm). intros c c' Hin Hcc.
        rewrite list.Forall_forall in IH, Hchildren.
        destruct (IH c Hin (Hchildren c Hin)) as [_ (c'' & Hc'' & ? & _)]. by simplify_eq.
      - constructor; [by rewrite Hhead, He|]. clear -Hc'. by induction Hc'; constructor. }
    split; [|by exists e'].
    assert (heads_concat e' = false) as He'.
    { rewrite reassoc_other in Hr by done.
      assert (Forall (fun c => exists c', reassoc c = Some c' /\ True) (e_children e)) as Hc.
      { apply list.Forall_forall. intros c Hin. rewrite list.Forall_forall in IH, Hchildren.
        destruct (IH c Hin (Hchildren c Hin)) as [_ (c' & ? & _)]. eauto. }
      destruct (map_children_spec (fun _ _ => True) reassoc e Hc) as (e'' & Hm & Hhead & _). congruence. }
    exists e', []. rewrite flatten_other, Hr by done. split; [done|].
    split; [by apply means_one|]. by apply Forall_cons.
Qed.

(** C31: Reassociation succeeds on every tree whose concatenations have two operands; its
    output computes what the tree does, effects and their order included, whenever the
    run-time's concatenation is effect-free and associative; and no concatenation of the output
    has a concatenation as its right operand, so each appends to one accumulator. *)
Theorem reassoc_preserves (e : CExpr) :
  concat_binary e ->
  exists e', reassoc e = Some e' /\ left_leaning e' /\ forall rho w, sem e' rho w = sem e rho w.
Proof. intros He. destruct (reassoc_spec e He) as [_ (e' & ? & ? & ?)]. eauto. Qed.
End Meaning.

(** ** A run on texts *)

Definition texts : Interp (list nat) nat := {|
  i_lit _ := []; i_global _ := [7]; i_error := [];
  i_op op _ vs := fun w => match op with O_Prim P_StrConcat => Some (concat vs, w) | _ => Some ([w], S w) end;
  i_bool _ := Some true;
  i_split n v := Some (replicate n v);
|}.
#[local] Existing Instance texts.

#[local] Instance texts_concatenates : Concatenates (fun a b => Some (a ++ b)).
Proof. split; [intros; simpl; by rewrite app_nil_r|intros; simpl; by rewrite app_assoc]. Qed.

(** [f 0 ++ (1 ++ 2)], its first operand an effect. *)
Definition chain : CExpr :=
  let s := Ty_Con Con_String in
  concat_node s (CE (K_Foreign "f" [CE (K_Local 0) s] true) s)
    (concat_node s (CE (K_Local 1) s) (CE (K_Local 2) s)).

Lemma reassoc_preserves_witness :
  exists e', reassoc chain = Some e' /\ left_leaning e' /\ forall rho w, sem e' rho w = sem chain rho w.
Proof. apply (reassoc_preserves (fun a b => Some (a ++ b))). repeat constructor; done. Defined.
