(* ===== verification/Bounds.v ===== *)
(** * The bounds graph

    fai-core's [bounds.rs]: difference constraints [a <= b + c] over the integers and the array
    lengths of a body, as a weighted graph, and what each binding and branch adds to it.  An
    [i64] is a [Z] kept in range by checks, an [i128] a [Z]; [None] is an indexing panic. *)

From S2P Require Import Prelude Types Ir.
From stdpp Require Import gmap list.
From Stdlib Require Import ZArith.

Definition TERM_CAP : nat := 96.
Definition CONST_CAP : Z := 2 ^ 40.
Definition I64_MIN : Z := - 2 ^ 63.
Definition I64_MAX : Z := 2 ^ 63 - 1.
(** [i64::MAX as i128 / 8] *)
Definition ARRAY_LEN_MAX : Z := I64_MAX `quot` 8.

Definition i64_fits (z : Z) : bool := ((I64_MIN <=? z) && (z <=? I64_MAX))%Z.
(** [i64::try_from], [checked_neg], [checked_add], [checked_sub]. *)
Definition to_i64 (z : Z) : option Z := if i64_fits z then Some z else None.
(** [wrapping_add], [wrapping_sub]. *)
Definition wrap64 (z : Z) : Z := ((z - I64_MIN) mod 2 ^ 64 + I64_MIN)%Z.
(** [saturating_add] *)
Definition saturate (z : Z) : Z := Z.max I64_MIN (Z.min I64_MAX z).

(** [Term] *)
Inductive Term := T_Zero | T_Int (local : LocalId) | T_Len (local : LocalId).
#[export] Instance Term_eq_dec : EqDecision Term.
Proof. solve_decision. Defined.
#[export] Instance Term_countable : Countable Term.
Proof.
  apply (inj_countable'
    (fun t => match t with T_Zero => inl () | T_Int l => inr (inl l) | T_Len l => inr (inr l) end)
    (fun s => match s with inl _ => T_Zero | inr (inl l) => T_Int l | inr (inr l) => T_Len l end)).
  by intros [].
Defined.

Abbreviation Edges := (gmap Term (gmap Term Z)).

(** The order in which a hash map is iterated: some order of its entries. *)
Class HashOrder := {
  entries {V : Type} : gmap Term V -> list (Term * V);
  entries_perm {V : Type} (m : gmap Term V) : entries m ≡ₚ map_to_list m;
}.

(** [Cond] *)
Record Cond := MkCond { c_op : Prim; c_lhs : Term; c_lhs_off : Z; c_rhs : Term; c_rhs_off : Z }.

(** [Bounds] *)
Record Bounds := MkBounds {
  edges : Edges;
  conds : gmap LocalId Cond;
  call_results : gmap LocalId (ResultSig * list (option LocalId));
  subs : gmap LocalId (Term * Term);
  poisoned : bool }.
(** [Bounds::new] *)
Definition new_bounds : Bounds := MkBounds ∅ ∅ ∅ ∅ false.

Definition set_edges (es : Edges) (b : Bounds) : Bounds :=
  MkBounds es (conds b) (call_results b) (subs b) (poisoned b).
Definition poison (b : Bounds) : Bounds :=
  MkBounds (edges b) (conds b) (call_results b) (subs b) true.
Definition insert_cond (local : LocalId) (c : Cond) (b : Bounds) : Bounds :=
  MkBounds (edges b) (<[local := c]> (conds b)) (call_results b) (subs b) (poisoned b).
Definition insert_call (local : LocalId) (c : ResultSig * list (option LocalId)) (b : Bounds) : Bounds :=
  MkBounds (edges b) (conds b) (<[local := c]> (call_results b)) (subs b) (poisoned b).
Definition insert_sub (local : LocalId) (s : Term * Term) (b : Bounds) : Bounds :=
  MkBounds (edges b) (conds b) (call_results b) (<[local := s]> (subs b)) (poisoned b).

(** ** Edges *)

(** The terms of the graph: those [term_count] sees. *)
Definition terms (es : Edges) : gset Term := dom es ∪ ⋃ (map_to_list es ≫= fun p => [dom p.2]).
Definition term_count (b : Bounds) : nat := size (terms (edges b)).
Definition has_term (t : Term) (b : Bounds) : bool := bool_decide (t ∈ terms (edges b)).

(** Whether a constant is recorded. *)
Definition in_cap (c : Z) : bool := ((- CONST_CAP <=? c) && (c <=? CONST_CAP))%Z.

(** [entry(from).or_default().entry(to)], with the smaller of the two weights. *)
Definition tighten (from to : Term) (c : Z) (es : Edges) : Edges :=
  let m := default ∅ (es !! from) in
  <[from := <[to := Z.min c (default c (m !! to))]> m]> es.

Definition add_edge (from to : Term) (c : Z) (b : Bounds) : Bounds :=
  if poisoned b || bool_decide (from = to) then b
  else if negb (in_cap c) then b
  else
    let new_terms := (if has_term from b then 0 else 1) + (if has_term to b then 0 else 1) in
    if (0 <? new_terms) && (TERM_CAP <? term_count b + new_terms) then poison b
    else set_edges (tighten from to c (edges b)) b.

Definition add_eq (x y : Term) (c : Z) (b : Bounds) : Bounds :=
  let b := add_edge x y c b in
  match to_i64 (- c) with Some negative => add_edge y x negative b | None => b end.
Definition set_const (t : Term) (n : Z) (b : Bounds) : Bounds := add_eq t T_Zero n b.
Definition set_ge (t : Term) (n : Z) (b : Bounds) : Bounds :=
  match to_i64 (- n) with Some negative => add_edge T_Zero t negative b | None => b end.

Definition machine_interval (t : Term) : Z * Z :=
  match t with
  | T_Zero => (0, 0)%Z
  | T_Int _ => (I64_MIN, I64_MAX)
  | T_Len _ => (0%Z, ARRAY_LEN_MAX)
  end.

Section Graph.
Context `{HashOrder}.

(** ** Intervals *)

Abbreviation Ranges := (gmap Term (Z * Z)).

(** [entry(t).or_insert_with(|| machine_interval(t))] *)
Definition admit_term (ranges : Ranges) (t : Term) : Ranges :=
  <[t := default (machine_interval t) (ranges !! t)]> ranges.
Definition initial_ranges (es : Edges) : Ranges :=
  foldl (fun ranges p => foldl admit_term (admit_term ranges p.1) (entries p.2).*1) ∅ (entries es).

(** One edge narrows the ranges of its ends. *)
Definition narrow_edge (from : Term) (s : Ranges * bool) (e : Term * Z) : option (Ranges * bool) :=
  let '(ranges, changed) := s in
  let '(to, weight) := e in
  '(from_lo, from_hi) ← ranges !! from;
  '(to_lo, to_hi) ← ranges !! to;
  let hi := Z.min from_hi (to_hi + weight) in
  let lo := Z.max to_lo (from_lo - weight) in
  '(ranges, changed) ←
    (if (hi <? from_hi)%Z then
       r ← ranges !! from; Some (<[from := (r.1, hi)]> ranges, true)
     else Some (ranges, changed));
  if (to_lo <? lo)%Z then
    r ← ranges !! to; Some (<[to := (lo, r.2)]> ranges, true)
  else Some (ranges, changed).

Fixpoint narrow_edges (from : Term) (s : Ranges * bool) (es : list (Term * Z)) : option (Ranges * bool) :=
  match es with
  | [] => Some s
  | e :: es => s ← narrow_edge from s e; narrow_edges from s es
  end.
Fixpoint narrow_nodes (s : Ranges * bool) (ns : list (Term * gmap Term Z)) : option (Ranges * bool) :=
  match ns with
  | [] => Some s
  | (from, m) :: ns => s ← narrow_edges from s (entries m); narrow_nodes s ns
  end.
Fixpoint narrow (rounds : nat) (es : Edges) (ranges : Ranges) : option Ranges :=
  match rounds with
  | 0 => Some ranges
  | S rounds =>
      '(ranges, changed) ← narrow_nodes (ranges, false) (entries es);
      if changed : bool then narrow rounds es ranges else Some ranges
  end.

Definition intervals (b : Bounds) : option Ranges :=
  let ranges := initial_ranges (edges b) in narrow (size ranges) (edges b) ranges.

(** The interval of a term, that of the machine when it is in no edge. *)
Definition interval_of (b : Bounds) (t : Term) : option (Z * Z) :=
  ranges ← intervals b; Some (default (machine_interval t) (ranges !! t)).

Definition offset_does_not_wrap (b : Bounds) (t : Term) (offset : Z) : option bool :=
  if (offset =? 0)%Z then Some true
  else '(lo, hi) ← interval_of b t; Some ((I64_MIN <=? lo + offset) && (hi + offset <=? I64_MAX))%Z.
Definition subtraction_does_not_wrap (b : Bounds) (x y : Term) : option bool :=
  '(xlo, xhi) ← interval_of b x;
  '(ylo, yhi) ← interval_of b y;
  Some ((I64_MIN <=? xlo - yhi) && (xhi - ylo <=? I64_MAX))%Z.

(** ** Shortest paths *)

Definition relax_edge (da : Z) (s : gmap Term Z * bool) (e : Term * Z) : gmap Term Z * bool :=
  let '(dist, changed) := s in
  let nd := saturate (da + e.2) in
  let entry := default I64_MAX (dist !! e.1) in
  if (nd <? entry)%Z then (<[e.1 := nd]> dist, true) else (<[e.1 := entry]> dist, changed).
Definition relax_node (s : gmap Term Z * bool) (n : Term * gmap Term Z) : gmap Term Z * bool :=
  match s.1 !! n.1 with
  | Some da => foldl (relax_edge da) s (entries n.2)
  | None => s
  end.
Definition relax_round (es : Edges) (dist : gmap Term Z) : gmap Term Z * bool :=
  foldl relax_node (dist, false) (entries es).
Fixpoint relax (rounds : nat) (es : Edges) (dist : gmap Term Z) : gmap Term Z :=
  match rounds with
  | 0 => dist
  | S rounds =>
      let '(dist, changed) := relax_round es dist in
      if changed : bool then relax rounds es dist else dist
  end.

Definition shortest (b : Bounds) (from to : Term) : option Z :=
  if bool_decide (from = to) then Some 0%Z
  else if poisoned b then None
  else relax (term_count b + 1) (edges b) {[from := 0%Z]} !! to.
(** [Bounds::bound] *)
Definition bound (b : Bounds) (x y : Term) : option Z := shortest b x y.

Definition entails_le (b : Bounds) (x y : Term) (c : Z) : bool :=
  match shortest b x y with Some d => (d <=? c)%Z | None => false end.
Definition entails_nonneg (b : Bounds) (t : Term) : bool := entails_le b T_Zero t 0.
Definition entails_lt (b : Bounds) (x y : Term) : bool := entails_le b x y (-1).

(** ** Questions *)

(** An operand the code looks at: a local or an integer literal. *)
Inductive IntAtom := A_Local (l : LocalId) | A_Int (n : Z).
Definition int_atom (e : CExpr) : option IntAtom :=
  match ce_kind e with
  | K_Local l => Some (A_Local l)
  | K_Lit (Lit_Int n) => Some (A_Int n)
  | _ => None
  end.

Definition integer_in_range (b : Bounds) (value : CExpr) (minimum maximum : Z) : option bool :=
  if poisoned b || (maximum <? minimum)%Z then Some false
  else match int_atom value with
       | Some (A_Int n) => Some ((minimum <=? n) && (n <=? maximum))%Z
       | Some (A_Local local) =>
           if negb (has_term (T_Int local) b) then Some false
           else '(low, high) ← interval_of b (T_Int local);
                Some ((low <=? high) && (minimum <=? low) && (high <=? maximum))%Z
       | None => Some false
       end.

Definition index_in_bounds (b : Bounds) (array : LocalId) (index : CExpr) : bool :=
  if poisoned b then false
  else match int_atom index with
       | Some (A_Local i) => entails_nonneg b (T_Int i) && entails_lt b (T_Int i) (T_Len array)
       | Some (A_Int n) =>
           (0 <=? n)%Z &&
           match n ← to_i64 (n + 1); to_i64 (- n) with
           | Some bound => entails_le b T_Zero (T_Len array) bound
           | None => false
           end
       | None => false
       end.

(** ** Atoms *)

Definition atom_term (e : CExpr) : option Term :=
  match int_atom e with
  | Some (A_Local l) => Some (T_Int l)
  | Some (A_Int n) => if decide (n = 0%Z) then Some T_Zero else None
  | None => None
  end.
Definition atom_term_off (e : CExpr) : option (Term * Z) :=
  match int_atom e with
  | Some (A_Local l) => Some (T_Int l, 0%Z)
  | Some (A_Int n) => Some (T_Zero, n)
  | None => None
  end.
(** The local an operand is. *)
Definition as_local (e : CExpr) : option LocalId :=
  match int_atom e with Some (A_Local l) => Some l | _ => None end.

Fixpoint peel_rc (e : CExpr) : CExpr :=
  match e with
  | CE (K_Dup _ body | K_Drop _ body | K_Reset _ _ body | K_FreeReuse _ body) _ => peel_rc body
  | _ => e
  end.

(** ** Transfer *)

Definition transfer_addsub (local : LocalId) (args : list CExpr) (subtract : bool) (b : Bounds) : option Bounds :=
  match args with
  | x :: y :: _ =>
      let lt := T_Int local in
      match int_atom x, int_atom y with
      | Some (A_Local x), Some (A_Int k) =>
          match (if subtract then to_i64 (- k) else Some k) with
          | Some offset =>
              fits ← offset_does_not_wrap b (T_Int x) offset;
              Some (if fits : bool then add_eq lt (T_Int x) offset b else b)
          | None => Some b
          end
      | Some (A_Int p), Some (A_Int q) =>
          Some (set_const lt (wrap64 (if subtract then p - q else p + q)) b)
      | Some (A_Int k), Some (A_Local x) =>
          if subtract then Some b
          else fits ← offset_does_not_wrap b (T_Int x) k;
               Some (if fits : bool then add_eq lt (T_Int x) k b else b)
      | Some (A_Local x), Some (A_Local y) =>
          if subtract then
            if decide (x = y) then Some (set_const lt 0 b)
            else fits ← subtraction_does_not_wrap b (T_Int x) (T_Int y);
                 Some (if fits : bool then insert_sub local (T_Int x, T_Int y) b else b)
          else Some b
      | _, _ => Some b
      end
  | _ => Some b
  end.

(** The first operand, in the order tried, that is a nonnegative mask. *)
Fixpoint try_masks (local : LocalId) (masks : list CExpr) (b : Bounds) : Bounds :=
  match masks with
  | [] => b
  | mask :: masks =>
      match atom_term mask with
      | Some m =>
          if entails_nonneg b m then add_edge (T_Int local) m 0 (set_ge (T_Int local) 0 b)
          else try_masks local masks b
      | None => try_masks local masks b
      end
  end.
Definition transfer_mask (local : LocalId) (args : list CExpr) (b : Bounds) : Bounds :=
  match args with x :: y :: _ => try_masks local [y; x] b | _ => b end.

Definition transfer_rem (local : LocalId) (args : list CExpr) (b : Bounds) : Bounds :=
  match head args ≫= atom_term with
  | Some a => if entails_nonneg b a then set_ge (T_Int local) 0 b else b
  | None => b
  end.

Definition transfer_repeat (local : LocalId) (args : list CExpr) (b : Bounds) : Bounds :=
  let length := T_Len local in
  let b := set_ge length 0 b in
  match head args ≫= int_atom with
  | Some (A_Int count) => set_const length (Z.max count 0) b
  | Some (A_Local count) =>
      let b := add_edge (T_Int count) length 0 b in
      if entails_nonneg b (T_Int count) then add_eq length (T_Int count) 0 b else b
  | None => b
  end.

(** What a checked access tells once it has succeeded. *)
Definition transfer_access (args : list CExpr) (b : Bounds) : Bounds :=
  match head args ≫= as_local, args !! 1 ≫= atom_term_off with
  | Some array, Some (index, offset) =>
      let b := add_edge T_Zero index offset b in
      match n ← to_i64 (- offset); to_i64 (n - 1) with
      | Some upper => add_edge index (T_Len array) upper b
      | None => b
      end
  | _, _ => b
  end.

(** The match of [transfer_prim]. *)
Definition transfer_op (local : LocalId) (op : Prim) (args : list CExpr) (b : Bounds) : option Bounds :=
  match op with
  | P_IntAdd => transfer_addsub local args false b
  | P_IntSub => transfer_addsub local args true b
  | P_IntAnd => Some (transfer_mask local args b)
  | P_IntRem => Some (transfer_rem local args b)
  | P_ArrayLength => Some
      match head args ≫= as_local with
      | Some a => set_ge (T_Int local) 0 (add_eq (T_Int local) (T_Len a) 0 b)
      | None => b
      end
  | P_ArrayWithCapacity => Some (set_const (T_Len local) 0 b)
  | P_ArrayRepeat => Some (transfer_repeat local args b)
  | P_ArrayPush | P_ArrayPushReserved => Some (set_ge (T_Len local) 0
      match head args ≫= as_local with
      | Some a => add_eq (T_Len local) (T_Len a) 1 b
      | None => b
      end)
  | P_ArraySet | P_ArrayUnique | P_ArrayPut => Some
      match head args ≫= as_local with
      | Some a => add_eq (T_Len local) (T_Len a) 0 b
      | None => b
      end
  | P_IntLt | P_IntLe | P_IntGt | P_IntGe | P_Eq => Some
      match args !! 0 ≫= atom_term_off, args !! 1 ≫= atom_term_off with
      | Some (l, lo), Some (r, ro) => insert_cond local (MkCond op l lo r ro) b
      | _, _ => b
      end
  | _ => Some b
  end.

Definition checked_access (op : Prim) : bool :=
  match op with P_ArrayGet | P_ArrayPeek | P_ArraySet => true | _ => false end.
Definition transfer_prim (local : LocalId) (op : Prim) (args : list CExpr) (b : Bounds) : option Bounds :=
  b ← transfer_op local op args b;
  let b := if checked_access op then transfer_access args b else b in
  Some (set_ge (T_Len local) 0 b).

(** ** Signatures *)

Definition WHOLE : Z := 2 ^ 32 - 1.
Definition bound_sig_empty (sig : BoundSig) : bool := bool_decide (bound_edges sig = []).
Definition result_sig_empty (sig : ResultSig) : bool := bool_decide (result_edges sig = []).
Definition is_field (t : RTerm) : bool :=
  match t with RT_ResultVal k | RT_ResultLen k => negb (bool_decide (k = WHOLE)) | _ => false end.

Definition pterm_to_term (p : PTerm) (params : list LocalId) : option Term :=
  match p with
  | PT_Zero => Some T_Zero
  | PT_Param i => T_Int <$> params !! Z.to_nat i
  | PT_LenParam i => T_Len <$> params !! Z.to_nat i
  end.
(** [args.get(i).copied().flatten()] *)
Definition arg_local (args : list (option LocalId)) (i : Z) : option LocalId := mjoin (args !! Z.to_nat i).
Definition rterm_to_term (t : RTerm) (local : LocalId) (args : list (option LocalId)) : option Term :=
  match t with
  | RT_Zero => Some T_Zero
  | RT_Param i => T_Int <$> arg_local args i
  | RT_LenParam i => T_Len <$> arg_local args i
  | RT_ResultVal f => if decide (f = WHOLE) then Some (T_Int local) else None
  | RT_ResultLen f => if decide (f = WHOLE) then Some (T_Len local) else None
  end.
Definition rterm_field_to_term (t : RTerm) (k : Z) (field_local : LocalId) (args : list (option LocalId)) : option Term :=
  match t with
  | RT_Zero => Some T_Zero
  | RT_Param i => T_Int <$> arg_local args i
  | RT_LenParam i => T_Len <$> arg_local args i
  | RT_ResultVal f => if decide (f = k) then Some (T_Int field_local) else None
  | RT_ResultLen f => if decide (f = k) then Some (T_Len field_local) else None
  end.
(** The [term] closure of [transfer_many]. *)
Definition rterm_many (locals : list LocalId) (args : list (option LocalId)) (t : RTerm) : option Term :=
  match t with
  | RT_Zero => Some T_Zero
  | RT_Param i => T_Int <$> arg_local args i
  | RT_LenParam i => T_Len <$> arg_local args i
  | RT_ResultVal i => T_Int <$> locals !! Z.to_nat i
  | RT_ResultLen i => T_Len <$> locals !! Z.to_nat i
  end.

(** The edges of a signature whose ends both have terms here. *)
Definition seed_edges {T} (term : T -> option Term) (es : list (T * T * Z)) (b : Bounds) : Bounds :=
  foldl (fun b '(x, y, c) =>
    match term x, term y with Some x, Some y => add_edge x y c b | _, _ => b end) b es.

Definition seed_entry (sig : BoundSig) (params : list LocalId) (b : Bounds) : Bounds :=
  seed_edges (fun p => pterm_to_term p params) (bound_edges sig) b.
Definition transfer_call (local : LocalId) (sig : ResultSig) (args : list CExpr) (b : Bounds) : Bounds :=
  let arg_locals := as_local <$> args in
  let b := seed_edges (fun t => rterm_to_term t local arg_locals) (result_edges sig) b in
  if existsb (fun e => is_field e.1.1 || is_field e.1.2) (result_edges sig)
  then insert_call local (sig, arg_locals) b else b.
Definition transfer_many (locals : list LocalId) (sig : ResultSig) (args : list CExpr) (b : Bounds) : Bounds :=
  seed_edges (rterm_many locals (as_local <$> args)) (result_edges sig) b.
Definition transfer_result_field (local base : LocalId) (k : Z) (b : Bounds) : Bounds :=
  match call_results b !! base with
  | Some (sig, arg_locals) =>
      seed_edges (fun t => rterm_field_to_term t k local arg_locals) (result_edges sig) b
  | None => b
  end.

Definition transfer_let (local : LocalId) (value : CExpr) (b : Bounds) : option Bounds :=
  match ce_kind (peel_rc value) with
  | K_Lit (Lit_Int n) => Some (set_const (T_Int local) n b)
  | K_Local x => Some (add_eq (T_Len local) (T_Len x) 0 (add_eq (T_Int local) (T_Int x) 0 b))
  | K_Prim op args => transfer_prim local op args b
  | K_DataField base (FI_Const k) _ _ =>
      Some match as_local base with Some base => transfer_result_field local base k b | None => b end
  | _ => Some b
  end.

(** ** Refinement *)

Definition negate (op : Prim) : Prim :=
  match op with
  | P_IntLt => P_IntGe | P_IntLe => P_IntGt | P_IntGt => P_IntLe | P_IntGe => P_IntLt
  | other => other
  end.

Definition refine_ne (lhs rhs : Term) (b : Bounds) : Bounds :=
  let bump x :=
    if decide (x = T_Zero) then b
    else
      let b := if entails_le b T_Zero x 0 then add_edge T_Zero x (-1) b else b in
      if entails_le b x T_Zero 0 then add_edge x T_Zero (-1) b else b in
  match lhs, rhs with
  | T_Zero, t | t, T_Zero => bump t
  | _, _ => b
  end.

Definition add_edge_sub (from to : Term) (c : Z) (b : Bounds) : Bounds :=
  let b := add_edge from to c b in
  match from, to with
  | T_Int l, T_Zero => match subs b !! l with Some (x, y) => add_edge x y c b | None => b end
  | T_Zero, T_Int l => match subs b !! l with Some (x, y) => add_edge y x c b | None => b end
  | _, _ => b
  end.

Definition assert_cmp (op : Prim) (lhs : Term) (lhs_off : Z) (rhs : Term) (rhs_off : Z) (b : Bounds) : Bounds :=
  let d := (rhs_off - lhs_off)%Z in
  let directed from to weight :=
    match to_i64 weight with Some weight => add_edge_sub from to weight b | None => b end in
  match op with
  | P_IntLt => directed lhs rhs (d - 1)%Z
  | P_IntLe => directed lhs rhs d
  | P_IntGt => directed rhs lhs (- d - 1)%Z
  | P_IntGe => directed rhs lhs (- d)%Z
  | P_Eq => match to_i64 d with Some d => add_eq lhs rhs d b | None => b end
  | _ => b
  end.

Definition refine (cond : CExpr) (taken : bool) (b : Bounds) : Bounds :=
  match as_local cond with
  | Some c =>
      match conds b !! c with
      | Some cond =>
          if match c_op cond with P_Eq => true | _ => false end then
            if taken then assert_cmp P_Eq (c_lhs cond) (c_lhs_off cond) (c_rhs cond) (c_rhs_off cond) b
            else if decide (c_lhs_off cond = 0%Z /\ c_rhs_off cond = 0%Z)
            then refine_ne (c_lhs cond) (c_rhs cond) b else b
          else
            let op := if taken then c_op cond else negate (c_op cond) in
            assert_cmp op (c_lhs cond) (c_lhs_off cond) (c_rhs cond) (c_rhs_off cond) b
      | None => b
      end
  | None => b
  end.
End Graph.

(** The order of a finite map's own list is one order. *)
#[export, refine] Instance map_order : HashOrder := {| entries V m := map_to_list m |}.
Proof. done. Defined.
