(* ===== verification/BoundsGraph.v ===== *)
(** * The graph decides difference constraints

    Bellman-Ford on the edges of a bounds graph finds least path weights, whatever the order in
    which a hash map is iterated, so entailment is decided exactly; and the intervals hold. *)

From S2P Require Import Prelude Types Ir Bounds.
From stdpp Require Import gmap list.
From Stdlib Require Import ZArith Lia.

(** ** Edges, valuations, paths *)

Definition edge (es : Edges) (x y : Term) (c : Z) : Prop := exists m, es !! x = Some m /\ m !! y = Some c.
Definition sat (es : Edges) (v : Term -> Z) : Prop := forall x y c, edge es x y c -> (v x <= v y + c)%Z.

(** A graph within its caps. *)
Record capped (es : Edges) : Prop := {
  cp_weight : forall x y c, edge es x y c -> (- CONST_CAP <= c <= CONST_CAP)%Z;
  cp_size : size (terms es) <= TERM_CAP }.

Inductive path (es : Edges) : Term -> list Term -> Term -> Z -> Prop :=
| path_nil x : path es x [] x 0
| path_cons x z p y w d : edge es x z w -> path es z p y d -> path es x (z :: p) y (w + d).

Lemma elem_of_terms es t :
  t ∈ terms es ↔ is_Some (es !! t) \/ exists x c, edge es x t c.
Proof.
  unfold terms. rewrite elem_of_union, elem_of_dom, elem_of_union_list. f_equiv. split.
  - intros (X & (p & HX & Hp)%list_elem_of_bind & Ht). apply list_elem_of_singleton in HX as ->.
    destruct p as [x m]. apply elem_of_map_to_list in Hp. apply elem_of_dom in Ht as [c Hc]. by exists x, c, m.
  - intros (x & c & m & Hx & Hc). exists (dom m). split; [|by eapply elem_of_dom_2].
    apply list_elem_of_bind. exists (x, m). split; [by left|by apply elem_of_map_to_list].
Qed.

Lemma edge_terms es x y c : edge es x y c -> x ∈ terms es /\ y ∈ terms es.
Proof. intros He. rewrite !elem_of_terms. split; [left; destruct He as (m & -> & _); eauto|right; eauto]. Qed.

Lemma path_app es x p y d q z e : path es x p y d -> path es y q z e -> path es x (p ++ q) z (d + e).
Proof.
  induction 1 as [|x u p y w d He Hp IH]; intros Hq; [done|].
  replace (w + d + e)%Z with (w + (d + e))%Z by lia. simpl. econstructor; eauto.
Qed.

Lemma path_split es p q : forall x y d, path es x (p ++ q) y d ->
  exists z d1 d2, path es x p z d1 /\ path es z q y d2 /\ d = (d1 + d2)%Z /\ last (x :: p) = Some z.
Proof.
  induction p as [|u p IH]; intros x y d Hp.
  - exists x, 0%Z, d. repeat split; [constructor|done].
  - simpl in Hp. inversion Hp as [|? ? ? ? w d' He Hp']; subst.
    destruct (IH _ _ _ Hp') as (z & d1 & d2 & H1 & H2 & -> & Hl).
    exists z, (w + d1)%Z, d2. split_and!; [by econstructor|done|lia|]. by rewrite last_cons_cons.
Qed.

Lemma path_terms es x p y d : path es x p y d -> Forall (fun t => t ∈ terms es) p.
Proof. induction 1 as [|x z p y w d He Hp IH]; constructor; [by apply (edge_terms _ _ _ _ He)|done]. Qed.

Lemma path_snoc es x p y d z w : path es x p y d -> edge es y z w -> exists q, path es x q z (d + w).
Proof.
  intros Hp He. exists (p ++ [z]). apply (path_app _ _ _ y); [done|].
  rewrite <- (Z.add_0_r w). econstructor; [done|constructor].
Qed.

(** A valuation bounds every path. *)
Lemma sat_path es v x p y d : sat es v -> path es x p y d -> (v x <= v y + d)%Z.
Proof. intros Hv. induction 1 as [|x z p y w d He Hp IH]; [lia|]. specialize (Hv _ _ _ He). lia. Qed.

(** When some valuation satisfies the graph, cycles do not pay: a simple path is as short. *)
Lemma simple_path es v : sat es v -> forall p x y d, path es x p y d ->
  exists q e, path es x q y e /\ (e <= d)%Z /\ NoDup (x :: q).
Proof.
  intros Hv p. induction p as [|z p IH]; intros x y d Hp; inversion Hp as [|? ? ? ? w d' He Hp']; subst.
  { exists [], 0%Z. split_and!; [constructor|done|]. apply NoDup_singleton. }
  destruct (IH _ _ _ Hp') as (q & e & Hq & Hle & Hnd). clear IH.
  destruct (decide (x ∈ z :: q)) as [Hin|Hin].
  - assert (exists q1 q2, z :: q = q1 ++ x :: q2) as (q1 & q2 & Heq) by by apply list_elem_of_split.
    destruct q1 as [|u q1]; injection Heq as -> Hq'; subst.
    + exists q2, e. split_and!; [done| |done]. pose proof (Hv _ _ _ He). lia.
    + replace (q1 ++ x :: q2) with ((q1 ++ [x]) ++ q2) in Hq by (by rewrite <- app_assoc).
      destruct (path_split _ _ _ _ _ _ Hq) as (u' & e1 & e2 & H1 & H2 & -> & Hl).
      rewrite app_comm_cons, last_snoc in Hl. injection Hl as <-.
      exists q2, e2. split_and!; [done| |].
      * pose proof (Hv _ _ _ He). pose proof (sat_path _ _ _ _ _ _ Hv H1). lia.
      * change (u :: q1 ++ x :: q2) with ((u :: q1) ++ x :: q2) in Hnd. by apply NoDup_app in Hnd as (_ & _ & ?).
  - exists (z :: q), (w + e)%Z. split_and!; [by econstructor|lia|]. by constructor.
Qed.

Lemma simple_length es x q y e : path es x q y e -> NoDup (x :: q) -> length q <= size (terms es).
Proof.
  intros Hp Hnd. apply NoDup_cons in Hnd as [_ Hnd].
  rewrite <- (size_list_to_set (C := gset Term) q) by done. apply subseteq_size.
  intros t Ht%elem_of_list_to_set. pose proof (path_terms _ _ _ _ _ Hp) as Hf.
  rewrite list.Forall_forall in Hf. by apply Hf.
Qed.

(** ** Relaxation *)

Section Relax.
Context `{HashOrder} (es : Edges) (from : Term).
Hypothesis Hcap : capped es.

Lemma elem_of_entries {V} (m : gmap Term V) t x : (t, x) ∈ entries m ↔ m !! t = Some x.
Proof. rewrite entries_perm. apply elem_of_map_to_list. Qed.

(** The distances come from [P] and stay far from saturation above. *)
Record dist_ok (P : Term -> Z -> Prop) (dist : gmap Term Z) : Prop := {
  do_from : exists d, dist !! from = Some d /\ (d <= 0)%Z;
  do_terms : dom dist ⊆ {[from]} ∪ terms es;
  do_high : forall y d, dist !! y = Some d -> (d <= (Z.of_nat (size dist) - 1) * CONST_CAP)%Z;
  do_prop : forall y d, dist !! y = Some d -> P y d }.

(** [dist'] is no larger anywhere. *)
Definition lower (dist' dist : gmap Term Z) : Prop :=
  forall y d, dist !! y = Some d -> exists d', dist' !! y = Some d' /\ (d' <= d)%Z.

Lemma lower_refl dist : lower dist dist.
Proof. intros y d Hd. exists d. split; [done|lia]. Qed.
Lemma lower_trans d1 d2 d3 : lower d1 d2 -> lower d2 d3 -> lower d1 d3.
Proof.
  intros H12 H23 y d Hd. destruct (H23 _ _ Hd) as (d' & Hd' & ?).
  destruct (H12 _ _ Hd') as (d'' & ? & ?). exists d''. split; [done|lia].
Qed.

Lemma dist_size P dist : dist_ok P dist -> size dist <= S TERM_CAP.
Proof.
  intros Hd. rewrite <- size_dom. etrans; [apply subseteq_size, (do_terms _ _ Hd)|].
  rewrite size_union_alt, size_singleton. pose proof (cp_size _ Hcap).
  assert (size (terms es ∖ {[from]}) <= size (terms es)) by (apply subseteq_size; set_solver +). lia.
Qed.

Context (P : Term -> Z -> Prop).

Lemma dist_start : (P from 0) -> dist_ok P {[from := 0%Z]}.
Proof.
  intros HP. split.
  - exists 0%Z. by rewrite lookup_singleton_eq.
  - rewrite dom_singleton. set_solver +.
  - intros y d [-> <-]%lookup_singleton_Some. rewrite map_size_singleton. lia.
  - intros y d [-> <-]%lookup_singleton_Some. done.
Qed.

Hypothesis P_step : forall a d b w, P a d -> edge es a b w -> (d + w <= I64_MAX)%Z -> P b (saturate (d + w)).

(** One relaxed edge. *)
Lemma relax_edge_ok a da b w dist changed :
  dist_ok P dist -> P a da -> (da <= (Z.of_nat (size dist) - 1) * CONST_CAP)%Z -> edge es a b w ->
  let s := relax_edge da (dist, changed) (b, w) in
  dist_ok P s.1 /\ lower s.1 dist /\ (exists d, s.1 !! b = Some d /\ (d <= saturate (da + w))%Z) /\
  (s.2 = false -> s.1 = dist /\ changed = false).
Proof.
  intros Hd Ha Hda He. pose proof (cp_weight _ Hcap _ _ _ He) as Hw.
  pose proof (dist_size _ _ Hd) as Hsize. unfold TERM_CAP, CONST_CAP in *.
  assert (da + w < I64_MAX)%Z as Hlt.
  { unfold I64_MAX. nia. }
  assert (saturate (da + w) < I64_MAX)%Z as Hsat by (unfold saturate, I64_MIN, I64_MAX in *; lia).
  cbn -[saturate lookup insert]. destruct (dist !! b) as [d|] eqn:Hb; cbn -[saturate lookup insert].
  - destruct (Z.ltb_spec (saturate (da + w)) d) as [Hnd|Hnd]; cbn -[saturate lookup insert].
    + split_and!; [|intros y d' Hy|eexists; rewrite lookup_insert_eq; split; [done|lia]|done].
      * split.
        -- destruct (do_from _ _ Hd) as (f & Hf & Hf0). destruct (decide (b = from)) as [->|Hne].
           ++ rewrite lookup_insert_eq. eexists. split; [done|]. simplify_eq. lia.
           ++ rewrite lookup_insert_ne by done. eauto.
        -- rewrite dom_insert. pose proof (do_terms _ _ Hd). apply elem_of_dom_2 in Hb. set_solver.
        -- intros y d' Hy. rewrite (map_size_insert_Some _ _ _ (mk_is_Some _ _ Hb)).
           apply lookup_insert_Some in Hy as [[<- <-]|[_ Hy]]; [|by apply (do_high _ _ Hd y)].
           pose proof (do_high _ _ Hd _ _ Hb). unfold CONST_CAP in *. lia.
        -- intros y d' Hy. apply lookup_insert_Some in Hy as [[<- <-]|[_ Hy]]; [|by apply (do_prop _ _ Hd)].
           apply (P_step a); [done|done|lia].
      * destruct (decide (y = b)) as [->|Hne].
        -- rewrite lookup_insert_eq. eexists. split; [done|]. simplify_eq. lia.
        -- rewrite lookup_insert_ne by done. exists d'. split; [done|lia].
    + rewrite insert_id by done. split_and!; [done|apply lower_refl|exists d; split; [done|lia]|done].
  - rewrite (proj2 (Z.ltb_lt _ _)) by done. cbn -[saturate lookup insert].
    split_and!; [|intros y d' Hy|eexists; rewrite lookup_insert_eq; split; [done|lia]|done].
    + split.
      * destruct (do_from _ _ Hd) as (f & Hf & Hf0). rewrite lookup_insert_ne by congruence. eauto.
      * rewrite dom_insert. pose proof (do_terms _ _ Hd). destruct (edge_terms _ _ _ _ He). set_solver.
      * intros y d' Hy. rewrite (map_size_insert_None _ _ _ Hb).
        apply lookup_insert_Some in Hy as [[<- <-]|[_ Hy]].
        -- unfold saturate, CONST_CAP, I64_MIN, I64_MAX in *. nia.
        -- pose proof (do_high _ _ Hd _ _ Hy). unfold CONST_CAP in *. nia.
      * intros y d' Hy. apply lookup_insert_Some in Hy as [[<- <-]|[_ Hy]]; [|by apply (do_prop _ _ Hd)].
        apply (P_step a); [done|done|lia].
    + rewrite lookup_insert_ne by congruence. exists d'. split; [done|lia].
Qed.

(** What a sequence of relaxations does: it keeps the invariant, lowers, and without the flag
    changed nothing. *)
Definition relaxes (s' s : gmap Term Z * bool) : Prop :=
  dist_ok P s'.1 /\ lower s'.1 s.1 /\ (s'.2 = false -> s'.1 = s.1 /\ s.2 = false).

Lemma relaxes_refl s : dist_ok P s.1 -> relaxes s s.
Proof. intros Hs. split; [done|]. split; [apply lower_refl|done]. Qed.
Lemma relaxes_trans s1 s2 s3 : relaxes s1 s2 -> relaxes s2 s3 -> relaxes s1 s3.
Proof.
  intros (Ho & Hl & Hf) (_ & Hl' & Hf'). split; [done|]. split; [by eapply lower_trans|].
  intros H1. destruct (Hf H1) as [-> H2]. by apply Hf'.
Qed.

Lemma lower_size dist' dist : lower dist' dist -> size dist <= size dist'.
Proof.
  intros Hl. rewrite <- !size_dom. apply subseteq_size. intros t [d Hd]%elem_of_dom.
  destruct (Hl _ _ Hd) as (d' & Hd' & _). by eapply elem_of_dom_2.
Qed.

Lemma saturate_mono x y : (x <= y)%Z -> (saturate x <= saturate y)%Z.
Proof. unfold saturate. lia. Qed.

Lemma relax_edges_ok a da l : forall s,
  Forall (fun e => edge es a e.1 e.2) l -> dist_ok P s.1 -> P a da ->
  (da <= (Z.of_nat (size s.1) - 1) * CONST_CAP)%Z ->
  relaxes (foldl (relax_edge da) s l) s /\
  Forall (fun e => exists d, (foldl (relax_edge da) s l).1 !! e.1 = Some d /\ (d <= saturate (da + e.2))%Z) l.
Proof.
  induction l as [|[b w] l IH]; intros [dist changed] Hl Hd Ha Hda; [by split; [apply relaxes_refl|]|].
  apply Forall_cons in Hl as [He Hl]. cbn [fst snd] in *.
  destruct (relax_edge_ok a da b w dist changed Hd Ha Hda He) as (Hok & Hlow & Hb & Hf).
  cbn [foldl]. set (s1 := relax_edge da (dist, changed) (b, w)) in *.
  destruct (IH s1 Hl Hok Ha) as [Hr Hall].
  { pose proof (lower_size _ _ Hlow). unfold CONST_CAP in *. nia. }
  split; [eapply relaxes_trans; [exact Hr|done]|]. constructor; [|done].
  destruct Hb as (d & Hb & Hle), Hr as (_ & Hlow' & _). destruct (Hlow' _ _ Hb) as (d' & Hd' & ?).
  exists d'. split; [done|]. cbn [fst snd]. lia.
Qed.

Lemma relax_node_ok a m s :
  es !! a = Some m -> dist_ok P s.1 ->
  relaxes (relax_node s (a, m)) s /\
  forall da b w, s.1 !! a = Some da -> m !! b = Some w ->
    exists d, (relax_node s (a, m)).1 !! b = Some d /\ (d <= saturate (da + w))%Z.
Proof.
  intros Ha Hd. unfold relax_node. cbn [fst snd]. destruct (s.1 !! a) as [da|] eqn:Hda; [|by split; [apply relaxes_refl|]].
  destruct (relax_edges_ok a da (entries m) s) as [Hr Hall].
  - apply list.Forall_forall. intros [b w] Hb%elem_of_entries. by exists m.
  - done.
  - by apply (do_prop _ _ Hd).
  - by apply (do_high _ _ Hd a).
  - split; [done|]. intros ? b w [= <-] Hb. rewrite list.Forall_forall in Hall.
    by apply (Hall (b, w)), elem_of_entries.
Qed.

Lemma relax_nodes_ok l : forall s,
  Forall (fun n => es !! n.1 = Some n.2) l -> dist_ok P s.1 ->
  relaxes (foldl relax_node s l) s /\
  Forall (fun n => forall da b w, s.1 !! n.1 = Some da -> n.2 !! b = Some w ->
    exists d, (foldl relax_node s l).1 !! b = Some d /\ (d <= saturate (da + w))%Z) l.
Proof.
  induction l as [|[a m] l IH]; intros s Hl Hd; [by split; [apply relaxes_refl|]|].
  apply Forall_cons in Hl as [Ha Hl]. cbn [fst snd] in Ha.
  destruct (relax_node_ok a m s Ha Hd) as [Hr Hn]. cbn [foldl].
  destruct (IH (relax_node s (a, m)) Hl (proj1 Hr)) as [Hr' Hall].
  split; [by eapply relaxes_trans|]. constructor.
  - intros da b w Hda Hb. destruct (Hn _ _ _ Hda Hb) as (d & Hd' & Hle).
    destruct (proj1 (proj2 Hr') _ _ Hd') as (d' & ? & ?). exists d'. split; [done|lia].
  - eapply Forall_impl; [exact Hall|]. intros [a' m'] Hn' da b w Hda Hb. cbn [fst snd] in *.
    destruct (proj1 (proj2 Hr) _ _ Hda) as (da' & Hda' & Hle). destruct (Hn' _ _ _ Hda' Hb) as (d & Hd' & Hle').
    exists d. split; [done|]. pose proof (saturate_mono (da' + w) (da + w)). lia.
Qed.

(** A round relaxes every edge. *)
Lemma relax_round_ok dist : dist_ok P dist ->
  let s := relax_round es dist in
  dist_ok P s.1 /\ lower s.1 dist /\ (s.2 = false -> s.1 = dist) /\
  forall a b w da, edge es a b w -> dist !! a = Some da ->
    exists d, s.1 !! b = Some d /\ (d <= saturate (da + w))%Z.
Proof.
  intros Hd. destruct (relax_nodes_ok (entries es) (dist, false)) as [(Hok & Hl & Hf) Hall].
  - apply list.Forall_forall. intros [a m] Ha%elem_of_entries. done.
  - done.
  - split_and!; [done|done|by intros [? _]%Hf|]. intros a b w da (m & Ha & Hb) Hda.
    rewrite list.Forall_forall in Hall. apply (Hall (a, m)); [by apply elem_of_entries|done|done].
Qed.

Lemma relax_ok rounds : forall dist, dist_ok P dist -> dist_ok P (relax rounds es dist).
Proof.
  induction rounds as [|rounds IH]; intros dist Hd; [done|]. simpl.
  destruct (relax_round_ok dist Hd) as (Hok & _). destruct (relax_round es dist) as [dist' []]; [by apply IH|done].
Qed.
End Relax.

(** ** Entailment is sound *)

Section Decides.
Context `{HashOrder}.

Definition graph_ok (b : Bounds) : Prop := poisoned b = false -> capped (edges b).

Lemma shortest_sound b v x y d :
  graph_ok b -> sat (edges b) v -> shortest b x y = Some d -> (v x <= v y + d)%Z.
Proof.
  intros Hb Hv. unfold shortest. case_bool_decide as Hxy; [subst; intros [= <-]; lia|].
  destruct (poisoned b) eqn:Hp; [done|]. specialize (Hb Hp). intros Hd.
  pose proof (relax_ok (edges b) x Hb (fun t d => v x <= v t + d)%Z) as Hok.
  assert (dist_ok (edges b) x (fun t d => v x <= v t + d)%Z (relax (term_count b + 1) (edges b) {[x := 0%Z]})) as Hr.
  { apply Hok; [|apply dist_start; cbn; lia]. intros s e t w Hs He Hle. pose proof (Hv _ _ _ He).
    unfold saturate, I64_MIN, I64_MAX in *. lia. }
  by apply (do_prop _ _ _ _ Hr).
Qed.

Lemma entails_le_sound b v x y c :
  graph_ok b -> sat (edges b) v -> entails_le b x y c = true -> (v x <= v y + c)%Z.
Proof.
  intros Hb Hv. unfold entails_le. destruct (shortest b x y) as [d|] eqn:Hd; [|done].
  intros Hle%Z.leb_le. pose proof (shortest_sound _ _ _ _ _ Hb Hv Hd). lia.
Qed.
End Decides.

(** ** Entailment is complete *)

Section Least.
Context `{HashOrder} (es : Edges) (from : Term) (v : Term -> Z).
Hypothesis Hcap : capped es.
Hypothesis Hv : sat es v.

Lemma path_weight x p y d : path es x p y d -> (- (Z.of_nat (length p) * CONST_CAP) <= d)%Z.
Proof.
  induction 1 as [|x z p y w d He Hp IH]; [done|]. pose proof (cp_weight _ Hcap _ _ _ He). simpl length.
  unfold CONST_CAP in *. lia.
Qed.

(** No path weighs so little that a sum saturates. *)
Lemma path_low x p y d : path es x p y d -> (- (Z.of_nat TERM_CAP * CONST_CAP) <= d)%Z.
Proof.
  intros Hp. destruct (simple_path es v Hv _ _ _ _ Hp) as (q & e & Hq & Hle & Hnd).
  pose proof (simple_length _ _ _ _ _ Hq Hnd). pose proof (cp_size _ Hcap). pose proof (path_weight _ _ _ _ Hq).
  unfold CONST_CAP, TERM_CAP in *. lia.
Qed.

Definition reached (y : Term) (d : Z) : Prop := exists p, path es from p y d.

Lemma reached_step a d b w :
  reached a d -> edge es a b w -> (d + w <= I64_MAX)%Z -> reached b (saturate (d + w)).
Proof.
  intros (p & Hp) He Hle. destruct (path_snoc _ _ _ _ _ _ _ Hp He) as (q & Hq).
  pose proof (path_low _ _ _ _ Hq). exists q.
  assert (saturate (d + w) = d + w)%Z as ->; [|done].
  unfold saturate, CONST_CAP, TERM_CAP, I64_MIN, I64_MAX in *. lia.
Qed.

Definition below (k : nat) (dist : gmap Term Z) : Prop := forall p y d,
  path es from p y d -> length p <= k -> exists d', dist !! y = Some d' /\ (d' <= d)%Z.

Lemma reached_low y d : reached y d -> (- (Z.of_nat TERM_CAP * CONST_CAP) <= d)%Z.
Proof. intros (p & Hp). by eapply path_low. Qed.

(** The sum of a reached distance and a weight does not saturate. *)
Lemma reached_sum a d b w : reached a d -> edge es a b w -> (saturate (d + w) <= d + w)%Z.
Proof.
  intros Hr He. pose proof (reached_low _ _ Hr). pose proof (cp_weight _ Hcap _ _ _ He).
  unfold saturate, CONST_CAP, TERM_CAP, I64_MIN, I64_MAX in *. lia.
Qed.

Lemma below_round k dist : dist_ok es from reached dist -> below k dist -> below (S k) (relax_round es dist).1.
Proof.
  intros Hd Hk p y d Hp Hl.
  destruct (relax_round_ok es from Hcap reached reached_step dist Hd) as (Hok & Hlow & _ & Hr).
  destruct p as [|z p _] using rev_ind.
  - inversion Hp; subst. destruct (do_from _ _ _ _ Hok) as (d & ? & ?). by exists d.
  - destruct (path_split _ _ _ _ _ _ Hp) as (u & d1 & d2 & H1 & H2 & -> & _).
    inversion H2 as [|? ? ? ? w d' He Hnil]; subst. inversion Hnil; subst.
    rewrite length_app in Hl. simpl in Hl. destruct (Hk _ _ _ H1) as (du & Hdu & Hle); [lia|].
    destruct (Hr _ _ _ _ He Hdu) as (dy & Hdy & Hle'). exists dy. split; [done|].
    pose proof (reached_sum _ _ _ _ (do_prop _ _ _ _ Hd _ _ Hdu) He). lia.
Qed.

Lemma relax_below rounds : forall k dist, dist_ok es from reached dist -> below k dist ->
  below (k + rounds) (relax rounds es dist).
Proof.
  induction rounds as [|rounds IH]; intros k dist Hd Hk; [by rewrite Nat.add_0_r|]. simpl.
  pose proof (below_round k dist Hd Hk) as Hk'.
  destruct (relax_round_ok es from Hcap reached reached_step dist Hd) as (Hok & _ & Hf & Hr).
  destruct (relax_round es dist) as [dist' changed]. cbn [fst snd] in *. destruct changed.
  { rewrite Nat.add_succ_r. by apply (IH (S k)). }
  specialize (Hf eq_refl) as ->. intros p y d Hp _.
  induction p as [|z p IHp] using rev_ind in y, d, Hp |- *.
  - inversion Hp; subst. destruct (do_from _ _ _ _ Hok) as (d & ? & ?). by exists d.
  - destruct (path_split _ _ _ _ _ _ Hp) as (u & d1 & d2 & H1 & H2 & -> & _).
    inversion H2 as [|? ? ? ? w d' He Hnil]; subst. inversion Hnil; subst.
    destruct (IHp _ _ H1) as (du & Hdu & Hle).
    destruct (Hr _ _ _ _ He Hdu) as (dy & Hdy & Hle'). exists dy. split; [done|].
    pose proof (reached_sum _ _ _ _ (do_prop _ _ _ _ Hd _ _ Hdu) He). lia.
Qed.

Lemma relax_least rounds y : size (terms es) <= rounds ->
  match relax rounds es {[from := 0%Z]} !! y with
  | Some d => reached y d /\ forall p d', path es from p y d' -> (d <= d')%Z
  | None => forall p d', ~ path es from p y d'
  end.
Proof.
  intros Hr. assert (reached from 0) as H0 by (exists []; constructor).
  pose proof (dist_start es from reached H0) as Hs.
  pose proof (relax_ok es from Hcap reached reached_step rounds _ Hs) as Hok.
  assert (below 0 {[from := 0%Z]}) as Hb.
  { intros p z d Hp Hl. destruct p; [|simpl in Hl; lia]. inversion Hp; subst.
    exists 0%Z. by rewrite lookup_singleton_eq. }
  pose proof (relax_below rounds 0 _ Hs Hb) as Hk.
  assert (forall p d', path es from p y d' -> exists d, relax rounds es {[from := 0%Z]} !! y = Some d /\ (d <= d')%Z) as Hall.
  { intros p d' Hp. destruct (simple_path es v Hv _ _ _ _ Hp) as (q & e & Hq & Hle & Hnd).
    destruct (Hk q y e Hq) as (d & Hd & ?); [|exists d; split; [done|lia]].
    pose proof (simple_length _ _ _ _ _ Hq Hnd). lia. }
  destruct (relax rounds es _ !! y) as [d|] eqn:Hd.
  - split; [by apply (do_prop _ _ _ _ Hok)|]. intros p d' Hp. destruct (Hall _ _ Hp) as (? & [= <-] & ?). lia.
  - intros p d' Hp. by destruct (Hall _ _ Hp) as (? & ? & ?).
Qed.
End Least.

Section Complete.
Context `{HashOrder}.

(** A bound on finitely many sums. *)
Lemma finite_bound (f : Term -> Z) (ts : gset Term) : exists M, (0 <= M)%Z /\ forall t, t ∈ ts -> (Z.abs (f t) <= M)%Z.
Proof.
  induction ts as [|t ts Ht (M & HM & Hall)] using set_ind_L; [by exists 0%Z|].
  exists (Z.max M (Z.abs (f t))). split; [lia|]. intros u [->%elem_of_singleton|Hu]%elem_of_union; [lia|].
  specialize (Hall u Hu). lia.
Qed.

Lemma entails_le_complete b v x y c :
  poisoned b = false -> capped (edges b) -> sat (edges b) v ->
  (forall v', sat (edges b) v' -> (v' x <= v' y + c)%Z) -> entails_le b x y c = true.
Proof.
  intros Hp Hcap Hv Hall. unfold entails_le, shortest. case_bool_decide as Hxy.
  { subst. apply Z.leb_le. specialize (Hall _ Hv). lia. }
  rewrite Hp. set (dist := relax (term_count b + 1) (edges b) {[x := 0%Z]}).
  assert (forall z, match dist !! z with
    | Some d => reached (edges b) x z d /\ forall p d', path (edges b) x p z d' -> (d <= d')%Z
    | None => forall p d', ~ path (edges b) x p z d' end) as Hd.
  { intros z. apply (relax_least (edges b) x v Hcap Hv). unfold term_count. lia. }
  destruct (finite_bound v ({[y]} ∪ terms (edges b))) as (M1 & HM1 & HB1).
  destruct (finite_bound (fun z => default 0%Z (dist !! z)) ({[y]} ∪ terms (edges b))) as (M2 & HM2 & HB2).
  set (M := (M1 + M2 + CONST_CAP + Z.abs c + 1)%Z).
  set (v' := fun z => match dist !! z with Some d => (- d)%Z | None => (v z - M)%Z end).
  assert (sat (edges b) v') as Hs.
  { intros s t w He. pose proof (cp_weight _ Hcap _ _ _ He) as Hw. destruct (edge_terms _ _ _ _ He) as [Hs Ht].
    unfold v'. pose proof (Hd s) as Hds. pose proof (Hd t) as Hdt.
    destruct (dist !! s) as [ds|] eqn:Es, (dist !! t) as [dt|] eqn:Et.
    - destruct Hds as ((p & Hps) & _), Hdt as (_ & Hmin). destruct (path_snoc _ _ _ _ _ _ _ Hps He) as (q & Hq).
      specialize (Hmin _ _ Hq). lia.
    - destruct Hds as ((p & Hps) & _). destruct (path_snoc _ _ _ _ _ _ _ Hps He) as (q & Hq). by destruct (Hdt _ _ Hq).
    - specialize (HB1 s ltac:(set_solver)). specialize (HB2 t ltac:(set_solver)). cbn beta in HB2. rewrite Et in HB2. simpl in HB2.
      unfold M, CONST_CAP in *. lia.
    - specialize (Hv _ _ _ He). lia. }
  specialize (Hall _ Hs). unfold v' in Hall.
  assert (dist !! x = Some 0%Z) as Ex.
  { pose proof (Hd x) as Hdx. assert (path (edges b) x [] x 0) as H0 by constructor.
    destruct (dist !! x) as [d|] eqn:Ex; [|by destruct (Hdx _ _ H0)]. destruct Hdx as ((p & Hpp) & Hmin).
    specialize (Hmin _ _ H0). pose proof (sat_path _ _ _ _ _ _ Hv Hpp). f_equal. lia. }
  rewrite Ex in Hall. specialize (HB1 y ltac:(set_solver)). destruct (dist !! y) as [d|]; [apply Z.leb_le; lia|].
  unfold M, CONST_CAP in *. lia.
Qed.
End Complete.

(** ** Intervals *)

(** The values a machine gives the terms. *)
Definition machine (v : Term -> Z) : Prop :=
  forall t, ((machine_interval t).1 <= v t <= (machine_interval t).2)%Z.

Section Intervals.
Context `{HashOrder} (v : Term -> Z).
Hypothesis Hm : machine v.
Abbreviation Ranges := (gmap Term (Z * Z)).

Definition holds (ranges : Ranges) : Prop := forall t r, ranges !! t = Some r -> (r.1 <= v t <= r.2)%Z.

Lemma admit_term_ok ranges t : holds ranges -> holds (admit_term ranges t).
Proof.
  intros Hr u r Hu. unfold admit_term in Hu. apply lookup_insert_Some in Hu as [[<- <-]|[_ Hu]]; [|by apply Hr].
  destruct (ranges !! t) eqn:Ht; [by apply Hr|]. apply Hm.
Qed.

Lemma admit_terms_ok ts : forall ranges, holds ranges ->
  holds (foldl admit_term ranges ts) /\ dom (foldl admit_term ranges ts) = dom ranges ∪ list_to_set ts.
Proof.
  induction ts as [|t ts IH]; intros ranges Hr; simpl; [split; [done|set_solver]|].
  destruct (IH _ (admit_term_ok ranges t Hr)) as [Hh ->]. split; [done|]. unfold admit_term. set_solver.
Qed.

Lemma initial_ranges_ok es : holds (initial_ranges es) /\ terms es ⊆ dom (initial_ranges es).
Proof.
  assert (forall (l : list (Term * gmap Term Z)) ranges, holds ranges ->
    let r := foldl (fun ranges p => foldl admit_term (admit_term ranges p.1) (entries p.2).*1) ranges l in
    holds r /\ dom ranges ⊆ dom r /\
    forall a m, (a, m) ∈ l -> a ∈ dom r /\ forall b c, m !! b = Some c -> b ∈ dom r) as Hl.
  { induction l as [|[a m] l IH]; intros ranges Hr; simpl; [split; [done|]; split; [done|]; by intros a m ?%elem_of_nil|].
    destruct (admit_terms_ok (entries m).*1 _ (admit_term_ok ranges a Hr)) as [Hh Hdom].
    destruct (IH _ Hh) as (Hh' & Hsub & Hall). split; [done|]. unfold admit_term in *. rewrite Hdom in Hsub.
    split; [set_solver|]. intros a' m' [[= -> ->]|Hin]%elem_of_cons; [|by apply Hall]. split; [set_solver|].
    intros b c Hb. apply Hsub, elem_of_union_r, elem_of_list_to_set, list_elem_of_fmap. exists (b, c).
    split; [done|]. by apply elem_of_entries. }
  destruct (Hl (entries es) ∅) as (Hh & _ & Hall); [by intros ? ? ?|]. split; [done|].
  intros t [[m Hm']|(x & c & m & Hx & Hc)]%elem_of_terms.
  - by apply (Hall t m), elem_of_entries.
  - eapply (Hall x m); [by apply elem_of_entries|done].
Qed.

Context (es : Edges).
Hypothesis Hv : sat es v.

Definition ranged (ranges : Ranges) : Prop := holds ranges /\ terms es ⊆ dom ranges.

Lemma ranged_insert ranges t (r : Z * Z) : ranged ranges -> (r.1 <= v t <= r.2)%Z -> ranged (<[t := r]> ranges).
Proof.
  intros [Hh Hd] Hr. split; [|rewrite dom_insert; etrans; [exact Hd|set_solver +]].
  intros u r' [[<- <-]|[_ Hu]]%lookup_insert_Some; [done|by apply Hh].
Qed.

Lemma narrow_edge_ok from (s : Ranges * bool) (e : Term * Z) : ranged s.1 -> edge es from e.1 e.2 ->
  exists s', narrow_edge from s e = Some s' /\ ranged s'.1.
Proof.
  destruct s as [ranges changed], e as [to weight]. cbn [fst snd]. intros [Hh Hd] He.
  destruct (edge_terms _ _ _ _ He) as [Hf Ht]. pose proof (Hv _ _ _ He) as Hle.
  apply Hd, elem_of_dom in Hf as [[flo fhi] Hf]. apply Hd, elem_of_dom in Ht as [[tlo thi] Ht].
  pose proof (Hh _ _ Hf) as HF. pose proof (Hh _ _ Ht) as HT. cbn [fst snd] in HF, HT.
  unfold narrow_edge. rewrite Hf, Ht. cbn [mbind option_bind fst snd].
  destruct (Z.ltb_spec (Z.min fhi (thi + weight)) fhi) as [H1|H1]; cbn [mbind option_bind].
  - assert (ranged (<[from := (flo, Z.min fhi (thi + weight))]> ranges)%Z) as Hr
      by (apply ranged_insert; [done|cbn [fst snd]; lia]).
    destruct (Z.ltb_spec tlo (Z.max tlo (flo - weight))); [|by eexists].
    assert (to ∈ dom (<[from := (flo, Z.min fhi (thi + weight))]> ranges)%Z) as [[lo' hi'] Hto]%elem_of_dom
      by (rewrite dom_insert; apply elem_of_union_r; by eapply elem_of_dom_2).
    rewrite Hto. cbn [mbind option_bind]. eexists. split; [done|]. cbn [fst].
    apply ranged_insert; [done|]. pose proof (proj1 Hr _ _ Hto). cbn [fst snd] in *. lia.
  - destruct (Z.ltb_spec tlo (Z.max tlo (flo - weight))); [|by eexists].
    rewrite Ht. cbn [mbind option_bind]. eexists. split; [done|]. apply ranged_insert; [done|]. cbn [fst snd] in *. lia.
Qed.

Lemma narrow_edges_ok from (l : list (Term * Z)) : forall s : Ranges * bool, ranged s.1 -> Forall (fun e => edge es from e.1 e.2) l ->
  exists s', narrow_edges from s l = Some s' /\ ranged s'.1.
Proof.
  induction l as [|e l IH]; intros s Hs Hl; [by exists s|]. apply Forall_cons in Hl as [He Hl]. simpl.
  destruct (narrow_edge_ok from s e Hs He) as (s' & -> & Hs'). by apply IH.
Qed.

Lemma narrow_nodes_ok (l : list (Term * gmap Term Z)) : forall s : Ranges * bool, ranged s.1 -> Forall (fun n => es !! n.1 = Some n.2) l ->
  exists s', narrow_nodes s l = Some s' /\ ranged s'.1.
Proof.
  induction l as [|[from m] l IH]; intros s Hs Hl; [by exists s|]. apply Forall_cons in Hl as [Hn Hl]. simpl.
  destruct (narrow_edges_ok from (entries m) s Hs) as (s' & -> & Hs'); [|by apply IH].
  apply list.Forall_forall. intros [b w] Hb%elem_of_entries. by exists m.
Qed.

Lemma narrow_ok rounds : forall ranges, ranged ranges ->
  exists ranges', narrow rounds es ranges = Some ranges' /\ ranged ranges'.
Proof.
  induction rounds as [|rounds IH]; intros ranges Hr; [by exists ranges|]. simpl.
  destruct (narrow_nodes_ok (entries es) (ranges, false) Hr) as ([ranges' changed] & -> & Hr').
  - apply list.Forall_forall. intros [a m] Ha%elem_of_entries. done.
  - simpl. destruct changed; [by apply IH|by eexists].
Qed.
End Intervals.

Section Wraps.
Context `{HashOrder} (b : Bounds) (v : Term -> Z).
Hypothesis Hm : machine v.
Hypothesis Hv : sat (edges b) v.

Lemma interval_of_ok t : exists lo hi, interval_of b t = Some (lo, hi) /\ (lo <= v t <= hi)%Z.
Proof.
  destruct (initial_ranges_ok v Hm (edges b)) as [Hh Hd].
  destruct (narrow_ok v (edges b) Hv (size (initial_ranges (edges b))) (initial_ranges (edges b))) as (r & Hr & Hok & _);
    [by split|].
  unfold interval_of, intervals. rewrite Hr. simpl. destruct (r !! t) as [[lo hi]|] eqn:Ht.
  - exists lo, hi. split; [done|]. apply (Hok _ _ Ht).
  - destruct (machine_interval t) as [lo hi] eqn:Hi. exists lo, hi. split; [done|].
    pose proof (Hm t) as Ht'. by rewrite Hi in Ht'.
Qed.

Lemma offset_does_not_wrap_ok t offset : exists fits, offset_does_not_wrap b t offset = Some fits /\
  (fits = true -> (I64_MIN <= v t + offset <= I64_MAX)%Z \/ offset = 0%Z).
Proof.
  unfold offset_does_not_wrap. destruct (Z.eqb_spec offset 0); [by eexists; split; [done|right]|].
  destruct (interval_of_ok t) as (lo & hi & -> & Hr). eexists. split; [done|].
  rewrite andb_true_iff, !Z.leb_le. lia.
Qed.

Lemma subtraction_does_not_wrap_ok x y : exists fits, subtraction_does_not_wrap b x y = Some fits /\
  (fits = true -> (I64_MIN <= v x - v y <= I64_MAX)%Z).
Proof.
  unfold subtraction_does_not_wrap. destruct (interval_of_ok x) as (xlo & xhi & -> & Hx).
  destruct (interval_of_ok y) as (ylo & yhi & -> & Hy). eexists. split; [done|].
  rewrite andb_true_iff, !Z.leb_le. lia.
Qed.
End Wraps.

(** ** No panic *)

Section Total.
Context `{HashOrder} (es : Edges).
Abbreviation Ranges := (gmap Term (Z * Z)).

Lemma narrow_edge_total from (s : Ranges * bool) (e : Term * Z) : terms es ⊆ dom s.1 -> edge es from e.1 e.2 ->
  exists s', narrow_edge from s e = Some s' /\ terms es ⊆ dom s'.1.
Proof.
  destruct s as [ranges changed], e as [to weight]. cbn [fst snd]. intros Hd He.
  assert (forall t r (m : Ranges), terms es ⊆ dom m -> terms es ⊆ dom (<[t := r]> m)) as Hins
    by (intros t r m Hm; rewrite dom_insert; etrans; [exact Hm|set_solver +]).
  destruct (edge_terms _ _ _ _ He) as [Hf Ht].
  pose proof Hf as [[flo fhi] Hf']%Hd%elem_of_dom. pose proof Ht as [[tlo thi] Ht']%Hd%elem_of_dom.
  unfold narrow_edge. rewrite Hf', Ht'. cbn [mbind option_bind fst snd].
  destruct (_ <? fhi)%Z; cbn [mbind option_bind].
  - destruct (tlo <? _)%Z; [|eexists; split; [done|by apply Hins]].
    apply (Hins from (flo, Z.min fhi (thi + weight))%Z) in Hd.
    pose proof Ht as [[lo' hi'] Hto]%Hd%elem_of_dom. rewrite Hto. cbn. eexists. split; [done|]. by apply Hins.
  - destruct (tlo <? _)%Z; [|by eexists]. rewrite Ht'. cbn. eexists. split; [done|]. by apply Hins.
Qed.

Lemma narrow_total rounds : forall ranges : Ranges, terms es ⊆ dom ranges -> exists ranges', narrow rounds es ranges = Some ranges'.
Proof.
  assert (forall from (l : list (Term * Z)) (s : Ranges * bool), terms es ⊆ dom s.1 -> Forall (fun e => edge es from e.1 e.2) l ->
    exists s', narrow_edges from s l = Some s' /\ terms es ⊆ dom s'.1) as Hedges.
  { intros from l. induction l as [|e l IH]; intros s Hs Hl; [by exists s|]. apply Forall_cons in Hl as [He Hl]. simpl.
    destruct (narrow_edge_total from s e Hs He) as (s' & -> & Hs'). by apply IH. }
  assert (forall (l : list (Term * gmap Term Z)) (s : Ranges * bool), terms es ⊆ dom s.1 -> Forall (fun n => es !! n.1 = Some n.2) l ->
    exists s', narrow_nodes s l = Some s' /\ terms es ⊆ dom s'.1) as Hnodes.
  { intros l. induction l as [|[from m] l IH]; intros s Hs Hl; [by exists s|]. apply Forall_cons in Hl as [Hn Hl]. simpl.
    destruct (Hedges from (entries m) s Hs) as (s' & -> & Hs'); [|by apply IH].
    apply list.Forall_forall. intros [b w] Hb%elem_of_entries. by exists m. }
  induction rounds as [|rounds IH]; intros ranges Hr; [by exists ranges|]. simpl.
  destruct (Hnodes (entries es) (ranges, false) Hr) as ([ranges' changed] & -> & Hr').
  - apply list.Forall_forall. intros [a m] Ha%elem_of_entries. done.
  - simpl. destruct changed; [by apply IH|by eexists].
Qed.
End Total.

Lemma interval_of_total `{HashOrder} b t : exists r, interval_of b t = Some r.
Proof.
  destruct (initial_ranges_ok (fun t => (machine_interval t).1) (fun t => ltac:(by destruct t)) (edges b)) as [_ Hd].
  unfold interval_of, intervals. destruct (narrow_total (edges b) (size (initial_ranges (edges b))) _ Hd) as (r & ->). by eexists.
Qed.

Lemma offset_does_not_wrap_total `{HashOrder} b t o : exists fits, offset_does_not_wrap b t o = Some fits.
Proof.
  unfold offset_does_not_wrap. case_match; [by eexists|]. destruct (interval_of_total b t) as ([lo hi] & ->). by eexists.
Qed.

Lemma subtraction_does_not_wrap_total `{HashOrder} b x y : exists fits, subtraction_does_not_wrap b x y = Some fits.
Proof.
  unfold subtraction_does_not_wrap. destruct (interval_of_total b x) as ([? ?] & ->).
  destruct (interval_of_total b y) as ([? ?] & ->). by eexists.
Qed.
