(* ===== verification/BoundsSem.v ===== *)
(** * What the bounds graph says of a run

    Values as far as bounds see them, what a binding's value may be, and when a graph describes
    an environment.  Adding an edge that holds keeps the description. *)

From S2P Require Import Prelude Types Ir Bounds BoundsGraph.
From stdpp Require Import gmap list.
From Stdlib Require Import ZArith Lia.

(** ** Values *)

(** Integers, arrays by their length, booleans, and data by its fields. *)
Inductive Value := V_Int (n : Z) | V_Arr (len : Z) | V_Bool (b : bool) | V_Data (fields : list Value) | V_Other.

(** What the machine can hold: an array's slots, of eight bytes, are one allocation. *)
Inductive value_ok : Value -> Prop :=
| ok_int n : (I64_MIN <= n <= I64_MAX)%Z -> value_ok (V_Int n)
| ok_arr n : (0 <= n <= ARRAY_LEN_MAX)%Z -> value_ok (V_Arr n)
| ok_bool b : value_ok (V_Bool b)
| ok_data vs : Forall value_ok vs -> value_ok (V_Data vs)
| ok_other : value_ok V_Other.

Definition int_of (v : Value) : Z := match v with V_Int n => n | _ => 0 end.
Definition len_of (v : Value) : Z := match v with V_Arr n => n | _ => 0 end.

Abbreviation Locals := (LocalId -> Value).
Definition bind_local (rho : Locals) (x : LocalId) (v : Value) : Locals :=
  fun y => if decide (y = x) then v else rho y.
Definition locals_ok (rho : Locals) : Prop := forall x, value_ok (rho x).

Definition term_val (rho : Locals) (t : Term) : Z :=
  match t with T_Zero => 0 | T_Int x => int_of (rho x) | T_Len x => len_of (rho x) end.

(** ** Bindings *)

Definition lit_value (l : Lit) : Value :=
  match l with Lit_Int n => V_Int n | Lit_Bool b => V_Bool b | _ => V_Other end.

(** The value of an operand; one that is no atom may have any. *)
Definition operand (rho : Locals) (e : CExpr) (v : Value) : Prop :=
  value_ok v /\ match ce_kind e with K_Local x => v = rho x | K_Lit l => v = lit_value l | _ => True end.

(** The results of a primitive that does not abort, as the runtime defines them; a primitive
    the bounds do not interpret may have any. *)
Definition prim_result (op : Prim) (vs : list Value) (v : Value) : Prop :=
  match op, vs with
  | P_IntAdd, [V_Int x; V_Int y] => v = V_Int (wrap64 (x + y))
  | P_IntSub, [V_Int x; V_Int y] => v = V_Int (wrap64 (x - y))
  | P_IntAnd, [V_Int x; V_Int y] => v = V_Int (Z.land x y)
  | P_IntRem, [V_Int x; V_Int y] => y ≠ 0%Z /\ v = V_Int (Z.rem x y)
  | P_IntLt, [V_Int x; V_Int y] => v = V_Bool (x <? y)%Z
  | P_IntLe, [V_Int x; V_Int y] => v = V_Bool (x <=? y)%Z
  | P_IntGt, [V_Int x; V_Int y] => v = V_Bool (y <? x)%Z
  | P_IntGe, [V_Int x; V_Int y] => v = V_Bool (y <=? x)%Z
  | P_Eq, [V_Int x; V_Int y] => v = V_Bool (x =? y)%Z
  | P_Eq, [V_Int _; _] | P_Eq, [_; V_Int _] => False
  | P_Eq, [_; _] => exists b, v = V_Bool b
  | P_ArrayLength, [V_Arr n] => v = V_Int n
  | P_ArrayWithCapacity, [V_Int _] => v = V_Arr 0
  | P_ArrayRepeat, [V_Int n; _] => v = V_Arr (Z.max n 0)
  | (P_ArrayPush | P_ArrayPushReserved), [V_Arr n; _] => v = V_Arr (n + 1)
  | P_ArraySet, [V_Arr n; V_Int i; _] => (0 <= i < n)%Z /\ v = V_Arr n
  | P_ArrayPut, [V_Arr n; V_Int i; _] => v = V_Arr n
  | P_ArrayUnique, [V_Arr n] => v = V_Arr n
  | (P_ArrayGet | P_ArrayPeek), [V_Arr n; V_Int i] => (0 <= i < n)%Z
  | (P_IntAdd | P_IntSub | P_IntAnd | P_IntRem | P_IntLt | P_IntLe | P_IntGt | P_IntGe | P_Eq | P_ArrayLength
     | P_ArrayWithCapacity | P_ArrayRepeat | P_ArrayPush | P_ArrayPushReserved | P_ArraySet | P_ArrayPut
     | P_ArrayUnique | P_ArrayGet | P_ArrayPeek), _ => False
  | _, _ => True
  end.

(** The values a binding may get. *)
Definition let_value (rho : Locals) (value : CExpr) (v : Value) : Prop :=
  value_ok v /\
  match ce_kind (peel_rc value) with
  | K_Lit l => v = lit_value l
  | K_Local x => v = rho x
  | K_Prim op args => exists vs, Forall2 (operand rho) args vs /\ prim_result op vs v
  | K_DataField base (FI_Const k) _ _ =>
      exists fields, operand rho base (V_Data fields) /\ fields !! Z.to_nat k = Some v
  | _ => True
  end.

(** ** Signatures *)

(** A component of a result: the whole, or a field. *)
Definition component (u : Value) (f : Z) : option Value :=
  if decide (f = WHOLE) then Some u else match u with V_Data fields => fields !! Z.to_nat f | _ => None end.
Definition rterm_val (vs : list Value) (u : Value) (t : RTerm) : option Z :=
  match t with
  | RT_Zero => Some 0%Z
  | RT_Param i => int_of <$> vs !! Z.to_nat i
  | RT_LenParam i => len_of <$> vs !! Z.to_nat i
  | RT_ResultVal f => int_of <$> component u f
  | RT_ResultLen f => len_of <$> component u f
  end.
(** The facts of a result signature hold of arguments and a result. *)
Definition result_holds (sig : ResultSig) (vs : list Value) (u : Value) : Prop :=
  forall x y c a b, (x, y, c) ∈ result_edges sig -> rterm_val vs u x = Some a -> rterm_val vs u y = Some b ->
    (a <= b + c)%Z.

Definition pterm_val (vs : list Value) (t : PTerm) : option Z :=
  match t with
  | PT_Zero => Some 0%Z
  | PT_Param i => int_of <$> vs !! Z.to_nat i
  | PT_LenParam i => len_of <$> vs !! Z.to_nat i
  end.
Definition entry_holds (sig : BoundSig) (vs : list Value) : Prop :=
  forall x y c a b, (x, y, c) ∈ bound_edges sig -> pterm_val vs x = Some a -> pterm_val vs y = Some b -> (a <= b + c)%Z.

(** ** A graph describes an environment *)

(** The truth of a recorded comparison. *)
Definition cond_holds (rho : Locals) (l : LocalId) (c : Cond) : Prop :=
  exists b, rho l = V_Bool b /\
    let x := (term_val rho (c_lhs c) + c_lhs_off c)%Z in
    let y := (term_val rho (c_rhs c) + c_rhs_off c)%Z in
    match c_op c with
    | P_IntLt => b = (x <? y)%Z
    | P_IntLe => b = (x <=? y)%Z
    | P_IntGt => b = (y <? x)%Z
    | P_IntGe => b = (y <=? x)%Z
    | P_Eq => if b then x = y else c_lhs c = T_Zero \/ c_rhs c = T_Zero -> x ≠ y
    | _ => True
    end.

Record describes (b : Bounds) (rho : Locals) : Prop := {
  ds_graph : graph_ok b;
  ds_locals : locals_ok rho;
  ds_edges : sat (edges b) (term_val rho);
  ds_conds : forall l c, conds b !! l = Some c -> cond_holds rho l c;
  ds_subs : forall l x y, subs b !! l = Some (x, y) ->
    int_of (rho l) = (term_val rho x - term_val rho y)%Z;
  ds_calls : forall l sig args, call_results b !! l = Some (sig, args) -> exists vs,
    result_holds sig vs (rho l) /\ forall i x, args !! i = Some (Some x) -> vs !! i = Some (rho x) }.

Lemma ARRAY_LEN_MAX_eq : ARRAY_LEN_MAX = (2 ^ 60 - 1)%Z.
Proof. done. Qed.

Lemma describes_machine b rho : describes b rho -> machine (term_val rho).
Proof.
  intros Hd t. assert (forall x, (I64_MIN <= int_of (rho x) <= I64_MAX /\ 0 <= len_of (rho x) <= ARRAY_LEN_MAX)%Z) as Hx.
  { intros x. pose proof (ds_locals _ _ Hd x) as Hok. rewrite ARRAY_LEN_MAX_eq. unfold I64_MIN, I64_MAX.
    destruct Hok as [n Hn|n Hn| | |]; unfold I64_MIN, I64_MAX in *; rewrite ?ARRAY_LEN_MAX_eq in *; cbn [int_of len_of]; lia. }
  destruct t as [|x|x]; [split; done|apply Hx..].
Qed.

Lemma describes_new rho : locals_ok rho -> describes new_bounds rho.
Proof.
  intros Hok. split; [|done|..].
  - intros _. split; [|by apply Nat.leb_le]. intros x y c (m & Hm & _). cbn in Hm; by rewrite lookup_empty in Hm.
  - intros x y c (m & Hm & _). cbn in Hm; by rewrite lookup_empty in Hm.
  - intros l c Hc. cbn in Hc; by rewrite lookup_empty in Hc.
  - intros l x y Hc. cbn in Hc; by rewrite lookup_empty in Hc.
  - intros l sig args Hc. cbn in Hc; by rewrite lookup_empty in Hc.
Qed.

(** ** Edges *)

Lemma edge_tighten es from to c x y w :
  edge (tighten from to c es) x y w ->
  edge es x y w \/ x = from /\ y = to /\ (w = c \/ edge es from to w).
Proof.
  unfold tighten. intros (m & [[<- <-]|[_ Hx]]%lookup_insert_Some & Hy).
  - apply lookup_insert_Some in Hy as [[<- <-]|[_ Hy]].
    + right. split_and!; [done..|]. destruct (es !! from) as [m|] eqn:Hf; simpl; [|left; rewrite lookup_empty; simpl; lia].
      destruct (m !! to) as [w|] eqn:Hw; simpl; [|left; lia].
      destruct (Z.min_spec c w) as [[_ ->]|[_ ->]]; [by left|right; by exists m].
    + left. destruct (es !! from) as [m|] eqn:Hf; simpl in Hy; [by exists m|by rewrite lookup_empty in Hy].
  - left. by exists m.
Qed.

Lemma terms_tighten es from to c : terms (tighten from to c es) ⊆ {[from; to]} ∪ terms es.
Proof.
  intros t [[m Hm]|(x & w & He)]%elem_of_terms.
  - unfold tighten in Hm. apply lookup_insert_Some in Hm as [[<- _]|[_ Hm]]; [set_solver|].
    apply elem_of_union_r, elem_of_terms. left. by exists m.
  - destruct (edge_tighten _ _ _ _ _ _ _ He) as [He'|(-> & -> & _)]; [|set_solver].
    apply elem_of_union_r. by apply (edge_terms _ _ _ _ He').
Qed.

Lemma add_edge_graph from to c b : graph_ok b -> graph_ok (add_edge from to c b).
Proof.
  intros Hb. unfold add_edge. destruct (poisoned b || _) eqn:Hp; [done|].
  apply orb_false_iff in Hp as [Hp _]. specialize (Hb Hp).
  destruct (in_cap c) eqn:Hc; [|by intros _]. cbn [negb].
  destruct (_ && _) eqn:Hn; [by intros [=]|]. intros _. unfold in_cap in Hc.
  apply andb_true_iff in Hc as [H1%Z.leb_le H2%Z.leb_le]. split.
  - intros x y w He. destruct (edge_tighten _ _ _ _ _ _ _ He) as [He'|(-> & -> & [->|He'])];
      [by apply (cp_weight _ Hb _ _ _ He')|done|by apply (cp_weight _ Hb _ _ _ He')].
  - etrans; [apply subseteq_size, terms_tighten|].
    pose proof (cp_size _ Hb) as Hs. unfold has_term, term_count in Hn.
    apply andb_false_iff in Hn as [Hn%Nat.ltb_ge|Hn%Nat.ltb_ge].
    + do 2 case_bool_decide; try lia. by replace ({[from; to]} ∪ terms (edges b)) with (terms (edges b)) by set_solver.
    + etrans; [|exact Hn]. assert (forall (t : Term) (X : gset Term), size ({[t]} ∪ X) <= size X + 1) as Hadd.
      { intros t X. rewrite size_union_alt, size_singleton. assert (size (X ∖ {[t]}) <= size X); [|lia].
        apply subseteq_size. set_solver +. }
      pose proof (Hadd from ({[to]} ∪ terms (edges b))). pose proof (Hadd to (terms (edges b))).
      pose proof (Hadd from (terms (edges b))). rewrite <- (assoc_L (∪)).
      do 2 case_bool_decide.
      * replace ({[from]} ∪ ({[to]} ∪ terms (edges b))) with (terms (edges b)) by set_solver. lia.
      * replace ({[from]} ∪ ({[to]} ∪ terms (edges b))) with ({[to]} ∪ terms (edges b)) by set_solver. lia.
      * replace ({[from]} ∪ ({[to]} ∪ terms (edges b))) with ({[from]} ∪ terms (edges b)) by set_solver. lia.
      * lia.
Qed.

(** The parts of a graph an edge leaves alone. *)
Lemma add_edge_rest from to c b :
  conds (add_edge from to c b) = conds b /\ call_results (add_edge from to c b) = call_results b /\
  subs (add_edge from to c b) = subs b.
Proof. unfold add_edge. by repeat case_match. Qed.

Lemma add_edge_sat from to c b v :
  sat (edges b) v -> (v from <= v to + c)%Z -> sat (edges (add_edge from to c b)) v.
Proof.
  intros Hv Hle. unfold add_edge. repeat (case_match; [done|]). intros x y w He.
  destruct (edge_tighten _ _ _ _ _ _ _ He) as [He'|(-> & -> & [->|He'])]; [by apply Hv|done|by apply Hv].
Qed.

Lemma add_edge_describes from to c b rho :
  describes b rho -> (term_val rho from <= term_val rho to + c)%Z -> describes (add_edge from to c b) rho.
Proof.
  intros [Hg Hl He Hc Hs Hr] Hle. destruct (add_edge_rest from to c b) as (Ec & Er & Es).
  split; rewrite ?Ec, ?Er, ?Es; try done; [by apply add_edge_graph|by apply add_edge_sat].
Qed.

Lemma add_eq_describes x y c b rho :
  describes b rho -> (term_val rho x = term_val rho y + c)%Z -> describes (add_eq x y c b) rho.
Proof.
  intros Hd Heq. unfold add_eq, to_i64. assert (describes (add_edge x y c b) rho) as Hd' by (apply add_edge_describes; [done|lia]).
  destruct (i64_fits (- c)); [|done]. apply add_edge_describes; [done|lia].
Qed.

Lemma set_const_describes t n b rho : describes b rho -> term_val rho t = n -> describes (set_const t n b) rho.
Proof. intros Hd Ht. apply add_eq_describes; [done|]. simpl. lia. Qed.

Lemma set_ge_describes t n b rho : describes b rho -> (n <= term_val rho t)%Z -> describes (set_ge t n b) rho.
Proof.
  intros Hd Ht. unfold set_ge, to_i64. destruct (i64_fits (- n)); [|done]. apply add_edge_describes; [done|simpl; lia].
Qed.

(** ** Questions *)

Section Queries.
Context `{HashOrder} (b : Bounds) (rho : Locals).
Hypothesis Hd : describes b rho.

Lemma entails_le_describes x y c : entails_le b x y c = true -> (term_val rho x <= term_val rho y + c)%Z.
Proof. apply entails_le_sound; [apply (ds_graph _ _ Hd)|apply (ds_edges _ _ Hd)]. Qed.

Lemma entails_nonneg_describes t : entails_nonneg b t = true -> (0 <= term_val rho t)%Z.
Proof. intros Hx%entails_le_describes. simpl in Hx. lia. Qed.
End Queries.

Create HintDb bounds.
#[export] Hint Resolve add_edge_describes add_eq_describes set_const_describes set_ge_describes : bounds.
