(* ===== verification/BoundsFlow.v ===== *)
(** * Bounds along a run

    Every transfer function of [bounds.rs] keeps a graph a description of the environment: at a
    binding, of the environment with the new local; at a branch, of the same one. *)

From S2P Require Import Prelude Types Ir Bounds BoundsGraph BoundsSem.
From stdpp Require Import gmap list.
From Stdlib Require Import ZArith Lia.

(** ** A local the graph does not mention *)

Definition term_local (t : Term) : option LocalId :=
  match t with T_Zero => None | T_Int x | T_Len x => Some x end.
Record unmentioned (l : LocalId) (b : Bounds) : Prop := {
  um_terms : forall t, t ∈ terms (edges b) -> term_local t ≠ Some l;
  um_conds : forall k c, conds b !! k = Some c -> k ≠ l /\ term_local (c_lhs c) ≠ Some l /\ term_local (c_rhs c) ≠ Some l;
  um_subs : forall k x y, subs b !! k = Some (x, y) -> k ≠ l /\ term_local x ≠ Some l /\ term_local y ≠ Some l;
  um_calls : forall k sig args, call_results b !! k = Some (sig, args) -> k ≠ l /\ Some l ∉ args }.

Lemma bind_local_eq rho l v : bind_local rho l v l = v.
Proof. unfold bind_local. by rewrite decide_True. Qed.
Lemma bind_local_ne rho l v x : x ≠ l -> bind_local rho l v x = rho x.
Proof. intros Hx. unfold bind_local. by rewrite decide_False. Qed.

Lemma term_val_bind rho l v t : term_local t ≠ Some l -> term_val (bind_local rho l v) t = term_val rho t.
Proof. destruct t; simpl; intros Ht; [done|by rewrite bind_local_ne by congruence..]. Qed.

Lemma locals_ok_bind rho l v : locals_ok rho -> value_ok v -> locals_ok (bind_local rho l v).
Proof. intros Hr Hv x. unfold bind_local. by case_decide. Qed.

Lemma describes_bind b rho l v : describes b rho -> unmentioned l b -> value_ok v -> describes b (bind_local rho l v).
Proof.
  intros [Hg Hl He Hc Hs Hr] [Ut Uc Us Ur] Hv. split; [done|by apply locals_ok_bind|..].
  - intros x y c Hxy. destruct (edge_terms _ _ _ _ Hxy). rewrite !term_val_bind by auto. by apply He.
  - intros k c Hk. destruct (Uc _ _ Hk) as (Hne & H1 & H2). destruct (Hc _ _ Hk) as (u & Hu & Hop).
    exists u. rewrite bind_local_ne, !term_val_bind by done. done.
  - intros k x y Hk. destruct (Us _ _ _ Hk) as (Hne & H1 & H2). rewrite bind_local_ne, !term_val_bind by done. by apply Hs.
  - intros k sig args Hk. destruct (Ur _ _ _ Hk) as (Hne & Hin). destruct (Hr _ _ _ Hk) as (vs & Hvs & Hargs).
    exists vs. rewrite bind_local_ne by done. split; [done|]. intros i x Hi. rewrite bind_local_ne; [by apply Hargs|].
    intros ->. by apply list_elem_of_lookup_2 in Hi.
Qed.

(** ** Operands *)

(** What an operand the code looks at is. *)
Lemma operand_atom rho e u : operand rho e u ->
  match int_atom e with Some (A_Local x) => u = rho x | Some (A_Int n) => u = V_Int n | None => True end.
Proof. unfold operand, int_atom. intros [_ Hu]. destruct (ce_kind e); try done. by destruct l. Qed.

Lemma operand_bind rho l v e u : as_local e ≠ Some l -> operand rho e u -> operand (bind_local rho l v) e u.
Proof.
  unfold operand, as_local, int_atom. intros Hl [Hok Hu]. split; [done|]. destruct (ce_kind e); try done.
  by rewrite bind_local_ne by congruence.
Qed.

Lemma operand_term_off rho e u t off :
  operand rho e u -> atom_term_off e = Some (t, off) -> int_of u = (term_val rho t + off)%Z.
Proof.
  intros Hu%operand_atom. unfold atom_term_off. destruct (int_atom e) as [[]|]; [..|done];
    intros [= <- <-]; subst; simpl; lia.
Qed.

Lemma operand_term rho e u t : operand rho e u -> atom_term e = Some t -> int_of u = term_val rho t.
Proof.
  intros Hu%operand_atom. unfold atom_term. destruct (int_atom e) as [[]|]; [|case_decide; [|done]|done];
    intros [= <-]; by subst.
Qed.

Lemma operand_local rho e u x : operand rho e u -> as_local e = Some x -> u = rho x.
Proof.
  intros Hu%operand_atom. unfold as_local. destruct (int_atom e) as [[]|]; try done. by intros [= <-].
Qed.

Lemma Forall2_operand_bind rho l v args vs :
  Forall (fun a => as_local a ≠ Some l) args -> Forall2 (operand rho) args vs ->
  Forall2 (operand (bind_local rho l v)) args vs.
Proof.
  intros Hl H2. induction H2 as [|a u args vs Ha _ IH]; constructor.
  - apply operand_bind; [by apply Forall_inv in Hl|done].
  - by apply IH, (Forall_inv_tail Hl).
Qed.

(** A list of operands of a known length. *)
Ltac operands H :=
  repeat match type of H with
  | Forall2 _ _ (_ :: _) => let a := fresh "a" in let Ha := fresh "Ha" in
      apply Forall2_cons_inv_r in H as (a & ? & Ha & H & ->)
  | Forall2 _ _ [] => apply Forall2_nil_inv_r in H as ->
  end.

Lemma wrap64_id z : (I64_MIN <= z <= I64_MAX)%Z -> wrap64 z = z.
Proof. unfold wrap64, I64_MIN, I64_MAX. intros Hz. rewrite Z.mod_small by lia. lia. Qed.

(** ** Primitives *)

Section Transfer.
Context `{HashOrder} (l : LocalId) (rho : Locals).

(** A sum that fits is exact. *)
Lemma offset_describes b x k :
  describes b rho -> rho l = V_Int (wrap64 (int_of (rho x) + k)) ->
  exists fits, offset_does_not_wrap b (T_Int x) k = Some fits /\
    describes (if fits : bool then add_eq (T_Int l) (T_Int x) k b else b) rho.
Proof.
  intros Hd Hl. pose proof (describes_machine _ _ Hd) as Hm.
  destruct (offset_does_not_wrap_ok b _ Hm (ds_edges _ _ Hd) (T_Int x) k) as (fits & -> & Hfits).
  exists fits. split; [done|]. destruct fits; [|done]. apply add_eq_describes; [done|]. simpl. rewrite Hl. simpl.
  apply wrap64_id. pose proof (Hm (T_Int x)) as Hx. simpl in Hx, Hfits. destruct (Hfits eq_refl); [done|lia].
Qed.

Lemma difference_describes b x y :
  describes b rho -> rho l = V_Int (wrap64 (int_of (rho x) - int_of (rho y))) ->
  exists fits, subtraction_does_not_wrap b (T_Int x) (T_Int y) = Some fits /\
    describes (if fits : bool then insert_sub l (T_Int x, T_Int y) b else b) rho.
Proof.
  intros Hd Hl. pose proof (describes_machine _ _ Hd) as Hm.
  destruct (subtraction_does_not_wrap_ok b _ Hm (ds_edges _ _ Hd) (T_Int x) (T_Int y)) as (fits & -> & Hfits).
  exists fits. split; [done|]. destruct fits; [|done]. destruct Hd as [Hg Ho He Hc Hs Hr]. split; try done.
  intros k t u Hk. cbn in Hk. apply lookup_insert_Some in Hk as [[<- [= <- <-]]|[_ Hk]]; [|by apply Hs].
  simpl. rewrite Hl. simpl. apply wrap64_id. by apply Hfits.
Qed.

Lemma transfer_addsub_describes (subtract : bool) args b x y :
  describes b rho -> Forall2 (operand rho) args [V_Int x; V_Int y] ->
  rho l = V_Int (wrap64 (if subtract then x - y else x + y)) ->
  exists b', transfer_addsub l args subtract b = Some b' /\ describes b' rho.
Proof.
  intros Hd Hargs Hl. operands Hargs. cbn [transfer_addsub].
  pose proof (operand_atom _ _ _ Ha) as H1. pose proof (operand_atom _ _ _ Ha0) as H2.
  destruct (int_atom a) as [[p|p]|], (int_atom a0) as [[q|q]|]; try (by eexists).
  - destruct subtract; [|by eexists]. case_decide as Hpq.
    + subst q. eexists. split; [done|]. apply set_const_describes; [done|]. simpl. rewrite Hl. rewrite <- H1 in H2.
      injection H2 as ->. by rewrite Z.sub_diag.
    + destruct (difference_describes b p q Hd) as (fits & -> & Hd'); [by rewrite Hl, <- H1, <- H2|]. by eexists.
  - injection H2 as ->. destruct subtract.
    + unfold to_i64. destruct (i64_fits (- q)); [|by eexists].
      destruct (offset_describes b p (- q) Hd) as (fits & -> & Hd'); [by rewrite Hl, <- H1|]. by eexists.
    + destruct (offset_describes b p q Hd) as (fits & -> & Hd'); [by rewrite Hl, <- H1|]. by eexists.
  - injection H1 as ->. destruct subtract; [by eexists|].
    destruct (offset_describes b q p Hd) as (fits & -> & Hd'); [by rewrite Hl, <- H2, Z.add_comm|]. by eexists.
  - injection H1 as ->. injection H2 as ->. eexists. split; [done|]. apply set_const_describes; [done|].
    simpl. rewrite Hl. by destruct subtract.
Qed.

Lemma try_masks_describes masks b m z :
  describes b rho -> Forall (fun e => exists n, operand rho e (V_Int n) /\
    ((0 <= n)%Z -> (0 <= z <= n)%Z)) masks -> rho l = V_Int z -> m = try_masks l masks b -> describes m rho.
Proof.
  intros Hd Hms Hl ->. induction Hms as [|e masks (n & He & Hn) _ IH]; [done|]. simpl.
  destruct (atom_term e) as [t|] eqn:Ht; [|done]. destruct (entails_nonneg b t) eqn:Hnn; [|done].
  apply (entails_nonneg_describes b rho Hd) in Hnn. rewrite <- (operand_term _ _ _ _ He Ht) in Hnn. specialize (Hn Hnn).
  apply add_edge_describes; [apply set_ge_describes; [done|]|]; simpl; rewrite Hl; simpl; [lia|].
  rewrite <- (operand_term _ _ _ _ He Ht). simpl. lia.
Qed.

Lemma land_mask x y : (0 <= y)%Z -> (0 <= Z.land x y <= y)%Z.
Proof.
  intros Hy. split; [apply Z.land_nonneg; by right|].
  assert (y - Z.land x y = Z.ldiff y (Z.land x y))%Z as Hsub.
  { apply Z.sub_nocarry_ldiff. apply Z.bits_inj'. intros n _. rewrite Z.ldiff_spec, Z.land_spec, Z.bits_0. by destruct (Z.testbit x n), (Z.testbit y n). }
  assert (0 <= Z.ldiff y (Z.land x y))%Z by (apply Z.ldiff_nonneg; by left). lia.
Qed.

Lemma transfer_mask_describes args b x y :
  describes b rho -> Forall2 (operand rho) args [V_Int x; V_Int y] -> rho l = V_Int (Z.land x y) ->
  describes (transfer_mask l args b) rho.
Proof.
  intros Hd Hargs Hl. operands Hargs. simpl. eapply (try_masks_describes [a0; a]); [done| |exact Hl|done].
  constructor; [exists y; split; [done|apply land_mask]|].
  constructor; [exists x; split; [done|rewrite Z.land_comm; apply land_mask]|done].
Qed.

Lemma transfer_rem_describes args b x y :
  describes b rho -> Forall2 (operand rho) args [V_Int x; V_Int y] -> y ≠ 0%Z -> rho l = V_Int (Z.rem x y) ->
  describes (transfer_rem l args b) rho.
Proof.
  intros Hd Hargs Hy Hl. operands Hargs. unfold transfer_rem. simpl. destruct (atom_term a) as [t|] eqn:Ht; [|done].
  simpl. destruct (entails_nonneg b t) eqn:Hn; [|done]. apply (entails_nonneg_describes b rho Hd) in Hn.
  apply set_ge_describes; [done|]. simpl. rewrite Hl. simpl. apply Z.rem_nonneg; [done|].
  by rewrite <- (operand_term _ _ _ _ Ha Ht) in Hn.
Qed.

Lemma transfer_repeat_describes args b n u :
  describes b rho -> Forall2 (operand rho) args [V_Int n; u] -> rho l = V_Arr (Z.max n 0) ->
  describes (transfer_repeat l args b) rho.
Proof.
  intros Hd Hargs Hl. operands Hargs. unfold transfer_repeat. simpl. pose proof (operand_atom _ _ _ Ha) as H1.
  assert (term_val rho (T_Len l) = Z.max n 0) as Hlen by (simpl; by rewrite Hl).
  assert (describes (set_ge (T_Len l) 0 b) rho) as Hd1 by (apply set_ge_describes; [done|lia]).
  destruct (int_atom a) as [[c|c]|]; [|injection H1 as <-; by apply set_const_describes|done].
  assert (term_val rho (T_Int c) = n) as Hc by (simpl; by rewrite <- H1).
  assert (describes (add_edge (T_Int c) (T_Len l) 0 (set_ge (T_Len l) 0 b)) rho) as Hd2
    by (apply add_edge_describes; [done|lia]).
  destruct (entails_nonneg _ _) eqn:Hn; [|done]. apply (entails_nonneg_describes _ rho Hd2) in Hn.
  apply add_eq_describes; [done|lia].
Qed.

Lemma transfer_access_describes args b n i us :
  describes b rho -> Forall2 (operand rho) args (V_Arr n :: V_Int i :: us) -> (0 <= i < n)%Z ->
  describes (transfer_access args b) rho.
Proof.
  intros Hd Hargs Hi. operands Hargs. unfold transfer_access. simpl.
  destruct (as_local a) as [x|] eqn:Hx; [|done]. simpl. destruct (atom_term_off a0) as [[t off]|] eqn:Ht; [|done]. simpl.
  pose proof (operand_term_off _ _ _ _ _ Ha0 Ht) as Hto. simpl in Hto. apply (operand_local _ _ _ _ Ha) in Hx.
  assert (term_val rho (T_Len x) = n) as Hn by (simpl; by rewrite <- Hx).
  assert (describes (add_edge T_Zero t off b) rho) as Hd1 by (apply add_edge_describes; [done|simpl; lia]).
  unfold to_i64. destruct (i64_fits (- off)); simpl; [|done]. destruct (i64_fits (- off - 1)); simpl; [|done].
  apply add_edge_describes; [done|]. simpl in *. lia.
Qed.

(** ** Every primitive *)

Lemma insert_cond_describes b op t1 o1 t2 o2 :
  describes b rho -> cond_holds rho l (MkCond op t1 o1 t2 o2) -> describes (insert_cond l (MkCond op t1 o1 t2 o2) b) rho.
Proof.
  intros [Hg Ho He Hc Hs Hr] Hcond. split; try done.
  intros k c Hk. cbn in Hk. apply lookup_insert_Some in Hk as [[<- <-]|[_ Hk]]; [done|by apply Hc].
Qed.

Lemma zero_atom e u t off : operand rho e u -> atom_term_off e = Some (t, off) -> t = T_Zero -> exists n, u = V_Int n.
Proof.
  intros Hu%operand_atom. unfold atom_term_off. destruct (int_atom e) as [[]|]; [..|done]; intros [= <- <-]; [done|]. eauto.
Qed.

Lemma transfer_cond_describes op args b vs :
  describes b rho -> Forall2 (operand rho) args vs -> prim_result op vs (rho l) ->
  op ∈ [P_IntLt; P_IntLe; P_IntGt; P_IntGe; P_Eq] ->
  describes (match args !! 0 ≫= atom_term_off, args !! 1 ≫= atom_term_off with
    | Some (t1, o1), Some (t2, o2) => insert_cond l (MkCond op t1 o1 t2 o2) b
    | _, _ => b end) rho.
Proof.
  intros Hd Hargs Hv Hop. destruct args as [|a1 [|a2 args]]; simpl; [done|by destruct (atom_term_off a1) as [[]|]|].
  destruct (atom_term_off a1) as [[t1 o1]|] eqn:H1; [|done]. destruct (atom_term_off a2) as [[t2 o2]|] eqn:H2; [|done].
  apply Forall2_cons_inv_l in Hargs as (u1 & ? & Hu1 & Hargs & ->).
  apply Forall2_cons_inv_l in Hargs as (u2 & rest & Hu2 & Hargs & ->).
  apply insert_cond_describes; [done|].
  pose proof (operand_term_off _ _ _ _ _ Hu1 H1) as E1. pose proof (operand_term_off _ _ _ _ _ Hu2 H2) as E2.
  unfold cond_holds. cbn [c_op c_lhs c_lhs_off c_rhs c_rhs_off]. rewrite <- E1, <- E2.
  assert (t1 = T_Zero \/ t2 = T_Zero -> exists n, u1 = V_Int n \/ u2 = V_Int n) as Hz.
  { intros [Hz|Hz]; [destruct (zero_atom _ _ _ _ Hu1 H1 Hz) as [n ->]|destruct (zero_atom _ _ _ _ Hu2 H2 Hz) as [n ->]];
      exists n; auto. }
  assert (forall r : bool, rho l = V_Bool r -> exists b, rho l = V_Bool b /\ b = r) as Hord by eauto.
  repeat (apply elem_of_cons in Hop as [->|Hop]); [..|by apply elem_of_nil in Hop];
    destruct u1 as [n1| | | |], u2 as [n2| | | |], rest; try done; try (by apply Hord).
  { exists (n1 =? n2)%Z. split; [done|]. simpl. by destruct (Z.eqb_spec n1 n2). }
  all: destruct Hv as [r Hv]; exists r; (split; [done|]);
    destruct r; try done; intros Hz'; destruct (Hz Hz') as [n [|]]; done.
Qed.

(** A result of the same length as its first operand, or one longer. *)
Lemma same_length_describes a args b n us k :
  describes b rho -> Forall2 (operand rho) (a :: args) (V_Arr n :: us) -> rho l = V_Arr (n + k) ->
  describes (match as_local a with Some x => add_eq (T_Len l) (T_Len x) k b | None => b end) rho.
Proof.
  intros Hd Hargs Hl. apply Forall2_cons in Hargs as [Ha _]. destruct (as_local a) as [x|] eqn:Hx; [|done].
  apply (operand_local _ _ _ _ Ha) in Hx. apply add_eq_describes; [done|]. simpl. by rewrite Hl, <- Hx.
Qed.

Lemma transfer_op_describes op args b vs :
  describes b rho -> Forall2 (operand rho) args vs -> prim_result op vs (rho l) ->
  exists b', transfer_op l op args b = Some b' /\ describes b' rho.
Proof.
  intros Hd Hargs Hv. pose proof (transfer_cond_describes op args b vs Hd Hargs Hv) as Hcond.
  assert (0 <= len_of (rho l))%Z as Hlen by (pose proof (describes_machine _ _ Hd (T_Len l)) as [? _]; done).
  destruct op; try (by exists b); try (eexists; split; [done|]; apply Hcond; set_solver +).
  all: destruct vs as [|[x|x| | |] us]; try done.
  - destruct us as [|[y| | | |] [|]]; try done. by apply (transfer_addsub_describes false args b x y).
  - destruct us as [|[y| | | |] [|]]; try done. by apply (transfer_addsub_describes true args b x y).
  - destruct us as [|[y| | | |] [|]]; try done. destruct Hv. eexists. split; [done|]. by apply (transfer_rem_describes args b x y).
  - destruct us as [|[y| | | |] [|]]; try done. eexists. split; [done|]. by apply (transfer_mask_describes args b x y).
  - destruct us as [|]; try done. eexists. split; [done|]. apply set_const_describes; [done|]. simpl. by rewrite Hv.
  - destruct us as [|u [|]]; try done. eexists. split; [done|]. by apply (transfer_repeat_describes args b x u).
  - destruct us as [|]; try done. operands Hargs. simpl. eexists. split; [done|].
    destruct (as_local a) as [y|] eqn:Hy; [|done]. apply (operand_local _ _ _ _ Ha) in Hy.
    assert (describes (add_eq (T_Int l) (T_Len y) 0 b) rho) as Hd1
      by (apply add_eq_describes; [done|]; simpl; rewrite Hv, <- Hy; simpl; lia).
    apply set_ge_describes; [done|]. simpl. rewrite Hv. destruct Ha as [Hok _]. inversion Hok; simpl; lia.
  - destruct us as [|[y| | | |] [|? [|]]]; try done. destruct Hv as [_ Hv]. operands Hargs. eexists. split; [done|].
    apply (same_length_describes a [a0; a1] b x [V_Int y; v] 0); [done|eauto using List.Forall2_cons, List.Forall2_nil|by rewrite Z.add_0_r].
  - destruct us as [|]; try done. operands Hargs. eexists. split; [done|].
    apply (same_length_describes a [] b x [] 0); [done|eauto using List.Forall2_cons, List.Forall2_nil|by rewrite Z.add_0_r].
  - destruct us as [|[y| | | |] [|? [|]]]; try done. operands Hargs. eexists. split; [done|].
    apply (same_length_describes a [a0; a1] b x [V_Int y; v] 0); [done|eauto using List.Forall2_cons, List.Forall2_nil|by rewrite Z.add_0_r].
  - destruct us as [|u [|]]; try done. operands Hargs. eexists. split; [done|]. apply set_ge_describes; [|done].
    apply (same_length_describes a [a0] b x [u] 1); [done|eauto using List.Forall2_cons, List.Forall2_nil|done].
  - destruct us as [|u [|]]; try done. operands Hargs. eexists. split; [done|]. apply set_ge_describes; [|done].
    apply (same_length_describes a [a0] b x [u] 1); [done|eauto using List.Forall2_cons, List.Forall2_nil|done].
Qed.

Lemma transfer_prim_describes op args b vs :
  describes b rho -> Forall2 (operand rho) args vs -> prim_result op vs (rho l) ->
  exists b', transfer_prim l op args b = Some b' /\ describes b' rho.
Proof.
  intros Hd Hargs Hv. destruct (transfer_op_describes op args b vs Hd Hargs Hv) as (b1 & Hb1 & Hd1).
  unfold transfer_prim. rewrite Hb1. eexists. split; [done|].
  assert (0 <= len_of (rho l))%Z as Hlen by (pose proof (describes_machine _ _ Hd (T_Len l)) as [? _]; done).
  apply set_ge_describes; [|done]. destruct (checked_access op) eqn:Hop; [|done].
  destruct op; try done; destruct vs as [|[|n| | |] [|[i| | | |] us]]; try done.
  - destruct us; [|done]. by apply (transfer_access_describes args b1 n i []).
  - destruct us; [|done]. by apply (transfer_access_describes args b1 n i []).
  - destruct us as [|? [|]]; try done. destruct Hv. eapply (transfer_access_describes args b1 n i); [done|done|lia].
Qed.

(** ** Signatures *)

Lemma seed_edges_describes {T} (term : T -> option Term) es b :
  describes b rho ->
  (forall x y c s t, (x, y, c) ∈ es -> term x = Some s -> term y = Some t -> (term_val rho s <= term_val rho t + c)%Z) ->
  describes (seed_edges term es b) rho.
Proof.
  intros Hd Hes. unfold seed_edges. induction es as [|[[x y] c] es IH] in b, Hd, Hes |- *; [done|]. simpl. apply IH.
  - destruct (term x) as [s|] eqn:Hs, (term y) as [t|] eqn:Ht; try done. apply add_edge_describes; [done|].
    apply (Hes x y c s t); [left|done..].
  - intros x' y' c' s t Hin. apply Hes. by right.
Qed.

Lemma seed_entry_describes sig params b :
  describes b rho -> entry_holds sig (rho <$> params) -> describes (seed_entry sig params b) rho.
Proof.
  intros Hd Hs. apply seed_edges_describes; [done|].
  assert (forall p t, pterm_to_term p params = Some t -> pterm_val (rho <$> params) p = Some (term_val rho t)) as Hp.
  { intros [|i|i] t; simpl; [by intros [= <-]|..]; rewrite list_lookup_fmap; destruct (params !! _); try done; by intros [= <-]. }
  intros x y c s t Hin Hx Hy. apply (Hs x y c _ _ Hin); by apply Hp.
Qed.

(** A local argument has the value of its operand. *)
Lemma arg_local_value args vs i x :
  Forall2 (operand rho) args vs -> arg_local (as_local <$> args) i = Some x -> vs !! Z.to_nat i = Some (rho x).
Proof.
  intros Hargs. unfold arg_local. rewrite list_lookup_fmap. destruct (args !! Z.to_nat i) as [a|] eqn:Ha; [|done]. simpl.
  intros Hx. destruct (Forall2_lookup_l _ _ _ _ _ Hargs Ha) as (u & -> & Hu). by rewrite (operand_local _ _ _ _ Hu Hx).
Qed.

Lemma rterm_value sig args vs t s :
  Forall2 (operand rho) args vs -> result_holds sig vs (rho l) ->
  rterm_to_term t l (as_local <$> args) = Some s -> rterm_val vs (rho l) t = Some (term_val rho s).
Proof.
  intros Hargs _. destruct t as [|i|i|f|f]; simpl; [by intros [= <-]|..].
  - destruct (arg_local _ i) as [x|] eqn:Hx; [|done]. intros [= <-]. by rewrite (arg_local_value _ _ _ _ Hargs Hx).
  - destruct (arg_local _ i) as [x|] eqn:Hx; [|done]. intros [= <-]. by rewrite (arg_local_value _ _ _ _ Hargs Hx).
  - case_decide; [|done]. intros [= <-]. unfold component. by rewrite decide_True.
  - case_decide; [|done]. intros [= <-]. unfold component. by rewrite decide_True.
Qed.

Lemma transfer_call_describes sig args vs b :
  describes b rho -> Forall2 (operand rho) args vs -> result_holds sig vs (rho l) -> describes (transfer_call l sig args b) rho.
Proof.
  intros Hd Hargs Hsig. unfold transfer_call.
  assert (describes (seed_edges (fun t => rterm_to_term t l (as_local <$> args)) (result_edges sig) b) rho) as Hd1.
  { apply seed_edges_describes; [done|]. intros x y c s t Hin Hx Hy. apply (Hsig x y c _ _ Hin); by eapply rterm_value. }
  destruct (existsb _ _); [|done]. destruct Hd1 as [Hg Ho He Hc Hs Hr]. split; try done.
  intros k sig' args' Hk. cbn in Hk. apply lookup_insert_Some in Hk as [[<- [= <- <-]]|[_ Hk]]; [|by apply Hr].
  exists vs. split; [done|]. intros i x Hi. rewrite <- (Nat2Z.id i). apply (arg_local_value args); [done|].
  unfold arg_local. by rewrite Nat2Z.id, Hi.
Qed.

Lemma transfer_result_field_describes base k b :
  describes b rho -> k ≠ WHOLE -> (exists fields, rho base = V_Data fields /\ fields !! Z.to_nat k = Some (rho l)) ->
  describes (transfer_result_field l base k b) rho.
Proof.
  intros Hd Hk (fields & Hbase & Hf). unfold transfer_result_field.
  destruct (call_results b !! base) as [[sig args]|] eqn:Hc; [|done].
  destruct (ds_calls _ _ Hd _ _ _ Hc) as (vs & Hsig & Hargs). apply seed_edges_describes; [done|].
  assert (forall i x, arg_local args i = Some x -> vs !! Z.to_nat i = Some (rho x)) as Harg.
  { intros i x Hx. apply Hargs. unfold arg_local in Hx. destruct (args !! _) as [[]|]; try done. by injection Hx as ->. }
  assert (forall t s, rterm_field_to_term t k l args = Some s -> rterm_val vs (rho base) t = Some (term_val rho s)) as Hterm.
  { intros [|i|i|f|f] s; simpl; [by intros [= <-]|..].
    - destruct (arg_local _ i) as [x|] eqn:Hx; [|done]. intros [= <-]. by rewrite (Harg _ _ Hx).
    - destruct (arg_local _ i) as [x|] eqn:Hx; [|done]. intros [= <-]. by rewrite (Harg _ _ Hx).
    - case_decide; [subst|done]. intros [= <-]. unfold component. by rewrite decide_False, Hbase, Hf by done.
    - case_decide; [subst|done]. intros [= <-]. unfold component. by rewrite decide_False, Hbase, Hf by done. }
  intros x y c s t Hin Hx Hy. apply (Hsig x y c _ _ Hin); by apply Hterm.
Qed.
End Transfer.

(** ** Bindings *)

(** A binding does not use the local it binds, and a tuple has fewer fields than [WHOLE]. *)
Definition not_own (l : LocalId) (value : CExpr) : Prop :=
  match ce_kind (peel_rc value) with
  | K_Local x => x ≠ l
  | K_Prim _ args | K_App _ args _ _ => Forall (fun a => as_local a ≠ Some l) args
  | K_DataField base (FI_Const k) _ _ => as_local base ≠ Some l /\ k ≠ WHOLE
  | _ => True
  end.

Section Let.
Context `{HashOrder}.

Lemma transfer_let_describes l value v b rho :
  describes b rho -> unmentioned l b -> not_own l value -> let_value rho value v ->
  exists b', transfer_let l value b = Some b' /\ describes b' (bind_local rho l v).
Proof.
  intros Hd Hu Hn [Hok Hv]. pose proof (describes_bind _ _ l v Hd Hu Hok) as Hd'.
  pose proof (bind_local_eq rho l v) as Hl. set (rho' := bind_local rho l v) in *.
  unfold not_own in Hn. unfold transfer_let. destruct (ce_kind (peel_rc value)) as
    [lit|x| |op args| | | | | | | | | |base index scalar niche| | | | | | | | | |]; try (by eexists).
  - destruct lit; try (by eexists). eexists. split; [done|]. apply set_const_describes; [done|]. simpl. by rewrite Hl, Hv.
  - eexists. split; [done|]. assert (rho' x = rho x) as Hx by (by apply bind_local_ne).
    apply add_eq_describes; [apply add_eq_describes; [done|]|]; simpl; rewrite Hl, Hx, Hv; lia.
  - destruct Hv as (vs & Hargs & Hv). apply (transfer_prim_describes l rho' op args b vs); [done| |by rewrite Hl].
    by apply Forall2_operand_bind.
  - destruct index as [k|]; [|by eexists]. eexists. split; [done|]. destruct Hv as (fields & Hbase & Hf), Hn as [Hn Hk].
    apply (operand_bind rho l v) in Hbase; [|done]. destruct (as_local base) as [x|] eqn:Hx; [|done].
    apply (operand_local _ _ _ _ Hbase) in Hx. apply transfer_result_field_describes; [done|done|].
    exists fields. by rewrite Hl.
Qed.

Lemma transfer_call_let l sig args vs v b rho :
  describes b rho -> unmentioned l b -> Forall (fun a => as_local a ≠ Some l) args ->
  Forall2 (operand rho) args vs -> value_ok v -> result_holds sig vs v ->
  describes (transfer_call l sig args b) (bind_local rho l v).
Proof.
  intros Hd Hu Hn Hargs Hok Hsig. eapply (transfer_call_describes l _ sig args vs).
  - by apply describes_bind.
  - by apply Forall2_operand_bind.
  - by rewrite bind_local_eq.
Qed.

(** ** Branches *)

Lemma add_edge_sub_describes from to c b rho :
  describes b rho -> (term_val rho from <= term_val rho to + c)%Z -> describes (add_edge_sub from to c b) rho.
Proof.
  intros Hd Hle. unfold add_edge_sub. assert (describes (add_edge from to c b) rho) as Hd1 by (by apply add_edge_describes).
  pose proof (ds_subs _ _ Hd1) as Hs.
  destruct from as [|x|x], to as [|y|y]; try done;
    (destruct (subs (add_edge _ _ c b) !! _) as [[s t]|] eqn:Hk; [|done]);
    specialize (Hs _ _ _ Hk); apply add_edge_describes; [done| |done|]; simpl in *; lia.
Qed.

Lemma assert_cmp_describes op lhs lo rhs ro b rho :
  describes b rho ->
  (let x := (term_val rho lhs + lo)%Z in let y := (term_val rho rhs + ro)%Z in
   match op with P_IntLt => x < y | P_IntLe => x <= y | P_IntGt => y < x | P_IntGe => y <= x | P_Eq => x = y | _ => True end)%Z ->
  describes (assert_cmp op lhs lo rhs ro b) rho.
Proof.
  intros Hd Hop. unfold assert_cmp, to_i64. destruct op; try done; cbn in Hop;
    (case_match; [|done]); case_match; simplify_eq;
    first [apply add_edge_sub_describes|apply add_eq_describes|idtac]; try done; lia.
Qed.

Lemma refine_ne_describes lhs rhs b rho :
  describes b rho -> (lhs = T_Zero \/ rhs = T_Zero -> term_val rho lhs ≠ term_val rho rhs) ->
  describes (refine_ne lhs rhs b) rho.
Proof.
  intros Hd Hne.
  assert (forall x, term_val rho x ≠ 0%Z -> describes
    (if decide (x = T_Zero) then b
     else let b := if entails_le b T_Zero x 0 then add_edge T_Zero x (-1) b else b in
       if entails_le b x T_Zero 0 then add_edge x T_Zero (-1) b else b) rho) as Hbump.
  { intros x Hx. case_decide; [done|].
    assert (describes (if entails_le b T_Zero x 0 then add_edge T_Zero x (-1) b else b) rho) as Hd1.
    { destruct (entails_le b T_Zero x 0) eqn:He; [|done]. apply (entails_le_describes b rho Hd) in He.
      apply add_edge_describes; [done|]. simpl in *. lia. }
    simpl. destruct (entails_le _ x T_Zero 0) eqn:He; [|done]. apply (entails_le_describes _ rho Hd1) in He.
    apply add_edge_describes; [done|]. simpl in *. lia. }
  unfold refine_ne. destruct lhs as [|x|x]; [apply Hbump; intros Hz; apply Hne; [by left|done]|..];
    (destruct rhs; [|done..]); apply Hbump; apply Hne; by right.
Qed.

Lemma refine_describes cond taken b rho :
  describes b rho -> operand rho cond (V_Bool taken) -> describes (refine cond taken b) rho.
Proof.
  intros Hd Hc. unfold refine. destruct (as_local cond) as [c|] eqn:Hl; [|done].
  apply (operand_local _ _ _ _ Hc) in Hl. destruct (conds b !! c) as [k|] eqn:Hk; [|done].
  destruct (ds_conds _ _ Hd _ _ Hk) as (r & Hr & Hop). rewrite Hr in Hl. injection Hl as ->.
  destruct k as [op lhs lo rhs ro]. cbn in Hop. cbn [c_op c_lhs c_lhs_off c_rhs c_rhs_off].
  destruct (match op with P_Eq => true | _ => false end) eqn:Heq.
  { destruct op; try discriminate Heq. destruct r; [by apply assert_cmp_describes|].
    case_decide as Hz; [|done]. destruct Hz as [-> ->].
    apply refine_ne_describes; [done|]. intros Hor. specialize (Hop Hor). lia. }
  apply assert_cmp_describes; [done|].
  destruct op; try discriminate Heq; try exact I; try (destruct r; exact I);
    destruct r; cbn in Hop |- *; symmetry in Hop;
    rewrite ?Z.ltb_lt, ?Z.ltb_ge, ?Z.leb_le, ?Z.leb_gt in Hop; lia.
Qed.
End Let.
