(* ===== verification/BoundsScope.v ===== *)
(** * The locals a bounds graph mentions

    A graph stays within a set of locals when what it is told stays within it, so a binder that
    is new to the body is new to the graph. *)

From S2P Require Import Prelude Types Ir Bounds BoundsGraph BoundsSem BoundsFlow.
From stdpp Require Import gmap list.
From Stdlib Require Import ZArith.

Section Within.
Context (S : gset LocalId).

Definition term_in (t : Term) : Prop := match t with T_Zero => True | T_Int x | T_Len x => x ∈ S end.
Definition args_in (args : list (option LocalId)) : Prop := forall x, Some x ∈ args -> x ∈ S.

Record within (b : Bounds) : Prop := {
  wi_terms : forall t, t ∈ terms (edges b) -> term_in t;
  wi_conds : forall k c, conds b !! k = Some c -> k ∈ S /\ term_in (c_lhs c) /\ term_in (c_rhs c);
  wi_subs : forall k x y, subs b !! k = Some (x, y) -> k ∈ S /\ term_in x /\ term_in y;
  wi_calls : forall k sig args, call_results b !! k = Some (sig, args) -> k ∈ S /\ args_in args }.

Lemma within_new : within new_bounds.
Proof.
  split; intros *; cbn.
  - intros [[m Hm]|(x & c & m & Hm & _)]%elem_of_terms; by rewrite lookup_empty in Hm.
  - by rewrite lookup_empty.
  - by rewrite lookup_empty.
  - by rewrite lookup_empty.
Qed.

Lemma within_unmentioned l b : within b -> l ∉ S -> unmentioned l b.
Proof.
  intros [Ht Hc Hs Hr] Hl.
  assert (forall t, term_in t -> term_local t ≠ Some l) as Hne by (intros [|x|x]; simpl; intros Hx; [done|congruence..]).
  split.
  - intros t Hin. by apply Hne, Ht.
  - intros k c Hk. destruct (Hc _ _ Hk) as (? & ? & ?). split_and!; [congruence|by apply Hne..].
  - intros k x y Hk. destruct (Hs _ _ _ Hk) as (? & ? & ?). split_and!; [congruence|by apply Hne..].
  - intros k sig args Hk. destruct (Hr _ _ _ Hk) as (? & Ha). split; [congruence|]. intros Hin. by apply Hl, Ha.
Qed.

Lemma add_edge_within x y c b : within b -> term_in x -> term_in y -> within (add_edge x y c b).
Proof.
  intros [Ht Hc Hs Hr] Hx Hy. destruct (add_edge_rest x y c b) as (Ec & Er & Es).
  split; rewrite ?Ec, ?Er, ?Es; try done. unfold add_edge. intros t.
  destruct (poisoned b || _); [by apply Ht|]. destruct (negb _); [by apply Ht|]. destruct (_ && _); [by apply Ht|].
  intros [Hin|Hin]%terms_tighten%elem_of_union; [|by apply Ht]. set_solver.
Qed.

Lemma add_eq_within x y c b : within b -> term_in x -> term_in y -> within (add_eq x y c b).
Proof. intros. unfold add_eq. case_match; by repeat apply add_edge_within. Qed.
Lemma set_const_within t n b : within b -> term_in t -> within (set_const t n b).
Proof. intros. by apply add_eq_within. Qed.
Lemma set_ge_within t n b : within b -> term_in t -> within (set_ge t n b).
Proof. intros. unfold set_ge. case_match; by repeat apply add_edge_within. Qed.

Lemma insert_cond_within l c b :
  within b -> l ∈ S -> term_in (c_lhs c) -> term_in (c_rhs c) -> within (insert_cond l c b).
Proof. intros [Ht Hc Hs Hr] Hl H1 H2. split; try done. intros k c' Hk. cbn in Hk. apply lookup_insert_Some in Hk as [[<- <-]|[_ Hk]]; [done|by apply Hc]. Qed.
Lemma insert_sub_within l x y b : within b -> l ∈ S -> term_in x -> term_in y -> within (insert_sub l (x, y) b).
Proof. intros [Ht Hc Hs Hr] Hl H1 H2. split; try done. intros k x' y' Hk. cbn in Hk. apply lookup_insert_Some in Hk as [[<- [= <- <-]]|[_ Hk]]; [done|by apply Hs]. Qed.
Lemma insert_call_within l sig args b : within b -> l ∈ S -> args_in args -> within (insert_call l (sig, args) b).
Proof. intros [Ht Hc Hs Hr] Hl H1. split; try done. intros k s' a' Hk. cbn in Hk. apply lookup_insert_Some in Hk as [[<- [= <- <-]]|[_ Hk]]; [done|by eapply Hr]. Qed.

Lemma seed_edges_within {T} (term : T -> option Term) es : forall b,
  within b -> (forall t s, term t = Some s -> term_in s) -> within (seed_edges term es b).
Proof.
  unfold seed_edges. induction es as [|[[x y] c] es IH]; intros b Hb Ht; [done|]. simpl. apply IH; [|done].
  destruct (term x) eqn:Hx; [|done]. destruct (term y) eqn:Hy; [|done]. apply add_edge_within; eauto.
Qed.
End Within.

Lemma within_mono (S S' : gset LocalId) b : S ⊆ S' -> within S b -> within S' b.
Proof.
  intros HS [Ht Hc Hs Hr]. assert (forall t, term_in S t -> term_in S' t) as Hin by (intros [|x|x]; [done|apply HS..]).
  split.
  - intros t Hx. by apply Hin, Ht.
  - intros k c Hk. destruct (Hc _ _ Hk) as (? & ? & ?). auto.
  - intros k x y Hk. destruct (Hs _ _ _ Hk) as (? & ? & ?). auto.
  - intros k sig args Hk. destruct (Hr _ _ _ Hk) as (? & Ha). split; [auto|]. intros x Hx. by apply HS, Ha.
Qed.

Create HintDb within.
#[export] Hint Resolve add_edge_within add_eq_within set_const_within set_ge_within insert_cond_within
  insert_sub_within insert_call_within seed_edges_within within_new : within.
#[export] Hint Extern 1 (term_in _ _) => (first [exact I|assumption|simpl; assumption]) : within.

(** ** Operands *)

(** The locals among operands. *)
Definition operand_in (S : gset LocalId) (e : CExpr) : Prop := forall x, as_local e = Some x -> x ∈ S.

Lemma atom_term_in S e t : operand_in S e -> atom_term e = Some t -> term_in S t.
Proof.
  unfold operand_in, as_local, atom_term. intros He. destruct (int_atom e) as [[x|n]|]; [|case_decide|done];
    intros [= <-]; [by apply He|done].
Qed.
Lemma atom_term_off_in S e t o : operand_in S e -> atom_term_off e = Some (t, o) -> term_in S t.
Proof.
  unfold operand_in, as_local, atom_term_off. intros He. destruct (int_atom e) as [[x|n]|]; [| |done];
    intros [= <- <-]; [by apply He|done].
Qed.

(** ** Transfer *)

Section Transfer.
Context `{HashOrder} (S : gset LocalId) (l : LocalId).
Hypothesis Hl : l ∈ S.

Lemma operand_head args k e : Forall (operand_in S) args -> args !! k = Some e -> operand_in S e.
Proof. intros Ha Hk. by eapply (Forall_lookup_1 _ _ _ _ Ha). Qed.

Lemma local_at args k x : Forall (operand_in S) args -> args !! k ≫= as_local = Some x -> x ∈ S.
Proof. intros Ha (e & He & Hx)%bind_Some. by eapply (operand_head args). Qed.
Lemma local_head args x : Forall (operand_in S) args -> head args ≫= as_local = Some x -> x ∈ S.
Proof. rewrite head_lookup. apply local_at. Qed.
Lemma atom_off_at args k t o : Forall (operand_in S) args -> args !! k ≫= atom_term_off = Some (t, o) -> term_in S t.
Proof. intros Ha (e & He & Hx)%bind_Some. eapply atom_term_off_in; [by eapply operand_head|done]. Qed.
Lemma int_local_at args k x : Forall (operand_in S) args -> args !! k ≫= int_atom = Some (A_Local x) -> x ∈ S.
Proof. intros Ha (e & He & Hx)%bind_Some. eapply (operand_head args k e); [done..|]. unfold as_local. by rewrite Hx. Qed.

Lemma transfer_access_within args b : Forall (operand_in S) args -> within S b -> within S (transfer_access args b).
Proof.
  intros Ha Hb. unfold transfer_access.
  destruct (head args ≫= as_local) as [a|] eqn:H0; [|done]. apply local_head in H0; [|done].
  destruct (args !! 1 ≫= atom_term_off) as [[t o]|] eqn:H1; [|done]. apply atom_off_at in H1; [|done].
  assert (within S (add_edge T_Zero t o b)) by auto with within. case_match; auto with within.
Qed.

Lemma try_masks_within masks b : Forall (operand_in S) masks -> within S b -> within S (try_masks l masks b).
Proof.
  intros Hm Hb. induction Hm as [|e masks He Hm IH]; [done|]. simpl.
  destruct (atom_term e) as [t|] eqn:Ht; [|done]. apply (atom_term_in S) in Ht; [|done].
  destruct (entails_nonneg b t); [|done]. auto with within.
Qed.

Lemma transfer_addsub_within args subtract b b' :
  Forall (operand_in S) args -> within S b -> transfer_addsub l args subtract b = Some b' -> within S b'.
Proof.
  intros Ha Hb. unfold transfer_addsub. destruct args as [|x [|y args]]; try (by intros [= <-]).
  apply Forall_cons in Ha as [Hx [Hy _]%Forall_cons].
  assert (forall z, int_atom x = Some (A_Local z) -> z ∈ S) as Hxs by (intros z Hz; apply Hx; unfold as_local; by rewrite Hz).
  assert (forall z, int_atom y = Some (A_Local z) -> z ∈ S) as Hys by (intros z Hz; apply Hy; unfold as_local; by rewrite Hz).
  destruct (int_atom x) as [[p|p]|]; [specialize (Hxs _ eq_refl)| |by intros [= <-]];
    (destruct (int_atom y) as [[q|q]|]; [specialize (Hys _ eq_refl)| |by intros [= <-]]).
  - destruct subtract; [|by intros [= <-]]. case_decide; [intros [= <-]; auto with within|].
    destruct (subtraction_does_not_wrap _ _ _) as [[]|]; intros [= <-]; auto with within.
  - destruct (if subtract then _ else _); [|by intros [= <-]].
    destruct (offset_does_not_wrap _ _ _) as [[]|]; intros [= <-]; auto with within.
  - destruct subtract; [by intros [= <-]|].
    destruct (offset_does_not_wrap _ _ _) as [[]|]; intros [= <-]; auto with within.
  - intros [= <-]. auto with within.
Qed.

Lemma transfer_repeat_within args b : Forall (operand_in S) args -> within S b -> within S (transfer_repeat l args b).
Proof.
  intros Ha Hb. unfold transfer_repeat. assert (within S (set_ge (T_Len l) 0 b)) by auto with within.
  destruct (head args ≫= int_atom) as [[c|n]|] eqn:Hc; [|auto with within..].
  rewrite head_lookup in Hc. apply int_local_at in Hc; [|done].
  case_match; auto with within.
Qed.

Lemma transfer_op_within op args b b' :
  Forall (operand_in S) args -> within S b -> transfer_op l op args b = Some b' -> within S b'.
Proof.
  intros Ha Hb. destruct op; cbn [transfer_op]; try (by apply transfer_addsub_within); intros [= <-]; try done;
    try (destruct (args !! 0 ≫= atom_term_off) as [[t o]|] eqn:H0; [|done]; apply atom_off_at in H0; [|done];
         destruct (args !! 1 ≫= atom_term_off) as [[u p]|] eqn:H1; [|done]; apply atom_off_at in H1; [|done];
         by apply insert_cond_within);
    try (destruct (head args ≫= as_local) as [a|] eqn:H0; [apply local_head in H0; [|done]|]; auto 6 with within; fail).
  - unfold transfer_rem. destruct (head args ≫= atom_term) as [t|]; [|done]. destruct (entails_nonneg b t); auto with within.
  - unfold transfer_mask. destruct args as [|x [|y args]]; [done..|].
    apply Forall_cons in Ha as [Hx [Hy _]%Forall_cons]. apply try_masks_within; [by repeat constructor|done].
  - by apply transfer_repeat_within.
Qed.

Lemma transfer_prim_within op args b b' :
  Forall (operand_in S) args -> within S b -> transfer_prim l op args b = Some b' -> within S b'.
Proof.
  intros Ha Hb. unfold transfer_prim. destruct (transfer_op l op args b) as [b1|] eqn:H1; [|done].
  apply transfer_op_within in H1; [|done..]. intros [= <-]. apply set_ge_within; [|done].
  case_match; [by apply transfer_access_within|done].
Qed.

Lemma args_in_locals args : Forall (operand_in S) args -> args_in S (as_local <$> args).
Proof.
  intros Ha x Hx. apply list_elem_of_fmap in Hx as (e & He & Hin). rewrite Forall_forall in Ha. by eapply Ha.
Qed.
Lemma arg_local_in args i x : args_in S args -> arg_local args i = Some x -> x ∈ S.
Proof.
  intros Ha. unfold arg_local. destruct (args !! _) as [[y|]|] eqn:Hy; try done. intros [= <-].
  apply Ha. by eapply list_elem_of_lookup_2.
Qed.

Lemma transfer_call_within sig args b : Forall (operand_in S) args -> within S b -> within S (transfer_call l sig args b).
Proof.
  intros Ha%args_in_locals Hb. unfold transfer_call.
  assert (within S (seed_edges (fun t => rterm_to_term t l (as_local <$> args)) (result_edges sig) b)) as H1.
  { apply seed_edges_within; [done|]. intros [|i|i|f|f] s; simpl; [by intros [= <-]|..].
    1,2: destruct (arg_local _ i) eqn:Hi; [|done]; intros [= <-]; by eapply arg_local_in.
    all: case_decide; [|done]; by intros [= <-]. }
  case_match; auto with within.
Qed.

Lemma transfer_result_field_within base k b : within S b -> within S (transfer_result_field l base k b).
Proof.
  intros Hb. unfold transfer_result_field. destruct (call_results b !! base) as [[sig args]|] eqn:Hc; [|done].
  apply (wi_calls _ _ Hb) in Hc as [_ Ha].
  apply seed_edges_within; [done|]. intros [|i|i|f|f] s; simpl; [by intros [= <-]|..].
  1,2: destruct (arg_local _ i) eqn:Hi; [|done]; intros [= <-]; by eapply arg_local_in.
  all: case_decide; [|done]; by intros [= <-].
Qed.

Lemma transfer_many_within ls sig args b :
  Forall (fun x => x ∈ S) ls -> Forall (operand_in S) args -> within S b -> within S (transfer_many ls sig args b).
Proof.
  intros Hls Ha%args_in_locals Hb. apply seed_edges_within; [done|]. rewrite Forall_forall in Hls.
  intros [|i|i|f|f] s; simpl; [by intros [= <-]|..].
  1,2: destruct (arg_local _ i) eqn:Hi; [|done]; intros [= <-]; by eapply arg_local_in.
  all: destruct (ls !! _) eqn:Hx; [|done]; intros [= <-]; apply Hls; by eapply list_elem_of_lookup_2.
Qed.

(** The operands of a binding's value the graph may take up. *)
Definition value_in (value : CExpr) : Prop :=
  match ce_kind (peel_rc value) with
  | K_Local x => x ∈ S
  | K_Prim _ args | K_App _ args _ _ => Forall (operand_in S) args
  | _ => True
  end.

Lemma transfer_let_within value b b' : value_in value -> within S b -> transfer_let l value b = Some b' -> within S b'.
Proof.
  unfold value_in, transfer_let. intros Hv Hb. destruct (ce_kind (peel_rc value)); try (by intros [= <-]).
  - case_match; intros [= <-]; auto with within.
  - intros [= <-]. auto with within.
  - by apply transfer_prim_within.
  - destruct index; intros [= <-]; [|done]. case_match; [|done]. by apply transfer_result_field_within.
Qed.

(** ** Branches *)

Lemma add_edge_sub_within x y c b : within S b -> term_in S x -> term_in S y -> within S (add_edge_sub x y c b).
Proof.
  intros Hb Hx Hy. unfold add_edge_sub. assert (within S (add_edge x y c b)) as H1 by auto with within.
  destruct x, y; try done; (destruct (subs _ !! _) as [[u v]|] eqn:Hk; [|done];
    apply (wi_subs _ _ H1) in Hk as (_ & ? & ?); auto with within).
Qed.

Lemma assert_cmp_within op x lo y ro b : within S b -> term_in S x -> term_in S y -> within S (assert_cmp op x lo y ro b).
Proof.
  intros. unfold assert_cmp. destruct op; try done; (case_match; [|done]); auto using add_edge_sub_within with within.
Qed.

Lemma refine_ne_within x y b : within S b -> term_in S x -> term_in S y -> within S (refine_ne x y b).
Proof.
  intros Hb Hx Hy. unfold refine_ne.
  destruct x, y; try done; case_decide; try done; repeat case_match; auto with within.
Qed.

Lemma refine_within cond taken b : within S b -> within S (refine cond taken b).
Proof.
  intros Hb. unfold refine. destruct (as_local cond) as [c|]; [|done].
  destruct (conds b !! c) as [k|] eqn:Hk; [|done]. apply (wi_conds _ _ Hb) in Hk as (_ & ? & ?).
  case_match; [|by apply assert_cmp_within]. destruct taken; [by apply assert_cmp_within|].
  case_decide; [by apply refine_ne_within|done].
Qed.
End Transfer.

(** ** No panic *)

Section Total.
Context `{HashOrder}.

Lemma transfer_prim_total l op args b : exists b', transfer_prim l op args b = Some b'.
Proof.
  assert (forall subtract, exists b', transfer_addsub l args subtract b = Some b') as Hadd.
  { intros subtract. unfold transfer_addsub. destruct args as [|x [|y args]]; try by eexists.
    destruct (int_atom x) as [[p|p]|], (int_atom y) as [[q|q]|]; try by eexists.
    - destruct subtract; [|by eexists]. case_decide; [by eexists|].
      destruct (subtraction_does_not_wrap_total b (T_Int p) (T_Int q)) as (fits & ->). by eexists.
    - destruct (if subtract then _ else _) as [o|]; [|by eexists].
      destruct (offset_does_not_wrap_total b (T_Int p) o) as (fits & ->). by eexists.
    - destruct subtract; [by eexists|].
      destruct (offset_does_not_wrap_total b (T_Int q) p) as (fits & ->). by eexists. }
  unfold transfer_prim. assert (exists b', transfer_op l op args b = Some b') as (b' & ->); [|by eexists].
  destruct op; cbn [transfer_op]; first [apply Hadd|by eexists].
Qed.

Lemma transfer_let_total l value b : exists b', transfer_let l value b = Some b'.
Proof.
  unfold transfer_let. destruct (ce_kind (peel_rc value)) as [[]| | | | | | | | | | | | |? []| | | | | | | | | | ];
    first [by eexists|apply transfer_prim_total].
Qed.
End Total.
