(* ===== verification/BoundsWalk.v ===== *)
(** * Walking a body with a bounds graph

    [walk_in] and [bce_transfer] of fai-rc's [bounds_sig.rs]: one pass over a reference-counted
    body that keeps the graph and reports it at every call and every result.  The two callbacks
    become the reports they are given, in order.  Below, what running a body may do, up to the
    calls it makes, and the scope a body must respect. *)

From S2P Require Import Prelude Types Ir Bounds BoundsGraph BoundsSem BoundsFlow BoundsScope.
From stdpp Require Import gmap list strings.
From Stdlib Require Import ZArith.

Inductive Report :=
| R_Call (b : Bounds) (callee : string) (args : list CExpr)
| R_Exit (b : Bounds) (e : CExpr).

Section FoldM.
Context {A S : Type} (f : A -> S -> option S).
Fixpoint fold_steps (xs : list A) (s : S) : option S :=
  match xs with [] => Some s | x :: xs => s ← f x s; fold_steps xs s end.
End FoldM.

(** A call of a definition, with its arguments. *)
Definition global_call (e : CExpr) : option (DefId * list CExpr) :=
  match ce_kind e with K_App (CE (K_Global d) _) args _ _ => Some (d, args) | _ => None end.

(** The body that only returns the components [locals]. *)
Definition returns_locals (locals : list LocalId) (body : CExpr) : bool :=
  match ce_kind (peel_rc body) with
  | K_Spread components =>
      (length components =? length locals) &&
      forallb (fun p => match ce_kind p.1 with K_Local x => bool_decide (x = p.2) | _ => false end)
        (zip components locals)
  | _ => false
  end.

Section Walk.
Context `{HashOrder} (self_name : DefId) (result_of : DefId -> ResultSig).

Definition bce_transfer (local : LocalId) (value : CExpr) (b : Bounds) : option Bounds :=
  match global_call (peel_rc value) with
  | Some (d, args) =>
      let sig := result_of d in
      if negb (result_sig_empty sig) then Some (transfer_call local sig args b)
      else transfer_let local value b
  | None => transfer_let local value b
  end.

Abbreviation Walked := (Bounds * list Report)%type.
Definition report (r : Report) (w : Walked) : Walked := (w.1, w.2 ++ [r]).
Definition exits (tail : bool) (e : CExpr) (w : Walked) : Walked := if tail then report (R_Exit w.1 e) w else w.

Fixpoint walk_in (tail : bool) (e : CExpr) (w : Walked) : option Walked :=
  match e with
  | CE kind _ =>
      match kind with
      | K_Let local value body =>
          w ← walk_in false value w;
          b ← bce_transfer local value w.1;
          walk_in tail body (b, w.2)
      | K_If cond thn els =>
          w ← walk_in false cond w;
          t ← walk_in tail thn (refine cond true w.1, w.2);
          f ← walk_in tail els (refine cond false w.1, t.2);
          Some (w.1, f.2)
      | K_App func args _ _ =>
          let w := match ce_kind func with
                   | K_Global d =>
                       if decide (def_file d = def_file self_name)
                       then report (R_Call w.1 (def_name d) args) w else w
                   | _ => w
                   end in
          w ← walk_in false func w;
          w ← fold_steps (walk_in false) args w;
          Some (exits tail e w)
      | K_Recur args =>
          fold_steps (walk_in false) args (report (R_Call w.1 (def_name self_name) args) w)
      | K_Prim _ args | K_Foreign _ args _ | K_MakeData _ args _ _ _ | K_Spread args =>
          w ← fold_steps (walk_in false) args w;
          Some (exits tail e w)
      | K_DataTag base _ | K_DataField base _ _ _ =>
          w ← walk_in false base w;
          Some (exits tail e w)
      | K_LetMany locals value body =>
          w ← walk_in false value w;
          match global_call (peel_rc value) with
          | Some (def, args) =>
              let b := transfer_many locals (result_of def) args w.1 in
              if tail && bool_decide (def = self_name) && returns_locals locals body
              then Some (b, w.2)
              else walk_in tail body (b, w.2)
          | None => walk_in tail body w
          end
      | K_Reset value _ body =>
          w ← walk_in false value w;
          walk_in tail body w
      | K_Dup _ body | K_Drop _ body | K_FreeReuse _ body => walk_in tail body w
      | K_Join _ body | K_HoleStart _ body => walk_in tail body w
      | K_HoleFill _ cell _ => walk_in false cell w
      | K_HoleClose _ base => walk_in tail base w
      | K_Lit _ | K_Local _ | K_Global _ | K_MakeClosure _ _ _ | K_Error => Some (exits tail e w)
      end
  end.

(** [walk] *)
Definition walk (body : CExpr) (b : Bounds) : option Walked := walk_in true body (b, []).
End Walk.

(** ** Scope *)

(** Each binder is new; the locals used are bound before; the fields of a tuple are fewer than
    [WHOLE]; what is reset is a local.  The scope found is all the locals seen so far. *)
Definition bind_new (l : LocalId) (S : gset LocalId) : option (gset LocalId) :=
  if decide (l ∈ S) then None else Some ({[l]} ∪ S).

Fixpoint scope (e : CExpr) (S : gset LocalId) : option (gset LocalId) :=
  match e with
  | CE kind _ =>
      match kind with
      | K_Local x => if decide (x ∈ S) then Some S else None
      | K_Lit _ | K_Global _ | K_MakeClosure _ _ _ | K_Error => Some S
      | K_Prim _ args | K_Foreign _ args _ | K_MakeData _ args _ _ _ | K_Spread args | K_Recur args =>
          fold_steps scope args S
      | K_App func args _ _ => S ← scope func S; fold_steps scope args S
      | K_If cond thn els => S ← scope cond S; S ← scope thn S; scope els S
      | K_Let local value body => S ← scope value S; S ← bind_new local S; scope body S
      | K_LetMany locals value body =>
          S ← scope value S; S ← fold_steps bind_new locals S;
          if (Z.of_nat (length locals) <=? WHOLE)%Z then scope body S else None
      | K_DataField base index _ _ =>
          match index with FI_Const k => if decide (k = WHOLE) then None else scope base S | _ => scope base S end
      | K_DataTag base _ | K_HoleFill _ base _ | K_HoleClose _ base => scope base S
      | K_Reset value token body =>
          match as_local value with
          | Some _ => S ← scope value S; S ← bind_new token S; scope body S
          | None => None
          end
      | K_HoleStart hole body => S ← bind_new hole S; scope body S
      | K_Dup _ body | K_Drop _ body | K_FreeReuse _ body | K_Join _ body => scope body S
      end
  end.

(** ** Runs *)

(** How far a run of a body has come: a result, a call, or the next turn of the loop. *)
Inductive Outcome := O_Value (v : Value) | O_Call (callee : DefId) (vs : list Value) | O_Recur (vs : list Value).
Definition stopped (o : Outcome) : Prop := match o with O_Value _ => False | _ => True end.

(** The children an expression evaluates first. *)
Definition leading (e : CExpr) : list CExpr :=
  match ce_kind e with
  | K_Prim _ args | K_Foreign _ args _ | K_MakeData _ args _ _ _ | K_Spread args | K_Recur args => args
  | K_App func args _ _ => func :: args
  | K_If cond _ _ => [cond]
  | K_Let _ value _ | K_LetMany _ value _ | K_Reset value _ _ => [value]
  | K_DataTag base _ | K_DataField base _ _ _ | K_HoleFill _ base _ | K_HoleClose _ base => [base]
  | _ => []
  end.

(** An operation: its value depends on its operands alone. *)
Definition operation (e : CExpr) : Prop :=
  match ce_kind e with
  | K_Prim _ _ | K_Foreign _ _ _ | K_MakeData _ _ _ _ _ | K_Spread _ | K_DataTag _ _ | K_DataField _ _ _ _
  | K_HoleFill _ _ _ | K_HoleClose _ _ | K_Global _ | K_MakeClosure _ _ _ | K_Error => True
  | _ => False
  end.

Fixpoint bind_locals (rho : Locals) (ls : list LocalId) (vs : list Value) : Locals :=
  match ls, vs with l :: ls, v :: vs => bind_locals (bind_local rho l v) ls vs | _, _ => rho end.

(** The values of operands, and of what their counts wrap. *)
Definition operands (rho : Locals) (args : list CExpr) (vs : list Value) : Prop :=
  Forall2 (fun a v => operand rho a v /\ operand rho (peel_rc a) v) args vs.
Lemma operands_operand rho args vs : operands rho args vs -> Forall2 (operand rho) args vs.
Proof. intros Ho. apply (Forall2_impl _ _ _ _ Ho). by intros a v []. Qed.

Section Runs.
Context (Calls : DefId -> list Value -> Value -> Prop).

Inductive runs : Locals -> CExpr -> Locals -> Outcome -> Prop :=
| run_lit rho l t : value_ok (lit_value l) -> runs rho (CE (K_Lit l) t) rho (O_Value (lit_value l))
| run_local rho x t : runs rho (CE (K_Local x) t) rho (O_Value (rho x))
| run_operation rho rho' e v :
    operation e -> runs_all rho (leading e) rho' -> let_value rho' e v -> runs rho e rho' (O_Value v)
| run_call rho rho' d t0 args reuse alloc t vs :
    runs_all rho args rho' -> operands rho' args vs ->
    runs rho (CE (K_App (CE (K_Global d) t0) args reuse alloc) t) rho' (O_Call d vs)
| run_return rho rho' d t0 args reuse alloc t vs v :
    runs_all rho args rho' -> operands rho' args vs -> value_ok v -> Calls d vs v ->
    runs rho (CE (K_App (CE (K_Global d) t0) args reuse alloc) t) rho' (O_Value v)
| run_apply rho rho' func args reuse alloc t v :
    global_call (CE (K_App func args reuse alloc) t) = None ->
    runs_all rho (func :: args) rho' -> value_ok v ->
    runs rho (CE (K_App func args reuse alloc) t) rho' (O_Value v)
| run_recur rho rho' args t vs :
    runs_all rho args rho' -> operands rho' args vs -> runs rho (CE (K_Recur args) t) rho' (O_Recur vs)
| run_if rho rho1 rho' cond thn els t taken o :
    runs rho cond rho1 (O_Value (V_Bool taken)) -> runs rho1 (if taken : bool then thn else els) rho' o ->
    runs rho (CE (K_If cond thn els) t) rho' o
| run_let rho rho1 rho' l value body t v o :
    runs rho value rho1 (O_Value v) -> runs (bind_local rho1 l v) body rho' o ->
    runs rho (CE (K_Let l value body) t) rho' o
| run_let_many rho rho1 rho' ls value body t vs o :
    runs rho value rho1 (O_Value (V_Data vs)) -> length vs = length ls -> runs (bind_locals rho1 ls vs) body rho' o ->
    runs rho (CE (K_LetMany ls value body) t) rho' o
| run_reset rho rho1 rho' value token body t u v o :
    runs rho value rho1 (O_Value u) -> value_ok v -> runs (bind_local rho1 token v) body rho' o ->
    runs rho (CE (K_Reset value token body) t) rho' o
| run_dup rho rho' x body t o : runs rho body rho' o -> runs rho (CE (K_Dup x body) t) rho' o
| run_drop rho rho' x body t o : runs rho body rho' o -> runs rho (CE (K_Drop x body) t) rho' o
| run_free rho rho' x body t o : runs rho body rho' o -> runs rho (CE (K_FreeReuse x body) t) rho' o
| run_join rho rho' ps body t o : runs rho body rho' o -> runs rho (CE (K_Join ps body) t) rho' o
| run_hole rho rho' hole body t v o :
    value_ok v -> runs (bind_local rho hole v) body rho' o -> runs rho (CE (K_HoleStart hole body) t) rho' o
| run_stop rho rho' e o : stopped o -> stops rho (leading e) rho' o -> runs rho e rho' o
(** Expressions evaluated one after the other. *)
with runs_all : Locals -> list CExpr -> Locals -> Prop :=
| all_nil rho : runs_all rho [] rho
| all_cons rho rho1 rho' e es v : runs rho e rho1 (O_Value v) -> runs_all rho1 es rho' -> runs_all rho (e :: es) rho'
(** The first expression of a sequence that does not come to a result. *)
with stops : Locals -> list CExpr -> Locals -> Outcome -> Prop :=
| stops_here rho rho' e es o : runs rho e rho' o -> stops rho (e :: es) rho' o
| stops_later rho rho1 rho' e es v o : runs rho e rho1 (O_Value v) -> stops rho1 es rho' o -> stops rho (e :: es) rho' o.
End Runs.
