(* ===== verification/BoundsWalkSound.v ===== *)
(** * The reports of a walk describe every run

    Whatever call a run of a body comes to, the walk reported it with a graph that describes
    the environment of the call, and the graph left by the walk describes the end of the run. *)

From S2P Require Import Prelude Types Ir Bounds BoundsGraph BoundsSem BoundsFlow BoundsScope BoundsWalk.
From stdpp Require Import gmap list strings.
From Stdlib Require Import ZArith Lia.

(** ** Environments that agree on a scope *)

Definition agrees (S : gset LocalId) (rho rho' : Locals) : Prop := forall x, x ∈ S -> rho' x = rho x.

Lemma agrees_refl S rho : agrees S rho rho.
Proof. done. Qed.
Lemma agrees_trans S S' r1 r2 r3 : S ⊆ S' -> agrees S r1 r2 -> agrees S' r2 r3 -> agrees S r1 r3.
Proof. intros HS H1 H2 x Hx. rewrite H2 by set_solver. by apply H1. Qed.
Lemma agrees_bind S rho l v : l ∉ S -> agrees S rho (bind_local rho l v).
Proof. intros Hl x Hx. apply bind_local_ne. by intros ->. Qed.

Lemma term_val_agrees S rho rho' t : agrees S rho rho' -> term_in S t -> term_val rho' t = term_val rho t.
Proof. intros Ha. destruct t as [|x|x]; simpl; intros Hx; [done|by rewrite Ha..]. Qed.

Lemma describes_agrees S b rho rho' :
  within S b -> describes b rho -> agrees S rho rho' -> locals_ok rho' -> describes b rho'.
Proof.
  intros [Wt Wc Ws Wr] [Hg Hl He Hc Hs Hr] Ha Hok. split; [done..| | | |].
  - intros x y c Hxy. destruct (edge_terms _ _ _ _ Hxy). rewrite !(term_val_agrees S rho rho') by auto. by apply He.
  - intros k c Hk. destruct (Wc _ _ Hk) as (? & ? & ?). destruct (Hc _ _ Hk) as (u & Hu & Hop).
    exists u. rewrite Ha, !(term_val_agrees S rho rho') by done. done.
  - intros k x y Hk. destruct (Ws _ _ _ Hk) as (? & ? & ?). rewrite Ha, !(term_val_agrees S rho rho') by done. by apply Hs.
  - intros k sig args Hk. destruct (Wr _ _ _ Hk) as (? & Hin). destruct (Hr _ _ _ Hk) as (vs & Hvs & Hargs).
    exists vs. rewrite Ha by done. split; [done|]. intros i x Hi. rewrite Ha; [by apply Hargs|].
    apply Hin. by eapply list_elem_of_lookup_2.
Qed.

(** ** Scopes *)

Lemma bind_new_some l S S' : bind_new l S = Some S' -> l ∉ S /\ S' = {[l]} ∪ S.
Proof. unfold bind_new. case_decide; [done|]. by intros [= <-]. Qed.

Lemma bind_news_some ls : forall S S', fold_steps bind_new ls S = Some S' ->
  NoDup ls /\ (forall l, l ∈ ls -> l ∉ S) /\ S' = list_to_set ls ∪ S.
Proof.
  induction ls as [|l ls IH]; simpl; intros S S' HS.
  - injection HS as <-. split; [constructor|]. split; [by intros ? ?%elem_of_nil|set_solver].
  - destruct (bind_new l S) as [S1|] eqn:H1; [|done]. apply bind_new_some in H1 as [Hl ->].
    apply IH in HS as (Hnd & Hn & ->). split; [|split; [|set_solver]].
    + constructor; [|done]. intros Hin. specialize (Hn _ Hin). set_solver.
    + intros x [->|Hx]%elem_of_cons; [done|]. specialize (Hn _ Hx). set_solver.
Qed.

Lemma scope_mono e : forall S S', scope e S = Some S' -> S ⊆ S'.
Proof.
  induction e as [[k t] IH] using CExpr_children_ind.
  assert (forall es, Forall (fun e => forall S S', scope e S = Some S' -> S ⊆ S') es -> forall S S',
    fold_steps scope es S = Some S' -> S ⊆ S') as Hall.
  { induction 1 as [|e es He Hes IHes]; simpl; intros S S' HS; [by injection HS as <-|].
    destruct (scope e S) as [S1|] eqn:H1; [|done]. simpl in HS. etrans; [by eapply He|by eapply IHes]. }
  assert (forall l S S', bind_new l S = Some S' -> S ⊆ S') as Hnew
    by (intros l S S' [_ ->]%bind_new_some; set_solver +).
  intros S S'. destruct k; cbn [scope]; cbn [e_children ce_kind] in IH; rewrite ?Forall_cons in IH; intros HS;
    repeat match goal with
    | Hx : _ /\ _ |- _ => destruct Hx
    | Hx : mbind _ ?o = Some _ |- _ => let S1 := fresh "S1" in destruct o as [S1|] eqn:?; [|done]; cbn [mbind option_bind] in Hx
    | Hx : (if ?c then _ else _) = Some _ |- _ => destruct c; [|done] || (destruct c; [done|])
    | Hx : match ?i with FI_Const _ => _ | FI_Dyn _ _ => _ end = Some _ |- _ => destruct i
    | Hx : match as_local ?v with _ => _ end = Some _ |- _ => destruct (as_local v); [|done]
    | Hx : Some _ = Some _ |- _ => injection Hx as <-
    | Hx : None = Some _ |- _ => discriminate Hx
    | Hx : fold_steps bind_new _ _ = Some _ |- _ => apply bind_news_some in Hx as (_ & _ & ->)
    | Hx : bind_new _ _ = Some _ |- _ => apply Hnew in Hx
    | Hx : fold_steps scope _ _ = Some _ |- _ => apply Hall in Hx; [|done]
    | Hx : scope ?e _ = Some _, Hy : forall S S', scope ?e S = Some S' -> _ |- _ => apply Hy in Hx
    end; try done; set_solver.
Qed.

Lemma operand_scope e S S' : scope e S = Some S' -> operand_in S' e.
Proof.
  unfold operand_in, as_local, int_atom. destruct e as [k t]. destruct k as [[]| | | | | | | | | | | | | | | | | | | | | | |]; try done.
  cbn. case_decide; [|done]. intros [= <-] y [= <-]. done.
Qed.

Lemma operands_scope args : forall S S', fold_steps scope args S = Some S' -> S ⊆ S' /\ Forall (operand_in S') args.
Proof.
  induction args as [|a args IH]; simpl; intros S S' HS; [by injection HS as <-|].
  destruct (scope a S) as [S1|] eqn:H1; [|done]. destruct (IH _ _ HS) as [Hs Ha].
  pose proof (scope_mono _ _ _ H1). split; [set_solver|]. constructor; [|done].
  intros x Hx. apply Hs. by apply (operand_scope _ _ _ H1).
Qed.

(** A value in scope: what the graph may take up of it, and that it does not use a new local. *)
Lemma value_scope e : forall S S', scope e S = Some S' -> value_in S' e /\ forall l, l ∉ S' -> not_own l e.
Proof.
  assert (forall S args l, Forall (operand_in S) args -> l ∉ S -> Forall (fun a => as_local a ≠ Some l) args) as Hne.
  { intros S args l Ha Hl. eapply Forall_impl; [exact Ha|]. intros a Hin Hx. by apply Hl, Hin. }
  induction e as [[k t] IH] using CExpr_children_ind. intros S S' HS.
  unfold value_in, not_own. destruct k; cbn [scope] in HS; cbn [e_children ce_kind] in IH; rewrite ?Forall_cons in IH; cbn [peel_rc ce_kind];
    try done; try (destruct IH as (IH & _); by eapply IH).
  - case_decide; [|done]. injection HS as <-. split; [done|]. intros l Hl ->. done.
  - apply operands_scope in HS as [_ Ha]. split; [done|]. intros l. by apply Hne.
  - destruct (scope func S) as [S1|]; [|done]. apply operands_scope in HS as [_ Ha]. split; [done|]. intros l. by apply Hne.
  - split; [done|]. intros l Hl. destruct index; [|done]. case_decide; [done|]. split; [|done].
    intros Hx. apply Hl. by apply (operand_scope _ _ _ HS).
  - destruct (as_local value); [|done]. destruct (scope value S) as [S1|]; [|done]. cbn in HS. destruct (bind_new token S1) as [S2|]; [|done].
    destruct IH as (_ & IH & _). by eapply IH.
Qed.

Lemma bind_locals_ne ls : forall vs rho x, x ∉ ls -> bind_locals rho ls vs x = rho x.
Proof.
  induction ls as [|l ls IH]; intros [|v vs] rho x Hx; [done..|]. simpl. apply not_elem_of_cons in Hx as [Hne Hx].
  rewrite IH by done. by apply bind_local_ne.
Qed.

Lemma bind_locals_lookup ls : forall vs rho i l v, NoDup ls -> length vs = length ls ->
  ls !! i = Some l -> vs !! i = Some v -> bind_locals rho ls vs l = v.
Proof.
  induction ls as [|l ls IH]; intros [|v vs] rho i x u Hnd Hlen Hi Hv; try done.
  apply NoDup_cons in Hnd as [Hl Hnd]. destruct i as [|i]; simpl in *.
  - injection Hi as <-. injection Hv as <-. rewrite bind_locals_ne by done. apply bind_local_eq.
  - eapply IH; eauto.
Qed.

Lemma bind_locals_fmap ls vs rho : NoDup ls -> length vs = length ls -> bind_locals rho ls vs <$> ls = vs.
Proof.
  intros Hnd Hlen. apply list_eq. intros i. rewrite list_lookup_fmap.
  destruct (ls !! i) as [l|] eqn:Hl.
  - pose proof (lookup_lt_Some _ _ _ Hl). destruct (lookup_lt_is_Some_2 vs i) as [v Hv]; [lia|].
    simpl. by rewrite Hv, (bind_locals_lookup _ _ _ _ _ _ Hnd Hlen Hl Hv).
  - apply lookup_ge_None in Hl. symmetry. apply lookup_ge_None. lia.
Qed.

Lemma locals_ok_binds ls : forall vs rho, locals_ok rho -> Forall value_ok vs -> locals_ok (bind_locals rho ls vs).
Proof.
  induction ls as [|l ls IH]; intros [|v vs] rho Hr Hv; [done..|]. apply Forall_cons in Hv as [Hv Hvs].
  apply IH; [by apply locals_ok_bind|done].
Qed.

Lemma operand_agrees S rho rho' e v : operand_in S e -> agrees S rho rho' -> operand rho e v -> operand rho' e v.
Proof.
  unfold operand_in, as_local, int_atom. intros He Ha [Hok Hv]. split; [done|].
  destruct (ce_kind e); try done. rewrite Ha; [done|by apply He].
Qed.

Section Many.
Context `{HashOrder}.

(** The components of a call's result. *)
Lemma transfer_many_describes S ls sig args avs vs b rho :
  within S b -> describes b rho -> NoDup ls -> (forall l, l ∈ ls -> l ∉ S) -> Forall (operand_in S) args ->
  Forall2 (operand rho) args avs -> length vs = length ls -> (Z.of_nat (length ls) <= WHOLE)%Z ->
  Forall value_ok vs -> result_holds sig avs (V_Data vs) ->
  describes (transfer_many ls sig args b) (bind_locals rho ls vs).
Proof.
  intros Hw Hd Hnd Hfresh Hin Hargs Hlen Hlt Hok Hsig. set (rho' := bind_locals rho ls vs).
  assert (agrees S rho rho') as Ha by (intros x Hx; apply bind_locals_ne; intros Hl; by apply (Hfresh x)).
  assert (describes b rho') as Hd' by (eapply describes_agrees; [done..|]; apply locals_ok_binds; [apply Hd|done]).
  assert (Forall2 (operand rho') args avs) as Hargs'.
  { clear -Hin Hargs Ha. induction Hargs as [|e v args avs He Hargs IH]; [constructor|].
    apply Forall_cons in Hin as [He' Hin]. constructor; [by eapply operand_agrees|by apply IH]. }
  unfold transfer_many. apply seed_edges_describes; [done|].
  assert (forall t s, rterm_many ls (as_local <$> args) t = Some s -> rterm_val avs (V_Data vs) t = Some (term_val rho' s)) as Hterm.
  { intros [|i|i|f|f] s; simpl; [by intros [= <-]|..].
    - destruct (arg_local _ i) as [x|] eqn:Hx; [|done]. intros [= <-]. by rewrite (arg_local_value _ _ _ _ _ Hargs' Hx).
    - destruct (arg_local _ i) as [x|] eqn:Hx; [|done]. intros [= <-]. by rewrite (arg_local_value _ _ _ _ _ Hargs' Hx).
    - destruct (ls !! Z.to_nat f) as [l|] eqn:Hl; [|done]. intros [= <-].
      pose proof (lookup_lt_Some _ _ _ Hl). destruct (lookup_lt_is_Some_2 vs (Z.to_nat f)) as [v Hv]; [lia|].
      unfold component. rewrite decide_False by (intros ->; unfold WHOLE in *; lia). rewrite Hv. simpl. f_equal.
      unfold rho'. by rewrite (bind_locals_lookup _ _ _ _ _ _ Hnd Hlen Hl Hv).
    - destruct (ls !! Z.to_nat f) as [l|] eqn:Hl; [|done]. intros [= <-].
      pose proof (lookup_lt_Some _ _ _ Hl). destruct (lookup_lt_is_Some_2 vs (Z.to_nat f)) as [v Hv]; [lia|].
      unfold component. rewrite decide_False by (intros ->; unfold WHOLE in *; lia). rewrite Hv. simpl. f_equal.
      unfold rho'. by rewrite (bind_locals_lookup _ _ _ _ _ _ Hnd Hlen Hl Hv). }
  intros x y c s t Hxy Hx Hy. apply (Hsig x y c _ _ Hxy); by apply Hterm.
Qed.
End Many.

(** ** The walk *)

Section Sound.
Context `{HashOrder} (self_name : DefId) (result_of : DefId -> ResultSig).
Context (Calls : DefId -> list Value -> Value -> Prop).
Hypothesis Hcalls : forall d vs v, Calls d vs v -> result_holds (result_of d) vs v.
Abbreviation Walked := (Bounds * list Report)%type.

Definition reported (reps : list Report) (callee : string) (vs : list Value) (rho : Locals) : Prop :=
  exists b args, R_Call b callee args ∈ reps /\ describes b rho /\ operands rho args vs.
Definition reached (reps : list Report) (rho : Locals) (o : Outcome) : Prop :=
  match o with
  | O_Value _ => True
  | O_Call d vs => def_file d = def_file self_name -> reported reps (def_name d) vs rho
  | O_Recur vs => reported reps (def_name self_name) vs rho
  end.

(** What the value of an expression tells about its form. *)
Definition value_is (rho : Locals) (e : CExpr) (v : Value) : Prop :=
  let_value rho e v /\
  forall d args, global_call (peel_rc e) = Some (d, args) -> exists vs, Forall2 (operand rho) args vs /\ Calls d vs v.

Definition sound_run (S : gset LocalId) (w w' : Walked) (rho : Locals) (e : CExpr) (rho' : Locals) (o : Outcome) : Prop :=
  reached w'.2 rho' o /\
  forall v, o = O_Value v -> agrees S rho rho' /\ describes w'.1 rho' /\ value_is rho' e v.

Definition sound (e : CExpr) : Prop := forall tail S S' w w',
  scope e S = Some S' -> within S w.1 -> walk_in self_name result_of tail e w = Some w' ->
  S ⊆ S' /\ within S' w'.1 /\ w.2 ⊆ w'.2 /\
  forall rho rho' o, describes w.1 rho -> runs Calls rho e rho' o -> sound_run S w w' rho e rho' o.

Lemma reached_mono reps reps' rho o : reps ⊆ reps' -> reached reps rho o -> reached reps' rho o.
Proof.
  intros Hs. assert (forall n vs, reported reps n vs rho -> reported reps' n vs rho) as Hr.
  { intros n vs (b & args & Hin & ? & ?). exists b, args. split; [by apply Hs|done]. }
  destruct o; simpl; auto.
Qed.

(** Expressions in sequence. *)
Lemma sound_all es : Forall sound es -> forall S S' w w',
  fold_steps scope es S = Some S' -> within S w.1 ->
  fold_steps (walk_in self_name result_of false) es w = Some w' ->
  S ⊆ S' /\ within S' w'.1 /\ w.2 ⊆ w'.2 /\
  (forall rho rho', describes w.1 rho -> runs_all Calls rho es rho' -> agrees S rho rho' /\ describes w'.1 rho') /\
  (forall rho rho' o, describes w.1 rho -> stops Calls rho es rho' o -> stopped o -> reached w'.2 rho' o).
Proof.
  induction 1 as [|e es He Hes IH]; intros S S' w w' HS Hw Hwalk; simpl in *.
  - injection HS as <-. injection Hwalk as <-. split_and!; [done..| |].
    + intros rho rho' Hd Hr. inversion Hr; subst. done.
    + intros rho rho' o Hd Hs. inversion Hs.
  - destruct (scope e S) as [S1|] eqn:H1; [|done]. destruct (walk_in _ _ _ e w) as [w1|] eqn:H2; [|done]. simpl in *.
    destruct (He _ _ _ _ _ H1 Hw H2) as (HS1 & Hw1 & Hr1 & Hrun).
    destruct (IH _ _ _ _ HS Hw1 Hwalk) as (HS2 & Hw2 & Hr2 & Hall & Hstop).
    split; [by etrans|]. split; [done|]. split; [by etrans|]. split.
    + intros rho rho' Hd Hr. inversion Hr; subst.
      edestruct Hrun as (_ & Hv); [done..|]. destruct (Hv _ eq_refl) as (Ha & Hd1 & _).
      edestruct Hall as (Ha2 & Hd2); [done..|]. split; [|done]. by eapply agrees_trans.
    + intros rho rho' o Hd Hs Hst. inversion Hs; subst.
      * edestruct Hrun as (Hre & _); [done..|]. by eapply reached_mono.
      * edestruct Hrun as (_ & Hv); [done..|]. destruct (Hv _ eq_refl) as (_ & Hd1 & _). by eapply Hstop.
Qed.


Lemma value_in_mono S S' e : S ⊆ S' -> value_in S e -> value_in S' e.
Proof.
  intros HS. unfold value_in. assert (forall args, Forall (operand_in S) args -> Forall (operand_in S') args) as Hm.
  { intros args Ha. eapply Forall_impl; [exact Ha|]. intros a Hx y Hy. by apply HS, Hx. }
  destruct (ce_kind (peel_rc e)); auto.
Qed.

Lemma global_call_kind e d args : global_call e = Some (d, args) -> exists func reuse alloc, ce_kind e = K_App func args reuse alloc.
Proof.
  unfold global_call. destruct (ce_kind e) as [| | | | |[[] ?] ?| | | | | | | | | | | | | | | | | |]; try done.
  intros [= -> ->]. by eexists _, _, _.
Qed.

Lemma value_in_call S e d args : global_call (peel_rc e) = Some (d, args) -> value_in S e -> Forall (operand_in S) args.
Proof. intros (func & reuse & alloc & Hk)%global_call_kind. unfold value_in. by rewrite Hk. Qed.

(** One binding. *)
Lemma bce_sound S l value v b b' rho :
  within S b -> describes b rho -> value_in S value -> l ∉ S -> not_own l value -> value_is rho value v ->
  bce_transfer result_of l value b = Some b' ->
  within ({[l]} ∪ S) b' /\ describes b' (bind_local rho l v).
Proof.
  intros Hw Hd Hin Hl Hno [Hlet Hcall]. unfold bce_transfer.
  assert (within ({[l]} ∪ S) b) as Hw' by (eapply within_mono; [|done]; set_solver +).
  assert (value_in ({[l]} ∪ S) value) as Hin' by (by eapply value_in_mono; [|exact Hin]; set_solver +).
  pose proof (within_unmentioned _ _ _ Hw Hl) as Hu.
  assert (transfer_let l value b = Some b' -> within ({[l]} ∪ S) b' /\ describes b' (bind_local rho l v)) as Htl.
  { intros Hb'. split; [eapply transfer_let_within; [|done..]; set_solver +|].
    destruct (transfer_let_describes l value v b rho Hd Hu Hno Hlet) as (b'' & Hb'' & ?). congruence. }
  destruct (global_call (peel_rc value)) as [[d args]|] eqn:Hg; [|done].
  destruct (negb _); [|done]. intros [= <-]. destruct (Hcall _ _ eq_refl) as (vs & Hargs & Hv).
  destruct (global_call_kind _ _ _ Hg) as (func & reuse & alloc & Hk).
  unfold value_in, not_own in Hin, Hin', Hno. rewrite Hk in Hin, Hin', Hno.
  split; [apply transfer_call_within; [set_solver +|done..]|].
  eapply transfer_call_let; [done..| |by apply Hcalls]. apply Hlet.
Qed.

Lemma value_is_operand rho e v : value_is rho e v -> operand rho e v.
Proof.
  intros [[Hok Hv] _]. split; [done|]. destruct e as [[] t]; cbn in *; done.
Qed.

Lemma stops_one rho e rho' o : stops Calls rho [e] rho' o -> runs Calls rho e rho' o.
Proof. intros Hs. inversion Hs as [|? ? ? ? ? ? ? ? Hn]; subst; [done|]. inversion Hn. Qed.

Lemma exits_graph tail e w : (exits tail e w).1 = w.1.
Proof. by destruct tail. Qed.
Lemma exits_reports tail e (w : Walked) : w.2 ⊆ (exits tail e w).2.
Proof. destruct tail; cbn; [apply list_subseteq_app_l|]; done. Qed.

(** What [sound_all] gives of the expressions evaluated first. *)
Definition sound_leading (S : gset LocalId) (w w' : Walked) (e : CExpr) : Prop :=
  (forall rho rho', describes w.1 rho -> runs_all Calls rho (leading e) rho' -> agrees S rho rho' /\ describes w'.1 rho') /\
  (forall rho rho' o, describes w.1 rho -> stops Calls rho (leading e) rho' o -> stopped o -> reached w'.2 rho' o).

Lemma sound_operation e S tail w w1 rho rho' o :
  operation e -> sound_leading S w w1 e -> describes w.1 rho -> runs Calls rho e rho' o ->
  sound_run S w (exits tail e w1) rho e rho' o.
Proof.
  intros He [Hall Hstop] Hd Hr.
  assert (stopped o -> stops Calls rho (leading e) rho' o -> sound_run S w (exits tail e w1) rho e rho' o) as Hst.
  { intros Ho Hs. split; [|by intros v ->]. eapply reached_mono; [apply exits_reports|]. by eapply Hstop. }
  assert (forall v, runs_all Calls rho (leading e) rho' -> let_value rho' e v -> sound_run S w (exits tail e w1) rho e rho' (O_Value v)) as Hval.
  { intros v Hs Hv. destruct (Hall _ _ Hd Hs) as [Ha Hd1]. split; [done|]. intros u [= <-]. rewrite exits_graph.
    split; [done|]. split; [done|]. split; [done|]. intros d args Hg. exfalso.
    destruct e as [[] t]; cbn in *; done. }
  destruct e as [[] t]; try done; inversion Hr; subst; first [by apply Hval|by apply Hst].
Qed.

Lemma sound_leaf e S tail w rho rho' o :
  leading e = [] -> describes w.1 rho -> runs Calls rho e rho' o ->
  match ce_kind e with K_Lit _ | K_Local _ | K_Global _ | K_MakeClosure _ _ _ | K_Error => True | _ => False end ->
  sound_run S w (exits tail e w) rho e rho' o.
Proof.
  intros Hst Hd Hr Hk. assert (operation e -> sound_run S w (exits tail e w) rho e rho' o) as Hop.
  { intros Ho. eapply sound_operation; [done| |done..]. split; rewrite Hst.
    - intros r r' Hdr Hall. inversion Hall; subst. done.
    - intros r r' o' _ Hs. inversion Hs. }
  assert (forall v, value_ok v -> match ce_kind e with K_Lit l => v = lit_value l | K_Local x => v = rho x | _ => False end ->
    sound_run S w (exits tail e w) rho e rho (O_Value v)) as Hval.
  { intros v Hok Hv. split; [done|]. intros u [= <-]. rewrite exits_graph. split; [done|]. split; [done|].
    destruct e as [[] t]; cbn in *; try done; (split; [by split|done]). }
  destruct e as [[] t]; try done; try by apply Hop.
  - inversion Hr; subst; cbn in *; [by apply Hval|done|]. match goal with Hs : stops _ _ [] _ _ |- _ => inversion Hs end.
  - inversion Hr; subst; cbn in *; [apply Hval; [apply Hd|done]|done|]. match goal with Hs : stops _ _ [] _ _ |- _ => inversion Hs end.
Qed.

Lemma sound_args es : Forall sound es -> forall S S' w w',
  fold_steps scope es S = Some S' -> within S w.1 ->
  fold_steps (walk_in self_name result_of false) es w = Some w' ->
  S ⊆ S' /\ within S' w'.1 /\ w.2 ⊆ w'.2 /\ forall e, leading e = es -> sound_leading S w w' e.
Proof.
  intros Hes S S' w w' HS Hw Hwalk. destruct (sound_all es Hes _ _ _ _ HS Hw Hwalk) as (? & ? & ? & ? & ?).
  split_and!; [done..|]. intros e He. unfold sound_leading. by rewrite He.
Qed.

(** An operation, from the walk of its operands. *)
Lemma sound_op e es : operation e -> leading e = es -> Forall sound es -> forall tail S S' w w1,
  fold_steps scope es S = Some S' -> within S w.1 ->
  fold_steps (walk_in self_name result_of false) es w = Some w1 ->
  S ⊆ S' /\ within S' (exits tail e w1).1 /\ w.2 ⊆ (exits tail e w1).2 /\
  forall rho rho' o, describes w.1 rho -> runs Calls rho e rho' o -> sound_run S w (exits tail e w1) rho e rho' o.
Proof.
  intros Ho He Hes tail S S' w w1 HS Hw Hwalk. destruct (sound_args es Hes _ _ _ _ HS Hw Hwalk) as (Hsub & Hw1 & Hr1 & Hl).
  rewrite exits_graph. split; [done|]. split; [done|]. split; [etrans; [done|apply exits_reports]|].
  intros rho rho' o Hd Hr. by apply sound_operation; auto.
Qed.

Lemma sound_app func args reuse alloc t : sound func -> Forall sound args -> sound (CE (K_App func args reuse alloc) t).
Proof.
  intros Hf Hargs tail S S' w w' HS Hw Hwalk. cbn [scope walk_in] in HS, Hwalk.
  set (w0 := match ce_kind func with K_Global d => _ | _ => w end) in Hwalk.
  assert (w0.1 = w.1 /\ w.2 ⊆ w0.2) as [Hg0 Hr0].
  { unfold w0. destruct (ce_kind func); try done. case_decide; [|done]. split; [done|]. apply list_subseteq_app_l. done. }
  assert (fold_steps scope (func :: args) S = Some S') as HS' by done.
  destruct (fold_steps (walk_in self_name result_of false) (func :: args) w0) as [w1|] eqn:H1; cbn [fold_steps] in H1.
  2:{ destruct (walk_in _ _ _ func w0) as [w1|]; [|done]. cbn in H1, Hwalk. by rewrite H1 in Hwalk. }
  destruct (walk_in _ _ _ func w0) as [wf|] eqn:Hwf; [|done]. cbn in H1, Hwalk. rewrite H1 in Hwalk. injection Hwalk as <-.
  destruct (sound_args (func :: args) ltac:(by constructor) S S' w0 w1) as (Hsub & Hw1 & Hr1 & Hl);
    [done|by rewrite Hg0|by cbn [fold_steps]; rewrite Hwf|].
  destruct (Hl (CE (K_App func args reuse alloc) t) eq_refl) as [Hall Hstop]. rewrite Hg0 in Hall, Hstop.
  rewrite exits_graph. split; [done|]. split; [done|]. split; [etrans; [done|]; etrans; [done|apply exits_reports]|].
  intros rho rho' o Hd Hr.
  assert (forall v, runs_all Calls rho (func :: args) rho' -> value_ok v ->
    (forall d args', global_call (CE (K_App func args reuse alloc) t) = Some (d, args') -> exists vs, Forall2 (operand rho') args' vs /\ Calls d vs v) ->
    sound_run S w (exits tail (CE (K_App func args reuse alloc) t) w1) rho (CE (K_App func args reuse alloc) t) rho' (O_Value v)) as Hval.
  { intros v Hs Hok Hc. destruct (Hall _ _ Hd Hs) as [Ha Hd1]. split; [done|]. intros u [= <-]. rewrite exits_graph.
    split; [done|]. split; [done|]. by split. }
  assert (forall d t0, func = CE (K_Global d) t0 -> runs_all Calls rho args rho' -> runs_all Calls rho (func :: args) rho') as Hfun.
  { intros d t0 -> Hs. eapply (all_cons _ _ rho _ _ _ V_Other); [|done]. apply run_operation; [done|constructor|]. split; [constructor|done]. }
  inversion Hr; subst; try done.
  - destruct (Hall rho rho' Hd (Hfun _ _ eq_refl ltac:(done))) as [Ha Hd1]. split; [|done]. intros Hfile.
    exists w.1, args. split; [|split; [|done]].
    + apply exits_reports, Hr1. unfold w0. cbn [ce_kind]. rewrite decide_True by done.
      apply elem_of_app. right. by apply list_elem_of_singleton.
    + eapply describes_agrees; [done..|apply Hd1].
  - eapply Hval; [by eapply Hfun|done|]. intros d' args' [= <- <-]. eexists. split; [by apply operands_operand|done].
  - apply Hval; [done|done|]. intros d args' Hg. congruence.
  - split; [|by intros v ->]. eapply reached_mono; [apply exits_reports|]. by eapply Hstop.
Qed.

Lemma sound_recur args t : Forall sound args -> sound (CE (K_Recur args) t).
Proof.
  intros Hargs tail S S' w w' HS Hw Hwalk. cbn [scope walk_in] in HS, Hwalk.
  destruct (sound_args args Hargs S S' (report (R_Call w.1 (def_name self_name) args) w) w' HS Hw Hwalk) as (Hsub & Hw1 & Hr1 & Hl).
  destruct (Hl (CE (K_Recur args) t) eq_refl) as [Hall Hstop]. cbn [report fst snd] in *.
  split; [done|]. split; [done|]. split; [etrans; [|done]; by apply list_subseteq_app_l|].
  intros rho rho' o Hd Hr. inversion Hr; subst; try done.
  - destruct (Hall rho rho' Hd ltac:(done)) as [Ha Hd1]. split; [|done]. exists w.1, args. split; [|split; [|done]].
    + apply Hr1, elem_of_app. right. by apply list_elem_of_singleton.
    + eapply describes_agrees; [done..|apply Hd1].
  - split; [|by intros v ->]. by eapply Hstop.
Qed.

(** A run that stops in the first expression of several. *)
Lemma sound_stop S w w1 w' e rho rho' rest o :
  sound_run S w w1 rho e rho' o -> w1.2 ⊆ w'.2 -> stopped o -> sound_run S w w' rho rest rho' o.
Proof. intros [Hre _] Hs Ho. split; [by eapply reached_mono|]. by intros v ->. Qed.

Lemma sound_if cond thn els t : sound cond -> sound thn -> sound els -> sound (CE (K_If cond thn els) t).
Proof.
  intros Hc Ht He tail S S' w w' HS Hw Hwalk. cbn [scope walk_in] in HS, Hwalk.
  destruct (scope cond S) as [S1|] eqn:HS1; [|done]. cbn in HS. destruct (scope thn S1) as [S2|] eqn:HS2; [|done]. cbn in HS.
  destruct (walk_in _ _ _ cond w) as [w1|] eqn:H1; [|done]. cbn in Hwalk.
  destruct (walk_in _ _ _ thn _) as [w2|] eqn:H2; [|done]. cbn in Hwalk.
  destruct (walk_in _ _ _ els _) as [w3|] eqn:H3; [|done]. injection Hwalk as <-. cbn [fst snd].
  destruct (Hc _ _ _ _ _ HS1 Hw H1) as (Hsub1 & Hw1 & Hr1 & Hrun1).
  destruct (Ht _ _ _ (refine cond true w1.1, w1.2) _ HS2 (refine_within _ _ _ _ Hw1) H2) as (Hsub2 & Hw2 & Hr2 & Hrun2).
  assert (within S2 (refine cond false w1.1)) as Hw1' by (eapply (within_mono S1); [done|by apply refine_within]).
  destruct (He _ _ _ (refine cond false w1.1, w2.2) _ HS Hw1' H3) as (Hsub3 & Hw3 & Hr3 & Hrun3). cbn [fst snd] in *.
  split; [set_solver|]. split; [eapply within_mono, Hw1; set_solver|]. split; [etrans; [exact Hr1|]; by etrans|].
  intros rho rho' o Hd Hr. inversion Hr as [| | | | | | |? rho1 ? ? ? ? ? taken ? Hcond Hbr| | | | | | | | |? ? ? ? Ho Hs]; subst; try done.
  - destruct (Hrun1 _ _ _ Hd Hcond) as (_ & Hv). destruct (Hv _ eq_refl) as (Ha1 & Hd1 & Hval%value_is_operand).
    assert (describes (refine cond taken w1.1) rho1) as Hdr by (by apply refine_describes).
    assert (forall S2', S1 ⊆ S2' -> forall e w2', sound_run S2' (refine cond taken w1.1, w2') w3 rho1 e rho' o \/
      (exists wx, wx.2 ⊆ w3.2 /\ sound_run S2' (refine cond taken w1.1, w2') wx rho1 e rho' o) ->
      sound_run S w (w1.1, w3.2) rho (CE (K_If cond thn els) t) rho' o) as Hfin.
    { intros S2' HS2' e w2' Hor.
      assert (exists wx, wx.2 ⊆ w3.2 /\ sound_run S2' (refine cond taken w1.1, w2') wx rho1 e rho' o) as (wx & Hx & Hre & Hv')
        by (destruct Hor as [Hor|Hor]; [by exists w3|done]).
      split; [by eapply reached_mono|]. intros v ->. destruct (Hv' _ eq_refl) as (Ha2 & Hd2 & [[Hok _] _]).
      split; [eapply agrees_trans; [|done|done]; set_solver|]. split; [|by split; [split|]].
      eapply describes_agrees; [done|exact Hd1| |apply Hd2]. intros x Hx'. apply Ha2. set_solver. }
    destruct taken.
    + eapply (Hfin S1); [done|]. right. exists w2. split; [done|]. by apply Hrun2.
    + eapply (Hfin S2); [done|]. left. by apply Hrun3.
  - apply stops_one in Hs. eapply sound_stop; [by apply Hrun1| |done]. by etrans.
Qed.

Lemma sound_let l value body t : sound value -> sound body -> sound (CE (K_Let l value body) t).
Proof.
  intros Hv Hb tail S S' w w' HS Hw Hwalk. cbn [scope walk_in] in HS, Hwalk.
  destruct (scope value S) as [S1|] eqn:HS1; [|done]. cbn in HS.
  destruct (bind_new l S1) as [S2|] eqn:HS2; [|done]. cbn in HS. apply bind_new_some in HS2 as [Hl ->].
  destruct (walk_in _ _ _ value w) as [w1|] eqn:H1; [|done]. cbn in Hwalk.
  destruct (bce_transfer _ l value w1.1) as [b|] eqn:H2; [|done]. cbn in Hwalk.
  destruct (Hv _ _ _ _ _ HS1 Hw H1) as (Hsub1 & Hw1 & Hr1 & Hrun1).
  destruct (value_scope _ _ _ HS1) as [Hin Hno].
  assert (within ({[l]} ∪ S1) b) as Hw2.
  { unfold bce_transfer in H2. assert (within ({[l]} ∪ S1) w1.1) as Hw1' by (eapply within_mono, Hw1; set_solver +).
    assert (value_in ({[l]} ∪ S1) value) as Hin' by (by eapply value_in_mono; [|exact Hin]; set_solver +).
    assert (l ∈ {[l]} ∪ S1) as Hl' by set_solver +.
    destruct (global_call (peel_rc value)) as [[d args]|] eqn:Hg; [destruct (negb _)|]; try by eapply transfer_let_within.
    injection H2 as <-. apply transfer_call_within; [done| |done]. by eapply value_in_call. }
  destruct (Hb _ _ _ (b, w1.2) _ HS Hw2 Hwalk) as (Hsub2 & Hw3 & Hr3 & Hrun3). cbn [fst snd] in *.
  split; [set_solver|]. split; [done|]. split; [by etrans|].
  intros rho rho' o Hd Hr. inversion Hr as [| | | | | | | |? rho1 ? ? ? ? ? v ? Hval Hbr| | | | | | | |? ? ? ? Ho Hs]; subst; try done.
  - destruct (Hrun1 _ _ _ Hd Hval) as (_ & Hv1). destruct (Hv1 _ eq_refl) as (Ha1 & Hd1 & Hv2).
    destruct (bce_sound S1 l value v w1.1 b rho1) as (_ & Hd2); try done; [by apply Hno|].
    destruct (Hrun3 _ _ _ Hd2 Hbr) as (Hre & Hv3). split; [done|]. intros u ->.
    destruct (Hv3 _ eq_refl) as (Ha3 & Hd3 & [[Hok _] _]). split; [|split; [done|]; by (split; [split|])].
    eapply agrees_trans; [exact Hsub1|exact Ha1|]. intros x Hx. rewrite Ha3 by set_solver. apply bind_local_ne. by intros ->.
  - apply stops_one in Hs. eapply sound_stop; [by apply Hrun1| |done]. done.
Qed.

(** The components of a call. *)
Lemma bind_many_sound S ls value vs b rho :
  within S b -> describes b rho -> value_in S value -> NoDup ls -> (forall l, l ∈ ls -> l ∉ S) ->
  length vs = length ls -> (Z.of_nat (length ls) <= WHOLE)%Z -> value_is rho value (V_Data vs) ->
  let b' := match global_call (peel_rc value) with
            | Some (d, args) => transfer_many ls (result_of d) args b | None => b end in
  within (list_to_set ls ∪ S) b' /\ describes b' (bind_locals rho ls vs) /\ agrees S rho (bind_locals rho ls vs).
Proof.
  intros Hw Hd Hin Hnd Hfresh Hlen Hlt [[Hok _] Hcall]. cbn zeta.
  assert (Forall value_ok vs) as Hoks by (by inversion Hok).
  assert (agrees S rho (bind_locals rho ls vs)) as Ha
    by (intros x Hx; apply bind_locals_ne; intros Hl; by apply (Hfresh x)).
  assert (within (list_to_set ls ∪ S) b) as Hw' by (eapply within_mono; [|done]; set_solver +).
  destruct (global_call (peel_rc value)) as [[d args]|] eqn:Hg.
  - destruct (Hcall _ _ eq_refl) as (avs & Hargs & Hv). pose proof (value_in_call _ _ _ _ Hg Hin) as Hops.
    split; [|split; [|done]].
    + assert (Forall (operand_in (list_to_set ls ∪ S)) args) as Hops'.
      { rewrite Forall_forall in Hops |- *. intros a Hx y Hy. apply elem_of_union_r. by apply (Hops a). }
      apply transfer_many_within; [|done..]. apply Forall_forall. set_solver +.
    + apply (transfer_many_describes S ls (result_of d) args avs vs); auto.
  - split; [done|]. split; [|done]. apply (describes_agrees S b rho); try done. apply locals_ok_binds; [apply Hd|done].
Qed.

(** Locals evaluate without a call or a binding. *)
Lemma as_local_run e x rho rho' o : as_local e = Some x -> runs Calls rho e rho' o -> rho' = rho /\ ~ stopped o.
Proof.
  unfold as_local, int_atom. destruct e as [k t]. destruct k as [[]| | | | | | | | | | | | | | | | | | | | | | |]; try done.
  intros _ Hr. inversion Hr; subst; try done; [split; [done|by intros []]|].
  match goal with Hs : stops _ _ _ _ _ |- _ => inversion Hs end.
Qed.

Lemma locals_run es : Forall (fun e => is_Some (as_local e)) es -> forall rho rho',
  (runs_all Calls rho es rho' -> rho' = rho) /\ (forall o, stops Calls rho es rho' o -> ~ stopped o).
Proof.
  induction 1 as [|e es [x Hx] Hes IH]; intros rho rho'; (split; [intros Hr|intros o Hr]); inversion Hr; subst; [done|..].
  - match goal with Hv : runs _ _ e _ _ |- _ => destruct (as_local_run _ _ _ _ _ Hx Hv) as [-> _] end. by apply IH.
  - match goal with Hv : runs _ _ e _ _ |- _ => exact (proj2 (as_local_run _ _ _ _ _ Hx Hv)) end.
  - match goal with Hv : runs _ _ e _ _ |- _ => destruct (as_local_run _ _ _ _ _ Hx Hv) as [-> _] end. by eapply IH.
Qed.

Lemma returns_locals_spread ls body : returns_locals ls body = true ->
  exists es, ce_kind (peel_rc body) = K_Spread es /\ Forall (fun e => is_Some (as_local e)) es.
Proof.
  unfold returns_locals. destruct (ce_kind (peel_rc body)) as [| | | | | | | |es| | | | | | | | | | | | | | |]; try done.
  intros [Hlen%Nat.eqb_eq Hall]%andb_true_iff. exists es. split; [done|].
  revert ls Hlen Hall. induction es as [|e es IH]; intros [|l ls] Hlen Hall; try done. simpl in *.
  apply andb_true_iff in Hall as [He Hall]. constructor; [|by eapply (IH ls); [lia|]].
  unfold as_local, int_atom. destruct (ce_kind e); done.
Qed.

(** A body that returns components, which the walk need not enter: it makes no call. *)
Lemma returns_locals_run ls body : returns_locals ls body = true -> forall S S' rho rho' o,
  scope body S = Some S' -> locals_ok rho -> runs Calls rho body rho' o ->
  agrees S rho rho' /\ locals_ok rho' /\ exists v, o = O_Value v /\ value_is rho' body v.
Proof.
  intros (es & Hk & Hes)%returns_locals_spread. revert Hk. induction body as [[k t] IH] using CExpr_children_ind.
  assert (forall S rho v, locals_ok rho -> value_ok v -> ce_kind (peel_rc (CE k t)) = K_Spread es ->
    agrees S rho rho /\ locals_ok rho /\ exists v', O_Value v = O_Value v' /\ value_is rho (CE k t) v') as Hdone.
  { intros S rho v Hok Hv Hk. split; [done|]. split; [done|]. exists v. split; [done|].
    unfold value_is, let_value, global_call. rewrite Hk. by split. }
  intros Hk S S' rho rho' o HS Hok Hr. destruct k; cbn [peel_rc ce_kind] in Hk; cbn [e_children ce_kind] in IH;
    rewrite ?Forall_cons in IH; try done.
  - injection Hk as ->. inversion Hr as [| |? ? ? ? Ho Hall [Hv _]| | | | | | | | | | | | | |? ? ? ? Ho Hs]; subst; cbn [leading ce_kind] in *.
    + apply (proj1 (locals_run es Hes rho rho')) in Hall as ->. by apply Hdone.
    + by apply (proj2 (locals_run es Hes rho rho')) in Hs.
  - cbn [scope] in HS. destruct (as_local value) as [x|] eqn:Hx; [|done].
    destruct (scope value S) as [S1|] eqn:H1; [|done]. cbn in HS. destruct (bind_new token S1) as [S2|] eqn:H2; [|done].
    apply bind_new_some in H2 as [Hfresh ->]. pose proof (scope_mono _ _ _ H1).
    inversion Hr as [| | | | | | | | | |? rho1 ? ? ? ? ? u v ? Hval Hv Hb| | | | | |? ? ? ? Ho Hs]; subst; [done| |].
    + destruct (as_local_run _ _ _ _ _ Hx Hval) as [-> _]. destruct IH as (_ & IH & _).
      destruct (IH Hk _ _ _ _ _ HS (locals_ok_bind _ _ _ Hok Hv) Hb) as (Ha & Hok' & Hval').
      split; [|by split]. intros y Hy. rewrite Ha by set_solver. apply bind_local_ne. set_solver.
    + apply stops_one in Hs. by destruct (as_local_run _ _ _ _ _ Hx Hs).
  - destruct IH as (IH & _). inversion Hr; subst; [done|by eapply IH|]. match goal with Hs : stops _ _ _ _ _ |- _ => inversion Hs end.
  - destruct IH as (IH & _). inversion Hr; subst; [done|by eapply IH|]. match goal with Hs : stops _ _ _ _ _ |- _ => inversion Hs end.
  - destruct IH as (IH & _). inversion Hr; subst; [done|by eapply IH|]. match goal with Hs : stops _ _ _ _ _ |- _ => inversion Hs end.
Qed.

Lemma sound_let_many ls value body t : sound value -> sound body -> sound (CE (K_LetMany ls value body) t).
Proof.
  intros Hv Hb tail S S' w w' HS Hw Hwalk. cbn [scope walk_in] in HS, Hwalk.
  destruct (scope value S) as [S1|] eqn:HS1; [|done]. cbn in HS.
  destruct (fold_steps bind_new ls S1) as [S2|] eqn:HS2; [|done]. cbn in HS. apply bind_news_some in HS2 as (Hnd & Hl & ->).
  destruct (Z.leb_spec (Z.of_nat (length ls)) WHOLE) as [Hlt|]; [|done].
  destruct (walk_in _ _ _ value w) as [w1|] eqn:H1; [|done]. cbn in Hwalk.
  destruct (Hv _ _ _ _ _ HS1 Hw H1) as (Hsub1 & Hw1 & Hr1 & Hrun1). destruct (value_scope _ _ _ HS1) as [Hin _].
  set (b := match global_call (peel_rc value) with Some (d, args) => transfer_many ls (result_of d) args w1.1 | None => w1.1 end).
  assert (within (list_to_set ls ∪ S1) b) as Hw2.
  { assert (within (list_to_set ls ∪ S1) w1.1) as Hw1' by (eapply within_mono, Hw1; set_solver +).
    assert (value_in (list_to_set ls ∪ S1) value) as Hin' by (eapply value_in_mono, Hin; set_solver +).
    unfold b. destruct (global_call (peel_rc value)) as [[d args]|] eqn:Hg; [|done].
    apply transfer_many_within; [|by eapply value_in_call|done]. apply Forall_forall. set_solver +. }
  assert ((returns_locals ls body = true /\ w' = (b, w1.2)) \/ walk_in self_name result_of tail body (b, w1.2) = Some w') as Hcase.
  { unfold b. destruct (global_call (peel_rc value)) as [[d args]|]; [|right; by destruct w1].
    destruct (tail && _ && returns_locals ls body) eqn:Hc; [|by right]. injection Hwalk as <-. left.
    apply andb_true_iff in Hc as [_ Hc]. done. }
  assert (S ⊆ S' /\ within S' w'.1 /\ w1.2 ⊆ w'.2 /\ forall rho rho' o, describes b rho -> runs Calls rho body rho' o ->
    sound_run (list_to_set ls ∪ S1) (b, w1.2) w' rho body rho' o) as (Hsub2 & Hw3 & Hr3 & Hrun3).
  { pose proof (scope_mono _ _ _ HS) as Hsub2. destruct Hcase as [[Hret ->]|Hwalk'].
    - split; [set_solver|]. split; [by eapply within_mono|]. split; [done|]. intros rho rho' o Hd Hr.
      destruct (returns_locals_run _ _ Hret _ _ _ _ _ HS (ds_locals _ _ Hd) Hr) as (Ha & Hok & v & -> & Hvi).
      split; [done|]. intros u [= <-]. split; [done|]. split; [|done]. by eapply describes_agrees.
    - destruct (Hb _ _ _ (b, w1.2) _ HS Hw2 Hwalk') as (_ & ? & ? & ?). split; [set_solver|done]. }
  split; [done|]. split; [done|]. split; [by etrans|].
  intros rho rho' o Hd Hr. inversion Hr as [| | | | | | | | |? rho1 ? ? ? ? ? vs ? Hval Hlen Hbr| | | | | | |? ? ? ? Ho Hs]; subst; try done.
  - destruct (Hrun1 _ _ _ Hd Hval) as (_ & Hv1). destruct (Hv1 _ eq_refl) as (Ha1 & Hd1 & Hv2).
    destruct (bind_many_sound S1 ls value vs w1.1 rho1) as (_ & Hd2 & Ha2); try done.
    destruct (Hrun3 _ _ _ Hd2 Hbr) as (Hre & Hv3). split; [done|]. intros u ->.
    destruct (Hv3 _ eq_refl) as (Ha3 & Hd3 & [[Hok _] _]). split; [|split; [done|]; by (split; [split|])].
    eapply agrees_trans; [exact Hsub1|exact Ha1|]. intros x Hx. rewrite Ha3 by set_solver. by apply Ha2.
  - apply stops_one in Hs. eapply sound_stop; [by apply Hrun1| |done]. done.
Qed.

(** A new local the graph is told nothing of. *)
Lemma describes_fresh S b rho l v : within S b -> describes b rho -> l ∉ S -> value_ok v ->
  describes b (bind_local rho l v) /\ agrees S rho (bind_local rho l v).
Proof.
  intros Hw Hd Hl Hv. pose proof (agrees_bind S rho l v Hl) as Ha. split; [|done].
  apply (describes_agrees S b rho); try done. apply locals_ok_bind; [apply Hd|done].
Qed.

Lemma sound_reset value token body t : sound value -> sound body -> sound (CE (K_Reset value token body) t).
Proof.
  intros Hv Hb tail S S' w w' HS Hw Hwalk. cbn [scope walk_in] in HS, Hwalk.
  destruct (as_local value); [|done]. destruct (scope value S) as [S1|] eqn:HS1; [|done]. cbn in HS.
  destruct (bind_new token S1) as [S2|] eqn:HS2; [|done]. cbn in HS. apply bind_new_some in HS2 as [Hl ->].
  destruct (walk_in _ _ _ value w) as [w1|] eqn:H1; [|done]. cbn in Hwalk.
  destruct (Hv _ _ _ _ _ HS1 Hw H1) as (Hsub1 & Hw1 & Hr1 & Hrun1).
  assert (within ({[token]} ∪ S1) w1.1) as Hw2 by (eapply within_mono, Hw1; set_solver +).
  destruct (Hb _ _ _ w1 _ HS Hw2 Hwalk) as (Hsub2 & Hw3 & Hr3 & Hrun3).
  split; [set_solver|]. split; [done|]. split; [by etrans|].
  intros rho rho' o Hd Hr. inversion Hr as [| | | | | | | | | |? rho1 ? ? ? ? ? u v ? Hval Hok Hbr| | | | | |? ? ? ? Ho Hs]; subst; try done.
  - destruct (Hrun1 _ _ _ Hd Hval) as (_ & Hv1). destruct (Hv1 _ eq_refl) as (Ha1 & Hd1 & _).
    destruct (describes_fresh S1 w1.1 rho1 token v Hw1 Hd1 Hl Hok) as [Hd2 Ha2].
    destruct (Hrun3 _ _ _ Hd2 Hbr) as (Hre & Hv3). split; [done|]. intros x Hx.
    destruct (Hv3 _ Hx) as (Ha3 & Hd3 & Hv4). split; [|split; [done|exact Hv4]].
    eapply agrees_trans; [exact Hsub1|exact Ha1|]. intros y Hy. rewrite Ha3 by set_solver. by apply Ha2.
  - apply stops_one in Hs. eapply sound_stop; [by apply Hrun1| |done]. done.
Qed.

Lemma sound_hole hole body t : sound body -> sound (CE (K_HoleStart hole body) t).
Proof.
  intros Hb tail S S' w w' HS Hw Hwalk. cbn [scope walk_in] in HS, Hwalk.
  destruct (bind_new hole S) as [S2|] eqn:HS2; [|done]. cbn in HS. apply bind_new_some in HS2 as [Hl ->].
  assert (within ({[hole]} ∪ S) w.1) as Hw2 by (eapply within_mono, Hw; set_solver +).
  destruct (Hb _ _ _ w _ HS Hw2 Hwalk) as (Hsub2 & Hw3 & Hr3 & Hrun3).
  split; [set_solver|]. split; [done|]. split; [done|].
  intros rho rho' o Hd Hr. inversion Hr as [| | | | | | | | | | | | | | |? ? ? ? ? v ? Hok Hbr|? ? ? ? Ho Hs]; subst; try done.
  - destruct (describes_fresh S w.1 rho hole v Hw Hd Hl Hok) as [Hd2 Ha2].
    destruct (Hrun3 _ _ _ Hd2 Hbr) as (Hre & Hv3). split; [done|]. intros x Hx.
    destruct (Hv3 _ Hx) as (Ha3 & Hd3 & [[Hv4 _] _]). split; [|split; [done|by split; [split|]]].
    intros y Hy. rewrite Ha3 by set_solver. by apply Ha2.
  - inversion Hs.
Qed.

(** The wrappers a body goes through. *)
Lemma sound_through k body t :
  match k with K_Dup _ b | K_Drop _ b | K_FreeReuse _ b | K_Join _ b => b = body | _ => False end ->
  sound body -> sound (CE k t).
Proof.
  intros Hk Hb tail S S' w w' HS Hw Hwalk.
  assert (scope body S = Some S') as HS' by (destruct k; subst; done).
  assert (walk_in self_name result_of tail body w = Some w') as Hwalk' by (destruct k; subst; done).
  destruct (Hb _ _ _ _ _ HS' Hw Hwalk') as (Hsub & Hw1 & Hr1 & Hrun). split_and!; [done..|].
  intros rho rho' o Hd Hr. assert (runs Calls rho body rho' o) as Hr'.
  { destruct k; try done; subst; inversion Hr; subst; try done;
      match goal with Hs : stops _ _ _ _ _ |- _ => inversion Hs end. }
  destruct (Hrun _ _ _ Hd Hr') as [Hre Hv]. split; [done|]. intros v Hx. destruct (Hv _ Hx) as (? & ? & [[Hok Hl] Hc]).
  split; [done|]. split; [done|]. destruct k; try done; subst; by (split; [split|]).
Qed.

Lemma sound_hole_close hole base t : sound base -> sound (CE (K_HoleClose hole base) t).
Proof.
  intros Hb tail S S' w w' HS Hw Hwalk. destruct (Hb _ _ _ _ _ HS Hw Hwalk) as (Hsub & Hw1 & Hr1 & Hrun).
  split_and!; [done..|]. intros rho rho' o Hd Hr.
  eapply (sound_operation _ S false w w'); [done| |done..]. split; cbn [leading ce_kind].
  - intros r r' Hdr Hall. inversion Hall; subst.
    match goal with Hn : runs_all _ _ [] _ |- _ => inversion Hn; subst end.
    edestruct Hrun as (_ & Hv); [done..|]. by destruct (Hv _ eq_refl) as (? & ? & _).
  - intros r r' o' Hdr Hs%stops_one _. by edestruct Hrun as (Hre & _).
Qed.

Lemma walk_sound e : sound e.
Proof.
  induction e as [[k t] IH] using CExpr_children_ind.
  assert (forall es, leading (CE k t) = es -> operation (CE k t) -> Forall sound es ->
    (forall tail w, walk_in self_name result_of tail (CE k t) w =
       (w1 ← fold_steps (walk_in self_name result_of false) es w; Some (exits tail (CE k t) w1))) ->
    (forall S S', scope (CE k t) S = Some S' -> fold_steps scope es S = Some S') -> sound (CE k t)) as Hop.
  { intros es He Ho Hes Hwalk Hscope tail S S' w w' HS Hw Hw'. rewrite Hwalk in Hw'.
    destruct (fold_steps _ es w) as [w1|] eqn:H1; [|done]. injection Hw' as <-.
    apply (sound_op _ es Ho He Hes tail S S' w w1); auto. }
  assert (match k with K_Lit _ | K_Local _ | K_Global _ | K_MakeClosure _ _ _ | K_Error => True | _ => False end -> sound (CE k t)) as Hleaf.
  { intros Hk tail S S' w w' HS Hw Hwalk.
    assert (S' = S /\ w' = exits tail (CE k t) w) as [-> ->].
    { destruct k; try done; cbn in HS, Hwalk; try case_decide; try done; by simplify_eq. }
    rewrite exits_graph. split; [done|]. split; [done|]. split; [apply exits_reports|].
    intros rho rho' o Hd Hr. apply sound_leaf; try done. by destruct k. }
  destruct k; cbn [e_children ce_kind] in IH; rewrite ?Forall_cons in IH;
    try (by apply Hleaf); try (by eapply (Hop args)).
  - by destruct IH; apply sound_app.
  - destruct IH as (? & ? & ? & _). by apply sound_if.
  - destruct IH as (? & ? & _). by apply sound_let.
  - by eapply (Hop components).
  - destruct IH as (? & ? & _). by apply sound_let_many.
  - destruct IH as (? & _). eapply (Hop [base]); [done|done|by constructor| |].
    + intros tail w. cbn. by destruct (walk_in _ _ _ base w).
    + intros S S' HS. cbn in *. by rewrite HS.
  - destruct IH as (? & _). eapply (Hop [base]); [done|done|by constructor| |].
    + intros tail w. cbn. by destruct (walk_in _ _ _ base w).
    + intros S S' HS. cbn in *. destruct index; [case_decide; [done|]|]; by rewrite HS.
  - destruct IH as (? & ? & _). by apply sound_reset.
  - destruct IH as (? & _). by eapply sound_through.
  - destruct IH as (? & _). by eapply sound_through.
  - destruct IH as (? & _). by eapply sound_through.
  - destruct IH as (? & _). by eapply sound_through.
  - by apply sound_recur.
  - destruct IH as (? & _). by apply sound_hole.
  - destruct IH as (? & _). intros tail S S' w w' HS Hw Hwalk.
    assert (fold_steps (walk_in self_name result_of false) [cell] w = Some w') as Hwalk'
      by (cbn in *; by rewrite Hwalk).
    assert (fold_steps scope [cell] S = Some S') as HS' by (cbn in *; by rewrite HS).
    destruct (sound_op (CE (K_HoleFill hole cell field) t) [cell] I eq_refl ltac:(by constructor) false S S' w w' HS' Hw Hwalk')
      as (? & ? & ? & ?). done.
  - destruct IH as (? & _). by apply sound_hole_close.
Qed.

(** ** No panic *)

Lemma bce_transfer_total l value b : exists b', bce_transfer result_of l value b = Some b'.
Proof.
  unfold bce_transfer. destruct (global_call (peel_rc value)) as [[d args]|]; [|apply transfer_let_total].
  case_match; [by eexists|apply transfer_let_total].
Qed.

Lemma walk_in_total e : forall tail w, exists w', walk_in self_name result_of tail e w = Some w'.
Proof.
  induction e as [[k t] IH] using CExpr_children_ind.
  assert (forall es, Forall (fun e => forall tail w, exists w', walk_in self_name result_of tail e w = Some w') es ->
    forall w, exists w', fold_steps (walk_in self_name result_of false) es w = Some w') as Hall.
  { induction 1 as [|e es He Hes IHes]; intros w; [by exists w|]. simpl. destruct (He false w) as [w1 ->]. apply IHes. }
  intros tail w. destruct k; cbn [e_children ce_kind] in IH; rewrite ?Forall_cons in IH; cbn [walk_in];
    repeat match goal with
    | Hx : _ /\ _ |- _ => destruct Hx
    | Hx : forall tail w, exists w', walk_in _ _ tail ?e w = Some w' |- context [walk_in _ _ ?tl ?e ?w0] =>
        let w1 := fresh "w1" in let E := fresh "E" in destruct (Hx tl w0) as [w1 E]; rewrite E; cbn
    | |- context [fold_steps (walk_in _ _ false) ?es ?w0] =>
        let w1 := fresh "w1" in let E := fresh "E" in destruct (Hall es ltac:(done) w0) as [w1 E]; rewrite E; cbn
    | |- context [bce_transfer _ ?l ?v ?b] =>
        let b1 := fresh "b1" in let E := fresh "E" in destruct (bce_transfer_total l v b) as [b1 E]; rewrite E; cbn
    end; try (by eexists).
  destruct (global_call (peel_rc value)) as [[d args]|]; [destruct (_ && _); [by eexists|]|]; eauto.
Qed.
End Sound.
