(* ===== verification/BoundsSig.v ===== *)
(** * Facts across calls

    The fixpoints of fai-rc's [bounds_sig.rs].  A private definition's entry facts are what the
    graphs at all its call sites agree on; a definition's result facts are what the graphs at
    its returns agree on.  The result facts of a callee come through [result_of], as they do in
    the code; the queries behind it are not modelled. *)

From S2P Require Import Prelude Types Ir Bounds BoundsWalk.
From stdpp Require Import gmap list strings pretty sorting.
From Stdlib Require Import ZArith.

Definition SIG_CONST_CAP : Z := 2 ^ 30.
Definition FIXPOINT_BOUND : nat := 64.
Definition OUTER_BOUND : nat := 32.

#[export] Instance PTerm_eq_dec : EqDecision PTerm.
Proof. solve_decision. Defined.
#[export] Instance PTerm_countable : Countable PTerm.
Proof.
  apply (inj_countable'
    (fun t => match t with PT_Zero => inl () | PT_Param i => inr (inl i) | PT_LenParam i => inr (inr i) end)
    (fun s => match s with inl _ => PT_Zero | inr (inl i) => PT_Param i | inr (inr i) => PT_LenParam i end)).
  by intros [].
Defined.
#[export] Instance RTerm_eq_dec : EqDecision RTerm.
Proof. solve_decision. Defined.
#[export] Instance RTerm_countable : Countable RTerm.
Proof.
  apply (inj_countable'
    (fun t => match t with RT_Zero => inl () | RT_Param i => inr (inl (inl i)) | RT_LenParam i => inr (inl (inr i))
              | RT_ResultVal f => inr (inr (inl f)) | RT_ResultLen f => inr (inr (inr f)) end)
    (fun s => match s with inl _ => RT_Zero | inr (inl (inl i)) => RT_Param i | inr (inl (inr i)) => RT_LenParam i
              | inr (inr (inl f)) => RT_ResultVal f | inr (inr (inr f)) => RT_ResultLen f end)).
  by intros [].
Defined.

Abbreviation SigMap := (gmap (PTerm * PTerm) Z).
Abbreviation ResMap := (gmap (RTerm * RTerm) Z).

(** The order in which a table of definitions is iterated. *)
Class DefOrder := {
  in_order {V : Type} : gmap string V -> list (string * V);
  in_order_perm {V : Type} (m : gmap string V) : in_order m ≡ₚ map_to_list m;
}.
#[export, refine] Instance name_order : DefOrder := {| in_order V m := map_to_list m |}.
Proof. done. Defined.

Inductive ParamKind := Kind_Int | Kind_Array | Kind_Other.
(** [DefData] *)
Record DefData := MkDefData {
  dd_params : list LocalId; dd_bodies : list CExpr; dd_result_ty : Ty;
  dd_param_kinds : list ParamKind; dd_evidence : nat }.

Definition is_int (ty : Ty) : bool := match ty with Ty_Con Con_Int => true | _ => false end.
Fixpoint is_array (ty : Ty) : bool :=
  match ty with Ty_Con Con_Array => true | Ty_App h _ => is_array h | _ => false end.

(** ** Tables of facts *)

Section Facts.
Context `{Countable K}.

(** [tighten], [tighten_result] *)
Definition tighten_fact (key : K) (c : Z) (sig : gmap K Z) : gmap K Z :=
  let slot := default c (sig !! key) in
  <[key := if (c <? slot)%Z then c else slot]> sig.

(** [meet], [meet_result]: the facts both have, at the weaker weight. *)
Definition meet_facts (acc : option (gmap K Z)) (new : gmap K Z) : option (gmap K Z) :=
  match acc with
  | None => Some new
  | Some cur => Some (merge (fun c nc => match c, nc with Some c, Some nc => Some (Z.max c nc) | _, _ => None end) cur new)
  end.

(** [widen]: the facts of the round before, if they did not loosen. *)
Definition widen (prev : option (gmap K Z)) (new : gmap K Z) : gmap K Z :=
  match prev with
  | None => new
  | Some prev =>
      merge (fun c pc => match c, pc with Some c, Some pc => if (c <=? pc)%Z then Some c else None | _, _ => None end) new prev
  end.
(** [widen_result]: a fact is dropped when it loosened. *)
Definition widen_result (prev : option (gmap K Z)) (new : gmap K Z) : gmap K Z :=
  match prev with
  | None => new
  | Some prev =>
      merge (fun c pc => match c, pc with Some c, Some pc => if (c <=? pc)%Z then Some c else None | Some c, None => Some c | _, _ => None end)
        new prev
  end.
End Facts.

(** The [Debug] text of a fact, by which signatures are sorted. *)
Definition pterm_debug (t : PTerm) : string :=
  match t with
  | PT_Zero => "Zero" | PT_Param i => "Param(" +:+ pretty i +:+ ")" | PT_LenParam i => "LenParam(" +:+ pretty i +:+ ")"
  end.
Definition rterm_debug (t : RTerm) : string :=
  match t with
  | RT_Zero => "Zero" | RT_Param i => "Param(" +:+ pretty i +:+ ")" | RT_LenParam i => "LenParam(" +:+ pretty i +:+ ")"
  | RT_ResultVal f => "ResultVal(" +:+ pretty f +:+ ")" | RT_ResultLen f => "ResultLen(" +:+ pretty f +:+ ")"
  end.
Definition fact_debug {T} (debug : T -> string) (e : T * T * Z) : string :=
  "(" +:+ debug e.1.1 +:+ ", " +:+ debug e.1.2 +:+ ", " +:+ pretty e.2 +:+ ")".
Definition fact_le {T} (debug : T -> string) (x y : T * T * Z) : Prop :=
  String.le (fact_debug debug x) (fact_debug debug y).
#[export] Instance fact_le_dec {T} debug (x y : T * T * Z) : Decision (fact_le debug x y).
Proof. unfold fact_le. apply _. Defined.

Definition to_sig (m : SigMap) : BoundSig := MkBoundSig (merge_sort (fact_le pterm_debug) (map_to_list m)).
Definition to_result_sig (m : ResMap) : ResultSig := MkResultSig (merge_sort (fact_le rterm_debug) (map_to_list m)).

(** ** Uses as values *)

(** [poison_first_class]: a definition that is used otherwise than in a call with at least its
    parameters is no longer eligible. *)
Section Poison.
Context (source : SourceId) (arity : string -> nat).

Fixpoint poison_first_class (e : CExpr) (eligible : gset string) : gset string :=
  match e with
  | CE kind _ =>
      match kind with
      | K_App func args _ _ =>
          let saturated := match ce_kind func with
                           | K_Global d => bool_decide (def_file d = source) && (arity (def_name d) <=? length args)
                           | _ => false
                           end in
          let eligible := if saturated then eligible else poison_first_class func eligible in
          foldl (fun el a => poison_first_class a el) eligible args
      | K_Global d => if decide (def_file d = source) then eligible ∖ {[def_name d]} else eligible
      | K_Let _ value body | K_Reset value _ body | K_LetMany _ value body =>
          poison_first_class body (poison_first_class value eligible)
      | K_If cond thn els =>
          poison_first_class els (poison_first_class thn (poison_first_class cond eligible))
      | K_Prim _ args | K_Foreign _ args _ | K_MakeData _ args _ _ _ | K_Recur args | K_Spread args =>
          foldl (fun el a => poison_first_class a el) eligible args
      | K_DataTag base _ | K_DataField base _ _ _ => poison_first_class base eligible
      | K_Dup _ body | K_Drop _ body | K_FreeReuse _ body => poison_first_class body eligible
      | K_Join _ body | K_HoleStart _ body => poison_first_class body eligible
      | K_HoleFill _ cell _ => poison_first_class cell eligible
      | K_HoleClose _ base => poison_first_class base eligible
      | K_Lit _ | K_Local _ | K_MakeClosure _ _ _ | K_Error => eligible
      end
  end.
End Poison.

(** ** The facts of one call *)

Section Extract.
Context `{HashOrder}.

Inductive ArgTerm := AT_Var (p : PTerm) (t : Term) | AT_Const (p : PTerm) (n : Z).

(** [u32::try_from(i).unwrap_or(u32::MAX)] *)
Definition arg_index (i : nat) : Z := Z.min (Z.of_nat i) (2 ^ 32 - 1).

Definition arg_term (i : nat) (arg : CExpr) : option ArgTerm :=
  let idx := arg_index i in
  match ce_kind (peel_rc arg) with
  | K_Local l =>
      if is_int (ce_ty arg) then Some (AT_Var (PT_Param idx) (T_Int l))
      else if is_array (ce_ty arg) then Some (AT_Var (PT_LenParam idx) (T_Len l)) else None
  | K_Lit (Lit_Int n) =>
      if is_int (ce_ty arg) then
        Some (if decide (n = 0%Z) then AT_Var (PT_Param idx) T_Zero else AT_Const (PT_Param idx) n)
      else None
  | _ => None
  end.
Definition arg_terms (args : list CExpr) : list ArgTerm :=
  AT_Var PT_Zero T_Zero :: omap (fun p => arg_term p.1 p.2) (imap pair args).

Definition in_sig_cap (w : Z) : bool := (Z.abs w <=? SIG_CONST_CAP)%Z.

Definition extract_call (b : Bounds) (args : list CExpr) : SigMap :=
  let terms := arg_terms args in
  let sig := foldl (fun sig a => foldl (fun sig c =>
    match a, c with
    | AT_Var pa ta, AT_Var pc tc =>
        if decide (pa = pc) then sig
        else match bound b ta tc with
             | Some w => if in_sig_cap w then tighten_fact (pa, pc) w sig else sig
             | None => sig
             end
    | _, _ => sig
    end) sig terms) ∅ terms in
  foldl (fun sig a =>
    match a with
    | AT_Const p n => if in_sig_cap n then tighten_fact (PT_Zero, p) (- n)%Z (tighten_fact (p, PT_Zero) n sig) else sig
    | _ => sig
    end) sig terms.

(** ** The facts of one result *)

Definition local_term (l : LocalId) (ty : Ty) : Term := if is_array ty then T_Len l else T_Int l.
Definition result_rterm (field : Z) (ty : Ty) : RTerm := if is_array ty then RT_ResultLen field else RT_ResultVal field.
Definition component_term (e : CExpr) (ty : Ty) : option Term :=
  match ce_kind (peel_rc e) with K_Local l => Some (local_term l ty) | _ => None end.
Definition synthetic_result_local : N := 2 ^ 30.

(** The parameters' terms. *)
Definition param_term (d : DefData) (p : nat * ParamKind) : option (list (RTerm * Term)) :=
  match p.2 with
  | Kind_Int => l ← dd_params d !! p.1; Some [(RT_Param (arg_index p.1), T_Int l)]
  | Kind_Array => l ← dd_params d !! p.1; Some [(RT_LenParam (arg_index p.1), T_Len l)]
  | Kind_Other => Some []
  end.
Definition param_terms (d : DefData) : option (list (RTerm * Term)) :=
  ts ← mapM (param_term d) (imap pair (dd_param_kinds d)); Some ((RT_Zero, T_Zero) :: concat ts).

Definition is_len_pair (rc rp : RTerm) : bool :=
  match rc, rp with RT_ResultLen _, RT_LenParam _ => true | _, _ => false end.

Definition relate (graph : Bounds) (rc : RTerm) (rt : Term) (sig : ResMap) (p : RTerm * Term) : ResMap :=
  let '(rp, pt) := p in
  if is_len_pair rc rp then sig
  else
    let sig := match bound graph rt pt with
               | Some w => if in_sig_cap w then tighten_fact (rc, rp) w sig else sig | None => sig end in
    match bound graph pt rt with
    | Some w => if in_sig_cap w then tighten_fact (rp, rc) w sig else sig | None => sig end.

(** The graph to read a returned value from, and the terms of its components; [None] where the
    code returns no facts at once. *)
Definition result_components (b : Bounds) (v : CExpr) (d : DefData) (result_of : DefId -> ResultSig)
    : option (Bounds * list (RTerm * Term)) :=
  let v := peel_rc v in
  let whole :=
    match component_term v (dd_result_ty d) with
    | Some t => Some (b, [(result_rterm WHOLE (dd_result_ty d), t)])
    | None => None
    end in
  match global_call v with
  | Some (g, args) =>
      let sig := result_of g in
      if result_sig_empty sig || match dd_result_ty d with Ty_Tuple _ => true | _ => false end then None
      else
        let syn := N.to_nat synthetic_result_local in
        Some (transfer_call syn sig args b, [(result_rterm WHOLE (dd_result_ty d), local_term syn (dd_result_ty d))])
  | None =>
      match ce_kind v, dd_result_ty d with
      | (K_MakeData _ args _ _ _ | K_Spread args), Ty_Tuple elems =>
          Some (b, omap (fun p => t ← component_term p.2.2 p.2.1; Some (result_rterm (Z.of_nat p.1) p.2.1, t))
                     (imap pair (zip elems args)))
      | _, _ => whole
      end
  end.

Definition extract_result (b : Bounds) (v : CExpr) (d : DefData) (result_of : DefId -> ResultSig) : option ResMap :=
  match result_components b v d result_of with
  | None | Some (_, []) => Some ∅
  | Some (graph, comps) =>
      params ← param_terms d;
      Some (foldl (fun sig c => foldl (relate graph c.1 c.2) sig params) ∅ comps)
  end.
End Extract.

(** ** The fixpoints *)

Section Module.
Context `{HashOrder} `{DefOrder} (source : SourceId).
Context (data : gmap string DefData) (eligible : gset string).

Definition arity (n : string) : nat := match data !! n with Some d => length (dd_params d) | None => 0 end.

Abbreviation Facts := (gmap string SigMap).
Abbreviation Results := (gmap string ResMap).

Section Entry.
Context (result_of : DefId -> ResultSig).

(** The closure [on_call]. *)
Definition on_call (include_self : bool) (caller : string) (next : gmap string (option SigMap)) (r : Report)
    : gmap string (option SigMap) :=
  match r with
  | R_Call b callee args =>
      if negb (bool_decide (callee ∈ eligible)) || negb (length args =? arity callee) then next
      else if negb include_self && bool_decide (callee = caller) then next
      else <[callee := meet_facts (default None (next !! callee)) (extract_call b args)]> next
  | R_Exit _ _ => next
  end.

Definition seed_of (facts : Facts) (name : string) (d : DefData) : Bounds :=
  match facts !! name with
  | Some sig => seed_entry (to_sig sig) (dd_params d) new_bounds
  | None => new_bounds
  end.

Definition collect_body (include_self : bool) (facts : Facts) (caller : string) (d : DefData)
    (ib : nat * CExpr) (next : gmap string (option SigMap)) : option (gmap string (option SigMap)) :=
  let seed := if ib.1 =? 0 then seed_of facts caller d else new_bounds in
  w ← walk (MkDefId source caller) result_of ib.2 seed;
  Some (foldl (on_call include_self caller) next w.2).
Definition collect_def (include_self : bool) (facts : Facts) (p : string * DefData)
    (next : gmap string (option SigMap)) : option (gmap string (option SigMap)) :=
  fold_steps (collect_body include_self facts p.1 p.2) (imap pair (dd_bodies p.2)) next.
Definition settled (next : gmap string (option SigMap)) : Facts := (fun m => default ∅ m) <$> next.
Definition collect_round (facts : Facts) (include_self : bool) : option Facts :=
  next ← fold_steps (collect_def include_self facts) (in_order data) ∅;
  Some (settled next).

Fixpoint propagate (rounds : nat) (facts : Facts) : option Facts :=
  match rounds with
  | 0 => Some facts
  | S rounds =>
      next ← collect_round facts false;
      if decide (next = facts) then Some facts else propagate rounds next
  end.

Definition widen_facts (facts next : Facts) : Facts := map_imap (fun n m => Some (widen (facts !! n) m)) next.
Fixpoint preserve (round rounds : nat) (facts : Facts) : option Facts :=
  match rounds with
  | 0 => Some facts
  | S rounds =>
      next ← collect_round facts true;
      let updated := if round =? 0 then next else widen_facts facts next in
      if decide (updated = facts) then Some facts else preserve (S round) rounds updated
  end.

Definition entry_fixpoint : option Facts :=
  facts ← propagate FIXPOINT_BOUND ∅;
  preserve 0 FIXPOINT_BOUND facts.

(** [extract_results] *)
Definition on_exit (d : DefData) (acc : option (option ResMap)) (r : Report) : option (option ResMap) :=
  match r with
  | R_Exit b v => acc ← acc; m ← extract_result b v d result_of; Some (meet_facts acc m)
  | R_Call _ _ _ => acc
  end.
Definition result_facts_of (entry : Facts) (prev : Results) (name : string) (d : DefData) : option (option ResMap) :=
  if 0 <? dd_evidence d then Some None
  else match head (dd_bodies d) with
       | None => Some None
       | Some body =>
           w ← walk (MkDefId source name) result_of body (seed_of entry name d);
           acc ← foldl (on_exit d) (Some None) w.2;
           let guarded := widen_result (prev !! name) (default ∅ acc) in
           Some (if decide (guarded = ∅) then None else Some guarded)
       end.
Definition extract_results (entry : Facts) (prev : Results) : option Results :=
  fold_steps (fun p out => m ← result_facts_of entry prev p.1 p.2;
    Some (match m with Some m => <[p.1 := m]> out | None => out end)) (in_order data) ∅.
End Entry.

(** The outer loop of [module_bounds_facts]; [result_sig_for] merges the facts so far with those
    of other queries. *)
Fixpoint coupled (result_sig_for : Results -> DefId -> ResultSig) (rounds : nat) (entry : Facts) (result : Results)
    : option (Facts * Results) :=
  match rounds with
  | 0 => Some (entry, result)
  | S rounds =>
      next_entry ← entry_fixpoint (result_sig_for result);
      next_result ← extract_results (result_sig_for result) next_entry result;
      if decide (next_entry = entry /\ next_result = result) then Some (next_entry, next_result)
      else coupled result_sig_for rounds next_entry next_result
  end.
End Module.

(** Eligible: private or generated, not named by a contract, never used as a value. *)
Definition eligible_defs (source : SourceId) (data : gmap string DefData) (order : list string)
    (candidates contract_deps : gset string) : gset string :=
  foldl (fun el n =>
    match data !! n with
    | Some d => foldl (fun el body => poison_first_class source (arity data) body el) el (dd_bodies d)
    | None => el
    end) (candidates ∖ contract_deps) order.

(** [merge_result] *)
Fixpoint dedup_facts (es : list (RTerm * RTerm * Z)) : list (RTerm * RTerm * Z) :=
  match es with
  | [] => []
  | e :: es => match es with e' :: _ => if decide (e = e') then dedup_facts es else e :: dedup_facts es | [] => [e] end
  end.
Definition merge_result (numeric : ResultSig) (lenpres : list (RTerm * RTerm * Z)) : ResultSig :=
  MkResultSig (dedup_facts (merge_sort (fact_le rterm_debug) (result_edges numeric ++ lenpres))).
