(* ===== verification/BoundsSigSound.v ===== *)
(** * Entry facts hold of every activation

    What may activate a definition of a module, the tables of facts as constraints, and what a
    round of the entry fixpoint collects.  Facts that a round leaves alone hold whenever their
    definition is entered, and at each turn of its loop. *)

From S2P Require Import Prelude Types Ir Bounds BoundsGraph BoundsSem BoundsFlow BoundsScope BoundsWalk BoundsWalkSound BoundsSig.
From stdpp Require Import gmap list strings sorting.
From Stdlib Require Import ZArith Lia.

(** ** Tables as constraints *)

(** [m] says no more than [new]. *)
Definition weaker {K} `{Countable K} (m new : gmap K Z) : Prop :=
  forall k c, m !! k = Some c -> exists c', new !! k = Some c' /\ (c' <= c)%Z.

Section Weaker.
Context `{Countable K}.

#[export] Instance weaker_preorder : PreOrder (weaker (K := K)).
Proof.
  split.
  - intros m k c Hk. exists c. split; [done|lia].
  - intros m1 m2 m3 H1 H2 k c Hk. destruct (H1 _ _ Hk) as (c1 & Hk1 & ?). destruct (H2 _ _ Hk1) as (c2 & ? & ?).
    exists c2. split; [done|lia].
Qed.

(** A meet says no more than either side. *)
Lemma meet_facts_weaker acc (new : gmap K Z) : exists m, meet_facts acc new = Some m /\ weaker m new /\
  forall cur, acc = Some cur -> weaker m cur.
Proof.
  destruct acc as [cur|]; simpl; eexists; (split; [done|]).
  - split; [|intros ? [= <-]]; intros k c; rewrite lookup_merge; unfold diag_None;
      destruct (cur !! k) as [a|], (new !! k) as [b|]; try done; intros [= <-]; eexists; (split; [done|lia]).
  - split; [reflexivity|done].
Qed.

(** A table that widening keeps lost nothing. *)
Lemma widen_kept (sig m : gmap K Z) : widen (Some sig) m = sig -> weaker sig m.
Proof.
  intros Hw k c Hk. rewrite <- Hw in Hk. simpl in Hk. rewrite lookup_merge in Hk. unfold diag_None in Hk.
  destruct (m !! k) as [a|], (sig !! k) as [b|]; try done. destruct (a <=? b)%Z; [|done]. injection Hk as ->.
  exists c. split; [done|lia].
Qed.
End Weaker.

Definition fact_holds (vs : list Value) (x y : PTerm) (c : Z) : Prop :=
  forall a b, pterm_val vs x = Some a -> pterm_val vs y = Some b -> (a <= b + c)%Z.
Definition facts_hold (vs : list Value) (m : SigMap) : Prop :=
  forall x y c, m !! (x, y) = Some c -> fact_holds vs x y c.

Lemma elem_of_to_sig m x y c : (x, y, c) ∈ bound_edges (to_sig m) ↔ m !! (x, y) = Some c.
Proof. unfold to_sig. cbn. rewrite merge_sort_Permutation. apply elem_of_map_to_list. Qed.

Lemma entry_holds_facts m vs : entry_holds (to_sig m) vs ↔ facts_hold vs m.
Proof.
  unfold entry_holds, facts_hold, fact_holds. setoid_rewrite elem_of_to_sig. split.
  - intros Hh x y c Hk a b Ha Hb. by eapply Hh.
  - intros Hh x y c a b Hk Ha Hb. by eapply Hh.
Qed.

Lemma facts_hold_weaker vs m new : weaker m new -> facts_hold vs new -> facts_hold vs m.
Proof.
  intros Hw Hh x y c Hk a b Ha Hb. destruct (Hw _ _ Hk) as (c' & Hk' & ?). pose proof (Hh _ _ _ Hk' _ _ Ha Hb). lia.
Qed.

Lemma tighten_fact_holds vs x y c m : facts_hold vs m -> fact_holds vs x y c -> facts_hold vs (tighten_fact (x, y) c m).
Proof.
  intros Hm Hc u w d. unfold tighten_fact. intros [[[= <- <-] <-]|[_ Hk]]%lookup_insert_Some; [|by apply Hm].
  destruct (m !! (x, y)) as [s|] eqn:Hs; simpl; [|by rewrite Z.ltb_irrefl]. destruct (c <? s)%Z; [done|by apply Hm].
Qed.

(** ** The facts of one call *)

Section Call.
Context `{HashOrder} (b : Bounds) (rho : Locals) (args : list CExpr) (vs : list Value).
Hypothesis Hd : describes b rho.
Hypothesis Hargs : operands rho args vs.
Hypothesis Hlen : (Z.of_nat (length args) <= 2 ^ 32)%Z.

(** An argument's term has the value of its parameter. *)
Definition arg_term_ok (a : ArgTerm) : Prop :=
  match a with
  | AT_Var p t => pterm_val vs p = Some (term_val rho t)
  | AT_Const p n => pterm_val vs p = Some n
  end.

Lemma arg_index_nat i : i < length args -> Z.to_nat (arg_index i) = i.
Proof. unfold arg_index. lia. Qed.

Lemma arg_terms_ok : Forall arg_term_ok (arg_terms args).
Proof.
  unfold arg_terms. constructor; [done|]. apply Forall_forall. intros a Ha.
  apply list_elem_of_omap in Ha as ([i e] & Hin & Ha). apply elem_of_lookup_imap in Hin as (j & e' & [= -> ->] & Hj).
  cbn in Ha. pose proof (lookup_lt_Some _ _ _ Hj) as Hlt.
  destruct (Forall2_lookup_l _ _ _ _ _ Hargs Hj) as (v & Hv & _ & [_ Ho]).
  assert (forall x, pterm_val vs (PT_Param (arg_index j)) = Some x ↔ int_of v = x) as Hp.
  { intros x. cbn. rewrite arg_index_nat, Hv by done. cbn. split; congruence. }
  assert (forall x, pterm_val vs (PT_LenParam (arg_index j)) = Some x ↔ len_of v = x) as Hl.
  { intros x. cbn. rewrite arg_index_nat, Hv by done. cbn. split; congruence. }
  unfold arg_term in Ha. destruct (ce_kind (peel_rc e')) as [[]| | | | | | | | | | | | | | | | | | | | | | |]; try done.
  - destruct (is_int _); [|done]. case_decide; injection Ha as <-; subst; apply Hp; by subst.
  - destruct (is_int _); [injection Ha as <-; apply Hp; by subst|].
    destruct (is_array _); [injection Ha as <-; apply Hl; by subst|done].
Qed.

Lemma extract_call_holds : facts_hold vs (extract_call b args).
Proof.
  unfold extract_call. pose proof arg_terms_ok as Hts. set (ts := arg_terms args) in *. clearbody ts.
  assert (forall l sig, Forall arg_term_ok l -> facts_hold vs sig -> facts_hold vs (foldl (fun sig a =>
    match a with
    | AT_Const p n => if in_sig_cap n then tighten_fact (PT_Zero, p) (- n)%Z (tighten_fact (p, PT_Zero) n sig) else sig
    | _ => sig end) sig l)) as Hconst.
  { induction l as [|a l IH]; intros sig Hl Hs; [done|]. apply Forall_cons in Hl as [Ha Hl]. simpl. apply IH; [done|].
    destruct a as [|p n]; [done|]. case_match; [|done]. cbn in Ha.
    apply tighten_fact_holds; [apply tighten_fact_holds; [done|]|]; intros x y Hx Hy; simplify_eq/=; lia. }
  apply Hconst; [done|].
  set (pair_fact := fun a sig c => match a, c with
    | AT_Var pa ta, AT_Var pc tc => if decide (pa = pc) then sig
        else match bound b ta tc with Some w => if in_sig_cap w then tighten_fact (pa, pc) w sig else sig | None => sig end
    | _, _ => sig end).
  assert (forall a l sig, arg_term_ok a -> Forall arg_term_ok l -> facts_hold vs sig -> facts_hold vs (foldl (pair_fact a) sig l)) as Hrow.
  { intros a l. induction l as [|c l IH]; intros sig Ha Hl Hs; [done|]. apply Forall_cons in Hl as [Hc Hl]. simpl. apply IH; [done..|].
    unfold pair_fact. destruct a as [pa ta|], c as [pc tc|]; try done. case_decide; [done|].
    destruct (bound b ta tc) as [w|] eqn:Hw; [|done]. case_match; [|done]. apply tighten_fact_holds; [done|].
    intros x y Hx Hy. cbn in Ha, Hc. simplify_eq. unfold bound in Hw.
    by apply (shortest_sound b (term_val rho)) in Hw; [|apply Hd..]. }
  assert (forall l sig, Forall arg_term_ok l -> facts_hold vs sig -> facts_hold vs (foldl (fun sig a => foldl (pair_fact a) sig ts) sig l)) as Hall.
  { induction l as [|a l IH]; intros sig Hl Hs; [done|]. apply Forall_cons in Hl as [Ha Hl]. simpl. apply IH; [done|]. by apply Hrow. }
  apply Hall; [done|]. intros x y c Hk. by rewrite lookup_empty in Hk.
Qed.
End Call.

(** ** A round *)

Section Round.
Context `{HashOrder} `{DefOrder} (source : SourceId) (data : gmap string DefData) (eligible : gset string).
Context (result_of : DefId -> ResultSig).
Abbreviation Facts := (gmap string SigMap).

(** A call site whose facts the table of a callee has been met with. *)
Definition met (next : gmap string (option SigMap)) (callee : string) (new : SigMap) : Prop :=
  exists m, next !! callee = Some (Some m) /\ weaker m new.
Definition counts (include_self : bool) (caller callee : string) (args : list CExpr) : Prop :=
  callee ∈ eligible /\ length args = arity data callee /\ (include_self = false -> callee ≠ caller).

Lemma on_call_met include_self caller r next callee new :
  met next callee new -> met (on_call data eligible include_self caller next r) callee new.
Proof.
  intros (m & Hm & Hw). unfold on_call. destruct r as [b n args|]; [|by exists m].
  destruct (_ || _); [by exists m|]. destruct (_ && _); [by exists m|].
  destruct (decide (n = callee)) as [->|Hne].
  - rewrite Hm. destruct (meet_facts_weaker (Some m) (extract_call b args)) as (m' & Hm' & _ & Hc). cbn [default].
    exists m'. unfold id. rewrite Hm', lookup_insert_eq. split; [done|]. etrans; [by apply Hc|done].
  - exists m. by rewrite lookup_insert_ne.
Qed.

Lemma on_call_meets include_self caller b callee args next : counts include_self caller callee args ->
  met (on_call data eligible include_self caller next (R_Call b callee args)) callee (extract_call b args).
Proof.
  intros (He & Hl & Hs). unfold on_call. rewrite bool_decide_eq_true_2, Hl, Nat.eqb_refl by done. cbn [negb orb].
  replace (negb include_self && bool_decide (callee = caller)) with false.
  2:{ destruct include_self; [done|]. cbn. by rewrite bool_decide_eq_false_2 by auto. }
  destruct (meet_facts_weaker (default None (next !! callee)) (extract_call b args)) as (m & Hm & Hw & _).
  exists m. by rewrite lookup_insert_eq, Hm.
Qed.

Lemma on_calls_met include_self caller reps : forall next,
  (forall callee new, met next callee new -> met (foldl (on_call data eligible include_self caller) next reps) callee new) /\
  (forall b callee args, R_Call b callee args ∈ reps -> counts include_self caller callee args ->
    met (foldl (on_call data eligible include_self caller) next reps) callee (extract_call b args)).
Proof.
  induction reps as [|r reps IH]; intros next; simpl; [split; [done|by intros ? ? ? ?%elem_of_nil]|].
  destruct (IH (on_call data eligible include_self caller next r)) as [Hk Hn]. split.
  - intros callee new Hm. by apply Hk, on_call_met.
  - intros b callee args [<-|Hin]%elem_of_cons Hc; [by apply Hk, on_call_meets|by apply Hn].
Qed.

Section Steps.
Context (include_self : bool) (facts : Facts).
Abbreviation Next := (gmap string (option SigMap)).

(** Every call of a body is met. *)
Definition body_met (next : Next) (n : string) (d : DefData) (ib : nat * CExpr) : Prop :=
  exists w, walk (MkDefId source n) result_of ib.2 (if ib.1 =? 0 then seed_of facts n d else new_bounds) = Some w /\
    forall b callee args, R_Call b callee args ∈ w.2 -> counts include_self n callee args ->
      met next callee (extract_call b args).
Definition grows (next next' : Next) : Prop := forall callee new, met next callee new -> met next' callee new.

Lemma body_met_grows next next' n d ib : grows next next' -> body_met next n d ib -> body_met next' n d ib.
Proof. intros Hg (w & Hw & Hm). exists w. split; [done|]. intros b callee args Hin Hc. by apply Hg, Hm. Qed.

(** A sequence of steps that each reach their own goal and keep the others'. *)
Lemma fold_steps_met {A} (f : A -> Next -> option Next) (Q : Next -> A -> Prop) :
  (forall next next' a, grows next next' -> Q next a -> Q next' a) ->
  (forall a next next', f a next = Some next' -> grows next next' /\ Q next' a) ->
  forall xs next next', fold_steps f xs next = Some next' -> grows next next' /\ Forall (Q next') xs.
Proof.
  intros Hmono Hf xs. induction xs as [|x xs IH]; simpl; intros next next' Hs; [injection Hs as <-; split; [by intros ? ?|constructor]|].
  destruct (f x next) as [n1|] eqn:Hx; [|done]. destruct (Hf _ _ _ Hx) as [Hg1 Hq1]. destruct (IH _ _ Hs) as [Hg2 Hq2].
  split; [intros callee new Hm; by apply Hg2, Hg1|]. constructor; [exact (Hmono _ _ _ Hg2 Hq1)|done].
Qed.

Lemma collect_round_met next : collect_round source data eligible result_of facts include_self = Some next ->
  exists raw, next = settled raw /\ forall n d i body, data !! n = Some d -> dd_bodies d !! i = Some body -> body_met raw n d (i, body).
Proof.
  unfold collect_round. destruct (fold_steps _ _ _) as [raw|] eqn:Hs; [|done]. intros [= <-]. exists raw. split; [done|].
  apply (fold_steps_met _ (fun next p => Forall (body_met next p.1 p.2) (imap pair (dd_bodies p.2)))) in Hs as [_ Hall].
  - intros n d i body Hn Hi. rewrite Forall_forall in Hall. specialize (Hall (n, d)). cbn in Hall.
    rewrite Forall_forall in Hall. apply Hall.
    + rewrite in_order_perm. by apply elem_of_map_to_list.
    + apply elem_of_lookup_imap. by exists i, body.
  - intros m m' p Hg Hq. apply (Forall_impl _ _ _ Hq). intros ib. by apply body_met_grows.
  - intros [n d] m m' Hm. unfold collect_def in Hm. cbn [fst snd] in *.
    eapply (fold_steps_met _ (fun next ib => body_met next n d ib)) in Hm; [done|..].
    + intros ? ? ib. apply body_met_grows.
    + intros ib m1 m2. unfold collect_body. destruct (walk _ _ _ _) as [w|] eqn:Hw; [|done]. intros [= <-].
      destruct (on_calls_met include_self n w.2 m1) as [Hk Hn]. split; [exact Hk|]. exists w. by split.
Qed.
End Steps.

(** No body makes a round panic. *)
Lemma collect_round_total include_self facts : exists next, collect_round source data eligible result_of facts include_self = Some next.
Proof.
  assert (forall {A} (f : A -> gmap string (option SigMap) -> option (gmap string (option SigMap))),
    (forall a m, exists m', f a m = Some m') -> forall xs m, exists m', fold_steps f xs m = Some m') as Hfold.
  { intros A f Hf xs. induction xs as [|x xs IH]; intros m; [by exists m|]. simpl. destruct (Hf x m) as [m1 ->]. apply IH. }
  unfold collect_round. destruct (Hfold _ (collect_def source data eligible result_of include_self facts)) with (xs := in_order data)
    (m := ∅ : gmap string (option SigMap)) as [raw ->]; [|by eexists].
  intros [n d] m. apply Hfold. intros [i body] m'. unfold collect_body, walk.
  destruct (walk_in_total (MkDefId source n) result_of body true (if i =? 0 then seed_of facts n d else new_bounds, [])) as [w Hw].
  cbn [fst snd]. rewrite Hw. by eexists.
Qed.
End Round.

(** ** Activations *)

(** The loop a body enters, past what it sets up. *)
Fixpoint loop_of (e : CExpr) : option (list LocalId * CExpr) :=
  match e with
  | CE kind _ =>
      match kind with
      | K_Join ps body => Some (ps, body)
      | K_Let _ _ body | K_HoleStart _ body | K_Dup _ body | K_Drop _ body => loop_of body
      | _ => None
      end
  end.

Section Module.
Context `{HashOrder} `{DefOrder} (source : SourceId) (data : gmap string DefData) (eligible : gset string).
Context (result_of : DefId -> ResultSig) (Calls : DefId -> list Value -> Value -> Prop).

(** [active n i rho e]: a run of function [i] of the definition [n] comes to evaluate [e], its
    body or the body of its loop, in [rho].  A definition that is not eligible, and a lifted
    function, may be entered with anything; a call with too many arguments enters its callee
    with the first of them; a loop is entered again with new parameters. *)
Inductive active : string -> nat -> Locals -> CExpr -> Prop :=
| active_start n d i body rho :
    data !! n = Some d -> dd_bodies d !! i = Some body -> (i = 0 -> n ∉ eligible) -> locals_ok rho ->
    active n i rho body
| active_call n i rho e rho' callee vs d body rho2 :
    active n i rho e -> runs Calls rho e rho' (O_Call (MkDefId source callee) vs) ->
    data !! callee = Some d -> dd_bodies d !! 0 = Some body -> locals_ok rho2 ->
    length (dd_params d) <= length vs -> rho2 <$> dd_params d = take (length (dd_params d)) vs ->
    active callee 0 rho2 body
| active_turn n i rho e rho' vs d body ps turn :
    active n i rho e -> runs Calls rho e rho' (O_Recur vs) ->
    data !! n = Some d -> dd_bodies d !! i = Some body -> loop_of body = Some (ps, turn) ->
    length vs = length ps -> active n i (bind_locals rho' ps vs) turn.

(** ** The modules the fixpoint is right about *)

(** Every call of an eligible definition has as many arguments as it has parameters. *)
Definition exact_call (callee : string) (args : list CExpr) : bool :=
  negb (bool_decide (callee ∈ eligible)) || (length args =? arity data callee).
Fixpoint exact_calls (self : string) (e : CExpr) : bool :=
  match e with
  | CE kind _ =>
      match kind with
      | K_App func args _ _ =>
          match ce_kind func with
          | K_Global d => negb (bool_decide (def_file d = source)) || exact_call (def_name d) args
          | _ => true
          end && exact_calls self func && forallb (exact_calls self) args
      | K_Recur args => exact_call self args && forallb (exact_calls self) args
      | K_Prim _ args | K_Foreign _ args _ | K_MakeData _ args _ _ _ | K_Spread args => forallb (exact_calls self) args
      | K_If cond thn els => exact_calls self cond && exact_calls self thn && exact_calls self els
      | K_Let _ value body | K_LetMany _ value body | K_Reset value _ body => exact_calls self value && exact_calls self body
      | K_DataTag base _ | K_DataField base _ _ _ | K_HoleFill _ base _ | K_HoleClose _ base => exact_calls self base
      | K_Dup _ body | K_Drop _ body | K_FreeReuse _ body | K_Join _ body | K_HoleStart _ body => exact_calls self body
      | K_Lit _ | K_Local _ | K_Global _ | K_MakeClosure _ _ _ | K_Error => true
      end
  end.

(** A loop is the whole body, and an entry's loop carries its parameters. *)
Definition plain_loop (i : nat) (d : DefData) (body : CExpr) : bool :=
  match ce_kind body with
  | K_Join ps _ => negb (i =? 0) || bool_decide (ps = dd_params d)
  | _ => bool_decide (loop_of body = None)
  end.

(** [locals_at]: the parameters and captures of each function. *)
Context (locals_at : string -> nat -> gset LocalId).
Definition body_ok (n : string) (d : DefData) (ib : nat * CExpr) : bool :=
  let S := locals_at n ib.1 in
  (negb (ib.1 =? 0) || bool_decide (list_to_set (dd_params d) ⊆ S)) &&
  match scope ib.2 S with Some _ => true | None => false end &&
  plain_loop ib.1 d ib.2 && exact_calls n ib.2.
Definition def_ok (n : string) (d : DefData) : bool :=
  bool_decide (NoDup (dd_params d)) && (Z.of_nat (length (dd_params d)) <=? 2 ^ 32)%Z &&
  forallb (body_ok n d) (imap pair (dd_bodies d)).
Definition module_ok : bool := forallb (fun p => def_ok p.1 p.2) (map_to_list data).

(** Facts a round leaves alone. *)
Definition stable (facts : gmap string SigMap) : bool :=
  match collect_round source data eligible result_of facts true with
  | Some next => bool_decide (widen_facts facts next = facts)
  | None => false
  end.

Lemma module_ok_body n d i body : module_ok = true -> data !! n = Some d -> dd_bodies d !! i = Some body ->
  NoDup (dd_params d) /\ (Z.of_nat (length (dd_params d)) <= 2 ^ 32)%Z /\
  (i = 0 -> list_to_set (dd_params d) ⊆ locals_at n i) /\ is_Some (scope body (locals_at n i)) /\
  plain_loop i d body = true /\ exact_calls n body = true.
Proof.
  unfold module_ok. intros Hok Hn Hi. rewrite forallb_forall in Hok.
  specialize (Hok (n, d)). cbn in Hok. rewrite <- list_elem_of_In, elem_of_map_to_list in Hok. specialize (Hok Hn).
  unfold def_ok in Hok. rewrite !andb_true_iff, bool_decide_eq_true, Z.leb_le, forallb_forall in Hok.
  destruct Hok as ((Hnd & Hlen) & Hall). specialize (Hall (i, body)).
  rewrite <- list_elem_of_In, elem_of_lookup_imap in Hall. specialize (Hall ltac:(by exists i, body)).
  unfold body_ok in Hall. cbn [fst snd] in Hall. rewrite !andb_true_iff in Hall. destruct Hall as (((Hp & Hs) & Hl) & Hc).
  split_and!; try done.
  - intros ->. cbn in Hp. by apply bool_decide_eq_true in Hp.
  - by destruct (scope body _).
Qed.

(** ** The reports are exact *)

Definition exact_report (r : Report) : bool := match r with R_Call _ callee args => exact_call callee args | _ => true end.

Section Exact.
Context (self : DefId).
Hypothesis Hself : def_file self = source.
Abbreviation walk_self := (walk_in self result_of).
Definition exact_reports (w : Bounds * list Report) : Prop := Forall (fun r => exact_report r = true) w.2.
Definition walks_exactly (e : CExpr) : Prop := exact_calls (def_name self) e = true ->
  forall tail w w', walk_self tail e w = Some w' -> exact_reports w -> exact_reports w'.

Lemma exact_all es : Forall walks_exactly es -> forallb (exact_calls (def_name self)) es = true ->
  forall w w', fold_steps (walk_self false) es w = Some w' -> exact_reports w -> exact_reports w'.
Proof.
  induction 1 as [|a es Ha Hes IH]; intros He w w' Hw Hr; cbn in *; [by injection Hw as <-|].
  apply andb_true_iff in He as [He1 He2]. destruct (walk_self false a w) as [w1|] eqn:H1; [|done]. cbn in Hw.
  eapply IH; [done..|]. by eapply Ha.
Qed.

Lemma exact_exits tail e w : exact_reports w -> exact_reports (exits tail e w).
Proof. intros Hw. destruct tail; [|done]. apply Forall_app. split; [done|]. by apply Forall_singleton. Qed.

Lemma exact_operands es e : Forall walks_exactly es -> forallb (exact_calls (def_name self)) es = true ->
  forall tail w w', (w1 ← fold_steps (walk_self false) es w; Some (exits tail e w1)) = Some w' ->
    exact_reports w -> exact_reports w'.
Proof.
  intros Hes He tail w w' Hw Hr. destruct (fold_steps _ es w) as [w1|] eqn:H1; [|done]. injection Hw as <-.
  apply exact_exits. by eapply exact_all.
Qed.

Lemma exact_app func args reuse alloc t : walks_exactly func -> Forall walks_exactly args ->
  walks_exactly (CE (K_App func args reuse alloc) t).
Proof.
  intros Hf Ha He tail w w' Hw Hr. cbn [walk_in exact_calls] in Hw, He.
  apply andb_true_iff in He as [[He1 He2]%andb_true_iff He3].
  set (w0 := match ce_kind func with K_Global d => _ | _ => w end) in Hw.
  assert (exact_reports w0) as Hw0.
  { unfold w0. destruct (ce_kind func); try done. destruct (decide _) as [Hd|]; [|done].
    apply Forall_app. split; [done|]. apply Forall_singleton. rewrite Hd, Hself, bool_decide_eq_true_2 in He1; done. }
  destruct (walk_self false func w0) as [w1|] eqn:H1; [|done]. cbn in Hw.
  eapply exact_operands; [exact Ha|done|exact Hw|]. by eapply Hf.
Qed.

Lemma exact_if cond thn els t : walks_exactly cond -> walks_exactly thn -> walks_exactly els -> walks_exactly (CE (K_If cond thn els) t).
Proof.
  intros Hc Ht Hf He tail w w' Hw Hr. cbn [walk_in exact_calls] in Hw, He.
  apply andb_true_iff in He as [[He1 He2]%andb_true_iff He3].
  destruct (walk_self false cond w) as [w1|] eqn:H1; [|done]. cbn in Hw.
  destruct (walk_self tail thn _) as [w2|] eqn:H2; [|done]. cbn in Hw.
  destruct (walk_self tail els _) as [w3|] eqn:H3; [|done]. injection Hw as <-.
  eapply (Hf He3 _ _ _ H3). eapply (Ht He2 _ _ _ H2). by eapply (Hc He1 _ _ _ H1).
Qed.

(** A value, then a body, on a graph changed in between. *)
Lemma exact_then value body b tail w w1 w' : walks_exactly value -> walks_exactly body ->
  exact_calls (def_name self) value && exact_calls (def_name self) body = true ->
  walk_self false value w = Some w1 -> walk_self tail body (b, w1.2) = Some w' -> exact_reports w -> exact_reports w'.
Proof.
  intros Hv Hb [He1 He2]%andb_true_iff H1 H2 Hr. eapply (Hb He2 _ _ _ H2). by eapply (Hv He1 _ _ _ H1).
Qed.

Lemma walk_exact e : walks_exactly e.
Proof.
  induction e as [[k t] IH] using CExpr_children_ind.
  destruct k; cbn [e_children ce_kind] in IH; rewrite ?Forall_cons in IH;
    try (intros He tail w w' Hw Hr; injection Hw as <-; by apply exact_exits);
    try (destruct IH as (IH & _); intros He tail w w' Hw Hr; by eapply (IH He));
    try (intros He tail w w' Hw Hr; by eapply exact_operands).
  - by destruct IH; apply exact_app.
  - destruct IH as (? & ? & ? & _). by apply exact_if.
  - destruct IH as (Hv & Hb & _). intros He tail w w' Hw Hr. cbn [walk_in] in Hw.
    destruct (walk_self false value w) as [w1|] eqn:H1; [|done]. cbn in Hw.
    destruct (bce_transfer _ _ _ _) as [b|]; [|done]. by apply (exact_then value body b tail w w1 w').
  - destruct IH as (Hv & Hb & _). intros He tail w w' Hw Hr. cbn [walk_in] in Hw.
    destruct (walk_self false value w) as [w1|] eqn:H1; [|done]. cbn in Hw.
    assert (exact_reports w1) as Hr1 by (apply andb_true_iff in He as [He1 _]; by eapply (Hv He1 _ _ _ H1)).
    destruct (global_call _) as [[d args]|]; [|by eapply (Hb (proj2 (andb_prop _ _ He)) _ _ _ Hw)].
    destruct (_ && _); [by injection Hw as <-|]. eapply (Hb (proj2 (andb_prop _ _ He)) _ _ _ Hw). exact Hr1.
  - destruct IH as (Hb & _). intros He tail w w' Hw Hr. cbn [walk_in] in Hw.
    destruct (walk_self false base w) as [w1|] eqn:H1; [|done]. injection Hw as <-. apply exact_exits. by eapply (Hb He _ _ _ H1).
  - destruct IH as (Hb & _). intros He tail w w' Hw Hr. cbn [walk_in] in Hw.
    destruct (walk_self false base w) as [w1|] eqn:H1; [|done]. injection Hw as <-. apply exact_exits. by eapply (Hb He _ _ _ H1).
  - destruct IH as (Hv & Hb & _). intros He tail w w' Hw Hr. cbn [walk_in] in Hw.
    destruct (walk_self false value w) as [w1|] eqn:H1; [|done]. cbn in Hw.
    apply andb_prop in He as [He1 He2]. eapply (Hb He2 _ _ _ Hw). by eapply (Hv He1 _ _ _ H1).
  - intros He tail w w' Hw Hr. cbn [walk_in exact_calls] in Hw, He. apply andb_true_iff in He as [He1 He2].
    eapply exact_all; [exact IH|done|exact Hw|]. apply Forall_app. split; [done|]. by apply Forall_singleton.
Qed.
End Exact.

(** ** Stable facts *)

(** Only eligible definitions get facts. *)
Lemma collect_round_eligible include_self facts next : collect_round source data eligible result_of facts include_self = Some next ->
  forall n m, next !! n = Some m -> n ∈ eligible.
Proof.
  set (P := fun next : gmap string (option SigMap) => forall n o, next !! n = Some o -> n ∈ eligible).
  assert (forall A (f : A -> gmap string (option SigMap) -> option (gmap string (option SigMap))),
    (forall a m m', f a m = Some m' -> P m -> P m') -> forall xs m m', fold_steps f xs m = Some m' -> P m -> P m') as Hfold.
  { intros A f Hf xs. induction xs as [|x xs IH]; simpl; intros m m' Hm Hp; [by injection Hm as <-|].
    destruct (f x m) as [m1|] eqn:Hx; [|done]. eauto. }
  assert (forall caller reps m, P m -> P (foldl (on_call data eligible include_self caller) m reps)) as Hcalls'.
  { intros caller reps. induction reps as [|r reps IH]; intros m Hm; [done|]. apply IH. unfold on_call. destruct r; [|done].
    destruct (bool_decide (callee ∈ eligible)) eqn:He; [|done]. apply bool_decide_eq_true in He.
    destruct (negb true || _); [done|]. destruct (_ && _); [done|].
    intros n o [[<- _]|[_ Hn]]%lookup_insert_Some; [done|by eapply Hm]. }
  unfold collect_round. destruct (fold_steps _ _ _) as [raw|] eqn:Hs; [|done]. intros [= <-] n m Hn.
  assert (P raw) as Hp.
  { eapply Hfold; [|exact Hs|by intros ? ? ?]. intros [c d] m1 m2 Hm. unfold collect_def in Hm. revert Hm. apply Hfold.
    intros ib m3 m4. unfold collect_body. destruct (walk _ _ _ _) as [w|]; [|done]. intros [= <-]. apply Hcalls'. }
  unfold settled in Hn. rewrite lookup_fmap in Hn. destruct (raw !! n) as [o|] eqn:Ho; [|done]. by eapply Hp.
Qed.

Lemma stable_spec facts : stable facts = true -> exists raw,
  (forall n d i body, data !! n = Some d -> dd_bodies d !! i = Some body -> body_met source data eligible result_of true facts raw n d (i, body)) /\
  (forall n sig, facts !! n = Some sig -> n ∈ eligible) /\
  (forall n sig new, facts !! n = Some sig -> met raw n new -> weaker sig new).
Proof.
  unfold stable. destruct (collect_round _ _ _ _ _ _) as [next|] eqn:Hc; [|done]. intros Hw%bool_decide_eq_true.
  destruct (collect_round_met _ _ _ _ _ _ _ Hc) as (raw & Hn & Hall).
  assert (forall n sig, facts !! n = Some sig -> exists m, next !! n = Some m /\ widen (Some sig) m = sig) as Hkeep.
  { intros n sig Hs. pose proof Hs as Hs'. rewrite <- Hw in Hs'. unfold widen_facts in Hs'. rewrite map_lookup_imap in Hs'.
    destruct (next !! n) as [m|]; [|done]. cbn in Hs'. injection Hs' as Hs'. exists m. split; [done|]. by rewrite Hs in Hs'. }
  exists raw. split; [done|]. split.
  - intros n sig (m & Hm & _)%Hkeep. by eapply collect_round_eligible.
  - intros n sig new (m & Hm & Hwd)%Hkeep (m' & Hm' & Hw'). rewrite Hn in Hm. unfold settled in Hm.
    rewrite lookup_fmap, Hm' in Hm. injection Hm as ->. etrans; [by apply widen_kept|done].
Qed.

(** ** Activations meet the facts *)

Context (facts : gmap string SigMap).
Hypothesis Hresult : forall d vs v, Calls d vs v -> result_holds (result_of d) vs v.
Hypothesis Hmod : module_ok = true.
Hypothesis Hstable : stable facts = true.

(** Where a run is, and the facts of the definition it is in. *)
Definition placed (n : string) (i : nat) (rho : Locals) (e : CExpr) : Prop := exists d body,
  data !! n = Some d /\ dd_bodies d !! i = Some body /\ locals_ok rho /\
  (e = body \/ exists ps, loop_of body = Some (ps, e)) /\
  (i = 0 -> forall sig, facts !! n = Some sig -> facts_hold (rho <$> dd_params d) sig).

Lemma plain_loop_spec i d body ps e : plain_loop i d body = true -> loop_of body = Some (ps, e) ->
  (exists t, body = CE (K_Join ps e) t) /\ (i = 0 -> ps = dd_params d).
Proof.
  unfold plain_loop. destruct body as [[] t]; cbn [ce_kind]; try (intros ->%bool_decide_eq_true; done).
  cbn. intros Hp [= -> ->]. split; [by eexists|]. intros ->. cbn in Hp. by apply bool_decide_eq_true in Hp.
Qed.

Lemma seed_describes n d rho : locals_ok rho -> (forall sig, facts !! n = Some sig -> facts_hold (rho <$> dd_params d) sig) ->
  describes (seed_of facts n d) rho.
Proof.
  intros Hok Hf. unfold seed_of. destruct (facts !! n) as [sig|]; [|by apply describes_new].
  apply seed_entry_describes; [by apply describes_new|]. apply entry_holds_facts. by apply Hf.
Qed.

Lemma seed_within S n d : list_to_set (dd_params d) ⊆ S -> within S (seed_of facts n d).
Proof.
  intros HS. unfold seed_of. destruct (facts !! n) as [sig|]; [|apply within_new].
  apply seed_edges_within; [apply within_new|]. intros [|j|j] t; simpl; [by intros [= <-]|..];
    (destruct (dd_params d !! _) as [x|] eqn:Hx; [|done]); intros [= <-]; apply HS, elem_of_list_to_set;
    by eapply list_elem_of_lookup_2.
Qed.

(** A call reached from a place is reported, exactly, with a graph that describes it. *)
Lemma placed_reached n i rho e rho' o : placed n i rho e -> runs Calls rho e rho' o ->
  exists w, (forall b callee args, R_Call b callee args ∈ w -> exact_call callee args = true) /\
    reached (MkDefId source n) w rho' o /\
    (forall b callee args, R_Call b callee args ∈ w -> counts data eligible true n callee args ->
      forall sig, facts !! callee = Some sig -> weaker sig (extract_call b args)).
Proof.
  intros (d & body & Hn & Hi & Hok & He & Hfacts) Hr.
  destruct (module_ok_body n d i body Hmod Hn Hi) as (_ & _ & Hps & [S' HS] & Hl & Hx).
  destruct (stable_spec facts Hstable) as (raw & Hmet & _ & Hweak).
  destruct (Hmet n d i body Hn Hi) as (w & Hw & Hall). cbn [fst snd] in Hw, Hall.
  set (seed := if i =? 0 then seed_of facts n d else new_bounds) in Hw.
  assert (within (locals_at n i) seed) as Hin.
  { unfold seed. destruct (Nat.eqb_spec i 0); [apply seed_within; auto|apply within_new]. }
  assert (describes seed rho) as Hd.
  { unfold seed. destruct (Nat.eqb_spec i 0); [apply seed_describes; auto|by apply describes_new]. }
  exists w.2. split; [|split].
  - assert (Forall (fun r => exact_report r = true) w.2) as Hex by (eapply (walk_exact (MkDefId source n) eq_refl body); [done..|constructor]).
    rewrite Forall_forall in Hex. intros b callee args Hin'. by apply (Hex (R_Call b callee args)).
  - assert (walk_in (MkDefId source n) result_of true e (seed, []) = Some w /\ is_Some (scope e (locals_at n i))) as [Hw' [S'' HS']].
    { destruct He as [->|(ps & Hloop)]; [done|]. destruct (plain_loop_spec _ _ _ _ _ Hl Hloop) as [[t ->] _]. done. }
    destruct (walk_sound (MkDefId source n) result_of Calls Hresult e true _ _ (seed, []) w HS' Hin Hw') as (_ & _ & _ & Hrun).
    by destruct (Hrun rho rho' o Hd Hr).
  - intros b callee args Hb Hc sig Hsig. eapply Hweak; [done|]. by apply Hall.
Qed.

(** The facts of a callee hold of the values it is called with. *)
Lemma reached_facts n i rho e rho' vs callee d : placed n i rho e -> data !! callee = Some d ->
  (Z.of_nat (length (dd_params d)) <= 2 ^ 32)%Z ->
  runs Calls rho e rho' (O_Call (MkDefId source callee) vs) \/ (callee = n /\ runs Calls rho e rho' (O_Recur vs)) ->
  forall sig, facts !! callee = Some sig -> length vs = length (dd_params d) /\ facts_hold vs sig.
Proof.
  intros Hp Hc Hlen Hr sig Hsig.
  assert (exists w o, runs Calls rho e rho' o /\ (reached (MkDefId source n) w rho' o -> reported w callee vs rho') /\
    (forall b callee args, R_Call b callee args ∈ w -> exact_call callee args = true) /\
    reached (MkDefId source n) w rho' o /\
    (forall b callee args, R_Call b callee args ∈ w -> counts data eligible true n callee args ->
      forall sig, facts !! callee = Some sig -> weaker sig (extract_call b args))) as (w & o & Hro & Hrep & Hex & Hre & Hwk).
  { destruct Hr as [Hr|[-> Hr]]; destruct (placed_reached _ _ _ _ _ _ Hp Hr) as (w & Hex & Hre & Hwk);
      exists w; eexists; (split; [exact Hr|]); split; try done. intros Hx. by apply Hx. }
  destruct (Hrep Hre) as (b & args & Hin & Hd & Hargs).
  destruct (stable_spec facts Hstable) as (_ & _ & Helig & _). pose proof (Helig _ _ Hsig) as He.
  pose proof (Hex _ _ _ Hin) as Hexact. unfold exact_call in Hexact. rewrite bool_decide_eq_true_2 in Hexact by done.
  apply Nat.eqb_eq in Hexact. assert (arity data callee = length (dd_params d)) as Har by (unfold arity; by rewrite Hc).
  pose proof (Forall2_length _ _ _ Hargs). split; [congruence|].
  eapply facts_hold_weaker; [eapply Hwk; [exact Hin|by split|done]|].
  apply (extract_call_holds b rho'); [done..|]. by rewrite Hexact, Har.
Qed.

Lemma runs_locals_ok n i rho e rho' o : placed n i rho e -> runs Calls rho e rho' o ->
  match o with O_Recur vs => locals_ok rho' /\ Forall value_ok vs | _ => True end.
Proof.
  intros Hp Hr. destruct o as [| |vs]; try done. destruct (placed_reached _ _ _ _ _ _ Hp Hr) as (w & _ & Hre & _).
  destruct Hre as (b & args & _ & Hd & Hargs). split; [apply Hd|]. clear -Hargs. induction Hargs as [|? ? ? ? [[] _] _ IH]; by constructor.
Qed.

Lemma active_placed n i rho e : active n i rho e -> placed n i rho e.
Proof.
  induction 1 as [n d i body rho Hn Hi Hel Hok|n i rho e rho' callee vs d body rho2 Hact IH Hr Hc Hb Hok Hle Hps
                 |n i rho e rho' vs d body ps turn Hact IH Hr Hn Hi Hloop Hlen].
  - exists d, body. split_and!; [done..|by left|]. intros Hz sig Hs. destruct (stable_spec facts Hstable) as (_ & _ & He & _).
    exfalso. apply (Hel Hz). by eapply He.
  - exists d, body. split_and!; [done..|by left|]. intros _ sig Hs.
    destruct (module_ok_body callee d 0 body Hmod Hc Hb) as (_ & Hlen & _).
    destruct (reached_facts _ _ _ _ _ vs callee d IH Hc Hlen (or_introl Hr) sig Hs) as [Hl Hf].
    by rewrite Hps, take_ge by lia.
  - exists d, body. destruct (module_ok_body n d i body Hmod Hn Hi) as (Hnd & Hlen' & _ & _ & Hl & _).
    destruct (plain_loop_spec _ _ _ _ _ Hl Hloop) as [_ Hpar].
    destruct (runs_locals_ok _ _ _ _ _ _ IH Hr) as [Hok Hvs].
    split_and!; [done..|by apply locals_ok_binds|right; by exists ps|]. intros Hz sig Hs. specialize (Hpar Hz). subst ps.
    destruct (reached_facts _ _ _ _ _ vs n d IH Hn Hlen' (or_intror (conj eq_refl Hr)) sig Hs) as [_ Hf].
    by rewrite bind_locals_fmap.
Qed.
End Module.

(** ** The fixpoint returns *)

Section Returns.
Context `{HashOrder} `{DefOrder} (source : SourceId) (data : gmap string DefData) (eligible : gset string).
Context (result_of : DefId -> ResultSig).
Abbreviation Facts := (gmap string SigMap).

(** [k] rounds of the second loop, the first of them round [r], that all changed the facts. *)
Inductive moves : nat -> nat -> Facts -> Facts -> Prop :=
| moves_none r f : moves r 0 f f
| moves_round r k f next f' :
    collect_round source data eligible result_of f true = Some next ->
    (if r =? 0 then next else widen_facts f next) ≠ f ->
    moves (S r) k (if r =? 0 then next else widen_facts f next) f' -> moves r (S k) f f'.

Lemma widen_self `{Countable K} (m : gmap K Z) : widen (Some m) m = m.
Proof.
  apply map_eq. intros k. simpl. rewrite lookup_merge. unfold diag_None.
  destruct (m !! k); [|done]. by rewrite Z.leb_refl.
Qed.

Lemma propagate_returns rounds : forall f, exists f', propagate source data eligible result_of rounds f = Some f'.
Proof.
  induction rounds as [|rounds IH]; intros f; [by exists f|]. simpl.
  destruct (collect_round_total source data eligible result_of false f) as (next & ->). cbn. case_decide; [by eexists|apply IH].
Qed.

Lemma preserve_returns rounds : forall r f, exists f', preserve source data eligible result_of r rounds f = Some f' /\
  (stable source data eligible result_of f' = true \/ moves r rounds f f').
Proof.
  induction rounds as [|rounds IH]; intros r f; [exists f; split; [done|right; constructor]|]. simpl.
  destruct (collect_round_total source data eligible result_of true f) as (next & Hn). rewrite Hn. cbn.
  case_decide as Heq.
  - exists f. split; [done|]. left. unfold stable. rewrite Hn. apply bool_decide_eq_true.
    destruct (r =? 0); [|done]. subst next. apply map_eq. intros n. unfold widen_facts. rewrite map_lookup_imap.
    destruct (f !! n) as [m|]; [|done]. apply (f_equal Some), widen_self.
  - destruct (IH (S r) (if r =? 0 then next else widen_facts f next)) as (f' & Hf & Hor). exists f'. split; [done|].
    destruct Hor as [Hs|Hm]; [by left|right]. by eapply moves_round.
Qed.
End Returns.

(** ** Uses as values *)

Section Uses.
Context (source : SourceId) (arity : string -> nat).

Definition saturated (e : CExpr) : bool :=
  match ce_kind e with
  | K_App func args _ _ =>
      match ce_kind func with
      | K_Global d => bool_decide (def_file d = source) && (arity (def_name d) <=? length args)
      | _ => false
      end
  | _ => false
  end.
(** A definition of the file occurs other than as the function of a call with its arguments. *)
Inductive value_use (n : string) : CExpr -> Prop :=
| use_global d t : def_file d = source -> def_name d = n -> value_use n (CE (K_Global d) t)
| use_child e c : c ∈ (if saturated e then tail (e_children e) else e_children e) -> value_use n c -> value_use n e.

Lemma poison_children n es (P : CExpr -> gset string -> gset string) : forall el,
  Forall (fun e => forall el, n ∈ P e el ↔ n ∈ el /\ ~ value_use n e) es ->
  n ∈ foldl (fun el a => P a el) el es ↔ n ∈ el /\ forall c, c ∈ es -> ~ value_use n c.
Proof.
  induction es as [|e es IH]; intros el Hes; simpl; [split; [by intros ?; split; [|by intros ? ?%elem_of_nil]|by intros []]|].
  apply Forall_cons in Hes as [He Hes]. rewrite IH, He by done. setoid_rewrite elem_of_cons. naive_solver.
Qed.

Lemma value_use_children n e : (forall d, ce_kind e ≠ K_Global d) ->
  (forall c, c ∈ (if saturated e then tail (e_children e) else e_children e) -> ~ value_use n c) ↔ ~ value_use n e.
Proof.
  intros Hk. split.
  - intros Hc Hu. inversion Hu; subst; [by eapply Hk|by eapply Hc].
  - intros Hn c Hc Hu. by apply Hn, (use_child n e c).
Qed.

Lemma poison_spec n e : forall el, n ∈ poison_first_class source arity e el ↔ n ∈ el /\ ~ value_use n e.
Proof.
  induction e as [[k t] IH] using CExpr_children_ind. intros el.
  assert ((forall d, k ≠ K_Global d) -> poison_first_class source arity (CE k t) el =
    foldl (fun el a => poison_first_class source arity a el) el (if saturated (CE k t) then tail (e_children (CE k t)) else e_children (CE k t))) as Heq.
  { intros Hk. destruct k; try done; try (by edestruct Hk). unfold saturated. cbn.
    destruct func as [[] ?]; try done. cbn. destruct (_ && _); done. }
  destruct k as [| |d| | | | | | | | | | | | | | | | | | | | |];
    try (rewrite Heq by done; rewrite (poison_children n _ (poison_first_class source arity)) by
           (destruct (saturated _); [by apply Forall_tail|done]);
         apply and_iff_compat_l, value_use_children; done).
  cbn. clear Heq IH. case_decide as Hd.
  - rewrite elem_of_difference, elem_of_singleton. split; intros [Hel Hn]; (split; [done|]).
    + intros Hu. apply Hn. inversion Hu; subst; [done|]. cbn in *. by apply elem_of_nil in H.
    + intros ->. apply Hn. by apply use_global.
  - split; [|by intros []]. intros Hel. split; [done|]. intros Hu. inversion Hu; subst; [done|]. cbn in *. by apply elem_of_nil in H.
Qed.
End Uses.
