(* ===== verification/BoundsProps.v ===== *)
(** * Properties of bounds inference

    The graph decides entailment; what it answers about indices and integers is so of every
    environment it describes; the walk's reports describe the calls of every run; stable entry
    facts hold of every activation, in modules of exact calls and plain loops.  Three modules
    show where the fixpoint's facts do not. *)

From S2P Require Import Prelude Types Ir Bounds BoundsGraph BoundsSem BoundsFlow BoundsScope BoundsWalk BoundsWalkSound BoundsSig BoundsSigSound.
From stdpp Require Import gmap list strings pretty.
From Stdlib Require Import ZArith Lia.

(** ** Examples *)

Module Demo.
Definition int := Ty_Con Con_Int.
Definition array := ty_array int.
Definition ilit n := CE (K_Lit (Lit_Int n)) int.
Definition ivar x := CE (K_Local x) int.
Definition avar x := CE (K_Local x) array.
Definition prim op args := CE (K_Prim op args) int.
Definition letl l v b := CE (K_Let l v b) int.
Definition call f args := CE (K_App (CE (K_Global (MkDefId 0 f)) Ty_Error) args [] Alloc_Heap) int.
Definition choose c t e := CE (K_If (CE (K_Local c) (Ty_Con Con_Bool)) t e) int.
Definition no_results : DefId -> ResultSig := fun _ => MkResultSig [].
Definition nothing : Locals := fun _ => V_Other.

(** [sum i xs], which adds the elements from [i] on and calls itself before it adds, so that its
    loop carries the sum as local 2; [main] calls it at 0 with an array of one element. *)
Definition sum_turn : CExpr :=
  letl 3 (prim P_IntGe [ivar 0; ilit 5]) (choose 3 (prim P_IntAdd [ivar 2; ilit 0])
    (letl 4 (prim P_ArrayGet [avar 1; ivar 0]) (letl 5 (prim P_IntAdd [ivar 0; ilit 1])
      (CE (K_Recur [ivar 5; avar 1; prim P_IntAdd [ivar 2; ivar 4]]) int)))).
Definition sum_body : CExpr := letl 2 (ilit 0) (CE (K_Join [0; 1; 2] sum_turn) int).
Definition sum_main : CExpr := letl 0 (prim P_ArrayRepeat [ilit 1; ilit 7]) (call "sum" [ilit 0; avar 0]).
Definition sum_def : DefData := MkDefData [0; 1] [sum_body] int [Kind_Int; Kind_Array] 0.
Definition sum_module : gmap string DefData :=
  {[ "sum" := sum_def; "main" := MkDefData [] [sum_main] int [] 0 ]}.
Definition sum_facts : gmap string SigMap := default ∅ (entry_fixpoint 0 sum_module {["sum"]} no_results).

(** The same without the sum, so that the loop carries the parameters alone, and stops before
    the length. *)
Definition scan_turn : CExpr :=
  letl 3 (prim P_ArrayLength [avar 1]) (letl 4 (prim P_IntLt [ivar 0; ivar 3])
    (choose 4 (letl 5 (prim P_ArrayGet [avar 1; ivar 0]) (letl 6 (prim P_IntAdd [ivar 0; ilit 1])
      (CE (K_Recur [ivar 6; avar 1]) int))) (ivar 0))).
Definition scan_def : DefData := MkDefData [0; 1] [CE (K_Join [0; 1] scan_turn) int] int [Kind_Int; Kind_Array] 0.
Definition scan_main : CExpr := letl 0 (prim P_ArrayRepeat [ilit 1; ilit 7]) (call "scan" [ilit 0; avar 0]).
Definition scan_module : gmap string DefData :=
  {[ "scan" := scan_def; "main" := MkDefData [] [scan_main] int [] 0 ]}.
Definition scan_facts : gmap string SigMap := default ∅ (entry_fixpoint 0 scan_module {["scan"]} no_results).
Definition scan_locals (n : string) (i : nat) : gset LocalId := if decide (n = "scan") then {[0; 1]} else ∅.

(** [at i xs], which reads an element and returns a function; [main] calls it at 0, [other]
    applies it at 1, and its result to 5. *)
Definition at_body : CExpr := letl 2 (prim P_ArrayGet [avar 1; ivar 0]) (CE (K_MakeClosure 1 [2] Alloc_Heap) int).
Definition at_def : DefData := MkDefData [0; 1] [at_body; ivar 2] int [Kind_Int; Kind_Array] 0.
Definition at_main : CExpr := letl 0 (prim P_ArrayRepeat [ilit 1; ilit 7]) (call "at" [ilit 0; avar 0]).
Definition at_other : CExpr := letl 0 (prim P_ArrayRepeat [ilit 1; ilit 7]) (call "at" [ilit 1; avar 0; ilit 5]).
Definition at_module : gmap string DefData :=
  {[ "at" := at_def; "main" := MkDefData [] [at_main] int [] 0; "other" := MkDefData [] [at_other] int [] 0 ]}.
Definition at_eligible : gset string :=
  eligible_defs 0 at_module ["at"; "main"; "other"] {["at"]} ∅.
Definition at_facts : gmap string SigMap := default ∅ (entry_fixpoint 0 at_module at_eligible no_results).

(** A chain of definitions that pass their argument on; the first also calls itself at its
    argument plus 1. *)
Definition link (k : nat) : string := "f" +:+ pretty k.
Definition chain_first : CExpr :=
  letl 1 (CE (K_Foreign "coin" [] false) (Ty_Con Con_Bool))
    (choose 1 (call (link 1) [ivar 0]) (letl 2 (prim P_IntAdd [ivar 0; ilit 1]) (call (link 0) [ivar 2]))).
Definition chain_body (k : nat) : CExpr := if k =? 0 then chain_first else call (link (S k)) [ivar 0].
Definition chain_def (k : nat) : DefData := MkDefData [0] [chain_body k] int [Kind_Int] 0.
Definition chain_links : list (string * DefData) := (fun k => (link k, chain_def k)) <$> seq 0 65.
Definition chain_module : gmap string DefData :=
  <["main" := MkDefData [] [call (link 0) [ilit 0]] int [] 0]> (list_to_map chain_links).
Definition chain_eligible : gset string := list_to_set chain_links.*1.
End Demo.

Example scan_entry : to_sig <$> Demo.scan_facts !! "scan" = Some (MkBoundSig
  [(PT_LenParam 1, PT_Param 0, 1%Z); (PT_LenParam 1, PT_Zero, 1%Z); (PT_Param 0, PT_LenParam 1, 0%Z);
   (PT_Param 0, PT_Zero, 1%Z); (PT_Zero, PT_LenParam 1, (-1)%Z); (PT_Zero, PT_Param 0, 0%Z)]).
Proof. vm_compute. reflexivity. Qed.

(** A graph that knows [0 <= i < len a] for the locals 0 and 1, and an environment it describes. *)
Definition demo_graph : Bounds := add_edge (T_Int 0) (T_Len 1) (-1) (set_ge (T_Int 0) 0 new_bounds).
Definition demo_env : Locals := bind_local (bind_local Demo.nothing 0 (V_Int 0)) 1 (V_Arr 1).

(** ** Runs of the examples *)

Section Runs.
Context (Calls : DefId -> list Value -> Value -> Prop).

(** Atoms evaluate in place. *)
Definition atomic (e : CExpr) : Prop :=
  match ce_kind e with K_Local _ => True | K_Lit l => value_ok (lit_value l) | _ => False end.
Lemma atoms_run rho es : Forall atomic es -> runs_all Calls rho es rho.
Proof.
  induction 1 as [|[k t] es He Hes IH]; [constructor|]. destruct k; try done; eapply all_cons; try exact IH; by constructor.
Qed.

Lemma prim_run rho op args t v : Forall atomic args -> let_value rho (CE (K_Prim op args) t) v ->
  runs Calls rho (CE (K_Prim op args) t) rho (O_Value v).
Proof. intros Ha Hv. apply run_operation; [done|by apply atoms_run|done]. Qed.
End Runs.

Lemma int_ok n : i64_fits n = true -> value_ok (V_Int n).
Proof. unfold i64_fits. rewrite andb_true_iff, !Z.leb_le. by constructor. Qed.
Lemma arr_ok n : ((0 <=? n) && (n <=? ARRAY_LEN_MAX))%Z = true -> value_ok (V_Arr n).
Proof. rewrite andb_true_iff, !Z.leb_le. by constructor. Qed.

(** Steps through a run of atoms and primitives, left to right. *)
Ltac ok := cbn; first [apply int_ok; reflexivity|apply arr_ok; reflexivity|apply ok_bool|apply ok_other].
Ltac atoms := repeat (apply Forall_cons_2; [first [exact I|ok]|]); apply Forall_nil_2.
Ltac operand_atoms := repeat (apply Forall2_cons_2; [split; [ok|first [reflexivity|exact I]]|]); apply Forall2_nil_2.
Ltac look := cbn; repeat first [rewrite bind_local_eq|rewrite bind_local_ne by lia].
Ltac step_prim vs := apply prim_run; [atoms|split; [ok|exists vs; split; [operand_atoms|cbn; try reflexivity]]].
Ltac call_atoms := repeat (apply Forall2_cons_2; [split; (split; [ok|first [reflexivity|exact I]])|]); apply Forall2_nil_2.

Lemma run_apply_main Calls : runs Calls Demo.nothing Demo.at_other
  (bind_local Demo.nothing 0 (V_Arr 1)) (O_Call (MkDefId 0 "at") [V_Int 1; V_Arr 1; V_Int 5]).
Proof.
  eapply run_let with (v := V_Arr 1); [step_prim [V_Int 1; V_Int 7]|].
  apply run_call; [apply atoms_run; atoms|call_atoms].
Qed.

Lemma nothing_ok : locals_ok Demo.nothing.
Proof. intros x. constructor. Qed.
Lemma demo_env_ok : locals_ok demo_env.
Proof. apply locals_ok_bind; [apply locals_ok_bind; [apply nothing_ok|]|]; ok. Qed.
Lemma demo_graph_describes : describes demo_graph demo_env.
Proof.
  apply add_edge_describes; [apply set_ge_describes; [apply describes_new, demo_env_ok|]|]; done.
Qed.
Lemma no_results_hold vs v : forall d, result_holds (Demo.no_results d) vs v.
Proof. intros d x y c a b Hin. by apply elem_of_nil in Hin. Qed.

Lemma main_calls Calls name : runs Calls Demo.nothing
  (Demo.letl 0 (Demo.prim P_ArrayRepeat [Demo.ilit 1; Demo.ilit 7]) (Demo.call name [Demo.ilit 0; Demo.avar 0]))
  (bind_local Demo.nothing 0 (V_Arr 1)) (O_Call (MkDefId 0 name) [V_Int 0; V_Arr 1]).
Proof.
  eapply run_let with (v := V_Arr 1); [step_prim [V_Int 1; V_Int 7]|].
  apply run_call; [apply atoms_run; atoms|call_atoms].
Qed.

(** The first turn of [sum]: the element is added, and the loop goes on at 1. *)
Lemma sum_turns Calls rho : rho 0 = V_Int 0 -> rho 1 = V_Arr 1 ->
  exists rho', runs Calls rho Demo.sum_body rho' (O_Recur [V_Int 1; V_Arr 1; V_Int 7]).
Proof.
  intros Hi Ha. eexists. eapply run_let; [apply run_lit; ok|]. apply run_join.
  eapply run_let with (v := V_Bool false).
  { apply prim_run; [atoms|]. split; [ok|]. exists [V_Int 0; V_Int 5]. split; [|reflexivity].
    apply Forall2_cons_2; [split; [ok|look; by rewrite Hi]|]. operand_atoms. }
  eapply (run_if _ _ _ _ _ _ _ _ false); [exact (run_local _ _ 3 _)|].
  eapply run_let with (v := V_Int 7).
  { apply prim_run; [atoms|]. split; [ok|]. exists [V_Arr 1; V_Int 0]. split; [|done].
    repeat (apply Forall2_cons_2; [split; [ok|look; by rewrite ?Hi, ?Ha]|]). apply Forall2_nil_2. }
  eapply run_let with (v := V_Int 1).
  { apply prim_run; [atoms|]. split; [ok|]. exists [V_Int 0; V_Int 1]. split; [|reflexivity].
    apply Forall2_cons_2; [split; [ok|look; by rewrite ?Hi]|]. operand_atoms. }
  apply run_recur.
  - eapply (all_cons _ _ _ _ _ _ (V_Int 1)); [exact (run_local _ _ 5 _)|].
    eapply all_cons; [apply run_local|]. eapply all_cons with (v := V_Int 7); [|apply all_nil].
    step_prim [V_Int 0; V_Int 7].
  - repeat (apply Forall2_cons_2; [split; (split; [ok|look; first [by rewrite ?Ha|done]])|]). apply Forall2_nil_2.
Qed.

(** ** The graph *)

(** C11: the graph decides entailment: when some valuation satisfies its edges, [entails_le]
    holds of two terms and a constant exactly when the edges imply it, in whatever order the
    hash maps are iterated and within the caps on terms and weights. *)
Theorem entails_le_decides `{HashOrder} (b : Bounds) (v : Term -> Z) (x y : Term) (c : Z) :
  graph_ok b -> poisoned b = false -> sat (edges b) v ->
  entails_le b x y c = true ↔ forall v', sat (edges b) v' -> (v' x <= v' y + c)%Z.
Proof.
  intros Hg Hp Hv. split.
  - intros He v' Hv'. by apply (entails_le_sound b v').
  - intros Hall. apply (entails_le_complete b v); auto.
Qed.

Lemma entails_le_decides_witness : entails_le demo_graph T_Zero (T_Len 1) (-1) = true ↔
  forall v', sat (edges demo_graph) v' -> (v' T_Zero <= v' (T_Len 1) + -1)%Z.
Proof.
  apply (entails_le_decides demo_graph (term_val demo_env)).
  - apply demo_graph_describes.
  - reflexivity.
  - apply demo_graph_describes.
Defined.

(** C9: an index the graph proves in bounds is in bounds in every environment the graph
    describes. *)
Theorem index_in_bounds_sound `{HashOrder} (b : Bounds) (rho : Locals) (array : LocalId) (index : CExpr) (i n : Z) :
  describes b rho -> operand rho index (V_Int i) -> rho array = V_Arr n ->
  index_in_bounds b array index = true -> (0 <= i < n)%Z.
Proof.
  intros Hd [_ Hi] Ha. unfold index_in_bounds, int_atom. destruct (poisoned b); [done|].
  destruct (ce_kind index) as [[k| | | | |]|x| | | | | | | | | | | | | | | | | | | | | |]; try done; cbn in Hi.
  - rewrite andb_true_iff, Z.leb_le. intros [Hk He]. injection Hi as ->.
    destruct (n0 ← to_i64 (k + 1); to_i64 (- n0)) as [bd|] eqn:Hb; [|done].
    assert (bd = - (k + 1))%Z as ->.
    { unfold to_i64 in Hb. destruct (i64_fits (k + 1)); [|done]. cbn in Hb. destruct (i64_fits _); [|done]. by injection Hb. }
    apply (entails_le_describes b rho Hd) in He. cbn in He. rewrite Ha in He. cbn in He. lia.
  - rewrite andb_true_iff. intros [H0 Hl]. apply (entails_nonneg_describes b rho Hd) in H0.
    apply (entails_le_describes b rho Hd) in Hl. cbn in H0, Hl. rewrite <- Hi in H0, Hl. rewrite Ha in Hl. cbn in H0, Hl. lia.
Qed.

Lemma index_in_bounds_sound_witness : (0 <= 0 < 1)%Z.
Proof.
  apply (index_in_bounds_sound demo_graph demo_env 1 (Demo.ivar 0)).
  - exact demo_graph_describes.
  - split; [ok|reflexivity].
  - reflexivity.
  - vm_compute. reflexivity.
Defined.

(** C10: the range test always answers, and an operand it accepts lies in the range, its
    arithmetic at the width of the machine included. *)
Theorem integer_in_range_sound `{HashOrder} (b : Bounds) (rho : Locals) (value : CExpr) (n lo hi : Z) :
  describes b rho -> operand rho value (V_Int n) ->
  exists answer, integer_in_range b value lo hi = Some answer /\ (answer = true -> (lo <= n <= hi)%Z).
Proof.
  intros Hd [_ Hn]. unfold integer_in_range, int_atom. destruct (_ || _); [by exists false|].
  destruct (ce_kind value) as [[k| | | | |]|x| | | | | | | | | | | | | | | | | | | | | |]; try (by exists false); cbn in Hn.
  - eexists. split; [done|]. rewrite andb_true_iff, !Z.leb_le. congruence.
  - destruct (negb _); [by exists false|].
    destruct (interval_of_ok b (term_val rho) (describes_machine b rho Hd) (ds_edges b rho Hd) (T_Int x)) as (l & h & -> & Hr).
    eexists. split; [done|]. rewrite !andb_true_iff, !Z.leb_le. cbn in Hr. rewrite <- Hn in Hr. cbn in Hr. lia.
Qed.

Lemma integer_in_range_sound_witness : exists answer,
  integer_in_range demo_graph (Demo.ivar 0) 0 100 = Some answer /\ (answer = true -> (0 <= 0 <= 100)%Z).
Proof.
  apply (integer_in_range_sound demo_graph demo_env).
  - exact demo_graph_describes.
  - split; [ok|reflexivity].
Defined.

(** ** The walk *)

(** C8: the walk of a body never panics, and reports every call a run of the body can reach,
    and every turn of its loop, with a graph that describes the environment of the call. *)
Theorem walk_describes_calls `{HashOrder} (self : DefId) (result_of : DefId -> ResultSig)
    (Calls : DefId -> list Value -> Value -> Prop) (body : CExpr) (S S' : gset LocalId) (b : Bounds) :
  (forall d vs v, Calls d vs v -> result_holds (result_of d) vs v) ->
  scope body S = Some S' -> within S b ->
  exists w, walk self result_of body b = Some w /\
    forall rho rho' o, describes b rho -> runs Calls rho body rho' o ->
      match o with
      | O_Value v => describes w.1 rho' /\ let_value rho' body v
      | O_Call d vs => def_file d = def_file self -> exists b' args,
          R_Call b' (def_name d) args ∈ w.2 /\ describes b' rho' /\ operands rho' args vs
      | O_Recur vs => exists b' args, R_Call b' (def_name self) args ∈ w.2 /\ describes b' rho' /\ operands rho' args vs
      end.
Proof.
  intros Hcalls HS Hw. unfold walk. destruct (walk_in_total self result_of body true (b, [])) as [w Hwalk].
  exists w. split; [done|]. intros rho rho' o Hd Hr.
  destruct (walk_sound self result_of Calls Hcalls body true _ _ (b, []) w HS Hw Hwalk) as (_ & _ & _ & Hrun).
  destruct (Hrun _ _ _ Hd Hr) as [Hre Hv]. destruct o; [|exact Hre..].
  destruct (Hv _ eq_refl) as (_ & ? & [? _]). done.
Qed.

Lemma walk_describes_calls_witness : exists w,
  walk (MkDefId 0 "main") Demo.no_results Demo.scan_main new_bounds = Some w /\
  exists b' args, R_Call b' "scan" args ∈ w.2 /\ describes b' (bind_local Demo.nothing 0 (V_Arr 1)) /\
    operands (bind_local Demo.nothing 0 (V_Arr 1)) args [V_Int 0; V_Arr 1].
Proof.
  destruct (walk_describes_calls (MkDefId 0 "main") Demo.no_results (fun _ _ _ => False) Demo.scan_main ∅ {[0]} new_bounds)
    as (w & Hw & Hrun); [intros d vs v []|reflexivity|apply within_new|].
  exists w. split; [exact Hw|].
  apply (Hrun Demo.nothing _ (O_Call (MkDefId 0 "scan") [V_Int 0; V_Arr 1])); [|exact (main_calls _ "scan")|reflexivity].
  apply describes_new, nothing_ok.
Defined.

(** ** Entry facts *)

(** C7: Facts that a round of the fixpoint leaves alone hold whenever a run of the module comes
    to the body of their definition or to a turn of its loop.  The module's calls of eligible
    definitions have as many arguments as those have parameters, and so have the turns of its
    loops (none carries an accumulator or a hole), its bodies are in scope, and what the result
    facts say of calls is so. *)
Theorem entry_facts_hold `{HashOrder} `{DefOrder} (source : SourceId) (data : gmap string DefData) (eligible : gset string)
    (result_of : DefId -> ResultSig) (Calls : DefId -> list Value -> Value -> Prop)
    (locals_at : string -> nat -> gset LocalId) (facts : gmap string SigMap) n rho e d sig :
  (forall d vs v, Calls d vs v -> result_holds (result_of d) vs v) ->
  module_ok source data eligible locals_at = true -> stable source data eligible result_of facts = true ->
  active source data eligible Calls n 0 rho e -> data !! n = Some d -> facts !! n = Some sig ->
  entry_holds (to_sig sig) (rho <$> dd_params d).
Proof.
  intros Hres Hmod Hst Hact Hn Hs. apply entry_holds_facts.
  destruct (active_placed source data eligible result_of Calls locals_at facts Hres Hmod Hst _ _ _ _ Hact)
    as (d' & body & Hn' & _ & _ & _ & Hf). rewrite Hn in Hn'. injection Hn' as <-. by apply Hf.
Qed.

Lemma entry_facts_hold_witness : exists sig, Demo.scan_facts !! "scan" = Some sig /\
  entry_holds (to_sig sig) (demo_env <$> [0; 1]).
Proof.
  destruct (Demo.scan_facts !! "scan") as [sig|] eqn:Hs; [|pose proof scan_entry as He; rewrite Hs in He; discriminate He]. exists sig. split; [reflexivity|].
  apply (entry_facts_hold 0 Demo.scan_module {["scan"]} Demo.no_results (fun _ _ _ => False) Demo.scan_locals Demo.scan_facts
    "scan" demo_env (CE (K_Join [0; 1] Demo.scan_turn) Demo.int) Demo.scan_def sig).
  - intros d vs v [].
  - vm_compute. reflexivity.
  - vm_compute. reflexivity.
  - eapply (active_call _ _ _ _ "main" 0 Demo.nothing Demo.scan_main _ "scan" [V_Int 0; V_Arr 1] Demo.scan_def).
    + eapply active_start; [reflexivity|reflexivity| |exact nothing_ok]. intros _ Hin%elem_of_singleton. discriminate Hin.
    + exact (main_calls _ "scan").
    + reflexivity.
    + reflexivity.
    + exact demo_env_ok.
    + apply Nat.leb_le. reflexivity.
    + reflexivity.
  - reflexivity.
  - exact Hs.
Defined.

(** The fixpoint always returns, without a panic, and its facts are stable unless each of
    the 64 rounds of its second loop changed them. *)
Theorem entry_fixpoint_returns `{HashOrder} `{DefOrder} (source : SourceId) (data : gmap string DefData)
    (eligible : gset string) (result_of : DefId -> ResultSig) :
  exists facts, entry_fixpoint source data eligible result_of = Some facts /\
    (stable source data eligible result_of facts = true \/
     exists f, propagate source data eligible result_of FIXPOINT_BOUND ∅ = Some f /\
       moves source data eligible result_of 0 FIXPOINT_BOUND f facts).
Proof.
  unfold entry_fixpoint. destruct (propagate_returns source data eligible result_of FIXPOINT_BOUND ∅) as (f & Hf). rewrite Hf.
  destruct (preserve_returns source data eligible result_of FIXPOINT_BOUND 0 f) as (f' & Hf' & Hor).
  exists f'. split; [done|]. destruct Hor as [Hs|Hm]; [by left|right]. by exists f.
Qed.

(** The eligible definitions are the candidates that no contract names and that no body uses
    otherwise than as the function of a call with at least their parameters. *)
Theorem eligible_defs_spec (source : SourceId) (data : gmap string DefData) (order : list string)
    (candidates contract_deps : gset string) (n : string) :
  n ∈ eligible_defs source data order candidates contract_deps ↔
  n ∈ candidates /\ n ∉ contract_deps /\
  forall m d body, m ∈ order -> data !! m = Some d -> body ∈ dd_bodies d -> ~ value_use source (arity data) n body.
Proof.
  unfold eligible_defs. assert (forall order el, n ∈ foldl (fun el n => match data !! n with
    | Some d => foldl (fun el body => poison_first_class source (arity data) body el) el (dd_bodies d) | None => el end) el order ↔
    n ∈ el /\ forall m d body, m ∈ order -> data !! m = Some d -> body ∈ dd_bodies d -> ~ value_use source (arity data) n body) as Hall.
  { clear order. induction order as [|m order IH]; intros el; simpl; [split; [|by intros []]; intros Hn; by split; [|intros ? ? ? ?%elem_of_nil]|].
    rewrite IH. setoid_rewrite elem_of_cons. destruct (data !! m) as [d|] eqn:Hm; [|naive_solver].
    rewrite (poison_children source (arity data) n _ (poison_first_class source (arity data))) by (apply Forall_true; intros ? ?; apply poison_spec).
    naive_solver. }
  rewrite Hall, elem_of_difference. naive_solver.
Qed.

(** ** Where the fixpoint's facts fail *)

(** A loop that carries a sum has one more argument than its definition has parameters, so
    its turns are skipped when facts are collected: in a module that adds the elements of an
    array from the end of the recursion, the fixpoint is stable at facts that the second turn of
    the loop breaks, and under them the graph proves an index in bounds that is not. *)
Example accumulator_loop_skipped (Calls : DefId -> list Value -> Value -> Prop) :
  entry_fixpoint 0 Demo.sum_module {["sum"]} Demo.no_results = Some Demo.sum_facts /\
  stable 0 Demo.sum_module {["sum"]} Demo.no_results Demo.sum_facts = true /\
  index_in_bounds (seed_of Demo.sum_facts "sum" Demo.sum_def) 1 (Demo.ivar 0) = true /\
  exists rho, active 0 Demo.sum_module {["sum"]} Calls "sum" 0 rho Demo.sum_turn /\ rho 0 = V_Int 1 /\ rho 1 = V_Arr 1.
Proof.
  split; [vm_compute; reflexivity|]. split; [vm_compute; reflexivity|]. split; [vm_compute; reflexivity|].
  destruct (sum_turns Calls demo_env eq_refl eq_refl) as (rho' & Hr).
  exists (bind_locals rho' [0; 1; 2] [V_Int 1; V_Arr 1; V_Int 7]). split; [|done].
  eapply active_turn; [|exact Hr|reflexivity..].
  eapply (active_call _ _ _ _ "main" 0 Demo.nothing Demo.sum_main); [|exact (main_calls Calls "sum")|reflexivity|reflexivity|exact demo_env_ok|apply Nat.leb_le; reflexivity|reflexivity].
  eapply active_start; [reflexivity|reflexivity| |exact nothing_ok]. by intros _ Hin%elem_of_singleton.
Qed.

(** An application to more arguments than a definition has parameters keeps the definition
    eligible, and adds nothing to what its facts are met with, although it enters the definition
    with the first of them. *)
Example over_application_skipped (Calls : DefId -> list Value -> Value -> Prop) :
  "at" ∈ Demo.at_eligible /\
  entry_fixpoint 0 Demo.at_module Demo.at_eligible Demo.no_results = Some Demo.at_facts /\
  stable 0 Demo.at_module Demo.at_eligible Demo.no_results Demo.at_facts = true /\
  index_in_bounds (seed_of Demo.at_facts "at" Demo.at_def) 1 (Demo.ivar 0) = true /\
  exists rho, active 0 Demo.at_module Demo.at_eligible Calls "at" 0 rho Demo.at_body /\ rho 0 = V_Int 1 /\ rho 1 = V_Arr 1.
Proof.
  split; [apply (bool_decide_unpack _); vm_compute; exact I|].
  split; [vm_compute; reflexivity|]. split; [vm_compute; reflexivity|]. split; [vm_compute; reflexivity|].
  exists (bind_locals Demo.nothing [0; 1] [V_Int 1; V_Arr 1]). split; [|done].
  eapply (active_call _ _ _ _ "other" 0 Demo.nothing Demo.at_other _ "at" [V_Int 1; V_Arr 1; V_Int 5] Demo.at_def);
    [|apply run_apply_main|reflexivity|reflexivity| |apply Nat.leb_le; reflexivity|reflexivity].
  - eapply active_start; [reflexivity|reflexivity| |exact nothing_ok]. intros _ Hin.
    assert (bool_decide ("other" ∈ Demo.at_eligible) = false) as Hf by (vm_compute; reflexivity).
    by rewrite bool_decide_eq_true_2 in Hf.
  - apply locals_ok_binds; [exact nothing_ok|]. repeat (apply Forall_cons_2; [ok|]). apply Forall_nil_2.
Qed.

(** The chain passes 1 on to its last link. *)
Lemma chain_lookup k : k < 65 -> Demo.chain_module !! Demo.link k = Some (Demo.chain_def k).
Proof.
  intros Hk. unfold Demo.chain_module, Demo.link. rewrite lookup_insert_ne by (intros Hx; apply (f_equal (String.get 0)) in Hx; cbn in Hx; discriminate Hx).
  apply elem_of_list_to_map_1.
  - unfold Demo.chain_links. rewrite <- list_fmap_compose. apply NoDup_fmap_2; [|apply NoDup_seq].
    intros i j Hij. cbn in Hij. apply (inj (String.append "f")) in Hij. by apply (inj pretty) in Hij.
  - apply list_elem_of_fmap. exists k. split; [done|]. apply elem_of_seq. lia.
Qed.

Definition one_at_0 : Locals := bind_local Demo.nothing 0 (V_Int 1).
Lemma chain_active Calls k : k < 65 ->
  active 0 Demo.chain_module Demo.chain_eligible Calls (Demo.link k) 0 one_at_0 (Demo.chain_body k).
Proof.
  assert (locals_ok one_at_0) as Hone by (apply locals_ok_bind; [apply nothing_ok|ok]).
  assert (forall k, k < 65 -> forall n i rho e rho', active 0 Demo.chain_module Demo.chain_eligible Calls n i rho e ->
    runs Calls rho e rho' (O_Call (MkDefId 0 (Demo.link k)) [V_Int 1]) ->
    active 0 Demo.chain_module Demo.chain_eligible Calls (Demo.link k) 0 one_at_0 (Demo.chain_body k)) as Henter.
  { intros k' Hk' n i rho e rho' Hact Hr. by eapply (active_call _ _ _ _ n i rho e); [| |by apply chain_lookup|..]. }
  induction k as [|k IH]; intros Hk.
  - eapply (Henter 0 Hk).
    + eapply (active_call _ _ _ _ "main" 0 Demo.nothing (Demo.call (Demo.link 0) [Demo.ilit 0]) Demo.nothing (Demo.link 0) [V_Int 0]
        (Demo.chain_def 0) (Demo.chain_body 0) (bind_local Demo.nothing 0 (V_Int 0))); [|apply run_call; [apply atoms_run; atoms|call_atoms]|by apply chain_lookup|done| |done|done].
      * eapply active_start; [reflexivity|reflexivity| |exact nothing_ok]. intros _ Hin.
        assert (bool_decide ("main" ∈ Demo.chain_eligible) = false) as Hf by (vm_compute; reflexivity).
        by rewrite bool_decide_eq_true_2 in Hf.
      * apply locals_ok_bind; [apply nothing_ok|ok].
    + eapply run_let with (v := V_Bool false); [apply run_operation; [done|constructor|split; [ok|done]]|].
      eapply (run_if _ _ _ _ _ _ _ _ false); [exact (run_local _ _ 1 _)|].
      eapply run_let with (v := V_Int 1); [step_prim [V_Int 0; V_Int 1]|].
      apply run_call; [apply atoms_run; atoms|call_atoms].
  - destruct k as [|k].
    + eapply (Henter 1 Hk); [apply IH; lia|].
      eapply run_let with (v := V_Bool true); [apply run_operation; [done|constructor|split; [ok|done]]|].
      eapply (run_if _ _ _ _ _ _ _ _ true); [exact (run_local _ _ 1 _)|].
      apply run_call; [apply atoms_run; atoms|call_atoms].
    + eapply (Henter (S (S k)) Hk); [apply IH; lia|].
      apply run_call; [apply atoms_run; atoms|call_atoms].
Qed.

(** In a chain of 65 definitions the fixpoint ends at its limit of rounds before it is
    stable, with a fact of the last definition that a call of it breaks. *)
Example round_limit_unstable (Calls : DefId -> list Value -> Value -> Prop) :
  exists facts sig, entry_fixpoint 0 Demo.chain_module Demo.chain_eligible Demo.no_results = Some facts /\
    stable 0 Demo.chain_module Demo.chain_eligible Demo.no_results facts = false /\
    facts !! Demo.link 64 = Some sig /\ (PT_Param 0, PT_Zero, 0%Z) ∈ bound_edges (to_sig sig) /\
    active 0 Demo.chain_module Demo.chain_eligible Calls (Demo.link 64) 0 one_at_0 (Demo.chain_body 64) /\
    ~ entry_holds (to_sig sig) (one_at_0 <$> [0]).
Proof.
  set (outcome := match entry_fixpoint 0 Demo.chain_module Demo.chain_eligible Demo.no_results with
    | Some facts => match facts !! Demo.link 64 with
        | Some sig => negb (stable 0 Demo.chain_module Demo.chain_eligible Demo.no_results facts) &&
            bool_decide (sig !! (PT_Param 0, PT_Zero) = Some 0%Z)
        | None => false end
    | None => false end).
  assert (outcome = true) as Hout by (vm_compute; reflexivity). unfold outcome in Hout.
  destruct (entry_fixpoint _ _ _ _) as [facts|]; [|done]. destruct (facts !! Demo.link 64) as [sig|] eqn:Hs; [|done].
  apply andb_true_iff in Hout as [Hst%negb_true_iff Hsig%bool_decide_eq_true]. exists facts, sig.
  assert ((PT_Param 0, PT_Zero, 0%Z) ∈ bound_edges (to_sig sig)) as Hin by (by apply elem_of_to_sig).
  split; [reflexivity|]. split; [exact Hst|]. split; [exact Hs|]. split; [exact Hin|]. split; [apply chain_active; lia|]. intros Hh.
  pose proof (Hh (PT_Param 0) PT_Zero 0%Z 1%Z 0%Z Hin eq_refl eq_refl) as Hc. clear -Hc. lia.
Qed.
