(* ===== verification/Infer.v ===== *)
(** * The inference solver

    fai-types' [infer/ctx.rs]: type, row and effect variables in union-finds, and unification.
    A method on [&self] reads the context, one on [&mut self] returns it; a failed [expect] or
    an index out of range panics, and the recursions, which follow bindings, take fuel.  The
    counters of [perf.rs], which only measure, are left out. *)

From S2P Require Import Prelude Types.
From stdpp Require Import gmap list strings.
From Stdlib Require Import ZArith Lia.

(** ** Data *)

Inductive Constraint := Numeric | Constraint_Eq | Constraint_Ord.
#[export] Instance Constraint_eq_dec : EqDecision Constraint.
Proof. solve_decision. Defined.

Inductive RowTail := Tail_Closed | Tail_Open (v : nat).
Inductive EffTail := EffTail_Closed | EffTail_Open (v : nat).
#[export] Instance RowTail_eq_dec : EqDecision RowTail.
Proof. solve_decision. Defined.
#[export] Instance EffTail_eq_dec : EqDecision EffTail.
Proof. solve_decision. Defined.

Record SolveEffect := MkSolveEffect { eff_atoms : list InterfaceRef; effect_tail : EffTail }.
#[export] Instance SolveEffect_eq_dec : EqDecision SolveEffect.
Proof. solve_decision. Defined.

(** [SolveEffect::pure] *)
Definition pure_effect : SolveEffect := MkSolveEffect [] EffTail_Closed.

(** A solver type; the two fields of a [SolveRow] are arguments of [S_Record]. *)
Inductive SolveTy :=
| S_Var (v : nat)
| S_Con (c : Con)
| S_Adt (a : AdtRef)
| S_Interface (i : InterfaceRef)
| S_EffectArg (e : SolveEffect)
| S_App (head arg : SolveTy)
| S_Arrow (from to : SolveTy) (eff : SolveEffect)
| S_Tuple (elems : list SolveTy)
| S_Record (fields : list (string * SolveTy)) (tail : RowTail)
| S_Unit
| S_Error.

Record SolveRow := MkSolveRow { row_fields : list (string * SolveTy); row_tail : RowTail }.

(** [SolveTy::bool], [SolveTy::int], [SolveTy::arrow] and the curried arrows. *)
Definition s_bool : SolveTy := S_Con Con_Bool.
Definition s_int : SolveTy := S_Con Con_Int.
Definition s_arrow (from to : SolveTy) : SolveTy := S_Arrow from to pure_effect.
Definition s_list (elem : SolveTy) : SolveTy := S_App (S_Con Con_List) elem.
Definition s_array (elem : SolveTy) : SolveTy := S_App (S_Con Con_Array) elem.
Definition s_adt (adt : AdtRef) (args : list SolveTy) : SolveTy := foldl S_App (S_Adt adt) args.
Definition arrows_solver (params : list SolveTy) (res : SolveTy) : SolveTy := foldr s_arrow res params.
Definition arrows_solver_eff (params : list SolveTy) (res : SolveTy) (e : SolveEffect) : SolveTy :=
  (foldl (fun st p => if st.2 : bool then (S_Arrow p st.1 e, false) else (s_arrow p st.1, false))
    (res, true) (reverse params)).1.

(** [VarState], [RowState] and [EffState] *)
Inductive VarState :=
| Var_Free (c : option Constraint) (level : nat)
| Var_Bound (ty : SolveTy).
Inductive RowState :=
| Row_Free (lacks : list string)
| Row_Bound (row : SolveRow).
Inductive EffState :=
| Eff_Free
| Eff_Bound (eff : SolveEffect).

Inductive UnifyResult := U_Ok | Mismatch | Occurs | BadConstraint.
#[export] Instance UnifyResult_eq_dec : EqDecision UnifyResult.
Proof. solve_decision. Defined.

Record InferCtx := MkInferCtx {
  vars : list VarState;
  rows : list RowState;
  effects : list EffState;
  effect_origins : list nat;
  ignore_effects : bool;
  current_level : nat
}.

(** [InferCtx::new] *)
Definition new_ctx : InferCtx := MkInferCtx [] [] [] [] false 0.

Definition set_vars (vs : list VarState) (s : InferCtx) : InferCtx :=
  MkInferCtx vs (rows s) (effects s) (effect_origins s) (ignore_effects s) (current_level s).
Definition set_rows (rs : list RowState) (s : InferCtx) : InferCtx :=
  MkInferCtx (vars s) rs (effects s) (effect_origins s) (ignore_effects s) (current_level s).
Definition set_effects (es : list EffState) (origins : list nat) (s : InferCtx) : InferCtx :=
  MkInferCtx (vars s) (rows s) es origins (ignore_effects s) (current_level s).

(** ** Methods *)

(** A [&mut self] method. *)
Abbreviation CX := (SR InferCtx).
Definition cx_panic {A} : CX A := fun _ => Panicked.

Definition index {A} (xs : list A) (i : nat) : run A := unwrap (xs !! i).

(** A variable's number is a [u32]. *)
Definition next_id (len : nat) : run nat := if (Z.of_nat len <? 2 ^ 32)%Z then Done len else Panicked.

Section Loops.
Context {A : Type}.

(** [for x in xs { match f(x) { Ok => {} other => return other } }] *)
Fixpoint all_ok (f : A -> CX UnifyResult) (xs : list A) : CX UnifyResult :=
  match xs with
  | [] => mret U_Ok
  | x :: xs => r ← f x; match r with U_Ok => all_ok f xs | _ => mret r end
  end.

(** [xs.iter().all(f)] of a [&self] test. *)
Fixpoint forall_run (f : A -> run bool) (xs : list A) : run bool :=
  match xs with
  | [] => mret true
  | x :: xs => b ← f x; if b : bool then forall_run f xs else mret false
  end.
End Loops.

(** [set_ignore_effects], [enter_level] and [exit_level]; the levels are [u32]s. *)
Definition set_ignore_effects (value : bool) : CX () := modify (fun s =>
  MkInferCtx (vars s) (rows s) (effects s) (effect_origins s) value (current_level s)).
Definition set_level (level : nat) : CX () := modify (fun s =>
  MkInferCtx (vars s) (rows s) (effects s) (effect_origins s) (ignore_effects s) level).
Definition enter_level : CX () :=
  level ← asks (fun s => next_id (S (current_level s))); set_level level.
Definition exit_level : CX () := fun s =>
  match current_level s with 0 => Panicked | S level => set_level level s end.

(** ** Variables *)

(** [level_of] *)
Definition level_of (s : InferCtx) (v : nat) : run nat :=
  x ← index (vars s) v; mret (match x with Var_Free _ level => level | Var_Bound _ => 0 end).

(** [lower_level] *)
Definition lower_level (v to : nat) : CX () :=
  x ← asks (fun s => index (vars s) v);
  match x with
  | Var_Free c level =>
      if to <? level then modify (fun s => set_vars (<[v := Var_Free c to]> (vars s)) s) else mret ()
  | Var_Bound _ => mret ()
  end.

(** [constraint_of] *)
Definition constraint_of (s : InferCtx) (v : nat) : run (option Constraint) :=
  x ← index (vars s) v; mret (match x with Var_Free c _ => c | Var_Bound _ => None end).

(** [fresh_constrained] and [fresh] *)
Definition fresh_constrained (c : option Constraint) : CX SolveTy :=
  id ← asks (fun s => next_id (length (vars s)));
  _ ← modify (fun s => set_vars (vars s ++ [Var_Free c (current_level s)]) s);
  mret (S_Var id).
Definition fresh_ty : CX SolveTy := fresh_constrained None.

(** [resolve_shallow] *)
Fixpoint resolve_shallow (fuel : nat) (s : InferCtx) (ty : SolveTy) : run SolveTy :=
  match fuel with
  | 0 => Exhausted
  | S fuel =>
      match ty with
      | S_Var id =>
          x ← index (vars s) id;
          match x with Var_Bound t => resolve_shallow fuel s t | Var_Free _ _ => mret ty end
      | _ => mret ty
      end
  end.

(** [Repr], [repr] and [repr_owned]: the last variable of a chain of links, and what it is
    bound to. *)
Inductive Repr :=
| Repr_Free (v : nat)
| Repr_Bound (v : nat) (ty : SolveTy).
Fixpoint repr (fuel : nat) (s : InferCtx) (v : nat) : run Repr :=
  match fuel with
  | 0 => Exhausted
  | S fuel =>
      x ← index (vars s) v;
      match x with
      | Var_Bound (S_Var next) => repr fuel s next
      | Var_Bound t => mret (Repr_Bound v t)
      | Var_Free _ _ => mret (Repr_Free v)
      end
  end.

(** The chain of links from a variable, and its last variable. *)
Fixpoint follow (fuel : nat) (s : InferCtx) (v : nat) : run (list nat * nat) :=
  match fuel with
  | 0 => Exhausted
  | S fuel =>
      x ← index (vars s) v;
      match x with
      | Var_Bound (S_Var next) => out ← follow fuel s next; mret (v :: out.1, out.2)
      | _ => mret ([], v)
      end
  end.

(** Every earlier link points at the last variable. *)
Definition compress (chain : list nat) (v : nat) (vs : list VarState) : list VarState :=
  foldl (fun vs link => if decide (link = v) then vs else <[link := Var_Bound (S_Var v)]> vs) vs chain.

(** [resolve_compress] *)
Definition resolve_compress (fuel : nat) (ty : SolveTy) : CX SolveTy :=
  match ty with
  | S_Var v0 =>
      out ← asks (fun s => follow fuel s v0);
      _ ← modify (fun s => set_vars (compress out.1 out.2 (vars s)) s);
      x ← asks (fun s => index (vars s) out.2);
      mret (match x with Var_Bound t => t | Var_Free _ _ => S_Var out.2 end)
  | _ => mret ty
  end.

(** ** Record rows *)

(** [fresh_row] and [fresh_open_record] *)
Definition fresh_row (lacks : list string) : CX nat :=
  id ← asks (fun s => next_id (length (rows s)));
  _ ← modify (fun s => set_rows (rows s ++ [Row_Free lacks]) s);
  mret id.
Definition fresh_open_record (fields : list (string * SolveTy)) : CX SolveTy :=
  tail ← fresh_row fields.*1; mret (S_Record fields (Tail_Open tail)).

(** [expand_row] *)
Fixpoint expand_tail (fuel : nat) (s : InferCtx) (fields : list (string * SolveTy)) (tail : RowTail)
    : run SolveRow :=
  match fuel with
  | 0 => Exhausted
  | S fuel =>
      match tail with
      | Tail_Closed => mret (MkSolveRow fields tail)
      | Tail_Open v =>
          x ← index (rows s) v;
          match x with
          | Row_Bound more => expand_tail fuel s (fields ++ row_fields more) (row_tail more)
          | Row_Free _ => mret (MkSolveRow fields tail)
          end
      end
  end.
Definition expand_row (fuel : nat) (s : InferCtx) (row : SolveRow) : run SolveRow :=
  expand_tail fuel s (row_fields row) (row_tail row).

(** [row_lacks] *)
Definition row_lacks (s : InferCtx) (v : nat) : run (list string) :=
  x ← index (rows s) v; mret (match x with Row_Free lacks => lacks | Row_Bound _ => [] end).

(** A label pushed onto a list that lacks it. *)
Definition push_new (labels : list string) (l : string) : list string :=
  if decide (l ∈ labels) then labels else labels ++ [l].

(** [bind_row] *)
Definition bind_row (v : nat) (row : SolveRow) : CX UnifyResult :=
  lacks ← asks (fun s => row_lacks s v);
  if existsb (fun f : string * SolveTy => bool_decide (f.1 ∈ lacks)) (row_fields row) then mret Mismatch
  else
    _ ← match row_tail row with
        | Tail_Closed => mret ()
        | Tail_Open next =>
            x ← asks (fun s => index (rows s) next);
            match x with
            | Row_Free next_lacks =>
                let next_lacks := foldl push_new (foldl push_new next_lacks lacks) (row_fields row).*1 in
                modify (fun s => set_rows (<[next := Row_Free next_lacks]> (rows s)) s)
            | Row_Bound _ => mret ()
            end
        end;
    _ ← modify (fun s => set_rows (<[v := Row_Bound row]> (rows s)) s);
    mret U_Ok.

(** [find] by label, and the fields whose label another row has not. *)
Definition field_of (fields : list (string * SolveTy)) (label : string) : option SolveTy :=
  match list_find (fun f => f.1 = label) fields with Some (_, f) => Some f.2 | None => None end.
Definition only_in (fields others : list (string * SolveTy)) : list (string * SolveTy) :=
  filter (fun f => f.1 ∉ others.*1) fields.

(** [reconcile_row_tails] *)
Definition reconcile_row_tails (r1 r2 : SolveRow) : CX UnifyResult :=
  let only1 := only_in (row_fields r1) (row_fields r2) in
  let only2 := only_in (row_fields r2) (row_fields r1) in
  let none_left := bool_decide (only1.*1 = []) && bool_decide (only2.*1 = []) in
  match row_tail r1, row_tail r2 with
  | Tail_Closed, Tail_Closed => mret (if none_left then U_Ok else Mismatch)
  | Tail_Closed, Tail_Open v2 =>
      if bool_decide (only2.*1 = []) then bind_row v2 (MkSolveRow only1 Tail_Closed) else mret Mismatch
  | Tail_Open v1, Tail_Closed =>
      if bool_decide (only1.*1 = []) then bind_row v1 (MkSolveRow only2 Tail_Closed) else mret Mismatch
  | Tail_Open v1, Tail_Open v2 =>
      if decide (v1 = v2) then mret (if none_left then U_Ok else Mismatch)
      else
        lacks1 ← asks (fun s => row_lacks s v1);
        lacks2 ← asks (fun s => row_lacks s v2);
        tail ← fresh_row (foldl push_new lacks1 lacks2);
        r ← bind_row v1 (MkSolveRow only2 (Tail_Open tail));
        match r with
        | U_Ok => bind_row v2 (MkSolveRow only1 (Tail_Open tail))
        | _ => mret r
        end
  end.

(** ** Effect rows *)

(** [dedup_atoms]: the first occurrence of each atom stays. *)
Definition dedup_atoms (atoms : list InterfaceRef) : list InterfaceRef :=
  foldl (fun seen a => if decide (a ∈ seen) then seen else seen ++ [a]) [] atoms.

(** [fresh_effect] and [fresh_open_effect] *)
Definition fresh_effect : CX nat :=
  id ← asks (fun s => next_id (length (effects s)));
  _ ← modify (fun s =>
    set_effects (effects s ++ [Eff_Free]) (effect_origins s ++ [length (effects s)]) s);
  mret id.
Definition fresh_open_effect : CX SolveEffect :=
  tail ← fresh_effect; mret (MkSolveEffect [] (EffTail_Open tail)).

(** [expand_effect] *)
Fixpoint expand_effect_tail (fuel : nat) (s : InferCtx) (atoms : list InterfaceRef) (tail : EffTail)
    : run SolveEffect :=
  match fuel with
  | 0 => Exhausted
  | S fuel =>
      match tail with
      | EffTail_Closed => mret (MkSolveEffect (dedup_atoms atoms) tail)
      | EffTail_Open v =>
          x ← index (effects s) v;
          match x with
          | Eff_Bound more => expand_effect_tail fuel s (atoms ++ eff_atoms more) (effect_tail more)
          | Eff_Free => mret (MkSolveEffect (dedup_atoms atoms) tail)
          end
      end
  end.
Definition expand_effect (fuel : nat) (s : InferCtx) (e : SolveEffect) : run SolveEffect :=
  expand_effect_tail fuel s (eff_atoms e) (effect_tail e).

(** [bind_effect]: the tail's origin drops to the bound variable's. *)
Definition bind_effect (fuel : nat) (v : nat) (e : SolveEffect) : CX UnifyResult :=
  expanded ← asks (fun s => expand_effect fuel s e);
  _ ← match effect_tail expanded with
      | EffTail_Open tail =>
          origin ← asks (fun s => index (effect_origins s) v);
          target ← asks (fun s => index (effect_origins s) tail);
          modify (fun s => set_effects (effects s) (<[tail := min target origin]> (effect_origins s)) s)
      | EffTail_Closed => mret ()
      end;
  _ ← asks (fun s => index (effects s) v);
  _ ← modify (fun s => set_effects (<[v := Eff_Bound e]> (effects s)) (effect_origins s) s);
  mret U_Ok.

Definition atoms_only (atoms others : list InterfaceRef) : list InterfaceRef :=
  filter (fun a => a ∉ others) atoms.

(** [unify_effects] *)
Definition unify_effects (fuel : nat) (e1 e2 : SolveEffect) : CX UnifyResult :=
  ignored ← asks (fun s => mret (ignore_effects s));
  if ignored : bool then mret U_Ok
  else
    e1 ← asks (fun s => expand_effect fuel s e1);
    e2 ← asks (fun s => expand_effect fuel s e2);
    let only1 := atoms_only (eff_atoms e1) (eff_atoms e2) in
    let only2 := atoms_only (eff_atoms e2) (eff_atoms e1) in
    let none_left := bool_decide (only1 = []) && bool_decide (only2 = []) in
    match effect_tail e1, effect_tail e2 with
    | EffTail_Closed, EffTail_Closed => mret (if none_left then U_Ok else Mismatch)
    | EffTail_Closed, EffTail_Open v2 =>
        if decide (only2 = []) then bind_effect fuel v2 (MkSolveEffect only1 EffTail_Closed) else mret Mismatch
    | EffTail_Open v1, EffTail_Closed =>
        if decide (only1 = []) then bind_effect fuel v1 (MkSolveEffect only2 EffTail_Closed) else mret Mismatch
    | EffTail_Open v1, EffTail_Open v2 =>
        if decide (v1 = v2) then mret (if none_left then U_Ok else Mismatch)
        else
          tail ← fresh_effect;
          r ← bind_effect fuel v1 (MkSolveEffect only2 (EffTail_Open tail));
          match r with
          | U_Ok => bind_effect fuel v2 (MkSolveEffect only1 (EffTail_Open tail))
          | _ => mret r
          end
    end.

(** [unify_effect_var] *)
Definition unify_effect_var (fuel v : nat) (e : SolveEffect) : CX UnifyResult :=
  unify_effects fuel (MkSolveEffect [] (EffTail_Open v)) e.

(** ** Binding a variable *)

(** [stronger_constraint] *)
Definition stronger_constraint (existing : option Constraint) (new : Constraint) : Constraint :=
  match existing, new with
  | None, c => c
  | Some Numeric, _ | _, Numeric => Numeric
  | Some Constraint_Ord, _ | _, Constraint_Ord => Constraint_Ord
  | Some Constraint_Eq, Constraint_Eq => Constraint_Eq
  end.

(** [merge_constraint] *)
Definition merge_constraint (v : nat) (c : Constraint) : CX () :=
  x ← asks (fun s => index (vars s) v);
  match x with
  | Var_Free existing level =>
      modify (fun s => set_vars (<[v := Var_Free (Some (stronger_constraint existing c)) level]> (vars s)) s)
  | Var_Bound _ => mret ()
  end.

(** [is_comparable] *)
Fixpoint is_comparable (fuel : nat) (s : InferCtx) (ty : SolveTy) : run bool :=
  match fuel with
  | 0 => Exhausted
  | S fuel =>
      ty ← resolve_shallow fuel s ty;
      match ty with
      | S_Arrow _ _ _ | S_Interface _ | S_EffectArg _ => mret false
      | S_Var _ | S_Error | S_Con _ | S_Adt _ | S_Unit => mret true
      | S_App f a => b ← is_comparable fuel s f; if b : bool then is_comparable fuel s a else mret false
      | S_Tuple elems => forall_run (is_comparable fuel s) elems
      | S_Record fields tail =>
          row ← expand_row fuel s (MkSolveRow fields tail);
          forall_run (fun f => is_comparable fuel s f.2) (row_fields row)
      end
  end.

(** [satisfies] *)
Definition satisfies (fuel : nat) (s : InferCtx) (c : Constraint) (ty : SolveTy) : run bool :=
  ty ← resolve_shallow fuel s ty;
  match c with
  | Numeric =>
      mret (match ty with S_Var _ | S_Error | S_Con Con_Int | S_Con Con_Float => true | _ => false end)
  | Constraint_Ord | Constraint_Eq => is_comparable fuel s ty
  end.

Section AnyOccurs.
Context {A : Type} (f : A -> gset nat -> CX (bool * gset nat)).
Fixpoint any_occurs (xs : list A) (visited : gset nat) : CX (bool * gset nat) :=
  match xs with
  | [] => mret (false, visited)
  | x :: xs => out ← f x visited; if out.1 : bool then mret out else any_occurs xs out.2
  end.
End AnyOccurs.

(** [occurs_and_lower], with the set of visited variables passed along. *)
Fixpoint occurs_and_lower (fuel target lower_to : nat) (ty : SolveTy) (visited : gset nat)
    : CX (bool * gset nat) :=
  match fuel with
  | 0 => fun _ => Exhausted
  | S fuel =>
      match ty with
      | S_Var v0 =>
          r ← asks (fun s => repr fuel s v0);
          match r with
          | Repr_Free v => _ ← lower_level v lower_to; mret (bool_decide (v = target), visited)
          | Repr_Bound v t =>
              if decide (v = target) then mret (true, visited)
              else if decide (v ∈ visited) then mret (false, visited)
              else occurs_and_lower fuel target lower_to t ({[v]} ∪ visited)
          end
      | S_App f a | S_Arrow f a _ => any_occurs (occurs_and_lower fuel target lower_to) [f; a] visited
      | S_Tuple elems => any_occurs (occurs_and_lower fuel target lower_to) elems visited
      | S_Record fields tail =>
          row ← asks (fun s => expand_row fuel s (MkSolveRow fields tail));
          any_occurs (fun f => occurs_and_lower fuel target lower_to f.2) (row_fields row) visited
      | S_Con _ | S_Adt _ | S_Interface _ | S_EffectArg _ | S_Unit | S_Error => mret (false, visited)
      end
  end.

(** [bind]: the constraint's part, and the whole. *)
Definition carry_constraint (fuel id : nat) (ty : SolveTy) : CX UnifyResult :=
  c ← asks (fun s => constraint_of s id);
  match c with
  | None => mret U_Ok
  | Some c =>
      t ← asks (fun s => resolve_shallow fuel s ty);
      match t with
      | S_Var other => if decide (other = id) then mret U_Ok else _ ← merge_constraint other c; mret U_Ok
      | _ =>
          ok ← asks (fun s => satisfies fuel s c t);
          mret (if ok : bool then U_Ok else BadConstraint)
      end
  end.

Definition bind_var (fuel id : nat) (ty : SolveTy) : CX UnifyResult :=
  lower_to ← asks (fun s => level_of s id);
  out ← occurs_and_lower fuel id lower_to ty ∅;
  if out.1 : bool then mret Occurs
  else
    r ← carry_constraint fuel id ty;
    match r with
    | U_Ok => _ ← modify (fun s => set_vars (<[id := Var_Bound ty]> (vars s)) s); mret U_Ok
    | _ => mret r
    end.

(** ** Unification *)

(** The fields both rows have, with their two types. *)
Definition common_fields (r1 r2 : SolveRow) : list (SolveTy * SolveTy) :=
  omap (fun f => t2 ← field_of (row_fields r2) f.1; Some (f.2, t2)) (row_fields r1).

(** [unify_rows], over the unification of types. *)
Definition unify_rows (fuel : nat) (unify : SolveTy -> SolveTy -> CX UnifyResult) (r1 r2 : SolveRow)
    : CX UnifyResult :=
  r1 ← asks (fun s => expand_row fuel s r1);
  r2 ← asks (fun s => expand_row fuel s r2);
  r ← all_ok (fun p => unify p.1 p.2) (common_fields r1 r2);
  match r with U_Ok => reconcile_row_tails r1 r2 | _ => mret r end.

(** [unify] *)
Fixpoint unify (fuel : nat) (a b : SolveTy) : CX UnifyResult :=
  match fuel with
  | 0 => fun _ => Exhausted
  | S fuel =>
      a ← resolve_compress fuel a;
      b ← resolve_compress fuel b;
      match a, b with
      | S_Error, _ | _, S_Error => mret U_Ok
      | S_Var x, S_Var y => if decide (x = y) then mret U_Ok else bind_var fuel x b
      | S_Var x, _ => bind_var fuel x b
      | _, S_Var y => bind_var fuel y a
      | S_Con x, S_Con y => mret (if decide (x = y) then U_Ok else Mismatch)
      | S_Adt x, S_Adt y => mret (if decide (x = y) then U_Ok else Mismatch)
      | S_Interface x, S_Interface y => mret (if decide (x = y) then U_Ok else Mismatch)
      | S_EffectArg e1, S_EffectArg e2 => unify_effects fuel e1 e2
      | S_Unit, S_Unit => mret U_Ok
      | S_App f1 a1, S_App f2 a2 =>
          r ← unify fuel f1 f2;
          match r with U_Ok => unify fuel a1 a2 | _ => mret r end
      | S_Arrow f1 t1 e1, S_Arrow f2 t2 e2 =>
          r ← unify fuel f1 f2;
          match r with
          | U_Ok =>
              r ← unify fuel t1 t2;
              match r with U_Ok => unify_effects fuel e1 e2 | _ => mret r end
          | _ => mret r
          end
      | S_Tuple xs, S_Tuple ys =>
          if decide (length xs = length ys)
          then all_ok (fun p => unify fuel p.1 p.2) (zip xs ys)
          else mret Mismatch
      | S_Record fs1 t1, S_Record fs2 t2 =>
          unify_rows fuel (unify fuel) (MkSolveRow fs1 t1) (MkSolveRow fs2 t2)
      | _, _ => mret Mismatch
      end
  end.
