(* ===== verification/InferOps.v ===== *)
(** * Operations of the inference solver

    The rest of fai-types' [infer/ctx.rs]: union and subsumption of effects, subsumption of
    types, the closing of residual effects, free variables, defaulting, reification and the
    instantiation of schemes.  A [HashSet] of variables is a finite set; where its iteration
    order could be seen it is not, since the loop's steps commute. *)

From S2P Require Import Prelude Types Ordered Infer.
From stdpp Require Import gmap list strings.
From Stdlib Require Import ZArith Lia.

(** ** Effects *)

(** [union_effects] *)
Definition union_effects (fuel : nat) (a b : SolveEffect) : CX SolveEffect :=
  a ← asks (fun s => expand_effect fuel s a);
  b ← asks (fun s => expand_effect fuel s b);
  let atoms := dedup_atoms (eff_atoms a ++ eff_atoms b) in
  tail ← match effect_tail a, effect_tail b with
         | EffTail_Closed, t | t, EffTail_Closed => mret t
         | EffTail_Open v1, EffTail_Open v2 =>
             if decide (v1 = v2) then mret (EffTail_Open v1)
             else
               tail ← fresh_effect;
               _ ← bind_effect fuel v1 (MkSolveEffect [] (EffTail_Open tail));
               _ ← bind_effect fuel v2 (MkSolveEffect [] (EffTail_Open tail));
               mret (EffTail_Open tail)
         end;
  mret (MkSolveEffect atoms tail).

(** [subsume_effects] *)
Definition subsume_effects (fuel : nat) (sub sup : SolveEffect) : CX UnifyResult :=
  sub ← asks (fun s => expand_effect fuel s sub);
  sup ← asks (fun s => expand_effect fuel s sup);
  match effect_tail sub with
  | EffTail_Open _ => unify_effects fuel sub sup
  | EffTail_Closed =>
      let missing := atoms_only (eff_atoms sub) (eff_atoms sup) in
      if decide (missing = []) then mret U_Ok
      else
        match effect_tail sup with
        | EffTail_Open v =>
            tail ← fresh_effect; bind_effect fuel v (MkSolveEffect missing (EffTail_Open tail))
        | EffTail_Closed => mret Mismatch
        end
  end.

(** [subsume_effects_dir] *)
Definition subsume_effects_dir (fuel : nat) (e_sub e_sup : SolveEffect) (pos : bool) : CX UnifyResult :=
  if pos then subsume_effects fuel e_sub e_sup else subsume_effects fuel e_sup e_sub.

(** [worst] *)
Definition worst (a b : UnifyResult) : UnifyResult := match a with U_Ok => b | _ => a end.

(** ** Subsumption of types *)

Section WorstOf.
Context {A : Type} (f : A -> CX UnifyResult).
Fixpoint worst_of (xs : list A) (r : UnifyResult) : CX UnifyResult :=
  match xs with
  | [] => mret r
  | x :: xs => r' ← f x; worst_of xs (worst r r')
  end.
End WorstOf.

(** [subsume_rows], over the subsumption of types. *)
Definition subsume_rows (fuel : nat) (subsume : SolveTy -> SolveTy -> CX UnifyResult) (r1 r2 : SolveRow)
    : CX UnifyResult := unify_rows fuel subsume r1 r2.

(** [subsume_types] *)
Fixpoint subsume_types (fuel : nat) (sub sup : SolveTy) (pos : bool) : CX UnifyResult :=
  match fuel with
  | 0 => fun _ => Exhausted
  | S fuel =>
      sub ← asks (fun s => resolve_shallow fuel s sub);
      sup ← asks (fun s => resolve_shallow fuel s sup);
      match sub, sup with
      | S_Var _, _ | _, S_Var _ => unify fuel sub sup
      | S_Arrow a1 b1 e1, S_Arrow a2 b2 e2 =>
          ra ← subsume_types fuel a1 a2 (negb pos);
          rb ← subsume_types fuel b1 b2 pos;
          re ← subsume_effects_dir fuel e1 e2 pos;
          mret (worst (worst ra rb) re)
      | S_Tuple xs, S_Tuple ys =>
          if decide (length xs = length ys)
          then worst_of (fun p => subsume_types fuel p.1 p.2 pos) (zip xs ys) U_Ok
          else unify fuel sub sup
      | S_Record fs1 t1, S_Record fs2 t2 =>
          subsume_rows fuel (fun t1 t2 => subsume_types fuel t1 t2 pos) (MkSolveRow fs1 t1) (MkSolveRow fs2 t2)
      | S_EffectArg e1, S_EffectArg e2 => subsume_effects_dir fuel e1 e2 pos
      | S_App f1 a1, S_App f2 a2 =>
          rf ← subsume_types fuel f1 f2 pos;
          f ← asks (fun s => resolve_shallow fuel s f1);
          covariant ←
            match f with
            | S_Con Con_List => mret true
            | _ =>
                a ← asks (fun s => resolve_shallow fuel s a1);
                mret (match a with S_EffectArg _ => true | _ => false end)
            end;
          ra ← (if covariant : bool then subsume_types fuel a1 a2 pos else unify fuel a1 a2);
          mret (worst rf ra)
      | _, _ => unify fuel sub sup
      end
  end.

(** [subsume_signature] *)
Fixpoint subsume_signature (fuel : nat) (inferred declared : SolveTy) (diagnosed_arrow : option nat)
    : CX UnifyResult :=
  match fuel with
  | 0 => fun _ => Exhausted
  | S fuel =>
      match diagnosed_arrow with
      | None | Some 0 => subsume_types fuel inferred declared true
      | Some (S depth) =>
          i ← asks (fun s => resolve_shallow fuel s inferred);
          d ← asks (fun s => resolve_shallow fuel s declared);
          match i, d with
          | S_Arrow a1 b1 e1, S_Arrow a2 b2 e2 =>
              params ← subsume_types fuel a1 a2 false;
              result ← subsume_signature fuel b1 b2 (Some depth);
              effect ← (if depth =? 0 then mret U_Ok else subsume_effects fuel e1 e2);
              mret (worst (worst params result) effect)
          | _, _ => subsume_types fuel inferred declared true
          end
      end
  end.

(** ** Residual effects *)

(** [effect_open_tail] *)
Definition effect_open_tail (fuel : nat) (s : InferCtx) (e : SolveEffect) : run (option nat) :=
  e ← expand_effect fuel s e;
  mret (match effect_tail e with EffTail_Open v => Some v | EffTail_Closed => None end).

(** [close_effect_var] *)
Definition close_effect_var (v : nat) : CX () :=
  x ← asks (fun s => index (effects s) v);
  match x with
  | Eff_Free => modify (fun s => set_effects (<[v := Eff_Bound pure_effect]> (effects s)) (effect_origins s) s)
  | Eff_Bound _ => mret ()
  end.

(** [effect_checkpoint] *)
Definition effect_checkpoint (s : InferCtx) : nat := length (effects s).

Section Collect.
Context {A B : Type} (f : A -> B -> run B).
Fixpoint fold_run (xs : list A) (out : B) : run B :=
  match xs with
  | [] => mret out
  | x :: xs => out ← f x out; fold_run xs out
  end.
End Collect.

(** [if let EffTail::Open(v) = self.expand_effect(e).tail { out.insert(v) }] *)
Definition collect_tail (fuel : nat) (s : InferCtx) (e : SolveEffect) (out : gset nat) : run (gset nat) :=
  tail ← effect_open_tail fuel s e;
  mret (match tail with Some v => {[v]} ∪ out | None => out end).

(** [collect_effect_vars] *)
Fixpoint collect_effect_vars (fuel : nat) (s : InferCtx) (ty : SolveTy) (out : gset nat) : run (gset nat) :=
  match fuel with
  | 0 => Exhausted
  | S fuel =>
      ty ← resolve_shallow fuel s ty;
      match ty with
      | S_Arrow from to e =>
          out ← collect_tail fuel s e out;
          out ← collect_effect_vars fuel s from out;
          collect_effect_vars fuel s to out
      | S_App f a => out ← collect_effect_vars fuel s f out; collect_effect_vars fuel s a out
      | S_Tuple elems => fold_run (collect_effect_vars fuel s) elems out
      | S_Record fields tail =>
          row ← expand_row fuel s (MkSolveRow fields tail);
          fold_run (fun f => collect_effect_vars fuel s f.2) (row_fields row) out
      | S_EffectArg e => collect_tail fuel s e out
      | _ => mret out
      end
  end.

(** [pending_parameter_effects] *)
Fixpoint pending_parameter_effects (fuel : nat) (s : InferCtx) (ty : SolveTy) (out : gset nat)
    : run (gset nat) :=
  match fuel with
  | 0 => Exhausted
  | S fuel =>
      ty ← resolve_shallow fuel s ty;
      match ty with
      | S_Arrow from to _ =>
          out ← collect_effect_vars fuel s from out; pending_parameter_effects fuel s to out
      | S_App f a =>
          out ← pending_parameter_effects fuel s f out; pending_parameter_effects fuel s a out
      | S_Tuple elems => fold_run (pending_parameter_effects fuel s) elems out
      | S_Record fields tail =>
          row ← expand_row fuel s (MkSolveRow fields tail);
          fold_run (fun f => pending_parameter_effects fuel s f.2) (row_fields row) out
      | _ => mret out
      end
  end.

(** [close_application_effects] *)
Definition close_application_effects (fuel since : nat) (params args : list SolveTy) (res : SolveTy)
    : CX () :=
  keep ← asks (fun s =>
    keep ← fold_run (collect_effect_vars fuel s) args ∅; pending_parameter_effects fuel s res keep);
  candidates ← asks (fun s => fold_run (collect_effect_vars fuel s) params ∅);
  for_each (fun v =>
    origin ← asks (fun s => index (effect_origins s) v);
    if (since <=? origin) && negb (bool_decide (v ∈ (keep : gset nat))) then close_effect_var v else mret ())
    (elements (candidates : gset nat)).

(** [contravariant_effect_vars] *)
Fixpoint contravariant_effect_vars (fuel : nat) (s : InferCtx) (ty : SolveTy) (out : gset nat)
    : run (gset nat) :=
  match fuel with
  | 0 => Exhausted
  | S fuel =>
      ty ← resolve_shallow fuel s ty;
      match ty with
      | S_Arrow from to _ =>
          out ← collect_effect_vars fuel s from out; contravariant_effect_vars fuel s to out
      | _ => mret out
      end
  end.

(** ** Free variables and defaults *)

(** [collect_free_vars], on the sets of found and visited variables. *)
Fixpoint collect_free_vars (fuel : nat) (s : InferCtx) (ty : SolveTy) (st : gset nat * gset nat)
    : run (gset nat * gset nat) :=
  match fuel with
  | 0 => Exhausted
  | S fuel =>
      match ty with
      | S_Var v0 =>
          r ← repr fuel s v0;
          match r with
          | Repr_Free v => mret ({[v]} ∪ st.1, st.2)
          | Repr_Bound v t =>
              if decide (v ∈ st.2) then mret st else collect_free_vars fuel s t (st.1, {[v]} ∪ st.2)
          end
      | S_App f a | S_Arrow f a _ => st ← collect_free_vars fuel s f st; collect_free_vars fuel s a st
      | S_Tuple elems => fold_run (collect_free_vars fuel s) elems st
      | S_Record fields _ => fold_run (fun f => collect_free_vars fuel s f.2) fields st
      | S_Con _ | S_Adt _ | S_Interface _ | S_EffectArg _ | S_Unit | S_Error => mret st
      end
  end.

(** [pending_constraint] *)
Definition pending_constraint (fuel : nat) (s : InferCtx) (ty : SolveTy) : run (option Constraint) :=
  ty ← resolve_shallow fuel s ty;
  match ty with S_Var v => constraint_of s v | _ => mret None end.

(** [default_numeric] *)
Definition default_numeric (fuel : nat) (ty : SolveTy) : CX bool :=
  t ← asks (fun s => resolve_shallow fuel s ty);
  match t with
  | S_Var v =>
      c ← asks (fun s => constraint_of s v);
      if decide (c = Some Numeric)
      then _ ← modify (fun s => set_vars (<[v := Var_Bound s_int]> (vars s)) s); mret true
      else mret false
  | _ => mret false
  end.

(** [default_numerics_deep] *)
Fixpoint default_numerics_deep (fuel : nat) (ty : SolveTy) : CX () :=
  match fuel with
  | 0 => fun _ => Exhausted
  | S fuel =>
      t ← asks (fun s => resolve_shallow fuel s ty);
      match t with
      | S_Var _ => _ ← default_numeric fuel ty; mret ()
      | S_App f a | S_Arrow f a _ => _ ← default_numerics_deep fuel f; default_numerics_deep fuel a
      | S_Tuple elems => for_each (default_numerics_deep fuel) elems
      | S_Record fields tail =>
          row ← asks (fun s => expand_row fuel s (MkSolveRow fields tail));
          for_each (fun f => default_numerics_deep fuel f.2) (row_fields row)
      | S_Con _ | S_Adt _ | S_Interface _ | S_EffectArg _ | S_Unit | S_Error => mret ()
      end
  end.

(** ** Reification *)

(** One numbering of [Renumber]: the numbers given, and the variables in the order they were met. *)
Record Numbering := MkNumbering { numbers : gmap nat nat; met : list nat }.
Definition no_numbers : Numbering := MkNumbering ∅ [].

(** [Renumber] *)
Record Renumber := MkRenumber { re_types : Numbering; re_rows : Numbering; re_effects : Numbering }.
Definition no_renumber : Renumber := MkRenumber no_numbers no_numbers no_numbers.

(** [Renumber::map], [map_row] and [map_eff] *)
Definition number (v : nat) (n : Numbering) : run (nat * Numbering) :=
  match numbers n !! v with
  | Some m => mret (m, n)
  | None =>
      next ← next_id (length (met n));
      mret (next, MkNumbering (<[v := next]> (numbers n)) (met n ++ [next]))
  end.
Definition map_type (v : nat) (r : Renumber) : run (nat * Renumber) :=
  out ← number v (re_types r); mret (out.1, MkRenumber out.2 (re_rows r) (re_effects r)).
Definition map_row (v : nat) (r : Renumber) : run (nat * Renumber) :=
  out ← number v (re_rows r); mret (out.1, MkRenumber (re_types r) out.2 (re_effects r)).
Definition map_eff (v : nat) (r : Renumber) : run (nat * Renumber) :=
  out ← number v (re_effects r); mret (out.1, MkRenumber (re_types r) (re_rows r) out.2).

(** Consecutive repetitions collapse ([Vec::dedup]). *)
Fixpoint dedup_refs (xs : list InterfaceRef) : list InterfaceRef :=
  match xs with
  | [] => []
  | x :: xs' =>
      match xs' with
      | [] => [x]
      | y :: _ => if decide (x = y) then dedup_refs xs' else x :: dedup_refs xs'
      end
  end.

(** The orders of atoms and fields, by the text of their names. *)
Definition atom_le (a b : InterfaceRef) : Prop := label_le (if_name a) (if_name b).
#[export] Instance atom_le_dec : RelDecision atom_le.
Proof. intros a b. unfold atom_le. apply _. Defined.
Definition field_le (a b : string * Ty) : Prop := label_le a.1 b.1.
#[export] Instance field_le_dec : RelDecision field_le.
Proof. intros a b. unfold field_le. apply _. Defined.

(** [reify_effect] *)
Definition reify_effect (fuel : nat) (s : InferCtx) (e : SolveEffect) (r : Renumber)
    : run (EffectRow * Renumber) :=
  e ← expand_effect fuel s e;
  let labels := dedup_refs (sort_by atom_le (eff_atoms e)) in
  match effect_tail e with
  | EffTail_Closed => mret (MkEffectRow labels Eff_Closed, r)
  | EffTail_Open v => out ← map_eff v r; mret (MkEffectRow labels (Eff_Open out.1), out.2)
  end.

Section MapRun.
Context {A B C : Type} (f : A -> C -> run (B * C)).
Fixpoint map_run (xs : list A) (c : C) : run (list B * C) :=
  match xs with
  | [] => mret ([], c)
  | x :: xs => y ← f x c; ys ← map_run xs y.2; mret (y.1 :: ys.1, ys.2)
  end.
End MapRun.

(** [reify_inner] *)
Fixpoint reify_inner (fuel : nat) (s : InferCtx) (ty : SolveTy) (r : Renumber) : run (Ty * Renumber) :=
  match fuel with
  | 0 => Exhausted
  | S fuel =>
      ty ← resolve_shallow fuel s ty;
      match ty with
      | S_Var id => out ← map_type id r; mret (Ty_Var out.1, out.2)
      | S_Con c => mret (Ty_Con c, r)
      | S_Adt adt => mret (Ty_Adt adt, r)
      | S_Interface i => mret (Ty_Interface i, r)
      | S_EffectArg e => out ← reify_effect fuel s e r; mret (Ty_EffectArg out.1, out.2)
      | S_Unit => mret (Ty_Unit, r)
      | S_Error => mret (Ty_Error, r)
      | S_App f a =>
          f ← reify_inner fuel s f r; a ← reify_inner fuel s a f.2; mret (Ty_App f.1 a.1, a.2)
      | S_Arrow f t e =>
          f ← reify_inner fuel s f r;
          t ← reify_inner fuel s t f.2;
          e ← reify_effect fuel s e t.2;
          mret (Ty_Arrow f.1 t.1 e.1, e.2)
      | S_Tuple elems => out ← map_run (reify_inner fuel s) elems r; mret (Ty_Tuple out.1, out.2)
      | S_Record fields tail =>
          row ← expand_row fuel s (MkSolveRow fields tail);
          out ← map_run (fun (f : string * SolveTy) r =>
            out ← reify_inner fuel s f.2 r; mret ((f.1, out.1), out.2)) (row_fields row) r;
          let fields := sort_by field_le out.1 in
          match row_tail row with
          | Tail_Closed => mret (Ty_Record fields Row_Closed, out.2)
          | Tail_Open v => tail ← map_row v out.2; mret (Ty_Record fields (Row_Open tail.1), tail.2)
          end
      end
  end.

(** [reify], [reify_with_vars], [reify_many] and [reify_effect_standalone] *)
Definition reify (fuel : nat) (s : InferCtx) (ty : SolveTy) : run Ty :=
  out ← reify_inner fuel s ty no_renumber; mret out.1.
Definition reify_with_vars (fuel : nat) (s : InferCtx) (ty : SolveTy)
    : run (Ty * list nat * list nat * list nat) :=
  out ← reify_inner fuel s ty no_renumber;
  mret (out.1, met (re_types out.2), met (re_rows out.2), met (re_effects out.2)).
Definition reify_many (fuel : nat) (s : InferCtx) (tys : list SolveTy) : run (list Ty) :=
  out ← map_run (reify_inner fuel s) tys no_renumber; mret out.1.
Definition reify_effect_standalone (fuel : nat) (s : InferCtx) (e : SolveEffect) : run EffectRow :=
  out ← reify_effect fuel s e no_renumber; mret out.1.

(** ** Instantiation *)

(** [InstMap] *)
Record InstMap := MkInstMap {
  inst_types : gmap nat nat; inst_rows : gmap nat nat; inst_effects : gmap nat nat }.
Definition no_inst : InstMap := MkInstMap ∅ ∅ ∅.

(** [instantiate_effect] *)
Definition instantiate_effect (e : EffectRow) (m : InstMap) : CX (SolveEffect * InstMap) :=
  match eff_tail e with
  | Eff_Closed => mret (MkSolveEffect (eff_labels e) EffTail_Closed, m)
  | Eff_Open v =>
      match inst_effects m !! v with
      | Some f => mret (MkSolveEffect (eff_labels e) (EffTail_Open f), m)
      | None =>
          f ← fresh_effect;
          mret (MkSolveEffect (eff_labels e) (EffTail_Open f),
            MkInstMap (inst_types m) (inst_rows m) (<[v := f]> (inst_effects m)))
      end
  end.

Section MapCx.
Context {A B C : Type} (f : A -> C -> CX (B * C)).
Fixpoint map_cx (xs : list A) (c : C) : CX (list B * C) :=
  match xs with
  | [] => mret ([], c)
  | x :: xs => y ← f x c; ys ← map_cx xs y.2; mret (y.1 :: ys.1, ys.2)
  end.
End MapCx.

(** [instantiate_solve] *)
Fixpoint instantiate_solve (ty : Ty) (m : InstMap) : CX (SolveTy * InstMap) :=
  match ty with
  | Ty_Var v => mret (S_Var (default v (inst_types m !! v)), m)
  | Ty_Con c => mret (S_Con c, m)
  | Ty_Adt adt => mret (S_Adt adt, m)
  | Ty_Interface i => mret (S_Interface i, m)
  | Ty_EffectArg e => out ← instantiate_effect e m; mret (S_EffectArg out.1, out.2)
  | Ty_Unit => mret (S_Unit, m)
  | Ty_Error => mret (S_Error, m)
  | Ty_App f a =>
      f ← instantiate_solve f m; a ← instantiate_solve a f.2; mret (S_App f.1 a.1, a.2)
  | Ty_Arrow f t e =>
      f ← instantiate_solve f m;
      t ← instantiate_solve t f.2;
      e ← instantiate_effect e t.2;
      mret (S_Arrow f.1 t.1 e.1, e.2)
  | Ty_Tuple elems => out ← map_cx instantiate_solve elems m; mret (S_Tuple out.1, out.2)
  | Ty_Record fields tail =>
      out ← map_cx (fun f m => t ← instantiate_solve f.2 m; mret ((f.1, t.1), t.2)) fields m;
      match tail with
      | Row_Closed => mret (S_Record out.1 Tail_Closed, out.2)
      | Row_Open v =>
          match inst_rows out.2 !! v with
          | Some f => mret (S_Record out.1 (Tail_Open f), out.2)
          | None =>
              f ← fresh_row fields.*1;
              mret (S_Record out.1 (Tail_Open f),
                MkInstMap (inst_types out.2) (<[v := f]> (inst_rows out.2)) (inst_effects out.2))
          end
      end
  end.

(** [fresh_var_id] *)
Definition fresh_var_id : CX nat :=
  ty ← fresh_ty; match ty with S_Var id => mret id | _ => cx_panic end.

(** A fresh variable for each quantified one, and the map with them. *)
Definition fresh_types (vs : list nat) (m : InstMap) : CX (list nat * InstMap) :=
  map_cx (fun v m =>
    id ← fresh_var_id;
    mret (id, MkInstMap (<[v := id]> (inst_types m)) (inst_rows m) (inst_effects m))) vs m.
Definition fresh_effects (vs : list nat) (m : InstMap) : CX (list nat * InstMap) :=
  map_cx (fun v m =>
    id ← fresh_effect;
    mret (id, MkInstMap (inst_types m) (inst_rows m) (<[v := id]> (inst_effects m)))) vs m.

(** [instantiate_tracked] and [instantiate] *)
Definition instantiate_tracked (scheme : Scheme) : CX (SolveTy * list nat * list nat * list nat) :=
  vs ← fresh_types (sch_vars scheme) no_inst;
  solved ← instantiate_solve (sch_ty scheme) vs.2;
  mret (solved.1, vs.1, omap (fun v => inst_rows solved.2 !! v) (sch_row_vars scheme),
    omap (fun v => inst_effects solved.2 !! v) (sch_effect_vars scheme)).
Definition instantiate (scheme : Scheme) : CX SolveTy :=
  out ← instantiate_tracked scheme; mret out.1.1.1.

(** [instantiate_method] *)
Definition instantiate_method (scheme : Scheme) : CX (SolveTy * list nat * list nat) :=
  vs ← fresh_types (sch_vars scheme) no_inst;
  es ← fresh_effects (sch_effect_vars scheme) vs.2;
  solved ← instantiate_solve (sch_ty scheme) es.2;
  mret (solved.1, vs.1, es.1).

(** [instantiate_sharing]: the leading variables are given. *)
Definition share_types (vs type_prefix : list nat) (m : InstMap) : CX (list nat * InstMap) :=
  map_cx (fun (p : nat * nat) m =>
    id ← match type_prefix !! p.1 with Some id => mret id | None => fresh_var_id end;
    mret (id, MkInstMap (<[p.2 := id]> (inst_types m)) (inst_rows m) (inst_effects m)))
    (imap (fun i v => (i, v)) vs) m.
Definition instantiate_sharing (scheme : Scheme) (type_prefix eff_prefix : list nat) : CX SolveTy :=
  vs ← share_types (sch_vars scheme) type_prefix no_inst;
  let m := vs.2 in
  let effs := foldl (fun effs (p : nat * nat) => <[p.1 := p.2]> effs) (inst_effects m)
    (zip (sch_effect_vars scheme) eff_prefix) in
  solved ← instantiate_solve (sch_ty scheme) (MkInstMap (inst_types m) (inst_rows m) effs);
  mret solved.1.

(** ** Generality of a signature *)

(** [rows_gained_no_fields] *)
Definition rows_gained_no_fields (fuel : nat) (s : InferCtx) (rs : list nat) : run bool :=
  forall_run (fun v =>
    row ← expand_row fuel s (MkSolveRow [] (Tail_Open v));
    mret (bool_decide ((row_fields row).*1 = []))) rs.

(** [effects_remain_general] and [all_distinct_free]: the representatives met so far are kept. *)
Fixpoint effects_general_from (fuel : nat) (s : InferCtx) (es : list nat) (seen : gset nat) : run bool :=
  match es with
  | [] => mret true
  | v :: es =>
      e ← expand_effect fuel s (MkSolveEffect [] (EffTail_Open v));
      match eff_atoms e, effect_tail e with
      | [], EffTail_Open tail =>
          if decide (tail ∈ seen) then mret false else effects_general_from fuel s es ({[tail]} ∪ seen)
      | _, _ => mret false
      end
  end.
Definition effects_remain_general (fuel : nat) (s : InferCtx) (es : list nat) : run bool :=
  effects_general_from fuel s es ∅.

Fixpoint distinct_free_from (fuel : nat) (s : InferCtx) (vs : list nat) (seen : gset nat) : run bool :=
  match vs with
  | [] => mret true
  | v :: vs =>
      ty ← resolve_shallow fuel s (S_Var v);
      match ty with
      | S_Var r => if decide (r ∈ seen) then mret false else distinct_free_from fuel s vs ({[r]} ∪ seen)
      | _ => mret false
      end
  end.
Definition all_distinct_free (fuel : nat) (s : InferCtx) (vs : list nat) : run bool :=
  distinct_free_from fuel s vs ∅.

(** The unifier on fresh variables: an equation, an infinite type, a constraint violated. *)
Definition run_cx {A} (m : CX A) : run A := out ← m new_ctx; mret out.1.

Example unify_binds : run_cx (a ← fresh_ty; r ← unify 5 a s_int; t ← asks (fun s => resolve_shallow 5 s a); mret (r, t))
  = Done (U_Ok, s_int).
Proof. reflexivity. Qed.
Example unify_occurs : run_cx (a ← fresh_ty; unify 5 a (s_arrow a s_int)) = Done Occurs.
Proof. reflexivity. Qed.
Example unify_constraint : run_cx (a ← fresh_constrained (Some Numeric); unify 5 a s_bool) = Done BadConstraint.
Proof. reflexivity. Qed.

(** A Numeric variable defaults to [Int] and is read back so. *)
Example numeric_defaults :
  run_cx (n ← fresh_constrained (Some Numeric); d ← default_numeric 3 n; t ← asks (fun s => reify 5 s n); mret (d, t))
  = Done (true, ty_int).
Proof. reflexivity. Qed.
