(* ===== verification/InferSem.v ===== *)
(** * What the solver's state means

    The types without variables, the assignments that make every binding of a context an
    equation, and the well-formed contexts: acyclic, with closed records of distinct labels. *)

From S2P Require Import Prelude Types Infer.
From stdpp Require Import gmap list strings relations.
From Stdlib Require Import ZArith Lia.

(** ** Induction on solver types *)

Section SolveTyInd.
Context (P : SolveTy -> Prop)
  (Hvar : forall v, P (S_Var v)) (Hcon : forall c, P (S_Con c)) (Hadt : forall a, P (S_Adt a))
  (Hif : forall i, P (S_Interface i)) (Heff : forall e, P (S_EffectArg e))
  (Happ : forall f a, P f -> P a -> P (S_App f a))
  (Harr : forall f t e, P f -> P t -> P (S_Arrow f t e))
  (Htup : forall ts, Forall P ts -> P (S_Tuple ts))
  (Hrec : forall fs tl, Forall (fun f => P f.2) fs -> P (S_Record fs tl))
  (Hunit : P S_Unit) (Herr : P S_Error).

Fixpoint SolveTy_nested_ind (t : SolveTy) : P t :=
  match t with
  | S_Var v => Hvar v
  | S_Con c => Hcon c
  | S_Adt a => Hadt a
  | S_Interface i => Hif i
  | S_EffectArg e => Heff e
  | S_App f a => Happ f a (SolveTy_nested_ind f) (SolveTy_nested_ind a)
  | S_Arrow f t e => Harr f t e (SolveTy_nested_ind f) (SolveTy_nested_ind t)
  | S_Tuple ts =>
      Htup ts ((fix go ts : Forall P ts :=
                  match ts with
                  | [] => List.Forall_nil _
                  | t :: ts => List.Forall_cons _ t ts (SolveTy_nested_ind t) (go ts)
                  end) ts)
  | S_Record fs tl =>
      Hrec fs tl ((fix go fs : Forall (fun f => P f.2) fs :=
                     match fs with
                     | [] => List.Forall_nil _
                     | f :: fs => List.Forall_cons _ f fs (SolveTy_nested_ind f.2) (go fs)
                     end) fs)
  | S_Unit => Hunit
  | S_Error => Herr
  end.
End SolveTyInd.

(** The immediate parts of a type, and its variables. *)
Definition ty_children (t : SolveTy) : list SolveTy :=
  match t with
  | S_App f a | S_Arrow f a _ => [f; a]
  | S_Tuple ts => ts
  | S_Record fs _ => fs.*2
  | _ => []
  end.

Lemma SolveTy_children_ind (P : SolveTy -> Prop) :
  (forall t, Forall P (ty_children t) -> P t) -> forall t, P t.
Proof.
  intros H t. induction t using SolveTy_nested_ind; apply H; simpl; try done; repeat constructor; try done.
  by rewrite Forall_fmap.
Qed.

Fixpoint tvars (t : SolveTy) : list nat :=
  match t with
  | S_Var v => [v]
  | S_App f a | S_Arrow f a _ => tvars f ++ tvars a
  | S_Tuple ts => flat_map tvars ts
  | S_Record fs _ => flat_map (fun f => tvars f.2) fs
  | _ => []
  end.

Lemma elem_of_tvars v t : v ∈ tvars t ↔ t = S_Var v \/ exists c, c ∈ ty_children t /\ v ∈ tvars c.
Proof.
  destruct t; simpl; set_solver.
Qed.

(** ** Types without variables *)

(** An effect is the set of its atoms; a record is its fields in the order of a finite map. *)
Inductive Gty :=
| G_Con (c : Con)
| G_Adt (a : AdtRef)
| G_Interface (i : InterfaceRef)
| G_Effect (e : gset InterfaceRef)
| G_App (head arg : Gty)
| G_Arrow (from to : Gty) (e : gset InterfaceRef)
| G_Tuple (elems : list Gty)
| G_Record (fields : list (string * Gty))
| G_Unit
| G_Error.

Fixpoint g_size (g : Gty) : nat :=
  match g with
  | G_App f a | G_Arrow f a _ => S (g_size f + g_size a)
  | G_Tuple gs => S (list_sum (map g_size gs))
  | G_Record fs => S (list_sum (map (fun f => g_size f.2) fs))
  | _ => 1
  end.

(** An assignment of the type and the effect variables. *)
Record Assignment := MkAssignment { at_ty : nat -> Gty; at_eff : nat -> gset InterfaceRef }.

Section Ground.
(** [with_effects] is false where effects are unified separately ([ignore_effects]); then they
    count for nothing. *)
Context (with_effects : bool) (theta : Assignment).

Definition eff_at (e : SolveEffect) : gset InterfaceRef :=
  list_to_set (eff_atoms e)
  ∪ match effect_tail e with EffTail_Open v => at_eff theta v | EffTail_Closed => ∅ end.
Definition g_eff (e : SolveEffect) : gset InterfaceRef := if with_effects then eff_at e else ∅.

Fixpoint ground (t : SolveTy) : Gty :=
  match t with
  | S_Var v => at_ty theta v
  | S_Con c => G_Con c
  | S_Adt a => G_Adt a
  | S_Interface i => G_Interface i
  | S_EffectArg e => G_Effect (g_eff e)
  | S_App f a => G_App (ground f) (ground a)
  | S_Arrow f t e => G_Arrow (ground f) (ground t) (g_eff e)
  | S_Tuple ts => G_Tuple (map ground ts)
  | S_Record fs _ => G_Record (map_to_list (list_to_map (map (fun f => (f.1, ground f.2)) fs) : gmap string Gty))
  | S_Unit => G_Unit
  | S_Error => G_Error
  end.

(** Every binding of a context is an equation of the assignment. *)
Record models (s : InferCtx) : Prop := {
  mo_ty v t : vars s !! v = Some (Var_Bound t) -> at_ty theta v = ground t;
  mo_eff v e : effects s !! v = Some (Eff_Bound e) -> with_effects = true -> at_eff theta v = eff_at e }.
End Ground.

(** ** Well-formed types and contexts *)

Inductive plain_eff (ne : nat) : SolveEffect -> Prop :=
| Plain_Closed atoms : plain_eff ne (MkSolveEffect atoms EffTail_Closed)
| Plain_Open atoms v : v < ne -> plain_eff ne (MkSolveEffect atoms (EffTail_Open v)).

(** Variables are in range, there is no [Error], and records are closed. *)
Inductive plain (nv ne : nat) : SolveTy -> Prop :=
| Plain_Var v : v < nv -> plain nv ne (S_Var v)
| Plain_Con c : plain nv ne (S_Con c)
| Plain_Adt a : plain nv ne (S_Adt a)
| Plain_Interface i : plain nv ne (S_Interface i)
| Plain_EffectArg e : plain_eff ne e -> plain nv ne (S_EffectArg e)
| Plain_App f a : plain nv ne f -> plain nv ne a -> plain nv ne (S_App f a)
| Plain_Arrow f t e : plain nv ne f -> plain nv ne t -> plain_eff ne e -> plain nv ne (S_Arrow f t e)
| Plain_Tuple ts : Forall (plain nv ne) ts -> plain nv ne (S_Tuple ts)
| Plain_Record fs : NoDup fs.*1 -> Forall (plain nv ne) fs.*2 -> plain nv ne (S_Record fs Tail_Closed)
| Plain_Unit : plain nv ne S_Unit.

(** [w] occurs in what [v] is bound to, for types and for effects. *)
Definition link (s : InferCtx) (w v : nat) : Prop :=
  exists t, vars s !! v = Some (Var_Bound t) /\ w ∈ tvars t.
Definition eff_link (s : InferCtx) (w v : nat) : Prop :=
  exists atoms, effects s !! v = Some (Eff_Bound (MkSolveEffect atoms (EffTail_Open w))).

Definition is_free_var (x : VarState) : bool := match x with Var_Free _ _ => true | _ => false end.
Definition is_free_eff (x : EffState) : bool := match x with Eff_Free => true | _ => false end.
Definition free_vars (s : InferCtx) : nat := length (filter (fun x => is_free_var x = true) (vars s)).
Definition free_effects (s : InferCtx) : nat := length (filter (fun x => is_free_eff x = true) (effects s)).

Record wf (s : InferCtx) : Prop := {
  wf_bound v t : vars s !! v = Some (Var_Bound t) -> plain (length (vars s)) (length (effects s)) t;
  wf_acyclic v : Acc (link s) v;
  wf_eff_bound v e : effects s !! v = Some (Eff_Bound e) -> plain_eff (length (effects s)) e;
  wf_eff_acyclic v : Acc (eff_link s) v;
  wf_origins : length (effect_origins s) = length (effects s);
  wf_room : (Z.of_nat (length (effects s) + free_effects s) < 2 ^ 32)%Z }.

Definition plain_in (s : InferCtx) (t : SolveTy) : Prop := plain (length (vars s)) (length (effects s)) t.

Lemma plain_mono nv ne ne' t : ne <= ne' -> plain nv ne t -> plain nv ne' t.
Proof.
  intros Hne. induction t as [t IH] using SolveTy_children_ind. intros Hp.
  assert (forall e, plain_eff ne e -> plain_eff ne' e) as He by (intros e []; constructor; lia).
  inversion Hp; subst; simpl in IH; constructor; auto;
    try (repeat (apply Forall_cons in IH as [? IH]); naive_solver);
    (eapply Forall_impl; [apply Forall_and; split; [exact IH|eassumption]|naive_solver]).
Qed.

Lemma plain_children nv ne t : plain nv ne t -> Forall (plain nv ne) (ty_children t).
Proof. intros Hp. inversion Hp; subst; simpl; repeat constructor; done. Qed.

Lemma plain_tvars nv ne t v : plain nv ne t -> v ∈ tvars t -> v < nv.
Proof.
  induction t as [t IH] using SolveTy_children_ind. intros Hp [->|(c & Hc & Hv)]%elem_of_tvars.
  - by inversion Hp.
  - apply plain_children in Hp. rewrite list.Forall_forall in IH, Hp. eauto.
Qed.

(** ** The ground instance of a type *)

Lemma list_sum_elem (xs : list nat) x : x ∈ xs -> x <= list_sum xs.
Proof. induction xs as [|y xs IH]; [by intros ?%elem_of_nil|]. intros [->|Hx%IH]%elem_of_cons; simpl; lia. Qed.

Section GroundLemmas.
Context (k : bool) (theta : Assignment).

Abbreviation g := (ground k theta).

Lemma fst_ground_fields (fs : list (string * SolveTy)) : (map (fun f => (f.1, g f.2)) fs).*1 = fs.*1.
Proof. rewrite <- list_fmap_compose. by apply list_fmap_ext. Qed.

(** A field of a ground record. *)
Lemma elem_of_ground_fields (fs : list (string * SolveTy)) l x :
  NoDup fs.*1 ->
  (l, x) ∈ map_to_list (list_to_map (map (fun f => (f.1, g f.2)) fs) : gmap string Gty)
  ↔ exists t, (l, t) ∈ fs /\ x = g t.
Proof.
  intros Hnd. rewrite elem_of_map_to_list, <- elem_of_list_to_map by (by rewrite fst_ground_fields).
  rewrite list_elem_of_fmap. split.
  - intros ([l' t] & [= -> ->] & Ht). eauto.
  - intros (t & Ht & ->). by exists (l, t).
Qed.

Lemma ground_child nv ne t c : plain nv ne t -> c ∈ ty_children t -> g_size (g c) < g_size (g t).
Proof.
  intros Hp Hc. destruct Hp as [| | | | |f a| | ts Hts|fs Hnd Hfs|]; simpl in Hc |- *; try (by apply elem_of_nil in Hc).
  - set_unfold in Hc. destruct Hc as [->|[->|[]]]; lia.
  - set_unfold in Hc. destruct Hc as [->|[->|[]]]; lia.
  - apply Nat.lt_succ_r, list_sum_elem, list_elem_of_In, in_map, in_map, list_elem_of_In, Hc.
  - apply Nat.lt_succ_r, list_sum_elem. apply list_elem_of_fmap in Hc as ([l t] & -> & Ht).
    apply list_elem_of_fmap. exists (l, g t). split; [done|]. apply elem_of_ground_fields; eauto.
Qed.

(** A variable's value is no larger than the instance of a type it occurs in. *)
Lemma ground_tvars nv ne t v :
  plain nv ne t -> v ∈ tvars t -> g_size (at_ty theta v) <= g_size (g t).
Proof.
  induction t as [t IH] using SolveTy_children_ind. intros Hp [->|(c & Hc & Hv)]%elem_of_tvars; [done|].
  pose proof (ground_child _ _ _ _ Hp Hc). apply plain_children in Hp.
  rewrite list.Forall_forall in IH, Hp. specialize (IH c Hc (Hp c Hc) Hv). lia.
Qed.

Lemma ground_tvars_lt nv ne t v :
  plain nv ne t -> v ∈ tvars t -> t ≠ S_Var v -> g_size (at_ty theta v) < g_size (g t).
Proof.
  intros Hp [->|(c & Hc & Hv)]%elem_of_tvars Hne; [done|].
  pose proof (ground_child _ _ _ _ Hp Hc). apply plain_children in Hp.
  rewrite list.Forall_forall in Hp. pose proof (ground_tvars _ _ _ _ (Hp c Hc) Hv). lia.
Qed.
End GroundLemmas.

(** The instance depends on the variables of the type. *)
Lemma ground_ext k th1 th2 t :
  (forall v, v ∈ tvars t -> at_ty th1 v = at_ty th2 v) -> (k = true -> forall v, at_eff th1 v = at_eff th2 v) ->
  ground k th1 t = ground k th2 t.
Proof.
  intros Ht He.
  assert (forall e, g_eff k th1 e = g_eff k th2 e) as Heff.
  { intros [atoms []]; unfold g_eff, eff_at; simpl; [done|]. destruct k; [by rewrite He|done]. }
  induction t as [t IH] using SolveTy_children_ind.
  assert (forall c, c ∈ ty_children t -> ground k th1 c = ground k th2 c) as Hc.
  { intros c Hin. rewrite list.Forall_forall in IH. apply IH; [done|].
    intros v Hv. apply Ht, elem_of_tvars. right. eauto. }
  clear IH. destruct t; simpl in Hc |- *; try done.
  - apply Ht. left.
  - by rewrite Heff.
  - rewrite !Hc by set_solver +. done.
  - rewrite !Hc by set_solver +. by rewrite Heff.
  - f_equal. apply map_ext_in. intros c Hin. by apply Hc, list_elem_of_In.
  - do 3 f_equal. apply map_ext_in. intros f Hin. f_equal. apply Hc, list_elem_of_fmap.
    exists f. split; [done|by apply list_elem_of_In].
Qed.

(** ** Reachability *)

(** [w] is reached from [v] through bindings, and occurs below a type. *)
Definition reaches (s : InferCtx) : nat -> nat -> Prop := rtc (flip (link s)).
Definition below (s : InferCtx) (t : SolveTy) (w : nat) : Prop := exists u, u ∈ tvars t /\ reaches s u w.

Lemma reaches_bound s v t w :
  vars s !! v = Some (Var_Bound t) -> reaches s v w ↔ w = v \/ below s t w.
Proof.
  intros Hv. split.
  - inversion 1 as [|? u ? (t' & Ht' & Hu)]; subst; [by left|]. right. simplify_eq. by exists u.
  - intros [->|(u & Hu & Hr)]; [apply rtc_refl|]. eapply rtc_l; [|done]. by exists t.
Qed.

Lemma reaches_free s v c l w : vars s !! v = Some (Var_Free c l) -> reaches s v w -> w = v.
Proof. intros Hv Hr. inversion Hr as [|? u ? (t' & Ht' & Hu)]; subst; [done|congruence]. Qed.

Lemma below_children s t w :
  below s t w ↔ (exists v, t = S_Var v /\ reaches s v w) \/ exists c, c ∈ ty_children t /\ below s c w.
Proof.
  unfold below. setoid_rewrite elem_of_tvars at 1. split.
  - intros (u & [->|(c & Hc & Hu)] & Hr); [left; eauto|right; eauto].
  - intros [(v & -> & Hr)|(c & Hc & u & Hu & Hr)]; [exists v; eauto|exists u; eauto].
Qed.

Lemma below_var s v w : below s (S_Var v) w ↔ reaches s v w.
Proof. unfold below. simpl. set_solver. Qed.

(** Under a model values shrink along bindings. *)
Lemma models_reaches k theta s v w :
  wf s -> models k theta s -> reaches s v w -> g_size (at_ty theta w) <= g_size (at_ty theta v).
Proof.
  intros Hwf Hm Hr. induction Hr as [v|v u w (t & Ht & Hu) _ IH]; [done|].
  rewrite (mo_ty _ _ _ Hm _ _ Ht). etrans; [exact IH|]. eapply ground_tvars; [by eapply wf_bound|done].
Qed.

(** A variable is no instance of a larger type it occurs below. *)
Lemma occurs_no_model k theta s v t :
  wf s -> models k theta s -> plain_in s t -> below s t v -> (forall w, t ≠ S_Var w) ->
  at_ty theta v ≠ ground k theta t.
Proof.
  intros Hwf Hm Hp (u & Hu & Hr) Hnv Heq.
  pose proof (models_reaches _ _ _ _ _ Hwf Hm Hr) as Hle.
  pose proof (ground_tvars_lt k theta _ _ _ _ Hp Hu (Hnv u)) as Hlt. rewrite <- Heq in Hlt. lia.
Qed.

Lemma acyclic_not_below s v t : wf s -> vars s !! v = Some (Var_Bound t) -> ~ below s t v.
Proof.
  intros Hwf Hv (u & Hu & Hr). pose proof (wf_acyclic _ Hwf v) as Hacc.
  revert t u Hv Hu Hr. induction Hacc as [v _ IH]. intros t u Hv Hu Hr.
  assert (link s u v) as Hl by (by exists t).
  inversion Hr as [|? u' ? (t' & Ht' & Hu') Hr']; subst.
  - apply (IH v Hl _ _ Hv Hu), rtc_refl.
  - apply (IH u Hl _ _ Ht' Hu'). eapply rtc_r; [done|]. by exists t.
Qed.
