(* ===== verification/InferStep.v ===== *)
(** * The steps of the solver

    Unification changes a context by a few kinds of steps: it shortens a chain of links, lowers
    a level, strengthens a constraint, binds a variable to a type it does not occur in, and
    binds effect tails.  What all of them keep is kept by unification. *)

From S2P Require Import Prelude Types Infer InferSem.
From stdpp Require Import gmap list strings relations.
From Stdlib Require Import ZArith Lia.

(** ** Depth

    The nesting of a type once its bindings are followed: it bounds every walk. *)

Fixpoint unfolds (s : InferCtx) (n : nat) (t : SolveTy) : Prop :=
  match n with
  | 0 => False
  | S n =>
      match t with
      | S_Var v => match vars s !! v with Some (Var_Bound t) => unfolds s n t | _ => True end
      | _ => Forall (unfolds s n) (ty_children t)
      end
  end.

Lemma unfolds_mono s n m t : n <= m -> unfolds s n t -> unfolds s m t.
Proof.
  revert m t; induction n as [|n IH]; intros [|m] t Hle Hu; try lia; try done.
  assert (Forall (unfolds s n) (ty_children t) -> Forall (unfolds s m) (ty_children t)) as Hc.
  { intros H. eapply Forall_impl; [exact H|]. intros c. apply IH. lia. }
  destruct t; try by apply Hc. cbn [unfolds] in *.
  destruct (vars s !! v) as [[|t]|]; try done. apply (IH m); [lia|done].
Qed.

Lemma unfolds_children s n t c : unfolds s (S n) t -> c ∈ ty_children t -> unfolds s n c.
Proof.
  intros Hu Hc. destruct t; try by apply elem_of_nil in Hc.
  all: cbn [unfolds] in Hu; rewrite list.Forall_forall in Hu; by apply Hu.
Qed.

Lemma unfolds_all s (ts : list SolveTy) :
  Forall (fun t => exists n, unfolds s n t) ts -> exists n, Forall (unfolds s n) ts.
Proof.
  induction 1 as [|t ts (n & Hn) _ (m & Hm)]; [by exists 0|]. exists (max n m). constructor.
  - eapply unfolds_mono; [|done]. lia.
  - eapply Forall_impl; [exact Hm|]. intros c. apply unfolds_mono. lia.
Qed.

Lemma unfolds_vars s t :
  (forall v, v ∈ tvars t -> exists n, unfolds s n (S_Var v)) -> exists n, unfolds s n t.
Proof.
  induction t as [t IH] using SolveTy_children_ind. intros Hv.
  assert (Forall (fun t => exists n, unfolds s n t) (ty_children t)) as Hc.
  { apply list.Forall_forall. intros c Hc. rewrite list.Forall_forall in IH. apply IH; [done|].
    intros v Hin. apply Hv, elem_of_tvars. right. eauto. }
  apply unfolds_all in Hc as (n & Hn).
  destruct t; try (by exists (S n)). apply Hv. left.
Qed.

Lemma unfolds_exists s t : wf s -> exists n, unfolds s n t.
Proof.
  intros Hwf. apply unfolds_vars. intros v _. pose proof (wf_acyclic _ Hwf v) as Hacc.
  induction Hacc as [v _ IH]. destruct (vars s !! v) as [[c l|t']|] eqn:Hv.
  - exists 1. simpl. by rewrite Hv.
  - destruct (unfolds_vars s t') as (n & Hn); [intros u Hu; apply IH; by exists t'|].
    exists (S n). simpl. by rewrite Hv.
  - exists 1. simpl. by rewrite Hv.
Qed.

(** ** Steps *)

Definition linked (s : InferCtx) : nat -> nat -> Prop :=
  rtc (fun a b => vars s !! a = Some (Var_Bound (S_Var b))).

Inductive step (s : InferCtx) : InferCtx -> Prop :=
| Step_link v u w :
    vars s !! v = Some (Var_Bound (S_Var u)) -> linked s u w ->
    step s (set_vars (<[v := Var_Bound (S_Var w)]> (vars s)) s)
| Step_free v c l c' l' :
    vars s !! v = Some (Var_Free c l) -> l' <= l -> step s (set_vars (<[v := Var_Free c' l']> (vars s)) s)
| Step_bind v c l t :
    vars s !! v = Some (Var_Free c l) -> plain_in s t -> ~ below s t v ->
    (forall w c' l', below s t w -> vars s !! w = Some (Var_Free c' l') -> l' <= l) ->
    step s (set_vars (<[v := Var_Bound t]> (vars s)) s)
| Step_bind_eff v atoms origins :
    effects s !! v = Some Eff_Free -> length origins = length (effect_origins s) ->
    step s (set_effects (<[v := Eff_Bound (MkSolveEffect atoms EffTail_Closed)]> (effects s)) origins s)
| Step_merge_eff v1 v2 atoms1 atoms2 origins :
    effects s !! v1 = Some Eff_Free -> effects s !! v2 = Some Eff_Free -> v1 ≠ v2 ->
    length origins = S (length (effect_origins s)) ->
    let tail := EffTail_Open (length (effects s)) in
    step s (set_effects
      (<[v2 := Eff_Bound (MkSolveEffect atoms2 tail)]>
        (<[v1 := Eff_Bound (MkSolveEffect atoms1 tail)]> (effects s ++ [Eff_Free]))) origins s).

Abbreviation steps := (rtc step).

(** ** Counting *)

Lemma count_insert {A} (f : A -> bool) (xs : list A) i x y :
  xs !! i = Some y ->
  length (filter (fun x => f x = true) (<[i := x]> xs)) + (if f y then 1 else 0)
  = length (filter (fun x => f x = true) xs) + (if f x then 1 else 0).
Proof.
  intros Hi. rewrite <- (take_drop_middle xs i y Hi) at 2.
  rewrite insert_take_drop by (by eapply lookup_lt_Some).
  rewrite !filter_app, !length_app, !filter_cons. destruct (f x), (f y); simpl; lia.
Qed.

(** ** Rebinding a variable *)

Lemma acc_insert s v t :
  wf s -> ~ below s t v ->
  forall x, Acc (link (set_vars (<[v := Var_Bound t]> (vars s)) s)) x.
Proof.
  intros Hwf Hnb. set (s' := set_vars _ s).
  assert (forall w x, link s' w x -> (x ≠ v /\ link s w x) \/ (x = v /\ w ∈ tvars t)) as Hlink.
  { intros w x (t' & Ht' & Hw). simpl in Ht'. destruct (decide (x = v)) as [->|Hne].
    - right. split; [done|]. apply list_lookup_insert_Some in Ht' as [(_ & Ht' & _)|[? _]]; [by simplify_eq|done].
    - left. rewrite list_lookup_insert_ne in Ht' by done. split; [done|by exists t']. }
  assert (forall x, ~ reaches s x v -> Acc (link s') x) as Hold.
  { intros x. induction (wf_acyclic _ Hwf x) as [x _ IH]. intros Hx. constructor. intros w Hw.
    destruct (Hlink _ _ Hw) as [[_ Hl]|[-> _]]; [|by destruct Hx; apply rtc_refl].
    apply IH; [done|]. intros Hr. apply Hx. eapply rtc_l; [exact Hl|done]. }
  assert (Acc (link s') v) as Hv.
  { constructor. intros w Hw. destruct (Hlink _ _ Hw) as [[? _]|[_ Hin]]; [done|].
    apply Hold. intros Hr. apply Hnb. by exists w. }
  intros x. induction (wf_acyclic _ Hwf x) as [x _ IH].
  destruct (decide (x = v)) as [->|Hne]; [done|]. constructor. intros w Hw.
  destruct (Hlink _ _ Hw) as [[_ Hl]|[-> _]]; [by apply IH|done].
Qed.

Lemma plain_in_insert s v x t :
  plain_in (set_vars (<[v := x]> (vars s)) s) t ↔ plain_in s t.
Proof. unfold plain_in. simpl. by rewrite length_insert. Qed.

Lemma wf_insert_bound s v t :
  wf s -> plain_in s t -> ~ below s t v -> wf (set_vars (<[v := Var_Bound t]> (vars s)) s).
Proof.
  intros Hwf Hp Hnb. split; try apply Hwf; [|by apply acc_insert].
  intros x t' Hx. apply plain_in_insert. simpl in Hx.
  apply list_lookup_insert_Some in Hx as [(_ & Hx & _)|[_ Hx]]; [by simplify_eq|by eapply wf_bound].
Qed.

Lemma reaches_range s v w : wf s -> v < length (vars s) -> reaches s v w -> w < length (vars s).
Proof.
  intros Hwf Hv Hr. induction Hr as [|v u w (t & Ht & Hu) _ IH]; [done|].
  apply IH. eapply plain_tvars; [by eapply wf_bound|done].
Qed.

Lemma linked_reaches s v w : linked s v w -> reaches s v w.
Proof.
  induction 1 as [|v u w Hv _ IH]; [apply rtc_refl|]. eapply rtc_l; [|done].
  exists (S_Var u). split; [done|left].
Qed.

Lemma models_linked k theta s v w : models k theta s -> linked s v w -> at_ty theta v = at_ty theta w.
Proof.
  intros Hm. induction 1 as [|v u w Hv _ IH]; [done|]. by rewrite (mo_ty _ _ _ Hm _ _ Hv).
Qed.

(** ** Effects *)

Lemma acc_eff_insert s (es : list EffState) origins :
  (forall v, Acc (eff_link s) v) ->
  (forall v w atoms, es !! v = Some (Eff_Bound (MkSolveEffect atoms (EffTail_Open w))) ->
    effects s !! v = Some (Eff_Bound (MkSolveEffect atoms (EffTail_Open w)))
    \/ forall e, es !! w ≠ Some (Eff_Bound e)) ->
  forall v, Acc (eff_link (set_effects es origins s)) v.
Proof.
  intros Hacc Hes v. induction (Hacc v) as [v _ IH]. constructor. intros w (atoms & Hw). simpl in Hw.
  destruct (Hes _ _ _ Hw) as [Hold|Hfree].
  - apply IH. by exists atoms.
  - constructor. intros u (atoms' & Hu). by destruct (Hfree _ Hu).
Qed.

Lemma step_wf s s' : wf s -> step s s' -> wf s'.
Proof.
  intros Hwf Hs. destruct Hs as [v u w Hv Hl|v c l c' l' Hv Hle|v c l t Hv Hp Hnb _|v atoms os Hv Hos|v1 v2 a1 a2 os Hv1 Hv2 Hne Hos tail].
  - apply linked_reaches in Hl as Hr.
    pose proof (wf_bound _ Hwf _ _ Hv) as Hp. inversion Hp as [? Hu| | | | | | | | |]; subst.
    apply wf_insert_bound; [done|constructor; by eapply reaches_range|].
    intros Hb%below_var. apply (acyclic_not_below _ _ _ Hwf Hv). exists u. split; [left|by etrans].
  - split; try apply Hwf.
    + intros x t Hx. apply plain_in_insert. simpl in Hx.
      apply list_lookup_insert_Some in Hx as [(_ & Hx & _)|[_ Hx]]; [done|by eapply wf_bound].
    + intros x. induction (wf_acyclic _ Hwf x) as [x _ IH]. constructor. intros y (t & Ht & Hy).
      apply IH. exists t. split; [|done]. simpl in Ht.
      by apply list_lookup_insert_Some in Ht as [(_ & ? & _)|[_ ?]].
  - by apply wf_insert_bound.
  - pose proof (count_insert is_free_eff (effects s) v (Eff_Bound (MkSolveEffect atoms EffTail_Closed)) _ Hv) as Hc.
    simpl in Hc. pose proof (wf_room _ Hwf) as Hroom. pose proof (wf_origins _ Hwf) as Ho.
    unfold free_effects in Hroom. split; simpl; rewrite ?length_insert; try apply Hwf.
    + intros x e Hx. apply list_lookup_insert_Some in Hx as [(_ & Hx & _)|[_ Hx]].
      * simplify_eq. constructor.
      * by eapply wf_eff_bound.
    + apply acc_eff_insert; [apply Hwf|]. intros x w at' Hx. left.
      by apply list_lookup_insert_Some in Hx as [(_ & ? & _)|[_ ?]].
    + congruence.
    + unfold free_effects. simpl. lia.
  - pose proof (lookup_lt_Some _ _ _ Hv1) as Hl1. pose proof (lookup_lt_Some _ _ _ Hv2) as Hl2.
    pose proof (count_insert is_free_eff (effects s ++ [Eff_Free]) v1 (Eff_Bound (MkSolveEffect a1 tail)) Eff_Free
      ltac:(by rewrite lookup_app_l)) as Hc1.
    pose proof (count_insert is_free_eff (<[v1:=Eff_Bound (MkSolveEffect a1 tail)]> (effects s ++ [Eff_Free]))
      v2 (Eff_Bound (MkSolveEffect a2 tail)) Eff_Free
      ltac:(by rewrite list_lookup_insert_ne, lookup_app_l)) as Hc2.
    simpl in Hc1, Hc2. rewrite filter_app, length_app in Hc1. simpl in Hc1.
    pose proof (wf_room _ Hwf) as Hroom. pose proof (wf_origins _ Hwf) as Ho. unfold free_effects in Hroom.
    assert (forall x e, <[v2:=Eff_Bound (MkSolveEffect a2 tail)]> (<[v1:=Eff_Bound (MkSolveEffect a1 tail)]>
        (effects s ++ [Eff_Free])) !! x = Some (Eff_Bound e) ->
      effects s !! x = Some (Eff_Bound e) \/ effect_tail e = tail) as Hlook.
    { intros x e Hx. apply list_lookup_insert_Some in Hx as [(_ & Hx & _)|[_ Hx]]; [simplify_eq; by right|].
      apply list_lookup_insert_Some in Hx as [(_ & Hx & _)|[_ Hx]]; [simplify_eq; by right|].
      left. apply lookup_app_Some in Hx as [?|[_ Hx]]; [done|]. by apply list_lookup_singleton_Some in Hx as [_ ?]. }
    split; simpl; rewrite ?length_insert, ?length_app; simpl; try apply Hwf.
    + intros x t Hx. eapply plain_mono; [|by eapply wf_bound]. lia.
    + intros x e Hx. destruct (Hlook _ _ Hx) as [Hold|Htail].
      * destruct (wf_eff_bound _ Hwf _ _ Hold); constructor. lia.
      * destruct e as [? ?]. simpl in Htail. subst. unfold tail. constructor. lia.
    + apply acc_eff_insert; [apply Hwf|]. intros x w at' Hx.
      destruct (Hlook _ _ Hx) as [Hold|Htail]; [by left|]. right. simpl in Htail. injection Htail as ->.
      intros e. rewrite !list_lookup_insert_ne by lia. by rewrite list_lookup_middle.
    + lia.
    + unfold free_effects. simpl. lia.
Qed.

(** ** What a step keeps *)

Lemma step_ignore s s' : step s s' -> ignore_effects s' = ignore_effects s.
Proof. by intros []. Qed.

Lemma step_lengths s s' :
  step s s' -> length (vars s') = length (vars s) /\ length (effects s) <= length (effects s').
Proof. intros []; simpl; rewrite ?length_insert, ?length_app; simpl; lia. Qed.

Lemma step_plain s s' t : step s s' -> plain_in s t -> plain_in s' t.
Proof.
  intros Hs Hp. destruct (step_lengths _ _ Hs) as [Hv He]. unfold plain_in. rewrite Hv.
  by eapply plain_mono.
Qed.

(** A bound variable stays bound, to the same type unless it links. *)
Lemma step_models k theta s s' : wf s -> step s s' -> models k theta s' -> models k theta s.
Proof.
  intros Hwf Hs Hm.
  destruct Hs as [v u w Hv Hl|v c l c' l' Hv Hle|v c l t Hv Hp Hnb _|v atoms os Hv Hos|v1 v2 a1 a2 os Hv1 Hv2 Hne Hos tail].
  - destruct Hm as [Hty Heff]. split; [|done]. simpl in Hty. intros x t Hx.
    destruct (decide (x = v)) as [->|Hxv]; [|by apply Hty; rewrite list_lookup_insert_ne].
    simplify_eq. simpl. rewrite (Hty v (S_Var w)) by (apply list_lookup_insert_eq; by eapply lookup_lt_Some).
    simpl. symmetry. clear -Hwf Hv Hl Hty.
    assert (forall y, linked s y w -> reaches s u y -> at_ty theta y = at_ty theta w) as Hall.
    { intros y Hy. induction Hy as [|y z w' Hyz Hzw IH]; intros Hr; [done|].
      rewrite (Hty y (S_Var z)).
      - apply IH; [done|done|]. eapply rtc_r; [done|]. exists (S_Var z). split; [done|left].
      - rewrite list_lookup_insert_ne; [done|]. intros <-. apply (acyclic_not_below _ _ _ Hwf Hv).
        by apply below_var. }
    apply Hall; [done|apply rtc_refl].
  - destruct Hm as [Hty Heff]. split; [|done]. intros x t Hx. apply Hty. simpl.
    rewrite list_lookup_insert_ne; [done|]. intros <-. congruence.
  - destruct Hm as [Hty Heff]. split; [|done]. intros x t' Hx. apply Hty. simpl.
    rewrite list_lookup_insert_ne; [done|]. intros <-. congruence.
  - destruct Hm as [Hty Heff]. split; [done|]. intros x e Hx. apply Heff. simpl.
    rewrite list_lookup_insert_ne; [done|]. intros <-. congruence.
  - destruct Hm as [Hty Heff]. split; [done|]. intros x e Hx. apply Heff. simpl.
    rewrite !list_lookup_insert_ne by (intros <-; congruence). rewrite lookup_app_l; [done|].
    by eapply lookup_lt_Some.
Qed.

(** A step binds a variable, or unfolds no type deeper. *)
Lemma step_measure s s' :
  step s s' ->
  free_vars s' < free_vars s
  \/ (free_vars s' = free_vars s /\ forall n t, unfolds s n t -> unfolds s' n t).
Proof.
  intros [v u w Hv Hl|v c l c' l' Hv Hle|v c l t Hv Hp Hnb _|v atoms os Hv Hos|v1 v2 a1 a2 os Hv1 Hv2 Hne Hos tail].
  - right. split.
    + pose proof (count_insert is_free_var (vars s) v (Var_Bound (S_Var w)) _ Hv) as Hc.
      unfold free_vars. simpl in Hc |- *. lia.
    + assert (forall n, unfolds s n (S_Var u) -> unfolds s n (S_Var w)) as Hw.
      { clear Hv. induction Hl as [|a b w Hab _ IH]; intros n Hn; [done|]. destruct n as [|n]; [done|].
        simpl in Hn. rewrite Hab in Hn. apply (unfolds_mono _ n); [lia|by apply IH]. }
      induction n as [|n IH]; intros t Ht; [done|].
      assert (Forall (unfolds s n) (ty_children t) ->
        Forall (unfolds (set_vars (<[v:=Var_Bound (S_Var w)]> (vars s)) s) n) (ty_children t)) as Hc
        by (intros H; eapply Forall_impl; [exact H|exact IH]).
      destruct t; try by apply Hc. cbn [unfolds] in *. simpl.
      destruct (decide (v = v0)) as [<-|Hne].
      * rewrite list_lookup_insert_eq by (by eapply lookup_lt_Some). rewrite Hv in Ht. by apply IH, Hw.
      * rewrite list_lookup_insert_ne by done. destruct (vars s !! v0) as [[]|]; try done. by apply IH.
  - right. split.
    + pose proof (count_insert is_free_var (vars s) v (Var_Free c' l') _ Hv) as Hc.
      unfold free_vars. simpl in Hc |- *. lia.
    + induction n as [|n IH]; intros t Ht; [done|].
      assert (Forall (unfolds s n) (ty_children t) ->
        Forall (unfolds (set_vars (<[v:=Var_Free c' l']> (vars s)) s) n) (ty_children t)) as Hc
        by (intros H; eapply Forall_impl; [exact H|exact IH]).
      destruct t; try by apply Hc. cbn [unfolds] in *. simpl.
      destruct (decide (v = v0)) as [<-|Hne].
      * by rewrite list_lookup_insert_eq by (by eapply lookup_lt_Some).
      * rewrite list_lookup_insert_ne by done. destruct (vars s !! v0) as [[]|]; try done. by apply IH.
  - left. pose proof (count_insert is_free_var (vars s) v (Var_Bound t) _ Hv) as Hc.
    unfold free_vars. simpl in Hc |- *. lia.
  - right. split; [done|]. induction n as [|n IH]; intros t Ht; [done|].
    destruct t; try (eapply Forall_impl; [exact Ht|exact IH]).
    cbn [unfolds] in *. simpl. destruct (vars s !! v0) as [[]|]; try done. by apply IH.
  - right. split; [done|]. induction n as [|n IH]; intros t Ht; [done|].
    destruct t; try (eapply Forall_impl; [exact Ht|exact IH]).
    cbn [unfolds] in *. simpl. destruct (vars s !! v) as [[]|]; try done. by apply IH.
Qed.

(** ** Levels *)

(** Every free variable reached from [v] has a level of at most [l]. *)
Definition level_below (s : InferCtx) (v l : nat) : Prop :=
  forall w c l', reaches s v w -> vars s !! w = Some (Var_Free c l') -> l' <= l.

Lemma step_levels s s' v l : step s s' -> level_below s v l -> level_below s' v l.
Proof.
  intros Hs Hb.
  destruct Hs as [x u w Hx Hl|x c lx c' lx' Hx Hle|x c lx t Hx Hp Hnb Hlv|x atoms os Hx Hos|v1 v2 a1 a2 os Hv1 Hv2 Hne Hos tail];
    [| | |done|done].
  - assert (forall a b, reaches (set_vars (<[x := Var_Bound (S_Var w)]> (vars s)) s) a b -> reaches s a b) as Hr.
    { induction 1 as [|a b d (t & Ht & Hb') _ IH]; [apply rtc_refl|]. simpl in Ht.
      apply list_lookup_insert_Some in Ht as [(<- & Ht & _)|[_ Ht]].
      - simplify_eq. set_unfold in Hb'. destruct Hb' as [->|[]]. eapply rtc_l.
        { exists (S_Var u). split; [done|left]. }
        etrans; [by apply linked_reaches|done].
      - eapply rtc_l; [by exists t|done]. }
    intros y c' l' Hy Hfree. simpl in Hfree.
    apply list_lookup_insert_Some in Hfree as [(_ & ? & _)|[_ Hfree]]; [done|]. eapply Hb; [by apply Hr|done].
  - assert (forall a b, reaches (set_vars (<[x := Var_Free c' lx']> (vars s)) s) a b -> reaches s a b) as Hr.
    { induction 1 as [|a b d (t & Ht & Hb') _ IH]; [apply rtc_refl|]. simpl in Ht.
      apply list_lookup_insert_Some in Ht as [(_ & ? & _)|[_ Ht]]; [done|]. eapply rtc_l; [by exists t|done]. }
    intros y c'' l' Hy Hfree. simpl in Hfree.
    apply list_lookup_insert_Some in Hfree as [(<- & ? & _)|[_ Hfree]].
    + simplify_eq. etrans; [exact Hle|]. eapply Hb; [by apply Hr|done].
    + eapply Hb; [by apply Hr|done].
  - set (s' := set_vars _ s).
    assert (forall a b, reaches s' a b -> reaches s a b \/ (reaches s a x /\ below s t b)) as Hr.
    { induction 1 as [|a b d (t' & Ht & Hb') _ IH]; [left; apply rtc_refl|]. simpl in Ht.
      apply list_lookup_insert_Some in Ht as [(<- & Ht & _)|[Hne Ht]].
      - simplify_eq. right. split; [apply rtc_refl|].
        destruct IH as [IH|[IH _]]; [by exists b|]. destruct Hnb. by exists b.
      - assert (flip (link s) a b) as Hl by (by exists t').
        destruct IH as [IH|[IH ?]]; [left; by eapply rtc_l|right; split; [by eapply rtc_l|done]]. }
    intros y c' l' Hy Hfree. simpl in Hfree.
    apply list_lookup_insert_Some in Hfree as [(_ & ? & _)|[Hne Hfree]]; [done|].
    destruct (Hr _ _ Hy) as [Hold|[Hvx Hty]]; [by eapply Hb|].
    etrans; [by eapply Hlv|by eapply Hb].
Qed.

(** ** Sequences of steps *)

Lemma steps_wf s s' : wf s -> steps s s' -> wf s'.
Proof. intros Hwf Hs. induction Hs; [done|]. eauto using step_wf. Qed.

Lemma steps_plain s s' t : steps s s' -> plain_in s t -> plain_in s' t.
Proof. induction 1; [done|]. eauto using step_plain. Qed.

Lemma steps_ignore s s' : steps s s' -> ignore_effects s' = ignore_effects s.
Proof. induction 1 as [|s1 s2 s3 Hs _ IH]; [done|]. rewrite IH. by apply step_ignore. Qed.

Lemma steps_models k theta s s' : wf s -> steps s s' -> models k theta s' -> models k theta s.
Proof. intros Hwf Hs. induction Hs; [done|]. eauto using step_models, step_wf. Qed.

Lemma steps_measure s s' :
  steps s s' ->
  free_vars s' < free_vars s
  \/ (free_vars s' = free_vars s /\ forall n t, unfolds s n t -> unfolds s' n t).
Proof.
  induction 1 as [s|s1 s2 s3 Hs _ IH]; [by right|].
  destruct (step_measure _ _ Hs) as [?|[? ?]], IH as [?|[? ?]]; try (left; lia). right. split; [lia|auto].
Qed.

Lemma steps_levels s s' v l : steps s s' -> level_below s v l -> level_below s' v l.
Proof. induction 1; [done|]. eauto using step_levels. Qed.
