(* ===== verification/InferSpec.v ===== *)
(** * The solver's operations settle

    A total-correctness logic for methods with fuel: from some fuel on a method returns one
    result, without a panic, and the result satisfies a postcondition.  In it, the specifications
    of the operations unification is made of. *)

From S2P Require Import Prelude Types Infer InferSem InferStep.
From stdpp Require Import gmap list strings relations.
From Stdlib Require Import ZArith Lia.

(** ** The logic *)

Definition reads {A} (f : nat -> run A) (Q : A -> Prop) : Prop :=
  exists N a, (forall fuel, N <= fuel -> f fuel = Done a) /\ Q a.
Definition settles {A} (m : nat -> CX A) (s : InferCtx) (Q : A -> InferCtx -> Prop) : Prop :=
  exists N a s', (forall fuel, N <= fuel -> m fuel s = Done (a, s')) /\ Q a s'.

Lemma reads_ret {A} (a : A) (Q : A -> Prop) : Q a -> reads (fun _ => mret a) Q.
Proof. intros HQ. by exists 0, a. Qed.

Lemma reads_bind {A B} (f : nat -> run A) (g : nat -> A -> run B) Q Q' :
  reads f Q -> (forall a, Q a -> reads (fun fuel => g fuel a) Q') -> reads (fun fuel => a ← f fuel; g fuel a) Q'.
Proof.
  intros (N & a & Hf & HQ) Hg. destruct (Hg a HQ) as (M & b & Hb & HQ').
  exists (max N M), b. split; [|done]. intros fuel Hfuel. rewrite Hf by lia. apply Hb. lia.
Qed.

Lemma reads_mono {A} (f : nat -> run A) (Q Q' : A -> Prop) :
  reads f Q -> (forall a, Q a -> Q' a) -> reads f Q'.
Proof. intros (N & a & Hf & HQ) Hm. exists N, a. auto. Qed.

Lemma reads_succ {A} (f g : nat -> run A) Q :
  (forall fuel, f (S fuel) = g fuel) -> reads g Q -> reads f Q.
Proof.
  intros Hfg (N & a & Hg & HQ). exists (S N), a. split; [|done].
  intros [|fuel] Hfuel; [lia|]. rewrite Hfg. apply Hg. lia.
Qed.

Lemma reads_index {A} (xs : list A) i x (Q : A -> Prop) :
  xs !! i = Some x -> Q x -> reads (fun _ => index xs i) Q.
Proof. intros Hi HQ. exists 0, x. split; [|done]. intros _ _. unfold index. by rewrite Hi. Qed.

Lemma settles_ret {A} (a : A) s (Q : A -> InferCtx -> Prop) : Q a s -> settles (fun _ => mret a) s Q.
Proof. intros HQ. by exists 0, a, s. Qed.

Lemma settles_bind {A B} (m : nat -> CX A) (k : nat -> A -> CX B) s Q Q' :
  settles m s Q -> (forall a s', Q a s' -> settles (fun fuel => k fuel a) s' Q') ->
  settles (fun fuel => a ← m fuel; k fuel a) s Q'.
Proof.
  intros (N & a & s' & Hm & HQ) Hk. destruct (Hk a s' HQ) as (M & b & s'' & Hb & HQ').
  exists (max N M), b, s''. split; [|done]. intros fuel Hfuel. unfold mbind, sr_bind.
  rewrite Hm by lia. apply Hb. lia.
Qed.

Lemma settles_mono {A} (m : nat -> CX A) s (Q Q' : A -> InferCtx -> Prop) :
  settles m s Q -> (forall a s', Q a s' -> Q' a s') -> settles m s Q'.
Proof. intros (N & a & s' & Hm & HQ) Himp. exists N, a, s'. auto. Qed.

Lemma settles_succ {A} (m m' : nat -> CX A) s Q :
  (forall fuel, m (S fuel) = m' fuel) -> settles m' s Q -> settles m s Q.
Proof.
  intros Hmm (N & a & s' & Hm & HQ). exists (S N), a, s'. split; [|done].
  intros [|fuel] Hfuel; [lia|]. rewrite Hmm. apply Hm. lia.
Qed.

Lemma settles_asks {A} (f : nat -> InferCtx -> run A) s Q :
  reads (fun fuel => f fuel s) (fun a => Q a s) -> settles (fun fuel => asks (f fuel)) s Q.
Proof.
  intros (N & a & Hf & HQ). exists N, a, s. split; [|done]. intros fuel Hfuel. unfold asks. by rewrite Hf.
Qed.

Lemma settles_modify (f : InferCtx -> InferCtx) s (Q : () -> InferCtx -> Prop) :
  Q () (f s) -> settles (fun _ => modify f) s Q.
Proof. intros HQ. by exists 0, (), (f s). Qed.

(** Follow a read, then a continuation. *)
Lemma settles_read {A B} (f : nat -> InferCtx -> run A) (k : nat -> A -> CX B) s P Q :
  reads (fun fuel => f fuel s) P -> (forall a, P a -> settles (fun fuel => k fuel a) s Q) ->
  settles (fun fuel => a ← asks (f fuel); k fuel a) s Q.
Proof.
  intros Hf Hk. eapply (settles_bind _ _ _ (fun a s' => P a /\ s' = s)).
  - apply settles_asks. eapply reads_mono; [exact Hf|done].
  - intros a s' [Ha ->]. by apply Hk.
Qed.

Lemma settles_write {B} (f : InferCtx -> InferCtx) (k : nat -> CX B) s Q :
  settles k (f s) Q -> settles (fun fuel => _ ← modify f; k fuel) s Q.
Proof.
  intros Hk. eapply (settles_bind _ _ _ (fun _ s' => s' = f s)); [by apply settles_modify|]. by intros _ ? ->.
Qed.

(** ** Chains of links *)

(** A type at the end of its chain. *)
Definition resolved (s : InferCtx) (t : SolveTy) : Prop :=
  match t with S_Var v => exists c l, vars s !! v = Some (Var_Free c l) | _ => True end.

Definition chained (s : InferCtx) (chain : list nat) (w : nat) : Prop :=
  forall x, x ∈ chain -> exists u, vars s !! x = Some (Var_Bound (S_Var u)) /\ linked s u w.

Section Reads.
Context (s : InferCtx) (Hwf : wf s).

Lemma bound_in_range v t : vars s !! v = Some (Var_Bound t) -> plain_in s t.
Proof. by apply wf_bound. Qed.

Lemma link_of v t u : vars s !! v = Some (Var_Bound t) -> u ∈ tvars t -> link s u v.
Proof. intros ? ?. by exists t. Qed.

Lemma var_in_range v t u : vars s !! v = Some (Var_Bound t) -> u ∈ tvars t -> u < length (vars s).
Proof. intros Hv Hu. eapply plain_tvars; [by eapply bound_in_range|done]. Qed.

(** The end of a chain: a free variable, or one bound to more than a variable. *)
Definition chain_end (w : nat) : Prop :=
  exists x, vars s !! w = Some x /\ forall u, x ≠ Var_Bound (S_Var u).

Lemma follow_reads v :
  v < length (vars s) ->
  reads (fun fuel => follow fuel s v)
    (fun out => linked s v out.2 /\ chained s out.1 out.2 /\ chain_end out.2).
Proof.
  induction (wf_acyclic _ Hwf v) as [v _ IH]. intros Hv.
  destruct (lookup_lt_is_Some_2 _ _ Hv) as [x Hx].
  apply (reads_succ _ _ _ (fun _ => eq_refl)). eapply reads_bind; [by apply (reads_index _ _ _ (fun y => y = x) Hx)|].
  intros ? ->.
  assert ((forall u, x ≠ Var_Bound (S_Var u)) -> reads (fun _ => mret ([], v))
    (fun out : list nat * nat => linked s v out.2 /\ chained s out.1 out.2 /\ chain_end out.2)) as Hend.
  { intros He. assert (chain_end v) by (by exists x). apply reads_ret. split; [apply rtc_refl|]. split; [by intros ? ?%elem_of_nil|done]. }
  destruct x as [c l|t]; [by apply Hend|].
  destruct t as [u| | | | | | | | | |]; try (by apply Hend).
  eapply reads_bind; [apply IH; [eapply link_of; [done|left]|eapply var_in_range; [done|left]]|].
  intros [chain w] (Hl & Hc & He). apply reads_ret. simpl in *. split; [by eapply rtc_l|]. split; [|done].
  intros y [->|Hy]%elem_of_cons; [by exists u|by apply Hc].
Qed.

Lemma repr_reads v :
  v < length (vars s) ->
  reads (fun fuel => repr fuel s v) (fun r =>
    match r with
    | Repr_Free w => linked s v w /\ exists c l, vars s !! w = Some (Var_Free c l)
    | Repr_Bound w t => linked s v w /\ vars s !! w = Some (Var_Bound t)
    end).
Proof.
  induction (wf_acyclic _ Hwf v) as [v _ IH]. intros Hv.
  destruct (lookup_lt_is_Some_2 _ _ Hv) as [x Hx].
  apply (reads_succ _ _ _ (fun _ => eq_refl)). eapply reads_bind; [by apply (reads_index _ _ _ (fun y => y = x) Hx)|].
  intros ? ->. destruct x as [c l|t]; [apply reads_ret; split; [apply rtc_refl|eauto]|].
  destruct t as [u| | | | | | | | | |]; try (apply reads_ret; split; [apply rtc_refl|done]).
  eapply reads_mono; [apply IH; [eapply link_of; [done|left]|eapply var_in_range; [done|left]]|].
  intros [w|w t] [Hl ?]; (split; [by eapply rtc_l|done]).
Qed.

Lemma resolve_shallow_reads t :
  plain_in s t ->
  reads (fun fuel => resolve_shallow fuel s t) (fun t' =>
    resolved s t' /\ plain_in s t' /\ (forall n, unfolds s n t -> unfolds s n t')
    /\ (resolved s t -> t' = t)).
Proof.
  assert (forall t, (forall v, t ≠ S_Var v) -> plain_in s t -> reads (fun fuel => resolve_shallow fuel s t)
    (fun t' => resolved s t' /\ plain_in s t' /\ (forall n, unfolds s n t -> unfolds s n t')
      /\ (resolved s t -> t' = t))) as Hother.
  { clear t. intros t Ht Hp. exists 1, t. split; [|split; [destruct t; try done; by destruct (Ht v)|done]].
    intros [|fuel] ?; [lia|]. destruct t; try done. by destruct (Ht v). }
  intros Hp. destruct t as [v| | | | | | | | | |]; try (by apply Hother).
  inversion Hp as [? Hv| | | | | | | | |]; subst. clear Hp.
  induction (wf_acyclic _ Hwf v) as [v _ IH].
  destruct (lookup_lt_is_Some_2 _ _ Hv) as [x Hx].
  apply (reads_succ _ _ _ (fun _ => eq_refl)). eapply reads_bind; [by apply (reads_index _ _ _ (fun y => y = x) Hx)|].
  intros ? ->. destruct x as [c l|t].
  { apply reads_ret. split; [by exists c, l|]. split; [by constructor|done]. }
  assert (reads (fun fuel => resolve_shallow fuel s t) (fun t' =>
    resolved s t' /\ plain_in s t' /\ (forall n, unfolds s n t -> unfolds s n t') /\ True)) as Ht.
  { pose proof (bound_in_range _ _ Hx) as Hp.
    destruct t as [u| | | | | | | | | |]; try (eapply reads_mono; [by apply Hother|naive_solver]).
    eapply reads_mono; [apply IH; [eapply link_of; [done|left]|eapply var_in_range; [done|left]]|naive_solver]. }
  eapply reads_mono; [exact Ht|]. intros t' (Hr & Hp & Hu & _). split; [done|]. split; [done|].
  split; [|intros (c & l & ?); congruence].
  intros [|n] Hn; [done|]. simpl in Hn. rewrite Hx in Hn. apply (unfolds_mono _ n); [lia|auto].
Qed.
End Reads.

(** ** Compression *)

(** A shortcut keeps the other chains. *)
Lemma linked_shortcut s v u w a :
  vars s !! v = Some (Var_Bound (S_Var u)) -> v < length (vars s) ->
  linked s a w -> linked (set_vars (<[v := Var_Bound (S_Var w)]> (vars s)) s) a w.
Proof.
  intros Hv Hr Ha. induction Ha as [|a b w Hab _ IH]; [apply rtc_refl|].
  destruct (decide (a = v)) as [->|Hne].
  - apply rtc_once. simpl. by apply list_lookup_insert_eq.
  - eapply rtc_l; [|done]. simpl. by rewrite list_lookup_insert_ne.
Qed.

Lemma chain_end_shortcut s v u w x :
  vars s !! v = Some (Var_Bound (S_Var u)) -> vars s !! w = Some x -> (forall u, x ≠ Var_Bound (S_Var u)) ->
  vars (set_vars (<[v := Var_Bound (S_Var w)]> (vars s)) s) !! w = Some x.
Proof. intros Hv Hw Hx. simpl. rewrite list_lookup_insert_ne; [done|]. intros <-. simplify_eq. by destruct (Hx u). Qed.

Lemma models_shortcut k theta s v u w :
  vars s !! v = Some (Var_Bound (S_Var u)) -> linked s u w ->
  models k theta s -> models k theta (set_vars (<[v := Var_Bound (S_Var w)]> (vars s)) s).
Proof.
  intros Hv Hl Hm. split; [|apply Hm]. simpl. intros x t Hx.
  apply list_lookup_insert_Some in Hx as [(<- & Hx & _)|[_ Hx]]; [|by apply Hm].
  simplify_eq. simpl. rewrite (mo_ty _ _ _ Hm _ _ Hv). simpl. by eapply models_linked.
Qed.

(** What compression changes: links, by steps, without changing the models. *)
Definition relinks (s s' : InferCtx) : Prop :=
  steps s s' /\ (forall k theta, models k theta s -> models k theta s')
  /\ effects s' = effects s /\ effect_origins s' = effect_origins s
  /\ (forall v c l, vars s !! v = Some (Var_Free c l) -> vars s' !! v = Some (Var_Free c l))
  /\ free_vars s' = free_vars s /\ forall n t, unfolds s n t -> unfolds s' n t.

Lemma relinks_refl s : relinks s s.
Proof. split; [apply rtc_refl|]. auto 10. Qed.

Lemma relinks_trans s1 s2 s3 : relinks s1 s2 -> relinks s2 s3 -> relinks s1 s3.
Proof.
  intros (Hs & Hm & He & Ho & Hr & Hf & Hu) (Hs' & Hm' & He' & Ho' & Hr' & Hf' & Hu').
  split; [by etrans|]. split; [eauto|]. split; [congruence|]. split; [congruence|]. split; [eauto|]. split; [congruence|eauto].
Qed.

Lemma relinks_shortcut s v u w :
  vars s !! v = Some (Var_Bound (S_Var u)) -> linked s u w ->
  relinks s (set_vars (<[v := Var_Bound (S_Var w)]> (vars s)) s).
Proof.
  intros Hv Hl. pose proof (Step_link s v u w Hv Hl) as Hs. split; [by apply rtc_once|].
  split; [intros ? ?; by eapply models_shortcut|]. do 2 (split; [done|]). split.
  { intros x c l Hx. simpl. rewrite list_lookup_insert_ne; [done|]. intros <-. congruence. }
  pose proof (count_insert is_free_var (vars s) v (Var_Bound (S_Var w)) _ Hv) as Hc.
  destruct (step_measure _ _ Hs) as [Hlt|Heq]; [|done].
  exfalso. unfold free_vars in Hlt. simpl in Hlt, Hc. lia.
Qed.

Lemma compress_relinks chain w : forall s x,
  chained s chain w -> vars s !! w = Some x -> (forall u, x ≠ Var_Bound (S_Var u)) ->
  let s' := set_vars (compress chain w (vars s)) s in
  relinks s s' /\ vars s' !! w = Some x.
Proof.
  induction chain as [|v chain IH]; intros s x Hc Hw Hx; simpl.
  { destruct s. split; [apply relinks_refl|done]. }
  destruct (Hc v) as (u & Hv & Hl); [left|].
  destruct (decide (v = w)) as [->|Hne]; [by simplify_eq; destruct (Hx u)|].
  set (s1 := set_vars (<[v := Var_Bound (S_Var w)]> (vars s)) s).
  destruct (IH s1 x) as [Hr Hw']; [|by eapply chain_end_shortcut|done|].
  - intros y Hy. destruct (Hc y) as (z & Hz & Hlz); [by right|]. destruct (decide (y = v)) as [->|Hyv].
    + exists w. simpl. rewrite list_lookup_insert_eq by (by eapply lookup_lt_Some). split; [done|apply rtc_refl].
    + exists z. simpl. rewrite list_lookup_insert_ne by done. split; [done|].
      eapply linked_shortcut; [done|by eapply lookup_lt_Some|done].
  - split; [|done]. eapply relinks_trans; [by eapply relinks_shortcut|exact Hr].
Qed.

Lemma unfolds_linked s v w n : linked s v w -> unfolds s n (S_Var v) -> unfolds s n (S_Var w).
Proof.
  intros Hl. revert n. induction Hl as [|a b w Hab _ IH]; intros n Hn; [done|]. destruct n as [|n]; [done|].
  simpl in Hn. rewrite Hab in Hn. apply (unfolds_mono _ n); [lia|by apply IH].
Qed.

(** A resolved type stands for the given one in every model. *)
Definition resolves_to (t : SolveTy) (s : InferCtx) (t' : SolveTy) (s' : InferCtx) : Prop :=
  relinks s s' /\ resolved s' t' /\ plain_in s' t' /\ (forall n, unfolds s n t -> unfolds s' n t')
  /\ forall k theta, models k theta s' -> ground k theta t' = ground k theta t.

Lemma resolve_compress_settles s t :
  wf s -> plain_in s t -> settles (fun fuel => resolve_compress fuel t) s (resolves_to t s).
Proof.
  intros Hwf Hp.
  assert ((forall v, t ≠ S_Var v) -> settles (fun fuel => resolve_compress fuel t) s (resolves_to t s)) as Hother.
  { intros Hnv. exists 0, t, s. split; [intros; destruct t; try done; by destruct (Hnv v)|].
    split; [apply relinks_refl|]. split; [destruct t; try done; by destruct (Hnv v)|done]. }
  destruct t as [v| | | | | | | | | |]; try (by apply Hother). clear Hother.
  inversion Hp as [? Hv| | | | | | | | |]; subst.
  eapply settles_read; [by apply follow_reads|]. intros [chain w] (Hl & Hc & (x & Hx & Hend)). simpl in *.
  apply settles_write.
  destruct (compress_relinks chain w s x Hc Hx Hend) as [Hr Hw].
  eapply settles_read; [by apply (reads_index _ _ _ (fun y => y = x) Hw)|]. intros ? ->. apply settles_ret.
  set (s' := set_vars _ s) in *. split; [done|].
  assert (forall n, unfolds s n (S_Var v) -> unfolds s' n (S_Var w)) as Hu.
  { intros n Hn. apply Hr, (unfolds_linked _ v); done. }
  assert (forall k theta, models k theta s' -> at_ty theta w = at_ty theta v) as Hg.
  { intros k theta Hm. symmetry. eapply models_linked; [|done]. eapply steps_models; [done|apply Hr|done]. }
  assert (wf s') as Hwf' by (eapply steps_wf; [done|apply Hr]).
  destruct x as [c l|t].
  - split; [by exists c, l|]. split; [constructor; by eapply lookup_lt_Some|]. done.
  - split; [destruct t; try done; by destruct (Hend v0)|]. split; [by eapply wf_bound|]. split.
    + intros n Hn. specialize (Hu n Hn). destruct n as [|n]; [done|]. cbn [unfolds] in Hu. rewrite Hw in Hu.
      apply (unfolds_mono _ n); [lia|done].
    + intros k theta Hm. simpl. rewrite <- (Hg k theta Hm). symmetry. by apply Hm.
Qed.

(** ** Effects *)

(** An effect's tail is closed, or a free variable. *)
Definition eff_resolved (s : InferCtx) (e : SolveEffect) : Prop :=
  match effect_tail e with EffTail_Closed => True | EffTail_Open v => effects s !! v = Some Eff_Free end.

Lemma elem_of_dedup_atoms a atoms : a ∈ dedup_atoms atoms ↔ a ∈ atoms.
Proof.
  unfold dedup_atoms.
  assert (forall seen, a ∈ foldl (fun seen a => if decide (a ∈ seen) then seen else seen ++ [a]) seen atoms
    ↔ a ∈ seen \/ a ∈ atoms) as H.
  { induction atoms as [|b atoms IH]; intros seen; simpl; [set_solver|].
    rewrite IH. case_decide; set_solver. }
  rewrite H. set_solver.
Qed.

Lemma eff_at_dedup theta atoms tail :
  eff_at theta (MkSolveEffect (dedup_atoms atoms) tail) = eff_at theta (MkSolveEffect atoms tail).
Proof.
  unfold eff_at. simpl. f_equal. apply set_eq. intros a. rewrite !elem_of_list_to_set. apply elem_of_dedup_atoms.
Qed.

Lemma expand_effect_reads s e :
  wf s -> plain_eff (length (effects s)) e ->
  reads (fun fuel => expand_effect fuel s e) (fun e' =>
    eff_resolved s e' /\ forall theta, models true theta s -> eff_at theta e' = eff_at theta e).
Proof.
  intros Hwf Hp. unfold expand_effect.
  assert (forall v, v < length (effects s) -> forall atoms,
    reads (fun fuel => expand_effect_tail fuel s atoms (EffTail_Open v)) (fun e' =>
      eff_resolved s e' /\ forall theta, models true theta s ->
        eff_at theta e' = eff_at theta (MkSolveEffect atoms (EffTail_Open v)))) as Hopen.
  { intros v. induction (wf_eff_acyclic _ Hwf v) as [v _ IH]. intros Hv atoms.
    destruct (lookup_lt_is_Some_2 _ _ Hv) as [x Hx].
    apply (reads_succ _ _ _ (fun _ => eq_refl)). eapply reads_bind; [by apply (reads_index _ _ _ (fun y => y = x) Hx)|].
    intros ? ->. destruct x as [|[more tail]]; simpl.
    { apply reads_ret. split; [done|]. intros theta _. apply eff_at_dedup. }
    assert (forall theta, models true theta s -> eff_at theta (MkSolveEffect (atoms ++ more) tail)
      = eff_at theta (MkSolveEffect atoms (EffTail_Open v))) as Heq.
    { intros theta Hm. unfold eff_at at 2. simpl. rewrite (mo_eff _ _ _ Hm _ _ Hx eq_refl).
      unfold eff_at. simpl. by rewrite list_to_set_app_L, <- (assoc_L (∪)). }
    destruct tail as [|u].
    - exists 1, (MkSolveEffect (dedup_atoms (atoms ++ more)) EffTail_Closed). split.
      { intros [|fuel] ?; [lia|done]. }
      split; [done|]. intros theta Hm. rewrite eff_at_dedup. by apply Heq.
    - pose proof (wf_eff_bound _ Hwf _ _ Hx) as Hpe. inversion Hpe; subst.
      eapply reads_mono; [apply (IH u); [by exists more|done]|].
      intros e' [Hr He']. split; [done|]. intros theta Hm. rewrite He' by done. by apply Heq. }
  destruct e as [atoms [|v]]; simpl.
  - exists 1, (MkSolveEffect (dedup_atoms atoms) EffTail_Closed). split; [intros [|fuel] ?; [lia|done]|].
    split; [done|]. intros theta _. apply eff_at_dedup.
  - apply Hopen. by inversion Hp.
Qed.

(** A bound tail: the binding, and some lowered origins. *)
Lemma bind_effect_settles s v atoms tail :
  v < length (effects s) -> length (effect_origins s) = length (effects s) ->
  eff_resolved s (MkSolveEffect atoms tail) ->
  settles (fun fuel => bind_effect fuel v (MkSolveEffect atoms tail)) s (fun r s' =>
    r = U_Ok /\ exists origins, length origins = length (effect_origins s)
      /\ s' = set_effects (<[v := Eff_Bound (MkSolveEffect atoms tail)]> (effects s)) origins s).
Proof.
  intros Hv Ho Hr. unfold bind_effect.
  eapply (settles_read _ _ _ (fun e => effect_tail e = tail)).
  { exists 1, (MkSolveEffect (dedup_atoms atoms) tail). split; [|done].
    intros [|fuel] ?; [lia|]. destruct tail as [|w]; [done|]. unfold eff_resolved in Hr. unfold expand_effect, index. simpl in Hr |- *.
    unfold index. by rewrite Hr. }
  intros e ->.
  assert (forall s1, effects s1 = effects s -> (exists os, length os = length (effect_origins s) /\
      s1 = set_effects (effects s) os s) ->
    settles (fun _ => _ ← asks (fun s => index (effects s) v);
      _ ← modify (fun s => set_effects (<[v := Eff_Bound (MkSolveEffect atoms tail)]> (effects s)) (effect_origins s) s);
      mret U_Ok) s1 (fun r s' => r = U_Ok /\ exists origins, length origins = length (effect_origins s)
      /\ s' = set_effects (<[v := Eff_Bound (MkSolveEffect atoms tail)]> (effects s)) origins s)) as Hset.
  { intros s1 He (os & Hos & ->). destruct (lookup_lt_is_Some_2 _ _ Hv) as [x Hx].
    eapply settles_read; [by apply (reads_index _ _ _ (fun _ => True) Hx)|]. intros _ _.
    apply settles_write, settles_ret. split; [done|]. by exists os. }
  destruct tail as [|w].
  - eapply settles_bind; [by apply (settles_ret _ _ (fun _ s' => s' = s))|]. intros _ ? ->.
    apply Hset; [done|]. exists (effect_origins s). split; [done|by destruct s].
  - apply lookup_lt_Some in Hr as Hw. simpl in Hw.
    destruct (lookup_lt_is_Some_2 (effect_origins s) v) as [o Hov]; [lia|].
    destruct (lookup_lt_is_Some_2 (effect_origins s) w) as [o' How]; [lia|].
    eapply (settles_bind _ _ _ (fun _ s1 => exists os, length os = length (effect_origins s) /\
      s1 = set_effects (effects s) os s)).
    + eapply settles_read; [by apply (reads_index _ _ _ (fun _ => True) Hov)|]. intros a _.
      eapply settles_read; [by apply (reads_index _ _ _ (fun _ => True) How)|]. intros b _.
      apply settles_modify. eexists. split; [|done]. by rewrite length_insert.
    + intros _ s1 (os & Hos & ->). apply Hset; [done|]. by exists os.
Qed.

Lemma fresh_effect_settles s :
  wf s -> settles (fun _ => fresh_effect) s (fun v s' => v = length (effects s) /\
    s' = set_effects (effects s ++ [Eff_Free]) (effect_origins s ++ [length (effects s)]) s).
Proof.
  intros Hwf. unfold fresh_effect.
  eapply (settles_read _ _ _ (fun id => id = length (effects s))).
  { exists 0, (length (effects s)). split; [|done]. intros _ _. unfold next_id.
    pose proof (wf_room _ Hwf). destruct (Z.ltb_spec (Z.of_nat (length (effects s))) (2 ^ 32)); [done|lia]. }
  intros ? ->. by apply settles_write, settles_ret.
Qed.

Lemma elem_of_atoms_only a xs ys : a ∈ atoms_only xs ys ↔ a ∈ xs /\ a ∉ ys.
Proof. unfold atoms_only. rewrite list_elem_of_filter. naive_solver. Qed.

(** Two rows agree when each misses nothing of the other, up to what both tails add. *)
Lemma atoms_agree (a1 a2 : list InterfaceRef) (more : gset InterfaceRef) :
  list_to_set a1 ∪ (list_to_set (atoms_only a2 a1) ∪ more)
  = list_to_set a2 ∪ (list_to_set (atoms_only a1 a2) ∪ more) :> gset InterfaceRef.
Proof.
  apply set_eq. intros a. rewrite !elem_of_union, !elem_of_list_to_set, !elem_of_atoms_only.
  destruct (decide (a ∈ a1)), (decide (a ∈ a2)); tauto.
Qed.

Lemma atoms_only_nil (a1 a2 : list InterfaceRef) :
  atoms_only a2 a1 = [] -> (list_to_set a2 : gset InterfaceRef) ⊆ list_to_set a1.
Proof.
  intros Hn a Ha. rewrite elem_of_list_to_set in Ha |- *. destruct (decide (a ∈ a1)) as [?|Hna]; [done|].
  exfalso. apply (not_elem_of_nil a). rewrite <- Hn. by apply elem_of_atoms_only.
Qed.

Section Unifying.
Context (k : bool).

(** What unifying two effects, or two types, promises. *)
Definition unified_eff (s : InferCtx) (e1 e2 : SolveEffect) (r : UnifyResult) (s' : InferCtx) : Prop :=
  steps s s' /\ (r = U_Ok -> forall theta, models k theta s' -> g_eff k theta e1 = g_eff k theta e2)
  /\ (k = false -> r = U_Ok /\ s' = s).

Lemma unify_effects_settles s e1 e2 :
  wf s -> ignore_effects s = negb k -> plain_eff (length (effects s)) e1 -> plain_eff (length (effects s)) e2 ->
  settles (fun fuel => unify_effects fuel e1 e2) s (unified_eff s e1 e2).
Proof.
  intros Hwf Hig Hp1 Hp2. unfold unify_effects.
  eapply (settles_read _ _ _ (fun b => b = negb k)); [by exists 0, (negb k); rewrite Hig|]. intros ? ->.
  destruct k eqn:Hk; simpl; [|apply settles_ret; unfold unified_eff, g_eff; rewrite Hk; split; [apply rtc_refl|done]].
  eapply settles_read; [by apply (expand_effect_reads s e1)|]. intros [a1 t1] [Hr1 He1].
  eapply settles_read; [by apply (expand_effect_reads s e2)|]. intros [a2 t2] [Hr2 He2]. simpl.
  assert (forall r s', steps s s' -> (r = U_Ok -> forall theta, models true theta s' ->
      eff_at theta (MkSolveEffect a1 t1) = eff_at theta (MkSolveEffect a2 t2)) ->
    unified_eff s e1 e2 r s') as Hdone.
  { intros r s' Hs Heq. unfold unified_eff. rewrite Hk. split; [done|]. split; [|done].
    intros -> theta Hm. unfold g_eff.
    assert (models true theta s) as Hm0 by (by eapply steps_models).
    rewrite <- He1, <- He2 by done. by apply Heq. }
  assert (forall b : bool, (b = true -> atoms_only a1 a2 = [] /\ atoms_only a2 a1 = []) ->
    t1 = t2 -> settles (fun _ => mret (if b then U_Ok else Mismatch)) s (unified_eff s e1 e2)) as Hsame.
  { intros b Hb <-. apply settles_ret, Hdone; [apply rtc_refl|]. destruct b; [|done].
    intros _ theta _. destruct (Hb eq_refl) as [H1 H2]. unfold eff_at. simpl. f_equal.
    apply (anti_symm (⊆)); by apply atoms_only_nil. }
  assert (forall v (e e' : SolveEffect), effects s !! v = Some Eff_Free ->
    settles (fun _ => mret Mismatch) s (unified_eff s e1 e2)) as Hbad.
  { intros _ _ _ _. apply settles_ret, Hdone; [apply rtc_refl|done]. }
  unfold eff_resolved in Hr1, Hr2. simpl in Hr1, Hr2.
  destruct t1 as [|v1], t2 as [|v2]; simpl.
  - apply Hsame; [|done]. intros [?%bool_decide_eq_true_1 ?%bool_decide_eq_true_1]%andb_true_iff. done.
  - case_decide as Hn; [|by eapply (Hbad v2)].
    eapply settles_mono; [apply bind_effect_settles; [by eapply lookup_lt_Some|apply Hwf|done]|].
    intros r s' (-> & os & Hos & ->). apply Hdone.
    { apply rtc_once. by apply Step_bind_eff. }
    intros _ theta Hm. pose proof (mo_eff _ _ _ Hm v2 _ ltac:(apply list_lookup_insert_eq; by eapply lookup_lt_Some) eq_refl) as Hv.
    unfold eff_at in Hv |- *. simpl in Hv |- *. rewrite Hv.
    pose proof (atoms_agree a1 a2 ∅) as Ha. rewrite Hn in Ha. simpl in Ha.
    rewrite (union_empty_r_L ∅) in Ha. exact Ha.
  - case_decide as Hn; [|by eapply (Hbad v1)].
    eapply settles_mono; [apply bind_effect_settles; [by eapply lookup_lt_Some|apply Hwf|done]|].
    intros r s' (-> & os & Hos & ->). apply Hdone.
    { apply rtc_once. by apply Step_bind_eff. }
    intros _ theta Hm. pose proof (mo_eff _ _ _ Hm v1 _ ltac:(apply list_lookup_insert_eq; by eapply lookup_lt_Some) eq_refl) as Hv.
    unfold eff_at in Hv |- *. simpl in Hv |- *. rewrite Hv.
    pose proof (atoms_agree a1 a2 ∅) as Ha. rewrite Hn in Ha. simpl in Ha.
    rewrite (union_empty_r_L ∅) in Ha. exact Ha.
  - case_decide as Hv; [subst; apply Hsame; [|done]|].
    { intros [?%bool_decide_eq_true_1 ?%bool_decide_eq_true_1]%andb_true_iff. done. }
    apply lookup_lt_Some in Hr1 as Hl1. apply lookup_lt_Some in Hr2 as Hl2.
    eapply settles_bind; [by apply fresh_effect_settles|]. intros ? ? [-> ->].
    set (n := length (effects s)). set (s1 := set_effects _ _ s).
    eapply settles_bind; [apply bind_effect_settles|].
    { simpl. rewrite length_app. simpl. lia. }
    { simpl. rewrite !length_app, (wf_origins _ Hwf). done. }
    { unfold eff_resolved. simpl. apply list_lookup_middle. done. }
    intros r s2 (-> & os & Hos & ->). simpl.
    eapply settles_mono; [apply bind_effect_settles|].
    { simpl. rewrite length_insert, length_app. simpl. lia. }
    { simpl. rewrite Hos, length_insert. simpl. rewrite !length_app, (wf_origins _ Hwf). done. }
    { unfold eff_resolved. simpl. rewrite list_lookup_insert_ne by (unfold n; lia). by apply list_lookup_middle. }
    intros r s3 (-> & os' & Hos' & ->). apply Hdone.
    { apply rtc_once. apply (Step_merge_eff s v1 v2); try done. simpl in Hos, Hos'.
      rewrite Hos', Hos, length_app. simpl. lia. }
    intros _ theta Hm. simpl in Hm.
    pose proof (mo_eff _ _ _ Hm v1 (MkSolveEffect (atoms_only a2 a1) (EffTail_Open n))) as H1.
    pose proof (mo_eff _ _ _ Hm v2 (MkSolveEffect (atoms_only a1 a2) (EffTail_Open n))) as H2.
    simpl in H1, H2. rewrite list_lookup_insert_ne, list_lookup_insert_eq in H1 by (rewrite ?length_app; lia).
    rewrite list_lookup_insert_eq in H2 by (rewrite length_insert, length_app; lia).
    unfold eff_at in *. simpl in *. rewrite H1, H2 by done. apply atoms_agree.
Qed.
End Unifying.

(** ** The occurs check *)

Lemma expand_row_reads s fields :
  reads (fun fuel => expand_row fuel s (MkSolveRow fields Tail_Closed)) (fun row => row = MkSolveRow fields Tail_Closed).
Proof. exists 1, (MkSolveRow fields Tail_Closed). split; [|done]. by intros [|fuel] ?; [lia|]. Qed.

Section Occurs.
Context (target lower_to : nat).

(** Only the levels and constraints of free variables differ; a changed level is no lower than
    [lower_to]. *)
Record refrees (s s' : InferCtx) : Prop := {
  rf_steps : steps s s';
  rf_effects : effects s' = effects s;
  rf_bound v t : vars s' !! v = Some (Var_Bound t) ↔ vars s !! v = Some (Var_Bound t);
  rf_free v c' l' : vars s' !! v = Some (Var_Free c' l') -> 
    exists c l, vars s !! v = Some (Var_Free c l) /\ l' <= l /\ (l' = l \/ lower_to <= l');
  rf_unfolds n t : unfolds s n t -> unfolds s' n t }.

Lemma refrees_refl s : refrees s s.
Proof. split; [apply rtc_refl|done|done|by eauto 10|done]. Qed.

Lemma refrees_trans s1 s2 s3 : refrees s1 s2 -> refrees s2 s3 -> refrees s1 s3.
Proof.
  intros H1 H2. split.
  - etrans; [apply H1|apply H2].
  - by rewrite (rf_effects _ _ H2), (rf_effects _ _ H1).
  - intros v t. by rewrite (rf_bound _ _ H2), (rf_bound _ _ H1).
  - intros v c l Hv. destruct (rf_free _ _ H2 _ _ _ Hv) as (c' & l' & Hv' & ?).
    destruct (rf_free _ _ H1 _ _ _ Hv') as (c'' & l'' & Hv'' & ?). exists c'', l''. split; [done|lia].
  - intros n t Hn. by apply (rf_unfolds _ _ H2), (rf_unfolds _ _ H1).
Qed.

Lemma refrees_step s v c l c' l' :
  vars s !! v = Some (Var_Free c l) -> l' <= l -> l' = l \/ lower_to <= l' ->
  refrees s (set_vars (<[v := Var_Free c' l']> (vars s)) s).
Proof.
  intros Hv Hle Hlow. pose proof (Step_free s v c l c' l' Hv Hle) as Hs. split.
  - by apply rtc_once.
  - done.
  - intros x t. simpl. destruct (decide (x = v)) as [->|Hne]; [|by rewrite list_lookup_insert_ne].
    rewrite list_lookup_insert_eq by (by eapply lookup_lt_Some). split; intros; congruence.
  - intros x c'' l'' Hx. simpl in Hx. apply list_lookup_insert_Some in Hx as [(<- & Hx & _)|[_ Hx]]; [simplify_eq|]; eauto 10.
  - destruct (step_measure _ _ Hs) as [Hlt|[_ Hu]]; [|exact (Hu)].
    exfalso. pose proof (count_insert is_free_var (vars s) v (Var_Free c' l') _ Hv) as Hc.
    unfold free_vars in Hlt. simpl in Hlt, Hc. lia.
Qed.

Lemma refrees_reaches s s' v w : refrees s s' -> reaches s' v w ↔ reaches s v w.
Proof.
  intros Hr. unfold reaches, flip. assert (forall a b, link s' a b ↔ link s a b) as Hl.
  { intros a b. unfold link. by setoid_rewrite (rf_bound _ _ Hr). }
  split; apply rtc_subrel; intros a b; apply Hl.
Qed.

Lemma refrees_below s s' t w : refrees s s' -> below s' t w ↔ below s t w.
Proof. intros Hr. unfold below. by setoid_rewrite (refrees_reaches _ _ _ _ Hr). Qed.

Lemma refrees_models k theta s s' : refrees s s' -> models k theta s' ↔ models k theta s.
Proof.
  intros Hr. split; intros Hm; split.
  - intros v t Hv. apply Hm. by apply (rf_bound _ _ Hr).
  - rewrite <- (rf_effects _ _ Hr). apply Hm.
  - intros v t Hv. apply Hm. by apply (rf_bound _ _ Hr).
  - rewrite (rf_effects _ _ Hr). apply Hm.
Qed.

Lemma refrees_free_vars s s' : refrees s s' -> forall v,
  (exists c l, vars s' !! v = Some (Var_Free c l)) ↔ exists c l, vars s !! v = Some (Var_Free c l).
Proof.
  intros Hr v. split; intros (c & l & Hv).
  - destruct (rf_free _ _ Hr _ _ _ Hv) as (c' & l' & ? & _). eauto.
  - assert (v < length (vars s')) as Hlt.
    { apply lookup_lt_Some in Hv. pose proof (rf_steps _ _ Hr) as Hs. clear -Hv Hs.
      induction Hs as [|s1 s2 s3 H12 _ IH]; [done|]. apply IH. by rewrite (proj1 (step_lengths _ _ H12)). }
    destruct (lookup_lt_is_Some_2 _ _ Hlt) as [[c' l'|t] Hx]; [eauto|].
    apply (rf_bound _ _ Hr) in Hx. congruence.
Qed.

(** The free variables reached are not the target, and of low levels. *)
Definition covered (s : InferCtx) (u : nat) : Prop :=
  forall w c l, reaches s u w -> vars s !! w = Some (Var_Free c l) -> w ≠ target /\ l <= lower_to.
Definition covers_ty (s : InferCtx) (t : SolveTy) : Prop := forall u, u ∈ tvars t -> covered s u.

Lemma covered_refrees s s' u : refrees s s' -> covered s u -> covered s' u.
Proof.
  intros Hr Hc w c l Hw Hfree. destruct (rf_free _ _ Hr _ _ _ Hfree) as (c' & l' & Hv & Hle & _).
  destruct (Hc w c' l'); [by apply (refrees_reaches _ _ _ _ Hr)|done|]. split; [done|lia].
Qed.

(** The postcondition of the walk over several types. *)
Definition walked (s : InferCtx) (ts : list SolveTy) (visited : gset nat)
    (out : bool * gset nat) (s' : InferCtx) : Prop :=
  refrees s s'
  /\ (out.1 = true -> exists t, t ∈ ts /\ below s t target)
  /\ (out.1 = false -> Forall (covers_ty s') ts /\ forall u, u ∈ out.2 -> u ∈ visited \/ covered s' u).

(** A visited variable met again is covered. *)
Definition met_covered (s : InferCtx) (visited : gset nat) (t : SolveTy) : Prop :=
  forall u, u ∈ visited -> below s t u -> covered s u.

Lemma any_occurs_settles {A} (pr : A -> SolveTy) (f : nat -> A -> gset nat -> CX (bool * gset nat)) (xs : list A) :
  forall s visited,
  (forall x s' visited', x ∈ xs -> refrees s s' -> met_covered s' visited' (pr x) ->
    settles (fun fuel => f fuel x visited') s' (walked s' [pr x] visited')) ->
  (forall x, x ∈ xs -> met_covered s visited (pr x)) ->
  settles (fun fuel => any_occurs (f fuel) xs visited) s (walked s (pr <$> xs) visited).
Proof.
  induction xs as [|x xs IH]; intros s visited Hf Hm; simpl.
  { apply settles_ret. split; [apply refrees_refl|]. split; [done|]. intros _. split; [constructor|by left]. }
  eapply settles_bind; [apply Hf; [left|apply refrees_refl|apply Hm; left]|].
  intros [b visited1] s1 (Hr1 & Ht1 & Hf1). simpl in Ht1, Hf1 |- *. destruct b.
  { apply settles_ret. split; [done|]. split; [|done]. intros _.
    destruct (Ht1 eq_refl) as (t & ->%list_elem_of_singleton & Hb). exists (pr x). split; [left|done]. }
  destruct (Hf1 eq_refl) as [Hc1 Hv1]. rewrite Forall_singleton in Hc1.
  eapply settles_mono; [apply IH|].
  - intros y s' visited' Hy Hr Hmc. apply Hf; [by right|by eapply refrees_trans|done].
  - intros y Hy u Hu Hb. destruct (Hv1 u Hu) as [Hold|?]; [|done].
    eapply covered_refrees; [done|]. apply (Hm y); [by right|done|]. by apply (refrees_below _ _ _ _ Hr1).
  - intros [b visited2] s2 (Hr2 & Ht2 & Hf2). simpl in *. split; [by eapply refrees_trans|]. simpl. split.
    + intros ->. destruct (Ht2 eq_refl) as (t & Hin & Hb). exists t. split; [by right|].
      by apply (refrees_below _ _ _ _ Hr1).
    + intros ->. destruct (Hf2 eq_refl) as [Hc2 Hv2]. split.
      * constructor; [|done]. intros u Hu. eapply covered_refrees; [done|by apply Hc1].
      * intros u Hu. destruct (Hv2 u Hu) as [Hu1|?]; [|by right].
        destruct (Hv1 u Hu1) as [?|?]; [by left|right; by eapply covered_refrees].
Qed.

Lemma walked_children s t visited out s' :
  (forall v, t ≠ S_Var v) -> walked s (ty_children t) visited out s' -> walked s [t] visited out s'.
Proof.
  intros Hnv (Hr & Ht & Hf). split; [done|]. split.
  - intros Hb. destruct (Ht Hb) as (c & Hc & Hbelow). exists t. split; [left|].
    apply below_children. right. eauto.
  - intros Hb. destruct (Hf Hb) as [Hc Hv]. split; [|done]. apply Forall_singleton.
    intros u [->|(c & Hin & Hu)]%elem_of_tvars; [by destruct (Hnv u)|].
    rewrite list.Forall_forall in Hc. by apply (Hc c).
Qed.

Lemma met_covered_child s visited t c : c ∈ ty_children t -> met_covered s visited t -> met_covered s visited c.
Proof. intros Hc Hm u Hu Hb. apply Hm; [done|]. apply below_children. right. eauto. Qed.

Lemma occurs_and_lower_settles n :
  forall s t visited,
  wf s -> plain_in s t -> unfolds s n t -> (exists c l, vars s !! target = Some (Var_Free c l)) ->
  met_covered s visited t ->
  settles (fun fuel => occurs_and_lower fuel target lower_to t visited) s (walked s [t] visited).
Proof.
  induction n as [|n IH]; intros s t visited Hwf Hp Hn Htarget Hmet; [done|].
  assert (forall c s' visited', c ∈ ty_children t -> refrees s s' -> met_covered s' visited' c ->
    settles (fun fuel => occurs_and_lower fuel target lower_to c visited') s' (walked s' [c] visited')) as Hchild.
  { intros c s' visited' Hc Hr Hmc. apply IH; [by eapply steps_wf, Hr|..].
    - eapply steps_plain; [apply Hr|]. apply plain_children in Hp. rewrite list.Forall_forall in Hp. by apply Hp.
    - apply (rf_unfolds _ _ Hr). by eapply unfolds_children.
    - by apply (refrees_free_vars _ _ Hr).
    - done. }
  assert (forall c, c ∈ ty_children t -> met_covered s visited c) as Hmets
    by (intros; by eapply met_covered_child).
  assert ((forall v, t ≠ S_Var v) -> ty_children t = [] ->
    settles (fun _ => mret (false, visited)) s (walked s [t] visited)) as Hleaf.
  { intros Hnv Hc. apply settles_ret, walked_children; [done|]. rewrite Hc. split; [apply refrees_refl|].
    split; [done|]. intros _. split; [constructor|by left]. }
  apply (settles_succ _ (fun fuel => match t with
      | S_Var v0 =>
          r ← asks (fun s => repr fuel s v0);
          match r with
          | Repr_Free v => _ ← lower_level v lower_to; mret (bool_decide (v = target), visited)
          | Repr_Bound v t =>
              if decide (v = target) then mret (true, visited)
              else if decide (v ∈ visited) then mret (false, visited)
              else occurs_and_lower fuel target lower_to t ({[v]} ∪ visited)
          end
      | S_App f a | S_Arrow f a _ => any_occurs (occurs_and_lower fuel target lower_to) [f; a] visited
      | S_Tuple elems => any_occurs (occurs_and_lower fuel target lower_to) elems visited
      | S_Record fields tail =>
          row ← asks (fun s => expand_row fuel s (MkSolveRow fields tail));
          any_occurs (fun f => occurs_and_lower fuel target lower_to f.2) (row_fields row) visited
      | S_Con _ | S_Adt _ | S_Interface _ | S_EffectArg _ | S_Unit | S_Error => mret (false, visited)
      end)); [done|].
  destruct t as [v0| | | | |f a|f a e|ts|fs tl| |]; try (by apply Hleaf).
  - inversion Hp as [? Hv| | | | | | | | |]; subst.
    eapply settles_read; [by apply repr_reads|]. intros [w|w t] [Hl Hw].
    + destruct Hw as (c & l & Hw). unfold lower_level.
      assert (linked s v0 w) as Hl' by done. apply linked_reaches in Hl.
      assert (forall s', refrees s s' -> (forall c' l', vars s' !! w = Some (Var_Free c' l') -> l' <= lower_to) ->
        settles (fun _ => mret (bool_decide (w = target), visited)) s' (walked s [S_Var v0] visited)) as Hdone.
      { intros s' Hr Hlow. apply settles_ret. split; [done|]. simpl. split.
        - intros ->%bool_decide_eq_true_1. exists (S_Var v0). split; [left|]. by apply below_var.
        - intros Hne%bool_decide_eq_false_1. split; [|by left]. apply Forall_singleton.
          intros u ->%list_elem_of_singleton x c' l' Hx Hfree.
          assert (x = w) as ->; [|split; [done|by eapply Hlow]].
          apply (refrees_reaches _ _ _ _ Hr) in Hx. destruct (rf_free _ _ Hr _ _ _ Hfree) as (c'' & l'' & Hx' & _).
          clear -Hl' Hw Hx Hx'. induction Hl' as [|a b w Hab _ IH].
          { by eapply reaches_free. }
          apply IH; [done|]. inversion Hx as [|? b' ? (t & Ht & Hb)]; subst; [congruence|].
          simplify_eq. set_unfold in Hb. by destruct Hb as [->|[]]. }
      eapply (settles_bind _ _ _ (fun _ s' => refrees s s' /\
        forall c' l', vars s' !! w = Some (Var_Free c' l') -> l' <= lower_to)).
      * eapply settles_read; [by apply (reads_index _ _ _ (fun y => y = Var_Free c l) Hw)|]. intros ? ->.
        destruct (Nat.ltb_spec lower_to l).
        -- apply settles_modify. split; [apply (refrees_step s w c l c lower_to Hw); [lia|by right]|]. simpl. intros c' l'.
           rewrite list_lookup_insert_eq by (by eapply lookup_lt_Some). intros [= _ <-]. done.
        -- apply settles_ret. split; [apply refrees_refl|]. intros c' l' Hw'. simplify_eq. done.
      * intros _ s' [Hr Hlow]. by apply Hdone.
    + destruct Htarget as (c & l & Htarget).
      case_decide as Hwt; [congruence|]. apply linked_reaches in Hl as Hr.
      assert (forall s', refrees s s' -> covered s' w -> covered s' v0) as Hcov.
      { intros s' Hrf Hc x c' l' Hx Hfree. apply (Hc x c' l'); [|done].
        rewrite (refrees_reaches _ _ _ _ Hrf) in Hx. rewrite (refrees_reaches _ _ _ _ Hrf).
        destruct (rf_free _ _ Hrf _ _ _ Hfree) as (c'' & l'' & Hx' & _).
        clear -Hl Hw Hx Hx'. induction Hl as [|a b w Hab _ IH]; [done|]. apply IH; [done|].
        inversion Hx as [|? b' ? (t' & Ht & Hb)]; subst; [congruence|].
        simplify_eq. set_unfold in Hb. by destruct Hb as [->|[]]. }
      case_decide as Hvis.
      * apply settles_ret. split; [apply refrees_refl|]. split; [done|]. intros _. split; [|by left].
        apply Forall_singleton. intros u ->%list_elem_of_singleton. apply Hcov; [apply refrees_refl|].
        apply Hmet; [done|]. by apply below_var.
      * eapply settles_mono; [apply IH|].
        -- done.
        -- by eapply wf_bound.
        -- pose proof (unfolds_linked _ _ _ _ Hl Hn) as Hnw. cbn [unfolds] in Hnw. by rewrite Hw in Hnw.
        -- eauto.
        -- intros u [->%elem_of_singleton|Hu]%elem_of_union Hb.
           ++ by destruct (acyclic_not_below _ _ _ Hwf Hw).
           ++ apply Hmet; [done|]. apply below_var. etrans; [exact Hr|].
              apply (reaches_bound _ _ _ _ Hw). by right.
        -- intros [b visited'] s' (Hrf & Ht & Hf). simpl in *. split; [done|]. simpl. split.
           ++ intros ->. destruct (Ht eq_refl) as (t' & ->%list_elem_of_singleton & Hb).
              exists (S_Var v0). split; [left|]. apply below_var. etrans; [exact Hr|].
              apply (reaches_bound _ _ _ _ Hw). by right.
           ++ intros ->. destruct (Hf eq_refl) as [Hc Hv'].
              rewrite Forall_singleton in Hc.
              assert (covered s' w) as Hcw.
              { intros x c' l' Hx Hfree. apply (rf_bound _ _ Hrf) in Hw as Hw'.
                apply (reaches_bound _ _ _ _ Hw') in Hx as [->|(u & Hu & Hx)]; [congruence|].
                by eapply (Hc u). }
              split.
              ** apply Forall_singleton. intros u ->%list_elem_of_singleton. by apply Hcov.
              ** intros u Hu. destruct (Hv' u Hu) as [[->%elem_of_singleton|?]%elem_of_union|?]; auto.
  - eapply settles_mono; [by apply (any_occurs_settles id (fun fuel => occurs_and_lower fuel target lower_to) [f; a])|].
    intros out s'. by apply (walked_children s (S_App f a)).
  - eapply settles_mono; [by apply (any_occurs_settles id (fun fuel => occurs_and_lower fuel target lower_to) [f; a])|].
    intros out s'. by apply (walked_children s (S_Arrow f a e)).
  - eapply settles_mono; [by apply (any_occurs_settles id (fun fuel => occurs_and_lower fuel target lower_to) ts)|].
    rewrite list_fmap_id. intros out s'. by apply (walked_children s (S_Tuple ts)).
  - inversion Hp as [| | | | | | | |fs' Hnd Hfs|]; subst.
    eapply settles_read; [apply expand_row_reads|]. intros ? ->. simpl.
    eapply settles_mono; [apply (any_occurs_settles snd (fun fuel f => occurs_and_lower fuel target lower_to f.2) fs)|].
    + intros x s' visited' Hx. apply Hchild. simpl. apply list_elem_of_fmap. eauto.
    + intros x Hx. apply Hmets. simpl. apply list_elem_of_fmap. eauto.
    + intros out s'. by apply (walked_children s (S_Record fs Tail_Closed)).
Qed.
End Occurs.
