(* ===== verification/InferUnify.v ===== *)
(** * Unification

    [bind] and [unify] settle, by steps, on a context in whose models the two types are equal;
    without effects they lose no model, and a refusal means there is none. *)

From S2P Require Import Prelude Types Infer InferSem InferStep InferSpec.
From stdpp Require Import gmap list strings relations.
From Stdlib Require Import ZArith Lia.

(** ** Constraints *)

Lemma forall_run_reads {A} (f : nat -> A -> run bool) (xs : list A) :
  (forall x, x ∈ xs -> reads (fun fuel => f fuel x) (fun _ => True)) ->
  reads (fun fuel => forall_run (f fuel) xs) (fun _ => True).
Proof.
  induction xs as [|x xs IH]; intros Hf; simpl; [by apply reads_ret|].
  eapply reads_bind; [apply Hf; left|]. intros [] _; [|by apply reads_ret].
  apply IH. intros y Hy. apply Hf. by right.
Qed.

Lemma is_comparable_reads s n : forall t,
  wf s -> plain_in s t -> unfolds s n t -> reads (fun fuel => is_comparable fuel s t) (fun _ => True).
Proof.
  induction n as [|n IH]; intros t Hwf Hp Hn; [done|].
  apply (reads_succ _ (fun fuel => ty ← resolve_shallow fuel s t;
      match ty with
      | S_Arrow _ _ _ | S_Interface _ | S_EffectArg _ => mret false
      | S_Var _ | S_Error | S_Con _ | S_Adt _ | S_Unit => mret true
      | S_App f a => b ← is_comparable fuel s f; if b : bool then is_comparable fuel s a else mret false
      | S_Tuple elems => forall_run (is_comparable fuel s) elems
      | S_Record fields tail =>
          row ← expand_row fuel s (MkSolveRow fields tail);
          forall_run (fun f => is_comparable fuel s f.2) (row_fields row)
      end)); [done|].
  eapply reads_bind; [by apply resolve_shallow_reads|]. intros t' (_ & Hp' & Hu & _).
  assert (forall c, c ∈ ty_children t' -> reads (fun fuel => is_comparable fuel s c) (fun _ => True)) as Hc.
  { intros c Hc. apply IH; [done| |by eapply unfolds_children, Hc; apply Hu].
    apply plain_children in Hp'. rewrite list.Forall_forall in Hp'. by apply Hp'. }
  destruct t'; try by apply reads_ret.
  - eapply reads_bind; [apply Hc; left|]. intros [] _; [|by apply reads_ret]. apply Hc. right. left.
  - by apply forall_run_reads.
  - inversion Hp'; subst. eapply reads_bind; [apply expand_row_reads|]. intros ? ->.
    apply (forall_run_reads (fun fuel f => is_comparable fuel s f.2)). intros x Hx. apply Hc. simpl.
    apply list_elem_of_fmap. eauto.
Qed.

Lemma satisfies_reads s c t :
  wf s -> plain_in s t -> reads (fun fuel => satisfies fuel s c t) (fun _ => True).
Proof.
  intros Hwf Hp. eapply reads_bind; [by apply resolve_shallow_reads|]. intros t' (_ & Hp' & _).
  destruct (unfolds_exists s t' Hwf) as [n Hn].
  destruct c; [by apply reads_ret|by eapply is_comparable_reads..].
Qed.

(** The constraint's part of [bind] keeps the bindings and the levels. *)
Lemma carry_constraint_settles s id c0 l0 t :
  wf s -> vars s !! id = Some (Var_Free c0 l0) -> plain_in s t -> resolved s t ->
  settles (fun fuel => carry_constraint fuel id t) s (fun r s' =>
    (r = U_Ok \/ r = BadConstraint) /\ forall floor, refrees floor s s').
Proof.
  intros Hwf Hid Hp Hr. unfold carry_constraint.
  eapply (settles_read _ _ _ (fun c => c = c0)).
  { exists 0, c0. split; [|done]. intros _ _. unfold constraint_of, index. by rewrite Hid. }
  intros ? ->. destruct c0 as [c|]; [|apply settles_ret; split; [by left|intros; apply refrees_refl]].
  eapply settles_read; [by apply resolve_shallow_reads|]. intros t' (Hr' & Hp' & _ & Heq).
  rewrite Heq in * by done. clear t' Heq.
  assert ((forall v, t ≠ S_Var v) -> settles (fun fuel => ok ← asks (fun s => satisfies fuel s c t);
      mret (if ok : bool then U_Ok else BadConstraint)) s
    (fun r s' => (r = U_Ok \/ r = BadConstraint) /\ forall floor, refrees floor s s')) as Hother.
  { intros _. eapply settles_read; [by apply satisfies_reads|]. intros b _. apply settles_ret.
    split; [destruct b; auto|intros; apply refrees_refl]. }
  destruct t as [v| | | | | | | | | |]; try by apply Hother.
  case_decide as Hv; [apply settles_ret; split; [by left|intros; apply refrees_refl]|].
  destruct Hr as (c' & l' & Hfree).
  eapply (settles_bind _ _ _ (fun _ s' => forall floor, refrees floor s s')).
  - eapply settles_read; [by apply (reads_index _ _ _ (fun y => y = Var_Free c' l') Hfree)|]. intros ? ->.
    apply settles_modify. intros floor. eapply refrees_step; [done|done|by left].
  - intros _ s' Hrf. apply settles_ret. auto.
Qed.

(** ** Binding *)

Section Unify.
Context (k : bool).

(** A run that solves an equation: on success the models left satisfy it, and without effects
    none that does is lost; without effects, a refusal means no model does. *)
Definition solves (s : InferCtx) (P : Assignment -> Prop) (r : UnifyResult) (s' : InferCtx) : Prop :=
  steps s s'
  /\ (r = U_Ok -> forall theta, models k theta s' -> P theta)
  /\ (k = false -> r = U_Ok -> forall theta, models k theta s -> P theta -> models k theta s')
  /\ (k = false -> r = Mismatch \/ r = Occurs -> forall theta, models k theta s -> ~ P theta).

(** Two types as an equation. *)
Definition equal (a b : SolveTy) (theta : Assignment) : Prop := ground k theta a = ground k theta b.
Abbreviation unified s a b := (solves s (equal a b)).

Lemma bind_var_settles s id t :
  wf s -> (exists c l, vars s !! id = Some (Var_Free c l)) -> plain_in s t -> resolved s t -> t ≠ S_Var id ->
  settles (fun fuel => bind_var fuel id t) s (unified s (S_Var id) t).
Proof.
  intros Hwf (c & l & Hid) Hp Hr Hne. unfold bind_var.
  eapply (settles_read _ _ _ (fun to => to = l)).
  { exists 0, l. split; [|done]. intros _ _. unfold level_of, index. by rewrite Hid. }
  intros ? ->. destruct (unfolds_exists s t Hwf) as [n Hn].
  eapply settles_bind; [apply (occurs_and_lower_settles id l n); eauto|].
  { by intros u ?%elem_of_empty. }
  intros [b visited] s1 (Hr1 & Hb & Hc). simpl in Hb, Hc |- *. destruct b.
  { apply settles_ret. split; [apply Hr1|]. split; [done|]. split; [done|]. intros _ _ theta Hm.
    destruct (Hb eq_refl) as (t' & ->%list_elem_of_singleton & Hbelow).
    destruct t as [v| | | | | | | | | |]; try (eapply occurs_no_model; try done).
    apply below_var in Hbelow. destruct Hr as (c' & l' & Hv). by rewrite (reaches_free _ _ _ _ _ Hv Hbelow) in Hne. }
  destruct (Hc eq_refl) as [Hcov _]. rewrite Forall_singleton in Hcov.
  assert (wf s1) as Hwf1 by (eapply steps_wf, Hr1; done).
  destruct (proj2 (refrees_free_vars _ _ _ Hr1 id)) as (c1 & l1 & Hid1); [eauto|].
  assert (l1 = l) as ->.
  { destruct (rf_free _ _ _ Hr1 _ _ _ Hid1) as (c' & l' & Hid' & ?). simplify_eq. lia. }
  eapply settles_bind; [apply (carry_constraint_settles s1 id c1 l t); try done|].
  { by eapply steps_plain, Hp; apply Hr1. }
  { destruct t; try done. by apply (refrees_free_vars _ _ _ Hr1). }
  intros r s2 [[->| ->] Hr2].
  2:{ apply settles_ret. split; [etrans; [apply Hr1|apply (rf_steps _ _ _ (Hr2 0))]|]. split; [done|].
      split; [done|]. intros _ [?|?]; done. }
  apply settles_write, settles_ret. set (s3 := set_vars _ s2).
  assert (refrees l s s2) as Hr12 by (eapply refrees_trans; [done|apply Hr2]).
  destruct (proj2 (refrees_free_vars _ _ _ (Hr2 l) id)) as (c2 & l2 & Hid2); [eauto|].
  assert (vars s3 !! id = Some (Var_Bound t)) as Hbound.
  { simpl. apply list_lookup_insert_eq. by eapply lookup_lt_Some. }
  split; [|split; [|split]].
  - etrans; [apply Hr12|]. apply rtc_once. eapply (Step_bind s2 id c2 l2).
    + done.
    + eapply steps_plain; [apply Hr12|done].
    + intros Hbelow. destruct (proj2 (refrees_free_vars _ _ _ Hr1 id)) as (? & ? & ?); [eauto|].
      apply (refrees_below _ _ _ _ _ (Hr2 0)) in Hbelow as (u & Hu & Hreach).
      by destruct (Hcov u Hu id c1 l Hreach).
    + intros w c' l' Hbelow Hfree.
      assert (l2 = l) as ->.
      { destruct (rf_free _ _ _ (Hr2 (S l)) _ _ _ Hid2) as (c'' & l'' & Hid'' & ?). simplify_eq. lia. }
      destruct (rf_free _ _ _ (Hr2 0) _ _ _ Hfree) as (c'' & l'' & Hfree' & Hle & _).
      apply (refrees_below _ _ _ _ _ (Hr2 0)) in Hbelow as (u & Hu & Hreach).
      destruct (Hcov u Hu w c'' l'' Hreach Hfree'). lia.
  - intros _ theta Hm. simpl. by apply Hm.
  - intros _ _ theta Hm Heq. apply (proj2 (refrees_models l k theta s s2 Hr12)) in Hm. split; [|apply Hm].
    intros x t' Hx. simpl in Hx. apply list_lookup_insert_Some in Hx as [(<- & Hx & _)|[_ Hx]]; [by simplify_eq|].
    by apply Hm.
  - intros _ [?|?]; done.
Qed.

(** ** Sequences of equations *)

Lemma solves_ext s P Q r s' : (forall theta, P theta ↔ Q theta) -> solves s P r s' -> solves s Q r s'.
Proof.
  intros HPQ (Hs & H1 & H2 & H3). split; [done|]. split; [|split].
  - intros Hr theta Hm. apply HPQ. auto.
  - intros Hk Hr theta Hm HQ. apply HPQ in HQ. auto.
  - intros Hk Hr theta Hm HQ. apply HPQ in HQ. by apply (H3 Hk Hr theta).
Qed.

(** An outcome decided without looking at the context. *)
Lemma solves_known s (P : Assignment -> Prop) (b : bool) :
  (b = true -> forall theta, P theta) -> (b = false -> forall theta, ~ P theta) ->
  settles (fun _ => mret (if b then U_Ok else Mismatch)) s (solves s P).
Proof.
  intros Ht Hf. apply settles_ret. split; [apply rtc_refl|]. destruct b.
  - split; [auto|]. split; [done|]. intros _ [?|?]; done.
  - split; [done|]. split; [done|]. auto.
Qed.

Lemma solves_then s (P Q : Assignment -> Prop) (m1 m2 : nat -> CX UnifyResult) :
  wf s -> settles m1 s (solves s P) ->
  (forall s', steps s s' -> settles m2 s' (solves s' Q)) ->
  settles (fun fuel => r ← m1 fuel; match r with U_Ok => m2 fuel | _ => mret r end) s
    (solves s (fun theta => P theta /\ Q theta)).
Proof.
  intros Hwf Hm1 Hm2. eapply settles_bind; [exact Hm1|]. intros r s1 (Hs1 & H1 & H2 & H3).
  assert (wf s1) as Hwf1 by (by eapply steps_wf).
  destruct r;
    try (apply settles_ret; split; [done|]; split; [done|]; split; [done|];
         intros Hk Hr theta Hm [HP _]; by eapply (H3 Hk); [|done|]).
  eapply settles_mono; [by apply Hm2|]. intros r s2 (Hs2 & G1 & G2 & G3). split; [by etrans|]. split; [|split].
  - intros Hr theta Hm. split; [|by apply G1]. apply H1; [done|]. by eapply steps_models.
  - intros Hk Hr theta Hm [HP HQ]. by apply G2, HQ; [..|apply H2].
  - intros Hk Hr theta Hm [HP HQ]. by eapply (G3 Hk Hr theta), HQ; apply H2.
Qed.

Lemma solves_all {A} s (P : A -> Assignment -> Prop) (m : nat -> A -> CX UnifyResult) (xs : list A) :
  wf s -> (forall x s', x ∈ xs -> steps s s' -> settles (fun fuel => m fuel x) s' (solves s' (P x))) ->
  settles (fun fuel => all_ok (m fuel) xs) s (solves s (fun theta => Forall (fun x => P x theta) xs)).
Proof.
  revert s. induction xs as [|x xs IH]; intros s Hwf Hm; simpl.
  - apply (solves_known s _ true); [intros; constructor|done].
  - eapply settles_mono.
    + apply (solves_then s (P x) (fun theta => Forall (fun x => P x theta) xs) (fun fuel => m fuel x)
        (fun fuel => all_ok (m fuel) xs)); [done|apply Hm; [left|apply rtc_refl]|].
      intros s' Hs. apply IH; [by eapply steps_wf|]. intros y s'' Hy Hs'. apply Hm; [by right|by etrans].
    + intros r s'. apply solves_ext. intros theta. by rewrite Forall_cons.
Qed.

(** Unifying resolved types unifies the types they stand for. *)
Lemma solves_resolved s s1 s2 a b a' b' r s' :
  wf s -> resolves_to a s a' s1 -> resolves_to b s1 b' s2 ->
  unified s2 a' b' r s' -> unified s a b r s'.
Proof.
  intros Hwf (Hl1 & _ & _ & _ & Ha) (Hl2 & _ & _ & _ & Hb) (Hs & H1 & H2 & H3).
  destruct (relinks_trans _ _ _ Hl1 Hl2) as (Hs02 & Hm02 & _).
  assert (wf s1) as Hwf1 by (eapply steps_wf, Hl1; done).
  assert (wf s2) as Hwf2 by (eapply steps_wf, Hl2; done).
  assert (forall theta, models k theta s2 -> (equal a' b' theta ↔ equal a b theta)) as Heq.
  { intros theta Hm. unfold equal. rewrite Hb by done. rewrite Ha; [done|].
    eapply steps_models; [done|apply Hl2|done]. }
  split; [by etrans|]. split; [|split].
  - intros Hr theta Hm. apply Heq; [by eapply steps_models|auto].
  - intros Hk Hr theta Hm HP. apply H2; [done..|auto|]. apply Heq; auto.
  - intros Hk Hr theta Hm HP. apply (H3 Hk Hr theta); [auto|]. apply Heq; auto.
Qed.

(** ** Records *)

Lemma field_of_spec (fs : list (string * SolveTy)) l t :
  NoDup fs.*1 -> field_of fs l = Some t ↔ (l, t) ∈ fs.
Proof.
  intros Hnd. unfold field_of. split.
  - destruct (list_find _ fs) as [[i [l' t']]|] eqn:Hf; [|done]. intros [= <-].
    apply list_find_Some in Hf as (Hi & <- & _). by eapply list_elem_of_lookup_2.
  - intros Hin. destruct (list_find (fun f => f.1 = l) fs) as [[i [l' t']]|] eqn:Hf.
    + apply list_find_Some in Hf as (Hi & <- & _). simpl. f_equal.
      apply list_elem_of_lookup_2 in Hi. simpl in Hin.
      apply list_elem_of_lookup in Hin as [j Hj]. apply list_elem_of_lookup in Hi as [j' Hj'].
      assert (j = j') as ->; [|congruence].
      eapply (NoDup_lookup fs.*1); [done| |]; rewrite list_lookup_fmap; [by rewrite Hj|by rewrite Hj'].
    + apply list_find_None in Hf. rewrite list.Forall_forall in Hf. by destruct (Hf _ Hin).
Qed.

Definition ground_fields (theta : Assignment) (fs : list (string * SolveTy)) : gmap string Gty :=
  list_to_map (map (fun f => (f.1, ground k theta f.2)) fs).

Lemma lookup_ground_fields theta (fs : list (string * SolveTy)) l :
  NoDup fs.*1 -> ground_fields theta fs !! l = ground k theta <$> field_of fs l.
Proof.
  intros Hnd. apply option_eq. intros x. unfold ground_fields.
  rewrite <- elem_of_map_to_list, elem_of_ground_fields by done.
  rewrite fmap_Some. setoid_rewrite field_of_spec; [|done]. naive_solver.
Qed.

Lemma only_in_nil (fs1 fs2 : list (string * SolveTy)) :
  (only_in fs1 fs2).*1 = [] ↔ forall l, l ∈ fs1.*1 -> l ∈ fs2.*1.
Proof.
  unfold only_in. split.
  - intros Hn l ([l' t] & -> & Hin)%list_elem_of_fmap. destruct (decide (l' ∈ fs2.*1)) as [?|Hni]; [done|].
    apply fmap_nil_inv in Hn. exfalso. apply (not_elem_of_nil (l', t)). rewrite <- Hn.
    by apply list_elem_of_filter.
  - intros Hsub. destruct (filter _ fs1) as [|f fs] eqn:Hf; [done|].
    assert (f ∈ filter (fun f => f.1 ∉ fs2.*1) fs1) as (Hni & Hin)%list_elem_of_filter by (rewrite Hf; left).
    destruct Hni. apply Hsub, list_elem_of_fmap. eauto.
Qed.

Lemma elem_of_common (fs1 fs2 : list (string * SolveTy)) tl1 tl2 t1 t2 :
  (t1, t2) ∈ common_fields (MkSolveRow fs1 tl1) (MkSolveRow fs2 tl2)
  ↔ exists l, (l, t1) ∈ fs1 /\ field_of fs2 l = Some t2.
Proof.
  unfold common_fields. rewrite list_elem_of_omap. simpl. split.
  - intros ([l t] & Hin & Hf). simpl in Hf. destruct (field_of fs2 l) as [t'|] eqn:Ht; [|done].
    injection Hf as <- <-. eauto.
  - intros (l & Hin & Hf). exists (l, t1). simpl. by rewrite Hf.
Qed.

(** Closed records are equal when they have the same labels and equal common fields. *)
Lemma equal_records (fs1 fs2 : list (string * SolveTy)) theta :
  NoDup fs1.*1 -> NoDup fs2.*1 ->
  equal (S_Record fs1 Tail_Closed) (S_Record fs2 Tail_Closed) theta ↔
    Forall (fun p => equal p.1 p.2 theta) (common_fields (MkSolveRow fs1 Tail_Closed) (MkSolveRow fs2 Tail_Closed))
    /\ (only_in fs1 fs2).*1 = [] /\ (only_in fs2 fs1).*1 = [].
Proof.
  intros Hn1 Hn2. unfold equal. simpl.
  assert (forall fs, NoDup fs.*1 -> forall l, l ∈ fs.*1 ↔ is_Some (field_of fs l)) as Hdom.
  { intros fs Hnd l. rewrite list_elem_of_fmap. unfold is_Some. setoid_rewrite field_of_spec; [|done].
    split; [intros ([l' t] & -> & ?); eauto|intros [t ?]; by exists (l, t)]. }
  rewrite !only_in_nil. transitivity (forall l, ground k theta <$> field_of fs1 l = ground k theta <$> field_of fs2 l).
  - split.
    + intros [= Heq] l. rewrite <- !lookup_ground_fields by done.
      assert (ground_fields theta fs1 = ground_fields theta fs2) as ->; [|done].
      apply map_to_list_inj. by unfold ground_fields; rewrite Heq.
    + intros Heq. do 2 f_equal. apply map_eq. intros l.
      change (ground_fields theta fs1 !! l = ground_fields theta fs2 !! l). by rewrite !lookup_ground_fields.
  - split.
    + intros Heq. split; [|split].
      * apply list.Forall_forall. intros [t1 t2] (l & Hin & Hf)%elem_of_common. simpl.
        apply field_of_spec in Hin; [|done]. specialize (Heq l). rewrite Hin, Hf in Heq. by injection Heq.
      * intros l. rewrite !Hdom by done. intros [t Ht]. specialize (Heq l). rewrite Ht in Heq.
        destruct (field_of fs2 l); [eauto|done].
      * intros l. rewrite !Hdom by done. intros [t Ht]. specialize (Heq l). rewrite Ht in Heq.
        destruct (field_of fs1 l); [eauto|done].
    + intros (Hc & H12 & H21) l. specialize (H12 l). specialize (H21 l). rewrite !Hdom in H12, H21 by done.
      destruct (field_of fs1 l) as [t1|] eqn:Hf1.
      * destruct H12 as [t2 Hf2]; [eauto|]. rewrite Hf2. simpl. f_equal.
        rewrite list.Forall_forall in Hc. apply (Hc (t1, t2)), elem_of_common.
        exists l. split; [by apply field_of_spec|done].
      * destruct (field_of fs2 l) as [t2|] eqn:Hf2; [|done]. destruct H21 as [? ?]; [eauto|done].
Qed.

(** ** Unification of resolved types *)

(** The body of [unify] after its types are resolved. *)
Definition unify_resolved (fuel : nat) (a b : SolveTy) : CX UnifyResult :=
  match a, b with
  | S_Error, _ | _, S_Error => mret U_Ok
  | S_Var x, S_Var y => if decide (x = y) then mret U_Ok else bind_var fuel x b
  | S_Var x, _ => bind_var fuel x b
  | _, S_Var y => bind_var fuel y a
  | S_Con x, S_Con y => mret (if decide (x = y) then U_Ok else Mismatch)
  | S_Adt x, S_Adt y => mret (if decide (x = y) then U_Ok else Mismatch)
  | S_Interface x, S_Interface y => mret (if decide (x = y) then U_Ok else Mismatch)
  | S_EffectArg e1, S_EffectArg e2 => unify_effects fuel e1 e2
  | S_Unit, S_Unit => mret U_Ok
  | S_App f1 a1, S_App f2 a2 =>
      r ← unify fuel f1 f2;
      match r with U_Ok => unify fuel a1 a2 | _ => mret r end
  | S_Arrow f1 t1 e1, S_Arrow f2 t2 e2 =>
      r ← unify fuel f1 f2;
      match r with
      | U_Ok =>
          r ← unify fuel t1 t2;
          match r with U_Ok => unify_effects fuel e1 e2 | _ => mret r end
      | _ => mret r
      end
  | S_Tuple xs, S_Tuple ys =>
      if decide (length xs = length ys)
      then all_ok (fun p => unify fuel p.1 p.2) (zip xs ys)
      else mret Mismatch
  | S_Record fs1 t1, S_Record fs2 t2 =>
      unify_rows fuel (unify fuel) (MkSolveRow fs1 t1) (MkSolveRow fs2 t2)
  | _, _ => mret Mismatch
  end.

Lemma unify_unfold fuel a b :
  unify (S fuel) a b = (a ← resolve_compress fuel a; b ← resolve_compress fuel b; unify_resolved fuel a b).
Proof. done. Qed.

Lemma solves_sym s a b r s' : unified s a b r s' -> unified s b a r s'.
Proof. apply solves_ext. intros theta. unfold equal. by split. Qed.

Lemma solves_effects s e1 e2 :
  wf s -> ignore_effects s = negb k -> plain_eff (length (effects s)) e1 -> plain_eff (length (effects s)) e2 ->
  settles (fun fuel => unify_effects fuel e1 e2) s (solves s (fun theta => g_eff k theta e1 = g_eff k theta e2)).
Proof.
  intros Hwf Hig Hp1 Hp2. eapply settles_mono; [by apply (unify_effects_settles k)|].
  intros r s' (Hs & Heq & Hk). split; [done|]. split; [done|]. split.
  - intros Hf _ theta Hm _. by destruct (Hk Hf) as [_ ->].
  - intros Hf Hr theta _ _. destruct (Hk Hf) as [-> _]. by destruct Hr.
Qed.

(** Pairs of children at every later context. *)
Definition pairs_settle (s : InferCtx) (a b : SolveTy) : Prop :=
  forall c d s', c ∈ ty_children a -> d ∈ ty_children b -> steps s s' ->
    settles (fun fuel => unify fuel c d) s' (unified s' c d).

Lemma unify_tuples s xs ys :
  wf s -> pairs_settle s (S_Tuple xs) (S_Tuple ys) ->
  settles (fun fuel => unify_resolved fuel (S_Tuple xs) (S_Tuple ys)) s (unified s (S_Tuple xs) (S_Tuple ys)).
Proof.
  intros Hwf Hpairs. simpl. case_decide as Hlen.
  - eapply settles_mono.
    + apply (solves_all s (fun p => equal p.1 p.2) (fun fuel p => unify fuel p.1 p.2)); [done|].
      intros [x y] s' Hin Hs. apply elem_of_zip_l in Hin as Hx. apply elem_of_zip_r in Hin as Hy. by apply Hpairs.
    + intros r s'. apply solves_ext. intros theta. unfold equal. simpl. clear Hpairs.
      transitivity (map (ground k theta) xs = map (ground k theta) ys); [|split; congruence].
      revert ys Hlen. induction xs as [|x xs IH]; intros [|y ys] Hlen; try done; simpl in *.
      rewrite Forall_cons, IH by lia. simpl. split; [intros [-> ->]; done|intros [= -> ->]; done].
  - apply (solves_known s _ false); [done|]. intros _ theta. unfold equal. simpl. intros [= Heq]. apply Hlen.
    by rewrite <- (length_map (ground k theta) xs), Heq, length_map.
Qed.

Lemma unify_records s fs1 fs2 :
  wf s -> NoDup fs1.*1 -> NoDup fs2.*1 ->
  pairs_settle s (S_Record fs1 Tail_Closed) (S_Record fs2 Tail_Closed) ->
  settles (fun fuel => unify_resolved fuel (S_Record fs1 Tail_Closed) (S_Record fs2 Tail_Closed)) s
    (unified s (S_Record fs1 Tail_Closed) (S_Record fs2 Tail_Closed)).
Proof.
  intros Hwf Hn1 Hn2 Hpairs. simpl. unfold unify_rows.
  eapply settles_read; [apply expand_row_reads|]. intros ? ->.
  eapply settles_read; [apply expand_row_reads|]. intros ? ->.
  eapply settles_mono.
  - apply (solves_then s
      (fun theta => Forall (fun p => equal p.1 p.2 theta)
        (common_fields (MkSolveRow fs1 Tail_Closed) (MkSolveRow fs2 Tail_Closed)))
      (fun _ => (only_in fs1 fs2).*1 = [] /\ (only_in fs2 fs1).*1 = [])
      (fun fuel => all_ok (fun p => unify fuel p.1 p.2) _)
      (fun _ => reconcile_row_tails (MkSolveRow fs1 Tail_Closed) (MkSolveRow fs2 Tail_Closed))); [done|..].
    + apply (solves_all s (fun p => equal p.1 p.2) (fun fuel p => unify fuel p.1 p.2)); [done|].
      intros [x y] s' (l & Hx & Hy)%elem_of_common Hs. apply field_of_spec in Hy; [|done].
      apply Hpairs; [by apply (list_elem_of_fmap_2 snd _ (l, x))|by apply (list_elem_of_fmap_2 snd _ (l, y))|done].
    + intros s' _. unfold reconcile_row_tails. simpl.
      apply solves_known; rewrite ?andb_true_iff, ?andb_false_iff, ?bool_decide_eq_true, ?bool_decide_eq_false; tauto.
  - intros r s'. apply solves_ext. intros theta. by rewrite equal_records.
Qed.

Lemma unify_resolved_settles s a b :
  wf s -> ignore_effects s = negb k -> plain_in s a -> plain_in s b -> resolved s a -> resolved s b ->
  pairs_settle s a b ->
  settles (fun fuel => unify_resolved fuel a b) s (unified s a b).
Proof.
  intros Hwf Hig Hpa Hpb Hra Hrb Hpairs.
  assert (forall x t, resolved s (S_Var x) -> plain_in s t -> resolved s t -> (forall y, t ≠ S_Var y) ->
    settles (fun fuel => bind_var fuel x t) s (unified s (S_Var x) t)) as Hbind.
  { intros x t Hx Hp Hr Hne. apply bind_var_settles; try done. }
  assert (forall x t, resolved s (S_Var x) -> plain_in s t -> resolved s t -> (forall y, t ≠ S_Var y) ->
    settles (fun fuel => bind_var fuel x t) s (unified s t (S_Var x))) as Hbind'.
  { intros x t Hx Hp Hr Hne. eapply settles_mono; [by apply Hbind|]. intros r s'. apply solves_sym. }
  assert ((forall theta, ground k theta a ≠ ground k theta b) ->
    settles (fun _ => mret Mismatch) s (unified s a b)) as Hmis.
  { intros Hne. by apply (solves_known s _ false). }
  destruct a as [x|x|x|x|e1| f1 a1|f1 t1 e1|xs|fs1 tl1| |], b as [y|y|y|y|e2|f2 a2|f2 t2 e2|ys|fs2 tl2| |];
    try (by inversion Hpa); try (by inversion Hpb); simpl;
    try (by apply Hmis); try (by apply Hbind); try (by apply Hbind').
  - case_decide as Hxy; [subst; by apply (solves_known s _ true)|]. apply bind_var_settles; try done. congruence.
  - case_decide as Hxy; [subst; by apply (solves_known s _ true)|]. apply Hmis. simpl. congruence.
  - case_decide as Hxy; [subst; by apply (solves_known s _ true)|]. apply Hmis. simpl. congruence.
  - case_decide as Hxy; [subst; by apply (solves_known s _ true)|]. apply Hmis. simpl. congruence.
  - inversion Hpa; inversion Hpb; subst. eapply settles_mono; [by apply solves_effects|].
    intros r s'. apply solves_ext. intros theta. unfold equal. simpl. split; congruence.
  - eapply settles_mono.
    + apply (solves_then s (equal f1 f2) (equal a1 a2) (fun fuel => unify fuel f1 f2) (fun fuel => unify fuel a1 a2)); [done|..].
      * apply Hpairs; [left|left|apply rtc_refl].
      * intros s' Hs. apply Hpairs; [right; left|right; left|done].
    + intros r s'. apply solves_ext. intros theta. unfold equal. simpl. split; [intros [-> ->]; done|intros [=]; done].
  - inversion Hpa; inversion Hpb; subst. eapply settles_mono.
    + apply (solves_then s (equal f1 f2) (fun theta => equal t1 t2 theta /\ g_eff k theta e1 = g_eff k theta e2)
        (fun fuel => unify fuel f1 f2) (fun fuel => r ← unify fuel t1 t2; match r with U_Ok => unify_effects fuel e1 e2 | _ => mret r end)); [done|..].
      * apply Hpairs; [left|left|apply rtc_refl].
      * intros s' Hs. apply (solves_then s' (equal t1 t2) (fun theta => g_eff k theta e1 = g_eff k theta e2)
          (fun fuel => unify fuel t1 t2) (fun fuel => unify_effects fuel e1 e2)); [by eapply steps_wf|..].
        -- apply Hpairs; [right; left|right; left|done].
        -- intros s'' Hs'. assert (steps s s'') as Hss by (by etrans).
           pose proof (steps_plain _ _ _ Hss Hpa) as Hpa'. pose proof (steps_plain _ _ _ Hss Hpb) as Hpb'.
           inversion Hpa'; inversion Hpb'; subst. apply solves_effects; [by eapply steps_wf| |done|done].
           by rewrite (steps_ignore _ _ Hss).
    + intros r s'. apply solves_ext. intros theta. unfold equal. simpl.
      split; [intros (-> & -> & ->); done|intros [=]; done].
  - by apply unify_tuples.
  - inversion Hpa; inversion Hpb; subst. by apply unify_records.
  - by apply (solves_known s _ true).
Qed.

(** ** Unification *)

Lemma unify_settles_upto m : forall s, wf s -> ignore_effects s = negb k -> free_vars s = m ->
  forall n a b, unfolds s n a -> plain_in s a -> plain_in s b ->
  settles (fun fuel => unify fuel a b) s (unified s a b).
Proof.
  induction m as [m IHm] using lt_wf_ind. intros s Hwf Hig Hm n. revert s Hwf Hig Hm.
  induction n as [|n IHn]; intros s Hwf Hig Hm a b Hn Hpa Hpb; [done|].
  apply (settles_succ _ _ _ _ (fun fuel => unify_unfold fuel a b)).
  eapply settles_bind; [by apply resolve_compress_settles|]. intros a' s1 Ha.
  pose proof Ha as (Hl1 & Hra & Hpa' & Hua & _).
  assert (wf s1) as Hwf1 by (eapply steps_wf, Hl1; done).
  assert (plain_in s1 b) as Hpb1 by (eapply steps_plain, Hpb; apply Hl1).
  eapply settles_bind; [by apply resolve_compress_settles|]. intros b' s2 Hb.
  pose proof Hb as (Hl2 & Hrb & Hpb' & _ & _).
  destruct (relinks_trans _ _ _ Hl1 Hl2) as (Hs02 & _ & _ & _ & _ & Hfree & _).
  assert (wf s2) as Hwf2 by (eapply steps_wf, Hl2; done).
  assert (plain_in s2 a') as Hpa2 by (eapply steps_plain, Hpa'; apply Hl2).
  assert (resolved s2 a') as Hra2.
  { destruct a'; try done. destruct Hra as (c & l & Hv). exists c, l. by apply Hl2. }
  assert (unfolds s2 (S n) a') as Hua2 by (apply Hl2, Hua, Hn).
  eapply settles_mono; [apply unify_resolved_settles; try done|].
  - by rewrite (steps_ignore _ _ Hs02).
  - intros c d s3 Hc Hd Hs. assert (steps s s3) as Hs03 by (by etrans).
    assert (wf s3) as Hwf3 by (by eapply steps_wf).
    assert (plain_in s3 c) as Hpc.
    { eapply steps_plain; [exact Hs|]. apply plain_children in Hpa2. rewrite list.Forall_forall in Hpa2. by apply Hpa2. }
    assert (plain_in s3 d) as Hpd.
    { eapply steps_plain; [exact Hs|]. apply plain_children in Hpb'. rewrite list.Forall_forall in Hpb'. by apply Hpb'. }
    destruct (steps_measure _ _ Hs) as [Hlt|[Heq Hu]].
    + destruct (unfolds_exists s3 c Hwf3) as [n' Hn'].
      apply (IHm (free_vars s3) ltac:(lia) s3 Hwf3 ltac:(by rewrite (steps_ignore _ _ Hs03)) eq_refl n'); done.
    + apply IHn; [done|by rewrite (steps_ignore _ _ Hs03)|lia| |done|done].
      apply Hu. by eapply unfolds_children.
  - intros r s3 Hr. by eapply solves_resolved.
Qed.

Lemma unify_settles s a b :
  wf s -> ignore_effects s = negb k -> plain_in s a -> plain_in s b ->
  settles (fun fuel => unify fuel a b) s (unified s a b).
Proof.
  intros Hwf Hig Hpa Hpb. destruct (unfolds_exists s a Hwf) as [n Hn]. by eapply unify_settles_upto.
Qed.
End Unify.
