(* ===== verification/InferProps.v ===== *)
(** * Properties of the inference solver

    The theorems on unification, from fai-types' [infer/ctx.rs]: it terminates, equates, loses no
    generality, keeps levels for generalization; a well-formed context always has a model; and
    what goes wrong with open rows. *)

From S2P Require Import Prelude Types Ordered Infer InferOps InferSem InferStep InferSpec InferUnify.
From stdpp Require Import gmap list strings relations.
From Stdlib Require Import ZArith Lia.

(** ** Models exist *)

(** Approximations that settle at each variable settle at all of them at once. *)
Lemma settles_uniformly {A} (f : nat -> nat -> A) (len : nat) :
  (forall v, exists N, forall m, N <= m -> f m v = f N v) -> (forall v m, len <= v -> f m v = f 0 v) ->
  exists N, forall v m, N <= m -> f m v = f N v.
Proof.
  intros Hv Hout.
  assert (exists N, forall v m, v < len -> N <= m -> f m v = f N v) as [N HN].
  { clear Hout. induction len as [|len [N IH]]; [exists 0; lia|]. destruct (Hv len) as [M HM].
    exists (max N M). intros v m Hlt Hm. destruct (decide (v = len)) as [->|Hne].
    - rewrite (HM m), (HM (max N M)) by lia. done.
    - rewrite (IH v m), (IH v (max N M)) by lia. done. }
  exists N. intros v m Hm. destruct (decide (v < len)); [auto|]. rewrite (Hout v m), (Hout v N) by lia. done.
Qed.

(** The atoms of an effect variable, and the instance of a type variable, up to a depth. *)
Fixpoint eff_inst (s : InferCtx) (n v : nat) : gset InterfaceRef :=
  match n with
  | 0 => ∅
  | S n =>
      match effects s !! v with
      | Some (Eff_Bound e) => eff_at (MkAssignment (fun _ => G_Unit) (eff_inst s n)) e
      | _ => ∅
      end
  end.
Fixpoint ty_inst (k : bool) (s : InferCtx) (eff : nat -> gset InterfaceRef) (n v : nat) : Gty :=
  match n with
  | 0 => G_Unit
  | S n =>
      match vars s !! v with
      | Some (Var_Bound t) => ground k (MkAssignment (ty_inst k s eff n) eff) t
      | _ => G_Unit
      end
  end.

Lemma eff_inst_settles s : wf s -> exists N, forall v m, N <= m -> eff_inst s m v = eff_inst s N v.
Proof.
  intros Hwf. apply (settles_uniformly _ (length (effects s))).
  - intros v. induction (wf_eff_acyclic _ Hwf v) as [v _ IH].
    destruct (effects s !! v) as [[|[atoms [|w]]]|] eqn:Hv;
      try (exists 1; intros [|m] ?; [lia|]; simpl; by rewrite Hv).
    destruct (IH w) as [N HN]; [by exists atoms|]. exists (S N). intros [|m] Hm; [lia|]. simpl. rewrite Hv.
    unfold eff_at. simpl. by rewrite (HN m) by lia.
  - intros v [|m] Hv; [done|]. simpl. by rewrite lookup_ge_None_2.
Qed.

Lemma ty_inst_settles k s eff : wf s -> exists N, forall v m, N <= m -> ty_inst k s eff m v = ty_inst k s eff N v.
Proof.
  intros Hwf. apply (settles_uniformly _ (length (vars s))).
  - intros v. induction (wf_acyclic _ Hwf v) as [v _ IH].
    destruct (vars s !! v) as [[c l|t]|] eqn:Hv; try (exists 1; intros [|m] ?; [lia|]; simpl; by rewrite Hv).
    assert (exists N, forall u m, u ∈ tvars t -> N <= m -> ty_inst k s eff m u = ty_inst k s eff N u) as [N HN].
    { assert (forall u, u ∈ tvars t -> link s u v) as Hl by (intros; by exists t). clear Hv.
      induction (tvars t) as [|u us IHus]; [exists 0; by intros u m ?%elem_of_nil|].
      destruct IHus as [N HN]; [intros x Hx; apply Hl; by right|].
      destruct (IH u) as [M HM]; [apply Hl; left|]. exists (max N M). intros x m [->|Hx]%elem_of_cons Hm.
      - rewrite (HM m), (HM (max N M)) by lia. done.
      - rewrite (HN x m), (HN x (max N M)) by (done || lia). done. }
    exists (S N). intros [|m] Hm; [lia|]. simpl. rewrite Hv. apply ground_ext; [|done].
    intros u Hu. simpl. rewrite (HN u m) by (done || lia). done.
  - intros v [|m] Hv; [done|]. simpl. by rewrite lookup_ge_None_2.
Qed.

Lemma models_exist k s : wf s -> exists theta, models k theta s.
Proof.
  intros Hwf. destruct (eff_inst_settles s Hwf) as [M HM]. destruct (ty_inst_settles k s (eff_inst s M) Hwf) as [N HN].
  exists (MkAssignment (ty_inst k s (eff_inst s M) N) (eff_inst s M)). split; simpl.
  - intros v t Hv. rewrite <- (HN v (S N)) by lia. simpl. by rewrite Hv.
  - intros v e Hv _. rewrite <- (HM v (S M)) by lia. simpl. by rewrite Hv.
Qed.

(** ** Theorems *)

(** C14: On a well-formed context, and types in its range with closed records and no [Error],
    unification returns: it exhausts no stack, and neither an index nor the numbering of
    variables panics.  The context it leaves is well-formed again - acyclic above all. *)
Theorem unify_terminates (s : InferCtx) (a b : SolveTy) :
  wf s -> plain_in s a -> plain_in s b ->
  exists N r s', (forall fuel, N <= fuel -> unify fuel a b s = Done (r, s')) /\ wf s'.
Proof.
  intros Hwf Ha Hb.
  destruct (unify_settles (negb (ignore_effects s)) s a b Hwf) as (N & r & s' & Hu & Hs & _);
    [by rewrite negb_involutive|done|done|].
  exists N, r, s'. split; [done|]. by eapply steps_wf.
Qed.

(** C13: Unification is sound, on a well-formed context and types with closed records and no
    [Error], when effects are unified too: after [Ok] every assignment that satisfies the
    context's bindings gives both types, effects included, the same value, such an assignment
    exists, and each satisfies the bindings there were before. *)
Theorem unify_sound (s : InferCtx) (a b : SolveTy) :
  wf s -> ignore_effects s = false -> plain_in s a -> plain_in s b ->
  exists N r s', (forall fuel, N <= fuel -> unify fuel a b s = Done (r, s'))
    /\ (exists theta, models true theta s')
    /\ (forall theta, models true theta s' -> models true theta s)
    /\ (r = U_Ok -> forall theta, models true theta s' -> ground true theta a = ground true theta b).
Proof.
  intros Hwf Hig Ha Hb. destruct (unify_settles true s a b Hwf Hig Ha Hb) as (N & r & s' & Hu & Hs & Heq & _).
  exists N, r, s'. split; [done|]. split; [by apply models_exist; eapply steps_wf|].
  split; [|done]. intros theta. by apply steps_models.
Qed.

(** C12: Unification that ignores effects (as for an instance's methods), of types with closed
    records and no [Error] on a well-formed context, is most general:
    after [Ok] the assignments that satisfy the context are exactly those that did and make the
    types equal; after a mismatch or a failed occurs check there were none.  A refusal for a
    constraint ([BadConstraint]) is not spoken of. *)
Theorem unify_most_general (s : InferCtx) (a b : SolveTy) :
  wf s -> ignore_effects s = true -> plain_in s a -> plain_in s b ->
  exists N r s', (forall fuel, N <= fuel -> unify fuel a b s = Done (r, s'))
    /\ (r = U_Ok -> forall theta,
          models false theta s' ↔ models false theta s /\ ground false theta a = ground false theta b)
    /\ (r = Mismatch \/ r = Occurs -> forall theta, models false theta s ->
          ground false theta a ≠ ground false theta b).
Proof.
  intros Hwf Hig Ha Hb. destruct (unify_settles false s a b Hwf Hig Ha Hb) as (N & r & s' & Hu & Hs & H1 & H2 & H3).
  exists N, r, s'. split; [done|]. split; [|by apply H3]. intros Hr theta. split.
  - intros Hm. split; [by eapply steps_models|by apply H1].
  - intros [Hm Heq]. by apply H2.
Qed.

(** C15: Unification of types with closed records and no [Error], on a well-formed context, keeps
    levels: when every free variable reached from a variable has a level of at most [l], so
    have those reached after it.  A variable of an enclosing scope never comes to reach one
    that an inner [let] may generalize. *)
Theorem unify_levels (s : InferCtx) (a b : SolveTy) (v l : nat) :
  wf s -> plain_in s a -> plain_in s b -> level_below s v l ->
  exists N r s', (forall fuel, N <= fuel -> unify fuel a b s = Done (r, s')) /\ level_below s' v l.
Proof.
  intros Hwf Ha Hb Hl.
  destruct (unify_settles (negb (ignore_effects s)) s a b Hwf) as (N & r & s' & Hu & Hs & _);
    [by rewrite negb_involutive|done|done|].
  exists N, r, s'. split; [done|]. by eapply steps_levels.
Qed.

(** ** Witnesses *)

(** A context of unbound variables is well-formed. *)
Lemma wf_unbound s :
  forallb is_free_var (vars s) = true -> forallb is_free_eff (effects s) = true ->
  length (effect_origins s) = length (effects s) -> (Z.of_nat (2 * length (effects s)) < 2 ^ 32)%Z -> wf s.
Proof.
  intros Hv He Ho Hroom. rewrite forallb_forall in Hv, He.
  assert (forall v t, vars s !! v ≠ Some (Var_Bound t)) as Hnv.
  { intros v t Hin%list_elem_of_lookup_2%list_elem_of_In. by apply Hv in Hin. }
  assert (forall v e, effects s !! v ≠ Some (Eff_Bound e)) as Hne.
  { intros v e Hin%list_elem_of_lookup_2%list_elem_of_In. by apply He in Hin. }
  split.
  - intros v t Hin. by destruct (Hnv v t).
  - intros v. constructor. intros w (t & Hin & _). by destruct (Hnv v t).
  - intros v e Hin. by destruct (Hne v e).
  - intros v. constructor. intros w (atoms & Hin). by destruct (Hne v _ Hin).
  - done.
  - unfold free_effects. pose proof (length_filter (fun x => is_free_eff x = true) (effects s)). lia.
Qed.

Module Equations.

Definition console : InterfaceRef := MkInterfaceRef 0 "Console".

(** A numeric variable of the outer scope, two of an inner one, and two effect tails. *)
Definition scope (ignored : bool) : InferCtx :=
  MkInferCtx [Var_Free (Some Numeric) 0; Var_Free None 1; Var_Free None 2] [] [Eff_Free; Eff_Free] [0; 1] ignored 2.

Lemma scope_wf ignored : wf (scope ignored).
Proof. by apply wf_unbound. Qed.

(** [a -> b / e0] and [c -> List a / Console, e1]. *)
Definition left_ty : SolveTy := S_Arrow (S_Var 0) (S_Var 1) (MkSolveEffect [] (EffTail_Open 0)).
Definition right_ty : SolveTy := S_Arrow (S_Var 2) (s_list (S_Var 0)) (MkSolveEffect [console] (EffTail_Open 1)).

Lemma left_plain ignored : plain_in (scope ignored) left_ty.
Proof. repeat constructor. Qed.
Lemma right_plain ignored : plain_in (scope ignored) right_ty.
Proof. repeat constructor. Qed.

(** The outer variable reaches only itself. *)
Lemma outer_level ignored : level_below (scope ignored) 0 0.
Proof.
  intros w c l Hr Hw. apply (reaches_free _ 0 (Some Numeric) 0) in Hr as ->; [|done]. by injection Hw as _ <-.
Qed.

Example equations_unify ignored : exists s', unify 10 left_ty right_ty (scope ignored) = Done (U_Ok, s')
  /\ reify 10 s' (S_Var 1) = Done (Ty_App (Ty_Con Con_List) (Ty_Var 0)).
Proof. destruct ignored; eexists; (split; [by vm_compute|by vm_compute]). Qed.
End Equations.

Lemma unify_terminates_witness :
  exists N r s', (forall fuel, N <= fuel ->
    unify fuel Equations.left_ty Equations.right_ty (Equations.scope false) = Done (r, s')) /\ wf s'.
Proof.
  apply unify_terminates; [apply Equations.scope_wf|apply Equations.left_plain|apply Equations.right_plain].
Defined.

Lemma unify_sound_witness :
  exists N r s', (forall fuel, N <= fuel ->
      unify fuel Equations.left_ty Equations.right_ty (Equations.scope false) = Done (r, s'))
    /\ (exists theta, models true theta s')
    /\ (forall theta, models true theta s' -> models true theta (Equations.scope false))
    /\ (r = U_Ok -> forall theta, models true theta s' ->
          ground true theta Equations.left_ty = ground true theta Equations.right_ty).
Proof.
  apply unify_sound; [apply Equations.scope_wf|reflexivity|apply Equations.left_plain|apply Equations.right_plain].
Defined.

Lemma unify_most_general_witness :
  exists N r s', (forall fuel, N <= fuel ->
      unify fuel Equations.left_ty Equations.right_ty (Equations.scope true) = Done (r, s'))
    /\ (r = U_Ok -> forall theta, models false theta s' ↔ models false theta (Equations.scope true)
          /\ ground false theta Equations.left_ty = ground false theta Equations.right_ty)
    /\ (r = Mismatch \/ r = Occurs -> forall theta, models false theta (Equations.scope true) ->
          ground false theta Equations.left_ty ≠ ground false theta Equations.right_ty).
Proof.
  apply unify_most_general; [apply Equations.scope_wf|reflexivity|apply Equations.left_plain|apply Equations.right_plain].
Defined.

Lemma unify_levels_witness :
  exists N r s', (forall fuel, N <= fuel ->
    unify fuel Equations.left_ty Equations.right_ty (Equations.scope false) = Done (r, s')) /\ level_below s' 0 0.
Proof.
  apply unify_levels;
    [apply Equations.scope_wf|apply Equations.left_plain|apply Equations.right_plain|apply Equations.outer_level].
Defined.

(** ** Open rows *)

Definition closed (fields : list (string * SolveTy)) : SolveTy := S_Record fields Tail_Closed.

(** [if c then { r with a = r } else { a = { a = 1, y = 2 } }]: the types of the branches are
    unified and read back. *)
Definition nested_update (fuel : nat) : run (UnifyResult * Ty * Ty) :=
  run_cx (
    r ← fresh_ty; rho ← fresh_row ["a"]; old ← fresh_ty;
    _ ← unify fuel r (S_Record [("a", old)] (Tail_Open rho));
    let updated := S_Record [("a", r)] (Tail_Open rho) in
    let literal := closed [("a", closed [("a", s_int); ("y", s_int)])] in
    result ← unify fuel updated literal;
    t1 ← asks (fun s => reify fuel s updated);
    t2 ← asks (fun s => reify fuel s literal);
    mret (result, t1, t2))%string.

(** [if c then r else { x = r, y = r.y }]: the types of the branches are unified; [k] looks at
    the type of [r]. *)
Definition row_in_itself {A} (fuel : nat) (k : UnifyResult -> InferCtx -> SolveTy -> run A) : run A :=
  run_cx (
    r ← fresh_ty; y ← fresh_ty; rho ← fresh_row ["y"];
    _ ← unify fuel r (S_Record [("y", y)] (Tail_Open rho));
    result ← unify fuel r (closed [("x", r); ("y", y)]);
    asks (fun s => k result s r))%string.

(** Unification of open records is unsound when a row variable occurs in a common field:
    the tails are read before the fields are unified and bound again after, so the binding a
    field made is lost.  Of [{ r with a = r }] and a record whose inner record has a field [y],
    unification succeeds and leaves the types different: the inner record has no [y]. *)
Example row_binding_overwritten (fuel : nat) :
  20 <= fuel ->
  nested_update fuel = Done (U_Ok,
    Ty_Record [("a", Ty_Record [("a", ty_int)] Row_Closed)] Row_Closed,
    Ty_Record [("a", Ty_Record [("a", ty_int); ("y", ty_int)] Row_Closed)] Row_Closed)%string.
Proof. intros Hf. do 20 (destruct fuel as [|fuel]; [lia|]). reflexivity. Qed.

Lemma row_binding_overwritten_witness :
  nested_update 20 = Done (U_Ok,
    Ty_Record [("a", Ty_Record [("a", ty_int)] Row_Closed)] Row_Closed,
    Ty_Record [("a", Ty_Record [("a", ty_int); ("y", ty_int)] Row_Closed)] Row_Closed)%string.
Proof. apply (row_binding_overwritten 20). lia. Defined.

(** The context [row_in_itself] leaves: the row of [r] holds [r]. *)
Definition knot : InferCtx :=
  MkInferCtx [Var_Bound (S_Record [("y", S_Var 1)] (Tail_Open 0)); Var_Free None 0]
    [Row_Bound (MkSolveRow [("x", S_Var 0)] Tail_Closed)] [] [] false 0.

Lemma row_in_itself_knot {A} (fuel : nat) (k : UnifyResult -> InferCtx -> SolveTy -> run A) :
  20 <= fuel -> row_in_itself fuel k = k U_Ok knot (S_Var 0).
Proof.
  intros Hf. do 20 (destruct fuel as [|fuel]; [lia|]).
  transitivity (out ← asks (fun s => k U_Ok s (S_Var 0)) knot; mret out.1 : run A); [reflexivity|].
  unfold asks. by destruct (k U_Ok knot (S_Var 0)).
Qed.

Lemma reify_knot fuel r :
  r = no_renumber \/ is_Some (numbers (re_types r) !! 1) -> reify_inner fuel knot (S_Var 0) r = Exhausted.
Proof.
  revert r. induction fuel as [fuel IH] using lt_wf_ind. intros r Hr.
  do 3 (destruct fuel as [|fuel]; [done|]).
  assert (exists r' m, map_type 1 r = Done (m, r') /\ is_Some (numbers (re_types r') !! 1)) as (r' & m & Hm & Hr').
  { destruct Hr as [->|[m Hm]]; [do 2 eexists; by split|].
    exists r, m. unfold map_type, number. rewrite Hm. simpl. by destruct r. }
  set (field := fun (label : string) (out : Ty * Renumber) => ((label, out.1), out.2)).
  transitivity (
    out ← (y ← (out ← (out ← map_type 1 r; mret (Ty_Var out.1, out.2)); mret (field "y" out));
           ys ← (x ← (out ← reify_inner (S (S fuel)) knot (S_Var 0) y.2; mret (field "x" out));
                 ys ← mret ([], x.2); mret (x.1 :: ys.1, ys.2));
           mret (y.1 :: ys.1, ys.2));
    mret (Ty_Record (sort_by field_le out.1) Row_Closed, out.2) : run (Ty * Renumber))%string; [reflexivity|].
  rewrite Hm. cbn -[reify_inner]. by rewrite (IH (S (S fuel)) ltac:(lia) r' (or_intror Hr')).
Qed.

(** The tail of an open row is bound without an occurs check, so a row may come to hold
    itself: of [r] and a record whose fields are [r] and the one known field of [r],
    unification succeeds, and no stack is deep enough to read the type of [r] back. *)
Example row_holds_itself (fuel : nat) :
  20 <= fuel ->
  row_in_itself fuel (fun result _ _ => mret result) = Done U_Ok
  /\ forall fuel', row_in_itself fuel (fun _ s r => reify fuel' s r) = Exhausted.
Proof.
  intros Hf. rewrite row_in_itself_knot by done. split; [done|]. intros fuel'.
  rewrite row_in_itself_knot by done. unfold reify. rewrite reify_knot by (by left). done.
Qed.

Lemma row_holds_itself_witness :
  row_in_itself 20 (fun result _ _ => mret result) = Done U_Ok
  /\ forall fuel', row_in_itself 20 (fun _ s r => reify fuel' s r) = Exhausted.
Proof. apply (row_holds_itself 20). lia. Defined.

(** Binding the tail of an open row lowers no level: the type of an enclosing parameter, an
    open record with the field [a], is given the field [b] of an inner variable, which a [let]
    around it may then generalize although the parameter's type reaches it. *)
Definition outer_row : InferCtx :=
  MkInferCtx [Var_Bound (S_Record [("a", S_Con Con_Int)] (Tail_Open 0)); Var_Free None 1] [Row_Free ["a"]] [] [] false 1.
Example row_keeps_level :
  unify 20 (S_Var 0) (closed [("a", S_Con Con_Int); ("b", S_Var 1)]) outer_row =
    Done (U_Ok, MkInferCtx [Var_Bound (S_Record [("a", S_Con Con_Int)] (Tail_Open 0)); Var_Free None 1]
      [Row_Bound (MkSolveRow [("b", S_Var 1)] Tail_Closed)] [] [] false 1).
Proof. reflexivity. Qed.
