(* ===== verification/Text.v ===== *)
(** * Text

    Rust's [char] is a Unicode scalar value and a [str] a sequence of them, addressed by the
    byte offsets of its UTF-8 encoding. *)

From S2P Require Import Prelude.
From stdpp Require Import list.
From Stdlib Require Import ZArith Lia.

(** A [char], and the [&str] of its characters. *)
Abbreviation char := Z.
Abbreviation text := (list Z).

(** [char::from_u32]: neither a surrogate nor beyond the last plane. *)
Definition is_scalar (n : Z) : bool :=
  ((0 <=? n) && (n <? 0xD800) || (0xDFFF <? n) && (n <=? 0x10FFFF))%Z.
Definition char_from_u32 (n : Z) : option char := if is_scalar n then Some n else None.

(** [char::len_utf8] *)
Definition len_utf8 (c : char) : nat :=
  if (c <? 0x80)%Z then 1 else if (c <? 0x800)%Z then 2 else if (c <? 0x10000)%Z then 3 else 4.

(** The UTF-8 encoding of a character. *)
Definition continuation (n : Z) : Z := (0x80 + Z.land n 0x3F)%Z.
Definition encode_utf8 (c : char) : list Z :=
  (if c <? 0x80 then [c]
   else if c <? 0x800 then [0xC0 + Z.shiftr c 6; continuation c]
   else if c <? 0x10000 then [0xE0 + Z.shiftr c 12; continuation (Z.shiftr c 6); continuation c]
   else [0xF0 + Z.shiftr c 18; continuation (Z.shiftr c 12); continuation (Z.shiftr c 6); continuation c])%Z.
Definition into_bytes (s : text) : list Z := s ≫= encode_utf8.

(** [str::len] *)
Definition str_len (s : text) : nat := list_sum (len_utf8 <$> s).

Lemma len_utf8_pos c : 1 <= len_utf8 c <= 4.
Proof. unfold len_utf8. repeat case_match; lia. Qed.

Lemma str_len_cons c s : str_len (c :: s) = len_utf8 c + str_len s.
Proof. done. Qed.

Lemma str_len_app s s' : str_len (s ++ s') = str_len s + str_len s'.
Proof. induction s as [|c s IH]; [done|]. cbn [app]. rewrite !str_len_cons, IH. lia. Qed.

Lemma length_encode_utf8 c : length (encode_utf8 c) = len_utf8 c.
Proof. unfold encode_utf8, len_utf8. by repeat case_match. Qed.

Lemma length_into_bytes s : length (into_bytes s) = str_len s.
Proof.
  induction s as [|c s IH]; [done|]. unfold into_bytes in *. rewrite bind_cons.
  by rewrite length_app, length_encode_utf8, str_len_cons, IH.
Qed.

(** [str::char_indices]: each character with the byte offset where it starts. *)
Fixpoint char_indices_from (offset : nat) (s : text) : list (nat * char) :=
  match s with
  | [] => []
  | c :: s => (offset, c) :: char_indices_from (offset + len_utf8 c) s
  end.
Definition char_indices (s : text) : list (nat * char) := char_indices_from 0 s.

(** The text from a byte offset on; [None] when it is no character boundary. *)
Fixpoint str_from (s : text) (offset : nat) : option text :=
  match offset with
  | 0 => Some s
  | _ =>
      match s with
      | [] => None
      | c :: s' => if len_utf8 c <=? offset then str_from s' (offset - len_utf8 c) else None
      end
  end.

(** The text up to a byte offset. *)
Fixpoint str_to (s : text) (offset : nat) : option text :=
  match offset with
  | 0 => Some []
  | _ =>
      match s with
      | [] => None
      | c :: s' =>
          if len_utf8 c <=? offset then rest ← str_to s' (offset - len_utf8 c); Some (c :: rest) else None
      end
  end.

(** [s.get(start..end)] *)
Definition str_get (s : text) (start stop : nat) : option text :=
  if start <=? stop then tail ← str_from s start; str_to tail (stop - start) else None.

Lemma str_from_len s s' : str_from (s ++ s') (str_len s) = Some s'.
Proof.
  induction s as [|c s IH]; simpl app; [by destruct s'|].
  rewrite str_len_cons. pose proof (len_utf8_pos c).
  destruct (len_utf8 c + str_len s) as [|n] eqn:Hn; [lia|]. simpl.
  destruct (Nat.leb_spec (len_utf8 c) (S n)); [|lia].
  replace (S n - len_utf8 c) with (str_len s) by lia. done.
Qed.

Lemma str_to_len s s' : str_to (s ++ s') (str_len s) = Some s.
Proof.
  induction s as [|c s IH]; simpl app; [by destruct s'|].
  rewrite str_len_cons. pose proof (len_utf8_pos c).
  destruct (len_utf8 c + str_len s) as [|n] eqn:Hn; [lia|]. simpl.
  destruct (Nat.leb_spec (len_utf8 c) (S n)); [|lia].
  replace (S n - len_utf8 c) with (str_len s) by lia. by rewrite IH.
Qed.

Lemma str_get_middle s1 s2 s3 :
  str_get (s1 ++ s2 ++ s3) (str_len s1) (str_len s1 + str_len s2) = Some s2.
Proof.
  unfold str_get. destruct (Nat.leb_spec (str_len s1) (str_len s1 + str_len s2)); [|lia].
  rewrite str_from_len. simpl. replace (_ - _) with (str_len s2) by lia. apply str_to_len.
Qed.
