(* ===== verification/Literals.v ===== *)
(** * Literals

    fai-syntax's [literal.rs]: the values of integer, character and string lexemes.  Floats are
    left to the standard library's correctly rounded [f64] parser, a parameter. *)

From S2P Require Import Prelude Text.
From stdpp Require Import list strings.
From Stdlib Require Import ZArith Lia.

(** The bytes of an ASCII text. *)
Definition bytes_of (s : string) : list Z := (fun b => Z.of_nat (Ascii.nat_of_ascii b)) <$> String.list_ascii_of_string s.

(** ** Integers *)

(** [u64::checked_mul] and [u64::checked_add]; [u64 as i64] and [i64::wrapping_neg]. *)
Definition u64_checked (n : Z) : option Z := if (n <? 2 ^ 64)%Z then Some n else None.
Definition as_i64 (n : Z) : Z := if (n <? 2 ^ 63)%Z then n else (n - 2 ^ 64)%Z.
Definition i64_wrapping_neg (n : Z) : Z := if (n =? - 2 ^ 63)%Z then n else (- n)%Z.

(** The value of one digit byte, in any radix up to sixteen. *)
Definition digit_value (byte : Z) : option Z :=
  (if (48 <=? byte) && (byte <=? 57) then Some (byte - 48)
   else if (97 <=? byte) && (byte <=? 102) then Some (byte - 97 + 10)
   else if (65 <=? byte) && (byte <=? 70) then Some (byte - 65 + 10)
   else None)%Z.

(** The loop over the digits; 95 is the separator [_]. *)
Fixpoint decode_digits (radix : Z) (digits : list Z) (value : Z) (any : bool) : option (Z * bool) :=
  match digits with
  | [] => Some (value, any)
  | byte :: digits =>
      if (byte =? 95)%Z then decode_digits radix digits value any
      else
        digit ← digit_value byte;
        if (radix <=? digit)%Z then None
        else
          value ← u64_checked (value * radix);
          value ← u64_checked (value + digit);
          decode_digits radix digits value true
  end.

(** The radix a prefix names, and the digits after it. *)
Definition split_radix (magnitude : list Z) : Z * list Z :=
  match magnitude with
  | 48 :: x :: digits =>
      if (x =? 120) || (x =? 88) then (16, digits)
      else if (x =? 111) || (x =? 79) then (8, digits)
      else if (x =? 98) || (x =? 66) then (2, digits)
      else (10, magnitude)
  | _ => (10, magnitude)
  end%Z.

(** [decode_int_literal] *)
Definition decode_int_literal (raw : list Z) : option Z :=
  let '(negative, magnitude) := match raw with 45%Z :: rest => (true, rest) | _ => (false, raw) end in
  let '(radix, digits) := split_radix magnitude in
  '(value, any) ← decode_digits radix digits 0%Z false;
  let value := as_i64 value in
  if any : bool then Some (if negative : bool then i64_wrapping_neg value else value) else None.

(** ** Characters and strings *)

(** [u32::from_str_radix(digits, 16)]: an optional plus sign, then digits without separators. *)
Fixpoint hex_digits (digits : text) (value : Z) : option Z :=
  match digits with
  | [] => Some value
  | c :: digits =>
      digit ← digit_value c;
      let value := (value * 16 + digit)%Z in
      if (value <? 2 ^ 32)%Z then hex_digits digits value else None
  end.
Definition u32_from_hex (digits : text) : option Z :=
  match digits with
  | [] => None
  | [43%Z] => None
  | 43%Z :: digits => hex_digits digits 0
  | _ => hex_digits digits 0
  end.

(** The digits up to the closing brace (125), and what follows it. *)
Fixpoint take_braced (chars : text) : option (text * text) :=
  match chars with
  | [] => None
  | c :: chars =>
      if (c =? 125)%Z then Some ([], chars)
      else '(digits, rest) ← take_braced chars; Some (c :: digits, rest)
  end.

(** [decode_escape]: after a backslash; the escaped character and the rest. *)
Definition decode_escape (chars : text) : option (char * text) :=
  match chars with
  | [] => None
  | c :: rest =>
      if (c =? 110)%Z then Some (10%Z, rest)
      else if (c =? 116)%Z then Some (9%Z, rest)
      else if (c =? 114)%Z then Some (13%Z, rest)
      else if (c =? 48)%Z then Some (0%Z, rest)
      else if (c =? 92)%Z then Some (92%Z, rest)
      else if (c =? 34)%Z then Some (34%Z, rest)
      else if (c =? 39)%Z then Some (39%Z, rest)
      else if (c =? 117)%Z then
        match rest with
        | 123%Z :: rest =>
            '(digits, rest) ← take_braced rest;
            n ← u32_from_hex digits;
            c ← char_from_u32 n;
            Some (c, rest)
        | _ => None
        end
      else None
  end.

(** The text between two quotes. *)
Definition strip_quotes (quote : char) (raw : text) : option text :=
  match raw with
  | c :: rest =>
      if (c =? quote)%Z then
        match last rest with
        | Some c => if (c =? quote)%Z then Some (removelast rest) else None
        | None => None
        end
      else None
  | [] => None
  end.

(** [decode_char_literal] *)
Definition decode_char_literal (raw : text) : option char :=
  inner ← strip_quotes 39%Z raw;
  match inner with
  | [] => None
  | first :: chars =>
      '(value, chars) ← (if (first =? 92)%Z then decode_escape chars else Some (first, chars));
      match chars with [] => Some value | _ => None end
  end.

(** The loop of [decode_string_literal]; each iteration takes a character. *)
Fixpoint decode_chars (fuel : nat) (chars : text) : option text :=
  match fuel with
  | 0 => None
  | S fuel =>
      match chars with
      | [] => Some []
      | c :: chars =>
          '(c, chars) ← (if (c =? 92)%Z then decode_escape chars else Some (c, chars));
          out ← decode_chars fuel chars;
          Some (c :: out)
      end
  end.

(** [decode_string_literal] *)
Definition decode_string_literal (raw : text) : option (list Z) :=
  inner ← strip_quotes 34%Z raw;
  out ← decode_chars (S (length inner)) inner;
  Some (into_bytes out).

Section Float.
(** [str::parse::<f64>] and [f64::to_bits]. *)
Context (parse_f64_bits : text -> option Z).

(** [decode_float_literal] *)
Definition decode_float_literal (raw : text) : option Z :=
  parse_f64_bits (filter (fun c => c ≠ 95%Z) raw).
End Float.

Example full_width : decode_int_literal (bytes_of "18446744073709551615") = Some (-1)%Z.
Proof. reflexivity. Qed.
Example signed_minimum : decode_int_literal (bytes_of "-9223372036854775808") = Some (- 2 ^ 63)%Z.
Proof. reflexivity. Qed.
Example overflow : decode_int_literal (bytes_of "0x1_0000_0000_0000_0000") = None.
Proof. reflexivity. Qed.

(** ** Fuel *)

Lemma take_braced_shorter chars digits rest :
  take_braced chars = Some (digits, rest) -> length rest < length chars.
Proof.
  revert digits rest; induction chars as [|c chars IH]; intros digits rest; simpl; [done|].
  case_match; [intros [= <- <-]; lia|].
  destruct (take_braced chars) as [[d r]|] eqn:Ht; simpl; [|done].
  intros [= <- <-]. specialize (IH _ _ eq_refl). lia.
Qed.

Lemma decode_escape_shorter chars c rest : decode_escape chars = Some (c, rest) -> length rest < length chars.
Proof.
  destruct chars as [|x chars]; simpl; [done|].
  repeat (case_match; [intros [= <- <-]; simpl; lia|]). case_match; [|done].
  assert (forall (o : text -> option (char * text)) (P : Prop),
    (forall chars', chars = 123%Z :: chars' -> o chars' = Some (c, rest) -> P) ->
    match chars with 123%Z :: chars' => o chars' | _ => None end = Some (c, rest) -> P) as Hbrace.
  { intros o P HP. destruct chars as [|b chars']; [done|].
    destruct b as [|p|p]; try done. repeat (destruct p as [p|p|]; try done). by apply HP. }
  apply Hbrace. intros chars' ->.
  destruct (take_braced chars') as [[digits r]|] eqn:Ht; simpl; [|done].
  destruct (u32_from_hex digits) as [n|]; simpl; [|done].
  destruct (char_from_u32 n); simpl; [|done]. intros [= <- <-].
  apply take_braced_shorter in Ht. simpl. lia.
Qed.

(** One unit of fuel per character is enough. *)
Lemma decode_chars_enough n m chars :
  length chars < n -> length chars < m -> decode_chars n chars = decode_chars m chars.
Proof.
  revert m chars; induction n as [|n IH]; intros [|m] chars Hn Hm; try lia.
  destruct chars as [|c chars]; [done|]. simpl in *.
  destruct (c =? 92)%Z; simpl.
  - destruct (decode_escape chars) as [[c' rest]|] eqn:He; simpl; [|done].
    apply decode_escape_shorter in He. by rewrite (IH m rest) by lia.
  - by rewrite (IH m chars) by lia.
Qed.

(** ** What an integer lexeme denotes *)

(** The two's complement reading of an integer in 64 bits. *)
Definition wrap_i64 (n : Z) : Z := ((n + 2 ^ 63) mod 2 ^ 64 - 2 ^ 63)%Z.

(** The positional value of digits. *)
Definition horner (radix : Z) (value : Z) (digits : list Z) : Z :=
  fold_left (fun value digit => (value * radix + digit)%Z) digits value.

(** The digits of a text with separators anywhere. *)
Inductive digit_text (radix : Z) : list Z -> list Z -> Prop :=
| DT_Nil : digit_text radix [] []
| DT_Separator bytes digits : digit_text radix bytes digits -> digit_text radix (95%Z :: bytes) digits
| DT_Digit byte digit bytes digits :
    digit_value byte = Some digit -> (digit < radix)%Z -> digit_text radix bytes digits ->
    digit_text radix (byte :: bytes) (digit :: digits).

(** The prefixes of the radices. *)
Inductive radix_prefix : Z -> list Z -> Prop :=
| RP_Decimal : radix_prefix 10 []
| RP_Hex x : x = 120%Z \/ x = 88%Z -> radix_prefix 16 [48%Z; x]
| RP_Octal x : x = 111%Z \/ x = 79%Z -> radix_prefix 8 [48%Z; x]
| RP_Binary x : x = 98%Z \/ x = 66%Z -> radix_prefix 2 [48%Z; x].

Lemma digit_value_bounds byte digit :
  digit_value byte = Some digit -> (0 <= digit < 16)%Z /\ byte ≠ 95%Z /\ byte ≠ 45%Z
    /\ (digit < 10 -> 48 <= byte <= 57)%Z.
Proof.
  unfold digit_value.
  destruct ((48 <=? byte) && (byte <=? 57))%Z eqn:H1; [|destruct ((97 <=? byte) && (byte <=? 102))%Z eqn:H2;
    [|destruct ((65 <=? byte) && (byte <=? 70))%Z eqn:H3; [|done]]];
    intros [= <-]; rewrite andb_true_iff, !Z.leb_le in *; lia.
Qed.

Lemma horner_mono radix digits value :
  (1 <= radix)%Z -> Forall (fun d => 0 <= d)%Z digits -> (0 <= value)%Z -> (value <= horner radix value digits)%Z.
Proof.
  intros Hr Hd. revert value; induction Hd as [|d digits Hd _ IH]; intros value Hv; [done|].
  unfold horner in *. simpl. specialize (IH (value * radix + d)%Z ltac:(nia)). nia.
Qed.

Lemma digit_text_nonneg radix bytes digits : digit_text radix bytes digits -> Forall (fun d => 0 <= d)%Z digits.
Proof.
  induction 1 as [|? ? _ IH|byte digit ? ? Hv _ _ IH]; [constructor|done|].
  constructor; [|done]. by apply digit_value_bounds in Hv as [[? _] _].
Qed.

(** The loop computes the positional value, and fails exactly when it leaves 64 bits. *)
Lemma decode_digits_spec radix bytes digits value any :
  (1 <= radix)%Z -> digit_text radix bytes digits -> (0 <= value < 2 ^ 64)%Z ->
  decode_digits radix bytes value any =
    if (horner radix value digits <? 2 ^ 64)%Z
    then Some (horner radix value digits, any || negb (bool_decide (digits = []))) else None.
Proof.
  intros Hr Hd. revert value any.
  induction Hd as [|bytes digits Hd IH|byte digit bytes digits Hv Hlt Hd IH]; intros value any Hval.
  - simpl. unfold horner; simpl. destruct (Z.ltb_spec value (2 ^ 64)); [|lia]. by rewrite orb_false_r.
  - simpl. by apply IH.
  - pose proof (digit_value_bounds _ _ Hv) as (Hb & Hsep & _).
    pose proof (digit_text_nonneg _ _ _ Hd) as Hnn.
    cbn [decode_digits]. destruct (Z.eqb_spec byte 95); [done|].
    rewrite Hv. change (horner radix value (digit :: digits)) with (horner radix (value * radix + digit) digits).
    pose proof (horner_mono radix digits (value * radix + digit) Hr Hnn ltac:(nia)) as Hmono.
    cbv beta iota delta [mbind option_bind]. destruct (Z.leb_spec radix digit); [lia|].
    unfold u64_checked at 1. destruct (Z.ltb_spec (value * radix) (2 ^ 64)) as [Hm|Hm]; cbv beta iota delta [mbind option_bind].
    + unfold u64_checked. destruct (Z.ltb_spec (value * radix + digit) (2 ^ 64)) as [Ha|Ha]; cbv beta iota delta [mbind option_bind].
      * rewrite IH by nia. by rewrite orb_true_r.
      * destruct (Z.ltb_spec (horner radix (value * radix + digit) digits) (2 ^ 64)); [lia|done].
    + destruct (Z.ltb_spec (horner radix (value * radix + digit) digits) (2 ^ 64)); [lia|done].
Qed.

Lemma split_radix_prefix radix prefix bytes digits :
  radix_prefix radix prefix -> digit_text radix bytes digits -> split_radix (prefix ++ bytes) = (radix, bytes).
Proof.
  intros Hp Hd. destruct Hp as [|x Hx|x Hx|x Hx]; simpl app.
  - unfold split_radix. inversion Hd as [|? ? Hd'|byte digit bytes' ? Hv Hlt Hd']; subst; [done..|].
    destruct (decide (byte = 48%Z)) as [->|Hb]; cycle 1.
    { destruct byte as [|p|p]; try done. repeat (destruct p as [p|p|]; try done). }
    inversion Hd' as [|? ? Hd''|byte digit' ? ? Hv' Hlt' Hd'']; subst; [done..|].
    apply digit_value_bounds in Hv' as (_ & _ & _ & Hr). specialize (Hr Hlt').
    repeat match goal with |- context [(byte =? ?n)%Z] => destruct (Z.eqb_spec byte n); [lia|] end. done.
  - destruct Hx as [-> | ->]; reflexivity.
  - destruct Hx as [-> | ->]; reflexivity.
  - destruct Hx as [-> | ->]; reflexivity.
Qed.

Lemma wrap_as_i64 n : (0 <= n < 2 ^ 64)%Z -> as_i64 n = wrap_i64 n.
Proof.
  intros Hn. unfold as_i64, wrap_i64. destruct (Z.ltb_spec n (2 ^ 63)).
  - rewrite Z.mod_small by lia. lia.
  - rewrite <- (Z.mod_unique (n + 2 ^ 63) (2 ^ 64) 1 (n - 2 ^ 63)); lia.
Qed.

Lemma wrap_neg_i64 n : (0 <= n < 2 ^ 64)%Z -> i64_wrapping_neg (as_i64 n) = wrap_i64 (- n).
Proof.
  intros Hn. unfold i64_wrapping_neg, as_i64, wrap_i64. destruct (Z.ltb_spec n (2 ^ 63)).
  - destruct (Z.eqb_spec n (- 2 ^ 63)); [lia|]. rewrite Z.mod_small by lia. lia.
  - destruct (Z.eqb_spec (n - 2 ^ 64) (- 2 ^ 63)).
    + rewrite Z.mod_small by lia. lia.
    + rewrite <- (Z.mod_unique (- n + 2 ^ 63) (2 ^ 64) (-1) (- n + 2 ^ 63 + 2 ^ 64)); lia.
Qed.

Lemma radix_prefix_pos radix prefix : radix_prefix radix prefix -> (1 <= radix)%Z.
Proof. by destruct 1. Qed.

Lemma unsigned_lexeme radix prefix bytes digits :
  radix_prefix radix prefix -> digit_text radix bytes digits -> digits ≠ [] ->
  exists b rest, prefix ++ bytes = b :: rest /\ b ≠ 45%Z.
Proof.
  intros Hp Hd Hne. destruct Hp; simpl; try (by eauto).
  inversion Hd as [|? ? Hd'|byte digit bytes' ? Hv Hlt Hd']; subst; [done|by eauto|].
  apply digit_value_bounds in Hv as (_ & _ & ? & _). eauto.
Qed.

(** C39: An integer lexeme, with a sign, a radix prefix and separators anywhere among its digits,
    decodes to the two's complement reading of its positional value when the magnitude fits in
    64 bits, and to nothing otherwise. *)
Theorem decode_int_value (negative : bool) (radix : Z) (prefix bytes digits : list Z) :
  radix_prefix radix prefix -> digit_text radix bytes digits -> digits ≠ [] ->
  decode_int_literal ((if negative then [45%Z] else []) ++ prefix ++ bytes) =
    if (horner radix 0 digits <? 2 ^ 64)%Z
    then Some (wrap_i64 (if negative then - horner radix 0 digits else horner radix 0 digits)) else None.
Proof.
  intros Hp Hd Hne. destruct (unsigned_lexeme _ _ _ _ Hp Hd Hne) as (b & rest & Hb & Hsign).
  pose proof (horner_mono radix digits 0 (radix_prefix_pos _ _ Hp) (digit_text_nonneg _ _ _ Hd) ltac:(lia)) as Hpos.
  assert (match (if negative then [45%Z] else []) ++ prefix ++ bytes with
      | 45%Z :: rest => (true, rest) | _ => (false, (if negative then [45%Z] else []) ++ prefix ++ bytes) end
    = (negative, prefix ++ bytes)) as Hsplit.
  { destruct negative; [done|]. simpl. rewrite Hb. destruct b as [|p|p]; try done.
    repeat (destruct p as [p|p|]; try done). }
  unfold decode_int_literal. rewrite Hsplit, (split_radix_prefix _ _ _ _ Hp Hd).
  rewrite (decode_digits_spec radix bytes digits) by (try done; by eapply radix_prefix_pos).
  destruct (Z.ltb_spec (horner radix 0 digits) (2 ^ 64)); [|done].
  simpl. rewrite bool_decide_eq_false_2 by done. simpl.
  destruct negative; [by rewrite wrap_neg_i64|by rewrite wrap_as_i64].
Qed.

Lemma decode_int_value_witness :
  decode_int_literal (bytes_of "-0xFF_ff") = Some (-65535)%Z.
Proof.
  refine (decode_int_value true 16 [48; 120]%Z (bytes_of "FF_ff") [15; 15; 15; 15]%Z (RP_Hex _ (or_introl eq_refl)) _ _);
    [|done]. repeat (apply DT_Separator || (eapply DT_Digit; [reflexivity|lia|]) || apply DT_Nil).
Defined.
