(* ===== verification/Lines.v ===== *)
(** * Lines and columns

    fai-span's [line.rs] and the offsets of [span.rs]: the table of line starts, the map from
    byte offsets to lines and columns, and its inverse.  [None] is a panic. *)

From S2P Require Import Prelude Text.
From stdpp Require Import list sorting.
From Stdlib Require Import ZArith Lia.

(** [ByteOffset::from_usize] panics beyond 32 bits. *)
Definition from_usize (value : nat) : option nat :=
  if (Z.of_nat value <? 2 ^ 32)%Z then Some value else None.
(** An increment of a [u32], checked. *)
Definition u32_succ (value : nat) : option nat := from_usize (S value).

(** [LineCol]: both from one. *)
Record LineCol := MkLineCol { lc_line : nat; lc_column : nat }.

(** [LineIndex] *)
Record LineIndex := MkLineIndex { line_starts : list nat; li_len : nat }.

(** The offsets after the newline bytes of a text. *)
Fixpoint starts_of_bytes (i : nat) (bytes : list Z) : option (list nat) :=
  match bytes with
  | [] => Some []
  | b :: bytes =>
      if (b =? 10)%Z then
        start ← from_usize (i + 1); rest ← starts_of_bytes (S i) bytes; Some (start :: rest)
      else starts_of_bytes (S i) bytes
  end.

(** [LineIndex::new] *)
Definition new_index (s : text) : option LineIndex :=
  starts ← starts_of_bytes 0 (into_bytes s);
  len ← from_usize (str_len s);
  Some (MkLineIndex (0 :: starts) len).

(** [LineIndex::line_count] *)
Definition line_count (index : LineIndex) : option nat := from_usize (length (line_starts index)).

(** [slice::binary_search] on distinct sorted elements: the place of an element, or where it
    would go. *)
Definition binary_search (xs : list nat) (x : nat) : nat + nat :=
  let place := length (filter (fun y => y < x) xs) in
  if bool_decide (xs !! place = Some x) then inl place else inr place.

(** The line of a clamped offset. *)
Definition line_of (index : LineIndex) (offset : nat) : option nat :=
  match binary_search (line_starts index) offset with
  | inl exact => Some exact
  | inr 0 => None
  | inr (S insertion) => Some insertion
  end.

(** [LineIndex::line] *)
Definition line (index : LineIndex) (offset : nat) : option nat :=
  line ← line_of index (min offset (li_len index));
  line ← from_usize line;
  u32_succ line.

(** The characters that start before the target: the loop of [line_col]. *)
Fixpoint count_before (line_start target : nat) (indices : list (nat * char)) (column : nat) : option nat :=
  match indices with
  | [] => Some column
  | (i, _) :: indices =>
      if target <=? line_start + i then Some column
      else column ← u32_succ column; count_before line_start target indices column
  end.

(** [LineIndex::line_col] *)
Definition line_col (index : LineIndex) (s : text) (offset : nat) : option LineCol :=
  let offset := min offset (li_len index) in
  line ← line_of index offset;
  line_start ← line_starts index !! line;
  rest ← str_from s line_start;
  column ← count_before line_start offset (char_indices rest) 0;
  line ← from_usize line;
  line ← u32_succ line;
  column ← u32_succ column;
  Some (MkLineCol line column).

(** [LineIndex::offset]; the inner [None] is the function's own. *)
Definition offset (index : LineIndex) (s : text) (position : LineCol) : option (option nat) :=
  match lc_line position, lc_column position with
  | S line, S column =>
      match line_starts index !! line with
      | None => Some None
      | Some start =>
          let stop := match line_starts index !! S line with
                      | Some next => next - 1
                      | None => li_len index
                      end in
          match str_get s start stop with
          | None => Some None
          | Some content =>
              match ((char_indices content).*1 ++ [str_len content]) !! column with
              | None => Some None
              | Some i => o ← from_usize (start + i); Some (Some o)
              end
          end
      end
  | _, _ => Some None
  end.

(** ** Newlines *)

Definition newline : char := 10%Z.
Definition newlines (s : text) : nat := length (filter (fun c => c = newline) s).

Lemma newlines_app s s' : newlines (s ++ s') = newlines s + newlines s'.
Proof. unfold newlines. by rewrite filter_app, length_app. Qed.

Lemma newlines_cons c s : newlines (c :: s) = (if decide (c = newline) then 1 else 0) + newlines s.
Proof. unfold newlines. rewrite filter_cons. by case_decide. Qed.

Lemma newlines_bound s : newlines s <= str_len s.
Proof.
  induction s as [|c s IH]; [done|]. rewrite newlines_cons, str_len_cons.
  pose proof (len_utf8_pos c). case_decide; lia.
Qed.

Lemma length_bound (s : text) : length s <= str_len s.
Proof. induction s as [|c s IH]; [done|]. rewrite str_len_cons. pose proof (len_utf8_pos c). simpl. lia. Qed.

(** The offsets after the newline characters. *)
Fixpoint starts_of (off : nat) (s : text) : list nat :=
  match s with
  | [] => []
  | c :: s => if decide (c = newline) then S off :: starts_of (S off) s else starts_of (off + len_utf8 c) s
  end.

Lemma starts_of_app off s s' : starts_of off (s ++ s') = starts_of off s ++ starts_of (off + str_len s) s'.
Proof.
  revert off; induction s as [|c s IH]; intros off; cbn [app starts_of].
  - by rewrite Nat.add_0_r.
  - rewrite str_len_cons. case_decide as Hc; rewrite IH.
    + subst. simpl. do 2 f_equal. f_equal. lia.
    + do 2 f_equal. lia.
Qed.

Lemma length_starts_of off s : length (starts_of off s) = newlines s.
Proof.
  revert off; induction s as [|c s IH]; intros off; [done|].
  rewrite newlines_cons. cbn [starts_of]. case_decide; simpl; by rewrite IH.
Qed.

Lemma starts_of_bounds off s x : x ∈ starts_of off s -> off < x <= off + str_len s.
Proof.
  revert off; induction s as [|c s IH]; intros off; cbn [starts_of]; [by intros ?%elem_of_nil|].
  rewrite str_len_cons. pose proof (len_utf8_pos c). case_decide.
  - intros [->|Hx%IH]%elem_of_cons; lia.
  - intros Hx%IH. lia.
Qed.

Lemma starts_of_none off s : newlines s = 0 -> starts_of off s = [].
Proof. intros Hs. apply nil_length_inv. by rewrite length_starts_of. Qed.

(** A character's bytes hold a newline byte only when it is the newline. *)
Lemma encode_no_newline c : is_scalar c = true -> c ≠ newline -> Forall (fun b => (b =? 10)%Z = false) (encode_utf8 c).
Proof.
  intros Hs Hn. unfold is_scalar in Hs.
  assert (0 <= c <= 0x10FFFF)%Z as Hc.
  { rewrite orb_true_iff, !andb_true_iff, Z.leb_le, !Z.ltb_lt, Z.leb_le in Hs. lia. }
  assert (forall n, (continuation n =? 10)%Z = false) as Hcont.
  { intros n. unfold continuation. apply Z.eqb_neq.
    pose proof (Z.land_nonneg n 0x3F) as [_ Hl]. specialize (Hl ltac:(lia)). lia. }
  assert (forall n k, (0 <= n)%Z -> (0xC0 <= k)%Z -> (k + Z.shiftr c n =? 10)%Z = false) as Hlead.
  { intros n k Hn' Hk. apply Z.eqb_neq. pose proof (Z.shiftr_nonneg c n) as [_ Hl]. specialize (Hl ltac:(lia)). lia. }
  unfold encode_utf8. repeat case_match; repeat constructor; try apply Hcont; try (apply Hlead; lia).
  by apply Z.eqb_neq.
Qed.

Lemma starts_of_bytes_skip i bytes rest :
  Forall (fun b => (b =? 10)%Z = false) bytes -> starts_of_bytes i (bytes ++ rest) = starts_of_bytes (i + length bytes) rest.
Proof.
  intros Hb. revert i; induction Hb as [|b bytes Hb _ IH]; intros i; simpl; [by rewrite Nat.add_0_r|].
  rewrite Hb, IH. f_equal. lia.
Qed.

(** A text a file can hold: scalar values, fewer than 2^32 - 1 bytes. *)
Definition fits (s : text) : Prop :=
  Forall (fun c => is_scalar c = true) s /\ (Z.of_nat (str_len s) < 2 ^ 32 - 1)%Z.

Lemma from_usize_fits n : (Z.of_nat n < 2 ^ 32)%Z -> from_usize n = Some n.
Proof. intros Hn. unfold from_usize. by destruct (Z.ltb_spec (Z.of_nat n) (2 ^ 32)); [|lia]. Qed.

Lemma u32_succ_fits n : (Z.of_nat n < 2 ^ 32 - 1)%Z -> u32_succ n = Some (S n).
Proof. intros Hn. unfold u32_succ. apply from_usize_fits. lia. Qed.

Lemma starts_of_bytes_spec i s :
  Forall (fun c => is_scalar c = true) s -> (Z.of_nat (i + str_len s) < 2 ^ 32)%Z ->
  starts_of_bytes i (into_bytes s) = Some (starts_of i s).
Proof.
  intros Hs. revert i; induction Hs as [|c s Hc Hs IH]; intros i Hi; [done|].
  rewrite str_len_cons in Hi. unfold into_bytes. rewrite bind_cons. fold (into_bytes s). cbn [starts_of].
  case_decide as Hn.
  - subst c. change (encode_utf8 newline) with [10%Z]. change (len_utf8 newline) with 1 in Hi.
    cbn [app starts_of_bytes]. change (10 =? 10)%Z with true. cbv iota.
    rewrite from_usize_fits by lia. rewrite IH by lia. simpl. do 2 f_equal. lia.
  - rewrite starts_of_bytes_skip by (by apply encode_no_newline).
    rewrite length_encode_utf8. apply IH. lia.
Qed.

Lemma new_index_spec s : fits s -> new_index s = Some (MkLineIndex (0 :: starts_of 0 s) (str_len s)).
Proof.
  intros [Hs Hlen]. unfold new_index. rewrite starts_of_bytes_spec by (try done; lia). simpl.
  by rewrite from_usize_fits by lia.
Qed.

(** ** A position in its line *)

(** [s] is cut into the lines before, the part of the line before and after the position, and
    the rest: nothing, or a newline and what follows. *)
Record cut (s before left right rest : text) : Prop := {
  ct_text : s = before ++ left ++ right ++ rest;
  ct_before : before = [] \/ last before = Some newline;
  ct_left : newlines left = 0;
  ct_right : newlines right = 0;
  ct_rest : rest = [] \/ head rest = Some newline }.

Lemma cut_starts s before left right rest :
  cut s before left right rest ->
  0 :: starts_of 0 s = (0 :: starts_of 0 before) ++ starts_of (str_len before + str_len left + str_len right) rest
  /\ last (0 :: starts_of 0 before) = Some (str_len before)
  /\ (forall x, x ∈ 0 :: starts_of 0 before -> x <= str_len before)
  /\ (forall x, x ∈ starts_of (str_len before + str_len left + str_len right) rest ->
        str_len before + str_len left + str_len right < x).
Proof.
  intros [-> Hb Hl Hr _]. split; [|split; [|split]].
  - rewrite !starts_of_app, (starts_of_none _ left), (starts_of_none _ right) by done. simpl.
    done.
  - destruct Hb as [->|Hb]; [done|]. apply last_Some in Hb as [before' ->].
    rewrite starts_of_app, str_len_app. simpl. rewrite last_cons, last_snoc. f_equal.
    change (str_len [newline]) with 1. lia.
  - intros x [->|Hx%starts_of_bounds]%elem_of_cons; lia.
  - intros x Hx%starts_of_bounds. lia.
Qed.

Lemma filter_all {A} (P : A -> Prop) `{!forall x, Decision (P x)} (l : list A) : (forall x, x ∈ l -> P x) -> filter P l = l.
Proof.
  induction l as [|x l IH]; intros HP; [done|]. rewrite filter_cons_True by (apply HP; left).
  f_equal. apply IH. intros y Hy. apply HP. by right.
Qed.

Lemma filter_none {A} (P : A -> Prop) `{!forall x, Decision (P x)} (l : list A) : (forall x, x ∈ l -> ~ P x) -> filter P l = [].
Proof.
  induction l as [|x l IH]; intros HP; [done|]. rewrite filter_cons_False by (apply HP; left).
  apply IH. intros y Hy. apply HP. by right.
Qed.

Lemma starts_of_sorted off s : StronglySorted lt (starts_of off s).
Proof.
  revert off; induction s as [|c s IH]; intros off; cbn [starts_of]; [constructor|].
  case_decide; [|done]. constructor; [done|].
  apply list.Forall_forall. intros x Hx%starts_of_bounds. lia.
Qed.

(** In a sorted list split by a point, the binary search finds the last element before it. *)
Lemma search_split (xs ys : list nat) x y :
  StronglySorted lt xs -> last xs = Some y -> y <= x -> (forall z, z ∈ ys -> x < z) ->
  match binary_search (xs ++ ys) x with inl exact => exact = length xs - 1 | inr i => i = length xs end.
Proof.
  intros Hs Hlast Hyx Hys. apply last_Some in Hlast as [xs' ->].
  assert (forall z, z ∈ xs' -> z < y) as Hxs.
  { intros z Hz. clear -Hs Hz. induction xs' as [|a xs' IH]; [by apply elem_of_nil in Hz|].
    apply StronglySorted_inv in Hs as [Hs Ha]. rewrite list.Forall_forall in Ha.
    apply elem_of_cons in Hz as [->|Hz]; [apply Ha, elem_of_app; right; left|by apply IH]. }
  unfold binary_search. rewrite !filter_app, (filter_none _ ys) by (intros z Hz; specialize (Hys z Hz); lia).
  rewrite (filter_all _ xs') by (intros z Hz; specialize (Hxs z Hz); lia).
  rewrite app_nil_r, !length_app. simpl.
  destruct (decide (y < x)) as [Hlt|Hge].
  - rewrite filter_cons_True by done. simpl.
    rewrite lookup_app_r by (rewrite length_app; simpl; lia).
    rewrite length_app. simpl. rewrite Nat.sub_diag.
    rewrite bool_decide_eq_false_2; [done|]. destruct ys as [|z ys]; [done|].
    simpl. intros [= ->]. specialize (Hys x (list_elem_of_here _ _)). lia.
  - assert (y = x) as -> by lia. rewrite filter_cons_False by lia. simpl.
    rewrite Nat.add_0_r, <- app_assoc, lookup_app_r, Nat.sub_diag by lia. simpl.
    rewrite bool_decide_eq_true_2 by done. lia.
Qed.

Lemma line_of_cut s before left right rest :
  cut s before left right rest ->
  line_of (MkLineIndex (0 :: starts_of 0 s) (str_len s)) (str_len before + str_len left) = Some (newlines before).
Proof.
  intros Hc. destruct (cut_starts _ _ _ _ _ Hc) as (Heq & Hlast & Hle & Hgt).
  unfold line_of. cbn [line_starts]. rewrite Heq.
  pose proof (search_split (0 :: starts_of 0 before)
    (starts_of (str_len before + str_len left + str_len right) rest) (str_len before + str_len left)
    (str_len before)) as Hsearch.
  assert (length (0 :: starts_of 0 before) = S (newlines before)) as Hlen by (simpl; by rewrite length_starts_of).
  rewrite Hlen in Hsearch.
  destruct (binary_search _ _) as [exact|i].
  - rewrite Hsearch; [f_equal; lia| |done|lia|intros z Hz%Hgt; lia].
    constructor; [apply starts_of_sorted|]. apply list.Forall_forall. intros x Hx%starts_of_bounds. lia.
  - rewrite Hsearch; [done| |done|lia|intros z Hz%Hgt; lia].
    constructor; [apply starts_of_sorted|]. apply list.Forall_forall. intros x Hx%starts_of_bounds. lia.
Qed.

Lemma starts_at s before left right rest :
  cut s before left right rest -> (0 :: starts_of 0 s) !! newlines before = Some (str_len before).
Proof.
  intros Hc. destruct (cut_starts _ _ _ _ _ Hc) as (-> & Hlast & _ & _).
  rewrite lookup_app_l by (simpl; rewrite length_starts_of; lia).
  rewrite last_lookup in Hlast. simpl length in Hlast. by rewrite length_starts_of in Hlast.
Qed.

Lemma count_before_left line_start off left after column target :
  target = line_start + off + str_len left -> (Z.of_nat (column + str_len left) < 2 ^ 32)%Z ->
  count_before line_start target (char_indices_from off (left ++ after)) column = Some (column + length left).
Proof.
  revert off column; induction left as [|c left IH]; intros off column -> Hcol; cbn [app].
  - replace (column + length []) with column by (simpl; lia).
    destruct after as [|c after]; [done|]. cbn [char_indices_from count_before].
    change (str_len []) with 0. destruct (Nat.leb_spec (line_start + off + 0) (line_start + off)); [done|lia].
  - rewrite str_len_cons in Hcol |- *. pose proof (len_utf8_pos c). cbn [char_indices_from count_before].
    destruct (Nat.leb_spec (line_start + off + (len_utf8 c + str_len left)) (line_start + off)); [lia|].
    rewrite u32_succ_fits by lia.
    cbv beta iota delta [mbind option_bind]. rewrite IH by (rewrite ?str_len_cons; lia). f_equal. simpl length. lia.
Qed.

(** ** The two maps at a position *)

Lemma cut_fits s before left right rest :
  cut s before left right rest -> fits s ->
  (Z.of_nat (str_len before + str_len left) < 2 ^ 32 - 1)%Z
  /\ str_len before + str_len left <= str_len s.
Proof. intros [-> _ _ _ _] [_ Hlen]. rewrite !str_len_app in Hlen |- *. lia. Qed.

Lemma line_col_cut s before left right rest :
  cut s before left right rest -> fits s ->
  line_col (MkLineIndex (0 :: starts_of 0 s) (str_len s)) s (str_len before + str_len left)
  = Some (MkLineCol (S (newlines before)) (S (length left))).
Proof.
  intros Hc Hf. destruct (cut_fits _ _ _ _ _ Hc Hf) as [Hlen Hle].
  pose proof (newlines_bound before). pose proof (length_bound left).
  unfold line_col. cbn [li_len]. rewrite Nat.min_l by done.
  rewrite (line_of_cut _ _ _ _ _ Hc). simpl. rewrite (starts_at _ _ _ _ _ Hc). simpl.
  rewrite (ct_text _ _ _ _ _ Hc) at 1. rewrite str_from_len. simpl.
  unfold char_indices. rewrite count_before_left by lia. simpl.
  rewrite from_usize_fits by lia. simpl. rewrite u32_succ_fits by lia. simpl.
  by rewrite u32_succ_fits by lia.
Qed.

Lemma length_char_indices_from off s : length (char_indices_from off s) = length s.
Proof. revert off; induction s as [|c s IH]; intros off; simpl; [done|]. by rewrite IH. Qed.

Lemma char_indices_from_app off s s' :
  char_indices_from off (s ++ s') = char_indices_from off s ++ char_indices_from (off + str_len s) s'.
Proof.
  revert off; induction s as [|c s IH]; intros off; cbn [app char_indices_from].
  - by rewrite Nat.add_0_r.
  - by rewrite IH, str_len_cons, Nat.add_assoc.
Qed.

Lemma char_index left right :
  ((char_indices (left ++ right)).*1 ++ [str_len (left ++ right)]) !! length left = Some (str_len left).
Proof.
  unfold char_indices. rewrite char_indices_from_app, fmap_app, <- app_assoc.
  rewrite lookup_app_r by (by rewrite length_fmap, length_char_indices_from).
  rewrite length_fmap, length_char_indices_from, Nat.sub_diag.
  destruct right as [|c right]; simpl; [|done]. by rewrite app_nil_r.
Qed.

(** The content of the line of a position. *)
Lemma line_content s before left right rest :
  cut s before left right rest ->
  str_get s (str_len before)
    (match (0 :: starts_of 0 s) !! S (newlines before) with Some next => next - 1 | None => str_len s end)
  = Some (left ++ right).
Proof.
  intros Hc. destruct (cut_starts _ _ _ _ _ Hc) as (Heq & _).
  assert (match (0 :: starts_of 0 s) !! S (newlines before) with Some next => next - 1 | None => str_len s end
    = str_len before + str_len (left ++ right)) as ->.
  { rewrite Heq, lookup_app_r by (simpl; rewrite length_starts_of; lia).
    simpl length. rewrite length_starts_of, Nat.sub_diag, str_len_app.
    destruct (ct_rest _ _ _ _ _ Hc) as [->|Hr].
    - simpl. rewrite (ct_text _ _ _ _ _ Hc), !str_len_app. change (str_len []) with 0. lia.
    - destruct rest as [|c rest]; [done|]. injection Hr as ->. cbn [starts_of]. rewrite decide_True by done.
      simpl. lia. }
  rewrite (ct_text _ _ _ _ _ Hc), (app_assoc left). apply str_get_middle.
Qed.

Lemma offset_cut s before left right rest :
  cut s before left right rest -> fits s ->
  offset (MkLineIndex (0 :: starts_of 0 s) (str_len s)) s (MkLineCol (S (newlines before)) (S (length left)))
  = Some (Some (str_len before + str_len left)).
Proof.
  intros Hc Hf. destruct (cut_fits _ _ _ _ _ Hc Hf) as [Hlen _].
  unfold offset. cbn [lc_line lc_column line_starts li_len].
  rewrite (starts_at _ _ _ _ _ Hc), (line_content _ _ _ _ _ Hc), char_index.
  by rewrite from_usize_fits by lia.
Qed.

(** ** Every boundary has a position, and every position an offset *)

Lemma split_last_line p : exists before left, p = before ++ left /\ newlines left = 0
  /\ (before = [] \/ last before = Some newline).
Proof.
  induction p as [|c p (before & left & -> & Hl & Hb)] using rev_ind; [exists [], []; auto|].
  destruct (decide (c = newline)) as [->|Hc].
  - exists ((before ++ left) ++ [newline]), []. rewrite app_nil_r, last_snoc. auto.
  - exists before, (left ++ [c]). rewrite app_assoc. split; [done|]. split; [|done].
    rewrite newlines_app, newlines_cons, decide_False by done. rewrite Hl. done.
Qed.

Lemma split_first_line r : exists right rest, r = right ++ rest /\ newlines right = 0
  /\ (rest = [] \/ head rest = Some newline).
Proof.
  induction r as [|c r (right & rest & -> & Hr & Hrest)]; [exists [], []; auto|].
  destruct (decide (c = newline)) as [->|Hc].
  - exists [], (newline :: right ++ rest). auto.
  - exists (c :: right), rest. split; [done|]. split; [|done].
    by rewrite newlines_cons, decide_False.
Qed.

(** The position of a boundary. *)
Lemma cut_at p r : exists before left right rest,
  cut (p ++ r) before left right rest /\ str_len p = str_len before + str_len left.
Proof.
  destruct (split_last_line p) as (before & left & -> & Hl & Hb).
  destruct (split_first_line r) as (right & rest & -> & Hr & Hrest).
  exists before, left, right, rest. rewrite str_len_app. split; [|done].
  by split; rewrite <- ?app_assoc.
Qed.

(** The cut at a line's start. *)
Lemma cut_line s n : n <= newlines s -> exists before content rest,
  newlines before = n /\ cut s before [] content rest.
Proof.
  revert n; induction s as [|c s IH]; intros n Hn.
  { exists [], [], []. assert (n = 0) as -> by (unfold newlines in Hn; simpl in Hn; lia). split; [done|]. split; auto. }
  destruct n as [|n].
  { destruct (split_first_line (c :: s)) as (right & rest & Heq & Hr & Hrest).
    exists [], right, rest. split; [done|]. split; auto. }
  rewrite newlines_cons in Hn.
  destruct (decide (c = newline)) as [->|Hc].
  - destruct (IH n) as (before & content & rest & Hb & [Ht Hlast Hl Hr Hrest]); [lia|].
    exists (newline :: before), content, rest. rewrite newlines_cons, decide_True by done.
    split; [lia|]. split; [by rewrite Ht| |done..]. right.
    destruct Hlast as [->|Hlast]; [done|]. rewrite last_cons, Hlast. done.
  - destruct (IH (S n)) as (before & content & rest & Hb & [Ht Hlast Hl Hr Hrest]); [lia|].
    exists (c :: before), content, rest. rewrite newlines_cons, decide_False by done.
    split; [lia|]. split; [by rewrite Ht| |done..]. right.
    destruct Hlast as [->|Hlast]; [done|]. rewrite last_cons, Hlast. done.
Qed.

Lemma cut_take s before content rest k :
  cut s before [] content rest -> cut s before (take k content) (drop k content) rest.
Proof.
  intros [Ht Hb _ Hc Hr]. rewrite <- (take_drop k content), newlines_app in Hc.
  split; [|done|lia|lia|done]. rewrite Ht. simpl. by rewrite (app_assoc (take k content)), take_drop.
Qed.

(** A position has no offset, or is the position of a cut. *)
Lemma offset_cases s position :
  fits s -> offset (MkLineIndex (0 :: starts_of 0 s) (str_len s)) s position = Some None \/
    exists before left right rest, cut s before left right rest
      /\ position = MkLineCol (S (newlines before)) (S (length left)).
Proof.
  intros Hf. destruct position as [[|l] [|k]]; [by left..|].
  unfold offset. cbn [lc_line lc_column line_starts li_len].
  destruct ((0 :: starts_of 0 s) !! l) as [start|] eqn:Hstart; [|by left].
  assert (l <= newlines s) as Hl.
  { apply lookup_lt_Some in Hstart. simpl in Hstart. rewrite length_starts_of in Hstart. lia. }
  destruct (cut_line s l Hl) as (before & content & rest & <- & Hc).
  rewrite (starts_at _ _ _ _ _ Hc) in Hstart. injection Hstart as <-.
  rewrite (line_content _ _ _ _ _ Hc). simpl app.
  destruct (((char_indices content).*1 ++ [str_len content]) !! k) as [i|] eqn:Hi; [|by left].
  assert (k <= length content) as Hk.
  { apply lookup_lt_Some in Hi. rewrite length_app, length_fmap in Hi. unfold char_indices in Hi.
    rewrite length_char_indices_from in Hi. simpl in Hi. lia. }
  right. exists before, (take k content), (drop k content), rest.
  rewrite length_take_le by done. split; [by apply cut_take|done].
Qed.

Lemma offset_total s position :
  fits s -> exists answer, offset (MkLineIndex (0 :: starts_of 0 s) (str_len s)) s position = Some answer.
Proof.
  intros Hf. destruct (offset_cases s position Hf) as [->|(before & left & right & rest & Hc & ->)]; [by eexists|].
  rewrite (offset_cut _ _ _ _ _ Hc Hf). by eexists.
Qed.

(** A position with an offset is the position of a cut. *)
Lemma offset_position s position o :
  fits s -> offset (MkLineIndex (0 :: starts_of 0 s) (str_len s)) s position = Some (Some o) ->
  exists before left right rest, cut s before left right rest
    /\ position = MkLineCol (S (newlines before)) (S (length left)) /\ o = str_len before + str_len left.
Proof.
  intros Hf Ho. destruct (offset_cases s position Hf) as [Hn|(before & left & right & rest & Hc & ->)]; [by rewrite Hn in Ho|].
  rewrite (offset_cut _ _ _ _ _ Hc Hf) in Ho. injection Ho as <-. by exists before, left, right, rest.
Qed.

(** ** Theorems *)

(** For a text of fewer than 2^32 - 1 bytes the index is built, every byte offset on a
    character boundary has a line and a column, and the position leads back to the offset. *)
Theorem line_col_round_trip (p r : text) :
  fits (p ++ r) -> exists index position,
    new_index (p ++ r) = Some index
    /\ line_col index (p ++ r) (str_len p) = Some position
    /\ offset index (p ++ r) position = Some (Some (str_len p)).
Proof.
  intros Hf. destruct (cut_at p r) as (before & left & right & rest & Hc & ->).
  do 2 eexists. split; [by apply new_index_spec|].
  split; [by eapply line_col_cut|by eapply offset_cut].
Qed.

(** C29: No position panics, and a position is mapped to an offset exactly when it is the line
    and column of that offset, on a character boundary: a position past a line's end, past
    the last line, or holding a zero has none. *)
Theorem offset_inverts_line_col (s : text) (index : LineIndex) (position : LineCol) :
  fits s -> new_index s = Some index -> exists answer, offset index s position = Some answer /\
    forall o, answer = Some o ↔ line_col index s o = Some position /\ exists p r, s = p ++ r /\ o = str_len p.
Proof.
  intros Hf Hi. rewrite new_index_spec in Hi by done. injection Hi as <-.
  destruct (offset_total s position Hf) as [answer Ha]. exists answer. split; [done|]. intros o. split.
  - intros ->. destruct (offset_position _ _ _ Hf Ha) as (before & left & right & rest & Hc & -> & ->).
    split; [by eapply line_col_cut|]. exists (before ++ left), (right ++ rest).
    rewrite str_len_app, <- app_assoc. split; [by apply Hc|done].
  - intros (Hlc & p & r & -> & ->).
    destruct (cut_at p r) as (before & left & right & rest & Hc & Hp). rewrite Hp in Hlc |- *.
    rewrite (line_col_cut _ _ _ _ _ Hc Hf) in Hlc. injection Hlc as <-.
    erewrite offset_cut in Ha by done. by injection Ha as <-.
Qed.

(** A text of two lines with characters of one, two and four bytes. *)
Definition two_lines : text := [97; 10; 233; 128512; 98]%Z.

Lemma two_lines_fits : fits two_lines.
Proof. split; [repeat constructor|]. by vm_compute. Qed.

Lemma line_col_round_trip_witness : exists index position,
  new_index two_lines = Some index
  /\ line_col index two_lines 4 = Some position
  /\ offset index two_lines position = Some (Some 4).
Proof. exact (line_col_round_trip [97; 10; 233]%Z [128512; 98]%Z two_lines_fits). Defined.

Lemma offset_inverts_line_col_witness : exists answer,
  offset (MkLineIndex [0; 2] 9) two_lines (MkLineCol 2 3) = Some answer /\
  forall o, answer = Some o ↔
    line_col (MkLineIndex [0; 2] 9) two_lines o = Some (MkLineCol 2 3) /\ exists p r, two_lines = p ++ r /\ o = str_len p.
Proof. apply (offset_inverts_line_col two_lines); [apply two_lines_fits|by vm_compute]. Defined.
