(* ===== verification/Tokens.v ===== *)
(** * Tokens

    fai-syntax's [token.rs] and the ranges of fai-span's [span.rs]: what the lexer produces, the
    layout pass rewrites and the parser reads.  A diagnostic keeps its code and its place; its
    wording is left out. *)

From S2P Require Import Prelude Text Lines.
From stdpp Require Import list strings.
From Stdlib Require Import Ascii.
From Stdlib Require Import ZArith.

(** [TextRange]; a [ByteOffset] is its number. *)
Record TextRange := MkTextRange { tr_start : nat; tr_end : nat }.
#[export] Instance TextRange_eq_dec : EqDecision TextRange.
Proof. solve_decision. Defined.

(** [TextRange::new] asserts that its ends are in order; [TextRange::empty]. *)
Definition new_range (start stop : nat) : run TextRange :=
  if start <=? stop then Done (MkTextRange start stop) else Panicked.
Definition empty_range (offset : nat) : TextRange := MkTextRange offset offset.

Inductive TokenKind :=
| LowerIdent | UpperIdent | TypeVar | Underscore
| T_Int | T_Float | T_String | T_Char
| T_Module | T_Let | T_Type | T_Interface | T_Match | T_With | T_If | T_Then | T_Else | T_Fun
| T_Public | T_Internal | T_Opaque | T_Example | T_Forall | T_As | T_Foreign | T_Import
| LParen | RParen | LBracket | RBracket | LArrayBracket | RArrayBracket | LBrace | RBrace
| Comma | Dot | Colon | Arrow | Equals | Pipe | ColonColon | Operator
| LayoutOpen | LayoutSep | LayoutClose | Eof.
#[export] Instance TokenKind_eq_dec : EqDecision TokenKind.
Proof. solve_decision. Defined.

Record Token := MkToken { tk_kind : TokenKind; tk_range : TextRange }.
#[export] Instance Token_eq_dec : EqDecision Token.
Proof. solve_decision. Defined.

Inductive CommentKind := Line_comment | Block_comment | Doc_comment.
#[export] Instance CommentKind_eq_dec : EqDecision CommentKind.
Proof. solve_decision. Defined.
Record Comment := MkComment { cm_kind : CommentKind; cm_range : TextRange }.
#[export] Instance Comment_eq_dec : EqDecision Comment.
Proof. solve_decision. Defined.

(** The codes of [lib.rs] the lexer and the layout pass report. *)
Inductive SyntaxCode :=
| UNEXPECTED_CHAR | UNTERMINATED_STRING | UNTERMINATED_BLOCK_COMMENT | INVALID_CHAR_LITERAL
| INVALID_NUMBER | INVALID_ESCAPE | LAYOUT_ERROR.
#[export] Instance SyntaxCode_eq_dec : EqDecision SyntaxCode.
Proof. solve_decision. Defined.
Record Diagnostic := MkDiagnostic { dg_code : SyntaxCode; dg_source : nat; dg_range : TextRange }.
#[export] Instance Diagnostic_eq_dec : EqDecision Diagnostic.
Proof. solve_decision. Defined.

(** ** Characters and texts written out *)

Definition ch (a : Ascii.ascii) : char := Z.of_nat (Ascii.nat_of_ascii a).
Arguments ch a%_char.
Definition txt (s : string) : text := ch <$> String.list_ascii_of_string s.
Arguments txt s%_string.

Definition in_class (class : string) (c : char) : bool := bool_decide (c ∈ txt class).
Arguments in_class class%_string c.
Definition char_between (lo hi : Ascii.ascii) (c : char) : bool := ((ch lo <=? c) && (c <=? ch hi))%Z.
Arguments char_between (lo hi)%_char c.

(** [char::is_ascii_digit] and the like. *)
Definition is_ascii_digit : char -> bool := char_between "0" "9".
Definition is_ascii_uppercase : char -> bool := char_between "A" "Z".
Definition is_ascii_alphabetic (c : char) : bool := char_between "a" "z" c || char_between "A" "Z" c.
Definition is_ascii_alphanumeric (c : char) : bool := is_ascii_alphabetic c || is_ascii_digit c.
Definition is_ascii_hexdigit (c : char) : bool :=
  is_ascii_digit c || char_between "a" "f" c || char_between "A" "F" c.
(** [char::to_ascii_lowercase] *)
Definition to_ascii_lowercase (c : char) : char :=
  if char_between "A" "Z" c then (c + 32)%Z else c.

(** [TokenKind::keyword] *)
Definition keywords : list (string * TokenKind) :=
  [("module", T_Module); ("let", T_Let); ("type", T_Type); ("interface", T_Interface);
   ("match", T_Match); ("with", T_With); ("if", T_If); ("then", T_Then); ("else", T_Else);
   ("fun", T_Fun); ("public", T_Public); ("internal", T_Internal); ("opaque", T_Opaque);
   ("example", T_Example); ("forall", T_Forall); ("as", T_As); ("foreign", T_Foreign);
   ("import", T_Import)]%string.
Definition keyword (s : text) : option TokenKind :=
  snd <$> head (filter (fun p => txt p.1 = s) keywords).
