(* ===== verification/Lexer.v ===== *)
(** * The lexer

    fai-syntax's [lexer.rs].  The methods read the text from the byte position on and move the
    position; slicing off a character boundary panics, as does a position beyond 32 bits.  A
    [while] loop takes fuel. *)

From S2P Require Import Prelude Text Literals Lines Tokens.
From stdpp Require Import list strings.
From Stdlib Require Import Ascii ZArith.

(** [Lexed], and the state of [Lexer]. *)
Record Lexed := MkLexed { ld_tokens : list Token; ld_comments : list Comment; ld_diagnostics : list Diagnostic }.
Record Lexer := MkLexer { pos : nat; out : Lexed }.

Definition newline_char : char := 10%Z.
Definition return_char : char := 13%Z.
Definition tab_char : char := 9%Z.
Definition double_quote : char := 34%Z.

Definition is_space (c : char) : bool :=
  bool_decide (c ∈ [ch " "; tab_char; newline_char; return_char]).
Definition is_ident_start (c : char) : bool := is_ascii_alphabetic c || (c =? ch "_")%Z.
Definition is_ident_continue (c : char) : bool := is_ascii_alphanumeric c || (c =? ch "_")%Z.
Definition is_operator_char : char -> bool := in_class "!$%&*+-/:<=>?@^|~".

(** The token of an identifier's lexeme, and of an operator's; single punctuation. *)
Definition ident_kind (lexeme : text) : run TokenKind :=
  if decide (lexeme = txt "_") then Done Underscore
  else match keyword lexeme with
       | Some k => Done k
       | None =>
           first ← unwrap (head (into_bytes lexeme));
           Done (if is_ascii_uppercase first then UpperIdent else LowerIdent)
       end.
Definition operator_kind (lexeme : text) : TokenKind :=
  if decide (lexeme = txt "=") then Equals
  else if decide (lexeme = txt "|") then Pipe
  else if decide (lexeme = txt ":") then Colon
  else if decide (lexeme = txt "::") then ColonColon
  else if decide (lexeme = txt "->") then Arrow
  else Operator.
Definition punct (c : char) : option TokenKind :=
  snd <$> head (filter (fun p => p.1 = c)
    [(ch "(", LParen); (ch ")", RParen); (ch "[", LBracket); (ch "]", RBracket);
     (ch "{", LBrace); (ch "}", RBrace); (ch ",", Comma); (ch ".", Dot)]).

Section Lex.
Context (source : nat) (txt_ : text).

(** ** The cursor *)

Definition rest : SR Lexer text := asks (fun s => unwrap (str_from txt_ (pos s))).
Definition starts_with (prefix : text) : SR Lexer bool :=
  r ← rest; mret (bool_decide (prefix `prefix_of` r)).
Definition nth_char (n : nat) : SR Lexer (option char) := r ← rest; mret (r !! n).
Definition peek : SR Lexer (option char) := nth_char 0.
Definition advance (n : nat) : SR Lexer () := modify (fun s => MkLexer (pos s + n) (out s)).
Definition bump : SR Lexer (option char) :=
  c ← peek;
  match c with
  | Some c => _ ← advance (len_utf8 c); mret (Some c)
  | None => mret None
  end.
Definition eat (c : char) : SR Lexer bool :=
  next ← peek;
  if decide (next = Some c) then _ ← advance (len_utf8 c); mret true else mret false.
Definition here : SR Lexer nat := asks (fun s => Done (pos s)).
Definition offset_here : SR Lexer nat := asks (fun s => unwrap (from_usize (pos s))).
Definition range_from (start : nat) : SR Lexer TextRange :=
  start ← asks (fun _ => unwrap (from_usize start));
  stop ← offset_here;
  asks (fun _ => new_range start stop).
(** [&self.text[start..self.pos]] *)
Definition lexeme_from (start : nat) : SR Lexer text :=
  asks (fun s => unwrap (str_get txt_ start (pos s))).

(** [while peek().is_some_and(p) { self.pos += width }] *)
Fixpoint eat_while (fuel : nat) (p : char -> bool) (width : char -> nat) : SR Lexer () :=
  match fuel with
  | 0 => fun _ => Exhausted
  | S fuel =>
      c ← peek;
      match c with
      | Some c => if p c then _ ← advance (width c); eat_while fuel p width else mret ()
      | None => mret ()
      end
  end.
Definition single (c : char) : nat := 1.
Definition skip_whitespace (fuel : nat) : SR Lexer () := eat_while fuel is_space len_utf8.
(** [peek().is_some_and(p)] *)
Definition next_is (p : char -> bool) : SR Lexer bool :=
  c ← peek; mret (match c with Some c => p c | None => false end).

(** ** Emitting *)

Definition emit (f : Lexed -> Lexed) : SR Lexer () := modify (fun s => MkLexer (pos s) (f (out s))).
Definition push_token (kind : TokenKind) (range : TextRange) : SR Lexer () := emit (fun o =>
  MkLexed (ld_tokens o ++ [MkToken kind range]) (ld_comments o) (ld_diagnostics o)).
Definition push_comment (kind : CommentKind) (range : TextRange) : SR Lexer () := emit (fun o =>
  MkLexed (ld_tokens o) (ld_comments o ++ [MkComment kind range]) (ld_diagnostics o)).
Definition error (code : SyntaxCode) (range : TextRange) : SR Lexer () := emit (fun o =>
  MkLexed (ld_tokens o) (ld_comments o) (ld_diagnostics o ++ [MkDiagnostic code source range])).
Definition error_from (code : SyntaxCode) (start : nat) : SR Lexer () :=
  range ← range_from start; error code range.
Definition token_from (kind : TokenKind) (start : nat) : SR Lexer () :=
  range ← range_from start; push_token kind range.

(** ** Comments *)

Definition not_line_end (c : char) : bool := negb (bool_decide (c = newline_char) || bool_decide (c = return_char)).
Definition line_comment (fuel start : nat) : SR Lexer () :=
  three ← starts_with (txt "///");
  four ← (if three : bool then starts_with (txt "////") else mret false);
  _ ← eat_while fuel not_line_end len_utf8;
  range ← range_from start;
  push_comment (if three && negb four then Doc_comment else Line_comment) range.

Fixpoint block_loop (fuel start depth : nat) : SR Lexer () :=
  match fuel with
  | 0 => fun _ => Exhausted
  | S fuel =>
      if depth =? 0 then mret () else
      c ← peek;
      match c with
      | None => error_from UNTERMINATED_BLOCK_COMMENT start
      | Some c =>
          opening ← starts_with (txt "(*");
          if opening : bool then
            _ ← advance 2; depth ← asks (fun _ => unwrap (u32_succ depth)); block_loop fuel start depth
          else
            closing ← starts_with (txt "*)");
            if closing : bool then _ ← advance 2; block_loop fuel start (depth - 1)
            else _ ← advance (len_utf8 c); block_loop fuel start depth
      end
  end.
Definition block_comment (fuel start : nat) : SR Lexer () :=
  _ ← advance 2;
  _ ← block_loop fuel start 1;
  range ← range_from start;
  push_comment Block_comment range.

(** ** Strings and escapes *)

(** The loop over hexadecimal digits: whether there was one, and their value while it fits. *)
Fixpoint hex_loop (fuel : nat) (any : bool) (value : option Z) : SR Lexer (bool * option Z) :=
  match fuel with
  | 0 => fun _ => Exhausted
  | S fuel =>
      c ← peek;
      match c ≫= digit_value with
      | Some digit =>
          _ ← advance 1;
          hex_loop fuel true (n ← value;
            let n := (n * 16)%Z in
            if (n <? 2 ^ 32)%Z then (let n := (n + digit)%Z in if (n <? 2 ^ 32)%Z then Some n else None) else None)
      | None => mret (any, value)
      end
  end.
Definition unicode_escape_body (fuel : nat) : SR Lexer bool :=
  opened ← eat (ch "{");
  if opened : bool then
    '(any, value) ← hex_loop fuel false (Some 0%Z);
    closed ← eat (ch "}");
    mret (any && closed && bool_decide (is_Some (value ≫= char_from_u32)))
  else mret false.

Definition simple_escape (c : char) : bool :=
  bool_decide (c ∈ double_quote :: txt "ntr0\'").
(** [escape]: the cursor is just after the backslash. *)
Definition escape (fuel : nat) : SR Lexer () :=
  p ← here;
  let start := p - 1 in
  c ← peek;
  match c with
  | Some c =>
      if simple_escape c then advance 1
      else if (c =? ch "u")%Z then
        _ ← advance 1;
        valid ← unicode_escape_body fuel;
        if valid : bool then mret () else error_from INVALID_ESCAPE start
      else _ ← advance (len_utf8 c); error_from INVALID_ESCAPE start
  | None => error_from INVALID_ESCAPE start
  end.

Fixpoint string_loop (fuel start : nat) : SR Lexer () :=
  match fuel with
  | 0 => fun _ => Exhausted
  | S fuel' =>
      c ← peek;
      match c with
      | None => error_from UNTERMINATED_STRING start
      | Some c =>
          if (c =? newline_char)%Z then error_from UNTERMINATED_STRING start
          else if (c =? double_quote)%Z then advance 1
          else if (c =? ch "\")%Z then
            _ ← advance 1; _ ← escape fuel; string_loop fuel' start
          else _ ← advance (len_utf8 c); string_loop fuel' start
      end
  end.
(** [string] *)
Definition lex_string (fuel start : nat) : SR Lexer () :=
  _ ← advance 1; _ ← string_loop fuel start; token_from T_String start.

(** ** Character literals and type variables *)

Definition char_literal (fuel start : nat) : SR Lexer () :=
  _ ← advance 1;
  c ← peek;
  _ ← match c with
      | Some c =>
          if (c =? ch "\")%Z then _ ← advance 1; escape fuel
          else if negb (c =? ch "'")%Z && negb (c =? newline_char)%Z then advance (len_utf8 c)
          else mret ()
      | None => mret ()
      end;
  closed ← eat (ch "'");
  if closed : bool then token_from T_Char start else error_from INVALID_CHAR_LITERAL start.

Definition type_var (fuel start : nat) : SR Lexer () :=
  _ ← advance 1;
  named ← next_is is_ident_start;
  if named : bool then _ ← eat_while fuel is_ident_continue len_utf8; token_from TypeVar start
  else error_from INVALID_CHAR_LITERAL start.

Definition quote (fuel start : nat) : SR Lexer () :=
  c1 ← nth_char 1; c2 ← nth_char 2;
  match c1 with
  | Some c =>
      if (c =? ch "\")%Z then char_literal fuel start
      else if (c =? ch "'")%Z then _ ← advance 2; error_from INVALID_CHAR_LITERAL start
      else if bool_decide (c2 = Some (ch "'")) && negb (c =? newline_char)%Z then char_literal fuel start
      else type_var fuel start
  | None => type_var fuel start
  end.

(** ** Numbers *)

Definition digit_or_separator (c : char) : bool := is_ascii_digit c || (c =? ch "_")%Z.
Definition consume_digits (fuel : nat) : SR Lexer () := eat_while fuel digit_or_separator single.

(** The digits of a base, and whether one was not a separator. *)
Definition base_digit (base c : char) : bool :=
  (if base =? ch "x" then is_ascii_hexdigit c || (c =? ch "_")
   else if base =? ch "o" then char_between "0" "7" c || (c =? ch "_")
   else (c =? ch "0") || (c =? ch "1") || (c =? ch "_"))%Z.
Fixpoint base_loop (fuel : nat) (base : char) (any : bool) : SR Lexer bool :=
  match fuel with
  | 0 => fun _ => Exhausted
  | S fuel =>
      c ← peek;
      match c with
      | Some c =>
          if base_digit base c
          then _ ← advance 1; base_loop fuel base (any || negb (c =? ch "_")%Z)
          else mret any
      | None => mret any
      end
  end.

(** An integer with a base prefix: whether it has digits. *)
Definition base_number (fuel : nat) : SR Lexer bool :=
  _ ← advance 1;
  c ← bump;
  base_loop fuel (to_ascii_lowercase (default (ch "x") c)) false.

(** The exponent, if there is one; otherwise the position is restored. *)
Definition exponent (fuel : nat) (is_float : bool) : SR Lexer bool :=
  starts ← next_is (in_class "eE");
  if starts : bool then
    save ← here;
    _ ← advance 1;
    signed ← next_is (in_class "+-");
    _ ← (if signed : bool then advance 1 else mret ());
    digits ← next_is is_ascii_digit;
    if digits : bool then _ ← consume_digits fuel; mret true
    else _ ← modify (fun s => MkLexer save (out s)); mret is_float
  else mret is_float.

(** Digits, a fraction and an exponent: whether it is a float. *)
Definition decimal_number (fuel : nat) : SR Lexer bool :=
  _ ← consume_digits fuel;
  dot ← next_is (fun c => c =? ch ".")%Z;
  after ← nth_char 1;
  is_float ← (if dot && match after with Some c => is_ascii_digit c | None => false end
              then _ ← advance 1; _ ← consume_digits fuel; mret true
              else mret false);
  exponent fuel is_float.

(** Trailing identifier characters: whether there are none. *)
Definition no_suffix (fuel : nat) : SR Lexer bool :=
  suffix ← next_is is_ident_continue;
  if suffix : bool then _ ← eat_while fuel is_ident_continue len_utf8; mret false else mret true.

Definition number (fuel start : nat) : SR Lexer () :=
  zero ← next_is (fun c => c =? ch "0")%Z;
  prefix ← nth_char 1;
  '(is_float, ok) ←
    (if zero && match prefix with Some c => in_class "xXoObB" c | None => false end
     then any ← base_number fuel; mret (false, any)
     else is_float ← decimal_number fuel; mret (is_float, true));
  plain ← no_suffix fuel;
  range ← range_from start;
  _ ← (if negb (ok && plain) then error INVALID_NUMBER range
       else if is_float : bool then mret ()
       else lexeme ← lexeme_from start;
            if decide (decode_int_literal (into_bytes lexeme) = None)
            then error INVALID_NUMBER range else mret ());
  push_token (if is_float : bool then T_Float else T_Int) range.

(** ** Identifiers, operators and punctuation *)

Definition ident (fuel start : nat) : SR Lexer () :=
  _ ← eat_while fuel is_ident_continue len_utf8;
  lexeme ← lexeme_from start;
  kind ← asks (fun _ => ident_kind lexeme);
  token_from kind start.

Definition operator_or_unknown (fuel start : nat) : SR Lexer () :=
  c ← bump;
  match c with
  | None => mret ()
  | Some c =>
      next ← peek;
      if bool_decide (c = ch "[") && bool_decide (next = Some (ch "|"))
      then _ ← advance 1; token_from LArrayBracket start
      else if bool_decide (c = ch "|") && bool_decide (next = Some (ch "]"))
      then _ ← advance 1; token_from RArrayBracket start
      else match punct c with
      | Some kind => token_from kind start
      | None =>
          if is_operator_char c then
            _ ← eat_while fuel is_operator_char single;
            range ← range_from start;
            lexeme ← lexeme_from start;
            push_token (operator_kind lexeme) range
          else error_from UNEXPECTED_CHAR start
      end
  end.

(** ** The loop *)

Definition lex_one (fuel start : nat) (c : char) : SR Lexer () :=
  slashes ← starts_with (txt "//");
  if (c =? ch "/")%Z && slashes then line_comment fuel start
  else
    comment ← starts_with (txt "(*");
    if (c =? ch "(")%Z && comment then block_comment fuel start
    else if (c =? double_quote)%Z then lex_string fuel start
    else if (c =? ch "'")%Z then quote fuel start
    else if is_ascii_digit c then number fuel start
    else if is_ident_start c then ident fuel start
    else operator_or_unknown fuel start.

Fixpoint lex_loop (fuel : nat) (inner : nat) : SR Lexer () :=
  match fuel with
  | 0 => fun _ => Exhausted
  | S fuel =>
      _ ← skip_whitespace inner;
      start ← here;
      c ← peek;
      match c with
      | None => offset ← offset_here; push_token Eof (empty_range offset)
      | Some c => _ ← lex_one inner start c; lex_loop fuel inner
      end
  end.

(** [lex], every loop with the same fuel. *)
Definition lex (fuel : nat) : run Lexed :=
  '(_, s) ← lex_loop fuel fuel (MkLexer 0 (MkLexed [] [] []));
  Done (out s).
End Lex.
