(* ===== verification/LexerSpec.v ===== *)
(** * What a lexing promises

    The abstract specification of fai-syntax's [lexer.rs]: the lexical grammar, as relations
    of its own on texts, and what the lexer puts out, read off the pieces of a text.  Then the
    specifications of the cursor: between two steps the position is the length of what was
    read, and what is left is the rest of the text. *)

From S2P Require Import Prelude Text Literals Lines Tokens Lexer.
From stdpp Require Import list strings.
From Stdlib Require Import Ascii ZArith Lia.

(** ** Pieces *)

(** The parts of a text: white space, a token's lexeme and a comment, which are sound or not,
    and what no token starts with. *)
Inductive Piece :=
| Blank (c : char)
| Lexeme (kind : TokenKind) (l : text) (sound : bool)
| Trivia (kind : CommentKind) (l : text) (sound : bool)
| Rejected (l : text).

Definition piece_text (p : Piece) : text :=
  match p with Blank c => [c] | Lexeme _ l _ | Trivia _ l _ | Rejected l => l end.
Definition sound (p : Piece) : bool :=
  match p with Blank _ => true | Lexeme _ _ b | Trivia _ _ b => b | Rejected _ => false end.

(** The range of [l] after [d]. *)
Definition range_at (d l : text) : TextRange := MkTextRange (str_len d) (str_len (d ++ l)).

(** The tokens, comments and rejected ranges of pieces that follow [d]. *)
Fixpoint tokens_of (d : text) (ps : list Piece) : list Token :=
  match ps with
  | [] => []
  | p :: ps =>
      match p with Lexeme k l _ => [MkToken k (range_at d l)] | _ => [] end ++ tokens_of (d ++ piece_text p) ps
  end.
Fixpoint comments_of (d : text) (ps : list Piece) : list Comment :=
  match ps with
  | [] => []
  | p :: ps =>
      match p with Trivia k l _ => [MkComment k (range_at d l)] | _ => [] end ++ comments_of (d ++ piece_text p) ps
  end.
Fixpoint rejected_of (d : text) (ps : list Piece) : list TextRange :=
  match ps with
  | [] => []
  | p :: ps =>
      match p with Rejected l => [range_at d l] | _ => [] end ++ rejected_of (d ++ piece_text p) ps
  end.

(** ** The lexical grammar

    A relation for each kind of piece, on its text and the text that follows; [b] says whether
    it is sound. *)

(** The text does not go on with a character of a class; a longest run of a class. *)
Definition ends_at (p : char -> bool) (r : text) : Prop :=
  match r with [] => True | c :: _ => p c = false end.
Definition run_of (p : char -> bool) (l r : text) : Prop := Forall (fun c => p c = true) l /\ ends_at p r.

Definition space : char -> bool := fun c => bool_decide (c ∈ [ch " "; 9; 10; 13]%Z).
Definition digit : char -> bool := char_between "0" "9".
Definition letter (c : char) : bool := char_between "a" "z" c || char_between "A" "Z" c.
Definition word_start (c : char) : bool := letter c || (c =? ch "_")%Z.
Definition word_char (c : char) : bool := letter c || digit c || (c =? ch "_")%Z.
Definition operator_char : char -> bool := in_class "!$%&*+-/:<=>?@^|~".
Definition dquote : char := 34%Z.
Definition hex_digit (c : char) : bool := digit c || char_between "a" "f" c || char_between "A" "F" c.

(** *** Words and symbols *)

Definition words : list (string * TokenKind) :=
  [("_", Underscore); ("module", T_Module); ("let", T_Let); ("type", T_Type); ("interface", T_Interface);
   ("match", T_Match); ("with", T_With); ("if", T_If); ("then", T_Then); ("else", T_Else);
   ("fun", T_Fun); ("public", T_Public); ("internal", T_Internal); ("opaque", T_Opaque);
   ("example", T_Example); ("forall", T_Forall); ("as", T_As); ("foreign", T_Foreign);
   ("import", T_Import)]%string.
Definition symbols : list (string * TokenKind) :=
  [("=", Equals); ("|", Pipe); (":", Colon); ("::", ColonColon); ("->", Arrow)]%string.
Definition brackets : list (string * TokenKind) :=
  [("(", LParen); (")", RParen); ("[", LBracket); ("]", RBracket); ("{", LBrace); ("}", RBrace);
   (",", Comma); (".", Dot)]%string.

(** The kind a table gives a text, or another when it does not have it. *)
Definition kind_of (table : list (string * TokenKind)) (other k : TokenKind) (l : text) : Prop :=
  (exists s, (s, k) ∈ table /\ l = txt s) \/ ((forall s k', (s, k') ∈ table -> l ≠ txt s) /\ k = other).
Definition name_kind (l : text) : TokenKind :=
  match l with c :: _ => if char_between "A" "Z" c then UpperIdent else LowerIdent | [] => LowerIdent end.

(** *** Escapes and literals in quotes *)

(** The number hexadecimal digits write, and whether it is a character's. *)
Definition hex_value : text -> Z := foldl (fun n c => 16 * n + (
  if digit c then c - ch "0" else if char_between "a" "f" c then c - ch "a" + 10 else c - ch "A" + 10))%Z 0%Z.
Definition scalar_value (n : Z) : bool := ((0 <=? n) && (n <? 55296) || (57344 <=? n) && (n <=? 1114111))%Z.

(** What follows a backslash. *)
Inductive escape_ok : bool -> text -> text -> Prop :=
| esc_simple c r : c ∈ dquote :: txt "ntr0\'" -> escape_ok true [c] r
| esc_unicode ds r : Forall (fun c => hex_digit c = true) ds ->
    escape_ok (bool_decide (ds ≠ []) && scalar_value (hex_value ds)) (txt "u{" ++ ds ++ txt "}") r
| esc_unclosed ds r : Forall (fun c => hex_digit c = true) ds -> ends_at (fun c => hex_digit c || (c =? ch "}")%Z) r ->
    escape_ok false (txt "u{" ++ ds) r
| esc_bare r : head r ≠ Some (ch "{") -> escape_ok false (txt "u") r
| esc_other c r : c ∉ dquote :: txt "untr0\'" -> escape_ok false [c] r
| esc_end : escape_ok false [] [].

(** A string after its opening quote: it ends with the next bare quote, or, unsoundly, at the
    end of the line or the text. *)
Inductive string_body : bool -> text -> text -> Prop :=
| sb_close r : string_body true [dquote] r
| sb_open r : (r = [] \/ head r = Some newline_char) -> string_body false [] r
| sb_char b c l r : c ∉ [newline_char; dquote; ch "\"] -> string_body b l r -> string_body b (c :: l) r
| sb_escape b b' e l r : escape_ok b e (l ++ r) -> string_body b' l r -> string_body (b && b') (ch "\" :: e ++ l) r.

(** The inside of a character literal. *)
Inductive char_inside : bool -> text -> text -> Prop :=
| ci_plain c r : c ∉ [newline_char; ch "'"; ch "\"] -> char_inside true [c] r
| ci_escape b e r : escape_ok b e r -> char_inside b (ch "\" :: e) r.

(** *** Numbers *)

Definition separated (c : char) : bool := digit c || (c =? ch "_")%Z.
(** The digits of a base, by the letter of its prefix. *)
Definition base_letter : char -> bool := in_class "xXoObB".
Definition digit_of (x c : char) : bool :=
  (if in_class "xX" x then hex_digit c else if in_class "oO" x then char_between "0" "7" c else char_between "0" "1" c)
  || (c =? ch "_")%Z.
Definition signs : list text := [[]; txt "+"; txt "-"].

Definition fraction (l r : text) : Prop :=
  l = [] /\ ~ (exists d r', r = ch "." :: d :: r' /\ digit d = true) \/
  exists d ds, l = ch "." :: d :: ds /\ digit d = true /\ run_of separated ds r.
Definition exponent_part (l r : text) : Prop :=
  l = [] /\ ~ (exists e sign d r', r = e :: sign ++ d :: r' /\ in_class "eE" e = true /\ sign ∈ signs /\ digit d = true) \/
  exists e sign d ds, l = e :: sign ++ d :: ds /\ in_class "eE" e = true /\ sign ∈ signs /\ digit d = true /\ run_of separated ds r.

(** A number without its suffix, and whether it has digits. *)
Inductive number_core : TokenKind -> bool -> text -> text -> Prop :=
| nc_based x ds r : base_letter x = true -> run_of (digit_of x) ds r ->
    number_core T_Int (existsb (fun c => negb (c =? ch "_")%Z) ds) (ch "0" :: x :: ds) r
| nc_decimal c ds frac exp r : digit c = true ->
    (c = ch "0" -> ends_at base_letter (ds ++ frac ++ exp ++ r)) ->
    run_of separated ds (frac ++ exp ++ r) -> fraction frac (exp ++ r) -> exponent_part exp r ->
    number_core (if decide (frac ++ exp = []) then T_Int else T_Float) true (c :: ds ++ frac ++ exp) r.

(** *** Tokens *)

Inductive token_ok : TokenKind -> bool -> text -> text -> Prop :=
| tok_word k c l r : word_start c = true -> run_of word_char (c :: l) r ->
    kind_of words (name_kind (c :: l)) k (c :: l) -> token_ok k true (c :: l) r
| tok_number k b l suffix r : number_core k b l (suffix ++ r) -> run_of word_char suffix r ->
    token_ok k (b && bool_decide (suffix = []) &&
      bool_decide (k = T_Float \/ is_Some (decode_int_literal (into_bytes (l ++ suffix))))) (l ++ suffix) r
| tok_string b l r : string_body b l r -> token_ok T_String b (dquote :: l) r
| tok_char b l r : char_inside b l (ch "'" :: r) -> token_ok T_Char b (ch "'" :: l ++ txt "'") r
| tok_type_var c l r : word_start c = true -> run_of word_char (c :: l) r -> ~ (l = [] /\ head r = Some (ch "'")) ->
    token_ok TypeVar true (ch "'" :: c :: l) r
| tok_left_array r : token_ok LArrayBracket true (txt "[|") r
| tok_right_array r : token_ok RArrayBracket true (txt "|]") r
| tok_operator k c l r : run_of operator_char (c :: l) r -> ~ txt "|]" `prefix_of` c :: l ++ r ->
    kind_of symbols Operator k (c :: l) -> token_ok k true (c :: l) r
| tok_bracket k s r : (s, k) ∈ brackets -> ~ txt "[|" `prefix_of` txt s ++ r -> token_ok k true (txt s) r.

(** *** Comments *)

(** What follows an opening bracket, [depth] deep: brackets nest. *)
Inductive comment_body : nat -> bool -> text -> text -> Prop :=
| cb_done r : comment_body 0 true [] r
| cb_end depth : comment_body (S depth) false [] []
| cb_open depth b l r : comment_body (S (S depth)) b l r -> comment_body (S depth) b (txt "(*" ++ l) r
| cb_close depth b l r : comment_body depth b l r -> comment_body (S depth) b (txt "*)" ++ l) r
| cb_char depth b c l r : ~ txt "(*" `prefix_of` c :: l ++ r -> ~ txt "*)" `prefix_of` c :: l ++ r ->
    comment_body (S depth) b l r -> comment_body (S depth) b (c :: l) r.

Definition in_line (c : char) : bool := negb (bool_decide (c = newline_char) || bool_decide (c = return_char)).
Inductive comment_ok : CommentKind -> bool -> text -> text -> Prop :=
| com_block b l r : comment_body 1 b l r -> comment_ok Block_comment b (txt "(*" ++ l) r
| com_doc l r : run_of in_line (txt "///" ++ l) r -> ~ txt "/" `prefix_of` l -> comment_ok Doc_comment true (txt "///" ++ l) r
| com_line l r : run_of in_line (txt "//" ++ l) r -> (txt "/" `prefix_of` l -> txt "//" `prefix_of` l) ->
    comment_ok Line_comment true (txt "//" ++ l) r.

(** *** What is no token *)

Inductive rejected_ok : text -> text -> Prop :=
| rej_empty_char r : rejected_ok (txt "''") r
| rej_quote r : (match r with
    | c :: r' => word_start c = false /\ c ∉ [ch "\"; ch "'"] /\ (head r' = Some (ch "'") -> c = newline_char)
    | [] => True
    end) -> rejected_ok (txt "'") r
| rej_escape b e r : escape_ok b e r -> head r ≠ Some (ch "'") -> rejected_ok (txt "'\" ++ e) r
| rej_char c r : space c = false -> word_start c = false -> digit c = false -> operator_char c = false ->
    c ∉ [dquote; ch "'"] -> (forall s k, (s, k) ∈ brackets -> txt s ≠ [c]) -> rejected_ok [c] r.

Definition piece_ok (p : Piece) (r : text) : Prop :=
  match p with
  | Blank c => space c = true
  | Lexeme k l b => token_ok k b l r
  | Trivia k l b => comment_ok k b l r
  | Rejected l => rejected_ok l r
  end.

(** Where a comment may start, nothing else does. *)
Definition comment_start (t : text) : Prop := txt "//" `prefix_of` t \/ txt "(*" `prefix_of` t.
Definition is_trivia (p : Piece) : bool := match p with Trivia _ _ _ => true | _ => false end.
Definition piece_at (p : Piece) (r : text) : Prop :=
  piece_ok p r /\ (comment_start (piece_text p ++ r) -> is_trivia p = true).

(** [ps] are the pieces of a text. *)
Inductive lexes : text -> list Piece -> Prop :=
| lexes_nil : lexes [] []
| lexes_cons p r ps : piece_at p r -> lexes r ps -> lexes (piece_text p ++ r) (p :: ps).

(** A sound literal has a value: for a float, its digits are in the grammar that [f64]'s
    [from_str] documents. *)
Definition all_digits (l : text) : Prop := l ≠ [] /\ Forall (fun c => digit c = true) l.
Definition float_text (l : text) : Prop := exists int frac exp, l = int ++ frac ++ exp /\ all_digits int /\
  (frac = [] \/ exists ds, frac = ch "." :: ds /\ all_digits ds) /\
  (exp = [] \/ exists e sign ds, exp = e :: sign ++ ds /\ in_class "eE" e = true /\ sign ∈ signs /\ all_digits ds).
Definition decodes (p : Piece) : Prop :=
  match p with
  | Lexeme T_Int l _ => is_Some (decode_int_literal (into_bytes l))
  | Lexeme T_Float l _ => float_text (filter (fun c => c ≠ ch "_") l)
  | Lexeme T_String l _ => is_Some (decode_string_literal l)
  | Lexeme T_Char l _ => is_Some (decode_char_literal l)
  | _ => True
  end.

(** ** Diagnostics *)

Section Reports.
Context (source : nat).

(** A diagnostic on a part of [l], which follows [d]. *)
Definition within (d l : text) (dg : Diagnostic) : Prop :=
  dg_source dg = source /\ exists a b c, l = a ++ b ++ c /\ dg_range dg = range_at (d ++ a) b.
(** The diagnostics on a piece: there are some exactly when it is not sound, and one is on the
    whole of what is rejected. *)
Definition about (d : text) (p : Piece) (ds : list Diagnostic) : Prop :=
  (ds = [] ↔ sound p = true) /\ Forall (within d (piece_text p)) ds /\
  (forall l, p = Rejected l -> exists dg, dg ∈ ds /\ dg_range dg = range_at d l).
Fixpoint reports (d : text) (ps : list Piece) (ds : list Diagnostic) : Prop :=
  match ps with
  | [] => ds = []
  | p :: ps => exists here rest, ds = here ++ rest /\ about d p here /\ reports (d ++ piece_text p) ps rest
  end.

Lemma within_more d l x dg : within d l dg -> within d (l ++ x) dg.
Proof. intros (Hs & a & b & c & -> & Hr). split; [done|]. exists a, b, (c ++ x). by rewrite <- !app_assoc. Qed.
Lemma within_whole d l code : within d l (MkDiagnostic code source (range_at d l)).
Proof. split; [done|]. exists [], l, []. by rewrite !app_nil_r. Qed.
Lemma within_all d l x ds : Forall (within d l) ds -> Forall (within d (l ++ x)) ds.
Proof. intros H. eapply Forall_impl; [exact H|]. intros dg. apply within_more. Qed.
Lemma within_rest d l x code : within d (l ++ x) (MkDiagnostic code source (range_at (d ++ l) x)).
Proof. split; [done|]. exists l, x, []. by rewrite app_nil_r. Qed.
End Reports.

(** ** The cursor *)

Section Cursor.
Context (source : nat) (txt_ : text).
Context (fits : (Z.of_nat (str_len txt_) < 2 ^ 32)%Z).

(** After [d], with output [o]. *)
Definition at_ (d : text) (o : Lexed) : Lexer := MkLexer (str_len d) o.

Definition log (o : Lexed) (ds : list Diagnostic) : Lexed :=
  MkLexed (ld_tokens o) (ld_comments o) (ld_diagnostics o ++ ds).

Lemma log_log o ds ds' : log (log o ds) ds' = log o (ds ++ ds').
Proof. unfold log. simpl. by rewrite app_assoc. Qed.
Lemma log_nil o : log o [] = o.
Proof. destruct o. unfold log. simpl. by rewrite app_nil_r. Qed.

Lemma from_usize_prefix d r : txt_ = d ++ r -> from_usize (str_len d) = Some (str_len d).
Proof.
  intros Ht. unfold from_usize. rewrite (proj2 (Z.ltb_lt _ _)); [done|].
  rewrite Ht, str_len_app in fits. lia.
Qed.

Lemma ends_rest d r o Q : txt_ = d ++ r -> Q r (at_ d o) -> ends (rest txt_) (at_ d o) Q.
Proof. intros Ht HQ. eapply ends_asks; [|exact HQ]. simpl. by rewrite Ht, str_from_len. Qed.

Lemma ends_nth_char d r n o Q : txt_ = d ++ r -> Q (r !! n) (at_ d o) -> ends (nth_char txt_ n) (at_ d o) Q.
Proof. intros Ht HQ. apply ends_bind. eapply ends_rest; [done|]. by apply ends_ret. Qed.

Lemma ends_peek d r o Q : txt_ = d ++ r -> Q (head r) (at_ d o) -> ends (peek txt_) (at_ d o) Q.
Proof. intros Ht HQ. eapply ends_nth_char; [done|]. by destruct r. Qed.

Lemma ends_starts_with d r p o Q :
  txt_ = d ++ r -> Q (bool_decide (p `prefix_of` r)) (at_ d o) -> ends (starts_with txt_ p) (at_ d o) Q.
Proof. intros Ht HQ. apply ends_bind. eapply ends_rest; [done|]. by apply ends_ret. Qed.

Lemma ends_next_is d r p o Q :
  txt_ = d ++ r -> Q (match r with c :: _ => p c | [] => false end) (at_ d o) ->
  ends (next_is txt_ p) (at_ d o) Q.
Proof. intros Ht HQ. apply ends_bind. eapply ends_peek; [done|]. apply ends_ret. by destruct r. Qed.

Lemma ends_advance d l n o (Q : unit -> Lexer -> Prop) :
  str_len l = n -> Q () (at_ (d ++ l) o) -> ends (advance n) (at_ d o) Q.
Proof. intros <- HQ. apply ends_modify. unfold at_ in *. by rewrite str_len_app in HQ. Qed.

Lemma ends_bump d r o Q :
  txt_ = d ++ r ->
  match r with c :: _ => Q (Some c) (at_ (d ++ [c]) o) | [] => Q None (at_ d o) end ->
  ends (bump txt_) (at_ d o) Q.
Proof.
  intros Ht HQ. apply ends_bind. eapply ends_peek; [done|]. destruct r as [|c r]; simpl; [by apply ends_ret|].
  apply ends_bind. eapply (ends_advance _ [c]); [by rewrite str_len_cons, Nat.add_0_r|]. by apply ends_ret.
Qed.

Lemma ends_eat d r c o Q :
  txt_ = d ++ r ->
  (forall r', r = c :: r' -> Q true (at_ (d ++ [c]) o)) -> (head r ≠ Some c -> Q false (at_ d o)) ->
  ends (eat txt_ c) (at_ d o) Q.
Proof.
  intros Ht HT HF. apply ends_bind. eapply ends_peek; [done|]. case_decide as Hc; [|by apply ends_ret, HF].
  destruct r as [|c' r]; [done|]. injection Hc as ->.
  apply ends_bind. eapply (ends_advance _ [c]); [by rewrite str_len_cons, Nat.add_0_r|]. by eapply ends_ret, HT.
Qed.

Lemma ends_here d o Q : Q (str_len d) (at_ d o) -> ends here (at_ d o) Q.
Proof. intros HQ. by eapply ends_asks. Qed.

Lemma ends_offset_here d r o Q :
  txt_ = d ++ r -> Q (str_len d) (at_ d o) -> ends offset_here (at_ d o) Q.
Proof. intros Ht HQ. eapply ends_asks; [|done]. simpl. by rewrite (from_usize_prefix _ _ Ht). Qed.

Lemma ends_range_from d l r o Q :
  txt_ = d ++ l ++ r -> Q (range_at d l) (at_ (d ++ l) o) ->
  ends (range_from (str_len d)) (at_ (d ++ l) o) Q.
Proof.
  intros Ht HQ. apply ends_bind. eapply ends_asks; [by rewrite (from_usize_prefix _ _ Ht)|].
  apply ends_bind. eapply ends_offset_here; [by rewrite <- app_assoc|].
  eapply ends_asks; [|exact HQ]. unfold new_range, range_at.
  rewrite (proj2 (Nat.leb_le _ _)); [done|]. rewrite str_len_app. lia.
Qed.

Lemma ends_lexeme_from d l r o Q :
  txt_ = d ++ l ++ r -> Q l (at_ (d ++ l) o) -> ends (lexeme_from txt_ (str_len d)) (at_ (d ++ l) o) Q.
Proof. intros Ht HQ. eapply ends_asks; [|exact HQ]. simpl. by rewrite Ht, str_len_app, str_get_middle. Qed.

Lemma ends_error_from code d l r o (Q : unit -> Lexer -> Prop) :
  txt_ = d ++ l ++ r ->
  Q () (at_ (d ++ l) (log o [MkDiagnostic code source (range_at d l)])) ->
  ends (error_from source code (str_len d)) (at_ (d ++ l) o) Q.
Proof. intros Ht HQ. apply ends_bind. eapply ends_range_from; [done|]. by apply ends_modify. Qed.

(** ** Loops *)

Lemma ends_eat_while fuel p width d r o (Q : unit -> Lexer -> Prop) :
  txt_ = d ++ r -> length r < fuel -> (forall c, p c = true -> width c = len_utf8 c) ->
  (forall l r', r = l ++ r' -> Forall (fun c => p c = true) l -> ends_at p r' -> Q () (at_ (d ++ l) o)) ->
  ends (eat_while txt_ fuel p width) (at_ d o) Q.
Proof.
  intros Ht Hfuel Hw. revert d r Ht Hfuel Q.
  induction fuel as [|fuel IH]; intros d r Ht Hfuel Q HQ; [lia|].
  cbn [eat_while]. apply ends_bind. eapply ends_peek; [done|]. destruct r as [|c r]; cbn [head].
  { apply ends_ret. rewrite <- (app_nil_r d). by apply (HQ [] []). }
  destruct (p c) eqn:Hc.
  - apply ends_bind. apply (ends_advance _ [c]); [rewrite str_len_cons, (Hw c Hc); apply Nat.add_0_r|].
    eapply IH; [by rewrite Ht, <- app_assoc|simpl in Hfuel; lia|].
    intros l r' -> Hl Hr'. rewrite <- app_assoc. apply (HQ (c :: l) r'); [done|by constructor|done].
  - apply ends_ret. rewrite <- (app_nil_r d). by apply (HQ [] (c :: r)).
Qed.
End Cursor.
