(* ===== verification/LexerSound.v ===== *)
(** * The lexer keeps its promise

    Each part of fai-syntax's [lexer.rs], started after [d] with [r] left to read, reads one
    piece of the grammar off [r], without a panic: the byte positions it computes are character
    boundaries.  It reports a diagnostic exactly when the piece is not sound, and a sound
    literal has a value. *)

From S2P Require Import Prelude Text Literals Lines Tokens Lexer LexerSpec.
From stdpp Require Import list strings.
From Stdlib Require Import Ascii ZArith Lia.

(** Equal texts, whatever their association. *)
Ltac by_app := by (cbn [app]; rewrite <- ?app_assoc; cbn [app]; rewrite <- ?app_assoc).

(** The output with a piece's token or comment. *)
Definition put (d : text) (p : Piece) (o : Lexed) : Lexed :=
  match p with
  | Lexeme k l _ => MkLexed (ld_tokens o ++ [MkToken k (range_at d l)]) (ld_comments o) (ld_diagnostics o)
  | Trivia k l _ => MkLexed (ld_tokens o) (ld_comments o ++ [MkComment k (range_at d l)]) (ld_diagnostics o)
  | _ => o
  end.

(** ** Characters *)

Lemma ch_len a : len_utf8 (ch a) = if (ch a <? 128)%Z then 1 else 2.
Proof.
  unfold len_utf8. destruct (ch a <? 128)%Z eqn:H; [done|].
  assert (ch a < 256)%Z by (unfold ch; pose proof (nat_ascii_bounded a); lia).
  by rewrite (proj2 (Z.ltb_lt (ch a) 2048)) by lia.
Qed.

Lemma char_between_ascii lo hi c : (ch hi < 128)%Z -> char_between lo hi c = true -> len_utf8 c = 1.
Proof.
  unfold char_between. intros Hh [Hl Hc]%andb_true_iff. apply Z.leb_le in Hc. unfold len_utf8.
  by rewrite (proj2 (Z.ltb_lt c 128)) by lia.
Qed.

Lemma class_ascii class c :
  forallb (fun c => c <? 128)%Z (txt class) = true -> in_class class c = true -> len_utf8 c = 1.
Proof.
  intros Hall Hc%bool_decide_eq_true. rewrite forallb_forall in Hall.
  apply list_elem_of_In, Hall in Hc. unfold len_utf8. by rewrite Hc.
Qed.

Lemma is_ascii_digit_len c : is_ascii_digit c = true -> len_utf8 c = 1.
Proof. by apply char_between_ascii. Qed.

Lemma char_eq_len a c : (c =? ch a)%Z = true -> (ch a < 128)%Z -> len_utf8 c = 1.
Proof. intros ->%Z.eqb_eq H. rewrite ch_len. by rewrite (proj2 (Z.ltb_lt _ _) H). Qed.

Lemma operator_char_len c : is_operator_char c = true -> len_utf8 c = 1.
Proof. by apply class_ascii. Qed.

Lemma digit_or_separator_len c : digit_or_separator c = true -> len_utf8 c = 1.
Proof.
  unfold digit_or_separator. intros [H|H]%orb_true_iff; [by apply is_ascii_digit_len|by apply (char_eq_len "_")].
Qed.

Lemma hexdigit_len c : is_ascii_hexdigit c = true -> len_utf8 c = 1.
Proof.
  unfold is_ascii_hexdigit. intros [[H|H]%orb_true_iff|H]%orb_true_iff;
    by eapply char_between_ascii, H.
Qed.

Lemma base_digit_len base c : base_digit base c = true -> len_utf8 c = 1.
Proof.
  unfold base_digit. repeat case_match; rewrite ?orb_true_iff;
    intros; destruct_or!; try (by apply hexdigit_len); try (by eapply char_between_ascii; [|eassumption]);
    by eapply char_eq_len; [eassumption|].
Qed.

Lemma digit_value_len c n : digit_value c = Some n -> len_utf8 c = 1 /\ (0 <= n < 16)%Z.
Proof.
  intros H. split; [|by eapply digit_value_bounds]. unfold digit_value in H.
  repeat (case_match; [|]); try done;
    match goal with H : (_ && _)%bool = true |- _ => apply andb_true_iff in H as [_ Hc%Z.leb_le] end;
    unfold len_utf8; by rewrite (proj2 (Z.ltb_lt c 128)) by lia.
Qed.

Lemma prefix_split (p r : text) : bool_decide (p `prefix_of` r) = true -> exists r', r = p ++ r'.
Proof. by intros [r' ->]%bool_decide_eq_true; exists r'. Qed.

(** Diagnostics and flags, together and alone. *)
Lemma flags_app {A} (ds ds' : list A) b b' : (ds = [] ↔ b = true) -> (ds' = [] ↔ b' = true) -> (ds ++ ds' = [] ↔ b && b' = true).
Proof. intros H H'. rewrite andb_true_iff, <- H, <- H'. split; [by intros [-> ->]%app_nil|by intros [-> ->]]. Qed.
Lemma flag_none {A} : ([] : list A) = [] ↔ true = true.
Proof. done. Qed.
Lemma flag_some {A} (x : A) : [x] = [] ↔ false = true.
Proof. done. Qed.

Lemma within_shift source d l0 l dg : within source (d ++ l0) l dg -> within source d (l0 ++ l) dg.
Proof.
  intros (Hs & a & b & c & -> & Hr). split; [done|]. exists (l0 ++ a), b, c. rewrite Hr. unfold range_at.
  by rewrite <- !app_assoc.
Qed.

(** ** What is sound has a value *)

Lemma digit_value_hex c : digit_value c =
  if hex_digit c then Some (if digit c then c - ch "0" else if char_between "a" "f" c then c - ch "a" + 10 else c - ch "A" + 10)%Z
  else None.
Proof.
  unfold digit_value, hex_digit, digit, char_between.
  change (ch "0") with 48%Z; change (ch "9") with 57%Z; change (ch "a") with 97%Z; change (ch "f") with 102%Z;
  change (ch "A") with 65%Z; change (ch "F") with 70%Z. by repeat case_match.
Qed.
Lemma hex_digit_value c : hex_digit c = true ↔ digit_value c ≠ None.
Proof. rewrite digit_value_hex. by destruct (hex_digit c). Qed.

Lemma hex_digits_value ds : forall n, Forall (fun c => hex_digit c = true) ds -> (0 <= n)%Z ->
  let v := foldl (fun n c => 16 * n + (
    if digit c then c - ch "0" else if char_between "a" "f" c then c - ch "a" + 10 else c - ch "A" + 10))%Z n ds in
  (n <= v)%Z /\ ((n < 2 ^ 32)%Z -> hex_digits ds n = if (v <? 2 ^ 32)%Z then Some v else None).
Proof.
  induction ds as [|c ds IH]; intros n Hall Hn; cbn zeta; simpl.
  { split; [lia|]. intros H. by rewrite (proj2 (Z.ltb_lt _ _)). }
  apply list.Forall_cons in Hall as [Hc Hall]. pose proof (digit_value_hex c) as Hd. rewrite Hc in Hd.
  rewrite Hd. destruct (digit_value_bounds _ _ Hd) as [Hb _]. simpl. set (m := (16 * n + _)%Z).
  assert (n <= m)%Z by lia. destruct (IH m Hall ltac:(lia)) as [H1 H2]. cbn zeta in H1, H2. split; [lia|]. intros _.
  replace (n * 16 + _)%Z with m by (unfold m; lia). destruct (Z.ltb_spec m (2 ^ 32)); [by apply H2|].
  by rewrite (proj2 (Z.ltb_ge _ _)) by lia.
Qed.

Lemma take_braced_spec l x : Forall (fun c => hex_digit c = true) l -> take_braced (l ++ ch "}" :: x) = Some (l, x).
Proof.
  induction 1 as [|c l Hc Hl IH]; [done|]. simpl.
  destruct (Z.eqb_spec c 125) as [->|Hne]; [discriminate Hc|]. by rewrite IH.
Qed.

(** The value of the digits a Unicode escape takes. *)
Lemma u32_from_hex_spec l : l ≠ [] -> Forall (fun c => hex_digit c = true) l -> u32_from_hex l = hex_digits l 0.
Proof.
  intros Hne Hl. destruct l as [|c l]; [done|]. inversion Hl as [|? ? Hc _]; subst.
  destruct (decide (c = 43%Z)) as [->|Hn]; [discriminate Hc|].
  unfold u32_from_hex. repeat case_match; try done; by simplify_eq.
Qed.

(** The lexer's test of the digits, and the grammar's. *)
Lemma unicode_valid l : Forall (fun c => hex_digit c = true) l ->
  bool_decide (is_Some (n ← hex_digits l 0; char_from_u32 n)) = scalar_value (hex_value l).
Proof.
  intros Hl. destruct (hex_digits_value l 0 Hl ltac:(lia)) as [Hv ->]; [|done]. fold (hex_value l) in *. cbn zeta.
  assert (scalar_value (hex_value l) = is_scalar (hex_value l)) as ->.
  { unfold scalar_value, is_scalar. f_equal. f_equal. destruct (Z.leb_spec 57344 (hex_value l)), (Z.ltb_spec 0xDFFF (hex_value l)); try done; lia. }
  destruct (Z.ltb_spec (hex_value l) (2 ^ 32)); simpl.
  - unfold char_from_u32. by destruct (is_scalar _).
  - unfold is_scalar. rewrite (proj2 (Z.ltb_ge _ 0xD800)), (proj2 (Z.leb_gt _ 0x10FFFF)) by lia. by rewrite !andb_false_r.
Qed.

Lemma escape_decodes b e r : escape_ok b e r -> b = true -> forall x, exists c, decode_escape (e ++ x) = Some (c, x).
Proof.
  destruct 1 as [c r Hc|ds r Hds| | | |]; try done; intros Hb x.
  - simpl in Hc. repeat (apply elem_of_cons in Hc as [->|Hc]; [by eexists|]). by apply elem_of_nil in Hc.
  - apply andb_true_iff in Hb as [Hne%bool_decide_eq_true Hs]. rewrite <- unicode_valid in Hs by done.
    apply bool_decide_eq_true in Hs as [c Hs]. exists c.
    replace ((txt "u{" ++ ds ++ txt "}") ++ x) with (ch "u" :: ch "{" :: ds ++ ch "}" :: x) by by_app.
    unfold decode_escape. cbn -[take_braced]. rewrite take_braced_spec by done. simpl.
    rewrite u32_from_hex_spec by done. destruct (hex_digits ds 0) as [n|]; [|done]. simpl in Hs |- *. by rewrite Hs.
Qed.

Lemma string_decodes b l r : string_body b l r -> b = true ->
  exists body, l = body ++ [dquote] /\ forall n, length body < n -> is_Some (decode_chars n body).
Proof.
  induction 1 as [r|r|b c l r Hc _ IH|b b' e l r He _ IH]; intros Hb; [|done| |].
  - exists []. split; [done|]. intros [|n] Hn; [simpl in Hn; lia|by eexists].
  - destruct (IH Hb) as (body & -> & Hbody). exists (c :: body). split; [done|]. intros [|n] Hn; [lia|]. simpl in Hn |- *.
    destruct (Z.eqb_spec c 92) as [->|_]; [destruct Hc; by repeat (left || right)|]. simpl.
    destruct (Hbody n) as [out ->]; [lia|]. by eexists.
  - apply andb_true_iff in Hb as [Hb Hb']. destruct (IH Hb') as (body & -> & Hbody). exists (ch "\" :: e ++ body).
    split; [by_app|]. intros [|n] Hn; [lia|]. simpl in Hn. rewrite length_app in Hn.
    destruct (escape_decodes _ _ _ He Hb body) as [c Hc]. cbn -[decode_escape]. rewrite Hc. simpl.
    destruct (Hbody n) as [out ->]; [lia|]. by eexists.
Qed.

Lemma decode_string_closed body :
  (forall n, length body < n -> is_Some (decode_chars n body)) ->
  is_Some (decode_string_literal (dquote :: body ++ [dquote])).
Proof.
  intros Hb. unfold decode_string_literal, strip_quotes. simpl. rewrite last_snoc. simpl.
  rewrite removelast_last. destruct (Hb (S (length body))) as [out Hout]; [lia|]. simpl in Hout. rewrite Hout. by eexists.
Qed.

Lemma char_decodes b l r : char_inside b l r -> b = true -> is_Some (decode_char_literal (ch "'" :: l ++ txt "'")).
Proof.
  destruct 1 as [c r Hc|b e r He]; intros Hb; unfold decode_char_literal.
  - unfold strip_quotes. simpl. destruct (Z.eqb_spec c 92) as [->|_]; [destruct Hc; by repeat (left || right)|]. by eexists.
  - assert (strip_quotes 39 (ch "'" :: (ch "\" :: e) ++ txt "'") = Some (ch "\" :: e)) as ->.
    { unfold strip_quotes. change (ch "'" =? 39)%Z with true. cbn iota. change (txt "'") with [39%Z].
      by rewrite last_snoc, removelast_last. }
    destruct (escape_decodes _ _ _ He Hb []) as [c Hc]. rewrite app_nil_r in Hc.
    change (ch "\" =? 92)%Z with true. cbn -[decode_escape]. rewrite Hc. by eexists.
Qed.

(** Without separators a float's digits are as [from_str] wants them. *)
Lemma filter_digits c ds : digit c = true -> Forall (fun c => separated c = true) ds ->
  all_digits (filter (fun c => c ≠ ch "_") (c :: ds)).
Proof.
  intros Hc Hds. assert (c ≠ ch "_") by by intros ->. rewrite filter_cons_True by done. split; [done|].
  constructor; [done|]. apply list.Forall_forall. intros x [Hx Hin]%list_elem_of_filter.
  rewrite list.Forall_forall in Hds. specialize (Hds x Hin). unfold separated in Hds.
  apply orb_true_iff in Hds as [?|?%Z.eqb_eq]; done.
Qed.
Lemma filter_class class l : Forall (fun c => in_class class c = true) l -> in_class class (ch "_") = false ->
  filter (fun c => c ≠ ch "_") l = l.
Proof.
  intros Hl Hc. induction Hl as [|c l Hcl _ IH]; [done|]. rewrite filter_cons_True by (intros ->; congruence). by rewrite IH.
Qed.

Lemma number_decodes k b l r : number_core k b l r -> k = T_Float -> float_text (filter (fun c => c ≠ ch "_") l).
Proof.
  destruct 1 as [|c ds frac exp r Hc _ [Hds _] Hf He]; [done|]. intros _.
  exists (filter (fun c => c ≠ ch "_") (c :: ds)), (filter (fun c => c ≠ ch "_") frac), (filter (fun c => c ≠ ch "_") exp).
  split; [change (c :: ds ++ frac ++ exp) with ((c :: ds) ++ frac ++ exp); by rewrite !filter_app|].
  split; [by apply filter_digits|]. split.
  - destruct Hf as [[-> _]|(d & fs & -> & Hd & [Hfs _])]; [by left|right]. eexists. split; [by rewrite filter_cons_True|by apply filter_digits].
  - destruct He as [[-> _]|(e & sign & d & es & -> & Hee & Hsign & Hd & [Hes _])]; [by left|right].
    exists e, sign, (filter (fun c => c ≠ ch "_") (d :: es)). split_and!; [|done|done|by apply filter_digits].
    rewrite filter_cons_True by by intros ->. rewrite filter_app. f_equal. f_equal.
    unfold signs in Hsign. by repeat (apply elem_of_cons in Hsign as [->|Hsign]; [done|]); apply elem_of_nil in Hsign.
Qed.

Lemma number_kind k b l r : number_core k b l r -> k = T_Int \/ k = T_Float.
Proof. destruct 1; [by left|]. case_decide; auto. Qed.

Lemma kind_of_elem table other k l : kind_of table other k l -> k = other \/ exists s, (s, k) ∈ table.
Proof. intros [(s & Hs & _)|[_ ->]]; [right; by exists s|by left]. Qed.

(** The kinds of literals. *)
Definition literal_kind (k : TokenKind) : bool := match k with T_Int | T_Float | T_String | T_Char => true | _ => false end.
Lemma not_literal k l b : literal_kind k = false -> decodes (Lexeme k l b).
Proof. by destruct k. Qed.
Lemma table_kind table other k l b : kind_of table other k l ->
  existsb literal_kind (other :: (snd <$> table)) = false -> decodes (Lexeme k l b).
Proof.
  intros Hk Ht. apply not_literal. apply not_true_iff_false. intros Hl. apply not_true_iff_false in Ht. apply Ht, existsb_exists.
  exists k. split; [|done]. apply list_elem_of_In. destruct (kind_of_elem _ _ _ _ Hk) as [->|[s Hs]]; [by left|right].
  by apply list_elem_of_fmap_2 with (f := snd) in Hs.
Qed.

Lemma token_decodes k b l r : token_ok k b l r -> b = true -> decodes (Lexeme k l b).
Proof.
  destruct 1 as [k c l r _ _ Hk|k b l suffix r Hn _|b l r Hs|b l r Hc| | | |k c l r _ _ Hk|k s r Hk _]; intros Hb; try done.
  - eapply table_kind; [exact Hk|]. unfold name_kind. by case_match.
  - apply andb_true_iff in Hb as [[-> Hb]%andb_true_iff Hv]. apply bool_decide_eq_true in Hb as ->.
    apply bool_decide_eq_true in Hv. rewrite app_nil_r in *.
    destruct (number_kind _ _ _ _ Hn) as [-> | ->]; [by destruct Hv|by eapply number_decodes].
  - destruct (string_decodes _ _ _ Hs Hb) as (body & -> & Hbody). by apply decode_string_closed.
  - by eapply char_decodes.
  - by eapply table_kind.
  - apply not_literal. unfold brackets in Hk.
    repeat (apply elem_of_cons in Hk as [[= -> ->]|Hk]; [done|]). by apply elem_of_nil in Hk.
Qed.

Section Sound.
Context (source : nat) (txt_ : text).
Context (fits : (Z.of_nat (str_len txt_) < 2 ^ 32)%Z).
Abbreviation at_ := LexerSpec.at_.
Abbreviation within := (within source).
Abbreviation about := (about source).

(** Moving past what was read. *)
Lemma past d l r : txt_ = d ++ l ++ r -> txt_ = (d ++ l) ++ r.
Proof. by_app. Qed.

Lemma past_char d c r : txt_ = d ++ c :: r -> txt_ = (d ++ [c]) ++ r.
Proof. by_app. Qed.

(** ** Escapes *)

Lemma ends_hex_loop fuel d r o any value (Q : bool * option Z -> Lexer -> Prop) :
  txt_ = d ++ r -> length r < fuel ->
  (forall l r', r = l ++ r' -> run_of hex_digit l r' ->
    Q (any || bool_decide (l ≠ []), n ← value; hex_digits l n) (at_ (d ++ l) o)) ->
  ends (hex_loop txt_ fuel any value) (at_ d o) Q.
Proof.
  revert d r any value Q; induction fuel as [|fuel IH]; intros d r any value Q Ht Hfuel HQ; [lia|].
  cbn [hex_loop]. apply ends_bind. eapply ends_peek; [done|]. destruct r as [|c r]; simpl.
  { apply ends_ret. specialize (HQ [] [] eq_refl). rewrite app_nil_r, orb_false_r in HQ. destruct value; by apply HQ. }
  destruct (digit_value c) as [digit|] eqn:Hc.
  - destruct (digit_value_len _ _ Hc) as [Hlen Hdig]. apply ends_bind.
    apply (ends_advance _ [c]); [by rewrite str_len_cons, Hlen|].
    eapply IH; [rewrite Ht; by_app|simpl in Hfuel; lia|].
    intros l r' -> [Hl Hr']. specialize (HQ (c :: l) r' eq_refl). rewrite <- app_assoc.
    rewrite (bool_decide_eq_true_2 (c :: l ≠ [])), orb_true_r in HQ by done. simpl.
    replace (n ← _; hex_digits l n) with (n ← value; hex_digits (c :: l) n);
      [apply HQ; split; [constructor; [apply hex_digit_value; congruence|done]|done]|].
    destruct value as [n|]; [|done]. simpl. rewrite Hc. simpl.
    destruct (Z.ltb_spec (n * 16) (2 ^ 32)), (Z.ltb_spec (n * 16 + digit) (2 ^ 32)); try done; lia.
  - apply ends_ret. specialize (HQ [] (c :: r) eq_refl). rewrite app_nil_r, orb_false_r in HQ.
    assert (hex_digit c = false) by (rewrite digit_value_hex in Hc; by destruct (hex_digit c)). destruct value; by apply HQ.
Qed.

(** [unicode_escape_body], after the [u]. *)
Lemma ends_unicode_escape_body fuel d r o (Q : bool -> Lexer -> Prop) :
  txt_ = d ++ r -> length r < fuel ->
  (forall b l r', r = l ++ r' -> escape_ok b (ch "u" :: l) r' -> Q b (at_ (d ++ l) o)) ->
  ends (unicode_escape_body txt_ fuel) (at_ d o) Q.
Proof.
  intros Ht Hfuel HQ. unfold unicode_escape_body. apply ends_bind. eapply ends_eat; [done| |].
  - intros r1 ->. simpl. apply past_char in Ht. apply ends_bind.
    eapply ends_hex_loop; [exact Ht|simpl in Hfuel; lia|].
    intros ds r2 -> [Hd Hr2]. apply past in Ht. cbn zeta. apply ends_bind. eapply ends_eat; [exact Ht| |].
    + intros r3 ->. apply ends_ret. rewrite <- !app_assoc. apply (HQ _ ([ch "{"] ++ ds ++ [ch "}"]) r3); [by_app|].
      rewrite orb_false_l, andb_true_r. simpl (n ← Some 0%Z; _). rewrite unicode_valid by done. by apply esc_unicode.
    + intros Hr. apply ends_ret. rewrite <- app_assoc. apply (HQ _ ([ch "{"] ++ ds) r2); [by_app|].
      rewrite andb_false_r. apply esc_unclosed; [done|]. destruct r2 as [|c r2]; [done|]. simpl in Hr2 |- *.
      rewrite Hr2. apply Z.eqb_neq. by intros ->.
  - intros Hr. apply ends_ret. rewrite <- (app_nil_r d). apply (HQ false [] r); [done|]. by apply esc_bare.
Qed.

Lemma simple_escape_spec c : simple_escape c = true -> len_utf8 c = 1 /\ c ∈ dquote :: txt "ntr0\'".
Proof.
  intros Hs%bool_decide_eq_true. split; [|exact Hs]. unfold simple_escape in Hs. simpl in Hs.
  repeat (apply elem_of_cons in Hs as [->|Hs]; [done|]). by apply elem_of_nil in Hs.
Qed.
Lemma not_simple_escape c : simple_escape c = false -> c ≠ ch "u" -> c ∉ dquote :: txt "untr0\'".
Proof.
  intros Hs%bool_decide_eq_false Hu Hin. apply elem_of_cons in Hin as [->|Hin]; [apply Hs; left|].
  apply elem_of_cons in Hin as [->|Hin]; [done|]. apply Hs. by right.
Qed.

(** [escape], just after a backslash. *)
Lemma ends_escape fuel d r o (Q : unit -> Lexer -> Prop) :
  txt_ = d ++ ch "\" :: r -> length r < fuel ->
  (forall b l r' ds, r = l ++ r' -> escape_ok b l r' -> (ds = [] ↔ b = true) -> Forall (within d (ch "\" :: l)) ds ->
    Q () (at_ (d ++ ch "\" :: l) (log o ds))) ->
  ends (escape source txt_ fuel) (at_ (d ++ [ch "\"]) o) Q.
Proof.
  intros Ht Hfuel HQ. unfold escape. apply ends_bind, ends_here.
  replace (str_len (d ++ [ch "\"]) - 1) with (str_len d)
    by (rewrite str_len_app; change (str_len [ch "\"]) with 1; lia). cbn zeta.
  apply ends_bind. eapply ends_peek; [by apply (past d [ch "\"] r)|].
  assert (forall l r', r = l ++ r' -> escape_ok true l r' -> Q () (at_ (d ++ ch "\" :: l) o)) as Hgood.
  { intros l r' Hr He. specialize (HQ true l r' [] Hr He flag_none). rewrite log_nil in HQ. by apply HQ. }
  assert (forall l r', r = l ++ r' -> escape_ok false l r' ->
    ends (error_from source INVALID_ESCAPE (str_len d)) (at_ (d ++ ch "\" :: l) o) Q) as Hbad.
  { intros l r' -> He. eapply (ends_error_from source txt_ fits _ d (ch "\" :: l) r'); [done|].
    apply (HQ false l r'); [done|done|apply flag_some|]. constructor; [|done]. apply within_whole. }
  destruct r as [|c r]; simpl; [by apply (Hbad [] []); [|apply esc_end]|].
  assert (d ++ [ch "\"; c] = (d ++ [ch "\"]) ++ [c]) as Happ by (by_app).
  destruct (simple_escape c) eqn:Hs.
  - apply simple_escape_spec in Hs as [Hlen Hin].
    apply (ends_advance _ [c]); [by rewrite str_len_cons, Hlen|]. rewrite <- Happ. eapply (Hgood [c]); [done|by apply esc_simple].
  - destruct (Z.eqb_spec c (ch "u")) as [->|Hu].
    + apply ends_bind, (ends_advance _ [ch "u"]); [done|]. apply ends_bind.
      eapply ends_unicode_escape_body; [rewrite Ht; by_app|simpl in Hfuel; lia|].
      intros b l r' -> Hb. rewrite <- Happ, <- app_assoc. cbn [app].
      destruct b; [by apply ends_ret, (Hgood (ch "u" :: l) r')|by apply (Hbad (ch "u" :: l) r')].
    + apply ends_bind, (ends_advance _ [c]); [apply Nat.add_0_r|]. rewrite <- Happ. apply (Hbad [c] r); [done|].
      by apply esc_other, not_simple_escape.
Qed.

(** ** One piece *)

(** From [d] with [r] left and output [o], the piece [p] was read. *)
Definition read_piece (d r : text) (o : Lexed) (s : Lexer) (p : Piece) (r' : text) : Prop :=
  exists ds, r = piece_text p ++ r' /\ piece_text p ≠ [] /\ piece_ok p r' /\
    s = at_ (d ++ piece_text p) (put d p (log o ds)) /\ about d p ds.
Definition lexed_piece (d r : text) (o : Lexed) (s : Lexer) : Prop :=
  exists p r', read_piece d r o s p r'.
Definition lexed_trivia (d r : text) (o : Lexed) (s : Lexer) : Prop :=
  exists p r', read_piece d r o s p r' /\ is_trivia p = true.

Lemma token_nonempty k b l r : token_ok k b l r -> l ≠ [].
Proof.
  destruct 1 as [|k b l suffix r Hn _| | | | | | |k s r Hk]; try done; [by destruct Hn|]. unfold brackets in Hk.
  repeat (apply elem_of_cons in Hk as [[= -> ->]|Hk]; [done|]). by apply elem_of_nil in Hk.
Qed.

Lemma lexed_token d l r' o ds k b :
  token_ok k b l r' -> (ds = [] ↔ b = true) -> Forall (within d l) ds ->
  lexed_piece d (l ++ r') o (at_ (d ++ l) (put d (Lexeme k l b) (log o ds))).
Proof.
  intros Hok Hds Hin. exists (Lexeme k l b), r'. exists ds. split_and!; try done. by eapply token_nonempty.
Qed.

Lemma ends_token k b d l r' o ds :
  txt_ = d ++ l ++ r' -> token_ok k b l r' -> (ds = [] ↔ b = true) -> Forall (within d l) ds ->
  ends (token_from k (str_len d)) (at_ (d ++ l) (log o ds)) (fun _ => lexed_piece d (l ++ r') o).
Proof.
  intros Ht Hok Hds Hin. apply ends_bind. eapply ends_range_from; [done..|]. apply ends_modify.
  by apply (lexed_token d l r' o ds k b).
Qed.

Lemma ends_rejected code d l r' o ds :
  txt_ = d ++ l ++ r' -> rejected_ok l r' -> Forall (within d l) ds ->
  ends (error_from source code (str_len d)) (at_ (d ++ l) (log o ds)) (fun _ => lexed_piece d (l ++ r') o).
Proof.
  intros Ht Hok Hds. eapply ends_error_from; [done..|]. rewrite log_log.
  exists (Rejected l), r'. exists (ds ++ [MkDiagnostic code source (range_at d l)]). split_and!; try done.
  - by destruct Hok.
  - split; [by destruct ds|]. split; [apply Forall_app; split; [done|]; constructor; [apply within_whole|done]|].
    intros l' [= <-]. eexists. split; [apply elem_of_app; right; left|done].
Qed.

(** A state without new diagnostics. *)
Lemma no_log (Q : unit -> Lexer -> Prop) (m : SR Lexer ()) d o :
  ends m (at_ d (log o [])) Q -> ends m (at_ d o) Q.
Proof. by rewrite log_nil. Qed.

(** ** Strings *)

Lemma ends_string_loop fuel d l0 r o (Q : unit -> Lexer -> Prop) :
  txt_ = d ++ l0 ++ r -> length r < fuel ->
  (forall b l r' ds, r = l ++ r' -> string_body b l r' -> (ds = [] ↔ b = true) -> Forall (within d (l0 ++ l)) ds ->
    Q () (at_ ((d ++ l0) ++ l) (log o ds))) ->
  ends (string_loop source txt_ fuel (str_len d)) (at_ (d ++ l0) o) Q.
Proof.
  revert l0 r o Q; induction fuel as [|fuel IH]; intros l0 r o Q Ht Hfuel HQ; [lia|].
  cbn [string_loop]. apply ends_bind. eapply ends_peek; [by apply past|].
  assert (r = [] \/ head r = Some newline_char ->
    ends (error_from source UNTERMINATED_STRING (str_len d)) (at_ (d ++ l0) o) Q) as Hbad.
  { intros Hr. eapply ends_error_from; [done..|].
    specialize (HQ false [] r [MkDiagnostic UNTERMINATED_STRING source (range_at d l0)] eq_refl (sb_open r Hr) (flag_some _)).
    rewrite !app_nil_r in HQ. apply HQ. constructor; [apply within_whole|done]. }
  destruct r as [|c r]; simpl; [by apply Hbad; left|].
  destruct (Z.eqb_spec c newline_char) as [->|Hnl]; [by apply Hbad; right|].
  destruct (Z.eqb_spec c double_quote) as [->|Hq].
  { apply (ends_advance _ [double_quote]); [done|].
    specialize (HQ true [double_quote] r [] eq_refl (sb_close r) flag_none). rewrite log_nil in HQ. by apply HQ. }
  simpl in Hfuel. destruct (Z.eqb_spec c (ch "\")) as [->|Hb].
  - apply ends_bind, (ends_advance _ [ch "\"]); [done|]. apply ends_bind.
    eapply ends_escape; [rewrite Ht; by_app|lia|].
    intros b l r' ds -> He Hb Hds. rewrite <- app_assoc.
    apply (IH (l0 ++ ch "\" :: l) r'); [rewrite Ht; by_app|rewrite length_app in Hfuel; lia|].
    intros b' l' r2 ds' -> Hs Hb' Hds'. rewrite log_log.
    replace ((d ++ l0 ++ ch "\" :: l) ++ l') with ((d ++ l0) ++ (ch "\" :: l ++ l')) by (by_app).
    replace ((l0 ++ ch "\" :: l) ++ l') with (l0 ++ ch "\" :: l ++ l') in Hds' by (by_app).
    apply (HQ (b && b') _ r2); [by_app|by apply sb_escape|by apply flags_app|]. apply Forall_app. split; [|done].
    eapply Forall_impl; [exact Hds|]. intros dg Hdg%within_shift. apply (within_more _ _ _ l') in Hdg.
    by rewrite <- app_assoc in Hdg.
  - apply ends_bind, (ends_advance _ [c]); [apply Nat.add_0_r|]. rewrite <- app_assoc.
    apply (IH (l0 ++ [c]) r); [rewrite Ht; by_app|lia|].
    intros b' l' r2 ds -> Hs Hb' Hds.
    replace ((d ++ l0 ++ [c]) ++ l') with ((d ++ l0) ++ (c :: l')) by (by_app).
    replace ((l0 ++ [c]) ++ l') with (l0 ++ c :: l') in Hds by (by_app).
    apply (HQ b' _ r2); [done| |done|done]. apply sb_char; [|done].
    intros Hin. by repeat (apply elem_of_cons in Hin as [->|Hin]; [done|]); apply elem_of_nil in Hin.
Qed.

Lemma ends_lex_string fuel d r o :
  txt_ = d ++ double_quote :: r -> length r < fuel ->
  ends (lex_string source txt_ fuel (str_len d)) (at_ d o) (fun _ => lexed_piece d (double_quote :: r) o).
Proof.
  intros Ht Hfuel. unfold lex_string. apply ends_bind, (ends_advance _ [double_quote]); [done|]. apply ends_bind.
  eapply ends_string_loop; [exact Ht|done|]. intros b l r' ds -> Hs Hb Hds. rewrite <- app_assoc.
  apply (ends_token T_String b d (double_quote :: l) r'); [done| |done|done]. by apply (tok_string b l r').
Qed.

(** ** Character literals and type variables *)

(** After the inside of a character literal. *)
Lemma ends_close_char d inner b r o ds :
  txt_ = d ++ ch "'" :: inner ++ r -> char_inside b inner r ->
  (head r ≠ Some (ch "'") -> rejected_ok (ch "'" :: inner) r) ->
  (ds = [] ↔ b = true) -> Forall (within d (ch "'" :: inner)) ds ->
  ends (closed ← eat txt_ (ch "'");
        if closed : bool then token_from T_Char (str_len d) else error_from source INVALID_CHAR_LITERAL (str_len d))
    (at_ (d ++ ch "'" :: inner) (log o ds)) (fun _ => lexed_piece d (ch "'" :: inner ++ r) o).
Proof.
  intros Ht Hin Hrej Hb Hds. apply ends_bind. eapply ends_eat; [rewrite Ht; by_app| |].
  - intros r' ->. replace ((d ++ ch "'" :: inner) ++ [ch "'"]) with (d ++ ch "'" :: inner ++ txt "'") by by_app.
    replace (ch "'" :: inner ++ ch "'" :: r') with ((ch "'" :: inner ++ txt "'") ++ r') by by_app.
    apply (ends_token T_Char b); [rewrite Ht; by_app|by apply tok_char|done|].
    by apply (within_all _ _ (ch "'" :: inner) (txt "'")).
  - intros Hr. apply (ends_rejected _ d (ch "'" :: inner) r); [done|by apply Hrej|done].
Qed.

(** [char_literal], which [quote] calls for an escape, or for one character and a quote. *)
Lemma ends_char_literal fuel d r o :
  txt_ = d ++ ch "'" :: r -> length r < fuel ->
  (exists r', r = ch "\" :: r') \/ (exists c r', r = c :: ch "'" :: r' /\ c ∉ [newline_char; ch "'"; ch "\"]) ->
  ends (char_literal source txt_ fuel (str_len d)) (at_ d o) (fun _ => lexed_piece d (ch "'" :: r) o).
Proof.
  intros Ht Hfuel Hr. unfold char_literal. apply ends_bind, (ends_advance _ [ch "'"]); [done|].
  apply ends_bind. eapply ends_peek; [by apply past_char|]. apply ends_bind.
  destruct Hr as [[r' ->]|(c & r' & -> & Hc)]; cbn [head].
  - rewrite Z.eqb_refl. apply ends_bind, (ends_advance _ [ch "\"]); [done|]. simpl in Hfuel.
    eapply ends_escape; [rewrite Ht; by_app|lia|]. intros b l r2 ds -> He Hb Hds.
    replace ((d ++ [ch "'"]) ++ ch "\" :: l) with (d ++ ch "'" :: ch "\" :: l) by by_app.
    apply (ends_close_char d (ch "\" :: l) b r2); [done|by apply ci_escape| |done|].
    + intros Hr2. by apply (rej_escape b l r2).
    + eapply Forall_impl; [exact Hds|]. intros dg. apply within_shift.
  - destruct (Z.eqb_spec c (ch "\")) as [->|Hb]; [destruct Hc; by repeat (left || right)|].
    destruct (Z.eqb_spec c newline_char) as [->|Hnl]; [destruct Hc; left|].
    destruct (Z.eqb_spec c (ch "'")) as [->|Hq]; [destruct Hc; right; left|]. cbn [negb andb].
    apply (ends_advance _ [c]); [apply Nat.add_0_r|]. apply no_log.
    replace ((d ++ [ch "'"]) ++ [c]) with (d ++ ch "'" :: [c]) by by_app.
    apply (ends_close_char d [c] true (ch "'" :: r')); [done|by apply ci_plain|done|apply flag_none|done].
Qed.

Lemma ident_start_continue c : word_start c = true -> word_char c = true.
Proof. unfold word_start, word_char. rewrite !orb_true_iff. tauto. Qed.

Lemma ends_type_var fuel d r o :
  txt_ = d ++ ch "'" :: r -> length r < fuel ->
  (forall c r', r = c :: r' -> c ∉ [ch "\"; ch "'"] /\ (head r' = Some (ch "'") -> c = newline_char)) ->
  ends (type_var source txt_ fuel (str_len d)) (at_ d o) (fun _ => lexed_piece d (ch "'" :: r) o).
Proof.
  intros Ht Hfuel Hlook. unfold type_var. apply ends_bind, (ends_advance _ [ch "'"]); [done|].
  apply ends_bind. eapply ends_next_is; [by apply past_char|].
  destruct (match r with c :: _ => is_ident_start c | [] => false end) eqn:Hs.
  - apply ends_bind. eapply ends_eat_while; [by apply past_char|done|done|]. intros l r' -> Hl Hr'.
    destruct l as [|c l].
    { destruct r' as [|c r']; [done|]. simpl in Hr'. change (is_ident_start c) with (word_start c) in Hs.
      change (is_ident_continue c) with (word_char c) in Hr'. apply ident_start_continue in Hs. congruence. }
    apply no_log. replace ((d ++ [ch "'"]) ++ c :: l) with (d ++ ch "'" :: c :: l) by by_app.
    apply (ends_token TypeVar true d (ch "'" :: c :: l) r'); [done| |apply flag_none|done].
    apply tok_type_var; [done|by split|]. intros [-> Hh]. destruct (Hlook c r' eq_refl) as [_ Hc]. by rewrite (Hc Hh) in Hs.
  - apply no_log, (ends_rejected _ d [ch "'"] r); [done| |done]. apply rej_quote. destruct r as [|c r]; [done|].
    destruct (Hlook c r eq_refl). by split.
Qed.

Lemma ends_quote fuel d r o :
  txt_ = d ++ ch "'" :: r -> length r < fuel ->
  ends (quote source txt_ fuel (str_len d)) (at_ d o) (fun _ => lexed_piece d (ch "'" :: r) o).
Proof.
  intros Ht Hfuel. unfold quote. apply ends_bind. eapply ends_nth_char; [done|].
  apply ends_bind. eapply ends_nth_char; [done|].
  destruct r as [|c r]; [by apply ends_type_var|].
  change ((ch "'" :: c :: r) !! 1) with (Some c). change ((ch "'" :: c :: r) !! 2) with (r !! 0). cbn iota beta.
  destruct (Z.eqb_spec c (ch "\")) as [->|Hb]; [apply ends_char_literal; [done..|left; by exists r]|].
  destruct (Z.eqb_spec c (ch "'")) as [->|Hq].
  { apply ends_bind, (ends_advance _ [ch "'"; ch "'"]); [done|]. apply no_log.
    apply (ends_rejected _ d [ch "'"; ch "'"] r); [done|apply rej_empty_char|done]. }
  assert (r !! 0 = head r) as -> by by destruct r.
  destruct (bool_decide (head r = Some (ch "'"))) eqn:Hh; simpl.
  - apply bool_decide_eq_true in Hh. destruct r as [|c' r]; [done|]. injection Hh as ->.
    destruct (Z.eqb_spec c newline_char) as [->|Hnl]; simpl.
    + apply ends_type_var; [done..|]. intros c' r' [= <- <-]. split; [|done].
      intros Hin. by repeat (apply elem_of_cons in Hin as [Hin|Hin]; [done|]); apply elem_of_nil in Hin.
    + apply ends_char_literal; [done..|]. right. exists c, r. split; [done|].
      intros Hin. by repeat (apply elem_of_cons in Hin as [Hin|Hin]; [done|]); apply elem_of_nil in Hin.
  - apply bool_decide_eq_false in Hh. apply ends_type_var; [done..|]. intros c' r' [= <- <-]. split; [|done].
    intros Hin. by repeat (apply elem_of_cons in Hin as [Hin|Hin]; [done|]); apply elem_of_nil in Hin.
Qed.

(** ** Comments *)

Lemma prefix_munch (p : char -> bool) (x l r' : text) :
  Forall (fun c => p c = true) x -> ends_at p r' -> x `prefix_of` l ++ r' -> x `prefix_of` l.
Proof.
  revert l; induction x as [|a x IH]; intros l Hx Hr' Hp; [apply prefix_nil|].
  apply list.Forall_cons in Hx as [Ha Hx]. destruct l as [|b l].
  - destruct r' as [|b r']; [by apply prefix_nil_not in Hp|]. apply prefix_cons_inv_1 in Hp as ->. simpl in Hr'. congruence.
  - pose proof (prefix_cons_inv_1 _ _ _ _ Hp) as ->. apply prefix_cons_inv_2 in Hp.
    apply prefix_cons. by apply IH.
Qed.

Lemma lexed_comment d l r' o ds k b :
  l ≠ [] -> comment_ok k b l r' -> (ds = [] ↔ b = true) -> Forall (within d l) ds ->
  lexed_trivia d (l ++ r') o (at_ (d ++ l) (put d (Trivia k l b) (log o ds))).
Proof. intros Hne Hok Hb Hds. exists (Trivia k l b), r'. split; [|done]. exists ds. by split_and!. Qed.

(** The two or three slashes a line comment starts with decide its kind. *)
Lemma line_comment_ok l r' :
  run_of in_line (txt "//" ++ l) r' ->
  comment_ok (if bool_decide (txt "///" `prefix_of` (txt "//" ++ l) ++ r') &&
      negb (bool_decide (txt "////" `prefix_of` (txt "//" ++ l) ++ r')) then Doc_comment else Line_comment)
    true (txt "//" ++ l) r'.
Proof.
  intros Hrun. pose proof Hrun as [_ Hr'].
  assert (forall x, Forall (fun c => in_line c = true) x -> txt "//" ++ x `prefix_of` (txt "//" ++ l) ++ r' ↔ x `prefix_of` l) as Hpre.
  { intros x Hx. rewrite <- app_assoc. split.
    - intros Hp%prefix_app_inv. by eapply prefix_munch.
    - intros Hp. by apply prefix_app, prefix_app_r. }
  pose proof (Hpre (txt "/") ltac:(by repeat constructor)) as H3.
  pose proof (Hpre (txt "//") ltac:(by repeat constructor)) as H4.
  change (txt "//" ++ txt "/") with (txt "///") in H3. change (txt "//" ++ txt "//") with (txt "////") in H4.
  do 2 case_bool_decide; simpl.
  - apply com_line; [done|]. by rewrite <- H4.
  - destruct (proj1 H3 H) as [x ->]. apply (com_doc x r'); [done|]. intros [y ->]. apply H0, H4.
    change (txt "/" ++ txt "/" ++ y) with (txt "//" ++ y). by exists y.
  - apply com_line; [done|]. by rewrite <- H4.
  - apply com_line; [done|]. intros Hp. by destruct H; apply H3.
Qed.

Lemma ends_line_comment fuel d r o :
  txt_ = d ++ txt "//" ++ r -> length (txt "//" ++ r) < fuel ->
  ends (line_comment txt_ fuel (str_len d)) (at_ d o) (fun _ => lexed_trivia d (txt "//" ++ r) o).
Proof.
  intros Ht Hfuel. unfold line_comment. apply ends_bind. eapply ends_starts_with; [done|].
  set (r0 := txt "//" ++ r) in *. apply ends_bind.
  assert (ends (if bool_decide (txt "///" `prefix_of` r0) then starts_with txt_ (txt "////") else mret false)
    (at_ d o) (fun four s => s = at_ d o /\ bool_decide (txt "///" `prefix_of` r0) && negb four
      = bool_decide (txt "///" `prefix_of` r0) && negb (bool_decide (txt "////" `prefix_of` r0)))) as Hfour.
  { destruct (bool_decide (txt "///" `prefix_of` r0)); [by eapply ends_starts_with|by apply ends_ret]. }
  eapply ends_mono; [exact Hfour|]. intros four ? [-> ->].
  apply ends_bind. eapply ends_eat_while; [done|done|done|]. intros l r' Hr Hl Hr'.
  assert (txt "//" `prefix_of` l) as [l' ->].
  { eapply (prefix_munch in_line); [by repeat constructor|exact Hr'|]. rewrite <- Hr. by exists r. }
  rewrite Hr in Ht |- *. apply ends_bind. eapply (ends_range_from _ fits); [done..|]. apply ends_modify.
  pose proof (lexed_comment d (txt "//" ++ l') r' o []) as Hcm. rewrite log_nil in Hcm.
  apply (Hcm _ true); [done|by apply line_comment_ok|apply flag_none|done].
Qed.

Lemma u32_succ_within d r n : txt_ = d ++ r -> n < str_len d -> u32_succ n = Some (S n).
Proof.
  intros Ht Hn. unfold u32_succ, from_usize. rewrite (proj2 (Z.ltb_lt _ _)); [done|].
  rewrite Ht, str_len_app in fits. lia.
Qed.

Lemma ends_block_loop fuel : forall d l0 r depth o (Q : unit -> Lexer -> Prop),
  txt_ = d ++ l0 ++ r -> length r < fuel -> depth < str_len (d ++ l0) ->
  (forall b l r' ds, r = l ++ r' -> comment_body depth b l r' -> (ds = [] ↔ b = true) -> Forall (within d (l0 ++ l)) ds ->
    Q () (at_ ((d ++ l0) ++ l) (log o ds))) ->
  ends (block_loop source txt_ fuel (str_len d) depth) (at_ (d ++ l0) o) Q.
Proof.
  induction fuel as [|fuel IH]; intros d l0 r depth o Q Ht Hfuel Hdepth HQ; [lia|].
  cbn [block_loop]. destruct (Nat.eqb_spec depth 0) as [->|Hd].
  { apply ends_ret. specialize (HQ true [] r [] eq_refl (cb_done r) flag_none). rewrite !app_nil_r, log_nil in HQ. by apply HQ. }
  destruct depth as [|depth]; [done|]. clear Hd.
  apply ends_bind. eapply ends_peek; [by apply past|]. destruct r as [|c r]; cbn [head].
  { eapply ends_error_from; [done..|].
    specialize (HQ false [] [] [MkDiagnostic UNTERMINATED_BLOCK_COMMENT source (range_at d l0)] eq_refl (cb_end depth) (flag_some _)).
    rewrite !app_nil_r in HQ. apply HQ. constructor; [apply within_whole|done]. }
  assert (forall x r1 depth', c :: r = x ++ r1 -> x ≠ [] -> depth' < str_len (d ++ l0 ++ x) ->
    (forall b l r', r1 = l ++ r' -> comment_body depth' b l r' -> comment_body (S depth) b (x ++ l) r') ->
    ends (block_loop source txt_ fuel (str_len d) depth') (at_ ((d ++ l0) ++ x) o) Q) as Hstep.
  { intros x r1 depth' Hx Hne Hdepth' Hbody. rewrite <- app_assoc. apply (IH d (l0 ++ x) r1).
    - rewrite Ht, Hx. by_app.
    - assert (length (c :: r) = length x + length r1) as Hl by (by rewrite Hx, length_app).
      destruct x; [done|]. simpl in Hl, Hfuel. lia.
    - done.
    - intros b l r' ds -> Hb Hds Hin. replace ((d ++ l0 ++ x) ++ l) with ((d ++ l0) ++ (x ++ l)) by by_app.
      apply (HQ b _ r'); [by rewrite Hx, <- app_assoc|by apply Hbody|done|by rewrite app_assoc]. }
  apply ends_bind. eapply ends_starts_with; [by apply past|].
  destruct (bool_decide (txt "(*" `prefix_of` c :: r)) eqn:Ho.
  { apply prefix_split in Ho as [r1 Hr1]. apply ends_bind, (ends_advance _ (txt "(*")); [done|].
    apply ends_bind. eapply ends_asks.
    - rewrite (u32_succ_within (d ++ l0) (c :: r)); [done|by apply past|done].
    - apply (Hstep _ r1); [done|done| |by intros; apply cb_open]. rewrite app_assoc, str_len_app. change (str_len (txt "(*")) with 2. lia. }
  apply ends_bind. eapply ends_starts_with; [by apply past|].
  destruct (bool_decide (txt "*)" `prefix_of` c :: r)) eqn:Hc.
  { apply prefix_split in Hc as [r1 Hr1]. apply ends_bind, (ends_advance _ (txt "*)")); [done|].
    replace (S depth - 1) with depth by lia.
    apply (Hstep _ r1); [done|done| |by intros; apply cb_close]. rewrite app_assoc, str_len_app. lia. }
  apply bool_decide_eq_false in Ho, Hc. apply ends_bind, (ends_advance _ [c]); [apply Nat.add_0_r|].
  apply (Hstep [c] r); [done|done| |intros b l r' -> Hb; by apply cb_char]. rewrite app_assoc, str_len_app. lia.
Qed.

Lemma ends_block_comment fuel d r o :
  txt_ = d ++ txt "(*" ++ r -> length r < fuel ->
  ends (block_comment source txt_ fuel (str_len d)) (at_ d o) (fun _ => lexed_trivia d (txt "(*" ++ r) o).
Proof.
  intros Ht Hfuel. unfold block_comment. apply ends_bind, (ends_advance _ (txt "(*")); [done|].
  apply ends_bind. eapply ends_block_loop; [exact Ht|done| |].
  { rewrite str_len_app. change (str_len (txt "(*")) with 2. lia. }
  intros b l r' ds -> Hb Hds Hin. rewrite <- app_assoc. apply ends_bind.
  eapply (ends_range_from txt_ fits d (txt "(*" ++ l) r'); [rewrite Ht; by_app|]. apply ends_modify.
  replace (txt "(*" ++ l ++ r') with ((txt "(*" ++ l) ++ r') by by_app.
  apply (lexed_comment d _ r' o ds _ b); [done|by apply com_block|done|done].
Qed.
End Sound.
