(* ===== verification/LexerNumber.v ===== *)
(** * Numbers, words and symbols

    The rest of fai-syntax's [lexer.rs]: numeric literals with their suffixes, identifiers,
    operators, and the loop over the whole text. *)

From S2P Require Import Prelude Text Literals Lines Tokens Lexer LexerSpec LexerSound.
From stdpp Require Import list strings.
From Stdlib Require Import Ascii ZArith Lia.

Section Number.
Context (source : nat) (txt_ : text).
Context (fits : (Z.of_nat (str_len txt_) < 2 ^ 32)%Z).
Abbreviation at_ := LexerSpec.at_.
Abbreviation within := (within source).
Abbreviation lexed_piece := (lexed_piece source).

(** A part that reads some characters and reports nothing. *)
Definition reads_on {A} (m : SR Lexer A) (d r : text) (ok : A -> text -> text -> Prop) : Prop :=
  forall o, ends m (at_ d o) (fun a s => exists l r', r = l ++ r' /\ s = at_ (d ++ l) o /\ ok a l r').

Lemma reads_on_use {A} (m : SR Lexer A) d r ok o (Q : A -> Lexer -> Prop) :
  reads_on m d r ok -> (forall a l r', r = l ++ r' -> ok a l r' -> Q a (at_ (d ++ l) o)) ->
  ends m (at_ d o) Q.
Proof. intros H HQ. eapply ends_mono; [apply H|]. intros a s (l & r' & Hr & -> & Hok). by eapply HQ. Qed.

Lemma reads_on_ret {A} (a : A) d r (ok : A -> text -> text -> Prop) : ok a [] r -> reads_on (mret a) d r ok.
Proof. intros Hok o. apply ends_ret. exists [], r. by rewrite app_nil_r. Qed.

Lemma reads_on_bind {A B} (m : SR Lexer A) (k : A -> SR Lexer B) d r ok1 (ok : B -> text -> text -> Prop) :
  reads_on m d r ok1 ->
  (forall a l r', r = l ++ r' -> ok1 a l r' -> reads_on (k a) (d ++ l) r' (fun b l' r2 => ok b (l ++ l') r2)) ->
  reads_on (m ≫= k) d r ok.
Proof.
  intros Hm Hk o. apply ends_bind. eapply reads_on_use; [exact Hm|]. intros a l r' Hr Hok.
  eapply ends_mono; [by eapply Hk|]. intros b s (l' & r2 & -> & -> & Hok'). exists (l ++ l'), r2.
  by rewrite Hr, <- !app_assoc.
Qed.

Lemma reads_on_mono {A} (m : SR Lexer A) d r (ok ok' : A -> text -> text -> Prop) :
  reads_on m d r ok -> (forall a l r', r = l ++ r' -> ok a l r' -> ok' a l r') -> reads_on m d r ok'.
Proof.
  intros Hm Hok o. eapply ends_mono; [apply Hm|]. intros a s (l & r' & Hr & Hs & H). exists l, r'. auto.
Qed.

(** A part that only looks. *)
Lemma reads_on_look {A B} (m : SR Lexer A) (k : A -> SR Lexer B) d r (P : A -> Prop) ok :
  reads_on m d r (fun a l _ => l = [] /\ P a) -> (forall a, P a -> reads_on (k a) d r ok) ->
  reads_on (m ≫= k) d r ok.
Proof.
  intros Hm Hk. eapply reads_on_bind; [exact Hm|]. intros a l r' Hr [-> Ha]. simpl in Hr. destruct Hr.
  rewrite app_nil_r. by apply Hk.
Qed.

Lemma reads_on_next_is p d r :
  txt_ = d ++ r ->
  reads_on (next_is txt_ p) d r (fun b l r' => l = [] /\ b = match r with c :: _ => p c | [] => false end).
Proof. intros Ht o. eapply ends_next_is; [done|]. exists [], r. by rewrite app_nil_r. Qed.

Lemma reads_on_nth n d r :
  txt_ = d ++ r -> reads_on (nth_char txt_ n) d r (fun c l r' => l = [] /\ c = r !! n).
Proof. intros Ht o. eapply ends_nth_char; [done|]. exists [], r. by rewrite app_nil_r. Qed.

Lemma reads_on_advance c r d : len_utf8 c = 1 -> reads_on (advance 1) d (c :: r) (fun _ l _ => l = [c]).
Proof. intros Hc o. apply (ends_advance _ [c]); [by rewrite str_len_cons, Hc|]. by exists [c], r. Qed.

Lemma reads_on_while fuel p width d r :
  txt_ = d ++ r -> length r < fuel -> (forall c, p c = true -> width c = len_utf8 c) ->
  reads_on (eat_while txt_ fuel p width) d r
    (fun _ l r' => run_of p l r').
Proof. intros Ht Hfuel Hw o. eapply ends_eat_while; [done..|]. intros l r' -> Hl Hr'. by exists l, r'. Qed.

Lemma munch_nonempty (p : char -> bool) c r l r' :
  c :: r = l ++ r' -> p c = true -> ends_at p r' -> l ≠ [].
Proof. intros Hr Hc Hr' ->. simpl in Hr. subst r'. simpl in Hr'. congruence. Qed.

Lemma width_one (p : char -> bool) :
  (forall c, p c = true -> len_utf8 c = 1) -> forall c, p c = true -> single c = len_utf8 c.
Proof. intros Hp c Hc. by rewrite Hp. Qed.

Lemma reads_on_digits fuel d r :
  txt_ = d ++ r -> length r < fuel ->
  reads_on (consume_digits txt_ fuel) d r
    (fun _ l r' => run_of separated l r').
Proof. intros Ht Hf. apply reads_on_while; [done..|]. apply width_one, digit_or_separator_len. Qed.

(** ** Numbers *)

Lemma base_digit_of x c : base_letter x = true -> base_digit (to_ascii_lowercase x) c = digit_of x c.
Proof.
  intros Hx%bool_decide_eq_true. simpl in Hx.
  assert (forall c, (c =? 48)%Z || (c =? 49)%Z || (c =? 95)%Z = char_between "0" "1" c || (c =? 95)%Z) as Hbin.
  { intros c'. unfold char_between. change (ch "0") with 48%Z. change (ch "1") with 49%Z.
    destruct (Z.eqb_spec c' 48), (Z.eqb_spec c' 49), (Z.leb_spec 48 c'), (Z.leb_spec c' 49); simpl; done || lia. }
  repeat (apply elem_of_cons in Hx as [->|Hx]; [first [reflexivity|apply Hbin]|]). by apply elem_of_nil in Hx.
Qed.

Definition some_digit (l : text) : bool := existsb (fun c => negb (c =? ch "_")%Z) l.

Lemma reads_on_base_loop fuel x any d r :
  txt_ = d ++ r -> length r < fuel -> base_letter x = true ->
  reads_on (base_loop txt_ fuel (to_ascii_lowercase x) any) d r (fun b l r' => run_of (digit_of x) l r' /\ b = any || some_digit l).
Proof.
  intros Ht Hf Hx. revert any d r Ht Hf; induction fuel as [|fuel IH]; intros any d r Ht Hf; [lia|].
  intros o. cbn [base_loop]. apply ends_bind. eapply ends_peek; [done|].
  destruct r as [|c r]; cbn [head]; [by apply reads_on_ret; rewrite orb_false_r|].
  rewrite base_digit_of by done.
  destruct (digit_of x c) eqn:Hc; [|by apply reads_on_ret; rewrite orb_false_r; split; [split|]].
  eapply (reads_on_bind _ _ _ _ (fun _ l _ => l = [c])).
  { apply reads_on_advance. rewrite <- base_digit_of in Hc by done. by eapply base_digit_len. }
  intros ? l r' Hr ->. injection Hr as <-. eapply reads_on_mono; [apply IH; [rewrite Ht; by_app|simpl in Hf; lia]|].
  intros b l r' _ [[Hl Hr'] ->]. split; [split; [by constructor|done]|]. simpl. by rewrite orb_assoc.
Qed.

Lemma reads_on_base_number fuel x d r :
  txt_ = d ++ ch "0" :: x :: r -> length r < fuel -> base_letter x = true ->
  reads_on (base_number txt_ fuel) d (ch "0" :: x :: r) (fun b l r' => number_core T_Int b l r').
Proof.
  intros Ht Hf Hx. unfold base_number. eapply reads_on_bind; [by apply reads_on_advance|].
  intros ? l r' Hr ->. injection Hr as <-. intros o. apply ends_bind.
  eapply ends_bump; [rewrite Ht; by_app|]. cbn [default].
  eapply reads_on_use; [apply reads_on_base_loop; [rewrite Ht; by_app|done|done]|].
  intros b l r' -> [Hl ->]. exists (x :: l), r'. split; [done|]. split; [f_equal; by_app|]. by apply nc_based.
Qed.

(** An optional sign. *)
Lemma ends_sign d r o (Q : unit -> Lexer -> Prop) :
  txt_ = d ++ r ->
  (forall sign r', r = sign ++ r' -> sign ∈ signs -> (sign = [] -> ends_at (in_class "+-") r') -> Q () (at_ (d ++ sign) o)) ->
  ends (signed ← next_is txt_ (in_class "+-"); (if signed : bool then advance 1 else mret ())) (at_ d o) Q.
Proof.
  intros Ht HQ. apply ends_bind. eapply ends_next_is; [done|].
  destruct r as [|c r]; [apply ends_ret; rewrite <- (app_nil_r d); by apply (HQ [] []); [|left|]|].
  destruct (in_class "+-" c) eqn:Hc.
  - apply (ends_advance _ [c]); [by rewrite str_len_cons, (class_ascii "+-" c eq_refl Hc)|].
    apply (HQ [c] r); [done| |done]. apply bool_decide_eq_true in Hc. simpl in Hc.
    repeat (apply elem_of_cons in Hc as [->|Hc]; [by repeat (left || right)|]). by apply elem_of_nil in Hc.
  - apply ends_ret. rewrite <- (app_nil_r d). by apply (HQ [] (c :: r)); [|left|].
Qed.

(** After a sign, when no digit follows there is no exponent. *)
Lemma no_exponent e sign r : in_class "eE" e = true -> sign ∈ signs -> (sign = [] -> ends_at (in_class "+-") r) ->
  match r with c :: _ => is_ascii_digit c | [] => false end = false -> exponent_part [] (e :: sign ++ r).
Proof.
  intros He Hs Hno Hd. left. split; [done|]. intros (e' & sign' & d & r' & [= <- Hr] & _ & Hs' & Hd').
  unfold signs in Hs, Hs'. simpl in Hs, Hs'. rewrite !elem_of_cons, elem_of_nil in Hs, Hs'.
  assert (forall r0, r = d :: r0 -> False) as Hr0 by (intros r0 ->; change (is_ascii_digit d) with (digit d) in Hd; congruence).
  destruct Hs as [->|[->|[->|[]]]], Hs' as [->|[->|[->|[]]]]; simpl in Hr;
    first [exact (Hr0 _ Hr)|discriminate Hr|exact (Hr0 _ (f_equal (drop 1) Hr))|
      (specialize (Hno eq_refl); rewrite Hr in Hno; discriminate Hno)|
      (apply (f_equal head) in Hr; injection Hr as <-; discriminate Hd')].
Qed.

Lemma reads_on_exponent fuel is_float d r :
  txt_ = d ++ r -> length r < fuel ->
  reads_on (exponent txt_ fuel is_float) d r (fun b l r' => exponent_part l r' /\ b = is_float || bool_decide (l ≠ [])).
Proof.
  intros Ht Hf. unfold exponent. eapply reads_on_look; [by apply reads_on_next_is|]. intros ? ->.
  assert (forall r, ends_at (in_class "eE") r -> exponent_part [] r) as Hnone.
  { intros r0 Hr0. left. split; [done|]. intros (e & sign & d0 & r' & -> & He & _). simpl in Hr0. congruence. }
  destruct r as [|c r]; [by apply reads_on_ret; rewrite orb_false_r; split; [apply Hnone|]|].
  destruct (in_class "eE" c) eqn:Hc; [|by apply reads_on_ret; rewrite orb_false_r; split; [apply Hnone|]].
  assert (len_utf8 c = 1) as Hlen by (by eapply class_ascii, Hc).
  intros o. apply ends_bind, ends_here. apply ends_bind.
  apply (ends_advance _ [c]); [by rewrite str_len_cons, Hlen|]. apply past_char in Ht as Htc.
  assert (forall (m : SR Lexer bool) A B (m1 : SR Lexer A) (m2 : A -> SR Lexer B) (k : SR Lexer bool) s Q,
    ends ((a ← m1; m2 a) ≫= fun _ => k) s Q -> ends (a ← m1; _ ← m2 a; k) s Q) as Hassoc.
  { intros _ A B m1 m2 k s Q. unfold ends, mbind, sr_bind. destruct (m1 s) as [[x s1]| |]; [|done..]. by destruct (m2 x s1) as [[y s2]| |]. }
  apply Hassoc; [exact (mret true)|]. clear Hassoc. apply ends_bind. eapply ends_sign; [exact Htc|]. intros sign r1 -> Hs Hno.
  apply past in Htc as Hts. apply ends_bind. eapply ends_next_is; [exact Hts|].
  assert (length r1 < fuel) by (simpl in Hf; rewrite length_app in Hf; lia).
  destruct (match r1 with c :: _ => is_ascii_digit c | [] => false end) eqn:Hd.
  - apply ends_bind. eapply reads_on_use; [by apply reads_on_digits|].
    intros ? l r2 Hr2 [Hl Hend]. apply ends_ret. exists (c :: sign ++ l), r2. rewrite Hr2.
    split; [by_app|]. split; [f_equal; by_app|]. rewrite orb_true_r. split; [|done]. right.
    destruct l as [|x l]; [destruct r1 as [|x r1]; [done|]; simpl in Hr2; subst r2; simpl in Hend|].
    + unfold separated in Hend. change (digit x) with (is_ascii_digit x) in Hend. by rewrite Hd in Hend.
    + subst r1. exists c, sign, x, l. apply list.Forall_cons in Hl as [_ Hl]. by split_and!.
  - apply ends_bind, ends_modify. apply ends_ret. exists [], (c :: sign ++ r1). rewrite app_nil_r, orb_false_r.
    split; [done|]. split; [done|]. split; [|done]. by apply no_exponent.
Qed.

Lemma reads_on_fraction fuel d r :
  txt_ = d ++ r -> length r < fuel ->
  reads_on (dot ← next_is txt_ (fun c => c =? ch ".")%Z; after ← nth_char txt_ 1;
    (if dot && match after with Some c => is_ascii_digit c | None => false end
     then _ ← advance 1; _ ← consume_digits txt_ fuel; mret true else mret false)) d r
    (fun b l r' => fraction l r' /\ b = bool_decide (l ≠ [])).
Proof.
  intros Ht Hf. eapply reads_on_look; [by apply reads_on_next_is|]. intros dot Hdot.
  eapply reads_on_look; [by apply reads_on_nth|]. intros after Hafter.
  match goal with |- reads_on (if ?b then _ else _) _ _ _ => destruct b eqn:Hb end.
  - rewrite Hdot, Hafter in Hb. destruct r as [|c [|x r]]; [done|by rewrite andb_false_r in Hb|]. cbn in Hb.
    apply andb_true_iff in Hb as [Hc Hx]. simpl in Hf.
    eapply reads_on_bind; [apply reads_on_advance; by apply (char_eq_len ".")|].
    intros ? ? ? Hr3 ->. injection Hr3 as <-.
    eapply reads_on_bind; [apply reads_on_digits; [rewrite Ht; by_app|simpl; lia]|].
    intros ? l r' Hr [Hl Hr']. apply reads_on_ret. apply Z.eqb_eq in Hc as ->. rewrite app_nil_r. split; [|done]. right.
    destruct l as [|y l]; [simpl in Hr; subst r'; simpl in Hr'; unfold separated in Hr'; change (digit x) with (is_ascii_digit x) in Hr'; by rewrite Hx in Hr'|].
    injection Hr as <- ->. apply list.Forall_cons in Hl as [_ Hl]. by exists x, l.
  - apply reads_on_ret. split; [|done]. left. split; [done|]. intros (x & r' & -> & Hx). rewrite Hdot, Hafter in Hb.
    change (digit x = false) in Hb. congruence.
Qed.

Lemma reads_on_decimal fuel c d r :
  txt_ = d ++ c :: r -> S (length r) < fuel -> is_ascii_digit c = true -> (c = ch "0" -> ends_at base_letter r) ->
  reads_on (decimal_number txt_ fuel) d (c :: r) (fun b l r' => number_core (if b : bool then T_Float else T_Int) true l r').
Proof.
  intros Ht Hf Hc Hzero. unfold decimal_number. eapply reads_on_bind; [by apply reads_on_digits|].
  intros ? l r1 Hr [Hl Hr1]. destruct l as [|c' ds].
  { simpl in Hr. subst r1. simpl in Hr1. unfold separated in Hr1. change (digit c) with (is_ascii_digit c) in Hr1. by rewrite Hc in Hr1. }
  injection Hr as <- Hr. apply list.Forall_cons in Hl as [_ Hl].
  assert (length r1 < fuel) as Hf1 by (rewrite Hr, length_app in Hf; lia).
  assert (txt_ = (d ++ c :: ds) ++ r1) as Ht1 by (by rewrite Ht, Hr, <- app_assoc).
  pose proof (reads_on_fraction fuel (d ++ c :: ds) r1 Ht1 Hf1) as Hfrac.
  assert (forall A B C E (m1 : SR Lexer A) (m2 : SR Lexer B) (m3 : A -> B -> SR Lexer C) (k : C -> SR Lexer E) dd rr ok,
    reads_on ((x ← m1; y ← m2; m3 x y) ≫= k) dd rr ok -> reads_on (x ← m1; y ← m2; z ← m3 x y; k z) dd rr ok) as Hassoc.
  { intros A B C E m1 m2 m3 k dd rr ok H o. specialize (H o). revert H. unfold ends, mbind, sr_bind.
    destruct (m1 (at_ dd o)) as [[x s1]| |]; [|done..]. by destruct (m2 s1) as [[y s2]| |]. }
  apply Hassoc. clear Hassoc. eapply reads_on_bind; [exact Hfrac|]. intros is_float frac r2 -> [Hfr ->].
  eapply reads_on_mono; [apply reads_on_exponent; [rewrite Ht1; by_app|rewrite length_app in Hf1; lia]|].
  intros b exp r3 -> [Hexp ->].
  assert ((if bool_decide (frac ≠ []) || bool_decide (exp ≠ []) then T_Float else T_Int) =
    (if decide (frac ++ exp = []) then T_Int else T_Float)) as ->.
  { destruct frac; [|done]. by destruct exp. }
  change ((c :: ds) ++ frac ++ exp) with (c :: ds ++ frac ++ exp). apply nc_decimal; [done|by rewrite <- Hr|by split|done|done].
Qed.

Lemma reads_on_no_suffix fuel d r :
  txt_ = d ++ r -> length r < fuel ->
  reads_on (no_suffix txt_ fuel) d r (fun b l r' => run_of word_char l r' /\ b = bool_decide (l = [])).
Proof.
  intros Ht Hf. unfold no_suffix. eapply reads_on_look; [by apply reads_on_next_is|].
  intros suffix Hs. destruct suffix.
  - eapply reads_on_bind; [by apply reads_on_while|]. intros ? l r' -> [Hl Hr']. apply reads_on_ret. rewrite app_nil_r.
    split; [done|]. destruct l as [|c l]; [|done]. destruct r' as [|c r']; [done|]. simpl in Hs, Hr'. congruence.
  - apply reads_on_ret. by destruct r.
Qed.

(** A number before its suffix: whether it is a float, and whether it has digits. *)
Lemma reads_on_form fuel c d r :
  txt_ = d ++ c :: r -> S (length r) < fuel -> is_ascii_digit c = true ->
  reads_on (zero ← next_is txt_ (fun c => c =? ch "0")%Z;
    prefix ← nth_char txt_ 1;
    (if zero && match prefix with Some c => in_class "xXoObB" c | None => false end
     then any ← base_number txt_ fuel; mret (false, any)
     else is_float ← decimal_number txt_ fuel; mret (is_float, true)))
    d (c :: r) (fun a l r' => number_core (if a.1 : bool then T_Float else T_Int) a.2 l r').
Proof.
  intros Ht Hf Hc. eapply reads_on_look; [by apply reads_on_next_is|]. intros zero Hzero. cbn in Hzero.
  eapply reads_on_look; [by apply reads_on_nth|]. intros prefix Hp. change ((c :: r) !! 1) with (r !! 0) in Hp.
  match goal with |- reads_on (if ?b then _ else _) _ _ _ => destruct b eqn:Hb end.
  - apply andb_true_iff in Hb as [Hz Hb]. rewrite Hzero in Hz. apply Z.eqb_eq in Hz as ->.
    destruct r as [|x r]; [by rewrite Hp in Hb|]. rewrite Hp in Hb.
    eapply reads_on_bind; [apply reads_on_base_number; [done|simpl in Hf; lia|done]|].
    intros any l r' _ Hl. apply reads_on_ret. by rewrite app_nil_r.
  - eapply reads_on_bind; [apply reads_on_decimal; [done..|]|].
    + intros ->. destruct r as [|x r]; [done|]. rewrite Hzero, Hp in Hb. exact Hb.
    + intros any l r' _ Hl. apply reads_on_ret. by rewrite app_nil_r.
Qed.

Lemma ends_number fuel c d r o :
  txt_ = d ++ c :: r -> S (length r) < fuel -> is_ascii_digit c = true ->
  ends (number source txt_ fuel (str_len d)) (at_ d o) (fun _ => lexed_piece d (c :: r) o).
Proof.
  intros Ht Hf Hc. pose proof (reads_on_form fuel c d r Ht Hf Hc o) as Hform. unfold number.
  assert (forall A B C D (m1 : SR Lexer A) (m2 : SR Lexer B) (m3 : A -> B -> SR Lexer C) (k : C -> SR Lexer D) s Q,
    ends ((x ← m1; y ← m2; m3 x y) ≫= k) s Q -> ends (x ← m1; y ← m2; z ← m3 x y; k z) s Q) as Hassoc.
  { intros A B C D m1 m2 m3 k s Q. unfold ends, mbind, sr_bind.
    destruct (m1 s) as [[x s1]| |]; [|done..]. by destruct (m2 s1) as [[y s2]| |]. }
  apply Hassoc. clear Hassoc. apply ends_bind. eapply ends_mono; [exact Hform|].
  intros [is_float ok] s (l1 & r1 & Hr1 & -> & Hcore). cbn [fst snd] in Hcore.
  assert (length r1 < fuel) as Hf1.
  { assert (S (length r) = length l1 + length r1) by (by rewrite <- length_app, <- Hr1). lia. }
  apply ends_bind. eapply reads_on_use; [apply reads_on_no_suffix; [rewrite Ht, Hr1; by_app|done]|].
  intros plain l2 r2 -> [Hsuf ->]. rewrite <- app_assoc. set (l := l1 ++ l2).
  assert (c :: r = l ++ r2) as Hr by (rewrite Hr1; unfold l; by_app).
  assert (txt_ = d ++ l ++ r2) as Htl by (by rewrite <- Hr).
  pose proof (tok_number _ _ _ _ _ Hcore Hsuf) as Htok. fold l in Htok.
  set (k := if is_float then T_Float else T_Int) in *.
  set (b := ok && bool_decide (l2 = []) && bool_decide (k = T_Float \/ is_Some (decode_int_literal (into_bytes l)))) in *.
  apply ends_bind. eapply ends_range_from; [done..|]. apply ends_bind.
  assert (forall ds, (ds = [] ↔ b = true) -> Forall (within d l) ds ->
    ends (push_token k (range_at d l)) (at_ (d ++ l) (log o ds)) (fun _ => lexed_piece d (c :: r) o)) as Hpush.
  { intros ds Hds Hin. apply ends_modify. rewrite Hr. by apply (lexed_token source d l r2 o ds k b). }
  assert (b = false -> ends (error source INVALID_NUMBER (range_at d l)) (at_ (d ++ l) o)
    (fun _ s => ends (push_token k (range_at d l)) s (fun _ => lexed_piece d (c :: r) o))) as Hbad.
  { intros Hb. apply ends_modify. apply (Hpush [MkDiagnostic INVALID_NUMBER source (range_at d l)]); [by rewrite Hb; apply flag_some|].
    constructor; [apply within_whole|done]. }
  specialize (Hpush []). rewrite log_nil in Hpush.
  destruct (ok && bool_decide (l2 = [])) eqn:Hclean; simpl; [|by apply Hbad].
  subst k. destruct is_float.
  - apply ends_ret, Hpush; [|done]. unfold b. by rewrite bool_decide_eq_true_2 by by left.
  - apply ends_bind. eapply ends_lexeme_from; [done|]. case_decide as Hdec.
    + apply Hbad. unfold b. rewrite Hdec. apply bool_decide_eq_false. intros [?|[? ?]]; done.
    + apply ends_ret, Hpush; [|done]. unfold b. rewrite bool_decide_eq_true_2; [done|]. right. by apply not_eq_None_Some.
Qed.

(** ** Identifiers *)

(** What the first match in a table says, and what the grammar asks of the table. *)
Lemma table_first (table : list (string * TokenKind)) l k : snd <$> head (filter (fun p => txt p.1 = l) table) = Some k ->
  exists s, (s, k) ∈ table /\ l = txt s.
Proof.
  intros Hh. destruct (filter (fun p => txt p.1 = l) table) as [|p ps'] eqn:Hfil; [done|].
  injection Hh as <-. assert (p ∈ filter (fun p => txt p.1 = l) table) as Hin by (rewrite Hfil; left).
  apply list_elem_of_filter in Hin as [Hp Hin]. exists p.1. by destruct p.
Qed.
Lemma table_none (table : list (string * TokenKind)) l : head (filter (fun p => txt p.1 = l) table) = None ->
  forall s k, (s, k) ∈ table -> l ≠ txt s.
Proof.
  intros Hh s k Hin ->. assert ((s, k) ∈ filter (fun p : string * TokenKind => txt p.1 = txt s) table) as H by (by apply list_elem_of_filter).
  destruct (filter _ table); [by apply elem_of_nil in H|done].
Qed.

(** A letter or an underscore is one byte. *)
Lemma word_start_byte c l : word_start c = true -> head (into_bytes (c :: l)) = Some c.
Proof.
  intros Hc. assert (0 <= c < 128)%Z as Hb.
  { unfold word_start, letter, char_between in Hc. change (ch "a") with 97%Z in Hc. change (ch "z") with 122%Z in Hc.
    change (ch "A") with 65%Z in Hc. change (ch "Z") with 90%Z in Hc. change (ch "_") with 95%Z in Hc.
    rewrite !orb_true_iff, !andb_true_iff, !Z.leb_le, Z.eqb_eq in Hc. lia. }
  unfold into_bytes. rewrite bind_cons. unfold encode_utf8. by rewrite (proj2 (Z.ltb_lt c 0x80)) by lia.
Qed.

Lemma ident_kind_ok c l : word_start c = true ->
  exists k, ident_kind (c :: l) = Done k /\ kind_of words (name_kind (c :: l)) k (c :: l).
Proof.
  intros Hc. unfold ident_kind. case_decide as Hu.
  { exists Underscore. split; [done|]. left. exists "_"%string. split; [left|done]. }
  destruct (keyword (c :: l)) as [k|] eqn:Hk.
  - exists k. split; [done|]. left. destruct (table_first _ _ _ Hk) as (s & Hs & Hl). exists s. split; [by right|done].
  - rewrite word_start_byte by done. exists (name_kind (c :: l)). split; [done|]. right. split; [|done].
    unfold keyword in Hk. apply fmap_None in Hk. intros s k Hin. apply elem_of_cons in Hin as [[= -> ->]|Hin]; [done|].
    by apply (table_none _ _ Hk s k).
Qed.

Lemma ends_ident fuel c d r o :
  txt_ = d ++ c :: r -> S (length r) < fuel -> is_ident_start c = true ->
  ends (ident txt_ fuel (str_len d)) (at_ d o) (fun _ => lexed_piece d (c :: r) o).
Proof.
  intros Ht Hf Hc. unfold ident. apply ends_bind. eapply ends_eat_while; [done..|].
  intros l r' Hr Hl Hr'. assert (l ≠ []) as Hne by (eapply munch_nonempty; [done|by apply ident_start_continue|done]).
  rewrite Hr in Ht |- *. destruct l as [|c' l]; [done|]. injection Hr as <- Hr.
  apply ends_bind. eapply ends_lexeme_from; [done|].
  destruct (ident_kind_ok c l Hc) as (k & Hk & Hkind). apply ends_bind. eapply ends_asks; [done|].
  apply no_log, (ends_token source txt_ fits k true d (c :: l) r'); [done|by apply tok_word|apply flag_none|done].
Qed.

(** ** Operators and punctuation *)

Lemma operator_kind_ok l : kind_of symbols Operator (operator_kind l) l.
Proof.
  unfold operator_kind. repeat case_decide;
    try (left; eexists; split; [by repeat (left || right)|eassumption]).
  right. split; [|done]. intros s k Hin. unfold symbols in Hin.
  repeat (apply elem_of_cons in Hin as [[= -> ->]|Hin]; [done|]). by apply elem_of_nil in Hin.
Qed.

Lemma punct_ok c k : punct c = Some k -> exists s, (s, k) ∈ brackets /\ [c] = txt s.
Proof.
  unfold punct. intros H. destruct (filter _ _) as [|p ps] eqn:Hf; [done|]. injection H as <-.
  assert (p ∈ p :: ps) as Hp by left. rewrite <- Hf in Hp. apply list_elem_of_filter in Hp as [<- Hp].
  repeat (apply elem_of_cons in Hp as [->|Hp];
    [eexists; split; [by repeat (left || right)|reflexivity]|]).
  by apply elem_of_nil in Hp.
Qed.
Lemma no_punct c : punct c = None -> forall s k, (s, k) ∈ brackets -> txt s ≠ [c].
Proof.
  intros H s k Hin Hs. unfold brackets in Hin.
  repeat (apply elem_of_cons in Hin as [[= -> ->]|Hin]; [injection Hs as <-; discriminate H|]). by apply elem_of_nil in Hin.
Qed.

(** No array bracket starts where its test failed. *)
Lemma no_bracket a b c (r : text) :
  bool_decide (c = ch a) && bool_decide (head r = Some (ch b)) = false -> ~ [ch a; ch b] `prefix_of` c :: r.
Proof.
  intros Hb [r' Hr]. simpl in Hr. injection Hr as -> ->.
  by rewrite !bool_decide_eq_true_2 in Hb.
Qed.

Lemma ends_operator fuel c d r o :
  txt_ = d ++ c :: r -> S (length r) < fuel -> is_space c = false ->
  is_ident_start c = false -> is_ascii_digit c = false ->
  (c =? double_quote)%Z = false -> (c =? ch "'")%Z = false ->
  ends (operator_or_unknown source txt_ fuel (str_len d)) (at_ d o) (fun _ => lexed_piece d (c :: r) o).
Proof.
  intros Ht Hf Hsp Hi Hd Hq Ha. unfold operator_or_unknown. apply ends_bind. eapply ends_bump; [done|]. cbn [app].
  apply ends_bind. eapply ends_peek; [by apply past_char|].
  destruct (bool_decide (c = ch "[") && bool_decide (head r = Some (ch "|"))) eqn:Hl.
  { apply andb_true_iff in Hl as [->%bool_decide_eq_true Hr%bool_decide_eq_true].
    destruct r as [|c' r]; [done|]. injection Hr as ->. apply ends_bind, (ends_advance _ [ch "|"]); [done|].
    rewrite <- app_assoc. apply no_log, (ends_token source txt_ fits LArrayBracket true d (txt "[|") r); [done|apply tok_left_array|apply flag_none|done]. }
  destruct (bool_decide (c = ch "|") && bool_decide (head r = Some (ch "]"))) eqn:Hr.
  { apply andb_true_iff in Hr as [->%bool_decide_eq_true Hr%bool_decide_eq_true].
    destruct r as [|c' r]; [done|]. injection Hr as ->. apply ends_bind, (ends_advance _ [ch "]"]); [done|].
    rewrite <- app_assoc. apply no_log, (ends_token source txt_ fits RArrayBracket true d (txt "|]") r); [done|apply tok_right_array|apply flag_none|done]. }
  destruct (punct c) as [k|] eqn:Hp.
  { destruct (punct_ok _ _ Hp) as (s & Hs & Hc).
    apply no_log, (ends_token source txt_ fits _ true d [c] r); [done| |apply flag_none|done].
    rewrite Hc. apply tok_bracket; [done|]. rewrite <- Hc. by apply (no_bracket "[" "|"). }
  destruct (is_operator_char c) eqn:Ho.
  - apply ends_bind. eapply ends_eat_while; [by apply past_char|lia|apply width_one, operator_char_len|].
    intros l r' -> Hlo Hr'. apply ends_bind. rewrite <- app_assoc.
    eapply (ends_range_from txt_ fits d (c :: l) r'); [done|]. apply ends_bind.
    eapply (ends_lexeme_from txt_ d (c :: l) r'); [done|]. apply ends_modify.
    pose proof (lexed_token source d (c :: l) r' o [] (operator_kind (c :: l)) true) as Hlt.
    rewrite log_nil in Hlt. apply Hlt; [|apply flag_none|done].
    apply tok_operator; [split; [by constructor|done]|by apply (no_bracket "|" "]")|apply operator_kind_ok].
  - apply no_log, (ends_rejected source txt_ fits _ d [c] r); [done| |done].
    apply rej_char; [done..| |by apply no_punct].
    apply Z.eqb_neq in Hq, Ha. intros Hin. by repeat (apply elem_of_cons in Hin as [Hin|Hin]; [done|]); apply elem_of_nil in Hin.
Qed.
End Number.
