(* ===== verification/LexerProps.v ===== *)
(** * Properties of the lexer

    The theorems on fai-syntax's [lexer.rs]: a text is read as a sequence of pieces, with
    nothing lost, what is not sound is reported and nothing else, and a sound literal has a
    value. *)

From S2P Require Import Prelude Text Literals Lines Tokens Lexer LexerSpec LexerSound LexerNumber.
From stdpp Require Import list strings.
From Stdlib Require Import Ascii ZArith Lia.

Lemma tokens_of_blanks d l ps : tokens_of d ((Blank <$> l) ++ ps) = tokens_of (d ++ l) ps.
Proof. revert d; induction l as [|c l IH]; intros d; simpl; [by rewrite app_nil_r|]. rewrite IH. by rewrite <- app_assoc. Qed.
Lemma comments_of_blanks d l ps : comments_of d ((Blank <$> l) ++ ps) = comments_of (d ++ l) ps.
Proof. revert d; induction l as [|c l IH]; intros d; simpl; [by rewrite app_nil_r|]. rewrite IH. by rewrite <- app_assoc. Qed.
Lemma reports_blanks source d l ps ds : reports source (d ++ l) ps ds -> reports source d ((Blank <$> l) ++ ps) ds.
Proof.
  revert d; induction l as [|c l IH]; intros d; simpl; [by rewrite app_nil_r|]. intros H. exists [], ds.
  split; [done|]. split; [done|]. apply IH. by rewrite <- app_assoc.
Qed.
Lemma lexes_blanks l r ps :
  Forall (fun c => is_space c = true) l -> lexes r ps -> lexes (l ++ r) ((Blank <$> l) ++ ps).
Proof.
  intros Hl Hr. induction Hl as [|c l Hc Hl IH]; [done|]. apply (lexes_cons (Blank c)); [split; [done|]|done].
  by intros [[r' [= ->]]|[r' [= ->]]].
Qed.

Section Loop.
Context (source : nat) (txt_ : text).
Context (fits : (Z.of_nat (str_len txt_) < 2 ^ 32)%Z).
Abbreviation at_ := LexerSpec.at_.

Lemma ends_lex_one fuel c d r o :
  txt_ = d ++ c :: r -> S (length r) < fuel -> is_space c = false ->
  ends (lex_one source txt_ fuel (str_len d) c) (at_ d o) (fun _ s =>
    exists p r', read_piece source d (c :: r) o s p r' /\ piece_at p r').
Proof.
  intros Ht Hf Hsp. unfold lex_one.
  assert (forall s, lexed_trivia source d (c :: r) o s ->
    exists p r', read_piece source d (c :: r) o s p r' /\ piece_at p r') as Htrivia.
  { intros s (p & r' & Hp & Ht'). exists p, r'. split; [done|]. destruct Hp as (ds & _ & _ & Hok & _). by split. }
  apply ends_bind. eapply ends_starts_with; [done|].
  destruct ((c =? ch "/")%Z && bool_decide (txt "//" `prefix_of` c :: r)) eqn:Hl.
  { apply andb_true_iff in Hl as [_ Hp]. apply prefix_split in Hp as [r1 Hr].
    eapply ends_mono; [|intros ? s Hs; apply Htrivia, Hs].
    rewrite Hr in Ht |- *. apply ends_line_comment; [done..|]. rewrite <- Hr. simpl. lia. }
  apply ends_bind. eapply ends_starts_with; [done|].
  destruct ((c =? ch "(")%Z && bool_decide (txt "(*" `prefix_of` c :: r)) eqn:Hb.
  { apply andb_true_iff in Hb as [_ Hp]. apply prefix_split in Hp as [r1 Hr].
    assert (length r1 < fuel) as Hf1.
    { assert (S (length r) = 2 + length r1); [|lia]. change (length (c :: r) = 2 + length r1). by rewrite Hr, length_app. }
    eapply ends_mono; [|intros ? s Hs; apply Htrivia, Hs].
    rewrite Hr in Ht |- *. by apply ends_block_comment. }
  assert (~ comment_start (c :: r)) as Hno.
  { intros [Hp|Hp].
    - rewrite bool_decide_eq_true_2, andb_true_r in Hl by done. destruct Hp as [r' [= -> _]]. done.
    - rewrite bool_decide_eq_true_2, andb_true_r in Hb by done. destruct Hp as [r' [= -> _]]. done. }
  eapply (ends_mono _ _ (fun _ => lexed_piece source d (c :: r) o));
    [|intros ? s (p & r' & Hp); exists p, r'; split; [done|];
      destruct Hp as (ds & Hr & _ & Hok & _); split; [done|by rewrite <- Hr]].
  destruct (c =? double_quote)%Z eqn:Hq.
  { apply Z.eqb_eq in Hq as ->. apply ends_lex_string; [done..|lia]. }
  destruct (c =? ch "'")%Z eqn:Ha.
  { apply Z.eqb_eq in Ha as ->. apply ends_quote; [done..|lia]. }
  destruct (is_ascii_digit c) eqn:Hd; [by apply ends_number|].
  destruct (is_ident_start c) eqn:Hi; [by apply ends_ident|].
  by apply ends_operator.
Qed.

(** What the loop leaves, from [d] with [r] left and output [o]. *)
Definition lexed_rest (d r : text) (o : Lexed) (s : Lexer) : Prop :=
  exists ps ds, lexes r ps /\
    out s = MkLexed (ld_tokens o ++ tokens_of d ps ++ [MkToken Eof (empty_range (str_len txt_))])
      (ld_comments o ++ comments_of d ps) (ld_diagnostics o ++ ds) /\
    reports source d ps ds.

Lemma lexed_rest_blanks d l r o s :
  Forall (fun c => is_space c = true) l -> lexed_rest (d ++ l) r o s -> lexed_rest d (l ++ r) o s.
Proof.
  intros Hl (ps & ds & Hps & Hs & Hds). exists ((Blank <$> l) ++ ps), ds.
  rewrite tokens_of_blanks, comments_of_blanks. split_and!; [by apply lexes_blanks|done|by apply reports_blanks].
Qed.

Lemma lexed_rest_piece d p r o ds s :
  piece_at p r -> about source d p ds ->
  lexed_rest (d ++ piece_text p) r (put d p (log o ds)) s -> lexed_rest d (piece_text p ++ r) o s.
Proof.
  intros Hp Hds (ps & ds' & Hps & Hs & Hds'). exists (p :: ps), (ds ++ ds').
  split; [by constructor|]. split; [|by exists ds, ds'].
  rewrite Hs. destruct p; simpl; rewrite <- ?app_assoc; done.
Qed.

Lemma ends_lex_loop fuel inner : forall d r o,
  txt_ = d ++ r -> length r < fuel -> length r < inner ->
  ends (lex_loop source txt_ fuel inner) (at_ d o) (fun _ => lexed_rest d r o).
Proof.
  induction fuel as [|fuel IH]; intros d r o Ht Hf Hin; [lia|]. cbn [lex_loop].
  apply ends_bind. eapply ends_eat_while; [done..|]. intros l r1 -> Hl Hr1.
  apply ends_bind, ends_here. apply ends_bind. eapply ends_peek; [by apply past|].
  rewrite length_app in Hf, Hin. destruct r1 as [|c r1]; cbn [head].
  - apply ends_bind. eapply ends_offset_here; [done|by apply past|]. apply ends_modify.
    apply lexed_rest_blanks; [done|]. exists [], []. split; [apply lexes_nil|]. split; [|done].
    simpl. rewrite !app_nil_r. rewrite app_nil_r in Ht. by rewrite <- Ht.
  - simpl in Hr1, Hf, Hin. apply ends_bind. eapply ends_mono; [eapply ends_lex_one; [by apply past|lia|done]|].
    intros ? s (p & r2 & (ds & Hr & Hne & _ & -> & Hds) & Hok).
    assert (S (length r1) = length (piece_text p) + length r2) as Hlen by (by rewrite <- length_app, <- Hr).
    assert (0 < length (piece_text p)) by (by destruct (piece_text p); simpl; [|lia]).
    eapply ends_mono; [apply (IH _ r2); [|lia..]|].
    { rewrite Ht, Hr. by_app. }
    intros ? s' Hs'. apply lexed_rest_blanks; [done|]. rewrite Hr. by eapply lexed_rest_piece.
Qed.

Lemma lex_returns fuel : length txt_ < fuel -> exists s,
  lex source txt_ fuel = Done (out s) /\ lexed_rest [] txt_ (MkLexed [] [] []) s.
Proof.
  intros Hf. destruct (ends_lex_loop fuel fuel [] txt_ (MkLexed [] [] []) eq_refl Hf Hf) as ([] & s & Hs & Hr).
  exists s. split; [|done]. unfold lex.
  change (MkLexer 0 (MkLexed [] [] [])) with (at_ [] (MkLexed [] [] [])). by rewrite Hs.
Qed.
End Loop.

(** Whatever is sound has a value. *)
Lemma lexes_decode text_ ps : lexes text_ ps -> Forall (fun p => sound p = true -> decodes p) ps.
Proof.
  induction 1 as [|p r ps [Hp _] _ IH]; constructor; [|done]. destruct p; try done. intros Hs. by eapply token_decodes.
Qed.

(** C19: A text is read whole.  For every text shorter than 4 GiB, [lex] returns, without a panic
    (every position it slices at is a character boundary), and the text is a sequence of pieces
    of the lexical grammar: blanks, the lexemes of the tokens, comments, and rejected parts.
    The grammar fixes each piece and where it ends: words, numbers with their fraction, exponent
    and suffix, and operators are as long as they can be, strings end at the first bare quote or
    at the line's end, block comments nest.  The tokens are the lexemes' in order, with their
    ranges, followed by one end of file at the end of the text; the comments likewise.  Every
    diagnostic lies in a piece, and a piece has one exactly when it is not sound; a sound
    integer, float, character or string has a value. *)
Theorem lex_pieces fuel source text_ :
  (Z.of_nat (str_len text_) < 2 ^ 32)%Z -> length text_ < fuel ->
  exists ps ds, lexes text_ ps /\
    lex source text_ fuel = Done (MkLexed
      (tokens_of [] ps ++ [MkToken Eof (empty_range (str_len text_))]) (comments_of [] ps) ds) /\
    reports source [] ps ds /\ Forall (fun p => sound p = true -> decodes p) ps.
Proof.
  intros Hfits Hf.
  destruct (lex_returns source text_ Hfits fuel Hf) as (s & Hs & ps & ds & Hps & Ho & Hds).
  exists ps, ds. split_and!; try done; [by rewrite Hs, Ho|by eapply lexes_decode].
Qed.

Definition sample : text := txt "let x = '\n' (* c *)".

Lemma lex_pieces_witness :
  exists ps ds, lexes sample ps /\
    lex 0 sample 30 = Done (MkLexed
      (tokens_of [] ps ++ [MkToken Eof (empty_range (str_len sample))]) (comments_of [] ps) ds) /\
    reports 0 [] ps ds.
Proof.
  destruct (lex_pieces 30 0 sample) as (ps & ds & H1 & H2 & H3 & _).
  - by vm_compute.
  - by apply Nat.ltb_lt.
  - exists ps, ds. exact (conj H1 (conj H2 H3)).
Defined.

(** A function with its signature, a comment nested in another, an overflowing integer. *)
Definition kinds_of (s : string) : run (list TokenKind) :=
  o ← lex 0 (txt s) 100; Done (tk_kind <$> ld_tokens o).
Definition codes_of (s : string) : run (list SyntaxCode) :=
  o ← lex 0 (txt s) 100; Done (dg_code <$> ld_diagnostics o).

Example lex_binding : kinds_of "let f 'a 'x' = [|1.5e10|] :: _ ->x" =
  Done [T_Let; LowerIdent; TypeVar; T_Char; Equals; LArrayBracket; T_Float; RArrayBracket;
    ColonColon; Underscore; Arrow; LowerIdent; Eof].
Proof. vm_compute. reflexivity. Qed.
Example lex_comments : kinds_of "(* a (* b *) c *) 1.x // rest" = Done [T_Int; Dot; LowerIdent; Eof].
Proof. vm_compute. reflexivity. Qed.
Example lex_errors : codes_of "0x # 18446744073709551616 '' 2ab '\q' (*" =
  Done [INVALID_NUMBER; UNEXPECTED_CHAR; INVALID_NUMBER; INVALID_CHAR_LITERAL; INVALID_NUMBER;
    INVALID_ESCAPE; UNTERMINATED_BLOCK_COMMENT].
Proof. vm_compute. reflexivity. Qed.
