(* ===== verification/Layout.v ===== *)
(** * The layout pass

    fai-syntax's [layout.rs]: virtual tokens make the blocks of the offside rule explicit.  A
    cursor scans the text once, counting lines by bytes and columns by characters. *)

From S2P Require Import Prelude Text Lines Tokens Lexer.
From stdpp Require Import list strings.
From Stdlib Require Import Ascii ZArith.

(** [usize as u32], and a checked [+=] on a [u32]. *)
Definition as_u32 (n : nat) : nat := Z.to_nat (Z.of_nat n mod 2 ^ 32).
Definition u32_add (a b : nat) : option nat := from_usize (a + b).

Record PositionCursor := MkCursor {
  pc_offset : nat; pc_line : nat; pc_column : nat; pc_column_offset : nat }.
Definition new_cursor : PositionCursor := MkCursor 0 1 1 0.

(** The loop over the bytes between two offsets, from the [i]th. *)
Fixpoint scan_bytes (offset i : nat) (bytes : list Z) (p : PositionCursor) : option PositionCursor :=
  match bytes with
  | [] => Some p
  | byte :: bytes =>
      if (byte =? 10)%Z then
        line ← u32_succ (pc_line p);
        scan_bytes offset (S i) bytes (MkCursor (pc_offset p) line 1 (offset + i + 1))
      else scan_bytes offset (S i) bytes p
  end.

(** [slice[start..stop]] on bytes. *)
Definition bytes_get (bytes : list Z) (start stop : nat) : option (list Z) :=
  if (start <=? stop) && (stop <=? length bytes) then Some (take (stop - start) (drop start bytes)) else None.

(** [PositionCursor::advance] and [PositionCursor::column], which also returns the column. *)
Definition cursor_advance (txt_ : text) (at_ : nat) (p : PositionCursor) : option PositionCursor :=
  bytes ← bytes_get (into_bytes txt_) (pc_offset p) at_;
  p ← scan_bytes (pc_offset p) 0 bytes p;
  Some (MkCursor at_ (pc_line p) (pc_column p) (pc_column_offset p)).
Definition cursor_column (txt_ : text) (p : PositionCursor) : option PositionCursor :=
  part ← str_get txt_ (pc_column_offset p) (pc_offset p);
  column ← u32_add (pc_column p) (as_u32 (length part));
  Some (MkCursor (pc_offset p) (pc_line p) column (pc_offset p)).

(** The innermost block's column is the head of [contexts]. *)
Record Layouter := MkLayouter {
  position : PositionCursor; lt_out : list Token; lt_diagnostics : list Diagnostic;
  contexts : list nat; bracket_depth : nat; pending_open : bool; prev_line : nat; first_token : bool }.

Record Layout := MkLayout { ly_tokens : list Token; ly_diagnostics : list Diagnostic }.

Definition is_opener (k : TokenKind) : bool :=
  match k with Equals | Arrow | T_Then | T_Else => true | _ => false end.
Definition is_continuation (k : TokenKind) : bool :=
  match k with Operator | ColonColon | Equals | Arrow | T_Then | T_Else | Pipe => true | _ => false end.

Section Layout.
Context (source : nat) (txt_ : text).

Definition set_position (p : PositionCursor) (s : Layouter) : Layouter :=
  MkLayouter p (lt_out s) (lt_diagnostics s) (contexts s) (bracket_depth s) (pending_open s) (prev_line s) (first_token s).
Definition set_contexts (cs : list nat) (s : Layouter) : Layouter :=
  MkLayouter (position s) (lt_out s) (lt_diagnostics s) cs (bracket_depth s) (pending_open s) (prev_line s) (first_token s).
Definition push_out (t : Token) (s : Layouter) : Layouter :=
  MkLayouter (position s) (lt_out s ++ [t]) (lt_diagnostics s) (contexts s) (bracket_depth s) (pending_open s) (prev_line s) (first_token s).
Definition layout_error (range : TextRange) (s : Layouter) : Layouter :=
  MkLayouter (position s) (lt_out s) (lt_diagnostics s ++ [MkDiagnostic LAYOUT_ERROR source range])
    (contexts s) (bracket_depth s) (pending_open s) (prev_line s) (first_token s).
Definition set_depth (depth : nat) (s : Layouter) : Layouter :=
  MkLayouter (position s) (lt_out s) (lt_diagnostics s) (contexts s) depth (pending_open s) (prev_line s) (first_token s).
Definition not_first (s : Layouter) : Layouter :=
  MkLayouter (position s) (lt_out s) (lt_diagnostics s) (contexts s) (bracket_depth s) (pending_open s) (prev_line s) false.
(** The end of an iteration. *)
Definition after_token (pending : bool) (line : nat) (s : Layouter) : Layouter :=
  MkLayouter (position s) (lt_out s) (lt_diagnostics s) (contexts s) (bracket_depth s) pending line (first_token s).

Definition push_virtual (k : TokenKind) (at_ : nat) : SR Layouter () :=
  modify (push_out (MkToken k (empty_range at_))).

(** Popping blocks while more than one is open and the innermost is to be closed. *)
Fixpoint close_blocks (closes : nat -> bool) (at_ : nat) (cs : list nat) : SR Layouter () :=
  match cs with
  | c :: (_ :: _) as cs' =>
      if closes c then
        _ ← modify (set_contexts cs'); _ ← push_virtual LayoutClose at_; close_blocks closes at_ cs'
      else mret ()
  | _ => mret ()
  end.
Definition close_while (closes : nat -> bool) (at_ : nat) : SR Layouter () :=
  cs ← asks (fun s => Done (contexts s)); close_blocks closes at_ cs.

(** [contexts.last().expect(..)] *)
Definition innermost : SR Layouter nat := asks (fun s => unwrap (head (contexts s))).

Definition line_transition (col : nat) (kind : TokenKind) (at_ : nat) : SR Layouter () :=
  _ ← close_while (fun c => col <? c) at_;
  reference ← innermost;
  if (col <? reference) || ((col =? reference) && negb (is_continuation kind))
  then push_virtual LayoutSep at_ else mret ().

Definition open_block (col : nat) (token : Token) (at_ : nat) : SR Layouter () :=
  enclosing ← innermost;
  if enclosing <? col then
    _ ← push_virtual LayoutOpen at_; modify (fun s => set_contexts (col :: contexts s) s)
  else
    _ ← modify (layout_error (tk_range token));
    line_transition col (tk_kind token) at_.

(** [self.position.column(self.text)] *)
Definition column_here : SR Layouter nat :=
  p ← asks (fun s => unwrap (cursor_column txt_ (position s)));
  _ ← modify (set_position p);
  mret (pc_column p).

(** The bracket depth after a token. *)
Definition bracket_after (k : TokenKind) (depth : nat) : option nat :=
  match k with
  | LParen | LBracket | LArrayBracket | LBrace => u32_succ depth
  | RParen | RBracket | RArrayBracket | RBrace => Some (depth - 1)
  | _ => Some depth
  end.

(** One token before the end of the file. *)
Definition layout_token (token : Token) : SR Layouter () :=
  let at_ := tr_start (tk_range token) in
  p ← asks (fun s => unwrap (cursor_advance txt_ at_ (position s)));
  _ ← modify (set_position p);
  let line := pc_line p in
  s ← asks Done;
  _ ← (if first_token s : bool then
         col ← column_here; _ ← modify (fun s => set_contexts (col :: contexts s) s); modify not_first
       else if (bracket_depth s =? 0) && (prev_line s <? line) then
         col ← column_here;
         if pending_open s then open_block col token at_ else line_transition col (tk_kind token) at_
       else mret ());
  depth ← asks (fun s => unwrap (bracket_after (tk_kind token) (bracket_depth s)));
  _ ← modify (set_depth depth);
  _ ← modify (push_out token);
  modify (after_token ((depth =? 0) && is_opener (tk_kind token)) line).

(** [run] *)
Fixpoint layout_loop (tokens : list Token) : SR Layouter () :=
  match tokens with
  | [] => mret ()
  | token :: tokens =>
      if decide (tk_kind token = Eof) then
        _ ← close_while (fun _ => true) (tr_start (tk_range token));
        modify (push_out token)
      else _ ← layout_token token; layout_loop tokens
  end.

(** [layout] *)
Definition layout (tokens : list Token) : run Layout :=
  '(_, s) ← layout_loop tokens (MkLayouter new_cursor [] [] [] 0 false 0 true);
  Done (MkLayout (lt_out s) (lt_diagnostics s)).
End Layout.
