(* ===== verification/LayoutSpec.v ===== *)
(** * The offside rule

    What fai-syntax's [layout.rs] promises, for tokens with the lines and columns of fai-span's
    [line.rs]; and the position cursor, whose single scan agrees with them. *)

From S2P Require Import Prelude Text Lines Tokens Lexer LexerSpec Layout.
From stdpp Require Import list strings.
From Stdlib Require Import ZArith Lia.

(** ** The rule *)

Section Rule.
Context (source : nat) (ln col : Token -> nat).

(** Whether a separator goes before a token that begins a line, in a block of column [c]. *)
Definition sep_needed (c : nat) (t : Token) : bool :=
  (col t <? c) || ((col t =? c) && negb (is_continuation (tk_kind t))).

(** [lead st prev depth pending t vs st' err]: before the token [t], when the open blocks have
    the columns [st], the previous token was on line [prev], [depth] brackets are open and
    [pending] says whether the previous token opens blocks, come the virtual tokens [vs]; the
    open blocks are then [st'], and [err] says whether a missing indentation is reported. *)
Inductive lead : list nat -> nat -> nat -> bool -> Token -> list TokenKind -> list nat -> bool -> Prop :=
| lead_inside st prev depth pending t :
    ~ (depth = 0 /\ prev < ln t) -> lead st prev depth pending t [] st false
| lead_open c st prev t :
    prev < ln t -> c < col t -> lead (c :: st) prev 0 true t [LayoutOpen] (col t :: c :: st) false
| lead_line closed c st prev pending t :
    prev < ln t ->
    (pending = true -> forall c', head (closed ++ c :: st) = Some c' -> col t <= c') ->
    Forall (fun c' => col t < c') closed -> c <= col t \/ st = [] ->
    lead (closed ++ c :: st) prev 0 pending t
      (replicate (length closed) LayoutClose ++ if sep_needed c t then [LayoutSep] else []) (c :: st) pending.

Definition virtuals (vs : list TokenKind) (t : Token) : list Token :=
  (fun k => MkToken k (empty_range (tr_start (tk_range t)))) <$> vs.

(** The tokens and diagnostics of a layout from inside a file. *)
Inductive laid_out : list nat -> nat -> nat -> bool -> list Token -> list Token -> list Diagnostic -> Prop :=
| laid_end c st prev depth pending t :
    tk_kind t = Eof ->
    laid_out (c :: st) prev depth pending [t] (virtuals (replicate (length st) LayoutClose) t ++ [t]) []
| laid_token st prev depth pending t ts vs st' err depth' out ds :
    tk_kind t ≠ Eof -> lead st prev depth pending t vs st' err ->
    bracket_after (tk_kind t) depth = Some depth' ->
    laid_out st' (ln t) depth' ((depth' =? 0) && is_opener (tk_kind t)) ts out ds ->
    laid_out st prev depth pending (t :: ts) (virtuals vs t ++ t :: out)
      ((if err : bool then [MkDiagnostic LAYOUT_ERROR source (tk_range t)] else []) ++ ds).

(** The layout of a file: its first token's column is the top level's. *)
Inductive laid_file : list Token -> list Token -> list Diagnostic -> Prop :=
| laid_empty t : tk_kind t = Eof -> laid_file [t] [t] []
| laid_first t ts depth out ds :
    tk_kind t ≠ Eof -> bracket_after (tk_kind t) 0 = Some depth ->
    laid_out [col t] (ln t) depth ((depth =? 0) && is_opener (tk_kind t)) ts out ds ->
    laid_file (t :: ts) (t :: out) ds.
End Rule.

(** ** Tokens on a text *)

Definition virtual (k : TokenKind) : bool :=
  match k with LayoutOpen | LayoutSep | LayoutClose => true | _ => false end.

(** Tokens of a text after [d]: their ranges are those of successive nonempty parts, and the
    end of the file comes last. *)
Inductive on_text (txt_ : text) : text -> list Token -> Prop :=
| on_eof d t : tk_kind t = Eof -> on_text txt_ d [t]
| on_token d mid l r t ts :
    txt_ = d ++ mid ++ l ++ r -> l ≠ [] -> tk_range t = range_at (d ++ mid) l ->
    tk_kind t ≠ Eof -> virtual (tk_kind t) = false ->
    on_text txt_ (d ++ mid ++ l) ts -> on_text txt_ d (t :: ts).

(** ** Blocks *)

(** A layout's output by itself, inside blocks of columns [st]: a block opens at a column right
    of the enclosing one, a separator is at its block's column - or left of the top level's -,
    a block closes before a token left of it or at the end, where only the top level is left. *)
Inductive blocks (col : Token -> nat) : list nat -> list Token -> Prop :=
| blocks_eof c t : tk_kind t = Eof -> blocks col [c] [t]
| blocks_open c st t ts :
    tk_kind t = LayoutOpen -> c < col t -> blocks col (col t :: c :: st) ts -> blocks col (c :: st) (t :: ts)
| blocks_sep c st t ts :
    tk_kind t = LayoutSep -> col t = c \/ col t < c /\ st = [] ->
    blocks col (c :: st) ts -> blocks col (c :: st) (t :: ts)
| blocks_close c c' st t ts :
    tk_kind t = LayoutClose ->
    col t < c \/ Forall (fun t => tk_kind t = LayoutClose \/ tk_kind t = Eof) ts ->
    blocks col (c' :: st) ts -> blocks col (c :: c' :: st) (t :: ts)
| blocks_token st t ts :
    virtual (tk_kind t) = false -> tk_kind t ≠ Eof -> blocks col st ts -> blocks col st (t :: ts).

(** The first token is the top level's. *)
Definition blocks_file (col : Token -> nat) (out : list Token) : Prop :=
  match out with
  | [] => False
  | t :: ts => tk_kind t = Eof /\ ts = [] \/ virtual (tk_kind t) = false /\ blocks col [col t] ts
  end.

(** The tokens that are not virtual. *)
Definition reals (ts : list Token) : list Token := filter (fun t => virtual (tk_kind t) = false) ts.

(** The line and column of a token's start, from [line.rs]. *)
Definition position_of (txt_ : text) (t : Token) : option LineCol :=
  index ← new_index txt_; line_col index txt_ (tr_start (tk_range t)).
Definition line_number (txt_ : text) (t : Token) : nat := from_option lc_line 0 (position_of txt_ t).
Definition column_number (txt_ : text) (t : Token) : nat := from_option lc_column 0 (position_of txt_ t).

(** ** The cursor *)

(** [left] is the part of [d] on its last line. *)
Definition last_line (d before left : text) : Prop :=
  d = before ++ left /\ newlines left = 0 /\ (before = [] \/ last before = Some newline).

Lemma last_line_unique d b l b' l' : last_line d b l -> last_line d b' l' -> l = l'.
Proof.
  assert (forall b l b' l' : text, b ++ l = b' ++ l' -> length l < length l' ->
    newlines l' = 0 -> b = [] \/ last b = Some newline -> False) as Hshort.
  { intros x y x' y' He Hlt Hn Hb. apply app_eq_inv in He as [(k & -> & ->)|(k & -> & ->)].
    - destruct k as [|c k]; [simpl in Hlt; lia|]. destruct Hb as [Hb|Hb]; [by destruct x'|].
      rewrite last_app_cons in Hb. rewrite newlines_app in Hn.
      assert (newline ∈ c :: k) as Hin by (by apply last_Some_elem_of).
      assert (newlines (c :: k) = 0) as Hz by lia. unfold newlines in Hz.
      apply nil_length_inv in Hz. assert (newline ∈ filter (fun c => c = newline) (c :: k)) as Hf
        by (by apply list_elem_of_filter). rewrite Hz in Hf. by apply elem_of_nil in Hf.
    - rewrite length_app in Hlt. lia. }
  intros (-> & Hl & Hb) (He & Hl' & Hb').
  destruct (lt_eq_lt_dec (length l) (length l')) as [[Hlt|Heq]|Hlt].
  - by destruct (Hshort _ _ _ _ He Hlt Hl' Hb).
  - by apply app_inj_2 in He as [_ ->].
  - by destruct (Hshort _ _ _ _ (eq_sym He) Hlt Hl Hb').
Qed.

Section Cursor.
Context (txt_ : text).
Hypothesis txt_fits : fits txt_.

(** What the scan of [d] has counted: the last line [left] up to its end, or up to where the
    column was last asked for. *)
Definition scanned (d : text) (p : PositionCursor) : Prop :=
  exists before l1 l2, last_line d before (l1 ++ l2) /\ pc_line p = S (newlines d) /\
    pc_column_offset p = str_len (before ++ l1) /\ pc_column p = S (length l1).
Definition cursor_at (d : text) (p : PositionCursor) : Prop := pc_offset p = str_len d /\ scanned d p.

Lemma cursor_new : cursor_at [] new_cursor.
Proof. split; [done|]. exists [], [], []. repeat split; auto. Qed.

Lemma scan_bytes_skip off i bytes rest p :
  Forall (fun b => (b =? 10)%Z = false) bytes ->
  scan_bytes off i (bytes ++ rest) p = scan_bytes off (i + length bytes) rest p.
Proof.
  intros Hb. revert i; induction Hb as [|b bytes Hb _ IH]; intros i; simpl; [by rewrite Nat.add_0_r|].
  rewrite Hb, IH. f_equal. lia.
Qed.

Lemma last_line_app d before left c :
  last_line d before left -> c ≠ newline -> last_line (d ++ [c]) before (left ++ [c]).
Proof.
  intros (-> & Hl & Hb) Hc. split; [by rewrite app_assoc|]. split; [|done].
  rewrite newlines_app, newlines_cons, decide_False by done. rewrite Hl. done.
Qed.

Lemma last_line_newline d : last_line (d ++ [newline]) (d ++ [newline]) [].
Proof. split; [by rewrite app_nil_r|]. split; [done|]. right. by rewrite last_snoc. Qed.

(** The loop of [advance] over the bytes of [x]. *)
Lemma scan_text x : forall d y p r,
  txt_ = d ++ y ++ x ++ r -> scanned (d ++ y) p ->
  exists p', scan_bytes (str_len d) (str_len y) (into_bytes x) p = Some p' /\ scanned (d ++ y ++ x) p'.
Proof.
  destruct txt_fits as [Hsc Hlen].
  induction x as [|c x IH]; intros d y p r Ht Hp; [exists p; by rewrite app_nil_r|].
  assert (txt_ = d ++ (y ++ [c]) ++ x ++ r) as Ht' by (by rewrite Ht, <- app_assoc).
  assert (is_scalar c = true) as Hc.
  { rewrite Ht, !Forall_app, Forall_cons in Hsc. tauto. }
  pose proof (newlines_bound txt_) as Hnl. rewrite Ht in Hnl at 1. rewrite app_assoc, newlines_app in Hnl. cbn [app] in Hnl.
  unfold into_bytes. rewrite bind_cons. fold (into_bytes x). destruct Hp as (before & l1 & l2 & Hl & Hline & Hoff & Hcol).
  replace (d ++ y ++ c :: x) with (d ++ (y ++ [c]) ++ x) by (by rewrite <- app_assoc).
  destruct (decide (c = newline)) as [->|Hn].
  - rewrite newlines_cons, decide_True in Hnl by done. change (encode_utf8 newline) with [10%Z]. cbn [app scan_bytes]. rewrite Z.eqb_refl, Hline, u32_succ_fits by lia.
    cbn [mbind option_bind]. replace (S (str_len y)) with (str_len (y ++ [newline])) by (rewrite str_len_app; change (str_len [newline]) with 1; lia).
    apply (IH d (y ++ [newline]) _ r Ht'). exists (d ++ y ++ [newline]), [], []. split_and!; cbn.
    + rewrite (app_assoc d). apply last_line_newline.
    + rewrite app_assoc, (newlines_app (d ++ y)). change (newlines [newline]) with 1. lia.
    + rewrite !app_nil_r, !str_len_app. change (str_len [newline]) with 1. lia.
    + done.
  - rewrite scan_bytes_skip by (by apply encode_no_newline).
    replace (str_len y + length (encode_utf8 c)) with (str_len (y ++ [c]))
      by (rewrite str_len_app, length_encode_utf8, str_len_cons; change (str_len []) with 0; lia).
    apply (IH d (y ++ [c]) _ r Ht'). exists before, l1, (l2 ++ [c]). split_and!; [|rewrite Hline|done|done].
    + rewrite (app_assoc d), (app_assoc l1). by apply last_line_app.
    + rewrite (app_assoc d), (newlines_app (d ++ y)), (newlines_cons c), decide_False by done. change (newlines []) with 0. lia.
Qed.

Lemma cursor_advance_spec d x r p :
  txt_ = d ++ x ++ r -> cursor_at d p ->
  exists p', cursor_advance txt_ (str_len (d ++ x)) p = Some p' /\ cursor_at (d ++ x) p'.
Proof.
  intros Ht [Hoff Hp]. destruct (scan_text x d [] p r Ht) as (p' & Hscan & Hp'); [by rewrite app_nil_r|].
  exists (MkCursor (str_len (d ++ x)) (pc_line p') (pc_column p') (pc_column_offset p')).
  split; [|split; [done|exact Hp']]. unfold cursor_advance, bytes_get.
  rewrite Hoff, Ht, length_into_bytes, !str_len_app. rewrite !(proj2 (Nat.leb_le _ _)) by lia. cbn [andb mbind option_bind].
  replace (str_len d + str_len x - str_len d) with (str_len x) by lia.
  unfold into_bytes. rewrite !bind_app. fold (into_bytes d) (into_bytes x) (into_bytes r).
  rewrite <- (length_into_bytes d), drop_app_length, <- (length_into_bytes x), take_app_length, !length_into_bytes.
  change (str_len []) with 0 in Hscan. by rewrite Hscan.
Qed.

Lemma cursor_column_spec d r p before left :
  txt_ = d ++ r -> cursor_at d p -> last_line d before left ->
  exists p', cursor_column txt_ p = Some p' /\ cursor_at d p' /\ pc_column p' = S (length left) /\ pc_line p' = pc_line p.
Proof.
  intros Ht [Hoff (before' & l1 & l2 & Hl & Hline & Hco & Hcol)] Hleft.
  pose proof (last_line_unique _ _ _ _ _ Hl Hleft) as <-. destruct Hl as (Hd & Hn & Hb).
  destruct txt_fits as [_ Hlen]. rewrite Ht, Hd, !str_len_app in Hlen.
  pose proof (length_bound l1). pose proof (length_bound l2).
  exists (MkCursor (str_len d) (pc_line p) (S (length (l1 ++ l2))) (str_len d)).
  assert (cursor_column txt_ p = Some (MkCursor (str_len d) (pc_line p) (S (length (l1 ++ l2))) (str_len d))) as Hc.
  { unfold cursor_column. rewrite Hco, Hoff.
    replace (str_len d) with (str_len (before' ++ l1) + str_len l2) at 1
      by (rewrite Hd, !str_len_app; lia).
    replace txt_ with ((before' ++ l1) ++ l2 ++ r) by (by rewrite Ht, Hd, <- !app_assoc).
    rewrite str_get_middle. cbn [mbind option_bind]. unfold as_u32. rewrite Z.mod_small by lia.
    rewrite Nat2Z.id, Hcol. unfold u32_add. rewrite from_usize_fits by lia. cbn [mbind option_bind].
    by rewrite length_app. }
  split; [exact Hc|]. split; [|done]. split; [done|].
  exists before', (l1 ++ l2), []. rewrite app_nil_r. split_and!; cbn; [done|by rewrite Hline|by rewrite Hd|done].
Qed.

(** [line.rs] finds the same line and column. *)
Lemma position_of_at d r t :
  txt_ = d ++ r -> tr_start (tk_range t) = str_len d ->
  exists before left, last_line d before left /\
    line_number txt_ t = S (newlines d) /\ column_number txt_ t = S (length left).
Proof.
  intros Ht Hs. destruct (split_last_line d) as (before & left & Hd & Hl & Hb).
  destruct (split_first_line r) as (right & rest & Hr & Hnr & Hrest). exists before, left. split; [done|].
  assert (cut txt_ before left right rest) as Hcut.
  { split; [|done..]. by rewrite Ht, Hd, Hr, <- app_assoc. }
  assert (position_of txt_ t = Some (MkLineCol (S (newlines before)) (S (length left)))) as Hp.
  { unfold position_of. rewrite new_index_spec by done. cbn [mbind option_bind].
    rewrite Hs, Hd, str_len_app. by apply (line_col_cut _ _ _ right rest). }
  unfold line_number, column_number. rewrite Hp. simpl. split; [|done]. rewrite Hd, newlines_app. lia.
Qed.
End Cursor.
