(* ===== verification/LayoutSound.v ===== *)
(** * The layout pass follows the offside rule

    Each step of fai-syntax's [layout.rs] against the rule of LayoutSpec. *)

From S2P Require Import Prelude Text Lines Tokens Lexer LexerSpec Layout LayoutSpec.
From stdpp Require Import list strings.
From Stdlib Require Import ZArith Lia.

Lemma virtuals_app vs vs' t : virtuals (vs ++ vs') t = virtuals vs t ++ virtuals vs' t.
Proof. apply fmap_app. Qed.

Lemma on_text_mid (txt_ d mid l r : text) : txt_ = d ++ mid ++ l ++ r -> txt_ = (d ++ mid) ++ l ++ r.
Proof. by rewrite <- app_assoc. Qed.

Section Steps.
Context (source : nat) (txt_ : text).
Hypothesis txt_fits : fits txt_.
Abbreviation ln := (line_number txt_).
Abbreviation col := (column_number txt_).
Abbreviation start t := (tr_start (tk_range t)).

Lemma close_blocks_spec closes t p ds depth pending prev first_ cs c0 :
  exists closed c st, c0 :: cs = closed ++ c :: st /\ Forall (fun c => closes c = true) closed /\
    (closes c = false \/ st = []) /\
    forall out, close_blocks closes (start t) (c0 :: cs) (MkLayouter p out ds (c0 :: cs) depth pending prev first_)
      = Done ((), MkLayouter p (out ++ virtuals (replicate (length closed) LayoutClose) t) ds (c :: st)
          depth pending prev first_).
Proof.
  revert c0. induction cs as [|c1 cs IH]; intros c0.
  - exists [], c0, []. split_and!; auto. intros out. simpl. by rewrite app_nil_r.
  - destruct (closes c0) eqn:Hc.
    + destruct (IH c1) as (closed & c & st & Heq & Hcl & Hst & Hrun).
      exists (c0 :: closed), c, st. split_and!; [by rewrite Heq|by constructor|done|].
      intros out. cbn [close_blocks]. rewrite Hc. cbn. etrans; [apply Hrun|].
      by rewrite <- app_assoc.
    + exists [], c0, (c1 :: cs). split_and!; auto. intros out. cbn [close_blocks]. rewrite Hc. simpl.
      by rewrite app_nil_r.
Qed.

Lemma close_while_spec closes t p ds depth pending prev first_ cs c0 :
  exists closed c st, c0 :: cs = closed ++ c :: st /\ Forall (fun c => closes c = true) closed /\
    (closes c = false \/ st = []) /\
    forall out, close_while closes (start t) (MkLayouter p out ds (c0 :: cs) depth pending prev first_)
      = Done ((), MkLayouter p (out ++ virtuals (replicate (length closed) LayoutClose) t) ds (c :: st)
          depth pending prev first_).
Proof. apply close_blocks_spec. Qed.

Lemma line_transition_spec t p ds depth pending prev cs c0 :
  exists closed c st, c0 :: cs = closed ++ c :: st /\ Forall (fun c => col t < c) closed /\
    (c <= col t \/ st = []) /\
    forall out, line_transition (col t) (tk_kind t) (start t) (MkLayouter p out ds (c0 :: cs) depth pending prev false)
      = Done ((), MkLayouter p
          (out ++ virtuals (replicate (length closed) LayoutClose ++ if sep_needed col c t then [LayoutSep] else []) t)
          ds (c :: st) depth pending prev false).
Proof.
  destruct (close_while_spec (fun c => col t <? c) t p ds depth pending prev false cs c0)
    as (closed & c & st & Heq & Hcl & Hst & Hrun).
  exists closed, c, st. split_and!; [done| | |].
  - eapply Forall_impl; [exact Hcl|]. intros x. by apply Nat.ltb_lt.
  - by rewrite <- Nat.ltb_ge.
  - intros out. unfold line_transition, mbind, sr_bind. rewrite Hrun. cbn.
    rewrite virtuals_app, app_assoc. unfold sep_needed. destruct (_ || _); cbn; [done|].
    by rewrite app_nil_r.
Qed.

Definition missing (err : bool) (t : Token) : list Diagnostic :=
  if err then [MkDiagnostic LAYOUT_ERROR source (tk_range t)] else [].

Lemma open_block_spec t p ds depth pending prev prev_ cs c0 :
  prev_ < ln t ->
  exists vs c st err, lead ln col (c0 :: cs) prev_ 0 true t vs (c :: st) err /\
    forall out, open_block source (col t) t (start t) (MkLayouter p out ds (c0 :: cs) depth pending prev false)
      = Done ((), MkLayouter p (out ++ virtuals vs t) (ds ++ missing err t) (c :: st) depth pending prev false).
Proof.
  intros Hnew. destruct (Nat.ltb_spec c0 (col t)) as [Hopen|Hopen].
  - exists [LayoutOpen], (col t), (c0 :: cs), false. split; [by constructor|]. intros out.
    unfold open_block. erewrite sr_step by done. rewrite (proj2 (Nat.ltb_lt _ _)) by done. cbn. by rewrite app_nil_r.
  - destruct (line_transition_spec t p (ds ++ missing true t) depth pending prev cs c0)
      as (closed & c & st & Heq & Hcl & Hst & Hrun).
    eexists _, c, st, true. split.
    + rewrite Heq. apply lead_line; try done. intros _ c'. rewrite <- Heq. simpl. by intros [= <-].
    + intros out. unfold open_block. erewrite sr_step by done. rewrite (proj2 (Nat.ltb_ge _ _)) by done. apply Hrun.
Qed.

Lemma column_here_spec t p d r before left out ds cs depth pending prev first_ :
  txt_ = d ++ r -> cursor_at d p -> last_line d before left -> col t = S (length left) ->
  exists p', cursor_at d p' /\
    column_here txt_ (MkLayouter p out ds cs depth pending prev first_)
      = Done (col t, MkLayouter p' out ds cs depth pending prev first_).
Proof.
  intros Ht Hp Hl Hcol. destruct (cursor_column_spec txt_ txt_fits d r p before left Ht Hp Hl) as (p' & Hc & Hp' & Hcol' & _).
  exists p'. split; [done|]. unfold column_here. erewrite sr_step by (unfold asks; simpl; by rewrite Hc).
  cbn. by rewrite Hcol', <- Hcol.
Qed.

(** The virtual tokens before a token that is not the first, with its position. *)
Lemma lead_spec t p out ds depth pending prev cs c0 before left d r :
  txt_ = d ++ r -> cursor_at d p -> last_line d before left -> col t = S (length left) ->
  exists vs c st err p', lead ln col (c0 :: cs) prev depth pending t vs (c :: st) err /\ cursor_at d p' /\
      (if (depth =? 0) && (prev <? ln t) then
         c ← column_here txt_;
         if pending : bool then open_block source c t (start t) else line_transition c (tk_kind t) (start t)
       else mret ()) (MkLayouter p out ds (c0 :: cs) depth pending prev false)
      = Done ((), MkLayouter p' (out ++ virtuals vs t) (ds ++ missing err t) (c :: st) depth pending prev false).
Proof.
  intros Ht Hp Hl Hcol. destruct ((depth =? 0) && (prev <? ln t)) eqn:Hnew.
  2:{ exists [], c0, cs, false, p. split; [|split; [done|]].
      - constructor. rewrite <- not_true_iff_false, andb_true_iff, Nat.eqb_eq, Nat.ltb_lt in Hnew. tauto.
      - unfold missing. by rewrite !app_nil_r. }
  apply andb_true_iff in Hnew as [->%Nat.eqb_eq Hnew%Nat.ltb_lt].
  destruct (column_here_spec t p d r before left out ds (c0 :: cs) 0 pending prev false Ht Hp Hl Hcol)
    as (p' & Hp' & Hrun). rewrite (sr_step _ _ _ _ _ Hrun). destruct pending.
  - destruct (open_block_spec t p' ds 0 true prev prev cs c0 Hnew) as (vs & c & st & err & Hlead & Hopen).
    exists vs, c, st, err, p'. auto.
  - destruct (line_transition_spec t p' ds 0 false prev cs c0) as (closed & c & st & Heq & Hcl & Hst & Htr).
    eexists _, c, st, false, p'. split; [|split; [done|]].
    + rewrite Heq. by apply lead_line.
    + rewrite Htr. unfold missing. by rewrite app_nil_r.
Qed.

Lemma bracket_after_bound k depth n :
  depth <= n -> (Z.of_nat n < 2 ^ 32 - 1)%Z ->
  exists depth', bracket_after k depth = Some depth' /\ depth' <= S depth.
Proof.
  intros Hd Hn. unfold bracket_after.
  destruct k; try (by exists depth; auto); try (exists (depth - 1); split; [done|lia]);
    (exists (S depth); split; [apply u32_succ_fits; lia|lia]).
Qed.

(** The last lines of an iteration, for a token of kind [k]. *)
Lemma finish_spec t p out ds cs depth depth' pending prev first_ line :
  bracket_after (tk_kind t) depth = Some depth' ->
  (depth ← asks (fun s => unwrap (bracket_after (tk_kind t) (bracket_depth s)));
   _ ← modify (set_depth depth);
   _ ← modify (push_out t);
   modify (after_token ((depth =? 0) && is_opener (tk_kind t)) line))
    (MkLayouter p out ds cs depth pending prev first_)
  = Done ((), MkLayouter p (out ++ [t]) ds cs depth' ((depth' =? 0) && is_opener (tk_kind t)) line first_).
Proof. intros Hb. erewrite sr_step by (unfold asks; simpl; by rewrite Hb). done. Qed.

(** One token, from the cursor at [d1] inside what was read. *)
Lemma layout_token_spec d1 x mid l r t p out ds depth pending prev cs c0 :
  txt_ = d1 ++ x ++ mid ++ l ++ r -> l ≠ [] -> tk_range t = range_at (d1 ++ x ++ mid) l ->
  cursor_at d1 p -> depth <= str_len (d1 ++ x) ->
  exists vs c st err depth' p',
    lead ln col (c0 :: cs) prev depth pending t vs (c :: st) err /\
    bracket_after (tk_kind t) depth = Some depth' /\ depth' <= str_len (d1 ++ x ++ mid ++ l) /\
    cursor_at (d1 ++ x ++ mid) p' /\
    layout_token source txt_ t (MkLayouter p out ds (c0 :: cs) depth pending prev false)
    = Done ((), MkLayouter p' ((out ++ virtuals vs t) ++ [t]) (ds ++ missing err t) (c :: st) depth'
        ((depth' =? 0) && is_opener (tk_kind t)) (ln t) false).
Proof.
  intros Ht Hne Hr Hp Hdepth. set (d := d1 ++ x ++ mid) in *.
  assert (txt_ = d1 ++ (x ++ mid) ++ l ++ r) as Ht1 by (by rewrite Ht, <- !app_assoc).
  assert (txt_ = d ++ l ++ r) as Ht2 by (unfold d; by rewrite Ht, <- !app_assoc).
  assert (start t = str_len d) as Hs by (by rewrite Hr).
  destruct (cursor_advance_spec txt_ txt_fits d1 (x ++ mid) (l ++ r) p Ht1 Hp) as (p1 & Hadv & Hp1).
  fold d in Hadv, Hp1.
  destruct (position_of_at txt_ txt_fits d (l ++ r) t Ht2 Hs) as (before & left & Hl & Hln & Hcol).
  destruct (lead_spec t p1 out ds depth pending prev cs c0 before left d (l ++ r) Ht2 Hp1 Hl Hcol)
    as (vs & c & st & err & p2 & Hlead & Hp2 & Hrun).
  assert (str_len (d1 ++ x) < str_len (d ++ l)) as Hlt.
  { destruct l as [|ch l]; [done|]. unfold d. rewrite !str_len_app, str_len_cons. pose proof (len_utf8_pos ch). lia. }
  pose proof txt_fits as [_ Hlen]. rewrite Ht2, (app_assoc d), str_len_app in Hlen.
  destruct (bracket_after_bound (tk_kind t) depth (str_len (d1 ++ x)) Hdepth) as (depth' & Hb & Hbound); [lia|].
  exists vs, c, st, err, depth', p2.
  replace (d1 ++ x ++ mid ++ l) with (d ++ l) by (unfold d; by rewrite <- !app_assoc).
  split_and!; [done|done|lia|done|].
  unfold layout_token. erewrite sr_step by (unfold asks; cbn -[cursor_advance]; by rewrite Hs, Hadv).
  erewrite sr_step by done. erewrite sr_step by done.
  assert (pc_line p1 = ln t) as Hline by (rewrite Hln; by destruct Hp1 as [_ (? & ? & ? & _ & ? & _)]).
  rewrite Hline. erewrite sr_step by exact Hrun. by apply finish_spec.
Qed.

Lemma layout_loop_spec d ts : on_text txt_ d ts -> forall d1 x p out ds depth pending prev cs c0,
  d = d1 ++ x -> cursor_at d1 p -> depth <= str_len d ->
  exists out' ds' s, layout_loop source txt_ ts (MkLayouter p out ds (c0 :: cs) depth pending prev false) = Done ((), s) /\
    lt_out s = out ++ out' /\ lt_diagnostics s = ds ++ ds' /\
    laid_out source ln col (c0 :: cs) prev depth pending ts out' ds'.
Proof.
  induction 1 as [d t Hk|d mid l r t ts Ht Hne Hr Hk _ _ IH]; intros d1 x p out ds depth pending prev cs c0 -> Hp Hdepth.
  - destruct (close_while_spec (fun _ => true) t p ds depth pending prev false cs c0)
      as (closed & c & st & Heq & _ & Hst & Hrun).
    destruct Hst as [Hst| ->]; [done|].
    exists (virtuals (replicate (length cs) LayoutClose) t ++ [t]), [], 
      (push_out t (MkLayouter p (out ++ virtuals (replicate (length cs) LayoutClose) t) ds [c] depth pending prev false)).
    assert (length closed = length cs) as Hcl.
    { apply (f_equal length) in Heq. rewrite length_app in Heq. simpl in Heq. lia. }
    split_and!; [|by rewrite app_assoc|by rewrite app_nil_r|by constructor].
    cbn [layout_loop]. rewrite decide_True by done. erewrite sr_step by exact (Hrun out). by rewrite Hcl.
  - rewrite <- app_assoc in Ht, Hr.
    destruct (layout_token_spec d1 x mid l r t p out ds depth pending prev cs c0 Ht Hne Hr Hp Hdepth)
      as (vs & c & st & err & depth' & p' & Hlead & Hb & Hd' & Hp' & Hrun).
    destruct (IH (d1 ++ x ++ mid) l p' ((out ++ virtuals vs t) ++ [t]) (ds ++ missing err t) depth'
      ((depth' =? 0) && is_opener (tk_kind t)) (ln t) st c) as (out' & ds' & s & Hloop & Hout & Hds & Hlaid).
    { by rewrite <- !app_assoc. } { done. } { by rewrite <- !app_assoc. }
    exists (virtuals vs t ++ t :: out'), (missing err t ++ ds'), s. split_and!.
    + cbn [layout_loop]. rewrite decide_False by done. by erewrite sr_step by exact Hrun.
    + by rewrite Hout, <- !app_assoc.
    + by rewrite Hds, <- app_assoc.
    + by eapply laid_token.
Qed.

(** The first token. *)
Lemma layout_first_spec mid l r t :
  txt_ = mid ++ l ++ r -> l ≠ [] -> tk_range t = range_at mid l ->
  exists depth p, bracket_after (tk_kind t) 0 = Some depth /\ depth <= str_len (mid ++ l) /\ cursor_at mid p /\
    layout_token source txt_ t (MkLayouter new_cursor [] [] [] 0 false 0 true)
    = Done ((), MkLayouter p [t] [] [col t] depth ((depth =? 0) && is_opener (tk_kind t)) (ln t) false).
Proof.
  intros Ht Hne Hr. assert (start t = str_len mid) as Hs by (by rewrite Hr).
  destruct (cursor_advance_spec txt_ txt_fits [] mid (l ++ r) new_cursor Ht cursor_new) as (p1 & Hadv & Hp1).
  destruct (position_of_at txt_ txt_fits mid (l ++ r) t Ht Hs) as (before & left & Hl & Hln & Hcol).
  destruct (column_here_spec t p1 mid (l ++ r) before left [] [] [] 0 false 0 true Ht Hp1 Hl Hcol) as (p2 & Hp2 & Hrun).
  destruct (bracket_after_bound (tk_kind t) 0 0) as (depth & Hb & Hd); [done..|].
  exists depth, p2. split_and!; [done| |done|].
  { rewrite str_len_app. destruct l as [|ch l]; [done|]. rewrite str_len_cons. pose proof (len_utf8_pos ch). lia. }
  unfold layout_token. cbn [app] in Hadv. erewrite sr_step by (unfold asks; cbn -[cursor_advance]; by rewrite Hs, Hadv).
  assert (pc_line p1 = ln t) as Hline by (rewrite Hln; by destruct Hp1 as [_ (? & ? & ? & _ & ? & _)]).
  rewrite Hline. erewrite sr_step by done. erewrite sr_step by done. cbn [first_token set_position].
  erewrite sr_step; [|erewrite sr_step by exact Hrun; reflexivity]. by apply (finish_spec t p2 [] [] [col t] 0 depth false 0 false).
Qed.

Lemma layout_laid ts : on_text txt_ [] ts -> exists out ds,
  layout source txt_ ts = Done (MkLayout out ds) /\ laid_file source ln col ts out ds.
Proof.
  intros Hts. unfold layout. remember ([] : text) as d eqn:Hd.
  destruct Hts as [d t Hk|d mid l r t ts' Ht Hne Hr Hk Hv Hts']; subst d.
  - exists [t], []. cbn [layout_loop]. rewrite decide_True by done. split; [done|by constructor].
  - destruct (layout_first_spec mid l r t Ht Hne Hr) as (depth & p & Hb & Hdepth & Hp & Hrun).
    destruct (layout_loop_spec _ _ Hts' mid l p [t] [] depth ((depth =? 0) && is_opener (tk_kind t)) (ln t) [] (col t)
      eq_refl Hp Hdepth) as (out & ds & s & Hloop & Hout & Hds & Hlaid).
    exists (t :: out), ds. cbn [layout_loop]. rewrite decide_False by done. erewrite sr_step by exact Hrun. rewrite Hloop.
    split; [cbn; by rewrite Hout, Hds|]. by eapply laid_first.
Qed.
End Steps.
