(* ===== verification/LayoutProps.v ===== *)
(** * Properties of the layout pass

    The pass computes the one layout of the offside rule; the output's blocks nest by their
    columns; and a text is lexed and laid out without a panic. *)

From S2P Require Import Prelude Text Lines Tokens Lexer LexerSpec LexerSound LexerNumber LexerProps Layout LayoutSpec LayoutSound.
From stdpp Require Import list strings.
From Stdlib Require Import ZArith Lia.

(** ** The rule has one result *)

Section Unique.
Context (source : nat) (ln col : Token -> nat).

Lemma closed_unique (t : Token) closed : forall closed' c c' st st',
  closed ++ c :: st = closed' ++ c' :: st' ->
  Forall (fun x => col t < x) closed -> Forall (fun x => col t < x) closed' ->
  c <= col t \/ st = [] -> c' <= col t \/ st' = [] -> closed = closed' /\ c = c' /\ st = st'.
Proof.
  induction closed as [|x closed IH]; intros [|x' closed'] c c' st st' Heq Hcl Hcl' Hst Hst'; injection Heq as -> Heq.
  - auto.
  - apply Forall_inv in Hcl'. destruct Hst as [Hst| ->]; [lia|]. by destruct closed'.
  - apply Forall_inv in Hcl. destruct Hst' as [Hst'| ->]; [lia|]. by destruct closed.
  - apply Forall_inv_tail in Hcl, Hcl'. destruct (IH _ _ _ _ _ Heq Hcl Hcl' Hst Hst') as (-> & -> & ->). auto.
Qed.

Lemma lead_unique st prev depth pending t vs st1 err vs' st1' err' :
  lead ln col st prev depth pending t vs st1 err -> lead ln col st prev depth pending t vs' st1' err' ->
  vs = vs' /\ st1 = st1' /\ err = err'.
Proof.
  intros H1 H2. destruct H1 as [? ? ? ? t Hin|c st prev t Hnew Hopen|closed c st prev pending t Hnew Hp Hcl Hst].
  - inversion H2; subst; tauto.
  - inversion H2 as [? ? ? ? ? Hin|? ? ? ? Hnew'|closed c' st' ? ? ? Hnew' Hp Hcl Hst]; subst; [tauto|auto|].
    assert (col t <= c) by (apply Hp; [done|]; by destruct closed as [|? ?]; simplify_eq/=). lia.
  - inversion H2 as [? ? ? ? ? Hin|c' st' ? ? Hnew' Hopen Heq|closed' c' st' ? ? ? Hnew' Hp' Hcl' Hst' Heq]; subst; [tauto| |].
    + assert (col t <= c') by (apply Hp; [done|]; destruct closed; simplify_eq/=; done). lia.
    + destruct (closed_unique t _ _ _ _ _ _ Heq Hcl' Hcl Hst' Hst) as (-> & -> & ->). auto.
Qed.

Lemma laid_out_unique st prev depth pending ts out ds :
  laid_out source ln col st prev depth pending ts out ds ->
  forall out' ds', laid_out source ln col st prev depth pending ts out' ds' -> out = out' /\ ds = ds'.
Proof.
  induction 1 as [c st prev depth pending t Hk|st prev depth pending t ts vs st1 err depth1 out ds Hk Hlead Hb _ IH];
    intros out' ds' H2; inversion H2; subst; try done.
  match goal with Hl : lead _ _ _ _ _ _ _ _ _ _ |- _ =>
    destruct (lead_unique _ _ _ _ _ _ _ _ _ _ _ Hlead Hl) as (-> & -> & ->) end.
  simplify_eq. edestruct IH as [-> ->]; [eassumption|done].
Qed.
End Unique.

(** ** Blocks *)

Section Blocks.
Context (source : nat) (ln col : Token -> nat).
(** A column is that of the token's start. *)
Hypothesis col_start : forall k t, col (MkToken k (empty_range (tr_start (tk_range t)))) = col t.

Lemma blocks_sep_here c st t rest :
  c <= col t \/ st = [] -> blocks col (c :: st) rest ->
  blocks col (c :: st) (virtuals (if sep_needed col c t then [LayoutSep] else []) t ++ rest).
Proof.
  intros Hst Hrest. destruct (sep_needed col c t) eqn:Hsep; [|done]. cbn. apply blocks_sep; [done| |done].
  rewrite col_start. unfold sep_needed in Hsep.
  apply orb_true_iff in Hsep as [Hlt%Nat.ltb_lt|[Heq%Nat.eqb_eq _]%andb_true_iff]; [|by left].
  right. split; [done|]. destruct Hst as [?|?]; [lia|done].
Qed.

Lemma blocks_closes closed c st t rest :
  Forall (fun x => col t < x) closed -> blocks col (c :: st) rest ->
  blocks col (closed ++ c :: st) (virtuals (replicate (length closed) LayoutClose) t ++ rest).
Proof.
  intros Hcl Hrest. induction Hcl as [|x closed Hx Hcl IH]; [done|]. cbn in IH |- *.
  destruct closed as [|y closed]; apply blocks_close; auto; left; by rewrite col_start.
Qed.

Lemma lead_blocks st prev depth pending t vs st' err rest :
  lead ln col st prev depth pending t vs st' err -> blocks col st' rest -> blocks col st (virtuals vs t ++ rest).
Proof.
  destruct 1 as [| |closed c st prev pending t Hnew Hp Hcl Hst]; intros Hrest; [done| |].
  - cbn. apply blocks_open; rewrite ?col_start; done.
  - rewrite virtuals_app, <- app_assoc. apply blocks_closes; [done|]. by apply blocks_sep_here.
Qed.

Lemma blocks_end c st t : tk_kind t = Eof -> blocks col (c :: st) (virtuals (replicate (length st) LayoutClose) t ++ [t]).
Proof.
  intros Hk. revert c; induction st as [|c' st IH]; intros c; [by constructor|]. cbn.
  apply blocks_close; [done| |apply IH]. right. apply Forall_app. split; [|by constructor; [right|]].
  apply Forall_fmap, Forall_replicate. by left.
Qed.

Lemma laid_out_blocks st prev depth pending ts out ds :
  laid_out source ln col st prev depth pending ts out ds ->
  Forall (fun t => virtual (tk_kind t) = false) ts -> blocks col st out.
Proof.
  induction 1 as [c st prev depth pending t Hk|st prev depth pending t ts vs st1 err depth1 out ds Hk Hlead Hb _ IH];
    intros Hts; [by apply blocks_end|].
  apply Forall_cons in Hts as [Ht Hts]. eapply lead_blocks; [done|]. by apply blocks_token; auto.
Qed.

Lemma reals_virtuals vs t : Forall (fun k => virtual k = true) vs -> reals (virtuals vs t) = [].
Proof.
  induction 1 as [|k vs Hk _ IH]; [done|]. unfold virtuals, reals in *. rewrite fmap_cons.
  by rewrite filter_cons_False by (cbn; by rewrite Hk).
Qed.

Lemma lead_virtual st prev depth pending t vs st' err :
  lead ln col st prev depth pending t vs st' err -> Forall (fun k => virtual k = true) vs.
Proof.
  destruct 1; [done|by repeat constructor|]. apply Forall_app. split; [by apply Forall_replicate|].
  case_match; by repeat constructor.
Qed.

Lemma reals_app ts ts' : reals (ts ++ ts') = reals ts ++ reals ts'.
Proof. apply filter_app. Qed.

Lemma laid_out_reals st prev depth pending ts out ds :
  laid_out source ln col st prev depth pending ts out ds ->
  Forall (fun t => virtual (tk_kind t) = false) ts -> reals out = ts.
Proof.
  induction 1 as [c st prev depth pending t Hk|st prev depth pending t ts vs st1 err depth1 out ds Hk Hlead Hb _ IH];
    intros Hts; rewrite reals_app, reals_virtuals; cbn [app].
  - unfold reals. by rewrite filter_cons_True by (by rewrite Hk).
  - by apply Forall_replicate.
  - apply Forall_cons in Hts as [Ht Hts]. unfold reals. rewrite filter_cons_True by done. f_equal. by apply IH.
  - by eapply lead_virtual.
Qed.

Lemma laid_file_blocks ts out ds :
  laid_file source ln col ts out ds -> Forall (fun t => virtual (tk_kind t) = false) ts ->
  blocks_file col out /\ reals out = ts.
Proof.
  destruct 1 as [t Hk|t ts depth out ds Hk Hb Hout]; intros Hts.
  - split; [by left|]. unfold reals. by rewrite filter_cons_True by (by rewrite Hk).
  - apply Forall_cons in Hts as [Ht Hts]. split; [right; split; [done|by eapply laid_out_blocks]|].
    unfold reals. rewrite filter_cons_True by done. f_equal. by eapply laid_out_reals.
Qed.
End Blocks.

(** ** Lexed texts *)

Lemma on_text_real txt_ d ts : on_text txt_ d ts -> Forall (fun t => virtual (tk_kind t) = false) ts.
Proof. induction 1 as [d t Hk|]; [by rewrite Forall_singleton, Hk|by constructor]. Qed.

(** Neither a virtual token's kind nor the end of the file's. *)
Definition lexical (k : TokenKind) : bool :=
  negb (virtual k) && match k with Eof => false | _ => true end.

Lemma table_lexical table other k l : kind_of table other k l ->
  forallb lexical (other :: (snd <$> table)) = true -> lexical k = true.
Proof.
  intros Hk. rewrite forallb_forall. intros Ht. apply Ht, list_elem_of_In.
  destruct (kind_of_elem _ _ _ _ Hk) as [->|[s Hs]]; [left|right]. by apply list_elem_of_fmap_2 with (f := snd) in Hs.
Qed.

Lemma token_lexical k b l r : token_ok k b l r -> l ≠ [] /\ lexical k = true.
Proof.
  intros Hok. split; [by eapply token_nonempty|]. destruct Hok as [k c l r _ _ Hk|k b l suffix r Hn _| | | | | |k c l r _ _ Hk|k s r Hk _]; try done.
  - eapply table_lexical; [exact Hk|]. unfold name_kind. by case_match.
  - by destruct (number_kind _ _ _ _ Hn) as [-> | ->].
  - by eapply table_lexical.
  - eapply (table_lexical brackets Comma k (txt s)); [left; by exists s|done].
Qed.

Lemma on_text_pieces txt_ r ps : lexes r ps -> forall d mid e,
  txt_ = d ++ mid ++ r -> tk_kind e = Eof -> on_text txt_ d (tokens_of (d ++ mid) ps ++ [e]).
Proof.
  induction 1 as [|p r ps Hp _ IH]; intros d mid e Ht He; [by constructor|].
  cbn [tokens_of]. destruct p as [c|k l b|k l b|l]; cbn [app piece_text];
    try (rewrite <- app_assoc; apply IH; [by rewrite <- app_assoc|done]).
  destruct Hp as [[Hne Hk]%token_lexical _]. apply andb_true_iff in Hk as [Hv%negb_true_iff Hk].
  apply (on_token _ _ mid l r); try done; [by destruct k|].
  replace ((d ++ mid) ++ l) with ((d ++ mid ++ l) ++ []) by (by rewrite app_nil_r, <- !app_assoc).
  apply IH; [|done]. by rewrite Ht, <- !app_assoc.
Qed.

(** C22: the layout pass computes the offside rule.  On a text of Unicode scalars shorter than
    4 GiB and tokens that lie on it in order, [layout] returns - the scanning cursor never
    slices off a character boundary, and neither a line, a column nor the bracket depth
    overflows - and what it returns is the one layout that the rule gives, with the lines and
    columns that [line.rs] computes for the tokens' offsets: the cursor's single scan agrees
    with the line index at every token. *)
Theorem layout_offside source text_ tokens :
  fits text_ -> on_text text_ [] tokens ->
  (exists l, layout source text_ tokens = Done l) /\
  forall out ds, layout source text_ tokens = Done (MkLayout out ds) ↔
    laid_file source (line_number text_) (column_number text_) tokens out ds.
Proof.
  intros Hfits Hts. destruct (layout_laid source text_ Hfits tokens Hts) as (out & ds & Hl & Hlaid).
  split; [by eexists|]. intros out' ds'. rewrite Hl. split; [by intros [= <- <-]|]. intros Hlaid'.
  inversion Hlaid as [t Hk|t ts depth out1 ds1 Hk Hb Hout]; subst; inversion Hlaid'; subst; simplify_eq; [done|].
  edestruct (laid_out_unique _ _ _ _ _ _ _ _ _ _ Hout) as [-> ->]; [eassumption|done].
Qed.

(** A body on its own line. *)
Definition body_text : text := txt "f =" ++ [newline] ++ txt " a".
Definition body_tokens : list Token :=
  [MkToken LowerIdent (MkTextRange 0 1); MkToken Equals (MkTextRange 2 3);
   MkToken LowerIdent (MkTextRange 5 6); MkToken Eof (MkTextRange 6 6)].

Lemma layout_offside_witness :
  fits body_text /\ on_text body_text [] body_tokens /\
  ((exists l, layout 0 body_text body_tokens = Done l) /\
   forall out ds, layout 0 body_text body_tokens = Done (MkLayout out ds) ↔
     laid_file 0 (line_number body_text) (column_number body_text) body_tokens out ds).
Proof.
  assert (fits body_text) as Hfits by (split; [by repeat constructor|by vm_compute]).
  assert (on_text body_text [] body_tokens) as Hon.
  { apply (on_token _ [] [] (txt "f") (txt " =" ++ [newline] ++ txt " a")); try done.
    apply (on_token _ (txt "f") (txt " ") (txt "=") ([newline] ++ txt " a")); try done.
    apply (on_token _ (txt "f =") ([newline] ++ txt " ") (txt "a") []); try done. by constructor. }
  exact (conj Hfits (conj Hon (layout_offside 0 body_text body_tokens Hfits Hon))).
Defined.

(** C23: a text is lexed and laid out without a panic, and its blocks nest.  For every text of
    Unicode scalars shorter than 4 GiB, [lex] returns and [layout] returns on its tokens; the
    layout's tokens that are not virtual are the lexer's, in order; and the output by itself
    is well laid out: each block opens right of the enclosing one, a separator is at its
    block's column or left of the top level's, a block closes only before a token left of it
    or at the end, every opened block is closed and the end of the file comes last. *)
Theorem lex_layout_blocks source text_ fuel :
  fits text_ -> length text_ < fuel ->
  exists o out ds, lex source text_ fuel = Done o /\
    layout source text_ (ld_tokens o) = Done (MkLayout out ds) /\
    reals out = ld_tokens o /\ blocks_file (column_number text_) out.
Proof.
  intros Hfits Hf. assert (Z.of_nat (str_len text_) < 2 ^ 32)%Z as Hlen by (destruct Hfits; lia).
  destruct (lex_returns source text_ Hlen fuel Hf) as (s & Hs & ps & ds1 & Hps & Ho & _).
  assert (on_text text_ [] (ld_tokens (Lexer.out s))) as Hon.
  { rewrite Ho. by apply (on_text_pieces text_ text_ ps Hps [] []). }
  destruct (layout_laid source text_ Hfits _ Hon) as (out & ds & Hl & Hlaid).
  destruct (laid_file_blocks source (line_number text_) (column_number text_) (fun k t => eq_refl) _ _ _ Hlaid (on_text_real _ _ _ Hon)) as [Hb Hr].
  by exists (Lexer.out s), out, ds.
Qed.

Lemma lex_layout_blocks_witness :
  fits body_text /\ exists o out ds, lex 0 body_text 8 = Done o /\
    layout 0 body_text (ld_tokens o) = Done (MkLayout out ds) /\
    reals out = ld_tokens o /\ blocks_file (column_number body_text) out.
Proof.
  assert (fits body_text) as Hfits by (split; [by repeat constructor|by vm_compute]).
  assert (length body_text < 8) as Hf by (by apply Nat.ltb_lt).
  exact (conj Hfits (lex_layout_blocks 0 body_text 8 Hfits Hf)).
Defined.

(** The layout of a lexed text, as its kinds; 10 is the newline. *)
Definition lines (ls : list string) : text := concat ((fun l => txt l ++ [10%Z]) <$> ls).
Definition layout_kinds (ls : list string) : run (list TokenKind * nat) :=
  o ← lex 0 (lines ls) 200;
  l ← layout 0 (lines ls) (ld_tokens o);
  Done (tk_kind <$> ly_tokens l, length (ly_diagnostics l)).

Example layout_nested : layout_kinds ["let f ="; "  if c then"; "    a"; "  else (b"; "c)"; "let g = d"] =
  Done ([T_Let; LowerIdent; Equals; LayoutOpen; T_If; LowerIdent; T_Then; LayoutOpen; LowerIdent; LayoutClose;
    T_Else; LParen; LowerIdent; LowerIdent; RParen; LayoutClose; LayoutSep; T_Let; LowerIdent; Equals; LowerIdent; Eof], 0).
Proof. vm_compute. reflexivity. Qed.
Example layout_unindented : layout_kinds ["let f ="; "body"] =
  Done ([T_Let; LowerIdent; Equals; LayoutSep; LowerIdent; Eof], 1).
Proof. vm_compute. reflexivity. Qed.
