(* ===== verification/Exhaustive.v ===== *)
(** * Exhaustiveness and redundancy of matches

    fai-types' [exhaustive.rs]: Maranget's usefulness of a row of patterns against a matrix.
    Declarations are looked up by source id ([type_decls]); the field types of a union's
    constructor at an applied type come from inference ([constructor_scheme_observed] and
    [instantiate_fields]) and are a parameter. *)

From S2P Require Import Prelude Types Niche Text Literals.
From stdpp Require Import gmap list strings.
From Stdlib Require Import ZArith Lia.

(** ** Runs *)

(** [xs.iter().any(f)]: left to right, up to the first success. *)
Fixpoint any {A} (f : A -> run bool) (xs : list A) : run bool :=
  match xs with
  | [] => mret false
  | x :: xs => b ← f x; if b : bool then mret true else any f xs
  end.

(** ** Patterns *)

(** The built-in list constructors' tags. *)
Definition NIL_TAG : Z := 0.
Definition CONS_TAG : Z := 1.

(** [ConKey] *)
Inductive ConKey :=
| Key_Tag (tag : Z)
| Key_Tuple
| Key_Record
| Key_Unit.
#[export] Instance ConKey_eq_dec : EqDecision ConKey.
Proof. solve_decision. Defined.

(** [LiteralKey]: a float is its bits, a string its bytes. *)
Inductive LiteralKey :=
| Lit_Key_Int (n : Z)
| Lit_Key_Float (bits : Z)
| Lit_Key_String (bytes : list Z)
| Lit_Key_Char (c : Z)
| Lit_Key_Invalid (pat : nat).
#[export] Instance LiteralKey_eq_dec : EqDecision LiteralKey.
Proof. solve_decision. Defined.

(** [IPat] *)
Inductive IPat :=
| IP_Wild
| IP_Con (key : ConKey) (args : list IPat)
| IP_Lit (value : LiteralKey)
| IP_Or (alts : list IPat).

(** A surface pattern ([PatKind]), unfolded from the arena: what lowering looks up by
    [PatId] carries its id. A record field is its label and its pattern. *)
Inductive Pat :=
| Pat_Var (name : string)
| Pat_Wildcard
| Pat_Unit
| Pat_Tuple (elems : list Pat)
| Pat_Paren (inner : Pat)
| Pat_Constructor (id : nat) (name : string) (args : list Pat)
| Pat_Int (id : nat) (lexeme : text)
| Pat_Float (id : nat) (lexeme : text)
| Pat_String (id : nat) (lexeme : text)
| Pat_Char (id : nat) (lexeme : text)
| Pat_Bool (b : bool)
| Pat_List (elems : list Pat)
| Pat_Cons (head tail : Pat)
| Pat_Or (alts : list Pat)
| Pat_As (inner : Pat) (name : string)
| Pat_Record (id : nat) (fields : list (string * Pat)) (is_open : bool)
| Pat_Error.

(** One element of each list, in every way: the last list varies fastest. *)
Definition extend_rows {A} (rows : list (list A)) (choices : list A) : list (list A) :=
  rows ≫= fun row => (fun e => row ++ [e]) <$> choices.
Definition product {A} (choices : list (list A)) : list (list A) := foldl extend_rows [[]] choices.

(** [expand_or] *)
Fixpoint expand_or (p : IPat) : list IPat :=
  match p with
  | IP_Or alts => flat_map expand_or alts
  | IP_Con key args => IP_Con key <$> product (map expand_or args)
  | _ => [p]
  end.

(** [collect_keys] and [head_keys] *)
Fixpoint collect_keys (p : IPat) (out : list ConKey) : list ConKey :=
  match p with
  | IP_Con key _ => if bool_decide (key ∈ out) then out else out ++ [key]
  | IP_Or alts => fold_left (fun out alt => collect_keys alt out) alts out
  | _ => out
  end.

Definition head_keys (matrix : list (list IPat)) : list ConKey :=
  foldl (fun keys row => match row with first :: _ => collect_keys first keys | [] => keys end) [] matrix.

(** ** Matrices *)

(** The rows of an or-free head; an or-pattern is expanded before. *)
Definition specialize_head (key : ConKey) (arity : nat) (rest : list IPat) (head : IPat) : list (list IPat) :=
  match head with
  | IP_Con k args => if bool_decide (k = key) then [args ++ rest] else []
  | IP_Wild => [replicate arity IP_Wild ++ rest]
  | _ => []
  end.

(** Every head of [expand_or] is or-free, so one expansion does. *)
Definition over_heads {A} (f : IPat -> list A) (head : IPat) : list A :=
  match head with
  | IP_Or alts => expand_or (IP_Or alts) ≫= f
  | _ => f head
  end.

(** [specialize]: empty rows are skipped. *)
Definition specialize (matrix : list (list IPat)) (key : ConKey) (arity : nat) : list (list IPat) :=
  matrix ≫= fun row =>
    match row with
    | [] => []
    | head :: rest => over_heads (specialize_head key arity rest) head
    end.

(** [specialize_lit] *)
Definition specialize_lit_head (value : LiteralKey) (rest : list IPat) (head : IPat) : list (list IPat) :=
  match head with
  | IP_Lit v => if bool_decide (v = value) then [rest] else []
  | IP_Wild => [rest]
  | _ => []
  end.
Definition specialize_lit (matrix : list (list IPat)) (value : LiteralKey) : list (list IPat) :=
  matrix ≫= fun row =>
    match row with
    | [] => []
    | head :: rest => over_heads (specialize_lit_head value rest) head
    end.

(** [default_matrix]: an empty row is a failed [expect]. *)
Definition default_head (rest : list IPat) (head : IPat) : list (list IPat) :=
  match head with IP_Wild => [rest] | _ => [] end.
Fixpoint default_matrix (matrix : list (list IPat)) : run (list (list IPat)) :=
  match matrix with
  | [] => mret []
  | [] :: _ => Panicked
  | (head :: rest) :: matrix =>
      out ← default_matrix matrix; mret (over_heads (default_head rest) head ++ out)
  end.

(** ** Signatures *)

(** [SigCtor] and [Sig] *)
Record SigCtor := MkSigCtor { sc_key : ConKey; sc_name : string; sc_fields : list Ty }.
Inductive Sig :=
| Sig_Finite (ctors : list SigCtor)
| Sig_Infinite.

(** [peel_ty] *)
Fixpoint peel_ty_args (ty : Ty) (args : list Ty) : Ty * list Ty :=
  match ty with
  | Ty_App f a => peel_ty_args f (a :: args)
  | _ => (ty, args)
  end.
Definition peel_ty (ty : Ty) : Ty * list Ty := peel_ty_args ty [].

Section Usefulness.
(** [type_decls] of a source id. *)
Context (decls : SourceId -> TypeDecls).
(** The types inference gives the fields of the named constructor of a file at an applied
    type, for the declared number of fields. *)
Context (adt_fields : SourceId -> string -> Ty -> nat -> list Ty).

(** The name of a union's constructor with a tag. *)
Definition ctor_with_tag (d : TypeDecls) (adt : string) (tag : Z) : option string :=
  (fun p => ci_name p.2) <$>
    head (filter (fun p => ci_tag p.2 = tag /\ ci_adt p.2 = adt) (map_to_list (td_all_ctors d))).

(** [ctor_field_types] *)
Definition ctor_field_types (ty : Ty) (key : ConKey) (arity : nat) : list Ty :=
  let '(head, args) := peel_ty ty in
  match head, key with
  | Ty_Con Con_List, Key_Tag t =>
      if bool_decide (t = CONS_TAG) then
        let elem := default Ty_Error (hd_error args) in [elem; ty_list elem]
      else replicate arity Ty_Error
  | Ty_Tuple elems, Key_Tuple => elems
  | Ty_Record fields _, Key_Record => fields.*2
  | Ty_Adt adt, Key_Tag tag =>
      match ctor_with_tag (decls (adt_file adt)) (adt_name adt) tag with
      | Some name => adt_fields (adt_file adt) name ty arity
      | None => replicate arity Ty_Error
      end
  | _, _ => replicate arity Ty_Error
  end.

(** The constructors of a union, in declaration order. *)
Definition adt_ctors (ty : Ty) (d : TypeDecls) (names : list string) : list SigCtor :=
  omap (fun name =>
    info ← ctor d name;
    Some (MkSigCtor (Key_Tag (ci_tag info)) name
      (ctor_field_types ty (Key_Tag (ci_tag info)) (ci_arity info)))) names.

(** [signature_of] *)
Definition signature_of (ty : Ty) : Sig :=
  let '(head, args) := peel_ty ty in
  match head with
  | Ty_Con Con_Bool =>
      Sig_Finite [MkSigCtor (Key_Tag 0) "false" []; MkSigCtor (Key_Tag 1) "true" []]
  | Ty_Con Con_List =>
      let elem := default Ty_Error (hd_error args) in
      Sig_Finite [MkSigCtor (Key_Tag NIL_TAG) "[]" [];
                  MkSigCtor (Key_Tag CONS_TAG) "_ :: _" [elem; ty_list elem]]
  | Ty_Unit => Sig_Finite [MkSigCtor Key_Unit "()" []]
  | Ty_Tuple elems => Sig_Finite [MkSigCtor Key_Tuple "(…)" elems]
  | Ty_Record fields _ => Sig_Finite [MkSigCtor Key_Record "{ … }" fields.*2]
  | Ty_Adt adt =>
      let d := decls (adt_file adt) in
      match type_named d (adt_name adt) with
      | None => Sig_Infinite
      | Some info => if td_is_alias info then Sig_Infinite else Sig_Finite (adt_ctors ty d (td_ctors info))
      end
  | _ => Sig_Infinite
  end.

(** ** Lowering of patterns *)

Section Lowering.
Context (parse_f64_bits : text -> option Z).
(** [ResolvedBodies::pat_res] of a constructor pattern: its file and name. *)
Context (pat_res : nat -> option (SourceId * string)).
(** [BodyTypes::pat_type] *)
Context (pat_type : nat -> option Ty).

(** [ctor_tag_arity] *)
Definition ctor_tag_arity (pat : nat) : option (Z * nat) :=
  '(file, name) ← pat_res pat;
  info ← ctor (decls file) name;
  Some (ci_tag info, ci_arity info).

Definition literal (pat : nat) (decoded : option LiteralKey) : IPat :=
  IP_Lit (default (Lit_Key_Invalid pat) decoded).

(** [Vec::resize] *)
Definition resize {A} (n : nat) (x : A) (xs : list A) : list A := take n xs ++ replicate (n - length xs) x.

(** The aligned fields of a record pattern: each field of the row takes, and removes, the
    pattern of its name. *)
Fixpoint align_fields (row : list string) (by_name : gmap string IPat) : list IPat * gmap string IPat :=
  match row with
  | [] => ([], by_name)
  | name :: row =>
      let '(args, unused) := align_fields row (delete name by_name) in
      (default IP_Wild (by_name !! name) :: args, unused)
  end.

(** [lower_pat] *)
Fixpoint lower_pat (p : Pat) : IPat :=
  match p with
  | Pat_Var _ | Pat_Wildcard | Pat_Error => IP_Wild
  | Pat_Unit => IP_Con Key_Unit []
  | Pat_Paren inner => lower_pat inner
  | Pat_As inner _ => lower_pat inner
  | Pat_Bool b => IP_Con (Key_Tag (if b : bool then 1 else 0)) []
  | Pat_Int id s => literal id (Lit_Key_Int <$> decode_int_literal (into_bytes s))
  | Pat_Float id s => literal id (Lit_Key_Float <$> decode_float_literal parse_f64_bits s)
  | Pat_String id s => literal id (Lit_Key_String <$> decode_string_literal s)
  | Pat_Char id s => literal id (Lit_Key_Char <$> decode_char_literal s)
  | Pat_Tuple elems => IP_Con Key_Tuple (map lower_pat elems)
  | Pat_Cons head tail => IP_Con (Key_Tag CONS_TAG) [lower_pat head; lower_pat tail]
  | Pat_List elems =>
      fold_right (fun e list => IP_Con (Key_Tag CONS_TAG) [e; list]) (IP_Con (Key_Tag NIL_TAG) [])
        (map lower_pat elems)
  | Pat_Constructor id _ args =>
      match ctor_tag_arity id with
      | None => IP_Lit (Lit_Key_Invalid id)
      | Some (tag, arity) => IP_Con (Key_Tag tag) (resize arity IP_Wild (map lower_pat args))
      end
  | Pat_Or alts => IP_Or (map lower_pat alts)
  | Pat_Record id fields is_open =>
      let invalid := IP_Lit (Lit_Key_Invalid id) in
      match pat_type id with
      | Some (Ty_Record row tail) =>
          if negb is_open && (negb (bool_decide (tail = Row_Closed)) || negb (length row =? length fields))
          then invalid
          else
            let by_name := list_to_map (reverse (map (fun f => (f.1, lower_pat f.2)) fields)) in
            if negb (size by_name =? length fields) then invalid
            else
              let '(args, unused) := align_fields row.*1 by_name in
              if bool_decide (unused = ∅) then IP_Con Key_Record args else invalid
      | _ => invalid
      end
  end.
End Lowering.

(** ** Usefulness *)

(** [useful] and [useful_wild]. *)
Fixpoint useful (fuel : nat) (matrix : list (list IPat)) (q : list IPat) (col_types : list Ty) : run bool :=
  match fuel with
  | 0 => Exhausted
  | S fuel =>
      match q, col_types with
      | [], _ => mret (bool_decide (matrix = []))
      | _ :: _, [] => Panicked
      | head :: rest, ty :: rest_types =>
          match head with
          | IP_Or alts => any (fun alt => useful fuel matrix (alt :: rest) col_types) alts
          | IP_Con key args =>
              useful fuel (specialize matrix key (length args)) (args ++ rest)
                (ctor_field_types ty key (length args) ++ rest_types)
          | IP_Lit value => useful fuel (specialize_lit matrix value) rest rest_types
          | IP_Wild =>
              let by_default := matrix ← default_matrix matrix; useful fuel matrix rest rest_types in
              match signature_of ty with
              | Sig_Finite ctors =>
                  if forallb (fun c => bool_decide (sc_key c ∈ head_keys matrix)) ctors then
                    any (fun c =>
                      useful fuel (specialize matrix (sc_key c) (length (sc_fields c)))
                        (replicate (length (sc_fields c)) IP_Wild ++ rest) (sc_fields c ++ rest_types)) ctors
                  else by_default
              | Sig_Infinite => by_default
              end
          end
      end
  end.

(** ** The check of one match *)

(** [missing_hint]: the constructors no arm mentions, when the type has finitely many. *)
Definition missing_ctors (matrix : list (list IPat)) (ty : Ty) : list string :=
  match signature_of ty with
  | Sig_Finite ctors =>
      sc_name <$> filter (fun c => sc_key c ∉ head_keys matrix) ctors
  | Sig_Infinite => []
  end.

(** The loop over the arms: for each, whether it is unreachable; and the matrix of all rows. *)
Fixpoint check_arms (fuel : nat) (matrix : list (list IPat)) (arms : list IPat) (ty : Ty)
    : run (list bool * list (list IPat)) :=
  match arms with
  | [] => mret ([], matrix)
  | arm :: arms =>
      let rows := expand_or arm in
      useful_here ← any (fun row => useful fuel matrix [row] [ty]) rows;
      out ← check_arms fuel (matrix ++ ((fun row => [row]) <$> rows)) arms ty;
      mret (negb useful_here :: out.1, out.2)
  end.

(** [check_match]: the unreachable arms; and for a match that misses a case, the constructors
    of the hint. *)
Definition check_match (fuel : nat) (arms : list IPat) (ty : Ty) : run (list bool * option (list string)) :=
  out ← check_arms fuel [] arms ty;
  escapes ← useful fuel out.2 [IP_Wild] [ty];
  mret (out.1, if escapes : bool then Some (missing_ctors out.2 ty) else None).
End Usefulness.
