(* ===== verification/ExhaustiveSem.v ===== *)
(** * What usefulness decides

    Values, the patterns they match and the types they have; and the theorem that the check of
    fai-types' [exhaustive.rs] reports exactly the matches that miss a value and the arms that
    match none of their own. *)

From S2P Require Import Prelude Types Niche Exhaustive.
From stdpp Require Import gmap list strings.
From Stdlib Require Import ZArith Lia.

(** ** Values and matching *)

(** A value as patterns see it: a constructor and its fields, a literal, or a value of an open
    domain that no pattern but a wildcard matches. *)
Inductive Val :=
| V_Con (key : ConKey) (fields : list Val)
| V_Lit (value : LiteralKey)
| V_Other.

Section All2.
Context {A B : Type} (f : A -> B -> bool).
Fixpoint all2 (xs : list A) (ys : list B) : bool :=
  match xs, ys with
  | [], [] => true
  | x :: xs, y :: ys => f x y && all2 xs ys
  | _, _ => false
  end.

Lemma all2_app xs xs' ys ys' :
  length xs = length ys -> all2 (xs ++ xs') (ys ++ ys') = all2 xs ys && all2 xs' ys'.
Proof.
  revert ys; induction xs as [|x xs IH]; intros [|y ys]; simpl; try done.
  intros [= Hlen]. by rewrite IH, andb_assoc.
Qed.

Lemma all2_length xs ys : all2 xs ys = true -> length xs = length ys.
Proof.
  revert ys; induction xs as [|x xs IH]; intros [|y ys]; simpl; try done.
  intros [_ ?]%andb_true_iff. f_equal. by apply IH.
Qed.
End All2.

(** A pattern matches a value. *)
Fixpoint pmatch (p : IPat) (v : Val) : bool :=
  match p with
  | IP_Wild => true
  | IP_Con key args =>
      match v with
      | V_Con key' fields => bool_decide (key = key') && all2 pmatch args fields
      | _ => false
      end
  | IP_Lit value => match v with V_Lit value' => bool_decide (value = value') | _ => false end
  | IP_Or alts => existsb (fun alt => pmatch alt v) alts
  end.

(** A row matches a vector, and a matrix has a row that does. *)
Definition row_match (row : list IPat) (vs : list Val) : bool := all2 pmatch row vs.
Definition covers (matrix : list (list IPat)) (vs : list Val) : Prop :=
  exists row, row ∈ matrix /\ row_match row vs = true.

Lemma covers_cons row matrix vs :
  covers (row :: matrix) vs ↔ row_match row vs = true \/ covers matrix vs.
Proof.
  unfold covers. setoid_rewrite elem_of_cons. split; [|naive_solver].
  intros (r & [->|Hr] & Hm); eauto.
Qed.

Lemma covers_app m1 m2 vs : covers (m1 ++ m2) vs ↔ covers m1 vs \/ covers m2 vs.
Proof. unfold covers. setoid_rewrite elem_of_app. naive_solver. Qed.

Lemma covers_nil vs : ~ covers [] vs.
Proof. by intros (row & ?%elem_of_nil & _). Qed.

Lemma covers_bind {A} (f : A -> list (list IPat)) xs vs :
  covers (xs ≫= f) vs ↔ exists x, x ∈ xs /\ covers (f x) vs.
Proof.
  unfold covers. setoid_rewrite list_elem_of_bind. naive_solver.
Qed.

Lemma row_match_wild n vs : row_match (replicate n IP_Wild) vs = bool_decide (length vs = n).
Proof.
  unfold row_match. revert vs; induction n as [|n IH]; intros [|v vs]; simpl; try done.
  rewrite IH. apply bool_decide_ext. lia.
Qed.

Section IPatInd.
Context (Q : IPat -> Prop) (Hwild : Q IP_Wild)
  (Hcon : forall key args, Forall Q args -> Q (IP_Con key args))
  (Hlit : forall value, Q (IP_Lit value)) (Hor : forall alts, Forall Q alts -> Q (IP_Or alts)).

(** Induction through the lists of subpatterns. *)
Fixpoint IPat_nested_ind (p : IPat) : Q p :=
  let fix go ps : Forall Q ps :=
    match ps with
    | [] => List.Forall_nil _
    | p :: ps => List.Forall_cons _ p ps (IPat_nested_ind p) (go ps)
    end in
  match p with
  | IP_Wild => Hwild
  | IP_Con key args => Hcon key args (go args)
  | IP_Lit value => Hlit value
  | IP_Or alts => Hor alts (go alts)
  end.
End IPatInd.

(** ** Or-patterns *)

Lemma elem_of_extend_rows {A} (rows : list (list A)) choices row :
  row ∈ extend_rows rows choices ↔ exists r e, r ∈ rows /\ e ∈ choices /\ row = r ++ [e].
Proof.
  unfold extend_rows. rewrite list_elem_of_bind. setoid_rewrite list_elem_of_fmap. naive_solver.
Qed.

Lemma elem_of_product_from {A} (choices : list (list A)) rows row :
  row ∈ foldl extend_rows rows choices ↔
    exists r es, r ∈ rows /\ Forall2 (fun e c => e ∈ c) es choices /\ row = r ++ es.
Proof.
  revert rows; induction choices as [|c choices IH]; intros rows; simpl.
  - split.
    + intros Hr. exists row, []. rewrite app_nil_r. split; [done|]. split; [constructor|done].
    + intros (r & es & Hr & Hes%Forall2_nil_inv_r & ->). subst. by rewrite app_nil_r.
  - rewrite IH. setoid_rewrite elem_of_extend_rows. split.
    + intros (r' & es & (r & e & Hr & He & ->) & Hes & ->).
      exists r, (e :: es). rewrite <- app_assoc. split; [done|]. split; [by constructor|done].
    + intros (r & es' & Hr & Hes' & ->). apply Forall2_cons_inv_r in Hes' as (e & es & He & Hes & ->).
      exists (r ++ [e]), es. rewrite <- app_assoc. split; [|done]. exists r, e. done.
Qed.

Lemma elem_of_product {A} (choices : list (list A)) row :
  row ∈ product choices ↔ Forall2 (fun e c => e ∈ c) row choices.
Proof.
  unfold product. rewrite elem_of_product_from. split.
  - by intros (r & es & ->%list_elem_of_singleton & Hes & ->).
  - intros Hr. exists [], row. split; [by left|done].
Qed.

(** A pattern matches what one of its expansions matches. *)
Lemma expand_or_match p v : pmatch p v = true ↔ exists p', p' ∈ expand_or p /\ pmatch p' v = true.
Proof.
  revert v; induction p as [|key args IH|value|alts IH] using IPat_nested_ind; intros v; simpl.
  - split; [by intros _; exists IP_Wild; split; [left|]|done].
  - setoid_rewrite list_elem_of_fmap.
    assert (forall fields, all2 pmatch args fields = true ↔
      exists args', args' ∈ product (map expand_or args) /\ all2 pmatch args' fields = true) as Hargs.
    { setoid_rewrite elem_of_product. induction IH as [|arg args Harg _ IHargs]; intros fields; simpl.
      - split.
        + intros Hf. exists []. split; [constructor|done].
        + by intros (args' & ->%Forall2_nil_inv_r & Hf).
      - destruct fields as [|v' fields].
        + split; [done|]. intros (args' & Hf & Hm).
          apply Forall2_cons_inv_r in Hf as (? & ? & _ & _ & ->). done.
        + rewrite andb_true_iff, Harg, IHargs. split.
          * intros [(p' & Hp' & Hm) (args' & Hargs' & Hms)]. exists (p' :: args').
            split; [by constructor|]. simpl. by rewrite Hm.
          * intros (args' & Hf & Hm). apply Forall2_cons_inv_r in Hf as (p' & args'' & Hp' & Hf & ->).
            simpl in Hm. apply andb_true_iff in Hm as [? ?]. eauto 6. }
    destruct v as [key' fields| |]; [|split; [done|by intros (? & (? & -> & _) & ?)]..].
    rewrite andb_true_iff, Hargs, bool_decide_eq_true. split.
    + intros [-> (args' & Ha & Hm)]. exists (IP_Con key' args'). split; [eauto|].
      simpl. by rewrite bool_decide_eq_true_2.
    + intros (p' & (args' & -> & Ha) & Hm). simpl in Hm.
      apply andb_true_iff in Hm as [->%bool_decide_eq_true Hm]. eauto.
  - split; [intros Hm; exists (IP_Lit value); split; [left|done]|].
    by intros (p' & ->%list_elem_of_singleton & Hm).
  - rewrite existsb_exists. setoid_rewrite list_elem_of_In. setoid_rewrite in_flat_map.
    rewrite List.Forall_forall in IH. split.
    + intros (alt & Hin & Hm). apply (IH alt Hin) in Hm as (p' & Hp' & Hm).
      exists p'. split; [|done]. exists alt. split; [done|]. by apply list_elem_of_In.
    + intros (p' & (alt & Hin & Hp') & Hm). exists alt. split; [done|].
      apply (IH alt Hin). exists p'. split; [|done]. by apply list_elem_of_In.
Qed.

(** No expansion holds an or-pattern. *)
Fixpoint or_free (p : IPat) : bool :=
  match p with
  | IP_Or _ => false
  | IP_Con _ args => forallb or_free args
  | _ => true
  end.

Lemma expand_or_free p : Forall (fun p' => or_free p' = true) (expand_or p).
Proof.
  induction p as [|key args IH|value|alts IH] using IPat_nested_ind; simpl; try by constructor.
  - apply list.Forall_forall. intros p' (args' & -> & Ha)%list_elem_of_fmap.
    apply elem_of_product in Ha. simpl. apply forallb_forall. intros p' Hp'%list_elem_of_In.
    apply list_elem_of_lookup in Hp' as [i Hi].
    destruct (Forall2_lookup_l _ _ _ _ _ Ha Hi) as (c & Hc & Hin).
    rewrite list_lookup_fmap in Hc. destruct (args !! i) as [arg|] eqn:Harg; [|done].
    injection Hc as <-. eapply list.Forall_lookup in IH; [|done].
    rewrite list.Forall_forall in IH. by apply IH.
  - apply list.Forall_forall. intros p' Hp'%list_elem_of_In.
    apply in_flat_map in Hp' as (alt & Halt & Hp').
    rewrite List.Forall_forall in IH. specialize (IH alt Halt). rewrite list.Forall_forall in IH.
    by apply IH, list_elem_of_In.
Qed.

(** ** Matrices *)

Lemma product_singletons {A} (choices : list (list A)) xs r :
  Forall2 (fun c x => c = [x]) choices xs -> foldl extend_rows [r] choices = [r ++ xs].
Proof.
  intros H. revert r. induction H as [|c x choices xs -> _ IH]; intros r; simpl; [by rewrite app_nil_r|].
  rewrite IH. by rewrite <- app_assoc.
Qed.

Lemma expand_or_idem p : or_free p = true -> expand_or p = [p].
Proof.
  induction p as [|key args IH|value|alts _] using IPat_nested_ind; simpl; try done.
  intros Hf. unfold product. rewrite (product_singletons _ args); [done|].
  induction IH as [|arg args Harg _ IH]; simpl in *; constructor;
    apply andb_true_iff in Hf as [? ?]; auto.
Qed.

Definition is_or (p : IPat) : bool := match p with IP_Or _ => true | _ => false end.

Lemma or_free_not_or p : or_free p = true -> is_or p = false.
Proof. by destruct p. Qed.

Lemma expand_not_or p p' : p' ∈ expand_or p -> is_or p' = false.
Proof.
  intros Hin. pose proof (expand_or_free p) as Hf. rewrite list.Forall_forall in Hf.
  by apply or_free_not_or, Hf.
Qed.

(** What [f] does to the or-free heads of a class, [over_heads] does to every head of it. *)
Lemma over_heads_covers (T : IPat -> Prop) f v vs (W : Prop) head :
  (forall p p', T p -> p' ∈ expand_or p -> T p') ->
  (forall p, T p -> is_or p = false -> covers (f p) vs ↔ pmatch p v = true /\ W) ->
  T head -> covers (over_heads f head) vs ↔ pmatch head v = true /\ W.
Proof.
  intros Hexp Hf HT. destruct (is_or head) eqn:Hor.
  - destruct head as [| | |alts]; try done. simpl over_heads.
    rewrite covers_bind, (expand_or_match (IP_Or alts)). split.
    + intros (p & Hp & Hc). apply Hf in Hc as [Hm HW]; [eauto|exact (Hexp (IP_Or alts) p HT Hp)|exact (expand_not_or (IP_Or alts) p Hp)].
    + intros [(p & Hp & Hm) HW]. exists p. split; [done|]. apply Hf; [exact (Hexp (IP_Or alts) p HT Hp)|exact (expand_not_or (IP_Or alts) p Hp)|done].
  - rewrite <- Hf by done. by destruct head.
Qed.

Lemma elem_of_over_heads {A} (f : IPat -> list A) head x :
  x ∈ over_heads f head -> exists p, (p = head /\ is_or p = false \/ p ∈ expand_or head) /\ x ∈ f p.
Proof.
  destruct (is_or head) eqn:Hor.
  - destruct head; try done. simpl. intros (p & Hx & Hp)%list_elem_of_bind. eauto.
  - intros Hx. exists head. split; [by left|]. by destruct head.
Qed.

(** ** Types *)

Section Typed.
Context (decls : SourceId -> TypeDecls) (adt_fields : SourceId -> string -> Ty -> nat -> list Ty).

Abbreviation sig := (signature_of decls adt_fields).
Abbreviation fields_of := (ctor_field_types decls adt_fields).

(** Inference gives a constructor as many field types as it declares. *)
Context (fields_length : forall file name ty arity, length (adt_fields file name ty arity) = arity).

(** The constructors of a union have distinct tags. *)
Definition tags_distinct : Prop := forall file name info,
  type_named (decls file) name = Some info ->
  NoDup (omap (fun c => ci_tag <$> ctor (decls file) c) (td_ctors info)).
Context (Htags : tags_distinct).

(** The values of a type: of a finite one, its constructors; of an open one, every literal
    and a value no literal is. *)
Inductive has_ty : Val -> Ty -> Prop :=
| HT_Con ty ctors c fields :
    sig ty = Sig_Finite ctors -> c ∈ ctors -> Forall2 has_ty fields (sc_fields c) ->
    has_ty (V_Con (sc_key c) fields) ty
| HT_Lit ty value :
    sig ty = Sig_Infinite -> (forall pat, value ≠ Lit_Key_Invalid pat) -> has_ty (V_Lit value) ty
| HT_Other ty : sig ty = Sig_Infinite -> has_ty V_Other ty.

(** The patterns of a type. A pattern that was invalid already matches nothing, anywhere. *)
Inductive wt_pat : IPat -> Ty -> Prop :=
| WT_Wild ty : wt_pat IP_Wild ty
| WT_Con ty ctors c args :
    sig ty = Sig_Finite ctors -> c ∈ ctors -> Forall2 wt_pat args (sc_fields c) ->
    wt_pat (IP_Con (sc_key c) args) ty
| WT_Lit ty value :
    sig ty = Sig_Infinite \/ (exists pat, value = Lit_Key_Invalid pat) -> wt_pat (IP_Lit value) ty
| WT_Or ty alts : Forall (fun alt => wt_pat alt ty) alts -> wt_pat (IP_Or alts) ty.

Definition wt_matrix (matrix : list (list IPat)) (tys : list Ty) : Prop :=
  Forall (fun row => Forall2 wt_pat row tys) matrix.

Lemma wt_expand p ty p' : wt_pat p ty -> p' ∈ expand_or p -> wt_pat p' ty.
Proof.
  revert ty p'; induction p as [|key args IH|value|alts IH] using IPat_nested_ind; intros ty p' Hwt; simpl.
  - by intros ->%list_elem_of_singleton.
  - intros (args' & -> & Ha%elem_of_product)%list_elem_of_fmap.
    inversion Hwt as [|? ctors c ? Hsig Hc Hargs| |]; subst. econstructor; [done..|].
    clear Hwt Hc. revert args' Ha. induction Hargs as [|arg t args ts Harg _ IHargs]; intros args' Ha; simpl in Ha.
    + apply Forall2_nil_inv_r in Ha as ->. constructor.
    + apply Forall2_cons_inv_r in Ha as (p' & args'' & Hp' & Ha & ->).
      apply List.Forall_cons_iff in IH as [IHarg IH]. constructor; [by eapply IHarg|by apply IHargs].
  - by intros ->%list_elem_of_singleton.
  - inversion Hwt as [| | |? ? Hall]; subst. intros (alt & Halt & Hp')%list_elem_of_In%in_flat_map.
    rewrite List.Forall_forall in IH, Hall. eapply IH; [done|by apply Hall|by apply list_elem_of_In].
Qed.

(** ** Signatures *)

Lemma elem_of_adt_ctors ty d names c :
  c ∈ adt_ctors decls adt_fields ty d names ↔ exists name info, name ∈ names /\ ctor d name = Some info
    /\ c = MkSigCtor (Key_Tag (ci_tag info)) name (fields_of ty (Key_Tag (ci_tag info)) (ci_arity info)).
Proof.
  unfold adt_ctors. rewrite list_elem_of_omap. split.
  - intros (name & Hin & Hc). destruct (ctor d name) as [info|] eqn:Hinfo; [|done].
    simpl in Hc. injection Hc as <-. eauto.
  - intros (name & info & Hin & Hinfo & ->). exists name. split; [done|]. by rewrite Hinfo.
Qed.

Lemma fields_of_length ty key arity head args :
  peel_ty ty = (head, args) -> (exists adt, head = Ty_Adt adt) -> length (fields_of ty key arity) = arity.
Proof.
  intros Hp [adt ->]. unfold ctor_field_types. rewrite Hp.
  destruct key; try apply length_replicate.
  destruct (ctor_with_tag _ _ _); [apply fields_length|apply length_replicate].
Qed.

(** What the signature of a type is, by its head. *)
Lemma sig_cases ty ctors c :
  sig ty = Sig_Finite ctors -> c ∈ ctors ->
  fields_of ty (sc_key c) (length (sc_fields c)) = sc_fields c
  /\ forall c', c' ∈ ctors -> sc_key c' = sc_key c -> c' = c.
Proof.
  unfold signature_of. destruct (peel_ty ty) as [head args] eqn:Hp. intros Hsig Hc.
  assert (forall key arity, (match head with Ty_Adt _ => False | _ => True end) ->
    fields_of ty key arity = match head, key with
      | Ty_Con Con_List, Key_Tag t =>
          if bool_decide (t = CONS_TAG) then
            let elem := default Ty_Error (hd_error args) in [elem; ty_list elem]
          else replicate arity Ty_Error
      | Ty_Tuple elems, Key_Tuple => elems
      | Ty_Record fields _, Key_Record => fields.*2
      | _, _ => replicate arity Ty_Error
      end) as Hfields.
  { intros key arity Hh. unfold ctor_field_types. rewrite Hp. by destruct head as [|[]| | | | | | | | |]. }
  destruct head as [|con|adt| | | | |elems|fields tail| |]; try done.
  - destruct con; try done; injection Hsig as <-;
      apply elem_of_cons in Hc as [->|Hc%list_elem_of_singleton]; subst; (split; [by rewrite Hfields|]);
      intros c' [->|Hc'%list_elem_of_singleton]%elem_of_cons; subst; done.
  - destruct (type_named _ _) as [info|] eqn:Hinfo; [|done].
    destruct (td_is_alias info); [done|]. injection Hsig as <-.
    apply elem_of_adt_ctors in Hc as (name & ci & Hin & Hci & ->). simpl.
    rewrite (fields_of_length _ _ _ _ _ Hp) by eauto. split; [done|].
    intros c' (name' & ci' & Hin' & Hci' & ->)%elem_of_adt_ctors [= Htag].
    pose proof (Htags _ _ _ Hinfo) as Hnd.
    assert (name' = name) as ->; [|by simplify_eq].
    clear Hinfo Hp Hfields. induction (td_ctors info) as [|n names IH]; [by apply elem_of_nil in Hin|].
    assert (forall m j, m ∈ names -> ctor (decls (adt_file adt)) m = Some j ->
      ci_tag j ∈ omap (fun c => ci_tag <$> ctor (decls (adt_file adt)) c) names) as Htag_in.
    { intros m j Hm Hj. apply list_elem_of_omap. exists m. split; [done|]. by rewrite Hj. }
    simpl in Hnd. apply elem_of_cons in Hin as [->|Hin], Hin' as [->|Hin']; [done|..].
    + rewrite Hci in Hnd. simpl in Hnd. apply NoDup_cons in Hnd as [Hnd _].
      destruct Hnd. rewrite <- Htag. by eapply Htag_in.
    + rewrite Hci' in Hnd. simpl in Hnd. apply NoDup_cons in Hnd as [Hnd _].
      destruct Hnd. rewrite Htag. by eapply Htag_in.
    + destruct (ctor _ n); simpl in Hnd; [apply NoDup_cons in Hnd as [_ Hnd]|]; by apply IH.
  - injection Hsig as <-. apply list_elem_of_singleton in Hc as ->. split; [by rewrite Hfields|].
    by intros c' ->%list_elem_of_singleton.
  - injection Hsig as <-. apply list_elem_of_singleton in Hc as ->. split; [by rewrite Hfields|].
    by intros c' ->%list_elem_of_singleton.
  - injection Hsig as <-. apply list_elem_of_singleton in Hc as ->. split; [by rewrite Hfields|].
    by intros c' ->%list_elem_of_singleton.
Qed.

Lemma sig_fields ty ctors c :
  sig ty = Sig_Finite ctors -> c ∈ ctors -> fields_of ty (sc_key c) (length (sc_fields c)) = sc_fields c.
Proof. intros. by eapply sig_cases. Qed.

Lemma sig_unique ty ctors c c' :
  sig ty = Sig_Finite ctors -> c ∈ ctors -> c' ∈ ctors -> sc_key c' = sc_key c -> c' = c.
Proof. intros Hsig Hc. by apply (sig_cases ty ctors c). Qed.
(** ** Specialised and default matrices *)

Lemma covers_matrix (f : list IPat -> list (list IPat)) matrix vs vs' :
  (forall row, row ∈ matrix -> covers (f row) vs ↔ row_match row vs' = true) ->
  covers (matrix ≫= f) vs ↔ covers matrix vs'.
Proof.
  intros Hf. rewrite covers_bind. unfold covers at 2. split.
  - intros (row & Hin & Hc). exists row. split; [done|]. by apply Hf.
  - intros (row & Hin & Hm). exists row. split; [done|]. by apply Hf.
Qed.

Lemma wt_row matrix ty tys row :
  wt_matrix matrix (ty :: tys) -> row ∈ matrix ->
  exists head rest, row = head :: rest /\ wt_pat head ty /\ Forall2 wt_pat rest tys.
Proof.
  intros Hm Hin. unfold wt_matrix in Hm. rewrite list.Forall_forall in Hm. specialize (Hm row Hin).
  apply Forall2_cons_inv_r in Hm as (head & rest & ? & ? & ->). eauto.
Qed.

Lemma specialize_covers matrix ty tys ctors c fields ws :
  wt_matrix matrix (ty :: tys) -> sig ty = Sig_Finite ctors -> c ∈ ctors ->
  length fields = length (sc_fields c) ->
  covers (specialize matrix (sc_key c) (length (sc_fields c))) (fields ++ ws)
  ↔ covers matrix (V_Con (sc_key c) fields :: ws).
Proof.
  intros Hwt Hsig Hc Hlen. apply covers_matrix. intros row Hin.
  destruct (wt_row _ _ _ _ Hwt Hin) as (head & rest & -> & Hhead & Hrest).
  unfold row_match at 1. simpl all2. rewrite andb_true_iff.
  apply (over_heads_covers (fun p => wt_pat p ty)); [intros; by eapply wt_expand| |done].
  intros p Hp Hor. destruct p as [|key args|value|]; simpl; [..|done].
  - rewrite covers_cons. unfold row_match. rewrite all2_app by (by rewrite length_replicate).
    fold (row_match (replicate (length (sc_fields c)) IP_Wild) fields).
    rewrite row_match_wild, bool_decide_eq_true_2 by done. simpl. pose proof (covers_nil (fields ++ ws)). tauto.
  - inversion Hp as [|? ctors' c' ? Hsig' Hc' Hargs| |]; subst. rewrite Hsig in Hsig'. injection Hsig' as <-.
    rewrite andb_true_iff. case_bool_decide as Hk.
    + assert (c' = c) as -> by (by eapply sig_unique).
      rewrite covers_cons. unfold row_match.
      rewrite all2_app by (rewrite Hlen; by eapply Forall2_length).
      rewrite andb_true_iff. pose proof (covers_nil (fields ++ ws)). tauto.
    + split; [by intros ?%covers_nil|]. by intros [[? _] _].
  - split; [by intros ?%covers_nil|]. by intros [? _].
Qed.

Lemma specialize_lit_covers matrix value ws :
  covers (specialize_lit matrix value) ws ↔ covers matrix (V_Lit value :: ws).
Proof.
  apply covers_matrix. intros [|head rest] _; simpl; [split; [by intros ?%covers_nil|done]|].
  unfold row_match at 1. simpl all2. rewrite andb_true_iff.
  apply (over_heads_covers (fun _ => True)); [done| |done].
  intros p _ Hor. destruct p as [|key args|v|]; simpl; [..|done].
  - rewrite covers_cons. pose proof (covers_nil ws). unfold row_match. tauto.
  - split; [by intros ?%covers_nil|]. by intros [? _].
  - case_bool_decide; [|split; [by intros ?%covers_nil|by intros [? _]]].
    rewrite covers_cons. pose proof (covers_nil ws). unfold row_match. tauto.
Qed.

Lemma default_matrix_done matrix d :
  default_matrix matrix = Done d ->
  d = (matrix ≫= fun row => match row with [] => [] | head :: rest => over_heads (default_head rest) head end).
Proof.
  revert d; induction matrix as [|[|head rest] matrix IH]; intros d; simpl; [by intros [= <-]|done|].
  destruct (default_matrix matrix) as [out| |]; simpl; [|done..].
  intros [= <-]. by rewrite (IH out eq_refl).
Qed.

Lemma default_covers matrix d v ws :
  default_matrix matrix = Done d ->
  (covers d ws -> covers matrix (v :: ws))
  /\ ((forall head rest p, head :: rest ∈ matrix -> p = head \/ p ∈ expand_or head ->
        is_or p = false -> p ≠ IP_Wild -> pmatch p v = false) ->
      covers matrix (v :: ws) -> covers d ws).
Proof.
  intros ->%default_matrix_done. split.
  - rewrite covers_bind. intros ([|head rest] & Hin & Hc); [by apply covers_nil in Hc|].
    exists (head :: rest). split; [done|]. unfold row_match. simpl. apply andb_true_iff.
    destruct Hc as (row & (p & Hp & Hrow)%elem_of_over_heads & Hm).
    destruct p; simpl in Hrow; try by apply elem_of_nil in Hrow.
    apply list_elem_of_singleton in Hrow as ->. split; [|done].
    destruct Hp as [[<- _]|Hp]; [done|]. apply expand_or_match. by exists IP_Wild.
  - intros Hfresh (row & Hin & Hm). apply covers_bind.
    destruct row as [|head rest]; [done|]. exists (head :: rest). split; [done|].
    apply andb_true_iff in Hm as [Hh Hr].
    apply (over_heads_covers (fun p => p = head \/ p ∈ expand_or head) _ v _ (row_match rest ws = true));
      [| |by left|done].
    + intros p p' [->|Hp] Hp'; [by right|]. right. pose proof (expand_or_free head) as Hf.
      rewrite list.Forall_forall in Hf. rewrite expand_or_idem in Hp' by (by apply Hf).
      by apply list_elem_of_singleton in Hp' as ->.
    + intros p Hp Hor. destruct p as [|key args|value|]; simpl default_head; [..|done].
      * rewrite covers_cons. pose proof (covers_nil ws). simpl. tauto.
      * rewrite (Hfresh head rest (IP_Con key args)) by done. split; [by intros ?%covers_nil|by intros [? _]].
      * rewrite (Hfresh head rest (IP_Lit value)) by done. split; [by intros ?%covers_nil|by intros [? _]].
Qed.
(** ** Typing of the smaller matrices *)

Lemma wt_bind (f : list IPat -> list (list IPat)) matrix tys :
  (forall row row', row ∈ matrix -> row' ∈ f row -> Forall2 wt_pat row' tys) ->
  wt_matrix (matrix ≫= f) tys.
Proof.
  intros Hf. apply list.Forall_forall. intros row' (row & Hr & Hin)%list_elem_of_bind. by eapply Hf.
Qed.

Lemma wt_over_heads (f : list IPat -> IPat -> list (list IPat)) matrix ty tys tys' :
  wt_matrix matrix (ty :: tys) ->
  (forall rest p row', Forall2 wt_pat rest tys -> wt_pat p ty -> is_or p = false ->
    row' ∈ f rest p -> Forall2 wt_pat row' tys') ->
  wt_matrix (matrix ≫= fun row =>
    match row with [] => [] | head :: rest => over_heads (f rest) head end) tys'.
Proof.
  intros Hwt Hf. apply wt_bind. intros row row' Hin Hr.
  destruct (wt_row _ _ _ _ Hwt Hin) as (head & rest & -> & Hhead & Hrest).
  apply elem_of_over_heads in Hr as (p & [[-> Hor]|Hp] & Hr).
  - by eapply Hf.
  - eapply Hf; [done|by eapply wt_expand|by eapply expand_not_or|done].
Qed.

Lemma wt_replicate tys : Forall2 wt_pat (replicate (length tys) IP_Wild) tys.
Proof. induction tys; simpl; constructor; [constructor|done]. Qed.

Lemma wt_specialize matrix ty tys ctors c :
  wt_matrix matrix (ty :: tys) -> sig ty = Sig_Finite ctors -> c ∈ ctors ->
  wt_matrix (specialize matrix (sc_key c) (length (sc_fields c))) (sc_fields c ++ tys).
Proof.
  intros Hwt Hsig Hc. eapply wt_over_heads; [done|]. intros rest p row' Hrest Hp _ Hr.
  destruct p as [|key args|value|]; simpl in Hr; try by apply elem_of_nil in Hr.
  - apply list_elem_of_singleton in Hr as ->. apply Forall2_app; [apply wt_replicate|done].
  - case_bool_decide as Hk; [|by apply elem_of_nil in Hr]. apply list_elem_of_singleton in Hr as ->.
    inversion Hp as [|? ctors' c' ? Hsig' Hc' Hargs| |]; subst. rewrite Hsig in Hsig'. injection Hsig' as <-.
    assert (c' = c) as -> by (by eapply sig_unique). by apply Forall2_app.
Qed.

Lemma wt_specialize_lit matrix ty tys value :
  wt_matrix matrix (ty :: tys) -> wt_matrix (specialize_lit matrix value) tys.
Proof.
  intros Hwt. eapply wt_over_heads; [done|]. intros rest p row' Hrest _ _ Hr.
  destruct p; simpl in Hr; repeat case_match; try by apply elem_of_nil in Hr.
  all: by apply list_elem_of_singleton in Hr as ->.
Qed.

Lemma wt_default matrix ty tys d :
  wt_matrix matrix (ty :: tys) -> default_matrix matrix = Done d -> wt_matrix d tys.
Proof.
  intros Hwt ->%default_matrix_done. eapply (wt_over_heads default_head); [done|].
  intros rest p row' Hrest _ _ Hr. destruct p; simpl in Hr; try by apply elem_of_nil in Hr.
  by apply list_elem_of_singleton in Hr as ->.
Qed.

Lemma default_matrix_total matrix ty tys :
  wt_matrix matrix (ty :: tys) -> exists d, default_matrix matrix = Done d.
Proof.
  induction matrix as [|row matrix IH]; intros Hwt; [by eexists|].
  apply List.Forall_cons_iff in Hwt as [Hrow Hwt].
  apply Forall2_cons_inv_r in Hrow as (head & rest & _ & _ & ->).
  destruct (IH Hwt) as [d Hd]. simpl. rewrite Hd. by eexists.
Qed.

(** The constructor case continues at the signature's field types. *)
Lemma con_types ty ctors c args :
  sig ty = Sig_Finite ctors -> c ∈ ctors -> Forall2 wt_pat args (sc_fields c) ->
  length args = length (sc_fields c) /\ fields_of ty (sc_key c) (length args) = sc_fields c.
Proof.
  intros Hsig Hc Hargs. pose proof (Forall2_length _ _ _ Hargs) as Hlen.
  split; [done|]. rewrite Hlen. by eapply sig_fields.
Qed.

Lemma any_false {A} (f : A -> run bool) xs : any f xs = Done false -> forall x, x ∈ xs -> f x = Done false.
Proof.
  induction xs as [|x xs IH]; simpl; [by intros _ ? ?%elem_of_nil|].
  destruct (f x) as [b| |] eqn:Hx; simpl; [|done..]. destruct b; [done|].
  intros Hany y [->|Hy]%elem_of_cons; auto.
Qed.

Lemma any_true {A} (f : A -> run bool) xs : any f xs = Done true -> exists x, x ∈ xs /\ f x = Done true.
Proof.
  induction xs as [|x xs IH]; simpl; [done|].
  destruct (f x) as [b| |] eqn:Hx; simpl; [|done..]. destruct b.
  - intros _. exists x. split; [left|done].
  - intros (y & Hy & ?)%IH. exists y. split; [by right|done].
Qed.

(** ** A row that is not useful is covered *)

Lemma has_ty_finite v ty ctors :
  has_ty v ty -> sig ty = Sig_Finite ctors ->
  exists c fields, c ∈ ctors /\ v = V_Con (sc_key c) fields /\ Forall2 has_ty fields (sc_fields c).
Proof.
  intros Hv Hsig. inversion Hv as [? ctors' c fields Hs Hc Hf| |]; subst; try congruence.
  rewrite Hsig in Hs. injection Hs as <-. eauto 6.
Qed.

Lemma row_match_app args rest fields ws :
  length args = length fields ->
  row_match (args ++ rest) (fields ++ ws) = row_match args fields && row_match rest ws.
Proof. apply all2_app. Qed.

Lemma useful_covered fuel matrix q tys :
  useful decls adt_fields fuel matrix q tys = Done false ->
  wt_matrix matrix tys -> Forall2 wt_pat q tys ->
  forall vs, Forall2 has_ty vs tys -> row_match q vs = true -> covers matrix vs.
Proof.
  revert matrix q tys; induction fuel as [|fuel IH]; intros matrix q tys Hu Hwt Hq vs Hvs Hm; [done|].
  destruct Hq as [|head ty rest tys Hhead Hrest].
  { simpl in Hu. injection Hu as Hu. apply bool_decide_eq_false in Hu.
    apply Forall2_nil_inv_r in Hvs as ->. destruct matrix as [|row matrix]; [done|].
    exists row. split; [left|]. apply List.Forall_cons_iff in Hwt as [Hrow _].
    by apply Forall2_nil_inv_r in Hrow as ->. }
  apply Forall2_cons_inv_r in Hvs as (v & ws & Hv & Hws & ->).
  unfold row_match in Hm. simpl in Hm. apply andb_true_iff in Hm as [Hmh Hmr].
  assert (forall d, default_matrix matrix = Done d -> useful decls adt_fields fuel d rest tys = Done false ->
    covers matrix (v :: ws)) as Hdefault.
  { intros d Hd Hud. apply (proj1 (default_covers _ _ v ws Hd)). eapply IH; [done|by eapply wt_default|done..]. }
  destruct head as [|key args|value|alts]; simpl in Hu.
  - assert (forall r, (d ← default_matrix matrix; useful decls adt_fields fuel d rest tys) = r ->
      r = Done false -> covers matrix (v :: ws)) as Hdefault'.
    { intros r <-. destruct (default_matrix matrix) as [d| |] eqn:Hd; simpl; [|done..]. by apply Hdefault. }
    destruct (sig ty) as [ctors|] eqn:Hsig; [|by eapply Hdefault'].
    destruct (forallb _ ctors); [|by eapply Hdefault'].
    destruct (has_ty_finite _ _ _ Hv Hsig) as (c & fields & Hc & -> & Hfields).
    apply any_false with (x := c) in Hu; [|done].
    pose proof (Forall2_length _ _ _ Hfields) as Hlen.
    eapply specialize_covers; [done..|]. eapply IH; [done|by eapply wt_specialize| | |].
    + apply Forall2_app; [apply wt_replicate|done].
    + by apply Forall2_app.
    + rewrite row_match_app by (by rewrite length_replicate).
      rewrite row_match_wild, bool_decide_eq_true_2 by done. done.
  - inversion Hhead as [|? ctors c ? Hsig Hc Hargs| |]; subst.
    destruct (con_types _ _ _ _ Hsig Hc Hargs) as [Hlen Hty]. rewrite Hty, Hlen in Hu.
    destruct (has_ty_finite _ _ _ Hv Hsig) as (c' & fields & Hc' & -> & Hfields).
    simpl in Hmh. apply andb_true_iff in Hmh as [Hk%bool_decide_eq_true Hmf].
    assert (c' = c) as -> by (by eapply sig_unique).
    eapply specialize_covers; [done..|by eapply Forall2_length|].
    eapply IH; [done|by eapply wt_specialize|by apply Forall2_app|by apply Forall2_app|].
    rewrite row_match_app by (by eapply all2_length). by apply andb_true_iff.
  - destruct v as [|value'|]; try done. simpl in Hmh. apply bool_decide_eq_true in Hmh as ->.
    apply specialize_lit_covers. eapply IH; [done|by eapply wt_specialize_lit|done..].
  - simpl in Hmh. apply existsb_exists in Hmh as (alt & Halt%list_elem_of_In & Hma).
    apply any_false with (x := alt) in Hu; [|done].
    eapply IH; [done|done| |by constructor|].
    + constructor; [|done]. inversion Hhead as [| | |? ? Hall]; subst.
      rewrite list.Forall_forall in Hall. by apply Hall.
    + unfold row_match. simpl. by rewrite Hma.
Qed.
(** ** A useful row leaves a value uncovered *)

Lemma collect_keys_mono p out key : key ∈ out -> key ∈ collect_keys p out.
Proof.
  revert out; induction p as [|k args _|value|alts IH] using IPat_nested_ind; intros out Hin; simpl; try done.
  - case_bool_decide; [done|]. apply elem_of_app. by left.
  - revert out Hin. induction IH as [|alt alts Halt _ IH]; intros out Hin; simpl; [done|]. by apply IH, Halt.
Qed.

Lemma collect_keys_in p p' key args out :
  p' = p \/ p' ∈ expand_or p -> p' = IP_Con key args -> key ∈ collect_keys p out.
Proof.
  revert out; induction p as [|k args' _|value|alts IH] using IPat_nested_ind; intros out Hp' ->; simpl in *.
  - by destruct Hp' as [?|?%list_elem_of_singleton].
  - assert (key = k) as ->.
    { destruct Hp' as [?|(args'' & ? & _)%list_elem_of_fmap]; congruence. }
    case_bool_decide; [done|]. apply elem_of_app. right. left.
  - by destruct Hp' as [?|?%list_elem_of_singleton].
  - destruct Hp' as [?|Hin]; [done|]. revert out Hin.
    induction IH as [|alt alts Halt _ IH]; intros out Hin; simpl in *; [by apply elem_of_nil in Hin|].
    apply elem_of_app in Hin as [Hin|Hin]; [|by apply IH].
    assert (key ∈ collect_keys alt out) as Hk by (apply Halt; [by right|done]).
    clear -Hk. revert Hk. generalize (collect_keys alt out). clear out.
    induction alts as [|a alts IH]; intros out Hk; simpl; [done|]. by apply IH, collect_keys_mono.
Qed.

Lemma head_keys_from matrix keys key :
  key ∈ keys \/ (exists head rest p args, head :: rest ∈ matrix /\ (p = head \/ p ∈ expand_or head)
    /\ p = IP_Con key args) ->
  key ∈ foldl (fun keys row => match row with first :: _ => collect_keys first keys | [] => keys end) keys matrix.
Proof.
  revert keys; induction matrix as [|row matrix IH]; intros keys Hin; simpl.
  - by destruct Hin as [?|(? & ? & ? & ? & ?%elem_of_nil & _)].
  - apply IH. destruct Hin as [Hin|(head & rest & p & args & [<-|Hr]%elem_of_cons & Hp & Heq)].
    + left. destruct row; [done|by apply collect_keys_mono].
    + left. by eapply collect_keys_in.
    + right. eauto 8.
Qed.

Lemma head_keys_in matrix head rest p key args :
  head :: rest ∈ matrix -> p = head \/ p ∈ expand_or head -> p = IP_Con key args -> key ∈ head_keys matrix.
Proof. intros. apply head_keys_from. right. eauto 8. Qed.

(** No literal of the pattern failed to decode. *)
Fixpoint valid_pat (p : IPat) : bool :=
  match p with
  | IP_Wild => true
  | IP_Con _ args => forallb valid_pat args
  | IP_Lit value => match value with Lit_Key_Invalid _ => false | _ => true end
  | IP_Or alts => forallb valid_pat alts
  end.

(** Every type has a value. *)
Definition inhabited_types : Prop := forall ty, exists v, has_ty v ty.

Lemma inhabited_fields tys : inhabited_types -> exists vs, Forall2 has_ty vs tys.
Proof.
  intros Hinh. induction tys as [|ty tys [vs Hvs]]; [by exists []|].
  destruct (Hinh ty) as [v Hv]. exists (v :: vs). by constructor.
Qed.

Definition escapes (matrix : list (list IPat)) (q : list IPat) (tys : list Ty) : Prop :=
  exists vs, Forall2 has_ty vs tys /\ row_match q vs = true /\ ~ covers matrix vs.

(** A value of the smaller vector gives one of the larger. *)
Lemma escapes_con matrix rest ty tys ctors c args head :
  wt_matrix matrix (ty :: tys) -> sig ty = Sig_Finite ctors -> c ∈ ctors ->
  length args = length (sc_fields c) ->
  (forall fields, row_match args fields = true -> pmatch head (V_Con (sc_key c) fields) = true) ->
  escapes (specialize matrix (sc_key c) (length (sc_fields c))) (args ++ rest) (sc_fields c ++ tys) ->
  escapes matrix (head :: rest) (ty :: tys).
Proof.
  intros Hwt Hsig Hc Hlen Hhead (vs & Hvs & Hm & Hn).
  apply Forall2_app_inv_r in Hvs as (fields & ws & Hfields & Hws & ->).
  pose proof (Forall2_length _ _ _ Hfields) as Hflen.
  rewrite row_match_app in Hm by congruence. apply andb_true_iff in Hm as [Hma Hmr].
  exists (V_Con (sc_key c) fields :: ws). split; [constructor; [by econstructor|done]|]. split.
  - unfold row_match. simpl. by rewrite Hhead.
  - intros Hcov. apply Hn. by eapply specialize_covers.
Qed.

Lemma escapes_default matrix d rest ty tys v :
  default_matrix matrix = Done d -> has_ty v ty ->
  (forall head rest p, head :: rest ∈ matrix -> p = head \/ p ∈ expand_or head ->
    is_or p = false -> p ≠ IP_Wild -> pmatch p v = false) ->
  escapes d rest tys -> escapes matrix (IP_Wild :: rest) (ty :: tys).
Proof.
  intros Hd Hv Hfresh (ws & Hws & Hm & Hn). exists (v :: ws).
  split; [by constructor|]. split; [done|]. intros Hcov. apply Hn.
  by apply (proj2 (default_covers _ _ v ws Hd)).
Qed.

Lemma useful_escapes fuel matrix q tys :
  inhabited_types -> useful decls adt_fields fuel matrix q tys = Done true ->
  wt_matrix matrix tys -> Forall2 wt_pat q tys -> forallb valid_pat q = true -> escapes matrix q tys.
Proof.
  intros Hinh. revert matrix q tys; induction fuel as [|fuel IH]; intros matrix q tys Hu Hwt Hq Hval; [done|].
  destruct Hq as [|head ty rest tys Hhead Hrest].
  { simpl in Hu. injection Hu as Hu. apply bool_decide_eq_true in Hu as ->.
    exists []. split; [constructor|]. split; [done|apply covers_nil]. }
  simpl in Hval. apply andb_true_iff in Hval as [Hvh Hvr].
  destruct head as [|key args|value|alts]; simpl in Hu.
  - assert (forall v, has_ty v ty -> (forall head rest p, head :: rest ∈ matrix -> p = head \/ p ∈ expand_or head ->
        is_or p = false -> p ≠ IP_Wild -> pmatch p v = false) ->
      (d ← default_matrix matrix; useful decls adt_fields fuel d rest tys) = Done true ->
      escapes matrix (IP_Wild :: rest) (ty :: tys)) as Hdefault.
    { intros v Hv Hfresh Hd. destruct (default_matrix matrix) as [d| |] eqn:Hdm; simpl in Hd; [|done..].
      eapply escapes_default; [done..|]. eapply IH; [done|by eapply wt_default|done..]. }
    destruct (sig ty) as [ctors|] eqn:Hsig.
    + destruct (forallb _ ctors) eqn:Hcomplete.
      * apply any_true in Hu as (c & Hc & Hu).
        apply (escapes_con matrix rest ty tys ctors c (replicate (length (sc_fields c)) IP_Wild)); try done.
        { apply length_replicate. }
        eapply IH; [done|by eapply wt_specialize| |].
        -- apply Forall2_app; [apply wt_replicate|done].
        -- rewrite forallb_app, Hvr, andb_true_r. apply forallb_forall.
           intros p Hp%list_elem_of_In.
           by apply elem_of_replicate_inv in Hp as ->.
      * assert (exists c, c ∈ ctors /\ sc_key c ∉ head_keys matrix) as (c & Hc & Hk).
        { clear -Hcomplete. induction ctors as [|c ctors IH]; [done|]. simpl in Hcomplete.
          case_bool_decide as Hk; [|exists c; split; [left|done]].
          destruct (IH Hcomplete) as (c' & ? & ?). exists c'. split; [by right|done]. }
        destruct (inhabited_fields (sc_fields c) Hinh) as [fields Hfields].
        eapply (Hdefault (V_Con (sc_key c) fields)); [by econstructor| |done].
        intros head rest' p Hin Hp Hor Hw. destruct p as [|key args| |]; simpl; try done.
        rewrite bool_decide_eq_false_2; [done|]. intros ->. by eapply Hk, head_keys_in.
    + eapply (Hdefault V_Other); [by constructor| |done].
      intros head rest' p Hin Hp Hor Hw. by destruct p.
  - inversion Hhead as [|? ctors c ? Hsig Hc Hargs| |]; subst.
    destruct (con_types _ _ _ _ Hsig Hc Hargs) as [Hlen Hty]. rewrite Hty, Hlen in Hu.
    eapply escapes_con; [done..| |].
    + intros fields Hm. simpl. by rewrite bool_decide_eq_true_2.
    + eapply IH; [done|by eapply wt_specialize|by apply Forall2_app|].
      rewrite forallb_app. simpl in Hvh. by rewrite Hvh.
  - apply IH in Hu as (ws & Hws & Hm & Hn); [|by eapply wt_specialize_lit|done..].
    assert (sig ty = Sig_Infinite) as Hsig.
    { inversion Hhead as [| |? ? [Hs|[pat ->]]|]; subst; done. }
    exists (V_Lit value :: ws). split; [constructor; [|done]|].
    + apply HT_Lit; [done|]. intros pat ->. done.
    + split; [unfold row_match; simpl; by rewrite bool_decide_eq_true_2|].
      intros Hcov. by apply Hn, specialize_lit_covers.
  - apply any_true in Hu as (alt & Halt & Hu).
    inversion Hhead as [| | |? ? Hall]; subst. rewrite list.Forall_forall in Hall.
    simpl in Hvh. rewrite forallb_forall in Hvh.
    apply IH in Hu as (vs & Hvs & Hm & Hn); [|done| |].
    + exists vs. split; [done|]. split; [|done]. destruct vs as [|v ws]; [done|].
      unfold row_match in *. simpl in *. apply andb_true_iff in Hm as [Hma Hmr]. rewrite Hmr, andb_true_r.
      apply existsb_exists. exists alt. split; [by apply list_elem_of_In|done].
    + constructor; [by apply Hall|done].
    + simpl. rewrite Hvr, andb_true_r. by apply Hvh, list_elem_of_In.
Qed.
End Typed.
