(* ===== verification/ExhaustiveProps.v ===== *)
(** * The check of matches decides coverage

    The usefulness recursion of fai-types' [exhaustive.rs] terminates on typed or-free
    matrices, and [check_match] reports the arms and the matches it should. *)

From S2P Require Import Prelude Types Niche Exhaustive ExhaustiveSem.
From stdpp Require Import gmap list strings.
From Stdlib Require Import ZArith Lia.

(** ** Weights: the constructors and literals of a matrix *)

Fixpoint weight (p : IPat) : nat :=
  match p with
  | IP_Con _ args => S (list_sum (map weight args))
  | IP_Lit _ => 1
  | _ => 0
  end.
Definition row_weight (row : list IPat) : nat := list_sum (map weight row).
Definition matrix_weight (matrix : list (list IPat)) : nat := list_sum (map row_weight matrix).

Lemma list_sum_app l l' : list_sum (l ++ l') = list_sum l + list_sum l'.
Proof. induction l; simpl; lia. Qed.

Lemma row_weight_app row row' : row_weight (row ++ row') = row_weight row + row_weight row'.
Proof. unfold row_weight. by rewrite map_app, list_sum_app. Qed.

Lemma matrix_weight_app m m' : matrix_weight (m ++ m') = matrix_weight m + matrix_weight m'.
Proof. unfold matrix_weight. by rewrite map_app, list_sum_app. Qed.

Lemma row_weight_cons p row : row_weight (p :: row) = weight p + row_weight row.
Proof. done. Qed.

Lemma matrix_weight_one row : matrix_weight [row] = row_weight row.
Proof. unfold matrix_weight. simpl. lia. Qed.

Lemma matrix_weight_nil : matrix_weight [] = 0.
Proof. done. Qed.

Lemma weight_con key args : weight (IP_Con key args) = S (row_weight args).
Proof. done. Qed.

Create Rewrite HintDb weights.
#[local] Hint Rewrite row_weight_app matrix_weight_app row_weight_cons matrix_weight_one
  matrix_weight_nil weight_con : weights.
Ltac weights := autorewrite with weights; simpl weight; lia.

Lemma row_weight_wild n : row_weight (replicate n IP_Wild) = 0.
Proof. unfold row_weight. by induction n. Qed.

Definition row_or_free (row : list IPat) : Prop := forallb or_free row = true.
Definition matrix_or_free (matrix : list (list IPat)) : Prop := Forall row_or_free matrix.

Lemma or_free_wild n : forallb or_free (replicate n IP_Wild) = true.
Proof. by induction n. Qed.

(** The rows a head of an or-free row becomes weigh no more than the row. *)
Lemma over_heads_weight (f : list IPat -> IPat -> list (list IPat)) matrix :
  matrix_or_free matrix ->
  (forall rest p, or_free p = true -> row_or_free rest -> matrix_weight (f rest p) <= row_weight (p :: rest)
    /\ matrix_or_free (f rest p)) ->
  let smaller := matrix ≫= fun row => match row with [] => [] | head :: rest => over_heads (f rest) head end in
  matrix_weight smaller <= matrix_weight matrix /\ matrix_or_free smaller
  /\ ((exists p rest, p :: rest ∈ matrix /\ matrix_weight (f rest p) < row_weight (p :: rest)) ->
      matrix_weight smaller < matrix_weight matrix).
Proof.
  intros Hof Hf. cbv zeta. induction Hof as [|row matrix Hrow Hof IH]; [|rewrite bind_cons].
  { split; [done|]. split; [constructor|]. by intros (? & ? & ?%elem_of_nil & _). }
  assert (matrix_weight (match row with [] => [] | head :: rest => over_heads (f rest) head end) <= row_weight row
    /\ matrix_or_free (match row with [] => [] | head :: rest => over_heads (f rest) head end)) as [Hw Ho].
  { destruct row as [|p rest]; [split; [done|constructor]|].
    unfold row_or_free in Hrow. simpl in Hrow. apply andb_true_iff in Hrow as [Hp Hrest].
    specialize (Hf rest p Hp Hrest). by destruct p. }
  destruct IH as (IHw & IHo & IHs). rewrite matrix_weight_app.
  change (matrix_weight (row :: matrix)) with (row_weight row + matrix_weight matrix).
  split; [lia|]. split; [by apply Forall_app|].
  intros (p & rest & [<-|Hin]%elem_of_cons & Hlt); [|specialize (IHs ltac:(eauto)); lia].
  assert (over_heads (f rest) p = f rest p) as ->; [|lia].
  unfold row_or_free in Hrow. simpl in Hrow. apply andb_true_iff in Hrow as [Hp _]. by destruct p.
Qed.

Lemma specialize_weight matrix key arity :
  matrix_or_free matrix ->
  matrix_weight (specialize matrix key arity) <= matrix_weight matrix
  /\ matrix_or_free (specialize matrix key arity)
  /\ (key ∈ head_keys matrix -> matrix_weight (specialize matrix key arity) < matrix_weight matrix).
Proof.
  intros Hof. destruct (over_heads_weight (specialize_head key arity) matrix Hof) as (Hw & Ho & Hs).
  - intros rest p Hp Hrest. unfold row_or_free in *. destruct p as [|k args|value|]; simpl in *; [..|done].
    + split; [|constructor; [|constructor]].
      * rewrite matrix_weight_one, row_weight_app, row_weight_wild. weights.
      * unfold row_or_free. by rewrite forallb_app, Hrest, or_free_wild.
    + case_bool_decide; [|split; [weights|constructor]].
      split; [|constructor; [|constructor]].
      * weights.
      * unfold row_or_free. by rewrite forallb_app, Hp.
    + split; [weights|constructor].
  - split; [done|]. split; [done|]. intros Hk. apply Hs. clear Hw Ho Hs.
    assert (exists args rest, IP_Con key args :: rest ∈ matrix) as (args & rest & Hin).
    { unfold head_keys in Hk. cut (key ∈ [] \/ exists args rest, IP_Con key args :: rest ∈ matrix).
      { by intros [?%elem_of_nil|?]. }
      revert Hk. generalize (@nil ConKey). induction Hof as [|row matrix Hrow Hof IH]; intros keys; simpl; [by left|].
      intros Hk%IH. destruct Hk as [Hk|(args & rest & Hin)]; [|right; exists args, rest; by right].
      destruct row as [|p rest]; [by left|].
      unfold row_or_free in Hrow. simpl in Hrow. destruct p as [|k args| |]; simpl in *; try by left.
      case_bool_decide; [by left|]. apply elem_of_app in Hk as [Hk|Hk%list_elem_of_singleton]; [by left|subst].
      right. exists args, rest. left. }
    exists (IP_Con key args), rest. split; [done|]. simpl. rewrite bool_decide_eq_true_2 by done.
    weights.
Qed.

Lemma specialize_lit_weight matrix value :
  matrix_or_free matrix ->
  matrix_weight (specialize_lit matrix value) <= matrix_weight matrix
  /\ matrix_or_free (specialize_lit matrix value).
Proof.
  intros Hof. destruct (over_heads_weight (specialize_lit_head value) matrix Hof) as (Hw & Ho & _); [|done].
  intros rest p Hp Hrest. destruct p; simpl specialize_lit_head; repeat case_match;
    (split; [weights|by repeat constructor]).
Qed.

Lemma default_weight matrix d :
  matrix_or_free matrix -> default_matrix matrix = Done d ->
  matrix_weight d <= matrix_weight matrix /\ matrix_or_free d.
Proof.
  intros Hof ->%default_matrix_done.
  destruct (over_heads_weight default_head matrix Hof) as (Hw & Ho & _); [|done].
  intros rest p Hp Hrest. destruct p; simpl default_head; (split; [weights|by repeat constructor]).
Qed.

(** ** Termination *)

(** From some fuel on, a computation returns the same value. *)
Definition returns {A} (f : nat -> run A) : Prop :=
  exists N a, forall fuel, N <= fuel -> f fuel = Done a.

Lemma returns_any {A} (f : nat -> A -> run bool) xs :
  (forall x, x ∈ xs -> returns (fun fuel => f fuel x)) -> returns (fun fuel => any (f fuel) xs).
Proof.
  induction xs as [|x xs IH]; intros Hf; simpl; [by exists 0, false|].
  destruct (Hf x) as (N & b & Hb); [left|].
  destruct b; [exists N, true; intros fuel Hle; by rewrite Hb|].
  destruct IH as (N' & b' & Hb'); [intros; apply Hf; by right|].
  exists (max N N'), b'. intros fuel Hle. rewrite Hb by lia. simpl. apply Hb'. lia.
Qed.

Lemma returns_bind {A B} (f : nat -> run A) (g : nat -> A -> run B) :
  returns f -> (forall a, (exists fuel, f fuel = Done a) -> returns (fun fuel => g fuel a)) ->
  returns (fun fuel => f fuel ≫= g fuel).
Proof.
  intros (N & a & Ha) Hg. destruct (Hg a) as (N' & b & Hb); [by exists N; apply Ha|].
  exists (max N N'), b. intros fuel Hle. rewrite Ha by lia. simpl. apply Hb. lia.
Qed.

Lemma returns_ret {A} (a : A) : returns (fun _ => Done a).
Proof. by exists 0, a. Qed.

(** The recursion of a fuelled function uses one unit. *)
Lemma returns_succ {A} (f : nat -> run A) : returns (fun fuel => f (S fuel)) -> returns f.
Proof. intros (N & a & Ha). exists (S N), a. intros [|fuel] Hle; [lia|]. apply Ha. lia. Qed.

Section Decides.
Context (decls : SourceId -> TypeDecls) (adt_fields : SourceId -> string -> Ty -> nat -> list Ty).
Context (fields_length : forall file name ty arity, length (adt_fields file name ty arity) = arity).
Context (Htags : tags_distinct decls).

Abbreviation sig := (signature_of decls adt_fields).
Abbreviation wt := (wt_pat decls adt_fields).
Abbreviation value_of := (has_ty decls adt_fields).

Lemma useful_returns_upto n : forall k matrix q tys,
  matrix_weight matrix + row_weight q <= n -> length q <= k ->
  matrix_or_free matrix -> row_or_free q -> wt_matrix decls adt_fields matrix tys -> Forall2 wt q tys ->
  returns (fun fuel => useful decls adt_fields fuel matrix q tys).
Proof.
  induction n as [n IHn] using lt_wf_ind. intros k. induction k as [|k IHk];
    intros matrix q tys Hn Hk Hof Hqf Hwt Hq.
  { destruct Hq; [|simpl in Hk; lia]. apply returns_succ, returns_ret. }
  destruct Hq as [|head ty rest tys Hhead Hrest]; [apply returns_succ, returns_ret|].
  unfold row_or_free in Hqf. simpl in Hqf, Hk. apply andb_true_iff in Hqf as [Hhf Hrf].
  change (row_weight (head :: rest)) with (weight head + row_weight rest) in Hn.
  apply returns_succ. cbn [useful].
  destruct head as [|key args|value|alts]; [| | |done]; simpl in Hn.
  - assert (returns (fun fuel => d ← default_matrix matrix; useful decls adt_fields fuel d rest tys)) as Hdef.
    { destruct (default_matrix_total decls adt_fields _ _ _ Hwt) as [d Hd]. rewrite Hd. simpl.
      destruct (default_weight _ _ Hof Hd) as [Hdw Hdf].
      apply IHk; [lia|lia|done|done|by eapply wt_default|done]. }
    destruct (sig ty) as [ctors|] eqn:Hsig; [|done].
    destruct (forallb _ ctors) eqn:Hcomplete; [|done].
    apply (returns_any (fun fuel c => useful decls adt_fields fuel
      (specialize matrix (sc_key c) (length (sc_fields c)))
      (replicate (length (sc_fields c)) IP_Wild ++ rest) (sc_fields c ++ tys))).
    intros c Hc. rewrite forallb_forall in Hcomplete.
    specialize (Hcomplete c (proj1 (list_elem_of_In _ _) Hc)). apply bool_decide_eq_true in Hcomplete.
    destruct (specialize_weight matrix (sc_key c) (length (sc_fields c)) Hof) as (_ & Hsf & Hlt).
    specialize (Hlt Hcomplete).
    eapply (IHn (matrix_weight (specialize matrix (sc_key c) (length (sc_fields c))) + row_weight rest));
      [lia| |reflexivity|done| |by eapply wt_specialize|].
    + by rewrite row_weight_app, row_weight_wild.
    + unfold row_or_free. by rewrite forallb_app, Hrf, or_free_wild.
    + apply Forall2_app; [apply wt_replicate|done].
  - inversion Hhead as [|? ctors c ? Hsig Hc Hargs| |]; subst.
    destruct (con_types _ _ fields_length Htags _ _ _ _ Hsig Hc Hargs) as [Hlen Hty]. rewrite Hty, Hlen.
    destruct (specialize_weight matrix (sc_key c) (length (sc_fields c)) Hof) as (Hw & Hsf & _).
    eapply (IHn (matrix_weight (specialize matrix (sc_key c) (length (sc_fields c)))
                 + row_weight (args ++ rest)));
      [|reflexivity|reflexivity|done| |by eapply wt_specialize|by apply Forall2_app].
    + rewrite row_weight_app. change (list_sum (map weight args)) with (row_weight args) in Hn. lia.
    + unfold row_or_free. rewrite forallb_app. by rewrite andb_true_iff.
  - destruct (specialize_lit_weight matrix value Hof) as [Hw Hsf].
    eapply (IHn (matrix_weight (specialize_lit matrix value) + row_weight rest));
      [lia|reflexivity|reflexivity|done|done|by eapply wt_specialize_lit|done].
Qed.

Lemma useful_returns matrix q tys :
  matrix_or_free matrix -> row_or_free q -> wt_matrix decls adt_fields matrix tys -> Forall2 wt q tys ->
  returns (fun fuel => useful decls adt_fields fuel matrix q tys).
Proof. by apply (useful_returns_upto (matrix_weight matrix + row_weight q) (length q)). Qed.

(** ** The check of one match *)

(** The rows of an arm, and of all arms. *)
Definition arm_rows (arm : IPat) : list (list IPat) := (fun row => [row]) <$> expand_or arm.
Definition arms_rows (arms : list IPat) : list (list IPat) := arms ≫= arm_rows.

Lemma arm_rows_covers arm v : covers (arm_rows arm) [v] ↔ pmatch arm v = true.
Proof.
  unfold arm_rows, covers. rewrite expand_or_match. setoid_rewrite list_elem_of_fmap. split.
  - intros (row & (p & -> & Hp) & Hm). exists p. split; [done|].
    unfold row_match in Hm. simpl in Hm. by rewrite andb_true_r in Hm.
  - intros (p & Hp & Hm). exists [p]. split; [eauto|]. unfold row_match. simpl. by rewrite Hm.
Qed.

Lemma arms_rows_covers arms v :
  covers (arms_rows arms) [v] ↔ exists arm, arm ∈ arms /\ pmatch arm v = true.
Proof.
  unfold arms_rows. rewrite covers_bind. by setoid_rewrite arm_rows_covers.
Qed.

Lemma arm_rows_typed arm ty : wt arm ty ->
  matrix_or_free (arm_rows arm) /\ wt_matrix decls adt_fields (arm_rows arm) [ty].
Proof.
  intros Hwt. split; apply list.Forall_forall; intros row (p & -> & Hp)%list_elem_of_fmap.
  - unfold row_or_free. simpl. pose proof (expand_or_free arm) as Hf.
    rewrite list.Forall_forall in Hf. by rewrite Hf.
  - constructor; [by eapply wt_expand|constructor].
Qed.

(** A row matrix of one type, or-free. *)
Definition good (matrix : list (list IPat)) (ty : Ty) : Prop :=
  matrix_or_free matrix /\ wt_matrix decls adt_fields matrix [ty].

Lemma good_app m m' ty : good m ty -> good m' ty -> good (m ++ m') ty.
Proof. intros [] []. split; by apply Forall_app. Qed.

Lemma useful_row_returns matrix ty row :
  good matrix ty -> or_free row = true -> wt row ty ->
  returns (fun fuel => useful decls adt_fields fuel matrix [row] [ty]).
Proof.
  intros [Hof Hwt] Hrow Hty. apply useful_returns; [done| |done|by repeat constructor].
  unfold row_or_free. simpl. by rewrite Hrow.
Qed.

(** The verdicts on the arms: an unreachable one matches only what earlier arms match; a
    reachable one of valid patterns matches something new. *)
Inductive verdicts (ty : Ty) : list IPat -> list IPat -> list bool -> Prop :=
| VD_Nil before : verdicts ty before [] []
| VD_Cons before arm arms unreachable flags :
    (unreachable = true -> forall v, value_of v ty -> pmatch arm v = true ->
      exists arm', arm' ∈ before /\ pmatch arm' v = true) ->
    (unreachable = false -> valid_pat arm = true -> inhabited_types decls adt_fields ->
      exists v, value_of v ty /\ pmatch arm v = true
        /\ forall arm', arm' ∈ before -> pmatch arm' v = false) ->
    verdicts ty (before ++ [arm]) arms flags ->
    verdicts ty before (arm :: arms) (unreachable :: flags).

Lemma valid_expand p p' : valid_pat p = true -> p' ∈ expand_or p -> valid_pat p' = true.
Proof.
  revert p'; induction p as [|key args IH|value|alts IH] using IPat_nested_ind; intros p' Hv; simpl.
  - by intros ->%list_elem_of_singleton.
  - intros (args' & -> & Ha%elem_of_product)%list_elem_of_fmap. simpl in Hv |- *. revert args' Ha.
    induction IH as [|arg args Harg _ IHargs]; intros args' Ha; simpl in *.
    + by apply Forall2_nil_inv_r in Ha as ->.
    + apply Forall2_cons_inv_r in Ha as (q & args'' & Hq & Ha & ->). simpl.
      apply andb_true_iff in Hv as [Hv1 Hv2]. by rewrite Harg, IHargs.
  - by intros ->%list_elem_of_singleton.
  - intros (alt & Halt & Hp')%list_elem_of_In%in_flat_map. simpl in Hv. rewrite forallb_forall in Hv.
    rewrite List.Forall_forall in IH. eapply IH; [done|by apply Hv|by apply list_elem_of_In].
Qed.

Lemma not_covered_arms arms v :
  ~ covers (arms_rows arms) [v] -> forall arm, arm ∈ arms -> pmatch arm v = false.
Proof.
  intros Hn arm Hin. apply not_true_iff_false. intros Hm. apply Hn, arms_rows_covers. eauto.
Qed.

Lemma check_arms_correct before arms ty :
  Forall (fun arm => wt arm ty) before -> Forall (fun arm => wt arm ty) arms ->
  exists N flags, (forall fuel, N <= fuel ->
      check_arms decls adt_fields fuel (arms_rows before) arms ty = Done (flags, arms_rows (before ++ arms)))
    /\ verdicts ty before arms flags.
Proof.
  intros Hbefore Harms. revert before Hbefore.
  induction Harms as [|arm arms Harm Harms IH]; intros before Hbefore; simpl.
  { exists 0, []. rewrite app_nil_r. split; [done|constructor]. }
  assert (good (arms_rows before) ty) as Hgood.
  { unfold arms_rows. clear IH. induction Hbefore as [|a before Ha _ IH]; simpl; [split; constructor|].
    apply good_app; [by apply arm_rows_typed|done]. }
  destruct (returns_any (fun fuel row => useful decls adt_fields fuel (arms_rows before) [row] [ty])
    (expand_or arm)) as (N & b & Hb).
  { intros row Hrow. pose proof (expand_or_free arm) as Hf. rewrite list.Forall_forall in Hf.
    apply useful_row_returns; [done|by apply Hf|by eapply wt_expand]. }
  destruct (IH (before ++ [arm])) as (N' & flags & Hflags & Hverdicts).
  { apply Forall_app. split; [done|by repeat constructor]. }
  exists (max N N'), (negb b :: flags). split.
  - intros fuel Hle. rewrite Hb by lia. simpl.
    assert (arms_rows before ++ ((fun row => [row]) <$> expand_or arm) = arms_rows (before ++ [arm])) as ->.
    { unfold arms_rows. rewrite bind_app. simpl. by rewrite app_nil_r. }
    rewrite Hflags by lia. simpl. by rewrite <- app_assoc.
  - specialize (Hb N ltac:(lia)). constructor; [| |done].
    + intros ->%negb_true_iff v Hv (row & Hrow & Hm)%expand_or_match.
      apply arms_rows_covers. apply any_false with (x := row) in Hb; [|done].
      destruct Hgood as [_ Hwt]. eapply useful_covered; [done|done|exact Hb|done| | |].
      * constructor; [by eapply wt_expand|constructor].
      * by repeat constructor.
      * unfold row_match. simpl. by rewrite Hm.
    + intros ->%negb_false_iff Hvalid Hinh. apply any_true in Hb as (row & Hrow & Hu).
      destruct Hgood as [_ Hwt].
      eapply useful_escapes in Hu as (vs & Hvs & Hm & Hn); [|done|done|done|done| |].
      * apply Forall2_cons_inv_r in Hvs as (v & ws & Hv & ->%Forall2_nil_inv_r & ->).
        exists v. split; [done|]. split; [|by apply not_covered_arms].
        apply expand_or_match. exists row. split; [done|].
        unfold row_match in Hm. simpl in Hm. by rewrite andb_true_r in Hm.
      * constructor; [by eapply wt_expand|constructor].
      * simpl. by rewrite (valid_expand arm row).
Qed.

Lemma check_match_correct arms ty :
  Forall (fun arm => wt arm ty) arms ->
  exists N flags missing, (forall fuel, N <= fuel ->
      check_match decls adt_fields fuel arms ty = Done (flags, missing))
    /\ verdicts ty [] arms flags
    /\ (missing = None -> forall v, value_of v ty -> exists arm, arm ∈ arms /\ pmatch arm v = true)
    /\ (missing ≠ None -> inhabited_types decls adt_fields ->
        exists v, value_of v ty /\ forall arm, arm ∈ arms -> pmatch arm v = false).
Proof.
  intros Harms. destruct (check_arms_correct [] arms ty) as (N & flags & Hflags & Hverdicts);
    [constructor|done|]. simpl in Hflags.
  assert (good (arms_rows arms) ty) as Hgood.
  { unfold arms_rows. clear -Harms fields_length Htags. induction Harms as [|a arms Ha _ IH]; simpl; [split; constructor|].
    apply good_app; [by apply arm_rows_typed|done]. }
  destruct (useful_row_returns _ _ IP_Wild Hgood) as (N' & b & Hb); [done|constructor|].
  exists (max N N'), flags, (if b then Some (missing_ctors decls adt_fields (arms_rows arms) ty) else None).
  destruct Hgood as [_ Hwt]. split; [|split; [done|split]].
  - intros fuel Hle. unfold check_match. rewrite Hflags by lia. simpl. rewrite Hb by lia. done.
  - specialize (Hb N' ltac:(lia)). destruct b; [done|]. intros _ v Hv. apply arms_rows_covers.
    eapply useful_covered; [done|done|exact Hb|done|by repeat constructor|by repeat constructor|done].
  - specialize (Hb N' ltac:(lia)). destruct b; [|done]. intros _ Hinh.
    eapply useful_escapes in Hb as (vs & Hvs & Hm & Hn); [|done|done|done|done|by repeat constructor|done].
    apply Forall2_cons_inv_r in Hvs as (v & ws & Hv & ->%Forall2_nil_inv_r & ->).
    exists v. split; [done|]. by apply not_covered_arms.
Qed.
End Decides.

(** ** Theorems *)

Section Theorems.
Context (decls : SourceId -> TypeDecls) (adt_fields : SourceId -> string -> Ty -> nat -> list Ty).

(** What the declarations and inference promise: distinct tags in a union, and a field type for
    each declared field. *)
Record well_declared : Prop := {
  wd_tags : tags_distinct decls;
  wd_fields : forall file name ty arity, length (adt_fields file name ty arity) = arity }.

(** C6: On typed arms, the check of a match returns from some fuel on.  An arm it calls
    unreachable matches only values that earlier arms match; an arm it does not, with no
    undecodable literal, matches a value none of them does.  When it reports no missing case,
    every value of the scrutinee's type is matched by some arm; when it does, some value is
    matched by none (a type with no value aside). *)
Theorem check_match_decides (arms : list IPat) (ty : Ty) :
  well_declared -> Forall (fun arm => wt_pat decls adt_fields arm ty) arms ->
  exists N flags missing,
    (forall fuel, N <= fuel -> check_match decls adt_fields fuel arms ty = Done (flags, missing))
    /\ verdicts decls adt_fields ty [] arms flags
    /\ (missing = None -> forall v, has_ty decls adt_fields v ty -> exists arm, arm ∈ arms /\ pmatch arm v = true)
    /\ (missing ≠ None -> inhabited_types decls adt_fields ->
        exists v, has_ty decls adt_fields v ty /\ forall arm, arm ∈ arms -> pmatch arm v = false).
Proof. intros [Htags Hfields]. by apply check_match_correct. Qed.

(** The usefulness of a row against a matrix, both typed and or-free as the check builds
    them, is decided: the recursion terminates and neither an index nor the [expect] of the
    default matrix panics. *)
Theorem useful_terminates (matrix : list (list IPat)) (q : list IPat) (tys : list Ty) :
  well_declared -> matrix_or_free matrix -> row_or_free q ->
  wt_matrix decls adt_fields matrix tys -> Forall2 (wt_pat decls adt_fields) q tys ->
  exists N b, forall fuel, N <= fuel -> useful decls adt_fields fuel matrix q tys = Done b.
Proof. intros [Htags Hfields] ? ? ? ?. by apply useful_returns. Qed.

(** On a tuple pattern of another arity than the scrutinee's the check panics: with more
    components than the type by slicing an empty list of column types, with fewer by the
    [expect] of the default matrix. *)
Theorem wrong_arity_panics (fuel : nat) :
  6 <= fuel ->
  check_match decls adt_fields fuel [IP_Con Key_Tuple [IP_Wild; IP_Wild; IP_Wild]] (Ty_Tuple [ty_int; ty_int])
    = Panicked
  /\ check_match decls adt_fields fuel [IP_Con Key_Tuple [IP_Wild; IP_Wild]] (Ty_Tuple [ty_int; ty_int; ty_int])
    = Panicked.
Proof. intros Hf. do 6 (destruct fuel as [|fuel]; [lia|]). done. Qed.
End Theorems.

(** ** A union to check *)

Module Shapes.
Definition info : TypeDeclInfo := MkTypeDecl "Shape" V_Public false [] 0 false ["Dot"; "Pair"].
Definition ctors : list (string * CtorInfo) :=
  [("Dot", MkCtorInfo "Dot" "Shape" 0 0 0 V_Public); ("Pair", MkCtorInfo "Pair" "Shape" 1 2 1 V_Public)].
Definition decls (file : SourceId) : TypeDecls := MkTypeDecls {["Shape" := info]} (list_to_map ctors).
Definition adt_fields (file : SourceId) (name : string) (ty : Ty) (arity : nat) : list Ty := replicate arity ty_bool.
Definition ty : Ty := Ty_Adt (MkAdtRef 0 "Shape").

Lemma declared : well_declared decls adt_fields.
Proof.
  split; [|intros; apply length_replicate].
  intros file name info'. unfold type_named. simpl. intros [<- <-]%lookup_singleton_Some. by apply (bool_decide_unpack _); vm_compute.
Qed.

Definition dot : IPat := IP_Con (Key_Tag 0) [].
Definition pair (a b : IPat) : IPat := IP_Con (Key_Tag 1) [a; b].
Definition yes : IPat := IP_Con (Key_Tag 1) [].
Definition no : IPat := IP_Con (Key_Tag 0) [].

(** [| Dot -> .. | Pair true _ -> .. | Pair _ (true | false) -> .. | Pair false true -> ..] *)
Definition arms : list IPat := [dot; pair yes IP_Wild; pair IP_Wild (IP_Or [yes; no]); pair no yes].

Lemma typed_bool p : p ∈ [IP_Wild; yes; no] -> wt_pat decls adt_fields p ty_bool.
Proof.
  rewrite !elem_of_cons, elem_of_nil. intros [->|[->|[->|[]]]]; [constructor|..].
  - apply (WT_Con _ _ ty_bool _ (MkSigCtor (Key_Tag 1) "true" []) [] eq_refl); [right; left|constructor].
  - apply (WT_Con _ _ ty_bool _ (MkSigCtor (Key_Tag 0) "false" []) [] eq_refl); [left|constructor].
Qed.

Lemma typed_pair a b :
  wt_pat decls adt_fields a ty_bool -> wt_pat decls adt_fields b ty_bool -> wt_pat decls adt_fields (pair a b) ty.
Proof.
  intros Ha Hb.
  apply (WT_Con _ _ ty [MkSigCtor (Key_Tag 0) "Dot" []; MkSigCtor (Key_Tag 1) "Pair" [ty_bool; ty_bool]]
    (MkSigCtor (Key_Tag 1) "Pair" [ty_bool; ty_bool]) [a; b]); [by vm_compute|right; left|by repeat constructor].
Qed.

Lemma typed_dot : wt_pat decls adt_fields dot ty.
Proof.
  apply (WT_Con _ _ ty [MkSigCtor (Key_Tag 0) "Dot" []; MkSigCtor (Key_Tag 1) "Pair" [ty_bool; ty_bool]]
    (MkSigCtor (Key_Tag 0) "Dot" []) []); [by vm_compute|left|constructor].
Qed.

Lemma typed : Forall (fun arm => wt_pat decls adt_fields arm ty) arms.
Proof.
  assert (wt_pat decls adt_fields IP_Wild ty_bool) as Hw by constructor.
  assert (wt_pat decls adt_fields yes ty_bool) as Hy by (apply typed_bool; right; left).
  assert (wt_pat decls adt_fields no ty_bool) as Hn by (apply typed_bool; right; right; left).
  assert (wt_pat decls adt_fields (IP_Or [yes; no]) ty_bool) as Ho by (constructor; by repeat constructor).
  constructor; [apply typed_dot|]. by repeat (constructor; [by apply typed_pair|]).
Qed.

Example report : check_match decls adt_fields 20 arms ty = Done ([false; false; false; true], None).
Proof. vm_compute. reflexivity. Qed.
Example missing : check_match decls adt_fields 20 [pair yes IP_Wild] ty = Done ([false], Some ["Dot"]).
Proof. vm_compute. reflexivity. Qed.
End Shapes.

Lemma check_match_decides_witness : exists N flags missing,
  (forall fuel, N <= fuel ->
    check_match Shapes.decls Shapes.adt_fields fuel Shapes.arms Shapes.ty = Done (flags, missing))
  /\ verdicts Shapes.decls Shapes.adt_fields Shapes.ty [] Shapes.arms flags
  /\ (missing = None -> forall v, has_ty Shapes.decls Shapes.adt_fields v Shapes.ty ->
       exists arm, arm ∈ Shapes.arms /\ pmatch arm v = true).
Proof.
  destruct (check_match_decides Shapes.decls Shapes.adt_fields Shapes.arms Shapes.ty Shapes.declared Shapes.typed)
    as (N & flags & missing & Hdone & Hverdicts & Hcovered & _).
  by exists N, flags, missing.
Defined.

Lemma useful_terminates_witness : exists N b, forall fuel, N <= fuel ->
  useful Shapes.decls Shapes.adt_fields fuel [[Shapes.dot]; [Shapes.pair Shapes.yes IP_Wild]] [IP_Wild] [Shapes.ty] = Done b.
Proof.
  refine (useful_terminates Shapes.decls Shapes.adt_fields _ _ _ Shapes.declared _ _ _ _).
  - by repeat constructor.
  - done.
  - pose proof Shapes.typed as Ht. unfold Shapes.arms in Ht.
    apply List.Forall_cons_iff in Ht as [H1 Ht]. apply List.Forall_cons_iff in Ht as [H2 _].
    by repeat constructor.
  - by repeat constructor.
Defined.

Lemma wrong_arity_panics_witness :
  check_match Shapes.decls Shapes.adt_fields 6 [IP_Con Key_Tuple [IP_Wild; IP_Wild; IP_Wild]]
    (Ty_Tuple [ty_int; ty_int]) = Panicked.
Proof. apply (wrong_arity_panics Shapes.decls Shapes.adt_fields 6). lia. Defined.
